(* ===== verification/_CoqProject ===== *)
-Q . S2P
Prelude.v
Utf8.v
Bigint.v
Cell.v
Arith.v
Eval.v
Bytecode.v
Compiler.v
Layout.v
Machine.v
Exec.v
Fragment.v
Scope.v
Refine.v
Agree.v
Order.v
Vm.v
Wellcode.v
Codegen.v
Walker.v
Divergence.v
Symtree.v
Redblack.v
Insertion.v
Symfind.v
Deletion.v
Symdelete.v
Symtable.v
Context.v
World.v
Symbols.v
Hash.v
Balance.v
Spaces.v
Nursery.v
Evacuate.v
Collect.v
Treewalk.v
Rootset.v
Gc.v
Lists.v
Deleting.v
Copying.v
Storage.v
Listops.v
Segments.v
Pushing.v
Popping.v
Relinking.v
Primitives.v
Sort.v
Merging.v
Ranking.v
Sets.v
Setops.v
Token.v
Tokens.v
Bigtext.v
Reader.v
Printer.v
Lexing.v
Reading.v
Printing.v
Readsafe.v
Roundtrip.v
Pattern.v
Unify.v
Unifier.v
Mgu.v
Json.v
Jsonsafe.v
Jsongrammar.v
Jsontext.v
Web.v
Strops.v
Texts.v
Longdiv.v
Rounding.v
Guessing.v
Division.v
