(* ===== verification/Prelude.v ===== *)
(** * Formal development of newLISP Neo: root file and shared prelude

    The program is an interpreter for newLISP written in C.  A lambda is compiled
    to bytecode when it can be (src/nl-vm.c) and walked as a tree otherwise
    (src/newlisp.c).  This library models both engines and the data they work on,
    and proves what they promise, above all that they agree.  The names of a
    program live in contexts, trees of symbols (src/nl-symbol.c), which double as
    hash tables; the library models the trees down to their pointers.

    ** The parts

    - Utf8.v: src/nl-utf8.c, the encoder, the decoders and the walkers over
      strings; buffers are byte lists, pointers are indices.
    - Bigint.v: the big integers of src/nl-math.c ([addBigint], [subBigint],
      [mulBigint], [cmpBigint], the conversions from and to 64-bit integers) on
      the digit arrays the code works on.
    - Longdiv.v: [divModBigint], the long division whose digits are guessed from
      doubles, [lengthBigint], and the operators of [arithmetikOp] on big integers.
    - Cell.v: cells and symbols (src/newlisp.h) as values, with their type words,
      and [compareCells] (src/nl-math.c).
    - Arith.v: [arithmetikOp] and [compareOp] (src/nl-math.c) with the conversion
      [getInteger64Ext] (src/newlisp.c).
    - Eval.v: the tree walker [evaluateExpression] and [evaluateLambda]
      (src/newlisp.c) with the primitives [while], [cond], [begin], [and], [if],
      [when], [or], [setq], [let], [local] and the operators.  The state is the
      contents of every symbol.  All other primitives are the class
      [TreeRuntime].
    - Bytecode.v: the opcodes (src/nl-vm.h) and their operands.
    - Compiler.v: [compileExpr] and [compileLambda] (src/nl-vm.c), one definition
      per special form, on the record [Compiler] of the code.
    - Machine.v: [executeBytecode] (src/nl-vm.c), one definition per instruction
      or group of instructions, on a heap of cells, the operand stack, the frames
      and the cells of the symbols.  A call of anything but compiled code is the
      class [Runtime].
    - Symtree.v: the red-black tree of the symbols of a context
      (src/nl-symbol.c), on a heap of [SYMBOL] structures with the static [root]:
      the rotations, [findInsertSymbol], [deleteSymbol] and their repairs, one
      definition per function or branch; [collectSymbols].
    - Context.v: contexts on that heap (src/nl-symbol.c, src/newlisp.c):
      [translateCreateSymbol], [deleteAndFreeSymbol], [deleteContextSymbols], and
      [evaluateNamespaceHash], the use of a context as a hash table.
    - Nursery.v: the memory of cells (src/newlisp.c): the blocks with their free
      list, the nursery, [gcEvacuate], [gcWalkSymbolTree], [collectGen0], and the
      functions that make cells ([getCell], [makeCell], [stuffInteger], ...).
    - Lists.v: [copyCell], [copyList], [deleteList], [addList] (src/newlisp.c) with
      [copyArray], [deleteArray] (src/nl-list.c) and [freeBytecodeObj]
      (src/nl-vm.c) on that memory.
    - Listops.v: [push], [pop], [nth], [first], [last], [rest], [append], [extend],
      [reverse] and [rotate] of lists (src/nl-liststr.c, src/nl-list.c,
      src/newlisp.c) on that memory, with the last-element pointers they use.
    - Strops.v: the string primitives without regular expressions (src/nl-string.c,
      src/nl-liststr.c, src/newlisp.c) on the buffers of strings: [slice], indexing,
      [push], [pop], [explode], [join], [trim], [find], [replace] and others.
    - Sort.v: [sort], [intersect], [difference], [unique] and [count] of
      src/nl-list.c on vectors of cells, with [binsort], their merge sort.
    - Pattern.v: [match] (src/nl-list.c, [patternMatchL]), with what a match is and the
      theorem about it.
    - Unify.v: [unify] (src/nl-math.c) with its static stacks, and [expand]
      (src/newlisp.c) with a symbol.
    - Token.v: [getToken] and [isLegalSymbol] (src/newlisp.c) on the bytes of a
      text, one definition per kind of token; reads and writes are bounds-checked.
    - Bigtext.v: [strToBigint] and [bigintToDigits] (src/nl-math.c), with their
      theorems.
    - Reader.v: [compileExpression] (src/newlisp.c) on the tokens of a text and the
      symbols of Context.v, with [readStreamText] (src/nl-string.c) and the mode
      of [sysEvalString] that is [read-expr].  Cells are trees ([datum]).
    - Printer.v: [printCell], [printString] and the pretty printer
      (src/newlisp.c) on the same trees.
    - Json.v: [json-parse] (src/nl-xml-json.c) on the bytes of a text, with the
      cells of Reader.v, the symbols of Context.v and the static error.
    - Web.v: base64 and percent codes (src/nl-web.c), with their theorems.

    The remaining files hold specifications and proofs.

    - Layout.v: what each form of the compiler appends to the code, as layouts
      that the proofs about execution read; Wellcode.v: what well-formed code is
      ([starts], [operand_ok], [bytecode_ok]: whole instructions, operands that exist,
      jumps to instructions), and that each form appends such code; Codegen.v draws the
      consequences.
    - Exec.v: the effect of single instructions on the stack.
    - Fragment.v: the decidable fragment of the language on which the two engines
      agree.
    - Scope.v: the scopes of the tree walker against the slots of the compiler.
    - Refine.v: the simulation, form by form; Agree.v: lambdas.
    - Order.v, Vm.v, Walker.v: properties of the comparison, of the machine and
      of the tree walker for all inputs.
    - Divergence.v: programs on which compiled code and tree walker differ, and
      the compiler's write through a NULL pointer.
    - Redblack.v: the structures of Symtree.v as an inductive tree below a path of
      ancestors, and the effect of assignments and rotations on that view;
      Insertion.v, Symfind.v, Deletion.v, Symdelete.v: the repairs, the
      search, the removal of a structure.
    - Symtable.v: the interface [SymbolTree], what one tree promises to the
      contexts, and its instance; World.v, Symbols.v, Hash.v: the contexts over
      that interface, seen as finite maps from names to values.
    - Balance.v, Spaces.v: the theorems about one tree and about contexts.
    - Evacuate.v: lists of cells as inductive trees, what represents them in the
      memory, and the loop of [gcEvacuate] on them; Collect.v: several such lists
      as roots; Treewalk.v: the symbol trees of all contexts as one tree of roots;
      Rootset.v: the whole root set ([snapshot], [holds]) and its collection;
      Gc.v: the theorems about the collector.
    - Deleting.v, Copying.v: the same lists of cells, deleted and copied; Storage.v:
      the theorems about both.
    - Segments.v: lists of cells as sequences of elements with the pointer behind the
      last one, and what a primitive may have written ([edited]); Pushing.v, Popping.v,
      Relinking.v: the primitives of Listops.v on them; Primitives.v: the theorems.
    - Texts.v: the buffers of UTF-8 texts as sequences of characters, what the string
      primitives do to them, and the theorems.
    - Rounding.v: the doubles of SpecFloat as rounded rationals; Guessing.v: the guesses
      of the long division are close; Division.v: the loop of the division and the
      theorems.
    - Merging.v: [binsort] as merges of lists, for any comparison and for an order;
      Ranking.v: [compareCells] is an order without floats and contexts; Sets.v: the
      walk through two sorted vectors; Setops.v: the theorems.
    - Unifier.v: terms, substitutions and equality of terms; Mgu.v: the rounds of [unify]
      keep the solutions and get smaller, and the theorems.
    - Tokens.v: which texts make [getToken] leave its buffers; Readsafe.v: the
      reader always answers.  Lexing.v: the tokens of printed text; Reading.v: the
      cells of printed text ([reads d t]); Printing.v: the text of a cell;
      Roundtrip.v: which symbol a printed name stands for, and the round trip.
    - Jsonsafe.v: the JSON parser always answers; Jsongrammar.v: the grammar of JSON with
      what its texts denote, independent of the parser; Jsontext.v: which texts of it are
      read as that.

    ** What the theorems show

    - Agreement: [Agree.compiled_lambda_agrees] is the refinement theorem.  A
      call of a lambda of the fragment that the tree walker answers is answered
      alike by its bytecode, which ends, and leaves stack, frames and globals as
      they were.  [Vm.exec_arith_agrees] and [Vm.exec_compare_agrees] state the
      agreement of the operators, errors included: of the arithmetic ones on operands
      that evaluate to themselves (on a symbol, a quoted expression or a list they
      evaluate once more: [Vm.symbol_operand_diverges]), of the comparisons away from
      NaN ([Vm.compare_nan_diverges]).  [Divergence.compiled_code_diverges] shows that
      the restrictions of the fragment are needed.
    - Compiler: [Codegen.compileExpr_emits] (it appends whole instructions with
      operands that exist and jumps to instructions, keeps the pools and
      the scope, and bounds the frame), [Codegen.compileLambda_wf] (the same of whole
      bytecode objects),
      [Codegen.forward_jump_lands] (16-bit jumps), [Codegen.call_operand] (8-bit
      argument counts), [Divergence.while_condition_null_write].
    - Machine: [Vm.call_return_roundtrip]; [Vm.tail_call_self_keeps_frame];
      [Vm.endless_padding] for functions of 256 parameters.
    - Tree walker: [Walker.evaluateLambda_scope] (parameters with and without default
      expressions), [Walker.let_restores],
      [Walker.p_while_rounds], [Walker.evaluateExpression_fuel]; the operators in
      [Walker.arithmetikOp_exact] and [Walker.compareOp_chained]; the comparison
      in [Order.compareCells_order].
    - Big integers: [Division.arithmetikOp_bigint_exact] (the operators are exact on any
      operands; the long division needs one [int] more in each of its arrays than it
      asks for, which [Division.alloca_too_short] shows), [Division.lengthBigint_digits];
      the [_correct] theorems of Bigint.v relate digit arrays to integers and show that
      no access leaves a buffer.
    - UTF-8: round trips, counting and indexing, and two defects.
    - Symbol trees: [Balance.findInsertSymbol_redblack] and
      [Balance.deleteSymbol_redblack] (the red-black invariant and the order of
      the names), [Balance.search_tree_logarithmic],
      [Balance.collectSymbols_sorted] for the traversal, and
      [Balance.findInsertSymbol_empty_name] (a read behind a buffer).
    - Contexts: [Spaces.translateCreateSymbol_scope] (which symbol a name stands
      for), [Spaces.deleteContextSymbols_clears]; as hash tables
      [Spaces.evaluateNamespaceHash_map] (setting, deleting and reading refine the
      operations of a finite map) and [Spaces.evaluateNamespaceHash_roundtrip];
      [Spaces.evaluateNamespaceHash_reenter] is a write to a freed symbol.
    - Collector: [Gc.gcEvacuate_copies] (a list is copied as it is),
      [Gc.collectGen0_keeps] (a collection keeps the data of all roots and empties
      the nursery), [Gc.makeCell_keeps] (a new cell is no cell in use).  The last two are
      conditional: the roots share no cells and hold no arrays, nothing outside of the nursery
      points into it, all contexts are reached from MAIN and fewer than 256 of them are
      recorded, and the copies fit below [MAX_CELL_COUNT].  [Gc.pushed_cell_lost] shows that
      the interpreter itself makes old lists with pointers into the nursery and then loses cells,
      and [Gc.unrecorded_context_diverges] that with 256 contexts the walk need not end.
    - Lists of cells: [Storage.copyList_copies], [Storage.deleteList_frees];
      [Storage.copyCell_stale] shows that the bound on the room in the nursery in the
      first is needed.
    - List primitives: [Primitives.p_push_inserts] (but for an index that is the length behind an
      empty list or nil, [Primitives.push_behind_empty]), [Primitives.p_pop_removes] (elements
      at any depth; the last-element pointers stay right),
      [Primitives.implicitIndexList_finds], [Primitives.p_last_finds] (the pointers are
      transparent), [Primitives.p_reverse_reverses], [Primitives.p_rotate_turns] with
      [Primitives.p_rotate_loses]; the examples behind them are an element pushed into
      its neighbour and the pointers of compiled lambdas.
    - Strings: [Texts.push_pop_roundtrip], [Texts.string_index_set] and
      [Texts.explode_join] (strings are sequences of characters of any width),
      [Texts.replaceString_replaces] (the two loops of [replace] compute the leftmost
      replacement), [Texts.appendCellString_ok]; the examples behind them are keys,
      sizes and arguments on which the code leaves a buffer.
    - Sorting and sets: [Setops.sort_list_stable], and [Setops.sort_list_permutes] for
      any function; [Setops.setInterDiff_spec] and [Setops.count_items_spec] say that
      the walks through sorted vectors compute the quadratic reference definitions
      [Sets.set_spec] and [Setops.count_spec].  With floats they do not
      ([Setops.Examples.intersect_misses]).
    - Unification: [Mgu.p_unify_mgu] (the answer is a most general unifier, or nil when
      there is none), [Mgu.p_unify_ends]; [Mgu.Demo.unify_manual] runs the examples of the
      manual, the examples behind it show what errors leave on the stacks.
    - Patterns: [Pattern.p_match_matches] (the search with its early returns decides the
      inductive relation [matches]); [Pattern.match_misses_nil] for lists with cells nil.

    - Reader and printer: [Roundtrip.print_read_roundtrip] (what is printed of a
      cell is read as that cell), [Readsafe.compileExpression_total] (the reader
      ends on every text and keeps the contexts well formed), [Tokens.getToken_safe]
      and [Tokens.getToken_overruns] (the bounds of the tokenizer and where they
      are broken), [Bigtext.bigint_text_roundtrip] and [Bigtext.strToBigint_value].
      [Roundtrip.printed_name_captured] shows why the names of contexts must not be
      hidden in the round trip.
    - JSON: [Jsontext.p_JSONparse_reads] (JSON texts without surrogate pairs, without a carriage
      return directly behind a number and with numbers of up to 1024 characters are read as what they denote),
      [Jsonsafe.p_JSONparse_total] (any text: an answer or a recorded error, and where
      the one overrun is); the examples of Jsontext.v are texts that are read wrongly.
    - Base64: [Web.base64_roundtrip], [Web.base64Dec_total] (no text makes the decoder
      leave its buffers), [Web.url_decode_percent].

    ** Conventions

    A C function that can fail returns a [result]: [Ok], [Fail e] for a call of
    [errorProc], [UB] for an access outside an object or of a freed cell,
    [NoFuel] when the bound of a modelled loop is used up.  Loops over lists and
    arrays are structural.  Fuel bounds only what need not end: the tree walker
    (depth of evaluation and rounds of [while]; [Walker.evaluateExpression_fuel]
    shows that more fuel does not change an answer and [Walker.p_while_rounds]
    how much a loop needs) and the machine (number of instructions;
    [Agree.compiled_lambda_agrees] gives the existence of enough).  The loops over
    symbol trees run under the number of structures in the heap, those of Sort.v under the
    lengths of the vectors, [gcEvacuate] under
    the number of cells, and the theorems show that this never runs out; the walk
    of the collector takes the depth of the symbol trees.  The reader takes more than
    the length of the text, which is enough because every token takes a byte.
    [unify] takes a number of rounds that [Mgu.p_unify_ends] shows to exist.  The long
    division takes four guesses for each digit, [explode], [join] and [replace] the lengths
    of their buffers, and their theorems show that this is enough.  Integers are
    [Z] with the wrap-around of their width written out ([int64], [int16],
    [uint8], ...).  Floats are [SpecFloat] doubles.

    ** What is not modelled

    Cells of the tree walker are values, not shared objects, so that an operand
    that a later operand overwrites in place does not show; the machine has the
    heap and the sharing.  The machine's heap has no nursery; the
    collector, [copyCell] and [deleteList] are modelled on a memory of their own
    (Nursery.v) with addresses as in C; the theorems about them leave arrays aside,
    and those about deleting and copying also lambdas with a bytecode object.  The
    reset that returns blocks is left out.  Out of memory is left out.  Big integers, arrays,
    dynamic symbols and imported functions are no values of the two engines.
    In the heap of symbols, addresses are not handed out twice, contents are
    values, and what looks through all cells for a deleted symbol ([references],
    [changeContextCells]) is left out.  Vectors hold values, so that the cells a vector points to and
    their release are left out.  The texts of the reader are in memory, so that the
    refilling of a buffer from a file is left out; the marks of the debugger, arrays,
    primitives and imported functions are not printed, and the format of floats and
    the call of a macro during reading are parameters.  Of the strings, what
    regular expressions, [format], [pack] and the case functions of the C library do is
    left out, and so are embedded zeros in the theorems of Texts.v that speak of
    characters; the fields of a match in [replace] are taken to fit an [int].  Big
    integers made from floats and operands of mixed kinds are left out, and the contents
    of the blocks of [malloc] and [alloca] are parameters.  The other list primitives
    (src/nl-list.c, src/nl-liststr.c: [assoc], [ref], [select], [flat] and their
    relatives) and the parser of XML (src/nl-xml-json.c) repeat walks whose kinds are
    modelled in other primitives; they are left out for their size.  Matrices,
    statistics and the other functions on floats are numeric analysis on doubles;
    files, sockets, processes, HTTP, foreign functions, the debugger and the Windows glue
    are layers over the system; PCRE is vendored. *)

From stdpp Require Import base list numbers tactics.
From Stdlib Require Import ZArith Lia.

#[global] Open Scope Z_scope.

(** ** Outcomes of C code

    [Ok v] is a normal return, [Fail e] a call of [errorProc] with the error
    number [e] (a [longjmp] that never returns to the caller), [UB] an access
    outside the bounds of the object the pointer points into, or a read of
    freed memory, and [NoFuel] the exhaustion of the bound a modelled loop
    runs under; every loop comes with a theorem that its bound is enough. *)

Inductive result (A : Type) : Type :=
  | Ok (v : A)
  | Fail (e : Z)
  | UB
  | NoFuel.
Arguments Ok {A} v.
Arguments Fail {A} e.
Arguments UB {A}.
Arguments NoFuel {A}.

#[export] Instance result_ret : MRet result := @Ok.
#[export] Instance result_bind : MBind result := fun A B f r =>
  match r with
  | Ok v => f v
  | Fail e => Fail e
  | UB => UB
  | NoFuel => NoFuel
  end.

Lemma bind_ok {A B} (v : A) (f : A → result B) : (Ok v ≫= f) = f v.
Proof. reflexivity. Qed.

Lemma bind_ok_inv {A B} (r : result A) (f : A → result B) b :
  (r ≫= f) = Ok b → ∃ v, r = Ok v ∧ f v = Ok b.
Proof. destruct r; simpl; intros; try discriminate; eauto. Qed.

(** ** Machine integers *)

Definition wrapS (w z : Z) : Z := (z + 2 ^ (w - 1)) mod 2 ^ w - 2 ^ (w - 1).
Definition wrapU (w z : Z) : Z := z mod 2 ^ w.

Abbreviation int16 := (wrapS 16).
Abbreviation int32 := (wrapS 32).
Abbreviation int64 := (wrapS 64).
Abbreviation uint8 := (wrapU 8).
Abbreviation uint16 := (wrapU 16).
Abbreviation uint32 := (wrapU 32).

(** A [char] of this platform is signed: bytes are kept as [0 .. 255] and read
    through [schar] where the code reads a plain [char]. *)
Definition schar (b : Z) : Z := wrapS 8 b.

Lemma wrapS_small w z : 0 < w → - 2 ^ (w - 1) ≤ z < 2 ^ (w - 1) → wrapS w z = z.
Proof.
  intros Hw Hz. unfold wrapS.
  replace (2 ^ w) with (2 * 2 ^ (w - 1)) by (rewrite <- Z.pow_succ_r by lia; f_equal; lia).
  rewrite Z.mod_small; lia.
Qed.

Lemma wrapS_range w z : 0 < w → - 2 ^ (w - 1) ≤ wrapS w z < 2 ^ (w - 1).
Proof.
  intros Hw. unfold wrapS.
  assert (H : 2 ^ w = 2 * 2 ^ (w - 1)) by (rewrite <- Z.pow_succ_r by lia; f_equal; lia).
  assert (0 < 2 ^ (w - 1)) by (apply Z.pow_pos_nonneg; lia).
  pose proof (Z.mod_pos_bound (z + 2 ^ (w - 1)) (2 ^ w)). lia.
Qed.

Lemma wrapS_congr w z k : 0 < w → wrapS w (z + k * 2 ^ w) = wrapS w z.
Proof.
  intros Hw. unfold wrapS. f_equal.
  replace (z + k * 2 ^ w + 2 ^ (w - 1)) with (z + 2 ^ (w - 1) + k * 2 ^ w) by lia.
  apply Z.mod_add. pose proof (Z.pow_pos_nonneg 2 w). lia.
Qed.

Lemma wrapS_mod w z : 0 < w → (wrapS w z) mod 2 ^ w = z mod 2 ^ w.
Proof.
  intros Hw. unfold wrapS. assert (0 < 2 ^ w) by (apply Z.pow_pos_nonneg; lia).
  rewrite Zminus_mod_idemp_l. f_equal. lia.
Qed.

Lemma wrapS_eq w a b : 0 < w → a mod 2 ^ w = b mod 2 ^ w → wrapS w a = wrapS w b.
Proof.
  intros Hw H. unfold wrapS. f_equal.
  rewrite (Z.add_mod a), (Z.add_mod b), H; [done|..];
    pose proof (Z.pow_pos_nonneg 2 w); lia.
Qed.

(** Intermediate wrap-around does not matter under a final one. *)
Lemma wrapS_mul_add w a b c : 0 < w → wrapS w (wrapS w a * b + c) = wrapS w (a * b + c).
Proof.
  intros Hw. apply wrapS_eq; [done|]. assert (0 < 2 ^ w) by (apply Z.pow_pos_nonneg; lia).
  rewrite Z.add_mod, Z.mul_mod, wrapS_mod by lia.
  rewrite <- Z.mul_mod, <- Z.add_mod by lia. done.
Qed.

Lemma wrapS_sub w a b : 0 < w → wrapS w (a - wrapS w b) = wrapS w (a - b).
Proof.
  intros Hw. apply wrapS_eq; [done|]. assert (0 < 2 ^ w) by (apply Z.pow_pos_nonneg; lia).
  rewrite Zminus_mod, wrapS_mod, <- Zminus_mod by lia. done.
Qed.

Lemma wrapU_small w z : 0 ≤ z < 2 ^ w → wrapU w z = z.
Proof. intros. unfold wrapU. by apply Z.mod_small. Qed.

Lemma wrapU_range w z : 0 ≤ w → 0 ≤ wrapU w z < 2 ^ w.
Proof. intros. apply Z.mod_pos_bound. apply Z.pow_pos_nonneg; lia. Qed.

(** Packing a field below another one. *)
Lemma lor_pack w u v : 0 ≤ w → 0 ≤ v < 2 ^ w → Z.lor (Z.shiftl u w) v = u * 2 ^ w + v.
Proof.
  intros Hw Hv. rewrite <- Z.shiftl_mul_pow2 by done.
  assert (Hz : Z.land (Z.shiftl u w) v = 0).
  { apply Z.bits_inj'. intros n Hn. rewrite Z.land_spec, Z.shiftl_spec, Z.bits_0 by done.
    destruct (Z.ltb_spec n w); [by rewrite Z.testbit_neg_r by lia|].
    destruct (Z.eq_dec v 0) as [->|]; [by rewrite Z.bits_0, andb_false_r|].
    rewrite (Z.bits_above_log2 v n); [apply andb_false_r|lia|]. apply Z.log2_lt_pow2; [lia|].
    apply Z.lt_le_trans with (2 ^ w); [lia|]. by apply Z.pow_le_mono_r. }
  by rewrite Z.add_nocarry_lxor, Z.lxor_lor.
Qed.

(** ** C arrays: bounds-checked reads and writes *)

Definition rd {A} (l : list A) (i : nat) : result A :=
  match l !! i with Some v => Ok v | None => UB end.

Definition wr {A} (l : list A) (i : nat) (v : A) : result (list A) :=
  if decide (i < length l)%nat then Ok (<[i := v]> l) else UB.

Lemma rd_ok {A} (l : list A) i v : l !! i = Some v → rd l i = Ok v.
Proof. unfold rd. by intros ->. Qed.

Lemma wr_ok {A} (l : list A) i v : (i < length l)%nat → wr l i v = Ok (<[i := v]> l).
Proof. intros. unfold wr. by rewrite decide_True. Qed.

(** Reading the front of what a buffer holds from a pointer on. *)
Lemma rd_drop {A} (l : list A) p b r : drop p l = b :: r → rd l p = Ok b.
Proof.
  intros H. apply rd_ok. replace p with (p + 0)%nat by lia.
  rewrite <- lookup_drop, H. reflexivity.
Qed.

Lemma drop_next {A} (l : list A) p b r : drop p l = b :: r → drop (S p) l = r.
Proof.
  intros H. replace (S p) with (p + 1)%nat by lia.
  rewrite <- drop_drop, H. reflexivity.
Qed.

Lemma drop_app_step {A} (l : list A) p a r :
  drop p l = a ++ r → drop (p + length a) l = r.
Proof. intros H. rewrite <- drop_drop, H. apply drop_app_length. Qed.

Lemma drop_cons_lt {A} (l : list A) p b r : drop p l = b :: r → (p < length l)%nat.
Proof.
  intros H. destruct (decide (p < length l)%nat); [done|].
  rewrite drop_ge in H by lia. discriminate.
Qed.

Definition byte_ok (b : Z) : Prop := 0 ≤ b < 256.
Definition byte_okb (b : Z) : bool := (0 <=? b) && (b <? 256).

Lemma byte_okb_spec b : byte_okb b = true ↔ byte_ok b.
Proof. unfold byte_okb, byte_ok. rewrite andb_true_iff, Z.leb_le, Z.ltb_lt. lia. Qed.

(** ** C loops over indices

    [for_down n body s] is [for(i = n; i > 0; i--) s = body(i, s)] and
    [for_up i k body s] runs [body] at [i], [i + 1], ..., [i + k - 1]. *)

Fixpoint for_down {S} (n : nat) (body : nat → S → result S) (s : S) : result S :=
  match n with
  | O => Ok s
  | Datatypes.S n' => s' ← body n s; for_down n' body s'
  end.

Fixpoint for_up {S} (i k : nat) (body : nat → S → result S) (s : S) : result S :=
  match k with
  | O => Ok s
  | Datatypes.S k' => s' ← body i s; for_up (Datatypes.S i) k' body s'
  end.

Lemma for_down_inv {S} (P : nat → S → Prop) body n : ∀ s,
  (∀ i s, (1 ≤ i ≤ n)%nat → P i s → ∃ s', body i s = Ok s' ∧ P (i - 1)%nat s') →
  P n s → ∃ s', for_down n body s = Ok s' ∧ P 0%nat s'.
Proof.
  induction n as [|n IH]; intros s Hb HP; [by exists s|].
  destruct (Hb (Datatypes.S n) s) as (s1 & E & HP1); [lia|done|].
  cbn [for_down]. rewrite E. cbn [mbind result_bind].
  apply IH; [intros; apply Hb; [lia|done]|]. by replace (Datatypes.S n - 1)%nat with n in HP1 by lia.
Qed.

Lemma for_up_inv {S} (P : nat → S → Prop) body k : ∀ i s,
  (∀ j s, (i ≤ j < i + k)%nat → P j s → ∃ s', body j s = Ok s' ∧ P (j + 1)%nat s') →
  P i s → ∃ s', for_up i k body s = Ok s' ∧ P (i + k)%nat s'.
Proof.
  induction k as [|k IH]; intros i s Hb HP.
  { exists s. by rewrite Nat.add_0_r. }
  destruct (Hb i s) as (s1 & E & HP1); [lia|done|].
  cbn [for_up]. rewrite E. cbn [mbind result_bind].
  replace (i + Datatypes.S k)%nat with (Datatypes.S i + k)%nat by lia.
  apply IH; [intros; apply Hb; [lia|done]|]. by replace (Datatypes.S i) with (i + 1)%nat by lia.
Qed.

(** ** Windows of an array *)

Definition win {A} (l : list A) (a n : nat) : list A := take n (drop a l).

Lemma win_length {A} (l : list A) a n : (a + n ≤ length l)%nat → length (win l a n) = n.
Proof. intros. unfold win. rewrite length_take, length_drop. lia. Qed.

Lemma win_cons {A} (l : list A) a n v : l !! a = Some v → win l a (S n) = v :: win l (S a) n.
Proof. intros H. unfold win. by rewrite (drop_S _ _ _ H). Qed.

Lemma win_0 {A} (l : list A) a : win l a 0 = [].
Proof. reflexivity. Qed.

Lemma lookup_win {A} (l : list A) a n k : (k < n)%nat → win l a n !! k = l !! (a + k)%nat.
Proof. intros. unfold win. by rewrite lookup_take_lt, lookup_drop by done. Qed.

Lemma win_app {A} (l : list A) a n m : win l a (n + m) = win l a n ++ win l (a + n) m.
Proof. unfold win. by rewrite <- drop_drop, take_take_drop. Qed.

Lemma win_insert_out {A} (l : list A) a n i v : (i < a ∨ a + n ≤ i)%nat →
  win (<[i := v]> l) a n = win l a n.
Proof.
  intros H. apply list_eq. intros k. destruct (decide (k < n)%nat).
  - rewrite !lookup_win by done. apply list_lookup_insert_ne. lia.
  - unfold win. rewrite !lookup_take_ge by lia. done.
Qed.

Lemma win_ext {A} (l l' : list A) a n :
  (∀ k, (a ≤ k < a + n)%nat → l !! k = l' !! k) → win l a n = win l' a n.
Proof.
  intros H. apply list_eq. intros k. destruct (decide (k < n)%nat).
  - rewrite !lookup_win by done. apply H. lia.
  - unfold win. rewrite !lookup_take_ge by lia. done.
Qed.

Lemma win_shift_ext {A} (l l' : list A) a a' n :
  (∀ k, (k < n)%nat → l !! (a + k)%nat = l' !! (a' + k)%nat) → win l a n = win l' a' n.
Proof.
  intros H. apply list_eq. intros k. destruct (decide (k < n)%nat).
  - rewrite !lookup_win by done. by apply H.
  - unfold win. rewrite !lookup_take_ge by lia. done.
Qed.

Lemma Forall_win_lookup {A} (P : A → Prop) (l : list A) a n k :
  Forall P (win l a n) → (a + n ≤ length l)%nat → (a ≤ k < a + n)%nat →
  ∃ v, l !! k = Some v ∧ P v.
Proof.
  intros HF Hlen Hk. destruct (lookup_lt_is_Some_2 l k) as [v Hv]; [lia|].
  exists v. split; [done|]. eapply Forall_lookup_1; [exact HF|].
  rewrite (lookup_win l a n (k - a)) by lia. by replace (a + (k - a))%nat with k by lia.
Qed.

(** ** Automation *)

Create HintDb neo.
#[export] Hint Resolve rd_ok wr_ok wrapS_small wrapU_small : neo.

(** Checks a property of every byte by computing it. *)
Definition all_below (n : nat) (p : Z → bool) : bool :=
  forallb p (Z.of_nat <$> seq 0 n).

Lemma all_below_spec n p : all_below n p = true → ∀ z, 0 ≤ z < Z.of_nat n → p z = true.
Proof.
  unfold all_below. rewrite forallb_forall. intros H z Hz. apply H.
  apply list_elem_of_In, list_elem_of_fmap. exists (Z.to_nat z).
  split; [lia|]. apply elem_of_seq. lia.
Qed.

Ltac by_bytes b Hb p :=
  let H := fresh in
  assert (H : p b = true);
  [ apply (all_below_spec 256 p); [vm_compute; reflexivity | exact Hb] | ].

(** [loop_down P] and [loop_up P] establish the invariant [P] of the C loop in
    the goal: first that the body preserves it, then that it holds initially;
    the loop's result is introduced in the last goal. *)
Ltac loop_down P :=
  match goal with |- context [for_down ?n ?body ?s] =>
    let H := fresh "Hloop" in
    assert (H : ∃ s', for_down n body s = Ok s' ∧ P 0%nat s');
    [apply (for_down_inv P body n s); cbn beta | ]
  end.

Ltac loop_up P :=
  match goal with |- context [for_up ?i ?k ?body ?s] =>
    let H := fresh "Hloop" in
    assert (H : ∃ s', for_up i k body s = Ok s' ∧ P (i + k)%nat s');
    [apply (for_up_inv P body k i s); cbn beta | ]
  end.

(** Splits a chain of monadic binds that is known to return [Ok]. *)
Ltac inv_bind H :=
  let v := fresh "v" in let Hv := fresh "Hv" in
  apply bind_ok_inv in H; destruct H as (v & Hv & H).
