(* ===== verification/Utf8.v ===== *)
(** * UTF-8 support (src/nl-utf8.c)

    Strings are byte buffers ([list Z], every element in [0 .. 255]) and a
    [char *] is an index into one; a read past the end of the buffer is [UB].
    A newLISP string cell of [size] characters owns [size + 1] bytes, the last
    of them 0. *)

From stdpp Require Import base list numbers tactics.
From Stdlib Require Import ZArith Lia.
From S2P Require Import Prelude.

(** ** Tables *)

Definition utf8_table1 : list Z := [0x7f; 0x7ff; 0xffff; 0x1fffff; 0x3ffffff; 0x7fffffff].
Definition utf8_table2 : list Z := [0; 0xc0; 0xe0; 0xf0; 0xf8; 0xfc].
Definition utf8_table3 : list Z := [0xff; 0x1f; 0x0f; 0x07; 0x03; 0x01].
Definition utf8_table4 : list Z :=
  [1;1;1;1;1;1;1;1;1;1;1;1;1;1;1;1;
   1;1;1;1;1;1;1;1;1;1;1;1;1;1;1;1;
   2;2;2;2;2;2;2;2;2;2;2;2;2;2;2;2;
   3;3;3;3;3;3;3;3;4;4;4;4;5;5;5;5].

(** ** Encoding one character *)

(** The table scan [for (i = 0; i < 6; i++) if (cvalue <= utf8_table1[i]) break]. *)
Fixpoint utf8_class (tbl : list Z) (cvalue : Z) : nat :=
  match tbl with
  | [] => 0
  | t :: tbl' => if cvalue <=? t then 0 else S (utf8_class tbl' cvalue)
  end.

(** The backward loop that writes the continuation bytes: [j] bytes, the last
    one first; the remaining value and the bytes in buffer order. *)
Fixpoint wchar_tail (j : nat) (cvalue : Z) (acc : list Z) : Z * list Z :=
  match j with
  | O => (cvalue, acc)
  | S j' => wchar_tail j' (Z.shiftr cvalue 6)
              (uint8 (Z.lor 0x80 (Z.land cvalue 0x3f)) :: acc)
  end.

(** The bytes [wchar_utf8] stores; the value it returns is their number. *)
Definition wchar_utf8 (cvalue : Z) : list Z :=
  let i := utf8_class utf8_table1 cvalue in
  let '(c, tail) := wchar_tail i cvalue [] in
  uint8 (Z.lor (nth i utf8_table2 0) c) :: tail.

(** ** Decoding one character: the macro GETCHARINC *)

Fixpoint getcharinc_loop (buf : list Z) (gcaa : nat) (gcss c : Z) (ptr : nat)
    : result (Z * nat) :=
  match gcaa with
  | O => Ok (c, ptr)
  | S gcaa' =>
      b ← rd buf ptr;
      let gcss := gcss - 6 in
      getcharinc_loop buf gcaa' gcss
        (Z.lor c (Z.shiftl (Z.land (schar b) 0x3f) gcss)) (S ptr)
  end.

Definition table4 (c : Z) : nat := Z.to_nat (nth (Z.to_nat (Z.land c 0x3f)) utf8_table4 0).

Definition getcharinc (buf : list Z) (ptr : nat) : result (Z * nat) :=
  c ← rd buf ptr;
  if Z.land c 0xc0 =? 0xc0 then
    let gcaa := table4 c in
    let gcss := 6 * Z.of_nat gcaa in
    getcharinc_loop buf gcaa gcss
      (Z.shiftl (Z.land c (nth gcaa utf8_table3 0)) gcss) (S ptr)
  else Ok (c, S ptr).

(** [utf8_wchar(utf8str, &chr)]: the character and the advanced pointer. *)
Definition utf8_wchar (buf : list Z) (ptr : nat) : result (Z * nat) := getcharinc buf ptr.

(** ** Walking a string *)

(** The byte is read, the pointer advanced, and only then compared with [limit]; [limit] is the index
    [str + size + 1].  [fuel] bounds the iterations by the buffer length. *)
Fixpoint utf8_wlen_loop (fuel : nat) (buf : list Z) (ptr limit : nat) (count : Z)
    : result Z :=
  match fuel with
  | O => NoFuel
  | S fuel' =>
      b ← rd buf ptr;
      let c := schar b in
      let ptr := S ptr in
      if (c =? 0) || negb (Nat.ltb ptr limit) then Ok count
      else
        let ptr := if Z.land c 0xc0 =? 0xc0 then (ptr + table4 c)%nat else ptr in
        utf8_wlen_loop fuel' buf ptr limit (count + 1)
  end.

Definition utf8_wlen (buf : list Z) (ptr limit : nat) : result Z :=
  utf8_wlen_loop (S (length buf)) buf ptr limit 0.

(** The loop runs while the byte is not 0 and [idx-- != 0]. *)
Fixpoint utf8_index_loop (fuel : nat) (buf : list Z) (ptr : nat) (idx : Z) : result nat :=
  match fuel with
  | O => NoFuel
  | S fuel' =>
      b ← rd buf ptr;
      let c := schar b in
      if (c =? 0) || (idx =? 0) then Ok ptr
      else
        let ptr := if Z.land c 0xc0 =? 0xc0 then (ptr + (table4 c + 1))%nat else S ptr in
        utf8_index_loop fuel' buf ptr (int32 (idx - 1))
  end.

Definition utf8_index (buf : list Z) (ptr : nat) (idx : Z) : result nat :=
  utf8_index_loop (S (length buf)) buf ptr idx.

Definition utf8_1st_len (buf : list Z) (ptr : nat) : result Z :=
  b ← rd buf ptr;
  let c := schar b in
  if negb (c =? 0) then
    if Z.land c 0xc0 =? 0xc0 then Ok (Z.of_nat (table4 c) + 1) else Ok 1
  else Ok 0.

(** ** Strings and wide strings *)

(** The loop runs while [maxwc--] and the byte is not 0; the result is the array of wide
    characters with its terminating 0, and the count. *)
Fixpoint utf8_wstr_loop (maxwc : nat) (buf : list Z) (ptr : nat) (unicode : list Z)
    : result (list Z) :=
  match maxwc with
  | O => Ok unicode
  | S maxwc' =>
      b ← rd buf ptr;
      if schar b =? 0 then Ok unicode
      else
        '(wchar, ptr) ← getcharinc buf ptr;
        utf8_wstr_loop maxwc' buf ptr (unicode ++ [wchar])
  end.

Definition utf8_wstr (buf : list Z) (ptr : nat) (maxwc : nat) : result (Z * list Z) :=
  unicode ← utf8_wstr_loop maxwc buf ptr [];
  Ok (Z.of_nat (length unicode), unicode ++ [0]).

(** The loop runs while the wide character is not 0 and [size < maxstr]; the bytes written, with the
    terminating 0, and their number without it. *)
Fixpoint wstr_utf8_loop (unicode : list Z) (size maxstr : Z) (out : list Z)
    : result (Z * list Z) :=
  match unicode with
  | [] => UB
  | wc :: unicode' =>
      if negb (wc =? 0) && (size <? maxstr) then
        let bs := wchar_utf8 wc in
        wstr_utf8_loop unicode' (size + Z.of_nat (length bs)) maxstr (out ++ bs)
      else Ok (size, out ++ [0])
  end.

Definition wstr_utf8 (unicode : list Z) (maxstr : Z) : result (Z * list Z) :=
  wstr_utf8_loop unicode 0 maxstr [].

(** ** The primitives *)

(** [p_unicode]: the string is the buffer of [size] bytes plus its 0. *)
Definition p_unicode (buf : list Z) : result (Z * list Z) :=
  utf8_wstr buf 0 (length buf - 1).

(** [p_utf8]: the string cell holds the wide characters, [size] is its byte
    size (4 bytes for each wide character, without the string's own 0). *)
Definition p_utf8 (unicode : list Z) : result (Z * list Z) :=
  wstr_utf8 unicode (4 * Z.of_nat (length unicode)).

Definition p_utf8len (buf : list Z) : result Z :=
  utf8_wlen buf 0 (length buf).

(** [p_readUTF8] reads bytes from a handle ([input]); [None] is [nilCell],
    the second component is what is left to read. *)
Fixpoint readUTF8_loop (gcaa : nat) (gcss utf8C : Z) (input : list Z) : option Z * list Z :=
  match gcaa with
  | O => (Some utf8C, input)
  | S gcaa' =>
      let gcss := gcss - 6 in
      match input with
      | [] => (None, [])
      | b :: input' =>
          readUTF8_loop gcaa' gcss
            (Z.lor utf8C (Z.shiftl (Z.land (schar b) 0x3f) gcss)) input'
      end
  end.

Definition p_readUTF8 (input : list Z) : option Z * list Z :=
  match input with
  | [] => (None, [])
  | b :: input' =>
      let chr := schar b in
      if Z.land chr 0xc0 =? 0xc0 then
        let gcaa := table4 chr in
        let gcss := 6 * Z.of_nat gcaa in
        readUTF8_loop gcaa gcss
          (Z.shiftl (Z.land chr (nth gcaa utf8_table3 0)) gcss) input'
      else (Some chr, input')
  end.

(** ** Lemmas *)

Definition codepoint (c : Z) : Prop := 0 ≤ c ≤ 0x7fffffff.

(** The lead byte of class [i] over the high bits [v]: what the decoders read
    back from it, checked for every class and every value of the high bits. *)
Definition lead_byte (i : nat) (v : Z) : Z := uint8 (Z.lor (nth i utf8_table2 0) v).
Definition lead_bound (i : nat) : nat := nth i [128; 32; 16; 8; 4; 2]%nat 0%nat.

Definition lead_okb (i : nat) (v : Z) : bool :=
  let b := lead_byte i v in
  byte_okb b &&
  (if Nat.eqb i 0 then (b =? v) && negb (Z.land b 0xc0 =? 0xc0)
                       && negb (Z.land (schar b) 0xc0 =? 0xc0) && (schar b =? v)
   else (Z.land b 0xc0 =? 0xc0) && Nat.eqb (table4 b) i
        && (Z.land b (nth i utf8_table3 0) =? v)
        && (Z.land (schar b) 0xc0 =? 0xc0) && Nat.eqb (table4 (schar b)) i
        && (Z.land (schar b) (nth i utf8_table3 0) =? v)
        && negb (schar b =? 0) && negb (b =? 0)).

Lemma lead_ok i v : (i ≤ 5)%nat → 0 ≤ v < Z.of_nat (lead_bound i) → lead_okb i v = true.
Proof.
  intros Hi Hv.
  do 6 (destruct i as [|i];
    [ match goal with Hv : _ ≤ _ < Z.of_nat (lead_bound ?k) |- _ =>
        by apply (all_below_spec (lead_bound k) (lead_okb k)); [vm_compute; reflexivity|]
      end | ]).
  lia.
Qed.

Lemma utf8_class_spec c : codepoint c →
  let i := utf8_class utf8_table1 c in
  (i ≤ 5)%nat ∧ 0 ≤ Z.shiftr c (6 * Z.of_nat i) < Z.of_nat (lead_bound i).
Proof.
  intros [H0 H1]. cbn [utf8_class utf8_table1].
  repeat match goal with |- context [?a <=? ?b] => destruct (Z.leb_spec a b) end; try lia;
    (split; [lia|]; rewrite Z.shiftr_div_pow2 by lia; cbn -[Z.div];
     split; [apply Z.div_pos; lia | apply Z.div_lt_upper_bound; lia]).
Qed.

(** A continuation byte carries six bits. *)
Definition cont_byte (c : Z) : Z := uint8 (Z.lor 0x80 (Z.land c 0x3f)).

Lemma land_63_range c : 0 ≤ Z.land c 0x3f < 64.
Proof. change 0x3f with (Z.ones 6). rewrite Z.land_ones by lia. apply Z.mod_pos_bound. lia. Qed.

Definition cont_okb (m : Z) : bool :=
  let b := uint8 (Z.lor 0x80 m) in
  byte_okb b && (Z.land (schar b) 0x3f =? m) && (Z.land b 0xc0 =? 0x80)
  && negb (schar b =? 0).

Lemma cont_byte_ok c : cont_okb (Z.land c 0x3f) = true.
Proof.
  apply (all_below_spec 64); [vm_compute; reflexivity | apply land_63_range].
Qed.

Lemma cont_byte_read c : Z.land (schar (cont_byte c)) 0x3f = Z.land c 0x3f.
Proof.
  pose proof (cont_byte_ok c) as H. unfold cont_okb in H. fold (cont_byte c) in H.
  rewrite !andb_true_iff in H. lia.
Qed.

(** The continuation bytes of [c], in buffer order. *)
Fixpoint tail_bytes (j : nat) (c : Z) : list Z :=
  match j with
  | O => []
  | S j' => cont_byte (Z.shiftr c (6 * Z.of_nat j')) :: tail_bytes j' c
  end.

Lemma tail_bytes_length j c : length (tail_bytes j c) = j.
Proof. induction j; simpl; congruence. Qed.

Lemma tail_bytes_snoc j c :
  tail_bytes (S j) c = tail_bytes j (Z.shiftr c 6) ++ [cont_byte c].
Proof.
  induction j as [|j IH]; [done|].
  change (tail_bytes (S (S j)) c) with
    (cont_byte (Z.shiftr c (6 * Z.of_nat (S j))) :: tail_bytes (S j) c).
  rewrite IH. simpl tail_bytes at 2. cbn [app]. f_equal. f_equal.
  rewrite Z.shiftr_shiftr by lia. f_equal. lia.
Qed.

Lemma wchar_tail_spec j : ∀ c acc,
  wchar_tail j c acc = (Z.shiftr c (6 * Z.of_nat j), tail_bytes j c ++ acc).
Proof.
  induction j as [|j IH]; intros c acc; [done|].
  cbn [wchar_tail]. rewrite IH, tail_bytes_snoc, <- app_assoc.
  rewrite Z.shiftr_shiftr by lia. do 2 f_equal. lia.
Qed.

Lemma wchar_utf8_eq c :
  let i := utf8_class utf8_table1 c in
  wchar_utf8 c = lead_byte i (Z.shiftr c (6 * Z.of_nat i)) :: tail_bytes i c.
Proof. cbv zeta. unfold wchar_utf8. by rewrite wchar_tail_spec, app_nil_r. Qed.

(** Six more bits: the step of every decoding loop. *)
Lemma six_bits c s : 0 ≤ s →
  Z.lor (Z.shiftl (Z.shiftr c (s + 6)) (s + 6))
        (Z.shiftl (Z.land (Z.shiftr c s) 0x3f) s) = Z.shiftl (Z.shiftr c s) s.
Proof.
  intros Hs. change 0x3f with (Z.ones 6). apply Z.bits_inj'. intros n Hn.
  rewrite Z.lor_spec, !Z.shiftl_spec by lia.
  destruct (Z.ltb_spec n s).
  { rewrite !(Z.testbit_neg_r _ _) by lia. done. }
  destruct (Z.ltb_spec n (s + 6)).
  - rewrite (Z.testbit_neg_r (Z.shiftr c (s + 6))) by lia.
    rewrite Z.land_spec, Z.ones_spec_low by lia. by rewrite andb_true_r.
  - rewrite Z.land_spec, Z.ones_spec_high by lia. rewrite andb_false_r, orb_false_r.
    rewrite !Z.shiftr_spec by lia. f_equal. lia.
Qed.

Lemma getcharinc_loop_spec buf c j : ∀ ptr rest,
  drop ptr buf = tail_bytes j c ++ rest →
  getcharinc_loop buf j (6 * Z.of_nat j)
    (Z.shiftl (Z.shiftr c (6 * Z.of_nat j)) (6 * Z.of_nat j)) ptr = Ok (c, (ptr + j)%nat).
Proof.
  induction j as [|j IH]; intros ptr rest H.
  { cbn. rewrite Nat.add_0_r. done. }
  cbn [getcharinc_loop]. cbn [tail_bytes app] in H.
  rewrite (rd_drop _ _ _ _ H). cbn [mbind result_bind].
  rewrite cont_byte_read.
  replace (6 * Z.of_nat (S j)) with (6 * Z.of_nat j + 6) by lia.
  replace (6 * Z.of_nat j + 6 - 6) with (6 * Z.of_nat j) by lia.
  rewrite six_bits by lia. rewrite (IH (S ptr) rest) by (eapply drop_next; eauto).
  do 2 f_equal. lia.
Qed.

Ltac lead_facts Hl :=
  unfold lead_okb in Hl; rewrite ?andb_true_iff, ?negb_true_iff in Hl; cbn [Nat.eqb] in Hl.

Lemma getcharinc_spec buf c ptr rest : codepoint c →
  drop ptr buf = wchar_utf8 c ++ rest →
  getcharinc buf ptr = Ok (c, (ptr + length (wchar_utf8 c))%nat).
Proof.
  intros Hc H. pose proof (utf8_class_spec c Hc) as [Hi Hv].
  rewrite wchar_utf8_eq in H |- *. set (i := utf8_class _ _) in *.
  pose proof (lead_ok i _ Hi Hv) as Hl.
  unfold getcharinc. cbn [app] in H. rewrite (rd_drop _ _ _ _ H). cbn [mbind result_bind].
  apply drop_next in H. unfold lead_okb in Hl. cbv zeta in Hl.
  rewrite andb_true_iff in Hl. destruct Hl as [_ Hl]. cbn [length]. rewrite tail_bytes_length.
  destruct i as [|i].
  - cbn [Nat.eqb] in Hl. rewrite !andb_true_iff, !negb_true_iff in Hl.
    destruct Hl as [[[H1 H2] _] _]. rewrite H2. apply Z.eqb_eq in H1. rewrite H1.
    change (6 * Z.of_nat 0) with 0. rewrite Z.shiftr_0_r. do 2 f_equal. lia.
  - cbn [Nat.eqb] in Hl. rewrite !andb_true_iff in Hl.
    destruct Hl as [[[[[[[H1 H2] H3] _] _] _] _] _].
    rewrite H1. apply Nat.eqb_eq in H2. rewrite H2.
    apply Z.eqb_eq in H3. rewrite H3. rewrite (getcharinc_loop_spec _ _ _ _ _ H).
    do 2 f_equal. lia.
Qed.

(** What the walking loops see at the start of an encoded character. *)
Lemma lead_step buf c ptr rest : codepoint c → c ≠ 0 →
  drop ptr buf = wchar_utf8 c ++ rest →
  ∃ b, rd buf ptr = Ok b ∧ schar b ≠ 0 ∧
    (if Z.land (schar b) 0xc0 =? 0xc0 then (S ptr + table4 (schar b))%nat else S ptr)
      = (ptr + length (wchar_utf8 c))%nat.
Proof.
  intros Hc Hc0 H. pose proof (utf8_class_spec c Hc) as [Hi Hv].
  rewrite wchar_utf8_eq in H |- *. set (i := utf8_class _ _) in *.
  pose proof (lead_ok i _ Hi Hv) as Hl. cbn [app] in H.
  eexists. split; [exact (rd_drop _ _ _ _ H)|].
  unfold lead_okb in Hl. cbv zeta in Hl. cbn [length]. rewrite tail_bytes_length.
  destruct i as [|i]; cbn [Nat.eqb] in Hl; rewrite !andb_true_iff, ?negb_true_iff in Hl.
  - destruct Hl as [_ [[[H1 H2] H3] H4]]. rewrite H3.
    apply Z.eqb_eq in H4. rewrite H4. change (6 * Z.of_nat 0) with 0.
    rewrite Z.shiftr_0_r. split; [done|lia].
  - destruct Hl as [_ [[[[[[[_ _] _] H1] H2] H3] H4] _]]. rewrite H1.
    apply Nat.eqb_eq in H2. rewrite H2. apply Z.eqb_neq in H4. split; [done|lia].
Qed.

Lemma wchar_utf8_length c : codepoint c → (1 ≤ length (wchar_utf8 c) ≤ 6)%nat.
Proof.
  intros Hc. pose proof (utf8_class_spec c Hc) as [Hi _].
  rewrite wchar_utf8_eq. cbn [length]. rewrite tail_bytes_length. lia.
Qed.

Lemma wchar_utf8_bytes c : codepoint c → Forall byte_ok (wchar_utf8 c).
Proof.
  intros Hc. rewrite wchar_utf8_eq. constructor.
  - apply wrapU_range. lia.
  - generalize (utf8_class utf8_table1 c). intros j.
    induction j; constructor; [apply wrapU_range; lia | done].
Qed.

(** The text of a list of characters, as its bytes without the final 0. *)
Definition utf8_text (cs : list Z) : list Z := concat (wchar_utf8 <$> cs).
Definition wide (c : Z) : Prop := codepoint c ∧ c ≠ 0.

Lemma utf8_text_length cs : Forall wide cs → (length cs ≤ length (utf8_text cs))%nat.
Proof.
  unfold utf8_text. induction 1 as [|c cs [Hc _] _ IH]; [done|].
  cbn. rewrite length_app. pose proof (wchar_utf8_length c Hc). lia.
Qed.

Lemma utf8_wstr_loop_spec buf cs : ∀ maxwc ptr acc rest, Forall wide cs →
  drop ptr buf = utf8_text cs ++ 0 :: rest → (length cs ≤ maxwc)%nat →
  utf8_wstr_loop maxwc buf ptr acc = Ok (acc ++ cs).
Proof.
  induction cs as [|c cs IH]; intros maxwc ptr acc rest Hcs H Hm.
  { rewrite app_nil_r. destruct maxwc; [done|]. cbn [utf8_wstr_loop].
    rewrite (rd_drop _ _ _ _ H). done. }
  inversion_clear Hcs as [|? ? [Hc Hc0] Hcs']. cbn in Hm. destruct maxwc as [|m]; [lia|].
  cbn [utf8_wstr_loop]. unfold utf8_text in H. cbn in H. rewrite <- app_assoc in H.
  destruct (lead_step _ _ _ _ Hc Hc0 H) as (b & Hb & Hb0 & _). rewrite Hb.
  cbn [mbind result_bind]. rewrite (proj2 (Z.eqb_neq _ _) Hb0).
  rewrite (getcharinc_spec _ _ _ _ Hc H). cbn [mbind result_bind].
  rewrite (IH m _ _ rest Hcs').
  - by rewrite <- app_assoc.
  - by apply drop_app_step.
  - lia.
Qed.

Lemma wstr_utf8_loop_spec cs : ∀ size maxstr acc, Forall wide cs →
  size + Z.of_nat (length (utf8_text cs)) ≤ maxstr →
  wstr_utf8_loop (cs ++ [0]) size maxstr acc =
    Ok (size + Z.of_nat (length (utf8_text cs)), acc ++ utf8_text cs ++ [0]).
Proof.
  induction cs as [|c cs IH]; intros size maxstr acc Hcs Hm.
  { cbn. rewrite Z.add_0_r. done. }
  inversion_clear Hcs as [|? ? [Hc Hc0] Hcs']. unfold utf8_text in Hm |- *. cbn in Hm |- *.
  rewrite (proj2 (Z.eqb_neq _ _) Hc0). cbn [negb andb].
  pose proof (wchar_utf8_length c Hc). rewrite length_app, Nat2Z.inj_add in Hm |- *.
  rewrite (proj2 (Z.ltb_lt _ _)) by lia.
  rewrite IH by (done || unfold utf8_text; lia). unfold utf8_text.
  f_equal. f_equal; [lia|]. by rewrite <- !app_assoc.
Qed.

Lemma utf8_wlen_loop_spec buf limit cs : ∀ fuel ptr count rest, Forall wide cs →
  drop ptr buf = utf8_text cs ++ 0 :: rest →
  (ptr + length (utf8_text cs) < limit)%nat → (length cs < fuel)%nat →
  utf8_wlen_loop fuel buf ptr limit count = Ok (count + Z.of_nat (length cs)).
Proof.
  induction cs as [|c cs IH]; intros fuel ptr count rest Hcs H Hl Hf;
    (destruct fuel as [|fuel]; [cbn in Hf; lia|]); cbn [utf8_wlen_loop].
  { rewrite (rd_drop _ _ _ _ H). cbn. by rewrite Z.add_0_r. }
  inversion_clear Hcs as [|? ? [Hc Hc0] Hcs']. unfold utf8_text in H, Hl. cbn in H, Hl.
  rewrite <- app_assoc in H. rewrite length_app in Hl.
  pose proof (wchar_utf8_length c Hc).
  destruct (lead_step _ _ _ _ Hc Hc0 H) as (b & Hb & Hb0 & Hp). rewrite Hb.
  cbn [mbind result_bind]. rewrite (proj2 (Z.eqb_neq _ _) Hb0).
  rewrite (proj2 (Nat.ltb_lt _ _)) by lia. cbn [negb orb]. rewrite Hp.
  rewrite (IH _ _ _ rest Hcs'); [f_equal; cbn; lia | by apply drop_app_step | | cbn in Hf; lia].
  unfold utf8_text. lia.
Qed.

Lemma utf8_index_loop_spec buf cs2 : ∀ cs1 fuel ptr rest, Forall wide cs1 →
  Forall wide cs2 → Z.of_nat (length cs1) < 2 ^ 31 →
  drop ptr buf = utf8_text cs1 ++ utf8_text cs2 ++ 0 :: rest → (length cs1 < fuel)%nat →
  utf8_index_loop fuel buf ptr (Z.of_nat (length cs1)) =
    Ok (ptr + length (utf8_text cs1))%nat.
Proof.
  induction cs1 as [|c cs IH]; intros fuel ptr rest Hcs Hcs2 Hb H Hf;
    (destruct fuel as [|fuel]; [cbn in Hf; lia|]); cbn [utf8_index_loop].
  { cbn [length utf8_text app] in H. change (utf8_text []) with (@nil Z) in H. cbn [app] in H.
    destruct (utf8_text cs2) as [|b t] eqn:E; cbn [app] in H;
      rewrite (rd_drop _ _ _ _ H); cbn; rewrite ?orb_true_r, Nat.add_0_r; done. }
  inversion_clear Hcs as [|? ? [Hc Hc0] Hcs']. unfold utf8_text in H. cbn in H.
  rewrite <- app_assoc in H. fold (utf8_text cs) in H.
  destruct (lead_step _ _ _ _ Hc Hc0 H) as (b & Hrd & Hb0 & Hp). rewrite Hrd.
  cbn [mbind result_bind]. rewrite (proj2 (Z.eqb_neq _ _) Hb0).
  rewrite (proj2 (Z.eqb_neq (Z.of_nat _) _)) by (cbn; lia). cbn [orb length].
  rewrite wrapS_small by (cbn in Hb; lia).
  replace (Z.of_nat (S (length cs)) - 1) with (Z.of_nat (length cs)) by lia.
  replace (if Z.land (schar b) 192 =? 192 then (ptr + (table4 (schar b) + 1))%nat else S ptr)
    with (ptr + length (wchar_utf8 c))%nat by (rewrite <- Hp; case_match; lia).
  erewrite IH; eauto.
  - unfold utf8_text. cbn. rewrite length_app. f_equal. lia.
  - cbn in Hb. lia.
  - by apply drop_app_step.
  - cbn in Hf. lia.
Qed.

(** A buffer holding exactly the text of [cs] and its final 0. *)
Definition cstring (bs : list Z) : list Z := bs ++ [0].

Lemma table4_of_lead i v : (1 ≤ i ≤ 5)%nat → 0 ≤ v < Z.of_nat (lead_bound i) →
  table4 (schar (lead_byte i v)) = i ∧
  Z.land (schar (lead_byte i v)) 0xc0 = 0xc0 ∧
  Z.land (schar (lead_byte i v)) (nth i utf8_table3 0) = v.
Proof.
  intros Hi Hv. pose proof (lead_ok i v ltac:(lia) Hv) as Hl. unfold lead_okb in Hl.
  cbv zeta in Hl. destruct i; [lia|]. cbn [Nat.eqb] in Hl.
  rewrite !andb_true_iff in Hl. destruct Hl as [_ [[[[[_ H1] H2] H3] _] _]].
  apply Z.eqb_eq in H1, H3. by apply Nat.eqb_eq in H2.
Qed.

Lemma readUTF8_loop_spec c j : ∀ rest,
  readUTF8_loop j (6 * Z.of_nat j)
    (Z.shiftl (Z.shiftr c (6 * Z.of_nat j)) (6 * Z.of_nat j)) (tail_bytes j c ++ rest)
  = (Some c, rest).
Proof.
  induction j as [|j IH]; intros rest; [done|].
  cbn [readUTF8_loop tail_bytes app]. rewrite cont_byte_read.
  replace (6 * Z.of_nat (S j)) with (6 * Z.of_nat j + 6) by lia.
  replace (6 * Z.of_nat j + 6 - 6) with (6 * Z.of_nat j) by lia.
  rewrite six_bits by lia. apply IH.
Qed.

Lemma p_readUTF8_spec c rest : codepoint c →
  p_readUTF8 (wchar_utf8 c ++ rest) = (Some c, rest).
Proof.
  intros Hc. pose proof (utf8_class_spec c Hc) as [Hi Hv].
  rewrite wchar_utf8_eq. set (i := utf8_class _ _) in *. cbn [app p_readUTF8].
  pose proof (lead_ok i _ Hi Hv) as Hl. unfold lead_okb in Hl. cbv zeta in Hl.
  destruct i as [|i].
  - cbn [Nat.eqb] in Hl. rewrite !andb_true_iff, !negb_true_iff in Hl.
    destruct Hl as [_ [[_ H2] H3]]. rewrite H2. apply Z.eqb_eq in H3. rewrite H3.
    change (6 * Z.of_nat 0) with 0. by rewrite Z.shiftr_0_r.
  - destruct (table4_of_lead (S i) _ ltac:(lia) Hv) as (H1 & H2 & H3).
    rewrite H2, H1, H3, Z.eqb_refl. apply readUTF8_loop_spec.
Qed.

(** ** Properties *)

(** Character round trip: decoding the encoding of any 31-bit character gives the character back
    and leaves the pointer just behind its bytes; the encoding has between one
    and six bytes, all of them valid, and [utf8_1st_len] finds their number. *)
Theorem utf8_char_roundtrip (buf rest : list Z) (ptr : nat) (c : Z)
    (Hc : codepoint c) (Hbuf : drop ptr buf = wchar_utf8 c ++ rest) :
  utf8_wchar buf ptr = Ok (c, (ptr + length (wchar_utf8 c))%nat) ∧
  (1 ≤ length (wchar_utf8 c) ≤ 6)%nat ∧ Forall byte_ok (wchar_utf8 c) ∧
  (c ≠ 0 → utf8_1st_len buf ptr = Ok (Z.of_nat (length (wchar_utf8 c)))).
Proof.
  split; [by apply (getcharinc_spec _ _ _ rest)|].
  split; [by apply wchar_utf8_length|]. split; [by apply wchar_utf8_bytes|].
  intros Hc0. destruct (lead_step _ _ _ _ Hc Hc0 Hbuf) as (b & Hb & Hb0 & Hp).
  unfold utf8_1st_len. rewrite Hb. cbn [mbind result_bind].
  rewrite (proj2 (Z.eqb_neq _ _) Hb0). cbn [negb]. case_match; f_equal; lia.
Qed.

Lemma utf8_char_roundtrip_witness :
  utf8_wchar (65 :: wchar_utf8 0x20ac ++ [0]) 1 = Ok (0x20ac, 4%nat).
Proof.
  refine (proj1 (utf8_char_roundtrip (65 :: wchar_utf8 0x20ac ++ [0]) [0] 1 0x20ac _ _)).
  - unfold codepoint. lia.
  - reflexivity.
Defined.

(** [unicode] and [utf8] are inverse on text: converting the string of any
    characters of up to four bytes to wide characters gives exactly these
    characters and their count, and converting them back gives the bytes. *)
Theorem unicode_utf8_roundtrip (cs : list Z)
    (Hcs : Forall wide cs) (H4 : Forall (λ c, c ≤ 0x1fffff) cs) :
  p_unicode (cstring (utf8_text cs)) = Ok (Z.of_nat (length cs), cs ++ [0]) ∧
  p_utf8 (cs ++ [0]) = Ok (Z.of_nat (length (utf8_text cs)), cstring (utf8_text cs)).
Proof.
  assert (Hlen : (length (utf8_text cs) ≤ 4 * length cs)%nat).
  { clear Hcs. unfold utf8_text. induction H4 as [|c cs Hc _ IH]; [done|].
    cbn. rewrite length_app.
    enough (length (wchar_utf8 c) ≤ 4)%nat by lia.
    rewrite wchar_utf8_eq. cbn [length]. rewrite tail_bytes_length.
    cbn [utf8_class utf8_table1].
    repeat match goal with |- context [?a <=? ?b] => destruct (Z.leb_spec a b) end; lia. }
  split.
  - unfold p_unicode, utf8_wstr, cstring. rewrite length_app. cbn [length].
    rewrite (utf8_wstr_loop_spec _ cs _ _ _ []); [done|done|done|].
    pose proof (utf8_text_length cs Hcs). lia.
  - unfold p_utf8, wstr_utf8. rewrite (wstr_utf8_loop_spec cs) by (done || rewrite length_app; cbn; lia).
    done.
Qed.

Lemma unicode_utf8_roundtrip_witness :
  p_unicode (cstring (utf8_text [104; 0x20ac; 0x1F600])) = Ok (3, [104; 0x20ac; 0x1F600; 0]).
Proof.
  refine (proj1 (unicode_utf8_roundtrip [104; 0x20ac; 0x1F600] _ _));
    repeat constructor; unfold codepoint; lia.
Defined.

(** [utf8len] counts the characters of a text, and [utf8_index] finds the
    first byte of each of them (and the final 0 behind the last). *)
Theorem utf8len_and_index (cs1 cs2 : list Z) (H1 : Forall wide cs1) (H2 : Forall wide cs2)
    (Hlen : Z.of_nat (length cs1) < 2 ^ 31) :
  let buf := cstring (utf8_text (cs1 ++ cs2)) in
  p_utf8len buf = Ok (Z.of_nat (length (cs1 ++ cs2))) ∧
  utf8_index buf 0 (Z.of_nat (length cs1)) = Ok (length (utf8_text cs1)).
Proof.
  assert (Happ : utf8_text (cs1 ++ cs2) = utf8_text cs1 ++ utf8_text cs2).
  { unfold utf8_text. by rewrite fmap_app, concat_app. }
  cbv zeta. unfold p_utf8len, utf8_wlen, utf8_index, cstring.
  assert (H12 : Forall wide (cs1 ++ cs2)) by by apply Forall_app.
  pose proof (utf8_text_length _ H12).
  pose proof (utf8_text_length _ H1). split.
  - erewrite (utf8_wlen_loop_spec _ _ (cs1 ++ cs2) _ _ _ []); eauto.
    + rewrite length_app. cbn. lia.
    + rewrite (length_app (utf8_text _)). lia.
  - erewrite (utf8_index_loop_spec _ cs2 cs1 _ _ []); eauto.
    + rewrite Happ, <- app_assoc. done.
    + rewrite length_app, Happ, length_app. lia.
Qed.

Lemma utf8len_and_index_witness :
  p_utf8len (cstring (utf8_text ([228; 0x20ac] ++ [98]))) = Ok 3.
Proof.
  refine (proj1 (utf8len_and_index [228; 0x20ac] [98] _ _ _));
    [repeat constructor; unfold codepoint; lia .. | cbn; lia].
Defined.

(** A lead byte of a long character just before the final 0. *)
Lemma long_lead lead : 0xe0 ≤ lead ≤ 0xff →
  schar lead ≠ 0 ∧ Z.land (schar lead) 0xc0 = 0xc0 ∧ (2 ≤ table4 (schar lead))%nat.
Proof.
  intros Hl. replace lead with (224 + (lead - 224)) by lia.
  pose proof (all_below_spec 32 (λ z, negb (schar (224 + z) =? 0) &&
    (Z.land (schar (224 + z)) 192 =? 192) && Nat.leb 2 (table4 (schar (224 + z))))
    ltac:(vm_compute; reflexivity) (lead - 224) ltac:(lia)) as E. cbv beta in E.
  rewrite !andb_true_iff, negb_true_iff in E. destruct E as [[E1 E2] E3].
  apply Nat.leb_le in E3. apply Z.eqb_eq in E2. apply Z.eqb_neq in E1. done.
Qed.

Lemma utf8_wlen_loop_overrun buf limit lead cs : 0xe0 ≤ lead ≤ 0xff → Forall wide cs →
  length buf = limit → ∀ fuel ptr count, (length cs + 1 < fuel)%nat →
  drop ptr buf = utf8_text cs ++ [lead; 0] →
  (ptr + length (utf8_text cs) + 2 = limit)%nat →
  utf8_wlen_loop fuel buf ptr limit count = UB.
Proof.
  intros Hl Hcs Hb. induction Hcs as [|c cs [Hc Hc0] Hcs' IH]; intros fuel ptr count Hf Hd Hlim.
  - destruct fuel as [|[|fuel]]; [cbn in Hf; lia..|]. cbn in Hd, Hlim.
    cbn [utf8_wlen_loop]. rewrite (rd_drop _ _ _ _ Hd). cbn [mbind result_bind].
    destruct (long_lead lead Hl) as (E1 & E2 & E3).
    rewrite (proj2 (Z.eqb_neq _ _) E1), E2, Z.eqb_refl.
    rewrite (proj2 (Nat.ltb_lt _ _)) by lia. cbn [negb orb].
    unfold rd at 1. rewrite lookup_ge_None_2 by lia. done.
  - destruct fuel as [|fuel]; [cbn in Hf; lia|]. cbn [utf8_wlen_loop].
    unfold utf8_text in Hd, Hlim. cbn in Hd, Hlim. rewrite <- app_assoc in Hd.
    fold (utf8_text cs) in Hd, Hlim. rewrite length_app in Hlim.
    destruct (lead_step _ _ _ _ Hc Hc0 Hd) as (b & Hrd & Hb0 & Hp). rewrite Hrd.
    cbn [mbind result_bind]. rewrite (proj2 (Z.eqb_neq _ _) Hb0).
    pose proof (wchar_utf8_length c Hc).
    rewrite (proj2 (Nat.ltb_lt _ _)) by lia. cbn [negb orb]. rewrite Hp.
    apply IH; [cbn in Hf; lia | by apply drop_app_step | lia].
Qed.

(** [utf8_wlen] advances over the bytes a lead byte announces before it
    compares the pointer with [limit]: a string that ends in a lead byte of a
    character of at least three bytes makes it read behind the buffer. *)
Theorem utf8_wlen_overrun (cs : list Z) (lead : Z) (Hcs : Forall wide cs)
    (Hl : 0xe0 ≤ lead ≤ 0xff) :
  p_utf8len (cstring (utf8_text cs ++ [lead])) = UB.
Proof.
  pose proof (utf8_text_length cs Hcs). unfold p_utf8len, utf8_wlen, cstring.
  apply (utf8_wlen_loop_overrun _ _ lead cs); try done;
    rewrite ?length_app; [cbn; lia | by rewrite drop_0, <- app_assoc | cbn; lia].
Qed.

Lemma utf8_wlen_overrun_witness : p_utf8len (cstring (utf8_text [65] ++ [0xe2])) = UB.
Proof.
  apply (utf8_wlen_overrun [65] 0xe2); [repeat constructor; unfold codepoint |]; lia.
Defined.

(** [read-utf8] on a device decodes every encoded character as
    [utf8_wchar] does in memory and leaves the rest of the input; on a stray
    continuation byte it yields a negative number where [utf8_wchar] yields
    the byte. *)
Theorem read_utf8_device (c b : Z) (rest : list Z) (Hc : codepoint c) (Hb : 0x80 ≤ b < 0xc0) :
  p_readUTF8 (wchar_utf8 c ++ rest) = (Some c, rest) ∧
  utf8_wchar (wchar_utf8 c ++ rest) 0 = Ok (c, length (wchar_utf8 c)) ∧
  p_readUTF8 (b :: rest) = (Some (b - 256), rest) ∧
  utf8_wchar (b :: rest) 0 = Ok (b, 1%nat).
Proof.
  split; [by apply p_readUTF8_spec|].
  split; [by apply (getcharinc_spec (wchar_utf8 c ++ rest) c 0 rest)|].
  assert (E : negb (Z.land (schar b) 192 =? 192) && (schar b =? b - 256)
              && negb (Z.land b 192 =? 192) = true).
  { replace b with (128 + (b - 128)) by lia.
    apply (all_below_spec 64 (λ z, negb (Z.land (schar (128 + z)) 192 =? 192)
      && (schar (128 + z) =? 128 + z - 256) && negb (Z.land (128 + z) 192 =? 192)));
      [vm_compute; reflexivity | lia]. }
  rewrite !andb_true_iff, !negb_true_iff in E. destruct E as [[E1 E2] E3].
  unfold p_readUTF8, utf8_wchar, getcharinc. cbn [rd lookup]. cbn.
  rewrite E1, E3. apply Z.eqb_eq in E2. by rewrite E2.
Qed.

Lemma read_utf8_device_witness : p_readUTF8 (0x85 :: [65]) = (Some (-123), [65]).
Proof.
  refine (proj1 (proj2 (proj2 (read_utf8_device 0x20ac 0x85 [65] _ _))));
    unfold codepoint; lia.
Defined.
