(* ===== verification/Bigint.v ===== *)
(** * Big integers (src/nl-math.c)

    A big integer is an [int] array: element 0 is the sign (1 or -1), elements
    1 to [n] are digits to the base 10^9, the most significant first.  Buffers
    are lists of which every access is checked, so that a function returning
    [Ok] also stays inside the memory its caller allocated. *)

From stdpp Require Import base list numbers tactics.
From Stdlib Require Import ZArith Lia.
From S2P Require Import Prelude.

Definition BIGINT_BASE : Z := 1000000000.
Definition BIGINT_BASE2 : Z := 1000000000000000000.

(** ** Comparison *)

Fixpoint cmpAbs_loop (k i : nat) (x y : list Z) : result Z :=
  match k with
  | O => Ok 0
  | S k' =>
      xi ← rd x i; yi ← rd y i;
      if yi <? xi then Ok 1
      else if xi <? yi then Ok (-1)
      else cmpAbs_loop k' (S i) x y
  end.

Definition cmpAbsBigint (x : list Z) (nx : nat) (y : list Z) (ny : nat) : result Z :=
  let cmp := Z.of_nat nx - Z.of_nat ny in
  if cmp =? 0 then cmpAbs_loop nx 1 x y
  else Ok (if 0 <? cmp then 1 else -1).

Definition cmpBigint (x : list Z) (nx : nat) (y : list Z) (ny : nat) : result Z :=
  x1 ← rd x 1; y1 ← rd y 1; x0 ← rd x 0; y0 ← rd y 0;
  if Nat.eqb nx 1 && Nat.eqb ny 1 && (x1 =? 0) && (y1 =? 0) then Ok 0
  else if y0 <? x0 then Ok 1
  else if x0 <? y0 then Ok (-1)
  else cmp ← cmpAbsBigint x nx y ny; Ok (cmp * x0).

(** ** Addition and subtraction *)

(** What [addBigint] and [subBigint] leave behind: the result buffer, its
    number of digits, and the two operands, whose sign they overwrite and put
    back. *)
Record sum := Sum { sm : list Z; nsm : nat; opx : list Z; opy : list Z }.

(** [for(i = 0; i < nx; i++) ptr[i] = ptr[i + 1]] with [ptr = sm + 1]. *)
Definition shift_left (ptr nx : nat) (sm : list Z) : result (list Z) :=
  for_up 0 nx (λ i sm, v ← rd sm (ptr + i + 1); wr sm (ptr + i) v) sm.

(** The part of [addBigint] behind the sign test, for [ny <= nx]. *)
Definition addBigint_abs (x : list Z) (nx : nat) (y : list Z) (ny : nat) (sm : list Z)
    : result (list Z * nat) :=
  let d := (nx - ny)%nat in
  '(sm, carry) ← for_down ny (λ i '(sm, carry),
    xi ← rd x (i + d); yi ← rd y i;
    let digit := int32 (int32 (xi + yi) + carry) in
    sm ← wr sm (1 + (i + d)) (Z.rem digit BIGINT_BASE);
    Ok (sm, Z.quot digit BIGINT_BASE)) (sm, 0);
  '(sm, carry) ← for_down (nx - ny) (λ i '(sm, carry),
    xi ← rd x i;
    let digit := int32 (xi + carry) in
    sm ← wr sm (1 + i) (Z.rem digit BIGINT_BASE);
    Ok (sm, Z.quot digit BIGINT_BASE)) (sm, carry);
  sm ← wr sm 1 carry;
  '(sm, nsm) ← (if carry =? 0 then sm ← shift_left 1 nx sm; Ok (sm, nx)
                else Ok (sm, (nx + 1)%nat));
  x0 ← rd x 0;
  sm ← wr sm 0 x0;
  Ok (sm, nsm).

(** [while (sm[i] == 0 && i <= nx) n++, i++;] started at [i = 1], [n = 0]:
    the number of leading zeros.  [sm[i]] is read before [i] is compared. *)
Fixpoint leading_zeros (fuel : nat) (sm : list Z) (i nx n : nat) : result nat :=
  match fuel with
  | O => NoFuel
  | S fuel' =>
      v ← rd sm i;
      if (v =? 0) && Nat.leb i nx then leading_zeros fuel' sm (S i) nx (S n) else Ok n
  end.

(** [memmove(sm + 1, sm + 1 + n, (nx - n) * sizeof(int))]. *)
Definition memmove_left (sm : list Z) (n nx : nat) : result (list Z) :=
  if Nat.leb (nx + 1) (length sm)
  then Ok (take 1 sm ++ win sm (n + 1) (nx - n) ++ drop (nx - n + 1) sm)
  else UB.

(** The digit loop of [subBigint]: the larger operand is [x]. *)
Definition sub_digits (x : list Z) (nx : nat) (y : list Z) (ny : nat) (sm : list Z)
    : result (list Z) :=
  '(sm, _, _) ← for_down nx (λ i '(sm, carry, j),
    xi ← rd x i;
    digit ← (if Nat.ltb 0 j then yj ← rd y j; Ok (xi - yj - carry) else Ok (xi - carry));
    let '(digit, carry) := if digit <? 0 then (digit + BIGINT_BASE, 1) else (digit, 0) in
    sm ← wr sm i (Z.rem digit BIGINT_BASE);
    Ok (sm, carry, (j - 1)%nat)) (sm, 0, ny);
  Ok sm.

(** The part of [subBigint] behind the sign test. *)
Definition subBigint_abs (x : list Z) (nx : nat) (y : list Z) (ny : nat) (sm : list Z)
    : result (list Z * nat) :=
  cmp ← cmpAbsBigint x nx y ny;
  x0 ← rd x 0;
  '(sm, x, nx, y, ny) ←
    (if 1 <=? cmp then sm ← wr sm 0 x0; Ok (sm, x, nx, y, ny)
     else sm ← wr sm 0 (x0 * -1); Ok (sm, y, ny, x, nx));
  sm ← sub_digits x nx y ny sm;
  n ← leading_zeros (nx + 1) sm 1 nx 0;
  if Nat.eqb n nx then Ok (sm, 1%nat)
  else sm ← memmove_left sm n nx; Ok (sm, (nx - n)%nat).

(** When the signs differ the code gives [y] the sign of [x], calls the other
    operation, whose sign test then fails, and puts the sign of [y] back. *)
Definition addBigint (x : list Z) (nx : nat) (y : list Z) (ny : nat) (sm : list Z)
    : result sum :=
  let swap := Nat.ltb nx ny in
  let '(x, nx, y, ny) := if swap then (y, ny, x, nx) else (x, nx, y, ny) in
  x0 ← rd x 0; y0 ← rd y 0;
  '(sm, nsm, x, y) ←
    (if negb (x0 =? y0) then
       y ← wr y 0 x0;
       '(sm, nsm) ← subBigint_abs x nx y ny sm;
       x ← wr x 0 x0; y ← wr y 0 (x0 * -1);
       Ok (sm, nsm, x, y)
     else '(sm, nsm) ← addBigint_abs x nx y ny sm; Ok (sm, nsm, x, y));
  Ok (if swap then Sum sm nsm y x else Sum sm nsm x y).

Definition subBigint (x : list Z) (nx : nat) (y : list Z) (ny : nat) (sm : list Z)
    : result sum :=
  x0 ← rd x 0; y0 ← rd y 0;
  if negb (x0 =? y0) then
    y ← wr y 0 x0;
    '(sm, nsm) ← (if Nat.ltb nx ny then addBigint_abs y ny x nx sm
                  else addBigint_abs x nx y ny sm);
    x ← wr x 0 x0; y ← wr y 0 (x0 * -1);
    Ok (Sum sm nsm x y)
  else '(sm, nsm) ← subBigint_abs x nx y ny sm; Ok (Sum sm nsm x y).

(** ** Multiplication *)

Definition mul_row (x : list Z) (nx : nat) (yi : Z) (i : nat) (p : list Z)
    : result (list Z * Z) :=
  for_down nx (λ j '(p, carry),
    pj ← rd p (j + i); xj ← rd x j;
    let digit := int64 (pj + yi * xj + carry) in
    p ← wr p (j + i) (Z.rem digit BIGINT_BASE);
    Ok (p, int32 (Z.quot digit BIGINT_BASE))) (p, 0).

(** [while(p[1] == 0 && k > 1) { for(i = 1; i < k; i++) p[i] = p[i+1]; k--; }]. *)
Fixpoint mul_trim (fuel : nat) (p : list Z) (k : nat) : result (list Z * nat) :=
  match fuel with
  | O => NoFuel
  | S fuel' =>
      p1 ← rd p 1;
      if (p1 =? 0) && Nat.ltb 1 k then
        p ← for_up 1 (k - 1) (λ i p, v ← rd p (i + 1); wr p i v) p;
        mul_trim fuel' p (k - 1)
      else Ok (p, k)
  end.

Definition memset0 (n : nat) (p : list Z) : result (list Z) :=
  if Nat.leb n (length p) then Ok (replicate n 0 ++ drop n p) else UB.

Definition mulBigint (x : list Z) (nx : nat) (y : list Z) (ny : nat) (p : list Z)
    : result (list Z * nat) :=
  p ← memset0 (nx + ny + 1) p;
  p ← for_down ny (λ i p,
    yi ← rd y i;
    '(p, carry) ← mul_row x nx yi i p;
    pi ← rd p i;
    let digit := pi + carry in
    wr p i (Z.rem digit BIGINT_BASE)) p;
  '(p, k) ← mul_trim (nx + ny) p (nx + ny);
  x0 ← rd x 0; y0 ← rd y 0;
  p ← wr p 0 (x0 * y0);
  Ok (p, k).

(** ** Conversion from and to 64-bit integers

    [digit] is the uninitialised block of four [int]s.  The product
    [digit[idx] * BIGINT_BASE] of the second step is an [int] product. *)

Definition intToBigint (num : Z) (digit : list Z) : result (list Z * nat) :=
  '(digit, num) ← (if num <? 0
                   then d ← wr digit 0 (-1); Ok (d, int64 (- num))
                   else d ← wr digit 0 1; Ok (d, num));
  '(digit, num, idx) ←
    (if BIGINT_BASE2 <? num then
       let q := int32 (Z.quot num BIGINT_BASE2) in
       d ← wr digit 1 q; Ok (d, int64 (num - int64 (q * BIGINT_BASE2)), 2%nat)
     else Ok (digit, num, 1%nat));
  '(digit, num, idx) ←
    (if BIGINT_BASE <? num then
       let q := int32 (Z.quot num BIGINT_BASE) in
       d ← wr digit idx q; Ok (d, int64 (num - int32 (q * BIGINT_BASE)), (idx + 1)%nat)
     else Ok (digit, num, idx));
  digit ← wr digit idx (int32 num);
  Ok (digit, idx).

Definition maxInt : list Z := [1; 9; 223372036; 854775807].
Definition minInt : list Z := [-1; 9; 223372036; 854775808].
Definition ERR_NUMBER_OUT_OF_RANGE : Z := 38.

(** The cell's [contents] is the array [x], its [aux] is [n + 1]. *)
Definition bigintToInt64 (x : list Z) (n : nat) : result Z :=
  c1 ← cmpBigint x n maxInt 3;
  out ← (if c1 =? 1 then Ok true else c2 ← cmpBigint x n minInt 3; Ok (c2 =? -1));
  if (out : bool) then Fail ERR_NUMBER_OUT_OF_RANGE
  else
    num ← rd x 1;
    num ← for_up 2 (n - 1) (λ i num, xi ← rd x i; Ok (int64 (num * BIGINT_BASE + xi))) num;
    x0 ← rd x 0;
    Ok (int64 (num * x0)).

(** ** The number an array stands for *)

Definition digit_ok (d : Z) : Prop := 0 ≤ d < BIGINT_BASE.

Definition val (ds : list Z) : Z := foldl (λ a d, a * BIGINT_BASE + d) 0 ds.

Definition bigval (x : list Z) (n : nat) : Z := nth 0 x 0 * val (win x 1 n).

(** A well-formed big integer of [n] digits. *)
Record bigint_ok (x : list Z) (n : nat) : Prop := {
  bi_size : (1 ≤ n)%nat ∧ (n + 1 ≤ length x)%nat;
  bi_sign : x !! 0%nat = Some 1 ∨ x !! 0%nat = Some (-1);
  bi_digits : Forall digit_ok (win x 1 n);
  bi_norm : n = 1%nat ∨ x !! 1%nat ≠ Some 0
}.

Lemma base_pos : 0 < BIGINT_BASE. Proof. done. Qed.

Lemma pow_base_S n : BIGINT_BASE ^ Z.of_nat (S n) = BIGINT_BASE * BIGINT_BASE ^ Z.of_nat n.
Proof. rewrite Nat2Z.inj_succ, Z.pow_succ_r; lia. Qed.

Lemma pow_base_pos n : 0 < BIGINT_BASE ^ Z.of_nat n.
Proof. apply Z.pow_pos_nonneg; [done|lia]. Qed.

Lemma val_acc ds : ∀ a,
  foldl (λ a d, a * BIGINT_BASE + d) a ds = a * BIGINT_BASE ^ Z.of_nat (length ds) + val ds.
Proof.
  unfold val. induction ds as [|d ds IH]; intros a; [cbn; lia|].
  cbn [foldl length]. rewrite IH, (IH (0 * _ + d)), pow_base_S. lia.
Qed.

Lemma val_cons d ds : val (d :: ds) = d * BIGINT_BASE ^ Z.of_nat (length ds) + val ds.
Proof. unfold val at 1. cbn [foldl]. rewrite val_acc. lia. Qed.

Lemma val_app l1 l2 : val (l1 ++ l2) = val l1 * BIGINT_BASE ^ Z.of_nat (length l2) + val l2.
Proof. unfold val at 1. by rewrite foldl_app, val_acc. Qed.

Lemma val_bound ds : Forall digit_ok ds → 0 ≤ val ds < BIGINT_BASE ^ Z.of_nat (length ds).
Proof.
  induction 1 as [|d ds Hd _ IH]; [cbn; lia|].
  rewrite val_cons. cbn [length]. rewrite pow_base_S. unfold digit_ok in Hd.
  pose proof (pow_base_pos (length ds)). nia.
Qed.

Lemma val_zeros n : val (replicate n 0) = 0.
Proof. induction n; [done|]. cbn [replicate]. rewrite val_cons. lia. Qed.

Lemma digit_step z : 0 ≤ z →
  digit_ok (Z.rem z BIGINT_BASE) ∧ z = Z.quot z BIGINT_BASE * BIGINT_BASE + Z.rem z BIGINT_BASE.
Proof.
  intros Hz. pose proof (Z.rem_bound_pos z BIGINT_BASE Hz base_pos).
  pose proof (Z.quot_rem' z BIGINT_BASE). unfold digit_ok. lia.
Qed.

(** Comparing digits lexicographically compares the values. *)
Lemma cmpAbs_loop_spec x y k : ∀ i,
  (i + k ≤ length x)%nat → (i + k ≤ length y)%nat →
  Forall digit_ok (win x i k) → Forall digit_ok (win y i k) →
  cmpAbs_loop k i x y = Ok (match val (win x i k) ?= val (win y i k) with
                            | Eq => 0 | Gt => 1 | Lt => -1 end).
Proof.
  induction k as [|k IH]; intros i Hx Hy HFx HFy; [done|].
  destruct (lookup_lt_is_Some_2 x i) as [xi Hxi]; [lia|].
  destruct (lookup_lt_is_Some_2 y i) as [yi Hyi]; [lia|].
  rewrite (win_cons _ _ _ _ Hxi) in HFx |- *. rewrite (win_cons _ _ _ _ Hyi) in HFy |- *.
  inversion_clear HFx as [|? ? Dx HFx']. inversion_clear HFy as [|? ? Dy HFy'].
  cbn [cmpAbs_loop]. rewrite (rd_ok _ _ _ Hxi), (rd_ok _ _ _ Hyi). cbn [mbind result_bind].
  pose proof (val_bound _ HFx') as Bx. pose proof (val_bound _ HFy') as By.
  rewrite !val_cons, !win_length in * by lia.
  pose proof (pow_base_pos k). set (P := BIGINT_BASE ^ Z.of_nat k) in *.
  destruct (Z.ltb_spec yi xi); [|destruct (Z.ltb_spec xi yi)].
  - replace (_ ?= _) with Gt by (symmetry; apply Z.compare_gt_iff; nia). done.
  - replace (_ ?= _) with Lt by (symmetry; apply Z.compare_lt_iff; nia). done.
  - assert (xi = yi) as <- by lia. rewrite IH by (done || lia).
    by rewrite Z.add_compare_mono_l.
Qed.

Definition sign_of (c : comparison) : Z := match c with Eq => 0 | Gt => 1 | Lt => -1 end.

Lemma bigint_first x n : bigint_ok x n → ∃ d, x !! 1%nat = Some d ∧ digit_ok d.
Proof.
  intros [[H1 H2] _ HF _]. apply (Forall_win_lookup _ _ _ _ 1 HF); lia.
Qed.

Lemma bigint_lead x n : bigint_ok x n → (1 < n)%nat →
  BIGINT_BASE ^ Z.of_nat (n - 1) ≤ val (win x 1 n).
Proof.
  intros Hok Hn. destruct (bigint_first _ _ Hok) as (d & Hd & Dd).
  destruct Hok as [[H1 H2] _ HF [H|H]]; [lia|].
  destruct n as [|n]; [lia|]. rewrite (win_cons _ _ _ _ Hd) in HF |- *.
  inversion_clear HF as [|? ? _ HF']. apply val_bound in HF'.
  rewrite val_cons. rewrite win_length in * by lia. unfold digit_ok in Dd.
  assert (d ≠ 0) by congruence. replace (S n - 1)%nat with n by lia.
  pose proof (pow_base_pos n). nia.
Qed.

Lemma cmpAbsBigint_spec x nx y ny : bigint_ok x nx → bigint_ok y ny →
  cmpAbsBigint x nx y ny = Ok (sign_of (val (win x 1 nx) ?= val (win y 1 ny))).
Proof.
  intros Hx Hy. unfold cmpAbsBigint.
  pose proof (bi_size _ _ Hx). pose proof (bi_size _ _ Hy).
  pose proof (val_bound _ (bi_digits _ _ Hx)) as Bx.
  pose proof (val_bound _ (bi_digits _ _ Hy)) as By.
  rewrite !win_length in * by lia.
  destruct (Z.eqb_spec (Z.of_nat nx - Z.of_nat ny) 0) as [E|E].
  - assert (nx = ny) as <- by lia.
    apply cmpAbs_loop_spec; [lia..|apply Hx|apply Hy].
  - destruct (Z.ltb_spec 0 (Z.of_nat nx - Z.of_nat ny)).
    + assert (val (win y 1 ny) < val (win x 1 nx)).
      { pose proof (bigint_lead x nx Hx).
        pose proof (Z.pow_le_mono_r BIGINT_BASE (Z.of_nat ny) (Z.of_nat (nx - 1))). 
        pose proof base_pos. lia. }
      by rewrite (proj2 (Z.compare_gt_iff _ _)).
    + assert (val (win x 1 nx) < val (win y 1 ny)).
      { pose proof (bigint_lead y ny Hy).
        pose proof (Z.pow_le_mono_r BIGINT_BASE (Z.of_nat nx) (Z.of_nat (ny - 1))).
        pose proof base_pos. lia. }
      by rewrite (proj2 (Z.compare_lt_iff _ _)).
Qed.

(** ** Addition of absolute values *)

Lemma win_write (s : list Z) a m d : (a + S m ≤ length s)%nat →
  win (<[a := d]> s) a (S m) = d :: win s (S a) m.
Proof.
  intros H. rewrite (win_cons _ _ _ d) by (apply list_lookup_insert_eq; lia).
  by rewrite win_insert_out by lia.
Qed.

Lemma val_write (s : list Z) a m d : (a + S m ≤ length s)%nat →
  val (win (<[a := d]> s) a (S m)) = d * BIGINT_BASE ^ Z.of_nat m + val (win s (S a) m).
Proof. intros H. rewrite win_write, val_cons, win_length by lia. done. Qed.

Lemma val_win_cons (x : list Z) a m v : x !! a = Some v → (a + S m ≤ length x)%nat →
  val (win x a (S m)) = v * BIGINT_BASE ^ Z.of_nat m + val (win x (S a) m).
Proof. intros Hv H. rewrite (win_cons _ _ _ _ Hv), val_cons, win_length by lia. done. Qed.

Lemma digits_write s a m d : (a + S m ≤ length s)%nat → digit_ok d →
  Forall digit_ok (win s (S a) m) → Forall digit_ok (win (<[a := d]> s) a (S m)).
Proof. intros. rewrite win_write by done. by constructor. Qed.

Lemma carry_range z : 0 ≤ z < 2 * BIGINT_BASE → 0 ≤ Z.quot z BIGINT_BASE ≤ 1.
Proof.
  intros H. split; [apply Z.quot_pos; lia|].
  enough (Z.quot z BIGINT_BASE < 2) by lia. apply Z.quot_lt_upper_bound; lia.
Qed.

Ltac int_small := repeat match goal with |- context [wrapS ?w ?z] =>
  rewrite (wrapS_small w z) by (unfold digit_ok, BIGINT_BASE in *; lia) end.

Lemma add_low x nx y ny sm : (ny ≤ nx)%nat → (nx + 2 ≤ length sm)%nat →
  (nx + 1 ≤ length x)%nat → (ny + 1 ≤ length y)%nat →
  Forall digit_ok (win x 1 nx) → Forall digit_ok (win y 1 ny) →
  ∃ s c, for_down ny (λ i '(sm, carry),
      xi ← rd x (i + (nx - ny)); yi ← rd y i;
      let digit := int32 (int32 (xi + yi) + carry) in
      sm ← wr sm (1 + (i + (nx - ny))) (Z.rem digit BIGINT_BASE);
      Ok (sm, Z.quot digit BIGINT_BASE)) (sm, 0) = Ok (s, c) ∧
    length s = length sm ∧ 0 ≤ c ≤ 1 ∧ Forall digit_ok (win s (2 + (nx - ny)) ny) ∧
    val (win s (2 + (nx - ny)) ny) + c * BIGINT_BASE ^ Z.of_nat ny
      = val (win x (1 + (nx - ny)) ny) + val (win y 1 ny).
Proof.
  intros Hn Hs Hx Hy HFx HFy. set (d := (nx - ny)%nat).
  loop_down (λ i '(s, c), length s = length sm ∧ 0 ≤ c ≤ 1 ∧
    Forall digit_ok (win s (2 + d + i) (ny - i)) ∧
    val (win s (2 + d + i) (ny - i)) + c * BIGINT_BASE ^ Z.of_nat (ny - i)
      = val (win x (1 + d + i) (ny - i)) + val (win y (1 + i) (ny - i))).
  - intros i [s c] Hi (HL & Hc & HF & HV).
    destruct (Forall_win_lookup _ _ _ _ (i + d) HFx) as (xi & Hxi & Dx); [lia..|].
    destruct (Forall_win_lookup _ _ _ _ i HFy) as (yi & Hyi & Dy); [lia..|].
    rewrite (rd_ok _ _ _ Hxi), (rd_ok _ _ _ Hyi). cbn [mbind result_bind].
    int_small. rewrite wr_ok by lia. cbn [mbind result_bind].
    eexists. split; [done|]. cbn beta iota.
    assert (Hz : 0 ≤ xi + yi + c < 2 * BIGINT_BASE) by (unfold digit_ok in *; lia).
    destruct (digit_step (xi + yi + c)) as [Dd Ed]; [lia|].
    replace (1 + (i + d))%nat with (2 + d + (i - 1))%nat by lia.
    replace (ny - (i - 1))%nat with (S (ny - i)) by lia.
    assert (Es : S (2 + d + (i - 1)) = (2 + d + i)%nat) by lia.
    split; [by rewrite length_insert|].
    split; [by apply carry_range|].
    split; [apply digits_write; [lia|done|by rewrite Es]|].
    rewrite val_write, Es by lia.
    rewrite (val_win_cons x _ _ xi), (val_win_cons y _ _ yi);
      [|by replace (1 + (i - 1))%nat with i by lia | lia
       |by replace (1 + d + (i - 1))%nat with (i + d)%nat by lia | lia].
    replace (S (1 + d + (i - 1)))%nat with (1 + d + i)%nat by lia.
    replace (S (1 + (i - 1)))%nat with (1 + i)%nat by lia.
    rewrite pow_base_S. generalize dependent (BIGINT_BASE ^ Z.of_nat (ny - i)).
    intros P HV. nia.
  - rewrite Nat.sub_diag, !win_0. cbn. repeat split; [lia..|constructor].
  - destruct Hloop as ([s c] & E & HL & Hc & HF & HV). exists s, c.
    rewrite Nat.sub_0_r, !Nat.add_0_r in *. done.
Qed.

Lemma add_high x nx d Y s0 c0 : (d ≤ nx)%nat → (nx + 2 ≤ length s0)%nat →
  (nx + 1 ≤ length x)%nat → Forall digit_ok (win x 1 nx) → 0 ≤ c0 ≤ 1 →
  Forall digit_ok (win s0 (2 + d) (nx - d)) →
  val (win s0 (2 + d) (nx - d)) + c0 * BIGINT_BASE ^ Z.of_nat (nx - d)
    = val (win x (1 + d) (nx - d)) + Y →
  ∃ s c, for_down d (λ i '(sm, carry),
      xi ← rd x i;
      let digit := int32 (xi + carry) in
      sm ← wr sm (1 + i) (Z.rem digit BIGINT_BASE);
      Ok (sm, Z.quot digit BIGINT_BASE)) (s0, c0) = Ok (s, c) ∧
    length s = length s0 ∧ 0 ≤ c ≤ 1 ∧ Forall digit_ok (win s 2 nx) ∧
    val (win s 2 nx) + c * BIGINT_BASE ^ Z.of_nat nx = val (win x 1 nx) + Y.
Proof.
  intros Hd Hs Hx HFx Hc0 HF0 HV0.
  loop_down (λ i '(s, c), length s = length s0 ∧ 0 ≤ c ≤ 1 ∧
    Forall digit_ok (win s (2 + i) (nx - i)) ∧
    val (win s (2 + i) (nx - i)) + c * BIGINT_BASE ^ Z.of_nat (nx - i)
      = val (win x (1 + i) (nx - i)) + Y).
  - intros i [s c] Hi (HL & Hc & HF & HV).
    destruct (Forall_win_lookup _ _ _ _ i HFx) as (xi & Hxi & Dx); [lia..|].
    rewrite (rd_ok _ _ _ Hxi). cbn [mbind result_bind].
    int_small. rewrite wr_ok by lia. cbn [mbind result_bind].
    eexists. split; [done|]. cbn beta iota.
    assert (Hz : 0 ≤ xi + c < 2 * BIGINT_BASE) by (unfold digit_ok, BIGINT_BASE in *; lia).
    destruct (digit_step (xi + c)) as [Dd Ed]; [lia|].
    replace (1 + i)%nat with (2 + (i - 1))%nat by lia.
    replace (nx - (i - 1))%nat with (S (nx - i)) by lia.
    assert (Es : S (2 + (i - 1)) = (2 + i)%nat) by lia.
    split; [by rewrite length_insert|].
    split; [by apply carry_range|].
    split; [apply digits_write; [lia|done|by rewrite Es]|].
    rewrite val_write, Es by lia.
    rewrite (val_win_cons x _ _ xi); [|by replace (1 + (i - 1))%nat with i by lia | lia].
    replace (S (1 + (i - 1)))%nat with (1 + i)%nat by lia.
    rewrite pow_base_S. generalize dependent (BIGINT_BASE ^ Z.of_nat (nx - i)).
    intros P HV. nia.
  - done.
  - destruct Hloop as ([s c] & E & HL & Hc & HF & HV). exists s, c.
    rewrite Nat.sub_0_r, !Nat.add_0_r in *. done.
Qed.

Lemma shift_left_spec ptr n sm : (ptr + n + 1 ≤ length sm)%nat →
  ∃ s, shift_left ptr n sm = Ok s ∧ length s = length sm ∧
    win s ptr n = win sm (ptr + 1) n ∧ (∀ k, (k < ptr)%nat → s !! k = sm !! k).
Proof.
  intros Hl. unfold shift_left.
  loop_up (λ i s, length s = length sm ∧
    (∀ k, (ptr ≤ k < ptr + i)%nat → s !! k = sm !! (k + 1)%nat) ∧
    (∀ k, (k < ptr ∨ ptr + i ≤ k)%nat → s !! k = sm !! k)).
  - intros i s Hi (HL & H1 & H2).
    destruct (lookup_lt_is_Some_2 sm (ptr + i + 1)) as [v Hv]; [lia|].
    rewrite (rd_ok s _ v) by (by rewrite H2 by lia). cbn [mbind result_bind].
    rewrite wr_ok by lia. eexists. split; [done|].
    split; [by rewrite length_insert|]. split; intros k Hk.
    + destruct (decide (k = ptr + i)%nat) as [->|].
      * by rewrite list_lookup_insert_eq by lia.
      * rewrite list_lookup_insert_ne by lia. apply H1. lia.
    + rewrite list_lookup_insert_ne by lia. apply H2. lia.
  - split; [done|]. split; intros; [lia|done].
  - destruct Hloop as (s & E & HL & H1 & H2). exists s. cbn [Nat.add] in *.
    split; [done|]. split; [done|]. split; [|intros; apply H2; lia].
    apply win_shift_ext. intros k Hk. rewrite H1 by lia. f_equal. lia.
Qed.

Lemma addBigint_abs_spec x nx y ny sm : (ny ≤ nx)%nat → (nx + 2 ≤ length sm)%nat →
  (nx + 1 ≤ length x)%nat → (ny + 1 ≤ length y)%nat →
  Forall digit_ok (win x 1 nx) → Forall digit_ok (win y 1 ny) →
  ∃ s n, addBigint_abs x nx y ny sm = Ok (s, n) ∧ length s = length sm ∧
    s !! 0%nat = x !! 0%nat ∧ (nx ≤ n ≤ nx + 1)%nat ∧ Forall digit_ok (win s 1 n) ∧
    val (win s 1 n) = val (win x 1 nx) + val (win y 1 ny) ∧
    (n = (nx + 1)%nat → s !! 1%nat ≠ Some 0).
Proof.
  intros Hn Hs Hx Hy HFx HFy. unfold addBigint_abs.
  destruct (add_low x nx y ny sm) as (s1 & c1 & E1 & L1 & C1 & F1 & V1); [done..|].
  cbv zeta in E1 |- *. rewrite E1. cbn [mbind result_bind].
  destruct (add_high x nx (nx - ny) (val (win y 1 ny)) s1 c1)
    as (s2 & c2 & E2 & L2 & C2 & F2 & V2);
    [lia|lia|lia|done|done|..];
    [by replace (nx - (nx - ny))%nat with ny by lia..|].
  cbv zeta in E2. rewrite E2. cbn [mbind result_bind]. rewrite wr_ok by lia. cbn [mbind result_bind].
  destruct (lookup_lt_is_Some_2 x 0) as [x0 Hx0]; [lia|]. rewrite (rd_ok _ _ _ Hx0).
  destruct (Z.eqb_spec c2 0) as [->|Hc].
  - destruct (shift_left_spec 1 nx (<[1%nat:=0]> s2)) as (s3 & E3 & L3 & W3 & K3);
      [rewrite length_insert; lia|].
    rewrite E3. cbn [mbind result_bind]. rewrite length_insert in L3.
    rewrite wr_ok by lia. cbn [mbind result_bind]. eexists _, nx. split; [done|].
    rewrite length_insert. split; [lia|]. rewrite list_lookup_insert_eq by lia.
    rewrite !win_insert_out by lia. rewrite W3, win_insert_out by lia.
    split; [done|]. split; [lia|]. split; [done|]. split; [|lia].
    change (1 + 1)%nat with 2%nat. lia.
  - cbn [mbind result_bind]. rewrite wr_ok by (rewrite length_insert; lia).
    cbn [mbind result_bind]. eexists _, (nx + 1)%nat. split; [done|].
    rewrite !length_insert. split; [lia|].
    rewrite list_lookup_insert_eq by (rewrite length_insert; lia).
    rewrite !(win_insert_out _ _ _ 0) by lia.
    replace (nx + 1)%nat with (S nx) by lia. rewrite win_write, val_cons, win_length by lia.
    split; [done|]. split; [lia|]. split; [constructor; [unfold digit_ok, BIGINT_BASE; lia|done]|].
    split; [lia|]. intros _. rewrite list_lookup_insert_ne, list_lookup_insert_eq by lia. congruence.
Qed.

(** ** Subtraction of absolute values *)

Lemma sub_digits_spec x nx y ny sm : (ny ≤ nx)%nat → (nx + 1 ≤ length sm)%nat →
  (nx + 1 ≤ length x)%nat → (ny + 1 ≤ length y)%nat →
  Forall digit_ok (win x 1 nx) → Forall digit_ok (win y 1 ny) →
  val (win y 1 ny) ≤ val (win x 1 nx) →
  ∃ s, sub_digits x nx y ny sm = Ok s ∧ length s = length sm ∧ s !! 0%nat = sm !! 0%nat ∧
    Forall digit_ok (win s 1 nx) ∧ val (win s 1 nx) = val (win x 1 nx) - val (win y 1 ny).
Proof.
  intros Hn Hs Hx Hy HFx HFy Hle. unfold sub_digits.
  loop_down (λ i '(s, c, j), length s = length sm ∧ s !! 0%nat = sm !! 0%nat ∧
    0 ≤ c ≤ 1 ∧ j = (ny - (nx - i))%nat ∧ Forall digit_ok (win s (1 + i) (nx - i)) ∧
    val (win s (1 + i) (nx - i)) + val (win y (1 + j) (ny - j))
      = val (win x (1 + i) (nx - i)) + c * BIGINT_BASE ^ Z.of_nat (nx - i)).
  - intros i [[s c] j] Hi (HL & H0 & Hc & Hj & HF & HV).
    destruct (Forall_win_lookup _ _ _ _ i HFx) as (xi & Hxi & Dx); [lia..|].
    rewrite (rd_ok _ _ _ Hxi). cbn [mbind result_bind].
    assert (Hd : ∃ dg, (if Nat.ltb 0 j then yj ← rd y j; Ok (xi - yj - c) else Ok (xi - c)) = Ok dg
      ∧ - BIGINT_BASE ≤ dg < BIGINT_BASE
      ∧ val (win y (1 + (j - 1)) (ny - (j - 1))) =
        (xi - c - dg) * BIGINT_BASE ^ Z.of_nat (nx - i) + val (win y (1 + j) (ny - j))).
    { destruct (Nat.ltb_spec 0 j).
      - destruct (Forall_win_lookup _ _ _ _ j HFy) as (yj & Hyj & Dy); [lia..|].
        rewrite (rd_ok _ _ _ Hyj). eexists. split; [done|].
        split; [unfold digit_ok in *; lia|].
        replace (ny - (j - 1))%nat with (S (nx - i)) by lia.
        rewrite (val_win_cons y _ _ yj); [|by replace (1 + (j - 1))%nat with j by lia | lia].
        replace (S (1 + (j - 1)))%nat with (1 + j)%nat by lia.
        replace (ny - j)%nat with (nx - i)%nat by lia. lia.
      - eexists. split; [done|]. split; [unfold digit_ok in *; lia|].
        replace (j - 1)%nat with j by lia. lia. }
    destruct Hd as (dg & -> & Bd & Vy). cbn [mbind result_bind].
    assert (Hdc : ∃ dg' c', (if dg <? 0 then (dg + BIGINT_BASE, 1) else (dg, 0)) = (dg', c') ∧
      digit_ok dg' ∧ 0 ≤ c' ≤ 1 ∧ dg' = dg + c' * BIGINT_BASE).
    { destruct (Z.ltb_spec dg 0); eexists _, _; (split; [done|]); unfold digit_ok; lia. }
    destruct Hdc as (dg' & c' & -> & Dd & Hc' & Ed).
    rewrite (Z.rem_small dg') by (unfold digit_ok in Dd; lia).
    rewrite wr_ok by lia. cbn [mbind result_bind]. eexists. split; [done|]. cbn beta iota.
    replace (nx - (i - 1))%nat with (S (nx - i)) by lia.
    split; [by rewrite length_insert|]. split; [by rewrite list_lookup_insert_ne by lia|].
    split; [done|]. split; [lia|]. rewrite Vy.
    replace (1 + (i - 1))%nat with i by lia.
    split; [by apply digits_write; [lia|..]|].
    rewrite val_write by lia. rewrite (val_win_cons x _ _ xi); [|done|lia].
    change (S i) with (1 + i)%nat.
    rewrite pow_base_S. generalize dependent (BIGINT_BASE ^ Z.of_nat (nx - i)).
    intros P HV Vy. nia.
  - rewrite Nat.sub_diag, Nat.sub_0_r, Nat.sub_diag, !win_0.
    repeat split; try lia. constructor.
  - destruct Hloop as ([[s c] j] & E & HL & H0 & Hc & Hj & HF & HV). rewrite E.
    exists s. split; [done|]. rewrite Nat.sub_0_r in *.
    replace j with 0%nat in HV by lia. rewrite Nat.sub_0_r in HV. cbn [Nat.add] in *.
    split; [done|]. split; [done|]. split; [done|].
    pose proof (val_bound _ HF) as B. rewrite win_length in B by lia.
    enough (c = 0) as -> by lia.
    destruct (decide (c = 1)) as [->|]; [exfalso; lia|lia].
Qed.

Lemma leading_zeros_spec sm nx : (nx + 2 ≤ length sm)%nat → ∀ fuel i n,
  i = (n + 1)%nat → (n ≤ nx)%nat → (nx - n < fuel)%nat →
  (∀ k, (1 ≤ k ≤ n)%nat → sm !! k = Some 0) →
  ∃ m, leading_zeros fuel sm i nx n = Ok m ∧ (m ≤ nx)%nat ∧
    (∀ k, (1 ≤ k ≤ m)%nat → sm !! k = Some 0) ∧
    ((m < nx)%nat → sm !! (m + 1)%nat ≠ Some 0).
Proof.
  intros Hl. induction fuel as [|fuel IH]; intros i n -> Hn Hf Hz; [lia|].
  cbn [leading_zeros]. destruct (lookup_lt_is_Some_2 sm (n + 1)) as [v Hv]; [lia|].
  rewrite (rd_ok _ _ _ Hv). cbn [mbind result_bind].
  destruct (Z.eqb_spec v 0) as [->|Hv0]; cbn [andb].
  - destruct (Nat.leb_spec (n + 1) nx).
    + replace (S (n + 1)) with (S n + 1)%nat by lia. apply IH; [lia..|].
      intros k Hk. destruct (decide (k = n + 1)%nat) as [->|]; [done|]. apply Hz. lia.
    + exists n. split; [done|]. split; [lia|]. split; [done|]. lia.
  - exists n. split; [done|]. split; [lia|]. split; [done|]. intros _. rewrite Hv. congruence.
Qed.

Lemma win_zeros (s : list Z) a n : (a + n ≤ length s)%nat →
  (∀ k, (a ≤ k < a + n)%nat → s !! k = Some 0) → win s a n = replicate n 0.
Proof.
  intros Hl H. apply list_eq. intros k. destruct (decide (k < n)%nat).
  - rewrite lookup_win, lookup_replicate_2, H by lia. done.
  - rewrite !lookup_ge_None_2; [done|rewrite length_replicate; lia|rewrite win_length; lia].
Qed.

Lemma memmove_left_spec s n nx : (n ≤ nx)%nat → (nx + 1 ≤ length s)%nat →
  ∃ s', memmove_left s n nx = Ok s' ∧ length s' = length s ∧ s' !! 0%nat = s !! 0%nat ∧
    win s' 1 (nx - n) = win s (n + 1) (nx - n).
Proof.
  intros Hn Hs. unfold memmove_left. rewrite (proj2 (Nat.leb_le _ _)) by lia.
  eexists. split; [done|]. destruct s as [|a s]; [cbn in Hs; lia|].
  change (take 1 (a :: s)) with [a]. cbn [app length] in *.
  assert (Hw : length (win (a :: s) (n + 1) (nx - n)) = (nx - n)%nat)
    by (apply win_length; cbn; lia).
  split; [|split; [done|]].
  - cbn [length]. rewrite !length_app, Hw, length_drop. cbn [length take]. lia.
  - set (w := win (a :: s) _ _) in *. 
    change (take (nx - n) (w ++ drop (nx - n + 1) (a :: s)) = w). rewrite take_app_le by lia.
    rewrite take_ge by lia. done.
Qed.

(** The value determines whether the first digit is zero. *)
Lemma first_nonzero s n d : (n ≠ 0)%nat → (n + 1 ≤ length s)%nat → s !! 1%nat = Some d →
  d = 0 → val (win s 1 n) = val (win s 2 (n - 1)).
Proof.
  intros Hn Hl Hd ->. destruct n as [|n]; [lia|].
  rewrite (val_win_cons _ _ _ _ Hd) by lia. replace (S n - 1)%nat with n by lia. lia.
Qed.

Lemma subBigint_abs_spec x nx y ny sm x0 : bigint_ok x nx → bigint_ok y ny →
  x !! 0%nat = Some x0 → (nx `max` ny + 2 ≤ length sm)%nat →
  ∃ s n, subBigint_abs x nx y ny sm = Ok (s, n) ∧ bigint_ok s n ∧
    bigval s n = x0 * (val (win x 1 nx) - val (win y 1 ny)).
Proof.
  intros Hx Hy Hx0 Hl. unfold subBigint_abs.
  rewrite (cmpAbsBigint_spec _ _ _ _ Hx Hy). cbn [mbind result_bind].
  rewrite (rd_ok _ _ _ Hx0). cbn [mbind result_bind].
  assert (Hsg : x0 = 1 ∨ x0 = -1) by (destruct (bi_sign _ _ Hx); simplify_eq; auto).
  set (X := val (win x 1 nx)). set (Y := val (win y 1 ny)).
  assert (Hsel : ∃ sg x' nx' y' ny',
    (if 1 <=? sign_of (X ?= Y) then sm ← wr sm 0 x0; Ok (sm, x, nx, y, ny)
     else sm ← wr sm 0 (x0 * -1); Ok (sm, y, ny, x, nx))
      = Ok (<[0%nat := sg]> sm, x', nx', y', ny') ∧ (sg = 1 ∨ sg = -1) ∧
    bigint_ok x' nx' ∧ bigint_ok y' ny' ∧ (nx' ≤ nx `max` ny)%nat ∧
    val (win y' 1 ny') ≤ val (win x' 1 nx') ∧
    sg * (val (win x' 1 nx') - val (win y' 1 ny')) = x0 * (X - Y)).
  { rewrite !wr_ok by lia. cbn [mbind result_bind]. subst X Y.
    destruct (Z.compare_spec (val (win x 1 nx)) (val (win y 1 ny))); cbn;
      do 5 eexists; (split; [done|]); repeat split; try done; try lia; try apply Hx; try apply Hy. }
  destruct Hsel as (sg & x' & nx' & y' & ny' & -> & Hsg' & Hx' & Hy' & Hm & Hle & Hval).
  cbn [mbind result_bind]. pose proof (bi_size _ _ Hx') as Sx. pose proof (bi_size _ _ Hy') as Sy.
  assert (Hn' : (ny' ≤ nx')%nat).
  { destruct (decide (ny' ≤ nx')%nat); [done|].
    pose proof (bigint_lead y' ny' Hy'). pose proof (val_bound _ (bi_digits _ _ Hx')) as B.
    rewrite win_length in B by lia. pose proof base_pos.
    pose proof (Z.pow_le_mono_r BIGINT_BASE (Z.of_nat nx') (Z.of_nat (ny' - 1))). lia. }
  destruct (sub_digits_spec x' nx' y' ny' (<[0%nat:=sg]> sm)) as (s1 & E1 & L1 & Z1 & F1 & V1);
    [done|rewrite length_insert; lia|lia|lia|apply Hx'|apply Hy'|done|].
  rewrite E1. cbn [mbind result_bind]. rewrite length_insert in L1.
  rewrite list_lookup_insert_eq in Z1 by lia.
  destruct (leading_zeros_spec s1 nx') with (fuel := (nx' + 1)%nat) (i := 1%nat) (n := 0%nat)
    as (m & E2 & Hm2 & Hz & Hnz); [lia..|].
  rewrite E2. cbn [mbind result_bind].
  assert (Hsplit : win s1 1 nx' = replicate m 0 ++ win s1 (m + 1) (nx' - m)).
  { replace nx' with (m + (nx' - m))%nat at 1 by lia. rewrite win_app. f_equal.
    - apply win_zeros; [lia|]. intros k Hk. apply Hz. lia.
    - f_equal. lia. }
  rewrite Hsplit in V1, F1. rewrite val_app, val_zeros in V1.
  assert (Hnth : nth 0 s1 0 = sg) by (by apply nth_lookup_Some with (d := 0) in Z1).
  destruct (Nat.eqb_spec m nx') as [->|Hmn].
  - eexists _, 1%nat. split; [done|].
    assert (s1 !! 1%nat = Some 0) as H1 by (apply Hz; lia).
    assert (W1 : win s1 1 1 = [0]) by (by rewrite (win_cons _ _ _ _ H1)).
    split.
    + split; [lia | rewrite Z1; destruct Hsg' as [->| ->]; auto | | by left].
      rewrite W1. constructor; [unfold digit_ok, BIGINT_BASE; lia|constructor].
    + unfold bigval. rewrite W1, Hnth. rewrite <- Hval. rewrite Nat.sub_diag, win_0 in V1.
      cbn in V1 |- *. lia.
  - destruct (memmove_left_spec s1 m nx') as (s2 & E3 & L3 & Z3 & W3); [lia..|].
    rewrite E3. cbn [mbind result_bind]. eexists _, (nx' - m)%nat. split; [done|].
    apply Forall_app in F1 as [_ F1]. split.
    + split; [lia | rewrite Z3, Z1; destruct Hsg' as [->| ->]; auto | by rewrite W3|].
      right. change (s2 !! 1%nat) with (s2 !! (1 + 0)%nat).
      rewrite <- (lookup_win s2 1 (nx' - m) 0), W3, lookup_win, Nat.add_0_r by lia.
      apply Hnz. lia.
    + unfold bigval. rewrite W3. rewrite Z1 in Z3.
      apply nth_lookup_Some with (d := 0) in Z3. rewrite Z3. lia.
Qed.

(** ** Signed addition and subtraction *)

Lemma bigint_ok_intro s n sg : s !! 0%nat = Some sg → (sg = 1 ∨ sg = -1) →
  (1 ≤ n)%nat → (n + 1 ≤ length s)%nat → Forall digit_ok (win s 1 n) →
  (n = 1%nat ∨ BIGINT_BASE ^ Z.of_nat (n - 1) ≤ val (win s 1 n)) → bigint_ok s n.
Proof.
  intros H0 Hsg Hn Hl HF Hv. split; [done|rewrite H0; destruct Hsg as [-> | ->]; auto|done|].
  destruct Hv as [->|Hv]; [by left|right]. intros H1.
  rewrite (first_nonzero s n 0) in Hv by (done || lia).
  assert (HF2 : Forall digit_ok (win s 2 (n - 1))).
  { replace n with (1 + (n - 1))%nat in HF by lia. rewrite win_app in HF.
    by apply Forall_app in HF as [_ HF]. }
  apply val_bound in HF2. rewrite win_length in HF2 by lia. lia.
Qed.

Lemma bigval_sign s n sg : s !! 0%nat = Some sg → bigval s n = sg * val (win s 1 n).
Proof. intros H. unfold bigval. by apply nth_lookup_Some with (d := 0) in H as ->. Qed.

Lemma resign y n sg : bigint_ok y n → (sg = 1 ∨ sg = -1) →
  bigint_ok (<[0%nat := sg]> y) n ∧ win (<[0%nat := sg]> y) 1 n = win y 1 n.
Proof.
  intros [[H1 H2] Hs HF Hn] Hsg. split; [|by apply win_insert_out; lia]. split.
  - rewrite length_insert. done.
  - rewrite list_lookup_insert_eq by lia. destruct Hsg as [->| ->]; auto.
  - by rewrite win_insert_out by lia.
  - by rewrite list_lookup_insert_ne by lia.
Qed.

Lemma bigint_sign x n : bigint_ok x n → ∃ x0, x !! 0%nat = Some x0 ∧ (x0 = 1 ∨ x0 = -1).
Proof. intros H. destruct (bi_sign _ _ H); eauto. Qed.

Lemma sign_restored (y : list Z) sg : y !! 0%nat = Some (sg * -1) →
  <[0%nat := sg * -1]> (<[0%nat := sg]> y) = y.
Proof. intros H. rewrite list_insert_insert_eq. by apply list_insert_id. Qed.

(** Adding the absolute values of two numbers of the same sign. *)
Lemma addBigint_same x nx y ny sm x0 : bigint_ok x nx → bigint_ok y ny →
  x !! 0%nat = Some x0 → (ny ≤ nx)%nat → (nx + 2 ≤ length sm)%nat →
  ∃ s n, addBigint_abs x nx y ny sm = Ok (s, n) ∧ bigint_ok s n ∧
    bigval s n = x0 * (val (win x 1 nx) + val (win y 1 ny)).
Proof.
  intros Hx Hy Hx0 Hn Hl. pose proof (bi_size _ _ Hx). pose proof (bi_size _ _ Hy).
  destruct (addBigint_abs_spec x nx y ny sm) as (s & n & E & L & Z0 & N & F & V & C);
    [lia..|apply Hx|apply Hy|]. exists s, n. split; [done|].
  destruct (bigint_sign _ _ Hx) as (x0' & Hx0' & Hsg). simplify_eq.
  rewrite Hx0 in Z0. split; [|by rewrite (bigval_sign _ _ _ Z0), V].
  pose proof (val_bound _ (bi_digits _ _ Hy)).
  destruct (decide (n = nx + 1)%nat) as [->|Hne].
  - split; [lia|rewrite Z0; destruct Hsg as [->| ->]; auto|done|by right; apply C].
  - assert (n = nx) as -> by lia. apply (bigint_ok_intro s nx x0); [done|done|lia|lia|done|].
    destruct (decide (nx = 1)%nat); [by left|right].
    pose proof (bigint_lead x nx Hx). lia.
Qed.

Lemma addBigint_spec x nx y ny sm : bigint_ok x nx → bigint_ok y ny →
  (nx `max` ny + 2 ≤ length sm)%nat →
  ∃ s n, addBigint x nx y ny sm = Ok (Sum s n x y) ∧ bigint_ok s n ∧
    bigval s n = bigval x nx + bigval y ny.
Proof.
  assert (Hmain : ∀ x nx y ny, bigint_ok x nx → bigint_ok y ny → (ny ≤ nx)%nat →
    (nx `max` ny + 2 ≤ length sm)%nat → ∃ s n, (x0 ← rd x 0; y0 ← rd y 0;
      (if negb (x0 =? y0) then
         y ← wr y 0 x0;
         '(sm, nsm) ← subBigint_abs x nx y ny sm;
         x ← wr x 0 x0; y ← wr y 0 (x0 * -1);
         Ok (sm, nsm, x, y)
       else '(sm, nsm) ← addBigint_abs x nx y ny sm; Ok (sm, nsm, x, y)))
      = Ok (s, n, x, y) ∧ bigint_ok s n ∧ bigval s n = bigval x nx + bigval y ny).
  { clear. intros x nx y ny Hx Hy Hn Hl.
    destruct (bigint_sign _ _ Hx) as (x0 & Hx0 & Hsx).
    destruct (bigint_sign _ _ Hy) as (y0 & Hy0 & Hsy).
    pose proof (bi_size _ _ Hx). pose proof (bi_size _ _ Hy).
    rewrite (rd_ok _ _ _ Hx0), (rd_ok _ _ _ Hy0). cbn [mbind result_bind].
    rewrite (bigval_sign _ _ _ Hx0), (bigval_sign _ _ _ Hy0).
    destruct (Z.eqb_spec x0 y0) as [<-|Hne]; cbn [negb].
    - destruct (addBigint_same x nx y ny sm x0) as (s & n & E & Hok & V); [done..|lia|].
      rewrite E. exists s, n. split; [done|]. split; [done|]. lia.
    - rewrite (wr_ok y) by lia. cbn [mbind result_bind].
      destruct (resign y ny x0 Hy Hsx) as [Hy' Wy].
      destruct (subBigint_abs_spec x nx (<[0%nat:=x0]> y) ny sm x0) as (s & n & E & Hok & V);
        [done..|]. rewrite E. cbn [mbind result_bind].
      rewrite !wr_ok by (rewrite ?length_insert; lia). cbn [mbind result_bind].
      exists s, n. rewrite list_insert_id by done. rewrite sign_restored.
      + split; [done|]. split; [done|]. rewrite V, Wy. lia.
      + rewrite Hy0. f_equal. lia. }
  intros Hx Hy Hl. unfold addBigint.
  destruct (Nat.ltb_spec nx ny) as [Hlt|Hge].
  - destruct (Hmain y ny x nx) as (s & n & E & Hok & V); [done..|lia|lia|].
    exists s, n. cbv zeta. rewrite (Z.add_comm (bigval x nx)), <- V. split; [|done].
    destruct (rd y 0) as [y0| | |]; cbn [mbind result_bind] in E |- *; try discriminate.
    destruct (rd x 0) as [x0| | |]; cbn [mbind result_bind] in E |- *; try discriminate.
    rewrite E. done.
  - destruct (Hmain x nx y ny) as (s & n & E & Hok & V); [done..|lia|].
    exists s, n. cbv zeta. rewrite <- V. split; [|done].
    destruct (rd x 0) as [x0| | |]; cbn [mbind result_bind] in E |- *; try discriminate.
    destruct (rd y 0) as [y0| | |]; cbn [mbind result_bind] in E |- *; try discriminate.
    rewrite E. done.
Qed.

Lemma subBigint_spec x nx y ny sm : bigint_ok x nx → bigint_ok y ny →
  (nx `max` ny + 2 ≤ length sm)%nat →
  ∃ s n, subBigint x nx y ny sm = Ok (Sum s n x y) ∧ bigint_ok s n ∧
    bigval s n = bigval x nx - bigval y ny.
Proof.
  intros Hx Hy Hl. unfold subBigint.
  destruct (bigint_sign _ _ Hx) as (x0 & Hx0 & Hsx).
  destruct (bigint_sign _ _ Hy) as (y0 & Hy0 & Hsy).
  pose proof (bi_size _ _ Hx). pose proof (bi_size _ _ Hy).
  rewrite (rd_ok _ _ _ Hx0), (rd_ok _ _ _ Hy0). cbn [mbind result_bind].
  rewrite (bigval_sign _ _ _ Hx0), (bigval_sign _ _ _ Hy0).
  destruct (Z.eqb_spec x0 y0) as [<-|Hne]; cbn [negb].
  - destruct (subBigint_abs_spec x nx y ny sm x0) as (s & n & E & Hok & V); [done..|].
    rewrite E. exists s, n. split; [done|]. split; [done|]. lia.
  - rewrite (wr_ok y) by lia. cbn [mbind result_bind].
    destruct (resign y ny x0 Hy Hsx) as [Hy' Wy].
    assert (Hadd : ∃ s n,
      (if Nat.ltb nx ny then addBigint_abs (<[0%nat:=x0]> y) ny x nx sm
       else addBigint_abs x nx (<[0%nat:=x0]> y) ny sm) = Ok (s, n) ∧ bigint_ok s n ∧
      bigval s n = x0 * (val (win x 1 nx) + val (win y 1 ny))).
    { rewrite <- Wy. destruct (Nat.ltb_spec nx ny).
      - rewrite Z.add_comm. apply addBigint_same; [done..| |lia|lia].
        apply list_lookup_insert_eq; lia.
      - apply addBigint_same; [done..|lia]. }
    destruct Hadd as (s & n & -> & Hok & V). cbn [mbind result_bind].
    rewrite !wr_ok by (rewrite ?length_insert; lia). cbn [mbind result_bind].
    exists s, n. rewrite list_insert_id by done. rewrite sign_restored.
    + split; [done|]. split; [done|]. lia.
    + rewrite Hy0. f_equal. lia.
Qed.

(** ** Multiplication *)

Lemma quot_digit z : 0 ≤ z < BIGINT_BASE * BIGINT_BASE → 0 ≤ Z.quot z BIGINT_BASE < BIGINT_BASE.
Proof.
  intros H. split; [apply Z.quot_pos; [lia|done]|].
  apply Z.quot_lt_upper_bound; unfold BIGINT_BASE in *; lia.
Qed.

Lemma mul_row_spec x nx yi i p : (i + nx + 1 ≤ length p)%nat → (nx + 1 ≤ length x)%nat →
  Forall digit_ok (win x 1 nx) → digit_ok yi → Forall digit_ok (win p (1 + i) nx) →
  ∃ s c, mul_row x nx yi i p = Ok (s, c) ∧ length s = length p ∧ digit_ok c ∧
    (∀ k, (k ≤ i ∨ i + nx < k)%nat → s !! k = p !! k) ∧ Forall digit_ok (win s (1 + i) nx) ∧
    val (win s (1 + i) nx) + c * BIGINT_BASE ^ Z.of_nat nx
      = val (win p (1 + i) nx) + yi * val (win x 1 nx).
Proof.
  intros Hp Hx HFx Dyi HFp. unfold mul_row.
  loop_down (λ j '(s, c), length s = length p ∧ digit_ok c ∧
    (∀ k, (k ≤ i + j ∨ i + nx < k)%nat → s !! k = p !! k) ∧
    Forall digit_ok (win s (1 + i + j) (nx - j)) ∧
    val (win s (1 + i + j) (nx - j)) + c * BIGINT_BASE ^ Z.of_nat (nx - j)
      = val (win p (1 + i + j) (nx - j)) + yi * val (win x (1 + j) (nx - j))).
  - intros j [s c] Hj (HL & Dc & HU & HF & HV).
    destruct (Forall_win_lookup _ _ _ _ j HFx) as (xj & Hxj & Dx); [lia..|].
    destruct (Forall_win_lookup _ _ _ _ (j + i) HFp) as (pj & Hpj & Dp); [lia..|].
    rewrite (rd_ok s _ pj) by (by rewrite HU by lia). rewrite (rd_ok _ _ _ Hxj).
    cbn [mbind result_bind].
    assert (Hz : 0 ≤ pj + yi * xj + c < BIGINT_BASE * BIGINT_BASE)
      by (unfold digit_ok in *; nia).
    rewrite (wrapS_small 64) by (unfold BIGINT_BASE in *; lia).
    destruct (digit_step (pj + yi * xj + c)) as [Dd Ed]; [lia|].
    pose proof (quot_digit _ Hz) as Hq.
    rewrite (wrapS_small 32) by (unfold BIGINT_BASE in *; lia).
    rewrite wr_ok by lia. cbn [mbind result_bind]. eexists. split; [done|]. cbn beta iota.
    replace (nx - (j - 1))%nat with (S (nx - j)) by lia.
    replace (1 + i + (j - 1))%nat with (j + i)%nat by lia.
    assert (Es : S (j + i) = (1 + i + j)%nat) by lia.
    split; [by rewrite length_insert|]. split; [done|].
    split; [intros k Hk; rewrite list_lookup_insert_ne by lia; apply HU; lia|].
    split; [apply digits_write; [lia|done|by rewrite Es]|].
    rewrite val_write, Es by lia.
    rewrite (val_win_cons x _ _ xj), (val_win_cons p _ _ pj), Es;
      [|done|lia|by replace (1 + (j - 1))%nat with j by lia|lia].
    replace (S (1 + (j - 1)))%nat with (1 + j)%nat by lia.
    rewrite pow_base_S. generalize dependent (BIGINT_BASE ^ Z.of_nat (nx - j)).
    intros P HV. nia.
  - rewrite Nat.sub_diag, !win_0. split; [done|]. split; [unfold digit_ok, BIGINT_BASE; lia|].
    split; [done|]. split; [constructor|]. cbn. lia.
  - destruct Hloop as ([s c] & E & HL & Dc & HU & HF & HV). exists s, c.
    rewrite Nat.sub_0_r, !Nat.add_0_r in *. done.
Qed.

Lemma trim_shift (p : list Z) k : (1 ≤ k)%nat → (k + 1 ≤ length p)%nat →
  ∃ s, for_up 1 (k - 1) (λ i (p : list Z), v ← rd p (i + 1); wr p i v) p = Ok s ∧
    length s = length p ∧ win s 1 (k - 1) = win p 2 (k - 1).
Proof.
  intros Hk Hl.
  loop_up (λ i s, length s = length p ∧
    (∀ j, (1 ≤ j < i)%nat → s !! j = p !! (j + 1)%nat) ∧
    (∀ j, (j = 0 ∨ i ≤ j)%nat → s !! j = p !! j)).
  - intros i s Hi (HL & H1 & H2).
    destruct (lookup_lt_is_Some_2 p (i + 1)) as [v Hv]; [lia|].
    rewrite (rd_ok s _ v) by (by rewrite H2 by lia). cbn [mbind result_bind].
    rewrite wr_ok by lia. eexists. split; [done|].
    split; [by rewrite length_insert|]. split; intros j Hj.
    + destruct (decide (j = i)) as [->|]; [by rewrite list_lookup_insert_eq by lia|].
      rewrite list_lookup_insert_ne by lia. apply H1. lia.
    + rewrite list_lookup_insert_ne by lia. apply H2. lia.
  - split; [done|]. split; [lia|done].
  - destruct Hloop as (s & E & HL & H1 & _). exists s. split; [done|]. split; [done|].
    apply win_shift_ext. intros j Hj. rewrite H1 by lia. f_equal. lia.
Qed.

Lemma mul_trim_spec fuel : ∀ p k, (1 ≤ k ≤ fuel)%nat → (k + 1 ≤ length p)%nat →
  Forall digit_ok (win p 1 k) →
  ∃ s m, mul_trim fuel p k = Ok (s, m) ∧ length s = length p ∧ (1 ≤ m ≤ k)%nat ∧
    Forall digit_ok (win s 1 m) ∧ val (win s 1 m) = val (win p 1 k) ∧
    (m = 1%nat ∨ s !! 1%nat ≠ Some 0).
Proof.
  induction fuel as [|fuel IH]; intros p k Hk Hl HF; [lia|]. cbn [mul_trim].
  destruct (lookup_lt_is_Some_2 p 1) as [p1 Hp1]; [lia|].
  rewrite (rd_ok _ _ _ Hp1). cbn [mbind result_bind].
  destruct (Z.eqb_spec p1 0) as [->|Hp0]; cbn [andb].
  - destruct (Nat.ltb_spec 1 k).
    + destruct (trim_shift p k) as (s1 & E1 & L1 & W1); [lia..|].
      rewrite E1. cbn [mbind result_bind].
      assert (HF1 : Forall digit_ok (win s1 1 (k - 1))).
      { rewrite W1. replace k with (1 + (k - 1))%nat in HF by lia.
        rewrite win_app in HF. by apply Forall_app in HF as [_ HF]. }
      destruct (IH s1 (k - 1)%nat) as (s & m & E & L & M & F & V & N); [lia|lia|done|].
      exists s, m. split; [done|]. split; [lia|]. split; [lia|]. split; [done|].
      split; [|done]. rewrite V, W1. symmetry. apply (first_nonzero p k 0); (done || lia).
    + exists p, k. split; [done|]. repeat split; try done; try lia.
  - exists p, k. split; [done|]. split; [done|]. split; [lia|]. split; [done|].
    split; [done|]. right. congruence.
Qed.

Lemma mul_rows x nx y ny p : (nx + ny + 1 ≤ length p)%nat → (nx + 1 ≤ length x)%nat →
  (ny + 1 ≤ length y)%nat → Forall digit_ok (win x 1 nx) → Forall digit_ok (win y 1 ny) →
  (∀ k, (k < nx + ny + 1)%nat → p !! k = Some 0) →
  ∃ s, for_down ny (λ i p,
      yi ← rd y i;
      '(p, carry) ← mul_row x nx yi i p;
      pi ← rd p i;
      let digit := pi + carry in
      wr p i (Z.rem digit BIGINT_BASE)) p = Ok s ∧ length s = length p ∧
    Forall digit_ok (win s 1 (nx + ny)) ∧
    val (win s 1 (nx + ny)) = val (win x 1 nx) * val (win y 1 ny).
Proof.
  intros Hp Hx Hy HFx HFy Hz.
  loop_down (λ i s, length s = length p ∧ (∀ k, (k ≤ i)%nat → s !! k = Some 0) ∧
    Forall digit_ok (win s (1 + i) (nx + (ny - i))) ∧
    val (win s (1 + i) (nx + (ny - i))) = val (win x 1 nx) * val (win y (1 + i) (ny - i))).
  - intros i s Hi (HL & HZ & HF & HV).
    destruct (Forall_win_lookup _ _ _ _ i HFy) as (yi & Hyi & Dy); [lia..|].
    rewrite (rd_ok _ _ _ Hyi). cbn [mbind result_bind].
    rewrite win_app in HF. apply Forall_app in HF as [HF1 HF2].
    destruct (mul_row_spec x nx yi i s) as (s1 & c & E1 & L1 & Dc & U1 & F1 & V1);
      [lia|lia|done..|].
    rewrite E1. cbn [mbind result_bind]. rewrite (rd_ok s1 i 0) by (rewrite U1 by lia; apply HZ; lia).
    cbn [mbind result_bind]. rewrite Z.add_0_l, Z.rem_small by (unfold digit_ok in Dc; lia).
    rewrite wr_ok by lia. eexists. split; [done|].
    split; [by rewrite length_insert; lia|].
    split; [intros k Hk; rewrite list_lookup_insert_ne, U1 by lia; apply HZ; lia|].
    replace (1 + (i - 1))%nat with i by lia.
    replace (nx + (ny - (i - 1)))%nat with (S (nx + (ny - i))) by lia.
    assert (Wlow : win s1 (1 + i + nx) (ny - i) = win s (1 + i + nx) (ny - i))
      by (apply win_ext; intros k Hk; apply U1; lia).
    split.
    + apply digits_write; [lia|done|]. change (S i) with (1 + i)%nat.
      rewrite win_app, Wlow. by apply Forall_app.
    + rewrite val_write by lia. change (S i) with (1 + i)%nat.
      rewrite win_app, val_app in HV |- *. rewrite Wlow.
      rewrite win_length in HV |- * by lia.
      replace (ny - (i - 1))%nat with (S (ny - i)) by lia.
      rewrite (val_win_cons y i _ yi) by (done || lia). change (S i) with (1 + i)%nat.
      rewrite Nat2Z.inj_add, Z.pow_add_r by lia.
      generalize dependent (BIGINT_BASE ^ Z.of_nat (ny - i)).
      generalize dependent (BIGINT_BASE ^ Z.of_nat nx). intros P V1 Q HV. nia.
  - split; [done|]. split; [intros; apply Hz; lia|]. rewrite Nat.sub_diag, win_0, Nat.add_0_r.
    rewrite (win_zeros p) by (lia || (intros; apply Hz; lia)). rewrite val_zeros.
    split; [|cbn; lia]. apply Forall_replicate. unfold digit_ok, BIGINT_BASE. lia.
  - destruct Hloop as (s & E & HL & _ & HF & HV). exists s.
    rewrite Nat.sub_0_r in *. done.
Qed.

Lemma mulBigint_spec x nx y ny p : bigint_ok x nx → bigint_ok y ny →
  (nx + ny + 1 ≤ length p)%nat →
  ∃ s n, mulBigint x nx y ny p = Ok (s, n) ∧ bigint_ok s n ∧
    bigval s n = bigval x nx * bigval y ny.
Proof.
  intros Hx Hy Hp. unfold mulBigint, memset0.
  destruct (bigint_sign _ _ Hx) as (x0 & Hx0 & Hsx).
  destruct (bigint_sign _ _ Hy) as (y0 & Hy0 & Hsy).
  pose proof (bi_size _ _ Hx). pose proof (bi_size _ _ Hy).
  rewrite (proj2 (Nat.leb_le _ _)) by lia. cbn [mbind result_bind].
  destruct (mul_rows x nx y ny (replicate (nx + ny + 1) 0 ++ drop (nx + ny + 1) p))
    as (s1 & E1 & L1 & F1 & V1);
    [rewrite length_app, length_replicate; lia|lia|lia|apply Hx|apply Hy|
     intros k Hk; rewrite lookup_app_l by (rewrite length_replicate; lia);
     by apply lookup_replicate_2|].
  cbv zeta in E1 |- *. rewrite E1. cbn [mbind result_bind].
  rewrite length_app, length_replicate, length_drop in L1.
  destruct (mul_trim_spec (nx + ny) s1 (nx + ny)) as (s2 & m & E2 & L2 & M & F2 & V2 & N);
    [lia|lia|done|].
  rewrite E2. cbn [mbind result_bind]. rewrite (rd_ok _ _ _ Hx0), (rd_ok _ _ _ Hy0).
  cbn [mbind result_bind]. rewrite wr_ok by lia. cbn [mbind result_bind].
  eexists _, m. split; [done|].
  assert (Z0 : <[0%nat:=x0 * y0]> s2 !! 0%nat = Some (x0 * y0))
    by (apply list_lookup_insert_eq; lia).
  split.
  - split; [rewrite length_insert; lia| | |].
    + rewrite Z0. destruct Hsx as [-> | ->], Hsy as [-> | ->]; auto.
    + by rewrite win_insert_out by lia.
    + by rewrite list_lookup_insert_ne by lia.
  - rewrite (bigval_sign _ _ _ Z0), (bigval_sign _ _ _ Hx0), (bigval_sign _ _ _ Hy0).
    rewrite win_insert_out, V2, V1 by lia. lia.
Qed.

(** ** Signed comparison and 64-bit conversions *)

Lemma cmpBigint_spec x nx y ny : bigint_ok x nx → bigint_ok y ny →
  cmpBigint x nx y ny = Ok (sign_of (bigval x nx ?= bigval y ny)).
Proof.
  intros Hx Hy. unfold cmpBigint.
  destruct (bigint_sign _ _ Hx) as (x0 & Hx0 & Hsx).
  destruct (bigint_sign _ _ Hy) as (y0 & Hy0 & Hsy).
  destruct (bigint_first _ _ Hx) as (x1 & Hx1 & Dx).
  destruct (bigint_first _ _ Hy) as (y1 & Hy1 & Dy).
  rewrite (rd_ok _ _ _ Hx0), (rd_ok _ _ _ Hy0), (rd_ok _ _ _ Hx1), (rd_ok _ _ _ Hy1).
  cbn [mbind result_bind]. rewrite (cmpAbsBigint_spec _ _ _ _ Hx Hy).
  rewrite (bigval_sign _ _ _ Hx0), (bigval_sign _ _ _ Hy0).
  pose proof (bi_size _ _ Hx). pose proof (bi_size _ _ Hy).
  pose proof (val_bound _ (bi_digits _ _ Hx)) as [Bx _].
  pose proof (val_bound _ (bi_digits _ _ Hy)) as [By _].
  assert (Hzero : ∀ z n d, bigint_ok z n → z !! 1%nat = Some d →
    val (win z 1 n) = 0 → n = 1%nat ∧ d = 0).
  { intros z n d Hz Hd Hv. destruct (decide (n = 1)%nat) as [->|].
    - rewrite (win_cons _ _ _ _ Hd), win_0 in Hv. cbn in Hv. split; [done|lia].
    - pose proof (bi_size _ _ Hz). pose proof (bigint_lead _ _ Hz ltac:(lia)).
      pose proof (pow_base_pos (n - 1)). lia. }
  destruct (Nat.eqb nx 1 && Nat.eqb ny 1 && (x1 =? 0) && (y1 =? 0)) eqn:E0.
  - rewrite !andb_true_iff, !Nat.eqb_eq, !Z.eqb_eq in E0.
    destruct E0 as [[[-> ->] ->] ->].
    rewrite (win_cons _ _ _ _ Hx1), (win_cons _ _ _ _ Hy1), !win_0. cbn [val foldl].
    rewrite !Z.mul_0_r. done.
  - assert (Hnz : val (win x 1 nx) ≠ 0 ∨ val (win y 1 ny) ≠ 0).
    { destruct (Z.eq_dec (val (win x 1 nx)) 0) as [Ex|]; [right|by left].
      intros Ey. destruct (Hzero x nx x1 Hx Hx1 Ex) as [-> ->].
      destruct (Hzero y ny y1 Hy Hy1 Ey) as [-> ->]. discriminate. }
    destruct (Z.ltb_spec y0 x0); [|destruct (Z.ltb_spec x0 y0)].
    + destruct Hsx as [-> | ->], Hsy as [-> | ->]; try lia.
      by rewrite (proj2 (Z.compare_gt_iff _ _)) by lia.
    + destruct Hsx as [-> | ->], Hsy as [-> | ->]; try lia.
      by rewrite (proj2 (Z.compare_lt_iff _ _)) by lia.
    + assert (x0 = y0) as <- by lia. cbn [mbind result_bind]. f_equal.
      destruct (Z.compare_spec (val (win x 1 nx)) (val (win y 1 ny))) as [->|Hc|Hc];
        destruct Hsx as [-> | ->]; cbn [sign_of];
        first [ by rewrite Z.compare_refl | by rewrite (proj2 (Z.compare_gt_iff _ _)) by lia
              | by rewrite (proj2 (Z.compare_lt_iff _ _)) by lia ].
Qed.

Lemma bigintToInt64_spec x n : bigint_ok x n →
  bigintToInt64 x n =
    if (- 2 ^ 63 <=? bigval x n) && (bigval x n <? 2 ^ 63) then Ok (bigval x n)
    else Fail ERR_NUMBER_OUT_OF_RANGE.
Proof.
  intros Hx. unfold bigintToInt64.
  assert (Hmax : bigint_ok maxInt 3).
  { apply (bigint_ok_intro _ _ 1); [done|by left|cbn; lia|cbn; lia| |right; vm_compute; congruence].
    cbn. repeat constructor; unfold BIGINT_BASE; lia. }
  assert (Hmin : bigint_ok minInt 3).
  { apply (bigint_ok_intro _ _ (-1)); [done|by right|cbn; lia|cbn; lia| |right; vm_compute; congruence].
    cbn. repeat constructor; unfold BIGINT_BASE; lia. }
  rewrite (cmpBigint_spec _ _ _ _ Hx Hmax), (cmpBigint_spec _ _ _ _ Hx Hmin).
  change (bigval maxInt 3) with (2 ^ 63 - 1). change (bigval minInt 3) with (- 2 ^ 63).
  cbn [mbind result_bind].
  set (v := bigval x n).
  assert (Hconv : - 2 ^ 63 ≤ v < 2 ^ 63 → (num ← rd x 1;
    num ← for_up 2 (n - 1) (λ i num, xi ← rd x i; Ok (int64 (num * BIGINT_BASE + xi))) num;
    x0 ← rd x 0; Ok (int64 (num * x0))) = Ok v).
  { intros Hv. destruct (bigint_first _ _ Hx) as (x1 & Hx1 & D1).
    destruct (bigint_sign _ _ Hx) as (x0 & Hx0 & Hs). pose proof (bi_size _ _ Hx).
    rewrite (rd_ok _ _ _ Hx1). cbn [mbind result_bind].
    loop_up (λ i num, num = int64 (val (win x 1 (i - 1)))).
    - intros i num Hi ->. destruct (lookup_lt_is_Some_2 x i) as [xi Hxi]; [lia|].
      rewrite (rd_ok _ _ _ Hxi). cbn [mbind result_bind]. eexists. split; [done|].
      rewrite wrapS_mul_add by lia. f_equal.
      replace (i + 1 - 1)%nat with ((i - 1) + 1)%nat by lia. rewrite win_app, val_app.
      rewrite (win_cons x (1 + (i - 1)) 0 xi)
        by (by replace (1 + (i - 1))%nat with i by lia).
      rewrite win_0, val_cons. cbn [length]. change (val []) with 0.
      change (BIGINT_BASE ^ Z.of_nat 1) with BIGINT_BASE.
      change (BIGINT_BASE ^ Z.of_nat 0) with 1. lia.
    - cbn [Nat.sub]. rewrite (win_cons _ _ _ _ Hx1), win_0.
      replace (val [x1]) with x1 by (cbn; lia).
      rewrite wrapS_small; [done|lia|]. unfold digit_ok, BIGINT_BASE in D1. lia.
    - destruct Hloop as (num & E & ->). rewrite E, (rd_ok _ _ _ Hx0). cbn [mbind result_bind].
      f_equal. replace (2 + (n - 1) - 1)%nat with n by lia.
      rewrite <- (Z.add_0_r (_ * x0)), wrapS_mul_add by lia.
      subst v. rewrite (bigval_sign _ _ _ Hx0) in *. rewrite wrapS_small; lia. }
  destruct (Z.compare_spec v (2 ^ 63 - 1)); cbn [sign_of Z.eqb mbind result_bind];
    destruct (Z.compare_spec v (- 2 ^ 63)); cbn [sign_of Z.eqb Pos.eqb mbind result_bind];
    try lia;
    destruct (Z.leb_spec (- 2 ^ 63) v); try lia;
    destruct (Z.ltb_spec v (2 ^ 63)); try lia; cbn [andb]; try done; apply Hconv; lia.
Qed.

(** The absolute value of a 64-bit integer as [intToBigint] splits it. *)
Lemma base_prod : BIGINT_BASE2 = BIGINT_BASE * BIGINT_BASE. Proof. done. Qed.

Lemma low_digit a : 0 ≤ a < 2 ^ 63 →
  int32 (int64 (a - int32 (int32 (Z.quot a BIGINT_BASE) * BIGINT_BASE))) = Z.rem a BIGINT_BASE
  ∨ BIGINT_BASE * 2 ^ 31 ≤ a.
Proof.
  intros Ha. destruct (Z.lt_ge_cases a (BIGINT_BASE * 2 ^ 31)) as [Hs|]; [left|by right].
  pose proof (Z.quot_rem' a BIGINT_BASE) as E.
  pose proof (Z.rem_bound_pos a BIGINT_BASE ltac:(lia) base_pos) as Hr.
  assert (Hq : 0 ≤ Z.quot a BIGINT_BASE < 2 ^ 31).
  { split; [apply Z.quot_pos; [lia|done]|]. apply Z.quot_lt_upper_bound; [lia|done|lia]. }
  set (q := Z.quot a BIGINT_BASE) in *. rewrite (wrapS_small 32 q) by lia.
  rewrite (wrapS_small 64).
  - rewrite wrapS_sub by lia. replace (a - q * BIGINT_BASE) with (Z.rem a BIGINT_BASE) by lia.
    apply wrapS_small; unfold BIGINT_BASE in *; lia.
  - lia.
  - pose proof (wrapS_range 32 (q * BIGINT_BASE) ltac:(lia)).
    unfold BIGINT_BASE in Hs. lia.
Qed.

Lemma mem4 (mem : list Z) : length mem = 4%nat → ∃ a b c d, mem = [a; b; c; d].
Proof. intros H. do 5 (destruct mem as [|? mem]; try discriminate). eauto. Qed.

Lemma intToBigint_abs num mem : length mem = 4%nat → - 2 ^ 63 < num < 2 ^ 63 →
  ∃ d1 d2 d3 sg, intToBigint num mem =
    ('(digit, num, idx) ←
      (if BIGINT_BASE2 <? Z.abs num then
         let q := int32 (Z.quot (Z.abs num) BIGINT_BASE2) in
         d ← wr [sg; d1; d2; d3] 1 q;
         Ok (d, int64 (Z.abs num - int64 (q * BIGINT_BASE2)), 2%nat)
       else Ok ([sg; d1; d2; d3], Z.abs num, 1%nat));
    '(digit, num, idx) ←
      (if BIGINT_BASE <? num then
         let q := int32 (Z.quot num BIGINT_BASE) in
         d ← wr digit idx q; Ok (d, int64 (num - int32 (q * BIGINT_BASE)), (idx + 1)%nat)
       else Ok (digit, num, idx));
    digit ← wr digit idx (int32 num);
    Ok (digit, idx)) ∧ (sg = 1 ∨ sg = -1) ∧ num = sg * Z.abs num.
Proof.
  intros Hm Hn. destruct (mem4 mem Hm) as (a & b & c & d & ->).
  exists b, c, d, (if num <? 0 then -1 else 1). unfold intToBigint. cbn [wr].
  destruct (Z.ltb_spec num 0).
  - cbn [mbind result_bind decide]. unfold wr at 1. cbn.
    rewrite (wrapS_small 64 (- num)) by lia.
    replace (Z.abs num) with (- num) by lia. split; [done|]. split; [by right|lia].
  - unfold wr at 1. cbn. replace (Z.abs num) with num by lia.
    split; [done|]. split; [by left|lia].
Qed.

Lemma digits_of_list x n ds : win x 1 n = ds → Forall digit_ok ds → Forall digit_ok (win x 1 n).
Proof. by intros ->. Qed.

Ltac put_digit := cbv zeta; cbn [mbind result_bind]; rewrite wr_ok by (cbn; lia);
  cbn [mbind result_bind insert list_insert Nat.add].

Lemma intToBigint_small num mem : length mem = 4%nat → Z.abs num < BIGINT_BASE →
  ∃ x, intToBigint num mem = Ok (x, 1%nat) ∧ bigint_ok x 1 ∧ bigval x 1 = num.
Proof.
  intros Hm Ha. pose proof base_prod as BB. unfold BIGINT_BASE in Ha.
  destruct (intToBigint_abs num mem Hm ltac:(lia)) as (d1 & d2 & d3 & sg & -> & Hsg & Hn).
  rewrite (proj2 (Z.ltb_ge BIGINT_BASE2 _)) by (unfold BIGINT_BASE2; lia). cbn [mbind result_bind].
  rewrite (proj2 (Z.ltb_ge BIGINT_BASE _)) by (unfold BIGINT_BASE; lia). put_digit.
  rewrite (wrapS_small 32) by lia. eexists. split; [done|].
  assert (D : digit_ok (Z.abs num)) by (unfold digit_ok, BIGINT_BASE; lia).
  split; [apply (bigint_ok_intro _ _ sg); [done|done|lia|cbn; lia|by constructor|by left]|].
  unfold bigval. cbn. lia.
Qed.

Lemma intToBigint_medium num mem : length mem = 4%nat →
  BIGINT_BASE < Z.abs num < BIGINT_BASE2 →
  ∃ x, intToBigint num mem = Ok (x, 2%nat) ∧ bigint_ok x 2 ∧ bigval x 2 = num.
Proof.
  intros Hm Ha. pose proof base_prod as BB. set (a := Z.abs num) in *.
  destruct (intToBigint_abs num mem Hm) as (d1 & d2 & d3 & sg & -> & Hsg & Hn);
    [unfold BIGINT_BASE2 in *; lia|]. fold a in Hn |- *.
  rewrite (proj2 (Z.ltb_ge BIGINT_BASE2 _)) by lia. cbn [mbind result_bind].
  rewrite (proj2 (Z.ltb_lt BIGINT_BASE _)) by lia. put_digit. put_digit.
  destruct (low_digit a) as [El|]; [unfold BIGINT_BASE2 in *; lia| |unfold BIGINT_BASE2, BIGINT_BASE in *; lia].
  pose proof (Z.quot_rem' a BIGINT_BASE) as Eq.
  pose proof (Z.rem_bound_pos a BIGINT_BASE ltac:(unfold BIGINT_BASE in *; lia) base_pos) as Hr.
  assert (Hq : 0 < Z.quot a BIGINT_BASE < BIGINT_BASE).
  { split; [|apply Z.quot_lt_upper_bound; unfold BIGINT_BASE in *; lia].
    enough (1 ≤ Z.quot a BIGINT_BASE) by lia. apply Z.quot_le_lower_bound; unfold BIGINT_BASE in *; lia. }
  set (q := Z.quot a BIGINT_BASE) in *. rewrite El.
  rewrite (wrapS_small 32 q) by (unfold BIGINT_BASE in *; lia).
  set (r := Z.rem a BIGINT_BASE) in *. clearbody q r.
  eexists. split; [done|].
  split; [apply (bigint_ok_intro _ _ sg); [done|done|lia|cbn; lia| |right]|].
  - cbn. repeat constructor; lia.
  - cbn -[BIGINT_BASE]. change (Z.pow_pos BIGINT_BASE 1) with BIGINT_BASE. nia.
  - unfold bigval. cbn -[BIGINT_BASE]. rewrite Hn. nia.
Qed.

(** The first step on a number above 10^18: its quotient digit and rest. *)
Lemma high_digit a : BIGINT_BASE2 ≤ a < 2 ^ 63 →
  ∃ q r, 1 ≤ q ≤ 9 ∧ 0 ≤ r < BIGINT_BASE2 ∧ a = q * BIGINT_BASE2 + r ∧
    int32 (Z.quot a BIGINT_BASE2) = q ∧ int64 (a - int64 (q * BIGINT_BASE2)) = r.
Proof.
  intros Ha. assert (0 < BIGINT_BASE2) by done.
  pose proof (Z.quot_rem' a BIGINT_BASE2) as E.
  pose proof (Z.rem_bound_pos a BIGINT_BASE2 ltac:(lia) ltac:(done)) as Hr.
  exists (Z.quot a BIGINT_BASE2), (Z.rem a BIGINT_BASE2).
  set (q := Z.quot a BIGINT_BASE2) in *. set (r := Z.rem a BIGINT_BASE2) in *. clearbody q r.
  unfold BIGINT_BASE2 in *. assert (1 ≤ q ≤ 9) by lia.
  rewrite (wrapS_small 32), (wrapS_small 64 (q * _)), (wrapS_small 64) by lia.
  repeat split; lia.
Qed.

Lemma intToBigint_large num mem : length mem = 4%nat → Z.abs num < 2 ^ 63 →
  BIGINT_BASE2 < Z.abs num → BIGINT_BASE < Z.abs num mod BIGINT_BASE2 →
  ∃ x, intToBigint num mem = Ok (x, 3%nat) ∧ bigint_ok x 3 ∧ bigval x 3 = num.
Proof.
  intros Hm Hb H2 Hr. set (a := Z.abs num) in *.
  destruct (intToBigint_abs num mem Hm ltac:(lia)) as (d1 & d2 & d3 & sg & -> & Hsg & Hn).
  fold a in Hn |- *. destruct (high_digit a) as (q & r & Hq & Hr2 & Ea & E1 & E2); [lia|].
  assert (Hmod : a mod BIGINT_BASE2 = r).
  { rewrite Ea, Z.add_comm, Z.mod_add by done. by apply Z.mod_small. }
  rewrite Hmod in Hr. rewrite (proj2 (Z.ltb_lt BIGINT_BASE2 _)) by lia. put_digit.
  rewrite E1, E2. rewrite (proj2 (Z.ltb_lt BIGINT_BASE _)) by lia. put_digit. put_digit.
  destruct (low_digit r) as [El|]; [unfold BIGINT_BASE2 in *; lia| |unfold BIGINT_BASE2, BIGINT_BASE in *; lia].
  rewrite El. pose proof (Z.quot_rem' r BIGINT_BASE) as Eq.
  pose proof (Z.rem_bound_pos r BIGINT_BASE ltac:(lia) base_pos) as Hrr.
  assert (Hq2 : 0 ≤ Z.quot r BIGINT_BASE < BIGINT_BASE).
  { split; [apply Z.quot_pos; [lia|done]|].
    apply Z.quot_lt_upper_bound; unfold BIGINT_BASE2, BIGINT_BASE in *; lia. }
  set (q2 := Z.quot r BIGINT_BASE) in *. rewrite (wrapS_small 32 q2) by (unfold BIGINT_BASE in *; lia).
  set (r2 := Z.rem r BIGINT_BASE) in *. clearbody q2 r2.
  eexists. split; [done|].
  split; [apply (bigint_ok_intro _ _ sg); [done|done|lia|cbn; lia| |right]|].
  - cbn. unfold BIGINT_BASE in *. repeat constructor; unfold BIGINT_BASE; lia.
  - rewrite base_prod in *. unfold win. cbn -[BIGINT_BASE Z.mul].
    change (Z.pow_pos BIGINT_BASE 2) with (BIGINT_BASE * BIGINT_BASE). unfold BIGINT_BASE in *. lia.
  - unfold bigval. cbn -[BIGINT_BASE Z.mul]. rewrite Hn, Ea, base_prod in *.
    unfold BIGINT_BASE in *. lia.
Qed.

Lemma intToBigint_drops num mem q r : length mem = 4%nat → Z.abs num < 2 ^ 63 →
  1 ≤ q → 0 ≤ r ≤ BIGINT_BASE → Z.abs num = q * BIGINT_BASE2 + r → BIGINT_BASE2 < Z.abs num →
  ∃ x, intToBigint num mem = Ok (x, 2%nat) ∧ bigval x 2 = Z.sgn num * (q * BIGINT_BASE + r).
Proof.
  intros Hm Hb Hq Hr Ha H2. set (a := Z.abs num) in *.
  destruct (intToBigint_abs num mem Hm ltac:(lia)) as (d1 & d2 & d3 & sg & -> & Hsg & Hn).
  fold a in Hn |- *. destruct (high_digit a) as (q' & r' & Hq' & Hr2 & Ea & E1 & E2); [lia|].
  assert (q' = q ∧ r' = r) as [-> ->] by (unfold BIGINT_BASE2, BIGINT_BASE in *; lia).
  rewrite (proj2 (Z.ltb_lt BIGINT_BASE2 _)) by lia. put_digit.
  rewrite E1, E2. rewrite (proj2 (Z.ltb_ge BIGINT_BASE _)) by lia. put_digit.
  rewrite (wrapS_small 32) by (unfold BIGINT_BASE in *; lia).
  eexists. split; [done|]. unfold bigval. cbn -[BIGINT_BASE Z.mul].
  assert (Z.sgn num = sg) as -> by (unfold BIGINT_BASE2 in *; destruct Hsg as [-> | ->]; lia). lia.
Qed.

(** ** Properties *)

(** [addBigint] computes the sum.  For well-formed operands and any result
    buffer of the size [arithmetikOp] allocates it stays inside the buffers,
    returns a well-formed number whose value is the sum of the values, whatever
    the signs and lengths, and leaves both operands as they were. *)
Theorem addBigint_correct (x y sm : list Z) (nx ny : nat)
    (Hx : bigint_ok x nx) (Hy : bigint_ok y ny) (Hsm : length sm = (nx `max` ny + 2)%nat) :
  ∃ s n, addBigint x nx y ny sm = Ok (Sum s n x y) ∧ bigint_ok s n ∧
    bigval s n = bigval x nx + bigval y ny.
Proof. apply addBigint_spec; [done..|lia]. Qed.

(** Small well-formed numbers for the witnesses. *)
Lemma bigint_ok_1 sg d : (sg = 1 ∨ sg = -1) → digit_ok d → bigint_ok [sg; d] 1.
Proof. intros. apply (bigint_ok_intro _ _ sg); [done|done|lia|cbn; lia|by constructor|by left]. Qed.

Lemma addBigint_correct_witness :
  ∃ s n, addBigint [1; 999999999] 1 [1; 1] 1 [7; 7; 7] = Ok (Sum s n [1; 999999999] [1; 1]) ∧
    bigint_ok s n ∧ bigval s n = 1000000000.
Proof.
  apply (addBigint_correct [1; 999999999] [1; 1] [7; 7; 7] 1 1); [| |reflexivity];
    apply bigint_ok_1; auto; unfold digit_ok, BIGINT_BASE; lia.
Defined.

(** [subBigint] computes the difference, with the same guarantees. *)
Theorem subBigint_correct (x y sm : list Z) (nx ny : nat)
    (Hx : bigint_ok x nx) (Hy : bigint_ok y ny) (Hsm : length sm = (nx `max` ny + 2)%nat) :
  ∃ s n, subBigint x nx y ny sm = Ok (Sum s n x y) ∧ bigint_ok s n ∧
    bigval s n = bigval x nx - bigval y ny.
Proof. apply subBigint_spec; [done..|lia]. Qed.

Lemma subBigint_correct_witness :
  ∃ s n, subBigint [1; 5] 1 [1; 7] 1 [7; 7; 7] = Ok (Sum s n [1; 5] [1; 7]) ∧
    bigint_ok s n ∧ bigval s n = -2.
Proof.
  apply (subBigint_correct [1; 5] [1; 7] [7; 7; 7] 1 1); [| |reflexivity];
    apply bigint_ok_1; auto; unfold digit_ok, BIGINT_BASE; lia.
Defined.

(** [mulBigint] computes the product: inside the buffer [arithmetikOp]
    allocates, without overflow of its 64-bit accumulator, and with the leading
    zeros removed. *)
Theorem mulBigint_correct (x y p : list Z) (nx ny : nat)
    (Hx : bigint_ok x nx) (Hy : bigint_ok y ny) (Hp : length p = (nx + ny + 2)%nat) :
  ∃ s n, mulBigint x nx y ny p = Ok (s, n) ∧ bigint_ok s n ∧
    bigval s n = bigval x nx * bigval y ny.
Proof. apply mulBigint_spec; [done..|lia]. Qed.

Lemma mulBigint_correct_witness :
  ∃ s n, mulBigint [-1; 999999999] 1 [1; 999999999] 1 [7; 7; 7; 7] = Ok (s, n) ∧
    bigint_ok s n ∧ bigval s n = -999999998000000001.
Proof.
  apply (mulBigint_correct [-1; 999999999] [1; 999999999] [7; 7; 7; 7] 1 1); [| |reflexivity];
    apply bigint_ok_1; auto; unfold digit_ok, BIGINT_BASE; lia.
Defined.

(** [cmpBigint] orders big integers by value (with -0 equal to 0), and
    [bigintToInt64] converts exactly the values of the 64-bit range and raises
    "number out of range" for all others. *)
Theorem cmp_and_toInt64 (x y : list Z) (nx ny : nat) (Hx : bigint_ok x nx) (Hy : bigint_ok y ny) :
  cmpBigint x nx y ny = Ok (sign_of (bigval x nx ?= bigval y ny)) ∧
  bigintToInt64 x nx =
    if (- 2 ^ 63 <=? bigval x nx) && (bigval x nx <? 2 ^ 63) then Ok (bigval x nx)
    else Fail ERR_NUMBER_OUT_OF_RANGE.
Proof. split; [by apply cmpBigint_spec|by apply bigintToInt64_spec]. Qed.

Lemma cmp_and_toInt64_witness :
  cmpBigint [-1; 0] 1 [1; 0] 1 = Ok 0.
Proof.
  refine (proj1 (cmp_and_toInt64 [-1; 0] [1; 0] 1 1 _ _));
    apply bigint_ok_1; auto; unfold digit_ok, BIGINT_BASE; lia.
Defined.

(** [intToBigint] converts a 64-bit integer to the well-formed big integer
    of the same value when its absolute value is below 10^9, strictly between
    10^9 and 10^18, or above 10^18 with more than 10^9 modulo 10^18. *)
Theorem intToBigint_correct (num : Z) (mem : list Z) (Hm : length mem = 4%nat)
    (Hb : Z.abs num < 2 ^ 63)
    (Hc : Z.abs num < BIGINT_BASE ∨ BIGINT_BASE < Z.abs num < BIGINT_BASE2 ∨
          BIGINT_BASE2 < Z.abs num ∧ BIGINT_BASE < Z.abs num mod BIGINT_BASE2) :
  ∃ x n, intToBigint num mem = Ok (x, n) ∧ bigint_ok x n ∧ bigval x n = num.
Proof.
  destruct Hc as [Hc|[Hc|[Hc1 Hc2]]].
  - destruct (intToBigint_small num mem Hm Hc) as (x & ?). eauto.
  - destruct (intToBigint_medium num mem Hm Hc) as (x & ?). eauto.
  - destruct (intToBigint_large num mem Hm Hb Hc1 Hc2) as (x & ?). eauto.
Qed.

Lemma intToBigint_correct_witness :
  ∃ x n, intToBigint (-1234567890123456789) [0; 0; 0; 0] = Ok (x, n) ∧ bigint_ok x n ∧
    bigval x n = -1234567890123456789.
Proof.
  apply (intToBigint_correct (-1234567890123456789) [0; 0; 0; 0]);
    [reflexivity|reflexivity|right; right; split; reflexivity].
Defined.

(** above 10^18 [intToBigint] loses a digit whenever the rest modulo 10^18
    is at most 10^9: it stores two digits where three are needed, and the big
    integer is not the number converted. *)
Theorem intToBigint_loses_digit (num q r : Z) (mem : list Z) (Hm : length mem = 4%nat)
    (Hb : Z.abs num < 2 ^ 63) (Hq : 1 ≤ q) (Hr : 0 ≤ r ≤ BIGINT_BASE)
    (Hn : Z.abs num = q * BIGINT_BASE2 + r) (H2 : BIGINT_BASE2 < Z.abs num) :
  ∃ x, intToBigint num mem = Ok (x, 2%nat) ∧
    bigval x 2 = Z.sgn num * (q * BIGINT_BASE + r) ∧ bigval x 2 ≠ num.
Proof.
  destruct (intToBigint_drops num mem q r) as (x & E & V); [done..|].
  exists x. split; [done|]. split; [done|]. rewrite V.
  unfold BIGINT_BASE, BIGINT_BASE2 in *. lia.
Qed.

Lemma intToBigint_loses_digit_witness :
  ∃ x, intToBigint 1000000000000000001 [0; 0; 0; 0] = Ok (x, 2%nat) ∧
    bigval x 2 = 1000000001 ∧ bigval x 2 ≠ 1000000000000000001.
Proof.
  apply (intToBigint_loses_digit 1000000000000000001 1 1 [0; 0; 0; 0]);
    first [reflexivity | unfold BIGINT_BASE; lia].
Defined.
