(* ===== verification/Cell.v ===== *)
(** * Cells and symbols (src/newlisp.h, the comparison of src/nl-math.c)

    [sexp] is the content of a cell with everything below it: the constructors
    are the cell types, an envelope carries the list its [contents] points to.
    Big integers, arrays, dynamic symbols and imported functions have no
    constructor here.  Floats are IEEE doubles ([SpecFloat.spec_float] with 53
    bits), strings are byte strings without their final 0. *)

From stdpp Require Import base list numbers tactics strings.
From Stdlib Require Import ZArith Lia String Ascii SpecFloat.
From S2P Require Import Prelude.

#[global] Open Scope Z_scope.

(** A [SYMBOL *] is an index into the symbol table. *)
Definition sym := nat.

Inductive sexp : Type :=
  | CNil
  | CTrue
  | CLong (z : Z)
  | CFloat (f : spec_float)
  | CString (s : string)
  | CSymbol (s : sym)
  | CContext (s : sym)
  | CPrimitive (p : nat)
  | CQuote (e : sexp)
  | CExpr (l : list sexp)
  | CLambda (l : list sexp)
  | CFexpr (l : list sexp).

Section sexp_induction.
Variable P : sexp → Prop.
Hypothesis Hnil : P CNil.
Hypothesis Htrue : P CTrue.
Hypothesis Hlong : ∀ z, P (CLong z).
Hypothesis Hfloat : ∀ f, P (CFloat f).
Hypothesis Hstring : ∀ s, P (CString s).
Hypothesis Hsymbol : ∀ s, P (CSymbol s).
Hypothesis Hcontext : ∀ s, P (CContext s).
Hypothesis Hprimitive : ∀ p, P (CPrimitive p).
Hypothesis Hquote : ∀ e, P e → P (CQuote e).
Hypothesis Hexpr : ∀ l, Forall P l → P (CExpr l).
Hypothesis Hlambda : ∀ l, Forall P l → P (CLambda l).
Hypothesis Hfexpr : ∀ l, Forall P l → P (CFexpr l).

(** Induction that reaches into the lists of envelopes. *)
Fixpoint sexp_ind_nested (e : sexp) : P e :=
  let fix go (l : list sexp) : Forall P l :=
    match l with
    | [] => List.Forall_nil P
    | x :: l' => List.Forall_cons P x l' (sexp_ind_nested x) (go l')
    end in
  match e with
  | CNil => Hnil | CTrue => Htrue | CLong z => Hlong z | CFloat f => Hfloat f
  | CString s => Hstring s | CSymbol s => Hsymbol s | CContext s => Hcontext s
  | CPrimitive p => Hprimitive p
  | CQuote e => Hquote e (sexp_ind_nested e)
  | CExpr l => Hexpr l (go l)
  | CLambda l => Hlambda l (go l)
  | CFexpr l => Hfexpr l (go l)
  end.
End sexp_induction.

(** ** Type words *)

Definition CELL_NIL := 0x100.
Definition CELL_TRUE := 0x101.
Definition CELL_LONG := 0x182.
Definition CELL_FLOAT := 0x183.
Definition CELL_STRING := 0x104.
Definition CELL_SYMBOL := 0x45.
Definition CELL_CONTEXT := 6.
Definition CELL_PRIMITIVE := 0x107.
Definition CELL_QUOTE := 0x1A.
Definition CELL_EXPRESSION := 0x3B.
Definition CELL_LAMBDA := 0x13C.
Definition CELL_FEXPR := 0x13D.
Definition COMPARE_TYPE_MASK := 0xF.
Definition EVAL_SELF_TYPE_MASK := 0x100.
Definition SYMBOL_PROTECTED := 0x10.
Definition SYMBOL_MACRO := 0x200.
Definition SYMBOL_DESTRUCTIVE := 0x400.

Definition cell_type (e : sexp) : Z :=
  match e with
  | CNil => CELL_NIL | CTrue => CELL_TRUE | CLong _ => CELL_LONG | CFloat _ => CELL_FLOAT
  | CString _ => CELL_STRING | CSymbol _ => CELL_SYMBOL | CContext _ => CELL_CONTEXT
  | CPrimitive _ => CELL_PRIMITIVE | CQuote _ => CELL_QUOTE | CExpr _ => CELL_EXPRESSION
  | CLambda _ => CELL_LAMBDA | CFexpr _ => CELL_FEXPR
  end.

(** [isProtected(flags)]. *)
Definition isProtected (flags : Z) : bool :=
  negb (Z.land flags (Z.lor SYMBOL_PROTECTED SYMBOL_MACRO) =? 0).

(** ** The symbol table: what the compiler and the comparison read of a symbol *)

Record symbol := Symbol {
  sym_name : string;
  sym_flags : Z;
  sym_context : sym;
  sym_contents : sexp
}.

Definition symtab := sym → symbol.

(** The symbols [nil] and [true] are the first two entries of the table. *)
Definition nilSymbol : sym := 0%nat.
Definition trueSymbol : sym := 1%nat.

Definition isNil (e : sexp) : bool :=
  match e with CNil => true | CSymbol s => Nat.eqb s nilSymbol | _ => false end.
Definition isTrue (e : sexp) : bool :=
  match e with CTrue => true | CSymbol s => Nat.eqb s trueSymbol | _ => false end.
Definition isEmpty (e : sexp) : bool :=
  match e with CExpr [] => true | _ => false end.

(** What every conditional of the language tests. *)
Definition truthy (e : sexp) : bool := negb (isNil e) && negb (isEmpty e).

(** ** Floats *)

(** The conversion of an integer to the nearest double. *)
Definition floatOfInt (z : Z) : spec_float := binary_normalize 53 1024 z 0 false.

Definition getDirectFloat (e : sexp) : spec_float :=
  match e with
  | CFloat f => f
  | CLong z => floatOfInt z
  | _ => S754_zero false
  end.

Definition isnan (f : spec_float) : bool :=
  match f with S754_nan => true | _ => false end.

Definition compareFloats (left right : sexp) : Z :=
  let l := getDirectFloat left in
  let r := getDirectFloat right in
  if isnan l || isnan r then 9
  else match SFcompare l r with
       | Some Lt => -1
       | Some Gt => 1
       | _ => 0
       end.

(** ** Comparison *)

(** [strcmp] and [memcmp], as the sign of the first difference. *)
Fixpoint strcmp (a b : string) : Z :=
  match a, b with
  | EmptyString, EmptyString => 0
  | EmptyString, String _ _ => -1
  | String _ _, EmptyString => 1
  | String x a', String y b' =>
      let n := Z.of_nat (nat_of_ascii x) in
      let m := Z.of_nat (nat_of_ascii y) in
      if n <? m then -1 else if m <? n then 1 else strcmp a' b'
  end.

Definition sgn3 (comp : Z) : Z := if 0 <? comp then 1 else -1.

Definition compareSymbols (st : symtab) (left right : sym) : Z :=
  if Nat.eqb left nilSymbol then (if Nat.eqb right left then 0 else -1)
  else if Nat.eqb left trueSymbol then
    (if Nat.eqb left right then 0 else if Nat.eqb right nilSymbol then 1 else -1)
  else if Nat.eqb right nilSymbol || Nat.eqb right trueSymbol then 1
  else if Nat.eqb left right then 0
  else
    let comp := strcmp (sym_name (st (sym_context (st left))))
                       (sym_name (st (sym_context (st right)))) in
    if comp =? 0 then
      let comp := strcmp (sym_name (st left)) (sym_name (st right)) in
      if comp =? 0 then 0 else sgn3 comp
    else sgn3 comp.

(** [CELL_STRING] of one type: the lengths decide only behind the common
    prefix. *)
Definition compareStrings (left right : string) : Z :=
  let comp := strcmp left right in
  if comp =? 0 then 0 else sgn3 comp.

(** The branch of [compareCells] for cells of different types. *)
Definition compareTypes (st : symtab) (left right : sexp) : Z :=
  let lt := Z.land (cell_type left) COMPARE_TYPE_MASK in
  let rt := Z.land (cell_type right) COMPARE_TYPE_MASK in
  match left, right with
  | CFloat _, CLong _ | CLong _, CFloat _ => compareFloats left right
  | _, _ =>
      if isNil left then (if isNil right then 0 else -1)
      else if isTrue left then
        (if isTrue right then 0 else if isNil right then 1 else -1)
      else if isNil right || isTrue right then 1
      else match left, right with
        | CSymbol a, CContext b | CContext a, CSymbol b =>
            let comp := strcmp (sym_name (st a)) (sym_name (st b)) in
            if comp =? 0 then 0 else sgn3 comp
        | _, _ => if lt - rt =? 0 then 0 else sgn3 (lt - rt)
        end
  end.

(** [compareCells]: -1, 0, 1, or 9 when a NaN is involved; lists compare
    element by element ([compareLists]). *)
Fixpoint compareCells (st : symtab) (left right : sexp) : Z :=
  let fix compareLists (l r : list sexp) : Z :=
    match l, r with
    | [], [] => 0
    | [], _ :: _ => -1
    | _ :: _, [] => 1
    | x :: l', y :: r' =>
        let result := compareCells st x y in
        if result =? 0 then compareLists l' r' else result
    end in
  match left, right with
  | CString a, CString b => compareStrings a b
  | CSymbol a, CSymbol b => compareSymbols st a b
  | CQuote a, CQuote b => compareLists [a] [b]
  | CExpr a, CExpr b | CLambda a, CLambda b | CFexpr a, CFexpr b => compareLists a b
  | CFloat _, CFloat _ => compareFloats left right
  | CLong a, CLong b => if b <? a then 1 else if a <? b then -1 else 0
  | CContext a, CContext b | CPrimitive a, CPrimitive b =>
      if Nat.ltb b a then 1 else if Nat.ltb a b then -1 else 0
  | CNil, CNil | CTrue, CTrue => 0
  | _, _ => compareTypes st left right
  end.

(** ** Sizes *)

Fixpoint sexp_size (e : sexp) : nat :=
  match e with
  | CQuote e => S (sexp_size e)
  | CExpr l | CLambda l | CFexpr l => S (List.list_sum (List.map sexp_size l))
  | _ => 1
  end%nat.

Definition list_size (l : list sexp) : nat := List.list_sum (List.map sexp_size l).

Lemma list_size_cons e l : list_size (e :: l) = (sexp_size e + list_size l)%nat.
Proof. done. Qed.

Lemma sexp_size_expr l : sexp_size (CExpr l) = S (list_size l).
Proof. done. Qed.

Lemma sexp_size_pos e : (0 < sexp_size e)%nat.
Proof. destruct e; simpl; lia. Qed.
