(* ===== verification/Arith.v ===== *)
(** * Integer operators and comparison (src/nl-math.c, [arithmetikOp], [compareOp])

    The operators evaluate their argument expressions one by one: [ev] is
    [evaluateExpression] on the state [S] it threads.  Integers are 64-bit two's
    complement and wrap around. *)

From stdpp Require Import base list numbers tactics.
From Stdlib Require Import ZArith Lia String SpecFloat.
From S2P Require Import Prelude Cell.

#[global] Open Scope Z_scope.

Definition ERR_MISSING_ARGUMENT := 8.
Definition ERR_NUMBER_EXPECTED := 10.
Definition ERR_MATH := 29.

(** ** Reading an integer *)

(** The C conversion of a finite double to an integer drops the fraction. *)
Definition truncFloat (f : spec_float) : Z :=
  match f with
  | S754_finite s m e =>
      let v := if 0 <=? e then Z.pos m * 2 ^ e else Z.quot (Z.pos m) (2 ^ (- e)) in
      if s then - v else v
  | _ => 0
  end.

Definition INT64_MAX := 2 ^ 63 - 1.
Definition INT64_MIN := - 2 ^ 63.

(** A NaN is 0 and values outside the range saturate; [9223372036854775807.0] is
    the double 2^63, which passes the test and is out of range of the
    conversion. *)
Definition integerFromFloat (f : spec_float) : result Z :=
  if isnan f then Ok 0
  else match f with
  | S754_infinity s => Ok (if s then INT64_MIN else INT64_MAX)
  | _ =>
      let v := truncFloat f in
      match SFcompare f (floatOfInt (2 ^ 63)), SFcompare f (floatOfInt (- 2 ^ 63)) with
      | Some Gt, _ => Ok INT64_MAX
      | Some Eq, _ => UB
      | _, Some Lt => Ok INT64_MIN
      | _, _ => Ok (int64 v)
      end
  end.

(** [getInteger64Ext] without evaluation. *)
Definition getInteger64 (cell : sexp) : result Z :=
  match cell with
  | CLong n => Ok n
  | CFloat f => integerFromFloat f
  | _ => Fail ERR_NUMBER_EXPECTED
  end.

(** ** arithmetikOp *)

Inductive arith : Type :=
  | A_ADD | A_SUBTRACT | A_MULTIPLY | A_DIVIDE
  | A_BIT_OR | A_BIT_AND | A_BIT_XOR | A_SHIFTL | A_SHIFTR | A_MODULO.

(** A shift count outside the word is undefined, and so is the quotient
    2^63 of the least integer by -1. *)
Definition arith_step (op : arith) (acc number : Z) : result Z :=
  match op with
  | A_ADD => Ok (int64 (acc + number))
  | A_SUBTRACT => Ok (int64 (acc - number))
  | A_MULTIPLY => Ok (int64 (acc * number))
  | A_DIVIDE =>
      if number =? 0 then Fail ERR_MATH
      else if (acc =? INT64_MIN) && (number =? -1) then UB
      else Ok (Z.quot acc number)
  | A_MODULO =>
      if number =? 0 then Fail ERR_MATH
      else if (acc =? INT64_MIN) && (number =? -1) then UB
      else Ok (Z.rem acc number)
  | A_BIT_OR => Ok (Z.lor acc number)
  | A_BIT_AND => Ok (Z.land acc number)
  | A_BIT_XOR => Ok (Z.lxor acc number)
  | A_SHIFTL => if (0 <=? number) && (number <? 64) then Ok (int64 (Z.shiftl acc number)) else UB
  | A_SHIFTR => if (0 <=? number) && (number <? 64) then Ok (Z.shiftr acc number) else UB
  end.

(** One operand only. *)
Definition arith_unary (op : arith) (acc : Z) : Z :=
  match op with
  | A_SUBTRACT => int64 (- acc)
  | A_SHIFTL => int64 (Z.shiftl acc 1)
  | A_SHIFTR => Z.shiftr acc 1
  | _ => acc
  end.

Section Operators.
Context {S : Type} (ev : sexp → S → result (sexp * S)).

Fixpoint arith_loop (op : arith) (acc : Z) (params : list sexp) (s : S) : result (Z * S) :=
  match params with
  | [] => Ok (acc, s)
  | p :: params' =>
      '(cell, s) ← ev p s;
      number ← getInteger64 cell;
      acc ← arith_step op acc number;
      arith_loop op acc params' s
  end.

Definition arithmetikOp (op : arith) (params : list sexp) (s : S) : result (sexp * S) :=
  match params, op with
  | [], A_ADD => Ok (CLong 0, s)
  | [], A_MULTIPLY => Ok (CLong 1, s)
  | [], _ => Fail ERR_NUMBER_EXPECTED
  | p :: params', _ =>
      '(cell, s) ← ev p s;
      acc ← getInteger64 cell;
      match params' with
      | [] => Ok (CLong (arith_unary op acc), s)
      | _ => '(acc, s) ← arith_loop op acc params' s; Ok (CLong acc, s)
      end
  end.

(** ** compareOp *)

Inductive relop : Type :=
  | R_LESS | R_GREATER | R_LESS_EQUAL | R_GREATER_EQUAL | R_EQUAL | R_NOTEQUAL.

(** Does the relation hold for this outcome of [compareCells]? *)
Definition rel_holds (op : relop) (comp : Z) : bool :=
  match op with
  | R_LESS => comp <? 0
  | R_GREATER => 0 <? comp
  | R_LESS_EQUAL => comp <=? 0
  | R_GREATER_EQUAL => 0 <=? comp
  | R_EQUAL => comp =? 0
  | R_NOTEQUAL => negb (comp =? 0)
  end.

Definition bool_sexp (b : bool) : sexp := if b then CTrue else CNil.

(** The chain of comparisons: it stops at the first pair that fails, and at a
    NaN, where only [!=] is true. *)
Fixpoint compare_chain (st : symtab) (op : relop) (lhs : sexp) (params : list sexp) (s : S)
    : result (sexp * S) :=
  match params with
  | [] => Ok (CTrue, s)
  | p :: params' =>
      '(rhs, s) ← ev p s;
      let comp := compareCells st lhs rhs in
      if comp =? 9 then Ok (bool_sexp (match op with R_NOTEQUAL => true | _ => false end), s)
      else if rel_holds op comp then compare_chain st op rhs params' s
      else Ok (CNil, s)
  end.

(** What a single argument is compared with. *)
Definition compare_default (lhs : sexp) : option sexp :=
  match lhs with
  | CLong _ | CFloat _ => Some (CLong 0)
  | CString _ => Some (CString EmptyString)
  | CExpr _ | CLambda _ | CFexpr _ => Some (CExpr [])
  | _ => None
  end.

Definition compareOp (st : symtab) (op : relop) (params : list sexp) (s : S)
    : result (sexp * S) :=
  match params with
  | [] => Ok (CTrue, s)
  | [p] =>
      '(lhs, s) ← ev p s;
      match compare_default lhs with
      | None => Ok (CTrue, s)
      | Some rhs =>
          let comp := compareCells st lhs rhs in
          Ok (bool_sexp (if comp =? 9 then (match op with R_NOTEQUAL => true | _ => false end)
                         else rel_holds op comp), s)
      end
  | p :: params' => '(lhs, s) ← ev p s; compare_chain st op lhs params' s
  end.

End Operators.

(** ** Lemmas *)

Definition in_int64 (z : Z) : Prop := INT64_MIN ≤ z ≤ INT64_MAX.

Lemma int64_range z : in_int64 (int64 z).
Proof. pose proof (wrapS_range 64 z). unfold in_int64, INT64_MIN, INT64_MAX. lia. Qed.

Lemma int64_id z : in_int64 z → int64 z = z.
Proof. intros H. unfold in_int64, INT64_MIN, INT64_MAX in H. apply wrapS_small; lia. Qed.

(** An integer cell holds an INT64. *)
Definition int_ok (v : sexp) : Prop := match v with CLong z => in_int64 z | _ => True end.

Lemma getInteger64_range v z : int_ok v → getInteger64 v = Ok z → in_int64 z.
Proof.
  destruct v; simpl; try discriminate; [congruence|]. intros _. unfold integerFromFloat.
  destruct (isnan f); [by intros [= <-]|].
  destruct f as [s|s| |s m e]; [| destruct s; by intros [= <-]|..].
  all: repeat case_match; try discriminate; intros [= <-]; try apply int64_range; done.
Qed.

Definition op_arithmetic (op : arith) : Prop :=
  match op with A_ADD | A_SUBTRACT | A_MULTIPLY | A_DIVIDE | A_MODULO => True | _ => False end.

Lemma arith_step_range op x y z : in_int64 x → in_int64 y → arith_step op x y = Ok z →
  op_arithmetic op → in_int64 z.
Proof.
  intros Hx Hy H Hop. destruct op; simpl in H; try done;
    try (injection H as <-; apply int64_range).
  - destruct (Z.eqb_spec y 0); [discriminate|].
    destruct (Z.eqb_spec x INT64_MIN) as [Ex|Ex]; destruct (Z.eqb_spec y (-1)) as [Ey|Ey];
      try discriminate; injection H as <-; unfold in_int64, INT64_MIN, INT64_MAX in *.
    all: pose proof (Z.quot_rem x y ltac:(done)); pose proof (Z.rem_bound_abs x y ltac:(done)).
    all: assert (Z.abs (Z.quot x y) ≤ Z.abs x) by
      (rewrite <- Z.quot_abs by done; apply Z.quot_le_upper_bound; nia).
    all: lia.
  - destruct (Z.eqb_spec y 0); [discriminate|].
    destruct (Z.eqb_spec x INT64_MIN) as [Ex|Ex]; destruct (Z.eqb_spec y (-1)) as [Ey|Ey];
      try discriminate; injection H as <-; unfold in_int64, INT64_MIN, INT64_MAX in *;
      pose proof (Z.rem_bound_abs x y ltac:(done)); lia.
Qed.
