(* ===== verification/Eval.v ===== *)
(** * The tree walker (src/newlisp.c, [evaluateExpression] and program flow)

    The evaluator on values: the state is the contents of every symbol, cells
    are read and stored as whole values, so that the sharing of a symbol's cell
    by an operand that is still in use does not show.  Big integers, arrays and
    dynamic symbols are not values here.  [env !! s] is [s->contents].  Errors
    are [Fail] with the code's error number.  What a call of anything but the
    primitives below does is the interface [TreeRuntime]. *)

From stdpp Require Import base list numbers tactics strings gmap.
From Stdlib Require Import ZArith Lia.
From S2P Require Import Prelude Cell Arith.

#[global] Open Scope Z_scope.

Abbreviation env := (gmap sym sexp).

(** [$it], [$idx] and [$args]. *)
Definition itSymbol : sym := 2%nat.
Definition listIdxSymbol : sym := 3%nat.
Definition argsSymbol : sym := 4%nat.

Definition ERR_SYMBOL_EXPECTED := 12.
Definition ERR_LIST_EXPECTED := 15.
Definition ERR_INVALID_FUNCTION := 24.
Definition ERR_INVALID_LAMBDA := 25.
Definition ERR_INVALID_LET := 27.
Definition ERR_SYMBOL_PROTECTED := 37.
Definition ERR_IS_NOT_REFERENCED := 63.

(** ** The primitives modelled here (src/primes.h) *)

Inductive prim : Type :=
  | PWhile | PCond | PBegin | PAnd | PIf | PWhen | POr | PSetf | PLet | PLocal
  | PArith (op : arith) | PCompare (op : relop).

(** The entries of the table [primitive]; a primitive cell holds the address of
    the C function, here the index of the entry. *)
Definition primitive : list (string * prim) :=
  [("while", PWhile); ("cond", PCond); ("begin", PBegin); ("and", PAnd); ("if", PIf);
   ("when", PWhen); ("or", POr); ("setq", PSetf); ("let", PLet); ("local", PLocal);
   ("+", PArith A_ADD); ("-", PArith A_SUBTRACT); ("*", PArith A_MULTIPLY);
   ("/", PArith A_DIVIDE);
   ("<", PCompare R_LESS); (">", PCompare R_GREATER); ("<=", PCompare R_LESS_EQUAL);
   (">=", PCompare R_GREATER_EQUAL); ("=", PCompare R_EQUAL); ("!=", PCompare R_NOTEQUAL)]%string.

Definition prim_at (k : nat) : option prim := snd <$> primitive !! k.

Class TreeRuntime := {
  (** Any other head: the value of the head and the argument expressions. *)
  tr_call : sexp → list sexp → env → result (sexp * env);
  (** [p_setf] from a place on that is not a symbol. *)
  tr_setf : list sexp → env → result (sexp * env)
}.

Section Eval.
Context `{TreeRuntime}.
Variable st : symtab.

Definition contents (s : sym) (g : env) : result sexp :=
  match g !! s with Some v => Ok v | None => UB end.

Section Primitives.
Variable ev : sexp → env → result (sexp * env).

Fixpoint block_loop (cells : list sexp) (value : sexp) (g : env) : result (sexp * env) :=
  match cells with
  | [] => Ok (value, g)
  | e :: rest => '(v, g) ← ev e g; block_loop rest v g
  end.

(** [evaluateBlock] and [p_evalBlock]. *)
Definition evaluateBlock (cells : list sexp) (g : env) : result (sexp * env) :=
  block_loop cells CNil g.

(** The loop of [p_if]: [params] starts at the condition whose value is [cell]. *)
Fixpoint if_loop (cell : sexp) (params : list sexp) (g : env) : result (sexp * env) :=
  if truthy cell then
    match params with
    | _ :: then_expr :: _ => ev then_expr g
    | _ => Ok (cell, g)
    end
  else
    match params with
    | _ :: _ :: ((next :: _) as rest) => '(cell, g) ← ev next g; if_loop cell rest g
    | _ => Ok (cell, g)
    end.

Definition p_if (params : list sexp) (g : env) : result (sexp * env) :=
  '(cell, g) ← ev (hd CNil params) g;
  '(cell, g) ← if_loop cell params (<[itSymbol := cell]> g);
  Ok (cell, <[itSymbol := CNil]> g).

Definition p_when (params : list sexp) (g : env) : result (sexp * env) :=
  '(cell, g) ← ev (hd CNil params) g;
  if truthy cell then block_loop (tl params) cell g else Ok (cell, g).

Fixpoint cond_loop (params : list sexp) (value : sexp) (g : env) : result (sexp * env) :=
  match params with
  | [] => Ok (value, g)
  | CExpr condition :: rest =>
      '(value, g) ← ev (hd CNil condition) g;
      if truthy value then
        match tl condition with
        | [] => Ok (value, g)
        | body => evaluateBlock body g
        end
      else cond_loop rest value g
  | _ :: _ => Fail ERR_LIST_EXPECTED
  end.

Definition p_condition (params : list sexp) (g : env) : result (sexp * env) :=
  cond_loop params CNil g.

Fixpoint and_loop (params : list sexp) (value : sexp) (g : env) : result (sexp * env) :=
  match params with
  | [] => Ok (value, g)
  | e :: rest =>
      '(v, g) ← ev e g;
      if truthy v then and_loop rest v g else Ok (v, g)
  end.

Definition p_and (params : list sexp) (g : env) : result (sexp * env) := and_loop params CTrue g.

Fixpoint or_loop (params : list sexp) (value : sexp) (g : env) : result (sexp * env) :=
  match params with
  | [] => Ok (value, g)
  | e :: rest =>
      '(v, g) ← ev e g;
      if truthy v then Ok (v, g) else or_loop rest v g
  end.

Definition p_or (params : list sexp) (g : env) : result (sexp * env) := or_loop params CNil g.

(** [repeat] with [REPEAT_WHILE]; [k] is the content of the iterator cell. *)
Fixpoint while_loop (fuel : nat) (cond : sexp) (body : list sexp) (k : Z) (value : sexp) (g : env)
    : result (sexp * env) :=
  match fuel with
  | O => NoFuel
  | S fuel' =>
      '(cell, g) ← ev cond g;
      if truthy cell then
        '(value, g) ← evaluateBlock body g;
        while_loop fuel' cond body (int64 (k + 1)) value
                   (<[listIdxSymbol := CLong (int64 (k + 1))]> g)
      else Ok (value, g)
  end.

Definition p_while (fuel : nat) (params : list sexp) (g : env) : result (sexp * env) :=
  saved ← contents listIdxSymbol g;
  '(v, g) ← while_loop fuel (hd CNil params) (tl params) 0 CNil (<[listIdxSymbol := CLong 0]> g);
  Ok (v, <[listIdxSymbol := saved]> g).

(** ** let, local *)

(** The values of the bindings, all evaluated before any symbol is set. *)
Fixpoint let_inits (inits : list sexp) (g : env) : result (list (sym * sexp) * env) :=
  match inits with
  | [] => Ok ([], g)
  | CExpr (CSymbol s :: init) :: rest =>
      '(v, g) ← ev (hd CNil init) g;
      '(bs, g) ← let_inits rest g;
      Ok ((s, v) :: bs, g)
  | CExpr _ :: _ => Fail ERR_SYMBOL_EXPECTED
  | CSymbol s :: e :: rest =>
      '(v, g) ← ev e g;
      '(bs, g) ← let_inits rest g;
      Ok ((s, v) :: bs, g)
  | [CSymbol s] =>
      '(v, g) ← ev CNil g;
      Ok ([(s, v)], g)
  | _ :: _ => Fail ERR_INVALID_LET
  end.

(** Setting the symbols, with the old contents on the environment stack. *)
Fixpoint bind_all (bs : list (sym * sexp)) (envStack : list (sym * sexp)) (g : env)
    : result (list (sym * sexp) * env) :=
  match bs with
  | [] => Ok (envStack, g)
  | (s, v) :: rest =>
      if isProtected (sym_flags (st s)) then Fail ERR_SYMBOL_PROTECTED
      else old ← contents s g; bind_all rest ((s, old) :: envStack) (<[s := v]> g)
  end.

(** Restoring the contents, the last one pushed first. *)
Definition popEnvironment (envStack : list (sym * sexp)) (g : env) : env :=
  foldl (λ g '(s, old), <[s := old]> g) g envStack.

Definition eval_let_body (envStack : list (sym * sexp)) (body : list sexp) (g : env)
    : result (sexp * env) :=
  '(v, g) ← evaluateBlock body g;
  Ok (v, popEnvironment envStack g).

Definition p_let (params : list sexp) (g : env) : result (sexp * env) :=
  match params with
  | CExpr inits :: body => 
      '(bs, g) ← let_inits inits g;
      '(envStack, g) ← bind_all bs [] g;
      eval_let_body envStack body g
  | _ => Fail ERR_INVALID_LET
  end.

Fixpoint local_bind (vars : list sexp) (envStack : list (sym * sexp)) (g : env)
    : result (list (sym * sexp) * env) :=
  match vars with
  | [] => Ok (envStack, g)
  | CSymbol s :: rest =>
      if isProtected (sym_flags (st s)) then Fail ERR_SYMBOL_PROTECTED
      else old ← contents s g; local_bind rest ((s, old) :: envStack) (<[s := CNil]> g)
  | _ :: _ => Fail ERR_SYMBOL_EXPECTED
  end.

Definition p_local (params : list sexp) (g : env) : result (sexp * env) :=
  match params with
  | CExpr vars :: body =>
      '(envStack, g) ← local_bind vars [] g;
      eval_let_body envStack body g
  | _ => Fail ERR_INVALID_LET
  end.

(** ** setq *)

(** One round of [p_setf] on a symbol. *)
Definition setf_symbol (s : sym) (val : sexp) (g : env) : result (sexp * env) :=
  old ← contents s g;
  if Nat.eqb s nilSymbol || Nat.eqb s trueSymbol then Fail ERR_IS_NOT_REFERENCED
  else if isProtected (sym_flags (st s)) then Fail ERR_SYMBOL_PROTECTED
  else
    '(v, g) ← ev val (<[itSymbol := old]> g);
    Ok (v, <[s := v]> (<[itSymbol := CNil]> g)).

Fixpoint p_setf (params : list sexp) (g : env) : result (sexp * env) :=
  match params with
  | CSymbol s :: val :: rest =>
      '(v, g) ← setf_symbol s val g;
      match rest with
      | [] => Ok (v, g)
      | _ => p_setf rest g
      end
  | [] | [_] => Fail ERR_MISSING_ARGUMENT
  | _ => tr_setf params g
  end.

Definition apply_prim (fuel : nat) (p : prim) (args : list sexp) (g : env) : result (sexp * env) :=
  match p with
  | PWhile => p_while fuel args g
  | PCond => p_condition args g
  | PBegin => evaluateBlock args g
  | PAnd => p_and args g
  | PIf => p_if args g
  | PWhen => p_when args g
  | POr => p_or args g
  | PSetf => p_setf args g
  | PLet => p_let args g
  | PLocal => p_local args g
  | PArith op => arithmetikOp ev op args g
  | PCompare op => compareOp ev st op args g
  end.

End Primitives.

(** ** evaluateExpression *)

Definition apply_head (ev : sexp → env → result (sexp * env)) (fuel : nat) (pCell : sexp)
    (args : list sexp) (g : env) : result (sexp * env) :=
  match pCell with
  | CPrimitive k =>
      match prim_at k with
      | Some p => apply_prim ev fuel p args g
      | None => tr_call pCell args g
      end
  | _ => tr_call pCell args g
  end.

Fixpoint evaluateExpression (fuel : nat) (cell : sexp) (g : env) : result (sexp * env) :=
  match fuel with
  | O => NoFuel
  | S fuel' =>
      match cell with
      | CSymbol s | CContext s => v ← contents s g; Ok (v, g)
      | CQuote e => Ok (e, g)
      | CExpr [] => Fail ERR_INVALID_FUNCTION
      | CExpr (CSymbol s :: args) =>
          pCell ← contents s g;
          apply_head (evaluateExpression fuel') fuel' pCell args g
      | CExpr (head :: args) =>
          '(pCell, g) ← evaluateExpression fuel' head g;
          apply_head (evaluateExpression fuel') fuel' pCell args g
      | _ => Ok (cell, g)
      end
  end.

(** ** evaluateLambda *)

(** The parameters take the evaluated arguments in order; a parameter may carry
    a default expression.  The first thing that is no parameter ends the list,
    and what is left of the arguments goes to [$args]. *)
Fixpoint lambda_bind (fuel : nat) (params : list sexp) (args : list sexp)
    (envStack : list (sym * sexp)) (g : env)
    : result (list sexp * list (sym * sexp) * env) :=
  let bind_one s v rest g :=
    if isProtected (sym_flags (st s)) then Fail ERR_SYMBOL_PROTECTED
    else old ← contents s g;
         lambda_bind fuel rest (tl args) ((s, old) :: envStack) (<[s := v]> g) in
  match params with
  | CSymbol s :: rest => bind_one s (hd CNil args) rest g
  | CExpr (CSymbol s :: default) :: rest =>
      '(v, g) ← match args with
                | [] => evaluateExpression fuel (hd CNil default) g
                | v :: _ => Ok (v, g)
                end;
      bind_one s v rest g
  | _ => Ok (args, envStack, g)
  end.

(** The call of a lambda list.  The evaluation of the arguments is left to the caller; the
    switch of [currentContext] and its return, [objSymbol] (for [self]), the limit of the
    environment stack and the clearing of [symbolCheck] and [stringCell] are not modelled. *)
Definition evaluateLambda (fuel : nat) (lambda : list sexp) (args : list sexp) (g : env)
    : result (sexp * env) :=
  match lambda with
  | CExpr params :: body =>
      '(args, envStack, g) ← lambda_bind fuel params args [] g;
      saved ← contents argsSymbol g;
      let envStack := (argsSymbol, saved) :: envStack in
      '(v, g) ← evaluateBlock (evaluateExpression fuel) body (<[argsSymbol := CExpr args]> g);
      Ok (v, popEnvironment envStack g)
  | _ => Fail ERR_INVALID_LAMBDA
  end.

End Eval.
