(* ===== verification/Bytecode.v ===== *)
(** * Bytecode (src/nl-vm.h): opcodes and operand encoding

    The instruction stream is the byte array [code] of a [BYTECODE_OBJ].
    Operands are little-endian 16-bit words or a single byte. *)

From stdpp Require Import base list numbers tactics.
From Stdlib Require Import ZArith Lia.
From S2P Require Import Prelude.

Inductive opcode : Type :=
  | OP_NOP | OP_NIL | OP_TRUE | OP_CONST | OP_POP | OP_DUP
  | OP_LOAD_LOCAL | OP_STORE_LOCAL | OP_LOAD_GLOBAL | OP_STORE_GLOBAL | OP_LOAD_SELF
  | OP_JUMP | OP_JUMP_IF_NIL | OP_JUMP_IF_NOT_NIL | OP_RET
  | OP_LT | OP_GT | OP_LE | OP_GE | OP_EQ | OP_NE
  | OP_ADD | OP_SUB | OP_MUL | OP_DIV | OP_MOD | OP_NEG
  | OP_CALL | OP_CALL_SELF
  | OP_LOAD_LOCAL_0 | OP_LOAD_LOCAL_1 | OP_LOAD_LOCAL_2 | OP_LOAD_LOCAL_3
  | OP_STORE_LOCAL_0 | OP_STORE_LOCAL_1 | OP_STORE_LOCAL_2 | OP_STORE_LOCAL_3
  | OP_CONST_0 | OP_CONST_1 | OP_CONST_2 | OP_SUB_1 | OP_SUB_2 | OP_ADD_1
  | OP_TAIL_CALL | OP_TAIL_CALL_SELF.

#[export] Instance opcode_eq_dec : EqDecision opcode.
Proof. solve_decision. Defined.

(** The enumeration in the order of the header. *)
Definition VM_OPCODE : list opcode :=
  [OP_NOP; OP_NIL; OP_TRUE; OP_CONST; OP_POP; OP_DUP;
   OP_LOAD_LOCAL; OP_STORE_LOCAL; OP_LOAD_GLOBAL; OP_STORE_GLOBAL; OP_LOAD_SELF;
   OP_JUMP; OP_JUMP_IF_NIL; OP_JUMP_IF_NOT_NIL; OP_RET;
   OP_LT; OP_GT; OP_LE; OP_GE; OP_EQ; OP_NE;
   OP_ADD; OP_SUB; OP_MUL; OP_DIV; OP_MOD; OP_NEG;
   OP_CALL; OP_CALL_SELF;
   OP_LOAD_LOCAL_0; OP_LOAD_LOCAL_1; OP_LOAD_LOCAL_2; OP_LOAD_LOCAL_3;
   OP_STORE_LOCAL_0; OP_STORE_LOCAL_1; OP_STORE_LOCAL_2; OP_STORE_LOCAL_3;
   OP_CONST_0; OP_CONST_1; OP_CONST_2; OP_SUB_1; OP_SUB_2; OP_ADD_1;
   OP_TAIL_CALL; OP_TAIL_CALL_SELF].

Fixpoint index_of (op : opcode) (l : list opcode) : Z :=
  match l with
  | [] => 0
  | o :: l' => if decide (o = op) then 0 else 1 + index_of op l'
  end.

(** The value of the enumerator. *)
Definition opcode_num (op : opcode) : Z := index_of op VM_OPCODE.

Definition opcode_of (b : Z) : option opcode := VM_OPCODE !! Z.to_nat b.

(** ** Operand words *)

Definition lo_byte (v : Z) : Z := uint8 (Z.land v 0xFF).
Definition hi_byte (v : Z) : Z := uint8 (Z.land (Z.shiftr v 8) 0xFF).

(** The operand read by the machine: [ip[0] | (ip[1] << 8)]. *)
Definition word (lo hi : Z) : Z := Z.lor lo (Z.shiftl hi 8).

Definition operand16 (code : list Z) (ip : nat) : result Z :=
  lo ← rd code ip; hi ← rd code (S ip); Ok (uint16 (word lo hi)).

(** A jump operand is the same word read as [int16_t]. *)
Definition offset16 (code : list Z) (ip : nat) : result Z :=
  lo ← rd code ip; hi ← rd code (S ip); Ok (int16 (word lo hi)).

(** ** Lemmas *)

Lemma opcode_of_num op : opcode_of (opcode_num op) = Some op.
Proof. destruct op; reflexivity. Qed.

Lemma opcode_num_range op : 0 ≤ opcode_num op < 256.
Proof. destruct op; vm_compute; split; congruence. Qed.

Lemma land_255 v : Z.land v 0xFF = v mod 256.
Proof. change 0xFF with (Z.ones 8). by rewrite Z.land_ones by lia. Qed.

Lemma lo_byte_eq v : lo_byte v = v mod 256.
Proof.
  unfold lo_byte. rewrite land_255. apply wrapU_small.
  pose proof (Z.mod_pos_bound v 256). lia.
Qed.

Lemma hi_byte_eq v : hi_byte v = (v / 256) mod 256.
Proof.
  unfold hi_byte. rewrite land_255, Z.shiftr_div_pow2 by lia. apply wrapU_small.
  pose proof (Z.mod_pos_bound (v / 2 ^ 8) 256). change (2 ^ 8) with 256 in *. lia.
Qed.

Lemma word_bytes v : word (lo_byte v) (hi_byte v) = v mod 65536.
Proof.
  unfold word. rewrite lo_byte_eq, hi_byte_eq.
  change 256 with (2 ^ 8) at 1 2 3. rewrite <- !Z.land_ones by lia.
  rewrite <- Z.shiftr_div_pow2 by lia. change 65536 with (2 ^ 16).
  rewrite <- Z.land_ones by lia. apply Z.bits_inj'. intros n Hn.
  rewrite Z.lor_spec, Z.shiftl_spec, !Z.land_spec by lia.
  destruct (Z.ltb_spec n 8).
  - rewrite (Z.testbit_neg_r _ (n - 8)) by lia.
    rewrite (Z.ones_spec_low 8 n), (Z.ones_spec_low 16 n) by lia. by rewrite orb_false_r.
  - rewrite (Z.ones_spec_high 8) by lia. rewrite Z.shiftr_spec by lia.
    replace (n - 8 + 8) with n by lia. rewrite andb_false_r.
    destruct (Z.ltb_spec n 16).
    + by rewrite (Z.ones_spec_low 8), (Z.ones_spec_low 16) by lia.
    + rewrite (Z.ones_spec_high 8), (Z.ones_spec_high 16) by lia. by rewrite !andb_false_r.
Qed.

Lemma lo_byte_ok v : byte_ok (lo_byte v).
Proof. rewrite lo_byte_eq. unfold byte_ok. apply Z.mod_pos_bound. lia. Qed.

Lemma hi_byte_ok v : byte_ok (hi_byte v).
Proof. rewrite hi_byte_eq. unfold byte_ok. apply Z.mod_pos_bound. lia. Qed.

Lemma word_unsigned v : 0 ≤ v < 65536 → uint16 (word (lo_byte v) (hi_byte v)) = v.
Proof. intros. rewrite word_bytes, Z.mod_small by lia. by apply wrapU_small. Qed.

Lemma word_signed v : - 32768 ≤ v < 32768 → int16 (word (lo_byte v) (hi_byte v)) = v.
Proof.
  intros. rewrite word_bytes. rewrite (wrapS_eq 16 (v mod 65536) v); [|lia|].
  - by apply wrapS_small.
  - change (2 ^ 16) with 65536. apply Z.mod_mod. lia.
Qed.
