(* ===== verification/Compiler.v ===== *)
(** * The bytecode compiler (src/nl-vm.c, [compileExpr] and [compileLambda])

    One definition per special form of [compileExpr]; [rec] is the recursive
    call.  The compiler never stops early when it gives up: it sets [failed],
    which turns every later emission into a no-op, and [compileLambda] looks at
    the flag afterwards.  Writes to the code buffer that do not look at the flag
    are checked against the capacity of the buffer. *)

From stdpp Require Import base list numbers tactics strings.
From Stdlib Require Import ZArith Lia.
From S2P Require Import Prelude Cell Bytecode.

#[global] Open Scope Z_scope.

Definition MAX_LOCALS : nat := 256.

(** [locals] are the first [num_locals] elements of the array; a NULL entry is
    the hidden counter of [dotimes]. *)
Record Compiler := MkCompiler {
  locals : list (option sym);
  num_params : nat;
  max_locals : nat;
  self_symbol : option sym;
  code : list Z;
  code_capacity : nat;
  constants : list sexp;
  symbols : list sym;
  failed : bool
}.

Definition num_locals (c : Compiler) : nat := length (locals c).
Definition code_size (c : Compiler) : nat := length (code c).

Definition set_locals (ls : list (option sym)) (c : Compiler) : Compiler :=
  MkCompiler ls (num_params c) (max_locals c) (self_symbol c) (code c) (code_capacity c)
    (constants c) (symbols c) (failed c).
Definition set_code (bs : list Z) (cap : nat) (c : Compiler) : Compiler :=
  MkCompiler (locals c) (num_params c) (max_locals c) (self_symbol c) bs cap
    (constants c) (symbols c) (failed c).
Definition set_constants (ks : list sexp) (c : Compiler) : Compiler :=
  MkCompiler (locals c) (num_params c) (max_locals c) (self_symbol c) (code c)
    (code_capacity c) ks (symbols c) (failed c).
Definition set_symbols (ss : list sym) (c : Compiler) : Compiler :=
  MkCompiler (locals c) (num_params c) (max_locals c) (self_symbol c) (code c)
    (code_capacity c) (constants c) ss (failed c).
Definition set_max_locals (m : nat) (c : Compiler) : Compiler :=
  MkCompiler (locals c) (num_params c) m (self_symbol c) (code c) (code_capacity c)
    (constants c) (symbols c) (failed c).
Definition set_failed (c : Compiler) : Compiler :=
  MkCompiler (locals c) (num_params c) (max_locals c) (self_symbol c) (code c)
    (code_capacity c) (constants c) (symbols c) true.

(** ** Emission *)

Definition emitByte (b : Z) (c : Compiler) : Compiler :=
  if failed c then c
  else
    let cap := if Nat.leb (code_capacity c) (code_size c)
               then (if Nat.eqb (code_capacity c) 0 then 64 else code_capacity c * 2)%nat
               else code_capacity c in
    set_code (code c ++ [b]) cap c.

Definition emitOp (op : opcode) (c : Compiler) : Compiler := emitByte (uint8 (opcode_num op)) c.

Definition emitUint16 (v : Z) (c : Compiler) : Compiler :=
  emitByte (hi_byte v) (emitByte (lo_byte v) c).

Definition emitJump (op : opcode) (c : Compiler) : Compiler * nat :=
  let c := emitOp op c in
  (emitUint16 0 c, code_size c).

(** [c->code[i] = b]: within the allocated buffer, or undefined. *)
Definition code_write (i : nat) (b : Z) (c : Compiler) : result Compiler :=
  if Nat.ltb i (code_capacity c) then Ok (set_code (<[i := b]> (code c)) (code_capacity c) c)
  else UB.

Definition patchJump (jump_pos : nat) (c : Compiler) : result Compiler :=
  if failed c then Ok c
  else
    let offset := int16 (Z.of_nat (code_size c) - (Z.of_nat jump_pos + 2)) in
    c ← code_write jump_pos (lo_byte offset) c;
    code_write (jump_pos + 1) (hi_byte offset) c.

(** The backward jump of a loop; the flag is not looked at. *)
Definition patchBack (loop_start back_jump : nat) (c : Compiler) : result Compiler :=
  let rel := int16 (Z.of_nat loop_start - (Z.of_nat back_jump + 2)) in
  c ← code_write back_jump (lo_byte rel) c;
  code_write (back_jump + 1) (hi_byte rel) c.

(** ** Constants, symbols and locals *)

Section Compile.
Variable st : symtab.

Fixpoint find_constant (ks : list sexp) (v : sexp) (i : nat) : option nat :=
  match ks with
  | [] => None
  | k :: ks' => if compareCells st k v =? 0 then Some i else find_constant ks' v (S i)
  end.

(** Beyond 65536 entries the index wraps around.  The code then writes the value at the wrapped index, over the entry that
    is there, where the list here keeps growing; the same goes for [addSymbol]. *)
Definition addConstant (v : sexp) (c : Compiler) : Compiler * Z :=
  if failed c then (c, 0)
  else match find_constant (constants c) v 0 with
       | Some i => (c, uint16 (Z.of_nat i))
       | None => (set_constants (constants c ++ [v]) c, uint16 (Z.of_nat (length (constants c))))
       end.

Fixpoint find_symbol (ss : list sym) (s : sym) (i : nat) : option nat :=
  match ss with
  | [] => None
  | x :: ss' => if Nat.eqb x s then Some i else find_symbol ss' s (S i)
  end.

Definition addSymbol (s : sym) (c : Compiler) : Compiler * Z :=
  if failed c then (c, 0)
  else match find_symbol (symbols c) s 0 with
       | Some i => (c, uint16 (Z.of_nat i))
       | None => (set_symbols (symbols c ++ [s]) c, uint16 (Z.of_nat (length (symbols c))))
       end.

Definition addLocal (s : option sym) (c : Compiler) : Compiler * nat :=
  if Nat.leb MAX_LOCALS (num_locals c) then (set_failed c, 0%nat)
  else
    let slot := num_locals c in
    let c := set_locals (locals c ++ [s]) c in
    let c := if Nat.ltb (max_locals c) (num_locals c) then set_max_locals (num_locals c) c else c in
    (c, slot).

(** [findLocal]: the innermost local of that symbol, searching backwards. *)
Fixpoint findLocal_in (ls : list (option sym)) (s : sym) (i : nat) : option nat :=
  match ls with
  | [] => None
  | x :: ls' =>
      match findLocal_in ls' s (S i) with
      | Some k => Some k
      | None => if decide (x = Some s) then Some i else None
      end
  end.

Definition findLocal (c : Compiler) (s : sym) : option nat := findLocal_in (locals c) s 0.

Definition load_local_op (slot : nat) : opcode :=
  match slot with
  | 0 => OP_LOAD_LOCAL_0 | 1 => OP_LOAD_LOCAL_1 | 2 => OP_LOAD_LOCAL_2 | _ => OP_LOAD_LOCAL_3
  end%nat.
Definition store_local_op (slot : nat) : opcode :=
  match slot with
  | 0 => OP_STORE_LOCAL_0 | 1 => OP_STORE_LOCAL_1 | 2 => OP_STORE_LOCAL_2 | _ => OP_STORE_LOCAL_3
  end%nat.

(** The code's repeated [if (slot < 4) emitOp(OP_.._LOCAL_0 + slot) else ...]. *)
Definition emitLoadLocal (slot : nat) (c : Compiler) : Compiler :=
  if Nat.ltb slot 4 then emitOp (load_local_op slot) c
  else emitUint16 (uint16 (Z.of_nat slot)) (emitOp OP_LOAD_LOCAL c).
Definition emitStoreLocal (slot : nat) (c : Compiler) : Compiler :=
  if Nat.ltb slot 4 then emitOp (store_local_op slot) c
  else emitUint16 (uint16 (Z.of_nat slot)) (emitOp OP_STORE_LOCAL c).

(** ** Forms the compiler leaves to the tree walker *)

Definition special_forms : list string :=
  ["letn"; "letex"; "case"; "until"; "unless"; "if-not"; "macro"; "find-all"; "filter";
   "clean"; "index"; "catch"; "throw"; "throw-error"; "collect"; "amb"; "dolist"; "dotree";
   "dostring"; "for"; "for-all"; "do-until"; "do-while"; "doargs"; "setf"; "define";
   "define-macro"; "def-new"; "new"; "quote"; "time"; "trace"; "trace-highlight"; "expand";
   "lambda"; "fn"; "lambda-macro"; "fn-macro"; "args"; "env"; "curry"; "context"; "eval"]%string.

Definition compiled_forms : list string :=
  ["if"; "when"; "cond"; "begin"; "while"; "let"; "local"; "dotimes"]%string.

Definition str_in (s : string) (l : list string) : bool := existsb (String.eqb s) l.

Definition isSpecialForm (s : sym) : bool :=
  let sy := st s in
  if negb (Z.land (sym_flags sy) (Z.lor SYMBOL_MACRO SYMBOL_DESTRUCTIVE) =? 0) then true
  else if match sym_contents sy with CFexpr _ => true | _ => false end then true
  else if negb (Z.land (sym_flags sy) 3 =? 0) && negb (str_in (sym_name sy) compiled_forms)
  then true
  else str_in (sym_name sy) special_forms.

(** ** The forms of compileExpr *)

Section Forms.
Variable rec : Compiler → sexp → bool → result Compiler.

(** The body loop shared by [when], [cond], [begin], [let] and [local]. *)
Fixpoint compileBody (body : list sexp) (is_tail : bool) (c : Compiler) : result Compiler :=
  match body with
  | [] => Ok c
  | e :: rest =>
      let last := match rest with [] => true | _ => false end in
      c ← rec c e (is_tail && last);
      let c := if last then c else emitOp OP_POP c in
      compileBody rest is_tail c
  end.

(** The body loop of [while] and [dotimes]: every value is dropped. *)
Fixpoint compileLoopBody (body : list sexp) (c : Compiler) : result Compiler :=
  match body with
  | [] => Ok c
  | e :: rest => c ← rec c e false; compileLoopBody rest (emitOp OP_POP c)
  end.

Definition compileIf (args : list sexp) (is_tail : bool) (c : Compiler) : result Compiler :=
  match args with
  | cond :: then_expr :: rest =>
      c ← rec c cond false;
      let '(c, else_jump) := emitJump OP_JUMP_IF_NIL c in
      c ← rec c then_expr is_tail;
      match rest with
      | else_expr :: _ =>
          let '(c, end_jump) := emitJump OP_JUMP c in
          c ← patchJump else_jump c;
          c ← rec c else_expr is_tail;
          patchJump end_jump c
      | [] =>
          let '(c, end_jump) := emitJump OP_JUMP c in
          c ← patchJump else_jump c;
          patchJump end_jump (emitOp OP_NIL c)
      end
  | _ => Ok (set_failed c)
  end.

Definition compileWhen (args : list sexp) (is_tail : bool) (c : Compiler) : result Compiler :=
  match args with
  | [] => Ok (set_failed c)
  | [cond] => rec c cond is_tail
  | cond :: body =>
      c ← rec c cond false;
      let '(c, else_jump) := emitJump OP_JUMP_IF_NIL c in
      c ← compileBody body is_tail c;
      let '(c, end_jump) := emitJump OP_JUMP c in
      c ← patchJump else_jump c;
      patchJump end_jump (emitOp OP_NIL c)
  end.

Definition patchAll (jumps : list nat) (c : Compiler) : result Compiler :=
  foldl (λ r j, c ← r; patchJump j c) (Ok c) jumps.

(** The clause loop of [cond]; [inr] is an early return out of [compileExpr]. *)
Fixpoint compileClauses (clauses : list sexp) (is_tail : bool) (end_jumps : list nat)
    (c : Compiler) : result (Compiler * list nat + Compiler) :=
  match clauses with
  | [] => Ok (inl (c, end_jumps))
  | CExpr [] :: rest => compileClauses rest is_tail end_jumps c
  | CExpr (test_expr :: body) :: rest =>
      let c := emitOp OP_POP c in
      c ← rec c test_expr false;
      let '(c, false_jump) := emitJump OP_JUMP_IF_NIL (emitOp OP_DUP c) in
      c ← (match body with
           | [] => Ok c
           | _ => compileBody body is_tail (emitOp OP_POP c)
           end);
      if Nat.ltb (length end_jumps) 64 then
        let '(c, j) := emitJump OP_JUMP c in
        c ← patchJump false_jump c;
        compileClauses rest is_tail (end_jumps ++ [j]) c
      else Ok (inr (set_failed c))
  | _ :: _ => Ok (inr (set_failed c))
  end.

Definition compileCond (clauses : list sexp) (is_tail : bool) (c : Compiler) : result Compiler :=
  match clauses with
  | [] => Ok (emitOp OP_NIL c)
  | _ =>
      r ← compileClauses clauses is_tail [] (emitOp OP_NIL c);
      match r with
      | inl (c, end_jumps) => patchAll end_jumps c
      | inr c => Ok c
      end
  end.

Fixpoint compileAndArgs (args : list sexp) (is_tail : bool) (exits : list nat) (c : Compiler)
    : result (Compiler * list nat + Compiler) :=
  match args with
  | [] => Ok (inl (c, exits))
  | [arg] => c ← rec c arg is_tail; Ok (inl (c, exits))
  | arg :: rest =>
      c ← rec c arg false;
      if Nat.ltb (length exits) 64 then
        let '(c, j) := emitJump OP_JUMP_IF_NIL c in
        compileAndArgs rest is_tail (exits ++ [j]) c
      else Ok (inr (set_failed c))
  end.

Definition compileAnd (args : list sexp) (is_tail : bool) (c : Compiler) : result Compiler :=
  match args with
  | [] => Ok (emitOp OP_TRUE c)
  | _ =>
      r ← compileAndArgs args is_tail [] c;
      match r with
      | inr c => Ok c
      | inl (c, []) => Ok c
      | inl (c, exits) =>
          let '(c, end_jump) := emitJump OP_JUMP c in
          c ← patchAll exits c;
          patchJump end_jump (emitOp OP_NIL c)
      end
  end.

Fixpoint compileOrArgs (args : list sexp) (is_tail : bool) (exits : list nat) (c : Compiler)
    : result (Compiler * list nat + Compiler) :=
  match args with
  | [] => Ok (inl (c, exits))
  | [arg] => c ← rec c arg is_tail; Ok (inl (c, exits))
  | arg :: rest =>
      c ← rec c arg false;
      let c := emitOp OP_DUP c in
      if Nat.ltb (length exits) 64 then
        let '(c, j) := emitJump OP_JUMP_IF_NOT_NIL c in
        compileOrArgs rest is_tail (exits ++ [j]) (emitOp OP_POP c)
      else Ok (inr (set_failed c))
  end.

Definition compileOr (args : list sexp) (is_tail : bool) (c : Compiler) : result Compiler :=
  match args with
  | [] => Ok (emitOp OP_NIL c)
  | _ =>
      r ← compileOrArgs args is_tail [] c;
      match r with
      | inr c => Ok c
      | inl (c, exits) => patchAll exits c
      end
  end.

Definition compileBegin (body : list sexp) (is_tail : bool) (c : Compiler) : result Compiler :=
  match body with
  | [] => Ok (emitOp OP_NIL c)
  | _ => compileBody body is_tail c
  end.

Definition compileWhile (args : list sexp) (c : Compiler) : result Compiler :=
  match args with
  | [] => Ok (set_failed c)
  | cond :: body =>
      let loop_start := code_size c in
      c ← rec c cond false;
      let '(c, exit_jump) := emitJump OP_JUMP_IF_NIL c in
      c ← compileLoopBody body c;
      let '(c, back_jump) := emitJump OP_JUMP c in
      c ← patchBack loop_start back_jump c;
      c ← patchJump exit_jump c;
      Ok (emitOp OP_NIL c)
  end.

(** One binding: the slot is allocated before the value is compiled; without a
    value the compiled expression is [nilCell]. *)
Definition compileBinding (s : sym) (init_val : option sexp) (c : Compiler) : result Compiler :=
  let '(c, slot) := addLocal (Some s) c in
  c ← (match init_val with Some e => rec c e false | None => Ok (emitOp OP_NIL c) end);
  Ok (emitStoreLocal slot c).

(** [inr] is an early return out of [compileExpr]. *)
Fixpoint compileBindings (bs : list sexp) (c : Compiler) : result (Compiler + Compiler) :=
  match bs with
  | [] => Ok (inl c)
  | CExpr (CSymbol s :: init) :: rest =>
      c ← (match init with
           | e :: _ => compileBinding s (Some e) c
           | [] => compileBinding s None c
           end);
      compileBindings rest c
  | CSymbol s :: e :: rest => c ← compileBinding s (Some e) c; compileBindings rest c
  | [CSymbol s] => c ← compileBinding s None c; Ok (inl c)
  | _ :: _ => Ok (inr (set_failed c))
  end.

Definition compileLetBody (body : list sexp) (is_tail : bool) (old_locals : nat) (c : Compiler)
    : result Compiler :=
  c ← compileBegin body is_tail c;
  Ok (set_locals (take old_locals (locals c)) c).

Definition compileLet (args : list sexp) (is_tail : bool) (c : Compiler) : result Compiler :=
  match args with
  | CExpr bindings :: body =>
      let old_locals := num_locals c in
      r ← compileBindings bindings c;
      match r with
      | inr c => Ok c
      | inl c => compileLetBody body is_tail old_locals c
      end
  | _ => Ok (set_failed c)
  end.

Fixpoint compileVars (vs : list sexp) (c : Compiler) : Compiler + Compiler :=
  match vs with
  | [] => inl c
  | CSymbol s :: rest =>
      let '(c, slot) := addLocal (Some s) c in
      compileVars rest (emitStoreLocal slot (emitOp OP_NIL c))
  | _ :: _ => inr (set_failed c)
  end.

Definition compileLocal (args : list sexp) (is_tail : bool) (c : Compiler) : result Compiler :=
  match args with
  | CExpr vars :: body =>
      let old_locals := num_locals c in
      match compileVars vars c with
      | inr c => Ok c
      | inl c => compileLetBody body is_tail old_locals c
      end
  | _ => Ok (set_failed c)
  end.

Definition compileDotimes (args : list sexp) (c : Compiler) : result Compiler :=
  match args with
  | CExpr (CSymbol var_sym :: count_expr :: _) :: body =>
      let old_locals := num_locals c in
      let '(c, count_slot) := addLocal None c in
      c ← rec c count_expr false;
      let c := emitStoreLocal count_slot c in
      let '(c, var_slot) := addLocal (Some var_sym) c in
      let c := emitStoreLocal var_slot (emitOp OP_CONST_0 c) in
      let loop_start := code_size c in
      let c := emitLoadLocal count_slot (emitLoadLocal var_slot c) in
      let c := emitOp OP_LT c in
      let '(c, exit_jump) := emitJump OP_JUMP_IF_NIL c in
      c ← (match body with
           | [] => Ok (emitOp OP_POP (emitOp OP_NIL c))
           | _ => compileLoopBody body c
           end);
      let c := emitStoreLocal var_slot (emitOp OP_ADD_1 (emitLoadLocal var_slot c)) in
      let '(c, back_jump) := emitJump OP_JUMP c in
      c ← patchBack loop_start back_jump c;
      c ← patchJump exit_jump c;
      let c := emitOp OP_NIL c in
      Ok (set_locals (take old_locals (locals c)) c)
  | _ => Ok (set_failed c)
  end.

(** The destination of an assignment. *)
Definition emitStore (slot : option nat) (s : sym) (c : Compiler) : Compiler :=
  match slot with
  | Some k => emitStoreLocal k c
  | None => let '(c, sidx) := addSymbol s c in emitUint16 sidx (emitOp OP_STORE_GLOBAL c)
  end.

(** The symbol an assignment names: [setq] takes it bare, [set] quoted. *)
Definition assigned (is_setq : bool) (e : sexp) : option sym :=
  match is_setq, e with
  | true, CSymbol s => Some s
  | false, CQuote (CSymbol s) => Some s
  | _, _ => None
  end.

Fixpoint compileSetPairs (is_setq : bool) (pairs : list sexp) (c : Compiler) : result Compiler :=
  match pairs with
  | [] => Ok c
  | p :: rest =>
      match assigned is_setq p, rest with
      | Some s, val_expr :: rest' =>
          let slot := findLocal c s in
          c ← rec c val_expr false;
          let c := emitStore slot s (emitOp OP_DUP c) in
          let c := match rest' with [] => c | _ => emitOp OP_POP c end in
          compileSetPairs is_setq rest' c
      | _, _ => Ok (set_failed c)
      end
  end.

Definition compileSet (is_setq : bool) (args : list sexp) (c : Compiler) : result Compiler :=
  match args with
  | [] => Ok (set_failed c)
  | _ => compileSetPairs is_setq args c
  end.

Definition compileDelta (is_inc : bool) (delta : list sexp) (c : Compiler) : result Compiler :=
  match delta with
  | [] => Ok (emitOp (if is_inc then OP_ADD_1 else OP_SUB_1) c)
  | d :: _ => c ← rec c d false; Ok (emitOp (if is_inc then OP_ADD else OP_SUB) c)
  end.

Definition compileIncDecAt (is_inc : bool) (s : sym) (delta : list sexp) (c : Compiler)
    : result Compiler :=
  match findLocal c s with
  | Some slot =>
      c ← compileDelta is_inc delta (emitLoadLocal slot c);
      Ok (emitStoreLocal slot (emitOp OP_DUP c))
  | None =>
      let '(c, sidx) := addSymbol s c in
      c ← compileDelta is_inc delta (emitUint16 sidx (emitOp OP_LOAD_GLOBAL c));
      Ok (emitUint16 sidx (emitOp OP_STORE_GLOBAL (emitOp OP_DUP c)))
  end.

Definition compileIncDec (is_inc : bool) (args : list sexp) (c : Compiler) : result Compiler :=
  match args with
  | CSymbol s :: delta | CQuote (CSymbol s) :: delta => compileIncDecAt is_inc s delta c
  | _ => Ok (set_failed c)
  end.

Definition comparison_op (name : string) : option opcode :=
  if String.eqb name "<" then Some OP_LT
  else if String.eqb name ">" then Some OP_GT
  else if String.eqb name "<=" then Some OP_LE
  else if String.eqb name ">=" then Some OP_GE
  else if String.eqb name "=" then Some OP_EQ
  else if String.eqb name "!=" then Some OP_NE
  else None.

Definition compileComparison (op : opcode) (args : list sexp) (c : Compiler) : result Compiler :=
  match args with
  | [arg1; arg2] =>
      c ← rec c arg1 false;
      c ← rec c arg2 false;
      Ok (emitOp op c)
  | _ => Ok (set_failed c)
  end.

Definition is_long (e : sexp) (z : Z) : bool :=
  match e with CLong v => v =? z | _ => false end.

(** The operands behind the first: each is compiled and combined at once. *)
Fixpoint compileOperands (op : opcode) (args : list sexp) (c : Compiler) : result Compiler :=
  match args with
  | [] => Ok c
  | a :: rest => c ← rec c a false; compileOperands op rest (emitOp op c)
  end.

Definition compileChain (op : opcode) (args : list sexp) (c : Compiler) : result Compiler :=
  match args with
  | [] => Ok c
  | a :: rest => c ← rec c a false; compileOperands op rest c
  end.

Definition compileAdd (args : list sexp) (c : Compiler) : result Compiler :=
  match args with
  | [] => Ok (emitOp OP_CONST_0 c)
  | [a; b] =>
      if is_long b 1 then c ← rec c a false; Ok (emitOp OP_ADD_1 c)
      else if is_long a 1 then c ← rec c b false; Ok (emitOp OP_ADD_1 c)
      else compileChain OP_ADD args c
  | _ => compileChain OP_ADD args c
  end.

Definition compileSub (args : list sexp) (c : Compiler) : result Compiler :=
  match args with
  | [] => Ok (set_failed c)
  | [a] => c ← rec c a false; Ok (emitOp OP_NEG c)
  | [a; b] =>
      if is_long b 1 then c ← rec c a false; Ok (emitOp OP_SUB_1 c)
      else if is_long b 2 then c ← rec c a false; Ok (emitOp OP_SUB_2 c)
      else compileChain OP_SUB args c
  | _ => compileChain OP_SUB args c
  end.

Definition compileMul (args : list sexp) (c : Compiler) : result Compiler :=
  match args with
  | [] => Ok (emitOp OP_CONST_1 c)
  | _ => compileChain OP_MUL args c
  end.

Definition compileDiv (args : list sexp) (c : Compiler) : result Compiler :=
  match args with
  | [] | [_] => Ok (set_failed c)
  | _ => compileChain OP_DIV args c
  end.

Fixpoint compileArgs (args : list sexp) (c : Compiler) : result Compiler :=
  match args with
  | [] => Ok c
  | a :: rest => c ← rec c a false; compileArgs rest c
  end.

(** A call: the arguments, the opcode, and their number as a [uint8_t]. *)
Definition compileCall (op tail_op : opcode) (args : list sexp) (is_tail : bool) (c : Compiler)
    : result Compiler :=
  c ← compileArgs args c;
  Ok (emitByte (uint8 (Z.of_nat (length args))) (emitOp (if is_tail then tail_op else op) c)).

Definition is_self (c : Compiler) (s : sym) : bool :=
  match self_symbol c with Some t => Nat.eqb s t | None => false end
  || String.eqb (sym_name (st s)) "self".

Definition compileSymbol (s : sym) (c : Compiler) : Compiler :=
  match findLocal c s with
  | Some slot => emitLoadLocal slot c
  | None =>
      if is_self c s then emitOp OP_LOAD_SELF c
      else let '(c, sidx) := addSymbol s c in emitUint16 sidx (emitOp OP_LOAD_GLOBAL c)
  end.

Definition compileConst (v : sexp) (c : Compiler) : Compiler :=
  let '(c, idx) := addConstant v c in emitUint16 idx (emitOp OP_CONST c).

Definition compileGeneral (head : sexp) (args : list sexp) (is_tail : bool) (c : Compiler)
    : result Compiler :=
  c ← rec c head false;
  compileCall OP_CALL OP_TAIL_CALL args is_tail c.

(** The dispatch on the name of the head symbol, in the order of the code. *)
Definition compileForm (head : sexp) (hsym : sym) (args : list sexp) (is_tail : bool) (c : Compiler)
    : result Compiler :=
  let name := sym_name (st hsym) in
  if String.eqb name "if" then compileIf args is_tail c
  else if String.eqb name "when" then compileWhen args is_tail c
  else if String.eqb name "cond" then compileCond args is_tail c
  else if String.eqb name "and" then compileAnd args is_tail c
  else if String.eqb name "or" then compileOr args is_tail c
  else if String.eqb name "begin" then compileBegin args is_tail c
  else if String.eqb name "while" then compileWhile args c
  else if String.eqb name "let" then compileLet args is_tail c
  else if String.eqb name "local" then compileLocal args is_tail c
  else if String.eqb name "dotimes" then compileDotimes args c
  else if String.eqb name "setq" then compileSet true args c
  else if String.eqb name "set" then compileSet false args c
  else if String.eqb name "inc" then compileIncDec true args c
  else if String.eqb name "dec" then compileIncDec false args c
  else match comparison_op name with
  | Some op => compileComparison op args c
  | None =>
      if String.eqb name "+" then compileAdd args c
      else if String.eqb name "-" then compileSub args c
      else if String.eqb name "*" then compileMul args c
      else if String.eqb name "/" then compileDiv args c
      else if is_self c hsym then compileCall OP_CALL_SELF OP_TAIL_CALL_SELF args is_tail c
      else if isSpecialForm hsym then Ok (set_failed c)
      else compileGeneral head args is_tail c
  end.

End Forms.

Fixpoint compileExpr (c : Compiler) (expr : sexp) (is_tail : bool) {struct expr} : result Compiler :=
  if failed c then Ok (emitOp OP_NIL c)
  else
  match expr with
  | CNil => Ok (emitOp OP_NIL c)
  | CTrue => Ok (emitOp OP_TRUE c)
  | CLong val =>
      Ok (if val =? 0 then emitOp OP_CONST_0 c
          else if val =? 1 then emitOp OP_CONST_1 c
          else if val =? 2 then emitOp OP_CONST_2 c
          else compileConst expr c)
  | CFloat _ | CString _ => Ok (compileConst expr c)
  | CQuote e => Ok (compileConst e c)
  | CSymbol s => Ok (compileSymbol s c)
  | CExpr [] => Ok (emitOp OP_NIL c)
  | CExpr (head :: args) =>
      match head with
      | CSymbol hsym => compileForm compileExpr head hsym args is_tail c
      | _ => compileGeneral compileExpr head args is_tail c
      end
  | _ => Ok (set_failed c)
  end.

(** ** compileLambda *)

(** The parameter list: the locals, and how many of them are parameters; a
    comma starts the locals proper. *)
Fixpoint parse_params (params : list sexp) (in_locals : bool) (ls : list (option sym))
    (nparams : nat) : option (list (option sym) * nat) :=
  match params with
  | [] => Some (ls, nparams)
  | CSymbol s :: rest =>
      if String.eqb (sym_name (st s)) "," then parse_params rest true ls nparams
      else if Nat.leb MAX_LOCALS (length ls) then None
      else parse_params rest in_locals (ls ++ [Some s]) (if in_locals then nparams else S nparams)
  | _ :: _ => None
  end.

(** The body expressions, the last one in tail position; [None] when the
    compiler gave up. *)
Fixpoint compileLambdaBody (body : list sexp) (c : Compiler) : result (option Compiler) :=
  match body with
  | [] => Ok (Some (emitOp OP_RET c))
  | e :: rest =>
      let last := match rest with [] => true | _ => false end in
      c ← compileExpr c e last;
      if failed c then Ok None
      else compileLambdaBody rest (if last then c else emitOp OP_POP c)
  end.

End Compile.

(** The compiled object; [bc_ast] is [orig_ast]. *)
Record bytecode := Bytecode {
  bc_code : list Z;
  bc_constants : list sexp;
  bc_symbols : list sym;
  bc_num_params : nat;
  bc_num_locals : nat;
  bc_ast : sexp
}.

Definition compileLambda (st : symtab) (lambda : sexp) (selfSymbol : option sym)
    : result (option bytecode) :=
  match lambda with
  | CLambda (CExpr paramList :: body) =>
      match parse_params st paramList false [] 0 with
      | None => Ok None
      | Some (ls, nparams) =>
          let c := MkCompiler ls nparams (length ls) selfSymbol [] 0 [] [] false in
          r ← (match body with
               | [] => Ok (Some (emitOp OP_RET (emitOp OP_NIL c)))
               | _ => compileLambdaBody st body c
               end);
          match r with
          | None => Ok None
          | Some c =>
              if failed c then Ok None
              else Ok (Some (Bytecode (code c) (constants c) (symbols c) (num_params c)
                                      (max_locals c) lambda))
          end
      end
  | _ => Ok None
  end.
