(* ===== verification/Layout.v ===== *)
(** * The code layout of the compiler (src/nl-vm.c)

    What [compileExpr] appends to the code buffer, form by form: the code of the
    subexpressions in order with the instructions between them, and every jump
    patched to the distance to its target.  [lays] says of a compiler action that
    it only appends, keeps the constants and symbols it already has at their
    indices, and leaves the scope of locals as it found it; Codegen.v states the
    contract of [compileExpr] that follows. *)

From stdpp Require Import base list numbers tactics strings.
From Stdlib Require Import ZArith Lia.
From S2P Require Import Prelude Cell Bytecode Compiler.

#[global] Open Scope Z_scope.

(** ** Growth of the compiler state *)

Record le (c c' : Compiler) : Prop := {
  le_constants : constants c `prefix_of` constants c';
  le_symbols : symbols c `prefix_of` symbols c';
  le_max : (max_locals c ≤ max_locals c')%nat
}.

#[export] Instance le_preorder : PreOrder le.
Proof.
  split; [intros c; split; done || lia|].
  intros a b c [] []; split; [by etransitivity..|lia].
Qed.

(** [c'] is [c] with [bs] appended to the code. *)
Record ext (c c' : Compiler) (bs : list Z) : Prop := {
  ext_failed : failed c = false;
  ext_failed' : failed c' = false;
  ext_code : code c' = code c ++ bs;
  ext_self : self_symbol c' = self_symbol c;
  ext_params : num_params c' = num_params c;
  ext_le : le c c';
  ext_bytes : Forall byte_ok bs;
  ext_consts : (length (constants c') ≤ length (constants c) + length bs)%nat;
  ext_syms : (length (symbols c') ≤ length (symbols c) + length bs)%nat;
  ext_max : (max_locals c' ≤ max_locals c `max` MAX_LOCALS)%nat;
  ext_wf : (num_locals c ≤ max_locals c → num_locals c' ≤ max_locals c')%nat
}.

(** ... in the same scope of locals. *)
Definition emits (c c' : Compiler) (bs : list Z) : Prop :=
  ext c c' bs ∧ locals c' = locals c.

Lemma ext_refl c : failed c = false → ext c c [].
Proof. intros. split; try done; rewrite ?app_nil_r; simpl; done || lia. Qed.

Lemma ext_trans c1 c2 c3 a b : ext c1 c2 a → ext c2 c3 b → ext c1 c3 (a ++ b).
Proof.
  intros [] []. split; try done; rewrite ?length_app; try lia.
  - by rewrite ext_code1, ext_code0, app_assoc.
  - congruence.
  - by etransitivity.
  - by apply Forall_app.
Qed.

Lemma ext_size c c' bs : ext c c' bs → code_size c' = (code_size c + length bs)%nat.
Proof. intros []. unfold code_size. by rewrite ext_code0, length_app. Qed.

Lemma emits_refl c : failed c = false → emits c c [].
Proof. split; [by apply ext_refl|done]. Qed.

Lemma emits_trans c1 c2 c3 a b : emits c1 c2 a → emits c2 c3 b → emits c1 c3 (a ++ b).
Proof. intros [] []. split; [by eapply ext_trans|congruence]. Qed.

(** ** Emission *)

Lemma emitByte_failed b c : failed (emitByte b c) = failed c.
Proof. unfold emitByte. destruct (failed c) eqn:E; [done|]. exact E. Qed.

Lemma emitOp_failed op c : failed (emitOp op c) = failed c.
Proof. apply emitByte_failed. Qed.

Lemma emitUint16_failed v c : failed (emitUint16 v c) = failed c.
Proof. unfold emitUint16. by rewrite !emitByte_failed. Qed.

Lemma emitByte_emits b c : failed c = false → byte_ok b → emits c (emitByte b c) [b].
Proof.
  intros E Hb. unfold emitByte. rewrite E. split; [|done].
  split; simpl; try done; try lia; by constructor.
Qed.

Definition op_byte (op : opcode) : Z := uint8 (opcode_num op).

Lemma op_byte_eq op : op_byte op = opcode_num op.
Proof. apply wrapU_small. apply (opcode_num_range op). Qed.

Lemma opcode_of_byte op : opcode_of (op_byte op) = Some op.
Proof. rewrite op_byte_eq. apply opcode_of_num. Qed.

Lemma op_byte_ok op : byte_ok (op_byte op).
Proof. rewrite op_byte_eq. apply opcode_num_range. Qed.

Lemma emitOp_emits op c : failed c = false → emits c (emitOp op c) [op_byte op].
Proof. intros. apply emitByte_emits; [done|]. apply op_byte_ok. Qed.

Lemma emitUint16_emits v c :
  failed c = false → emits c (emitUint16 v c) [lo_byte v; hi_byte v].
Proof.
  intros. unfold emitUint16. apply (emits_trans _ (emitByte (lo_byte v) c) _ [_] [_]).
  - apply emitByte_emits; [done|apply lo_byte_ok].
  - apply emitByte_emits; [by rewrite emitByte_failed|apply hi_byte_ok].
Qed.

(** An instruction with a 16-bit operand. *)
Definition op16 (op : opcode) (v : Z) : list Z := [op_byte op; lo_byte v; hi_byte v].

Lemma emitOp16_emits op v c :
  failed c = false → emits c (emitUint16 v (emitOp op c)) (op16 op v).
Proof.
  intros. apply (emits_trans _ (emitOp op c) _ [_] [_; _]); [by apply emitOp_emits|].
  apply emitUint16_emits. by rewrite emitOp_failed.
Qed.

Lemma emitOp16_failed op v c : failed (emitUint16 v (emitOp op c)) = failed c.
Proof. by rewrite emitUint16_failed, emitOp_failed. Qed.

Lemma emitByte_tables b c :
  constants (emitByte b c) = constants c ∧ symbols (emitByte b c) = symbols c.
Proof. unfold emitByte. by destruct (failed c). Qed.

Lemma emitOp16_tables op v c :
  constants (emitUint16 v (emitOp op c)) = constants c ∧
  symbols (emitUint16 v (emitOp op c)) = symbols c.
Proof.
  unfold emitUint16, emitOp. split; [by rewrite !(proj1 (emitByte_tables _ _))|].
  by rewrite !(proj2 (emitByte_tables _ _)).
Qed.

(** ** Jumps *)

(** A jump over [n] bytes; before it is patched its operand is 0. *)
Definition jmp (op : opcode) (n : Z) : list Z := op16 op (int16 n).

Lemma jmp_length op n : length (jmp op n) = 3%nat.
Proof. done. Qed.

Lemma emitJump_eq op c : emitJump op c = (emitUint16 0 (emitOp op c), code_size (emitOp op c)).
Proof. done. Qed.

Lemma emitJump_emits op c c1 j :
  emitJump op c = (c1, j) → failed c1 = false →
  failed c = false ∧ emits c c1 (jmp op 0) ∧ j = S (code_size c).
Proof.
  rewrite emitJump_eq. intros [= <- <-]. rewrite emitOp16_failed. intros E.
  split; [done|]. split; [by apply emitOp16_emits|].
  destruct (emitOp_emits op c E) as [X _]. rewrite (ext_size _ _ _ X). simpl. lia.
Qed.

Lemma emitJump_failed op c c1 j : emitJump op c = (c1, j) → failed c1 = failed c.
Proof. rewrite emitJump_eq. intros [= <- _]. apply emitOp16_failed. Qed.

Lemma code_write_fields i b c c' : code_write i b c = Ok c' →
  c' = set_code (<[i := b]> (code c)) (code_capacity c) c.
Proof. unfold code_write. case_match; congruence. Qed.

Lemma insert_at {A} (p q : list A) x y i : i = length p → <[i := y]> (p ++ x :: q) = p ++ y :: q.
Proof. intros ->. induction p; simpl; congruence. Qed.

(** Patching the operand of a jump emitted at [p]. *)
Lemma write_operand c0 c c' p x y q i a b :
  ext c0 c (p ++ x :: y :: q) → i = (code_size c0 + length p)%nat →
  byte_ok a → byte_ok b →
  (c1 ← code_write i a c; code_write (i + 1) b c1) = Ok c' →
  ext c0 c' (p ++ a :: b :: q) ∧ locals c' = locals c ∧ le c c'.
Proof.
  intros X Hi Ha Hb H. inv_bind H.
  apply code_write_fields in Hv. apply code_write_fields in H. subst v.
  assert (Hc : code c' = code c0 ++ p ++ a :: b :: q).
  { subst c'. simpl. unfold code_size in Hi. rewrite (ext_code _ _ _ X), app_assoc.
    rewrite (insert_at _ _ x a) by (rewrite length_app; lia).
    change (a :: y :: q) with ([a] ++ y :: q). rewrite app_assoc.
    rewrite (insert_at _ _ y b) by (rewrite !length_app; simpl; lia).
    by rewrite <- !app_assoc. }
  destruct X. split; [split; try (subst c'; done)|].
  - subst c'. destruct ext_le0. split; done.
  - apply Forall_app in ext_bytes0 as [? Hq]. inversion_clear Hq as [|?? _ Hq'].
    inversion_clear Hq'. apply Forall_app. auto.
  - subst c'. simpl. rewrite length_app in *. simpl in *. lia.
  - subst c'. simpl. rewrite length_app in *. simpl in *. lia.
  - subst c'. split; [done|]. split; simpl; done || lia.
Qed.

Lemma patchJump_failed j c c' : patchJump j c = Ok c' → failed c' = failed c.
Proof.
  unfold patchJump. destruct (failed c) eqn:E; [congruence|]. intros H. inv_bind H.
  apply code_write_fields in Hv. apply code_write_fields in H. by subst.
Qed.

Lemma patchBack_failed s j c c' : patchBack s j c = Ok c' → failed c' = failed c.
Proof.
  unfold patchBack. intros H. inv_bind H.
  apply code_write_fields in Hv. apply code_write_fields in H. by subst.
Qed.

Lemma patchJump_ext c0 c c' op z p q j :
  ext c0 c (p ++ jmp op z ++ q) → j = (code_size c0 + length p + 1)%nat →
  patchJump j c = Ok c' →
  ext c0 c' (p ++ jmp op (Z.of_nat (length q)) ++ q) ∧ locals c' = locals c ∧ le c c'.
Proof.
  intros X Hj H. unfold patchJump in H. rewrite (ext_failed' _ _ _ X) in H.
  unfold jmp, op16 in *. simpl in *.
  change (op_byte op :: ?a :: ?b :: q) with ([op_byte op] ++ a :: b :: q) in X.
  rewrite app_assoc in X.
  pose proof (ext_size _ _ _ X) as Hs. rewrite !length_app in Hs. simpl in Hs.
  replace (Z.of_nat (code_size c) - (Z.of_nat j + 2)) with (Z.of_nat (length q)) in H by lia.
  eapply write_operand in H; [|exact X| |apply lo_byte_ok|apply hi_byte_ok].
  - by rewrite <- app_assoc in H.
  - rewrite length_app. simpl. lia.
Qed.

Lemma patchBack_ext c0 c c' op z p q s j :
  ext c0 c (p ++ jmp op z ++ q) → j = (code_size c0 + length p + 1)%nat →
  patchBack s j c = Ok c' →
  ext c0 c' (p ++ jmp op (Z.of_nat s - Z.of_nat (j + 2)) ++ q) ∧ locals c' = locals c ∧ le c c'.
Proof.
  intros X Hj H. unfold patchBack in H.
  unfold jmp, op16 in *. simpl in *.
  change (op_byte op :: ?a :: ?b :: q) with ([op_byte op] ++ a :: b :: q) in X.
  rewrite app_assoc in X.
  replace (Z.of_nat j + 2) with (Z.of_nat (j + 2)) in H by lia.
  eapply write_operand in H; [|exact X| |apply lo_byte_ok|apply hi_byte_ok].
  - by rewrite <- app_assoc in H.
  - rewrite length_app. simpl. lia.
Qed.

(** The same lemmas for a whole step: the jump of a form is patched once the
    code behind it is known. *)
Lemma patchJump_emits c0 c c' op z p q j :
  emits c0 c (p ++ jmp op z ++ q) → j = (code_size c0 + length p + 1)%nat →
  patchJump j c = Ok c' →
  emits c0 c' (p ++ jmp op (Z.of_nat (length q)) ++ q) ∧ le c c'.
Proof.
  intros [X L] Hj H. destruct (patchJump_ext _ _ _ _ _ _ _ _ X Hj H) as (X' & L' & ?).
  split; [split; [done|congruence]|done].
Qed.

Lemma patchBack_emits c0 c c' op z p q s j :
  emits c0 c (p ++ jmp op z ++ q) → j = (code_size c0 + length p + 1)%nat →
  patchBack s j c = Ok c' →
  emits c0 c' (p ++ jmp op (Z.of_nat s - Z.of_nat (j + 2)) ++ q) ∧ le c c'.
Proof.
  intros [X L] Hj H. destruct (patchBack_ext _ _ _ _ _ _ _ _ _ X Hj H) as (X' & L' & ?).
  split; [split; [done|congruence]|done].
Qed.

Lemma emits_le c c' bs : emits c c' bs → le c c'.
Proof. intros [[] _]. done. Qed.
Lemma emits_failed c c' bs : emits c c' bs → failed c = false.
Proof. intros [[] _]. done. Qed.
Lemma emits_failed' c c' bs : emits c c' bs → failed c' = false.
Proof. intros [[] _]. done. Qed.
Lemma emits_size c c' bs : emits c c' bs → code_size c' = (code_size c + length bs)%nat.
Proof. intros [X _]. by apply ext_size. Qed.
Lemma emits_locals c c' bs : emits c c' bs → locals c' = locals c.
Proof. by intros [_ X]. Qed.
Lemma emits_self c c' bs : emits c c' bs → self_symbol c' = self_symbol c.
Proof. by intros [[] _]. Qed.

(** [num_locals] never exceeds [max_locals]. *)
Definition wf (c : Compiler) : Prop := (num_locals c ≤ max_locals c)%nat.
Lemma emits_wf c c' bs : emits c c' bs → wf c → wf c'.
Proof. intros [[] _]. done. Qed.

(** ** Operands: constants, symbols, locals *)

Definition load_code (slot : nat) : list Z :=
  if Nat.ltb slot 4 then [op_byte (load_local_op slot)]
  else op16 OP_LOAD_LOCAL (uint16 (Z.of_nat slot)).
Definition store_code (slot : nat) : list Z :=
  if Nat.ltb slot 4 then [op_byte (store_local_op slot)]
  else op16 OP_STORE_LOCAL (uint16 (Z.of_nat slot)).

Lemma emitLoadLocal_emits slot c :
  failed c = false → emits c (emitLoadLocal slot c) (load_code slot).
Proof.
  intros. unfold emitLoadLocal, load_code. case_match; [by apply emitOp_emits|by apply emitOp16_emits].
Qed.
Lemma emitStoreLocal_emits slot c :
  failed c = false → emits c (emitStoreLocal slot c) (store_code slot).
Proof.
  intros. unfold emitStoreLocal, store_code. case_match; [by apply emitOp_emits|by apply emitOp16_emits].
Qed.
Lemma emitLoadLocal_failed slot c : failed (emitLoadLocal slot c) = failed c.
Proof. unfold emitLoadLocal. case_match; [apply emitOp_failed|apply emitOp16_failed]. Qed.
Lemma emitStoreLocal_failed slot c : failed (emitStoreLocal slot c) = failed c.
Proof. unfold emitStoreLocal. case_match; [apply emitOp_failed|apply emitOp16_failed]. Qed.

Section Operands.
Variable st : symtab.

Lemma find_constant_spec ks v i j : find_constant st ks v i = Some j →
  ∃ n k, j = (i + n)%nat ∧ ks !! n = Some k ∧ compareCells st k v = 0.
Proof.
  revert i. induction ks as [|k ks IH]; intros i; simpl; [done|].
  destruct (Z.eqb_spec (compareCells st k v) 0) as [E|E].
  - intros [= <-]. exists 0%nat, k. split; [lia|done].
  - intros (n & k' & -> & ? & ?)%IH. exists (S n), k'. split; [lia|done].
Qed.

Lemma find_symbol_spec ss s i j : find_symbol ss s i = Some j →
  ∃ n, j = (i + n)%nat ∧ ss !! n = Some s.
Proof.
  revert i. induction ss as [|x ss IH]; intros i; simpl; [done|].
  destruct (Nat.eqb_spec x s) as [->|E].
  - intros [= <-]. exists 0%nat. split; [lia|done].
  - intros (n & -> & ?)%IH. exists (S n). split; [lia|done].
Qed.

(** A constant operand is the index of a constant that compares equal. *)
Lemma compileConst_emits v c :
  failed (compileConst st v c) = false →
  ∃ i k, emits c (compileConst st v c) (op16 OP_CONST (uint16 (Z.of_nat i))) ∧
    constants (compileConst st v c) !! i = Some k ∧ (k = v ∨ compareCells st k v = 0).
Proof.
  unfold compileConst, addConstant. destruct (failed c) eqn:F.
  { rewrite emitOp16_failed. congruence. }
  destruct (find_constant st (constants c) v 0) as [i|] eqn:E; intros _.
  - apply find_constant_spec in E as (n & k & -> & Hk & Hc). exists n, k.
    pose proof (emitOp16_emits OP_CONST (uint16 (Z.of_nat n)) c F) as X.
    split; [exact X|]. split; [|by right].
    destruct (emits_le _ _ _ X) as [P _ _]. by eapply prefix_lookup_Some.
  - set (c1 := set_constants (constants c ++ [v]) c).
    assert (F1 : failed c1 = false) by done.
    pose proof (emitOp16_emits OP_CONST (uint16 (Z.of_nat (length (constants c)))) c1 F1) as X.
    exists (length (constants c)), v. split; [|split; [|by left]].
    + destruct X as [X L]. split; [|done]. destruct X. split; try done.
      * destruct ext_le0. split; try done. simpl in *. by eapply prefix_app_l.
      * rewrite (proj1 (emitOp16_tables _ _ _)). simpl. rewrite length_app. simpl. lia.
    + destruct (emits_le _ _ _ X) as [P _ _]. eapply prefix_lookup_Some; [|done].
      simpl. by rewrite lookup_app_r, Nat.sub_diag by lia.
Qed.

Definition emitSymOp (op : opcode) (s : sym) (c : Compiler) : Compiler :=
  let '(c, sidx) := addSymbol s c in emitUint16 sidx (emitOp op c).

Lemma emitSymOp_failed op s c : failed (emitSymOp op s c) = failed c.
Proof.
  unfold emitSymOp, addSymbol. destruct (failed c) eqn:F; [by rewrite emitOp16_failed|].
  destruct (find_symbol _ _ _); by rewrite emitOp16_failed.
Qed.

Lemma emitSymOp_emits op s c : failed c = false →
  ∃ i, emits c (emitSymOp op s c) (op16 op (uint16 (Z.of_nat i))) ∧
    symbols (emitSymOp op s c) !! i = Some s ∧
    addSymbol s c = (set_symbols (symbols (emitSymOp op s c)) c, uint16 (Z.of_nat i)).
Proof.
  intros F. unfold emitSymOp, addSymbol. rewrite F.
  destruct (find_symbol (symbols c) s 0) as [i|] eqn:E.
  - apply find_symbol_spec in E as (n & -> & Hk). exists n.
    pose proof (emitOp16_emits op (uint16 (Z.of_nat n)) c F) as X.
    split; [exact X|]. destruct (emits_le _ _ _ X) as [_ P _].
    split; [by eapply prefix_lookup_Some|].
    rewrite (proj2 (emitOp16_tables _ _ _)). by destruct c.
  - set (c1 := set_symbols (symbols c ++ [s]) c).
    assert (F1 : failed c1 = false) by done.
    pose proof (emitOp16_emits op (uint16 (Z.of_nat (length (symbols c)))) c1 F1) as X.
    exists (length (symbols c)). split; [|split].
    + destruct X as [X L]. split; [|done]. destruct X. split; try done.
      * destruct ext_le0. split; try done. simpl in *. by eapply prefix_app_l.
      * rewrite (proj2 (emitOp16_tables _ _ _)). simpl. rewrite length_app. simpl. lia.
    + destruct (emits_le _ _ _ X) as [_ P _]. eapply prefix_lookup_Some; [|done].
      simpl. by rewrite lookup_app_r, Nat.sub_diag by lia.
    + by rewrite (proj2 (emitOp16_tables _ _ _)).
Qed.

End Operands.

#[global] Opaque jmp.

(** ** Jumps to a common end ([cond], [and], [or]) *)

(** Chunks of code, each followed by a jump: before patching, and with every
    jump leading to [T]. *)
Fixpoint lay0 (op : opcode) (chs : list (list Z)) : list Z :=
  match chs with
  | [] => []
  | b :: r => b ++ jmp op 0 ++ lay0 op r
  end.

Fixpoint layT (op : opcode) (T pos : nat) (chs : list (list Z)) : list Z :=
  match chs with
  | [] => []
  | b :: r =>
      let next := (pos + length b + 3)%nat in
      b ++ jmp op (Z.of_nat T - Z.of_nat next) ++ layT op T next r
  end.

Fixpoint exits (pos : nat) (chs : list (list Z)) : list nat :=
  match chs with
  | [] => []
  | b :: r => (pos + length b + 1)%nat :: exits (pos + length b + 3) r
  end.

Lemma layT_length op T pos chs : length (layT op T pos chs) = length (lay0 op chs).
Proof. revert pos. induction chs as [|b r IH]; intros; cbn [layT lay0]; [done|]. by rewrite !length_app, !jmp_length, IH. Qed.

Lemma lay0_snoc op chs b : lay0 op (chs ++ [b]) = lay0 op chs ++ b ++ jmp op 0.
Proof.
  induction chs as [|x r IH]; simpl; [by rewrite app_nil_r|].
  by rewrite IH, <- !app_assoc.
Qed.

Lemma exits_snoc pos chs b op :
  exits pos (chs ++ [b]) = exits pos chs ++ [(pos + length (lay0 op chs) + length b + 1)%nat].
Proof.
  revert pos. induction chs as [|x r IH]; intros pos; simpl.
  - do 2 f_equal. lia.
  - rewrite IH. f_equal. f_equal. f_equal. rewrite !length_app, jmp_length. lia.
Qed.

Lemma patchAll_cons j js c : patchAll (j :: js) c = (c ← patchJump j c; patchAll js c).
Proof.
  unfold patchAll at 1. simpl. destruct (patchJump j c) as [c1|e| |]; simpl; [done|..];
    by induction js.
Qed.

Lemma patchAll_failed js c c' : patchAll js c = Ok c' → failed c' = failed c.
Proof.
  revert c. induction js as [|j js IH]; intros c; [by intros [= ->]|].
  rewrite patchAll_cons. intros H. inv_bind H. apply patchJump_failed in Hv.
  apply IH in H. congruence.
Qed.

Lemma patchAll_emits op chs c0 : ∀ c p q c',
  emits c0 c (p ++ lay0 op chs ++ q) →
  patchAll (exits (code_size c0 + length p) chs) c = Ok c' →
  emits c0 c' (p ++ layT op (code_size c0 + length p + length (lay0 op chs) + length q)
                            (code_size c0 + length p) chs ++ q) ∧ le c c'.
Proof.
  induction chs as [|b r IH]; intros c p q c' X H; simpl in *.
  { by injection H as <-. }
  rewrite patchAll_cons in H. inv_bind H.
  rewrite <- !app_assoc, (app_assoc p b) in X.
  destruct (λ E, patchJump_emits _ _ _ _ _ _ _ _ X E Hv) as [X1 L1]; [rewrite length_app; lia|].
  set (z := Z.of_nat (length (lay0 op r ++ q))) in X1. rewrite (app_assoc (p ++ b)) in X1.
  replace (code_size c0 + length p + length b + 3)%nat
    with (code_size c0 + length ((p ++ b) ++ jmp op z))%nat in H
    by (rewrite !length_app, jmp_length; lia).
  destruct (IH _ _ _ _ X1 H) as [X2 L2]. split; [|by etransitivity].
  rewrite <- !app_assoc in X2 |- *.
  replace (code_size c0 + length ((p ++ b) ++ jmp op z) + length (lay0 op r) + length q)%nat
    with (code_size c0 + length p + length (b ++ jmp op 0 ++ lay0 op r) + length q)%nat in X2
    by (rewrite !length_app, !jmp_length; lia).
  replace (code_size c0 + length ((p ++ b) ++ jmp op z))%nat
    with (code_size c0 + length p + length b + 3)%nat in X2
    by (rewrite !length_app, !jmp_length; lia).
  match goal with |- emits _ _ (_ ++ _ ++ jmp op ?y ++ _) => replace y with z; [exact X2|] end.
  unfold z. rewrite !length_app, jmp_length. lia.
Qed.

(** ** Subexpressions *)

(** Where a piece of code is compiled: the scope it sees, and a later state of
    the compiler that has all its constants and symbols. *)
Record place := Place { pl_locals : list (option sym); pl_self : option sym; pl_top : Compiler }.

Section Forms.
Variable st : symtab.
Local Abbreviation comp := (compileExpr st).

(** [b] is the code of [e] at position [pos]. *)
Definition compiled_at (pl : place) (pos : nat) (e : sexp) (b : list Z) : Prop :=
  ∃ cs ce tl, comp cs e tl = Ok ce ∧ emits cs ce b ∧ code_size cs = pos ∧
    locals cs = pl_locals pl ∧ wf cs ∧ self_symbol cs = pl_self pl ∧ le ce (pl_top pl).

(** From [c] to [c'] the compiler appends code that satisfies [Q]. *)
Definition lays (c c' : Compiler) (Q : place → nat → list Z → Prop) : Prop :=
  ∃ bs, emits c c' bs ∧
    ∀ top, wf c → le c' top → Q (Place (locals c) (self_symbol c) top) (code_size c) bs.

Definition shaped (e : sexp) : Prop :=
  ∀ c c' tl, comp c e tl = Ok c' → failed c' = false → ∃ bs, emits c c' bs.

Variable N : nat.
Hypothesis IH : ∀ e, (sexp_size e < N)%nat → shaped e.

Lemma rec_failed e c c' tl : (sexp_size e < N)%nat → comp c e tl = Ok c' →
  failed c' = false → failed c = false.
Proof. intros He H F. destruct (IH e He _ _ _ H F). by eapply emits_failed. Qed.

Lemma rec_lays e c c' tl : (sexp_size e < N)%nat → comp c e tl = Ok c' → failed c' = false →
  lays c c' (λ pl pos bs, compiled_at pl pos e bs).
Proof.
  intros He H F. destruct (IH e He _ _ _ H F) as [bs X]. exists bs. split; [done|].
  intros top W Ht. by exists c, c', tl.
Qed.

(** A piece of a form, at the end of what is emitted so far. *)
Lemma lays_step c0 c c' p Q : lays c c' Q → emits c0 c p →
  ∃ bs, emits c0 c' (p ++ bs) ∧ ∀ top, wf c0 → le c' top →
    Q (Place (locals c0) (self_symbol c0) top) (code_size c0 + length p)%nat bs.
Proof.
  intros (bs & Y & HQ) X. exists bs. split; [by eapply emits_trans|]. intros top W Ht.
  rewrite <- (emits_size _ _ _ X), <- (emits_locals _ _ _ X), <- (emits_self _ _ _ X).
  apply HQ; [by eapply emits_wf|done].
Qed.

Lemma lays_failed c c' Q : lays c c' Q → failed c = false.
Proof. intros (bs & X & _). by eapply emits_failed. Qed.

Lemma op_step c0 c p op : emits c0 c p → emits c0 (emitOp op c) (p ++ [op_byte op]).
Proof. intros X. eapply emits_trans; [done|]. apply emitOp_emits. by eapply emits_failed'. Qed.

Lemma jump_step c0 c p op c1 j : emits c0 c p → emitJump op c = (c1, j) →
  emits c0 c1 (p ++ jmp op 0) ∧ j = (code_size c0 + length p + 1)%nat.
Proof.
  intros X E. destruct (emitJump_emits op c c1 j E) as (_ & Y & ->).
  { rewrite (emitJump_failed _ _ _ _ E). by eapply emits_failed'. }
  split; [by eapply emits_trans|]. rewrite (emits_size _ _ _ X). lia.
Qed.

Lemma lays_le c c' Q : lays c c' Q → le c c'.
Proof. intros (bs & X & _). by eapply emits_le. Qed.

(** Emission never shrinks the tables, failed or not. *)
Lemma le_emitByte b c : le c (emitByte b c).
Proof. unfold emitByte. destruct (failed c); [done|]. split; simpl; done. Qed.

Lemma le_emitJump op c c1 j : emitJump op c = (c1, j) → le c c1.
Proof.
  rewrite emitJump_eq. intros [= <- _]. unfold emitUint16, emitOp.
  do 2 (etransitivity; [|apply le_emitByte]). apply le_emitByte.
Qed.

Lemma le_emitLocal slot c : le c (emitLoadLocal slot c) ∧ le c (emitStoreLocal slot c).
Proof.
  unfold emitLoadLocal, emitStoreLocal, emitUint16, emitOp.
  split; case_match; repeat (etransitivity; [|apply le_emitByte]); done.
Qed.

(** Follows the states of a form backwards from the last one. *)
Ltac le_chain :=
  lazymatch goal with
  | |- le ?a ?a => reflexivity
  | H : le ?y ?x |- le _ ?x => transitivity y; [clear H; le_chain | exact H]
  | H : lays ?y ?x _ |- le _ ?x => transitivity y; [clear H; le_chain | exact (lays_le _ _ _ H)]
  | H : emitJump _ ?y = (?x, _) |- le _ ?x =>
      transitivity y; [clear H; le_chain | exact (le_emitJump _ _ _ _ H)]
  | |- le _ (emitOp _ ?y) => transitivity y; [le_chain | apply le_emitByte]
  | |- le _ (emitStoreLocal _ ?y) => transitivity y; [le_chain | apply le_emitLocal]
  | |- le _ (emitLoadLocal _ ?y) => transitivity y; [le_chain | apply le_emitLocal]
  end.

(** Uses a fact about a position that is equal up to arithmetic. *)
Ltac at_pos H :=
  match goal with
  | |- ?P ?pl ?p ?e ?b =>
    match type of H with P pl ?q e b => replace p with q by lia; exact H end
  | |- ?P ?pl ?p ?b =>
    match type of H with P pl ?q b => replace p with q by lia; exact H end
  end.

(** *** Sequences *)

Fixpoint body_at (pl : place) (pos : nat) (body : list sexp) (bs : list Z) : Prop :=
  match body with
  | [] => bs = []
  | e :: rest =>
      match rest with
      | [] => compiled_at pl pos e bs
      | _ => ∃ b r, bs = b ++ op_byte OP_POP :: r ∧ compiled_at pl pos e b ∧
                    body_at pl (pos + length b + 1) rest r
      end
  end.

Lemma compileBody_lays body tl : ∀ c c', (list_size body < N)%nat →
  compileBody comp body tl c = Ok c' → failed c' = false →
  lays c c' (λ pl pos bs, body_at pl pos body bs).
Proof.
  induction body as [|e rest IHb]; intros c c' Hs H F.
  { injection H as <-. exists []. split; [by apply emits_refl|done]. }
  rewrite list_size_cons in Hs. cbn [compileBody] in H. inv_bind H.
  destruct rest as [|e2 rest].
  { injection H as <-. by eapply rec_lays; [lia|..]. }
  apply IHb in H as L; [|lia|done]. pose proof (lays_failed _ _ _ L) as F1.
  rewrite emitOp_failed in F1.
  destruct (rec_lays e c v _ ltac:(lia) Hv F1) as (b & X & Q).
  destruct (lays_step _ _ _ _ _ L (op_step _ _ _ OP_POP X)) as (r & Y & Q2).
  rewrite <- app_assoc in Y. exists (b ++ op_byte OP_POP :: r). split; [exact Y|].
  intros top W Ht. exists b, r. split; [done|]. split.
  - apply Q; [done|le_chain].
  - specialize (Q2 top W Ht). rewrite length_app in Q2. simpl in Q2.
    by rewrite Nat.add_assoc in Q2.
Qed.

Definition begin_at (pl : place) (pos : nat) (body : list sexp) (bs : list Z) : Prop :=
  match body with
  | [] => bs = [op_byte OP_NIL]
  | _ => body_at pl pos body bs
  end.

Lemma compileBegin_lays body tl c c' : (list_size body < N)%nat →
  compileBegin comp body tl c = Ok c' → failed c' = false →
  lays c c' (λ pl pos bs, begin_at pl pos body bs).
Proof.
  intros Hs H F. destruct body as [|e body]; [|by eapply compileBody_lays].
  injection H as <-. rewrite emitOp_failed in F.
  exists [op_byte OP_NIL]. split; [by apply emitOp_emits|done].
Qed.

Fixpoint loop_at (pl : place) (pos : nat) (body : list sexp) (bs : list Z) : Prop :=
  match body with
  | [] => bs = []
  | e :: rest =>
      ∃ b r, bs = b ++ op_byte OP_POP :: r ∧ compiled_at pl pos e b ∧
             loop_at pl (pos + length b + 1) rest r
  end.

Lemma compileLoopBody_lays body : ∀ c c', (list_size body < N)%nat →
  compileLoopBody comp body c = Ok c' → failed c' = false →
  lays c c' (λ pl pos bs, loop_at pl pos body bs).
Proof.
  induction body as [|e rest IHb]; intros c c' Hs H F.
  { injection H as <-. exists []. split; [by apply emits_refl|done]. }
  rewrite list_size_cons in Hs. cbn [compileLoopBody] in H. inv_bind H.
  apply IHb in H as L; [|lia|done]. pose proof (lays_failed _ _ _ L) as F1.
  rewrite emitOp_failed in F1.
  destruct (rec_lays e c v _ ltac:(lia) Hv F1) as (b & X & Q).
  destruct (lays_step _ _ _ _ _ L (op_step _ _ _ OP_POP X)) as (r & Y & Q2).
  rewrite <- app_assoc in Y. exists (b ++ op_byte OP_POP :: r). split; [exact Y|].
  intros top W Ht. exists b, r. split; [done|]. split.
  - apply Q; [done|le_chain].
  - specialize (Q2 top W Ht). rewrite length_app in Q2. simpl in Q2.
    by rewrite Nat.add_assoc in Q2.
Qed.

(** *** if, when *)

(** Two-way branch: the code of the test, of the branch taken when it holds, and
    of the other one. *)
Definition branch_at (Q1 Q2 Q3 : place → nat → list Z → Prop)
    (pl : place) (pos : nat) (bs : list Z) : Prop :=
  ∃ b1 b2 b3,
    bs = b1 ++ jmp OP_JUMP_IF_NIL (Z.of_nat (length b2 + 3)) ++
         b2 ++ jmp OP_JUMP (Z.of_nat (length b3)) ++ b3 ∧
    Q1 pl pos b1 ∧ Q2 pl (pos + length b1 + 3)%nat b2 ∧
    Q3 pl (pos + length b1 + 3 + length b2 + 3)%nat b3.

Lemma branch_lays Q1 Q2 Q3 c c1 c2 c3 c4 c5 c6 c' else_jump end_jump :
  (failed c1 = false → lays c c1 Q1) →
  emitJump OP_JUMP_IF_NIL c1 = (c2, else_jump) →
  (failed c3 = false → lays c2 c3 Q2) →
  emitJump OP_JUMP c3 = (c4, end_jump) →
  patchJump else_jump c4 = Ok c5 →
  (failed c6 = false → lays c5 c6 Q3) →
  patchJump end_jump c6 = Ok c' →
  failed c' = false → lays c c' (branch_at Q1 Q2 Q3).
Proof.
  intros L1 J1 L3 J2 H5 L6 H7 F. rewrite (patchJump_failed _ _ _ H7) in F. specialize (L6 F).
  pose proof (lays_failed _ _ _ L6) as F5. rewrite (patchJump_failed _ _ _ H5) in F5.
  rewrite (emitJump_failed _ _ _ _ J2) in F5. specialize (L3 F5).
  pose proof (lays_failed _ _ _ L3) as F2.
  rewrite (emitJump_failed _ _ _ _ J1) in F2. specialize (L1 F2).
  destruct L1 as (b1 & X1 & HQ1).
  destruct (jump_step _ _ _ _ _ _ X1 J1) as [X2 Ej1].
  destruct (lays_step _ _ _ _ _ L3 X2) as (b2 & X3 & HQ3).
  destruct (jump_step _ _ _ _ _ _ X3 J2) as [X4 Ej2].
  rewrite <- !app_assoc in X4.
  destruct (patchJump_emits _ _ _ _ _ _ _ _ X4 Ej1 H5) as [X5 L45].
  destruct (lays_step _ _ _ _ _ L6 X5) as (b3 & X6 & HQ6).
  rewrite <- !app_assoc, (app_assoc b1), (app_assoc (b1 ++ _)) in X6.
  eapply patchJump_emits in X6 as [X7 L67]; [|rewrite Ej2|exact H7].
  2:{ rewrite !length_app, !jmp_length. lia. }
  rewrite <- !app_assoc in X7. rewrite (length_app b2), jmp_length in X7.
  eexists. split; [exact X7|]. intros top W Ht. exists b1, b2, b3. split; [done|].
  rewrite !length_app, !jmp_length in *. split; [apply HQ1; [done|le_chain]|].
  specialize (HQ3 top W ltac:(le_chain)). specialize (HQ6 top W ltac:(le_chain)).
  split; [at_pos HQ3|at_pos HQ6].
Qed.

Definition if_at (pl : place) (pos : nat) (args : list sexp) (bs : list Z) : Prop :=
  match args with
  | cond :: then_expr :: rest =>
      branch_at (λ pl pos b, compiled_at pl pos cond b) (λ pl pos b, compiled_at pl pos then_expr b)
        (λ pl pos b, match rest with
                     | else_expr :: _ => compiled_at pl pos else_expr b
                     | [] => b = [op_byte OP_NIL]
                     end) pl pos bs
  | _ => False
  end.

Lemma nil_lays c : failed (emitOp OP_NIL c) = false →
  lays c (emitOp OP_NIL c) (λ pl pos bs, bs = [op_byte OP_NIL]).
Proof.
  rewrite emitOp_failed. intros F. exists [op_byte OP_NIL]. split; [by apply emitOp_emits|done].
Qed.

Lemma compileIf_lays args tl c c' : (list_size args < N)%nat →
  compileIf comp args tl c = Ok c' → failed c' = false →
  lays c c' (λ pl pos bs, if_at pl pos args bs).
Proof.
  intros Hs H F. destruct args as [|cond [|then_expr rest]];
    try (injection H as <-; discriminate F).
  rewrite !list_size_cons in Hs. cbn [compileIf] in H.
  apply bind_ok_inv in H as (c1 & H1 & H).
  destruct (emitJump OP_JUMP_IF_NIL c1) as [c2 else_jump] eqn:J1.
  apply bind_ok_inv in H as (c3 & H3 & H).
  destruct rest as [|else_expr rest].
  - destruct (emitJump OP_JUMP c3) as [c4 end_jump] eqn:J2.
    apply bind_ok_inv in H as (c5 & H5 & H7).
    eapply branch_lays; [|exact J1| |exact J2|exact H5| |exact H7|exact F];
      [intros; eapply rec_lays; [lia|done..]..|apply nil_lays].
  - rewrite list_size_cons in Hs.
    destruct (emitJump OP_JUMP c3) as [c4 end_jump] eqn:J2.
    apply bind_ok_inv in H as (c5 & H5 & H). apply bind_ok_inv in H as (c6 & H6 & H7).
    eapply branch_lays; [|exact J1| |exact J2|exact H5| |exact H7|exact F];
      intros; eapply rec_lays; [lia|done|done|lia|done|done|lia|done..].
Qed.

Definition when_at (pl : place) (pos : nat) (args : list sexp) (bs : list Z) : Prop :=
  match args with
  | [] => False
  | [cond] => compiled_at pl pos cond bs
  | cond :: body =>
      branch_at (λ pl pos b, compiled_at pl pos cond b) (λ pl pos b, body_at pl pos body b)
        (λ pl pos b, b = [op_byte OP_NIL]) pl pos bs
  end.

Lemma compileWhen_lays args tl c c' : (list_size args < N)%nat →
  compileWhen comp args tl c = Ok c' → failed c' = false →
  lays c c' (λ pl pos bs, when_at pl pos args bs).
Proof.
  intros Hs H F. destruct args as [|cond [|e body]]; [injection H as <-; discriminate F|..].
  { rewrite list_size_cons in Hs. eapply rec_lays; [lia|done..]. }
  rewrite list_size_cons in Hs. cbn [compileWhen] in H.
  apply bind_ok_inv in H as (c1 & H1 & H).
  destruct (emitJump OP_JUMP_IF_NIL c1) as [c2 else_jump] eqn:J1.
  apply bind_ok_inv in H as (c3 & H3 & H).
  destruct (emitJump OP_JUMP c3) as [c4 end_jump] eqn:J2.
  apply bind_ok_inv in H as (c5 & H5 & H7).
  eapply branch_lays; [|exact J1| |exact J2|exact H5| |exact H7|exact F];
    [intros; eapply rec_lays; [lia|done..]|intros; eapply compileBody_lays; [lia|done..]
    |apply nil_lays].
Qed.

(** *** and, or, cond *)

Fixpoint and_chunks (pl : place) (pos : nat) (args : list sexp) (chs : list (list Z))
    (last : list Z) : Prop :=
  match args with
  | [] => False
  | e :: rest =>
      match rest with
      | [] => chs = [] ∧ compiled_at pl pos e last
      | _ => ∃ b r, chs = b :: r ∧ compiled_at pl pos e b ∧
                    and_chunks pl (pos + length b + 3) rest r last
      end
  end.

Lemma compileAndArgs_lays args tl : ∀ c ex c' ex', args ≠ [] → (list_size args < N)%nat →
  compileAndArgs comp args tl ex c = Ok (inl (c', ex')) → failed c' = false →
  ∃ chs last, emits c c' (lay0 OP_JUMP_IF_NIL chs ++ last) ∧
    ex' = ex ++ exits (code_size c) chs ∧
    ∀ top, wf c → le c' top →
      and_chunks (Place (locals c) (self_symbol c) top) (code_size c) args chs last.
Proof.
  induction args as [|e rest IHa]; intros c ex c' ex' Hne Hs H F; [done|].
  rewrite list_size_cons in Hs. cbn [compileAndArgs] in H. destruct rest as [|e2 rest].
  - apply bind_ok_inv in H as (c1 & H1 & [= <- <-]).
    destruct (rec_lays e _ _ _ ltac:(lia) H1 F) as (b & X & Q).
    exists [], b. split; [done|]. split; [by rewrite app_nil_r|]. intros top W Ht.
    split; [done|by apply Q].
  - apply bind_ok_inv in H as (c1 & H1 & H). case_match; [|done].
    destruct (emitJump OP_JUMP_IF_NIL c1) as [c2 j] eqn:J.
    destruct (IHa _ _ _ _ ltac:(done) ltac:(lia) H F) as (chs & last & X2 & E2 & Q2).
    pose proof (emits_failed _ _ _ X2) as F1. rewrite (emitJump_failed _ _ _ _ J) in F1.
    destruct (rec_lays e _ _ _ ltac:(lia) H1 F1) as (b & X & Q).
    destruct (jump_step _ _ _ _ _ _ X J) as [X1 Ej].
    pose proof (emits_size _ _ _ X1) as Es. rewrite length_app, jmp_length in Es.
    exists (b :: chs), last. simpl. split; [|split].
    + rewrite <- !app_assoc. pose proof (emits_trans _ _ _ _ _ X1 X2) as Y.
      by rewrite <- app_assoc in Y.
    + rewrite E2, <- app_assoc. simpl. do 2 f_equal; [done|]. f_equal. lia.
    + intros top W Ht. exists b, chs. split; [done|].
      pose proof (emits_le _ _ _ X2). split; [apply Q; [done|le_chain]|].
      specialize (Q2 top (emits_wf _ _ _ X1 W) Ht).
      rewrite (emits_locals _ _ _ X1), (emits_self _ _ _ X1), Es in Q2.
      by rewrite Nat.add_assoc in Q2.
Qed.

(** Giving up inside the argument loop. *)
Lemma compileAndArgs_inr args tl : ∀ ex c c',
  compileAndArgs comp args tl ex c = Ok (inr c') → failed c' = true.
Proof.
  induction args as [|e [|e2 args] IHa]; intros ex c c'; cbn [compileAndArgs]; [done|..];
    intros H; apply bind_ok_inv in H as (c1 & H1 & H); [done|].
  case_match; [|by injection H as <-]. destruct (emitJump OP_JUMP_IF_NIL c1). by eapply IHa.
Qed.

Definition and_at (pl : place) (pos : nat) (args : list sexp) (bs : list Z) : Prop :=
  match args with
  | [] => bs = [op_byte OP_TRUE]
  | _ => ∃ chs last, and_chunks pl pos args chs last ∧
      bs = match chs with
           | [] => last
           | _ => layT OP_JUMP_IF_NIL (pos + length (lay0 OP_JUMP_IF_NIL chs) + length last + 3) pos chs
                  ++ last ++ jmp OP_JUMP 1 ++ [op_byte OP_NIL]
           end
  end.

Lemma compileAnd_lays args tl c c' : (list_size args < N)%nat →
  compileAnd comp args tl c = Ok c' → failed c' = false →
  lays c c' (λ pl pos bs, and_at pl pos args bs).
Proof.
  intros Hs H F. destruct args as [|e args].
  { injection H as <-. rewrite emitOp_failed in F. exists [op_byte OP_TRUE].
    split; [by apply emitOp_emits|done]. }
  cbn [compileAnd] in H. apply bind_ok_inv in H as ([[c1 ex]|c1] & H1 & H).
  2:{ apply compileAndArgs_inr in H1. congruence. }
  assert (F1 : failed c1 = false).
  { destruct ex as [|x ex]; [congruence|].
    destruct (emitJump OP_JUMP c1) as [c2 j] eqn:J. apply bind_ok_inv in H as (c3 & H3 & H).
    rewrite (patchJump_failed _ _ _ H), emitOp_failed, (patchAll_failed _ _ _ H3),
      (emitJump_failed _ _ _ _ J) in F. done. }
  assert (Hne : e :: args ≠ []) by done.
  destruct (compileAndArgs_lays _ _ _ _ _ _ Hne Hs H1 F1) as (chs & last & X & Ee & Q).
  simpl in Ee. subst ex. destruct chs as [|b chs].
  { injection H as <-. exists last. split; [done|]. intros top W Ht. exists [], last.
    split; [by apply Q|done]. }
  cbn [exits] in H.
  destruct (emitJump OP_JUMP c1) as [c2 j] eqn:J. apply bind_ok_inv in H as (c3 & H3 & H).
  destruct (jump_step _ _ _ _ _ _ X J) as [X2 Ej]. rewrite <- app_assoc in X2.
  change (lay0 OP_JUMP_IF_NIL (b :: chs)) with ([] ++ lay0 OP_JUMP_IF_NIL (b :: chs)) in X2.
  rewrite <- app_assoc in X2.
  change (_ :: exits _ chs) with (exits (code_size c) (b :: chs)) in H3.
  replace (code_size c) with (code_size c + length (@nil Z))%nat in H3 at 1 by (simpl; lia).
  destruct (patchAll_emits _ _ _ _ _ _ _ X2 H3) as [X3 L23].
  apply (op_step _ _ _ OP_NIL) in X3. cbn [length app] in X3. rewrite Nat.add_0_r in X3.
  rewrite <- !app_assoc, (app_assoc _ last) in X3.
  eapply patchJump_emits in X3 as [X4 L4]; [| |exact H].
  2:{ rewrite Ej, !length_app, layT_length. lia. }
  eexists. split; [exact X4|]. intros top W Ht. exists (b :: chs), last.
  split; [apply Q; [done|le_chain]|]. rewrite <- app_assoc, length_app, jmp_length.
  by rewrite Nat.add_assoc.
Qed.

(** From the second argument of [or] on the code starts by dropping the copy of
    the value before. *)
Fixpoint or_chunks (pl : place) (pos : nat) (pre : list Z) (args : list sexp)
    (chs : list (list Z)) (last : list Z) : Prop :=
  match args with
  | [] => False
  | e :: rest =>
      ∃ b, compiled_at pl (pos + length pre) e b ∧
      match rest with
      | [] => chs = [] ∧ last = pre ++ b
      | _ => ∃ r, chs = (pre ++ b ++ [op_byte OP_DUP]) :: r ∧
                  or_chunks pl (pos + length pre + length b + 1 + 3) [op_byte OP_POP] rest r last
      end
  end.

Lemma compileOrArgs_lays args tl : ∀ c0 c p ex c' ex', args ≠ [] → (list_size args < N)%nat →
  compileOrArgs comp args tl ex c = Ok (inl (c', ex')) → failed c' = false →
  (failed c = false → emits c0 c p) →
  failed c = false ∧ ∃ chs last, emits c0 c' (lay0 OP_JUMP_IF_NOT_NIL chs ++ last) ∧
    ex' = ex ++ exits (code_size c0) chs ∧
    ∀ top, wf c0 → le c' top →
      or_chunks (Place (locals c0) (self_symbol c0) top) (code_size c0) p args chs last.
Proof.
  induction args as [|e rest IHa]; intros c0 c p ex c' ex' Hne Hs H F X0; [done|].
  rewrite list_size_cons in Hs. cbn [compileOrArgs] in H. destruct rest as [|e2 rest].
  - apply bind_ok_inv in H as (c1 & H1 & [= <- <-]).
    pose proof (rec_lays e _ _ _ ltac:(lia) H1 F) as L. pose proof (lays_failed _ _ _ L) as F0.
    split; [done|]. destruct (lays_step _ _ _ _ _ L (X0 F0)) as (b & X & Q).
    exists [], (p ++ b). split; [done|]. split; [by rewrite app_nil_r|]. intros top W Ht.
    exists b. split; [by apply Q|done].
  - apply bind_ok_inv in H as (c1 & H1 & H). case_match; [|done].
    destruct (emitJump OP_JUMP_IF_NOT_NIL (emitOp OP_DUP c1)) as [c2 j] eqn:J.
    destruct (IHa c2 (emitOp OP_POP c2) [op_byte OP_POP] _ _ _ ltac:(done) ltac:(lia) H F)
      as (F1 & chs & last & X2 & E2 & Q2).
    { rewrite emitOp_failed. intros. by apply emitOp_emits. }
    rewrite emitOp_failed, (emitJump_failed _ _ _ _ J), emitOp_failed in F1.
    pose proof (rec_lays e _ _ _ ltac:(lia) H1 F1) as L. pose proof (lays_failed _ _ _ L) as F0.
    split; [done|]. destruct (lays_step _ _ _ _ _ L (X0 F0)) as (b & X & Q).
    destruct (jump_step _ _ _ _ _ _ (op_step _ _ _ OP_DUP X) J) as [X1 Ej].
    rewrite <- !app_assoc in X1.
    pose proof (emits_size _ _ _ X1) as Es. rewrite !length_app, jmp_length in Es. simpl in Es.
    exists ((p ++ b ++ [op_byte OP_DUP]) :: chs), last. cbn [lay0 exits]. split; [|split].
    + pose proof (emits_trans _ _ _ _ _ X1 X2) as Y. rewrite <- !app_assoc in Y |- *. exact Y.
    + rewrite E2, <- app_assoc. simpl. rewrite !length_app in *. simpl in *.
      do 2 f_equal; [rewrite Ej; lia|f_equal; lia].
    + intros top W Ht. exists b. pose proof (emits_le _ _ _ X2).
      split; [apply Q; [done|le_chain]|]. exists chs. split; [done|].
      specialize (Q2 top (emits_wf _ _ _ X1 W) Ht).
      rewrite (emits_locals _ _ _ X1), (emits_self _ _ _ X1), Es in Q2.
      match type of Q2 with or_chunks _ ?q _ _ _ _ =>
        match goal with |- or_chunks _ ?q' _ _ _ _ => replace q' with q by lia; exact Q2 end end.
Qed.

Lemma compileOrArgs_inr args tl : ∀ ex c c',
  compileOrArgs comp args tl ex c = Ok (inr c') → failed c' = true.
Proof.
  induction args as [|e [|e2 args] IHa]; intros ex c c'; cbn [compileOrArgs]; [done|..];
    intros H; apply bind_ok_inv in H as (c1 & H1 & H); [done|].
  case_match; [|by injection H as <-].
  destruct (emitJump OP_JUMP_IF_NOT_NIL (emitOp OP_DUP c1)). by eapply IHa.
Qed.

Definition or_at (pl : place) (pos : nat) (args : list sexp) (bs : list Z) : Prop :=
  match args with
  | [] => bs = [op_byte OP_NIL]
  | _ => ∃ chs last, or_chunks pl pos [] args chs last ∧
      bs = layT OP_JUMP_IF_NOT_NIL
             (pos + length (lay0 OP_JUMP_IF_NOT_NIL chs) + length last) pos chs ++ last
  end.

Lemma compileOr_lays args tl c c' : (list_size args < N)%nat →
  compileOr comp args tl c = Ok c' → failed c' = false →
  lays c c' (λ pl pos bs, or_at pl pos args bs).
Proof.
  intros Hs H F. destruct args as [|e args].
  { injection H as <-. rewrite emitOp_failed in F. exists [op_byte OP_NIL].
    split; [by apply emitOp_emits|done]. }
  cbn [compileOr] in H. apply bind_ok_inv in H as ([[c1 ex]|c1] & H1 & H).
  2:{ apply compileOrArgs_inr in H1. congruence. }
  rewrite (patchAll_failed _ _ _ H) in F. assert (Hne : e :: args ≠ []) by done.
  destruct (compileOrArgs_lays _ _ c _ [] _ _ _ Hne Hs H1 F) as (F0 & chs & last & X & Ee & Q).
  { by apply emits_refl. }
  simpl in Ee. subst ex. replace (code_size c) with (code_size c + length (@nil Z))%nat in H
    by (simpl; lia).
  destruct (patchAll_emits _ _ _ _ [] _ _ X H) as [X3 L3].
  cbn [length app] in X3. rewrite Nat.add_0_r in X3.
  eexists. split; [exact X3|]. intros top W Ht. exists chs, last.
  split; [apply Q; [done|le_chain]|done].
Qed.

Definition clause_body_at (pl : place) (pos : nat) (body : list sexp) (bs : list Z) : Prop :=
  match body with
  | [] => bs = []
  | _ => ∃ r, bs = op_byte OP_POP :: r ∧ body_at pl (pos + 1) body r
  end.

Lemma clause_body_lays body tl c c' : (list_size body < N)%nat →
  match body with [] => Ok c | _ => compileBody comp body tl (emitOp OP_POP c) end = Ok c' →
  failed c' = false → lays c c' (λ pl pos bs, clause_body_at pl pos body bs).
Proof.
  intros Hs H F. destruct body as [|e body].
  { injection H as <-. exists []. split; [by apply emits_refl|done]. }
  pose proof (compileBody_lays _ _ _ _ Hs H F) as L. pose proof (lays_failed _ _ _ L) as F0.
  rewrite emitOp_failed in F0.
  destruct (lays_step _ _ _ _ _ L (emitOp_emits OP_POP c F0)) as (r & X & Q).
  exists (op_byte OP_POP :: r). split; [exact X|]. intros top W Ht. exists r.
  split; [done|]. by apply Q.
Qed.

(** One clause of [cond] up to the jump to the end. *)
Definition clause_at (pl : place) (pos : nat) (test_expr : sexp) (body : list sexp)
    (b : list Z) : Prop :=
  ∃ bt bb, b = op_byte OP_POP :: bt ++ op_byte OP_DUP ::
                 jmp OP_JUMP_IF_NIL (Z.of_nat (length bb + 3)) ++ bb ∧
    compiled_at pl (pos + 1) test_expr bt ∧
    clause_body_at pl (pos + 1 + length bt + 1 + 3) body bb.

Fixpoint cond_chunks (pl : place) (pos : nat) (clauses : list sexp) (chs : list (list Z)) : Prop :=
  match clauses with
  | [] => chs = []
  | CExpr [] :: rest => cond_chunks pl pos rest chs
  | CExpr (test_expr :: body) :: rest =>
      ∃ b r, chs = b :: r ∧ clause_at pl pos test_expr body b ∧
             cond_chunks pl (pos + length b + 3) rest r
  | _ :: _ => False
  end.

Lemma clause_step test_expr body tl c c1 c2 false_jump c3 c4 j c5 :
  (sexp_size test_expr < N)%nat → (list_size body < N)%nat →
  comp (emitOp OP_POP c) test_expr false = Ok c1 →
  emitJump OP_JUMP_IF_NIL (emitOp OP_DUP c1) = (c2, false_jump) →
  match body with [] => Ok c2 | _ => compileBody comp body tl (emitOp OP_POP c2) end = Ok c3 →
  emitJump OP_JUMP c3 = (c4, j) →
  patchJump false_jump c4 = Ok c5 → failed c5 = false →
  ∃ b, emits c c5 (b ++ jmp OP_JUMP 0) ∧ j = (code_size c + length b + 1)%nat ∧
    ∀ top, wf c → le c5 top →
      clause_at (Place (locals c) (self_symbol c) top) (code_size c) test_expr body b.
Proof.
  intros Hs1 Hs2 H1 J1 H3 J2 H5 F.
  rewrite (patchJump_failed _ _ _ H5), (emitJump_failed _ _ _ _ J2) in F.
  pose proof (clause_body_lays _ _ _ _ Hs2 H3 F) as L3. pose proof (lays_failed _ _ _ L3) as F1.
  rewrite (emitJump_failed _ _ _ _ J1), emitOp_failed in F1.
  pose proof (rec_lays _ _ _ _ Hs1 H1 F1) as L1. pose proof (lays_failed _ _ _ L1) as F0.
  rewrite emitOp_failed in F0.
  destruct (lays_step _ _ _ _ _ L1 (emitOp_emits OP_POP c F0)) as (bt & X1 & Q1).
  destruct (jump_step _ _ _ _ _ _ (op_step _ _ _ OP_DUP X1) J1) as [X2 Ej].
  destruct (lays_step _ _ _ _ _ L3 X2) as (bb & X3 & Q3).
  destruct (jump_step _ _ _ _ _ _ X3 J2) as [X4 Ej2].
  rewrite <- (app_assoc _ (jmp OP_JUMP_IF_NIL 0) bb), <- (app_assoc _ _ (jmp OP_JUMP 0)),
    <- (app_assoc (jmp OP_JUMP_IF_NIL 0)) in X4.
  destruct (patchJump_emits _ _ _ _ _ _ _ _ X4 Ej H5) as [X5 L45].
  rewrite !length_app, !jmp_length in *. simpl in *.
  exists (op_byte OP_POP :: bt ++ op_byte OP_DUP ::
            jmp OP_JUMP_IF_NIL (Z.of_nat (length bb + 3)) ++ bb).
  split; [|split].
  - simpl. rewrite <- !app_assoc in X5 |- *. simpl in *. by rewrite <- app_assoc.
  - simpl. rewrite Ej2, !length_app. simpl. rewrite length_app, jmp_length. lia.
  - intros top W Ht. exists bt, bb. split; [done|].
    specialize (Q1 top W ltac:(le_chain)). specialize (Q3 top W ltac:(le_chain)).
    split; [at_pos Q1|at_pos Q3].
Qed.

Lemma compileClauses_lays clauses tl : ∀ c ex c' ex', (list_size clauses < N)%nat →
  compileClauses comp clauses tl ex c = Ok (inl (c', ex')) → failed c' = false →
  ∃ chs, emits c c' (lay0 OP_JUMP chs) ∧ ex' = ex ++ exits (code_size c) chs ∧
    ∀ top, wf c → le c' top →
      cond_chunks (Place (locals c) (self_symbol c) top) (code_size c) clauses chs.
Proof.
  induction clauses as [|cl rest IHc]; intros c ex c' ex' Hs H F; cbn [compileClauses] in H.
  { injection H as <- <-. exists []. split; [by apply emits_refl|]. by rewrite app_nil_r. }
  rewrite list_size_cons in Hs. destruct cl as [| | | | | | | | |[|test_expr body]| |]; try done.
  { apply IHc in H; [|lia|done]. exact H. }
  rewrite sexp_size_expr, list_size_cons in Hs.
  apply bind_ok_inv in H as (c1 & H1 & H).
  destruct (emitJump OP_JUMP_IF_NIL (emitOp OP_DUP c1)) as [c2 false_jump] eqn:J1.
  apply bind_ok_inv in H as (c3 & H3 & H). case_match; [|done].
  destruct (emitJump OP_JUMP c3) as [c4 j] eqn:J2. apply bind_ok_inv in H as (c5 & H5 & H).
  destruct (IHc _ _ _ _ ltac:(lia) H F) as (chs & X2 & E2 & Q2).
  pose proof (emits_failed _ _ _ X2) as F5.
  destruct (clause_step test_expr body tl c c1 c2 false_jump c3 c4 j c5)
    as (b & X & Ej & Q); [lia|lia|done..|].
  pose proof (emits_size _ _ _ X) as Es. rewrite length_app, jmp_length in Es.
  exists (b :: chs). cbn [lay0 exits]. split; [|split].
  - pose proof (emits_trans _ _ _ _ _ X X2) as Y. by rewrite <- app_assoc in Y.
  - rewrite E2, Es, Ej, <- app_assoc. simpl. do 3 f_equal. lia.
  - intros top W Ht. exists b, chs. pose proof (emits_le _ _ _ X2). split; [done|].
    split; [apply Q; [done|le_chain]|]. specialize (Q2 top (emits_wf _ _ _ X W) Ht).
    rewrite (emits_locals _ _ _ X), (emits_self _ _ _ X), Es in Q2. at_pos Q2.
Qed.

Lemma compileClauses_inr clauses tl : ∀ ex c c',
  compileClauses comp clauses tl ex c = Ok (inr c') → failed c' = true.
Proof.
  induction clauses as [|cl rest IHc]; intros ex c c' H; cbn [compileClauses] in H; [done|].
  destruct cl as [| | | | | | | | |[|test_expr body]| |]; try (by injection H as <-); [by eapply IHc|].
  apply bind_ok_inv in H as (c1 & H1 & H).
  destruct (emitJump OP_JUMP_IF_NIL (emitOp OP_DUP c1)) as [c2 false_jump].
  apply bind_ok_inv in H as (c3 & H3 & H). case_match; [|by injection H as <-].
  destruct (emitJump OP_JUMP c3) as [c4 j]. apply bind_ok_inv in H as (c5 & H5 & H).
  by eapply IHc.
Qed.

Definition cond_at (pl : place) (pos : nat) (clauses : list sexp) (bs : list Z) : Prop :=
  match clauses with
  | [] => bs = [op_byte OP_NIL]
  | _ => ∃ chs, cond_chunks pl (pos + 1) clauses chs ∧
      bs = op_byte OP_NIL :: layT OP_JUMP (pos + 1 + length (lay0 OP_JUMP chs)) (pos + 1) chs
  end.

Lemma compileCond_lays clauses tl c c' : (list_size clauses < N)%nat →
  compileCond comp clauses tl c = Ok c' → failed c' = false →
  lays c c' (λ pl pos bs, cond_at pl pos clauses bs).
Proof.
  intros Hs H F. destruct clauses as [|cl clauses].
  { injection H as <-. rewrite emitOp_failed in F. exists [op_byte OP_NIL].
    split; [by apply emitOp_emits|done]. }
  cbn [compileCond] in H. apply bind_ok_inv in H as ([[c1 ex]|c1] & H1 & H).
  2:{ apply compileClauses_inr in H1. congruence. }
  rewrite (patchAll_failed _ _ _ H) in F.
  destruct (compileClauses_lays _ _ _ _ _ _ Hs H1 F) as (chs & X & Ee & Q).
  pose proof (emits_failed _ _ _ X) as F0. rewrite emitOp_failed in F0.
  pose proof (emitOp_emits OP_NIL c F0) as X0.
  pose proof (emits_trans _ _ _ _ _ X0 X) as Y. simpl in Ee. subst ex.
  rewrite (emits_size _ _ _ X0) in H, Q. rewrite (emits_locals _ _ _ X0) in Q.
  rewrite (emits_self _ _ _ X0) in Q.
  rewrite <- (app_nil_r (lay0 _ _)) in Y.
  destruct (patchAll_emits _ _ _ _ _ _ _ Y H) as [X3 L3]. rewrite app_nil_r in X3.
  cbn [length] in X3. rewrite Nat.add_0_r in X3.
  eexists. split; [exact X3|]. intros top W Ht. exists chs.
  split; [apply Q; [by eapply emits_wf|le_chain]|done].
Qed.

(** *** while *)

Definition while_at (pl : place) (pos : nat) (args : list sexp) (bs : list Z) : Prop :=
  match args with
  | [] => False
  | cond :: body =>
      ∃ b1 b2,
        bs = b1 ++ jmp OP_JUMP_IF_NIL (Z.of_nat (length b2 + 3)) ++ b2 ++
             jmp OP_JUMP (- Z.of_nat (length b1 + 3 + length b2 + 3)) ++ [op_byte OP_NIL] ∧
        compiled_at pl pos cond b1 ∧
        loop_at pl (pos + length b1 + 3) body b2
  end.

(** The back jump, the exit jump and the final value of a loop. *)
Lemma loop_end c c1 c2 c3 c4 c5 c6 b1 b2 exit_jump back_jump :
  emits c c1 b1 → emitJump OP_JUMP_IF_NIL c1 = (c2, exit_jump) →
  emits c2 c3 b2 → emitJump OP_JUMP c3 = (c4, back_jump) →
  patchBack (code_size c) back_jump c4 = Ok c5 → patchJump exit_jump c5 = Ok c6 →
  emits c (emitOp OP_NIL c6)
    (b1 ++ jmp OP_JUMP_IF_NIL (Z.of_nat (length b2 + 3)) ++ b2 ++
     jmp OP_JUMP (- Z.of_nat (length b1 + 3 + length b2 + 3)) ++ [op_byte OP_NIL]) ∧
  le c4 c5 ∧ le c5 c6.
Proof.
  intros X1 J1 X3 J2 H5 H6.
  destruct (jump_step _ _ _ _ _ _ X1 J1) as [X2 Ej].
  destruct (jump_step _ _ _ _ _ _ (emits_trans _ _ _ _ _ X2 X3) J2) as [X4 Ej2].
  rewrite <- (app_nil_r (jmp OP_JUMP 0)) in X4.
  destruct (patchBack_emits _ _ _ _ _ _ _ _ _ X4 Ej2 H5) as [X5 L45].
  rewrite app_nil_r, <- !app_assoc in X5.
  destruct (patchJump_emits _ _ _ _ _ _ _ _ X5 Ej H6) as [X6 L56].
  apply (op_step _ _ _ OP_NIL) in X6. split; [|done].
  rewrite Ej2, !length_app, !jmp_length, <- !app_assoc in X6.
  match type of X6 with emits _ _ (_ ++ _ ++ _ ++ jmp _ ?z ++ _) =>
    replace z with (- Z.of_nat (length b1 + 3 + length b2 + 3)) in X6 by lia end.
  exact X6.
Qed.

Lemma compileWhile_lays args c c' : (list_size args < N)%nat →
  compileWhile comp args c = Ok c' → failed c' = false →
  lays c c' (λ pl pos bs, while_at pl pos args bs).
Proof.
  intros Hs H F. destruct args as [|cond body]; [injection H as <-; discriminate F|].
  rewrite list_size_cons in Hs. cbn [compileWhile] in H.
  apply bind_ok_inv in H as (c1 & H1 & H).
  destruct (emitJump OP_JUMP_IF_NIL c1) as [c2 exit_jump] eqn:J1.
  apply bind_ok_inv in H as (c3 & H3 & H).
  destruct (emitJump OP_JUMP c3) as [c4 back_jump] eqn:J2.
  apply bind_ok_inv in H as (c5 & H5 & H). apply bind_ok_inv in H as (c6 & H6 & [= <-]).
  rewrite emitOp_failed, (patchJump_failed _ _ _ H6), (patchBack_failed _ _ _ _ H5),
    (emitJump_failed _ _ _ _ J2) in F.
  destruct (compileLoopBody_lays body _ _ ltac:(lia) H3 F) as (b2 & X3 & Q3).
  pose proof (emits_failed _ _ _ X3) as F2. rewrite (emitJump_failed _ _ _ _ J1) in F2.
  destruct (rec_lays cond _ _ _ ltac:(lia) H1 F2) as (b1 & X1 & Q1).
  destruct (loop_end _ _ _ _ _ _ _ _ _ _ _ X1 J1 X3 J2 H5 H6) as (X & L45 & L56).
  eexists. split; [exact X|]. intros top W Ht. exists b1, b2. split; [done|].
  pose proof (emits_le _ _ _ X3).
  destruct (jump_step _ _ _ _ _ _ X1 J1) as [X2 _].
  split; [apply Q1; [done|le_chain]|].
  specialize (Q3 top (emits_wf _ _ _ X2 W) ltac:(le_chain)).
  rewrite (emits_size _ _ _ X2), (emits_locals _ _ _ X2), (emits_self _ _ _ X2) in Q3.
  rewrite length_app, jmp_length in Q3. at_pos Q3.
Qed.

(** *** Scopes: let, local *)

Lemma addLocal_eq s c : addLocal s c =
  if Nat.leb MAX_LOCALS (num_locals c) then (set_failed c, 0%nat)
  else (set_max_locals (max_locals c `max` (num_locals c + 1)) (set_locals (locals c ++ [s]) c),
        num_locals c).
Proof.
  unfold addLocal, num_locals. destruct (Nat.leb MAX_LOCALS (length (locals c))); [done|].
  f_equal. cbn -[Nat.ltb]. rewrite length_app. cbn -[Nat.ltb].
  destruct (Nat.ltb_spec (max_locals c) (length (locals c) + 1));
    unfold set_max_locals, set_locals; cbn; f_equal; lia.
Qed.

Lemma addLocal_ext s c c1 slot : addLocal s c = (c1, slot) → failed c1 = false →
  ext c c1 [] ∧ locals c1 = locals c ++ [s] ∧ slot = num_locals c.
Proof.
  rewrite addLocal_eq.
  destruct (Nat.leb_spec MAX_LOCALS (num_locals c)) as [|Hl]; [by intros [= <- _]|].
  intros [= <- <-] F. cbn in F. split; [|done]. split; cbn; try done; try lia.
  - by rewrite app_nil_r.
  - split; cbn; done || lia.
  - unfold num_locals. cbn. rewrite length_app. cbn. lia.
Qed.

(** Leaving a scope. *)
Lemma close_scope c c2 bs x : ext c c2 bs → locals c2 = locals c ++ x →
  emits c (set_locals (take (num_locals c) (locals c2)) c2) bs ∧
  le c2 (set_locals (take (num_locals c) (locals c2)) c2).
Proof.
  intros [] E. assert (T : take (num_locals c) (locals c2) = locals c).
  { rewrite E. apply take_app_length. }
  rewrite T. destruct ext_le0. split; [split; [|done]; split; cbn; try done|done].
  unfold num_locals. cbn. unfold num_locals in *. lia.
Qed.

(** The bindings of a [let] in the order of the code, without a value for a bare
    name. *)
Fixpoint parse_bindings (bs : list sexp) : option (list (sym * option sexp)) :=
  match bs with
  | [] => Some []
  | CExpr (CSymbol s :: init) :: rest => cons (s, head init) <$> parse_bindings rest
  | CSymbol s :: e :: rest => cons (s, Some e) <$> parse_bindings rest
  | [CSymbol s] => Some [(s, None)]
  | _ :: _ => None
  end.

Fixpoint parse_vars (vs : list sexp) : option (list (sym * option sexp)) :=
  match vs with
  | [] => Some []
  | CSymbol s :: rest => cons (s, None) <$> parse_vars rest
  | _ :: _ => None
  end.

Definition inner (pl : place) (ss : list sym) : place :=
  Place (pl_locals pl ++ (Some <$> ss)) (pl_self pl) (pl_top pl).

Fixpoint bind_at (pl : place) (pos : nat) (ps : list (sym * option sexp)) (bs : list Z) : Prop :=
  match ps with
  | [] => bs = []
  | (s, init) :: rest =>
      ∃ b r, bs = b ++ store_code (length (pl_locals pl)) ++ r ∧
        (length (pl_locals pl) < max_locals (pl_top pl))%nat ∧
        match init with
        | Some e => compiled_at (inner pl [s]) pos e b
        | None => b = [op_byte OP_NIL]
        end ∧
        bind_at (inner pl [s]) (pos + length b + length (store_code (length (pl_locals pl)))) rest r
  end.

Definition opens (c c' : Compiler) (ps : list (sym * option sexp)) : Prop :=
  ∃ bs, ext c c' bs ∧ locals c' = locals c ++ (Some ∘ fst <$> ps) ∧
    ∀ top, wf c → le c' top →
      bind_at (Place (locals c) (self_symbol c) top) (code_size c) ps bs.

Lemma opens_nil c : failed c = false → opens c c [].
Proof. exists []. split; [by apply ext_refl|]. by rewrite app_nil_r. Qed.

(** One binding in front of the others. *)
Lemma opens_cons s init c c1 slot c2 c3 c' ps :
  addLocal (Some s) c = (c1, slot) →
  (failed c2 = false → lays c1 c2 (λ pl pos b,
     match init with Some e => compiled_at pl pos e b | None => b = [op_byte OP_NIL] end)) →
  c3 = emitStoreLocal slot c2 → opens c3 c' ps → opens c c' ((s, init) :: ps).
Proof.
  intros HA L -> (r & X3 & E3 & Q3).
  pose proof (ext_failed _ _ _ X3) as F. rewrite emitStoreLocal_failed in F. specialize (L F).
  destruct L as (b & X2 & Q2). pose proof (emits_failed _ _ _ X2) as F1.
  destruct (addLocal_ext _ _ _ _ HA F1) as (X1 & E1 & ->).
  pose proof (emits_trans _ _ _ _ _ X2 (emitStoreLocal_emits (num_locals c) c2 F)) as Y.
  destruct Y as [Y EY]. pose proof (ext_trans _ _ _ _ _ X1 Y) as Z. rewrite app_nil_l in Z.
  exists (b ++ store_code (num_locals c) ++ r). split; [|split].
  - rewrite app_assoc. by eapply ext_trans.
  - rewrite E3, EY, E1, <- app_assoc. done.
  - intros top W Ht. exists b, r. split; [done|].
    pose proof (ext_size _ _ _ X1) as S1. rewrite Nat.add_0_r in S1.
    pose proof (ext_size _ _ _ Z) as SZ. rewrite length_app in SZ.
    assert (W1 : wf c1) by (by eapply (ext_wf _ _ _ X1)).
    pose proof (ext_le _ _ _ X3).
    specialize (Q2 top W1 ltac:(le_chain)).
    specialize (Q3 top (ext_wf _ _ _ Y W1) Ht).
    assert (Hm : (num_locals c < max_locals top)%nat).
    { pose proof (ext_wf _ _ _ Y W1) as W3. assert (L3 : le (emitStoreLocal (num_locals c) c2) top)
        by le_chain. destruct L3 as [_ _ L3]. unfold wf in W3. unfold num_locals in *.
      rewrite EY, E1, length_app in W3. simpl in W3. lia. }
    rewrite E1, (ext_self _ _ _ X1), S1 in Q2.
    rewrite EY, E1, (ext_self _ _ _ Z), SZ, Nat.add_assoc in Q3. done.
Qed.

Lemma compileBinding_opens s init c c2 c' ps :
  (from_option sexp_size 0 init < N)%nat →
  compileBinding comp s init c = Ok c2 → opens c2 c' ps → opens c c' ((s, init) :: ps).
Proof.
  intros Hs H O. unfold compileBinding in H. destruct (addLocal (Some s) c) as [c1 slot] eqn:HA.
  apply bind_ok_inv in H as (c3 & H3 & [= <-]).
  eapply opens_cons; [exact HA| |done|exact O]. intros F.
  destruct init as [e|]; [by eapply rec_lays|]. injection H3 as <-. by apply nil_lays.
Qed.

Lemma compileBindings_opens bs : ∀ c c', (list_size bs < N)%nat →
  compileBindings comp bs c = Ok (inl c') → failed c' = false →
  ∃ ps, parse_bindings bs = Some ps ∧ opens c c' ps.
Proof.
  induction bs as [bs IHn] using (induction_ltof1 _ (@length sexp)); unfold ltof in IHn.
  intros c c' Hs H F. destruct bs as [|b rest].
  { injection H as <-. exists []. split; [done|by apply opens_nil]. }
  assert (Rest : ∀ rest' s init c2 k, rest' = drop k rest → (list_size rest' < N)%nat →
    (from_option sexp_size 0 init < N)%nat →
    compileBinding comp s init c = Ok c2 → compileBindings comp rest' c2 = Ok (inl c') →
    ∃ ps, parse_bindings rest' = Some ps ∧ opens c c' ((s, init) :: ps)).
  { intros rest' s init c2 k -> Hs' Hi H1 H2.
    apply IHn in H2 as (ps & Hp & O); [|simpl; rewrite length_drop; lia|lia|done].
    exists ps. split; [done|]. by eapply compileBinding_opens. }
  rewrite list_size_cons in Hs.
  destruct b as [| | | | |s| | | |[|[| | | | |s| | | | | |] init]| |]; try done.
  - destruct rest as [|e rest]; cbn [compileBindings] in H.
    + apply bind_ok_inv in H as (c2 & H2 & [= <-]).
      destruct (Rest [] s None c2 0%nat) as (ps & [= <-] & O); try done; [cbn; lia|cbn; lia|].
      by exists [(s, None)].
    + rewrite list_size_cons in Hs. apply bind_ok_inv in H as (c2 & H2 & H).
      destruct (Rest rest s (Some e) c2 1%nat) as (ps & Hp & O); try done; [lia|cbn; lia|].
      exists ((s, Some e) :: ps). cbn. by rewrite Hp.
  - rewrite sexp_size_expr, list_size_cons in Hs. cbn [compileBindings] in H.
    apply bind_ok_inv in H as (c2 & H2 & H).
    destruct (Rest rest s (head init) c2 0%nat) as (ps & Hp & O); try done; [lia| | |].
    + destruct init; cbn; [lia|]. rewrite list_size_cons in Hs. lia.
    + by destruct init.
    + exists ((s, head init) :: ps). cbn. by rewrite Hp.
Qed.

Lemma compileBindings_inr bs : ∀ c c',
  compileBindings comp bs c = Ok (inr c') → failed c' = true.
Proof.
  induction bs as [bs IHn] using (induction_ltof1 _ (@length sexp)); unfold ltof in IHn.
  intros c c' H. destruct bs as [|b rest]; [done|].
  destruct b as [| | | | |s| | | |[|[| | | | |s| | | | | |] init]| |];
    try (by injection H as <-).
  - destruct rest as [|e rest]; cbn [compileBindings] in H;
      apply bind_ok_inv in H as (c2 & H2 & H); [done|].
    apply IHn in H; [done|simpl; lia].
  - cbn [compileBindings] in H. apply bind_ok_inv in H as (c2 & H2 & H).
    apply IHn in H; [done|simpl; lia].
Qed.

(** A scope and the body in it. *)
Definition scope_at (pl : place) (pos : nat) (ps : list (sym * option sexp)) (body : list sexp)
    (bs : list Z) : Prop :=
  ∃ b1 b2, bs = b1 ++ b2 ∧ bind_at pl pos ps b1 ∧
    begin_at (inner pl (fst <$> ps)) (pos + length b1) body b2.

Lemma compileLetBody_lays body tl c c1 c' ps : (list_size body < N)%nat →
  (failed c1 = false → opens c c1 ps) →
  compileLetBody comp body tl (num_locals c) c1 = Ok c' → failed c' = false →
  lays c c' (λ pl pos bs, scope_at pl pos ps body bs).
Proof.
  intros Hs O H F. unfold compileLetBody in H. apply bind_ok_inv in H as (c2 & H2 & [= <-]).
  change (failed c2 = false) in F.
  pose proof (compileBegin_lays _ _ _ _ Hs H2 F) as (b2 & [X2 E2] & Q2).
  pose proof (ext_failed _ _ _ X2) as F1. destruct (O F1) as (b1 & X1 & E1 & Q1).
  pose proof (ext_trans _ _ _ _ _ X1 X2) as X.
  destruct (close_scope _ _ _ _ X (eq_trans E2 E1)) as [Y L]. exists (b1 ++ b2).
  split; [exact Y|]. intros top W Ht. exists b1, b2. split; [done|].
  pose proof (ext_le _ _ _ X2). split; [apply Q1; [done|le_chain]|].
  specialize (Q2 top (ext_wf _ _ _ X1 W) ltac:(le_chain)).
  rewrite E1, (ext_size _ _ _ X1), (ext_self _ _ _ X1) in Q2.
  unfold inner. cbn. by rewrite list_fmap_compose in Q2.
Qed.

Definition let_at (pl : place) (pos : nat) (args : list sexp) (bs : list Z) : Prop :=
  match args with
  | CExpr bindings :: body => ∃ ps, parse_bindings bindings = Some ps ∧ scope_at pl pos ps body bs
  | _ => False
  end.

Lemma compileLet_lays args tl c c' : (list_size args < N)%nat →
  compileLet comp args tl c = Ok c' → failed c' = false →
  lays c c' (λ pl pos bs, let_at pl pos args bs).
Proof.
  intros Hs H F. destruct args as [|[| | | | | | | | |bindings| |] body];
    try (injection H as <-; discriminate F).
  rewrite list_size_cons, sexp_size_expr in Hs. cbn [compileLet] in H.
  apply bind_ok_inv in H as ([c1|c1] & H1 & H).
  2:{ injection H as <-. apply compileBindings_inr in H1. congruence. }
  assert (O : failed c1 = false → ∃ ps, parse_bindings bindings = Some ps ∧ opens c c1 ps).
  { intros F1. eapply compileBindings_opens; [lia|done|done]. }
  assert (F1 : failed c1 = false).
  { unfold compileLetBody in H. apply bind_ok_inv in H as (c2 & H2 & [= <-]).
    eapply lays_failed, compileBegin_lays; [|done|done]. lia. }
  destruct (O F1) as (ps & Hp & Op).
  destruct (compileLetBody_lays body tl c c1 c' ps ltac:(lia) ltac:(done) H F) as (bs & X & Q).
  exists bs. split; [done|]. intros top W Ht. exists ps. split; [done|by apply Q].
Qed.

Lemma compileVars_opens vs : ∀ c c', compileVars vs c = inl c' → failed c' = false →
  ∃ ps, parse_vars vs = Some ps ∧ opens c c' ps.
Proof.
  induction vs as [|v vs IHv]; intros c c' H F; cbn [compileVars] in H.
  { injection H as <-. exists []. split; [done|by apply opens_nil]. }
  destruct v as [| | | | |s| | | | | |]; try done.
  destruct (addLocal (Some s) c) as [c1 slot] eqn:HA. apply IHv in H as (ps & Hp & O); [|done].
  exists ((s, None) :: ps). cbn. rewrite Hp. split; [done|].
  eapply opens_cons; [exact HA| |reflexivity|exact O]. apply nil_lays.
Qed.

Lemma compileVars_inr vs : ∀ c c', compileVars vs c = inr c' → failed c' = true.
Proof.
  induction vs as [|v vs IHv]; intros c c' H; cbn [compileVars] in H; [done|].
  destruct v; try (by injection H as <-). destruct (addLocal _ _). by eapply IHv.
Qed.

Definition local_at (pl : place) (pos : nat) (args : list sexp) (bs : list Z) : Prop :=
  match args with
  | CExpr vars :: body => ∃ ps, parse_vars vars = Some ps ∧ scope_at pl pos ps body bs
  | _ => False
  end.

Lemma compileLocal_lays args tl c c' : (list_size args < N)%nat →
  compileLocal comp args tl c = Ok c' → failed c' = false →
  lays c c' (λ pl pos bs, local_at pl pos args bs).
Proof.
  intros Hs H F. destruct args as [|[| | | | | | | | |vars| |] body];
    try (injection H as <-; discriminate F).
  rewrite list_size_cons, sexp_size_expr in Hs. cbn [compileLocal] in H.
  destruct (compileVars vars c) as [c1|c1] eqn:H1.
  2:{ injection H as <-. apply compileVars_inr in H1. congruence. }
  assert (F1 : failed c1 = false).
  { unfold compileLetBody in H. apply bind_ok_inv in H as (c2 & H2 & [= <-]).
    eapply lays_failed, compileBegin_lays; [|done|done]. lia. }
  destruct (compileVars_opens _ _ _ H1 F1) as (ps & Hp & Op).
  destruct (compileLetBody_lays body tl c c1 c' ps ltac:(lia) ltac:(done) H F) as (bs & X & Q).
  exists bs. split; [done|]. intros top W Ht. exists ps. split; [done|by apply Q].
Qed.

(** *** Symbols and assignments *)

Definition global_at (pl : place) (op : opcode) (s : sym) (bs : list Z) : Prop :=
  ∃ i, bs = op16 op (uint16 (Z.of_nat i)) ∧ symbols (pl_top pl) !! i = Some s.

Definition store_at (pl : place) (s : sym) (bs : list Z) : Prop :=
  match findLocal_in (pl_locals pl) s 0 with
  | Some k => bs = store_code k
  | None => global_at pl OP_STORE_GLOBAL s bs
  end.

Lemma emitSymOp_lays op s c : failed (emitSymOp op s c) = false →
  lays c (emitSymOp op s c) (λ pl pos bs, global_at pl op s bs).
Proof.
  rewrite emitSymOp_failed. intros F. destruct (emitSymOp_emits op s c F) as (i & X & Hi & _).
  eexists. split; [exact X|]. intros top W [_ P _]. exists i. split; [done|].
  by eapply prefix_lookup_Some.
Qed.

Lemma emitStore_lays s c c0 : locals c = locals c0 → failed (emitStore (findLocal c0 s) s c) = false →
  lays c (emitStore (findLocal c0 s) s c) (λ pl pos bs, store_at pl s bs).
Proof.
  intros E F. unfold emitStore, findLocal, store_at in *. rewrite <- E in *.
  destruct (findLocal_in (locals c) s 0) as [k|] eqn:Ef.
  - rewrite emitStoreLocal_failed in F. exists (store_code k).
    split; [by apply emitStoreLocal_emits|]. intros. cbn. by rewrite Ef.
  - destruct (emitSymOp_lays OP_STORE_GLOBAL s c F) as (bs & X & Q). exists bs.
    split; [done|]. intros. cbn. rewrite Ef. by apply Q.
Qed.

Fixpoint set_at (pl : place) (pos : nat) (is_setq : bool) (pairs : list sexp) (bs : list Z) : Prop :=
  match pairs with
  | [] => bs = []
  | p :: val :: rest =>
      ∃ s b w, assigned is_setq p = Some s ∧ compiled_at pl pos val b ∧ store_at pl s w ∧
        match rest with
        | [] => bs = b ++ op_byte OP_DUP :: w
        | _ => ∃ r, bs = b ++ op_byte OP_DUP :: w ++ op_byte OP_POP :: r ∧
                    set_at pl (pos + length b + 1 + length w + 1) is_setq rest r
        end
  | _ => False
  end.

Lemma compileSetPairs_lays is_setq pairs : ∀ c c', (list_size pairs < N)%nat →
  compileSetPairs comp is_setq pairs c = Ok c' → failed c' = false →
  lays c c' (λ pl pos bs, set_at pl pos is_setq pairs bs).
Proof.
  induction pairs as [pairs IHn] using (induction_ltof1 _ (@length sexp)); unfold ltof in IHn.
  intros c c' Hs H F. destruct pairs as [|p rest].
  { injection H as <-. exists []. split; [by apply emits_refl|done]. }
  destruct rest as [|val rest]; cbn [compileSetPairs] in H.
  { destruct (assigned is_setq p); injection H as <-; discriminate F. }
  rewrite !list_size_cons in Hs. destruct (assigned is_setq p) as [s|] eqn:Ep;
    [|injection H as <-; discriminate F].
  apply bind_ok_inv in H as (c1 & H1 & H).
  set (c3 := emitStore (findLocal c s) s (emitOp OP_DUP c1)) in *.
  assert (L : lays (match rest with [] => c3 | _ => emitOp OP_POP c3 end) c'
                (λ pl pos bs, set_at pl pos is_setq rest bs)).
  { apply IHn; [simpl; lia|lia|done|done]. }
  pose proof (lays_failed _ _ _ L) as F3.
  assert (F3' : failed c3 = false) by (destruct rest; [done|by rewrite emitOp_failed in F3]).
  assert (F1 : failed c1 = false).
  { subst c3. unfold emitStore in F3'. destruct (findLocal c s).
    - by rewrite emitStoreLocal_failed, emitOp_failed in F3'.
    - change (failed (emitSymOp OP_STORE_GLOBAL s (emitOp OP_DUP c1)) = false) in F3'.
      by rewrite emitSymOp_failed, emitOp_failed in F3'. }
  destruct (rec_lays val _ _ _ ltac:(lia) H1 F1) as (b & X1 & Q1).
  pose proof (op_step _ _ _ OP_DUP X1) as X2.
  destruct (lays_step _ _ _ _ _ (emitStore_lays s _ c (emits_locals _ _ _ X2) F3') X2)
    as (w & X3 & Q3). fold c3 in X3, Q3.
  pose proof (le_emitByte (op_byte OP_DUP) c1) as L12.
  destruct (emitStore_lays s _ c (emits_locals _ _ _ X2) F3') as (? & L23 & _).
  apply emits_le in L23. fold c3 in L23.
  destruct rest as [|p2 rest].
  - destruct L as (r & X4 & Q4). exists (b ++ op_byte OP_DUP :: w).
    assert (c' = c3) as -> by (by injection H as <-).
    split; [by rewrite <- app_assoc in X3|]. intros top W Ht. exists s, b, w.
    split; [done|]. split; [apply Q1; [done|]|by split; [apply Q3|]].
    etransitivity; [exact L12|]. by etransitivity.
  - destruct (lays_step _ _ _ _ _ L (op_step _ _ _ OP_POP X3)) as (r & X4 & Q4).
    rewrite <- !app_assoc in X4. simpl in X4.
    exists (b ++ op_byte OP_DUP :: w ++ op_byte OP_POP :: r). split; [exact X4|].
    intros top W Ht. exists s, b, w. split; [done|]. apply lays_le in L.
    assert (L3 : le c3 top).
    { transitivity (emitOp OP_POP c3); [apply le_emitByte|]. by etransitivity. }
    split; [apply Q1; [done|]|split; [by apply Q3|]].
    { etransitivity; [exact L12|]. by etransitivity. }
    exists r. split; [done|]. specialize (Q4 top W Ht). cbn beta in Q4.
    replace (code_size c + length b + 1 + length w + 1)%nat
      with (code_size c + length (((b ++ [op_byte OP_DUP]) ++ w) ++ [op_byte OP_POP]))%nat
      by (rewrite !length_app; simpl; lia).
    exact Q4.
Qed.

Lemma compileSet_lays is_setq args c c' : (list_size args < N)%nat →
  compileSet comp is_setq args c = Ok c' → failed c' = false →
  lays c c' (λ pl pos bs, args ≠ [] ∧ set_at pl pos is_setq args bs).
Proof.
  intros Hs H F. destruct args as [|p args]; [injection H as <-; discriminate F|].
  destruct (compileSetPairs_lays is_setq (p :: args) c c' Hs H F) as (bs & X & Q).
  exists bs. split; [done|]. split; [done|by apply Q].
Qed.

(** A step without a layout of its own. *)
Definition plain_lays (c c' : Compiler) : Prop := ∃ bs, emits c c' bs.

Lemma lays_plain c c' Q : lays c c' Q → plain_lays c c'.
Proof. intros (bs & X & _). by exists bs. Qed.

Lemma plain_trans c1 c2 c3 : plain_lays c1 c2 → plain_lays c2 c3 → plain_lays c1 c3.
Proof. intros (a & X) (b & Y). exists (a ++ b). by eapply emits_trans. Qed.

Lemma plain_op op c : failed c = false → plain_lays c (emitOp op c).
Proof. intros. eexists. by apply emitOp_emits. Qed.

Lemma plain_load slot c : failed c = false → plain_lays c (emitLoadLocal slot c).
Proof. intros. eexists. by apply emitLoadLocal_emits. Qed.

Lemma plain_store slot c : failed c = false → plain_lays c (emitStoreLocal slot c).
Proof. intros. eexists. by apply emitStoreLocal_emits. Qed.

Lemma compileDelta_plain is_inc delta c c' : (list_size delta < N)%nat →
  compileDelta comp is_inc delta c = Ok c' → failed c' = false →
  failed c = false ∧ plain_lays c c'.
Proof.
  intros Hs H F. destruct delta as [|d delta]; cbn [compileDelta] in H.
  - injection H as <-. rewrite emitOp_failed in F. split; [done|by apply plain_op].
  - rewrite list_size_cons in Hs. apply bind_ok_inv in H as (c1 & H1 & [= <-]).
    rewrite emitOp_failed in F. pose proof (rec_lays d _ _ _ ltac:(lia) H1 F) as L.
    split; [by eapply lays_failed|]. eapply plain_trans; [by eapply lays_plain|by apply plain_op].
Qed.

Lemma compileIncDec_plain is_inc args c c' : (list_size args < N)%nat →
  compileIncDec comp is_inc args c = Ok c' → failed c' = false → plain_lays c c'.
Proof.
  intros Hs H F.
  assert (HA : ∀ s delta, (list_size delta < N)%nat →
    compileIncDecAt comp is_inc s delta c = Ok c' → plain_lays c c').
  { clear Hs H. intros s delta Hs H. unfold compileIncDecAt in H.
    destruct (findLocal c s) as [slot|].
    - apply bind_ok_inv in H as (c1 & H1 & [= <-]).
      rewrite emitStoreLocal_failed, emitOp_failed in F.
      apply compileDelta_plain in H1 as [F1 P]; [|done|done]. rewrite emitLoadLocal_failed in F1.
      eapply plain_trans; [by apply plain_load|]. eapply plain_trans; [exact P|].
      eapply plain_trans; [by apply plain_op|]. apply plain_store. by rewrite emitOp_failed.
    - destruct (failed c) eqn:F0.
      { unfold addSymbol in H. rewrite F0 in H. apply bind_ok_inv in H as (c1 & H1 & [= <-]).
        rewrite emitOp16_failed, emitOp_failed in F.
        apply compileDelta_plain in H1 as [F1 P]; [|done|done].
        rewrite emitOp16_failed in F1. congruence. }
      destruct (emitSymOp_emits OP_LOAD_GLOBAL s c F0) as (i & X & _ & E).
      unfold emitSymOp in X. rewrite E in H, X.
      apply bind_ok_inv in H as (c1 & H1 & [= <-]).
      rewrite emitOp16_failed, emitOp_failed in F.
      apply compileDelta_plain in H1 as [F1 P]; [|done|done].
      eapply plain_trans; [by eexists|]. eapply plain_trans; [exact P|].
      eapply plain_trans; [by apply plain_op|]. eexists. apply emitOp16_emits.
      by rewrite emitOp_failed. }
  destruct args as [|[| | | | |s| | |[| | | | |s| | | | | |]| | |] delta];
    try (injection H as <-; discriminate F); rewrite list_size_cons in Hs;
    (eapply HA; [|exact H]; lia).
Qed.

Lemma compileDotimes_plain args c c' : (list_size args < N)%nat →
  compileDotimes comp args c = Ok c' → failed c' = false → plain_lays c c'.
Proof.
  intros Hs H F.
  destruct args as [|[| | | | | | | | |[|[| | | | |var_sym| | | | | |] [|count_expr rest]]| |] body];
    try (injection H as <-; discriminate F).
  rewrite list_size_cons, sexp_size_expr, !list_size_cons in Hs. cbn [compileDotimes] in H.
  destruct (addLocal None c) as [c1 count_slot] eqn:A1. apply bind_ok_inv in H as (c2 & H2 & H).
  destruct (addLocal (Some var_sym) (emitStoreLocal count_slot c2)) as [c3 var_slot] eqn:A3.
  set (c4 := emitStoreLocal var_slot (emitOp OP_CONST_0 c3)) in *.
  set (c5 := emitOp OP_LT (emitLoadLocal count_slot (emitLoadLocal var_slot c4))) in *.
  destruct (emitJump OP_JUMP_IF_NIL c5) as [c6 exit_jump] eqn:J1.
  apply bind_ok_inv in H as (c7 & H7 & H).
  set (c8 := emitStoreLocal var_slot (emitOp OP_ADD_1 (emitLoadLocal var_slot c7))) in *.
  destruct (emitJump OP_JUMP c8) as [c9 back_jump] eqn:J2.
  apply bind_ok_inv in H as (c10 & H10 & H). apply bind_ok_inv in H as (c11 & H11 & [= <-]).
  change (failed (emitOp OP_NIL c11) = false) in F.
  rewrite emitOp_failed, (patchJump_failed _ _ _ H11), (patchBack_failed _ _ _ _ H10),
    (emitJump_failed _ _ _ _ J2) in F.
  subst c8. rewrite emitStoreLocal_failed, emitOp_failed, emitLoadLocal_failed in F.
  assert (L7 : plain_lays c6 c7).
  { destruct body as [|e body].
    - injection H7 as <-. rewrite !emitOp_failed in F.
      eapply plain_trans; apply plain_op; by rewrite ?emitOp_failed.
    - eapply lays_plain, compileLoopBody_lays; [|done|done]. lia. }
  assert (F5 : failed c5 = false).
  { destruct L7 as (? & L7). apply emits_failed in L7.
    by rewrite (emitJump_failed _ _ _ _ J1) in L7. }
  assert (F4 : failed c4 = false).
  { subst c5. by rewrite emitOp_failed, !emitLoadLocal_failed in F5. }
  assert (F3 : failed c3 = false) by (subst c4; by rewrite emitStoreLocal_failed, emitOp_failed in F4).
  destruct (addLocal_ext _ _ _ _ A3 F3) as (X3 & E3 & _).
  pose proof (ext_failed _ _ _ X3) as F2. rewrite emitStoreLocal_failed in F2.
  destruct (rec_lays count_expr _ _ _ ltac:(lia) H2 F2) as (b2 & X2 & _).
  pose proof (emits_failed _ _ _ X2) as F1. destruct (addLocal_ext _ _ _ _ A1 F1) as (X1 & E1 & _).
  (* the loop from c4 *)
  assert (X5 : plain_lays c4 c5).
  { subst c5. eapply plain_trans; [by apply plain_load|].
    eapply plain_trans; [apply plain_load; by rewrite emitLoadLocal_failed|].
    apply plain_op. by rewrite !emitLoadLocal_failed. }
  assert (X8 : plain_lays c6 (emitStoreLocal var_slot (emitOp OP_ADD_1 (emitLoadLocal var_slot c7)))).
  { eapply plain_trans; [exact L7|]. eapply plain_trans; [by apply plain_load|].
    eapply plain_trans; [apply plain_op; by rewrite emitLoadLocal_failed|].
    apply plain_store. by rewrite emitOp_failed, emitLoadLocal_failed. }
  destruct X5 as (b5 & X5). destruct X8 as (b8 & X8).
  destruct (loop_end _ _ _ _ _ _ _ _ _ _ _ X5 J1 X8 J2 H10 H11) as ([X E] & _ & _).
  (* the whole form *)
  destruct X2 as [X2 E2]. destruct (emitStoreLocal_emits count_slot c2 F2) as [XS ES].
  assert (X4 : emits c3 c4 ([op_byte OP_CONST_0] ++ store_code var_slot)).
  { eapply emits_trans; [by apply emitOp_emits|]. apply emitStoreLocal_emits. by rewrite emitOp_failed. }
  destruct X4 as [X4 E4].
  pose proof (ext_trans _ _ _ _ _ X1 (ext_trans _ _ _ _ _ X2 (ext_trans _ _ _ _ _ XS
    (ext_trans _ _ _ _ _ X3 (ext_trans _ _ _ _ _ X4 X))))) as Y.
  assert (EL : locals (emitOp OP_NIL c11) = locals c ++ [None; Some var_sym]).
  { by rewrite E, E4, E3, ES, E2, E1, <- app_assoc. }
  eexists. eapply (close_scope _ _ _ _ Y EL).
Qed.

(** *** Operators and calls *)

(** One operand and an instruction. *)
Definition unary_at (pl : place) (pos : nat) (a : sexp) (op : opcode) (bs : list Z) : Prop :=
  ∃ b, bs = b ++ [op_byte op] ∧ compiled_at pl pos a b.

Lemma unary_lays a op c c1 : (sexp_size a < N)%nat → comp c a false = Ok c1 →
  failed (emitOp op c1) = false →
  lays c (emitOp op c1) (λ pl pos bs, unary_at pl pos a op bs).
Proof.
  intros Hs H F. rewrite emitOp_failed in F. destruct (rec_lays a _ _ _ Hs H F) as (b & X & Q).
  exists (b ++ [op_byte op]). split; [by apply op_step|]. intros top W Ht. exists b.
  split; [done|]. apply Q; [done|le_chain].
Qed.

Definition compare_at (pl : place) (pos : nat) (op : opcode) (args : list sexp) (bs : list Z) : Prop :=
  ∃ a1 a2 b1 b2, args = [a1; a2] ∧ bs = b1 ++ b2 ++ [op_byte op] ∧
    compiled_at pl pos a1 b1 ∧ compiled_at pl (pos + length b1) a2 b2.

Lemma compileComparison_lays op args c c' : (list_size args < N)%nat →
  compileComparison comp op args c = Ok c' → failed c' = false →
  lays c c' (λ pl pos bs, compare_at pl pos op args bs).
Proof.
  intros Hs H F. destruct args as [|a1 [|a2 [|]]]; try (injection H as <-; discriminate F).
  rewrite !list_size_cons in Hs. cbn [compileComparison] in H.
  apply bind_ok_inv in H as (c1 & H1 & H). apply bind_ok_inv in H as (c2 & H2 & [= <-]).
  pose proof (unary_lays a2 op _ _ ltac:(lia) H2 F) as L. pose proof (lays_failed _ _ _ L) as F1.
  destruct (rec_lays a1 _ _ _ ltac:(lia) H1 F1) as (b1 & X1 & Q1).
  destruct (lays_step _ _ _ _ _ L X1) as (bs & X2 & Q2). exists (b1 ++ bs). split; [done|].
  intros top W Ht. destruct (Q2 top W Ht) as (b2 & -> & Q2'). exists a1, a2, b1, b2.
  split; [done|]. split; [done|]. split; [apply Q1; [done|le_chain]|done].
Qed.

Fixpoint operands_at (pl : place) (pos : nat) (op : opcode) (args : list sexp) (bs : list Z) : Prop :=
  match args with
  | [] => bs = []
  | a :: rest => ∃ b r, bs = b ++ op_byte op :: r ∧ compiled_at pl pos a b ∧
                        operands_at pl (pos + length b + 1) op rest r
  end.

Lemma compileOperands_lays op args : ∀ c c', (list_size args < N)%nat →
  compileOperands comp op args c = Ok c' → failed c' = false →
  lays c c' (λ pl pos bs, operands_at pl pos op args bs).
Proof.
  induction args as [|a rest IHa]; intros c c' Hs H F.
  { injection H as <-. exists []. split; [by apply emits_refl|done]. }
  rewrite list_size_cons in Hs. cbn [compileOperands] in H. apply bind_ok_inv in H as (c1 & H1 & H).
  apply IHa in H as L; [|lia|done]. pose proof (lays_failed _ _ _ L) as F1.
  destruct (unary_lays a op _ _ ltac:(lia) H1 F1) as (b1 & X1 & Q1).
  destruct (lays_step _ _ _ _ _ L X1) as (r & X2 & Q2). exists (b1 ++ r). split; [done|].
  intros top W Ht. destruct (Q1 top W ltac:(le_chain)) as (b & -> & Q). exists b, r.
  split; [by rewrite <- app_assoc|]. split; [done|]. specialize (Q2 top W Ht).
  rewrite length_app, Nat.add_assoc in Q2. exact Q2.
Qed.

Definition chain_at (pl : place) (pos : nat) (op : opcode) (args : list sexp) (bs : list Z) : Prop :=
  ∃ a rest b r, args = a :: rest ∧ bs = b ++ r ∧ compiled_at pl pos a b ∧
    operands_at pl (pos + length b) op rest r.

Lemma compileChain_lays op args c c' : (list_size args < N)%nat → args ≠ [] →
  compileChain comp op args c = Ok c' → failed c' = false →
  lays c c' (λ pl pos bs, chain_at pl pos op args bs).
Proof.
  intros Hs Hne H F. destruct args as [|a rest]; [done|]. rewrite list_size_cons in Hs.
  cbn [compileChain] in H. apply bind_ok_inv in H as (c1 & H1 & H).
  pose proof (compileOperands_lays op rest _ _ ltac:(lia) H F) as L.
  destruct (rec_lays a _ _ _ ltac:(lia) H1 (lays_failed _ _ _ L)) as (b1 & X1 & Q1).
  destruct (lays_step _ _ _ _ _ L X1) as (r & X2 & Q2). exists (b1 ++ r). split; [done|].
  intros top W Ht. exists a, rest, b1, r. split; [done|]. split; [done|].
  split; [apply Q1; [done|le_chain]|by apply Q2].
Qed.

(** The immediate forms of [+] and [-]. *)
Definition add_at (pl : place) (pos : nat) (args : list sexp) (bs : list Z) : Prop :=
  match args with
  | [] => bs = [op_byte OP_CONST_0]
  | [a; b] =>
      if is_long b 1 then unary_at pl pos a OP_ADD_1 bs
      else if is_long a 1 then unary_at pl pos b OP_ADD_1 bs
      else chain_at pl pos OP_ADD args bs
  | _ => chain_at pl pos OP_ADD args bs
  end.

Definition sub_at (pl : place) (pos : nat) (args : list sexp) (bs : list Z) : Prop :=
  match args with
  | [] => False
  | [a] => unary_at pl pos a OP_NEG bs
  | [a; b] =>
      if is_long b 1 then unary_at pl pos a OP_SUB_1 bs
      else if is_long b 2 then unary_at pl pos a OP_SUB_2 bs
      else chain_at pl pos OP_SUB args bs
  | _ => chain_at pl pos OP_SUB args bs
  end.

Definition mul_at (pl : place) (pos : nat) (args : list sexp) (bs : list Z) : Prop :=
  match args with
  | [] => bs = [op_byte OP_CONST_1]
  | _ => chain_at pl pos OP_MUL args bs
  end.

Definition div_at (pl : place) (pos : nat) (args : list sexp) (bs : list Z) : Prop :=
  (2 ≤ length args)%nat ∧ chain_at pl pos OP_DIV args bs.

(** A fixed instruction. *)
Lemma op_lays op c : failed (emitOp op c) = false →
  lays c (emitOp op c) (λ pl pos bs, bs = [op_byte op]).
Proof.
  rewrite emitOp_failed. intros F. exists [op_byte op]. split; [by apply emitOp_emits|done].
Qed.

Lemma lays_mono c c' (Q Q' : place → nat → list Z → Prop) :
  (∀ pl pos bs, Q pl pos bs → Q' pl pos bs) → lays c c' Q → lays c c' Q'.
Proof. intros HQ (bs & X & H). exists bs. split; [done|]. intros. by apply HQ, H. Qed.

Ltac unary_case H F :=
  apply bind_ok_inv in H as (? & ? & [= <-]); eapply unary_lays; [lia|eassumption|exact F].

Lemma compileAdd_lays args c c' : (list_size args < N)%nat →
  compileAdd comp args c = Ok c' → failed c' = false →
  lays c c' (λ pl pos bs, add_at pl pos args bs).
Proof.
  intros Hs H F. destruct args as [|a [|b [|]]].
  - injection H as <-. by apply op_lays.
  - by apply compileChain_lays.
  - unfold compileAdd, add_at in *. destruct (is_long b 1); [|destruct (is_long a 1)].
    1,2: rewrite !list_size_cons in Hs; unary_case H F.
    by apply compileChain_lays.
  - by apply compileChain_lays.
Qed.

Lemma compileSub_lays args c c' : (list_size args < N)%nat →
  compileSub comp args c = Ok c' → failed c' = false →
  lays c c' (λ pl pos bs, sub_at pl pos args bs).
Proof.
  intros Hs H F. destruct args as [|a [|b [|]]].
  - injection H as <-. discriminate F.
  - unfold compileSub, sub_at in *. rewrite list_size_cons in Hs. unary_case H F.
  - unfold compileSub, sub_at in *. destruct (is_long b 1); [|destruct (is_long b 2)].
    1,2: rewrite !list_size_cons in Hs; unary_case H F.
    by apply compileChain_lays.
  - by apply compileChain_lays.
Qed.

Lemma compileMul_lays args c c' : (list_size args < N)%nat →
  compileMul comp args c = Ok c' → failed c' = false →
  lays c c' (λ pl pos bs, mul_at pl pos args bs).
Proof.
  intros Hs H F. destruct args as [|a args].
  - injection H as <-. by apply op_lays.
  - by apply compileChain_lays.
Qed.

Lemma compileDiv_lays args c c' : (list_size args < N)%nat →
  compileDiv comp args c = Ok c' → failed c' = false →
  lays c c' (λ pl pos bs, div_at pl pos args bs).
Proof.
  intros Hs H F. destruct args as [|a [|b args]]; try (injection H as <-; discriminate F).
  eapply lays_mono; [|by apply compileChain_lays]. intros pl pos bs Q. split; [simpl; lia|exact Q].
Qed.

Lemma compileArgs_plain args : ∀ c c', (list_size args < N)%nat →
  compileArgs comp args c = Ok c' → failed c' = false → plain_lays c c'.
Proof.
  induction args as [|a rest IHa]; intros c c' Hs H F.
  { injection H as <-. exists []. by apply emits_refl. }
  rewrite list_size_cons in Hs. cbn [compileArgs] in H. apply bind_ok_inv in H as (c1 & H1 & H).
  apply IHa in H as P; [|lia|done]. eapply plain_trans; [|exact P].
  destruct P as (? & P). apply emits_failed in P.
  eapply lays_plain, rec_lays; [|done|done]. lia.
Qed.

Lemma compileCall_plain op tail_op args tl c c' : (list_size args < N)%nat →
  compileCall comp op tail_op args tl c = Ok c' → failed c' = false → plain_lays c c'.
Proof.
  intros Hs H F. unfold compileCall in H. apply bind_ok_inv in H as (c1 & H1 & [= <-]).
  rewrite emitByte_failed, emitOp_failed in F.
  eapply plain_trans; [by eapply compileArgs_plain|]. eapply plain_trans; [by apply plain_op|].
  eexists. apply emitByte_emits; [by rewrite emitOp_failed|].
  apply (wrapU_range 8). lia.
Qed.

Lemma compileGeneral_plain head args tl c c' : (sexp_size head + list_size args < N)%nat →
  compileGeneral comp head args tl c = Ok c' → failed c' = false → plain_lays c c'.
Proof.
  intros Hs H F. unfold compileGeneral in H. apply bind_ok_inv in H as (c1 & H1 & H).
  apply compileCall_plain in H as P; [|lia|done]. eapply plain_trans; [|exact P].
  destruct P as (? & P). apply emits_failed in P.
  eapply lays_plain, rec_lays; [|done|done]. lia.
Qed.

(** *** Symbols and constants *)

Definition symbol_at (pl : place) (s : sym) (bs : list Z) : Prop :=
  match findLocal_in (pl_locals pl) s 0 with
  | Some k => bs = load_code k
  | None =>
      if match pl_self pl with Some t => Nat.eqb s t | None => false end
         || String.eqb (sym_name (st s)) "self"
      then bs = [op_byte OP_LOAD_SELF]
      else global_at pl OP_LOAD_GLOBAL s bs
  end.

Lemma compileSymbol_lays s c : failed (compileSymbol st s c) = false →
  lays c (compileSymbol st s c) (λ pl pos bs, symbol_at pl s bs).
Proof.
  unfold compileSymbol, findLocal, symbol_at, is_self. intros F.
  destruct (findLocal_in (locals c) s 0) as [k|] eqn:E.
  - rewrite emitLoadLocal_failed in F. exists (load_code k).
    split; [by apply emitLoadLocal_emits|]. intros. cbn. by rewrite E.
  - destruct (_ || _) eqn:E2.
    + destruct (op_lays _ _ F) as (bs & X & Q). exists bs. split; [done|].
      intros. cbn. rewrite E, E2. by eapply Q.
    + destruct (emitSymOp_lays _ _ _ F) as (bs & X & Q). exists bs. split; [done|].
      intros. cbn. rewrite E, E2. by apply Q.
Qed.

Definition const_at (pl : place) (v : sexp) (bs : list Z) : Prop :=
  ∃ i k, bs = op16 OP_CONST (uint16 (Z.of_nat i)) ∧ constants (pl_top pl) !! i = Some k ∧
    (k = v ∨ compareCells st k v = 0).

Lemma compileConst_lays v c : failed (compileConst st v c) = false →
  lays c (compileConst st v c) (λ pl pos bs, const_at pl v bs).
Proof.
  intros F. destruct (compileConst_emits st v c F) as (i & k & X & Hk & Hc).
  eexists. split; [exact X|]. intros top W [P _ _]. exists i, k. split; [done|].
  split; [by eapply prefix_lookup_Some|done].
Qed.

(** *** compileExpr *)

Definition form_at (pl : place) (pos : nat) (name : string) (args : list sexp) (bs : list Z) : Prop :=
  if String.eqb name "if" then if_at pl pos args bs
  else if String.eqb name "when" then when_at pl pos args bs
  else if String.eqb name "cond" then cond_at pl pos args bs
  else if String.eqb name "and" then and_at pl pos args bs
  else if String.eqb name "or" then or_at pl pos args bs
  else if String.eqb name "begin" then begin_at pl pos args bs
  else if String.eqb name "while" then while_at pl pos args bs
  else if String.eqb name "let" then let_at pl pos args bs
  else if String.eqb name "local" then local_at pl pos args bs
  else if String.eqb name "dotimes" then True
  else if String.eqb name "setq" then args ≠ [] ∧ set_at pl pos true args bs
  else if String.eqb name "set" then args ≠ [] ∧ set_at pl pos false args bs
  else if String.eqb name "inc" then True
  else if String.eqb name "dec" then True
  else match comparison_op name with
  | Some op => compare_at pl pos op args bs
  | None =>
      if String.eqb name "+" then add_at pl pos args bs
      else if String.eqb name "-" then sub_at pl pos args bs
      else if String.eqb name "*" then mul_at pl pos args bs
      else if String.eqb name "/" then div_at pl pos args bs
      else True
  end.

Lemma plain_true c c' : plain_lays c c' → lays c c' (λ _ _ _, True).
Proof. intros (bs & X). by exists bs. Qed.

Lemma compileForm_lays hsym args tl c c' : (S (list_size args) < N)%nat →
  compileForm st comp (CSymbol hsym) hsym args tl c = Ok c' → failed c' = false →
  lays c c' (λ pl pos bs, form_at pl pos (sym_name (st hsym)) args bs).
Proof.
  intros Hs H F. unfold compileForm, form_at in *. set (name := sym_name (st hsym)) in *.
  destruct (String.eqb name "if"); [eapply compileIf_lays; [|done..]; lia|].
  destruct (String.eqb name "when"); [eapply compileWhen_lays; [|done..]; lia|].
  destruct (String.eqb name "cond"); [eapply compileCond_lays; [|done..]; lia|].
  destruct (String.eqb name "and"); [eapply compileAnd_lays; [|done..]; lia|].
  destruct (String.eqb name "or"); [eapply compileOr_lays; [|done..]; lia|].
  destruct (String.eqb name "begin"); [eapply compileBegin_lays; [|done..]; lia|].
  destruct (String.eqb name "while"); [eapply compileWhile_lays; [|done..]; lia|].
  destruct (String.eqb name "let"); [eapply compileLet_lays; [|done..]; lia|].
  destruct (String.eqb name "local"); [eapply compileLocal_lays; [|done..]; lia|].
  destruct (String.eqb name "dotimes"); [eapply plain_true, compileDotimes_plain; [|done..]; lia|].
  destruct (String.eqb name "setq"); [eapply compileSet_lays; [|done..]; lia|].
  destruct (String.eqb name "set"); [eapply compileSet_lays; [|done..]; lia|].
  destruct (String.eqb name "inc"); [eapply plain_true, compileIncDec_plain; [|done..]; lia|].
  destruct (String.eqb name "dec"); [eapply plain_true, compileIncDec_plain; [|done..]; lia|].
  destruct (comparison_op name); [eapply compileComparison_lays; [|done..]; lia|].
  destruct (String.eqb name "+"); [eapply compileAdd_lays; [|done..]; lia|].
  destruct (String.eqb name "-"); [eapply compileSub_lays; [|done..]; lia|].
  destruct (String.eqb name "*"); [eapply compileMul_lays; [|done..]; lia|].
  destruct (String.eqb name "/"); [eapply compileDiv_lays; [|done..]; lia|].
  apply plain_true. destruct (is_self st c hsym); [eapply compileCall_plain; [|done..]; lia|].
  destruct (isSpecialForm st hsym); [injection H as <-; discriminate F|].
  eapply compileGeneral_plain; [|done..]. simpl. lia.
Qed.

Definition expr_at (pl : place) (pos : nat) (e : sexp) (bs : list Z) : Prop :=
  match e with
  | CNil => bs = [op_byte OP_NIL]
  | CTrue => bs = [op_byte OP_TRUE]
  | CLong val =>
      if val =? 0 then bs = [op_byte OP_CONST_0]
      else if val =? 1 then bs = [op_byte OP_CONST_1]
      else if val =? 2 then bs = [op_byte OP_CONST_2]
      else const_at pl e bs
  | CFloat _ | CString _ => const_at pl e bs
  | CQuote v => const_at pl v bs
  | CSymbol s => symbol_at pl s bs
  | CExpr [] => bs = [op_byte OP_NIL]
  | CExpr (CSymbol hsym :: args) => form_at pl pos (sym_name (st hsym)) args bs
  | CExpr _ => True
  | _ => False
  end.

Lemma compileExpr_lays e c c' tl : (sexp_size e ≤ N)%nat →
  comp c e tl = Ok c' → failed c' = false → lays c c' (λ pl pos bs, expr_at pl pos e bs).
Proof.
  intros Hs H F. assert (F0 : failed c = false).
  { destruct (failed c) eqn:F0; [|done]. destruct e; cbn [compileExpr] in H; rewrite F0 in H;
      injection H as <-; rewrite emitOp_failed in F; congruence. }
  destruct e; cbn [compileExpr] in H; rewrite F0 in H; try (injection H as <-; discriminate F).
  - injection H as <-. by apply op_lays.
  - injection H as <-. by apply op_lays.
  - cbn [expr_at]. injection H as <-.
    destruct (z =? 0); [by apply op_lays|]. destruct (z =? 1); [by apply op_lays|].
    destruct (z =? 2); [by apply op_lays|]. by apply compileConst_lays.
  - injection H as <-. by apply compileConst_lays.
  - injection H as <-. by apply compileConst_lays.
  - injection H as <-. by apply compileSymbol_lays.
  - injection H as <-. by apply compileConst_lays.
  - destruct l as [|head args]; [injection H as <-; by apply op_lays|].
    rewrite sexp_size_expr, list_size_cons in Hs. pose proof (sexp_size_pos head).
    destruct head; try (apply plain_true; eapply compileGeneral_plain; [|done..]; lia).
    eapply compileForm_lays; [|done..]. simpl in Hs. lia.
Qed.

End Forms.

(** ** The contract of compileExpr *)

Lemma shaped_all st e : shaped st e.
Proof.
  induction e as [e IH] using (induction_ltof1 _ sexp_size); unfold ltof in IH.
  intros c c' tl H F.
  destruct (compileExpr_lays st (sexp_size e) IH e c c' tl ltac:(lia) H F) as (bs & X & _).
  by exists bs.
Qed.

(** Code compiled at a position has the layout of its expression. *)
Lemma compiled_expr_at st pl pos e b : compiled_at st pl pos e b → expr_at st pl pos e b.
Proof.
  intros (cs & ce & tl & H & X & <- & El & W & Es & L).
  pose proof (emits_failed' _ _ _ X) as F.
  destruct (compileExpr_lays st (S (sexp_size e)) (λ e _, shaped_all st e) e cs ce tl
    ltac:(lia) H F) as (b' & X' & Q).
  assert (b' = b) as ->.
  { apply (app_inv_head (code cs)). rewrite <- (ext_code _ _ _ (proj1 X)).
    by rewrite <- (ext_code _ _ _ (proj1 X')). }
  specialize (Q _ W L). rewrite El, Es in Q. by destruct pl.
Qed.
