(* ===== verification/Machine.v ===== *)
(** * The bytecode machine (src/nl-vm.c, [executeBytecode])

    The operand stack and the symbol contents hold pointers to cells: a [loc]
    indexes the [heap], where a cell is its content and the generation it was
    allocated in, or has been freed ([deleteList]).  Locations 0 and 1 are
    [nilCell] and [trueCell].  Freed cells are not handed out again, and reading
    one is [UB]; the nursery is never collected here.

    What the machine asks the tree walker for is the interface [Runtime]. *)

From stdpp Require Import base list numbers tactics strings gmap.
From Stdlib Require Import ZArith Lia.
From S2P Require Import Prelude Cell Arith Bytecode Compiler.

#[global] Open Scope Z_scope.

Abbreviation loc := nat.
Definition nilCell : loc := 0%nat.
Definition trueCell : loc := 1%nat.

(** [hc_val = None] is [CELL_FREE]; [hc_bc] is the bytecode object in the [aux]
    of a lambda cell. *)
Record hcell := HCell { hc_val : option sexp; hc_gen0 : bool; hc_bc : option nat }.

Abbreviation heap := (list hcell).

(** A [BYTECODE_OBJ] with its constants in the heap. *)
Record bcobj := BcObj {
  bo_code : list Z;
  bo_constants : list loc;
  bo_symbols : list sym;
  bo_num_params : nat;
  bo_num_locals : nat
}.

Record frame := Frame { f_bc : nat; f_ip : nat; f_fp : nat; f_argc : Z; f_self : loc }.

(** [vm_stack] is the part of the array below [vm_sp]; [vm_frames] lists the
    frames with the top one first. *)
Record vm := VM {
  vm_heap : heap;
  vm_stack : list loc;
  vm_stack_capacity : nat;
  vm_frames : list frame;
  vm_frames_capacity : nat;
  vm_globals : gmap sym loc;
  vm_bcs : list bcobj
}.

Definition vm_sp (m : vm) : nat := length (vm_stack m).
Definition vm_frame_count (m : vm) : nat := length (vm_frames m).

Definition set_heap (h : heap) (m : vm) : vm :=
  VM h (vm_stack m) (vm_stack_capacity m) (vm_frames m) (vm_frames_capacity m)
    (vm_globals m) (vm_bcs m).
Definition set_stack (s : list loc) (m : vm) : vm :=
  VM (vm_heap m) s (vm_stack_capacity m) (vm_frames m) (vm_frames_capacity m)
    (vm_globals m) (vm_bcs m).
Definition set_stack_cap (s : list loc) (cap : nat) (m : vm) : vm :=
  VM (vm_heap m) s cap (vm_frames m) (vm_frames_capacity m) (vm_globals m) (vm_bcs m).
Definition set_frames (fs : list frame) (cap : nat) (m : vm) : vm :=
  VM (vm_heap m) (vm_stack m) (vm_stack_capacity m) fs cap (vm_globals m) (vm_bcs m).
Definition set_globals (g : gmap sym loc) (m : vm) : vm :=
  VM (vm_heap m) (vm_stack m) (vm_stack_capacity m) (vm_frames m) (vm_frames_capacity m)
    g (vm_bcs m).
Definition set_bcs (b : list bcobj) (m : vm) : vm :=
  VM (vm_heap m) (vm_stack m) (vm_stack_capacity m) (vm_frames m) (vm_frames_capacity m)
    (vm_globals m) b.

(** The registers of the dispatch loop. *)
Record regs := Regs { r_ip : nat; r_bc : nat; r_self : loc; r_fp : nat }.

(** ** Cells *)

(** Reading a cell; a freed cell has no content any more. *)
Definition deref (l : loc) (m : vm) : result sexp :=
  c ← rd (vm_heap m) l;
  match hc_val c with Some v => Ok v | None => UB end.

(** [stuffInteger] and [copyCell] allocate in the nursery, [gcEvacuate] of a
    fresh copy moves it to the tenured heap. *)
Definition alloc (v : sexp) (gen0 : bool) (m : vm) : vm * loc :=
  (set_heap (vm_heap m ++ [HCell (Some v) gen0 None]) m, length (vm_heap m)).

Definition stuffInteger (z : Z) (m : vm) : vm * loc := alloc (CLong (int64 z)) true m.

(** The cells of the nursery that [deleteList] leaves untouched. *)
Definition kept_in_gen0 (v : sexp) : bool :=
  match v with CLong _ | CFloat _ | CNil | CTrue | CPrimitive _ => true | _ => false end.

Definition deleteCell (l : loc) (m : vm) : result vm :=
  if Nat.ltb l 2 then Ok m
  else
    c ← rd (vm_heap m) l;
    match hc_val c with
    | None => Ok m
    | Some v =>
        if hc_gen0 c && kept_in_gen0 v then Ok m
        else Ok (set_heap (<[l := HCell None (hc_gen0 c) None]> (vm_heap m)) m)
    end.

Definition bool_cell (b : bool) : loc := if b then trueCell else nilCell.

(** ** The operand stack *)

(** [VM_CHECK_STACK(1)] and a push. *)
Definition push (l : loc) (m : vm) : result vm :=
  let cap := if Nat.leb (vm_stack_capacity m) (vm_sp m + 1)
             then (vm_stack_capacity m * 2)%nat else vm_stack_capacity m in
  if Nat.ltb (vm_sp m) cap then Ok (set_stack_cap (vm_stack m ++ [l]) cap m) else UB.

(** [vm_stack[vm_sp++] = l] without the check. *)
Definition push_raw (l : loc) (m : vm) : result vm :=
  if Nat.ltb (vm_sp m) (vm_stack_capacity m)
  then Ok (set_stack (vm_stack m ++ [l]) m) else UB.

Definition pop (m : vm) : result (loc * vm) :=
  match last (vm_stack m) with
  | Some l => Ok (l, set_stack (take (vm_sp m - 1) (vm_stack m)) m)
  | None => UB
  end.

Definition top (m : vm) : result loc :=
  match last (vm_stack m) with Some l => Ok l | None => UB end.

(** [vm_stack[vm_sp - 1] = l]. *)
Definition set_top (l : loc) (m : vm) : result vm :=
  '(_, m) ← pop m; push_raw l m.

Fixpoint push_nils (n : nat) (m : vm) : result vm :=
  match n with
  | O => Ok m
  | S n' => m ← push nilCell m; push_nils n' m
  end.

(** [VM_CHECK_FRAMES] and a new frame. *)
Definition push_frame (f : frame) (m : vm) : result vm :=
  let cap := if Nat.leb (vm_frames_capacity m) (vm_frame_count m)
             then (vm_frames_capacity m * 2)%nat else vm_frames_capacity m in
  if Nat.ltb (vm_frame_count m) cap then Ok (set_frames (f :: vm_frames m) cap m) else UB.

(** [vm_frames[vm_frame_count - 1].ip = ip]. *)
Definition save_ip (ip : nat) (m : vm) : result vm :=
  match vm_frames m with
  | f :: fs => Ok (set_frames (Frame (f_bc f) ip (f_fp f) (f_argc f) (f_self f) :: fs)
                              (vm_frames_capacity m) m)
  | [] => UB
  end.

(** The loop [while (call_argc < num_params) { push nil; call_argc++; }] with its
    [uint8_t] counter: a counter that cannot reach [num_params] never ends. *)
Definition pad_params (call_argc num_params : nat) (m : vm) : result (vm * nat) :=
  if Nat.leb num_params call_argc then Ok (m, call_argc)
  else if Nat.leb num_params 255 then
    m ← push_nils (num_params - call_argc) m; Ok (m, num_params)
  else NoFuel.

(** ** Calls out of the machine *)

Class Runtime := {
  (** [evaluateExpression] on the copy of an operand that [arithmetikOp] makes
      when the operand is a cell that does not evaluate to itself. *)
  rt_eval : sexp → vm → result (sexp * vm);
  (** A callee that is not a compiled lambda, with the cells of its arguments. *)
  rt_call : loc → list loc → vm → result (vm * loc)
}.

Section Step.
Context `{Runtime}.
Variable st : symtab.

Definition bc_of (i : nat) (m : vm) : result bcobj := rd (vm_bcs m) i.

(** ** Arithmetic and comparison *)

(** The operator of nl-math.c behind an opcode. *)
Definition arith_of (op : opcode) : arith :=
  match op with
  | OP_ADD | OP_ADD_1 => A_ADD
  | OP_MUL => A_MULTIPLY
  | OP_DIV => A_DIVIDE
  | OP_MOD => A_MODULO
  | _ => A_SUBTRACT
  end.

(** [evaluateExpression] on the copy of an operand. *)
Definition eval_operand (v : sexp) (m : vm) : result (sexp * vm) :=
  if Z.land (cell_type v) EVAL_SELF_TYPE_MASK =? 0 then rt_eval v m else Ok (v, m).

(** [p_add], [p_subtract], ... on the copies of the operands; the result is a
    new cell. *)
Definition slow_arith (op : opcode) (vs : list sexp) (m : vm) : result (vm * loc) :=
  '(v, m) ← arithmetikOp eval_operand (arith_of op) vs m;
  Ok (alloc v true m).

(** The branch for two integers: C arithmetic, then [stuffInteger]. *)
Definition long_op (op : opcode) (a b : Z) : result Z :=
  match op with
  | OP_ADD => Ok (int64 (a + b))
  | OP_SUB => Ok (int64 (a - b))
  | OP_MUL => Ok (int64 (a * b))
  | OP_DIV => if b =? 0 then Fail ERR_MATH
              else if (a =? INT64_MIN) && (b =? -1) then UB else Ok (Z.quot a b)
  | OP_MOD => if b =? 0 then Fail ERR_MATH
              else if (a =? INT64_MIN) && (b =? -1) then UB else Ok (Z.rem a b)
  | _ => UB
  end.

(** [OP_ADD], [OP_SUB], [OP_MUL], [OP_DIV], [OP_MOD]. *)
Definition exec_arith (op : opcode) (m : vm) : result vm :=
  '(b, m) ← pop m;
  '(a, m) ← pop m;
  va ← deref a m;
  vb ← deref b m;
  match va, vb with
  | CLong x, CLong y =>
      z ← long_op op x y;
      let '(m, l) := stuffInteger z m in push_raw l m
  | _, _ => '(m, l) ← slow_arith op [va; vb] m; push_raw l m
  end.

(** [OP_ADD_1], [OP_SUB_1], [OP_SUB_2]: the top of the stack and an immediate. *)
Definition exec_arith_imm (op : opcode) (k : Z) (m : vm) : result vm :=
  a ← top m;
  va ← deref a m;
  match va with
  | CLong x => z ← long_op op x k; let '(m, l) := stuffInteger z m in set_top l m
  | _ => '(m, l) ← slow_arith op [va; CLong k] m; set_top l m
  end.

(** [OP_NEG]. *)
Definition exec_neg (m : vm) : result vm :=
  a ← top m;
  va ← deref a m;
  match va with
  | CLong x => let '(m, l) := stuffInteger (int64 (- x)) m in set_top l m
  | _ => '(m, l) ← slow_arith OP_SUB [va] m; set_top l m
  end.

Definition compare_test (op : opcode) (comp : Z) : bool :=
  match op with
  | OP_LT => comp <? 0
  | OP_LE => comp <=? 0
  | OP_GT => 0 <? comp
  | OP_GE => 0 <=? comp
  | OP_EQ => comp =? 0
  | _ => negb (comp =? 0)
  end.

Definition long_test (op : opcode) (x y : Z) : bool :=
  match op with
  | OP_LT => x <? y
  | OP_LE => x <=? y
  | OP_GT => y <? x
  | OP_GE => y <=? x
  | OP_EQ => x =? y
  | _ => negb (x =? y)
  end.

Definition exec_compare (op : opcode) (m : vm) : result vm :=
  '(b, m) ← pop m;
  '(a, m) ← pop m;
  va ← deref a m;
  vb ← deref b m;
  let t := match va, vb with
           | CLong x, CLong y => long_test op x y
           | _, _ => compare_test op (compareCells st va vb)
           end in
  push_raw (bool_cell t) m.

(** ** Globals *)

Definition exec_load_global (s : sym) (m : vm) : result vm :=
  match vm_globals m !! s with
  | Some l => push l m
  | None => UB
  end.

Definition exec_store_global (s : sym) (m : vm) : result vm :=
  '(val, m) ← pop m;
  v ← deref val m;
  let '(m, c) := alloc v false m in
  match vm_globals m !! s with
  | Some old => m ← deleteCell old m; Ok (set_globals (<[s := c]> (vm_globals m)) m)
  | None => UB
  end.

(** ** Calls *)

(** A fresh bytecode object: the constants are copied to the tenured heap. *)
Fixpoint alloc_constants (ks : list sexp) (m : vm) : vm * list loc :=
  match ks with
  | [] => (m, [])
  | k :: ks' =>
      let '(m, l) := match k with
                     | CNil => (m, nilCell)
                     | CTrue => (m, trueCell)
                     | _ => alloc k false m
                     end in
      let '(m, ls) := alloc_constants ks' m in
      (m, l :: ls)
  end.

Definition install (b : bytecode) (m : vm) : vm * nat :=
  let '(m, ks) := alloc_constants (bc_constants b) m in
  (set_bcs (vm_bcs m ++ [BcObj (bc_code b) ks (bc_symbols b) (bc_num_params b) (bc_num_locals b)]) m,
   length (vm_bcs m)).

(** The bytecode of a callee: what its cell carries, or what [compileLambda]
    makes of it now; [None] when the cell is no lambda or does not compile. *)
Definition target_bytecode (l : loc) (m : vm) : result (vm * option nat) :=
  c ← rd (vm_heap m) l;
  match hc_val c with
  | None => UB
  | Some (CLambda body as v) =>
      match hc_bc c with
      | Some i => Ok (m, Some i)
      | None =>
          r ← compileLambda st v None;
          match r with
          | None => Ok (m, None)
          | Some b =>
              let '(m, i) := install b m in
              Ok (set_heap (<[l := HCell (Some v) (hc_gen0 c) (Some i)]> (vm_heap m)) m, Some i)
          end
      end
  | Some _ => Ok (m, None)
  end.

(** [OP_CALL_SELF]. *)
Definition exec_call_self (argc : nat) (r : regs) (m : vm) : result (vm * regs) :=
  bc ← bc_of (r_bc r) m;
  '(m, call_argc) ← pad_params argc (bo_num_params bc) m;
  if Nat.ltb (vm_sp m) call_argc then UB else
  let new_fp := (vm_sp m - call_argc)%nat in
  m ← push_nils (new_fp + bo_num_locals bc - vm_sp m) m;
  m ← save_ip (r_ip r) m;
  m ← push_frame (Frame (r_bc r) 0 new_fp (Z.of_nat call_argc) (r_self r)) m;
  Ok (m, Regs 0 (r_bc r) (r_self r) new_fp).

(** The slots of a frame reused by a tail call: the arguments, then [nilCell]
    up to the number of locals; [vm_sp] is set behind the frame's slots. *)
Definition reuse_frame (fp : nat) (args : list loc) (bc : bcobj) (m : vm) : vm :=
  let slots := args ++
    replicate (bo_num_params bc `max` bo_num_locals bc - length args) nilCell in
  set_stack (take fp (vm_stack m) ++ take (length args `max` bo_num_locals bc) slots) m.

(** [OP_TAIL_CALL_SELF]. *)
Definition exec_tail_call_self (argc : nat) (r : regs) (m : vm) : result (vm * regs) :=
  bc ← bc_of (r_bc r) m;
  if Nat.ltb (vm_sp m) argc then UB else
  let args := drop (vm_sp m - argc) (vm_stack m) in
  let frame_slots := (argc `max` bo_num_locals bc)%nat in
  if Nat.ltb (vm_stack_capacity m) (r_fp r + frame_slots) then UB else
  let m := reuse_frame (r_fp r) args bc m in
  match vm_frames m with
  | f :: fs =>
      let m := set_frames (Frame (f_bc f) 0 (f_fp f) (Z.of_nat argc) (f_self f) :: fs)
                          (vm_frames_capacity m) m in
      Ok (m, Regs 0 (r_bc r) (r_self r) (r_fp r))
  | [] => UB
  end.

(** The stack segment of a call: the callee below its [argc] arguments. *)
Definition call_segment (argc : nat) (m : vm) : result (nat * loc * list loc) :=
  if Nat.leb (argc + 1) (vm_sp m) then
    let fn_idx := (vm_sp m - 1 - argc)%nat in
    f ← rd (vm_stack m) fn_idx;
    Ok (fn_idx, f, drop (fn_idx + 1) (vm_stack m))
  else UB.

(** [OP_CALL]. *)
Definition exec_call (argc : nat) (r : regs) (m : vm) : result (vm * regs) :=
  '(fn_idx, target_fn, args) ← call_segment argc m;
  '(m, tbc) ← target_bytecode target_fn m;
  match tbc with
  | Some i =>
      bc ← bc_of i m;
      let m := set_stack (take fn_idx (vm_stack m) ++ args) m in
      '(m, call_argc) ← pad_params argc (bo_num_params bc) m;
      m ← push_nils (fn_idx + bo_num_locals bc - vm_sp m) m;
      m ← save_ip (r_ip r) m;
      m ← push_frame (Frame i 0 fn_idx (Z.of_nat call_argc) target_fn) m;
      Ok (m, Regs 0 i target_fn fn_idx)
  | None =>
      '(m, res) ← rt_call target_fn args m;
      m ← push res (set_stack (take fn_idx (vm_stack m)) m);
      Ok (m, r)
  end.

(** The outcome of an instruction: the loop goes on, or [executeBytecode]
    returns a cell. *)
Inductive outcome : Type :=
  | Running (m : vm) (r : regs)
  | Returned (m : vm) (l : loc).

(** [OP_RET] and the end of a tail call that left the machine: drop the frame;
    the caller's frame continues with the value, the last frame returns a copy. *)
Definition exec_return (base_frame start_sp : nat) (ret_val : loc) (r : regs) (m : vm)
    : result outcome :=
  match vm_frames m with
  | [] => UB
  | _ :: fs =>
      let m := set_frames fs (vm_frames_capacity m) m in
      if Nat.eqb (length fs) base_frame then
        v ← deref ret_val m;
        let '(m, final_ret) := alloc v true m in
        Ok (Returned (set_stack (take start_sp (vm_stack m)) m) final_ret)
      else
        match fs with
        | [] => UB
        | caller :: _ =>
            m ← push ret_val (set_stack (take (r_fp r) (vm_stack m)) m);
            Ok (Running m (Regs (f_ip caller) (f_bc caller) (f_self caller) (f_fp caller)))
        end
  end.

(** [VM_STACK] growth of [OP_TAIL_CALL]: doubled until the slots fit. *)
Fixpoint grow (fuel need cap : nat) : result nat :=
  match fuel with
  | O => NoFuel
  | S fuel' => if Nat.leb cap need then grow fuel' need (cap * 2)%nat else Ok cap
  end.

(** [OP_TAIL_CALL]. *)
Definition exec_tail_call (base_frame start_sp argc : nat) (r : regs) (m : vm)
    : result outcome :=
  '(fn_idx, target_fn, args) ← call_segment argc m;
  '(m, tbc) ← target_bytecode target_fn m;
  match tbc with
  | Some i =>
      bc ← bc_of i m;
      let need := (r_fp r + argc `max` bo_num_locals bc)%nat in
      cap ← grow (S need) need (vm_stack_capacity m);
      let m := reuse_frame (r_fp r) args bc (set_stack_cap (vm_stack m) cap m) in
      match vm_frames m with
      | _ :: fs =>
          let f := Frame i 0 (r_fp r) (Z.of_nat argc) target_fn in
          Ok (Running (set_frames (f :: fs) (vm_frames_capacity m) m)
                      (Regs 0 i target_fn (r_fp r)))
      | [] => UB
      end
  | None =>
      '(m, res) ← rt_call target_fn args m;
      exec_return base_frame start_sp res r m
  end.

(** ** The dispatch loop *)

Definition load_slot (slot : nat) (r : regs) (m : vm) : result vm :=
  l ← rd (vm_stack m) (r_fp r + slot); push l m.

Definition store_slot (slot : nat) (r : regs) (m : vm) : result vm :=
  '(l, m) ← pop m;
  s ← wr (vm_stack m) (r_fp r + slot) l;
  Ok (set_stack s m).

Definition const_op (op : opcode) : Z :=
  match op with OP_CONST_0 => 0 | OP_CONST_1 => 1 | _ => 2 end.

Definition jump_to (ip offset : Z) : result nat :=
  if ip + offset <? 0 then UB else Ok (Z.to_nat (ip + offset)).

(** The conditional jumps pop the tested cell. *)
Definition exec_jump_if (if_true : bool) (code : list Z) (r : regs) (m : vm)
    : result (vm * regs) :=
  offset ← offset16 code (r_ip r);
  '(cond, m) ← pop m;
  v ← deref cond m;
  let ip := (r_ip r + 2)%nat in
  if Bool.eqb (truthy v) if_true then
    ip ← jump_to (Z.of_nat ip) offset; Ok (m, Regs ip (r_bc r) (r_self r) (r_fp r))
  else Ok (m, Regs ip (r_bc r) (r_self r) (r_fp r)).

Definition at_ip (ip : nat) (r : regs) : regs := Regs ip (r_bc r) (r_self r) (r_fp r).

(** The instructions that only change the machine, and the bytes of operand
    they consume. *)
Definition exec_simple (op : opcode) (bc : bcobj) (r : regs) (m : vm) : option (result (vm * nat)) :=
  let ip := r_ip r in
  let plain (x : result vm) := Some (m ← x; Ok (m, ip)) in
  let with16 (f : nat → result vm) :=
    Some (k ← operand16 (bo_code bc) ip; m ← f (Z.to_nat k); Ok (m, (ip + 2)%nat)) in
  match op with
  | OP_NOP => plain (Ok m)
  | OP_NIL => plain (push nilCell m)
  | OP_TRUE => plain (push trueCell m)
  | OP_CONST => with16 (λ k, l ← rd (bo_constants bc) k; push l m)
  | OP_CONST_0 | OP_CONST_1 | OP_CONST_2 =>
      plain (let '(m, l) := stuffInteger (const_op op) m in push l m)
  | OP_POP => plain ('(_, m) ← pop m; Ok m)
  | OP_DUP => plain (l ← top m; push l m)
  | OP_LOAD_LOCAL => with16 (λ k, load_slot k r m)
  | OP_LOAD_LOCAL_0 => plain (load_slot 0 r m)
  | OP_LOAD_LOCAL_1 => plain (load_slot 1 r m)
  | OP_LOAD_LOCAL_2 => plain (load_slot 2 r m)
  | OP_LOAD_LOCAL_3 => plain (load_slot 3 r m)
  | OP_STORE_LOCAL => with16 (λ k, store_slot k r m)
  | OP_STORE_LOCAL_0 => plain (store_slot 0 r m)
  | OP_STORE_LOCAL_1 => plain (store_slot 1 r m)
  | OP_STORE_LOCAL_2 => plain (store_slot 2 r m)
  | OP_STORE_LOCAL_3 => plain (store_slot 3 r m)
  | OP_LOAD_GLOBAL => with16 (λ k, s ← rd (bo_symbols bc) k; exec_load_global s m)
  | OP_STORE_GLOBAL => with16 (λ k, s ← rd (bo_symbols bc) k; exec_store_global s m)
  | OP_LOAD_SELF => plain (push (r_self r) m)
  | OP_LT | OP_LE | OP_GT | OP_GE | OP_EQ | OP_NE => plain (exec_compare op m)
  | OP_ADD | OP_SUB | OP_MUL | OP_DIV | OP_MOD => plain (exec_arith op m)
  | OP_ADD_1 => plain (exec_arith_imm OP_ADD 1 m)
  | OP_SUB_1 => plain (exec_arith_imm OP_SUB 1 m)
  | OP_SUB_2 => plain (exec_arith_imm OP_SUB 2 m)
  | OP_NEG => plain (exec_neg m)
  | _ => None
  end.

(** One instruction of [executeBytecode]. *)
Definition step (base_frame start_sp : nat) (m : vm) (r : regs) : result outcome :=
  bc ← bc_of (r_bc r) m;
  b ← rd (bo_code bc) (r_ip r);
  match opcode_of b with
  | None => UB
  | Some op =>
      let r := at_ip (S (r_ip r)) r in
      match exec_simple op bc r m with
      | Some x => '(m, ip) ← x; Ok (Running m (at_ip ip r))
      | None =>
          match op with
          | OP_JUMP =>
              offset ← offset16 (bo_code bc) (r_ip r);
              ip ← jump_to (Z.of_nat (r_ip r) + 2) offset;
              Ok (Running m (at_ip ip r))
          | OP_JUMP_IF_NIL =>
              '(m, r) ← exec_jump_if false (bo_code bc) r m; Ok (Running m r)
          | OP_JUMP_IF_NOT_NIL =>
              '(m, r) ← exec_jump_if true (bo_code bc) r m; Ok (Running m r)
          | OP_RET => '(l, m) ← pop m; exec_return base_frame start_sp l r m
          | OP_CALL_SELF | OP_TAIL_CALL_SELF | OP_CALL | OP_TAIL_CALL =>
              argc ← rd (bo_code bc) (r_ip r);
              let argc := Z.to_nat argc in
              let r := at_ip (S (r_ip r)) r in
              match op with
              | OP_CALL_SELF => '(m, r) ← exec_call_self argc r m; Ok (Running m r)
              | OP_TAIL_CALL_SELF => '(m, r) ← exec_tail_call_self argc r m; Ok (Running m r)
              | OP_CALL => '(m, r) ← exec_call argc r m; Ok (Running m r)
              | _ => exec_tail_call base_frame start_sp argc r m
              end
          | _ => UB
          end
      end
  end.

Fixpoint run (fuel : nat) (base_frame start_sp : nat) (m : vm) (r : regs) : result (vm * loc) :=
  match fuel with
  | O => NoFuel
  | S fuel' =>
      o ← step base_frame start_sp m r;
      match o with
      | Running m r => run fuel' base_frame start_sp m r
      | Returned m l => Ok (m, l)
      end
  end.

Fixpoint push_all (ls : list loc) (m : vm) : result vm :=
  match ls with
  | [] => Ok m
  | l :: ls' => m ← push l m; push_all ls' m
  end.

(** [executeBytecode] on a lambda cell with bytecode [i]; the arguments are the
    cells their evaluation left. *)
Definition enter (lambdaCell : loc) (i : nat) (args : list loc) (m : vm) : result (vm * regs) :=
  bc ← bc_of i m;
  let start_sp := vm_sp m in
  m ← push_all args m;
  m ← push_nils (bo_num_params bc - length args) m;
  m ← push_nils (start_sp + bo_num_locals bc - vm_sp m) m;
  m ← push_frame (Frame i 0 start_sp (Z.of_nat (length args `max` bo_num_params bc)) lambdaCell) m;
  Ok (m, Regs 0 i lambdaCell start_sp).

Definition executeBytecode (fuel : nat) (lambdaCell : loc) (args : list loc) (m : vm)
    : result (vm * loc) :=
  c ← rd (vm_heap m) lambdaCell;
  match hc_bc c with
  | None => Ok (m, nilCell)
  | Some i =>
      '(m', r) ← enter lambdaCell i args m;
      run fuel (vm_frame_count m) (vm_sp m) m' r
  end.

End Step.
