(* ===== verification/Exec.v ===== *)
(** * Running straight-line code (src/nl-vm.c, [executeBytecode])

    The effect of single instructions on the operand stack, in a form that
    composes: [runs] is any number of steps inside one frame that keep every
    live cell as it is.  The instructions that leave the frame are not here. *)

From stdpp Require Import base list numbers tactics strings gmap relations.
From Stdlib Require Import ZArith Lia.
From S2P Require Import Prelude Cell Arith Bytecode Compiler Layout Machine.

#[global] Open Scope Z_scope.

(** ** Code in memory *)

Definition code_at (C : list Z) (pos : nat) (bs : list Z) : Prop :=
  ∀ i b, bs !! i = Some b → C !! (pos + i)%nat = Some b.

Lemma code_at_app C (pos : nat) a b :
  code_at C pos (a ++ b) ↔ code_at C pos a ∧ code_at C (pos + length a) b.
Proof.
  split.
  - intros H. split; intros i x Hi.
    + apply H. by apply lookup_app_l_Some.
    + rewrite <- Nat.add_assoc. apply H. rewrite lookup_app_r by lia.
      by replace (length a + i - length a)%nat with i by lia.
  - intros [Ha Hb] i x Hi. apply lookup_app_Some in Hi as [Hi|[Hl Hi]]; [by apply Ha|].
    replace (pos + i)%nat with (pos + length a + (i - length a))%nat by lia. by apply Hb.
Qed.

Lemma code_at_cons C (pos : nat) x b :
  code_at C pos (x :: b) ↔ C !! pos = Some x ∧ code_at C (S pos) b.
Proof.
  change (x :: b) with ([x] ++ b). rewrite code_at_app.
  replace (pos + length [x])%nat with (S pos) by (simpl; lia).
  split; intros [H1 H2]; (split; [|done]).
  - replace pos with (pos + 0)%nat by lia. by apply H1.
  - intros [|i] y Hy; [|done]. injection Hy as <-. by replace (pos + 0)%nat with pos by lia.
Qed.

Lemma code_at_prefix C bs : code_at (C ++ bs) (length C) bs.
Proof. intros i b Hi. rewrite lookup_app_r by lia. by replace (length C + i - length C)%nat with i by lia. Qed.

Lemma rd_code C pos x b : code_at C pos (x :: b) → rd C pos = Ok x.
Proof. intros [H _]%code_at_cons. by apply rd_ok. Qed.

Lemma operand16_at C pos op v b : 0 ≤ v < 65536 → code_at C pos (op16 op v ++ b) →
  operand16 C (S pos) = Ok v.
Proof.
  intros Hv H. apply code_at_cons in H as [_ H]. unfold operand16.
  rewrite (rd_code _ _ _ _ H). apply code_at_cons in H as [_ H]. simpl.
  rewrite (rd_code _ _ _ _ H). simpl. by rewrite word_unsigned.
Qed.

#[local] Transparent jmp.
Lemma offset16_at C pos op n b : - 32768 ≤ n < 32768 → code_at C pos (jmp op n ++ b) →
  C !! pos = Some (op_byte op) ∧ offset16 C (S pos) = Ok n.
Proof.
  intros Hv H. unfold jmp in H. rewrite (wrapS_small 16) in H by lia.
  apply code_at_cons in H as [Ho H]. split; [done|]. unfold offset16.
  rewrite (rd_code _ _ _ _ H). apply code_at_cons in H as [_ H]. simpl.
  rewrite (rd_code _ _ _ _ H). simpl. by rewrite word_signed.
Qed.

Lemma jmp_at C pos op n : code_at C pos (jmp op n) → (pos + 3 ≤ length C)%nat.
Proof.
  intros H. assert (E : C !! (pos + 2)%nat = Some (hi_byte (int16 n))) by (by apply H).
  apply lookup_lt_Some in E. lia.
Qed.
#[local] Opaque jmp.

(** ** Cells *)

Definition val (m : vm) (l : loc) : option sexp := c ← vm_heap m !! l; hc_val c.

Lemma deref_val m l v : val m l = Some v → deref l m = Ok v.
Proof.
  unfold val, deref. intros H. apply bind_Some in H as (c & Hc & Hv).
  rewrite (rd_ok _ _ _ Hc). simpl. by rewrite Hv.
Qed.

(** The stack fits its array, which is not empty. *)
Definition cap_ok (m : vm) : Prop :=
  (vm_sp m ≤ vm_stack_capacity m ∧ 1 ≤ vm_stack_capacity m)%nat.

(** [m'] comes from [m] without touching live cells, globals, frames or code. *)
Record evolve (m m' : vm) : Prop := {
  ev_val : ∀ l v, val m l = Some v → val m' l = Some v;
  ev_bcs : vm_bcs m' = vm_bcs m;
  ev_globals : vm_globals m' = vm_globals m;
  ev_frames : vm_frames m' = vm_frames m;
  ev_cap : cap_ok m → cap_ok m'
}.

#[export] Instance evolve_preorder : PreOrder evolve.
Proof.
  split; [by split|]. intros a b c [] []. split; try congruence; auto.
Qed.

Lemma push_ok l m : cap_ok m →
  ∃ m', push l m = Ok m' ∧ evolve m m' ∧ vm_stack m' = vm_stack m ++ [l].
Proof.
  intros [Hs Hc]. unfold push, vm_sp in *.
  set (cap := if Nat.leb _ _ then _ else _).
  assert (Hcap : (length (vm_stack m) < cap)%nat).
  { subst cap. destruct (Nat.leb_spec (vm_stack_capacity m) (length (vm_stack m) + 1)); lia. }
  apply Nat.ltb_lt in Hcap as E. rewrite E. eexists. split; [done|]. split; [|done].
  split; try done. intros _. unfold cap_ok, vm_sp. cbn. rewrite length_app. cbn. lia.
Qed.

Lemma push_raw_ok l m : (vm_sp m < vm_stack_capacity m)%nat →
  ∃ m', push_raw l m = Ok m' ∧ evolve m m' ∧ vm_stack m' = vm_stack m ++ [l].
Proof.
  intros H. unfold push_raw. apply Nat.ltb_lt in H as E. rewrite E.
  eexists. split; [done|]. split; [|done]. split; try done.
  intros _. unfold cap_ok, vm_sp in *. cbn. rewrite length_app. cbn. lia.
Qed.

Lemma pop_ok m s l : vm_stack m = s ++ [l] → pop m = Ok (l, set_stack s m).
Proof.
  intros E. unfold pop, vm_sp. rewrite E, last_snoc, length_app. cbn.
  replace (length s + 1 - 1)%nat with (length s) by lia. by rewrite take_app_length.
Qed.

Lemma set_stack_evolve m s l : vm_stack m = s ++ l → evolve m (set_stack s m).
Proof.
  intros E. split; try done. intros [H1 H2]. unfold cap_ok, vm_sp in *. cbn.
  rewrite E, length_app in H1. lia.
Qed.

Lemma alloc_ok v g m m' l : alloc v g m = (m', l) →
  evolve m m' ∧ vm_stack m' = vm_stack m ∧ vm_stack_capacity m' = vm_stack_capacity m ∧
  val m' l = Some v.
Proof.
  intros [= <- <-]. split; [|split; [done|split; [done|]]].
  - split; try done. intros k w Hk. apply bind_Some in Hk as (c & Hc & Hw).
    apply bind_Some. exists c. split; [|done]. by apply lookup_app_l_Some.
  - apply bind_Some. exists (HCell (Some v) g None). split; [|done].
    cbn [vm_heap set_heap]. by rewrite lookup_app_r, Nat.sub_diag by lia.
Qed.

Section Run.
Context `{Runtime}.
Variable st : symtab.
Variables (base_frame start_sp : nat) (bi : nat) (bc : bcobj) (self : loc) (fp : nat).

(** What the frame needs: its bytecode, [nil] and [true]. *)
Record mok (m : vm) : Prop := {
  mok_bc : vm_bcs m !! bi = Some bc;
  mok_nil : val m nilCell = Some CNil;
  mok_true : val m trueCell = Some CTrue;
  mok_cap : cap_ok m
}.

Lemma mok_evolve m m' : evolve m m' → mok m → mok m'.
Proof. intros [] []. split; auto. congruence. Qed.

Definition mstep (a b : vm * nat) : Prop :=
  step st base_frame start_sp a.1 (Regs a.2 bi self fp) =
  Ok (Running b.1 (Regs b.2 bi self fp)).

(** From [ip] on [m] the machine gets to [ip'] on [m']. *)
Definition runs (m : vm) (ip : nat) (m' : vm) (ip' : nat) : Prop :=
  rtc mstep (m, ip) (m', ip') ∧ evolve m m'.

Lemma runs_refl m ip : runs m ip m ip.
Proof. split; [apply rtc_refl|done]. Qed.

Lemma runs_trans m1 ip1 m2 ip2 m3 ip3 : runs m1 ip1 m2 ip2 → runs m2 ip2 m3 ip3 → runs m1 ip1 m3 ip3.
Proof. intros [] []. split; by etransitivity. Qed.

(** One instruction that [exec_simple] covers. *)
Lemma simple_runs op m ip m' ip' : mok m → bo_code bc !! ip = Some (op_byte op) →
  exec_simple st op bc (Regs (S ip) bi self fp) m = Some (Ok (m', ip')) →
  evolve m m' → runs m ip m' ip'.
Proof.
  intros [Hb _ _ _] Hc Hx He. split; [|done]. apply rtc_once. unfold mstep, step, bc_of. cbn.
  rewrite (rd_ok _ _ _ Hb). cbn. rewrite (rd_ok _ _ _ Hc). cbn. rewrite opcode_of_byte.
  unfold at_ip. cbn. by rewrite Hx.
Qed.

(** ** Pushes *)

Lemma runs_push op l m ip : mok m → bo_code bc !! ip = Some (op_byte op) →
  exec_simple st op bc (Regs (S ip) bi self fp) m = Some (m' ← push l m; Ok (m', S ip)) →
  ∃ m', runs m ip m' (S ip) ∧ vm_stack m' = vm_stack m ++ [l].
Proof.
  intros Hm Hc Hx. destruct (push_ok l m (mok_cap _ Hm)) as (m' & Hp & He & Hs).
  rewrite Hp in Hx. cbn in Hx. exists m'. split; [|done]. by eapply simple_runs.
Qed.

Lemma runs_nil m ip : mok m → bo_code bc !! ip = Some (op_byte OP_NIL) →
  ∃ m', runs m ip m' (S ip) ∧ vm_stack m' = vm_stack m ++ [nilCell].
Proof. intros. by eapply (runs_push OP_NIL). Qed.

Lemma runs_true m ip : mok m → bo_code bc !! ip = Some (op_byte OP_TRUE) →
  ∃ m', runs m ip m' (S ip) ∧ vm_stack m' = vm_stack m ++ [trueCell].
Proof. intros. by eapply (runs_push OP_TRUE). Qed.

Lemma runs_dup m ip s l : mok m → bo_code bc !! ip = Some (op_byte OP_DUP) →
  vm_stack m = s ++ [l] →
  ∃ m', runs m ip m' (S ip) ∧ vm_stack m' = s ++ [l; l].
Proof.
  intros Hm Hc Hs. destruct (runs_push OP_DUP l m ip Hm Hc) as (m' & Hr & Hs').
  { cbn. unfold top. by rewrite Hs, last_snoc. }
  exists m'. split; [done|]. by rewrite Hs', Hs, <- app_assoc.
Qed.

Lemma runs_pop m ip s l : mok m → bo_code bc !! ip = Some (op_byte OP_POP) →
  vm_stack m = s ++ [l] → ∃ m', runs m ip m' (S ip) ∧ vm_stack m' = s.
Proof.
  intros Hm Hc Hs. exists (set_stack s m). split; [|done].
  eapply (simple_runs OP_POP); [done|done| |by eapply set_stack_evolve].
  cbn. by rewrite (pop_ok _ _ _ Hs).
Qed.

(** A small integer. *)
Lemma runs_int op m ip : op = OP_CONST_0 ∨ op = OP_CONST_1 ∨ op = OP_CONST_2 →
  mok m → bo_code bc !! ip = Some (op_byte op) →
  ∃ m' l, runs m ip m' (S ip) ∧ vm_stack m' = vm_stack m ++ [l] ∧
    val m' l = Some (CLong (const_op op)).
Proof.
  intros Ho Hm Hc. destruct (stuffInteger (const_op op) m) as [m1 l] eqn:Ea.
  destruct (alloc_ok _ _ _ _ _ Ea) as (E1 & Es & _ & Hv).
  replace (int64 (const_op op)) with (const_op op) in Hv by (by destruct Ho as [-> | [-> | ->]]).
  destruct (push_ok l m1 (ev_cap _ _ E1 (mok_cap _ Hm))) as (m2 & Hp & E2 & Hs2).
  exists m2, l. split; [|split; [congruence|by apply E2]].
  eapply (simple_runs op); [done|done| |by etransitivity].
  destruct Ho as [-> | [-> | ->]]; cbn -[stuffInteger const_op push]; rewrite Ea; by rewrite Hp.
Qed.

(** ** Instructions with a 16-bit operand *)

Lemma runs_push16 op v l m ip b : mok m → 0 ≤ v < 65536 →
  code_at (bo_code bc) ip (op16 op v ++ b) →
  exec_simple st op bc (Regs (S ip) bi self fp) m =
    Some (k ← operand16 (bo_code bc) (S ip); m' ← (if decide (k = v) then push l m else UB);
          Ok (m', (S ip + 2)%nat)) →
  ∃ m', runs m ip m' (ip + 3) ∧ vm_stack m' = vm_stack m ++ [l].
Proof.
  intros Hm Hv Hc Hx. rewrite (operand16_at _ _ _ _ _ Hv Hc) in Hx. cbn in Hx.
  rewrite decide_True in Hx by done.
  destruct (push_ok l m (mok_cap _ Hm)) as (m' & Hp & He & Hs). rewrite Hp in Hx. cbn in Hx.
  exists m'. split; [|done]. eapply (simple_runs op); [done| | |done].
  - by apply code_at_cons in Hc as [? _].
  - rewrite Hx. do 3 f_equal. lia.
Qed.

Lemma with16 op v m ip b (f : nat → result vm) m' : mok m → 0 ≤ v < 65536 →
  code_at (bo_code bc) ip (op16 op v ++ b) →
  exec_simple st op bc (Regs (S ip) bi self fp) m =
    Some (k ← operand16 (bo_code bc) (S ip); m ← f (Z.to_nat k); Ok (m, (S ip + 2)%nat)) →
  f (Z.to_nat v) = Ok m' → evolve m m' → runs m ip m' (ip + 3).
Proof.
  intros Hm Hv Hc Hx Hf He. rewrite (operand16_at _ _ _ _ _ Hv Hc) in Hx. cbn in Hx.
  rewrite Hf in Hx. cbn in Hx. eapply (simple_runs op); [done| | |done].
  - by apply code_at_cons in Hc as [? _].
  - rewrite Hx. do 3 f_equal. lia.
Qed.

Lemma uint16_nat i : Z.of_nat i < 65536 → Z.to_nat (uint16 (Z.of_nat i)) = i ∧
  0 ≤ uint16 (Z.of_nat i) < 65536.
Proof. intros Hi. rewrite wrapU_small by (cbn; lia). lia. Qed.

Lemma runs_const m ip i l b : mok m → Z.of_nat i < 65536 → bo_constants bc !! i = Some l →
  code_at (bo_code bc) ip (op16 OP_CONST (uint16 (Z.of_nat i)) ++ b) →
  ∃ m', runs m ip m' (ip + 3) ∧ vm_stack m' = vm_stack m ++ [l].
Proof.
  intros Hm Hi Hl Hc. destruct (uint16_nat i Hi) as [Ei Hr].
  destruct (push_ok l m (mok_cap _ Hm)) as (m' & Hp & He & Hs). exists m'. split; [|done].
  eapply (with16 OP_CONST); [done|exact Hr|exact Hc|done| |done]. cbn.
  by rewrite Ei, (rd_ok _ _ _ Hl).
Qed.

Lemma runs_global m ip i s l b : mok m → Z.of_nat i < 65536 → bo_symbols bc !! i = Some s →
  vm_globals m !! s = Some l →
  code_at (bo_code bc) ip (op16 OP_LOAD_GLOBAL (uint16 (Z.of_nat i)) ++ b) →
  ∃ m', runs m ip m' (ip + 3) ∧ vm_stack m' = vm_stack m ++ [l].
Proof.
  intros Hm Hi Hs Hl Hc. destruct (uint16_nat i Hi) as [Ei Hr].
  destruct (push_ok l m (mok_cap _ Hm)) as (m' & Hp & He & Hst). exists m'. split; [|done].
  eapply (with16 OP_LOAD_GLOBAL); [done|exact Hr|exact Hc|done| |done]. cbn.
  rewrite Ei, (rd_ok _ _ _ Hs). cbn. unfold exec_load_global. by rewrite Hl.
Qed.

(** ** Locals *)

Lemma lookup_slot (base slots rest : list loc) i l : length base = fp → slots !! i = Some l →
  (base ++ slots ++ rest) !! (fp + i)%nat = Some l.
Proof.
  intros <- Hi. rewrite lookup_app_r by lia.
  replace (length base + i - length base)%nat with i by lia. by apply lookup_app_l_Some.
Qed.

Lemma runs_load m ip base slots rest i l b : mok m → Z.of_nat i < 65536 →
  length base = fp → vm_stack m = base ++ slots ++ rest → slots !! i = Some l →
  code_at (bo_code bc) ip (load_code i ++ b) →
  ∃ m', runs m ip m' (ip + length (load_code i)) ∧ vm_stack m' = vm_stack m ++ [l].
Proof.
  intros Hm Hi Hf Hs Hl Hc.
  pose proof (lookup_slot base slots rest i l Hf Hl) as Hk. rewrite <- Hs in Hk.
  assert (Hp : ∀ r, r_fp r = fp → load_slot i r m = push l m).
  { intros r Hr. unfold load_slot. by rewrite Hr, (rd_ok _ _ _ Hk). }
  unfold load_code in *. destruct (Nat.ltb_spec i 4) as [Hlt|Hge].
  - apply code_at_cons in Hc as [Hc _]. cbn [length]. rewrite Nat.add_1_r.
    eapply (runs_push (load_local_op i) l); [done|done|].
    destruct i as [|[|[|[|i]]]]; [..|lia]; cbn; by rewrite Hp.
  - destruct (uint16_nat i Hi) as [Ei Hr].
    destruct (push_ok l m (mok_cap _ Hm)) as (m' & Hpush & He & Hst). exists m'. split; [|done].
    eapply (with16 OP_LOAD_LOCAL); [done|exact Hr|exact Hc|done| |done]. cbn. by rewrite Ei, Hp.
Qed.

Lemma runs_store m ip base slots rest i l b : mok m → Z.of_nat i < 65536 →
  length base = fp → vm_stack m = base ++ slots ++ rest ++ [l] → (i < length slots)%nat →
  code_at (bo_code bc) ip (store_code i ++ b) →
  ∃ m', runs m ip m' (ip + length (store_code i)) ∧
    vm_stack m' = base ++ <[i := l]> slots ++ rest.
Proof.
  intros Hm Hi Hf Hs Hl Hc. rewrite !app_assoc in Hs.
  set (s' := base ++ <[i := l]> slots ++ rest).
  assert (E1 : evolve m (set_stack s' m)).
  { split; try done. intros [H1 H2]. unfold cap_ok, vm_sp in *. subst s'. cbn.
    rewrite Hs in H1. rewrite !length_app, length_insert in *. cbn in *. lia. }
  assert (Hst : ∀ r, r_fp r = fp → store_slot i r m = Ok (set_stack s' m)).
  { intros r Hr. unfold store_slot. rewrite (pop_ok _ _ _ Hs). cbn. rewrite Hr.
    rewrite wr_ok by (rewrite !length_app; lia). cbn.
    match goal with |- Ok (set_stack ?x _) = _ => replace x with s'; [done|] end. subst s'.
    rewrite <- app_assoc, insert_app_r_alt by lia.
    replace (fp + i - length base)%nat with i by lia. by rewrite insert_app_l by lia. }
  exists (set_stack s' m). split; [|done].
  unfold store_code in *. destruct (Nat.ltb_spec i 4) as [Hlt|Hge].
  - apply code_at_cons in Hc as [Hc _]. cbn [length]. rewrite Nat.add_1_r.
    eapply (simple_runs (store_local_op i)); [done|done| |done].
    destruct i as [|[|[|[|i]]]]; [..|lia]; cbn; by rewrite Hst.
  - destruct (uint16_nat i Hi) as [Ei Hr].
    eapply (with16 OP_STORE_LOCAL); [done|exact Hr|exact Hc|done| |done]. cbn. by rewrite Ei, Hst.
Qed.

(** ** Jumps *)

Lemma runs_jump m ip n b target : mok m → - 32768 ≤ n < 32768 →
  Z.of_nat target = Z.of_nat ip + 3 + n →
  code_at (bo_code bc) ip (jmp OP_JUMP n ++ b) → runs m ip m target.
Proof.
  intros [Hb _ _ _] Hn Ht Hc. destruct (offset16_at _ _ _ _ _ Hn Hc) as [Ho Hoff].
  split; [|done]. apply rtc_once. unfold mstep, step, bc_of. cbn -[opcode_of op_byte offset16 jump_to].
  rewrite (rd_ok _ _ _ Hb). cbn -[opcode_of op_byte offset16 jump_to]. rewrite (rd_ok _ _ _ Ho).
  cbn -[opcode_of op_byte offset16 jump_to]. rewrite opcode_of_byte.
  cbn -[offset16 jump_to]. rewrite Hoff. cbn -[jump_to]. unfold jump_to.
  destruct (Z.ltb_spec (Z.of_nat (S ip) + 2 + n) 0); [lia|]. cbn. unfold at_ip. cbn.
  do 3 f_equal. lia.
Qed.

(** The conditional jumps drop the tested value. *)
Lemma runs_jump_if (if_true : bool) m ip n b s l v target : mok m → - 32768 ≤ n < 32768 →
  vm_stack m = s ++ [l] → val m l = Some v →
  (if Bool.eqb (truthy v) if_true then Z.of_nat target = Z.of_nat ip + 3 + n
   else target = (ip + 3)%nat) →
  code_at (bo_code bc) ip
    (jmp (if if_true then OP_JUMP_IF_NOT_NIL else OP_JUMP_IF_NIL) n ++ b) →
  ∃ m', runs m ip m' target ∧ vm_stack m' = s.
Proof.
  intros [Hb _ _ _] Hn Hs Hv Ht Hc. destruct (offset16_at _ _ _ _ _ Hn Hc) as [Ho Hoff].
  exists (set_stack s m). split; [|done].
  split; [|by eapply set_stack_evolve]. apply rtc_once. unfold mstep, step, bc_of.
  cbn -[opcode_of op_byte exec_jump_if]. rewrite (rd_ok _ _ _ Hb).
  cbn -[opcode_of op_byte exec_jump_if]. rewrite (rd_ok _ _ _ Ho).
  cbn -[opcode_of op_byte exec_jump_if]. rewrite opcode_of_byte.
  assert (E : exec_jump_if if_true (bo_code bc) (Regs (S ip) bi self fp) m =
              Ok (set_stack s m, Regs target bi self fp)).
  { unfold exec_jump_if. cbn -[offset16 jump_to]. rewrite Hoff. cbn -[jump_to].
    rewrite (pop_ok _ _ _ Hs). cbn -[jump_to].
    rewrite (deref_val (set_stack s m) l v) by done. cbn -[jump_to].
    destruct (Bool.eqb (truthy v) if_true).
    - unfold jump_to. destruct (Z.ltb_spec (Z.of_nat (S (ip + 2)) + n) 0); [lia|].
      cbn. do 3 f_equal. lia.
    - do 3 f_equal. lia. }
  destruct if_true; cbn -[exec_jump_if]; unfold at_ip; cbn -[exec_jump_if]; by rewrite E.
Qed.

(** ** Operators *)

(** Two operands on the stack are replaced by a new value or a constant cell. *)
Lemma pop2 m s la lb : vm_stack m = s ++ [la; lb] → cap_ok m →
  pop m = Ok (lb, set_stack (s ++ [la]) m) ∧
  pop (set_stack (s ++ [la]) m) = Ok (la, set_stack s m) ∧
  evolve m (set_stack s m) ∧ (vm_sp (set_stack s m) < vm_stack_capacity (set_stack s m))%nat.
Proof.
  intros Hs [Hc _]. change [la; lb] with ([la] ++ [lb]) in Hs. rewrite app_assoc in Hs.
  split; [by apply pop_ok|]. split; [by rewrite (pop_ok _ s la)|].
  rewrite <- app_assoc in Hs. split; [by eapply set_stack_evolve|].
  unfold vm_sp in *. cbn. rewrite Hs, length_app in Hc. cbn in Hc. lia.
Qed.

Lemma exec_compare_ok op m s la lb va vb : vm_stack m = s ++ [la; lb] → cap_ok m →
  val m la = Some va → val m lb = Some vb →
  ∃ m', exec_compare st op m = Ok m' ∧ evolve m m' ∧
    vm_stack m' = s ++ [bool_cell (match va, vb with
                                   | CLong x, CLong y => long_test op x y
                                   | _, _ => compare_test op (compareCells st va vb)
                                   end)].
Proof.
  intros Hs Hc Ha Hb. destruct (pop2 _ _ _ _ Hs Hc) as (P1 & P2 & E & Hsp).
  unfold exec_compare. rewrite P1. cbn -[pop push_raw deref]. rewrite P2. cbn -[push_raw deref].
  rewrite (deref_val (set_stack s m) la va) by done. cbn -[push_raw deref].
  rewrite (deref_val (set_stack s m) lb vb) by done. cbn -[push_raw].
  destruct (push_raw_ok (bool_cell (match va, vb with
                                   | CLong x, CLong y => long_test op x y
                                   | _, _ => compare_test op (compareCells st va vb)
                                   end)) _ Hsp) as (m' & Hp & E2 & Hs2).
  exists m'. split; [exact Hp|]. split; [by etransitivity|]. exact Hs2.
Qed.

Definition compare_op (op : opcode) : Prop :=
  match op with OP_LT | OP_LE | OP_GT | OP_GE | OP_EQ | OP_NE => True | _ => False end.

Lemma runs_compare op m ip s la lb va vb :
  compare_op op → mok m →
  bo_code bc !! ip = Some (op_byte op) → vm_stack m = s ++ [la; lb] →
  val m la = Some va → val m lb = Some vb →
  ∃ m', runs m ip m' (S ip) ∧
    vm_stack m' = s ++ [bool_cell (match va, vb with
                                   | CLong x, CLong y => long_test op x y
                                   | _, _ => compare_test op (compareCells st va vb)
                                   end)].
Proof.
  intros Hop Hm Hc Hs Ha Hb.
  destruct (exec_compare_ok op _ _ _ _ _ _ Hs (mok_cap _ Hm) Ha Hb) as (m' & Hx & He & Hs').
  exists m'. split; [|done]. eapply (simple_runs op); [done|done| |done].
  destruct op; try done; cbn -[exec_compare]; by rewrite Hx.
Qed.

(** A number evaluates to itself. *)
Lemma eval_number v x m : getInteger64 v = Ok x → eval_operand v m = Ok (v, m).
Proof. destruct v; try discriminate; done. Qed.

Lemma slow_arith_ok op va vb x y z m : getInteger64 va = Ok x → getInteger64 vb = Ok y →
  arith_step (arith_of op) x y = Ok z →
  slow_arith op [va; vb] m = Ok (alloc (CLong z) true m).
Proof.
  intros Hx Hy Hz. unfold slow_arith.
  assert (E : arithmetikOp eval_operand (arith_of op) [va; vb] m = Ok (CLong z, m)).
  { unfold arithmetikOp. destruct (arith_of op); cbn -[arith_step];
      rewrite (eval_number _ _ _ Hx); cbn -[arith_step]; rewrite Hx; cbn -[arith_step];
      rewrite (eval_number _ _ _ Hy); cbn -[arith_step]; rewrite Hy; cbn -[arith_step];
      by rewrite Hz. }
  by rewrite E.
Qed.

Definition binary_op (op : opcode) : Prop :=
  match op with OP_ADD | OP_SUB | OP_MUL | OP_DIV | OP_MOD => True | _ => False end.

Lemma long_op_step op x y : binary_op op → long_op op x y = arith_step (arith_of op) x y.
Proof. by destruct op. Qed.

Lemma binary_arithmetic op : binary_op op → op_arithmetic (arith_of op).
Proof. by destruct op. Qed.

Lemma exec_arith_ok op m s la lb va vb x y z : binary_op op →
  vm_stack m = s ++ [la; lb] → cap_ok m → val m la = Some va → val m lb = Some vb →
  int_ok va → int_ok vb → getInteger64 va = Ok x → getInteger64 vb = Ok y →
  arith_step (arith_of op) x y = Ok z →
  ∃ m' l, exec_arith op m = Ok m' ∧ evolve m m' ∧ vm_stack m' = s ++ [l] ∧
    val m' l = Some (CLong z).
Proof.
  intros Hop Hs Hc Ha Hb Oa Ob Hx Hy Hz. destruct (pop2 _ _ _ _ Hs Hc) as (P1 & P2 & E & Hsp).
  assert (Rz : int64 z = z).
  { apply int64_id. eapply arith_step_range; [| |exact Hz|by apply binary_arithmetic].
    - by apply (getInteger64_range va).
    - by apply (getInteger64_range vb). }
  destruct (alloc (CLong z) true (set_stack s m)) as [m1 l] eqn:Ea.
  destruct (alloc_ok _ _ _ _ _ Ea) as (E1 & Es1 & Ec1 & Hv).
  destruct (push_raw_ok l m1) as (m2 & Hp & E2 & Hs2).
  { unfold vm_sp in *. by rewrite Es1, Ec1. }
  exists m2, l. split; [|split; [|split; [by rewrite Hs2, Es1|by apply E2]]].
  2:{ etransitivity; [exact E|]. by etransitivity. }
  unfold exec_arith. rewrite P1. cbn -[pop push_raw deref slow_arith stuffInteger long_op].
  rewrite P2. cbn -[push_raw deref slow_arith stuffInteger long_op].
  rewrite (deref_val (set_stack s m) la va) by done.
  cbn -[push_raw deref slow_arith stuffInteger long_op].
  rewrite (deref_val (set_stack s m) lb vb) by done.
  cbn -[push_raw slow_arith stuffInteger long_op].
  assert (Slow : (r ← slow_arith op [va; vb] (set_stack s m);
                  let '(m', l') := r in push_raw l' m') = Ok m2).
  { rewrite (slow_arith_ok op va vb x y z) by done. cbn -[push_raw alloc]. by rewrite Ea. }
  destruct va; try exact Slow. destruct vb; try exact Slow.
  injection Hx as ->. injection Hy as ->. rewrite long_op_step, Hz by done.
  cbn -[push_raw stuffInteger]. unfold stuffInteger. by rewrite Rz, Ea.
Qed.

Lemma runs_arith op m ip s la lb va vb x y z : binary_op op → mok m →
  bo_code bc !! ip = Some (op_byte op) → vm_stack m = s ++ [la; lb] →
  val m la = Some va → val m lb = Some vb → int_ok va → int_ok vb →
  getInteger64 va = Ok x → getInteger64 vb = Ok y → arith_step (arith_of op) x y = Ok z →
  ∃ m' l, runs m ip m' (S ip) ∧ vm_stack m' = s ++ [l] ∧ val m' l = Some (CLong z).
Proof.
  intros Hop Hm Hc Hs Ha Hb Oa Ob Hx Hy Hz.
  destruct (exec_arith_ok op m s la lb va vb x y z) as (m' & l & Hx' & He & Hs' & Hv);
    try done; [apply Hm|].
  exists m', l. split; [|done]. eapply (simple_runs op); [done|done| |done].
  destruct op; try done; cbn -[exec_arith]; by rewrite Hx'.
Qed.

(** The immediate operators and the negation replace the top of the stack. *)
Lemma set_top_ok l m s l0 : vm_stack m = s ++ [l0] → cap_ok m →
  ∃ m', set_top l m = Ok m' ∧ evolve m m' ∧ vm_stack m' = s ++ [l].
Proof.
  intros Hs [Hc1 Hc2]. unfold set_top. rewrite (pop_ok _ _ _ Hs). cbn -[push_raw].
  destruct (push_raw_ok l (set_stack s m)) as (m' & Hp & E & Hs').
  { unfold vm_sp in *. cbn. rewrite Hs, length_app in Hc1. cbn in Hc1. lia. }
  exists m'. split; [done|]. split; [|done]. etransitivity; [by eapply set_stack_evolve|done].
Qed.

Definition imm_op (op : opcode) : option (opcode * Z) :=
  match op with
  | OP_ADD_1 => Some (OP_ADD, 1)
  | OP_SUB_1 => Some (OP_SUB, 1)
  | OP_SUB_2 => Some (OP_SUB, 2)
  | _ => None
  end.

Lemma runs_imm op op' k m ip s la va x z : imm_op op = Some (op', k) → mok m →
  bo_code bc !! ip = Some (op_byte op) → vm_stack m = s ++ [la] →
  val m la = Some va → int_ok va → getInteger64 va = Ok x →
  arith_step (arith_of op') x k = Ok z →
  ∃ m' l, runs m ip m' (S ip) ∧ vm_stack m' = s ++ [l] ∧ val m' l = Some (CLong z).
Proof.
  intros Hop Hm Hc Hs Ha Oa Hx Hz.
  assert (Hb : binary_op op') by (by destruct op; try discriminate; injection Hop as <- <-).
  assert (Hk : in_int64 k) by (by destruct op; try discriminate; injection Hop as <- <-).
  assert (Rz : int64 z = z).
  { apply int64_id. eapply arith_step_range; [|exact Hk|exact Hz|by apply binary_arithmetic].
    by apply (getInteger64_range va). }
  destruct (alloc (CLong z) true m) as [m1 l] eqn:Ea.
  destruct (alloc_ok _ _ _ _ _ Ea) as (E1 & Es1 & Ec1 & Hv).
  destruct (set_top_ok l m1 s la) as (m2 & Hp & E2 & Hs2); [congruence|apply E1, Hm|].
  exists m2, l. split; [|split; [done|by apply E2]].
  eapply (simple_runs op); [done|done| |by etransitivity].
  assert (X : exec_arith_imm op' k m = Ok m2).
  { unfold exec_arith_imm, top. rewrite Hs, last_snoc. cbn -[set_top deref slow_arith stuffInteger long_op].
    rewrite (deref_val _ _ _ Ha). cbn -[set_top slow_arith stuffInteger long_op].
    assert (Slow : (r ← slow_arith op' [va; CLong k] m;
                    let '(m', l') := r in set_top l' m') = Ok m2).
    { rewrite (slow_arith_ok op' va (CLong k) x k z) by done. cbn -[set_top alloc]. by rewrite Ea. }
    destruct va; try exact Slow. injection Hx as ->. rewrite long_op_step, Hz by done.
    cbn -[set_top stuffInteger]. unfold stuffInteger. by rewrite Rz, Ea. }
  destruct op; try discriminate; injection Hop as <- <-; cbn -[exec_arith_imm]; by rewrite X.
Qed.

Lemma runs_neg m ip s la va x : mok m →
  bo_code bc !! ip = Some (op_byte OP_NEG) → vm_stack m = s ++ [la] →
  val m la = Some va → int_ok va → getInteger64 va = Ok x →
  ∃ m' l, runs m ip m' (S ip) ∧ vm_stack m' = s ++ [l] ∧ val m' l = Some (CLong (int64 (- x))).
Proof.
  intros Hm Hc Hs Ha Oa Hx.
  destruct (alloc (CLong (int64 (- x))) true m) as [m1 l] eqn:Ea.
  destruct (alloc_ok _ _ _ _ _ Ea) as (E1 & Es1 & Ec1 & Hv).
  destruct (set_top_ok l m1 s la) as (m2 & Hp & E2 & Hs2); [congruence|apply E1, Hm|].
  exists m2, l. split; [|split; [done|by apply E2]].
  eapply (simple_runs OP_NEG); [done|done| |by etransitivity].
  assert (X : exec_neg m = Ok m2).
  { unfold exec_neg, top. rewrite Hs, last_snoc. cbn -[set_top deref slow_arith stuffInteger].
    rewrite (deref_val _ _ _ Ha). cbn -[set_top slow_arith stuffInteger].
    destruct va; try discriminate Hx.
    - injection Hx as ->. unfold stuffInteger. rewrite (int64_id (int64 (- x))) by apply int64_range.
      by rewrite Ea.
    - unfold slow_arith. cbn -[set_top alloc getInteger64 eval_operand] in *.
      rewrite (eval_number _ _ _ Hx). cbn -[set_top alloc getInteger64]. rewrite Hx.
      cbn -[set_top alloc]. by rewrite Ea. }
  cbn -[exec_neg]. by rewrite X.
Qed.

End Run.
