(* ===== verification/Fragment.v ===== *)
(** * The fragment on which compiled code and tree walker agree

    The compiler of nl-vm.c does not reproduce the tree walker of newlisp.c on
    every expression it accepts.  [frag] is a decidable sufficient condition: it
    describes literals, variables, [if], [when], [cond], [and], [or], [begin],
    [while], [let], [local], [setq] of locals, the comparisons and the integer
    operators, with the exceptions where the two differ taken out. *)

From stdpp Require Import base list numbers tactics strings gmap.
From Stdlib Require Import ZArith Lia SpecFloat.
From S2P Require Import Prelude Cell Arith Eval Bytecode Compiler Layout Machine Exec.

#[global] Open Scope Z_scope.

(** ** Clean values: no NaN inside, and [nil] is the only false value *)

Fixpoint nan_free (e : sexp) : bool :=
  match e with
  | CFloat f => negb (isnan f)
  | CQuote e => nan_free e
  | CExpr l | CLambda l | CFexpr l => forallb nan_free l
  | _ => true
  end.

Definition int64b (z : Z) : bool := (INT64_MIN <=? z) && (z <=? INT64_MAX).

Definition clean (v : sexp) : bool :=
  nan_free v && negb (isEmpty v) &&
  match v with
  | CSymbol s => negb (Nat.eqb s nilSymbol)
  | CLong z => int64b z
  | _ => true
  end.

Lemma clean_false v : clean v = true → truthy v = false → v = CNil.
Proof.
  unfold clean, truthy. destruct v; simpl; try done.
  - by destruct (Nat.eqb s nilSymbol).
  - destruct l; [done|]. by rewrite !andb_true_r.
Qed.

Lemma clean_int v : clean v = true → int_ok v.
Proof.
  destruct v; simpl; try done. unfold clean, int64b. simpl.
  intros [H1 H2]%andb_true_iff. apply Z.leb_le in H1, H2. done.
Qed.

Lemma clean_long z : in_int64 z → clean (CLong z) = true.
Proof.
  intros [H1 H2]. unfold clean, int64b. simpl. by apply andb_true_iff; split; apply Z.leb_le.
Qed.

Lemma clean_nan_free v : clean v = true → nan_free v = true.
Proof. unfold clean. by intros [[? _]%andb_true_iff _]%andb_true_iff. Qed.

(** *** [compareCells] answers 9 only for a NaN *)

Lemma shr_1_nonneg mrs : 0 ≤ shr_m mrs → 0 ≤ shr_m (shr_1 mrs).
Proof. destruct mrs as [m r s]. destruct m as [|[p|p|]|p]; simpl; lia. Qed.

Lemma shr_nonneg mrs e n : 0 ≤ shr_m mrs → 0 ≤ shr_m (shr mrs e n).1.
Proof.
  intros H. unfold shr. destruct n as [|p|p]; simpl; [done| |done].
  revert mrs H. induction p; intros mrs H; simpl; auto using shr_1_nonneg.
Qed.

Lemma shr_fexp_nonneg prec emax m e l : 0 ≤ m → 0 ≤ shr_m (shr_fexp prec emax m e l).1.
Proof.
  intros H. unfold shr_fexp. apply shr_nonneg. destruct l as [|[]]; simpl; done.
Qed.

Lemma round_nonneg m l : 0 ≤ m → 0 ≤ round_nearest_even m l.
Proof. intros H. destruct l as [|[]]; simpl; try lia. destruct (Z.even m); lia. Qed.

Lemma binary_round_aux_not_nan prec emax s m e l : 0 ≤ m →
  isnan (binary_round_aux prec emax s m e l) = false.
Proof.
  intros H. unfold binary_round_aux.
  destruct (shr_fexp prec emax m e l) as [mrs1 e1] eqn:E1.
  pose proof (shr_fexp_nonneg prec emax m e l H) as H1. rewrite E1 in H1. simpl in H1.
  set (m2 := round_nearest_even (shr_m mrs1) (loc_of_shr_record mrs1)).
  assert (H2 : 0 ≤ m2) by (by apply round_nonneg).
  destruct (shr_fexp prec emax m2 e1 loc_Exact) as [mrs2 e2] eqn:E2.
  pose proof (shr_fexp_nonneg prec emax m2 e1 loc_Exact H2) as H3. rewrite E2 in H3. simpl in H3.
  destruct (shr_m mrs2) as [|p|p]; [done| |lia].
  by destruct (e2 <=? emax - prec).
Qed.

Lemma floatOfInt_not_nan z : isnan (floatOfInt z) = false.
Proof.
  unfold floatOfInt, binary_normalize. destruct z as [|p|p]; [done|..];
    unfold binary_round; destruct (shl_align _ _ _); by apply binary_round_aux_not_nan.
Qed.

Lemma sgn3_not_9 c : sgn3 c ≠ 9.
Proof. unfold sgn3. case_match; lia. Qed.

Lemma compareFloats_not_9 a b : isnan (getDirectFloat a) = false →
  isnan (getDirectFloat b) = false → compareFloats a b ≠ 9.
Proof.
  intros Ha Hb. unfold compareFloats. rewrite Ha, Hb. simpl.
  destruct (SFcompare _ _) as [[]|]; lia.
Qed.

Lemma compareTypes_not_9 st a b : nan_free a = true → nan_free b = true → compareTypes st a b ≠ 9.
Proof.
  intros Ha Hb. unfold compareTypes.
  destruct a, b; simpl in *; repeat case_match; try lia; try apply sgn3_not_9;
    apply compareFloats_not_9; simpl; try apply floatOfInt_not_nan; by apply negb_true_iff.
Qed.

Lemma compareCells_not_9 st a : ∀ b, nan_free a = true → nan_free b = true →
  compareCells st a b ≠ 9.
Proof.
  assert (L : ∀ l, Forall (λ a, ∀ b, nan_free a = true → nan_free b = true →
      compareCells st a b ≠ 9) l → ∀ r, forallb nan_free l = true → forallb nan_free r = true →
    compareCells st (CExpr l) (CExpr r) ≠ 9).
  { induction 1 as [|x l Hx Hl IHl]; intros [|y r]; simpl; try lia.
    intros [Hnx Hnl]%andb_true_iff [Hny Hnr]%andb_true_iff.
    destruct (compareCells st x y =? 0); [apply (IHl r Hnl Hnr)|by apply Hx]. }
  induction a using sexp_ind_nested; intros b Ha Hb.
  all: try (destruct b; try (apply compareTypes_not_9; done); simpl; lia).
  - destruct b; try (apply compareTypes_not_9; done). simpl. case_match; [lia|]. case_match; lia.
  - destruct b; try (apply compareTypes_not_9; done).
    apply compareFloats_not_9; by apply negb_true_iff.
  - destruct b; try (apply compareTypes_not_9; done). simpl. unfold compareStrings.
    case_match; [lia|apply sgn3_not_9].
  - destruct b; try (apply compareTypes_not_9; done). simpl. unfold compareSymbols.
    repeat case_match; try lia; apply sgn3_not_9.
  - destruct b; try (apply compareTypes_not_9; done). simpl. repeat case_match; lia.
  - destruct b; try (apply compareTypes_not_9; done). simpl. repeat case_match; lia.
  - destruct b; try (apply compareTypes_not_9; done). simpl in *.
    specialize (IHa b Ha Hb). by destruct (compareCells st a b =? 0).
  - destruct b; try (apply compareTypes_not_9; done). by apply L.
  - destruct b; try (apply compareTypes_not_9; done). by apply (L l H l0).
  - destruct b; try (apply compareTypes_not_9; done). by apply (L l H l0).
Qed.

(** ** The fragment *)

(** [W] tells the variables that may be read and set, [ls] the locals in scope.
    With [value = false] the value of the expression is dropped, which lets
    [while] in: its compiled form is always [nil]. *)
Section Frag.
Variable st : symtab.
Variable Hd : sym → bool.
Variable lit : sexp → bool.

Definition is_local (ls : list (option sym)) (s : sym) : bool :=
  match findLocal_in ls s 0 with Some _ => true | None => false end.

Definition const_ok (v : sexp) : bool := lit v && clean v.

Definition bound_syms (bindings : list sexp) : list sym :=
  from_option (λ ps, fst <$> ps) [] (parse_bindings bindings).

Definition without (W : sym → bool) (ss : list sym) : sym → bool :=
  λ s, W s && negb (existsb (Nat.eqb s) ss).

Section FragForms.
Variable rec : (sym → bool) → list (option sym) → bool → sexp → bool.

Fixpoint frag_body (W : sym → bool) (ls : list (option sym)) (value : bool) (body : list sexp) : bool :=
  match body with
  | [] => true
  | e :: rest =>
      match rest with
      | [] => rec W ls value e
      | _ => rec W ls false e && frag_body W ls value rest
      end
  end.

Fixpoint frag_clauses (W : sym → bool) (ls : list (option sym)) (value : bool) (clauses : list sexp)
    : bool :=
  match clauses with
  | [] => true
  | CExpr (test_expr :: body) :: rest =>
      rec W ls true test_expr && frag_body W ls value body && frag_clauses W ls value rest
  | _ :: _ => false
  end.

(** The values of the bindings: [W] is without the symbols that are bound. *)
Fixpoint frag_inits (W : sym → bool) (ls : list (option sym)) (bs : list sexp) : bool :=
  match bs with
  | [] => true
  | CExpr (CSymbol s :: init) :: rest =>
      match init with
      | [] => true
      | e :: _ => rec W (ls ++ [Some s]) true e
      end && frag_inits W (ls ++ [Some s]) rest
  | CSymbol s :: e :: rest =>
      rec W (ls ++ [Some s]) true e && frag_inits W (ls ++ [Some s]) rest
  | [CSymbol s] => true
  | _ => false
  end.

Definition frag_let (W : sym → bool) (ls : list (option sym)) (value : bool) (args : list sexp)
    : bool :=
  match args with
  | CExpr bindings :: body =>
      let ss := bound_syms bindings in
      forallb W ss && frag_inits (without W ss) ls bindings &&
      frag_body W (ls ++ (Some <$> ss)) value body
  | _ => false
  end.

Definition var_syms (vars : list sexp) : list sym :=
  from_option (λ ps, fst <$> ps) [] (parse_vars vars).

Definition frag_local (W : sym → bool) (ls : list (option sym)) (value : bool) (args : list sexp)
    : bool :=
  match args with
  | CExpr vars :: body =>
      let ss := var_syms vars in
      forallb W ss && frag_body W (ls ++ (Some <$> ss)) value body
  | _ => false
  end.

Fixpoint frag_set (W : sym → bool) (ls : list (option sym)) (pairs : list sexp) : bool :=
  match pairs with
  | [] => true
  | CSymbol s :: val :: rest =>
      W s && is_local ls s && rec W ls true val && frag_set W ls rest
  | _ => false
  end.

Definition frag_form (name : string) (W : sym → bool) (ls : list (option sym)) (value : bool)
    (args : list sexp) : bool :=
  if String.eqb name "if" then
    match args with
    | [c; t] => rec W ls true c && rec W ls value t
    | [c; t; e] => rec W ls true c && rec W ls value t && rec W ls value e
    | _ => false
    end
  else if String.eqb name "when" then
    match args with
    | c :: body => rec W ls true c && frag_body W ls value body
    | [] => false
    end
  else if String.eqb name "cond" then frag_clauses W ls value args
  else if String.eqb name "and" then forallb (rec W ls true) args
  else if String.eqb name "or" then forallb (rec W ls true) args
  else if String.eqb name "begin" then frag_body W ls value args
  else if String.eqb name "while" then
    match args with
    | c :: body => negb value && rec W ls true c && forallb (rec W ls false) body
    | [] => false
    end
  else if String.eqb name "let" then frag_let W ls value args
  else if String.eqb name "local" then frag_local W ls value args
  else if String.eqb name "setq" then frag_set W ls args
  else match comparison_op name with
  | Some _ => forallb (rec W ls true) args
  | None =>
      if String.eqb name "+" || String.eqb name "*" then
        negb (Nat.eqb (length args) 1) && forallb (rec W ls true) args
      else if String.eqb name "-" || String.eqb name "/" then forallb (rec W ls true) args
      else false
  end.

End FragForms.

Fixpoint frag (W : sym → bool) (ls : list (option sym)) (value : bool) (e : sexp) : bool :=
  match e with
  | CNil | CTrue => true
  | CLong _ | CFloat _ | CString _ => const_ok e
  | CQuote v => const_ok v
  | CSymbol s => W s && (is_local ls s || negb (String.eqb (sym_name (st s)) "self"))
  | CExpr (CSymbol h :: args) => Hd h && frag_form frag (sym_name (st h)) W ls value args
  | _ => false
  end.

End Frag.

(** ** Primitives by name *)

Definition prim_named (name : string) : option prim :=
  snd <$> find (λ p, String.eqb name (fst p)) primitive.

Lemma prim_named_spec k name p : primitive !! k = Some (name, p) → prim_named name = Some p.
Proof.
  intros H. do 20 (destruct k as [|k]; [injection H as <- <-; reflexivity|]). discriminate H.
Qed.

(** The comparison instruction of a name tests what the primitive of that name
    tests. *)
Lemma comparison_prim st name op : comparison_op name = Some op →
  ∃ r, prim_named name = Some (PCompare r) ∧ compare_op op ∧
    (∀ c, compare_test op c = rel_holds r c) ∧
    ∀ x y, long_test op x y = rel_holds r (compareCells st (CLong x) (CLong y)).
Proof.
  unfold comparison_op. intros E.
  repeat match type of E with
  | (if String.eqb ?n ?s then _ else _) = _ => destruct (String.eqb_spec n s) as [->|_]
  end; try done; injection E as <-; (eexists; split; [reflexivity|split; [done|split; [done|]]]);
    intros x y; simpl; destruct (Z.ltb_spec x y), (Z.ltb_spec y x); try lia; simpl; lia.
Qed.
