(* ===== verification/Scope.v ===== *)
(** * Scopes of the tree walker and of the compiler

    [let] and [local] save the contents of their symbols on the environment
    stack and restore them when they leave; the compiler gives the symbols slots
    behind those in scope.  This file relates the two views: which slot a symbol
    has when a scope is opened ([findLocal_app]), what binding does to the
    contents ([bind_all_bound]) and that leaving undoes it
    ([popEnvironment_spec]). *)

From stdpp Require Import base list numbers tactics strings gmap.
From Stdlib Require Import ZArith Lia.
From S2P Require Import Prelude Cell Arith Eval Bytecode Compiler Layout Fragment.

#[global] Open Scope Z_scope.

(** ** findLocal *)

Lemma findLocal_shift ls s : ∀ k, findLocal_in ls s k = Nat.add k <$> findLocal_in ls s 0.
Proof.
  induction ls as [|x ls IH]; intros k; [done|]. cbn [findLocal_in].
  rewrite (IH (S k)), (IH 1%nat). destruct (findLocal_in ls s 0) as [i|]; simpl.
  - f_equal. lia.
  - case_decide; simpl; [f_equal; lia|done].
Qed.

Lemma findLocal_bound ls s i : findLocal_in ls s 0 = Some i →
  (i < length ls)%nat ∧ ls !! i = Some (Some s).
Proof.
  revert i. induction ls as [|x ls IH]; intros i; [done|]. cbn [findLocal_in length].
  rewrite findLocal_shift. destruct (findLocal_in ls s 0) as [j|]; simpl.
  - intros [= <-]. destruct (IH j eq_refl). split; [lia|done].
  - case_decide; [|done]. intros [= <-]. subst. split; [lia|done].
Qed.

(** Symbols declared later hide the earlier ones. *)
Lemma findLocal_app ls x s : findLocal_in (ls ++ x) s 0 =
  match findLocal_in x s 0 with
  | Some i => Some (length ls + i)%nat
  | None => findLocal_in ls s 0
  end.
Proof.
  induction ls as [|y ls IH]; cbn [app findLocal_in length].
  { by destruct (findLocal_in x s 0). }
  rewrite (findLocal_shift (ls ++ x)), (findLocal_shift ls), IH.
  by destruct (findLocal_in x s 0).
Qed.

(** A slot belongs to one symbol. *)
Lemma findLocal_inj ls s t i : findLocal_in ls s 0 = Some i → findLocal_in ls t 0 = Some i → s = t.
Proof.
  intros [_ H1]%findLocal_bound [_ H2]%findLocal_bound. congruence.
Qed.

Local Abbreviation slots_of ss := (@Some sym <$> ss).

Lemma existsb_findLocal (s : sym) (ss : list sym) :
  existsb (Nat.eqb s) ss = match findLocal_in (slots_of ss) s 0 with Some _ => true | None => false end.
Proof.
  induction ss as [|t ss IH]; [done|]. cbn [existsb fmap list_fmap findLocal_in].
  rewrite findLocal_shift, IH. destruct (findLocal_in _ s 0); simpl; [apply orb_true_r|].
  rewrite orb_false_r.
  destruct (Nat.eqb_spec s t) as [->|Hne]; case_decide as Hd; try done. by injection Hd as ->.
Qed.

Lemma without_spec W ss s : without W ss s =
  W s && match findLocal_in (slots_of ss) s 0 with Some _ => false | None => true end.
Proof.
  unfold without. rewrite existsb_findLocal. by destruct (findLocal_in (slots_of ss) s 0).
Qed.

Lemma without_one W s t : without W [s] t = W t && negb (Nat.eqb t s).
Proof. unfold without. simpl. by rewrite orb_false_r. Qed.

(** ** Binding *)

Section Binding.
Variable st : symtab.

(** What a bound symbol holds: the value of its last binding. *)
Lemma bind_all_bound vals : ∀ es es' g g' s,
  bind_all st vals es g = Ok (es', g') →
  match findLocal_in (slots_of (fst <$> vals)) s 0 with
  | Some i => ∃ v, vals !! i = Some (s, v) ∧ g' !! s = Some v
  | None => g' !! s = g !! s
  end.
Proof.
  induction vals as [|[t v] vals IH]; intros es es' g g' s E; cbn [bind_all] in E.
  { by injection E as <- <-. }
  destruct (isProtected _); [done|]. apply bind_ok_inv in E as (old & _ & E).
  specialize (IH _ _ _ _ s E). cbn [fmap list_fmap findLocal_in fst] in *.
  rewrite findLocal_shift. destruct (findLocal_in _ s 0) as [i|]; simpl; [done|].
  case_decide as Hd.
  - injection Hd as ->. exists v. split; [done|]. by rewrite IH, lookup_insert_eq.
  - rewrite IH, lookup_insert_ne; congruence.
Qed.

(** Leaving a scope puts back what the bound symbols held before, and nothing
    else. *)
Lemma popEnvironment_spec vals : ∀ es es' g g',
  bind_all st vals es g = Ok (es', g') →
  ∃ es1, es' = es1 ++ es ∧ ∀ h s, popEnvironment es1 h !! s =
    match findLocal_in (slots_of (fst <$> vals)) s 0 with Some _ => g !! s | None => h !! s end.
Proof.
  induction vals as [|[t v] vals IH]; intros es es' g g' E; cbn [bind_all] in E.
  { injection E as <- <-. by exists []. }
  destruct (isProtected _); [done|]. apply bind_ok_inv in E as (old & Ho & E).
  destruct (IH _ _ _ _ E) as (es1 & -> & Hp). exists (es1 ++ [(t, old)]).
  split; [by rewrite <- app_assoc|]. intros h s. unfold popEnvironment in *.
  rewrite foldl_app. cbn [foldl fmap list_fmap findLocal_in fst] in *. rewrite findLocal_shift.
  unfold contents in Ho. destruct (g !! t) as [o|] eqn:Eo; [|done]. injection Ho as ->.
  specialize (Hp h s). destruct (Nat.eq_dec s t) as [->|Hne].
  - rewrite lookup_insert_eq. destruct (findLocal_in _ t 0); simpl; [done|]. by case_decide.
  - rewrite lookup_insert_ne by done. rewrite Hp.
    destruct (findLocal_in _ s 0); simpl; [by rewrite lookup_insert_ne|].
    case_decide; congruence.
Qed.

(** [local] binds as [let] does, all to [nil]. *)
Lemma local_bind_all vars : ∀ ps es g, parse_vars vars = Some ps →
  local_bind st vars es g = bind_all st ((λ p, (fst p, CNil)) <$> ps) es g.
Proof.
  induction vars as [|v vars IH]; intros ps es g E; [by injection E as <-|].
  destruct v; try done. cbn [parse_vars] in E.
  destruct (parse_vars vars) as [ps'|] eqn:Ep; [|done]. injection E as <-.
  cbn [local_bind bind_all fmap list_fmap fst]. destruct (isProtected _); [done|].
  destruct (contents s g); cbn; [|done..]. by apply IH.
Qed.

End Binding.

(** ** Parameters *)

(** The parameters with the arguments they take; a missing argument is [nil]. *)
Fixpoint params_with (ss : list sym) (args : list sexp) : list (sym * sexp) :=
  match ss with
  | [] => []
  | s :: ss' => (s, hd CNil args) :: params_with ss' (tl args)
  end.

Lemma params_with_fst ss : ∀ args, fst <$> params_with ss args = ss.
Proof. induction ss as [|s ss IH]; intros args; [done|]. cbn. by rewrite IH. Qed.

Lemma params_with_lookup ss : ∀ args i s v, params_with ss args !! i = Some (s, v) →
  (i < length ss)%nat ∧ v = default CNil (args !! i).
Proof.
  induction ss as [|t ss IH]; intros args [|i] s v Hi; simpl in Hi; try done.
  - injection Hi as <- <-. split; [simpl; lia|by destruct args].
  - destruct (IH _ _ _ _ Hi) as [Hl ->]. split; [simpl; lia|]. destruct args; [by destruct i|done].
Qed.

Lemma lambda_bind_all `{TreeRuntime} st n ss : ∀ args es g,
  lambda_bind st n (CSymbol <$> ss) args es g =
  '(es, g) ← bind_all st (params_with ss args) es g; Ok (drop (length ss) args, es, g).
Proof.
  induction ss as [|s ss IH]; intros args es g.
  - cbn. by rewrite drop_0.
  - cbn [fmap list_fmap lambda_bind params_with bind_all length].
    destruct (isProtected _); [done|]. destruct (contents s g); cbn -[bind_all]; [|done..].
    rewrite IH. destruct args as [|a args]; cbn; [by rewrite drop_nil|done].
Qed.

Lemma findLocal_elem (ss : list sym) (s : sym) :
  match findLocal_in (slots_of ss) s 0 with Some _ => s ∈ ss | None => s ∉ ss end.
Proof.
  induction ss as [|t ss IH]; simpl; [set_solver|]. rewrite findLocal_shift.
  destruct (findLocal_in _ s 0); simpl; [set_solver|].
  case_decide as Hd; [injection Hd as ->; by left|]. rewrite elem_of_cons. intros [->|]; done.
Qed.

Lemma params_with_distinct ss args i s : NoDup ss → ss !! i = Some s →
  findLocal_in (slots_of (fst <$> params_with ss args)) s 0 = Some i.
Proof.
  rewrite params_with_fst. intros Hnd Hi. pose proof (findLocal_elem ss s) as He.
  destruct (findLocal_in _ s 0) as [j|] eqn:Ej.
  - apply findLocal_bound in Ej as [_ Hj]. apply list_lookup_fmap_Some in Hj as (s' & [= ->] & Hj).
    f_equal. by eapply NoDup_lookup.
  - destruct He. by eapply list_elem_of_lookup_2.
Qed.

(** ** The values of the bindings *)

Section Inits.
Variable ev : sexp → env → result (sexp * env).
Hypothesis ev_nil : ∀ g v g', ev CNil g = Ok (v, g') → v = CNil ∧ g' = g.

Fixpoint run_inits (ps : list (sym * option sexp)) (g : env) : result (list (sym * sexp) * env) :=
  match ps with
  | [] => Ok ([], g)
  | (s, init) :: rest =>
      '(v, g) ← match init with Some e => ev e g | None => Ok (CNil, g) end;
      '(vals, g) ← run_inits rest g;
      Ok ((s, v) :: vals, g)
  end.

Lemma let_inits_run bs : ∀ ps g r, parse_bindings bs = Some ps → let_inits ev bs g = Ok r →
  run_inits ps g = Ok r.
Proof.
  induction bs as [bs IH] using (induction_ltof1 _ (@length sexp)); unfold ltof in IH.
  intros ps g r Hp Hr. destruct bs as [|b rest].
  { by injection Hp as <-. }
  destruct b as [| | | | |s| | | |[|[| | | | |s| | | | | |] init]| |]; try done.
  - destruct rest as [|e rest]; cbn [parse_bindings let_inits] in *.
    + injection Hp as <-. apply bind_ok_inv in Hr as ([v g1] & Hv & Hr).
      apply ev_nil in Hv as [-> ->]. done.
    + destruct (parse_bindings rest) as [ps'|] eqn:Ep; [|done]. injection Hp as <-.
      apply bind_ok_inv in Hr as ([v g1] & Hv & Hr).
      apply bind_ok_inv in Hr as ([vals g2] & Hvals & Hr).
      apply (IH rest ltac:(simpl; lia) _ _ _ Ep) in Hvals. cbn [run_inits].
      rewrite Hv. cbn. rewrite Hvals. done.
  - cbn [parse_bindings let_inits] in *.
    destruct (parse_bindings rest) as [ps'|] eqn:Ep; [|done]. injection Hp as <-.
    apply bind_ok_inv in Hr as ([v g1] & Hv & Hr).
    apply bind_ok_inv in Hr as ([vals g2] & Hvals & Hr).
    apply (IH rest ltac:(simpl; lia) _ _ _ Ep) in Hvals. cbn [run_inits].
    destruct init as [|e init]; cbn [head hd] in *.
    + apply ev_nil in Hv as [-> ->]. cbn. rewrite Hvals. done.
    + rewrite Hv. cbn. rewrite Hvals. done.
Qed.

Lemma run_inits_nil ps g : Forall (λ p, snd p = None) ps →
  run_inits ps g = Ok ((λ p, (fst p, CNil)) <$> ps, g).
Proof.
  induction 1 as [|[s init] ps Hi _ IH]; [done|]. simpl in Hi. subst init. cbn. by rewrite IH.
Qed.

End Inits.

Lemma parse_vars_none vars : ∀ ps, parse_vars vars = Some ps → Forall (λ p, snd p = None) ps.
Proof.
  induction vars as [|v vars IH]; intros ps E; [by injection E as <-|]. destruct v; try done.
  cbn [parse_vars] in E. destruct (parse_vars vars); [|done]. injection E as <-.
  constructor; [done|by apply IH].
Qed.

(** ** The bindings of the fragment *)

Section FragPairs.
Variable rec : (sym → bool) → list (option sym) → bool → sexp → bool.

Fixpoint frag_pairs (W : sym → bool) (ls : list (option sym)) (ps : list (sym * option sexp)) : bool :=
  match ps with
  | [] => true
  | (s, init) :: rest =>
      match init with Some e => rec W (ls ++ [Some s]) true e | None => true end &&
      frag_pairs W (ls ++ [Some s]) rest
  end.

Lemma frag_inits_pairs bs : ∀ W ls ps, parse_bindings bs = Some ps →
  frag_inits rec W ls bs = true → frag_pairs W ls ps = true.
Proof.
  induction bs as [bs IH] using (induction_ltof1 _ (@length sexp)); unfold ltof in IH.
  intros W ls ps Hp Hf. destruct bs as [|b rest].
  { by injection Hp as <-. }
  destruct b as [| | | | |s| | | |[|[| | | | |s| | | | | |] init]| |]; try done.
  - destruct rest as [|e rest]; cbn [parse_bindings frag_inits] in *.
    + by injection Hp as <-.
    + destruct (parse_bindings rest) as [ps'|] eqn:Ep; [|done]. injection Hp as <-.
      apply andb_true_iff in Hf as [Hf1 Hf2]. cbn [frag_pairs]. rewrite Hf1.
      by apply (IH rest ltac:(simpl; lia)).
  - cbn [parse_bindings frag_inits] in *.
    destruct (parse_bindings rest) as [ps'|] eqn:Ep; [|done]. injection Hp as <-.
    apply andb_true_iff in Hf as [Hf1 Hf2]. cbn [frag_pairs].
    apply andb_true_iff. split; [by destruct init|by apply (IH rest ltac:(simpl; lia))].
Qed.

Lemma frag_pairs_nil ps : ∀ W ls, Forall (λ p, snd p = None) ps → frag_pairs W ls ps = true.
Proof.
  induction ps as [|[s init] ps IH]; intros W ls Hn; [done|]. inversion Hn as [|? ? Hi Hn']; subst.
  simpl in Hi. subst init. cbn. by apply IH.
Qed.

End FragPairs.
