(* ===== verification/Refine.v ===== *)
(** * Compiled code refines the tree walker

    For every expression of the fragment: if [evaluateExpression] yields a value
    and an environment, then the code [compileExpr] made of it, run by the
    machine from a state that represents the environment, reaches the end of the
    code with that value on top of the stack and the locals of the frame
    representing the new environment. *)

From stdpp Require Import base list numbers tactics strings gmap relations.
From Stdlib Require Import ZArith Lia.
From S2P Require Import Prelude Cell Arith Eval Bytecode Compiler Layout Machine Exec Fragment Scope.

#[global] Open Scope Z_scope.

Section Refine.
Context `{Runtime} `{TreeRuntime}.
Variable st : symtab.
Variables (base_frame start_sp : nat) (bi : nat) (bc : bcobj) (self : loc) (fp : nat).

(** The heads the fragment may use, the literals of the program, the constants
    of the bytecode as values, the size of the frame and the name the lambda is
    compiled under. *)
Variables (Hd : sym → bool) (lit : sexp → bool) (K : list sexp) (nslots : nat)
  (self_sym : option sym).

Hypothesis Hd_it : Hd itSymbol = false.
Hypothesis Hd_idx : Hd listIdxSymbol = false.
(** Constants that compare equal to a literal are that literal. *)
Hypothesis K_inj : ∀ k v, k ∈ K → lit v = true → compareCells st k v = 0 → k = v.
Hypothesis K_size : Z.of_nat (length K) ≤ 65536.
Hypothesis symbols_size : Z.of_nat (length (bo_symbols bc)) ≤ 65536.
Hypothesis code_fits : Z.of_nat (length (bo_code bc)) < 32768.
Hypothesis slots_size : Z.of_nat nslots ≤ 65536.

Local Abbreviation C := (bo_code bc).
Local Abbreviation mok := (mok bi bc).
Local Abbreviation runs := (runs st base_frame start_sp bi self fp).
Local Abbreviation frag := (frag st Hd lit).
Local Abbreviation compiled_at := (compiled_at st).

(** ** Representation of environments *)

(** Where the compiled code finds a variable. *)
Definition slot_of (ls : list (option sym)) (slots : list loc) (g : gmap sym loc) (s : sym)
    : option loc :=
  match findLocal_in ls s 0 with Some i => slots !! i | None => g !! s end.

Definition represents (W : sym → bool) (ls : list (option sym)) (slots : list loc) (m : vm) (g : env)
    : Prop :=
  ∀ s, W s = true → ∃ l v, slot_of ls slots (vm_globals m) s = Some l ∧ val m l = Some v ∧
    g !! s = Some v ∧ clean v = true.

(** Heads hold the primitive of their name. *)
Definition prims_ok (g : env) : Prop :=
  ∀ h, Hd h = true → ∃ k p, g !! h = Some (CPrimitive k) ∧
    primitive !! k = Some (sym_name (st h), p).

Definition consts_ok (m : vm) : Prop :=
  ∀ i k, K !! i = Some k → ∃ l, bo_constants bc !! i = Some l ∧ val m l = Some k.

Record W_ok (W : sym → bool) : Prop := {
  W_it : W itSymbol = false;
  W_idx : W listIdxSymbol = false;
  W_Hd : ∀ h, Hd h = true → W h = false;
  W_self : ∀ s, self_sym = Some s → W s = false
}.

Record state_ok (W : sym → bool) (ls : list (option sym)) (base slots temps : list loc)
    (m : vm) (g : env) : Prop := {
  so_mok : mok m;
  so_consts : consts_ok m;
  so_stack : vm_stack m = base ++ slots ++ temps;
  so_base : length base = fp;
  so_slots : (nslots ≤ length slots)%nat;
  so_rep : represents W ls slots m g;
  so_prims : prims_ok g
}.

(** What a piece of code may change: the slots of variables in [W], and their
    values. *)
Record frame_ok (W : sym → bool) (ls : list (option sym)) (slots slots' : list loc) (g g' : env)
    : Prop := {
  fo_length : length slots' = length slots;
  fo_slots : ∀ i, (i < length ls)%nat →
    (∀ s, W s = true → findLocal_in ls s 0 ≠ Some i) → slots' !! i = slots !! i;
  fo_env : ∀ s, W s = false → s ≠ itSymbol → s ≠ listIdxSymbol → g' !! s = g !! s
}.

Lemma frame_refl W ls slots g : frame_ok W ls slots slots g g.
Proof. by split. Qed.

Lemma frame_trans W ls s1 s2 s3 g1 g2 g3 :
  frame_ok W ls s1 s2 g1 g2 → frame_ok W ls s2 s3 g2 g3 → frame_ok W ls s1 s3 g1 g3.
Proof.
  intros [L1 S1 E1] [L2 S2 E2]. split; [congruence|..].
  - intros i Hi Hs. rewrite S2 by done. by apply S1.
  - intros s Hs H1 H2. rewrite E2 by done. by apply E1.
Qed.

(** The machine gets from [pos] to [pos'] with a value on top of [temps]. *)
Definition reaches W ls base slots temps m g (pos pos' : nat) (P : sexp → Prop) (g' : env) : Prop :=
  ∃ m' slots' l w, runs m pos m' pos' ∧ state_ok W ls base slots' (temps ++ [l]) m' g' ∧
    val m' l = Some w ∧ clean w = true ∧ P w ∧ frame_ok W ls slots slots' g g'.

Record place_ok (pl : place) (ls : list (option sym)) : Prop := {
  pk_locals : pl_locals pl = ls;
  pk_self : pl_self pl = self_sym;
  pk_consts : constants (pl_top pl) `prefix_of` K;
  pk_syms : symbols (pl_top pl) `prefix_of` bo_symbols bc;
  pk_max : (max_locals (pl_top pl) ≤ nslots)%nat
}.

Definition correct (ev : sexp → env → result (sexp * env)) (e : sexp) : Prop :=
  ∀ W ls value pl pos b base slots temps m g v g',
    frag W ls value e = true → W_ok W → place_ok pl ls → compiled_at pl pos e b → code_at C pos b →
    ev e g = Ok (v, g') → state_ok W ls base slots temps m g →
    reaches W ls base slots temps m g pos (pos + length b) (λ w, value = true → w = v) g'.

(** ** State lemmas *)

Lemma state_step W ls base slots temps m g pos m' pos' temps' :
  state_ok W ls base slots temps m g → runs m pos m' pos' →
  vm_stack m' = base ++ slots ++ temps' → state_ok W ls base slots temps' m' g.
Proof.
  intros [] [_ E] Hs. split; try done.
  - by eapply mok_evolve.
  - intros i k Hk. destruct (so_consts0 i k Hk) as (l & Hl & Hv). exists l. split; [done|by apply E].
  - intros s Hw. destruct (so_rep0 s Hw) as (l & v & Hl & Hv & Hg & Hc). exists l, v.
    rewrite (ev_globals _ _ E). split; [done|]. split; [by apply E|done].
Qed.

(** [$it] and [$idx] are not represented. *)
Definition hidden (s : sym) : Prop := s = itSymbol ∨ s = listIdxSymbol.

Lemma state_hidden W ls base slots temps m g s x :
  W_ok W → hidden s → state_ok W ls base slots temps m g →
  state_ok W ls base slots temps m (<[s := x]> g).
Proof.
  intros [Wi Wx _ _] Hs []. split; try done.
  - intros t Ht. rewrite lookup_insert_ne by (destruct Hs; congruence). by apply so_rep0.
  - intros h Hh. rewrite lookup_insert_ne by (destruct Hs; congruence). by apply so_prims0.
Qed.

Lemma frame_hidden_l W ls slots slots' g g' s x : hidden s →
  frame_ok W ls slots slots' (<[s := x]> g) g' → frame_ok W ls slots slots' g g'.
Proof.
  intros Hs []. split; try done. intros t Ht H1 H2. rewrite fo_env0 by done.
  rewrite lookup_insert_ne; [done|]. destruct Hs; congruence.
Qed.

Lemma frame_hidden_r W ls slots slots' g g' s x : hidden s →
  frame_ok W ls slots slots' g g' → frame_ok W ls slots slots' g (<[s := x]> g').
Proof.
  intros Hs []. split; try done. intros t Ht H1 H2. rewrite lookup_insert_ne; [by apply fo_env0|].
  destruct Hs; congruence.
Qed.

(** Weakening what is known of the value. *)
Lemma reaches_mono W ls base slots temps m g pos pos' (P Q : sexp → Prop) g' :
  (∀ w, clean w = true → P w → Q w) → reaches W ls base slots temps m g pos pos' P g' →
  reaches W ls base slots temps m g pos pos' Q g'.
Proof.
  intros HQ (m' & s' & l & w & Hr & Hst & Hv & Hc & HP & Hf).
  exists m', s', l, w. auto 10.
Qed.

Lemma reaches_from_hidden W ls base slots temps m g pos pos' P g' s x : hidden s →
  reaches W ls base slots temps m (<[s := x]> g) pos pos' P g' →
  reaches W ls base slots temps m g pos pos' P g'.
Proof.
  intros Hs (m' & s' & l & w & Hr & Hst & Hv & Hc & HP & Hf). exists m', s', l, w.
  apply frame_hidden_l in Hf; auto 10.
Qed.

Lemma reaches_to_hidden W ls base slots temps m g pos pos' P g' s x : W_ok W → hidden s →
  reaches W ls base slots temps m g pos pos' P g' →
  reaches W ls base slots temps m g pos pos' P (<[s := x]> g').
Proof.
  intros HW Hs (m' & s' & l & w & Hr & Hst & Hv & Hc & HP & Hf). exists m', s', l, w.
  split; [done|]. split; [by apply state_hidden|]. split; [done|]. split; [done|].
  split; [done|]. by apply frame_hidden_r.
Qed.

(** Running a prefix first. *)
Lemma reaches_after W ls base slots slots1 temps m m1 g g1 pos pos1 pos' P g' :
  runs m pos m1 pos1 → frame_ok W ls slots slots1 g g1 →
  reaches W ls base slots1 temps m1 g1 pos1 pos' P g' →
  reaches W ls base slots temps m g pos pos' P g'.
Proof.
  intros Hr Hf (m' & s' & l & w & Hr' & Hst & Hv & Hc & HP & Hf').
  exists m', s', l, w. split; [by eapply runs_trans|]. split; [done|]. split; [done|].
  split; [done|]. split; [done|]. by eapply frame_trans.
Qed.

(** One instruction that pushes a cell. *)
Lemma reaches_push W ls base slots temps m g pos m' pos' l w (P : sexp → Prop) :
  state_ok W ls base slots temps m g → runs m pos m' pos' →
  vm_stack m' = vm_stack m ++ [l] → val m' l = Some w → clean w = true → P w →
  reaches W ls base slots temps m g pos pos' P g.
Proof.
  intros Hst Hr Hs Hv Hc HP. exists m', slots, l, w. split; [done|]. split.
  - eapply state_step; [done..|]. rewrite Hs, (so_stack _ _ _ _ _ _ _ Hst).
    by rewrite <- !app_assoc.
  - split; [done|]. split; [done|]. split; [done|apply frame_refl].
Qed.

Lemma push_nil W ls base slots temps m g pos (P : sexp → Prop) :
  state_ok W ls base slots temps m g → C !! pos = Some (op_byte OP_NIL) → P CNil →
  reaches W ls base slots temps m g pos (pos + 1) P g.
Proof.
  intros Hst Hc HP. pose proof (so_mok _ _ _ _ _ _ _ Hst) as Hm. rewrite Nat.add_1_r.
  destruct (runs_nil st base_frame start_sp bi bc self fp m pos Hm Hc) as (m' & Hr & Hs).
  eapply (reaches_push _ _ _ _ _ _ _ _ _ _ _ CNil); [done|exact Hr|exact Hs| |done|done].
  destruct Hr as [_ E]. apply E. by apply (mok_nil _ _ _ Hm).
Qed.

Lemma push_true W ls base slots temps m g pos (P : sexp → Prop) :
  state_ok W ls base slots temps m g → C !! pos = Some (op_byte OP_TRUE) → P CTrue →
  reaches W ls base slots temps m g pos (pos + 1) P g.
Proof.
  intros Hst Hc HP. pose proof (so_mok _ _ _ _ _ _ _ Hst) as Hm. rewrite Nat.add_1_r.
  destruct (runs_true st base_frame start_sp bi bc self fp m pos Hm Hc) as (m' & Hr & Hs).
  eapply (reaches_push _ _ _ _ _ _ _ _ _ _ _ CTrue); [done|exact Hr|exact Hs| |done|done].
  destruct Hr as [_ E]. apply E. by apply (mok_true _ _ _ Hm).
Qed.

Lemma stack_snoc W ls base slots temps l m g :
  state_ok W ls base slots (temps ++ [l]) m g → vm_stack m = (base ++ slots ++ temps) ++ [l].
Proof. intros [? ? Hs ? ? ? ?]. by rewrite Hs, <- !app_assoc. Qed.

(** Dropping the top of the stack. *)
Lemma step_pop W ls base slots temps l m g pos :
  state_ok W ls base slots (temps ++ [l]) m g → C !! pos = Some (op_byte OP_POP) →
  ∃ m', runs m pos m' (S pos) ∧ state_ok W ls base slots temps m' g.
Proof.
  intros Hst Hc.
  destruct (runs_pop st base_frame start_sp bi bc self fp m pos _ l (so_mok _ _ _ _ _ _ _ Hst) Hc
    (stack_snoc _ _ _ _ _ _ _ _ Hst)) as (m' & Hr & Hs).
  exists m'. split; [done|]. by eapply state_step.
Qed.

Lemma step_dup W ls base slots temps l m g pos :
  state_ok W ls base slots (temps ++ [l]) m g → C !! pos = Some (op_byte OP_DUP) →
  ∃ m', runs m pos m' (S pos) ∧ state_ok W ls base slots (temps ++ [l; l]) m' g.
Proof.
  intros Hst Hc.
  destruct (runs_dup st base_frame start_sp bi bc self fp m pos _ l (so_mok _ _ _ _ _ _ _ Hst) Hc
    (stack_snoc _ _ _ _ _ _ _ _ Hst)) as (m' & Hr & Hs).
  exists m'. split; [done|]. eapply state_step; [done..|]. by rewrite Hs, <- !app_assoc.
Qed.

Lemma code_at_fits pos b : code_at C pos b → b ≠ [] → (pos + length b ≤ length C)%nat.
Proof.
  intros Hc Hb. destruct (last b) as [x|] eqn:E; [|by apply last_None in E].
  rewrite last_lookup in E. apply Hc, lookup_lt_Some in E. destruct b; [done|]. simpl in *. lia.
Qed.

(** A jump over code that is there. *)
Lemma step_jump W ls base slots temps m g pos n target :
  state_ok W ls base slots temps m g → code_at C pos (jmp OP_JUMP n) →
  Z.of_nat target = Z.of_nat pos + 3 + n → (target ≤ length C)%nat →
  runs m pos m target.
Proof.
  intros Hst Hc Ht Hl. pose proof (jmp_at _ _ _ _ Hc) as Hp. rewrite <- (app_nil_r (jmp _ _)) in Hc.
  eapply runs_jump; [apply (so_mok _ _ _ _ _ _ _ Hst)| |exact Ht|exact Hc]. lia.
Qed.

Lemma step_branch (if_true : bool) W ls base slots temps l w m g pos n target :
  state_ok W ls base slots (temps ++ [l]) m g → val m l = Some w →
  code_at C pos (jmp (if if_true then OP_JUMP_IF_NOT_NIL else OP_JUMP_IF_NIL) n) →
  Z.of_nat target = Z.of_nat pos + 3 + n → (target ≤ length C)%nat →
  ∃ m', runs m pos m' (if Bool.eqb (truthy w) if_true then target else pos + 3)%nat ∧
    state_ok W ls base slots temps m' g.
Proof.
  intros Hst Hv Hc Ht Hl. pose proof (jmp_at _ _ _ _ Hc) as Hp. rewrite <- (app_nil_r (jmp _ _)) in Hc.
  destruct (runs_jump_if st base_frame start_sp bi bc self fp if_true m pos n []
    (base ++ slots ++ temps) l w
    (if Bool.eqb (truthy w) if_true then target else pos + 3)%nat) as (m' & Hr & Hs);
    [apply (so_mok _ _ _ _ _ _ _ Hst)|lia|by apply stack_snoc in Hst|done| |done|].
  { by destruct (Bool.eqb (truthy w) if_true). }
  exists m'. split; [done|]. by eapply state_step.
Qed.

(** ** Stores and changes of scope *)

(** What a symbol of [W] needs after a change of scope or contents: it was
    represented and kept its slot and contents, or it has a slot with its new
    contents. *)
Lemma state_rebind W W' ls ls' base slots temps m g g' :
  state_ok W' ls base slots temps m g →
  (∀ s, W s = true →
     W' s = true ∧ slot_of ls' slots (vm_globals m) s = slot_of ls slots (vm_globals m) s ∧
       g' !! s = g !! s ∨
     ∃ l v, slot_of ls' slots (vm_globals m) s = Some l ∧ val m l = Some v ∧
       g' !! s = Some v ∧ clean v = true) →
  (∀ h, Hd h = true → g' !! h = g !! h) → state_ok W ls' base slots temps m g'.
Proof.
  intros [] Hrep Hhd. split; try done.
  - intros s Hs. destruct (Hrep s Hs) as [(Hw & Es & Eg)|]; [|done].
    rewrite Es, Eg. by apply so_rep0.
  - intros h Hh. rewrite Hhd by done. by apply so_prims0.
Qed.

(** Storing in a slot that holds no symbol of [W]. *)
Lemma store_slot W ls base slots temps l m g pos k :
  state_ok W ls base slots (temps ++ [l]) m g → code_at C pos (store_code k) → (k < nslots)%nat →
  (∀ t, W t = true → findLocal_in ls t 0 ≠ Some k) →
  ∃ m', runs m pos m' (pos + length (store_code k)) ∧
    state_ok W ls base (<[k := l]> slots) temps m' g.
Proof.
  intros Hst Hc Hk Hno. pose proof Hst as [Hm Hcs Hs Hb Hsl Hrep Hpr].
  destruct (runs_store st base_frame start_sp bi bc self fp m pos base slots temps k l [])
    as (m' & Hr & Hs'); [done|lia|done|done|lia|by rewrite app_nil_r|].
  exists m'. split; [done|]. destruct Hr as [_ E]. split; try done.
  - by eapply mok_evolve.
  - intros i c Hi. destruct (Hcs i c Hi) as (l' & Hl & Hv). exists l'. split; [done|by apply E].
  - by rewrite length_insert.
  - intros s Hw. destruct (Hrep s Hw) as (l' & v & Hl & Hv & Hrest). exists l', v.
    split; [|split; [by apply E|done]]. unfold slot_of in *. rewrite (ev_globals _ _ E).
    destruct (findLocal_in ls s 0) as [i|] eqn:Ef; [|done].
    rewrite list_lookup_insert_ne; [done|]. intros ->. by apply (Hno s Hw).
Qed.

(** Storing the value of a local and setting it in the environment. *)
Lemma store_local W ls base slots temps l v m g pos k s : W_ok W → W s = true →
  state_ok W ls base slots (temps ++ [l]) m g → val m l = Some v → clean v = true →
  findLocal_in ls s 0 = Some k → (length ls ≤ nslots)%nat → code_at C pos (store_code k) →
  ∃ m', runs m pos m' (pos + length (store_code k)) ∧
    state_ok W ls base (<[k := l]> slots) temps m' (<[s := v]> g) ∧
    frame_ok W ls slots (<[k := l]> slots) g (<[s := v]> g).
Proof.
  intros HW Hs Hst Hv Hcl Hk Hln Hc. destruct (findLocal_bound _ _ _ Hk) as [Hkl _].
  assert (Hst' : state_ok (without W [s]) ls base slots (temps ++ [l]) m g).
  { eapply (state_rebind _ W); [exact Hst| |done]. intros t Ht. left.
    unfold without in Ht. by apply andb_true_iff in Ht as [-> _]. }
  destruct (store_slot _ _ _ _ _ _ _ _ _ _ Hst' Hc) as (m' & Hr & Hst2); [lia| |].
  { intros t Ht E. pose proof (findLocal_inj _ _ _ _ E Hk) as ->.
    by rewrite without_one, Nat.eqb_refl, andb_false_r in Ht. }
  exists m'. split; [done|]. pose proof (so_slots _ _ _ _ _ _ _ Hst) as Hsl. split.
  - eapply state_rebind; [exact Hst2|..].
    + intros t Ht. destruct (Nat.eqb_spec t s) as [->|Hne].
      * right. exists l, v. unfold slot_of. rewrite Hk, lookup_insert_eq.
        split; [apply list_lookup_insert_eq; lia|]. split; [by apply Hr|done].
      * left. rewrite lookup_insert_ne by done. split; [|done].
        rewrite without_one, Ht. apply Nat.eqb_neq in Hne. by rewrite Hne.
    + intros h Hh. rewrite lookup_insert_ne; [done|]. intros ->.
      rewrite (W_Hd _ HW _ Hh) in Hs. done.
  - split; [by rewrite length_insert|..].
    + intros i Hi Hno. apply list_lookup_insert_ne. intros ->. by apply (Hno s Hs).
    + intros t Ht _ _. apply lookup_insert_ne. congruence.
Qed.

(** ** Literals and variables *)

Lemma const_correct W ls pl v bs base slots temps m g pos :
  const_at st pl v bs → place_ok pl ls → const_ok lit v = true → code_at C pos bs →
  state_ok W ls base slots temps m g →
  reaches W ls base slots temps m g pos (pos + length bs) (λ w, w = v) g.
Proof.
  intros (i & k & -> & Hk & Heq) [_ _ Pk _ _] [Hlit Hcl]%andb_true_iff Hc Hst.
  assert (HkK : K !! i = Some k) by (by eapply prefix_lookup_Some).
  assert (k = v) as ->.
  { destruct Heq as [|Heq]; [done|]. apply K_inj; [by eapply list_elem_of_lookup_2|done|done]. }
  destruct (so_consts _ _ _ _ _ _ _ Hst i v HkK) as (l & Hl & Hv).
  pose proof (lookup_lt_Some _ _ _ HkK) as Hi.
  destruct (runs_const st base_frame start_sp bi bc self fp m pos i l []) as (m' & Hr & Hs);
    [apply (so_mok _ _ _ _ _ _ _ Hst)|lia|done|by rewrite app_nil_r|].
  eapply (reaches_push _ _ _ _ _ _ _ _ _ _ _ v); [done|exact Hr|exact Hs| |done|done].
  destruct Hr as [_ E]. by apply E.
Qed.

Lemma compiled_locals pl ls pos e b : compiled_at pl pos e b → place_ok pl ls →
  (length ls ≤ nslots)%nat.
Proof.
  intros (cs & ce & tl & _ & X & _ & El & Hw & _ & [_ _ Lm]) [<- _ _ _ Hm].
  rewrite <- El. unfold wf, num_locals in Hw. pose proof (emits_le _ _ _ X) as [_ _ Lm2]. lia.
Qed.

Lemma symbol_correct W ls value pl s bs base slots temps m g pos v :
  symbol_at st pl s bs → place_ok pl ls → (length ls ≤ nslots)%nat →
  frag W ls value (CSymbol s) = true → W_ok W → code_at C pos bs →
  contents s g = Ok v → state_ok W ls base slots temps m g →
  reaches W ls base slots temps m g pos (pos + length bs) (λ w, w = v) g.
Proof.
  intros Hat [El Es _ Ps _] Hln [Hw Hself]%andb_true_iff HW Hc Hg Hst.
  destruct (so_rep _ _ _ _ _ _ _ Hst s Hw) as (l & w & Hl & Hv & Hgs & Hcl).
  assert (w = v) as -> by (unfold contents in Hg; rewrite Hgs in Hg; congruence).
  unfold symbol_at, slot_of, is_local in *. rewrite El, Es in Hat.
  pose proof (so_mok _ _ _ _ _ _ _ Hst) as Hm.
  assert (X : ∃ m', runs m pos m' (pos + length bs) ∧ vm_stack m' = vm_stack m ++ [l]).
  { destruct (findLocal_in ls s 0) as [i|] eqn:Ef.
    - subst bs. apply findLocal_bound in Ef as [Hi _].
      eapply runs_load with (b := []); [done| |apply (so_base _ _ _ _ _ _ _ Hst)
        |apply (so_stack _ _ _ _ _ _ _ Hst)|done|by rewrite app_nil_r]. lia.
    - simpl in Hself. apply negb_true_iff in Hself. rewrite Hself, orb_false_r in Hat.
      assert (En : match self_sym with Some t => Nat.eqb s t | None => false end = false).
      { destruct self_sym as [t|] eqn:Et; [|done]. apply Nat.eqb_neq. intros ->.
        by rewrite (W_self _ HW t Et) in Hw. }
      rewrite En in Hat.
      destruct Hat as (i & -> & Hi). pose proof (prefix_lookup_Some _ _ _ _ Hi Ps) as Hi'.
      pose proof (lookup_lt_Some _ _ _ Hi') as Hlt.
      eapply runs_global with (b := []); [done| |exact Hi'|done|by rewrite app_nil_r]. lia. }
  destruct X as (m' & Hr & Hs).
  eapply (reaches_push _ _ _ _ _ _ _ _ _ _ _ v); [done|exact Hr|exact Hs| |done|done].
  destruct Hr as [_ E]. by apply E.
Qed.

Lemma int_correct W ls base slots temps m g pos op (P : sexp → Prop) :
  op = OP_CONST_0 ∨ op = OP_CONST_1 ∨ op = OP_CONST_2 →
  C !! pos = Some (op_byte op) → state_ok W ls base slots temps m g → P (CLong (const_op op)) →
  reaches W ls base slots temps m g pos (pos + 1) P g.
Proof.
  intros Ho Hc Hst HP. rewrite Nat.add_1_r.
  destruct (runs_int st base_frame start_sp bi bc self fp op m pos Ho (so_mok _ _ _ _ _ _ _ Hst) Hc)
    as (m' & l & Hr & Hs & Hv).
  eapply (reaches_push _ _ _ _ _ _ _ _ _ _ _ (CLong (const_op op)));
    [done|exact Hr|exact Hs|done| |done].
  by destruct Ho as [-> | [-> | ->]].
Qed.

(** A value that is dropped. *)
Lemma drop_value W ls base slots temps m g pos p1 P g1 :
  reaches W ls base slots temps m g pos p1 P g1 → C !! p1 = Some (op_byte OP_POP) →
  ∃ m' slots', runs m pos m' (S p1) ∧ state_ok W ls base slots' temps m' g1 ∧
    frame_ok W ls slots slots' g g1.
Proof.
  intros (m1 & s1 & l & w & Hr & Hst & _ & _ & _ & Hf) Hc.
  destruct (step_pop _ _ _ _ _ _ _ _ _ Hst Hc) as (m2 & Hr2 & Hst2).
  exists m2, s1. split; [by eapply runs_trans|done].
Qed.

(** ** Forms: [ev] is correct on the subexpressions *)

Section Forms.
Variable ev : sexp → env → result (sexp * env).
Hypothesis IH : ∀ e, correct ev e.

Lemma body_correct body : ∀ W ls value pl pos bs base slots temps m g v0 v g',
  body ≠ [] → frag_body frag W ls value body = true → W_ok W → place_ok pl ls →
  body_at st pl pos body bs → code_at C pos bs →
  block_loop ev body v0 g = Ok (v, g') → state_ok W ls base slots temps m g →
  reaches W ls base slots temps m g pos (pos + length bs) (λ w, value = true → w = v) g'.
Proof.
  induction body as [|e rest IHb]; intros W ls value pl pos bs base slots temps m g v0 v g'
    Hne Hf HW Hpl Hat Hc Hev Hst; [done|].
  cbn [block_loop] in Hev. apply bind_ok_inv in Hev as ([v1 g1] & He & Hev).
  destruct rest as [|e2 rest].
  { injection Hev as <- <-. exact (IH e _ _ _ _ _ _ _ _ _ _ _ _ _ Hf HW Hpl Hat Hc He Hst). }
  destruct Hat as (b & r & -> & Hb & Hat). apply code_at_app in Hc as [Hc1 Hc2].
  apply code_at_cons in Hc2 as [Hpop Hc2]. cbn [frag_body] in Hf.
  apply andb_true_iff in Hf as [Hf1 Hf2].
  destruct (drop_value _ _ _ _ _ _ _ _ _ _ _
    (IH e _ _ _ _ _ _ _ _ _ _ _ _ _ Hf1 HW Hpl Hb Hc1 He Hst) Hpop)
    as (m1 & s1 & Hr1 & Hst1 & Hfr1).
  eapply reaches_after; [exact Hr1|exact Hfr1|].
  replace (pos + length (b ++ op_byte OP_POP :: r))%nat
    with (pos + length b + 1 + length r)%nat by (rewrite length_app; simpl; lia).
  rewrite <- Nat.add_1_r in Hc2 |- *. eapply IHb; done.
Qed.

Lemma begin_correct body W ls value pl pos bs base slots temps m g v g' :
  frag_body frag W ls value body = true → W_ok W → place_ok pl ls →
  begin_at st pl pos body bs → code_at C pos bs →
  evaluateBlock ev body g = Ok (v, g') → state_ok W ls base slots temps m g →
  reaches W ls base slots temps m g pos (pos + length bs) (λ w, value = true → w = v) g'.
Proof.
  intros Hf HW Hpl Hat Hc Hev Hst. destruct body as [|e body].
  - simpl in Hat. subst bs. injection Hev as <- <-. apply code_at_cons in Hc as [Hc _].
    by apply push_nil.
  - assert (Hne : e :: body ≠ []) by done.
    exact (body_correct (e :: body) _ _ _ _ _ _ _ _ _ _ _ CNil _ _ Hne Hf HW Hpl Hat Hc Hev Hst).
Qed.

(** *** Branches *)

(** The test of a branch, and what each side still has to do. *)
Lemma branch_correct Q1 Q2 Q3 W ls pl pos bs base slots temps m g g1 g' (P : sexp → Prop) c v1 :
  branch_at Q1 Q2 Q3 pl pos bs → code_at C pos bs → W_ok W → place_ok pl ls →
  (∀ b1, Q1 pl pos b1 → compiled_at pl pos c b1) →
  frag W ls true c = true → ev c g = Ok (v1, g1) → state_ok W ls base slots temps m g →
  (∀ m1 s1 p b, truthy v1 = true → Q2 pl p b → code_at C p b →
     state_ok W ls base s1 temps m1 g1 →
     reaches W ls base s1 temps m1 g1 p (p + length b) P g') →
  (∀ m1 s1 p b, truthy v1 = false → v1 = CNil → Q3 pl p b → code_at C p b →
     state_ok W ls base s1 temps m1 g1 →
     reaches W ls base s1 temps m1 g1 p (p + length b) P g') →
  reaches W ls base slots temps m g pos (pos + length bs) P g'.
Proof.
  intros (b1 & b2 & b3 & -> & HQ1 & HQ2 & HQ3) Hc HW Hpl Hcomp Hf He Hst Hthen Helse.
  pose proof (code_at_fits _ _ Hc) as Hfit.
  assert (Hfit' : (pos + length b1 + 3 + length b2 + 3 + length b3 ≤ length C)%nat).
  { rewrite !length_app, !jmp_length in Hfit. transitivity (pos + (length b1 + (3 + (length b2 + (3 + length b3)))))%nat;
      [lia|]. apply Hfit. intros E. apply (f_equal length) in E.
    rewrite !length_app, !jmp_length in E. simpl in E. lia. }
  apply code_at_app in Hc as [Hc1 Hc]. apply code_at_app in Hc as [HcJ Hc].
  apply code_at_app in Hc as [Hc2 Hc]. apply code_at_app in Hc as [HcJ2 Hc3].
  rewrite jmp_length in *.
  destruct (IH c _ _ _ _ _ _ _ _ _ _ _ _ _ Hf HW Hpl (Hcomp _ HQ1) Hc1 He Hst)
    as (m1 & s1 & l & w & Hr1 & Hst1 & Hv1 & Hcl & Hw & Hfr1).
  specialize (Hw eq_refl). subst w.
  destruct (step_branch false _ _ _ _ _ _ _ _ _ _ _ (pos + length b1 + 3 + length b2 + 3)%nat
    Hst1 Hv1 HcJ) as (m2 & Hr2 & Hst2); [lia|lia|].
  destruct (truthy v1) eqn:Ht; simpl in Hr2.
  - eapply reaches_after; [by eapply runs_trans|exact Hfr1|].
    destruct (Hthen m2 s1 _ b2 eq_refl HQ2 Hc2 Hst2)
      as (m3 & s3 & l3 & w3 & Hr3 & Hst3 & Hv3 & Hcl3 & HP3 & Hfr3).
    assert (Hr4 : runs m3 (pos + length b1 + 3 + length b2)%nat m3
                    (pos + length (b1 ++ jmp OP_JUMP_IF_NIL (Z.of_nat (length b2 + 3)) ++ b2 ++
                       jmp OP_JUMP (Z.of_nat (length b3)) ++ b3))%nat).
    { eapply step_jump; [exact Hst3|exact HcJ2| |];
        rewrite !length_app, !jmp_length; lia. }
    exists m3, s3, l3, w3. split; [by eapply runs_trans|done].
  - eapply reaches_after; [by eapply runs_trans|exact Hfr1|].
    replace (pos + length (b1 ++ _))%nat with (pos + length b1 + 3 + length b2 + 3 + length b3)%nat
      by (rewrite !length_app, !jmp_length; lia).
    apply Helse; [done|by apply clean_false|done..].
Qed.

Lemma if_correct args W ls value pl pos bs base slots temps m g v g' :
  frag_form frag "if" W ls value args = true → W_ok W → place_ok pl ls →
  if_at st pl pos args bs → code_at C pos bs →
  p_if ev args g = Ok (v, g') → state_ok W ls base slots temps m g →
  reaches W ls base slots temps m g pos (pos + length bs) (λ w, value = true → w = v) g'.
Proof.
  intros Hf HW Hpl Hat Hc Hev Hst. unfold frag_form in Hf. cbn in Hf.
  destruct args as [|c [|t rest]]; try done. cbn [if_at] in Hat.
  unfold p_if in Hev. cbn [hd] in Hev. apply bind_ok_inv in Hev as ([v1 g1] & He & Hev).
  apply bind_ok_inv in Hev as ([v2 g2] & Hl & [= <- <-]).
  assert (Hc1 : frag W ls true c = true).
  { destruct rest as [|e [|]]; [..|done]; rewrite !andb_true_iff in Hf; tauto. }
  assert (Ht1 : frag W ls value t = true).
  { destruct rest as [|e [|]]; [..|done]; rewrite !andb_true_iff in Hf; tauto. }
  assert (Hi : hidden itSymbol) by (by left).
  apply reaches_to_hidden; [done|done|].
  eapply branch_correct with (c := c); [exact Hat|exact Hc|exact HW|exact Hpl|by intros|exact Hc1
    |exact He|exact Hst| |].
  - intros m1 s1 p b Ht Hb Hcb Hs1. cbn [if_loop] in Hl. rewrite Ht in Hl.
    eapply reaches_from_hidden; [exact Hi|].
    exact (IH t _ _ _ _ _ _ _ _ _ _ _ _ _ Ht1 HW Hpl Hb Hcb Hl
      (state_hidden _ _ _ _ _ _ _ _ _ HW Hi Hs1)).
  - intros m1 s1 p b Ht -> Hb Hcb Hs1. cbn [if_loop] in Hl. simpl in Hl.
    destruct rest as [|e [|]]; [..|done].
    + subst b. injection Hl as <- <-. apply code_at_cons in Hcb as [Hcb _].
      eapply reaches_from_hidden; [exact Hi|]. apply push_nil; [by apply state_hidden|done..].
    + apply andb_true_iff in Hf as [_ Hf2].
      apply bind_ok_inv in Hl as ([v3 g3] & He2 & Hl). cbn [if_loop] in Hl.
      assert (Hv : (v3, g3) = (v2, g2)) by (destruct (truthy v3); congruence).
      injection Hv as -> ->. eapply reaches_from_hidden; [exact Hi|].
      exact (IH e _ _ _ _ _ _ _ _ _ _ _ _ _ Hf2 HW Hpl Hb Hcb He2
        (state_hidden _ _ _ _ _ _ _ _ _ HW Hi Hs1)).
Qed.

Lemma when_correct args W ls value pl pos bs base slots temps m g v g' :
  frag_form frag "when" W ls value args = true → W_ok W → place_ok pl ls →
  when_at st pl pos args bs → code_at C pos bs →
  p_when ev args g = Ok (v, g') → state_ok W ls base slots temps m g →
  reaches W ls base slots temps m g pos (pos + length bs) (λ w, value = true → w = v) g'.
Proof.
  intros Hf HW Hpl Hat Hc Hev Hst. unfold frag_form in Hf. cbn in Hf.
  destruct args as [|c body]; [done|]. apply andb_true_iff in Hf as [Hf1 Hf2].
  unfold p_when in Hev. cbn [hd tl] in Hev. apply bind_ok_inv in Hev as ([v1 g1] & He & Hev).
  destruct body as [|e body].
  - assert (Hv : (v1, g1) = (v, g')) by (destruct (truthy v1); simpl in Hev; congruence).
    injection Hv as -> ->.
    eapply reaches_mono; [|exact (IH c _ _ _ _ _ _ _ _ _ _ _ _ _ Hf1 HW Hpl Hat Hc He Hst)].
    intros w _ Hw _. by apply Hw.
  - eapply branch_correct with (c := c); [exact Hat|exact Hc|exact HW|exact Hpl|by intros|exact Hf1
      |exact He|exact Hst| |].
    + intros m1 s1 p b Ht Hb Hcb Hs1. rewrite Ht in Hev. assert (Hne : e :: body ≠ []) by done.
      exact (body_correct (e :: body) _ _ _ _ _ _ _ _ _ _ _ _ _ _ Hne Hf2 HW Hpl Hb Hcb Hev Hs1).
    + intros m1 s1 p b Ht -> -> Hcb Hs1. simpl in Hev. injection Hev as <- <-.
      apply code_at_cons in Hcb as [Hcb _]. by apply push_nil.
Qed.

(** *** and, or, cond *)

Lemma and_chunks_correct args : ∀ W ls pl pos chs last T base slots temps m g v0 v g',
  forallb (frag W ls true) args = true → W_ok W → place_ok pl ls →
  and_chunks st pl pos args chs last → code_at C pos (layT OP_JUMP_IF_NIL T pos chs ++ last) →
  (chs ≠ [] → C !! T = Some (op_byte OP_NIL)) →
  and_loop ev args v0 g = Ok (v, g') → state_ok W ls base slots temps m g →
  reaches W ls base slots temps m g pos
    (pos + length (layT OP_JUMP_IF_NIL T pos chs ++ last)) (λ w, w = v) g' ∨
  chs ≠ [] ∧ reaches W ls base slots temps m g pos (T + 1) (λ w, w = v) g'.
Proof.
  induction args as [|e rest IHa]; intros W ls pl pos chs last T base slots temps m g v0 v g'
    Hf HW Hpl Hat Hc HT Hev Hst; [done|].
  cbn [forallb] in Hf. apply andb_true_iff in Hf as [Hf1 Hf2]. cbn [and_loop] in Hev.
  apply bind_ok_inv in Hev as ([v1 g1] & He & Hev). destruct rest as [|e2 rest].
  - destruct Hat as [-> Hb]. cbn [layT app] in *. left.
    assert (Hv : (v1, g1) = (v, g')) by (destruct (truthy v1); simpl in Hev; congruence).
    injection Hv as -> ->.
    eapply reaches_mono; [|exact (IH e _ _ _ _ _ _ _ _ _ _ _ _ _ Hf1 HW Hpl Hb Hc He Hst)].
    intros w _ Hw. by apply Hw.
  - destruct Hat as (b & r & -> & Hb & Hat). specialize (HT ltac:(done)). cbn [layT] in Hc |- *.
    rewrite <- !app_assoc in Hc |- *. apply code_at_app in Hc as [Hc1 Hc].
    apply code_at_app in Hc as [HcJ Hc]. rewrite jmp_length in *.
    destruct (IH e _ _ _ _ _ _ _ _ _ _ _ _ _ Hf1 HW Hpl Hb Hc1 He Hst)
      as (m1 & s1 & l & w & Hr1 & Hst1 & Hv1 & Hcl & Hw & Hfr1).
    specialize (Hw eq_refl). subst w. pose proof (lookup_lt_Some _ _ _ HT) as HTl.
    destruct (step_branch false _ _ _ _ _ _ _ _ _ _ _ T Hst1 Hv1 HcJ) as (m2 & Hr2 & Hst2);
      [lia|lia|].
    destruct (truthy v1) eqn:Ht; simpl in Hr2.
    + destruct (IHa _ _ _ _ _ _ T _ _ _ _ _ _ _ _ Hf2 HW Hpl Hat Hc ltac:(done) Hev Hst2)
        as [G|[_ G]]; [left|right; split; [done|]].
      * eapply reaches_after; [by eapply runs_trans|exact Hfr1|].
        rewrite !length_app, jmp_length in *.
        match goal with |- reaches _ _ _ _ _ _ _ _ ?q _ _ =>
          match type of G with reaches _ _ _ _ _ _ _ _ ?q' _ _ => replace q with q' by lia end end.
        exact G.
      * eapply reaches_after; [by eapply runs_trans|exact Hfr1|exact G].
    + injection Hev as <- <-. right. split; [done|].
      eapply reaches_after; [by eapply runs_trans|exact Hfr1|].
      apply push_nil; [done|done|]. symmetry. by apply clean_false.
Qed.

Lemma and_correct args W ls value pl pos bs base slots temps m g v g' :
  forallb (frag W ls true) args = true → W_ok W → place_ok pl ls →
  and_at st pl pos args bs → code_at C pos bs →
  p_and ev args g = Ok (v, g') → state_ok W ls base slots temps m g →
  reaches W ls base slots temps m g pos (pos + length bs) (λ w, value = true → w = v) g'.
Proof.
  intros Hf HW Hpl Hat Hc Hev Hst. destruct args as [|e args].
  { simpl in Hat. subst bs. injection Hev as <- <-. apply code_at_cons in Hc as [Hc _].
    by apply push_true. }
  destruct Hat as (chs & last & Hat & ->).
  apply (reaches_mono _ _ _ _ _ _ _ _ _ (λ w, w = v)); [by intros|]. unfold p_and in Hev.
  destruct chs as [|ch chs].
  { destruct (and_chunks_correct _ _ _ _ _ _ _ 0 _ _ _ _ _ _ _ _ Hf HW Hpl Hat Hc ltac:(done) Hev Hst)
      as [G|[? _]]; [exact G|done]. }
  set (T := (pos + length (lay0 OP_JUMP_IF_NIL (ch :: chs)) + length last + 3)%nat) in *.
  rewrite app_assoc in Hc. apply code_at_app in Hc as [Hc HcE]. apply code_at_app in HcE as [HcJ HcN].
  rewrite jmp_length, length_app, layT_length in *. apply code_at_cons in HcN as [HcN _].
  replace (pos + (length (lay0 OP_JUMP_IF_NIL (ch :: chs)) + length last) + 3)%nat with T in HcN
    by (unfold T; lia).
  match goal with |- reaches _ _ _ _ _ _ _ _ ?q _ _ => replace q with (T + 1)%nat end.
  2:{ rewrite !length_app, jmp_length. cbn [length]. unfold T. lia. }
  destruct (and_chunks_correct _ _ _ _ _ _ _ T _ _ _ _ _ _ _ _ Hf HW Hpl Hat Hc ltac:(done) Hev Hst)
    as [G|[_ G]]; [|exact G].
  destruct G as (m1 & s1 & l & w & Hr1 & Hst1 & Hrest). exists m1, s1, l, w.
  split; [|done]. eapply runs_trans; [exact Hr1|]. apply lookup_lt_Some in HcN.
  rewrite length_app, layT_length.
  eapply step_jump; [exact Hst1|exact HcJ|unfold T; lia|lia].
Qed.

(** Moves the end of a run to an equal position. *)
Lemma reaches_pos W ls base slots temps m g pos p q P g' : p = q →
  reaches W ls base slots temps m g pos p P g' → reaches W ls base slots temps m g pos q P g'.
Proof. by intros ->. Qed.

Lemma or_chunks_correct args : ∀ W ls pl pos pre chs last T base slots temps m g v0 v g',
  forallb (frag W ls true) args = true → W_ok W → place_ok pl ls →
  or_chunks st pl pos pre args chs last →
  code_at C pos (layT OP_JUMP_IF_NOT_NIL T pos chs ++ last) →
  T = (pos + length (layT OP_JUMP_IF_NOT_NIL T pos chs ++ last))%nat →
  (chs ≠ [] → (T ≤ length C)%nat) →
  or_loop ev args v0 g = Ok (v, g') → state_ok W ls base slots temps m g →
  reaches W ls base slots temps m g (pos + length pre) T (λ w, w = v) g'.
Proof.
  induction args as [|e rest IHa]; intros W ls pl pos pre chs last T base slots temps m g v0 v g'
    Hf HW Hpl Hat Hc HT HTl Hev Hst; [done|].
  cbn [forallb] in Hf. apply andb_true_iff in Hf as [Hf1 Hf2]. cbn [or_loop] in Hev.
  apply bind_ok_inv in Hev as ([v1 g1] & He & Hev). destruct Hat as (b & Hb & Hat).
  destruct rest as [|e2 rest].
  - destruct Hat as [-> ->]. cbn [layT app] in *. apply code_at_app in Hc as [_ Hc].
    assert (Hv : (v1, g1) = (v, g')) by (destruct (truthy v1); simpl in Hev; congruence).
    injection Hv as -> ->. rewrite length_app in HT.
    eapply (reaches_pos _ _ _ _ _ _ _ _ (pos + length pre + length b)%nat); [lia|].
    eapply reaches_mono; [|exact (IH e _ _ _ _ _ _ _ _ _ _ _ _ _ Hf1 HW Hpl Hb Hc He Hst)].
    intros w _ Hw. by apply Hw.
  - destruct Hat as (r & -> & Hat). specialize (HTl ltac:(done)). cbn [layT] in Hc, HT.
    rewrite <- !app_assoc in Hc, HT. rewrite !length_app, jmp_length in HT.
    rewrite !length_app in Hc. cbn [length] in *.
    apply code_at_app in Hc as [_ Hc]. apply code_at_app in Hc as [Hc1 Hc].
    apply code_at_cons in Hc as [HcD Hc]. apply code_at_app in Hc as [HcJ Hc].
    rewrite jmp_length in Hc.
    destruct (IH e _ _ _ _ _ _ _ _ _ _ _ _ _ Hf1 HW Hpl Hb Hc1 He Hst)
      as (m1 & s1 & l & w & Hr1 & Hst1 & Hv1 & Hcl & Hw & Hfr1).
    specialize (Hw eq_refl). subst w.
    destruct (step_dup _ _ _ _ _ _ _ _ _ Hst1 HcD) as (m2 & Hr2 & Hst2).
    change [l; l] with ([l] ++ [l]) in Hst2. rewrite app_assoc in Hst2.
    pose proof (ev_val _ _ (proj2 Hr2) l v1 Hv1) as Hv2.
    destruct (step_branch true _ _ _ _ _ _ _ _ _ _ _ T Hst2 Hv2 HcJ) as (m3 & Hr3 & Hst3);
      [lia|lia|].
    pose proof (runs_trans _ _ _ _ _ _ _ _ _ _ _ _ Hr1 (runs_trans _ _ _ _ _ _ _ _ _ _ _ _ Hr2 Hr3))
      as Hr. pose proof (ev_val _ _ (proj2 Hr3) l v1 Hv2) as Hv3. clear Hr1 Hr2 Hr3.
    destruct (truthy v1) eqn:Ht; simpl in Hr.
    + injection Hev as <- <-. exists m3, s1, l, v1. split; [exact Hr|]. split; [done|].
      done.
    + assert (Hpos : (pos + (length pre + (length b + 1)) + 3 =
                      S (pos + length pre + length b) + 3)%nat) by lia.
      rewrite Hpos in Hc, HT.
      pose proof Hat as Hat'. destruct rest as [|e3 rest]; cbn [or_chunks] in Hat'.
      all: destruct Hat' as (b' & _ & Hpre).
      all: assert (HcP : C !! (S (pos + length pre + length b) + 3)%nat = Some (op_byte OP_POP)).
      1:{ destruct Hpre as [-> ->]. simpl in Hc. by apply code_at_cons in Hc as [? _]. }
      2:{ destruct Hpre as (r' & -> & _). simpl in Hc. by apply code_at_cons in Hc as [? _]. }
      all: destruct (step_pop _ _ _ _ _ _ _ _ _ Hst3 HcP) as (m4 & Hr4 & Hst4).
      all: eapply reaches_after; [eapply runs_trans; [exact Hr|exact Hr4]|exact Hfr1|].
      all: rewrite <- Nat.add_1_r.
      all: replace (pos + length pre + length b + 1 + 3)%nat
             with (S (pos + length pre + length b) + 3)%nat in Hat by lia.
      all: eapply (IHa _ _ _ _ [op_byte OP_POP]); [exact Hf2|exact HW|exact Hpl|exact Hat|exact Hc|..];
        [rewrite length_app, layT_length; rewrite layT_length in HT; lia|done|exact Hev|done].
Qed.

Lemma or_correct args W ls value pl pos bs base slots temps m g v g' :
  forallb (frag W ls true) args = true → W_ok W → place_ok pl ls →
  or_at st pl pos args bs → code_at C pos bs →
  p_or ev args g = Ok (v, g') → state_ok W ls base slots temps m g →
  reaches W ls base slots temps m g pos (pos + length bs) (λ w, value = true → w = v) g'.
Proof.
  intros Hf HW Hpl Hat Hc Hev Hst. destruct args as [|e args].
  { simpl in Hat. subst bs. injection Hev as <- <-. apply code_at_cons in Hc as [Hc _].
    by apply push_nil. }
  destruct Hat as (chs & last & Hat & ->). unfold p_or in Hev.
  apply (reaches_mono _ _ _ _ _ _ _ _ _ (λ w, w = v)); [by intros|].
  set (T := (pos + length (lay0 OP_JUMP_IF_NOT_NIL chs) + length last)%nat) in *.
  assert (HT : T = (pos + length (layT OP_JUMP_IF_NOT_NIL T pos chs ++ last))%nat).
  { rewrite length_app, layT_length. unfold T. lia. }
  rewrite <- HT. rewrite <- (Nat.add_0_r pos) at 1. change 0%nat with (length (@nil Z)).
  eapply or_chunks_correct; [exact Hf|exact HW|exact Hpl|exact Hat|exact Hc|exact HT| |exact Hev|exact Hst].
  intros Hne. rewrite HT. apply code_at_fits; [done|]. destruct chs as [|ch chs]; [done|].
  intros E. apply (f_equal length) in E. cbn [layT] in E.
  rewrite !length_app, jmp_length in E. simpl in E. lia.
Qed.

(** The value of the clause before is on the stack when a clause starts. *)
Lemma clause_code pos bt bb rest :
  code_at C pos ((op_byte OP_POP :: bt ++ op_byte OP_DUP ::
    jmp OP_JUMP_IF_NIL (Z.of_nat (length bb + 3)) ++ bb) ++ rest) →
  C !! pos = Some (op_byte OP_POP) ∧ code_at C (pos + 1) bt ∧
  C !! (pos + 1 + length bt)%nat = Some (op_byte OP_DUP) ∧
  code_at C (pos + 1 + length bt + 1) (jmp OP_JUMP_IF_NIL (Z.of_nat (length bb + 3))) ∧
  code_at C (pos + 1 + length bt + 1 + 3) bb ∧
  code_at C (pos + 1 + length bt + 1 + 3 + length bb) rest.
Proof.
  cbn [app]. rewrite <- !app_assoc. cbn [app]. rewrite <- !app_assoc.
 intros [H1 Hc]%code_at_cons. rewrite <- Nat.add_1_r in Hc. apply code_at_app in Hc as [H2 Hc].
  apply code_at_cons in Hc as [H3 Hc]. rewrite <- Nat.add_1_r in Hc. apply code_at_app in Hc as [H4 Hc].
  rewrite jmp_length in Hc. apply code_at_app in Hc as [H5 Hc]. done.
Qed.

(** The body of a clause whose test is true. *)
Lemma clause_body_correct body W ls value pl pos bb base slots temps l m g v1 v g' :
  frag_body frag W ls value body = true → W_ok W → place_ok pl ls →
  clause_body_at st pl pos body bb → code_at C pos bb →
  match body with [] => Ok (v1, g) | e :: es => evaluateBlock ev (e :: es) g end = Ok (v, g') →
  state_ok W ls base slots (temps ++ [l]) m g → val m l = Some v1 → clean v1 = true →
  reaches W ls base slots temps m g pos (pos + length bb) (λ w, value = true → w = v) g'.
Proof.
  intros Hf HW Hpl Hat Hc Hev Hst Hv Hcl. destruct body as [|e body].
  - simpl in Hat. subst bb. injection Hev as <- <-. rewrite Nat.add_0_r. exists m, slots, l, v1.
    split; [apply runs_refl|]. split; [done|]. split; [done|]. split; [done|].
    split; [done|apply frame_refl].
  - destruct Hat as (r & -> & Hat). apply code_at_cons in Hc as [HcP Hc].
    destruct (step_pop _ _ _ _ _ _ _ _ _ Hst HcP) as (m1 & Hr1 & Hst1).
    eapply reaches_after; [exact Hr1|apply frame_refl|]. rewrite <- Nat.add_1_r in Hc |- *.
    eapply (reaches_pos _ _ _ _ _ _ _ _ (pos + 1 + length r)%nat); [simpl; lia|].
    assert (Hne : e :: body ≠ []) by done.
    exact (body_correct (e :: body) _ _ _ _ _ _ _ _ _ _ _ CNil _ _ Hne Hf HW Hpl Hat Hc Hev Hst1).
Qed.

Lemma cond_chunks_correct clauses : ∀ W ls value pl pos chs T base slots temps l0 w0 m g v0 v g',
  frag_clauses frag W ls value clauses = true → W_ok W → place_ok pl ls →
  cond_chunks st pl pos clauses chs → code_at C pos (layT OP_JUMP T pos chs) →
  T = (pos + length (lay0 OP_JUMP chs))%nat → (T ≤ length C)%nat →
  cond_loop ev clauses v0 g = Ok (v, g') → state_ok W ls base slots (temps ++ [l0]) m g →
  val m l0 = Some w0 → clean w0 = true → (value = true → w0 = v0) →
  reaches W ls base slots temps m g pos T (λ w, value = true → w = v) g'.
Proof.
  induction clauses as [|cl rest IHc]; intros W ls value pl pos chs T base slots temps l0 w0 m g
    v0 v g' Hf HW Hpl Hat Hc HT HTl Hev Hst Hv0 Hcl0 Hw0.
  { simpl in Hat. subst chs. simpl in HT. rewrite Nat.add_0_r in HT. subst T.
    injection Hev as <- <-. exists m, slots, l0, w0. split; [apply runs_refl|].
    split; [done|]. split; [done|]. split; [done|]. split; [done|apply frame_refl]. }
  destruct cl as [| | | | | | | | |[|test body]| |]; try done. cbn [frag_clauses] in Hf.
  apply andb_true_iff in Hf as [Hf Hf3]. apply andb_true_iff in Hf as [Hf1 Hf2].
  destruct Hat as (b & r & -> & (bt & bb & -> & Hbt & Hbb) & Hat).
  cbn [layT lay0] in Hc, HT. apply clause_code in Hc as (HcP & Hct & HcD & HcJ & Hcb & Hc).
  apply code_at_app in Hc as [HcT Hc]. rewrite jmp_length in Hc.
  assert (El : length (op_byte OP_POP :: bt ++ op_byte OP_DUP ::
    jmp OP_JUMP_IF_NIL (Z.of_nat (length bb + 3)) ++ bb) =
    (1 + length bt + 1 + 3 + length bb)%nat).
  { cbn [length]. rewrite length_app. cbn [length]. rewrite length_app, jmp_length. lia. }
  rewrite !length_app, El, ?jmp_length in HT. rewrite El in Hat, Hc, HcT.
  cbn [cond_loop hd tl] in Hev. apply bind_ok_inv in Hev as ([v1 g1] & He & Hev).
  destruct (step_pop _ _ _ _ _ _ _ _ _ Hst HcP) as (m1 & Hr1 & Hst1).
  rewrite <- (Nat.add_1_r pos) in Hr1.
  destruct (IH test _ _ _ _ _ _ _ _ _ _ _ _ _ Hf1 HW Hpl Hbt Hct He Hst1)
    as (m2 & s2 & l & w & Hr2 & Hst2 & Hv2 & Hcl & Hw & Hfr).
  specialize (Hw eq_refl). subst w.
  destruct (step_dup _ _ _ _ _ _ _ _ _ Hst2 HcD) as (m3 & Hr3 & Hst3).
  rewrite <- (Nat.add_1_r (pos + 1 + _)) in Hr3.
  change [l; l] with ([l] ++ [l]) in Hst3. rewrite app_assoc in Hst3.
  pose proof (ev_val _ _ (proj2 Hr3) l v1 Hv2) as Hv3.
  set (next := (pos + (1 + length bt + 1 + 3 + length bb) + 3)%nat) in *.
  destruct (step_branch false _ _ _ _ _ _ _ _ _ _ _ next Hst3 Hv3 HcJ) as (m4 & Hr4 & Hst4);
    [unfold next; lia|unfold next; lia|].
  pose proof (runs_trans _ _ _ _ _ _ _ _ _ _ _ _ Hr1 (runs_trans _ _ _ _ _ _ _ _ _ _ _ _ Hr2
    (runs_trans _ _ _ _ _ _ _ _ _ _ _ _ Hr3 Hr4))) as Hr.
  pose proof (ev_val _ _ (proj2 Hr4) l v1 Hv3) as Hv4. clear Hr1 Hr2 Hr3 Hr4.
  eapply reaches_after; [exact Hr|exact Hfr|].
  destruct (truthy v1) eqn:Ht; simpl in Hr |- *.
  - destruct (clause_body_correct _ _ _ _ _ _ _ _ _ _ _ _ _ _ _ _ Hf2 HW Hpl Hbb Hcb Hev Hst4 Hv4 Hcl)
      as (m5 & s5 & l5 & w5 & Hr5 & Hst5 & Hrest). exists m5, s5, l5, w5. split; [|done].
    eapply runs_trans; [exact Hr5|]. eapply step_jump; [exact Hst5|exact HcT| |done]. lia.
  - replace (pos + 1 + length bt + 1 + 3 + length bb + 3)%nat with next in Hc by (unfold next; lia).
    eapply IHc; [exact Hf3|exact HW|exact Hpl|exact Hat|exact Hc| |exact HTl|exact Hev|exact Hst4
      |exact Hv4|exact Hcl|done]. unfold next. lia.
Qed.

Lemma cond_correct args W ls value pl pos bs base slots temps m g v g' :
  frag_clauses frag W ls value args = true → W_ok W → place_ok pl ls →
  cond_at st pl pos args bs → code_at C pos bs →
  p_condition ev args g = Ok (v, g') → state_ok W ls base slots temps m g →
  reaches W ls base slots temps m g pos (pos + length bs) (λ w, value = true → w = v) g'.
Proof.
  intros Hf HW Hpl Hat Hc Hev Hst. destruct args as [|cl args].
  { simpl in Hat. subst bs. injection Hev as <- <-. apply code_at_cons in Hc as [Hc _].
    by apply push_nil. }
  destruct Hat as (chs & Hat & ->).
  set (T := (pos + 1 + length (lay0 OP_JUMP chs))%nat) in *.
  pose proof (code_at_fits _ _ Hc ltac:(done)) as HTl. cbn [length] in HTl.
  rewrite layT_length in HTl. apply code_at_cons in Hc as [HcN Hc]. rewrite <- Nat.add_1_r in Hc.
  destruct (push_nil _ _ _ _ _ _ _ _ (λ w, w = CNil) Hst HcN eq_refl)
    as (m1 & s1 & l1 & w1 & Hr1 & Hst1 & Hv1 & Hcl1 & -> & Hfr1).
  eapply reaches_after; [exact Hr1|exact Hfr1|].
  eapply (reaches_pos _ _ _ _ _ _ _ _ T); [cbn [length]; rewrite layT_length; unfold T; lia|].
  eapply cond_chunks_correct; [exact Hf|exact HW|exact Hpl|exact Hat|exact Hc|done| |exact Hev
    |exact Hst1|exact Hv1|done|done]. unfold T. lia.
Qed.


(** *** while *)

Lemma loop_body_correct body : ∀ W ls pl pos bs base slots temps m g v0 v g',
  forallb (frag W ls false) body = true → W_ok W → place_ok pl ls →
  loop_at st pl pos body bs → code_at C pos bs →
  block_loop ev body v0 g = Ok (v, g') → state_ok W ls base slots temps m g →
  ∃ m' slots', runs m pos m' (pos + length bs) ∧ state_ok W ls base slots' temps m' g' ∧
    frame_ok W ls slots slots' g g'.
Proof.
  induction body as [|e rest IHb]; intros W ls pl pos bs base slots temps m g v0 v g'
    Hf HW Hpl Hat Hc Hev Hst.
  { simpl in Hat. subst bs. injection Hev as <- <-. rewrite Nat.add_0_r. exists m, slots.
    split; [apply runs_refl|]. split; [done|apply frame_refl]. }
  cbn [forallb] in Hf. apply andb_true_iff in Hf as [Hf1 Hf2].
  destruct Hat as (b & r & -> & Hb & Hat). apply code_at_app in Hc as [Hc1 Hc].
  apply code_at_cons in Hc as [HcP Hc]. cbn [block_loop] in Hev.
  apply bind_ok_inv in Hev as ([v1 g1] & He & Hev).
  destruct (drop_value _ _ _ _ _ _ _ _ _ _ _
    (IH e _ _ _ _ _ _ _ _ _ _ _ _ _ Hf1 HW Hpl Hb Hc1 He Hst) HcP) as (m1 & s1 & Hr1 & Hst1 & Hfr1).
  rewrite <- (Nat.add_1_r (pos + length b)) in Hc, Hr1.
  destruct (IHb _ _ _ _ _ _ _ _ _ _ _ _ _ Hf2 HW Hpl Hat Hc Hev Hst1)
    as (m2 & s2 & Hr2 & Hst2 & Hfr2). exists m2, s2.
  split; [|split; [done|by eapply frame_trans]].
  replace (pos + length (b ++ op_byte OP_POP :: r))%nat with (pos + length b + 1 + length r)%nat
    by (rewrite length_app; simpl; lia).
  by eapply runs_trans.
Qed.

Lemma while_loop_correct c body W ls pl pos b1 b2 base temps n : ∀ slots m g k v0 v g',
  frag W ls true c = true → forallb (frag W ls false) body = true → W_ok W → place_ok pl ls →
  compiled_at pl pos c b1 → loop_at st pl (pos + length b1 + 3) body b2 →
  code_at C pos (b1 ++ jmp OP_JUMP_IF_NIL (Z.of_nat (length b2 + 3)) ++ b2 ++
    jmp OP_JUMP (- Z.of_nat (length b1 + 3 + length b2 + 3)) ++ [op_byte OP_NIL]) →
  while_loop ev n c body k v0 g = Ok (v, g') → state_ok W ls base slots temps m g →
  reaches W ls base slots temps m g pos (pos + length b1 + 3 + length b2 + 3 + 1) (λ w, w = CNil) g'.
Proof.
  induction n as [|n IHn]; intros slots m g k v0 v g' Hf1 Hf2 HW Hpl Hb1 Hb2 Hc Hev Hst; [done|].
  pose proof Hc as Hc'. apply code_at_app in Hc' as [Hc1 Hc']. apply code_at_app in Hc' as [HcJ Hc'].
  apply code_at_app in Hc' as [Hc2 Hc']. apply code_at_app in Hc' as [HcB HcN].
  rewrite !jmp_length in *. apply code_at_cons in HcN as [HcN _].
  cbn [while_loop] in Hev. apply bind_ok_inv in Hev as ([v1 g1] & He & Hev).
  destruct (IH c _ _ _ _ _ _ _ _ _ _ _ _ _ Hf1 HW Hpl Hb1 Hc1 He Hst)
    as (m1 & s1 & l & w & Hr1 & Hst1 & Hv1 & Hcl & Hw & Hfr1).
  specialize (Hw eq_refl). subst w. pose proof (lookup_lt_Some _ _ _ HcN) as Hlt.
  destruct (step_branch false _ _ _ _ _ _ _ _ _ _ _ (pos + length b1 + 3 + length b2 + 3)%nat
    Hst1 Hv1 HcJ) as (m2 & Hr2 & Hst2); [lia|lia|].
  eapply reaches_after; [by eapply runs_trans|exact Hfr1|].
  destruct (truthy v1); simpl.
  - apply bind_ok_inv in Hev as ([v2 g2] & Hbl & Hev).
    destruct (loop_body_correct _ _ _ _ _ _ _ _ _ _ _ _ _ _ Hf2 HW Hpl Hb2 Hc2 Hbl Hst2)
      as (m3 & s3 & Hr3 & Hst3 & Hfr3).
    assert (Hr4 : runs m3 (pos + length b1 + 3 + length b2)%nat m3 pos).
    { eapply step_jump; [exact Hst3|exact HcB|lia|lia]. }
    eapply reaches_after; [by eapply runs_trans|exact Hfr3|].
    assert (Hi : hidden listIdxSymbol) by (by right).
    eapply reaches_from_hidden; [exact Hi|].
    exact (IHn _ _ _ _ _ _ _ Hf1 Hf2 HW Hpl Hb1 Hb2 Hc Hev (state_hidden _ _ _ _ _ _ _ _ _ HW Hi Hst3)).
  - injection Hev as <- <-. by apply push_nil.
Qed.

Lemma while_correct n args W ls pl pos bs base slots temps m g v g' :
  match args with
  | c :: body => frag W ls true c && forallb (frag W ls false) body
  | [] => false
  end = true → W_ok W → place_ok pl ls →
  while_at st pl pos args bs → code_at C pos bs →
  p_while ev n args g = Ok (v, g') → state_ok W ls base slots temps m g →
  reaches W ls base slots temps m g pos (pos + length bs) (λ w, w = CNil) g'.
Proof.
  intros Hf HW Hpl Hat Hc Hev Hst. destruct args as [|c body]; [done|].
  apply andb_true_iff in Hf as [Hf1 Hf2]. destruct Hat as (b1 & b2 & -> & Hb1 & Hb2).
  unfold p_while in Hev. cbn [hd tl] in Hev. apply bind_ok_inv in Hev as (saved & _ & Hev).
  apply bind_ok_inv in Hev as ([v1 g1] & Hev & [= <- <-]).
  assert (Hi : hidden listIdxSymbol) by (by right).
  apply reaches_to_hidden; [done|done|]. eapply reaches_from_hidden; [exact Hi|].
  eapply (reaches_pos _ _ _ _ _ _ _ _ (pos + length b1 + 3 + length b2 + 3 + 1)%nat).
  { rewrite !length_app, !jmp_length. simpl. lia. }
  exact (while_loop_correct _ _ _ _ _ _ _ _ _ _ _ _ _ _ _ _ _ _ Hf1 Hf2 HW Hpl Hb1 Hb2 Hc Hev
    (state_hidden _ _ _ _ _ _ _ _ _ HW Hi Hst)).
Qed.

(** *** setq *)

Lemma setf_correct W ls pl pos b k s e base slots temps m g v g' :
  W s = true → findLocal_in ls s 0 = Some k → frag W ls true e = true → W_ok W → place_ok pl ls →
  compiled_at pl pos e b → code_at C pos (b ++ op_byte OP_DUP :: store_code k) →
  setf_symbol st ev s e g = Ok (v, g') → state_ok W ls base slots temps m g →
  reaches W ls base slots temps m g pos (pos + length b + 1 + length (store_code k))
    (λ w, w = v) g'.
Proof.
  intros Hs Hk Hf HW Hpl Hb Hc Hev Hst. unfold setf_symbol in Hev.
  apply bind_ok_inv in Hev as (old & _ & Hev). destruct (_ || _); [done|].
  destruct (isProtected _); [done|]. apply bind_ok_inv in Hev as ([v1 g1] & He & [= <- <-]).
  apply code_at_app in Hc as [Hc1 Hc]. apply code_at_cons in Hc as [HcD HcS].
  assert (Hi : hidden itSymbol) by (by left).
  destruct (IH e _ _ _ _ _ _ _ _ _ _ _ _ _ Hf HW Hpl Hb Hc1 He
      (state_hidden _ _ _ _ _ _ _ _ _ HW Hi Hst))
    as (m1 & s1 & l & w & Hr1 & Hst1 & Hv1 & Hcl & Hw & Hfr1).
  specialize (Hw eq_refl). subst w. apply frame_hidden_l in Hfr1; [|done].
  apply frame_hidden_r with (s := itSymbol) (x := CNil) in Hfr1; [|done].
  apply state_hidden with (s := itSymbol) (x := CNil) in Hst1; [|done|done].
  destruct (step_dup _ _ _ _ _ _ _ _ _ Hst1 HcD) as (m2 & Hr2 & Hst2).
  change [l; l] with ([l] ++ [l]) in Hst2. rewrite app_assoc in Hst2.
  pose proof (ev_val _ _ (proj2 Hr2) l v1 Hv1) as Hv2.
  destruct (store_local _ _ _ _ _ _ _ _ _ _ _ _ HW Hs Hst2 Hv2 Hcl Hk
    (compiled_locals _ _ _ _ _ Hb Hpl) HcS) as (m3 & Hr3 & Hst3 & Hfr3).
  exists m3, (<[k := l]> s1), l, v1. split.
  { eapply runs_trans; [exact Hr1|]. eapply runs_trans; [exact Hr2|].
    by rewrite (Nat.add_1_r (pos + length b)). }
  split; [done|]. split; [by apply Hr3|]. split; [done|]. split; [done|].
  by eapply frame_trans.
Qed.

Lemma set_correct pairs : ∀ W ls pl pos bs base slots temps m g v g',
  pairs ≠ [] → frag_set frag W ls pairs = true → W_ok W → place_ok pl ls →
  set_at st pl pos true pairs bs → code_at C pos bs →
  p_setf st ev pairs g = Ok (v, g') → state_ok W ls base slots temps m g →
  reaches W ls base slots temps m g pos (pos + length bs) (λ w, w = v) g'.
Proof.
  induction pairs as [pairs IHn] using (induction_ltof1 _ (@length sexp)); unfold ltof in IHn.
  intros W ls pl pos bs base slots temps m g v g' Hne Hf HW Hpl Hat Hc Hev Hst.
  destruct pairs as [|p [|e rest]]; [done|done|]. destruct p; try done.
  cbn [frag_set] in Hf. rewrite !andb_true_iff in Hf. destruct Hf as [[[Hs Hl] Hf1] Hf2].
  destruct Hat as (s' & b & w & [= <-] & Hb & Hw & Hat). unfold is_local in Hl.
  unfold store_at in Hw. rewrite (pk_locals _ _ Hpl) in Hw.
  destruct (findLocal_in ls s 0) as [k|] eqn:Hk; [|done]. subst w.
  cbn [p_setf] in Hev. apply bind_ok_inv in Hev as ([v1 g1] & He & Hev).
  destruct rest as [|p2 rest].
  - subst bs. injection Hev as <- <-.
    eapply reaches_pos; [|exact (setf_correct _ _ _ _ _ _ _ _ _ _ _ _ _ _ _ Hs Hk Hf1 HW Hpl Hb Hc He Hst)].
    rewrite length_app. simpl. lia.
  - destruct Hat as (r & -> & Hat).
    replace (b ++ op_byte OP_DUP :: store_code k ++ op_byte OP_POP :: r)
      with ((b ++ op_byte OP_DUP :: store_code k) ++ op_byte OP_POP :: r) in Hc |- *
      by (rewrite <- app_assoc; done).
    apply code_at_app in Hc as [Hc1 Hc].
    assert (El : length (b ++ op_byte OP_DUP :: store_code k) =
      (length b + 1 + length (store_code k))%nat) by (rewrite length_app; simpl; lia).
    rewrite length_app, El. rewrite El, !Nat.add_assoc in Hc.
    apply code_at_cons in Hc as [HcP Hc].
    destruct (drop_value _ _ _ _ _ _ _ _ _ _ _
      (setf_correct _ _ _ _ _ _ _ _ _ _ _ _ _ _ _ Hs Hk Hf1 HW Hpl Hb Hc1 He Hst) HcP)
      as (m1 & s1 & Hr1 & Hst1 & Hfr1).
    rewrite <- (Nat.add_1_r (_ + length (store_code k))) in Hc, Hr1.
    eapply reaches_after; [exact Hr1|exact Hfr1|].
    eapply reaches_pos; [|eapply (IHn (p2 :: rest)); [simpl; lia|done|exact Hf2|exact HW|exact Hpl
      |exact Hat|exact Hc|exact Hev|exact Hst1]]. simpl. lia.
Qed.

(** *** let, local *)

(** Variables other than the new one are where they were. *)
Lemma state_scope W ls base slots temps m g s : W s = false →
  state_ok W ls base slots temps m g → state_ok W (ls ++ [Some s]) base slots temps m g.
Proof.
  intros Hs Hst. eapply state_rebind; [exact Hst| |done]. intros t Ht. left.
  split; [done|]. split; [|done]. unfold slot_of. rewrite findLocal_app. simpl.
  rewrite decide_False; [done|]. congruence.
Qed.

Lemma frame_scope W ls x slots slots' g g' : (∀ s, s ∈ x → W s = false) →
  frame_ok W (ls ++ (Some <$> x)) slots slots' g g' → frame_ok W ls slots slots' g g'.
Proof.
  intros Hx []. split; [done| |done]. intros i Hi Hno. apply fo_slots0.
  { rewrite length_app. lia. }
  intros s Hs E. rewrite findLocal_app in E. destruct (findLocal_in _ s 0) as [j|] eqn:Ej.
  - injection E as <-. lia.
  - by apply (Hno s Hs).
Qed.


Lemma place_inner pl ls ss : place_ok pl ls → place_ok (inner pl ss) (ls ++ (Some <$> ss)).
Proof. intros [<- ? ? ? ?]. by split. Qed.

(** The values of the bindings go to the new slots, while the environment still
    holds the old contents. *)
Lemma inits_correct ps : ∀ W ls pl pos bs base slots temps m g vals g',
  frag_pairs frag W ls ps = true → (∀ p, p ∈ ps → W (fst p) = false) → W_ok W → place_ok pl ls →
  bind_at st pl pos ps bs → code_at C pos bs → run_inits ev ps g = Ok (vals, g') →
  state_ok W ls base slots temps m g →
  ∃ m' slots', runs m pos m' (pos + length bs) ∧
    state_ok W (ls ++ (Some <$> (fst <$> ps))) base slots' temps m' g' ∧
    frame_ok W ls slots slots' g g' ∧ fst <$> vals = fst <$> ps ∧
    ∀ i s v, vals !! i = Some (s, v) →
      ∃ l, slots' !! (length ls + i)%nat = Some l ∧ val m' l = Some v ∧ clean v = true.
Proof.
  induction ps as [|[s init] ps IHp]; intros W ls pl pos bs base slots temps m g vals g'
    Hf Hno HW Hpl Hat Hc Hev Hst.
  { simpl in Hat. subst bs. injection Hev as <- <-. rewrite Nat.add_0_r, app_nil_r.
    exists m, slots. split; [apply runs_refl|]. split; [done|]. split; [apply frame_refl|].
    split; [done|]. intros i s v Hi. by rewrite lookup_nil in Hi. }
  destruct Hat as (b & r & -> & Hmax & Hb & Hat). rewrite (pk_locals _ _ Hpl) in Hmax, Hc, Hat |- *.
  pose proof (pk_max _ _ Hpl) as Hmax'.
  apply code_at_app in Hc as [Hc1 Hc]. apply code_at_app in Hc as [HcS Hc].
  cbn [frag_pairs run_inits] in Hf, Hev. apply andb_true_iff in Hf as [Hf1 Hf2].
  apply bind_ok_inv in Hev as ([v1 g1] & Hv & Hev).
  apply bind_ok_inv in Hev as ([vs g2] & Hvs & [= <- <-]).
  assert (Hs : W s = false) by (apply (Hno (s, init)); left).
  pose proof (place_inner _ _ [s] Hpl) as Hpl1. simpl in Hpl1.
  pose proof (state_scope _ _ _ _ _ _ _ _ Hs Hst) as Hst0.
  assert (Hr : reaches W (ls ++ [Some s]) base slots temps m g pos (pos + length b)
                 (λ w, w = v1) g1).
  { destruct init as [e|].
    - eapply reaches_mono; [|exact (IH e _ _ _ _ _ _ _ _ _ _ _ _ _ Hf1 HW Hpl1 Hb Hc1 Hv Hst0)].
      intros w _ Hw. by apply Hw.
    - subst b. injection Hv as <- <-. apply code_at_cons in Hc1 as [Hc1 _]. by apply push_nil. }
  destruct Hr as (m1 & s1 & l & w & Hr1 & Hst1 & Hv1 & Hcl & -> & Hfr1).
  assert (Hlast : ∀ t, W t = true → findLocal_in (ls ++ [Some s]) t 0 ≠ Some (length ls)).
  { intros t Ht E. apply findLocal_bound in E as [_ E].
    rewrite lookup_app_r, Nat.sub_diag in E by done. injection E as ->. congruence. }
  destruct (store_slot _ _ _ _ _ _ _ _ _ _ Hst1 HcS) as (m2 & Hr2 & Hst2); [lia|done|].
  assert (Hno' : ∀ p, p ∈ ps → W (fst p) = false) by (intros p Hp; apply Hno; by right).
  destruct (IHp _ _ _ _ _ _ _ _ _ _ _ _ Hf2 Hno' HW Hpl1 Hat Hc Hvs Hst2)
    as (m3 & s3 & Hr3 & Hst3 & Hfr3 & Efst & Hvals).
  rewrite <- app_assoc in Hst3. exists m3, s3.
  assert (Hsx : ∀ t, t ∈ [s] → W t = false) by (intros t Ht; apply list_elem_of_singleton in Ht; congruence).
  split; [|split; [exact Hst3|split; [|split]]].
  - rewrite !length_app, !Nat.add_assoc. eapply runs_trans; [exact Hr1|]. by eapply runs_trans.
  - apply (frame_scope _ _ [s]) in Hfr1, Hfr3; [|done..].
    eapply frame_trans; [exact Hfr1|]. eapply frame_trans; [|exact Hfr3].
    split; [by rewrite length_insert| |done]. intros i Hi _. apply list_lookup_insert_ne. lia.
  - cbn [fmap list_fmap fst]. by rewrite Efst.
  - intros [|i] t v Hi; simpl in Hi.
    + injection Hi as <- <-. exists l. rewrite Nat.add_0_r.
      rewrite (fo_slots _ _ _ _ _ _ Hfr3); [| |done].
      2:{ rewrite length_app. simpl. lia. }
      pose proof (so_slots _ _ _ _ _ _ _ Hst1).
      split; [apply list_lookup_insert_eq; lia|]. split; [|done]. apply Hr3. by apply Hr2.
    + destruct (Hvals i t v Hi) as (l' & Hl' & Hrest). exists l'. split; [|done].
      rewrite length_app in Hl'. simpl in Hl'.
      by replace (length ls + S i)%nat with (length ls + 1 + i)%nat by lia.
Qed.


Lemma W_ok_without W ss : W_ok W → W_ok (without W ss).
Proof.
  intros [H1 H2 H3 H4]. unfold without. split; [by rewrite H1|by rewrite H2|..].
  - intros h Hh. by rewrite (H3 h Hh).
  - intros s Hs. by rewrite (H4 s Hs).
Qed.

Lemma lookup_fst (vals : list (sym * sexp)) i s v : vals !! i = Some (s, v) → s ∈ fst <$> vals.
Proof. intros Hi. apply list_elem_of_fmap. exists (s, v). split; [done|by eapply list_elem_of_lookup_2]. Qed.

(** Binding the symbols makes the new slots represent them. *)
Lemma open_scope W ls base slots temps m g1 vals es g2 : W_ok W → forallb W (fst <$> vals) = true →
  state_ok (without W (fst <$> vals)) (ls ++ (Some <$> (fst <$> vals))) base slots temps m g1 →
  (∀ i s v, vals !! i = Some (s, v) →
      ∃ l, slots !! (length ls + i)%nat = Some l ∧ val m l = Some v ∧ clean v = true) →
  bind_all st vals [] g1 = Ok (es, g2) →
  state_ok W (ls ++ (Some <$> (fst <$> vals))) base slots temps m g2.
Proof.
  intros HW Hall Hst Hvals Hb. eapply state_rebind; [exact Hst|..].
  - intros s Hs. pose proof (bind_all_bound _ _ _ _ _ _ s Hb) as Hg.
    unfold slot_of. rewrite findLocal_app.
    destruct (findLocal_in (Some <$> (fst <$> vals)) s 0) as [i|] eqn:Ef.
    + right. destruct Hg as (v & Hi & Hg). destruct (Hvals _ _ _ Hi) as (l & Hl & Hv & Hc).
      by exists l, v.
    + left. by rewrite without_spec, Ef, Hs.
  - intros h Hh. pose proof (bind_all_bound _ _ _ _ _ _ h Hb) as Hg.
    destruct (findLocal_in (Some <$> (fst <$> vals)) h 0) as [i|] eqn:Ef; [|done].
    destruct Hg as (v & Hi & _). apply lookup_fst in Hi.
    rewrite forallb_forall in Hall. specialize (Hall h). rewrite <- list_elem_of_In in Hall.
    rewrite (W_Hd _ HW h Hh) in Hall. by specialize (Hall Hi).
Qed.

(** What leaving the scope needs to know of the slots and contents behind it. *)
Lemma close_frame W ls ss slots s1 s2 g g1 g2 g3 g' : forallb W ss = true →
  frame_ok (without W ss) ls slots s1 g g1 →
  frame_ok W (ls ++ (Some <$> ss)) s1 s2 g2 g3 →
  (∀ s, findLocal_in (Some <$> ss) s 0 = None → g2 !! s = g1 !! s) →
  (∀ s, g' !! s = match findLocal_in (Some <$> ss) s 0 with Some _ => g1 !! s | None => g3 !! s end) →
  frame_ok W ls slots s2 g g' ∧
  ∀ i s, findLocal_in ls s 0 = Some i → findLocal_in (Some <$> ss) s 0 ≠ None → s2 !! i = slots !! i.
Proof.
  intros Hall [L1 S1 E1] [L2 S2 E2] Hg2 Hg'.
  assert (Hback : ∀ s i, (i < length ls)%nat → findLocal_in (ls ++ (Some <$> ss)) s 0 = Some i →
    findLocal_in (Some <$> ss) s 0 = None ∧ findLocal_in ls s 0 = Some i).
  { intros s i Hi E. rewrite findLocal_app in E.
    destruct (findLocal_in (Some <$> ss) s 0); [|done]. injection E as <-. lia. }
  split; [split; [congruence|..]|].
  - intros i Hi Hno. rewrite S2, S1; [done|done| |rewrite length_app; lia|].
    + intros s Hs. apply Hno. unfold without in Hs. by apply andb_true_iff in Hs as [? _].
    + intros s Hs E. apply Hback in E as [_ E]; [|done]. by apply (Hno s Hs).
  - intros s Hs H1 H2. rewrite Hg'. rewrite <- (E1 s); [|by unfold without; rewrite Hs|done..].
    destruct (findLocal_in (Some <$> ss) s 0) eqn:Ef; [done|].
    rewrite E2 by done. by apply Hg2.
  - intros i s Hi Hin. destruct (findLocal_bound _ _ _ Hi) as [Hlt _].
    rewrite S2, S1; [done|done| |rewrite length_app; lia|].
    + intros t Ht E. pose proof (findLocal_inj _ _ _ _ E Hi) as ->.
      rewrite without_spec in Ht. destruct (findLocal_in (Some <$> ss) s 0); [|done].
      by rewrite andb_false_r in Ht.
    + intros t Ht E. apply Hback in E as [En E]; [|done].
      by rewrite (findLocal_inj _ _ _ _ E Hi) in En.
Qed.

Lemma scope_correct W ls value pl pos ps body bs base slots temps m g vals g1 es g2 v g' :
  forallb W (fst <$> ps) = true → frag_pairs frag (without W (fst <$> ps)) ls ps = true →
  frag_body frag W (ls ++ (Some <$> (fst <$> ps))) value body = true → W_ok W → place_ok pl ls →
  scope_at st pl pos ps body bs → code_at C pos bs →
  run_inits ev ps g = Ok (vals, g1) → bind_all st vals [] g1 = Ok (es, g2) →
  eval_let_body ev es body g2 = Ok (v, g') → state_ok W ls base slots temps m g →
  reaches W ls base slots temps m g pos (pos + length bs) (λ w, value = true → w = v) g'.
Proof.
  intros Hall Hf1 Hf2 HW Hpl (b1 & b2 & -> & Hb1 & Hb2) Hc Hin Hbind Hev Hst.
  apply code_at_app in Hc as [Hc1 Hc2]. unfold eval_let_body in Hev.
  apply bind_ok_inv in Hev as ([v3 g3] & Hev & [= <- <-]).
  assert (Hst0 : state_ok (without W (fst <$> ps)) ls base slots temps m g).
  { eapply (state_rebind _ W); [exact Hst| |done]. intros t Ht. left.
    unfold without in Ht. by apply andb_true_iff in Ht as [-> _]. }
  assert (Hno : ∀ p, p ∈ ps → without W (fst <$> ps) (fst p) = false).
  { intros p Hp. unfold without. apply andb_false_iff. right. apply negb_false_iff, existsb_exists.
    exists (fst p). split; [|apply Nat.eqb_refl]. apply list_elem_of_In, list_elem_of_fmap. by exists p. }
  destruct (inits_correct _ _ _ _ _ _ _ _ _ _ _ _ _ Hf1 Hno (W_ok_without _ _ HW) Hpl Hb1 Hc1 Hin Hst0)
    as (m1 & s1 & Hr1 & Hst1 & Hfr1 & Efst & Hvals).
  rewrite <- Efst in *.
  pose proof (open_scope _ _ _ _ _ _ _ _ _ _ HW Hall Hst1 Hvals Hbind) as Hst2.
  destruct (begin_correct _ _ _ _ _ _ _ _ _ _ _ _ _ _ Hf2 HW (place_inner _ _ _ Hpl) Hb2 Hc2 Hev Hst2)
    as (m3 & s3 & l & w & Hr3 & Hst3 & Hv3 & Hcl & Hw & Hfr3).
  destruct (popEnvironment_spec _ _ _ _ _ _ Hbind) as (es1 & -> & Hpop). rewrite app_nil_r in *.
  destruct (close_frame W ls (fst <$> vals) slots s1 s3 g g1 g2 g3 (popEnvironment es1 g3) Hall Hfr1 Hfr3)
    as [Hfr Hslots]; [|by intros s; apply Hpop|].
  { intros s Hs. pose proof (bind_all_bound _ _ _ _ _ _ s Hbind) as Hg. by rewrite Hs in Hg. }
  pose proof (runs_trans _ _ _ _ _ _ _ _ _ _ _ _ Hr1 Hr3) as Hr.
  exists m3, s3, l, w. split; [by rewrite length_app, Nat.add_assoc|].
  split; [|done]. eapply state_rebind; [exact Hst3|..].
  - intros s Hs. specialize (Hpop g3 s). unfold slot_of. rewrite findLocal_app, Hpop.
    destruct (findLocal_in (Some <$> (fst <$> vals)) s 0) as [j|] eqn:Ef; [|by left].
    right. destruct (so_rep _ _ _ _ _ _ _ Hst s Hs) as (l0 & v0 & Hl0 & Hv0 & Hg0 & Hc0).
    exists l0, v0. rewrite (ev_globals _ _ (proj2 Hr)). split.
    { unfold slot_of in Hl0. destruct (findLocal_in ls s 0) as [i|] eqn:Ei; [|done].
      rewrite (Hslots i s Ei); [done|by rewrite Ef]. }
    split; [by apply Hr|]. split; [|done]. rewrite (fo_env _ _ _ _ _ _ Hfr1); [done|..].
    + by rewrite without_spec, Ef, andb_false_r.
    + intros ->. by rewrite (W_it _ HW) in Hs.
    + intros ->. by rewrite (W_idx _ HW) in Hs.
  - intros h Hh. rewrite Hpop. destruct (findLocal_in (Some <$> (fst <$> vals)) h 0) as [i|] eqn:Ef; [|done].
    exfalso. pose proof (bind_all_bound _ _ _ _ _ _ h Hbind) as Hg. rewrite Ef in Hg.
    destruct Hg as (x & Hi & _). apply lookup_fst in Hi.
    rewrite forallb_forall in Hall. specialize (Hall h). rewrite <- list_elem_of_In in Hall.
    rewrite (W_Hd _ HW h Hh) in Hall. by specialize (Hall Hi).
Qed.

Hypothesis ev_nil : ∀ g v g', ev CNil g = Ok (v, g') → v = CNil ∧ g' = g.

Lemma let_correct args W ls value pl pos bs base slots temps m g v g' :
  frag_let frag W ls value args = true → W_ok W → place_ok pl ls →
  let_at st pl pos args bs → code_at C pos bs →
  p_let st ev args g = Ok (v, g') → state_ok W ls base slots temps m g →
  reaches W ls base slots temps m g pos (pos + length bs) (λ w, value = true → w = v) g'.
Proof.
  intros Hf HW Hpl Hat Hc Hev Hst. destruct args as [|[] body]; try done.
  destruct Hat as (ps & Hps & Hat). cbn [frag_let p_let] in Hf, Hev.
  assert (Eb : bound_syms l = fst <$> ps) by (unfold bound_syms; by rewrite Hps).
  rewrite Eb, !andb_true_iff in Hf. destruct Hf as [[Hall Hf1] Hf2].
  apply bind_ok_inv in Hev as ([vals g1] & Hin & Hev).
  apply bind_ok_inv in Hev as ([es g2] & Hbind & Hev).
  exact (scope_correct _ _ _ _ _ _ _ _ _ _ _ _ _ _ _ _ _ _ _ Hall
    (frag_inits_pairs _ _ _ _ _ Hps Hf1) Hf2 HW Hpl Hat Hc
    (let_inits_run _ ev_nil _ _ _ _ Hps Hin) Hbind Hev Hst).
Qed.

Lemma local_correct args W ls value pl pos bs base slots temps m g v g' :
  frag_local frag W ls value args = true → W_ok W → place_ok pl ls →
  local_at st pl pos args bs → code_at C pos bs →
  p_local st ev args g = Ok (v, g') → state_ok W ls base slots temps m g →
  reaches W ls base slots temps m g pos (pos + length bs) (λ w, value = true → w = v) g'.
Proof.
  intros Hf HW Hpl Hat Hc Hev Hst. destruct args as [|[] body]; try done.
  destruct Hat as (ps & Hps & Hat). cbn [frag_local p_local] in Hf, Hev.
  assert (Eb : var_syms l = fst <$> ps) by (unfold var_syms; by rewrite Hps).
  rewrite Eb, andb_true_iff in Hf. destruct Hf as [Hall Hf2].
  apply bind_ok_inv in Hev as ([es g2] & Hbind & Hev).
  rewrite (local_bind_all _ _ _ _ _ Hps) in Hbind. pose proof (parse_vars_none _ _ Hps) as Hn.
  exact (scope_correct _ _ _ _ _ _ _ _ _ _ _ _ _ _ _ _ _ _ _ Hall
    (frag_pairs_nil _ _ _ _ Hn) Hf2 HW Hpl Hat Hc (run_inits_nil _ _ _ Hn) Hbind Hev Hst).
Qed.


(** *** Operators *)

Lemma int_value v x : clean v = true → getInteger64 v = Ok x → in_int64 x.
Proof. intros Hc. apply getInteger64_range. by apply clean_int. Qed.

Lemma two_operands W ls pl pos e1 e2 b1 b2 base slots temps m g g1 v1 v2 g2 :
  frag W ls true e1 = true → frag W ls true e2 = true → W_ok W → place_ok pl ls →
  compiled_at pl pos e1 b1 → compiled_at pl (pos + length b1) e2 b2 → code_at C pos (b1 ++ b2) →
  ev e1 g = Ok (v1, g1) → ev e2 g1 = Ok (v2, g2) → state_ok W ls base slots temps m g →
  ∃ m' s' l1 l2, runs m pos m' (pos + length b1 + length b2) ∧
    state_ok W ls base s' (temps ++ [l1; l2]) m' g2 ∧ val m' l1 = Some v1 ∧ val m' l2 = Some v2 ∧
    clean v1 = true ∧ clean v2 = true ∧ frame_ok W ls slots s' g g2.
Proof.
  intros Hf1 Hf2 HW Hpl Hb1 Hb2 Hc He1 He2 Hst. apply code_at_app in Hc as [Hc1 Hc2].
  destruct (IH e1 _ _ _ _ _ _ _ _ _ _ _ _ _ Hf1 HW Hpl Hb1 Hc1 He1 Hst)
    as (m1 & s1 & l1 & w1 & Hr1 & Hst1 & Hv1 & Hcl1 & Hw1 & Hfr1).
  specialize (Hw1 eq_refl). subst w1.
  destruct (IH e2 _ _ _ _ _ _ _ _ _ _ _ _ _ Hf2 HW Hpl Hb2 Hc2 He2 Hst1)
    as (m2 & s2 & l2 & w2 & Hr2 & Hst2 & Hv2 & Hcl2 & Hw2 & Hfr2).
  specialize (Hw2 eq_refl). subst w2. rewrite <- app_assoc in Hst2.
  exists m2, s2, l1, l2. split; [by eapply runs_trans|]. split; [done|].
  split; [by apply Hr2|]. split; [done|]. split; [done|]. split; [done|by eapply frame_trans].
Qed.

(** The new top of the stack. *)
Lemma reaches_top W ls base slots slots' temps xs m g m1 pos p1 m2 p2 l w g' (P : sexp → Prop) :
  runs m pos m1 p1 → frame_ok W ls slots slots' g g' →
  state_ok W ls base slots' (temps ++ xs) m1 g' → runs m1 p1 m2 p2 →
  vm_stack m2 = (base ++ slots' ++ temps) ++ [l] → val m2 l = Some w → clean w = true → P w →
  reaches W ls base slots temps m g pos p2 P g'.
Proof.
  intros Hr1 Hfr Hst Hr2 Hs Hv Hc HP. exists m2, slots', l, w. split; [by eapply runs_trans|].
  split; [|done]. eapply state_step; [exact Hst|exact Hr2|]. by rewrite Hs, <- !app_assoc.
Qed.

Lemma stack_two W ls base slots temps l1 l2 m g :
  state_ok W ls base slots (temps ++ [l1; l2]) m g →
  vm_stack m = (base ++ slots ++ temps) ++ [l1; l2].
Proof. intros [? ? Hs ? ? ? ?]. by rewrite Hs, <- !app_assoc. Qed.

Lemma compare_correct name op r args W ls pl pos bs base slots temps m g v g' :
  comparison_op name = Some op → prim_named name = Some (PCompare r) →
  forallb (frag W ls true) args = true → W_ok W → place_ok pl ls →
  compare_at st pl pos op args bs → code_at C pos bs →
  compareOp ev st r args g = Ok (v, g') → state_ok W ls base slots temps m g →
  reaches W ls base slots temps m g pos (pos + length bs) (λ w, w = v) g'.
Proof.
  intros Hop Hr Hf HW Hpl (a1 & a2 & b1 & b2 & -> & -> & Hb1 & Hb2) Hc Hev Hst.
  destruct (comparison_prim st _ _ Hop) as (r' & Hr' & Hcop & Htest & Hlong).
  rewrite Hr in Hr'. injection Hr' as <-.
  cbn [forallb] in Hf. rewrite !andb_true_iff in Hf. destruct Hf as (Hf1 & Hf2 & _).
  unfold compareOp in Hev. apply bind_ok_inv in Hev as ([v1 g1] & He1 & Hev).
  cbn [compare_chain] in Hev. apply bind_ok_inv in Hev as ([v2 g2] & He2 & Hev).
  rewrite app_assoc in Hc. apply code_at_app in Hc as [Hc1 HcO].
  apply code_at_cons in HcO as [HcO _]. rewrite length_app, Nat.add_assoc in HcO.
  destruct (two_operands _ _ _ _ _ _ _ _ _ _ _ _ _ _ _ _ _ Hf1 Hf2 HW Hpl Hb1 Hb2 Hc1 He1 He2 Hst)
    as (m1 & s1 & l1 & l2 & Hr1 & Hst1 & Hv1 & Hv2 & Hcl1 & Hcl2 & Hfr1).
  assert (E9 : compareCells st v1 v2 ≠ 9) by (by apply compareCells_not_9; apply clean_nan_free).
  apply Z.eqb_neq in E9. rewrite E9 in Hev.
  assert (Hv : v = bool_sexp (rel_holds r (compareCells st v1 v2)) ∧ g2 = g').
  { destruct (rel_holds r _); injection Hev as <- <-; done. }
  destruct Hv as [-> ->].
  destruct (runs_compare st base_frame start_sp bi bc self fp op m1 _ _ l1 l2 v1 v2 Hcop
    (so_mok _ _ _ _ _ _ _ Hst1) HcO (stack_two _ _ _ _ _ _ _ _ _ Hst1) Hv1 Hv2) as (m2 & Hr2 & Hs2).
  assert (Eb : match v1, v2 with CLong x, CLong y => long_test op x y
               | _, _ => compare_test op (compareCells st v1 v2) end =
               rel_holds r (compareCells st v1 v2)).
  { destruct v1, v2; try apply Htest; apply Hlong. }
  rewrite Eb in Hs2.
  eapply (reaches_pos _ _ _ _ _ _ _ _ (S (pos + length b1 + length b2)));
    [rewrite !length_app; simpl; lia|].
  pose proof (mok_evolve _ _ _ _ (proj2 Hr2) (so_mok _ _ _ _ _ _ _ Hst1)) as Hm2.
  eapply reaches_top; [exact Hr1|exact Hfr1|exact Hst1|exact Hr2|exact Hs2| | |done];
    destruct (rel_holds r _); try done; by apply Hm2.
Qed.


(** The operands after the first: the value so far is on top of the stack. *)
Lemma operands_correct op args : ∀ W ls pl pos bs base slots temps l0 va acc m g acc' g',
  binary_op op → forallb (frag W ls true) args = true → W_ok W → place_ok pl ls →
  operands_at st pl pos op args bs → code_at C pos bs →
  arith_loop ev (arith_of op) acc args g = Ok (acc', g') →
  state_ok W ls base slots (temps ++ [l0]) m g →
  val m l0 = Some va → clean va = true → getInteger64 va = Ok acc → (args = [] → va = CLong acc) →
  reaches W ls base slots temps m g pos (pos + length bs) (λ w, w = CLong acc') g'.
Proof.
  induction args as [|e rest IHa]; intros W ls pl pos bs base slots temps l0 va acc m g acc' g'
    Hop Hf HW Hpl Hat Hc Hev Hst Hv0 Hcl0 Hacc Hlast.
  { simpl in Hat. subst bs. injection Hev as <- <-. rewrite Nat.add_0_r.
    exists m, slots, l0, va. split; [apply runs_refl|]. split; [done|]. split; [done|].
    split; [done|]. split; [by apply Hlast|apply frame_refl]. }
  cbn [forallb] in Hf. apply andb_true_iff in Hf as [Hf1 Hf2].
  destruct Hat as (b & r & -> & Hb & Hat). apply code_at_app in Hc as [Hc1 Hc].
  apply code_at_cons in Hc as [HcO Hc]. cbn [arith_loop] in Hev.
  apply bind_ok_inv in Hev as ([v1 g1] & He & Hev). apply bind_ok_inv in Hev as (y & Hy & Hev).
  apply bind_ok_inv in Hev as (z & Hz & Hev).
  destruct (IH e _ _ _ _ _ _ _ _ _ _ _ _ _ Hf1 HW Hpl Hb Hc1 He Hst)
    as (m1 & s1 & l & w & Hr1 & Hst1 & Hv1 & Hcl & Hw & Hfr1).
  specialize (Hw eq_refl). subst w. rewrite <- app_assoc in Hst1.
  destruct (runs_arith st base_frame start_sp bi bc self fp op m1 _ _ l0 l va v1 acc y z Hop
    (so_mok _ _ _ _ _ _ _ Hst1) HcO (stack_two _ _ _ _ _ _ _ _ _ Hst1) (ev_val _ _ (proj2 Hr1) _ _ Hv0)
    Hv1 (clean_int _ Hcl0) (clean_int _ Hcl) Hacc Hy Hz) as (m2 & l2 & Hr2 & Hs2 & Hv2).
  assert (Hz64 : in_int64 z).
  { eapply arith_step_range; [| |exact Hz|by apply binary_arithmetic];
      eapply int_value; [exact Hcl0|done|exact Hcl|done]. }
  assert (Hst2 : state_ok W ls base s1 (temps ++ [l2]) m2 g1).
  { eapply state_step; [exact Hst1|exact Hr2|]. by rewrite Hs2, <- !app_assoc. }
  eapply reaches_after; [by eapply runs_trans|exact Hfr1|].
  rewrite <- (Nat.add_1_r (pos + length b)) in Hc |- *.
  eapply reaches_pos; [|eapply IHa; [exact Hop|exact Hf2|exact HW|exact Hpl|exact Hat|exact Hc
    |exact Hev|exact Hst2|exact Hv2|by apply clean_long|done|done]].
  rewrite length_app. simpl. lia.
Qed.

Lemma chain_correct op args W ls pl pos bs base slots temps m g v g' :
  binary_op op → (2 ≤ length args)%nat → forallb (frag W ls true) args = true → W_ok W →
  place_ok pl ls → chain_at st pl pos op args bs → code_at C pos bs →
  arithmetikOp ev (arith_of op) args g = Ok (v, g') → state_ok W ls base slots temps m g →
  reaches W ls base slots temps m g pos (pos + length bs) (λ w, w = v) g'.
Proof.
  intros Hop Hlen Hf HW Hpl (a & rest & b & r & -> & -> & Hb & Hat) Hc Hev Hst.
  destruct rest as [|e rest]; [simpl in Hlen; lia|].
  cbn [forallb] in Hf. apply andb_true_iff in Hf as [Hf1 Hf2].
  apply code_at_app in Hc as [Hc1 Hc]. unfold arithmetikOp in Hev.
  assert (E : ('(cell, s) ← ev a g; acc ← getInteger64 cell;
     '(acc, s) ← arith_loop ev (arith_of op) acc (e :: rest) s; Ok (CLong acc, s)) = Ok (v, g')).
  { destruct (arith_of op); exact Hev. }
  clear Hev. apply bind_ok_inv in E as ([v1 g1] & He & E). apply bind_ok_inv in E as (acc & Hacc & E).
  apply bind_ok_inv in E as ([acc' g2] & Hl & [= <- <-]).
  destruct (IH a _ _ _ _ _ _ _ _ _ _ _ _ _ Hf1 HW Hpl Hb Hc1 He Hst)
    as (m1 & s1 & l & w & Hr1 & Hst1 & Hv1 & Hcl & Hw & Hfr1).
  specialize (Hw eq_refl). subst w. eapply reaches_after; [exact Hr1|exact Hfr1|].
  rewrite length_app, Nat.add_assoc.
  eapply (operands_correct op (e :: rest)); [exact Hop|exact Hf2|exact HW|exact Hpl|exact Hat|exact Hc|exact Hl
    |exact Hst1|exact Hv1|exact Hcl|exact Hacc|done].
Qed.

(** One operand, then an instruction on the integer it is. *)
Lemma operand_correct a op W ls pl pos bs base slots temps m g v1 x z g1 :
  frag W ls true a = true → W_ok W → place_ok pl ls →
  unary_at st pl pos a op bs → code_at C pos bs →
  ev a g = Ok (v1, g1) → getInteger64 v1 = Ok x → (clean v1 = true → in_int64 z) →
  (∀ m ip s la, mok m → C !! ip = Some (op_byte op) → vm_stack m = s ++ [la] →
     val m la = Some v1 → int_ok v1 →
     ∃ m' l, runs m ip m' (S ip) ∧ vm_stack m' = s ++ [l] ∧ val m' l = Some (CLong z)) →
  state_ok W ls base slots temps m g →
  reaches W ls base slots temps m g pos (pos + length bs) (λ w, w = CLong z) g1.
Proof.
  intros Hf HW Hpl (b & -> & Hb) Hc He Hx Hz Hrun Hst. apply code_at_app in Hc as [Hc1 Hc].
  apply code_at_cons in Hc as [HcO _].
  destruct (IH a _ _ _ _ _ _ _ _ _ _ _ _ _ Hf HW Hpl Hb Hc1 He Hst)
    as (m1 & s1 & l & w & Hr1 & Hst1 & Hv1 & Hcl & Hw & Hfr1).
  specialize (Hw eq_refl). subst w.
  destruct (Hrun m1 _ _ l (so_mok _ _ _ _ _ _ _ Hst1) HcO (stack_snoc _ _ _ _ _ _ _ _ Hst1) Hv1
    (clean_int _ Hcl)) as (m2 & l2 & Hr2 & Hs2 & Hv2).
  eapply reaches_pos; [|eapply reaches_top; [exact Hr1|exact Hfr1|exact Hst1|exact Hr2|exact Hs2
    |exact Hv2|by apply clean_long, Hz|done]]. rewrite length_app. simpl. lia.
Qed.

Lemma imm_correct op op' k a W ls pl pos bs base slots temps m g v1 x z g1 :
  imm_op op = Some (op', k) → frag W ls true a = true → W_ok W → place_ok pl ls →
  unary_at st pl pos a op bs → code_at C pos bs →
  ev a g = Ok (v1, g1) → getInteger64 v1 = Ok x → (clean v1 = true → in_int64 z) →
  arith_step (arith_of op') x k = Ok z → state_ok W ls base slots temps m g →
  reaches W ls base slots temps m g pos (pos + length bs) (λ w, w = CLong z) g1.
Proof.
  intros Hop Hf HW Hpl Hat Hc He Hx Hz Hs Hst.
  eapply operand_correct; [exact Hf|exact HW|exact Hpl|exact Hat|exact Hc|exact He|exact Hx|exact Hz
    | |exact Hst].
  intros m1 ip s la Hm Hop1 Hst1 Hv1 Hi. by eapply runs_imm.
Qed.

Hypothesis ev_long : ∀ z g v g', ev (CLong z) g = Ok (v, g') → v = CLong z ∧ g' = g.

Lemma is_long_true b z : is_long b z = true → b = CLong z.
Proof. destruct b; try done. simpl. intros H1%Z.eqb_eq. by subst. Qed.

(** Two operands in the tree walker. *)
Lemma arith_two op a b g v g' : op_arithmetic op → arithmetikOp ev op [a; b] g = Ok (v, g') →
  ∃ v1 g1 x v2 y z, ev a g = Ok (v1, g1) ∧ getInteger64 v1 = Ok x ∧ ev b g1 = Ok (v2, g') ∧
    getInteger64 v2 = Ok y ∧ arith_step op x y = Ok z ∧ v = CLong z.
Proof.
  intros Hop Hev.
  assert (E : ('(cell, s) ← ev a g; acc ← getInteger64 cell;
     '(acc, s) ← arith_loop ev op acc [b] s; Ok (CLong acc, s)) = Ok (v, g')).
  { destruct op; exact Hev. }
  clear Hev. apply bind_ok_inv in E as ([v1 g1] & He & E). apply bind_ok_inv in E as (x & Hx & E).
  apply bind_ok_inv in E as ([acc' g2] & Hl & [= <- <-]). cbn [arith_loop] in Hl.
  apply bind_ok_inv in Hl as ([v2 g3] & He2 & Hl). apply bind_ok_inv in Hl as (y & Hy & Hl).
  apply bind_ok_inv in Hl as (z & Hz & [= <- <-]). by exists v1, g1, x, v2, y, z.
Qed.

(** [(op a k)] with an immediate instruction for it. *)
Lemma imm_two op op' k a W ls pl pos bs base slots temps m g v g' :
  imm_op op = Some (op', k) → in_int64 k → frag W ls true a = true → W_ok W → place_ok pl ls →
  unary_at st pl pos a op bs → code_at C pos bs →
  arithmetikOp ev (arith_of op') [a; CLong k] g = Ok (v, g') → state_ok W ls base slots temps m g →
  reaches W ls base slots temps m g pos (pos + length bs) (λ w, w = v) g'.
Proof.
  intros Hop Hk Hf HW Hpl Hat Hc Hev Hst.
  assert (Hb : op_arithmetic (arith_of op')) by (by destruct op; try done; injection Hop as <- <-).
  destruct (arith_two _ _ _ _ _ _ Hb Hev) as (v1 & g1 & x & v2 & y & z & He & Hx & He2 & Hy & Hz & ->).
  apply ev_long in He2 as [-> ->]. injection Hy as <-.
  eapply imm_correct; [exact Hop|exact Hf|exact HW|exact Hpl|exact Hat|exact Hc|exact He|exact Hx
    | |exact Hz|exact Hst].
  intros Hcl. eapply arith_step_range; [|exact Hk|exact Hz|done]. by eapply int_value.
Qed.


Lemma add_correct args W ls pl pos bs base slots temps m g v g' :
  length args ≠ 1%nat → forallb (frag W ls true) args = true → W_ok W → place_ok pl ls →
  add_at st pl pos args bs → code_at C pos bs →
  arithmetikOp ev A_ADD args g = Ok (v, g') → state_ok W ls base slots temps m g →
  reaches W ls base slots temps m g pos (pos + length bs) (λ w, w = v) g'.
Proof.
  intros Hlen Hf HW Hpl Hat Hc Hev Hst.
  assert (Hchain : (2 ≤ length args)%nat → chain_at st pl pos OP_ADD args bs →
    reaches W ls base slots temps m g pos (pos + length bs) (λ w, w = v) g').
  { intros Hl Hat'. eapply (chain_correct OP_ADD args); try done. }
  destruct args as [|a [|b [|c rest]]]; [|done| |apply Hchain; [simpl; lia|exact Hat]].
  - simpl in Hat. subst bs. injection Hev as <- <-. apply code_at_cons in Hc as [Hc _].
    eapply int_correct; [by left|exact Hc|done|done].
  - cbn [add_at forallb] in Hat, Hf. rewrite !andb_true_iff in Hf. destruct Hf as (Hf1 & Hf2 & _).
    destruct (is_long b 1) eqn:Eb; [apply is_long_true in Eb as ->|].
    { eapply (imm_two OP_ADD_1 OP_ADD 1); [done|by split|exact Hf1|done..]. }
    destruct (is_long a 1) eqn:Ea; [apply is_long_true in Ea as ->|by apply Hchain].
    destruct (arith_two A_ADD _ _ _ _ _ I Hev) as (v1 & g1 & x & v2 & y & z & He & Hx & He2 & Hy & Hz & ->).
    apply ev_long in He as [-> ->]. injection Hx as <-. cbn [arith_step] in Hz.
    rewrite Z.add_comm in Hz.
    eapply (imm_correct OP_ADD_1 OP_ADD 1); [done|exact Hf2|done..| |done|done]. intros _. injection Hz as <-. apply int64_range.
Qed.

Lemma sub_correct args W ls pl pos bs base slots temps m g v g' :
  forallb (frag W ls true) args = true → W_ok W → place_ok pl ls →
  sub_at st pl pos args bs → code_at C pos bs →
  arithmetikOp ev A_SUBTRACT args g = Ok (v, g') → state_ok W ls base slots temps m g →
  reaches W ls base slots temps m g pos (pos + length bs) (λ w, w = v) g'.
Proof.
  intros Hf HW Hpl Hat Hc Hev Hst.
  assert (Hchain : (2 ≤ length args)%nat → chain_at st pl pos OP_SUB args bs →
    reaches W ls base slots temps m g pos (pos + length bs) (λ w, w = v) g').
  { intros Hl Hat'. eapply (chain_correct OP_SUB args); try done. }
  destruct args as [|a [|b [|c rest]]]; [done| | |apply Hchain; [simpl; lia|exact Hat]];
    cbn [sub_at forallb] in Hat, Hf; rewrite !andb_true_iff in Hf.
  - unfold arithmetikOp in Hev. apply bind_ok_inv in Hev as ([v1 g1] & He & Hev).
    apply bind_ok_inv in Hev as (x & Hx & [= <- <-]). destruct Hf as [Hf _].
    eapply operand_correct; [exact Hf|exact HW|exact Hpl|exact Hat|exact Hc|exact He|exact Hx| | |exact Hst].
    + intros _. apply int64_range.
    + intros m1 ip s la Hm Hop1 Hst1 Hv1 Hi. by eapply runs_neg.
  - destruct Hf as (Hf1 & Hf2 & _). destruct (is_long b 1) eqn:Eb; [apply is_long_true in Eb as ->|].
    { eapply (imm_two OP_SUB_1 OP_SUB 1); [done|by split|exact Hf1|done..]. }
    destruct (is_long b 2) eqn:Eb2; [apply is_long_true in Eb2 as ->|by apply Hchain].
    eapply (imm_two OP_SUB_2 OP_SUB 2); [done|by split|exact Hf1|done..].
Qed.

Lemma mul_correct args W ls pl pos bs base slots temps m g v g' :
  length args ≠ 1%nat → forallb (frag W ls true) args = true → W_ok W → place_ok pl ls →
  mul_at st pl pos args bs → code_at C pos bs →
  arithmetikOp ev A_MULTIPLY args g = Ok (v, g') → state_ok W ls base slots temps m g →
  reaches W ls base slots temps m g pos (pos + length bs) (λ w, w = v) g'.
Proof.
  intros Hlen Hf HW Hpl Hat Hc Hev Hst. destruct args as [|a [|b rest]]; [|done|].
  - simpl in Hat. subst bs. injection Hev as <- <-. apply code_at_cons in Hc as [Hc _].
    eapply int_correct; [by right; left|exact Hc|done|done].
  - eapply (chain_correct OP_MUL (a :: b :: rest)); try done. simpl. lia.
Qed.

(** *** All forms *)

Definition frag_names : list string :=
  ["if"; "when"; "cond"; "and"; "or"; "begin"; "while"; "let"; "local"; "setq";
   "<"; ">"; "<="; ">="; "="; "!="; "+"; "*"; "-"; "/"]%string.

Lemma frag_form_names name W ls value args :
  frag_form frag name W ls value args = true → In name frag_names.
Proof.
  unfold frag_form, comparison_op. intros Hf.
  repeat match type of Hf with
  | (if String.eqb ?n ?s then _ else _) = _ =>
      destruct (String.eqb_spec n s) as [->|_]; [cbv; tauto|]
  | match (if String.eqb ?n ?s then _ else _) with _ => _ end = _ =>
      destruct (String.eqb_spec n s) as [->|_]; [cbv; tauto|]
  end.
  destruct (String.eqb_spec name "+") as [->|_]; [cbv; tauto|].
  destruct (String.eqb_spec name "*") as [->|_]; [cbv; tauto|]. simpl in Hf.
  destruct (String.eqb_spec name "-") as [->|_]; [cbv; tauto|].
  destruct (String.eqb_spec name "/") as [->|_]; [cbv; tauto|]. done.
Qed.

Lemma exactly W ls base slots temps m g pos pos' v g' value :
  reaches W ls base slots temps m g pos pos' (λ w, w = v) g' →
  reaches W ls base slots temps m g pos pos' (λ w, value = true → w = v) g'.
Proof. apply reaches_mono. by intros. Qed.

Lemma form_correct n name p args W ls value pl pos bs base slots temps m g v g' :
  prim_named name = Some p → frag_form frag name W ls value args = true → W_ok W → place_ok pl ls →
  form_at st pl pos name args bs → code_at C pos bs →
  apply_prim st ev n p args g = Ok (v, g') → state_ok W ls base slots temps m g →
  reaches W ls base slots temps m g pos (pos + length bs) (λ w, value = true → w = v) g'.
Proof.
  intros Hp Hf HW Hpl Hat Hc Hev Hst. pose proof (frag_form_names _ _ _ _ _ Hf) as Hn.
  assert (Hcmp : ∀ op r, comparison_op name = Some op → p = PCompare r →
    forallb (frag W ls true) args = true → compare_at st pl pos op args bs →
    reaches W ls base slots temps m g pos (pos + length bs) (λ w, value = true → w = v) g').
  { intros op r Hop -> Hf' Hat'. apply exactly. by eapply compare_correct. }
  unfold frag_names in Hn. simpl in Hn.
  repeat (destruct Hn as [<-|Hn]; [injection Hp as <-; cbn in Hat, Hev|]); [..|done].
  - by eapply if_correct.
  - by eapply when_correct.
  - by eapply cond_correct.
  - by eapply and_correct.
  - by eapply or_correct.
  - by eapply begin_correct.
  - unfold frag_form in Hf. cbn in Hf. destruct args as [|c body]; [done|].
    destruct value; [done|]. eapply reaches_mono; [|eapply (while_correct n (c :: body)); try done]. done.
  - by eapply (let_correct args).
  - by eapply (local_correct args).
  - destruct Hat as [Hne Hat]. apply exactly. by eapply set_correct.
  - by eapply Hcmp.
  - by eapply Hcmp.
  - by eapply Hcmp.
  - by eapply Hcmp.
  - by eapply Hcmp.
  - by eapply Hcmp.
  - apply andb_true_iff in Hf as [Hl Hf]. apply negb_true_iff, Nat.eqb_neq in Hl.
    apply exactly. by eapply add_correct.
  - apply andb_true_iff in Hf as [Hl Hf]. apply negb_true_iff, Nat.eqb_neq in Hl.
    apply exactly. by eapply mul_correct.
  - apply exactly. by eapply sub_correct.
  - destruct Hat as [Hlen Hat]. apply exactly. by eapply (chain_correct OP_DIV).
Qed.


End Forms.

(** ** Expressions *)

Lemma evaluate_atom e n g v g' : evaluateExpression st n e g = Ok (v, g') →
  match e with CNil | CTrue | CLong _ | CFloat _ | CString _ => v = e ∧ g' = g | _ => True end.
Proof. destruct n; [done|]. destruct e; try done; cbn; by intros [= <- <-]. Qed.

Lemma expr_correct n : ∀ e, correct (evaluateExpression st n) e.
Proof.
  induction n as [|n IHn]; intros e W ls value pl pos b base slots temps m g v g'
    Hf HW Hpl Hcomp Hc Hev Hst; [done|].
  pose proof (compiled_expr_at _ _ _ _ _ Hcomp) as Hat. pose proof (evaluate_atom _ _ _ _ _ Hev) as Ha.
  destruct e as [| |z|f|s|s|s|p|e|[|[| | | | |h| | | | | |] args]|l|l]; try done.
  - destruct Ha as [-> ->]. simpl in Hat. subst b. apply code_at_cons in Hc as [Hc _].
    by apply push_nil.
  - destruct Ha as [-> ->]. simpl in Hat. subst b. apply code_at_cons in Hc as [Hc _].
    by apply push_true.
  - destruct Ha as [-> ->]. apply exactly. cbn [expr_at] in Hat.
    destruct (Z.eqb_spec z 0) as [->|_].
    { subst b. apply code_at_cons in Hc as [Hc _].
      eapply (int_correct _ _ _ _ _ _ _ _ OP_CONST_0); [by left|exact Hc|done|done]. }
    destruct (Z.eqb_spec z 1) as [->|_].
    { subst b. apply code_at_cons in Hc as [Hc _].
      eapply (int_correct _ _ _ _ _ _ _ _ OP_CONST_1); [by right; left|exact Hc|done|done]. }
    destruct (Z.eqb_spec z 2) as [->|_].
    { subst b. apply code_at_cons in Hc as [Hc _].
      eapply (int_correct _ _ _ _ _ _ _ _ OP_CONST_2); [by right; right|exact Hc|done|done]. }
    by eapply const_correct.
  - destruct Ha as [-> ->]. apply exactly. by eapply const_correct.
  - destruct Ha as [-> ->]. apply exactly. by eapply const_correct.
  - cbn [evaluateExpression] in Hev. apply bind_ok_inv in Hev as (x & Hx & [= <- <-]).
    apply exactly. eapply symbol_correct; [exact Hat|exact Hpl|by eapply compiled_locals|exact Hf
      |exact HW|exact Hc|exact Hx|exact Hst].
  - injection Hev as <- <-. apply exactly. by eapply const_correct.
  - cbn [frag] in Hf. apply andb_true_iff in Hf as [Hh Hf].
    cbn [evaluateExpression] in Hev. apply bind_ok_inv in Hev as (pc & Hpc & Hev).
    destruct (so_prims _ _ _ _ _ _ _ Hst h Hh) as (k & p & Hg & Hk).
    unfold contents in Hpc. rewrite Hg in Hpc. injection Hpc as <-.
    unfold apply_head, prim_at in Hev. rewrite Hk in Hev. cbn [fmap option_fmap option_map snd] in Hev.
    eapply (form_correct (evaluateExpression st n) IHn); [| |by eapply prim_named_spec|exact Hf|exact HW
      |exact Hpl|exact Hat|exact Hc|exact Hev|exact Hst].
    + intros ? ? ?. apply (evaluate_atom CNil).
    + intros z ? ? ?. apply (evaluate_atom (CLong z)).
Qed.


End Refine.
