(* ===== verification/Agree.v ===== *)
(** * A compiled lambda does what the tree walker does

    [compileLambda] and [executeBytecode] against [evaluateLambda]: the code of
    the whole body, the frame that [executeBytecode] builds, and the return. *)

From stdpp Require Import base list numbers tactics strings gmap relations.
From Stdlib Require Import ZArith Lia.
From S2P Require Import Prelude Cell Arith Eval Bytecode Compiler Layout.
From S2P Require Import Machine Exec Fragment Scope Refine.

#[global] Open Scope Z_scope.

(** ** The code of a lambda *)

Section Code.
Variable st : symtab.

Lemma lambda_body_at body : ∀ c c', body ≠ [] →
  compileLambdaBody st body c = Ok (Some c') → failed c' = false →
  ∃ bs, emits c c' (bs ++ [op_byte OP_RET]) ∧
    ∀ top, wf c → le c' top → body_at st (Place (locals c) (self_symbol c) top) (code_size c) body bs.
Proof.
  induction body as [|e rest IHb]; intros c c' Hne H F; [done|]. cbn [compileLambdaBody] in H.
  apply bind_ok_inv in H as (c1 & H1 & H). destruct (failed c1) eqn:F1; [done|].
  assert (L : lays c c1 (λ pl pos b, compiled_at st pl pos e b)).
  { eapply (rec_lays st (S (sexp_size e)) (λ e _, shaped_all st e)); [lia|exact H1|exact F1]. }
  destruct L as (b & X & Q). destruct rest as [|e2 rest].
  - injection H as <-. exists b. split; [by apply op_step|]. intros top W Ht. apply Q; [done|].
    etransitivity; [apply le_emitByte|exact Ht].
  - destruct (IHb _ _ ltac:(done) H F) as (r & X2 & Q2).
    pose proof (emits_trans _ _ _ _ _ (op_step _ _ _ OP_POP X) X2) as Y.
    exists (b ++ op_byte OP_POP :: r). split; [by rewrite <- !app_assoc in Y |- *|].
    intros top W Ht. pose proof (emits_le _ _ _ X2) as L2.
    assert (L1 : le c1 (emitOp OP_POP c1)) by apply le_emitByte.
    exists b, r. split; [done|]. split; [apply Q; [done|]; etransitivity; [exact L1|by etransitivity]|].
    pose proof (op_step _ _ _ OP_POP X) as XP. specialize (Q2 top (emits_wf _ _ _ XP W) Ht).
    rewrite (emits_locals _ _ _ XP), (emits_self _ _ _ XP), (emits_size _ _ _ XP), length_app,
      Nat.add_assoc in Q2. exact Q2.
Qed.

Lemma parse_params_plain ss : ∀ ls n ls' n', Forall (λ s, sym_name (st s) ≠ ","%string) ss →
  parse_params st (CSymbol <$> ss) false ls n = Some (ls', n') →
  ls' = ls ++ (Some <$> ss) ∧ n' = (n + length ss)%nat ∧
  (length ls ≤ MAX_LOCALS → length ls' ≤ MAX_LOCALS)%nat.
Proof.
  induction ss as [|s ss IH]; intros ls n ls' n' Hc H; cbn [fmap list_fmap parse_params] in H.
  { injection H as <- <-. rewrite app_nil_r. simpl. split; [done|]. split; [lia|done]. }
  inversion Hc as [|? ? Hs Hc']; subst. destruct (String.eqb_spec (sym_name (st s)) ","); [done|].
  destruct (Nat.leb_spec MAX_LOCALS (length ls)) as [|Hl]; [done|].
  apply IH in H as (-> & -> & Hm); [|done]. rewrite <- app_assoc in *. split; [done|].
  split; [simpl; lia|]. intros _. apply Hm. rewrite length_app. simpl. lia.
Qed.

(** What the bytecode of a plain lambda is. *)
Lemma compileLambda_code ss body self b : Forall (λ s, sym_name (st s) ≠ ","%string) ss →
  compileLambda st (CLambda (CExpr (CSymbol <$> ss) :: body)) self = Ok (Some b) →
  ∃ bs top, bc_code b = bs ++ [op_byte OP_RET] ∧
    begin_at st (Place (Some <$> ss) self top) 0 body bs ∧
    constants top = bc_constants b ∧ symbols top = bc_symbols b ∧
    max_locals top = bc_num_locals b ∧ bc_num_params b = length ss ∧
    (length ss ≤ bc_num_locals b ≤ MAX_LOCALS)%nat ∧
    (length (bc_constants b) ≤ length (bc_code b))%nat ∧
    (length (bc_symbols b) ≤ length (bc_code b))%nat.
Proof.
  intros Hc H. cbn [compileLambda] in H.
  destruct (parse_params st (CSymbol <$> ss) false [] 0) as [[ls n]|] eqn:Ep; [|done].
  destruct (parse_params_plain _ _ _ _ _ Hc Ep) as (-> & -> & Hm). cbn [app length Nat.add] in *.
  specialize (Hm ltac:(unfold MAX_LOCALS; lia)). rewrite length_fmap in *.
  set (c := MkCompiler (Some <$> ss) (length ss) (length ss) self [] 0 [] [] false) in *.
  assert (W : wf c) by (unfold wf, num_locals; simpl; rewrite length_fmap; lia).
  apply bind_ok_inv in H as (r & Hr & H). destruct r as [c'|]; [|done].
  destruct (failed c') eqn:F; [done|]. injection H as <-.
  assert (G : ∃ bs, emits c c' (bs ++ [op_byte OP_RET]) ∧
    begin_at st (Place (Some <$> ss) self c') 0 body bs).
  { destruct body as [|e body].
    - injection Hr as <-. exists [op_byte OP_NIL]. split; [|done].
      apply op_step. by apply emitOp_emits.
    - destruct (lambda_body_at (e :: body) _ _ ltac:(done) Hr F) as (bs & X & Q). exists bs.
      split; [exact X|]. exact (Q c' W (reflexivity c')). }
  destruct G as (bs & X & Hat). exists bs, c'. cbn [bc_code bc_constants bc_symbols bc_num_params bc_num_locals].
  destruct X as [[] ?]. simpl in *.
  split; [done|]. split; [done|]. split; [done|]. split; [done|]. split; [done|].
  split; [done|]. unfold wf, num_locals in *. simpl in *. rewrite length_fmap in *.
  destruct ext_le as [_ _ Lm]. simpl in Lm. rewrite ext_code. split; [|lia].
  split; [lia|]. lia.
Qed.

End Code.

(** ** The frame of a call *)

Section Calls.
Context `{Runtime} `{TreeRuntime}.
Variable st : symtab.

(** The frame stack fits its array. *)
Definition frames_ok (m : vm) : Prop :=
  (vm_frame_count m ≤ vm_frames_capacity m ∧ 1 ≤ vm_frames_capacity m)%nat.

Lemma push_all_ok ls : ∀ m, cap_ok m →
  ∃ m', push_all ls m = Ok m' ∧ evolve m m' ∧ vm_stack m' = vm_stack m ++ ls ∧
    vm_frames_capacity m' = vm_frames_capacity m.
Proof.
  induction ls as [|l ls IH]; intros m Hc; [by exists m; rewrite app_nil_r|].
  destruct (push_ok l m Hc) as (m1 & H1 & E1 & S1). cbn [push_all]. rewrite H1.
  destruct (IH m1 (ev_cap _ _ E1 Hc)) as (m2 & H2 & E2 & S2 & F2). exists m2.
  split; [exact H2|]. split; [by etransitivity|]. rewrite S2, S1, <- app_assoc. split; [done|].
  rewrite F2. unfold push in H1. destruct (Nat.ltb _ _) in H1; [|done].
  by injection H1 as <-.
Qed.

Lemma push_nils_all n : ∀ m, push_nils n m = push_all (replicate n nilCell) m.
Proof. induction n as [|n IH]; intros m; [done|]. cbn. destruct (push nilCell m); cbn; auto. Qed.

(** [executeBytecode] up to the first instruction: the arguments, [nil] for the
    parameters and locals that are left, and a frame. *)
Lemma enter_ok lambdaCell i bc args m : vm_bcs m !! i = Some bc → cap_ok m → frames_ok m →
  (length args ≤ bo_num_params bc ≤ bo_num_locals bc)%nat →
  ∃ m1 f, enter lambdaCell i args m = Ok (m1, Regs 0 i lambdaCell (vm_sp m)) ∧
    vm_stack m1 = vm_stack m ++ args ++ replicate (bo_num_locals bc - length args) nilCell ∧
    vm_frames m1 = f :: vm_frames m ∧ vm_bcs m1 = vm_bcs m ∧ vm_globals m1 = vm_globals m ∧
    cap_ok m1 ∧ ∀ l v, val m l = Some v → val m1 l = Some v.
Proof.
  intros Hb Hc [Hf1 Hf2] [Ha Hp]. unfold enter, bc_of. rewrite (rd_ok _ _ _ Hb). cbn -[push_nils Nat.sub].
  destruct (push_all_ok args m Hc) as (m1 & -> & E1 & S1 & F1). cbn -[push_nils Nat.sub].
  rewrite push_nils_all.
  destruct (push_all_ok (replicate (bo_num_params bc - length args) nilCell) m1 (ev_cap _ _ E1 Hc))
    as (m2 & -> & E2 & S2 & F2). cbn -[push_nils Nat.sub]. rewrite push_nils_all.
  pose proof (ev_cap _ _ E2 (ev_cap _ _ E1 Hc)) as Hc2.
  destruct (push_all_ok (replicate (vm_sp m + bo_num_locals bc - vm_sp m2) nilCell) m2 Hc2)
    as (m3 & -> & E3 & S3 & F3). cbn -[Nat.ltb Nat.leb].
  pose proof (transitivity (transitivity E1 E2) E3) as E.
  assert (Ef : vm_frames m3 = vm_frames m) by apply E.
  assert (Ecap : vm_frames_capacity m3 = vm_frames_capacity m) by congruence.
  unfold push_frame, vm_frame_count in *. rewrite Ef, Ecap.
  set (cap := if Nat.leb _ _ then _ else _).
  assert (Hcap : (length (vm_frames m) < cap)%nat).
  { subst cap. destruct (Nat.leb_spec (vm_frames_capacity m) (length (vm_frames m))); lia. }
  apply Nat.ltb_lt in Hcap. rewrite Hcap. do 2 eexists. split; [done|].
  split.
  { cbn. rewrite S3, S2, S1, <- !app_assoc. f_equal. f_equal. rewrite <- replicate_add.
    f_equal. unfold vm_sp. rewrite S2, S1, !length_app, length_replicate. lia. }
  split; [done|]. split; [apply E|]. split; [apply E|].
  split; [exact (ev_cap _ _ E Hc)|]. intros l v Hv. by apply E.
Qed.

(** ** Running to the end *)

Lemma run_rtc base_frame start_sp bi self fp a b : rtc (mstep st base_frame start_sp bi self fp) a b →
  ∃ k, ∀ f, run st (k + f) base_frame start_sp a.1 (Regs a.2 bi self fp) =
            run st f base_frame start_sp b.1 (Regs b.2 bi self fp).
Proof.
  induction 1 as [a|a b c Hab _ (k & IH)]; [by exists 0%nat|]. exists (S k). intros f.
  cbn [Nat.add run]. unfold mstep in Hab. rewrite Hab. cbn. apply IH.
Qed.

(** [OP_RET] of the outermost frame: the value is copied and the stack is what
    it was before the call. *)
Lemma run_ret fuel m ip bi bc self (base rest : list loc) l v f fs : vm_bcs m !! bi = Some bc →
  bo_code bc !! ip = Some (op_byte OP_RET) → vm_stack m = base ++ rest ++ [l] →
  vm_frames m = f :: fs → val m l = Some v →
  ∃ m' l', run st (S fuel) (length fs) (length base) m (Regs ip bi self (length base)) = Ok (m', l') ∧
    val m' l' = Some v ∧ vm_stack m' = base ∧ vm_frames m' = fs ∧ vm_globals m' = vm_globals m ∧
    vm_bcs m' = vm_bcs m ∧ ∀ k w, val m k = Some w → val m' k = Some w.
Proof.
  intros Hb Hc Hs Hf Hv. cbn [run]. unfold step, bc_of. cbn [r_bc r_ip at_ip].
  rewrite (rd_ok _ _ _ Hb). cbn -[opcode_of op_byte exec_simple exec_return pop].
  rewrite (rd_ok _ _ _ Hc). cbn -[opcode_of op_byte exec_simple exec_return pop].
  rewrite opcode_of_byte. cbn -[exec_return pop]. rewrite app_assoc in Hs.
  rewrite (pop_ok _ _ _ Hs). cbn -[deref alloc]. unfold exec_return.
  cbn -[deref alloc Nat.eqb]. rewrite Hf. cbn -[deref alloc Nat.eqb]. rewrite Nat.eqb_refl.
  assert (Hd : deref l (set_frames fs (vm_frames_capacity m) (set_stack (base ++ rest) m)) = Ok v).
  { by apply deref_val. }
  cbn -[deref alloc] in Hd |- *. rewrite Hd. cbn -[alloc].
  match goal with |- context [alloc v true ?x] => destruct (alloc v true x) as [m1 l1] eqn:Ea end.
  destruct (alloc_ok _ _ _ _ _ Ea) as (E1 & S1 & _ & V1). cbn.
  exists (set_stack (take (length base) (vm_stack m1)) m1), l1. split; [done|].
  split; [exact V1|]. split.
  { cbn. rewrite S1. cbn. by rewrite take_app_length. }
  split; [exact (ev_frames _ _ E1)|]. split; [exact (ev_globals _ _ E1)|].
  split; [exact (ev_bcs _ _ E1)|]. intros k w Hk. by apply E1.
Qed.


(** ** The contract *)

(** A bytecode object with its constants in the heap. *)
Record installed (b : bytecode) (bc : bcobj) (m : vm) : Prop := {
  in_code : bo_code bc = bc_code b;
  in_symbols : bo_symbols bc = bc_symbols b;
  in_params : bo_num_params bc = bc_num_params b;
  in_locals : bo_num_locals bc = bc_num_locals b;
  in_constants : ∀ i k, bc_constants b !! i = Some k →
    ∃ l, bo_constants bc !! i = Some l ∧ val m l = Some k
}.

(** The heads and variables of the fragment: the hidden symbols and the name of
    the lambda are neither, and no head is a variable. *)
Record names_ok (Hd W : sym → bool) (self : option sym) (ss : list sym) : Prop := {
  no_W : W_ok Hd self W;
  no_W_args : W argsSymbol = false;
  no_Hd : Hd itSymbol = false ∧ Hd listIdxSymbol = false ∧ Hd argsSymbol = false;
  no_params : forallb W ss = true;
  no_comma : Forall (λ s, sym_name (st s) ≠ ","%string) ss
}.

(** A machine that can be entered: the lambda cell has the bytecode, and the
    stacks fit their arrays. *)
Record machine_ok (b : bytecode) (bi : nat) (bc : bcobj) (lambdaCell : loc) (m : vm) : Prop := {
  ma_bc : vm_bcs m !! bi = Some bc;
  ma_installed : installed b bc m;
  ma_cell : ∃ c, vm_heap m !! lambdaCell = Some c ∧ hc_bc c = Some bi;
  ma_nil : val m nilCell = Some CNil;
  ma_true : val m trueCell = Some CTrue;
  ma_cap : cap_ok m;
  ma_frames : frames_ok m
}.

(** The environment of the tree walker and the global cells of the machine. *)
Record globals_ok (Hd W : sym → bool) (ss : list sym) (m : vm) (g : env) : Prop := {
  gl_prims : prims_ok st Hd g;
  gl_values : ∀ s, W s = true → s ∉ ss →
    ∃ l v, vm_globals m !! s = Some l ∧ val m l = Some v ∧ g !! s = Some v ∧ clean v = true
}.

Section Agreement.
Variables (Hd W : sym → bool) (lit : sexp → bool) (self : option sym) (ss : list sym).
Variables (body : list sexp) (b : bytecode) (bi : nat) (bc : bcobj) (lambdaCell : loc) (m : vm) (g : env).
Hypothesis names : names_ok Hd W self ss.
Hypothesis machine : machine_ok b bi bc lambdaCell m.
Hypothesis globals : globals_ok Hd W ss m g.
Hypothesis compiled : compileLambda st (CLambda (CExpr (CSymbol <$> ss) :: body)) self = Ok (Some b).
Hypothesis fits : Z.of_nat (length (bc_code b)) < 32768.
Hypothesis literals : ∀ k v, k ∈ bc_constants b → lit v = true → compareCells st k v = 0 → k = v.
Hypothesis fragment : frag_body (frag st Hd lit) W (Some <$> ss) true body = true.

Local Abbreviation state := (state_ok st bi bc (vm_sp m) Hd (bc_constants b) (bc_num_locals b)).

(** The state behind [enter]. *)
Lemma call_state m1 f args : (length args ≤ length ss)%nat → 
  vm_stack m1 = vm_stack m ++ args ++ replicate (bo_num_locals bc - length args) nilCell →
  vm_frames m1 = f :: vm_frames m → vm_bcs m1 = vm_bcs m → vm_globals m1 = vm_globals m →
  cap_ok m1 → (∀ l v, val m l = Some v → val m1 l = Some v) →
  state (without W ss) (Some <$> ss) (vm_stack m)
    (args ++ replicate (bo_num_locals bc - length args) nilCell) [] m1 g.
Proof.
  intros Hl Hs Hf Hb Hg Hc Hv. destruct machine as [M1 [] M3 M4 M5 M6 M7]. split.
  - split; [by rewrite Hb|by apply Hv|by apply Hv|done].
  - intros i k Hk. destruct (in_constants0 i k Hk) as (l & Hl' & Hv'). exists l. auto.
  - by rewrite app_nil_r.
  - done.
  - rewrite length_app, length_replicate, in_locals0. lia.
  - intros s Hw. rewrite without_spec in Hw. apply andb_true_iff in Hw as [Hw Hn].
    destruct (findLocal_in (Some <$> ss) s 0) as [i|] eqn:Ef; [done|].
    assert (Hns : s ∉ ss).
    { intros Hin. apply list_elem_of_In in Hin.
      assert (E : existsb (Nat.eqb s) ss = true).
      { apply existsb_exists. exists s. split; [done|apply Nat.eqb_refl]. }
      rewrite existsb_findLocal, Ef in E. done. }
    destruct (gl_values _ _ _ _ _ globals s Hw Hns) as (l & v & Hl' & Hv' & Hrest).
    exists l, v. unfold slot_of. rewrite Ef, Hg. auto.
  - exact (gl_prims _ _ _ _ _ globals).
Qed.

(** Binding the parameters and [$args] makes the slots represent them. *)
Lemma bound_state m1 slots vals es g2 x : fst <$> vals = ss →
  state (without W ss) (Some <$> ss) (vm_stack m) slots [] m1 g →
  (∀ i s v, vals !! i = Some (s, v) →
     ∃ l, slots !! i = Some l ∧ val m1 l = Some v ∧ clean v = true) →
  bind_all st vals [] g = Ok (es, g2) →
  state W (Some <$> ss) (vm_stack m) slots [] m1 (<[argsSymbol := x]> g2).
Proof.
  intros Efst Hst Hv Hb. destruct names as [HW Wa (_ & _ & Ha) Hp _].
  assert (Hst2 : state W (Some <$> ss) (vm_stack m) slots [] m1 g2).
  { pose proof (open_scope st bi bc (vm_sp m) Hd (bc_constants b) (bc_num_locals b) self W []
      (vm_stack m) slots [] m1 g vals es g2 HW) as G. rewrite Efst in G. by apply G. }
  eapply state_rebind; [exact Hst2|..].
  - intros s Hs. left. rewrite lookup_insert_ne; [done|]. intros <-. congruence.
  - intros h Hh. rewrite lookup_insert_ne; [done|]. intros <-. congruence.
Qed.

(** After the call every symbol but [$it] and [$idx] holds what it held before. *)
Lemma call_env m1 m3 slots s3 temps es g2 g3 x saved vals : fst <$> vals = ss →
  bind_all st vals [] g = Ok (es, g2) → contents argsSymbol g2 = Ok saved →
  state W (Some <$> ss) (vm_stack m) s3 temps m3 g3 →
  frame_ok W (Some <$> ss) slots s3 (<[argsSymbol := x]> g2) g3 →
  vm_globals m3 = vm_globals m1 → vm_globals m1 = vm_globals m →
  (∀ l v, val m l = Some v → val m3 l = Some v) →
  ∀ s, s ≠ itSymbol → s ≠ listIdxSymbol →
    popEnvironment ((argsSymbol, saved) :: es) g3 !! s = g !! s.
Proof.
  intros Efst Hb Hsv Hst Hfr Hg3 Hg1 Hv s Hi Hx. destruct names as [HW Wa _ Hp _].
  destruct (popEnvironment_spec _ _ _ _ _ _ Hb) as (es1 & -> & Hpop). rewrite app_nil_r.
  specialize (Hpop (<[argsSymbol := saved]> g3) s). unfold popEnvironment in *. cbn [foldl].
  rewrite Hpop, Efst. pose proof (bind_all_bound _ _ _ _ _ _ s Hb) as Hg2. rewrite Efst in Hg2.
  destruct (findLocal_in (Some <$> ss) s 0) as [i|] eqn:Ef; [done|].
  destruct (Nat.eq_dec s argsSymbol) as [->|Hna].
  { rewrite lookup_insert_eq. unfold contents in Hsv. rewrite Hg2 in Hsv.
    destruct (g !! argsSymbol); [congruence|done]. }
  rewrite lookup_insert_ne by done. destruct (W s) eqn:Ew.
  - destruct (so_rep _ _ _ _ _ _ _ _ _ _ _ _ _ _ Hst s Ew) as (l & v & Hl & Hvl & -> & _).
    assert (Hns : s ∉ ss).
    { intros Hin. apply list_elem_of_In in Hin.
      assert (E : existsb (Nat.eqb s) ss = true).
      { apply existsb_exists. exists s. split; [done|apply Nat.eqb_refl]. }
      rewrite existsb_findLocal, Ef in E. done. }
    destruct (gl_values _ _ _ _ _ globals s Ew Hns) as (l' & v' & Hl' & Hv' & -> & _).
    unfold slot_of in Hl. rewrite Ef, Hg3, Hg1, Hl' in Hl. injection Hl as <-.
    apply Hv in Hv'. congruence.
  - rewrite (fo_env _ _ _ _ _ _ Hfr s Ew Hi Hx). by rewrite lookup_insert_ne.
Qed.

(** The body run from the state behind [enter] reaches [OP_RET]. *)
Lemma call_body m1 slots g1 n v g' : state W (Some <$> ss) (vm_stack m) slots [] m1 g1 →
  evaluateBlock (evaluateExpression st n) body g1 = Ok (v, g') →
  ∃ m3 s3 l ip, runs st (vm_frame_count m) (vm_sp m) bi lambdaCell (vm_sp m) m1 0 m3 ip ∧
    bo_code bc !! ip = Some (op_byte OP_RET) ∧
    state W (Some <$> ss) (vm_stack m) s3 [l] m3 g' ∧ val m3 l = Some v ∧
    frame_ok W (Some <$> ss) slots s3 g1 g'.
Proof.
  intros Hst Hev. destruct names as [HW _ (Hi & Hx & _) _ Hc].
  destruct machine as [_ [Ec Es _ _ _] _ _ _ _ _].
  destruct (compileLambda_code _ _ _ _ _ Hc compiled)
    as (bs & top & Ebs & Hat & Ek & Esy & Em & _ & [_ Hmax] & Hk & Hs).
  assert (HC : code_at (bo_code bc) 0 (bs ++ [op_byte OP_RET])) 
    by (rewrite Ec, Ebs; apply (code_at_prefix [])).
  apply code_at_app in HC as [HC HR]. apply code_at_cons in HR as [HR _].
  unfold MAX_LOCALS in Hmax.
  assert (Hpl : place_ok bc (bc_constants b) (bc_num_locals b) self
                  (Place (Some <$> ss) self top) (Some <$> ss)).
  { split; simpl; [done|done|by rewrite Ek; reflexivity|by rewrite Esy, Es; reflexivity|by rewrite Em]. }
  edestruct (begin_correct st (vm_frame_count m) (vm_sp m) bi bc lambdaCell (vm_sp m) Hd lit
    (bc_constants b) (bc_num_locals b) self (evaluateExpression st n)) as
    (m3 & s3 & l & w & Hr & Hst3 & Hv3 & _ & Hw & Hfr);
    [|exact fragment|exact HW|exact Hpl|exact Hat|exact HC|exact Hev|exact Hst|].
  { apply expr_correct; [done|done|exact literals|lia|rewrite Es; lia|rewrite Ec; lia|lia]. }
  specialize (Hw eq_refl). subst w. exists m3, s3, l, (length bs). done.
Qed.


End Agreement.

End Calls.

(** ** A concrete call

    A lambda of one parameter that doubles a local in a [while] loop, [n] times,
    and answers the power of two, less 10 when it is not below 10; called on 3. *)

Module Sample.

Definition names : list string :=
  ["nil"; "true"; "$it"; "$idx"; "$args"; "n"; "i"; "acc"; ""; "";
   "let"; "while"; "<"; "setq"; "*"; "+"; "if"; "-"]%string.
Definition st : symtab := λ s, Symbol (nth s names EmptyString) 0 0%nat CNil.

Definition S_n := CSymbol 5%nat.
Definition S_i := CSymbol 6%nat.
Definition S_acc := CSymbol 7%nat.
Definition form (head : sym) (args : list sexp) : sexp := CExpr (CSymbol head :: args).

Definition body : list sexp :=
  [form 10%nat [CExpr [S_i; CLong 0; S_acc; CLong 1];
     form 11%nat [form 12%nat [S_i; S_n];
       form 13%nat [S_acc; form 14%nat [S_acc; CLong 2]; S_i; form 15%nat [S_i; CLong 1]]];
     form 16%nat [form 12%nat [S_acc; CLong 10]; S_acc; form 17%nat [S_acc; CLong 10]]]].

Definition lambda : sexp := CLambda (CExpr [S_n] :: body).

Definition Hd (s : sym) : bool := existsb (Nat.eqb s) [10; 11; 12; 13; 14; 15; 16; 17]%nat.
Definition W (s : sym) : bool := existsb (Nat.eqb s) [5; 6; 7]%nat.
Definition lit (v : sexp) : bool := match v with CLong _ => true | _ => false end.

Definition b : bytecode :=
  match compileLambda st lambda None with
  | Ok (Some b) => b
  | _ => Bytecode [] [] [] 0 0 CNil
  end.

Definition bc : bcobj := BcObj (bc_code b) [3%nat] (bc_symbols b) (bc_num_params b) (bc_num_locals b).

Definition m : vm :=
  VM [HCell (Some CNil) false None; HCell (Some CTrue) false None; HCell (Some lambda) false (Some 0%nat);
      HCell (Some (CLong 10)) false None; HCell (Some (CLong 3)) true None]
     [] 64 [] 16 (<[6%nat := nilCell]> (<[7%nat := nilCell]> ∅)) [bc].

Definition g : env :=
  list_to_map [(2, CNil); (3, CNil); (4, CNil); (5, CNil); (6, CNil); (7, CNil);
    (10, CPrimitive 8); (11, CPrimitive 0); (12, CPrimitive 14); (13, CPrimitive 7);
    (14, CPrimitive 12); (15, CPrimitive 10); (16, CPrimitive 4); (17, CPrimitive 11)]%nat.

#[local] Instance rt : Runtime := {| rt_eval := λ _ _, UB; rt_call := λ _ _ _, UB |}.
#[local] Instance tr : TreeRuntime := {| tr_call := λ _ _ _, UB; tr_setf := λ _ _, UB |}.

Lemma in_existsb s l (P : sym → Prop) : existsb (Nat.eqb s) l = true → Forall P l → P s.
Proof.
  intros (x & Hx & ->%Nat.eqb_eq)%existsb_exists Hl. rewrite Forall_forall in Hl.
  by apply Hl, list_elem_of_In.
Qed.

Lemma names_sample : names_ok st Hd W None [5%nat].
Proof.
  split; [|done|done|done|by repeat constructor]. split; [done|done| |done].
  intros h Hh. pattern h. apply (in_existsb _ _ _ Hh). by repeat constructor.
Qed.

Lemma machine_sample : machine_ok b 0 bc 2 m.
Proof.
  split; [done| |by eexists|done|done|split; vm_compute; lia|split; vm_compute; lia].
  split; [reflexivity..|]. replace (bc_constants b) with [CLong 10] by (by vm_compute).
  intros [|i] k Hk; [|done]. injection Hk as <-. exists 3%nat. by split; vm_compute.
Qed.

Lemma globals_sample : globals_ok st Hd W [5%nat] m g.
Proof.
  split.
  - intros h Hh. pattern h. apply (in_existsb _ _ _ Hh).
    repeat constructor; do 2 eexists; split; by vm_compute.
  - intros s Hs. pattern s. apply (in_existsb _ _ _ Hs).
    repeat constructor; intros Hn; [destruct Hn; by left|..]; exists nilCell, CNil; by vm_compute.
Qed.


End Sample.
