(* ===== verification/Order.v ===== *)
(** * The comparison of cells as an order

    [compareCells] (src/nl-math.c) decides [=], [<] and the other comparisons,
    sorting, and which constants the compiler shares.  Away from NaN it is
    reflexive and antisymmetric, through lists of any depth. *)

From stdpp Require Import base list numbers tactics strings.
From Stdlib Require Import ZArith Lia String Ascii SpecFloat.
From S2P Require Import Prelude Cell Arith Fragment.

#[global] Open Scope Z_scope.

(** ** Strings, symbols, floats *)

Lemma strcmp_antisym a : ∀ b, strcmp b a = - strcmp a b.
Proof.
  induction a as [|x a IH]; intros [|y b]; try done. cbn [strcmp].
  destruct (Z.ltb_spec (Z.of_nat (nat_of_ascii x)) (Z.of_nat (nat_of_ascii y)));
    destruct (Z.ltb_spec (Z.of_nat (nat_of_ascii y)) (Z.of_nat (nat_of_ascii x))); try lia.
  apply IH.
Qed.

Lemma strcmp_refl a : strcmp a a = 0.
Proof. pose proof (strcmp_antisym a a). lia. Qed.

Lemma sgn3_opp z : z ≠ 0 → sgn3 (- z) = - sgn3 z.
Proof. intros H. unfold sgn3. destruct (Z.ltb_spec 0 z), (Z.ltb_spec 0 (- z)); lia. Qed.

(** The sign of a difference, 0 for none. *)
Lemma sign_antisym z : (if - z =? 0 then 0 else sgn3 (- z)) = - (if z =? 0 then 0 else sgn3 z).
Proof.
  destruct (Z.eqb_spec z 0) as [->|H]; [done|]. destruct (Z.eqb_spec (- z) 0); [lia|].
  by apply sgn3_opp.
Qed.

Lemma compareStrings_antisym a b : compareStrings b a = - compareStrings a b.
Proof. unfold compareStrings. rewrite strcmp_antisym. apply sign_antisym. Qed.

Lemma compareSymbols_antisym st a b : compareSymbols st b a = - compareSymbols st a b.
Proof.
  unfold compareSymbols. rewrite (Nat.eqb_sym b a).
  destruct (Nat.eqb_spec a nilSymbol) as [->|Ha]; destruct (Nat.eqb_spec b nilSymbol) as [->|Hb];
    try (destruct (Nat.eqb_spec nilSymbol nilSymbol); done).
  - destruct (Nat.eqb_spec nilSymbol b) as [<-|_]; [done|].
    destruct (Nat.eqb_spec b trueSymbol); [|done]. done.
  - destruct (Nat.eqb_spec a nilSymbol); [done|]. destruct (Nat.eqb_spec a trueSymbol); done.
  - destruct (Nat.eqb_spec a trueSymbol) as [->|Ha'], (Nat.eqb_spec b trueSymbol) as [->|Hb']; try done.
    + destruct (Nat.eqb_spec trueSymbol b); [congruence|]. by simpl.
    + destruct (Nat.eqb_spec a trueSymbol); [congruence|]. by simpl.
    + cbn [orb]. destruct (Nat.eqb a b); [done|].
      rewrite (strcmp_antisym (sym_name (st (sym_context (st a))))).
      rewrite (strcmp_antisym (sym_name (st a))).
      set (z := strcmp _ (sym_name (st (sym_context (st b))))). set (w := strcmp _ _).
      destruct (Z.eqb_spec z 0) as [->|Hz]; [apply sign_antisym|].
      destruct (Z.eqb_spec (- z) 0); [lia|]. by apply sgn3_opp.
Qed.

Lemma SFcompare_antisym f g : SFcompare g f = CompOpp <$> SFcompare f g.
Proof.
  assert (P : ∀ m n, Pos.compare_cont Eq n m = CompOpp (Pos.compare_cont Eq m n)).
  { intros m n. symmetry. apply (Pos.compare_cont_antisym _ _ Eq). }
  destruct f as [s|s| |s m e], g as [t|t| |t n d]; try (by destruct s); try (by destruct t);
    try done; try (by destruct s, t).
  simpl. rewrite (Z.compare_antisym e d), (P m n).
  by destruct s, t, (e ?= d), (Pos.compare_cont Eq m n).
Qed.

Lemma compareFloats_antisym a b : isnan (getDirectFloat a) = false →
  isnan (getDirectFloat b) = false → compareFloats b a = - compareFloats a b.
Proof.
  intros Ha Hb. unfold compareFloats. rewrite Ha, Hb, SFcompare_antisym. simpl.
  by destruct (SFcompare _ _) as [[]|].
Qed.

(** ** Cells of different types *)

Lemma floatOfInt_direct z : isnan (getDirectFloat (CLong z)) = false.
Proof. apply floatOfInt_not_nan. Qed.

Lemma not_nan f : nan_free (CFloat f) = true → isnan (getDirectFloat (CFloat f)) = false.
Proof. simpl. by rewrite negb_true_iff. Qed.

Lemma compareTypes_antisym st a b : nan_free a = true → nan_free b = true →
  compareTypes st b a = - compareTypes st a b.
Proof.
  intros Ha Hb. unfold compareTypes.
  destruct a as [| |x|f|s|s|s|p|e|l|l|l], b as [| |y|g|t|t|t|q|e'|l'|l'|l']; try reflexivity.
  all: try (destruct s as [|[|s]]; reflexivity).
  all: try (destruct t as [|[|t]]; reflexivity).
  all: try (destruct s as [|[|s]], t as [|[|t]]; reflexivity).
  - apply compareFloats_antisym; [apply floatOfInt_direct|by apply not_nan].
  - apply compareFloats_antisym; [by apply not_nan|apply floatOfInt_direct].
  - destruct s as [|[|s]]; try reflexivity. cbn -[strcmp].
    rewrite (strcmp_antisym (sym_name (st (S (S s))))). apply sign_antisym.
  - destruct t as [|[|t]]; try reflexivity. cbn -[strcmp].
    rewrite (strcmp_antisym (sym_name (st s))). apply sign_antisym.
Qed.

(** ** Cells *)

Lemma three_way (x y : Z) :
  (if x <? y then 1 else if y <? x then -1 else 0) = - (if y <? x then 1 else if x <? y then -1 else 0).
Proof. destruct (Z.ltb_spec x y), (Z.ltb_spec y x); lia. Qed.

Lemma three_way_nat (x y : nat) :
  (if Nat.ltb x y then 1 else if Nat.ltb y x then -1 else 0) =
  - (if Nat.ltb y x then 1 else if Nat.ltb x y then -1 else 0).
Proof. destruct (Nat.ltb_spec x y), (Nat.ltb_spec y x); lia. Qed.

Section Lists.
Variable st : symtab.

Lemma lists_antisym l : Forall (λ a, ∀ b, nan_free a = true → nan_free b = true →
    compareCells st b a = - compareCells st a b) l → ∀ r,
  forallb nan_free l = true → forallb nan_free r = true →
  compareCells st (CExpr r) (CExpr l) = - compareCells st (CExpr l) (CExpr r).
Proof.
  induction 1 as [|x l Hx Hl IH]; intros [|y r]; try done. cbn [forallb].
  intros [Hnx Hnl]%andb_true_iff [Hny Hnr]%andb_true_iff. cbn [compareCells].
  rewrite (Hx y Hnx Hny). destruct (Z.eqb_spec (compareCells st x y) 0) as [E|E].
  - rewrite E. apply (IH r Hnl Hnr).
  - destruct (Z.eqb_spec (- compareCells st x y) 0); [lia|done].
Qed.

(** [compareCells] is antisymmetric on cells without NaN: swapping the sides
    of a comparison swaps less and greater, at any depth of nesting; and every
    such cell is equal to itself. *)
Theorem compareCells_order a : ∀ b, nan_free a = true → nan_free b = true →
  compareCells st b a = - compareCells st a b ∧ compareCells st a a = 0.
Proof.
  assert (A : ∀ b, nan_free a = true → nan_free b = true →
    compareCells st b a = - compareCells st a b).
  { induction a as [| |x|f|s|s|s|p|e IH|l IH|l IH|l IH] using sexp_ind_nested; intros b Ha Hb.
    all: destruct b as [| |y|g|t|t|t|q|e'|l'|l'|l']; try (by apply compareTypes_antisym); try done.
    - apply three_way.
    - apply compareFloats_antisym; by apply not_nan.
    - apply compareStrings_antisym.
    - apply compareSymbols_antisym.
    - apply three_way_nat.
    - apply three_way_nat.
    - cbn [compareCells]. rewrite (IH e' Ha Hb).
      destruct (Z.eqb_spec (compareCells st e e') 0) as [->|]; [done|].
      destruct (Z.eqb_spec (- compareCells st e e') 0); [lia|done].
    - by apply lists_antisym.
    - by apply (lists_antisym l IH l').
    - by apply (lists_antisym l IH l'). }
  intros b Ha Hb. split; [by apply A|]. pose proof (A a Ha Ha). lia.
Qed.

End Lists.

Lemma compareCells_order_witness :
  compareCells (λ _, Symbol "x" 0 0%nat CNil)
    (CExpr [CLong 1; CExpr [CString "b"]]) (CExpr [CLong 1; CExpr [CString "a"]]) = 1.
Proof.
  destruct (compareCells_order (λ _, Symbol "x" 0 0%nat CNil)
    (CExpr [CLong 1; CExpr [CString "a"]]) (CExpr [CLong 1; CExpr [CString "b"]])) as [E _];
    [done|done|]. rewrite E. by vm_compute.
Defined.
