(* ===== verification/Vm.v ===== *)
(** * The machine: operators, calls, tail calls

    Properties of the instructions of [executeBytecode] (src/nl-vm.c) for every
    machine state: the operators against those of nl-math.c, a call and its
    return, and tail calls. *)

From stdpp Require Import base list numbers tactics strings gmap.
From Stdlib Require Import ZArith Lia.
From S2P Require Import Prelude Cell Arith Bytecode Compiler Eval Machine Exec Fragment Agree.

#[global] Open Scope Z_scope.

Section Vm.
Context `{Runtime}.
Variable st : symtab.

(** ** Operators *)

(** A cell that [evaluateExpression] returns as it is. *)
Definition self_eval (v : sexp) : Prop := Z.land (cell_type v) EVAL_SELF_TYPE_MASK ≠ 0.

Lemma eval_self v m : self_eval v → eval_operand v m = Ok (v, m).
Proof. intros Hv. unfold eval_operand. apply Z.eqb_neq in Hv. by rewrite Hv. Qed.

(** The evaluator on values. *)
Definition as_is (v : sexp) (s : unit) : result (sexp * unit) := Ok (v, s).

Definition with_state {A} (m : vm) (r : result (A * unit)) : result (A * vm) :=
  match r with Ok (v, _) => Ok (v, m) | Fail e => Fail e | UB => UB | NoFuel => NoFuel end.

Lemma slow_two op va vb m : self_eval va → self_eval vb →
  arithmetikOp eval_operand op [va; vb] m = with_state m (arithmetikOp as_is op [va; vb] tt).
Proof.
  intros Ha Hb. unfold arithmetikOp. cbn [arith_loop]. rewrite (eval_self va m Ha).
  cbn -[arith_step]. rewrite (eval_self vb m Hb). cbn -[arith_step].
  destruct op; cbn -[arith_step]; destruct (getInteger64 va) as [x| | |]; try done;
    cbn -[arith_step]; destruct (getInteger64 vb) as [y| | |]; try done;
    cbn -[arith_step]; by destruct (arith_step _ x y).
Qed.

Lemma arith_two_longs op x y : binary_op op →
  arithmetikOp as_is (arith_of op) [CLong x; CLong y] tt =
    (z ← arith_step (arith_of op) x y; Ok (CLong z, tt)).
Proof. intros Hop. destruct op; try done; cbn -[arith_step]; by destruct (arith_step _ x y). Qed.

Lemma push_result v g m (s rest : list loc) : vm_stack m = s ++ rest →
  cap_ok m → (1 ≤ length rest)%nat → let '(m1, l) := alloc v g (set_stack s m) in
  ∃ m', push_raw l m1 = Ok m' ∧ vm_stack m' = s ++ [l] ∧ val m' l = Some v.
Proof.
  intros Hs Hc Hr. destruct (alloc v g (set_stack s m)) as [m1 l] eqn:Ea.
  destruct (alloc_ok _ _ _ _ _ Ea) as (E1 & S1 & C1 & V1).
  destruct (push_raw_ok l m1) as (m' & Hp & E' & S').
  - unfold cap_ok, vm_sp in *. rewrite S1, C1. cbn. rewrite Hs, length_app in Hc. lia.
  - exists m'. split; [done|]. split; [by rewrite S', S1|by apply E'].
Qed.

(** Reduction that keeps the operations of the machine folded. *)
#[local] Ltac vcbn := cbn -[pop deref push_raw slow_arith long_op arithmetikOp stuffInteger alloc].

(** The arithmetic instructions on any two cells: the operator of nl-math.c is applied to copies of the
    cells as to its arguments, so it evaluates them once more. *)
Lemma exec_arith_evaluates op m s la lb va vb :
  binary_op op → vm_stack m = s ++ [la; lb] → cap_ok m →
  val m la = Some va → val m lb = Some vb → int_ok va → int_ok vb →
  exec_arith op m =
    ('(v, m1) ← arithmetikOp eval_operand (arith_of op) [va; vb] (set_stack s m);
     let '(m2, l) := alloc v true m1 in push_raw l m2).
Proof.
  intros Hop Hs Hc Ha Hb Ia Ib. destruct (pop2 m s la lb Hs Hc) as (P1 & P2 & E & _).
  unfold exec_arith. rewrite P1. vcbn. rewrite P2. vcbn.
  rewrite (deref_val _ _ _ (ev_val _ _ E _ _ Ha)). vcbn. rewrite (deref_val _ _ _ (ev_val _ _ E _ _ Hb)). vcbn.
  assert (Slow : ('(m, l) ← slow_arith op [va; vb] (set_stack s m); push_raw l m) =
    ('(v, m1) ← arithmetikOp eval_operand (arith_of op) [va; vb] (set_stack s m); let '(m2, l) := alloc v true m1 in push_raw l m2)).
  { unfold slow_arith. by destruct (arithmetikOp _ _ _ _) as [[v m1]| | |]. }
  destruct va as [| |x|f|t|t|t|p|e|q|q|q]; try exact Slow.
  destruct vb as [| |y|f|t|t|t|p|e|q|q|q]; try exact Slow. clear Slow.
  rewrite slow_two by (done || discriminate). rewrite arith_two_longs, (long_op_step op x y Hop) by done.
  destruct (arith_step (arith_of op) x y) as [z| | |] eqn:Ez; cbn -[stuffInteger push_raw alloc]; try done.
  assert (Hz : in_int64 z) by exact (arith_step_range _ _ _ _ Ia Ib Ez (binary_arithmetic _ Hop)).
  unfold stuffInteger. by rewrite (int64_id z Hz).
Qed.

(** C15: the arithmetic instructions apply the operators of nl-math.c to the two cells on
    the stack as to arguments, whatever their types, integers in the shortcut included:
    the result is a new cell in place of the operands, an error or undefined behaviour of
    one is that of the other.  As the operator evaluates its arguments, an operand that
    does not evaluate to itself (a symbol, a context, a quoted expression, a list) is
    evaluated a second time.  On operands that evaluate to themselves (integers, floats,
    strings, nil, true, primitives, lambdas) it is the operator on their values. *)
Theorem exec_arith_agrees op m s la lb va vb :
  binary_op op → vm_stack m = s ++ [la; lb] → cap_ok m →
  val m la = Some va → val m lb = Some vb → int_ok va → int_ok vb →
  exec_arith op m =
    ('(v, m1) ← arithmetikOp eval_operand (arith_of op) [va; vb] (set_stack s m);
     let '(m2, l) := alloc v true m1 in push_raw l m2) ∧
  (self_eval va → self_eval vb →
   match arithmetikOp as_is (arith_of op) [va; vb] tt with
   | Ok (v, _) => ∃ m' l, exec_arith op m = Ok m' ∧ vm_stack m' = s ++ [l] ∧ val m' l = Some v
   | Fail e => exec_arith op m = Fail e
   | UB => exec_arith op m = UB
   | NoFuel => exec_arith op m = NoFuel
   end).
Proof.
  intros Hop Hs Hc Ha Hb Ia Ib. pose proof (exec_arith_evaluates op m s la lb va vb Hop Hs Hc Ha Hb Ia Ib) as E.
  split; [exact E|]. intros Sa Sb. rewrite E, (slow_two _ _ _ _ Sa Sb).
  destruct (arithmetikOp as_is (arith_of op) [va; vb] tt) as [[v []]| | |]; try done. vcbn.
  pose proof (push_result v true m s [la; lb] Hs Hc ltac:(simpl; lia)) as G.
  destruct (alloc v true (set_stack s m)) as [m1 l]. destruct G as (m' & G). by exists m', l.
Qed.

(** A value that is a symbol is evaluated once more by the instruction, where the tree walker's operator, which
    evaluates its argument to that symbol, answers that it is no number: [(+ 'x 1)] with 5 in [x]. *)
Theorem symbol_operand_diverges m s la lb x y n : (∀ m, rt_eval (CSymbol x) m = Ok (CLong y, m)) →
  vm_stack m = s ++ [la; lb] → cap_ok m → val m la = Some (CSymbol x) → val m lb = Some (CLong n) →
  in_int64 y → in_int64 n →
  arithmetikOp as_is A_ADD [CSymbol x; CLong n] tt = Fail ERR_NUMBER_EXPECTED ∧
  ∃ m' l, exec_arith OP_ADD m = Ok m' ∧ vm_stack m' = s ++ [l] ∧ val m' l = Some (CLong (int64 (y + n))).
Proof.
  intros Hx Hs Hc Ha Hb Iy In. split; [done|].
  rewrite (exec_arith_evaluates OP_ADD m s la lb _ _ I Hs Hc Ha Hb I In).
  assert (E : arithmetikOp eval_operand A_ADD [CSymbol x; CLong n] (set_stack s m) = Ok (CLong (int64 (y + n)), set_stack s m)).
  { assert (E1 : ∀ m, eval_operand (CSymbol x) m = Ok (CLong y, m)) by (intros m1; exact (Hx m1)).
    unfold arithmetikOp. rewrite E1. cbn [mbind result_bind getInteger64 arith_loop]. by rewrite eval_self by done. }
  change (arith_of OP_ADD) with A_ADD. rewrite E. vcbn.
  pose proof (push_result (CLong (int64 (y + n))) true m s [la; lb] Hs Hc ltac:(simpl; lia)) as G.
  destruct (alloc (CLong (int64 (y + n))) true (set_stack s m)) as [m1 l]. destruct G as (m' & G). by exists m', l.
Qed.

(** C19: the comparison instructions push what the comparison operators of
    nl-math.c answer for the same two cells, unless the comparison involves a
    NaN. *)
Theorem exec_compare_agrees name op r m s la lb va vb :
  comparison_op name = Some op → prim_named name = Some (PCompare r) →
  vm_stack m = s ++ [la; lb] → cap_ok m → val m la = Some va → val m lb = Some vb →
  compareCells st va vb ≠ 9 →
  ∃ b m', compareOp as_is st r [va; vb] tt = Ok (bool_sexp b, tt) ∧
    exec_compare st op m = Ok m' ∧ vm_stack m' = s ++ [bool_cell b].
Proof.
  intros Hop Hr Hs Hc Ha Hb H9. destruct (comparison_prim st _ _ Hop) as (r' & Hr' & _ & Ht & Hl).
  rewrite Hr in Hr'. injection Hr' as <-.
  destruct (exec_compare_ok st op m s la lb va vb Hs Hc Ha Hb) as (m' & He & _ & Hs').
  exists (rel_holds r (compareCells st va vb)), m'. split; [|split; [done|]].
  - unfold compareOp. cbn -[compareCells]. apply Z.eqb_neq in H9. rewrite H9. by destruct (rel_holds _ _).
  - rewrite Hs'. f_equal. f_equal. f_equal. destruct va, vb; try apply Ht; apply Hl.
Qed.

(** With a NaN the greater-than instructions answer [true] where the
    operators of nl-math.c answer [nil]. *)
Theorem compare_nan_diverges f : let nan := CFloat SpecFloat.S754_nan in
  compareCells st (CFloat f) nan = 9 ∧
  compareOp as_is st R_GREATER [CFloat f; nan] tt = Ok (CNil, tt) ∧
  compareOp as_is st R_GREATER_EQUAL [CFloat f; nan] tt = Ok (CNil, tt) ∧
  compare_test OP_GT (compareCells st (CFloat f) nan) = true ∧
  compare_test OP_GE (compareCells st (CFloat f) nan) = true.
Proof.
  assert (E : compareCells st (CFloat f) (CFloat SpecFloat.S754_nan) = 9).
  { simpl. unfold compareFloats. simpl. by rewrite orb_true_r. }
  cbv zeta. rewrite E. split; [done|]. unfold compareOp. cbn -[compareCells]. by rewrite E.
Qed.

(** ** Calls *)

Lemma pad_params_ok argc n m : cap_ok m → (argc ≤ n ≤ 255)%nat →
  ∃ m', pad_params argc n m = Ok (m', n) ∧ evolve m m' ∧
    vm_stack m' = vm_stack m ++ replicate (n - argc) nilCell ∧
    vm_frames_capacity m' = vm_frames_capacity m.
Proof.
  intros Hc [H1 H2]. unfold pad_params. destruct (Nat.leb_spec n argc).
  - exists m. replace n with argc by lia. rewrite Nat.sub_diag. simpl. by rewrite app_nil_r.
  - apply Nat.leb_le in H2. rewrite H2, push_nils_all.
    destruct (push_all_ok (replicate (n - argc) nilCell) m Hc) as (m' & -> & E & S & F).
    by exists m'.
Qed.

(** C20: a self call with no more arguments than parameters, and its return, for at most 255
    parameters (with 256 the [uint8_t] counter of the loop that pads them never reaches their
    number, [endless_padding]): the new frame gets the arguments, then [nil]
    for the parameters and locals that are left; when the callee returns with a
    cell, from any state whose stack below the frame and whose frames are
    untouched, the caller goes on behind the call with that cell in place of the
    arguments, and with its own registers and frames. *)
Theorem call_return_roundtrip base_frame start_sp argc r bc m s args f fs :
  vm_bcs m !! r_bc r = Some bc → cap_ok m → frames_ok m →
  vm_stack m = s ++ args → length args = argc →
  (argc ≤ bo_num_params bc ≤ 255)%nat → (bo_num_params bc ≤ bo_num_locals bc)%nat →
  vm_frames m = f :: fs → f_bc f = r_bc r → f_self f = r_self r → f_fp f = r_fp r →
  S (length fs) ≠ base_frame →
  ∃ m1 r1, exec_call_self argc r m = Ok (m1, r1) ∧
    r1 = Regs 0 (r_bc r) (r_self r) (length s) ∧
    vm_stack m1 = s ++ args ++ replicate (bo_num_locals bc - argc) nilCell ∧
    ∀ m2 slots l, vm_stack m2 = s ++ slots → vm_frames m2 = vm_frames m1 → cap_ok m2 →
      ∃ m3, exec_return base_frame start_sp l r1 m2 = Ok (Running m3 r) ∧
        vm_stack m3 = s ++ [l] ∧
        vm_frames m3 = Frame (f_bc f) (r_ip r) (f_fp f) (f_argc f) (f_self f) :: fs.
Proof.
  intros Hb Hc Hf Hs Ha Hn Hl Hfs F1 F2 F3 Hbase.
  unfold exec_call_self, bc_of. rewrite (rd_ok _ _ _ Hb).
  cbn -[pad_params push_nils Nat.sub Nat.ltb push_frame save_ip].
  destruct (pad_params_ok argc (bo_num_params bc) m Hc Hn) as (m1 & -> & E1 & S1 & C1).
  cbn -[pad_params push_nils Nat.sub Nat.ltb push_frame save_ip].
  assert (L1 : vm_sp m1 = (length s + bo_num_params bc)%nat).
  { unfold vm_sp. rewrite S1, Hs, !length_app, length_replicate. lia. }
  destruct (Nat.ltb_spec (vm_sp m1) (bo_num_params bc)); [lia|]. rewrite push_nils_all.
  destruct (push_all_ok (replicate (vm_sp m1 - bo_num_params bc + bo_num_locals bc - vm_sp m1) nilCell)
    m1 (ev_cap _ _ E1 Hc)) as (m2 & -> & E2 & S2 & C2).
  cbn -[Nat.sub push_frame save_ip]. unfold save_ip.
  rewrite (ev_frames _ _ E2), (ev_frames _ _ E1), Hfs. cbn -[Nat.sub push_frame].
  unfold push_frame, vm_frame_count. cbn -[Nat.ltb Nat.leb Nat.sub].
  destruct Hf as [Hf1 Hf2]. unfold vm_frame_count in Hf1. rewrite Hfs in Hf1. simpl in Hf1.
  assert (C3 : vm_frames_capacity m2 = vm_frames_capacity m) by congruence. rewrite C3.
  match goal with |- context [Nat.ltb ?n ?cap] => assert (Hcap : (n < cap)%nat) end.
  { destruct (Nat.leb_spec (vm_frames_capacity m) (S (length fs))); lia. }
  apply Nat.ltb_lt in Hcap. rewrite Hcap. do 2 eexists. split; [done|].
  split; [f_equal; lia|]. split.
  { cbn. rewrite S2, S1, Hs, <- !app_assoc. do 2 f_equal. rewrite <- replicate_add. f_equal. lia. }
  intros m3 slots l Hs3 Hf3 Hc3. cbn in Hf3. unfold exec_return. rewrite Hf3.
  cbn -[push Nat.eqb]. destruct (Nat.eqb_spec (S (length fs)) base_frame); [done|].
  cbn -[push]. replace (vm_sp m1 - bo_num_params bc)%nat with (length s) by lia.
  match goal with |- context [push l ?x] => destruct (push_ok l x) as (m4 & -> & E4 & S4) end.
  { unfold cap_ok, vm_sp in *. cbn. rewrite length_take. lia. }
  exists m4. cbn. split.
  - rewrite F1, F2, F3. by destruct r.
  - rewrite S4, (ev_frames _ _ E4). cbn. rewrite Hs3, take_app_length. done.
Qed.

(** A function of 256 parameters never gets past the padding: the counter of the arguments
    is a byte. *)
Theorem endless_padding argc r m bc : vm_bcs m !! r_bc r = Some bc → (argc ≤ 255)%nat →
  (255 < bo_num_params bc)%nat → exec_call_self argc r m = NoFuel.
Proof.
  intros Hb Ha Hn. unfold exec_call_self, bc_of, pad_params. rewrite (rd_ok _ _ _ Hb). cbn [mbind result_bind].
  destruct (Nat.leb_spec (bo_num_params bc) argc); [lia|]. by destruct (Nat.leb_spec (bo_num_params bc) 255); [lia|].
Qed.

(** a self call in tail position keeps the frame: no frame is added, the
    arguments move to the bottom of the frame with [nil] in the other slots, and
    the stack is no deeper than before however many such calls follow. *)
Theorem tail_call_self_keeps_frame argc r bc m s slots args f fs :
  vm_bcs m !! r_bc r = Some bc → cap_ok m → vm_stack m = s ++ slots ++ args →
  length s = r_fp r → length args = argc → (bo_num_params bc ≤ bo_num_locals bc ≤ length slots)%nat →
  vm_frames m = f :: fs →
  ∃ m', exec_tail_call_self argc r m = Ok (m', Regs 0 (r_bc r) (r_self r) (r_fp r)) ∧
    vm_stack m' = s ++ args ++ replicate (bo_num_locals bc - argc) nilCell ∧
    (vm_sp m' ≤ vm_sp m)%nat ∧
    vm_frames m' = Frame (f_bc f) 0 (f_fp f) (Z.of_nat argc) (f_self f) :: fs ∧
    vm_heap m' = vm_heap m.
Proof.
  intros Hb [Hc _] Hs Hfp Ha [Hn Hl] Hf. unfold exec_tail_call_self, bc_of. rewrite (rd_ok _ _ _ Hb).
  cbn -[Nat.ltb Nat.sub Nat.max reuse_frame]. unfold vm_sp in Hc.
  assert (L : length (vm_stack m) = (length s + length slots + length args)%nat).
  { rewrite Hs, !length_app. lia. }
  unfold vm_sp. destruct (Nat.ltb_spec (length (vm_stack m)) argc); [lia|].
  destruct (Nat.ltb_spec (vm_stack_capacity m) (r_fp r + argc `max` bo_num_locals bc)); [lia|].
  replace (drop (length (vm_stack m) - argc) (vm_stack m)) with args.
  2:{ rewrite Hs, app_assoc, drop_app_length'; [done|]. rewrite !length_app. lia. }
  unfold reuse_frame. cbn -[Nat.sub Nat.max take replicate]. rewrite Hf.
  eexists. split; [done|]. cbn -[Nat.sub Nat.max take replicate].
  assert (E : take (r_fp r) (vm_stack m) ++
    take (length args `max` bo_num_locals bc)
      (args ++ replicate (bo_num_params bc `max` bo_num_locals bc - length args) nilCell) =
    s ++ args ++ replicate (bo_num_locals bc - argc) nilCell).
  { rewrite Hs, take_app_length' by lia. f_equal.
    replace (bo_num_params bc `max` bo_num_locals bc - length args)%nat
      with (bo_num_locals bc - argc)%nat by lia.
    apply take_ge. rewrite length_app, length_replicate. lia. }
  rewrite E. split; [done|]. split; [rewrite L, !length_app, length_replicate; lia|done].
Qed.

End Vm.

(** ** Instances *)

Module Demo.

#[local] Instance rt : Runtime := {| rt_eval := λ _ _, UB; rt_call := λ _ _ _, UB |}.
Definition st : symtab := λ _, Symbol "x" 0 0%nat CNil.
Definition half5 : sexp := CFloat (SpecFloat.S754_finite false 5 (-1)).

(** A body of two locals and one parameter; the code is not looked at. *)
Definition bc : bcobj := BcObj [] [] [] 1 2.
Definition m (stack : list loc) (frames : list frame) : vm :=
  VM [HCell (Some CNil) false None; HCell (Some CTrue) false None; HCell (Some half5) true None;
      HCell (Some (CLong 3)) true None] stack 16 frames 4 ∅ [bc].
Definition r : regs := Regs 7 0 5%nat 0.
Definition f : frame := Frame 0 0 0 1 5%nat.

Lemma cap_demo stack frames : (length stack ≤ 16)%nat → cap_ok (m stack frames).
Proof. intros Hl. split; simpl; unfold vm_sp; simpl; lia. Qed.

Lemma exec_arith_agrees_witness :
  ∃ m' l, exec_arith OP_ADD (m [2; 3]%nat []) = Ok m' ∧ vm_stack m' = [] ++ [l] ∧
    val m' l = Some (CLong 5).
Proof.
  refine (proj2 (exec_arith_agrees OP_ADD (m [2; 3]%nat []) [] 2 3 half5 (CLong 3) _ _ _ _ _ _ _) _ _);
    [done|done|by apply cap_demo; simpl; lia|done|done|done|by split|done|done].
Defined.

(** [x] evaluates to 5; the cell 2 is the symbol [x] itself, as in [(+ 'x 3)]. *)
Definition rt5 : Runtime := {| rt_eval := λ _ m, Ok (CLong 5, m); rt_call := λ _ _ _, UB |}.
Definition quoted_m : vm :=
  VM [HCell (Some CNil) false None; HCell (Some CTrue) false None; HCell (Some (CSymbol 7%nat)) true None;
      HCell (Some (CLong 3)) true None] [2; 3]%nat 16 [] 4 ∅ [bc].

Lemma symbol_operand_diverges_witness :
  arithmetikOp as_is A_ADD [CSymbol 7%nat; CLong 3] tt = Fail ERR_NUMBER_EXPECTED ∧
  ∃ m' l, @exec_arith rt5 OP_ADD quoted_m = Ok m' ∧ vm_stack m' = [] ++ [l] ∧ val m' l = Some (CLong 8).
Proof.
  refine (@symbol_operand_diverges rt5 quoted_m [] 2%nat 3%nat 7%nat 5 3 _ _ _ _ _ _ _);
    [done|done|split; cbn; unfold vm_sp; cbn; lia|done|done|by split|by split].
Defined.

Lemma exec_compare_agrees_witness :
  ∃ b m', compareOp as_is st R_LESS [half5; CLong 3] tt = Ok (bool_sexp b, tt) ∧
    exec_compare st OP_LT (m [2; 3]%nat []) = Ok m' ∧ vm_stack m' = [] ++ [bool_cell b].
Proof.
  refine (exec_compare_agrees st "<" OP_LT R_LESS (m [2; 3]%nat []) [] 2 3 half5 (CLong 3) _ _ _ _ _ _ _);
    [done|done|done|by apply cap_demo; simpl; lia|done|done|by vm_compute].
Defined.

Lemma call_return_roundtrip_witness :
  ∃ m1 r1, exec_call_self 1 r (m [0; 0; 3]%nat [f]) = Ok (m1, r1) ∧ r1 = Regs 0 0 5%nat 2 ∧
    vm_stack m1 = [0; 0; 3; 0]%nat.
Proof.
  destruct (call_return_roundtrip 0 0 1 r bc (m [0; 0; 3]%nat [f]) [0; 0]%nat [3%nat] f [])
    as (m1 & r1 & H1 & H2 & H3 & _);
    [done|by apply cap_demo; simpl; lia|split; vm_compute; lia|done|done|simpl; lia|simpl; lia
    |done|done|done|done|done|].
  by exists m1, r1.
Defined.

Lemma tail_call_self_keeps_frame_witness :
  ∃ m', exec_tail_call_self 1 r (m [0; 0; 3]%nat [f]) = Ok (m', Regs 0 0 5%nat 0) ∧ vm_stack m' = [3; 0]%nat.
Proof.
  destruct (tail_call_self_keeps_frame 1 r bc (m [0; 0; 3]%nat [f]) [] [0; 0]%nat [3%nat] f [])
    as (m1 & H1 & H2 & _);
    [done|by apply cap_demo; simpl; lia|done|done|done|simpl; lia|done|].
  by exists m1.
Defined.

End Demo.
