(* ===== verification/Wellcode.v ===== *)
(** * Well-formed code (src/nl-vm.c)

    The bytes that the compiler emits, read as [executeBytecode] reads them: from one instruction to the
    next, each with its whole operand.  [coded] says that the code from a position on is a sequence of
    instructions whose operands name a constant, a symbol or a slot of the frame, and whose jumps lead to
    an instruction or behind the last one.  [codes] is a piece of compilation that keeps it, with the
    jumps that are not patched yet as marks. *)

From stdpp Require Import base list numbers tactics strings relations.
From Stdlib Require Import ZArith Lia.
From S2P Require Import Prelude Cell Bytecode Compiler Layout Eval Scope.

#[global] Open Scope Z_scope.
#[local] Set Warnings "-clear-no-such-hyp".

(** ** Instructions *)

(** The operand bytes the machine takes behind the opcode. *)
Definition operand_size (op : opcode) : nat :=
  match op with
  | OP_CONST | OP_LOAD_LOCAL | OP_STORE_LOCAL | OP_LOAD_GLOBAL | OP_STORE_GLOBAL
  | OP_JUMP | OP_JUMP_IF_NIL | OP_JUMP_IF_NOT_NIL => 2
  | OP_CALL | OP_CALL_SELF | OP_TAIL_CALL | OP_TAIL_CALL_SELF => 1
  | _ => 0
  end.

Definition is_jump (op : opcode) : bool :=
  match op with OP_JUMP | OP_JUMP_IF_NIL | OP_JUMP_IF_NOT_NIL => true | _ => false end.

(** The slot that an instruction without operand names. *)
Definition short_slot (op : opcode) : option nat :=
  match op with
  | OP_LOAD_LOCAL_0 | OP_STORE_LOCAL_0 => Some 0%nat
  | OP_LOAD_LOCAL_1 | OP_STORE_LOCAL_1 => Some 1%nat
  | OP_LOAD_LOCAL_2 | OP_STORE_LOCAL_2 => Some 2%nat
  | OP_LOAD_LOCAL_3 | OP_STORE_LOCAL_3 => Some 3%nat
  | _ => None
  end.

Definition instr_at (C : list Z) (p : nat) (op : opcode) : Prop := ∃ b, C !! p = Some b ∧ opcode_of b = Some op.

(** From one instruction to the next. *)
Definition next_instr (C : list Z) (p q : nat) : Prop :=
  ∃ op, instr_at C p op ∧ q = (p + S (operand_size op))%nat ∧ (q ≤ length C)%nat.

(** [p] is where an instruction starts, or the end, when the machine starts at [s]. *)
Definition starts (C : list Z) (s p : nat) : Prop := rtc (next_instr C) s p.

(** A frame of [nl] slots, [nk] constants and [ns] symbols. *)
Definition operand_ok (nk ns nl : nat) (C : list Z) (s p : nat) (op : opcode) : Prop :=
  match op with
  | OP_CONST => ∃ i, operand16 C (S p) = Ok i ∧ 0 ≤ i < Z.of_nat nk
  | OP_LOAD_GLOBAL | OP_STORE_GLOBAL => ∃ i, operand16 C (S p) = Ok i ∧ 0 ≤ i < Z.of_nat ns
  | OP_LOAD_LOCAL | OP_STORE_LOCAL => ∃ i, operand16 C (S p) = Ok i ∧ 0 ≤ i < Z.of_nat nl
  | OP_JUMP | OP_JUMP_IF_NIL | OP_JUMP_IF_NOT_NIL =>
      ∃ t, starts C s t ∧ offset16 C (S p) = Ok (int16 (Z.of_nat t - Z.of_nat (p + 3)))
  | OP_CALL | OP_CALL_SELF | OP_TAIL_CALL | OP_TAIL_CALL_SELF => ∃ n, rd C (S p) = Ok n
  | op => match short_slot op with Some k => (k < nl)%nat | None => True end
  end.

(** The code of [c] from [s] on. *)
Record coded (s : nat) (c : Compiler) : Prop := {
  co_end : starts (code c) s (code_size c);
  co_instr : ∀ p, starts (code c) s p → (p < code_size c)%nat → ∃ op, instr_at (code c) p op ∧
    operand_ok (length (constants c)) (length (symbols c)) (max_locals c) (code c) s p op;
  co_wf : wf c
}.

(** ** Where instructions start *)

Lemma instr_at_det C p op op' : instr_at C p op → instr_at C p op' → op = op'.
Proof. intros (b & H1 & H2) (b' & H3 & H4). congruence. Qed.

Lemma next_instr_det C p q q' : next_instr C p q → next_instr C p q' → q = q'.
Proof. intros (op & H1 & -> & _) (op' & H2 & -> & _). by rewrite (instr_at_det _ _ _ _ H1 H2). Qed.

Lemma next_instr_lt C p q : next_instr C p q → (p < q)%nat.
Proof. intros (op & _ & -> & _). lia. Qed.

Lemma starts_le C s p : starts C s p → (s ≤ p)%nat.
Proof. induction 1 as [|p q r H _ IH]; [done|]. apply next_instr_lt in H. lia. Qed.

(** The starts are in one row. *)
Lemma starts_row C s p q : starts C s p → starts C s q → starts C p q ∨ starts C q p.
Proof.
  intros Hp. induction Hp as [s|s p' p H Hpp IH]; intros Hq; [by left|].
  destruct Hq as [|u q' q H' Hq']; [right; eapply rtc_l; [exact H|done]|].
  apply IH. by rewrite (next_instr_det _ _ _ _ H H').
Qed.

Lemma starts_apart C s p q op : starts C s p → starts C s q → instr_at C q op →
  (p ≤ q ∨ q + S (operand_size op) ≤ p)%nat.
Proof.
  intros Hp Hq Ho. destruct (starts_row _ _ _ _ Hp Hq) as [H|H].
  - left. by eapply starts_le.
  - destruct H as [|q q' p H H']; [by left|right]. destruct H as (op' & Ho' & -> & _).
    rewrite (instr_at_det _ _ _ _ Ho Ho'). by eapply starts_le.
Qed.

Lemma instr_at_app C bs p op : instr_at C p op → instr_at (C ++ bs) p op.
Proof. intros (b & H1 & H2). exists b. split; [by apply lookup_app_l_Some|done]. Qed.

Lemma next_instr_app C bs p q : next_instr C p q → next_instr (C ++ bs) p q.
Proof.
  intros (op & H1 & H2 & H3). exists op. split; [by apply instr_at_app|]. split; [done|].
  rewrite length_app. lia.
Qed.

Lemma starts_app C bs s p : starts C s p → starts (C ++ bs) s p.
Proof. intros H. eapply rtc_congruence with (f := λ x, x); [apply next_instr_app|exact H]. Qed.

(** Back: within the old code. *)
Lemma starts_old C bs s p : starts (C ++ bs) s p → (p ≤ length C)%nat → starts C s p.
Proof.
  intros H. induction H as [s|s q p H Hq IH]; intros Hp; [apply rtc_refl|].
  eapply rtc_l; [|by apply IH]. pose proof (starts_le _ _ _ Hq) as Hl. pose proof (next_instr_lt _ _ _ H) as Hlt.
  destruct H as (op & (b & H1 & H2) & -> & _). exists op. split; [|split; [done|lia]].
  exists b. split; [|done]. rewrite lookup_app_l in H1 by lia. done.
Qed.

(** The same bytes at the starts, the same starts. *)
Lemma starts_same C C' s : length C' = length C → (∀ p, starts C s p → C' !! p = C !! p) →
  ∀ p, starts C s p ↔ starts C' s p.
Proof.
  intros Hl Hs p. split; intros H.
  - refine (rtc_ind_r (λ p, starts C' s p) s (rtc_refl _ _) _ p H). intros q r H1 H2 IH.
    eapply rtc_r; [exact IH|]. destruct H2 as (op & (b & H3 & H4) & -> & H5). exists op.
    split; [exists b; by rewrite Hs|]. by rewrite Hl.
  - refine (rtc_ind_r (λ p, starts C s p) s (rtc_refl _ _) _ p H). intros q r H1 H2 IH.
    eapply rtc_r; [exact IH|]. destruct H2 as (op & (b & H3 & H4) & -> & H5). exists op.
    split; [exists b; by rewrite <- Hs|]. by rewrite <- Hl.
Qed.

(** ** Operands *)

Lemma rd_app (C bs : list Z) i x : rd C i = Ok x → rd (C ++ bs) i = Ok x.
Proof.
  unfold rd. destruct (C !! i) as [y|] eqn:E; [|done]. by rewrite (lookup_app_l_Some _ _ _ _ E).
Qed.

Lemma operand16_app C bs i x : operand16 C i = Ok x → operand16 (C ++ bs) i = Ok x.
Proof.
  unfold operand16. intros H. apply bind_ok_inv in H as (lo & H1 & H). apply bind_ok_inv in H as (hi & H2 & H).
  by rewrite (rd_app _ _ _ _ H1), (rd_app _ _ _ _ H2).
Qed.

Lemma offset16_app C bs i x : offset16 C i = Ok x → offset16 (C ++ bs) i = Ok x.
Proof.
  unfold offset16. intros H. apply bind_ok_inv in H as (lo & H1 & H). apply bind_ok_inv in H as (hi & H2 & H).
  by rewrite (rd_app _ _ _ _ H1), (rd_app _ _ _ _ H2).
Qed.

(** The operand of an instruction that has just been emitted. *)
Lemma operand16_end C op v : 0 ≤ v < 65536 → operand16 (C ++ op16 op v) (S (length C)) = Ok v.
Proof.
  intros Hv. unfold operand16, rd, op16. rewrite !lookup_app_r by lia.
  replace (S (length C) - length C)%nat with 1%nat by lia.
  replace (S (S (length C)) - length C)%nat with 2%nat by lia. cbn. by rewrite word_unsigned.
Qed.

Lemma operand_ok_mono nk ns nl nk' ns' nl' C bs s p op : (nk ≤ nk')%nat → (ns ≤ ns')%nat → (nl ≤ nl')%nat →
  operand_ok nk ns nl C s p op → operand_ok nk' ns' nl' (C ++ bs) s p op.
Proof.
  intros H1 H2 H3. destruct op; cbn; try done; try lia;
    try (intros (i & E & ?); exists i; split; [by apply operand16_app|lia]);
    try (intros (t & Ht & E); exists t; split; [by apply starts_app|by apply offset16_app]);
    intros (n & E); exists n; by apply rd_app.
Qed.

(** ** Pieces of compilation *)

(** What is there before stays: where instructions start, and their opcodes. *)
Definition keeps (s : nat) (c c' : Compiler) : Prop :=
  (code_size c ≤ code_size c')%nat ∧
  ∀ p, starts (code c) s p → starts (code c') s p ∧ ((p < code_size c)%nat → code c' !! p = code c !! p).

(** What a later piece relies on: the operand of a jump to be patched, the start of an instruction, a
    slot of the frame, the index of a symbol. *)
Inductive mark := MJump (j : nat) | MLabel (p : nat) | MSlot (k : nat) | MSym (i : Z).

Definition mark_ok (s : nat) (c : Compiler) (m : mark) : Prop :=
  match m with
  | MJump j => ∃ p op, j = S p ∧ starts (code c) s p ∧ instr_at (code c) p op ∧ is_jump op = true
  | MLabel p => starts (code c) s p
  | MSlot k => (k < max_locals c)%nat
  | MSym i => 0 ≤ i < Z.of_nat (length (symbols c)) ∧ i < 65536
  end.

Definition codes (s : nat) (c : Compiler) (M : list mark) (c' : Compiler) (M' : list mark) : Prop :=
  failed c' = false → failed c = false ∧ le c c' ∧
    (coded s c → Forall (mark_ok s c) M → coded s c' ∧ Forall (mark_ok s c') M' ∧ keeps s c c').

#[export] Instance keeps_preorder s : PreOrder (keeps s).
Proof.
  split; [by split|]. intros a b c [L1 H1] [L2 H2]. split; [lia|]. intros p Hp.
  destruct (H1 p Hp) as [Ha Hb]. destruct (H2 p Ha) as [Hc Hd]. split; [done|].
  intros Hlt. rewrite Hd by lia. by apply Hb.
Qed.

Lemma mark_keeps s c c' m : le c c' → keeps s c c' → mark_ok s c m → mark_ok s c' m.
Proof.
  intros [_ Ls Lm] [_ K]. destruct m as [j|p|k|i]; cbn.
  - intros (p & op & -> & Hp & (b & Hb & Ho) & Hj). exists p, op. destruct (K p Hp) as [Hs Hk].
    split; [done|]. split; [done|]. split; [|done]. exists b. split; [|done].
    rewrite Hk; [done|]. by eapply lookup_lt_Some.
  - intros Hp. by apply K.
  - lia.
  - apply prefix_length in Ls. lia.
Qed.

Lemma marks_keep s c c' M : le c c' → keeps s c c' → Forall (mark_ok s c) M → Forall (mark_ok s c') M.
Proof. intros Hl Hk H. eapply Forall_impl; [exact H|]. intros m. by apply mark_keeps. Qed.

Section Codes.
Variables (s : nat) (c0 : Compiler) (M0 : list mark).

Lemma codes_refl M : (∀ m, m ∈ M → m ∈ M0) → codes s c0 M0 c0 M.
Proof.
  intros HM F. split; [done|]. split; [done|]. intros G HM0. split; [done|]. split; [|done].
  rewrite Forall_forall in *. auto.
Qed.

Lemma codes_trans c M c' M' : codes s c0 M0 c M → codes s c M c' M' → codes s c0 M0 c' M'.
Proof.
  intros H1 H2 F. destruct (H2 F) as (F1 & L1 & K1). destruct (H1 F1) as (F0 & L0 & K0).
  split; [done|]. split; [by etransitivity|]. intros G HM. destruct (K0 G HM) as (G1 & HM1 & Ka).
  destruct (K1 G1 HM1) as (G2 & HM2 & Kb). split; [done|]. split; [done|]. by etransitivity.
Qed.

Lemma codes_frame c M c' : codes s c [] c' [] → codes s c M c' M.
Proof.
  intros H F. destruct (H F) as (F0 & L & K). split; [done|]. split; [done|]. intros G HM.
  destruct (K G (List.Forall_nil _)) as (G' & _ & K'). split; [done|]. split; [by eapply marks_keep|done].
Qed.

(** One more piece, which needs nothing of the marks. *)
Lemma codes_then c M c' : codes s c0 M0 c M → codes s c [] c' [] → codes s c0 M0 c' M.
Proof. intros H1 H2. eapply codes_trans; [exact H1|]. by apply codes_frame. Qed.

Lemma codes_weaken c M M' : (∀ m, m ∈ M' → m ∈ M) → codes s c0 M0 c M → codes s c0 M0 c M'.
Proof.
  intros HM H F. destruct (H F) as (F0 & L & K). split; [done|]. split; [done|]. intros G HM0.
  destruct (K G HM0) as (G' & HM' & K'). split; [done|]. split; [|done]. rewrite Forall_forall in *. auto.
Qed.

Lemma codes_failed c M : failed c = true → codes s c0 M0 c M.
Proof. intros H F. congruence. Qed.

End Codes.

Lemma codes_id s c M : codes s c M c M.
Proof. apply codes_refl. auto. Qed.

(** ** Emission *)

(** A whole instruction with a good operand. *)
Lemma emit_instr s c c' op bs : emits c c' (op_byte op :: bs) → length bs = operand_size op →
  (coded s c → operand_ok (length (constants c')) (length (symbols c')) (max_locals c') (code c') s (code_size c) op) →
  codes s c [] c' [].
Proof.
  intros X Hl Hop _. split; [by eapply emits_failed|]. pose proof (emits_le _ _ _ X) as L. split; [done|].
  intros G _. specialize (Hop G). destruct G as [Ge Gi Gw]. pose proof (emits_size _ _ _ X) as Hs. cbn [length] in Hs.
  pose proof (ext_code _ _ _ (proj1 X)) as Hc. unfold code_size in *.
  assert (Hi : instr_at (code c') (length (code c)) op).
  { exists (op_byte op). split; [|apply opcode_of_byte]. by rewrite Hc, lookup_app_r, Nat.sub_diag by lia. }
  assert (Hend : starts (code c') s (length (code c'))).
  { rewrite Hs. eapply rtc_r; [rewrite Hc; by apply starts_app|]. exists op. split; [done|]. split; lia. }
  split; [split; [exact Hend| |by eapply emits_wf]|split; [done|]].
  - intros p Hp Hlt. unfold code_size in Hlt. destruct (Nat.lt_ge_cases p (length (code c))) as [Hold|Hnew].
    + rewrite Hc in Hp. apply starts_old in Hp; [|lia]. destruct (Gi p Hp Hold) as (o & Ho & Hok). exists o.
      split; [rewrite Hc; by apply instr_at_app|]. rewrite Hc. destruct L as [L1 L2 L3].
      eapply operand_ok_mono; [| | |exact Hok]; [by apply prefix_length|by apply prefix_length|done].
    + assert (p = length (code c)) as ->; [|by exists op]. assert (Hs' : starts (code c') s (length (code c))) by (rewrite Hc; by apply starts_app).
      destruct (starts_apart _ _ _ _ _ Hp Hs' Hi); lia.
  - split; [unfold code_size; lia|]. intros p Hp. split; [rewrite Hc; by apply starts_app|].
    intros Hlt. rewrite Hc. by rewrite lookup_app_l.
Qed.

(** Only instructions without operand have no obligation. *)
Definition bare (op : opcode) : bool :=
  match operand_size op, short_slot op with O, None => true | _, _ => false end.

Lemma bare_ok nk ns nl C s p op : bare op = true → operand_ok nk ns nl C s p op.
Proof. by destruct op. Qed.

Section Emit.
Variables (s : nat) (c0 : Compiler) (M0 : list mark).

Lemma codes_op op c M : bare op = true → codes s c0 M0 c M → codes s c0 M0 (emitOp op c) M.
Proof.
  intros Hop H. eapply codes_then; [exact H|]. intros F. pose proof F as F'. rewrite emitOp_failed in F.
  eapply emit_instr; [by apply emitOp_emits|by destruct op| |exact F']. intros _. by apply bare_ok.
Qed.

Lemma emitOp16_max op v c : max_locals (emitUint16 v (emitOp op c)) = max_locals c.
Proof.
  assert (E : ∀ b c, max_locals (emitByte b c) = max_locals c) by (intros b c1; unfold emitByte; by destruct (failed c1)).
  unfold emitUint16, emitOp. by rewrite !E.
Qed.

(** An instruction with a word for operand. *)
Lemma codes_op16 op v c M : 0 ≤ v < 65536 → operand_size op = 2%nat →
  (∀ C p, operand16 C (S p) = Ok v → Forall (mark_ok s c) M →
     operand_ok (length (constants c)) (length (symbols c)) (max_locals c) C s p op) →
  codes s c0 M0 c M → codes s c0 M0 (emitUint16 v (emitOp op c)) M.
Proof.
  intros Hv Hsz Hok H. eapply codes_trans; [exact H|]. intros F. pose proof F as F'. rewrite emitOp16_failed in F.
  pose proof (emitOp16_emits op v c F) as X. split; [done|]. split; [by eapply emits_le|]. intros G HM.
  assert (E : codes s c [] (emitUint16 v (emitOp op c)) []).
  { eapply emit_instr; [exact X|done|]. intros _. destruct (emitOp16_tables op v c) as [-> ->].
    rewrite emitOp16_max. apply Hok; [|exact HM]. rewrite (ext_code _ _ _ (proj1 X)). by apply operand16_end. }
  destruct (E F') as (_ & L & K). destruct (K G (List.Forall_nil _)) as (G' & _ & K'). split; [done|]. split; [|done].
  by eapply marks_keep.
Qed.

Lemma mark_in c M m : Forall (mark_ok s c) M → m ∈ M → mark_ok s c m.
Proof. rewrite Forall_forall. auto. Qed.

Lemma word_le z : 0 ≤ z → 0 ≤ uint16 z < 65536 ∧ uint16 z ≤ z.
Proof. intros Hz. unfold wrapU. change (2 ^ 16) with 65536. pose proof (Z.mod_pos_bound z 65536). split; [lia|]. apply Z.mod_le; lia. Qed.

(** Loads and stores of a slot. *)
Lemma codes_local k long short c M : operand_size long = 2%nat →
  (∀ nk ns nl C p i, operand16 C (S p) = Ok i → 0 ≤ i < Z.of_nat nl → operand_ok nk ns nl C s p long) →
  (k < 4 → operand_size (short k) = 0 ∧ short_slot (short k) = Some k)%nat →
  MSlot k ∈ M → codes s c0 M0 c M →
  codes s c0 M0 (if Nat.ltb k 4 then emitOp (short k) c else emitUint16 (uint16 (Z.of_nat k)) (emitOp long c)) M.
Proof.
  intros Hl Hlong Hshort Hm H. destruct (Nat.ltb_spec k 4) as [Hlt|_].
  - destruct (Hshort Hlt) as [H1 H2]. eapply codes_trans; [exact H|]. intros F. pose proof F as F'. rewrite emitOp_failed in F.
    pose proof (emitOp_emits (short k) c F) as X. split; [done|]. split; [by eapply emits_le|]. intros G HM.
    pose proof (mark_in _ _ _ HM Hm) as Hs. cbn in Hs.
    assert (E : codes s c [] (emitOp (short k) c) []).
    { eapply emit_instr; [exact X|done|]. intros _. destruct (emits_le _ _ _ X) as [_ _ L].
      destruct (short k); try discriminate H2; injection H2 as <-; cbn in *; lia. }
    destruct (E F') as (_ & L & K). destruct (K G (List.Forall_nil _)) as (G' & _ & K'). split; [done|]. split; [|done].
    by eapply marks_keep.
  - destruct (word_le (Z.of_nat k)) as [Hw Hle]; [lia|]. apply codes_op16; [exact Hw|done| |done]. intros C p Hop HM.
    pose proof (mark_in _ _ _ HM Hm) as Hs. cbn in Hs. eapply Hlong; [exact Hop|lia].
Qed.

Lemma codes_load k c M : MSlot k ∈ M → codes s c0 M0 c M → codes s c0 M0 (emitLoadLocal k c) M.
Proof.
  apply (codes_local k OP_LOAD_LOCAL load_local_op); [done| |].
  - intros nk ns nl C p i Hi Hl. by exists i.
  - intros Hk. by do 4 (destruct k as [|k]; [done|]); lia.
Qed.

Lemma codes_store k c M : MSlot k ∈ M → codes s c0 M0 c M → codes s c0 M0 (emitStoreLocal k c) M.
Proof.
  apply (codes_local k OP_STORE_LOCAL store_local_op); [done| |].
  - intros nk ns nl C p i Hi Hl. by exists i.
  - intros Hk. by do 4 (destruct k as [|k]; [done|]); lia.
Qed.

(** Constants and symbols. *)
Lemma addSymbol_range x c c' i : addSymbol x c = (c', i) → 0 ≤ i < 65536.
Proof.
  unfold addSymbol. destruct (failed c); [intros [= _ <-]; lia|].
  destruct (find_symbol _ _ _); intros [= _ <-]; by apply word_le; lia.
Qed.

Lemma codes_const st v c M : codes s c0 M0 c M → codes s c0 M0 (compileConst st v c) M.
Proof.
  intros H. eapply codes_then; [exact H|]. intros F. destruct (compileConst_emits st v c F) as (i & k & X & Hk & _).
  eapply emit_instr; [exact X|done| |exact F]. intros _. destruct (word_le (Z.of_nat i)) as [Hw Hle]; [lia|].
  exists (uint16 (Z.of_nat i)). apply lookup_lt_Some in Hk. split; [|lia].
  rewrite (ext_code _ _ _ (proj1 X)). by apply operand16_end.
Qed.

Lemma codes_symbol x c c' i M : addSymbol x c = (c', i) → codes s c0 M0 c M → codes s c0 M0 c' (MSym i :: M).
Proof.
  intros E H. eapply codes_trans; [exact H|]. unfold addSymbol in E. destruct (failed c) eqn:F0.
  { injection E as <- <-. by apply codes_failed. }
  intros F. split; [done|]. destruct (find_symbol (symbols c) x 0) as [n|] eqn:Ef; injection E as <- <-.
  - split; [done|]. intros G HM. split; [done|]. split; [|done]. constructor; [|done]. cbn.
    apply find_symbol_spec in Ef as (n' & -> & Hn). apply lookup_lt_Some in Hn.
    destruct (word_le (Z.of_nat (0 + n'))); [lia|]. lia.
  - split; [split; cbn; [done|by eexists|done]|]. intros [G1 G2 G3] HM. assert (L : le c (set_symbols (symbols c ++ [x]) c)) by (split; cbn; [done|by eexists|done]).
    split; [split; [done| |done]|].
    + intros p Hp Hlt. destruct (G2 p Hp Hlt) as (op & Ho & Hok). exists op. split; [done|].
      rewrite <- (app_nil_r (code _)). eapply operand_ok_mono; [..|exact Hok]; cbn; rewrite ?length_app; lia.
    + assert (K : keeps s c (set_symbols (symbols c ++ [x]) c)) by by split.
      split; [|done]. constructor; [|by eapply marks_keep]. cbn. rewrite length_app. cbn.
      destruct (word_le (Z.of_nat (length (symbols c)))); lia.
Qed.

Lemma codes_global op i c M : op = OP_LOAD_GLOBAL ∨ op = OP_STORE_GLOBAL → 0 ≤ i < 65536 → MSym i ∈ M →
  codes s c0 M0 c M → codes s c0 M0 (emitUint16 i (emitOp op c)) M.
Proof.
  intros Hop Hi Hm H. apply codes_op16; [done|by destruct Hop as [-> | ->]| |done]. intros C p Ho HM.
  pose proof (mark_in _ _ _ HM Hm) as Hs. cbn in Hs. destruct Hop as [-> | ->]; exists i; split; done || lia.
Qed.

(** A call with its count. *)
Lemma codes_call op n c M : operand_size op = 1%nat → byte_ok n → codes s c0 M0 c M →
  codes s c0 M0 (emitByte n (emitOp op c)) M.
Proof.
  intros Hop Hn H. eapply codes_then; [exact H|]. intros F. pose proof F as F'. rewrite emitByte_failed, emitOp_failed in F.
  pose proof (emits_trans _ _ _ _ _ (emitOp_emits op c F) (emitByte_emits n (emitOp op c) ltac:(by rewrite emitOp_failed) Hn)) as X.
  eapply emit_instr; [exact X|done| |exact F']. intros _.
  assert (E : rd (code (emitByte n (emitOp op c))) (S (code_size c)) = Ok n).
  { apply rd_ok. rewrite (ext_code _ _ _ (proj1 X)), lookup_app_r by (unfold code_size; lia).
    replace (S (code_size c) - length (code c))%nat with 1%nat by (unfold code_size; lia). done. }
  destruct op; try discriminate Hop; by exists n.
Qed.

(** The current end of the code. *)
Lemma codes_label c M : codes s c0 M0 c M → codes s c0 M0 c (MLabel (code_size c) :: M).
Proof.
  intros H F. destruct (H F) as (F0 & L & K). split; [done|]. split; [done|]. intros G HM.
  destruct (K G HM) as (G' & HM' & K'). split; [done|]. split; [|done]. constructor; [|done]. apply G'.
Qed.

End Emit.

(** ** Jumps *)

#[local] Transparent jmp.

Lemma codes_jump s c0 M0 op c c1 j M : is_jump op = true → emitJump op c = (c1, j) →
  codes s c0 M0 c M → codes s c0 M0 c1 (MJump j :: M).
Proof.
  intros Hop E H. eapply codes_trans; [exact H|]. intros F.
  destruct (emitJump_emits op c c1 j E F) as (F0 & X & ->). split; [done|]. split; [by eapply emits_le|]. intros G HM.
  pose proof (ext_code _ _ _ (proj1 X)) as Hc. pose proof (emits_size _ _ _ X) as Hs. rewrite jmp_length in Hs.
  assert (Hi : instr_at (code c1) (code_size c) op).
  { exists (op_byte op). split; [|apply opcode_of_byte]. unfold code_size. by rewrite Hc, lookup_app_r, Nat.sub_diag by lia. }
  assert (Hp : starts (code c1) s (code_size c)) by (rewrite Hc; apply starts_app, G).
  assert (K : codes s c [] c1 []).
  { pose proof X as X'. unfold jmp, op16 in X'. eapply emit_instr; [exact X'|by destruct op|]. intros _.
    assert (O : ∃ t, starts (code c1) s t ∧ offset16 (code c1) (S (code_size c)) = Ok (int16 (Z.of_nat t - Z.of_nat (code_size c + 3)))).
    { exists (code_size c + 3)%nat. split.
      - eapply rtc_r; [exact Hp|]. exists op. split; [done|]. split; [by destruct op|]. unfold code_size in *. lia.
      - replace (Z.of_nat (code_size c + 3) - Z.of_nat (code_size c + 3)) with 0 by lia.
        unfold offset16, rd, code_size. rewrite Hc, !lookup_app_r by lia.
        replace (S (length (code c)) - length (code c))%nat with 1%nat by lia.
        replace (S (S (length (code c))) - length (code c))%nat with 2%nat by lia. done. }
    by destruct op. }
  destruct (K F) as (_ & L & K'). destruct (K' G (List.Forall_nil _)) as (G' & _ & Kk). split; [done|]. split; [|done].
  constructor; [|by eapply marks_keep]. by exists (code_size c), op.
Qed.

Lemma operand_ok_same nk ns nl C C' s q op :
  (∀ i, (q < i < q + S (operand_size op))%nat → C' !! i = C !! i) → (∀ p, starts C s p → starts C' s p) →
  operand_ok nk ns nl C s q op → operand_ok nk ns nl C' s q op.
Proof.
  intros Hb Hs. assert (Hrd : ∀ i, (q < i < q + S (operand_size op))%nat → rd C' i = rd C i) by (intros i Hi; unfold rd; by rewrite Hb).
  assert (H2 : operand_size op = 2%nat → operand16 C' (S q) = operand16 C (S q) ∧ offset16 C' (S q) = offset16 C (S q)).
  { intros Hsz. rewrite Hsz in Hrd. unfold operand16, offset16. by rewrite !Hrd by lia. }
  assert (H1 : operand_size op = 1%nat → rd C' (S q) = rd C (S q)) by (intros Hsz; apply Hrd; lia).
  destruct op; cbn [operand_ok operand_size] in *; try done; try (by rewrite H1); rewrite ?(proj1 (H2 eq_refl)), ?(proj2 (H2 eq_refl)); try done;
    intros (t & Ht & E); exists t; (split; [by apply Hs|done]).
Qed.

(** Writing the distance to an instruction into the operand of a jump. *)
Lemma patch_coded s c c' j t : coded s c → mark_ok s c (MJump j) → starts (code c) s t →
  (let v := int16 (Z.of_nat t - Z.of_nat (j + 2)) in c1 ← code_write j (lo_byte v) c; code_write (j + 1) (hi_byte v) c1) = Ok c' →
  coded s c' ∧ keeps s c c'.
Proof.
  intros [Ge Gi Gw] (p & op & -> & Hp & Ho & Hj) Ht H. cbv zeta in H. apply bind_ok_inv in H as (c1 & H1 & H2).
  apply code_write_fields in H1 as ->. apply code_write_fields in H2. cbn [code code_capacity set_code] in H2.
  set (v := int16 _) in *. set (C := code c) in *. set (C' := <[(S p + 1)%nat := hi_byte v]> (<[S p := lo_byte v]> C)) in *.
  assert (Hcode : code c' = C') by by subst c'.
  assert (Hlt : (p < length C)%nat) by (destruct Ho as (b & Hb & _); by eapply lookup_lt_Some).
  assert (Hsz : operand_size op = 2%nat) by by destruct op.
  assert (Hlen : (p + 2 < length C)%nat).
  { destruct (Gi p Hp Hlt) as (op' & Ho' & Hok). rewrite <- (instr_at_det _ _ _ _ Ho Ho') in Hok.
    assert (Hoff : ∃ x, offset16 C (S p) = Ok x) by (destruct op; try discriminate Hj; destruct Hok as (t' & _ & E); by eexists).
    destruct Hoff as (x & E). unfold offset16 in E. apply bind_ok_inv in E as (lo & _ & E). apply bind_ok_inv in E as (hi & E & _).
    unfold rd in E. destruct (C !! S (S p)) eqn:El; [|done]. apply lookup_lt_Some in El. lia. }
  assert (Hother : ∀ i, i ≠ S p → i ≠ (S p + 1)%nat → C' !! i = C !! i).
  { intros i H3 H4. unfold C'. by rewrite !list_lookup_insert_ne by congruence. }
  assert (Hst : ∀ q, starts C s q → C' !! q = C !! q).
  { intros q Hq. pose proof (starts_apart _ _ _ _ _ Hq Hp Ho). apply Hother; lia. }
  assert (Hl' : length C' = length C) by (unfold C'; by rewrite !length_insert).
  pose proof (starts_same C C' s Hl' Hst) as Hiff.
  assert (Hfields : constants c' = constants c ∧ symbols c' = symbols c ∧ max_locals c' = max_locals c ∧ num_locals c' = num_locals c)
    by by subst c'.
  destruct Hfields as (Hk & Hss & Hm & Hnl). change (code_size c) with (length C) in *.
  assert (Hs' : code_size c' = length C) by (unfold code_size; by rewrite Hcode).
  split; [split|]; rewrite ?Hcode, ?Hs', ?Hk, ?Hss, ?Hm.
  - by apply Hiff.
  - intros q Hq Hql. apply Hiff in Hq. destruct (Gi q Hq Hql) as (o & Hoq & Hok).
    exists o. split; [destruct Hoq as (b & Hb & Hob); exists b; by rewrite Hst|].
    destruct (decide (q = p)) as [->|Hne].
    + rewrite <- (instr_at_det _ _ _ _ Ho Hoq).
      assert (O : ∃ t, starts C' s t ∧ offset16 C' (S p) = Ok (int16 (Z.of_nat t - Z.of_nat (p + 3)))).
      { exists t. split; [by apply Hiff|].
        assert (Hlo : rd C' (S p) = Ok (lo_byte v)).
        { apply rd_ok. unfold C'. rewrite list_lookup_insert_ne by lia. apply list_lookup_insert_eq. lia. }
        assert (Hhi : rd C' (S (S p)) = Ok (hi_byte v)).
        { apply rd_ok. replace (S (S p)) with (S p + 1)%nat by lia. apply list_lookup_insert_eq. rewrite length_insert. lia. }
        unfold offset16. rewrite Hlo, Hhi. cbn [mbind result_bind]. f_equal. replace (p + 3)%nat with (S p + 2)%nat by lia. fold v.
        rewrite word_signed; [done|]. apply (wrapS_range 16). lia. }
      destruct op; done || discriminate Hj.
    + eapply operand_ok_same; [|intros r; apply Hiff|exact Hok]. intros i Hi.
      pose proof (starts_apart _ _ _ _ _ Hq Hp Ho). pose proof (starts_apart _ _ _ _ _ Hp Hq Hoq). apply Hother; lia.
  - unfold wf in *. lia.
  - split; rewrite ?Hs'; [done|]. intros q Hq. rewrite Hcode. split; [by apply Hiff|]. intros _. by apply Hst.
Qed.

Section Patch.
Variables (s : nat) (c0 : Compiler) (M0 : list mark).

Lemma codes_patch j c c' M : MJump j ∈ M → patchJump j c = Ok c' → codes s c0 M0 c M → codes s c0 M0 c' M.
Proof.
  intros Hj E H. eapply codes_trans; [exact H|]. intros F. rewrite (patchJump_failed _ _ _ E) in F. split; [done|].
  unfold patchJump in E. rewrite F in E.
  assert (L : le c c') by (apply bind_ok_inv in E as (c1 & E1 & E2); apply code_write_fields in E1 as ->; apply code_write_fields in E2 as ->; done).
  split; [done|]. intros G HM. destruct (patch_coded s c c' j (code_size c) G (mark_in _ _ _ _ HM Hj) (co_end _ _ G)) as [G' K].
  { replace (Z.of_nat (j + 2)) with (Z.of_nat j + 2) by lia. exact E. }
  split; [done|]. split; [by eapply marks_keep|done].
Qed.

Lemma codes_back p j c c' M : MLabel p ∈ M → MJump j ∈ M → patchBack p j c = Ok c' → codes s c0 M0 c M → codes s c0 M0 c' M.
Proof.
  intros Hp Hj E H. eapply codes_trans; [exact H|]. intros F. rewrite (patchBack_failed _ _ _ _ E) in F. split; [done|].
  unfold patchBack in E.
  assert (L : le c c') by (apply bind_ok_inv in E as (c1 & E1 & E2); apply code_write_fields in E1 as ->; apply code_write_fields in E2 as ->; done).
  split; [done|]. intros G HM. destruct (patch_coded s c c' j p G (mark_in _ _ _ _ HM Hj) (mark_in _ _ _ _ HM Hp)) as [G' K].
  { replace (Z.of_nat (j + 2)) with (Z.of_nat j + 2) by lia. exact E. }
  split; [done|]. split; [by eapply marks_keep|done].
Qed.

Lemma codes_patchAll js : ∀ c c' M, (∀ j, j ∈ js → MJump j ∈ M) → patchAll js c = Ok c' →
  codes s c0 M0 c M → codes s c0 M0 c' M.
Proof.
  induction js as [|j js IH]; intros c c' M Hj E H; [by injection E as <-|].
  rewrite patchAll_cons in E. apply bind_ok_inv in E as (c1 & E1 & E). eapply IH; [|exact E|].
  - intros i Hi. apply Hj. by right.
  - eapply codes_patch; [|exact E1|exact H]. apply Hj. by left.
Qed.

(** Locals. *)
Lemma codes_addLocal x c c' k M : addLocal x c = (c', k) → codes s c0 M0 c M → codes s c0 M0 c' (MSlot k :: M).
Proof.
  intros E H. eapply codes_trans; [exact H|]. rewrite addLocal_eq in E.
  destruct (Nat.leb_spec MAX_LOCALS (num_locals c)); injection E as <- <-; [by apply codes_failed|].
  intros F. split; [done|]. set (c' := set_max_locals _ _) in *.
  assert (L : le c c') by (split; cbn; done || lia). split; [done|]. intros [G1 G2 G3] HM.
  assert (K : keeps s c c') by by split. split; [split; [done| |]|split; [|done]].
  - intros p Hp Hlt. destruct (G2 p Hp Hlt) as (op & Ho & Hok). exists op. split; [done|].
    rewrite <- (app_nil_r (code _)). eapply operand_ok_mono; [..|exact Hok]; cbn; lia.
  - unfold wf, num_locals. cbn. rewrite length_app. cbn. unfold num_locals. lia.
  - constructor; [|by eapply marks_keep]. cbn. lia.
Qed.

Lemma codes_take n c M : codes s c0 M0 c M → codes s c0 M0 (set_locals (take n (locals c)) c) M.
Proof.
  intros H. eapply codes_trans; [exact H|]. intros F. split; [done|]. split; [done|]. intros [G1 G2 G3] HM.
  split; [split; [done|exact G2|]|split; [|done]].
  - unfold wf, num_locals in *. cbn. rewrite length_take. lia.
  - eapply marks_keep; [done| |exact HM]. by split.
Qed.

Lemma codes_found c x k M : findLocal c x = Some k → codes s c0 M0 c M → codes s c0 M0 c (MSlot k :: M).
Proof.
  intros E H F. destruct (H F) as (F0 & L & K). split; [done|]. split; [done|]. intros G HM.
  destruct (K G HM) as (G' & HM' & K'). split; [done|]. split; [|done]. constructor; [|done]. cbn.
  apply findLocal_bound in E as [_ E]. apply lookup_lt_Some in E. destruct G' as [_ _ W]. unfold wf, num_locals in W. lia.
Qed.

End Patch.

(** ** The forms *)

Section Forms.
Variable st : symtab.
Local Abbreviation comp := (compileExpr st).

Definition all_coded (e : sexp) : Prop := ∀ s c c' tl, comp c e tl = Ok c' → codes s c [] c' [].

Variable N : nat.
Hypothesis IH : ∀ e, (sexp_size e < N)%nat → all_coded e.

Section Pieces.
Variables (s : nat) (c0 : Compiler) (M0 : list mark).

Lemma codes_rec e c c' tl M : (sexp_size e < N)%nat → comp c e tl = Ok c' → codes s c0 M0 c M → codes s c0 M0 c' M.
Proof using IH. intros He E H. eapply codes_then; [exact H|]. by eapply IH. Qed.

Lemma codes_body body tl : ∀ c c' M, (list_size body < N)%nat → compileBody comp body tl c = Ok c' →
  codes s c0 M0 c M → codes s c0 M0 c' M.
Proof using IH.
  induction body as [|e rest IHb]; intros c c' M Hs E H; [by injection E as <-|]. rewrite list_size_cons in Hs.
  cbn [compileBody] in E. apply bind_ok_inv in E as (c1 & E1 & E). eapply IHb; [lia|exact E|].
  assert (H1 : codes s c0 M0 c1 M) by (eapply codes_rec; [|exact E1|exact H]; lia).
  destruct rest; [done|by apply codes_op].
Qed.

Lemma codes_loop_body body : ∀ c c' M, (list_size body < N)%nat → compileLoopBody comp body c = Ok c' →
  codes s c0 M0 c M → codes s c0 M0 c' M.
Proof using IH.
  induction body as [|e rest IHb]; intros c c' M Hs E H; [by injection E as <-|]. rewrite list_size_cons in Hs.
  cbn [compileLoopBody] in E. apply bind_ok_inv in E as (c1 & E1 & E). eapply IHb; [lia|exact E|].
  apply codes_op; [done|]. eapply codes_rec; [|exact E1|exact H]. lia.
Qed.

Lemma codes_begin body tl c c' M : (list_size body < N)%nat → compileBegin comp body tl c = Ok c' →
  codes s c0 M0 c M → codes s c0 M0 c' M.
Proof using IH.
  intros Hs E H. destruct body as [|e body]; [|by eapply codes_body]. injection E as <-. by apply codes_op.
Qed.

Lemma codes_args args : ∀ c c' M, (list_size args < N)%nat → compileArgs comp args c = Ok c' →
  codes s c0 M0 c M → codes s c0 M0 c' M.
Proof using IH.
  induction args as [|e rest IHb]; intros c c' M Hs E H; [by injection E as <-|]. rewrite list_size_cons in Hs.
  cbn [compileArgs] in E. apply bind_ok_inv in E as (c1 & E1 & E). eapply IHb; [lia|exact E|].
  eapply codes_rec; [|exact E1|exact H]. lia.
Qed.

Lemma codes_operands op args : bare op = true → ∀ c c' M, (list_size args < N)%nat → compileOperands comp op args c = Ok c' →
  codes s c0 M0 c M → codes s c0 M0 c' M.
Proof using IH.
  intros Hop. induction args as [|e rest IHb]; intros c c' M Hs E H; [by injection E as <-|]. rewrite list_size_cons in Hs.
  cbn [compileOperands] in E. apply bind_ok_inv in E as (c1 & E1 & E). eapply IHb; [lia|exact E|].
  apply codes_op; [done|]. eapply codes_rec; [|exact E1|exact H]. lia.
Qed.

Lemma codes_chain op args c c' M : bare op = true → (list_size args < N)%nat → compileChain comp op args c = Ok c' →
  codes s c0 M0 c M → codes s c0 M0 c' M.
Proof using IH.
  intros Hop Hs E H. destruct args as [|a rest]; [by injection E as <-|]. rewrite list_size_cons in Hs.
  apply bind_ok_inv in E as (c1 & E1 & E). eapply codes_operands; [done| |exact E|]; [lia|].
  eapply codes_rec; [|exact E1|exact H]. lia.
Qed.

Lemma codes_unary e op c c' M : bare op = true → (sexp_size e < N)%nat → (c1 ← comp c e false; Ok (emitOp op c1)) = Ok c' →
  codes s c0 M0 c M → codes s c0 M0 c' M.
Proof using IH.
  intros Hop Hs E H. apply bind_ok_inv in E as (c1 & E1 & [= <-]). apply codes_op; [done|]. by eapply codes_rec.
Qed.

End Pieces.

(** The set of marks is the only thing that a proof about a form has to name. *)
Ltac in_marks := intros; rewrite ?elem_of_cons, ?elem_of_nil in *; naive_solver.

Lemma if_codes s args tl c c' : (list_size args < N)%nat → compileIf comp args tl c = Ok c' → codes s c [] c' [].
Proof using IH.
  intros Hs E. destruct args as [|cond [|then_expr rest]]; try (injection E as <-; by apply codes_failed).
  rewrite !list_size_cons in Hs. cbn [compileIf] in E. apply bind_ok_inv in E as (c1 & E1 & E).
  destruct (emitJump OP_JUMP_IF_NIL c1) as [c2 j1] eqn:J1. apply bind_ok_inv in E as (c3 & E3 & E).
  assert (H1 : codes s c [] c1 []) by (eapply codes_rec; [|exact E1|apply codes_id]; lia).
  pose proof (codes_jump _ _ _ OP_JUMP_IF_NIL _ _ _ _ eq_refl J1 H1) as H2.
  assert (H3 : codes s c [] c3 [MJump j1]) by (eapply codes_rec; [|exact E3|exact H2]; lia).
  assert (Hend : ∀ c4 j2 c5, emitJump OP_JUMP c3 = (c4, j2) → patchJump j1 c4 = Ok c5 → codes s c [] c5 [MJump j2]).
  { intros c4 j2 c5 J2 P. pose proof (codes_jump _ _ _ OP_JUMP _ _ _ _ eq_refl J2 H3) as H4.
    eapply codes_weaken; [|eapply codes_patch; [|exact P|exact H4]]; in_marks. }
  assert (Hall : ∀ j2 c6, codes s c [] c6 [MJump j2] → patchJump j2 c6 = Ok c' → codes s c [] c' []).
  { intros j2 c6 H6 P. eapply codes_weaken; [|eapply codes_patch; [|exact P|exact H6]]; in_marks. }
  destruct rest as [|else_expr rest]; destruct (emitJump OP_JUMP c3) as [c4 j2] eqn:J2;
    apply bind_ok_inv in E as (c5 & E5 & E); pose proof (Hend _ _ _ eq_refl E5) as H5.
  - eapply Hall; [|exact E]. by apply codes_op.
  - rewrite list_size_cons in Hs. apply bind_ok_inv in E as (c6 & E6 & E). eapply Hall; [|exact E].
    eapply codes_rec; [|exact E6|exact H5]. lia.
Qed.

Lemma when_codes s args tl c c' : (list_size args < N)%nat → compileWhen comp args tl c = Ok c' → codes s c [] c' [].
Proof using IH.
  intros Hs E. destruct args as [|cond [|e body]]; [injection E as <-; by apply codes_failed|..].
  { rewrite list_size_cons in Hs. cbn in Hs. eapply IH; [|exact E]. lia. }
  rewrite list_size_cons in Hs. cbn [compileWhen] in E. apply bind_ok_inv in E as (c1 & E1 & E).
  destruct (emitJump OP_JUMP_IF_NIL c1) as [c2 j1] eqn:J1. apply bind_ok_inv in E as (c3 & E3 & E).
  destruct (emitJump OP_JUMP c3) as [c4 j2] eqn:J2. apply bind_ok_inv in E as (c5 & E5 & E).
  assert (H1 : codes s c [] c1 []) by (eapply codes_rec; [|exact E1|apply codes_id]; lia).
  pose proof (codes_jump _ _ _ OP_JUMP_IF_NIL _ _ _ _ eq_refl J1 H1) as H2.
  assert (H3 : codes s c [] c3 [MJump j1]) by (eapply codes_body; [|exact E3|exact H2]; lia).
  pose proof (codes_jump _ _ _ OP_JUMP _ _ _ _ eq_refl J2 H3) as H4.
  assert (H5 : codes s c [] c5 [MJump j2; MJump j1]) by (eapply codes_patch; [|exact E5|exact H4]; in_marks).
  eapply codes_weaken; [|eapply codes_patch; [|exact E|by apply codes_op]]; in_marks.
Qed.

Definition jumps (js : list nat) : list mark := MJump <$> js.

Lemma jumps_in js j : j ∈ js → MJump j ∈ jumps js.
Proof. intros H. by apply list_elem_of_fmap_2. Qed.

(** Adding the jump just emitted to the list of those to patch. *)
Lemma codes_exit s c0 M0 op c c1 j js : is_jump op = true → emitJump op c = (c1, j) → codes s c0 M0 c (jumps js) →
  codes s c0 M0 c1 (jumps (js ++ [j])).
Proof.
  intros Hop E H. eapply codes_weaken; [|by eapply codes_jump]. intros m. unfold jumps. rewrite fmap_app, elem_of_app. cbn.
  rewrite !elem_of_cons, elem_of_nil. naive_solver.
Qed.

Lemma and_args_codes s c0 M0 args tl : ∀ c ex c' ex', (list_size args < N)%nat →
  compileAndArgs comp args tl ex c = Ok (inl (c', ex')) → codes s c0 M0 c (jumps ex) → codes s c0 M0 c' (jumps ex').
Proof using IH.
  induction args as [|e rest IHa]; intros c ex c' ex' Hs E H; [by injection E as <- <-|].
  rewrite list_size_cons in Hs. cbn [compileAndArgs] in E. destruct rest as [|e2 rest].
  - apply bind_ok_inv in E as (c1 & E1 & [= <- <-]). eapply codes_rec; [|exact E1|exact H]. lia.
  - apply bind_ok_inv in E as (c1 & E1 & E). case_match; [|done].
    destruct (emitJump OP_JUMP_IF_NIL c1) as [c2 j] eqn:J. eapply IHa; [lia|exact E|].
    apply (codes_exit _ _ _ OP_JUMP_IF_NIL _ _ _ _ eq_refl J). eapply codes_rec; [|exact E1|exact H]. lia.
Qed.

Lemma and_codes s args tl c c' : (list_size args < N)%nat → compileAnd comp args tl c = Ok c' → codes s c [] c' [].
Proof using IH.
  intros Hs E. destruct args as [|e args]; [injection E as <-; apply codes_op; [done|apply codes_id]|].
  cbn [compileAnd] in E. apply bind_ok_inv in E as ([[c1 ex]|c1] & E1 & E).
  2:{ apply compileAndArgs_inr in E1. injection E as <-. by apply codes_failed. }
  apply (and_args_codes s c []) in E1; [|done|apply codes_id]. destruct ex as [|x ex]; [by injection E as <-|].
  destruct (emitJump OP_JUMP c1) as [c2 j] eqn:J. apply bind_ok_inv in E as (c3 & E3 & E).
  pose proof (codes_jump _ _ _ OP_JUMP _ _ _ _ eq_refl J E1) as H2.
  assert (H3 : codes s c [] c3 (MJump j :: jumps (x :: ex))).
  { eapply codes_patchAll; [|exact E3|exact H2]. intros i Hi. right. by apply jumps_in. }
  eapply codes_weaken; [|eapply codes_patch; [|exact E|by apply codes_op]]; [in_marks|by left].
Qed.

Lemma or_args_codes s c0 M0 args tl : ∀ c ex c' ex', (list_size args < N)%nat →
  compileOrArgs comp args tl ex c = Ok (inl (c', ex')) → codes s c0 M0 c (jumps ex) → codes s c0 M0 c' (jumps ex').
Proof using IH.
  induction args as [|e rest IHa]; intros c ex c' ex' Hs E H; [by injection E as <- <-|].
  rewrite list_size_cons in Hs. cbn [compileOrArgs] in E. destruct rest as [|e2 rest].
  - apply bind_ok_inv in E as (c1 & E1 & [= <- <-]). eapply codes_rec; [|exact E1|exact H]. lia.
  - apply bind_ok_inv in E as (c1 & E1 & E). case_match; [|done].
    destruct (emitJump OP_JUMP_IF_NOT_NIL (emitOp OP_DUP c1)) as [c2 j] eqn:J. eapply IHa; [lia|exact E|].
    apply codes_op; [done|]. apply (codes_exit _ _ _ OP_JUMP_IF_NOT_NIL _ _ _ _ eq_refl J). apply codes_op; [done|].
    eapply codes_rec; [|exact E1|exact H]. lia.
Qed.

Lemma or_codes s args tl c c' : (list_size args < N)%nat → compileOr comp args tl c = Ok c' → codes s c [] c' [].
Proof using IH.
  intros Hs E. destruct args as [|e args]; [injection E as <-; apply codes_op; [done|apply codes_id]|].
  cbn [compileOr] in E. apply bind_ok_inv in E as ([[c1 ex]|c1] & E1 & E).
  2:{ apply compileOrArgs_inr in E1. injection E as <-. by apply codes_failed. }
  apply (or_args_codes s c []) in E1; [|done|apply codes_id].
  eapply codes_weaken; [|eapply codes_patchAll; [|exact E|exact E1]]; [in_marks|apply jumps_in].
Qed.

Lemma clauses_codes s c0 M0 clauses tl : ∀ c ex c' ex', (list_size clauses < N)%nat →
  compileClauses comp clauses tl ex c = Ok (inl (c', ex')) → codes s c0 M0 c (jumps ex) → codes s c0 M0 c' (jumps ex').
Proof using IH.
  induction clauses as [|cl rest IHc]; intros c ex c' ex' Hs E H; cbn [compileClauses] in E; [by injection E as <- <-|].
  rewrite list_size_cons in Hs. destruct cl as [| | | | | | | | |[|test_expr body]| |]; try done.
  { eapply IHc; [|exact E|exact H]. lia. }
  rewrite sexp_size_expr, list_size_cons in Hs. apply bind_ok_inv in E as (c1 & E1 & E).
  destruct (emitJump OP_JUMP_IF_NIL (emitOp OP_DUP c1)) as [c2 j1] eqn:J1. apply bind_ok_inv in E as (c3 & E3 & E). case_match; [|done].
  destruct (emitJump OP_JUMP c3) as [c4 j2] eqn:J2. apply bind_ok_inv in E as (c5 & E5 & E). eapply IHc; [lia|exact E|].
  assert (H1 : codes s c0 M0 (emitOp OP_DUP c1) (jumps ex)).
  { apply codes_op; [done|]. eapply codes_rec; [|exact E1|by apply codes_op]. lia. }
  pose proof (codes_jump _ _ _ OP_JUMP_IF_NIL _ _ _ _ eq_refl J1 H1) as H2.
  assert (H3 : codes s c0 M0 c3 (MJump j1 :: jumps ex)).
  { destruct body as [|e body]; [by injection E3 as <-|]. eapply codes_body; [|exact E3|by apply codes_op]. lia. }
  pose proof (codes_jump _ _ _ OP_JUMP _ _ _ _ eq_refl J2 H3) as H4.
  eapply codes_weaken; [|eapply codes_patch; [|exact E5|exact H4]]; [|right; by left].
  intros m. unfold jumps. rewrite fmap_app, elem_of_app. cbn. rewrite !elem_of_cons, elem_of_nil. naive_solver.
Qed.

Lemma cond_codes s clauses tl c c' : (list_size clauses < N)%nat → compileCond comp clauses tl c = Ok c' → codes s c [] c' [].
Proof using IH.
  intros Hs E. destruct clauses as [|cl clauses]; [injection E as <-; apply codes_op; [done|apply codes_id]|].
  cbn [compileCond] in E. apply bind_ok_inv in E as ([[c1 ex]|c1] & E1 & E).
  2:{ apply compileClauses_inr in E1. injection E as <-. by apply codes_failed. }
  apply (clauses_codes s c []) in E1; [|done|apply codes_op; [done|apply codes_id]].
  eapply codes_weaken; [|eapply codes_patchAll; [|exact E|exact E1]]; [in_marks|apply jumps_in].
Qed.

Lemma while_codes s args c c' : (list_size args < N)%nat → compileWhile comp args c = Ok c' → codes s c [] c' [].
Proof using IH.
  intros Hs E. destruct args as [|cond body]; [injection E as <-; by apply codes_failed|].
  rewrite list_size_cons in Hs. cbn [compileWhile] in E. apply bind_ok_inv in E as (c1 & E1 & E).
  destruct (emitJump OP_JUMP_IF_NIL c1) as [c2 j1] eqn:J1. apply bind_ok_inv in E as (c3 & E3 & E).
  destruct (emitJump OP_JUMP c3) as [c4 j2] eqn:J2.
  apply bind_ok_inv in E as (c5 & E5 & E). apply bind_ok_inv in E as (c6 & E6 & [= <-]).
  pose proof (codes_label s c [] c [] (codes_id _ _ _)) as H0.
  assert (H1 : codes s c [] c1 [MLabel (code_size c)]) by (eapply codes_rec; [|exact E1|exact H0]; lia).
  pose proof (codes_jump _ _ _ OP_JUMP_IF_NIL _ _ _ _ eq_refl J1 H1) as H2.
  assert (H3 : codes s c [] c3 [MJump j1; MLabel (code_size c)]) by (eapply codes_loop_body; [|exact E3|exact H2]; lia).
  pose proof (codes_jump _ _ _ OP_JUMP _ _ _ _ eq_refl J2 H3) as H4.
  apply codes_op; [done|]. eapply codes_weaken; [|eapply codes_patch; [|exact E6|eapply codes_back; [| |exact E5|exact H4]]]; in_marks.
Qed.

Lemma binding_codes s c0 M0 x init c c' M : (from_option sexp_size 0 init < N)%nat → compileBinding comp x init c = Ok c' →
  codes s c0 M0 c M → codes s c0 M0 c' M.
Proof using IH.
  intros Hs E H. unfold compileBinding in E. destruct (addLocal (Some x) c) as [c1 k] eqn:HA.
  apply bind_ok_inv in E as (c2 & E2 & [= <-]). pose proof (codes_addLocal _ _ _ _ _ _ _ _ HA H) as H1.
  eapply (codes_weaken _ _ _ _ (MSlot k :: M)); [in_marks|]. apply codes_store; [by left|].
  destruct init as [e|]; [by eapply codes_rec|]. injection E2 as <-. by apply codes_op.
Qed.

Lemma bindings_codes s c0 M0 bs : ∀ c c', (list_size bs < N)%nat → compileBindings comp bs c = Ok (inl c') →
  codes s c0 M0 c [] → codes s c0 M0 c' [].
Proof using IH.
  induction bs as [bs IHn] using (induction_ltof1 _ (@length sexp)); unfold ltof in IHn.
  intros c c' Hs E H. destruct bs as [|b rest]; [by injection E as <-|]. rewrite list_size_cons in Hs.
  destruct b as [| | | | |x| | | |[|[| | | | |x| | | | | |] init]| |]; try done.
  - destruct rest as [|e rest]; cbn [compileBindings] in E; apply bind_ok_inv in E as (c2 & E2 & E).
    + injection E as <-. eapply binding_codes; [|exact E2|exact H]. cbn. lia.
    + rewrite list_size_cons in Hs. eapply IHn; [| |exact E|]; [cbn; lia|lia|].
      eapply binding_codes; [|exact E2|exact H]. cbn. lia.
  - rewrite sexp_size_expr, list_size_cons in Hs. cbn [compileBindings] in E. apply bind_ok_inv in E as (c2 & E2 & E).
    eapply IHn; [| |exact E|]; [cbn; lia|lia|]. destruct init as [|e init].
    + eapply binding_codes; [|exact E2|exact H]. cbn. lia.
    + rewrite list_size_cons in Hs. eapply binding_codes; [|exact E2|exact H]. cbn. lia.
Qed.

Lemma let_body_codes s c0 M0 body tl n c c' : (list_size body < N)%nat → compileLetBody comp body tl n c = Ok c' →
  codes s c0 M0 c [] → codes s c0 M0 c' [].
Proof using IH.
  intros Hs E H. apply bind_ok_inv in E as (c1 & E1 & [= <-]). apply codes_take. by eapply codes_begin.
Qed.

Lemma let_codes s args tl c c' : (list_size args < N)%nat → compileLet comp args tl c = Ok c' → codes s c [] c' [].
Proof using IH.
  intros Hs E. destruct args as [|[| | | | | | | | |bindings| |] body]; try (injection E as <-; by apply codes_failed).
  rewrite list_size_cons, sexp_size_expr in Hs. cbn [compileLet] in E. apply bind_ok_inv in E as ([c1|c1] & E1 & E).
  2:{ apply compileBindings_inr in E1. injection E as <-. by apply codes_failed. }
  eapply let_body_codes; [|exact E|eapply bindings_codes; [|exact E1|apply codes_id]]; lia.
Qed.

Lemma vars_codes s c0 M0 vs : ∀ c c', compileVars vs c = inl c' → codes s c0 M0 c [] → codes s c0 M0 c' [].
Proof.
  induction vs as [|v vs IHv]; intros c c' E H; cbn [compileVars] in E; [by injection E as <-|].
  destruct v as [| | | | |x| | | | | |]; try done. destruct (addLocal (Some x) c) as [c1 k] eqn:HA.
  eapply IHv; [exact E|]. pose proof (codes_addLocal _ _ _ _ _ _ _ _ HA H) as H1.
  eapply (codes_weaken _ _ _ _ [MSlot k]); [in_marks|]. apply codes_store; [by left|]. by apply codes_op.
Qed.

Lemma local_codes s args tl c c' : (list_size args < N)%nat → compileLocal comp args tl c = Ok c' → codes s c [] c' [].
Proof using IH.
  intros Hs E. destruct args as [|[| | | | | | | | |vars| |] body]; try (injection E as <-; by apply codes_failed).
  rewrite list_size_cons in Hs. cbn [compileLocal] in E. destruct (compileVars vars c) as [c1|c1] eqn:E1.
  2:{ apply compileVars_inr in E1. injection E as <-. by apply codes_failed. }
  eapply let_body_codes; [|exact E|eapply vars_codes; [exact E1|apply codes_id]]. lia.
Qed.

Lemma dotimes_codes s args c c' : (list_size args < N)%nat → compileDotimes comp args c = Ok c' → codes s c [] c' [].
Proof using IH.
  intros Hs E.
  destruct args as [|[| | | | | | | | |[|[| | | | |x| | | | | |] [|count_expr rest]]| |] body];
    try (injection E as <-; by apply codes_failed).
  rewrite list_size_cons, sexp_size_expr, !list_size_cons in Hs. cbn [compileDotimes] in E.
  destruct (addLocal None c) as [c1 k1] eqn:A1. apply bind_ok_inv in E as (c2 & E2 & E).
  destruct (addLocal (Some x) (emitStoreLocal k1 c2)) as [c3 k2] eqn:A3.
  set (c4 := emitStoreLocal k2 (emitOp OP_CONST_0 c3)) in *. set (c5 := emitOp OP_LT (emitLoadLocal k1 (emitLoadLocal k2 c4))) in *.
  destruct (emitJump OP_JUMP_IF_NIL c5) as [c6 j1] eqn:J1. apply bind_ok_inv in E as (c7 & E7 & E).
  set (c8 := emitStoreLocal k2 (emitOp OP_ADD_1 (emitLoadLocal k2 c7))) in *.
  destruct (emitJump OP_JUMP c8) as [c9 j2] eqn:J2. apply bind_ok_inv in E as (c10 & E10 & E).
  apply bind_ok_inv in E as (c11 & E11 & [= <-]).
  pose proof (codes_addLocal _ _ _ _ _ _ _ _ A1 (codes_id s c [])) as H1.
  assert (H2 : codes s c [] c2 [MSlot k1]) by (eapply codes_rec; [|exact E2|exact H1]; lia).
  pose proof (codes_addLocal _ _ _ _ _ _ _ _ A3 (codes_store _ _ _ k1 _ _ ltac:(by left) H2)) as H3.
  set (M := [MSlot k2; MSlot k1]) in *.
  assert (H4 : codes s c [] c4 (MLabel (code_size c4) :: M)) by (apply codes_label, codes_store; [by left|by apply codes_op]).
  assert (H5 : codes s c [] c5 (MLabel (code_size c4) :: M)).
  { apply codes_op; [done|]. apply codes_load; [right; right; by left|]. apply codes_load; [right; by left|done]. }
  pose proof (codes_jump _ _ _ OP_JUMP_IF_NIL _ _ _ _ eq_refl J1 H5) as H6. set (M' := _ :: _ :: M) in H6.
  assert (H7 : codes s c [] c7 M').
  { destruct body as [|e body]; [injection E7 as <-; by do 2 (apply codes_op; [done|])|]. eapply codes_loop_body; [|exact E7|exact H6]. lia. }
  assert (H8 : codes s c [] c8 M').
  { apply codes_store; [right; right; by left|]. apply codes_op; [done|]. apply codes_load; [right; right; by left|done]. }
  pose proof (codes_jump _ _ _ OP_JUMP _ _ _ _ eq_refl J2 H8) as H9.
  apply (codes_take s c [] (num_locals c) (emitOp OP_NIL c11)). apply codes_op; [done|].
  eapply codes_weaken; [|eapply codes_patch; [|exact E11|eapply codes_back; [| |exact E10|exact H9]]]; unfold M'; in_marks.
Qed.

Lemma store_codes s c0 M0 x c1 c M : (∀ k, findLocal c1 x = Some k → MSlot k ∈ M) →
  codes s c0 M0 c M → codes s c0 M0 (emitStore (findLocal c1 x) x c) M.
Proof.
  intros Hk H. unfold emitStore. destruct (findLocal c1 x) as [k|] eqn:E; [by apply codes_store; [apply Hk|]|].
  destruct (addSymbol x c) as [c2 i] eqn:A. pose proof (codes_symbol _ _ _ _ _ _ _ _ A H) as H2.
  eapply codes_weaken; [|apply (codes_global _ _ _ _ _ _ (MSym i :: M)); [by right| |by left|exact H2]]; [in_marks|].
  by eapply addSymbol_range.
Qed.

Lemma set_pairs_codes s c0 M0 is_setq pairs : ∀ c c', (list_size pairs < N)%nat → compileSetPairs comp is_setq pairs c = Ok c' →
  codes s c0 M0 c [] → codes s c0 M0 c' [].
Proof using IH.
  induction pairs as [pairs IHn] using (induction_ltof1 _ (@length sexp)); unfold ltof in IHn.
  intros c c' Hs E H. destruct pairs as [|p rest]; [by injection E as <-|]. destruct rest as [|val rest]; cbn [compileSetPairs] in E.
  { destruct (assigned is_setq p); injection E as <-; by apply codes_failed. }
  rewrite !list_size_cons in Hs. destruct (assigned is_setq p) as [x|]; [|injection E as <-; by apply codes_failed].
  apply bind_ok_inv in E as (c1 & E1 & E). eapply IHn; [| |exact E|]; [cbn; lia|lia|].
  assert (H3 : codes s c0 M0 (emitStore (findLocal c x) x (emitOp OP_DUP c1)) []).
  { destruct (findLocal c x) as [k|] eqn:Ek.
    - pose proof (codes_found _ _ _ _ _ _ _ Ek H) as H1.
      eapply (codes_weaken _ _ _ _ [MSlot k]); [in_marks|]. rewrite <- Ek. apply store_codes; [intros k' Hk'; rewrite Ek in Hk'; injection Hk' as ->; by left|].
      apply codes_op; [done|]. eapply codes_rec; [|exact E1|exact H1]. lia.
    - rewrite <- Ek. apply store_codes; [congruence|]. apply codes_op; [done|]. eapply codes_rec; [|exact E1|exact H]. lia. }
  destruct rest; [done|by apply codes_op].
Qed.

Lemma set_codes s is_setq args c c' : (list_size args < N)%nat → compileSet comp is_setq args c = Ok c' → codes s c [] c' [].
Proof using IH.
  intros Hs E. destruct args as [|p args]; [injection E as <-; by apply codes_failed|]. by eapply set_pairs_codes; [|exact E|apply codes_id].
Qed.

Lemma delta_codes s c0 M0 is_inc delta c c' M : (list_size delta < N)%nat → compileDelta comp is_inc delta c = Ok c' →
  codes s c0 M0 c M → codes s c0 M0 c' M.
Proof using IH.
  intros Hs E H. destruct delta as [|d delta]; cbn [compileDelta] in E.
  - injection E as <-. apply codes_op; [by destruct is_inc|done].
  - rewrite list_size_cons in Hs. eapply codes_unary; [|..|exact E|exact H]; [by destruct is_inc|lia].
Qed.

Lemma incdec_codes s is_inc args c c' : (list_size args < N)%nat → compileIncDec comp is_inc args c = Ok c' → codes s c [] c' [].
Proof using IH.
  intros Hs E.
  assert (HA : ∀ x delta, (list_size delta < N)%nat → compileIncDecAt comp is_inc x delta c = Ok c' → codes s c [] c' []).
  { clear Hs E. intros x delta Hs E. unfold compileIncDecAt in E. destruct (findLocal c x) as [k|] eqn:Ek.
    - apply bind_ok_inv in E as (c1 & E1 & [= <-]). pose proof (codes_found _ _ _ _ _ _ _ Ek (codes_id s c [])) as H.
      eapply (codes_weaken _ _ _ _ [MSlot k]); [in_marks|]. apply codes_store; [by left|]. apply codes_op; [done|].
      eapply delta_codes; [exact Hs|exact E1|]. by apply codes_load; [left|].
    - destruct (addSymbol x c) as [c1 i] eqn:A. apply bind_ok_inv in E as (c2 & E2 & [= <-]).
      pose proof (codes_symbol _ _ _ _ _ _ _ _ A (codes_id s c [])) as H. pose proof (addSymbol_range _ _ _ _ A) as Hi.
      eapply (codes_weaken _ _ _ _ [MSym i]); [in_marks|]. apply codes_global; [by right|done|by left|]. apply codes_op; [done|].
      eapply delta_codes; [exact Hs|exact E2|]. by apply codes_global; [left|done|left|]. }
  destruct args as [|[| | | | |x| | |[| | | | |x| | | | | |]| | |] delta]; try (injection E as <-; by apply codes_failed);
    rewrite list_size_cons in Hs; (eapply HA; [|exact E]; lia).
Qed.

Lemma compare_codes s op args c c' : bare op = true → (list_size args < N)%nat → compileComparison comp op args c = Ok c' → codes s c [] c' [].
Proof using IH.
  intros Hop Hs E. destruct args as [|a [|b [|]]]; try (injection E as <-; by apply codes_failed). rewrite !list_size_cons in Hs.
  cbn [compileComparison] in E. apply bind_ok_inv in E as (c1 & E1 & E). eapply codes_unary; [exact Hop| |exact E|]; [lia|].
  eapply codes_rec; [|exact E1|apply codes_id]. lia.
Qed.

Ltac arith_case E := rewrite ?list_size_cons in *;
  first [ injection E as <-; first [apply codes_op; [done|apply codes_id] | by apply codes_failed]
        | eapply codes_unary; [|..|exact E|apply codes_id]; [done|lia]
        | eapply codes_chain; [|..|exact E|apply codes_id]; [done|rewrite ?list_size_cons; lia] ].

Lemma add_codes s args c c' : (list_size args < N)%nat → compileAdd comp args c = Ok c' → codes s c [] c' [].
Proof using IH.
  intros Hs E. destruct args as [|a [|b [|]]]; cbn [compileAdd] in E; try (by arith_case E).
  destruct (is_long b 1); [by arith_case E|]. destruct (is_long a 1); by arith_case E.
Qed.

Lemma sub_codes s args c c' : (list_size args < N)%nat → compileSub comp args c = Ok c' → codes s c [] c' [].
Proof using IH.
  intros Hs E. destruct args as [|a [|b [|]]]; cbn [compileSub] in E; try (by arith_case E).
  destruct (is_long b 1); [by arith_case E|]. destruct (is_long b 2); by arith_case E.
Qed.

Lemma mul_codes s args c c' : (list_size args < N)%nat → compileMul comp args c = Ok c' → codes s c [] c' [].
Proof using IH. intros Hs E. destruct args; cbn [compileMul] in E; by arith_case E. Qed.

Lemma div_codes s args c c' : (list_size args < N)%nat → compileDiv comp args c = Ok c' → codes s c [] c' [].
Proof using IH. intros Hs E. destruct args as [|a [|b args]]; cbn [compileDiv] in E; by arith_case E. Qed.

Lemma call_codes s c0 M0 op tail_op args tl c c' M : operand_size op = 1%nat → operand_size tail_op = 1%nat → (list_size args < N)%nat →
  compileCall comp op tail_op args tl c = Ok c' → codes s c0 M0 c M → codes s c0 M0 c' M.
Proof using IH.
  intros H1 H2 Hs E H. apply bind_ok_inv in E as (c1 & E1 & [= <-]). apply codes_call; [by destruct tl|apply (wrapU_range 8); lia|].
  by eapply codes_args.
Qed.

Lemma general_codes s head args tl c c' : (sexp_size head + list_size args < N)%nat → compileGeneral comp head args tl c = Ok c' →
  codes s c [] c' [].
Proof using IH.
  intros Hs E. apply bind_ok_inv in E as (c1 & E1 & E). eapply call_codes; [| | |exact E|]; [done|done|lia|].
  eapply codes_rec; [|exact E1|apply codes_id]. lia.
Qed.

Lemma symbol_codes s x c : codes s c [] (compileSymbol st x c) [].
Proof.
  unfold compileSymbol. destruct (findLocal c x) as [k|] eqn:Ek.
  - eapply (codes_weaken _ _ _ _ [MSlot k]); [in_marks|]. apply codes_load; [by left|]. eapply codes_found; [exact Ek|apply codes_id].
  - destruct (is_self st c x); [apply codes_op; [done|apply codes_id]|]. destruct (addSymbol x c) as [c1 i] eqn:A.
    eapply (codes_weaken _ _ _ _ [MSym i]); [in_marks|]. apply codes_global; [by left|by eapply addSymbol_range|by left|].
    eapply codes_symbol; [exact A|apply codes_id].
Qed.

Lemma comparison_bare name op : comparison_op name = Some op → bare op = true.
Proof. unfold comparison_op. repeat (case_match; [by intros [= <-]|]). done. Qed.

Lemma form_codes s hsym args tl c c' : (S (list_size args) < N)%nat →
  compileForm st comp (CSymbol hsym) hsym args tl c = Ok c' → codes s c [] c' [].
Proof using IH.
  intros Hs E. unfold compileForm in E. set (name := sym_name (st hsym)) in *.
  destruct (String.eqb name "if"); [eapply if_codes; [|exact E]; lia|].
  destruct (String.eqb name "when"); [eapply when_codes; [|exact E]; lia|].
  destruct (String.eqb name "cond"); [eapply cond_codes; [|exact E]; lia|].
  destruct (String.eqb name "and"); [eapply and_codes; [|exact E]; lia|].
  destruct (String.eqb name "or"); [eapply or_codes; [|exact E]; lia|].
  destruct (String.eqb name "begin"); [eapply codes_begin; [|exact E|apply codes_id]; lia|].
  destruct (String.eqb name "while"); [eapply while_codes; [|exact E]; lia|].
  destruct (String.eqb name "let"); [eapply let_codes; [|exact E]; lia|].
  destruct (String.eqb name "local"); [eapply local_codes; [|exact E]; lia|].
  destruct (String.eqb name "dotimes"); [eapply dotimes_codes; [|exact E]; lia|].
  destruct (String.eqb name "setq"); [eapply set_codes; [|exact E]; lia|].
  destruct (String.eqb name "set"); [eapply set_codes; [|exact E]; lia|].
  destruct (String.eqb name "inc"); [eapply incdec_codes; [|exact E]; lia|].
  destruct (String.eqb name "dec"); [eapply incdec_codes; [|exact E]; lia|].
  destruct (comparison_op name) eqn:Eop; [eapply compare_codes; [by eapply comparison_bare| |exact E]; lia|].
  destruct (String.eqb name "+"); [eapply add_codes; [|exact E]; lia|].
  destruct (String.eqb name "-"); [eapply sub_codes; [|exact E]; lia|].
  destruct (String.eqb name "*"); [eapply mul_codes; [|exact E]; lia|].
  destruct (String.eqb name "/"); [eapply div_codes; [|exact E]; lia|].
  destruct (is_self st c hsym); [eapply call_codes; [| | |exact E|apply codes_id]; [done|done|lia]|].
  destruct (isSpecialForm st hsym); [injection E as <-; by apply codes_failed|].
  eapply general_codes; [|exact E]. cbn. lia.
Qed.

Lemma expr_codes e : (sexp_size e ≤ N)%nat → all_coded e.
Proof using IH.
  intros Hs s c c' tl E. destruct (failed c) eqn:F0.
  { destruct e; cbn [compileExpr] in E; rewrite F0 in E; injection E as <-; apply codes_failed; by rewrite emitOp_failed. }
  destruct e as [| |z| | | | | |e|l| |]; cbn [compileExpr] in E; rewrite F0 in E; try (injection E as <-; by apply codes_failed);
    try (injection E as <-; apply codes_op; [done|apply codes_id]); try (injection E as <-; apply codes_const, codes_id).
  - injection E as <-. destruct (z =? 0); [apply codes_op; [done|apply codes_id]|]. destruct (z =? 1); [apply codes_op; [done|apply codes_id]|].
    destruct (z =? 2); [apply codes_op; [done|apply codes_id]|]. apply codes_const, codes_id.
  - injection E as <-. apply symbol_codes.
  - destruct l as [|head args]; [injection E as <-; apply codes_op; [done|apply codes_id]|].
    rewrite sexp_size_expr, list_size_cons in Hs. pose proof (sexp_size_pos head).
    destruct head; try (eapply general_codes; [|exact E]; lia). eapply form_codes; [|exact E]. cbn in Hs. lia.
Qed.

End Forms.

(** [compileExpr] on any expression, from any position on. *)
Lemma compileExpr_codes st e : all_coded st e.
Proof.
  induction e as [e IH] using (induction_ltof1 _ sexp_size); unfold ltof in IH.
  by apply (expr_codes st (sexp_size e)).
Qed.

(** From where it starts: whatever is before it. *)
Lemma compileExpr_coded st e c c' tl : compileExpr st c e tl = Ok c' → failed c' = false → wf c → coded (code_size c) c'.
Proof.
  intros E F W. destruct (compileExpr_codes st e (code_size c) c c' tl E F) as (_ & _ & K).
  apply K; [|constructor]. split; [apply rtc_refl| |done]. intros p Hp Hlt. apply starts_le in Hp. lia.
Qed.

(** ** Jumps that land, and whole lambdas *)

Lemma starts_bound C s p : starts C s p → (s ≤ length C)%nat → (p ≤ length C)%nat.
Proof. induction 1 as [|p q r (op & _ & _ & Hq) _ IH]; [done|]. auto. Qed.

(** While the code has less than 32768 bytes, the distance fits its operand. *)
Lemma coded_jump s c p op : coded s c → Z.of_nat (code_size c) < 32768 → starts (code c) s p → instr_at (code c) p op → is_jump op = true →
  ∃ t, starts (code c) s t ∧ offset16 (code c) (S p) = Ok (Z.of_nat t - Z.of_nat (p + 3)) ∧ (t ≤ code_size c)%nat.
Proof.
  intros [Ge Gi _] Hl Hp Ho Hj. assert (Hlt : (p < code_size c)%nat) by (destruct Ho as (b & Hb & _); by eapply lookup_lt_Some).
  destruct (Gi p Hp Hlt) as (op' & Ho' & Hok). rewrite <- (instr_at_det _ _ _ _ Ho Ho') in Hok.
  assert (O : ∃ t, starts (code c) s t ∧ offset16 (code c) (S p) = Ok (int16 (Z.of_nat t - Z.of_nat (p + 3)))) by (destruct op; done || discriminate Hj).
  destruct O as (t & Ht & E). exists t. assert (Hs : (s ≤ code_size c)%nat) by by eapply starts_le.
  pose proof (starts_bound _ _ _ Ht Hs) as Hb. pose proof (starts_apart _ _ _ _ _ Ge Hp Ho) as Hend.
  assert (Hsz : operand_size op = 2%nat) by by destruct op.
  split; [done|]. split; [|done]. rewrite E. f_equal. unfold code_size in *.
  apply wrapS_small; [lia|]. cbn. lia.
Qed.

(** The object of a compiled lambda: whole instructions from the first byte to the last, with good operands. *)
Definition bytecode_ok (b : bytecode) : Prop :=
  starts (bc_code b) 0 (length (bc_code b)) ∧
  ∀ p, starts (bc_code b) 0 p → (p < length (bc_code b))%nat → ∃ op, instr_at (bc_code b) p op ∧
    operand_ok (length (bc_constants b)) (length (bc_symbols b)) (bc_num_locals b) (bc_code b) 0 p op.

Lemma lambda_body_codes st s c0 M0 body : ∀ c c', compileLambdaBody st body c = Ok (Some c') →
  codes s c0 M0 c [] → codes s c0 M0 c' [].
Proof.
  induction body as [|e rest IH]; intros c c' E H; cbn [compileLambdaBody] in E.
  - injection E as <-. by apply codes_op.
  - apply bind_ok_inv in E as (c1 & E1 & E). destruct (failed c1); [done|]. eapply IH; [exact E|].
    assert (H1 : codes s c0 M0 c1 []) by (eapply codes_then; [exact H|]; by eapply compileExpr_codes).
    destruct rest; [done|by apply codes_op].
Qed.
