(* ===== verification/Codegen.v ===== *)
(** * What the compiler promises (src/nl-vm.c)

    The contract of [compileExpr] for every expression the compiler accepts, the
    jumps it patches, the operands of calls, and the object [compileLambda]
    makes. *)

From stdpp Require Import base list numbers tactics strings relations.
From Stdlib Require Import ZArith Lia.
From S2P Require Import Prelude Cell Bytecode Compiler Layout Machine Exec Agree Wellcode.

#[global] Open Scope Z_scope.
#[local] Transparent jmp.

(** ** The contract of compileExpr *)


(** ** Jumps *)

Lemma jmp_int16 op n : jmp op n = jmp op (int16 n).
Proof.
  unfold jmp. f_equal. symmetry. apply wrapS_small; [lia|]. apply (wrapS_range 16 n). lia.
Qed.

(** a jump patched at the end of the code it jumps over carries the length of
    that code as a signed word: up to 32767 bytes the machine lands behind the
    code, and from 32768 bytes on it reads a negative offset and goes back. *)
Theorem forward_jump_lands op c c1 c2 c3 j bs :
  emitJump op c = (c1, j) → emits c1 c2 bs → patchJump j c2 = Ok c3 →
  let n := Z.of_nat (length bs) in
  code c3 = code c ++ jmp op n ++ bs ∧ offset16 (code c3) j = Ok (int16 n) ∧
  (n < 32768 → jump_to (Z.of_nat j + 2) (int16 n) = Ok (code_size c3)) ∧
  (32768 ≤ n < 65536 → int16 n < 0).
Proof.
  intros J X P. destruct (jump_step c c [] op c1 j) as [X1 Ej]; [|exact J|].
  { apply emits_refl. pose proof (emitJump_failed _ _ _ _ J) as F.
    rewrite <- F. exact (emits_failed _ _ _ X). }
  rewrite app_nil_l in X1. pose proof (emits_trans _ _ _ _ _ X1 X) as X2.
  destruct (patchJump_emits c c2 c3 op 0 [] bs j X2) as [X3 _]; [simpl in *; lia|exact P|].
  cbn [app] in X3. cbv zeta. set (n := Z.of_nat (length bs)) in *.
  pose proof (ext_code _ _ _ (proj1 X3)) as E. split; [exact E|]. split; [|split].
  - rewrite E. simpl in Ej. replace j with (S (length (code c))) by (unfold code_size in Ej; lia).
    rewrite (jmp_int16 op n).
    destruct (offset16_at (code c ++ jmp op (int16 n) ++ bs) (length (code c)) op (int16 n) bs)
      as [_ Hoff]; [|apply code_at_prefix|done].
    pose proof (wrapS_range 16 n ltac:(lia)). cbn in *. lia.
  - intros Hn. rewrite wrapS_small by (cbn; unfold n in *; lia). unfold jump_to.
    destruct (Z.ltb_spec (Z.of_nat j + 2 + n) 0); [unfold n in *; lia|]. f_equal.
    pose proof (emits_size _ _ _ X3) as Es. rewrite length_app, jmp_length in Es.
    simpl in Ej. unfold n. lia.
  - intros Hn. replace n with ((n - 2 ^ 16) + 1 * 2 ^ 16) by lia. rewrite wrapS_congr by lia.
    rewrite wrapS_small by (cbn in *; lia). cbn in *. lia.
Qed.

(** ** Calls *)

(** The operand of a call is the number of its arguments modulo 256, so a
    call with 256 arguments is compiled as a call with none. *)
Theorem call_operand st op tail_op args tl c c' :
  compileCall (compileExpr st) op tail_op args tl c = Ok c' → failed c' = false →
  ∃ bs, code c' = code c ++ bs ++ [op_byte (if tl then tail_op else op);
                                   Z.of_nat (length args) mod 256].
Proof.
  intros H F. unfold compileCall in H. apply bind_ok_inv in H as (c1 & H1 & [= <-]).
  rewrite emitByte_failed, emitOp_failed in F.
  destruct (compileArgs_plain st (S (list_size args)) (λ e _, shaped_all st e) args c c1
    ltac:(lia) H1 F) as (bs & X).
  exists bs. pose proof (op_step _ _ _ (if tl then tail_op else op) X) as X1.
  assert (Hb : byte_ok (uint8 (Z.of_nat (length args)))) by (apply (wrapU_range 8); lia).
  pose proof (emits_trans _ _ _ _ _ X1 (emitByte_emits _ _ (emits_failed' _ _ _ X1) Hb)) as X2.
  rewrite (ext_code _ _ _ (proj1 X2)), <- !app_assoc. done.
Qed.

(** ** compileLambda *)

Lemma parse_params_bound st ps : ∀ b ls n ls' n', parse_params st ps b ls n = Some (ls', n') →
  (n ≤ length ls ≤ MAX_LOCALS)%nat → (n' ≤ length ls' ≤ MAX_LOCALS)%nat.
Proof.
  induction ps as [|p ps IH]; intros b ls n ls' n' H Hn; [by injection H as <- <-|].
  destruct p; try done. cbn [parse_params] in H. destruct (String.eqb _ _); [by eapply IH|].
  destruct (Nat.leb_spec MAX_LOCALS (length ls)) as [|Hl]; [done|]. eapply IH; [exact H|].
  rewrite length_app. simpl. destruct b; lia.
Qed.

(** C21: the object [compileLambda] makes is well formed for every lambda it
    compiles, parameters with a comma included: the code is whole instructions from the
    first byte to the last, which is [OP_RET], with operands that name constants, symbols
    and slots it has, and jumps to instructions; a frame has a slot for every parameter
    and at most [MAX_LOCALS], and there are no more constants or symbols than bytes of code. *)
Theorem compileLambda_wf st lambda self b : compileLambda st lambda self = Ok (Some b) →
  bytecode_ok b ∧ (∃ bs, bc_code b = bs ++ [op_byte OP_RET]) ∧ Forall byte_ok (bc_code b) ∧
  (bc_num_params b ≤ bc_num_locals b ≤ MAX_LOCALS)%nat ∧
  (length (bc_constants b) ≤ length (bc_code b))%nat ∧
  (length (bc_symbols b) ≤ length (bc_code b))%nat ∧ bc_ast b = lambda.
Proof.
  intros H. destruct lambda as [| | | | | | | | | |l|]; try done.
  destruct l as [|[] body]; try done. cbn [compileLambda] in H.
  destruct (parse_params st l false [] 0) as [[ls n]|] eqn:Ep; [|done].
  apply parse_params_bound in Ep; [|simpl; unfold MAX_LOCALS; lia].
  set (c := MkCompiler ls n (length ls) self [] 0 [] [] false) in *.
  apply bind_ok_inv in H as ([c'|] & Hr & H); [|done].
  destruct (failed c') eqn:F; [done|]. injection H as <-.
  assert (G : ∃ bs, emits c c' (bs ++ [op_byte OP_RET])).
  { destruct body as [|e body].
    - injection Hr as <-. exists [op_byte OP_NIL]. apply op_step. by apply emitOp_emits.
    - destruct (lambda_body_at st (e :: body) _ _ ltac:(done) Hr F) as (bs & X & _). by exists bs. }
  assert (K : coded 0 c').
  { assert (Hk : codes 0 c [] c' []).
    { destruct body as [|e body]; [injection Hr as <-; do 2 (apply codes_op; [done|]); apply codes_id|].
      eapply lambda_body_codes; [exact Hr|apply codes_id]. }
    destruct (Hk F) as (_ & _ & Hk'). apply Hk'; [|constructor]. split; [apply rtc_refl|cbn; lia|].
    unfold wf, c, num_locals. cbn. lia. }
  split; [split; apply K|].
  destruct G as (bs & [[] _]). destruct ext_le as [_ _ Lm].
  cbn [bc_code bc_constants bc_symbols bc_num_params bc_num_locals bc_ast].
  unfold wf, num_locals in *. simpl in *. rewrite ext_code, ext_params.
  split; [by exists bs|]. split; [done|]. split; [lia|done].
Qed.

(** ** Instances *)

Module Demo.

Definition st : symtab := Agree.Sample.st.
Definition c : Compiler := MkCompiler [] 0 0 None [] 0 [] [] false.
Definition after (r : result Compiler) : Compiler := match r with Ok c => c | _ => c end.

(** A call of the symbol 20, which is no form of the compiler, on 5 and 6. *)
Definition call : sexp := CExpr [CSymbol 20%nat; CLong 5; CLong 6].

(** [(if x (f 5 x) 7)] with the local [x] (23) in slot 0: a load, a jump to the other branch, a call of the
    symbol 20, a jump to the end, and a constant. *)
Definition branch_st : symtab := λ s, Symbol (nth s ["nil"; "true"; "if"]%string "f"%string) 0 0%nat CNil.
Definition branch : sexp := CExpr [CSymbol 2%nat; CSymbol 23%nat; CExpr [CSymbol 20%nat; CLong 5; CSymbol 23%nat]; CLong 7].
Definition branch_c : Compiler := MkCompiler [Some 23%nat] 1 1 None [] 0 [] [] false.


Lemma forward_jump_lands_witness :
  let c1 := emitJump OP_JUMP c in
  offset16 (code (after (patchJump c1.2 (emitOp OP_NIL c1.1)))) 1 = Ok 1.
Proof.
  cbv zeta.
  destruct (forward_jump_lands OP_JUMP c (emitJump OP_JUMP c).1 (emitOp OP_NIL (emitJump OP_JUMP c).1)
    (after (patchJump (emitJump OP_JUMP c).2 (emitOp OP_NIL (emitJump OP_JUMP c).1)))
    (emitJump OP_JUMP c).2 [op_byte OP_NIL]) as (_ & E & _);
    [reflexivity|by apply emitOp_emits|by vm_compute|]. exact E.
Defined.

Lemma call_operand_witness :
  ∃ bs, code (after (compileCall (compileExpr st) OP_CALL OP_TAIL_CALL [CLong 5; CLong 6] true c)) =
    [] ++ bs ++ [op_byte OP_TAIL_CALL; 2].
Proof.
  exact (call_operand st OP_CALL OP_TAIL_CALL [CLong 5; CLong 6] true c
    (after (compileCall (compileExpr st) OP_CALL OP_TAIL_CALL [CLong 5; CLong 6] true c))
    ltac:(by vm_compute) ltac:(by vm_compute)).
Defined.

Lemma compileLambda_wf_witness : (bc_num_params Agree.Sample.b ≤ bc_num_locals Agree.Sample.b)%nat.
Proof.
  destruct (compileLambda_wf st Agree.Sample.lambda None Agree.Sample.b) as (_ & _ & _ & [H _] & _);
    [by vm_compute|]. exact H.
Defined.

End Demo.
