(* ===== verification/Walker.v ===== *)
(** * The tree walker: fuel, scopes, integers

    Properties of [evaluateExpression], [let], [evaluateLambda] (src/newlisp.c)
    and of the integer operators (src/nl-math.c), for every evaluator of the
    subexpressions. *)

From stdpp Require Import base list numbers tactics strings gmap.
From Stdlib Require Import ZArith Lia SpecFloat.
From S2P Require Import Prelude Cell Arith Eval Bytecode Compiler Layout Fragment Scope.

#[global] Open Scope Z_scope.

(** ** Fuel *)

(** [r'] is [r] with possibly more fuel. *)
Definition refines {A} (r r' : result A) : Prop := r = NoFuel ∨ r' = r.

Lemma refines_refl {A} (r : result A) : refines r r.
Proof. by right. Qed.

Lemma refines_bind {A B} (r r' : result A) (f f' : A → result B) :
  refines r r' → (∀ x, refines (f x) (f' x)) → refines (r ≫= f) (r' ≫= f').
Proof.
  intros [-> | ->] Hf; [by left|]. destruct r as [x| | |]; [apply Hf|by right..].
Qed.

Lemma refines_pair {A B C} (p : A * B) (f f' : A → B → result C) :
  (∀ x y, refines (f x y) (f' x y)) →
  refines (let '(x, y) := p in f x y) (let '(x, y) := p in f' x y).
Proof. destruct p. auto. Qed.

Create HintDb mono.
#[export] Hint Resolve refines_refl refines_bind refines_pair : mono.

(** Takes the same branch on both sides. *)
Ltac mono :=
  repeat first
    [ apply refines_refl
    | apply refines_bind; [|intros ?]
    | apply refines_pair; intros ? ?
    | match goal with
      | |- refines (match ?x with _ => _ end) (match ?x with _ => _ end) => destruct x
      | |- refines (if ?x then _ else _) (if ?x then _ else _) => destruct x
      end
    | solve [auto with mono] ].

Section Fuel.
Context `{TreeRuntime}.
Variable st : symtab.

Section Forms.
Variables ev ev' : sexp → env → result (sexp * env).
Hypothesis Hev : ∀ e g, refines (ev e g) (ev' e g).

Lemma block_mono es : ∀ v g, refines (block_loop ev es v g) (block_loop ev' es v g).
Proof using Hev. induction es; intros; cbn [block_loop]; mono. Qed.

Lemma if_mono params : ∀ cell g, refines (if_loop ev cell params g) (if_loop ev' cell params g).
Proof using Hev.
  induction params as [params IH] using (induction_ltof1 _ (@length sexp)); unfold ltof in IH.
  intros cell g. destruct params as [|a [|b [|c rest]]]; cbn [if_loop]; mono.
  apply IH. simpl. lia.
Qed.

Lemma cond_mono params : ∀ v g, refines (cond_loop ev params v g) (cond_loop ev' params v g).
Proof using Hev.
  induction params as [|p params IH]; intros v g; cbn [cond_loop]; mono.
  all: unfold evaluateBlock; apply block_mono.
Qed.

Lemma and_mono params : ∀ v g, refines (and_loop ev params v g) (and_loop ev' params v g).
Proof using Hev. induction params; intros; cbn [and_loop]; mono. Qed.

Lemma or_mono params : ∀ v g, refines (or_loop ev params v g) (or_loop ev' params v g).
Proof using Hev. induction params; intros; cbn [or_loop]; mono. Qed.

Lemma while_mono n c body : ∀ m k v g, (n ≤ m)%nat →
  refines (while_loop ev n c body k v g) (while_loop ev' m c body k v g).
Proof using Hev.
  induction n as [|n IH]; intros [|m] k v g Hm; [by left|by left|lia|].
  cbn [while_loop]. mono; [apply block_mono|]. apply IH. lia.
Qed.

Lemma inits_mono inits : ∀ g, refines (let_inits ev inits g) (let_inits ev' inits g).
Proof using Hev.
  induction inits as [inits IH] using (induction_ltof1 _ (@length sexp)); unfold ltof in IH.
  intros g. destruct inits as [|a rest]; cbn [let_inits]; mono; apply IH; simpl; lia.
Qed.

Lemma setf_mono params : ∀ g, refines (p_setf st ev params g) (p_setf st ev' params g).
Proof using Hev.
  induction params as [params IH] using (induction_ltof1 _ (@length sexp)); unfold ltof in IH.
  intros g. destruct params as [|a [|b rest]]; cbn [p_setf]; unfold setf_symbol; mono.
  apply IH. simpl. lia.
Qed.

Lemma arith_loop_mono op params : ∀ acc g,
  refines (arith_loop ev op acc params g) (arith_loop ev' op acc params g).
Proof using Hev. induction params; intros; cbn [arith_loop]; mono. Qed.

Lemma chain_mono r params : ∀ lhs g,
  refines (compare_chain ev st r lhs params g) (compare_chain ev' st r lhs params g).
Proof using Hev. induction params; intros; cbn [compare_chain]; mono. Qed.

#[local] Hint Resolve block_mono if_mono cond_mono and_mono or_mono while_mono inits_mono
  setf_mono arith_loop_mono chain_mono : mono.

Lemma prim_mono n m p args g : (n ≤ m)%nat →
  refines (apply_prim st ev n p args g) (apply_prim st ev' m p args g).
Proof using Hev.
  intros Hm. destruct p; cbn [apply_prim];
    unfold p_while, p_condition, evaluateBlock, p_and, p_if, p_when, p_or, p_let, p_local,
      eval_let_body, arithmetikOp, compareOp; mono.
  all: by apply block_mono.
Qed.

End Forms.
End Fuel.

(** ** More fuel gives the same answer *)

Section Walker.
Context `{TreeRuntime}.
Variable st : symtab.

Lemma evaluate_mono n : ∀ m e g, (n ≤ m)%nat →
  refines (evaluateExpression st n e g) (evaluateExpression st m e g).
Proof.
  induction n as [|n IH]; intros [|m] e g Hm; [by left|by left|lia|].
  assert (Hev : ∀ e g, refines (evaluateExpression st n e g) (evaluateExpression st m e g))
    by (intros; apply IH; lia).
  cbn [evaluateExpression]. unfold apply_head.
  destruct e as [| | | | | | | | |[|[]]| |]; mono; apply prim_mono; auto; lia.
Qed.

Lemma lambda_bind_mono n m params : (n ≤ m)%nat → ∀ args es g,
  refines (lambda_bind st n params args es g) (lambda_bind st m params args es g).
Proof.
  intros Hm. induction params as [|p params IH]; intros args es g; cbn [lambda_bind]; mono.
  all: try apply IH. by apply evaluate_mono.
Qed.

(** A tree walk that ends is the same with more fuel: the value, the error and
    the symbols it leaves do not depend on the bound of the model. *)
Theorem evaluateExpression_fuel n m e g : (n ≤ m)%nat →
  evaluateExpression st n e g ≠ NoFuel → evaluateExpression st m e g = evaluateExpression st n e g.
Proof. intros Hm Hn. by destruct (evaluate_mono n m e g Hm). Qed.

(** ** Scopes *)

Section Bound.
Variable ev : sexp → env → result (sexp * env).

(** [let] evaluates all its inits before it binds, runs its body with every
    symbol holding the value of its last binding, and on the normal exit puts back
    what the bound symbols held before, leaving alone what the body did to every
    other symbol. *)
Theorem let_restores inits body g v g' : p_let st ev (CExpr inits :: body) g = Ok (v, g') →
  ∃ vals g1 g2 g3, let_inits ev inits g = Ok (vals, g1) ∧ evaluateBlock ev body g2 = Ok (v, g3) ∧
    (∀ i s w, vals !! i = Some (s, w) → s ∉ (fst <$> drop (S i) vals) → g2 !! s = Some w) ∧
    (∀ s, s ∉ (fst <$> vals) → g2 !! s = g1 !! s) ∧
    ∀ s, g' !! s = if decide (s ∈ (fst <$> vals)) then g1 !! s else g3 !! s.
Proof.
  cbn [p_let]. intros E. apply bind_ok_inv in E as ([vals g1] & Hi & E).
  apply bind_ok_inv in E as ([es g2] & Hb & E). unfold eval_let_body in E.
  apply bind_ok_inv in E as ([w g3] & He & [= -> <-]).
  destruct (popEnvironment_spec _ _ _ _ _ _ Hb) as (es1 & -> & Hp). rewrite app_nil_r.
  exists vals, g1, g2, g3. split; [done|]. split; [done|]. split; [|split].
  - intros i s x Hix Hni. pose proof (bind_all_bound _ _ _ _ _ _ s Hb) as Hs.
    rewrite <- (take_drop_middle _ _ _ Hix), fmap_app, (fmap_app Some), findLocal_app in Hs.
    cbn [fmap list_fmap findLocal_in fst] in Hs. rewrite findLocal_shift in Hs.
    pose proof (findLocal_elem (fst <$> drop (S i) vals) s) as Hd.
    destruct (findLocal_in _ s 0); [done|]. cbn in Hs. rewrite decide_True in Hs by done.
    destruct Hs as (x' & Hx' & ->). rewrite !length_fmap, length_take in Hx'.
    apply lookup_lt_Some in Hix as Hl. rewrite (take_drop_middle _ _ _ Hix) in Hx'.
    replace (i `min` length vals + 0)%nat with i in Hx' by lia. congruence.
  - intros s Hs. pose proof (bind_all_bound _ _ _ _ _ _ s Hb) as Hs'.
    pose proof (findLocal_elem (fst <$> vals) s). by destruct (findLocal_in _ s 0).
  - intros s. rewrite Hp. pose proof (findLocal_elem (fst <$> vals) s).
    destruct (findLocal_in _ s 0); by case_decide.
Qed.

End Bound.

(** The parameters of a lambda list with their default expressions: a symbol, or a list of a symbol and
    an expression ([nil] when it is missing); the first thing that is neither ends them. *)
Fixpoint params_of (params : list sexp) : list (sym * option sexp) :=
  match params with
  | CSymbol s :: rest => (s, None) :: params_of rest
  | CExpr (CSymbol s :: default) :: rest => (s, Some (hd CNil default)) :: params_of rest
  | _ => []
  end.

(** How a call enters: the parameters take the arguments one by one; when there is none left, the value
    of the default expression, evaluated with the parameters before it bound, or else [nil].
    [saved] is what each symbol held when it was bound. *)
Inductive enters (n : nat) : list (sym * option sexp) → list sexp → env → list (sym * sexp) → env → Prop :=
  | enters_done args g : enters n [] args g [] g
  | enters_arg s d ps v args g old saved g' : g !! s = Some old → isProtected (sym_flags (st s)) = false →
      enters n ps args (<[s := v]> g) saved g' → enters n ((s, d) :: ps) (v :: args) g ((s, old) :: saved) g'
  | enters_nil s ps g old saved g' : g !! s = Some old → isProtected (sym_flags (st s)) = false →
      enters n ps [] (<[s := CNil]> g) saved g' → enters n ((s, None) :: ps) [] g ((s, old) :: saved) g'
  | enters_default s e ps g v g1 old saved g' : evaluateExpression st n e g = Ok (v, g1) →
      g1 !! s = Some old → isProtected (sym_flags (st s)) = false →
      enters n ps [] (<[s := v]> g1) saved g' → enters n ((s, Some e) :: ps) [] g ((s, old) :: saved) g'.

Lemma contents_some s g v : contents s g = Ok v → g !! s = Some v.
Proof. unfold contents. destruct (g !! s); [by intros [= ->]|done]. Qed.

Lemma lambda_bind_enters n params : ∀ args es g rest es' g',
  lambda_bind st n params args es g = Ok (rest, es', g') →
  ∃ saved, enters n (params_of params) args g saved g' ∧ es' = rev saved ++ es ∧
    rest = drop (length (params_of params)) args.
Proof.
  induction params as [|p params IH]; intros args es g rest es' g' E.
  { injection E as <- <- <-. exists []. split; [constructor|]. by rewrite drop_0. }
  assert (One : ∀ s v g1, (if isProtected (sym_flags (st s)) then Fail ERR_SYMBOL_PROTECTED else
      old ← contents s g1; lambda_bind st n params (tl args) ((s, old) :: es) (<[s := v]> g1)) = Ok (rest, es', g') →
    isProtected (sym_flags (st s)) = false ∧ ∃ old saved, g1 !! s = Some old ∧
      enters n (params_of params) (tl args) (<[s := v]> g1) saved g' ∧ es' = rev ((s, old) :: saved) ++ es ∧
      rest = drop (S (length (params_of params))) args).
  { intros s v g1 E1. destruct (isProtected _); [done|]. split; [done|]. apply bind_ok_inv in E1 as (old & Ho & E1).
    apply IH in E1 as (saved & H1 & -> & ->). exists old, saved. split; [by apply contents_some|]. split; [done|].
    split; [cbn; by rewrite <- app_assoc|]. destruct args; [cbn; by rewrite drop_nil|done]. }
  destruct p as [| | | | |s| | | |[|[| | | | |s| | | | | |] default]| |];
    try (injection E as <- <- <-; exists []; split; [constructor|by rewrite drop_0]); cbn [lambda_bind params_of length] in *.
  - apply One in E as (Hp & old & saved & Ho & He & -> & ->). exists ((s, old) :: saved). split; [|done].
    destruct args; by constructor.
  - destruct args as [|v args].
    + apply bind_ok_inv in E as ([v g1] & Hd & E). apply One in E as (Hp & old & saved & Ho & He & -> & ->).
      exists ((s, old) :: saved). split; [|done]. by econstructor.
    + cbn [mbind result_bind] in E. apply One in E as (Hp & old & saved & Ho & He & -> & ->).
      exists ((s, old) :: saved). split; [|done]. by constructor.
Qed.

(** The first symbol saved is the last one restored. *)
Lemma popEnvironment_saved saved : ∀ g, popEnvironment (rev saved) g = list_to_map saved ∪ g.
Proof.
  induction saved as [|[s v] saved IH]; intros g; [by rewrite list_to_map_nil, (left_id_L ∅ (∪))|].
  cbn [rev]. unfold popEnvironment in *. rewrite foldl_app, IH. cbn [foldl]. by rewrite list_to_map_cons, insert_union_l.
Qed.

Lemma enters_fst n ps args g saved g' : enters n ps args g saved g' → saved.*1 = ps.*1.
Proof. induction 1; cbn; congruence. Qed.

(** What the parameters hold then, when every parameter behind the arguments is without default. *)
Lemma enters_values n ps args g saved g' : enters n ps args g saved g' → NoDup ps.*1 →
  Forall (λ p, snd p = None) (drop (length args) ps) →
  (∀ i p, ps.*1 !! i = Some p → g' !! p = Some (default CNil (args !! i))) ∧
  (∀ s, s ∉ ps.*1 → g' !! s = g !! s) ∧ (∀ s old, (s, old) ∈ saved → g !! s = Some old).
Proof.
  assert (Step : ∀ s (v : sexp) (ps : list (sym * option sexp)) (args : list sexp) (g g' : env) (saved : list (sym * sexp)) old, s ∉ ps.*1 → g !! s = Some old →
    (∀ i p, ps.*1 !! i = Some p → g' !! p = Some (default CNil (args !! i))) ∧
    (∀ t, t ∉ ps.*1 → g' !! t = (<[s := v]> g) !! t) ∧ (∀ t o, (t, o) ∈ saved → (<[s := v]> g) !! t = Some o) → saved.*1 = ps.*1 →
    g' !! s = Some v ∧ (∀ t, t ∉ s :: ps.*1 → g' !! t = g !! t) ∧ (∀ t o, (t, o) ∈ (s, old) :: saved → g !! t = Some o)).
  { intros s v ps' args' g1 g2 sv old Hs Ho (_ & H2 & H3) Hf. split; [|split].
    - rewrite H2 by done. apply lookup_insert_eq.
    - intros t [H4 H5]%not_elem_of_cons. rewrite H2 by done. by rewrite lookup_insert_ne.
    - intros t o [[= -> ->]|Hin]%elem_of_cons; [done|]. specialize (H3 t o Hin). rewrite lookup_insert_ne in H3; [done|].
      intros <-. apply Hs. rewrite <- Hf. apply (list_elem_of_fmap_2 fst _ _ Hin). }
  induction 1 as [args g|s d ps v args g old saved g' Ho Hp He IH|s ps g old saved g' Ho Hp He IH|s e ps g v g1 old saved g' Hv Ho Hp He IH];
    intros Hnd Hd; cbn [fmap list_fmap fst drop length] in *.
  - split; [done|]. split; [done|]. by intros s old ?%elem_of_nil.
  - apply NoDup_cons in Hnd as [Hs Hnd]. specialize (IH Hnd Hd). destruct (Step s v ps args g g' saved old Hs Ho IH (enters_fst _ _ _ _ _ _ He)) as (H1 & H2 & H3).
    split; [|done]. intros [|i] p Hi; cbn in Hi |- *; [by injection Hi as <-|exact (proj1 IH i p Hi)].
  - apply NoDup_cons in Hnd as [Hs Hnd]. apply Forall_cons in Hd as [_ Hd]. specialize (IH Hnd Hd).
    destruct (Step s CNil ps [] g g' saved old Hs Ho IH (enters_fst _ _ _ _ _ _ He)) as (H1 & H2 & H3).
    split; [|done]. intros [|i] p Hi; cbn in Hi |- *; [by injection Hi as <-|exact (proj1 IH i p Hi)].
  - by apply Forall_cons in Hd as [? _].
Qed.

(** C16: a call of any lambda list, with its arguments evaluated, binds the parameters one
    after the other: to the arguments in order, behind them to the value of the default
    expression, which is evaluated with the parameters before it bound, or to [nil]; the
    arguments that are left go to [$args], and the body runs.  On return every parameter
    and [$args] hold what they held when they were bound, and every other symbol what the body
    (or a default expression) left in it.  With distinct parameters and no default expression in use, that is what
    they held before the call, and the parameters hold just the arguments and [nil] in the body. *)
Theorem evaluateLambda_scope n params body args g v g' :
  evaluateLambda st n (CExpr params :: body) args g = Ok (v, g') →
  let ps := params_of params in
  ∃ saved g1 a g2, enters n ps args g saved g1 ∧ saved.*1 = ps.*1 ∧ g1 !! argsSymbol = Some a ∧
    evaluateBlock (evaluateExpression st n) body (<[argsSymbol := CExpr (drop (length ps) args)]> g1) = Ok (v, g2) ∧
    g' = list_to_map (saved ++ [(argsSymbol, a)]) ∪ g2 ∧
    (NoDup ps.*1 → argsSymbol ∉ ps.*1 → Forall (λ p, snd p = None) (drop (length args) ps) →
     (∀ i p, ps.*1 !! i = Some p → g1 !! p = Some (default CNil (args !! i))) ∧
     (∀ s, s ∉ ps.*1 → g1 !! s = g !! s) ∧
     ∀ s, g' !! s = if decide (s ∈ argsSymbol :: ps.*1) then g !! s else g2 !! s).
Proof.
  intros E ps. subst ps. cbn [evaluateLambda] in E. apply bind_ok_inv in E as ([[rest es] g1] & Hb & E).
  apply lambda_bind_enters in Hb as (saved & He & -> & ->). rewrite app_nil_r in E.
  apply bind_ok_inv in E as (a & Ha & E). apply bind_ok_inv in E as ([w g2] & Hv & E). injection E as -> Eg.
  apply contents_some in Ha. pose proof (enters_fst _ _ _ _ _ _ He) as Hf.
  assert (Hg : g' = list_to_map (saved ++ [(argsSymbol, a)]) ∪ g2).
  { rewrite <- Eg, <- popEnvironment_saved, rev_app_distr. done. }
  exists saved, g1, a, g2. do 5 (split; [done|]). intros Hnd Hna Hd.
  destruct (enters_values _ _ _ _ _ _ He Hnd Hd) as (H1 & H2 & H3). split; [done|]. split; [done|].
  intros s. rewrite Hg. assert (Hnd' : NoDup (saved ++ [(argsSymbol, a)]).*1).
  { rewrite fmap_app, Hf. apply NoDup_app. split; [done|]. split; [|apply NoDup_singleton].
    intros t Ht Hin%list_elem_of_singleton. by subst t. }
  destruct (decide (s ∈ argsSymbol :: (params_of params).*1)) as [Hin|Hin].
  - assert (∃ o, (s, o) ∈ saved ++ [(argsSymbol, a)] ∧ g !! s = Some o) as (o & Ho & ->).
    { apply elem_of_cons in Hin as [->|Hin].
      - exists a. split; [apply elem_of_app; right; by left|]. by rewrite <- H2.
      - rewrite <- Hf in Hin. apply list_elem_of_fmap in Hin as ([t o] & -> & Hin). exists o.
        split; [by apply elem_of_app; left|]. by apply H3. }
    apply lookup_union_Some_l. by apply elem_of_list_to_map_1.
  - apply lookup_union_r. apply not_elem_of_list_to_map_1. rewrite fmap_app, Hf, elem_of_app. cbn.
    rewrite list_elem_of_singleton. rewrite elem_of_cons in Hin. tauto.
Qed.

End Walker.

(** ** Loops *)

Section Loop.
Variables (ev : sexp → env → result (sexp * env)) (c : sexp) (body : list sexp).

(** What [while] has done behind [k] rounds: the value of the last body and the
    symbols when the condition is evaluated next, with [$idx] counting the
    rounds. *)
Inductive rounds (v0 : sexp) (g0 : env) : nat → sexp → env → Prop :=
  | rounds_start : rounds v0 g0 0 v0 g0
  | rounds_next k v g cv g1 v2 g2 :
      rounds v0 g0 k v g → ev c g = Ok (cv, g1) → truthy cv = true →
      evaluateBlock ev body g1 = Ok (v2, g2) →
      rounds v0 g0 (S k) v2 (<[listIdxSymbol := CLong (int64 (Z.of_nat (S k)))]> g2).

Lemma while_loop_rounds fuel : ∀ k v0 g0 v g v' g', rounds v0 g0 k v g →
  while_loop ev fuel c body (int64 (Z.of_nat k)) v g = Ok (v', g') →
  ∃ k' g1 cv, (k' < k + fuel)%nat ∧ rounds v0 g0 k' v' g1 ∧ ev c g1 = Ok (cv, g') ∧ truthy cv = false.
Proof.
  induction fuel as [|fuel IH]; intros k v0 g0 v g v' g' Hr E; [done|]. cbn [while_loop] in E.
  apply bind_ok_inv in E as ([cv g1] & Hc & E). destruct (truthy cv) eqn:Et.
  - apply bind_ok_inv in E as ([v2 g2] & Hb & E).
    assert (Hk : int64 (int64 (Z.of_nat k) + 1) = int64 (Z.of_nat (S k))).
    { replace (int64 (Z.of_nat k) + 1) with (int64 (Z.of_nat k) * 1 + 1) by lia.
      rewrite wrapS_mul_add by lia. f_equal. lia. }
    rewrite Hk in E. eapply (IH (S k)) in E as (k' & g3 & cv' & ? & ?); [|by econstructor].
    exists k', g3, cv'. split; [lia|done].
  - injection E as -> ->. exists k, g, cv. split; [lia|done].
Qed.

Lemma rounds_while_loop v0 g0 k v g : rounds v0 g0 k v g → ∀ fuel,
  while_loop ev (k + fuel) c body 0 v0 g0 = while_loop ev fuel c body (int64 (Z.of_nat k)) v g.
Proof.
  induction 1 as [|k v g cv g1 v2 g2 Hr IH Hc Ht Hb]; intros fuel; [done|].
  replace (S k + fuel)%nat with (k + S fuel)%nat by lia. rewrite IH. cbn [while_loop].
  rewrite Hc. cbn -[while_loop evaluateBlock]. rewrite Ht, Hb. cbn -[while_loop].
  replace (int64 (int64 (Z.of_nat k) + 1)) with (int64 (Z.of_nat (S k))); [done|].
  replace (int64 (Z.of_nat k) + 1) with (int64 (Z.of_nat k) * 1 + 1) by lia.
  rewrite wrapS_mul_add by lia. f_equal. lia.
Qed.


End Loop.

(** ** Operators *)

Section Operands.
Context {S : Type} (ev : sexp → S → result (sexp * S)).

(** The operands evaluated from left to right. *)
Fixpoint evaluateList (params : list sexp) (s : S) : result (list sexp * S) :=
  match params with
  | [] => Ok ([], s)
  | p :: params' =>
      '(v, s) ← ev p s;
      '(vals, s) ← evaluateList params' s;
      Ok (v :: vals, s)
  end.

(** The exact result of an operator on all its operands. *)
Definition exact (op : arith) (x : Z) (ys : list Z) : Z :=
  match op with
  | A_SUBTRACT => x - foldr Z.add 0 ys
  | A_MULTIPLY => x * foldr Z.mul 1 ys
  | _ => x + foldr Z.add 0 ys
  end.

Definition op_ring (op : arith) : bool :=
  match op with A_ADD | A_SUBTRACT | A_MULTIPLY => true | _ => false end.

Lemma exact_step op x y z ys : op_ring op = true → arith_step op x y = Ok z →
  int64 (exact op z ys) = int64 (exact op x (y :: ys)).
Proof.
  intros Hop E. destruct op; try done; cbn [arith_step] in E; injection E as <-; cbn [exact foldr].
  - rewrite <- (Z.mul_1_r (int64 (x + y))), wrapS_mul_add by lia. f_equal. lia.
  - replace (int64 (x - y) - foldr Z.add 0 ys) with (int64 (x - y) * 1 + - foldr Z.add 0 ys) by lia.
    rewrite wrapS_mul_add by lia. f_equal. lia.
  - rewrite <- (Z.add_0_r (_ * _)), wrapS_mul_add by lia. f_equal. lia.
Qed.

Lemma arith_loop_exact op params : ∀ x s vals s' ys, op_ring op = true → in_int64 x →
  evaluateList params s = Ok (vals, s') → Forall2 (λ v y, getInteger64 v = Ok y) vals ys →
  arith_loop ev op x params s = Ok (int64 (exact op x ys), s').
Proof.
  induction params as [|p params IH]; intros x s vals s' ys Hop Hx E Hys; cbn [evaluateList] in E.
  - injection E as <- <-. inversion Hys; subst. cbn [arith_loop]. do 2 f_equal.
    destruct op; try done; simpl; rewrite int64_id; rewrite ?Z.mul_1_r, ?Z.add_0_r, ?Z.sub_0_r; done.
  - apply bind_ok_inv in E as ([v s1] & Hv & E). apply bind_ok_inv in E as ([vs s2] & Hvs & [= <- <-]).
    inversion Hys as [|? y ? ys' Hy Hys']; subst. cbn [arith_loop]. rewrite Hv. cbn -[arith_loop].
    rewrite Hy. cbn -[arith_loop].
    assert (∃ z, arith_step op x y = Ok z ∧ in_int64 z) as (z & Hz & Hr).
    { destruct op; try done; simpl; eexists; (split; [done|apply int64_range]). }
    rewrite Hz. cbn -[arith_loop]. rewrite (IH _ _ _ _ _ Hop Hr Hvs Hys').
    by rewrite (exact_step _ _ _ _ _ Hop Hz).
Qed.

(** C24: the integer sum, difference and product of any number of operands is the
    exact result reduced once to 64 bits: the wrap-around of the partial results
    does not show. *)
Theorem arithmetikOp_exact op p params s v vals s' x ys : op_ring op = true → params ≠ [] →
  evaluateList (p :: params) s = Ok (v :: vals, s') → int_ok v → getInteger64 v = Ok x →
  Forall2 (λ v y, getInteger64 v = Ok y) vals ys →
  arithmetikOp ev op (p :: params) s = Ok (CLong (int64 (exact op x ys)), s').
Proof.
  intros Hop Hne E Hok Hx Hys. cbn [evaluateList] in E.
  apply bind_ok_inv in E as ([v' s1] & Hv & E). apply bind_ok_inv in E as ([vs s2] & Hvs & E).
  injection E as -> -> ->. apply getInteger64_range in Hx as Hr; [|done].
  cbn [arithmetikOp]. rewrite Hv. cbn -[arith_loop]. rewrite Hx. cbn -[arith_loop].
  rewrite (arith_loop_exact _ _ _ _ _ _ _ Hop Hr Hvs Hys). by destruct params.
Qed.

(** Every value stands in the relation to the one behind it. *)
Fixpoint chained (R : sexp → sexp → bool) (v : sexp) (vals : list sexp) : bool :=
  match vals with [] => true | w :: vals' => R v w && chained R w vals' end.

(** a comparison of two or more operands holds exactly when every operand
    stands in the relation to the next one, and evaluates the operands from left
    to right, all of them when it holds; it compares no further behind the first
    pair that fails. *)
Theorem compareOp_chained st op p params s v vals s' : params ≠ [] →
  evaluateList (p :: params) s = Ok (v :: vals, s') →
  (∀ a b, a ∈ v :: vals → b ∈ vals → compareCells st a b ≠ 9) →
  if chained (λ a b, rel_holds op (compareCells st a b)) v vals
  then compareOp ev st op (p :: params) s = Ok (CTrue, s')
  else ∃ s1 seen, compareOp ev st op (p :: params) s = Ok (CNil, s1) ∧
    (seen ≤ length vals)%nat ∧
    evaluateList (take (Datatypes.S seen) (p :: params)) s = Ok (take (Datatypes.S seen) (v :: vals), s1).
Proof.
  intros Hne E Hnan. cbn [evaluateList] in E.
  apply bind_ok_inv in E as ([v' s1] & Hv & E). apply bind_ok_inv in E as ([vs s2] & Hvs & E).
  injection E as -> -> ->.
  replace (compareOp ev st op (p :: params) s) with (compare_chain ev st op v params s1)
    by (destruct params; [done|]; cbn [compareOp]; by rewrite Hv).
  enough (Hc : ∀ params v vals s1, evaluateList params s1 = Ok (vals, s') →
    (∀ a b, a ∈ v :: vals → b ∈ vals → compareCells st a b ≠ 9) →
    if chained (λ a b, rel_holds op (compareCells st a b)) v vals
    then compare_chain ev st op v params s1 = Ok (CTrue, s')
    else ∃ s2 seen, compare_chain ev st op v params s1 = Ok (CNil, s2) ∧ (seen ≤ length vals)%nat ∧
      evaluateList (take seen params) s1 = Ok (take seen vals, s2)).
  { specialize (Hc _ _ _ _ Hvs Hnan). destruct (chained _ _ _); [done|].
    destruct Hc as (s2 & seen & Hc & Hl & He). exists s2, seen. split; [done|]. split; [done|].
    cbn [take evaluateList]. rewrite Hv. cbn -[evaluateList take]. by rewrite He. }
  clear. induction params as [|q params IH]; intros v vals s1 E Hnan; cbn [evaluateList] in E.
  { by injection E as <- <-. }
  apply bind_ok_inv in E as ([w s2] & Hw & E). apply bind_ok_inv in E as ([ws s3] & Hws & E).
  injection E as <- <-. cbn [chained compare_chain]. rewrite Hw. cbn -[compare_chain evaluateList].
  rewrite (proj2 (Z.eqb_neq _ _)) by (apply Hnan; by repeat constructor).
  destruct (rel_holds _ _); cbn -[compare_chain evaluateList].
  - specialize (IH w ws s2 Hws). destruct (chained _ w ws).
    + apply IH. intros a b Ha Hb. apply Hnan; by right.
    + destruct IH as (s4 & seen & Hc & Hl & He); [intros a b Ha Hb; apply Hnan; by right|].
      exists s4, (Datatypes.S seen). split; [done|]. split; [simpl; lia|].
      cbn [take evaluateList]. rewrite Hw. cbn -[evaluateList]. by rewrite He.
  - exists s2, 1%nat. split; [done|]. split; [simpl; lia|]. cbn [take evaluateList]. by rewrite Hw.
Qed.

End Operands.

(** ** Concrete runs *)

Module Demo.

Definition names : list string :=
  ["nil"; "true"; "$it"; "$idx"; "$args"; "x"; "y"; "+"; "<"; "setq"; "let"; "while"]%string.
Definition st : symtab := λ s, Symbol (nth s names EmptyString) 0 0%nat CNil.

#[local] Instance tr : TreeRuntime := {| tr_call := λ _ _ _, UB; tr_setf := λ _ _, UB |}.

Definition x := CSymbol 5%nat.
Definition y := CSymbol 6%nat.
Definition form (head : sym) (args : list sexp) : sexp := CExpr (CSymbol head :: args).

Definition g : env :=
  list_to_map [(2, CNil); (3, CString "outer"); (4, CNil); (5, CLong 1); (6, CLong 2);
    (7, CPrimitive 10); (8, CPrimitive 14); (9, CPrimitive 7); (10, CPrimitive 8);
    (11, CPrimitive 0)]%nat.

(** [(setq y (+ y x))]: [y] takes the sum. *)
Definition sum : sexp := form 9%nat [y; form 7%nat [y; x]].

Lemma evaluateExpression_fuel_witness :
  evaluateExpression st 5 sum g ≠ NoFuel ∧
  evaluateExpression st 100 sum g = evaluateExpression st 5 sum g.
Proof.
  assert (H : evaluateExpression st 5 sum g ≠ NoFuel) by (vm_compute; congruence).
  split; [exact H|]. apply (evaluateExpression_fuel st 5 100 sum g); [lia|exact H].
Defined.

(** [(let (x 10 x 20) (setq y (+ y x)))]. *)
Lemma let_restores_witness :
  p_let st (evaluateExpression st 9) [CExpr [x; CLong 10; x; CLong 20]; sum] g
    = Ok (CLong 22, <[6%nat := CLong 22]> (<[2%nat := CNil]> g)) ∧
  ∃ g1 : env, (<[6%nat := CLong 22]> (<[2%nat := CNil]> g)) !! 5%nat = g1 !! 5%nat.
Proof.
  assert (H : p_let st (evaluateExpression st 9) [CExpr [x; CLong 10; x; CLong 20]; sum] g
    = Ok (CLong 22, <[6%nat := CLong 22]> (<[2%nat := CNil]> g))) by (vm_compute; reflexivity).
  split; [exact H|].
  destruct (let_restores st (evaluateExpression st 9) _ _ _ _ _ H)
    as (vals & g1 & g2 & g3 & Hi & _ & _ & _ & Hg).
  exists g1. rewrite Hg. vm_compute in Hi. injection Hi as <- <-.
  rewrite decide_True; [reflexivity|]. simpl. left.
Defined.

(** [((lambda (x (y (+ x 3))) (setq y (+ y x))) 40)]: [y] takes its default, which sees [x]; both are restored. *)
Lemma evaluateLambda_scope_witness :
  ∃ saved (g1 g2 g' : env), evaluateLambda st 9 [CExpr [x; CExpr [y; form 7%nat [x; CLong 3]]]; sum] [CLong 40] g = Ok (CLong 83, g') ∧
    enters st 9 [(5%nat, None); (6%nat, Some (form 7%nat [x; CLong 3]))] [CLong 40] g saved g1 ∧
    g' = list_to_map (saved ++ [(argsSymbol, CNil)]) ∪ g2 ∧ g' !! 5%nat = Some (CLong 1) ∧ g' !! 6%nat = Some (CLong 2).
Proof.
  destruct (evaluateLambda st 9 [CExpr [x; CExpr [y; form 7%nat [x; CLong 3]]]; sum] [CLong 40] g) as [[v g']| | |] eqn:E;
    [|vm_compute in E; discriminate..].
  destruct (evaluateLambda_scope st 9 _ _ _ _ _ _ E) as (saved & g1 & a & g2 & He & _ & Ha & _ & Hr & _).
  pose proof E as E1. vm_compute in E1. injection E1 as Ev Eg. subst v.
  assert (Ea : a = CNil).
  { inversion He as [|s d ps w args h old sv h' Ho Hp He1| |]; subst. inversion He1 as [| | |s e ps h v g3 old1 sv1 h' Hv Ho1 Hp1 He2]; subst.
    inversion He2; subst. vm_compute in Hv. injection Hv as <- <-. vm_compute in Ha. by injection Ha as <-. }
  subst a. exists saved, g1, g2, g'. split; [done|]. split; [exact He|]. split; [exact Hr|]. by rewrite <- Eg.
Defined.


(** [(- 2^63-1 -5 7 8.9)]: the second difference is out of range, the result is not. *)
Lemma arithmetikOp_exact_witness :
  evaluateList (evaluateExpression st 9)
    [CLong INT64_MAX; CLong (-5); CLong 7; CFloat (S754_finite false 5009706118604390 (-49))] g
    = Ok ([CLong INT64_MAX; CLong (-5); CLong 7; CFloat (S754_finite false 5009706118604390 (-49))], g) ∧
  arithmetikOp (evaluateExpression st 9) A_SUBTRACT
    [CLong INT64_MAX; CLong (-5); CLong 7; CFloat (S754_finite false 5009706118604390 (-49))] g
    = Ok (CLong (INT64_MAX - 10), g).
Proof.
  assert (H : evaluateList (evaluateExpression st 9)
    [CLong INT64_MAX; CLong (-5); CLong 7; CFloat (S754_finite false 5009706118604390 (-49))] g
    = Ok ([CLong INT64_MAX; CLong (-5); CLong 7; CFloat (S754_finite false 5009706118604390 (-49))], g))
    by (vm_compute; reflexivity).
  split; [exact H|].
  change (INT64_MAX - 10) with (int64 (exact A_SUBTRACT INT64_MAX [-5; 7; 8])).
  apply (fun Hne => arithmetikOp_exact (evaluateExpression st 9) A_SUBTRACT _ _ g _ _ g INT64_MAX
    [-5; 7; 8] eq_refl Hne H); [discriminate|vm_compute; split; congruence|vm_compute; reflexivity|repeat constructor].
Defined.

(** [(< x y 1 9)] fails at its second pair. *)
Lemma compareOp_chained_witness :
  ∃ s1 seen, compareOp (evaluateExpression st 9) st R_LESS [x; y; CLong 1; CLong 9] g = Ok (CNil, s1) ∧
    (seen ≤ 3)%nat.
Proof.
  pose proof (compareOp_chained (evaluateExpression st 9) st R_LESS x [y; CLong 1; CLong 9] g
    (CLong 1) [CLong 2; CLong 1; CLong 9] g) as H.
  destruct H as (s1 & seen & Hc & Hl & _).
  - discriminate.
  - vm_compute. reflexivity.
  - intros a b Ha Hb Hab. repeat (apply elem_of_cons in Ha as [->|Ha]);
      repeat (apply elem_of_cons in Hb as [->|Hb]); try discriminate Hab;
      try (by apply not_elem_of_nil in Ha); by apply not_elem_of_nil in Hb.
  - exists s1, seen. split; [exact Hc|exact Hl].
Defined.

End Demo.
