(* ===== verification/Divergence.v ===== *)
(** * Where compiled code and the tree walker part (src/nl-vm.c, src/newlisp.c)

    Agree.v proves that compiled code answers as the tree walker on a fragment.
    This file shows that the fragment cannot simply be widened: for each
    condition it makes, a lambda the compiler accepts and the answers of both on
    the same arguments; and the loop whose condition the compiler gives up on. *)

From stdpp Require Import base list numbers tactics strings gmap.
From Stdlib Require Import ZArith Lia SpecFloat.
From S2P Require Import Prelude Cell Arith Eval Bytecode Compiler Machine.

#[global] Open Scope Z_scope.

(** ** Running a lambda both ways *)

Definition names : list string :=
  ["nil"; "true"; "$it"; "$idx"; "$args"; "x"; "y"; "g"; ","; "catch"]%string ++ (fst <$> primitive).
Definition st : symtab := λ s, Symbol (nth s names EmptyString) 0 0%nat CNil.

#[local] Instance rt : Runtime := {| rt_eval := λ _ _, UB; rt_call := λ _ _ _, UB |}.
#[local] Instance tr : TreeRuntime := {| tr_call := λ _ _ _, UB; tr_setf := λ _ _, UB |}.

(** The contents of the symbols before the call: [g] is 1. *)
Definition contents_of (s : sym) : sexp :=
  if Nat.ltb s 10 then (if Nat.eqb s 7 then CLong 1 else CNil) else CPrimitive (s - 10).

Definition before : env := list_to_map ((λ s, (s, contents_of s)) <$> seq 0 (length names)).

Definition walked (lambda : list sexp) (args : list sexp) : result sexp :=
  '(v, _) ← evaluateLambda st 100 lambda args before; Ok v.

(** Every symbol has a cell of its own behind the two constants, the arguments
    and the lambda follow. *)
Definition compiled (lambda : list sexp) (args : list sexp) : result sexp :=
  r ← compileLambda st (CLambda lambda) None;
  match r with
  | None => Fail ERR_INVALID_LAMBDA
  | Some b =>
      let cell v := HCell (Some v) false None in
      let n := length names in
      let heap := cell CNil :: cell CTrue :: (cell ∘ contents_of <$> seq 0 n) ++ (cell <$> args) in
      let m := VM (heap ++ [HCell (Some (CLambda lambda)) false (Some 0%nat)]) [] 64 [] 16
                  (list_to_map ((λ s, (s, s + 2)%nat) <$> seq 0 n)) [] in
      let '(m, _) := install b m in
      '(m, l) ← executeBytecode st 200 (length heap) (seq (n + 2) (length args)) m;
      deref l m
  end.

(** The program [(lambda (params) body)], its arguments, what compiled code
    answers and what the tree walker answers. *)
Record case := Case {
  params : list sexp; body : list sexp; arguments : list sexp;
  vm_answer : result sexp; tree_answer : result sexp
}.

Definition x := CSymbol 5%nat.
Definition y := CSymbol 6%nat.
Definition g := CSymbol 7%nat.
Definition comma := CSymbol 8%nat.
Definition form (name : string) (args : list sexp) : sexp :=
  CExpr (CSymbol (default 0%nat (fst <$> list_find (eq name) names)) :: args).
Definition three_point_seven : spec_float := S754_finite false 8331550114578432 (-51).

Definition cases : list case := [
  (* 3 and 3.0 share an entry of the constant pool *)
  Case [x] [form "if" [x; CLong 3; CFloat (floatOfInt 3)]] [CNil]
       (Ok (CLong 3)) (Ok (CFloat (floatOfInt 3)));
  (* the slot of a let variable hides the outer one in its own init *)
  Case [x] [form "let" [CExpr [x; x]; x]] [CLong 7] (Ok CNil) (Ok (CLong 7));
  (* inits see the earlier variables of the same let *)
  Case [x; y] [form "let" [CExpr [x; CLong 1; y; x]; y]] [CLong 7; CLong 8]
       (Ok (CLong 1)) (Ok (CLong 7));
  (* an argument too many lands in the slot of a local behind the comma *)
  Case [x; comma; y] [y] [CLong 7; CLong 8] (Ok (CLong 8)) (Ok CNil);
  (* clauses of if behind the third *)
  Case [x] [form "if" [x; CLong 1; CNil; CLong 2; CLong 5]] [CNil] (Ok CNil) (Ok (CLong 5));
  (* if without else answers nil for the empty list *)
  Case [x] [form "if" [x; CLong 1]] [CExpr []] (Ok CNil) (Ok (CExpr []));
  (* and answers nil for the empty list *)
  Case [x] [form "and" [x; CLong 1]] [CExpr []] (Ok CNil) (Ok (CExpr []));
  (* while answers nil *)
  Case [x] [form "while" [form "<" [x; CLong 3]; form "setq" [x; form "+" [x; CLong 1]]]] [CLong 0]
       (Ok CNil) (Ok (CLong 3));
  (* a single operand of + is not converted *)
  Case [x] [form "+" [x]] [CFloat three_point_seven] (Ok (CFloat three_point_seven)) (Ok (CLong 3));
  (* NaN is greater than 1 *)
  Case [x] [form ">" [x; CLong 1]] [CFloat S754_nan] (Ok CTrue) (Ok CNil);
  (* an assigned global is freed while its old cell is an operand *)
  Case [x] [form "+" [g; form "setq" [g; CLong 5]]] [CNil] UB (Ok (CLong 6))
]%string.

(** eleven lambdas the compiler accepts that answer differently when they are
    compiled: constants merged across types, initial values that see the new
    variable, an argument that becomes a local, lost clauses of [if], conditionals
    and loops that answer [nil], an operand left a float, a NaN, and a read of a
    freed cell. *)
Theorem compiled_code_diverges :
  Forall (λ k, compiled (CExpr (params k) :: body k) (arguments k) = vm_answer k ∧
               walked (CExpr (params k) :: body k) (arguments k) = tree_answer k ∧
               vm_answer k ≠ tree_answer k) cases.
Proof.
  repeat (apply Forall_cons_2; [split; [vm_compute; reflexivity|split; [vm_compute; reflexivity|
    vm_compute; discriminate]]|]).
  apply Forall_nil_2.
Qed.

(** ** A loop whose condition does not compile *)

Section Loop.
Context (st : symtab).

Lemma compile_failed c e is_tail : failed c = true → compileExpr st c e is_tail = Ok c.
Proof. intros Hf. destruct e; cbn [compileExpr]; unfold emitOp, emitByte; by rewrite Hf. Qed.

Lemma loop_body_failed es : ∀ c, failed c = true → compileLoopBody (compileExpr st) es c = Ok c.
Proof.
  induction es as [|e es IH]; intros c Hf; [done|]. cbn [compileLoopBody].
  rewrite compile_failed by done. cbn -[compileLoopBody]. unfold emitOp, emitByte. rewrite Hf.
  by apply IH.
Qed.

(** The state [compileLambda] starts from. *)
Definition start (ls : list (option sym)) (n : nat) (self : option sym) : Compiler :=
  MkCompiler ls n (length ls) self [] 0 [] [] false.

(** A lambda that starts with a [while] loop whose condition the compiler gives
    up on before it has emitted a byte does not fall back to the tree walker: the
    backward jump is written through the NULL code pointer. *)
Theorem while_condition_null_write params ls n self w c1 cond body rest :
  parse_params st params false [] 0 = Some (ls, n) → sym_name (st w) = "while"%string →
  compileExpr st (start ls n self) cond false = Ok c1 → failed c1 = true → code_capacity c1 = 0%nat →
  compileLambda st (CLambda (CExpr params :: CExpr (CSymbol w :: cond :: body) :: rest)) self = UB.
Proof.
  intros Hp Hw Hc Hf Hcap. unfold compileLambda. rewrite Hp. cbn [compileLambdaBody].
  fold (start ls n self). cbn [compileExpr failed start]. unfold compileForm. rewrite Hw.
  cbn [String.eqb Ascii.eqb Bool.eqb]. unfold compileWhile. fold (start ls n self). rewrite Hc.
  cbn -[compileLoopBody compileExpr compileLambdaBody].
  unfold emitJump, emitUint16, emitOp, emitByte. rewrite !Hf.
  rewrite loop_body_failed by done. cbn -[compileLambdaBody]. rewrite !Hf.
  unfold patchBack, code_write. rewrite Hcap. done.
Qed.

End Loop.

(** [(lambda (x) (while (catch x) x))]. *)
Lemma while_condition_null_write_witness :
  compileLambda st (CLambda [CExpr [x]; form "while" [form "catch" [x]; x]]) None = UB.
Proof.
  apply (while_condition_null_write st [x] [Some 5%nat] 1 None 10%nat
    (set_failed (start [Some 5%nat] 1 None)) (form "catch" [x]) [x] []);
    vm_compute; reflexivity.
Defined.
