(* ===== verification/Symtree.v ===== *)
(** * The symbol tree (src/nl-symbol.c): operations

    The symbols of a context form a red-black tree of [SYMBOL] structures linked
    by [left], [right] and [parent]; all leaves are the one [sentinel].  The heap
    maps pointers to structures; reading through a pointer that is not in the
    heap is [UB].  The static [root] is the tree the functions work on. *)

From stdpp Require Import base list numbers tactics strings gmap.
From Stdlib Require Import ZArith Lia String Ascii.
From S2P Require Import Prelude Cell.

#[global] Open Scope Z_scope.

Inductive color : Type := BLACK | RED.

#[export] Instance color_eq_dec : EqDecision color.
Proof. solve_decision. Defined.

Abbreviation ptr := nat.
Definition NULL : ptr := 0%nat.
Definition NIL_SYM : ptr := 1%nat.

(** What the tree does not look at, except for the name; [None] is the NULL name
    of a structure that was just allocated.  A [sym_cell] is 0, a context cell
    with its symbol and in [aux] the root of its tree, or another cell. *)
Inductive sym_cell : Type := NoContents | ContextCell (s aux : ptr) | OtherCell (e : sexp).

Record payload := Payload {
  pl_name : option string;
  pl_flags : Z;
  pl_contents : sym_cell;
  pl_context : ptr
}.

Record node := Node {
  n_color : color;
  n_parent : ptr;
  n_left : ptr;
  n_right : ptr;
  n_data : payload
}.

(** [next] is the address [callocMemory] hands out next. *)
Record store := Store {
  heap : gmap ptr node;
  root : ptr;
  symbolCount : Z;
  next : ptr
}.

Definition with_heap (h : gmap ptr node) (s : store) : store :=
  Store h (root s) (symbolCount s) (next s).
Definition set_root (p : ptr) (s : store) : store := Store (heap s) p (symbolCount s) (next s).
Definition set_count (n : Z) (s : store) : store := Store (heap s) (root s) n (next s).

(** [p->f] and [p->f = v]. *)
Definition field {A} (f : node → A) (p : ptr) (s : store) : result A :=
  match heap s !! p with Some n => Ok (f n) | None => UB end.
Definition update (f : node → node) (p : ptr) (s : store) : result store :=
  match heap s !! p with Some n => Ok (with_heap (<[p := f n]> (heap s)) s) | None => UB end.

Abbreviation color_of := (field n_color).
Abbreviation parent_of := (field n_parent).
Abbreviation left_of := (field n_left).
Abbreviation right_of := (field n_right).

Definition set_color (c : color) : ptr → store → result store :=
  update (λ n, Node c (n_parent n) (n_left n) (n_right n) (n_data n)).
Definition set_parent (q : ptr) : ptr → store → result store :=
  update (λ n, Node (n_color n) q (n_left n) (n_right n) (n_data n)).
Definition set_left (q : ptr) : ptr → store → result store :=
  update (λ n, Node (n_color n) (n_parent n) q (n_right n) (n_data n)).
Definition set_right (q : ptr) : ptr → store → result store :=
  update (λ n, Node (n_color n) (n_parent n) (n_left n) q (n_data n)).
Definition set_data (d : payload) : ptr → store → result store :=
  update (λ n, Node (n_color n) (n_parent n) (n_left n) (n_right n) d).

(** ** Comparing names *)

(** The byte [i] of a string in its buffer, which ends behind the final 0. *)
Definition char_at (s : string) (i : nat) : result Z :=
  match String.get i s with
  | Some a => Ok (Z.of_nat (nat_of_ascii a))
  | None => if Nat.eqb i (String.length s) then Ok 0 else UB
  end.

(** The macro [str2cmp] compares the first two bytes. *)
Definition str2cmp (s1 s2 : string) : result Z :=
  a0 ← char_at s1 0; a1 ← char_at s1 1;
  b0 ← char_at s2 0; b1 ← char_at s2 1;
  Ok (Z.lor (Z.shiftl a0 8) a1 - Z.lor (Z.shiftl b0 8) b1).

Definition name_of (p : ptr) (s : store) : result string :=
  d ← field n_data p s;
  match pl_name d with Some k => Ok k | None => UB end.

(** The comparison of a key with the name of a symbol: [str2cmp], then [strcmp]. *)
Definition key_cmp (key : string) (p : ptr) (s : store) : result Z :=
  name ← name_of p s;
  c ← str2cmp key name;
  Ok (if c =? 0 then strcmp key name else c).

(** ** Rotations *)

(** [if (x->parent) ... else root = y]: [y] takes the place of [x] below the
    parent of [x]; [first_left] tells which side is tested. *)
Definition replace_child (x y : ptr) (first_left : bool) (s : store) : result store :=
  xp ← parent_of x s;
  if Nat.eqb xp NULL then Ok (set_root y s)
  else if first_left then
    l ← left_of xp s;
    if Nat.eqb x l then set_left y xp s else set_right y xp s
  else
    r ← right_of xp s;
    if Nat.eqb x r then set_right y xp s else set_left y xp s.

Definition rotateLeft (x : ptr) (s : store) : result store :=
  y ← right_of x s;
  yl ← left_of y s;
  s ← set_right yl x s;
  yl ← left_of y s;
  s ← (if Nat.eqb yl NIL_SYM then Ok s else set_parent x yl s);
  s ← (if Nat.eqb y NIL_SYM then Ok s else xp ← parent_of x s; set_parent xp y s);
  s ← replace_child x y true s;
  s ← set_left x y s;
  if Nat.eqb x NIL_SYM then Ok s else set_parent y x s.

Definition rotateRight (x : ptr) (s : store) : result store :=
  y ← left_of x s;
  yr ← right_of y s;
  s ← set_left yr x s;
  yr ← right_of y s;
  s ← (if Nat.eqb yr NIL_SYM then Ok s else set_parent x yr s);
  s ← (if Nat.eqb y NIL_SYM then Ok s else xp ← parent_of x s; set_parent xp y s);
  s ← replace_child x y false s;
  s ← set_right x y s;
  if Nat.eqb x NIL_SYM then Ok s else set_parent y x s.

(** ** Insertion *)

(** The two branches of [insertFixup]: [on_left] when the parent is a left child;
    [x->parent->parent] on the side away from the parent is the uncle. *)
Definition insert_step (x xp xpp : ptr) (on_left : bool) (s : store) : result (ptr * store) :=
  y ← (if on_left then right_of else left_of) xpp s;
  yc ← color_of y s;
  if decide (yc = RED) then
    s ← set_color BLACK xp s;
    s ← set_color BLACK y s;
    s ← set_color RED xpp s;
    Ok (xpp, s)
  else
    inner ← (if on_left then right_of else left_of) xp s;
    '(x, s) ← (if Nat.eqb x inner then
                 s ← (if on_left then rotateLeft else rotateRight) xp s; Ok (xp, s)
               else Ok (x, s));
    xp ← parent_of x s;
    s ← set_color BLACK xp s;
    xpp ← parent_of xp s;
    s ← set_color RED xpp s;
    s ← (if on_left then rotateRight else rotateLeft) xpp s;
    Ok (x, s).

Fixpoint insertFixup_loop (fuel : nat) (x : ptr) (s : store) : result store :=
  match fuel with
  | O => NoFuel
  | S fuel' =>
      if Nat.eqb x (root s) then Ok s
      else
        xp ← parent_of x s;
        c ← color_of xp s;
        if decide (c = RED) then
          xpp ← parent_of xp s;
          l ← left_of xpp s;
          '(x, s) ← insert_step x xp xpp (Nat.eqb xp l) s;
          insertFixup_loop fuel' x s
        else Ok s
  end.

Definition insertFixup (x : ptr) (s : store) : result store :=
  s ← insertFixup_loop (S (size (heap s))) x s;
  set_color BLACK (root s) s.

(** The descent: the symbol of that name, or the future parent. *)
Fixpoint find_loop (fuel : nat) (key : string) (current parent : ptr) (s : store)
    : result (ptr + ptr) :=
  match fuel with
  | O => NoFuel
  | S fuel' =>
      if Nat.eqb current NIL_SYM then Ok (inr parent)
      else
        c ← key_cmp key current s;
        if c =? 0 then Ok (inl current)
        else
          child ← (if c <? 0 then left_of else right_of) current s;
          find_loop fuel' key child current s
  end.

Definition search_tree (key : string) (s : store) : result (ptr + ptr) :=
  find_loop (S (size (heap s))) key (if Nat.eqb (root s) NULL then NIL_SYM else root s) NULL s.

Definition empty_payload : payload := Payload None 0 NoContents NULL.

(** [callocMemory] and the initial links. *)
Definition new_symbol (parent : ptr) (s : store) : ptr * store :=
  (next s, Store (<[next s := Node RED parent NIL_SYM NIL_SYM empty_payload]> (heap s))
                 (root s) (symbolCount s) (S (next s))).

Definition link_symbol (key : string) (parent x : ptr) (s : store) : result store :=
  if Nat.eqb parent NULL then Ok (set_root x s)
  else
    name ← name_of parent s;
    c ← str2cmp key name;
    if c <? 0 then set_left x parent s
    else if 0 <? c then set_right x parent s
    else if strcmp key name <? 0 then set_left x parent s
    else set_right x parent s.

(** [force] is [forceCreation]; NULL when the symbol is not there and not made. *)
Definition findInsertSymbol (key : string) (force : bool) (s : store) : result (ptr * store) :=
  r ← search_tree key s;
  match r with
  | inl p => Ok (p, s)
  | inr parent =>
      if force then
        let '(x, s) := new_symbol parent s in
        s ← link_symbol key parent x s;
        s ← insertFixup x s;
        Ok (x, set_count (symbolCount s + 1) s)
      else Ok (NULL, s)
  end.

(** ** Deletion *)

(** The two branches of [deleteFixup], in two parts.  First the sibling [w]; a red
    one is rotated above the parent. *)
Definition sibling (x xp : ptr) (on_left : bool) (s : store) : result (ptr * store) :=
  w ← (if on_left then right_of else left_of) xp s;
  wc ← color_of w s;
  if decide (wc = RED) then
    s ← set_color BLACK w s;
    xp ← parent_of x s;
    s ← set_color RED xp s;
    xp ← parent_of x s;
    s ← (if on_left then rotateLeft else rotateRight) xp s;
    xp ← parent_of x s;
    w ← (if on_left then right_of else left_of) xp s;
    Ok (w, s)
  else Ok (w, s).

(** With a black far child [cf] of the sibling, the red near child is rotated above
    it. *)
Definition outer_red (x w : ptr) (cf : color) (on_left : bool) (s : store) : result (ptr * store) :=
  if decide (cf = BLACK) then
    wn ← (if on_left then left_of else right_of) w s;
    s ← set_color BLACK wn s;
    s ← set_color RED w s;
    s ← (if on_left then rotateRight else rotateLeft) w s;
    xp ← parent_of x s;
    w ← (if on_left then right_of else left_of) xp s;
    Ok (w, s)
  else Ok (w, s).

(** Then the recoloring or the last rotations; the result is the new [x]. *)
Definition settle (x w : ptr) (on_left : bool) (s : store) : result (ptr * store) :=
  wn ← (if on_left then left_of else right_of) w s;
  cn ← color_of wn s;
  wf ← (if on_left then right_of else left_of) w s;
  cf ← color_of wf s;
  if decide (cn = BLACK ∧ cf = BLACK) then
    s ← set_color RED w s;
    xp ← parent_of x s;
    Ok (xp, s)
  else
    '(w, s) ← outer_red x w cf on_left s;
    xp ← parent_of x s;
    c ← color_of xp s;
    s ← set_color c w s;
    s ← set_color BLACK xp s;
    wf ← (if on_left then right_of else left_of) w s;
    s ← set_color BLACK wf s;
    xp ← parent_of x s;
    s ← (if on_left then rotateLeft else rotateRight) xp s;
    Ok (root s, s).

Definition delete_step (x xp : ptr) (on_left : bool) (s : store) : result (ptr * store) :=
  '(w, s) ← sibling x xp on_left s;
  settle x w on_left s.

Fixpoint deleteFixup_loop (fuel : nat) (x : ptr) (s : store) : result (ptr * store) :=
  match fuel with
  | O => NoFuel
  | S fuel' =>
      if Nat.eqb x (root s) then Ok (x, s)
      else
        c ← color_of x s;
        if decide (c = BLACK) then
          xp ← parent_of x s;
          l ← left_of xp s;
          '(x, s) ← delete_step x xp (Nat.eqb x l) s;
          deleteFixup_loop fuel' x s
        else Ok (x, s)
  end.

Definition deleteFixup (x : ptr) (s : store) : result store :=
  '(x, s) ← deleteFixup_loop (S (size (heap s))) x s;
  set_color BLACK x s.

(** The leftmost symbol below [y]. *)
Fixpoint leftmost (fuel : nat) (y : ptr) (s : store) : result ptr :=
  match fuel with
  | O => NoFuel
  | S fuel' =>
      l ← left_of y s;
      if Nat.eqb l NIL_SYM then Ok y else leftmost fuel' l s
  end.

(** The symbol that is taken out of its place: [z] or its successor. *)
Definition spliced (z : ptr) (s : store) : result ptr :=
  l ← left_of z s; r ← right_of z s;
  if Nat.eqb l NIL_SYM || Nat.eqb r NIL_SYM then Ok z
  else leftmost (size (heap s)) r s.

(** Removing [y] from the parent chain; the result is its only child. *)
Definition unlink (y : ptr) (s : store) : result (ptr * store) :=
  yl ← left_of y s;
  x ← (if Nat.eqb yl NIL_SYM then right_of y s else Ok yl);
  yp ← parent_of y s;
  s ← set_parent yp x s;
  s ← replace_child y x true s;
  Ok (x, s).

(** [y] takes the place, the children and the color of [z]. *)
Definition take_place (y z : ptr) (s : store) : result store :=
  zl ← left_of z s; s ← set_left zl y s;
  zr ← right_of z s; s ← set_right zr y s;
  zp ← parent_of z s; s ← set_parent zp y s;
  s ← (if Nat.eqb zp NULL then Ok (set_root y s)
       else l ← left_of zp s; if Nat.eqb l z then set_left y zp s else set_right y zp s);
  yr ← right_of y s; s ← set_parent y yr s;
  yl ← left_of y s; s ← set_parent y yl s;
  zc ← color_of z s; set_color zc y s.

Definition deleteSymbol (key : string) (s : store) : result (bool * store) :=
  r ← search_tree key s;
  match r with
  | inr _ => Ok (false, s)
  | inl z =>
      y ← spliced z s;
      '(x, s) ← unlink y s;
      color ← color_of y s;
      s ← (if Nat.eqb y z then Ok s else take_place y z s);
      s ← (if decide (color = BLACK) then deleteFixup x s else Ok s);
      Ok (true, set_count (symbolCount s - 1) s)
  end.

(** ** Listing *)

(** [collectSymbols] appends the symbols in order. *)
Fixpoint collectSymbols (fuel : nat) (p : ptr) (s : store) (acc : list ptr) : result (list ptr) :=
  match fuel with
  | O => NoFuel
  | S fuel' =>
      if Nat.eqb p NIL_SYM || Nat.eqb p NULL then Ok acc
      else
        l ← left_of p s;
        acc ← collectSymbols fuel' l s acc;
        r ← right_of p s;
        collectSymbols fuel' r s (acc ++ [p])
  end.

(** [collectSymbolAssocs] appends the names behind an underscore with the
    contents. *)
Fixpoint collectSymbolAssocs (fuel : nat) (p : ptr) (s : store) (acc : list (string * sym_cell))
    : result (list (string * sym_cell)) :=
  match fuel with
  | O => NoFuel
  | S fuel' =>
      if Nat.eqb p NIL_SYM || Nat.eqb p NULL then Ok acc
      else
        l ← left_of p s;
        acc ← collectSymbolAssocs fuel' l s acc;
        name ← name_of p s;
        d ← field n_data p s;
        r ← right_of p s;
        collectSymbolAssocs fuel' r s
          (match name with
           | String "_" key => acc ++ [(key, pl_contents d)]
           | _ => acc
           end)
  end.
