(* ===== verification/Redblack.v ===== *)
(** * The symbol tree as a tree

    The linked structures of Symtree.v represent a binary tree; the place the
    code works at is a subtree below a path of ancestors.  This file gives the
    effect of single assignments and of the rotations on that view, and the
    red-black conditions. *)

From stdpp Require Import base list numbers tactics strings gmap.
From Stdlib Require Import ZArith Lia.
From S2P Require Import Prelude Cell Symtree.

#[global] Open Scope nat_scope.
#[local] Set Warnings "-clear-no-such-hyp".

(** ** Trees and paths *)

Inductive tree : Type :=
  | Leaf
  | Br (c : color) (l : tree) (a : ptr) (r : tree).

Definition addr (t : tree) : ptr := match t with Leaf => NIL_SYM | Br _ _ a _ => a end.
Definition shade (t : tree) : color := match t with Leaf => BLACK | Br c _ _ _ => c end.

Fixpoint inorder (t : tree) : list ptr :=
  match t with Leaf => [] | Br _ l a r => inorder l ++ a :: inorder r end.

(** The branch with its children in the order the side says: [near] is the left
    one when [side] is true. *)
Definition br (side : bool) (c : color) (near : tree) (a : ptr) (far : tree) : tree :=
  if side then Br c near a far else Br c far a near.

Definition mk (side : bool) (c : color) (p near far : ptr) (d : payload) : node :=
  if side then Node c p near far d else Node c p far near d.

(** An ancestor: on which side the path goes on, and its other subtree. *)
Inductive crumb : Type := Crumb (side : bool) (c : color) (a : ptr) (sib : tree).

Definition up (t : tree) (k : crumb) : tree :=
  match k with Crumb side c a sib => br side c t a sib end.
Definition plug (cs : list crumb) (t : tree) : tree := foldl up t cs.

Definition par (cs : list crumb) : ptr :=
  match cs with [] => NULL | Crumb _ _ a _ :: _ => a end.

(** The addresses of the path and of what hangs off it, before and behind the
    subtree in order. *)
Fixpoint before (cs : list crumb) : list ptr :=
  match cs with
  | [] => []
  | Crumb true _ _ _ :: cs => before cs
  | Crumb false _ a sib :: cs => before cs ++ inorder sib ++ [a]
  end.
Fixpoint behind (cs : list crumb) : list ptr :=
  match cs with
  | [] => []
  | Crumb true _ a sib :: cs => a :: inorder sib ++ behind cs
  | Crumb false _ _ _ :: cs => behind cs
  end.

Lemma inorder_plug cs : ∀ t, inorder (plug cs t) = before cs ++ inorder t ++ behind cs.
Proof.
  induction cs as [|[side c a sib] cs IH]; intros t; cbn.
  - by rewrite app_nil_r.
  - unfold plug in IH. rewrite IH. destruct side; cbn; rewrite <- !app_assoc; done.
Qed.

Lemma plug_app cs1 cs2 t : plug (cs1 ++ cs2) t = plug cs2 (plug cs1 t).
Proof. apply foldl_app. Qed.

(** ** Representation *)

Section Repr.
Variable h : gmap ptr node.

Fixpoint repr (p : ptr) (t : tree) : Prop :=
  match t with
  | Leaf => True
  | Br c l a r =>
      (∃ d, h !! a = Some (Node c p (addr l) (addr r) d)) ∧ repr a l ∧ repr a r
  end.

(** The ancestors of a subtree at [q]. *)
Fixpoint path (cs : list crumb) (q : ptr) : Prop :=
  match cs with
  | [] => True
  | Crumb side c a sib :: cs' =>
      (∃ d, h !! a = Some (mk side c (par cs') q (addr sib) d)) ∧
      repr a sib ∧ path cs' a
  end.

Lemma repr_plug cs : ∀ t, repr NULL (plug cs t) ↔ repr (par cs) t ∧ path cs (addr t).
Proof.
  induction cs as [|[side c a sib] cs IH]; intros t; cbn; [tauto|].
  unfold plug in IH. rewrite IH. destruct side; cbn; tauto.
Qed.

End Repr.

Lemma repr_br h p side c n a f : repr h p (br side c n a f) ↔
  (∃ d, h !! a = Some (mk side c p (addr n) (addr f) d)) ∧ repr h a n ∧ repr h a f.
Proof. destruct side; cbn; tauto. Qed.

Lemma inorder_br side c n a f :
  inorder (br side c n a f) ≡ₚ a :: inorder n ++ inorder f.
Proof.
  destruct side; cbn; [by rewrite <- Permutation_middle|].
  by rewrite <- Permutation_middle, (Permutation_app_comm (inorder f)).
Qed.

Lemma addr_br side c n a f : addr (br side c n a f) = a.
Proof. by destruct side. Qed.

(** Only the addresses of a tree matter. *)
Lemma repr_ext h h' t : ∀ p, (∀ a, a ∈ inorder t → h' !! a = h !! a) → repr h p t → repr h' p t.
Proof.
  induction t as [|c l IHl a r IHr]; intros p He; cbn; [done|]. intros ((d & Hd) & Hl & Hr).
  cbn in He. split; [exists d; rewrite He; set_solver|].
  split; [apply IHl|apply IHr]; try done; intros x Hx; apply He; set_solver.
Qed.

Lemma path_ext h h' cs : ∀ q, (∀ a, a ∈ before cs ++ behind cs → h' !! a = h !! a) →
  path h cs q → path h' cs q.
Proof.
  induction cs as [|[side c a sib] cs IH]; intros q He; cbn; [done|]. intros ((d & Hd) & Hs & Hp).
  assert (Ha : a ∈ before (Crumb side c a sib :: cs) ++ behind (Crumb side c a sib :: cs))
    by (destruct side; cbn; set_solver).
  split; [exists d; by rewrite He|]. split.
  - eapply repr_ext; [|exact Hs]. intros x Hx. apply He. destruct side; cbn; set_solver.
  - apply IH; [|done]. intros x Hx. apply He. destruct side; cbn; set_solver.
Qed.

(** A subtree moved below another parent: its own root is all that changes. *)
Lemma repr_move h h' t p q : NoDup (inorder t) → repr h p t →
  (∀ a, a ∈ inorder t → a ≠ addr t → h' !! a = h !! a) →
  (∀ c l r d, h !! addr t = Some (Node c p l r d) → t ≠ Leaf →
     h' !! addr t = Some (Node c q l r d)) → repr h' q t.
Proof.
  destruct t as [|c l a r]; cbn; [done|]. intros Hnd ((d & Hd) & Hl & Hr) He Hm.
  apply NoDup_app in Hnd as (Hnl & Hnx & [Har Hnr]%NoDup_cons).
  split; [exists d; by eapply Hm|].
  split; (eapply repr_ext; [|eassumption]); intros x Hx; apply He; set_solver.
Qed.

(** The top of the path takes another child. *)
Lemma path_child h h' cs q q' : NoDup (before cs ++ behind cs) → path h cs q →
  (∀ a, a ∈ before cs ++ behind cs → a ≠ par cs → h' !! a = h !! a) →
  (∀ side c a sib cs' d, cs = Crumb side c a sib :: cs' →
     h !! a = Some (mk side c (par cs') q (addr sib) d) →
     h' !! a = Some (mk side c (par cs') q' (addr sib) d)) →
  path h' cs q'.
Proof.
  destruct cs as [|[side c a sib] cs]; cbn [path]; [done|]. intros Hnd ((d & Hd) & Hs & Hp) He Hm.
  split; [exists d; by eapply Hm|].
  assert (Ha : a ∉ inorder sib ∧ a ∉ before cs ++ behind cs).
  { destruct side; cbn in Hnd; revert Hnd; rewrite ?NoDup_app, ?NoDup_cons, ?NoDup_app; set_solver. }
  destruct Ha as [Ha1 Ha2].
  split; [eapply repr_ext; [|exact Hs]|eapply path_ext; [|exact Hp]]; intros x Hx; apply He;
    try (destruct side; cbn; set_solver); cbn; intros ->; contradiction.
Qed.

(** ** The whole structure *)

(** The static [root] and the heap hold the tree [T]; addresses are below the
    one that is handed out next, and the sentinel is black. *)
Record tree_ok (s : store) (T : tree) : Prop := {
  ok_root : root s = addr T;
  ok_repr : repr (heap s) NULL T;
  ok_nodup : NoDup (inorder T);
  ok_addrs : ∀ a, a ∈ inorder T → 2 ≤ a < next s;
  ok_heap : ∀ p n, heap s !! p = Some n → p < next s;
  ok_nil : ∃ n, heap s !! NIL_SYM = Some n ∧ n_color n = BLACK
}.

(** What an operation on the addresses [A] leaves alone: names and contents
    everywhere, and all structures elsewhere. *)
Record touches (A : list ptr) (s s' : store) : Prop := {
  to_data : ∀ p, n_data <$> heap s' !! p = n_data <$> heap s !! p;
  to_out : ∀ p, p ∉ A → heap s' !! p = heap s !! p;
  to_next : next s' = next s;
  to_count : symbolCount s' = symbolCount s
}.

Lemma touches_refl A s : touches A s s.
Proof. done. Qed.

Lemma touches_trans A s1 s2 s3 : touches A s1 s2 → touches A s2 s3 → touches A s1 s3.
Proof.
  intros [H1 H2 H3 H4] [K1 K2 K3 K4]. split; [intros p; by rewrite K1|intros p Hp|congruence..].
  by rewrite K2, H2.
Qed.

Lemma touches_heap A s s' : touches A s s' → (∀ p n, heap s !! p = Some n → p < next s) →
  ∀ p n, heap s' !! p = Some n → p < next s'.
Proof.
  intros [H1 _ H3 _] Hh p n Hp. rewrite H3. specialize (H1 p). rewrite Hp in H1. cbn in H1.
  destruct (heap s !! p) eqn:E; [|done]. by eapply Hh.
Qed.

(** ** Reads and writes *)

Lemma field_ok {A} (f : node → A) p s n : heap s !! p = Some n → field f p s = Ok (f n).
Proof. unfold field. by intros ->. Qed.

Lemma update_ok f p s n : heap s !! p = Some n →
  update f p s = Ok (with_heap (<[p := f n]> (heap s)) s).
Proof. unfold update. by intros ->. Qed.

(** Solves a lookup in a heap written to at known addresses. *)
Ltac look :=
  cbn [heap with_heap set_root];
  repeat first [rewrite lookup_insert_eq | rewrite lookup_insert_ne by (congruence || lia)];
  first [eassumption | reflexivity].

(** Runs the reads, writes and pointer tests at the front of the goal. *)
Ltac run1 :=
  match goal with
  | |- context [field ?f ?p ?s] => erewrite (field_ok f p s) by look
  | |- context [update ?f ?p ?s] => erewrite (update_ok f p s) by look
  | |- context [Nat.eqb ?x ?x] => rewrite Nat.eqb_refl
  | |- context [Nat.eqb ?x ?y] => rewrite (proj2 (Nat.eqb_neq x y)) by (congruence || lia)
  end.
Ltac run := repeat (run1; cbn [mbind result_bind n_color n_parent n_left n_right n_data]).

Lemma addr_plug cs : ∀ t t', cs ≠ [] → addr (plug cs t) = addr (plug cs t').
Proof.
  induction cs as [|[side c a sib] cs IH]; intros t t' Hne; [done|]. cbn.
  destruct cs as [|k cs]; [by destruct side|]. by apply IH.
Qed.

Lemma nodup_parts {A} (l1 l2 l3 : list A) : NoDup (l1 ++ l2 ++ l3) →
  NoDup l2 ∧ NoDup (l1 ++ l3) ∧ ∀ x, x ∈ l2 → x ∉ l1 ++ l3.
Proof.
  rewrite (app_assoc l1), (Permutation_app_comm l1 l2), <- app_assoc. intros (H1 & H2 & H3)%NoDup_app.
  auto.
Qed.

(** The subtree at the end of a path, what it shares nothing with, and its
    addresses. *)
Record focused (s : store) (cs : list crumb) (t : tree) : Prop := {
  fo_repr : repr (heap s) (par cs) t;
  fo_path : path (heap s) cs (addr t);
  fo_nodup : NoDup (inorder t);
  fo_nodup' : NoDup (before cs ++ behind cs);
  fo_apart : ∀ a, a ∈ inorder t → a ∉ before cs ++ behind cs;
  fo_addrs : ∀ a, a ∈ inorder t → 2 ≤ a < next s;
  fo_addrs' : ∀ a, a ∈ before cs ++ behind cs → 2 ≤ a < next s
}.

Lemma tree_focus s cs t : tree_ok s (plug cs t) → focused s cs t.
Proof.
  intros [_ [H1 H2]%repr_plug H3 H4 _ _]. rewrite inorder_plug in H3, H4.
  destruct (nodup_parts _ _ _ H3) as (N1 & N2 & N3).
  split; try done; intros a Ha; apply H4; set_solver.
Qed.

Lemma par_in cs : cs ≠ [] → par cs ∈ before cs ++ behind cs.
Proof. destruct cs as [|[[] c a sib] cs]; [done|..]; cbn; set_solver. Qed.

Lemma tree_refocus s s' cs t t' : tree_ok s (plug cs t) → inorder t' = inorder t →
  touches (inorder (plug cs t)) s s' →
  root s' = (if cs is [] then addr t' else root s) →
  repr (heap s') (par cs) t' → path (heap s') cs (addr t') → tree_ok s' (plug cs t').
Proof.
  intros [H1 _ H3 H4 H5 H6] Hi Ht Hr Hrep Hp.
  assert (Hi' : inorder (plug cs t') = inorder (plug cs t)) by (by rewrite !inorder_plug, Hi).
  split; rewrite ?Hi'.
  - rewrite Hr. destruct cs; [done|]. rewrite H1. by apply addr_plug.
  - by apply repr_plug.
  - done.
  - by rewrite (to_next _ _ _ Ht).
  - by eapply touches_heap.
  - rewrite (to_out _ _ _ Ht); [done|]. intros Hn%H4. unfold NIL_SYM in Hn. lia.
Qed.

(** ** Rotations *)

Definition rotate (side : bool) : ptr → store → result store :=
  if side then rotateLeft else rotateRight.

Definition near (side : bool) : node → ptr := if side then n_left else n_right.
Definition far (side : bool) : node → ptr := if side then n_right else n_left.

Definition with_parent (q : ptr) (n : node) : node :=
  Node (n_color n) q (n_left n) (n_right n) (n_data n).
Definition with_color (c : color) (n : node) : node :=
  Node c (n_parent n) (n_left n) (n_right n) (n_data n).
Definition with_near (side : bool) (q : ptr) (n : node) : node :=
  if side then Node (n_color n) (n_parent n) q (n_right n) (n_data n)
  else Node (n_color n) (n_parent n) (n_left n) q (n_data n).

(** A rotation on the structures: [x] with its far child [y], whose near child is
    [b], below [p]. *)
Lemma rotate_raw side s x y b p nx ny :
  heap s !! x = Some nx → heap s !! y = Some ny →
  far side nx = y → near side ny = b → n_parent nx = p →
  x ≠ y → 2 ≤ x → 2 ≤ y →
  (b ≠ NIL_SYM → b ≠ x ∧ b ≠ y ∧ ∃ nb, heap s !! b = Some nb) →
  (p ≠ NULL → p ≠ x ∧ p ≠ y ∧ p ≠ b ∧ ∃ np s2, heap s !! p = Some np ∧
     near s2 np = x ∧ near (negb s2) np ≠ x) →
  ∃ s', rotate side x s = Ok s' ∧
    root s' = (if Nat.eqb p NULL then y else root s) ∧ next s' = next s ∧
    symbolCount s' = symbolCount s ∧
    heap s' !! x = Some (with_parent y (with_near (negb side) b nx)) ∧
    heap s' !! y = Some (with_parent p (with_near side x ny)) ∧
    (∀ nb, b ≠ NIL_SYM → heap s !! b = Some nb → heap s' !! b = Some (with_parent x nb)) ∧
    (∀ np s2, p ≠ NULL → heap s !! p = Some np → near s2 np = x →
       heap s' !! p = Some (with_near s2 y np)) ∧
    ∀ q, q ≠ x → q ≠ y → (b ≠ NIL_SYM → q ≠ b) → (p ≠ NULL → q ≠ p) → heap s' !! q = heap s !! q.
Proof.
  intros Hx Hy Hf Hn Hp Hxy Hx2 Hy2 Hb Hpp.
  destruct nx as [c1 px lx rx dx], ny as [c2 py ly ry dy]. cbn in Hp. subst px.
  assert (Hxn : x ≠ NIL_SYM) by (unfold NIL_SYM; lia).
  assert (Hyn : y ≠ NIL_SYM) by (unfold NIL_SYM; lia).
  unfold rotate, rotateLeft, rotateRight, replace_child, set_left, set_right, set_parent.
  destruct (decide (b = NIL_SYM)) as [Eb|Eb]; [clear Hb|destruct (Hb Eb) as (Hbx & Hby & nb & Hnb)];
    (destruct (decide (p = NULL)) as [Ep|Ep];
     [clear Hpp|destruct (Hpp Ep) as (Hpx & Hpy & Hpb & [c3 pp lp rp dp] & [] & Hnp & Hc & Hc')]);
    destruct side; cbn [near far n_left n_right n_parent negb] in *; subst.
  all: run.
  all: eexists; split; [reflexivity|]; cbn [root set_root with_heap next symbolCount].
  all: rewrite ?Nat.eqb_refl, ?(proj2 (Nat.eqb_neq _ _) Ep); do 3 (split; [reflexivity|]).
  all: split; [look|]; split; [look|].
  all: split; [try (intros ? []; done); intros nb' _ Hnb'; rewrite Hnb in Hnb';
               injection Hnb' as <-; look|].
  all: split; [try (intros ? ? []; done)|intros q ?? Hqb Hqp; try specialize (Hqb Eb);
               try specialize (Hqp Ep); look].
  all: intros np' [] _ Hnp'; rewrite Hnp in Hnp'; injection Hnp' as <-; intros Hs2;
    cbn in Hs2; first [congruence | look].
Qed.

Lemma addr_in t : t ≠ Leaf → addr t ∈ inorder t.
Proof. destruct t; [done|]. cbn. set_solver. Qed.

Lemma leaf_or t : {t = Leaf} + {t ≠ Leaf}.
Proof. destruct t; [by left|by right]. Qed.

Lemma repr_addr h p t : repr h p t → t ≠ Leaf →
  ∃ n, h !! addr t = Some n ∧ n_parent n = p.
Proof. destruct t; [done|]. cbn. intros ((d & ->) & _) _. eauto. Qed.

Lemma repr_move' h h' t p q : NoDup (inorder t) → repr h p t →
  (∀ a, a ∈ inorder t → a ≠ addr t → h' !! a = h !! a) →
  (∀ n, t ≠ Leaf → h !! addr t = Some n → h' !! addr t = Some (with_parent q n)) → repr h' q t.
Proof.
  intros Hn Hr Ho Ha. eapply repr_move; [done|done|done|]. intros c l r d Hd Ht.
  by rewrite (Ha _ Ht Hd).
Qed.

Lemma inorder_rotate side c1 a x c2 b y d c1' c2' :
  inorder (br side c2' (br side c1' a x b) y d) = inorder (br side c1 a x (br side c2 b y d)).
Proof. destruct side; cbn; by rewrite <- !app_assoc. Qed.

(** The parent of a subtree has it as its child on the side of the path only. *)
Lemma path_top h cs q : path h cs q → cs ≠ [] → q ≠ NIL_SYM → q ∉ before cs ++ behind cs →
  ∃ np s2, h !! par cs = Some np ∧ near s2 np = q ∧ near (negb s2) np ≠ q.
Proof.
  destruct cs as [|[side c a sib] cs]; [done|]. intros ((d & Hd) & _) _ Hq Hout.
  exists (mk side c (par cs) q (addr sib) d), side. split; [done|].
  assert (addr sib ≠ q).
  { destruct (leaf_or sib) as [->|Hs%addr_in]; [done|]. intros <-. apply Hout.
    destruct side; cbn; set_solver. }
  by destruct side.
Qed.

Lemma par_null cs : (∀ a, a ∈ before cs ++ behind cs → 2 ≤ a) → par cs = NULL ↔ cs = [].
Proof.
  intros Ha. split; [|by intros ->]. intros Hp. destruct cs; [done|].
  assert (H : par (c :: cs) ∈ before (c :: cs) ++ behind (c :: cs)) by by apply par_in.
  apply Ha in H. rewrite Hp in H. unfold NULL in H. lia.
Qed.

Lemma rotate_ok side s cs c1 a x c2 b y d :
  let t := br side c1 a x (br side c2 b y d) in
  let t' := br side c2 (br side c1 a x b) y d in
  tree_ok s (plug cs t) →
  ∃ s', rotate side x s = Ok s' ∧ tree_ok s' (plug cs t') ∧ touches (inorder (plug cs t)) s s'.
Proof.
  intros t t' Hok. pose proof (tree_focus _ _ _ Hok) as [Hr Hp Hn Hn' Hd Ha Ha'].
  assert (Hperm : inorder t ≡ₚ x :: y :: inorder a ++ inorder b ++ inorder d).
  { subst t. rewrite !inorder_br. by rewrite <- Permutation_middle. }
  rewrite Hperm in Hn. assert (Hin : ∀ q, q ∈ inorder t ↔ q ∈ x :: y :: inorder a ++ inorder b ++ inorder d).
  { intros q. by rewrite Hperm. }
  assert (Htop : addr t = x) by apply addr_br. rewrite Htop in Hp.
  assert (Hr' := Hr). subst t. rewrite !repr_br, !addr_br in Hr'.
  destruct Hr' as ((dx & Hnx) & Hra & ((dy & Hny) & Hrb & Hrd)).
  apply NoDup_cons in Hn as [Hxn (Hyn & (Hna & Hab & Hnbd)%NoDup_app)%NoDup_cons].
  apply NoDup_app in Hnbd as (Hnb & Hbd & Hnd).
  assert (Hx : x ∈ inorder (br side c1 a x (br side c2 b y d))) by (apply Hin; set_solver).
  assert (Hy : y ∈ inorder (br side c1 a x (br side c2 b y d))) by (apply Hin; set_solver).
  pose proof (Ha x Hx) as [Hx2 _]. pose proof (Ha y Hy) as [Hy2 _].
  assert (Hxy : x ≠ y) by set_solver.
  assert (Hbin : addr b ≠ NIL_SYM → addr b ∈ inorder b).
  { intros Hb. apply addr_in. by intros ->. }
  assert (Hparin : par cs ≠ NULL → par cs ∈ before cs ++ behind cs).
  { intros Hpn. apply par_in. by intros ->. }
  assert (Hq : ∀ q, q ∈ inorder (br side c1 a x (br side c2 b y d)) → par cs ≠ NULL → par cs ≠ q).
  { intros q Hq Hpn%Hparin <-. by apply (Hd _ Hq). }
  destruct (rotate_raw side s x y (addr b) (par cs) _ _ Hnx Hny) as
    (s' & Hs' & Hroot & Hnext & Hcount & Hx' & Hy' & Hb' & Hp' & Hout); [by destruct side..|done|done|done| | |].
  { intros Hb. pose proof (Hbin Hb). split; [set_solver|]. split; [set_solver|].
    destruct (repr_addr _ _ _ Hrb) as (nb & Hnb' & _); [by intros ->|eauto]. }
  { intros Hpn. split; [by apply Hq|]. split; [by apply Hq|]. split.
    - intros Heq. destruct (decide (addr b = NIL_SYM)) as [Hb|Hb%Hbin].
      + apply Hparin, Ha' in Hpn. rewrite Heq, Hb in Hpn. unfold NIL_SYM in Hpn. lia.
      + apply (Hq (addr b)); [apply Hin; set_solver|done|done].
    - apply (path_top _ _ _ Hp); [by intros ->|unfold NIL_SYM; lia|by apply Hd]. }
  exists s'. split; [done|].
  assert (Hall : ∀ q, q ∉ x :: y :: inorder b → (par cs ≠ NULL → q ≠ par cs) → heap s' !! q = heap s !! q).
  { intros q Hqn Hqp. apply Hout; [set_solver|set_solver| |done]. intros Hb%Hbin. set_solver. }
  assert (Htouch : touches (inorder (plug cs (br side c1 a x (br side c2 b y d)))) s s').
  { split; [| |done|done].
    - intros q. destruct (decide (q = x)) as [->|]; [rewrite Hx', Hnx; by destruct side|].
      destruct (decide (q = y)) as [->|]; [rewrite Hy', Hny; by destruct side|].
      destruct (decide (addr b ≠ NIL_SYM ∧ q = addr b)) as [[Hb ->]|Hqb].
      { destruct (repr_addr _ _ _ Hrb) as (nb & Hnb' & _); [by intros ->|].
        by rewrite (Hb' _ Hb Hnb'), Hnb'. }
      destruct (decide (par cs ≠ NULL ∧ q = par cs)) as [[Hpn ->]|Hqp].
      { destruct (path_top _ _ _ Hp) as (np & s2 & Hnp & Hs2 & _);
          [by intros ->|unfold NIL_SYM; lia|by apply Hd|].
        rewrite (Hp' _ _ Hpn Hnp Hs2), Hnp. by destruct s2. }
      by rewrite Hout; [|done|done|intros ? ->; by apply Hqb|intros ? ->; by apply Hqp].
    - intros q Hqn. rewrite inorder_plug, !elem_of_app in Hqn. apply Hall.
      + intros Hqi. apply Hqn. right; left. apply Hin. clear -Hqi. set_solver.
      + intros Hpn%Hparin ->. apply elem_of_app in Hpn. tauto. }
  split; [|done].
  apply (tree_refocus _ _ _ _ _ Hok); [apply inorder_rotate|done|..]; unfold t'; rewrite ?addr_br.
  - rewrite Hroot. destruct cs as [|k cs]; [done|].
    rewrite (proj2 (Nat.eqb_neq _ _)); [done|]. intros Hpn%par_null; [done|]. intros; by apply Ha'.
  - rewrite !repr_br, addr_br. split; [|split; [split; [|split]|]].
    + exists dy. rewrite Hy'. by destruct side.
    + exists dx. rewrite Hx'. by destruct side.
    + eapply repr_ext; [|exact Hra]. intros q Hqa. apply Hall; [set_solver|].
      intros Hpn ->. apply (Hq (par cs)); [apply Hin; set_solver|done|done].
    + apply (repr_move' (heap s) _ _ y); [done|done|..].
      * intros q Hqb Hne. apply Hout; [set_solver|set_solver|done|].
        intros Hpn ->. apply (Hq (par cs)); [apply Hin; set_solver|done|done].
      * intros n Hb Hn. apply Hb'; [|done]. intros Hb2. apply addr_in in Hb.
        assert (Hbt : 2 ≤ addr b) by (apply Ha, Hin; set_solver). rewrite Hb2 in Hbt.
        unfold NIL_SYM in Hbt. lia.
    + eapply repr_ext; [|exact Hrd]. intros q Hqd. apply Hall; [set_solver|].
      intros Hpn ->. apply (Hq (par cs)); [apply Hin; set_solver|done|done].
  - apply (path_child (heap s) _ _ x); [done|done|..].
    + intros q Hqc Hqp. apply Hall; [|done]. intros Hqi. apply (Hd q); [apply Hin; set_solver|done].
    + intros sd c p sib cs' e -> He. cbn [par] in Hp'.
      assert (Hpn : p ≠ NULL).
      { assert (Hp2 : 2 ≤ p) by (apply Ha', (par_in (Crumb sd c p sib :: cs')); done).
        unfold NULL. lia. }
      rewrite (Hp' _ sd Hpn He); by destruct sd.
Qed.

(** ** Reading and coloring at the end of a path *)

Lemma shade_ok s cs t : tree_ok s (plug cs t) → color_of (addr t) s = Ok (shade t).
Proof.
  intros Hok. pose proof (fo_repr _ _ _ (tree_focus _ _ _ Hok)) as Hr.
  destruct t as [|c l a r]; cbn in *.
  - destruct (ok_nil _ _ Hok) as (n & Hn & <-). by apply field_ok.
  - destruct Hr as ((d & Hd) & _). by rewrite (field_ok _ _ _ _ Hd).
Qed.

Lemma node_ok s cs side c n a f : tree_ok s (plug cs (br side c n a f)) →
  ∃ d, heap s !! a = Some (mk side c (par cs) (addr n) (addr f) d).
Proof.
  intros Hok. pose proof (fo_repr _ _ _ (tree_focus _ _ _ Hok)) as Hr. apply repr_br in Hr as [H _]. done.
Qed.

Lemma reads_ok s cs side c n a f : tree_ok s (plug cs (br side c n a f)) →
  (if side then left_of else right_of) a s = Ok (addr n) ∧
  (if side then right_of else left_of) a s = Ok (addr f) ∧
  color_of a s = Ok c ∧ parent_of a s = Ok (par cs).
Proof.
  intros Hok. destruct (node_ok _ _ _ _ _ _ _ Hok) as (d & Hd). destruct side; repeat split; by rewrite (field_ok _ _ _ _ Hd).
Qed.

Lemma parent_ok s cs t : tree_ok s (plug cs t) → t ≠ Leaf → parent_of (addr t) s = Ok (par cs).
Proof.
  destruct t as [|c l a r]; [done|]. intros Hok _. by apply (reads_ok s cs true c l a r).
Qed.

Lemma set_color_ok s cs side c n a f c' : tree_ok s (plug cs (br side c n a f)) →
  ∃ s', set_color c' a s = Ok s' ∧ tree_ok s' (plug cs (br side c' n a f)) ∧
    touches (inorder (plug cs (br side c n a f))) s s' ∧ root s' = root s.
Proof.
  intros Hok. pose proof (tree_focus _ _ _ Hok) as [Hr Hp Hn Hn' Hd Ha _].
  apply repr_br in Hr as ((d & Hnode) & Hrn & Hrf). rewrite addr_br in Hp.
  pose proof (inorder_br side c n a f) as Hperm. rewrite Hperm in Hn.
  apply NoDup_cons in Hn as [Han _].
  unfold set_color. rewrite (update_ok _ _ _ _ Hnode). eexists. split; [done|].
  assert (Hin : a ∈ inorder (br side c n a f)) by (rewrite Hperm; by left).
  assert (Ht : touches (inorder (plug cs (br side c n a f))) s (with_heap
    (<[a := with_color c' (mk side c (par cs) (addr n) (addr f) d)]> (heap s)) s)).
  { split; [| |done|done]; intros q; cbn.
    - destruct (decide (q = a)) as [->|]; [|by rewrite lookup_insert_ne by congruence].
      rewrite lookup_insert_eq, Hnode. by destruct side.
    - intros Hq. rewrite lookup_insert_ne; [done|]. intros ->. apply Hq.
      rewrite inorder_plug. set_solver. }
  split; [|by split].
  apply (tree_refocus _ _ _ _ _ Hok); [by destruct side|done|..]; rewrite ?addr_br.
  - cbn. destruct cs; [|done]. rewrite (ok_root _ _ Hok). apply addr_br.
  - apply repr_br. split; [exists d; cbn; rewrite lookup_insert_eq; by destruct side|].
    split; (eapply repr_ext; [|eassumption]); intros q Hq; cbn; apply lookup_insert_ne;
      intros ->; apply Han; set_solver.
  - eapply path_ext; [|exact Hp]. intros q Hq. cbn. apply lookup_insert_ne. intros ->. by apply (Hd q).
Qed.
