(* ===== verification/Insertion.v ===== *)
(** * Insertion into the symbol tree (src/nl-symbol.c, [insertFixup])

    The red-black conditions, for trees and for paths, and the proof that the
    repair after an insertion restores them without changing the order of the
    symbols. *)

From stdpp Require Import base list numbers tactics strings gmap.
From Stdlib Require Import ZArith Lia.
From S2P Require Import Prelude Cell Symtree Redblack.

#[global] Open Scope nat_scope.
#[local] Set Warnings "-clear-no-such-hyp".

(** ** Red-black trees *)

(** [rb n t]: no red node below a red one, and [n] black nodes on every way to a
    leaf. *)
Inductive rb : nat → tree → Prop :=
  | rb_leaf : rb 0 Leaf
  | rb_red n l a r : rb n l → rb n r → shade l = BLACK → shade r = BLACK → rb n (Br RED l a r)
  | rb_black n l a r : rb n l → rb n r → rb (S n) (Br BLACK l a r).

(** [hole cs any n]: a subtree of black height [n] makes a red-black tree with a
    black root at the end of the path; [any] says whether it may be red. *)
Inductive hole : list crumb → bool → nat → Prop :=
  | hole_top n : hole [] false n
  | hole_red n side a sib cs : rb n sib → shade sib = BLACK → hole cs true n →
      hole (Crumb side RED a sib :: cs) false n
  | hole_black n side a sib cs any : rb n sib → hole cs any (S n) →
      hole (Crumb side BLACK a sib :: cs) true n.

#[export] Hint Constructors rb hole : neo.

Definition rbtree (T : tree) : Prop := shade T = BLACK ∧ ∃ n, rb n T.

Lemma rb_br_red n side u a v : rb n u → rb n v → shade u = BLACK → shade v = BLACK →
  rb n (br side RED u a v).
Proof. intros. destruct side; by constructor. Qed.

Lemma rb_br_black n side u a v : rb n u → rb n v → rb (S n) (br side BLACK u a v).
Proof. intros. destruct side; by constructor. Qed.

Lemma rb_br_red_inv n side u a v : rb n (br side RED u a v) →
  rb n u ∧ rb n v ∧ shade u = BLACK ∧ shade v = BLACK.
Proof. destruct side; inversion 1; auto. Qed.

Lemma shade_br side c u a v : shade (br side c u a v) = c.
Proof. by destruct side. Qed.

#[export] Hint Resolve rb_br_red rb_br_black : neo.
#[export] Hint Rewrite shade_br addr_br : neo.

Lemma rb_plug cs any n t : hole cs any n → rb n t → (any = true ∨ shade t = BLACK) →
  rbtree (plug cs t).
Proof.
  intros Hh. revert t. induction Hh as [n|n side a sib cs Hs Hc Hh IH|n side a sib cs any Hs Hh IH];
    intros t Ht Hc'; cbn.
  - destruct Hc' as [|Hc']; [done|]. split; [done|by exists n].
  - destruct Hc' as [|Hc']; [done|]. apply IH; [by apply rb_br_red|by left].
  - apply IH; [by apply rb_br_black|right; apply shade_br].
Qed.

Lemma red_br t : shade t = RED → ∃ l a r, t = Br RED l a r.
Proof. destruct t as [|[] l a r]; cbn; intros; [done..|eauto]. Qed.

(** ** Which child *)

Lemma br_negb side c u a v : br side c u a v = br (negb side) c v a u.
Proof. by destruct side. Qed.

(** The subtrees of a node are at different addresses. *)
Lemma children_ne s cs side c u a v : tree_ok s (plug cs (br side c u a v)) → u ≠ Leaf →
  addr u ≠ addr v.
Proof.
  intros Hok Hu. pose proof (tree_focus _ _ _ Hok) as [_ _ Hn _ _ Ha _].
  assert (Hin : addr u ∈ inorder (br side c u a v)).
  { rewrite inorder_br. apply addr_in in Hu. set_solver. }
  destruct (leaf_or v) as [->|Hv%addr_in].
  - apply Ha in Hin. cbn. unfold NIL_SYM. lia.
  - intros He. rewrite inorder_br in Hn. apply NoDup_cons in Hn as [_ (_ & Hd & _)%NoDup_app].
    apply (Hd (addr u)); [by apply addr_in|by rewrite He].
Qed.

(** [p == p->parent->left] tells on which side the path goes on. *)
Lemma is_left_child s cs side c u a v : tree_ok s (plug cs (br side c u a v)) → u ≠ Leaf →
  ∃ l, left_of a s = Ok l ∧ Nat.eqb (addr u) l = side.
Proof.
  intros Hok Hu. pose proof (children_ne _ _ _ _ _ _ _ Hok Hu) as Hne.
  destruct (reads_ok _ _ _ _ _ _ _ Hok) as (Hn & Hf & _). destruct side.
  - exists (addr u). split; [done|apply Nat.eqb_refl].
  - exists (addr v). split; [done|by apply Nat.eqb_neq].
Qed.

Lemma inorder_plug_eq cs t t' : inorder t = inorder t' → inorder (plug cs t) = inorder (plug cs t').
Proof. intros H. by rewrite !inorder_plug, H. Qed.

Lemma inorder_color cs side c c' u a v :
  inorder (plug cs (br side c u a v)) = inorder (plug cs (br side c' u a v)).
Proof. apply inorder_plug_eq. by destruct side. Qed.

(** ** Repairs *)

(** From [s] with the tree [T] to [s'] with [T']: the same symbols in the same
    order. *)
Record moves (s : store) (T : tree) (s' : store) (T' : tree) : Prop := {
  mv_ok : tree_ok s' T';
  mv_order : inorder T' = inorder T;
  mv_touch : touches (inorder T) s s'
}.

Lemma moves_refl s T : tree_ok s T → moves s T s T.
Proof. by split. Qed.

Lemma moves_trans s1 T1 s2 T2 s3 T3 :
  moves s1 T1 s2 T2 → moves s2 T2 s3 T3 → moves s1 T1 s3 T3.
Proof.
  intros [_ O1 M1] [K O2 M2]. split; [done|congruence|]. rewrite O1 in M2. by eapply touches_trans.
Qed.

Lemma set_color_moves s cs side c n a f c' : tree_ok s (plug cs (br side c n a f)) →
  ∃ s', set_color c' a s = Ok s' ∧
    moves s (plug cs (br side c n a f)) s' (plug cs (br side c' n a f)).
Proof.
  intros Hok. destruct (set_color_ok _ _ _ _ _ _ _ c' Hok) as (s' & E & Hok' & Ht & _).
  exists s'. split; [done|]. split; [done|apply inorder_color|done].
Qed.

Lemma rotate_moves side s cs c1 a x c2 b y d :
  tree_ok s (plug cs (br side c1 a x (br side c2 b y d))) →
  ∃ s', rotate side x s = Ok s' ∧
    moves s (plug cs (br side c1 a x (br side c2 b y d)))
          s' (plug cs (br side c2 (br side c1 a x b) y d)).
Proof.
  intros Hok. destruct (rotate_ok _ _ _ _ _ _ _ _ _ _ Hok) as (s' & E & Hok' & Ht).
  exists s'. split; [done|]. split; [done| |done]. apply inorder_plug_eq, inorder_rotate.
Qed.

(** Both red: parent and uncle turn black, the grandparent red. *)
Lemma recolor s cs side x p sib g ul ua ur side1 :
  let T := plug cs (br side BLACK (br side1 RED x p sib) g (Br RED ul ua ur)) in
  tree_ok s T →
  ∃ s1 s2 s3, set_color BLACK p s = Ok s1 ∧ set_color BLACK ua s1 = Ok s2 ∧
    set_color RED g s2 = Ok s3 ∧
    moves s T s3 (plug cs (br side RED (br side1 BLACK x p sib) g (Br BLACK ul ua ur))).
Proof.
  intros T Hok.
  destruct (set_color_moves s (Crumb side BLACK g (Br RED ul ua ur) :: cs) side1 RED x p sib BLACK Hok)
    as (s1 & E1 & M1).
  assert (Hok1 : tree_ok s1 (plug (Crumb (negb side) BLACK g (br side1 BLACK x p sib) :: cs)
    (br true RED ul ua ur))).
  { cbn. rewrite <- br_negb. apply (mv_ok _ _ _ _ M1). }
  destruct (set_color_moves s1 _ true RED ul ua ur BLACK Hok1) as (s2 & E2 & M2).
  assert (Hok2 : tree_ok s2 (plug cs (br side BLACK (br side1 BLACK x p sib) g (Br BLACK ul ua ur)))).
  { rewrite br_negb. apply (mv_ok _ _ _ _ M2). }
  destruct (set_color_moves s2 cs side BLACK _ g _ RED Hok2) as (s3 & E3 & M3).
  exists s1, s2, s3. split; [done|]. split; [done|]. split; [done|].
  eapply moves_trans; [exact M1|]. eapply moves_trans; [|exact M3].
  cbn in M2. rewrite <- !br_negb in M2. exact M2.
Qed.

(** The black uncle: the parent turns black, the grandparent red and sinks. *)
Lemma sink s cs side a x b p c g u :
  let T := plug cs (br side BLACK (br side RED (br side RED a x b) p c) g u) in
  let T' := plug cs (br side BLACK (br side RED a x b) p (br side RED c g u)) in
  tree_ok s T →
  ∃ s1 s2 s3, set_color BLACK p s = Ok s1 ∧ parent_of p s1 = Ok g ∧
    set_color RED g s1 = Ok s2 ∧ rotate (negb side) g s2 = Ok s3 ∧ moves s T s3 T'.
Proof.
  intros T T' Hok.
  destruct (set_color_moves s (Crumb side BLACK g u :: cs) side RED (br side RED a x b) p c BLACK Hok)
    as (s1 & E1 & M1).
  pose proof (reads_ok s1 (Crumb side BLACK g u :: cs) side _ _ _ _ (mv_ok _ _ _ _ M1))
    as (_ & _ & _ & Hp).
  destruct (set_color_moves s1 cs side BLACK _ g u RED (mv_ok _ _ _ _ M1)) as (s2 & E2 & M2).
  assert (Heq : plug cs (br side RED (br side BLACK (br side RED a x b) p c) g u) =
    plug cs (br (negb side) RED u g (br (negb side) BLACK c p (br side RED a x b)))).
  { f_equal. by destruct side. }
  rewrite Heq in M2.
  destruct (rotate_moves _ _ _ _ _ _ _ _ _ _ (mv_ok _ _ _ _ M2)) as (s3 & E3 & M3).
  exists s1, s2, s3. split; [done|]. split; [done|]. split; [done|]. split; [done|].
  eapply moves_trans; [exact M1|]. eapply moves_trans; [exact M2|].
  assert (Heq' : T' = plug cs (br (negb side) BLACK (br (negb side) RED u g c) p (br side RED a x b))).
  { unfold T'. f_equal. by destruct side. }
  by rewrite Heq'.
Qed.

(** An inner grandchild is first turned outwards. *)
Lemma turn_out s cs (side : bool) side1 l x r p sib :
  tree_ok s (plug cs (br side1 RED (Br RED l x r) p sib)) →
  ∃ inner : ptr, (if side then right_of else left_of) p s = Ok inner ∧
  ∃ (s' : store) (a : tree) (x' : ptr) (b : tree) (p' : ptr) (c : tree),
    (if Nat.eqb x inner then
       (s ← (if side then rotateLeft else rotateRight) p s; Ok (p, s))
     else Ok (x, s)) = Ok (x', s') ∧
    moves s (plug cs (br side1 RED (Br RED l x r) p sib))
          s' (plug cs (br side RED (br side RED a x' b) p' c)) ∧
    ∀ n, rb n l → rb n r → rb n sib → shade l = BLACK → shade r = BLACK → shade sib = BLACK →
      (rb n a ∧ shade a = BLACK) ∧ (rb n b ∧ shade b = BLACK) ∧ (rb n c ∧ shade c = BLACK).
Proof.
  intros Hok. destruct (reads_ok _ _ _ _ _ _ _ Hok) as (Hn & Hf & _).
  pose proof (children_ne _ _ _ _ _ _ _ Hok ltac:(done)) as Hne. cbn in Hne.
  destruct (decide (side1 = side)) as [->|Hs].
  - exists (addr sib). split; [done|]. rewrite (proj2 (Nat.eqb_neq _ _) Hne).
    exists s. destruct side.
    + exists l, x, r, p, sib. split; [done|]. split; [by apply moves_refl|auto].
    + exists r, x, l, p, sib. split; [done|]. split; [by apply moves_refl|auto].
  - assert (side1 = negb side) as -> by (by destruct side, side1). clear Hs.
    exists x. split; [by destruct side|]. rewrite Nat.eqb_refl.
    assert (Heq : plug cs (br (negb side) RED (Br RED l x r) p sib) =
      plug cs (br side RED sib p (br side RED (if side then l else r) x (if side then r else l)))).
    { f_equal. by destruct side. }
    rewrite Heq in *. destruct (rotate_moves _ _ _ _ _ _ _ _ _ _ Hok) as (s' & E & M).
    exists s', sib, p, (if side then l else r), x, (if side then r else l).
    split; [unfold rotate in E; by rewrite E|]. split; [exact M|]. destruct side; auto.
Qed.

Lemma insert_step_ok s cs side2 side1 l x r p sib g u n any :
  let T := plug cs (br side2 BLACK (br side1 RED (Br RED l x r) p sib) g u) in
  tree_ok s T → rb n l → rb n r → rb n sib → rb n u →
  shade l = BLACK → shade r = BLACK → shade sib = BLACK → hole cs any (S n) →
  ∃ x' s' cs' l' r' n' any', insert_step x p g side2 s = Ok (x', s') ∧
    moves s T s' (plug cs' (Br RED l' x' r')) ∧ length cs' ≤ S (length cs) ∧
    rb n' l' ∧ rb n' r' ∧ shade l' = BLACK ∧ shade r' = BLACK ∧ hole cs' any' n'.
Proof.
  intros T Hok Hl Hr Hsib Hu Cl Cr Csib Hh. unfold insert_step.
  destruct (reads_ok _ _ _ _ _ _ _ Hok) as (_ & Hunc & _). rewrite Hunc. cbn -[set_color].
  assert (Hcu : color_of (addr u) s = Ok (shade u)).
  { apply (shade_ok s (Crumb (negb side2) BLACK g (br side1 RED (Br RED l x r) p sib) :: cs)).
    cbn. by rewrite <- br_negb. }
  rewrite Hcu. cbn -[set_color]. destruct (decide (shade u = RED)) as [Eu|Eu].
  - destruct (red_br u Eu) as (ul & ua & ur & ->). inversion Hu as [|? ? ? ? Hul Hur _ _|]; subst.
    destruct (recolor s cs side2 _ p sib g ul ua ur side1 Hok) as (s1 & s2 & s3 & E1 & E2 & E3 & M).
    cbn [addr]. rewrite E1. cbn -[set_color]. rewrite E2. cbn -[set_color]. rewrite E3.
    destruct side2.
    + exists g, s3, cs, (br side1 BLACK (Br RED l x r) p sib), (Br BLACK ul ua ur), (S n), any.
      split; [done|]. split; [exact M|]. rewrite shade_br. split; [lia|]. auto 8 with neo.
    + exists g, s3, cs, (Br BLACK ul ua ur), (br side1 BLACK (Br RED l x r) p sib), (S n), any.
      split; [done|]. split; [exact M|]. rewrite shade_br. split; [lia|]. auto 8 with neo.
  - assert (Cu : shade u = BLACK) by (by destruct (shade u)).
    destruct (turn_out s (Crumb side2 BLACK g u :: cs) side2 _ _ _ _ _ _ Hok)
      as (inner & Hi & s1 & a & x' & b & p' & c & E1 & M1 & Hrb).
    rewrite Hi. cbn -[set_color]. rewrite E1. cbn -[set_color].
    destruct (Hrb n Hl Hr Hsib Cl Cr Csib) as ([Ha Ca] & [Hb Cb] & [Hc Cc]).
    destruct (reads_ok s1 (Crumb side2 RED p' c :: Crumb side2 BLACK g u :: cs) side2 _ _ _ _
      (mv_ok _ _ _ _ M1)) as (_ & _ & _ & Hp).
    rewrite Hp. cbn -[set_color].
    destruct (sink s1 cs side2 _ _ _ _ _ _ _ (mv_ok _ _ _ _ M1)) as (s2 & s3 & s4 & E2 & Hg & E3 & E4 & M2).
    rewrite E2. cbn -[set_color]. rewrite Hg. cbn -[set_color]. rewrite E3. cbn.
    assert (E4' : (if side2 then rotateRight else rotateLeft) g s3 = Ok s4) by (by destruct side2).
    rewrite E4'. cbn.
    exists x', s4, (Crumb side2 BLACK p' (br side2 RED c g u) :: cs),
      (if side2 then a else b), (if side2 then b else a), n, true.
    split; [done|]. split; [|split; [simpl; lia|]].
    { eapply moves_trans; [exact M1|]. cbn. destruct side2; exact M2. }
    destruct side2; eauto 9 with neo.
Qed.

(** ** The loop *)

Lemma root_in cs : ∀ t, cs ≠ [] → addr (plug cs t) ∈ before cs ++ behind cs.
Proof.
  induction cs as [|[side c a sib] cs IH]; intros t Hne; [done|].
  destruct cs as [|k cs].
  - destruct side; cbn; rewrite ?elem_of_app, ?elem_of_cons; tauto.
  - specialize (IH (br side c t a sib) ltac:(done)). cbn in IH |- *.
    rewrite elem_of_app in IH. destruct side; cbn; rewrite !elem_of_app, ?elem_of_cons, ?elem_of_app; tauto.
Qed.

(** A subtree at the end of a path is not the root. *)
Lemma not_root s cs t : tree_ok s (plug cs t) → cs ≠ [] → addr t ≠ root s.
Proof.
  intros Hok Hne. rewrite (ok_root _ _ Hok). pose proof (root_in cs t Hne) as Hin.
  pose proof (tree_focus _ _ _ Hok) as [_ _ _ _ Hd _ Ha']. destruct (leaf_or t) as [->|Ht%addr_in].
  - apply Ha' in Hin. cbn. unfold NIL_SYM. lia.
  - intros He. apply (Hd _ Ht). by rewrite He.
Qed.

Lemma length_path cs t : length cs ≤ length (inorder (plug cs t)).
Proof.
  rewrite inorder_plug, !length_app. assert (length cs ≤ length (before cs) + length (behind cs)).
  { induction cs as [|[[] c a sib] cs IH]; cbn; rewrite ?length_app; cbn; lia. }
  lia.
Qed.

Lemma repr_dom h p t : repr h p t → ∀ a, a ∈ inorder t → a ∈ dom h.
Proof.
  revert p. induction t as [|c l IHl a r IHr]; intros p Hr q Hq; cbn in *; [set_solver|].
  destruct Hr as ((d & Hd) & Hl & Hr). apply elem_of_app in Hq as [Hq|[->|Hq]%elem_of_cons]; eauto.
  by eapply elem_of_dom_2.
Qed.

(** The loops run at most once for every symbol. *)
Lemma size_enough s T : tree_ok s T → length (inorder T) ≤ size (heap s).
Proof.
  intros Hok. rewrite <- size_dom, <- (size_list_to_set (C := gset ptr)) by apply Hok.
  apply subseteq_size. intros a Ha%elem_of_list_to_set. eapply repr_dom; [apply Hok|done].
Qed.

Definition red_root (T : tree) : Prop :=
  ∃ c l a r n, T = Br c l a r ∧ rb n l ∧ rb n r.

Lemma rb_red_root n T : rb n T → T ≠ Leaf → red_root T.
Proof. destruct 1; [done|..]; intros _; unfold red_root; eauto 10. Qed.

Lemma insertFixup_loop_ok fuel : ∀ s cs l x r n any, length cs < fuel →
  tree_ok s (plug cs (Br RED l x r)) → rb n l → rb n r → shade l = BLACK → shade r = BLACK →
  hole cs any n →
  ∃ s' T', insertFixup_loop fuel x s = Ok s' ∧ moves s (plug cs (Br RED l x r)) s' T' ∧ red_root T'.
Proof.
  induction fuel as [|fuel IH]; intros s cs l x r n any Hf Hok Hl Hr Cl Cr Hh; [lia|].
  cbn [insertFixup_loop]. destruct Hh as [n|n side1 p sib cs Hsib Csib Hh|n side1 p sib cs any Hsib Hh].
  - rewrite (ok_root _ _ Hok). cbn. rewrite Nat.eqb_refl. exists s, (Br RED l x r).
    split; [done|]. split; [by apply moves_refl|]. by exists RED, l, x, r, n.
  - pose proof (not_root _ _ _ Hok ltac:(done)) as Hne. cbn in Hne.
    rewrite (proj2 (Nat.eqb_neq _ _) Hne).
    assert (Hxp : parent_of x s = Ok p) by
      (by apply (parent_ok s (Crumb side1 RED p sib :: cs) (Br RED l x r) Hok)).
    rewrite Hxp. cbn -[insert_step].
    destruct (reads_ok s cs side1 RED (Br RED l x r) p sib Hok) as (_ & _ & Hc & Hp).
    rewrite Hc. cbn -[insert_step]. rewrite Hp. inversion Hh as [| |? side2 g u cs' any2 Hu Hh']; subst.
    cbn -[insert_step].
    destruct (is_left_child s cs' side2 BLACK (br side1 RED (Br RED l x r) p sib) g u Hok) as (lg & Hlg & He).
    { by destruct side1. }
    rewrite addr_br in He. rewrite Hlg. cbn -[insert_step]. rewrite He.
    destruct (insert_step_ok s cs' side2 side1 l x r p sib g u n any2 Hok Hl Hr Hsib Hu Cl Cr Csib Hh')
      as (x' & s' & cs'' & l' & r' & n' & any' & E & M & Hlen & Hl' & Hr' & Cl' & Cr' & Hh'').
    rewrite E. cbn -[insert_step].
    destruct (IH s' cs'' l' x' r' n' any') as (s2 & T2 & E2 & M2 & R2); try done.
    { simpl in Hf. lia. }
    { apply M. }
    exists s2, T2. split; [done|]. split; [by eapply moves_trans|done].
  - pose proof (not_root _ _ _ Hok ltac:(done)) as Hne. cbn in Hne.
    rewrite (proj2 (Nat.eqb_neq _ _) Hne).
    assert (Hxp : parent_of x s = Ok p) by
      (by apply (parent_ok s (Crumb side1 BLACK p sib :: cs) (Br RED l x r) Hok)).
    rewrite Hxp. cbn -[insert_step].
    destruct (reads_ok s cs side1 BLACK (Br RED l x r) p sib Hok) as (_ & _ & Hc & Hp).
    rewrite Hc. cbn. exists s. eexists. split; [done|]. split; [by apply moves_refl|].
    assert (Hrb : rb n (Br RED l x r)) by by constructor.
    destruct (rb_plug cs any (S n) (br side1 BLACK (Br RED l x r) p sib) Hh) as (_ & m & Hm).
    { by apply rb_br_black. }
    { right. apply shade_br. }
    apply (rb_red_root _ _ Hm). intros He. pose proof (length_path (Crumb side1 BLACK p sib :: cs)
      (Br RED l x r)) as Hlp. cbn in Hlp. unfold plug in He, Hlp. rewrite He in Hlp. cbn in Hlp. lia.
Qed.

(** [insertFixup] restores the red-black conditions. *)
Lemma insertFixup_ok s cs l x r n any : tree_ok s (plug cs (Br RED l x r)) →
  rb n l → rb n r → shade l = BLACK → shade r = BLACK → hole cs any n →
  ∃ s' T', insertFixup x s = Ok s' ∧ moves s (plug cs (Br RED l x r)) s' T' ∧ rbtree T'.
Proof.
  intros Hok Hl Hr Cl Cr Hh. unfold insertFixup.
  destruct (insertFixup_loop_ok (S (size (heap s))) s cs l x r n any) as (s1 & T1 & E1 & M1 & R1); try done.
  { pose proof (size_enough _ _ Hok). pose proof (length_path cs (Br RED l x r)). lia. }
  destruct R1 as (c & l1 & a & r1 & m & -> & Hl1 & Hr1).
  destruct (set_color_moves s1 [] true c l1 a r1 BLACK (mv_ok _ _ _ _ M1)) as (s2 & E2 & M2).
  rewrite E1. cbn -[set_color]. rewrite (ok_root _ _ (mv_ok _ _ _ _ M1)). cbn -[set_color]. rewrite E2.
  exists s2, (Br BLACK l1 a r1). split; [done|]. split; [by eapply moves_trans|].
  split; [done|]. exists (S m). by constructor.
Qed.
