(* ===== verification/Symfind.v ===== *)
(** * Finding and inserting symbols (src/nl-symbol.c, [findInsertSymbol])

    The names along the tree are strictly increasing.  The descent finds the
    symbol of a name or the place where it belongs, and an insertion leaves a
    red-black tree with the new symbol at that place. *)

From stdpp Require Import base list numbers tactics strings gmap sorting.
From Stdlib Require Import ZArith Lia Ascii Sorting.Sorted.
From S2P Require Import Prelude Cell Fragment Order Symtree Redblack Insertion.

#[global] Open Scope nat_scope.
#[local] Set Warnings "-clear-no-such-hyp".

(** ** The order of names *)

Lemma strcmp_cases a b : strcmp a b = 0%Z ∨ strcmp a b = 1%Z ∨ strcmp a b = (-1)%Z.
Proof.
  revert b. induction a as [|x a IH]; intros [|y b]; cbn [strcmp]; auto.
  repeat case_match; auto.
Qed.

Lemma strcmp_eq a b : strcmp a b = 0%Z ↔ a = b.
Proof.
  split; [|intros ->; apply strcmp_refl]. revert b.
  induction a as [|x a IH]; intros [|y b]; cbn [strcmp]; [done..|].
  destruct (Z.ltb_spec (Z.of_nat (nat_of_ascii x)) (Z.of_nat (nat_of_ascii y))); [done|].
  destruct (Z.ltb_spec (Z.of_nat (nat_of_ascii y)) (Z.of_nat (nat_of_ascii x))); [done|].
  intros ->%IH. f_equal. rewrite <- (ascii_nat_embedding x), <- (ascii_nat_embedding y).
  f_equal. lia.
Qed.

Lemma strcmp_trans a b c : (strcmp a b < 0)%Z → (strcmp b c < 0)%Z → (strcmp a c < 0)%Z.
Proof.
  revert b c. induction a as [|x a IH]; intros [|y b] [|z c]; cbn [strcmp]; try lia.
  repeat match goal with |- context [Z.ltb ?u ?v] => destruct (Z.ltb_spec u v) end; try lia.
  apply IH.
Qed.

(** [str2cmp] decides as [strcmp] when it decides at all. *)
Lemma str2cmp_strcmp a b : a ≠ EmptyString → b ≠ EmptyString →
  ∃ c, str2cmp a b = Ok c ∧ (c < 0 → strcmp a b < 0)%Z ∧ (0 < c → 0 < strcmp a b)%Z.
Proof.
  assert (Hc : ∀ x : ascii, (0 ≤ Z.of_nat (nat_of_ascii x) < 2 ^ 8)%Z).
  { intros x. pose proof (nat_ascii_bounded x). lia. }
  destruct a as [|x a]; [done|]. destruct b as [|y b]; [done|]. intros _ _.
  unfold str2cmp. pose proof (Hc x). pose proof (Hc y).
  destruct a as [|x' a], b as [|y' b]; cbn -[Z.lor Z.shiftl strcmp]; eexists; (split; [reflexivity|]);
    try pose proof (Hc x'); try pose proof (Hc y');
    rewrite !lor_pack by lia; cbn [strcmp];
    repeat match goal with |- context [Z.ltb ?u ?v] => destruct (Z.ltb_spec u v) end; lia.
Qed.

(** ** Names along the tree *)

Definition name_in (s : store) (a : ptr) : string :=
  match heap s !! a with Some n => default EmptyString (pl_name (n_data n)) | None => EmptyString end.

Definition before_name (k1 k2 : string) : Prop := (strcmp k1 k2 < 0)%Z.

#[export] Instance before_name_trans : Transitive before_name.
Proof. intros a b c. apply strcmp_trans. Qed.

(** The names are there, not empty, and increase. *)
Record named (s : store) (T : tree) : Prop := {
  na_nonempty : ∀ a, a ∈ inorder T → name_in s a ≠ EmptyString;
  na_sorted : StronglySorted (λ a b, before_name (name_in s a) (name_in s b)) (inorder T)
}.

Lemma name_of_ok s a : name_in s a ≠ EmptyString → name_of a s = Ok (name_in s a).
Proof.
  unfold name_in, name_of, field. destruct (heap s !! a) as [n|]; [|done]. cbn.
  by destruct (pl_name (n_data n)).
Qed.

Lemma key_cmp_ok s a key : key ≠ EmptyString → name_in s a ≠ EmptyString →
  ∃ c, key_cmp key a s = Ok c ∧ (c < 0 ↔ before_name key (name_in s a))%Z ∧
    (c = 0%Z ↔ key = name_in s a).
Proof.
  intros Hk Hn. unfold key_cmp. rewrite (name_of_ok _ _ Hn). cbn -[str2cmp].
  destruct (str2cmp_strcmp _ _ Hk Hn) as (c & -> & H1 & H2). cbn. eexists. split; [done|].
  unfold before_name. rewrite <- strcmp_eq. destruct (Z.eqb_spec c 0); [done|].
  pose proof (strcmp_cases key (name_in s a)). lia.
Qed.

(** Two different names are ordered one way or the other. *)
Lemma name_total a b : a ≠ b → ¬ before_name a b → before_name b a.
Proof.
  unfold before_name. intros Hne Hn. rewrite strcmp_antisym. rewrite <- strcmp_eq in Hne. lia.
Qed.

(** ** The descent *)

Section Descent.
Variables (s : store) (key : string).
Hypothesis key_ok : key ≠ EmptyString.

(** The key belongs at the end of the path. *)
Definition belongs (cs : list crumb) : Prop :=
  (∀ a, a ∈ before cs → before_name (name_in s a) key) ∧
  (∀ a, a ∈ behind cs → before_name key (name_in s a)).

Lemma find_loop_ok fuel : ∀ t cs, length (inorder t) < fuel → tree_ok s (plug cs t) →
  named s (plug cs t) → belongs cs →
  (∃ a, a ∈ inorder t ∧ name_in s a = key ∧ find_loop fuel key (addr t) (par cs) s = Ok (inl a)) ∨
  (∃ cs', plug cs' Leaf = plug cs t ∧ belongs cs' ∧
    find_loop fuel key (addr t) (par cs) s = Ok (inr (par cs'))).
Proof using key_ok.
  induction fuel as [|fuel IH]; intros t cs Hf Hok Hna Hb; [lia|]. destruct t as [|c l a r].
  { right. by exists cs. }
  assert (Hin : ∀ x, x ∈ inorder (Br c l a r) → x ∈ inorder (plug cs (Br c l a r))).
  { intros x Hx. rewrite inorder_plug. set_solver. }
  assert (Ha : 2 ≤ a).
  { pose proof (tree_focus _ _ _ Hok) as [_ _ _ _ _ Ha _]. apply Ha. cbn. set_solver. }
  cbn [addr find_loop]. rewrite (proj2 (Nat.eqb_neq _ _)) by (unfold NIL_SYM; lia).
  destruct (key_cmp_ok s a key key_ok) as (cmp & Hcmp & Hlt & Heq).
  { apply (na_nonempty _ _ Hna), Hin. cbn. set_solver. }
  rewrite Hcmp. cbn [mbind result_bind]. destruct (Z.eqb_spec cmp 0) as [Ez|Ez].
  { left. exists a. split; [cbn; set_solver|]. split; [symmetry; by apply Heq|done]. }
  pose proof (na_sorted _ _ Hna) as Hs. rewrite inorder_plug in Hs. cbn [inorder] in Hs.
  rewrite !StronglySorted_app, StronglySorted_cons, Forall_forall in Hs.
  destruct Hs as (_ & _ & _ & (Hla & _ & Har & _) & _). destruct Hb as [Hb1 Hb2].
  destruct (reads_ok s cs true c l a r Hok) as (Hl & Hr & _).
  cbn [inorder] in Hf. rewrite length_app in Hf. cbn [length] in Hf.
  set (side := (cmp <? 0)%Z). assert (Hb' : belongs (Crumb side c a (if side then r else l) :: cs)).
  { unfold side. destruct (Z.ltb_spec cmp 0) as [Hc|Hc].
    - apply Hlt in Hc. split; [exact Hb1|]. intros x Hx. cbn in Hx.
      apply elem_of_cons in Hx as [->|[Hx|Hx]%elem_of_app]; [done| |by apply Hb2].
      etrans; [exact Hc|by apply Har].
    - assert (Hc' : before_name (name_in s a) key).
      { apply name_total; [by rewrite <- Heq|]. rewrite <- Hlt. lia. }
      split; [|exact Hb2]. intros x Hx. cbn in Hx.
      rewrite !elem_of_app, list_elem_of_singleton in Hx. destruct Hx as [Hx|[Hx| ->]]; [by apply Hb1| |done].
      etrans; [|exact Hc']. apply Hla; [done|by left]. }
  assert (Hplug : plug (Crumb side c a (if side then r else l) :: cs) (if side then l else r) =
    plug cs (Br c l a r)) by (by destruct side).
  destruct (IH (if side then l else r) (Crumb side c a (if side then r else l) :: cs)) as
    [(x & Hx & Hn & E)|(cs' & Hp & Hb'' & E)]; rewrite ?Hplug; try done.
  { destruct side; lia. }
  - left. exists x. split; [|split; [done|]].
    + destruct side; cbn; set_solver.
    + destruct side; [rewrite Hl|rewrite Hr]; exact E.
  - right. exists cs'. split; [by rewrite Hp|]. split; [done|].
    destruct side; [rewrite Hl|rewrite Hr]; exact E.
Qed.

End Descent.

(** ** Linking a new symbol *)

(** An empty tree may also be a NULL root. *)
Definition norm (s : store) : store := if Nat.eqb (root s) NULL then set_root NIL_SYM s else s.

Record symbols_ok (s : store) (T : tree) : Prop := {
  so_tree : tree_ok (norm s) T;
  so_rb : rbtree T;
  so_named : named s T
}.

Lemma norm_heap s : heap (norm s) = heap s.
Proof. unfold norm. by destruct (Nat.eqb _ _). Qed.

Lemma norm_next s : next (norm s) = next s.
Proof. unfold norm. by destruct (Nat.eqb _ _). Qed.

Lemma tree_root_null s T : tree_ok s T → root s ≠ NULL.
Proof.
  intros Hok. rewrite (ok_root _ _ Hok). destruct (leaf_or T) as [->|Ht%addr_in]; [done|].
  apply (ok_addrs _ _ Hok) in Ht. unfold NULL. lia.
Qed.

Lemma norm_id s T : tree_ok s T → norm s = s.
Proof. intros Hok%tree_root_null. unfold norm. by rewrite (proj2 (Nat.eqb_neq _ _) Hok). Qed.

(** What an insertion leaves alone. *)
Record grows (x : ptr) (A : list ptr) (s s' : store) : Prop := {
  gr_new : heap s !! x = None;
  gr_data : ∀ p, p ≠ x → n_data <$> heap s' !! p = n_data <$> heap s !! p;
  gr_out : ∀ p, p ∉ A → p ≠ x → heap s' !! p = heap s !! p;
  gr_empty : n_data <$> heap s' !! x = Some empty_payload;
  gr_next : next s' = S (next s);
  gr_x : x = next s
}.

(** The parent takes the new symbol on the side of the path. *)
Lemma link_side s key (side : bool) p x : key ≠ EmptyString → name_in s p ≠ EmptyString → p ≠ NULL →
  (if side then before_name key (name_in s p) else before_name (name_in s p) key) →
  link_symbol key p x s = (if side then set_left x p s else set_right x p s).
Proof.
  intros Hk Hn Hp Hb. unfold link_symbol. rewrite (proj2 (Nat.eqb_neq _ _) Hp).
  rewrite (name_of_ok _ _ Hn). cbn -[str2cmp set_left set_right].
  destruct (str2cmp_strcmp _ _ Hk Hn) as (c & -> & H1 & H2). cbn -[set_left set_right].
  unfold before_name in Hb. destruct side; [|rewrite strcmp_antisym in Hb];
    destruct (Z.ltb_spec c 0), (Z.ltb_spec 0 c); try done; try lia;
    destruct (Z.ltb_spec (strcmp key (name_in s p)) 0); done || lia.
Qed.

(** The new symbol hangs at the end of the path. *)
Record attached (s : store) (cs : list crumb) (s' : store) : Prop := {
  at_new : heap s' !! next s = Some (Node RED (par cs) NIL_SYM NIL_SYM empty_payload);
  at_path : path (heap s') cs (next s);
  at_data : ∀ q, q ≠ next s → n_data <$> heap s' !! q = n_data <$> heap s !! q;
  at_out : ∀ q, q ≠ next s → q ∉ before cs ++ behind cs → heap s' !! q = heap s !! q;
  at_root : root s' = (if cs is [] then next s else root s);
  at_next : next s' = S (next s);
  at_count : symbolCount s' = symbolCount s
}.

Section Attach.
Variables (s : store) (cs : list crumb).
Hypothesis Hok : tree_ok (norm s) (plug cs Leaf).

Lemma next_fresh : heap s !! next s = None ∧ 2 ≤ next s ∧ next s ∉ before cs ++ behind cs.
Proof using Hok.
  split; [|split].
  - destruct (heap s !! next s) as [n|] eqn:E; [|done]. rewrite <- norm_heap in E.
    apply (ok_heap _ _ Hok) in E. rewrite norm_next in E. lia.
  - destruct (ok_nil _ _ Hok) as (n & E & _). apply (ok_heap _ _ Hok) in E.
    rewrite norm_next in E. unfold NIL_SYM in E. lia.
  - intros Hin%(fo_addrs' _ _ _ (tree_focus _ _ _ Hok)). rewrite norm_next in Hin. lia.
Qed.

Lemma norm_root : cs ≠ [] → norm s = s.
Proof using Hok.
  intros Hne. unfold norm. destruct (Nat.eqb_spec (root s) NULL) as [E0|]; [|done]. exfalso.
  pose proof (root_in cs Leaf Hne) as Hin. apply (fo_addrs' _ _ _ (tree_focus _ _ _ Hok)) in Hin.
  rewrite <- (ok_root _ _ Hok) in Hin. unfold norm in Hin. rewrite E0 in Hin. cbn in Hin.
  unfold NIL_SYM in Hin. lia.
Qed.

Lemma attached_tree s' : attached s cs s' → tree_ok s' (plug cs (Br RED Leaf (next s) Leaf)).
Proof using Hok.
  intros [Hnew Hp' Hdata Hout Hroot Hnext _]. pose proof next_fresh as (Hx & Hx2 & Hxin).
  pose proof (tree_focus _ _ _ Hok) as [_ _ _ Hn _ _ Ha]. rewrite norm_next in Ha.
  assert (Hi : inorder (plug cs (Br RED Leaf (next s) Leaf)) ≡ₚ next s :: before cs ++ behind cs).
  { rewrite inorder_plug. cbn. by rewrite <- Permutation_middle. }
  split.
  - rewrite Hroot. assert (Hc : cs = [] ∨ cs ≠ []) by (destruct cs; auto).
    destruct Hc as [->|Hne]; [done|].
    rewrite <- (addr_plug cs Leaf (Br RED Leaf (next s) Leaf)), <- (ok_root _ _ Hok) by done.
    rewrite norm_root by done. clear - Hne. by destruct cs.
  - apply repr_plug. split; [|done]. cbn. split; [by eexists|done].
  - rewrite Hi. by apply NoDup_cons.
  - intros q Hq. rewrite Hi in Hq. rewrite Hnext. apply elem_of_cons in Hq as [->|Hq%Ha]; lia.
  - intros q n Hq. rewrite Hnext. destruct (decide (q = next s)) as [->|Hqx]; [lia|].
    specialize (Hdata q Hqx). rewrite Hq in Hdata. cbn in Hdata.
    destruct (heap s !! q) as [n'|] eqn:E'; [|done]. rewrite <- norm_heap in E'.
    apply (ok_heap _ _ Hok) in E'. rewrite norm_next in E'. lia.
  - rewrite Hout; [rewrite <- norm_heap; apply (ok_nil _ _ Hok)|unfold NIL_SYM; lia|].
    intros Hin%Ha. unfold NIL_SYM in Hin. lia.
Qed.

Lemma attached_grows s' : attached s cs s' → grows (next s) (inorder (plug cs Leaf)) s s'.
Proof using Hok.
  intros [Hnew Hp' Hdata Hout Hroot Hnext _]. pose proof next_fresh as (Hx & _ & _).
  split; try done; [|by rewrite Hnew]. intros q Hq Hqx. rewrite inorder_plug in Hq. by apply Hout.
Qed.

Lemma link_attached key : named s (plug cs Leaf) → belongs s key cs → key ≠ EmptyString →
  ∃ s', link_symbol key (par cs) (next s) (snd (new_symbol (par cs) s)) = Ok s' ∧ attached s cs s'.
Proof using Hok.
  intros Hna [Hb1 Hb2] Hk. pose proof next_fresh as (Hx & Hx2 & Hxin).
  pose proof (tree_focus _ _ _ Hok) as [_ Hp _ Hn _ _ Ha]. rewrite norm_heap in Hp.
  destruct cs as [|[side c p sib] cs'].
  { unfold link_symbol. cbn [par]. rewrite Nat.eqb_refl. eexists. split; [reflexivity|]. split; cbn; try done.
    - by rewrite lookup_insert_eq.
    - intros q Hq. by rewrite lookup_insert_ne.
    - intros q Hq _. by rewrite lookup_insert_ne. }
  assert (Hpin : p ∈ before (Crumb side c p sib :: cs') ++ behind (Crumb side c p sib :: cs'))
    by (apply (par_in (Crumb side c p sib :: cs')); done).
  assert (Hpx : p ≠ next s) by (intros ->; done).
  destruct Hp as ((d & Hnp) & Hsib & Hp). set (s1 := snd (new_symbol p s)).
  assert (Hs1 : heap s1 = <[next s := Node RED p NIL_SYM NIL_SYM empty_payload]> (heap s)) by done.
  assert (Hnp1 : heap s1 !! p = Some (mk side c (par cs') NIL_SYM (addr sib) d)).
  { rewrite Hs1. by rewrite lookup_insert_ne. }
  assert (Hname : name_in s1 p = name_in s p).
  { unfold name_in. rewrite Hs1. by rewrite lookup_insert_ne. }
  cbn [par]. fold s1. rewrite (link_side s1 key side p (next s) Hk); rewrite ?Hname.
  2:{ apply (na_nonempty _ _ Hna). rewrite inorder_plug. exact Hpin. }
  2:{ apply Ha in Hpin. unfold NULL. lia. }
  2:{ destruct side; [apply Hb2|apply Hb1]; cbn; set_solver. }
  assert (E : (if side then set_left (next s) p s1 else set_right (next s) p s1) =
    Ok (with_heap (<[p := mk side c (par cs') (next s) (addr sib) d]> (heap s1)) s1)).
  { destruct side; unfold set_left, set_right; by rewrite (update_ok _ _ _ _ Hnp1). }
  rewrite E. eexists. split; [reflexivity|].
  assert (Hlook : ∀ q, q ≠ next s → q ≠ p → <[p := mk side c (par cs') (next s) (addr sib) d]>
    (<[next s := Node RED p NIL_SYM NIL_SYM empty_payload]> (heap s)) !! q = heap s !! q).
  { intros q Hq1 Hq2. by rewrite !lookup_insert_ne by done. }
  split; cbn [heap with_heap root next symbolCount par]; rewrite ?Hs1; try done.
  - by rewrite lookup_insert_ne, lookup_insert_eq by done.
  - apply (path_child (heap s) _ _ NIL_SYM); [done|cbn; eauto| |].
    + intros q Hq Hqp. apply Hlook; [|done]. intros ->. done.
    + intros sd c' p' sib' cs'' d' [= <- <- <- <- <-] Hl. rewrite Hl in Hnp.
      rewrite lookup_insert_eq. destruct side; cbn in *; congruence.
  - intros q Hq. destruct (decide (q = p)) as [->|]; [|by rewrite Hlook].
    rewrite lookup_insert_eq, Hnp. by destruct side.
  - intros q Hq Hqn. apply Hlook; [done|]. intros ->. done.
Qed.

End Attach.

(** ** findInsertSymbol *)

(** The descent from the root. *)
Lemma search_tree_ok s T key : symbols_ok s T → key ≠ EmptyString →
  (∃ a, a ∈ inorder T ∧ name_in s a = key ∧ search_tree key s = Ok (inl a)) ∨
  (∃ cs, T = plug cs Leaf ∧ belongs s key cs ∧ search_tree key s = Ok (inr (par cs))).
Proof.
  intros [Hok Hrb Hna] Hk. unfold search_tree. unfold norm in Hok.
  destruct (Nat.eqb_spec (root s) NULL) as [E|E].
  - right. assert (T = Leaf) as ->.
    { destruct (leaf_or T) as [|Ht%addr_in]; [done|]. pose proof (ok_addrs _ _ Hok _ Ht) as H2.
      rewrite <- (ok_root _ _ Hok) in H2. cbn in H2. unfold NIL_SYM in H2. lia. }
    exists []. split; [done|]. split; [split; intros ? []%not_elem_of_nil|]. done.
  - destruct (find_loop_ok s key Hk (S (size (heap s))) T []) as [?|(cs & Hp & Hb & Hf)];
      [pose proof (size_enough _ _ Hok); lia|done|done| | |].
    { split; intros ? []%not_elem_of_nil. }
    { left. by rewrite (ok_root _ _ Hok). }
    { right. exists cs. split; [by rewrite Hp|]. split; [done|]. by rewrite (ok_root _ _ Hok). }
Qed.

Lemma br_shapes n side c t a sib : rb n (br side c t a sib) →
  ∃ m, rb m t ∧ rb m sib ∧
    match c with
    | RED => n = m ∧ shade t = BLACK ∧ shade sib = BLACK
    | BLACK => n = S m
    end.
Proof. destruct side; inversion 1; subst; eauto 10. Qed.

(** A red-black tree around any of its subtrees. *)
Lemma rb_unplug cs : ∀ t, rbtree (plug cs t) →
  ∃ n any, rb n t ∧ hole cs any n ∧ (any = true ∨ shade t = BLACK).
Proof.
  induction cs as [|[side c a sib] cs IH]; intros t Ht.
  - destruct Ht as (Hc & n & Hn). exists n, false. auto with neo.
  - destruct (IH (br side c t a sib) Ht) as (n & any & Hn & Hh & Hany).
    rewrite shade_br in Hany. destruct (br_shapes _ _ _ _ _ _ Hn) as (m & Hm & Hsib & Hc). destruct c.
    + subst n. exists m, true. eauto with neo.
    + destruct Hc as (-> & Ct & Cs). destruct Hany as [->|]; [|done]. exists m, false. eauto with neo.
Qed.

(** What [findInsertSymbol] does to a tree of symbols. *)
Lemma findInsertSymbol_ok s T key force : symbols_ok s T → key ≠ EmptyString →
  (∃ a, a ∈ inorder T ∧ name_in s a = key ∧ findInsertSymbol key force s = Ok (a, s)) ∨
  (∃ cs, T = plug cs Leaf ∧ belongs s key cs ∧
    if force then
      ∃ s' T', findInsertSymbol key true s = Ok (next s, s') ∧ tree_ok s' T' ∧ rbtree T' ∧
        inorder T' = before cs ++ next s :: behind cs ∧ grows (next s) (inorder T) s s' ∧
        symbolCount s' = (symbolCount s + 1)%Z
    else findInsertSymbol key false s = Ok (NULL, s)).
Proof.
  intros Hs Hk. pose proof Hs as [Hok Hrb Hna]. unfold findInsertSymbol.
  destruct (search_tree_ok s T key Hs Hk) as [(a & Ha & Hn & ->)|(cs & -> & Hb & ->)]; [by left; eauto|].
  right. exists cs. split; [done|]. split; [done|]. destruct force; [|done].
  cbn [mbind result_bind]. pose proof (link_attached s cs Hok key Hna Hb Hk) as (s1 & E1 & Hat).
  destruct (new_symbol (par cs) s) as [x s0] eqn:En. injection En as <- <-. cbn [snd] in E1.
  rewrite E1. cbn -[insertFixup].
  destruct (rb_unplug cs Leaf Hrb) as (n & any & Hl & Hh & _).
  destruct (insertFixup_ok s1 cs Leaf (next s) Leaf n any) as (s2 & T2 & E2 & M2 & R2); try done.
  { by apply attached_tree. }
  rewrite E2. cbn. eexists _, T2. split; [reflexivity|]. destruct M2 as [[K1 K2 K3 K4 K5 K6] O2 Ht].
  split; [by split|]. split; [done|]. split; [by rewrite O2, inorder_plug|].
  pose proof (attached_grows s cs Hok s1 Hat) as [G1 G2 G3 G4 G5 G6].
  destruct Ht as [t1 t2 t3 t4]. split; [|by rewrite t4, (at_count _ _ _ Hat)].
  split; cbn; try done.
  - intros p Hp. by rewrite t1, G2.
  - intros p Hp Hpx. rewrite t2, G3; [done..|]. rewrite inorder_plug in *. cbn. set_solver.
  - by rewrite t1.
  - by rewrite t3.
Qed.
