(* ===== verification/Deletion.v ===== *)
(** * Deletion from the symbol tree (src/nl-symbol.c, [deleteSymbol])

    The repair [deleteFixup]: a subtree that lacks one black node moves up the
    path until a recoloring or a rotation makes up for it.  The subtree may be
    the sentinel, whose parent link then stands for the place in the tree. *)

From stdpp Require Import base list numbers tactics strings gmap sorting.
From Stdlib Require Import ZArith Lia.
From S2P Require Import Prelude Cell Symtree Redblack Insertion Symfind.

#[global] Open Scope nat_scope.
#[local] Set Warnings "-clear-no-such-hyp".

(** ** The place of the repair *)

Record deleting (s : store) (cs : list crumb) (t : tree) : Prop := {
  de_tree : tree_ok s (plug cs t);
  de_parent : parent_of (addr t) s = Ok (par cs)
}.

Lemma nil_not_in s T : tree_ok s T → NIL_SYM ∉ inorder T.
Proof. intros Hok Hin%(ok_addrs _ _ Hok). unfold NIL_SYM in Hin. lia. Qed.

(** The repair moves nodes around the subtree but not its parent. *)
Lemma deleting_moves s cs t s' cs' : deleting s cs t → moves s (plug cs t) s' (plug cs' t) →
  par cs' = par cs → deleting s' cs' t.
Proof.
  intros [Hok Hp] [Hok' _ Ht] He. split; [done|]. destruct (leaf_or t) as [->|Hne].
  - rewrite He, <- Hp. unfold field. cbn [addr]. by rewrite (to_out _ _ _ Ht) by by eapply nil_not_in.
  - by apply (parent_ok s').
Qed.

(** A subtree of black height [n] after its root is colored black has one more. *)
Definition deficient (n : nat) (t : tree) : Prop :=
  match t with
  | Br RED l a r => rb n l ∧ rb n r
  | _ => rb n t
  end.

(** ** The sibling *)

(** A red sibling is rotated above the parent. *)
Lemma red_sibling s cs (side : bool) t p wn wa wf :
  deleting s (Crumb side BLACK p (br side RED wn wa wf) :: cs) t →
  ∃ s1 s2 s3, set_color BLACK wa s = Ok s1 ∧ parent_of (addr t) s1 = Ok p ∧
    set_color RED p s1 = Ok s2 ∧ parent_of (addr t) s2 = Ok p ∧ rotate side p s2 = Ok s3 ∧
    deleting s3 (Crumb side RED p wn :: Crumb side BLACK wa wf :: cs) t ∧
    moves s (plug (Crumb side BLACK p (br side RED wn wa wf) :: cs) t)
          s3 (plug (Crumb side RED p wn :: Crumb side BLACK wa wf :: cs) t).
Proof.
  intros Hd. pose proof (de_tree _ _ _ Hd) as Hok. cbn in Hok. rewrite br_negb in Hok.
  destruct (set_color_moves s (Crumb (negb side) BLACK p t :: cs) side RED wn wa wf BLACK Hok)
    as (s1 & E1 & M1).
  assert (M1' : moves s (plug (Crumb side BLACK p (br side RED wn wa wf) :: cs) t)
    s1 (plug (Crumb side BLACK p (br side BLACK wn wa wf) :: cs) t)).
  { cbn. rewrite !(br_negb side BLACK t p). exact M1. }
  pose proof (deleting_moves _ _ _ _ _ Hd M1' eq_refl) as Hd1.
  destruct (set_color_moves s1 cs side BLACK t p (br side BLACK wn wa wf) RED (mv_ok _ _ _ _ M1'))
    as (s2 & E2 & M2).
  pose proof (deleting_moves s1 _ t s2 (Crumb side RED p (br side BLACK wn wa wf) :: cs) Hd1 M2 eq_refl) as Hd2.
  destruct (rotate_moves side s2 cs RED t p BLACK wn wa wf (mv_ok _ _ _ _ M2)) as (s3 & E3 & M3).
  pose proof (deleting_moves s2 _ t s3 (Crumb side RED p wn :: Crumb side BLACK wa wf :: cs) Hd2 M3 eq_refl) as Hd3.
  exists s1, s2, s3. split; [done|]. split; [apply Hd1|]. split; [done|]. split; [apply Hd2|].
  split; [done|]. split; [done|]. eapply moves_trans; [exact M1'|]. by eapply moves_trans.
Qed.

(** A red near nephew is rotated above the sibling. *)
Lemma near_nephew s cs (side : bool) t c p a na b wa wf :
  deleting s (Crumb side c p (br side BLACK (br side RED a na b) wa wf) :: cs) t →
  ∃ s1 s2 s3, set_color BLACK na s = Ok s1 ∧ set_color RED wa s1 = Ok s2 ∧
    rotate (negb side) wa s2 = Ok s3 ∧
    deleting s3 (Crumb side c p (br side BLACK a na (br side RED b wa wf)) :: cs) t ∧
    moves s (plug (Crumb side c p (br side BLACK (br side RED a na b) wa wf) :: cs) t)
          s3 (plug (Crumb side c p (br side BLACK a na (br side RED b wa wf)) :: cs) t).
Proof.
  intros Hd. pose proof (de_tree _ _ _ Hd) as Hok. cbn in Hok. rewrite br_negb in Hok.
  destruct (set_color_moves s (Crumb side BLACK wa wf :: Crumb (negb side) c p t :: cs) side RED a na b BLACK Hok)
    as (s1 & E1 & M1).
  destruct (set_color_moves s1 (Crumb (negb side) c p t :: cs) side BLACK (br side BLACK a na b) wa wf RED
    (mv_ok _ _ _ _ M1)) as (s2 & E2 & M2).
  assert (Heq : br side RED (br side BLACK a na b) wa wf =
    br (negb side) RED wf wa (br (negb side) BLACK b na a)) by (by destruct side).
  assert (Hok2 := mv_ok _ _ _ _ M2). rewrite Heq in Hok2.
  destruct (rotate_moves (negb side) s2 (Crumb (negb side) c p t :: cs) RED wf wa BLACK b na a Hok2)
    as (s3 & E3 & M3). rewrite <- Heq in M3.
  assert (M : moves s (plug (Crumb side c p (br side BLACK (br side RED a na b) wa wf) :: cs) t)
    s3 (plug (Crumb side c p (br side BLACK a na (br side RED b wa wf)) :: cs) t)).
  { eapply moves_trans; [|eapply moves_trans; [exact M2|]].
    - cbn. rewrite (br_negb side c t p). exact M1.
    - cbn. rewrite (br_negb side c t p).
      replace (br side BLACK a na (br side RED b wa wf)) with
        (br (negb side) BLACK (br (negb side) RED wf wa b) na a) by (by destruct side). exact M3. }
  exists s1, s2, s3. do 3 (split; [done|]). split; [|done]. by apply (deleting_moves _ _ _ _ _ Hd M).
Qed.

(** The final rotation, with a red far nephew. *)
Lemma far_nephew s cs (side : bool) t c p wn wa b na a :
  deleting s (Crumb side c p (br side BLACK wn wa (br side RED b na a)) :: cs) t →
  ∃ s1 s2 s3 s4, set_color c wa s = Ok s1 ∧ set_color BLACK p s1 = Ok s2 ∧
    (if side then right_of else left_of) wa s2 = Ok na ∧
    set_color BLACK na s2 = Ok s3 ∧ parent_of (addr t) s3 = Ok p ∧ rotate side p s3 = Ok s4 ∧
    moves s (plug (Crumb side c p (br side BLACK wn wa (br side RED b na a)) :: cs) t)
          s4 (plug cs (br side c (br side BLACK t p wn) wa (br side BLACK b na a))).
Proof.
  intros Hd. pose proof (de_tree _ _ _ Hd) as Hok. cbn in Hok. rewrite br_negb in Hok.
  destruct (set_color_moves s (Crumb (negb side) c p t :: cs) side BLACK wn wa (br side RED b na a) c Hok)
    as (s1 & E1 & M1). cbn in M1. rewrite <- !(br_negb side _ t p) in M1.
  destruct (set_color_moves s1 cs side c t p (br side c wn wa (br side RED b na a)) BLACK (mv_ok _ _ _ _ M1))
    as (s2 & E2 & M2).
  assert (Hok2 := mv_ok _ _ _ _ M2). rewrite br_negb in Hok2.
  destruct (reads_ok s2 (Crumb (negb side) BLACK p t :: cs) side c wn wa (br side RED b na a) Hok2) as (_ & Hf & _).
  rewrite addr_br in Hf. rewrite (br_negb side c wn wa) in Hok2.
  destruct (set_color_moves s2 (Crumb (negb side) c wa wn :: Crumb (negb side) BLACK p t :: cs) side RED b na a BLACK)
    as (s3 & E3 & M3); [exact Hok2|].
  cbn in M3. rewrite <- !(br_negb side _ wn wa), <- !(br_negb side _ t p) in M3.
  assert (M03 : moves s (plug (Crumb side c p (br side BLACK wn wa (br side RED b na a)) :: cs) t)
    s3 (plug (Crumb side BLACK p (br side c wn wa (br side BLACK b na a)) :: cs) t)).
  { eapply moves_trans; [exact M1|]. eapply moves_trans; [exact M2|exact M3]. }
  pose proof (deleting_moves _ _ _ _ _ Hd M03 eq_refl) as Hd3.
  destruct (rotate_moves side s3 cs BLACK t p c wn wa (br side BLACK b na a) (mv_ok _ _ _ _ M03)) as (s4 & E4 & M4).
  exists s1, s2, s3, s4. do 4 (split; [done|]). split; [apply Hd3|]. split; [done|]. by eapply moves_trans.
Qed.

(** ** One round *)

Lemma deficient_br n (side : bool) c t p w : rb n t → rb n w →
  deficient (match c with RED => n | BLACK => S n end) (br side c t p w).
Proof. intros. destruct c, side; cbn; auto with neo. Qed.

(** The way on after a round: the repair goes on one step up, or is done. *)
Definition round_result (s : store) (T : tree) (x' : ptr) (s' : store) (cs : list crumb) (red : bool) : Prop :=
  (∃ t' m any, x' = addr t' ∧ t' ≠ Leaf ∧ moves s T s' (plug cs t') ∧ deficient m t' ∧
     hole cs any (S m) ∧ (red = true → shade t' = RED)) ∨
  (∃ T', x' = addr T' ∧ T' ≠ Leaf ∧ moves s T s' T' ∧ rbtree T').

Lemma br_not_leaf side c u a v : br side c u a v ≠ Leaf.
Proof. by destruct side. Qed.

Lemma plug_not_leaf cs : ∀ t, t ≠ Leaf → plug cs t ≠ Leaf.
Proof. induction cs as [|[] cs IH]; intros t Ht; [done|]. apply IH, br_not_leaf. Qed.

Lemma reds_ok s cs side c u a v : tree_ok s (plug cs (br side c u a v)) →
  color_of (addr u) s = Ok (shade u) ∧ color_of (addr v) s = Ok (shade v).
Proof.
  intros Hok. split.
  - by apply (shade_ok s (Crumb side c a v :: cs)).
  - rewrite br_negb in Hok. by apply (shade_ok s (Crumb (negb side) c a u :: cs)).
Qed.

(** Both children of the sibling black. *)
Lemma settle_recolor s cs (side : bool) t c p wn wa wf n any :
  let w := br side BLACK wn wa wf in let cs0 := Crumb side c p w :: cs in
  deleting s cs0 t → rb n t → rb n wn → rb n wf → shade wn = BLACK → shade wf = BLACK →
  hole cs0 any (S n) →
  ∃ s', settle (addr t) wa side s = Ok (p, s') ∧
    round_result s (plug cs0 t) p s' cs (match c with RED => true | BLACK => false end).
Proof.
  intros w cs0 Hd Ht Hwn Hwf Cn Cf Hh. pose proof (de_tree _ _ _ Hd) as Hok. cbn in Hok.
  rewrite br_negb in Hok. fold w in Hok.
  destruct (reads_ok s (Crumb (negb side) c p t :: cs) side BLACK wn wa wf Hok) as (Hn & Hf & _).
  destruct (reds_ok s (Crumb (negb side) c p t :: cs) side BLACK wn wa wf Hok) as (Hcn & Hcf).
  unfold settle. rewrite Hn. cbn -[set_color]. rewrite Hcn. cbn -[set_color]. rewrite Hf. cbn -[set_color].
  rewrite Hcf. cbn -[set_color]. rewrite decide_True by done.
  destruct (set_color_moves s (Crumb (negb side) c p t :: cs) side BLACK wn wa wf RED Hok) as (s1 & E1 & M1).
  cbn in M1. rewrite <- !(br_negb side c t p) in M1. rewrite E1. cbn -[set_color].
  pose proof (deleting_moves s cs0 t s1 (Crumb side c p (br side RED wn wa wf) :: cs) Hd M1 eq_refl) as Hd1.
  rewrite (de_parent _ _ _ Hd1). cbn. exists s1. split; [done|]. left.
  exists (br side c t p (br side RED wn wa wf)), (match c with RED => n | BLACK => S n end).
  assert (Hhole : ∃ any', hole cs any' (S (match c with RED => n | BLACK => S n end))).
  { inversion Hh; subst; eauto. }
  destruct Hhole as (any' & Hh'). exists any'. split; [by rewrite addr_br|]. split; [apply br_not_leaf|].
  split; [done|]. split; [apply deficient_br; auto with neo|]. split; [done|]. rewrite shade_br. by destruct c.
Qed.

(** A red child of the sibling. *)
Lemma settle_rotate s cs (side : bool) t c p wn wa wf n any :
  let w := br side BLACK wn wa wf in let cs0 := Crumb side c p w :: cs in
  deleting s cs0 t → rb n t → rb n wn → rb n wf → ¬ (shade wn = BLACK ∧ shade wf = BLACK) →
  shade t = BLACK → hole cs0 any (S n) →
  ∃ x' s', settle (addr t) wa side s = Ok (x', s') ∧ round_result s (plug cs0 t) x' s' cs true.
Proof.
  intros w cs0 Hd Ht Hwn Hwf Hred Ct Hh. pose proof (de_tree _ _ _ Hd) as Hok. cbn in Hok.
  rewrite br_negb in Hok. fold w in Hok.
  destruct (reads_ok s (Crumb (negb side) c p t :: cs) side BLACK wn wa wf Hok) as (Hn & Hf & _).
  destruct (reds_ok s (Crumb (negb side) c p t :: cs) side BLACK wn wa wf Hok) as (Hcn & Hcf).
  unfold settle. rewrite Hn. cbn -[set_color outer_red]. rewrite Hcn. cbn -[set_color outer_red].
  rewrite Hf. cbn -[set_color outer_red]. rewrite Hcf. cbn -[set_color outer_red]. rewrite decide_False by done.
  assert (Hout : ∃ s1 wn1 wa1 b na a, outer_red (addr t) wa (shade wf) side s = Ok (wa1, s1) ∧
    deleting s1 (Crumb side c p (br side BLACK wn1 wa1 (br side RED b na a)) :: cs) t ∧
    moves s (plug cs0 t) s1 (plug (Crumb side c p (br side BLACK wn1 wa1 (br side RED b na a)) :: cs) t) ∧
    rb n wn1 ∧ rb n b ∧ rb n a).
  { unfold outer_red. destruct (decide (shade wf = BLACK)) as [Ef|Ef].
    - assert (En : shade wn = RED) by (destruct (shade wn); [tauto|done]).
      destruct (red_br wn En) as (nl & na & nr & ->). inversion Hwn as [|? ? ? ? Hnl Hnr Cl Cr|]; subst.
      assert (∃ a b, Br RED nl na nr = br side RED a na b ∧ rb n a ∧ rb n b) as (a & b & Hab & Ha & Hb).
      { destruct side; cbn; eauto. }
      unfold cs0, w in *. rewrite Hab in *.
      destruct (near_nephew s cs side t c p a na b wa wf Hd) as (s1 & s2 & s3 & E1 & E2 & E3 & Hd3 & M3).
      rewrite Hn, addr_br. cbn -[set_color]. rewrite E1. cbn -[set_color]. rewrite E2. cbn -[set_color].
      assert (E3' : (if side then rotateRight else rotateLeft) wa s2 = Ok s3) by (by destruct side).
      rewrite E3'. cbn -[set_color]. rewrite (de_parent _ _ _ Hd3). cbn -[set_color].
      destruct (reads_ok s3 cs side c t p (br side BLACK a na (br side RED b wa wf)) (de_tree _ _ _ Hd3))
        as (_ & Hw & _).
      rewrite Hw, addr_br. cbn. exists s3, a, na, b, wa, wf. done.
    - assert (Ef' : shade wf = RED) by (by destruct (shade wf)).
      destruct (red_br wf Ef') as (fl & fa & fr & ->). inversion Hwf as [|? ? ? ? Hfl Hfr Cl Cr|]; subst.
      assert (∃ b a, Br RED fl fa fr = br side RED b fa a ∧ rb n b ∧ rb n a) as (b & a & Hab & Ha & Hb).
      { destruct side; cbn; eauto. }
      exists s, wn, wa, b, fa, a. split; [done|]. unfold cs0, w in *. rewrite Hab in *.
      split; [done|]. split; [by apply moves_refl, Hd|done]. }
  destruct Hout as (s1 & wn1 & wa1 & b & na & a & E1 & Hd1 & M1 & Hwn1 & Hb & Ha).
  rewrite E1. cbn -[set_color]. rewrite (de_parent _ _ _ Hd1). cbn -[set_color].
  destruct (reads_ok s1 cs side c t p _ (de_tree _ _ _ Hd1)) as (_ & _ & Hc & _).
  rewrite Hc. cbn -[set_color].
  destruct (far_nephew s1 cs side t c p wn1 wa1 b na a Hd1)
    as (s2 & s3 & s4 & s5 & E2 & E3 & Hf3 & E4 & Hp4 & E5 & M5).
  rewrite E2. cbn -[set_color]. rewrite E3. cbn -[set_color]. rewrite Hf3. cbn -[set_color].
  rewrite E4. cbn -[set_color]. rewrite Hp4. cbn -[set_color].
  assert (E5' : (if side then rotateLeft else rotateRight) p s4 = Ok s5) by (by destruct side).
  rewrite E5'. cbn. eexists _, s5. split; [reflexivity|]. right.
  exists (plug cs (br side c (br side BLACK t p wn1) wa1 (br side BLACK b na a))).
  split; [apply (ok_root _ _ (mv_ok _ _ _ _ M5))|]. split; [apply plug_not_leaf, br_not_leaf|].
  split; [by eapply moves_trans|]. inversion Hh; subst.
  - eapply rb_plug; [eassumption| |by left]. apply rb_br_red; rewrite ?shade_br; auto with neo.
  - eapply rb_plug; [eassumption| |right; by rewrite shade_br]. auto with neo.
Qed.

Lemma settle_ok s cs (side : bool) t c p wn wa wf n any :
  let cs0 := Crumb side c p (br side BLACK wn wa wf) :: cs in
  deleting s cs0 t → rb n t → rb n wn → rb n wf → shade t = BLACK → hole cs0 any (S n) →
  ∃ x' s', settle (addr t) wa side s = Ok (x', s') ∧
    round_result s (plug cs0 t) x' s' cs (match c with RED => true | BLACK => false end).
Proof.
  intros cs0 Hd Ht Hwn Hwf Ct Hh.
  destruct (decide (shade wn = BLACK ∧ shade wf = BLACK)) as [[Cn Cf]|Hred].
  - exists p. by apply (settle_recolor s cs side t c p wn wa wf n any).
  - destruct (settle_rotate s cs side t c p wn wa wf n any) as (x' & s' & E & Hr); try done.
    exists x', s'. split; [done|]. destruct Hr as [(t' & m & any' & H1 & H2 & H3 & H4 & H5 & H6)|Hr]; [|by right].
    left. exists t', m, any'. do 5 (split; [done|]). by destruct c.
Qed.

Lemma delete_step_ok s cs (side : bool) t c p w n any :
  let cs0 := Crumb side c p w :: cs in
  deleting s cs0 t → rb n t → shade t = BLACK → hole cs0 any (S n) →
  ∃ x' s' cs' red, delete_step (addr t) p side s = Ok (x', s') ∧
    round_result s (plug cs0 t) x' s' cs' red ∧
    length cs' ≤ length cs + (if red : bool then 1 else 0).
Proof.
  intros cs0 Hd Ht Ct Hh. unfold delete_step, sibling.
  destruct (reads_ok s cs side c t p w (de_tree _ _ _ Hd)) as (_ & Hw & _).
  destruct (reds_ok s cs side c t p w (de_tree _ _ _ Hd)) as (_ & Hcw).
  rewrite Hw. cbn -[set_color settle]. rewrite Hcw. cbn -[set_color settle].
  assert (Hrw : rb (S n) w) by (by inversion Hh). destruct (shade w) eqn:Ew.
  - rewrite decide_False by done. cbn -[settle].
    assert (∃ wn wa wf, w = br side BLACK wn wa wf ∧ rb n wn ∧ rb n wf) as (wn & wa & wf & -> & Hwn & Hwf).
    { inversion Hrw as [| |? l a r Hl Hr]; subst; [done|].
      destruct side; [exists l, a, r|exists r, a, l]; done. }
    rewrite addr_br. destruct (settle_ok s cs side t c p wn wa wf n any) as (x' & s' & E & Hr); try done.
    exists x', s', cs, (match c with RED => true | BLACK => false end).
    split; [done|]. split; [done|]. lia.
  - rewrite decide_True by done.
    assert (∃ wn wa wf, w = br side RED wn wa wf ∧ rb (S n) wn ∧ rb (S n) wf ∧ shade wn = BLACK)
      as (wn & wa & wf & -> & Hwn & Hwf & Cn).
    { destruct (red_br w Ew) as (l & a & r & ->). inversion Hrw; subst.
      destruct side; [exists l, a, r|exists r, a, l]; done. }
    assert (c = BLACK) as ->. { inversion Hh; subst; [|done]. by rewrite shade_br in *. }
    destruct (red_sibling s cs side t p wn wa wf Hd) as (s1 & s2 & s3 & E1 & P1 & E2 & P2 & E3 & Hd3 & M3).
    rewrite addr_br, E1. cbn -[set_color settle]. rewrite P1. cbn -[set_color settle].
    rewrite E2. cbn -[set_color settle]. rewrite P2. cbn -[set_color settle].
    assert (E3' : (if side then rotateLeft else rotateRight) p s2 = Ok s3) by (by destruct side).
    rewrite E3'. cbn -[set_color settle]. rewrite (de_parent _ _ _ Hd3). cbn -[set_color settle].
    destruct (reads_ok s3 (Crumb side BLACK wa wf :: cs) side RED t p wn (de_tree _ _ _ Hd3)) as (_ & Hw3 & _).
    rewrite Hw3. cbn -[settle].
    assert (∃ vn va vf, wn = br side BLACK vn va vf ∧ rb n vn ∧ rb n vf) as (vn & va & vf & -> & Hvn & Hvf).
    { inversion Hwn as [| |? l a r Hl Hr]; subst; [done|].
      destruct side; [exists l, a, r|exists r, a, l]; done. }
    rewrite addr_br.
    destruct (settle_ok s3 (Crumb side BLACK wa wf :: cs) side t RED p vn va vf n false) as (x' & s' & E & Hr);
      try done.
    { constructor; [done|apply shade_br|]. inversion Hh; subst. econstructor; [done|eassumption]. }
    exists x', s', (Crumb side BLACK wa wf :: cs), true. split; [done|]. split; [|simpl; lia].
    destruct Hr as [(t' & m & any' & H1 & H2 & H3 & H4 & H5 & H6)|(T' & H1 & H2 & H3 & H4)].
    + left. exists t', m, any'. split; [done|]. split; [done|]. split; [by eapply moves_trans|done].
    + right. exists T'. split; [done|]. split; [done|]. split; [by eapply moves_trans|done].
Qed.

(** ** The loop *)

Definition blacken (t : tree) : tree :=
  match t with Leaf => Leaf | Br _ l a r => Br BLACK l a r end.

Lemma rb_blacken m t any cs : deficient m t → hole cs any (S m) → (cs = [] ∨ shade t = RED) →
  t ≠ Leaf → rbtree (plug cs (blacken t)).
Proof.
  intros Hd Hh Hc Hne. destruct t as [|[] l a r]; [done|..]; cbn in *.
  - destruct Hc as [->|]; [|done]. cbn. split; [done|by eexists].
  - eapply rb_plug; [exact Hh| |by right]. destruct Hd. by constructor.
Qed.

(** The repair has ended at [x']: coloring it black completes the tree. *)
Definition finished (s : store) (T : tree) (x' : ptr) (s' : store) : Prop :=
  ∃ cs t, x' = addr t ∧ moves s T s' (plug cs t) ∧
    ((t = Leaf ∧ cs = []) ∨ (t ≠ Leaf ∧ rbtree (plug cs (blacken t)))).

Lemma finished_moves s T s1 T1 x' s' : moves s T s1 T1 → finished s1 T1 x' s' → finished s T x' s'.
Proof.
  intros M (cs & t & H1 & H2 & H3). exists cs, t. split; [done|]. split; [by eapply moves_trans|done].
Qed.

Lemma deleteFixup_loop_ok fuel : ∀ s cs t n any, deleting s cs t → deficient n t → hole cs any (S n) →
  (if shade t is RED then 1 else length cs + 2) ≤ fuel →
  ∃ x' s', deleteFixup_loop fuel (addr t) s = Ok (x', s') ∧ finished s (plug cs t) x' s'.
Proof.
  induction fuel as [|fuel IH]; intros s cs t n any Hd Hdef Hh Hf; [destruct (shade t); lia|].
  cbn [deleteFixup_loop]. pose proof (de_tree _ _ _ Hd) as Hok.
  destruct cs as [|[side c p w] cs].
  { rewrite (ok_root _ _ Hok). cbn. rewrite Nat.eqb_refl. eexists _, s. split; [done|].
    exists [], t. split; [done|]. split; [by apply moves_refl|]. destruct (leaf_or t) as [->|Hne]; [by left|].
    right. split; [done|]. eapply rb_blacken; eauto. }
  pose proof (not_root _ _ _ Hok ltac:(done)) as Hne. rewrite (proj2 (Nat.eqb_neq _ _) Hne).
  rewrite (shade_ok _ _ _ Hok). cbn -[delete_step]. destruct (shade t) eqn:Et.
  2:{ rewrite decide_False by done. eexists _, s. split; [done|]. exists (Crumb side c p w :: cs), t.
      split; [done|]. split; [by apply moves_refl|]. right.
      assert (t ≠ Leaf) by (by intros ->). split; [done|]. eapply rb_blacken; eauto. }
  rewrite decide_True by done. rewrite (de_parent _ _ _ Hd). cbn -[delete_step].
  assert (Hrt : rb n t) by (destruct t as [|[] ? ? ?]; done).
  assert (Hw : w ≠ Leaf). { intros ->. inversion Hh as [|? ? ? ? ? Hs|? ? ? ? ? ? Hs]; inversion Hs. }
  assert (Hleft : ∃ l, left_of p s = Ok l ∧ Nat.eqb (addr t) l = side).
  { cbn in Hok. destruct (reads_ok _ _ _ _ _ _ _ Hok) as (Hn & Hfar & _).
    rewrite br_negb in Hok. pose proof (children_ne _ _ _ _ _ _ _ Hok Hw) as Hne2. destruct side.
    - exists (addr t). split; [done|apply Nat.eqb_refl].
    - exists (addr w). split; [done|]. apply Nat.eqb_neq. congruence. }
  destruct Hleft as (l & Hl & Hside). rewrite Hl. cbn -[delete_step]. rewrite Hside.
  destruct (delete_step_ok s cs side t c p w n any Hd Hrt Et Hh) as (x' & s' & cs' & red & E & Hr & Hlen).
  rewrite E. cbn -[delete_step].
  destruct Hr as [(t' & m & any' & -> & Hne' & M & Hdef' & Hh' & Hred)|(T' & -> & HT & M & Hrb)].
  - destruct (IH s' cs' t' m any') as (x2 & s2 & E2 & Hfin); try done.
    { split; [apply M|]. by apply (parent_ok s'), Hne'; apply M. }
    { cbn [length] in Hf. destruct red; [rewrite Hred by done; lia|]. destruct (shade t'); lia. }
    exists x2, s2. split; [done|]. by eapply finished_moves.
  - destruct fuel as [|fuel]; [cbn [length] in Hf; lia|]. cbn [deleteFixup_loop].
    rewrite (ok_root _ _ (mv_ok _ _ _ _ M)), Nat.eqb_refl. eexists _, s'. split; [done|].
    exists [], T'. split; [done|]. split; [done|]. right. split; [done|].
    destruct Hrb as (Cb & k & Hk). destruct T' as [|[] l' a' r']; [done| |done]. split; [done|by exists k].
Qed.

Lemma size_enough_nil s T : tree_ok s T → S (length (inorder T)) ≤ size (heap s).
Proof.
  intros Hok. rewrite <- size_dom.
  transitivity (size (list_to_set (NIL_SYM :: inorder T) : gset ptr)).
  - rewrite size_list_to_set; [done|]. apply NoDup_cons. split; [by eapply nil_not_in|apply Hok].
  - apply subseteq_size. intros a Ha%elem_of_list_to_set.
    apply elem_of_cons in Ha as [->|Ha]; [|eapply repr_dom; [apply Hok|done]].
    destruct (ok_nil _ _ Hok) as (nd & Hn & _). by eapply elem_of_dom_2.
Qed.

Lemma deleteFixup_ok s cs t n any : deleting s cs t → deficient n t → hole cs any (S n) →
  length cs + 1 ≤ size (heap s) →
  ∃ s' T', deleteFixup (addr t) s = Ok s' ∧ moves s (plug cs t) s' T' ∧ rbtree T'.
Proof.
  intros Hd Hdef Hh Hsize. unfold deleteFixup.
  destruct (deleteFixup_loop_ok (S (size (heap s))) s cs t n any) as (x' & s1 & E & Hfin); try done.
  { destruct (shade t); lia. }
  rewrite E. cbn -[set_color]. destruct Hfin as (cs' & t' & -> & M & [[-> ->]|[Hne Hrb]]).
  - destruct (ok_nil _ _ (mv_ok _ _ _ _ M)) as (nd & Hn & Hc). unfold set_color.
    rewrite (update_ok _ _ _ _ Hn). eexists _, Leaf. split; [reflexivity|].
    assert (Hsame : Node BLACK (n_parent nd) (n_left nd) (n_right nd) (n_data nd) = nd).
    { destruct nd; cbn in *; by subst. }
    rewrite Hsame, insert_id by done. split; [|split; [done|by exists 0; constructor]].
    replace (with_heap (heap s1) s1) with s1 by (by destruct s1). exact M.
  - destruct t' as [|c l a r]; [done|].
    destruct (set_color_moves s1 cs' true c l a r BLACK (mv_ok _ _ _ _ M)) as (s2 & E2 & M2).
    exists s2, (plug cs' (Br BLACK l a r)). split; [exact E2|]. split; [by eapply moves_trans|done].
Qed.
