(* ===== verification/Symdelete.v ===== *)
(** * Deleting symbols (src/nl-symbol.c, [deleteSymbol], [collectSymbols])

    The whole deletion: the search, the removal of the symbol or of its
    successor from the parent chain, and the repair.  The symbols are listed in
    the order of their names. *)

From stdpp Require Import base list numbers tactics strings gmap sorting.
From Stdlib Require Import ZArith Lia Sorting.Sorted.
From S2P Require Import Prelude Cell Symtree Redblack Insertion Symfind Deletion.

#[global] Open Scope nat_scope.
#[local] Set Warnings "-clear-no-such-hyp".

(** ** Taking a symbol out of the tree

    The symbol [z] is replaced by its only child, or by its successor [y], which
    is first taken out of its own place. *)

Lemma before_app cs1 cs2 : before (cs1 ++ cs2) = before cs2 ++ before cs1.
Proof.
  induction cs1 as [|[[] c a sib] cs1 IH]; cbn; [by rewrite app_nil_r|done|].
  by rewrite IH, <- app_assoc.
Qed.

Lemma behind_app cs1 cs2 : behind (cs1 ++ cs2) = behind cs1 ++ behind cs2.
Proof.
  induction cs1 as [|[[] c a sib] cs1 IH]; cbn; [done| |done]. by rewrite IH, <- app_assoc.
Qed.

(** Every symbol is the root of a subtree. *)
Lemma at_end T a : a ∈ inorder T → ∃ cs c l r, T = plug cs (Br c l a r).
Proof.
  induction T as [|c l IHl b r IHr]; cbn; [set_solver|].
  intros [Ha|[->|Ha]%elem_of_cons]%elem_of_app.
  - destruct (IHl Ha) as (cs & c' & l' & r' & ->). exists (cs ++ [Crumb true c b r]), c', l', r'.
    by rewrite plug_app.
  - by exists [], c, l, r.
  - destruct (IHr Ha) as (cs & c' & l' & r' & ->). exists (cs ++ [Crumb false c b l]), c', l', r'.
    by rewrite plug_app.
Qed.

(** ** The successor *)

Lemma leftmost_ok s fuel : ∀ r cs, r ≠ Leaf → tree_ok s (plug cs r) → length (inorder r) ≤ fuel →
  ∃ cs2 cy y ry, leftmost fuel (addr r) s = Ok y ∧ r = plug cs2 (Br cy Leaf y ry) ∧ before cs2 = [].
Proof.
  induction fuel as [|fuel IH]; intros r cs Hne Hok Hf.
  { apply addr_in in Hne. destruct (inorder r); [set_solver|simpl in Hf; lia]. }
  destruct r as [|c l a r]; [done|]. cbn [addr leftmost].
  destruct (reads_ok s cs true c l a r Hok) as (Hl & _). rewrite Hl. cbn -[leftmost].
  destruct (leaf_or l) as [->|Hl'].
  - exists [], c, a, r. done.
  - assert (Hne2 : addr l ≠ NIL_SYM).
    { apply addr_in in Hl'. assert (H2 : 2 ≤ addr l); [|unfold NIL_SYM; lia].
      apply (ok_addrs _ _ Hok). rewrite inorder_plug. cbn. set_solver. }
    rewrite (proj2 (Nat.eqb_neq _ _) Hne2).
    cbn in Hf. rewrite length_app in Hf. cbn in Hf.
    destruct (IH l (Crumb true c a r :: cs)) as (cs2 & cy & y & ry & E & -> & Hb); [done|done|lia|].
    exists (cs2 ++ [Crumb true c a r]), cy, y, ry. split; [done|]. split; [by rewrite plug_app|].
    by rewrite before_app.
Qed.

(** ** The parent chain *)

(** The parent's link to a child, when the child is replaced. *)
Lemma replace_child_ok s cs q x np s2 : heap s !! q = Some np → n_parent np = par cs →
  (par cs ≠ NULL → ∃ pn, heap s !! par cs = Some pn ∧ near s2 pn = q ∧ near (negb s2) pn ≠ q) →
  ∃ s', replace_child q x true s = Ok s' ∧
    (if Nat.eqb (par cs) NULL then s' = set_root x s
     else ∃ pn, heap s !! par cs = Some pn ∧
       s' = with_heap (<[par cs := with_near s2 x pn]> (heap s)) s).
Proof.
  intros Hq Hp Hpar. unfold replace_child. rewrite (field_ok _ _ _ _ Hq), Hp. cbn -[set_left set_right].
  destruct (Nat.eqb_spec (par cs) NULL) as [E|E]; [by eexists|].
  destruct (Hpar E) as (pn & Hpn & Hn & Hf). rewrite (field_ok _ _ _ _ Hpn). cbn -[set_left set_right].
  destruct s2; cbn in Hn, Hf.
  - rewrite <- Hn, Nat.eqb_refl. unfold set_left. rewrite (update_ok _ _ _ _ Hpn). eauto.
  - rewrite (proj2 (Nat.eqb_neq q (n_left pn))) by congruence. unfold set_right.
    rewrite (update_ok _ _ _ _ Hpn). eauto.
Qed.

Section Unlink.
Variables (s : store) (cs : list crumb) (c : color) (l : tree) (y : ptr) (r : tree).
Hypothesis Hok : tree_ok s (plug cs (Br c l y r)).
Hypothesis one_child : l = Leaf ∨ r = Leaf.

Definition only_child : tree := if l is Leaf then r else l.

Lemma only_child_inorder : inorder (Br c l y r) ≡ₚ y :: inorder only_child.
Proof using Hok one_child.
  unfold only_child. destruct one_child as [->| ->]; [done|]. destruct l; [done|].
  cbn [inorder]. by rewrite Permutation_app_comm.
Qed.

(** [y] is out of the parent chain, its child in its place. *)
Record unlinked (s' : store) : Prop := {
  ul_child : ∀ n, heap s !! addr only_child = Some n →
    heap s' !! addr only_child = Some (with_parent (par cs) n);
  ul_par : ∀ np s2, par cs ≠ NULL → heap s !! par cs = Some np → near s2 np = y →
    heap s' !! par cs = Some (with_near s2 (addr only_child) np);
  ul_out : ∀ q, q ≠ addr only_child → (q ≠ par cs ∨ par cs = NULL) → heap s' !! q = heap s !! q;
  ul_root : root s' = (if Nat.eqb (par cs) NULL then addr only_child else root s);
  ul_next : next s' = next s;
  ul_count : symbolCount s' = symbolCount s
}.

Lemma unlink_facts :
  addr only_child ≠ y ∧ (∃ n, heap s !! addr only_child = Some n) ∧
  (par cs ≠ NULL → 2 ≤ par cs ∧ par cs ≠ addr only_child ∧ par cs ≠ y ∧ par cs ∈ before cs ++ behind cs) ∧
  (par cs ≠ NULL → ∃ np s2, heap s !! par cs = Some np ∧ near s2 np = y ∧ near (negb s2) np ≠ y) ∧
  repr (heap s) y only_child ∧ y ∉ inorder only_child ∧ NoDup (inorder only_child) ∧
  (∀ q, q ∈ inorder only_child → q ∈ inorder (Br c l y r)) ∧ y ∈ inorder (Br c l y r).
Proof using Hok one_child.
  pose proof (tree_focus _ _ _ Hok) as [Hr Hp Hn Hn' Hd Ha Ha'].
  assert (Hin : ∀ q, q ∈ inorder only_child → q ∈ inorder (Br c l y r)).
  { intros q Hq. rewrite only_child_inorder. by right. }
  assert (Hy : y ∈ inorder (Br c l y r)) by (rewrite only_child_inorder; by left).
  rewrite only_child_inorder in Hn. apply NoDup_cons in Hn as [Hyc Hnc].
  assert (Hrc : repr (heap s) y only_child).
  { unfold only_child. cbn in Hr. destruct Hr as (_ & H1 & H2). by destruct l. }
  split; [|split; [|split; [|split]]]; [..|done].
  - destruct (leaf_or only_child) as [->|Hx%addr_in]; [apply Ha in Hy; cbn; unfold NIL_SYM; lia|].
    intros He. apply Hyc. by rewrite <- He.
  - destruct (leaf_or only_child) as [->|Hne].
    + destruct (ok_nil _ _ Hok) as (nd & Hnil & _). eauto.
    + destruct (repr_addr _ _ _ Hrc Hne) as (nx & Hnx & _). eauto.
  - intros Hpn. assert (Hpi : par cs ∈ before cs ++ behind cs) by (apply par_in; by intros ->).
    pose proof (Ha' _ Hpi) as [H2 _]. split; [done|]. split; [|split; [|done]]; intros Hpe.
    + destruct (leaf_or only_child) as [E|Hxi%addr_in].
      * rewrite E in Hpe. cbn in Hpe. unfold NIL_SYM in Hpe. lia.
      * rewrite <- Hpe in Hxi. apply (Hd (par cs)); [by apply Hin|done].
    + apply (Hd y Hy). by rewrite <- Hpe.
  - intros Hpn. apply (path_top _ _ _ Hp); [by intros ->|apply Ha in Hy; unfold NIL_SYM; cbn; lia|by apply Hd].
Qed.

Lemma unlink_run : ∃ s', unlink y s = Ok (addr only_child, s') ∧ unlinked s'.
Proof using Hok one_child.
  pose proof unlink_facts as (Hx & (nx & Hnx) & Hpx & Htop & _).
  pose proof (fo_addrs _ _ _ (tree_focus _ _ _ Hok)) as Ha.
  destruct (reads_ok s cs true c l y r Hok) as (Hl & Hrr & Hc & Hpy).
  destruct (node_ok s cs true c l y r Hok) as (dy & Hny).
  set (x := addr only_child) in *.
  assert (Hfind : (if Nat.eqb (addr l) NIL_SYM then right_of y s else Ok (addr l)) = Ok x).
  { unfold x, only_child. destruct (leaf_or l) as [->|Hl']; [by rewrite Hrr|].
    assert (addr l ≠ NIL_SYM).
    { apply addr_in in Hl'. assert (H2 : 2 ≤ addr l); [|unfold NIL_SYM; lia]. apply Ha. cbn. set_solver. }
    rewrite (proj2 (Nat.eqb_neq _ _)) by done. destruct l; [done|]. by destruct one_child as [?|?]. }
  set (s1 := with_heap (<[x := with_parent (par cs) nx]> (heap s)) s).
  assert (Hs1 : ∀ q, q ≠ x → heap s1 !! q = heap s !! q) by (intros; by apply lookup_insert_ne).
  assert (Hun : ∃ s', replace_child y x true s1 = Ok s' ∧ unlinked s').
  { destruct (decide (par cs = NULL)) as [Hpn|Hpn].
    - destruct (replace_child_ok s1 cs y x _ true (eq_trans (Hs1 y (not_eq_sym Hx)) Hny)) as (s' & E & He);
        [done|done|]. rewrite Hpn in He. cbn in He. subst s'. exists (set_root x s1). split; [done|].
      split; fold x; cbn [heap with_heap root set_root]; [|done| | |done|done].
      + intros n Hn. rewrite Hnx in Hn. injection Hn as <-. cbn. by rewrite lookup_insert_eq.
      + intros q Hq _. by apply Hs1.
      + by rewrite Hpn.
    - destruct (Htop Hpn) as (np & s2 & Hnp & Hn2 & Hf2). destruct (Hpx Hpn) as (H2 & Hpx' & _ & Hpi).
      destruct (replace_child_ok s1 cs y x _ s2 (eq_trans (Hs1 y (not_eq_sym Hx)) Hny)) as (s' & E & He);
        [done|intros _; exists np; by rewrite Hs1|].
      rewrite (proj2 (Nat.eqb_neq _ _) Hpn) in He. destruct He as (pn & Hpn1 & ->).
      rewrite Hs1, Hnp in Hpn1 by done. injection Hpn1 as <-. eexists. split; [exact E|].
      split; fold x; cbn [heap with_heap root]; [| | | |done|done].
      + intros n Hn. rewrite Hnx in Hn. injection Hn as <-.
        rewrite lookup_insert_ne by done. cbn. by rewrite lookup_insert_eq.
      + intros np' s2' _ Hnp' Hn2'. rewrite Hnp in Hnp'. injection Hnp' as <-.
        rewrite lookup_insert_eq. destruct s2, s2'; try done; cbn in *; congruence.
      + intros q Hqx [Hq| ]; [|done]. rewrite lookup_insert_ne by done. by apply Hs1.
      + by rewrite (proj2 (Nat.eqb_neq _ _) Hpn). }
  destruct Hun as (s' & E & Hu). exists s'. split; [|done].
  unfold unlink. rewrite Hl. cbn -[set_parent replace_child]. rewrite Hfind.
  cbn -[set_parent replace_child]. rewrite Hpy. cbn -[set_parent replace_child].
  unfold set_parent. rewrite (update_ok _ _ _ _ Hnx). cbn -[replace_child].
  change (with_heap _ s) with s1. by rewrite E.
Qed.

Lemma unlinked_touches s' : unlinked s' → touches (NIL_SYM :: inorder (plug cs (Br c l y r))) s s'.
Proof using Hok one_child.
  intros [U1 U2 U3 U4 U5 U6]. pose proof unlink_facts as (Hx & (nx & Hnx) & Hpx & Htop & _ & _ & _ & Hin & _).
  split; [| |done|done].
  - intros q. destruct (decide (q = addr only_child)) as [->|Hqx]; [by rewrite (U1 _ Hnx), Hnx|].
    destruct (decide (par cs ≠ NULL ∧ q = par cs)) as [[Hpn ->]|Hqp].
    + destruct (Htop Hpn) as (np & s2 & Hnp & Hn2 & _). rewrite (U2 _ _ Hpn Hnp Hn2), Hnp. by destruct s2.
    + rewrite U3; [done|done|]. destruct (decide (par cs = NULL)); [by right|left; tauto].
  - intros q [Hqn Hq]%not_elem_of_cons. rewrite inorder_plug, !elem_of_app in Hq. apply U3.
    + intros ->. destruct (leaf_or only_child) as [E|Hxi%addr_in]; [by rewrite E in Hqn|]. apply Hin in Hxi. tauto.
    + destruct (decide (par cs = NULL)); [by right|left; intros ->].
      destruct (Hpx ltac:(done)) as (_ & _ & _ & Hpi). rewrite elem_of_app in Hpi. tauto.
Qed.

Lemma unlinked_tree s' : unlinked s' → tree_ok s' (plug cs only_child).
Proof using Hok one_child.
  intros Hu. pose proof (unlinked_touches s' Hu) as Ht. destruct Hu as [U1 U2 U3 U4 U5 U6].
  pose proof unlink_facts as (Hx & (nx & Hnx) & Hpx & Htop & Hrc & Hyc & Hnc & Hin & Hy).
  pose proof (tree_focus _ _ _ Hok) as [Hr Hp Hn Hn' Hd Ha Ha'].
  assert (Hnull : par cs = NULL ↔ cs = []) by (apply par_null; intros; by apply Ha').
  split.
  - rewrite U4. assert (Hc : cs = [] ∨ cs ≠ []) by (destruct cs; auto). destruct Hc as [->|Hne]; [done|].
    rewrite (proj2 (Nat.eqb_neq _ _)) by tauto. rewrite (ok_root _ _ Hok). by apply addr_plug.
  - apply repr_plug. split.
    + apply (repr_move' (heap s) _ _ y); [done|done|..].
      * intros a Hai Hne. apply U3; [done|].
        destruct (decide (par cs = NULL)); [by right|left; intros ->].
        destruct (Hpx ltac:(done)) as (_ & _ & _ & Hpi). by apply (Hd (par cs)); [apply Hin|].
      * intros n Hne Hn0. by apply U1.
    + apply (path_child (heap s) _ _ y); [done|done|..].
      * intros a Hai Hne. apply U3; [|by left]. intros ->.
        destruct (leaf_or only_child) as [E|Hxi%addr_in].
        -- rewrite E in Hai. apply Ha' in Hai. cbn in Hai. unfold NIL_SYM in Hai. lia.
        -- apply (Hd (addr only_child)); [by apply Hin|done].
      * intros sd c' a sib cs' d Ecs He. assert (Hpa : par cs = a) by by rewrite Ecs.
        assert (Hpn : par cs ≠ NULL) by (rewrite Hnull, Ecs; done).
        rewrite <- Hpa in He |- *. rewrite (U2 _ sd Hpn He); by destruct sd.
  - rewrite inorder_plug, (app_assoc _ _ (behind cs)), (Permutation_app_comm (before cs)), <- app_assoc.
    apply NoDup_app. split; [done|]. split; [|done]. intros q Hq. by apply Hd, Hin.
  - intros q Hq. rewrite U5. rewrite inorder_plug, !elem_of_app in Hq.
    assert (Hq' : q ∈ inorder (Br c l y r) ∨ q ∈ before cs ++ behind cs).
    { rewrite elem_of_app. destruct Hq as [|[Hq%Hin|]]; tauto. }
    destruct Hq' as [?%Ha|?%Ha']; done.
  - eapply touches_heap; [exact Ht|apply Hok].
  - destruct (ok_nil _ _ Hok) as (nd & Hnil & Hblack).
    destruct (decide (NIL_SYM = addr only_child)) as [E|E].
    + rewrite E in Hnil |- *. rewrite (U1 _ Hnil). by eexists.
    + rewrite U3; [eauto|done|]. destruct (decide (par cs = NULL)); [by right|left].
      destruct (Hpx ltac:(done)) as (H2 & _). unfold NIL_SYM. lia.
Qed.

Lemma unlink_ok : ∃ s', unlink y s = Ok (addr only_child, s') ∧ deleting s' cs only_child ∧
  touches (NIL_SYM :: inorder (plug cs (Br c l y r))) s s' ∧ heap s' !! y = heap s !! y.
Proof using Hok one_child.
  destruct unlink_run as (s' & E & Hu). exists s'. split; [done|].
  pose proof unlink_facts as (Hx & (nx & Hnx) & Hpx & _).
  split; [|split; [by apply unlinked_touches|]].
  - split; [by apply unlinked_tree|]. by rewrite (field_ok _ _ _ _ (ul_child _ Hu _ Hnx)).
  - apply (ul_out _ Hu); [done|]. destruct (decide (par cs = NULL)); [by right|left].
    destruct (Hpx ltac:(done)) as (_ & _ & H & _). done.
Qed.

End Unlink.

(** ** The successor in place of the deleted symbol *)

(** On the structures. *)
Lemma take_place_raw s y z c p lp rp dz yn nl nr :
  heap s !! z = Some (Node c p lp rp dz) → heap s !! y = Some yn →
  heap s !! lp = Some nl → heap s !! rp = Some nr →
  y ≠ z → lp ≠ y → lp ≠ z → rp ≠ y → rp ≠ z → lp ≠ rp →
  (p ≠ NULL → p ≠ y ∧ p ≠ z ∧ p ≠ lp ∧ p ≠ rp ∧
     ∃ np s2, heap s !! p = Some np ∧ near s2 np = z ∧ near (negb s2) np ≠ z) →
  ∃ s', take_place y z s = Ok s' ∧
    root s' = (if Nat.eqb p NULL then y else root s) ∧ next s' = next s ∧ symbolCount s' = symbolCount s ∧
    heap s' !! y = Some (Node c p lp rp (n_data yn)) ∧
    heap s' !! lp = Some (with_parent y nl) ∧ heap s' !! rp = Some (with_parent y nr) ∧
    (∀ np s2, p ≠ NULL → heap s !! p = Some np → near s2 np = z → heap s' !! p = Some (with_near s2 y np)) ∧
    ∀ q, q ≠ y → q ≠ lp → q ≠ rp → (p ≠ NULL → q ≠ p) → heap s' !! q = heap s !! q.
Proof.
  intros Hz Hy Hl Hr Hyz Hly Hlz Hry Hrz Hlr Hpp. destruct yn as [yc yp yl yr dy].
  unfold take_place, set_left, set_right, set_parent, set_color.
  destruct (decide (p = NULL)) as [->|Ep];
    [clear Hpp|destruct (Hpp Ep) as (Hpy & Hpz & Hpl & Hpr & [c3 pp pl pr dp] & [] & Hnp & Hc & Hc')];
    cbn [near negb n_left n_right] in *; subst.
  all: run.
  all: eexists; split; [reflexivity|]; cbn [root set_root with_heap next symbolCount].
  all: rewrite ?Nat.eqb_refl, ?(proj2 (Nat.eqb_neq _ _) Ep); do 3 (split; [reflexivity|]).
  all: split; [look|]; split; [look|]; split; [look|].
  all: split; [try (intros ? ? []; done)|intros q ??? Hqp; try specialize (Hqp Ep); look].
  all: intros np' [] _ Hnp'; rewrite Hnp in Hnp'; injection Hnp' as <-; intros Hs2;
    cbn in Hs2; first [congruence | look].
Qed.

Section Place.
Variables (s : store) (cs : list crumb) (c : color) (l : tree) (z : ptr) (r : tree) (y : ptr) (yn : node).
Hypothesis Hok : tree_ok s (plug cs (Br c l z r)).
Hypothesis l_node : l ≠ Leaf.
Hypothesis Hyn : heap s !! y = Some yn.
Hypothesis y_addr : 2 ≤ y.
Hypothesis y_out : y ∉ inorder (plug cs (Br c l z r)).

Lemma place_facts :
  NoDup (inorder l ++ inorder r) ∧ z ∉ inorder l ++ inorder r ∧ addr l ∈ inorder l ∧
  (∀ q, q ∈ z :: inorder l ++ inorder r ↔ q ∈ inorder (Br c l z r)) ∧
  repr (heap s) z l ∧ repr (heap s) z r ∧
  (∃ d, heap s !! z = Some (Node c (par cs) (addr l) (addr r) d)) ∧
  (∃ nl, heap s !! addr l = Some nl) ∧ (∃ nr, heap s !! addr r = Some nr) ∧
  addr l ≠ addr r ∧ addr r ≠ z ∧ addr r ≠ y ∧ y ≠ z ∧ y ∉ inorder l ∧ y ∉ inorder r.
Proof using Hok l_node Hyn y_addr y_out.
  pose proof (tree_focus _ _ _ Hok) as [Hr Hp Hn Hn' Hd Ha Ha']. cbn in Hr.
  destruct Hr as ((d & Hz) & Hrl & Hrr).
  assert (Hperm : inorder (Br c l z r) ≡ₚ z :: inorder l ++ inorder r) by apply (inorder_br true).
  assert (Hin : ∀ q, q ∈ z :: inorder l ++ inorder r ↔ q ∈ inorder (Br c l z r)) by (intros; by rewrite Hperm).
  rewrite Hperm in Hn. apply NoDup_cons in Hn as [Hzn Hn].
  assert (Hl := addr_in l l_node).
  rewrite inorder_plug, !elem_of_app in y_out.
  assert (Hyl : y ∉ z :: inorder l ++ inorder r) by (rewrite Hin; tauto).
  apply not_elem_of_cons in Hyl as [Hyz Hyl]. rewrite elem_of_app in Hyl, Hzn.
  assert (Hr2 : addr r = NIL_SYM ∨ addr r ∈ inorder r).
  { destruct (leaf_or r) as [->|]; [by left|right; by apply addr_in]. }
  assert (Hnilz : z ≠ NIL_SYM).
  { assert (H2 : 2 ≤ z) by (apply Ha, Hin; by left). unfold NIL_SYM. lia. }
  assert (Hnill : addr l ≠ NIL_SYM).
  { assert (H2 : 2 ≤ addr l) by (apply Ha, Hin; right; apply elem_of_app; by left). unfold NIL_SYM. lia. }
  assert (Hnily : y ≠ NIL_SYM) by (unfold NIL_SYM; lia).
  split; [done|]. split; [by rewrite elem_of_app|]. do 4 (split; [done|]). split; [by eexists|].
  split; [destruct (repr_addr _ _ _ Hrl l_node) as (nl & ? & _); eauto|]. split.
  { destruct (leaf_or r) as [->|Hne].
    - destruct (ok_nil _ _ Hok) as (nd & ? & _). eauto.
    - destruct (repr_addr _ _ _ Hrr Hne) as (nr & ? & _). eauto. }
  apply NoDup_app in Hn as (_ & Hlr & _). specialize (Hlr _ Hl).
  repeat split; try tauto; destruct Hr2 as [->|Hr2]; try done; intros He; rewrite He in *; tauto.
Qed.

Lemma place_parent : par cs ≠ NULL →
  (2 ≤ par cs ∧ par cs ∈ before cs ++ behind cs) ∧
  par cs ≠ y ∧ par cs ≠ z ∧ par cs ≠ addr l ∧ par cs ≠ addr r ∧
  ∃ np s2, heap s !! par cs = Some np ∧ near s2 np = z ∧ near (negb s2) np ≠ z.
Proof using Hok l_node Hyn y_addr y_out.
  intros Hpn. pose proof place_facts as (_ & _ & Hl & Hin & _).
  pose proof (tree_focus _ _ _ Hok) as [_ Hp _ _ Hd Ha Ha'].
  assert (Hpi : par cs ∈ before cs ++ behind cs) by (apply par_in; by intros ->).
  assert (Hne : ∀ q, q ∈ z :: inorder l ++ inorder r → par cs ≠ q).
  { intros q Hq <-. apply (Hd (par cs)); [by apply Hin|done]. }
  assert (H2 : 2 ≤ par cs) by by apply Ha'.
  split; [done|]. split.
  { intros He. apply y_out. rewrite inorder_plug, !elem_of_app. rewrite <- He.
    rewrite elem_of_app in Hpi. tauto. }
  split; [apply Hne; by left|]. split; [apply Hne; right; apply elem_of_app; by left|]. split.
  { destruct (leaf_or r) as [->|Hr%addr_in]; [cbn; unfold NIL_SYM; lia|].
    apply Hne. right. apply elem_of_app. by right. }
  apply (path_top _ _ _ Hp); [by intros ->| |].
  - assert (H3 : 2 ≤ z) by (apply Ha, Hin; by left). unfold NIL_SYM. cbn. lia.
  - apply Hd, Hin. by left.
Qed.

(** What [take_place] leaves. *)
Record placed (s' : store) : Prop := {
  pc_y : heap s' !! y = Some (Node c (par cs) (addr l) (addr r) (n_data yn));
  pc_l : ∀ n, heap s !! addr l = Some n → heap s' !! addr l = Some (with_parent y n);
  pc_r : ∀ n, heap s !! addr r = Some n → heap s' !! addr r = Some (with_parent y n);
  pc_par : ∀ np s2, par cs ≠ NULL → heap s !! par cs = Some np → near s2 np = z →
    heap s' !! par cs = Some (with_near s2 y np);
  pc_out : ∀ q, q ≠ y → q ≠ addr l → q ≠ addr r → (par cs ≠ NULL → q ≠ par cs) → heap s' !! q = heap s !! q;
  pc_root : root s' = (if Nat.eqb (par cs) NULL then y else root s);
  pc_next : next s' = next s;
  pc_count : symbolCount s' = symbolCount s
}.

Lemma place_run : ∃ s', take_place y z s = Ok s' ∧ placed s'.
Proof using Hok l_node Hyn y_addr y_out.
  pose proof place_facts as (Hn & Hzn & Hl & Hin & Hrl & Hrr & (d & Hz) & (nl & Hnl) & (nr & Hnr) & Hlr & Hrz
    & Hry & Hyz & Hyl & Hyr).
  destruct (take_place_raw s y z c (par cs) (addr l) (addr r) d yn nl nr Hz Hyn Hnl Hnr) as
    (s' & E & H1 & H2 & H3 & H4 & H5 & H6 & H7 & H8); try done.
  { by intros He; rewrite He in Hl. }
  { intros He. apply Hzn. rewrite <- He. apply elem_of_app. by left. }
  { intros Hpn%place_parent. tauto. }
  exists s'. split; [done|]. split; try done; intros n Hn'; congruence.
Qed.

Lemma placed_touches s' : placed s' → touches (NIL_SYM :: y :: inorder (plug cs (Br c l z r))) s s'.
Proof using Hok l_node Hyn y_addr y_out.
  intros [P1 P2 P3 P4 P5 P6 P7 P8].
  pose proof place_facts as (Hn & Hzn & Hl & Hin & Hrl & Hrr & (d & Hz) & (nl & Hnl) & (nr & Hnr) & _).
  split; [| |done|done].
  - intros q. destruct (decide (q = y)) as [->|Hqy]; [by rewrite P1, Hyn|].
    destruct (decide (q = addr l)) as [->|Hql]; [by rewrite (P2 _ Hnl), Hnl|].
    destruct (decide (q = addr r)) as [->|Hqr]; [by rewrite (P3 _ Hnr), Hnr|].
    destruct (decide (par cs ≠ NULL ∧ q = par cs)) as [[Hpn ->]|Hqp].
    + destruct (place_parent Hpn) as (_ & _ & _ & _ & _ & np & s2 & Hnp & Hn2 & _).
      rewrite (P4 _ _ Hpn Hnp Hn2), Hnp. by destruct s2.
    + rewrite P5; try done. intros Hpn He. by apply Hqp.
  - intros q [Hqn [Hqy Hq]%not_elem_of_cons]%not_elem_of_cons. rewrite inorder_plug, !elem_of_app in Hq.
    assert (Hq' : q ∉ z :: inorder l ++ inorder r) by (rewrite Hin; tauto).
    rewrite not_elem_of_cons, elem_of_app in Hq'. apply P5; [done| | |].
    + intros ->. tauto.
    + intros ->. destruct (leaf_or r) as [E|Hr%addr_in]; [by rewrite E in Hqn|tauto].
    + intros Hpn ->. destruct (place_parent Hpn) as ((_ & Hpi) & _). rewrite elem_of_app in Hpi. tauto.
Qed.

Lemma inorder_at cs' c' l' a r' :
  inorder (plug cs' (Br c' l' a r')) ≡ₚ a :: before cs' ++ inorder l' ++ inorder r' ++ behind cs'.
Proof.
  rewrite inorder_plug. cbn [inorder]. rewrite <- (Permutation_middle (inorder l')). cbn.
  rewrite <- Permutation_middle. by rewrite <- app_assoc.
Qed.

Lemma placed_tree s' : placed s' → tree_ok s' (plug cs (Br c l y r)).
Proof using Hok l_node Hyn y_addr y_out.
  intros Hpl. pose proof (placed_touches s' Hpl) as Ht. destruct Hpl as [P1 P2 P3 P4 P5 P6 P7 P8].
  pose proof place_facts as (Hn & Hzn & Hl & Hin & Hrl & Hrr & (d & Hz) & (nl & Hnl) & (nr & Hnr) & Hlr & Hrz
    & Hry & Hyz & Hyl & Hyr).
  pose proof (tree_focus _ _ _ Hok) as [_ Hp _ Hn' Hd Ha Ha'].
  assert (Hnull : par cs = NULL ↔ cs = []) by (apply par_null; intros; by apply Ha').
  assert (Hsub : ∀ q, q ∈ inorder l ++ inorder r → par cs ≠ NULL → q ≠ par cs).
  { intros q Hq Hpn ->. destruct (place_parent Hpn) as ((_ & Hpi) & _).
    apply (Hd (par cs)); [apply Hin; by right|done]. }
  apply NoDup_app in Hn as (Hnl' & Hdisj & Hnr').
  split.
  - rewrite P6. assert (Hc : cs = [] ∨ cs ≠ []) by (destruct cs; auto). destruct Hc as [->|Hne]; [done|].
    rewrite (proj2 (Nat.eqb_neq _ _)) by tauto. rewrite (ok_root _ _ Hok). by apply addr_plug.
  - apply repr_plug. cbn [addr]. split; [split; [|split]|].
    + eexists. exact P1.
    + apply (repr_move' (heap s) _ _ z); [done|done|..].
      * intros a Hai Hne. apply P5; [by intros ->|done| |apply Hsub; apply elem_of_app; by left].
        intros ->. destruct (leaf_or r) as [E|Hr%addr_in]; [|by apply (Hdisj (addr r))].
        assert (H2 : 2 ≤ addr r) by (apply Ha, Hin; right; apply elem_of_app; by left).
        rewrite E in H2. cbn in H2. unfold NIL_SYM in H2. lia.
      * intros n _ Hn. by apply P2.
    + apply (repr_move' (heap s) _ _ z); [done|done|..].
      * intros a Hai Hne. apply P5; [by intros ->| |done|apply Hsub; apply elem_of_app; by right].
        intros ->. by apply (Hdisj (addr l)).
      * intros n _ Hn. by apply P3.
    + apply (path_child (heap s) _ _ z); [done|done|..].
      * intros a Hai Hne. apply P5; [| | |done].
        -- intros ->. apply y_out. rewrite inorder_plug, !elem_of_app. rewrite elem_of_app in Hai. tauto.
        -- intros ->. apply (Hd (addr l)); [apply Hin; right; apply elem_of_app; by left|done].
        -- intros ->. destruct (leaf_or r) as [E|Hr%addr_in].
           ++ apply Ha' in Hai. rewrite E in Hai. cbn in Hai. unfold NIL_SYM in Hai. lia.
           ++ apply (Hd (addr r)); [apply Hin; right; apply elem_of_app; by right|done].
      * intros sd c' a sib cs' d' Ecs He. assert (Hpa : par cs = a) by by rewrite Ecs.
        assert (Hpn : par cs ≠ NULL) by (rewrite Hnull, Ecs; done).
        rewrite <- Hpa in He |- *. rewrite (P4 _ sd Hpn He); by destruct sd.
  - pose proof (ok_nodup _ _ Hok) as Hnd. rewrite inorder_at in Hnd, y_out |- *.
    apply NoDup_cons in Hnd as [_ Hnd]. apply NoDup_cons. split; [|done]. by apply not_elem_of_cons in y_out as [_ ?].
  - intros q Hq. rewrite P7. rewrite inorder_at in Hq. apply elem_of_cons in Hq as [->|Hq].
    + split; [done|]. by eapply (ok_heap _ _ Hok).
    + apply (ok_addrs _ _ Hok). rewrite inorder_at. by right.
  - eapply touches_heap; [exact Ht|apply Hok].
  - destruct (ok_nil _ _ Hok) as (nd & Hnil & Hblack).
    destruct (decide (NIL_SYM = addr r)) as [E|E].
    + rewrite E in Hnil |- *. rewrite (P3 _ Hnil). by eexists.
    + rewrite P5; [eauto|unfold NIL_SYM; lia| |done|].
      * assert (H2 : 2 ≤ addr l) by (apply Ha, Hin; right; apply elem_of_app; by left). unfold NIL_SYM. lia.
      * intros Hpn%place_parent. unfold NIL_SYM. lia.
Qed.

Lemma take_place_ok : ∃ s', take_place y z s = Ok s' ∧ tree_ok s' (plug cs (Br c l y r)) ∧
  touches (NIL_SYM :: y :: inorder (plug cs (Br c l z r))) s s' ∧
  (r = Leaf → parent_of NIL_SYM s' = Ok y) ∧ (r ≠ Leaf → heap s' !! NIL_SYM = heap s !! NIL_SYM).
Proof using Hok l_node Hyn y_addr y_out.
  destruct place_run as (s' & E & Hpl). exists s'. split; [done|]. split; [by apply placed_tree|].
  split; [by apply placed_touches|].
  pose proof place_facts as (_ & _ & Hl & Hin & _ & _ & _ & _ & (nr & Hnr) & _).
  pose proof (fo_addrs _ _ _ (tree_focus _ _ _ Hok)) as Ha. split.
  - intros Er. pose proof (pc_r _ Hpl _ Hnr) as Hp. rewrite Er in Hp. by rewrite (field_ok _ _ _ _ Hp).
  - intros Hr%addr_in. apply (pc_out _ Hpl); [unfold NIL_SYM; lia|..].
    + assert (H2 : 2 ≤ addr l) by (apply Ha, Hin; right; apply elem_of_app; by left). unfold NIL_SYM. lia.
    + assert (H2 : 2 ≤ addr r) by (apply Ha, Hin; right; apply elem_of_app; by right). unfold NIL_SYM. lia.
    + intros Hpn%place_parent. unfold NIL_SYM. lia.
Qed.

End Place.

(** ** The repair at the place of the removed structure *)

(** The red-black conditions around the only child of a removed structure of
    color [cy]. *)
Record cut (cs : list crumb) (t : tree) (cy : color) (n : nat) (any : bool) : Prop := {
  cu_hole : hole cs any (if cy is BLACK then S n else n);
  cu_rb : rb n t;
  cu_red : cy = RED → any = true
}.

Lemma cut_here cs cy l y r : rbtree (plug cs (Br cy l y r)) → l = Leaf ∨ r = Leaf →
  ∃ n any, cut cs (only_child l r) cy n any.
Proof.
  intros Hrb Hone. destruct (rb_unplug _ _ Hrb) as (n & any & Hn & Hh & Hany).
  assert (Ho : ∀ m, rb m l → rb m r → rb m (only_child l r)) by (intros; unfold only_child; by destruct l).
  inversion Hn as [|? ? ? ? Hl Hr|? ? ? ? Hl Hr]; subst; eexists _, any; split; eauto.
  - intros _. by destruct Hany.
  - done.
Qed.

(** The addresses on the path do not matter. *)
Lemma hole_rename cs2 side c a b sib cs : ∀ any n,
  hole (cs2 ++ Crumb side c a sib :: cs) any n → hole (cs2 ++ Crumb side c b sib :: cs) any n.
Proof.
  induction cs2 as [|k cs2 IH]; cbn; inversion 1; subst; econstructor; eauto.
Qed.

Lemma repair_ok s cs t cy n any : deleting s cs t → cut cs t cy n any →
  ∃ s' T', (if decide (cy = BLACK) then deleteFixup (addr t) s else Ok s) = Ok s' ∧
    moves s (plug cs t) s' T' ∧ rbtree T'.
Proof.
  intros Hd [Hh Hn Hred]. pose proof (de_tree _ _ _ Hd) as Hok. case_decide as E.
  - subst cy. apply (deleteFixup_ok s cs t n any); [done| |done|].
    + destruct t as [|[] ? ? ?]; [done..|]. by inversion Hn.
    + pose proof (size_enough_nil _ _ Hok). pose proof (length_path cs t). lia.
  - destruct cy; [done|]. exists s, (plug cs t). split; [done|]. split; [by apply moves_refl|].
    eapply rb_plug; [exact Hh|done|left; by apply Hred].
Qed.

(** ** The symbol that leaves its place *)

Section Cut.
Variables (s : store) (cs : list crumb) (c : color) (l : tree) (z : ptr) (r : tree).
Abbreviation T := (plug cs (Br c l z r)).
Hypothesis Hok : tree_ok s T.
Lemma child_not_nil t : t ≠ Leaf → (∀ a, a ∈ inorder t → a ∈ inorder T) → Nat.eqb (addr t) NIL_SYM = false.
Proof using Hok.
  intros Ht%addr_in Hin. apply Nat.eqb_neq. specialize (Hin _ Ht). apply (ok_addrs _ _ Hok) in Hin.
  unfold NIL_SYM. lia.
Qed.

Lemma spliced_ok :
  ((l = Leaf ∨ r = Leaf) ∧ spliced z s = Ok z) ∨
  (l ≠ Leaf ∧ ∃ cs2 cy y ry, spliced z s = Ok y ∧ r = plug cs2 (Br cy Leaf y ry) ∧ before cs2 = []).
Proof using Hok.
  destruct (reads_ok s cs true c l z r Hok) as (Hl & Hr & _). unfold spliced. rewrite Hl, Hr.
  cbn -[leftmost]. destruct (leaf_or l) as [->|Hl']; [left; auto|].
  destruct (leaf_or r) as [->|Hr']; [left; rewrite orb_true_r; auto|].
  rewrite !child_not_nil by (done || intros a Ha; rewrite inorder_plug; cbn; set_solver).
  right. split; [done|]. cbn [orb].
  destruct (leftmost_ok s (size (heap s)) r (Crumb false c z l :: cs) Hr' Hok) as (cs2 & cy & y & ry & H).
  - pose proof (size_enough _ _ Hok) as H. rewrite inorder_plug, !length_app in H. cbn in H.
    rewrite length_app in H. cbn in H. lia.
  - by exists cs2, cy, y, ry.
Qed.

Hypothesis Hrb : rbtree T.

(** The state the repair starts from. *)
Definition cut_off : Prop :=
  ∃ y s1 s2 cs' t cy n any,
    spliced z s = Ok y ∧ unlink y s = Ok (addr t, s1) ∧ color_of y s1 = Ok cy ∧
    (if Nat.eqb y z then Ok s1 else take_place y z s1) = Ok s2 ∧
    deleting s2 cs' t ∧ cut cs' t cy n any ∧
    touches (NIL_SYM :: inorder T) s s2 ∧
    inorder (plug cs' t) = before cs ++ inorder l ++ inorder r ++ behind cs.

Lemma cut_one : l = Leaf ∨ r = Leaf → spliced z s = Ok z → cut_off.
Proof using Hok Hrb.
  intros Hone Hsp. destruct (unlink_ok s cs c l z r Hok Hone) as (s1 & E & Hd & Ht & Hz).
  destruct (cut_here cs c l z r Hrb Hone) as (n & any & Hcut).
  destruct (reads_ok s cs true c l z r Hok) as (_ & _ & Hc & _).
  exists z, s1, s1, cs, (only_child l r), c, n, any. split; [done|]. split; [done|].
  split; [unfold field in *; by rewrite Hz|]. rewrite Nat.eqb_refl. split; [done|]. split; [done|].
  split; [done|]. split; [done|]. rewrite inorder_plug. f_equal. rewrite app_assoc. f_equal.
  unfold only_child. destruct Hone as [->| ->]; [done|]. destruct l; [done|]. by rewrite app_nil_r.
Qed.

Lemma cut_two cs2 cy y ry : l ≠ Leaf → spliced z s = Ok y → r = plug cs2 (Br cy Leaf y ry) →
  before cs2 = [] → cut_off.
Proof using Hok Hrb.
  intros Hl Hsp Er Hb2. pose proof Hok as Hok'. pose proof Hrb as Hrb'. pose proof (ok_nodup _ _ Hok) as Hnd.
  set (csz := cs2 ++ Crumb false c z l :: cs). set (csy := cs2 ++ Crumb false c y l :: cs).
  assert (ET : T = plug csz (Br cy Leaf y ry)) by (unfold csz; rewrite plug_app, Er; done).
  rewrite ET in Hok', Hrb'.
  destruct (unlink_ok s csz cy Leaf y ry Hok' (or_introl eq_refl)) as (s1 & E1 & Hd1 & Ht1 & Hy1).
  destruct (cut_here csz cy Leaf y ry Hrb' (or_introl eq_refl)) as (n & any & Hcut).
  cbn [only_child] in E1, Hd1, Hcut. pose proof (de_tree _ _ _ Hd1) as Hok1. rewrite <- ET in Ht1.
  assert (Ez : plug csz ry = plug cs (Br c l z (plug cs2 ry))) by (unfold csz; by rewrite plug_app).
  assert (Ey : plug csy ry = plug cs (Br c l y (plug cs2 ry))) by (unfold csy; by rewrite plug_app).
  rewrite Ez in Hok1.
  assert (Hi : inorder T ≡ₚ y :: inorder (plug cs (Br c l z (plug cs2 ry)))).
  { rewrite ET, <- Ez, !inorder_plug. cbn. by rewrite <- Permutation_middle. }
  rewrite Hi in Hnd. apply NoDup_cons in Hnd as [Hyo _].
  assert (Hy2 : 2 ≤ y) by (apply (ok_addrs _ _ Hok); rewrite Hi; by left).
  destruct (node_ok s csz true cy Leaf y ry Hok') as (dy & Hny).
  destruct (reads_ok s csz true cy Leaf y ry Hok') as (_ & _ & Hc & _).
  rewrite Hny in Hy1. destruct (take_place_ok s1 cs c l z (plug cs2 ry) y _ Hok1 Hl Hy1 Hy2 Hyo)
    as (s2 & E2 & Hok2 & Ht2 & Hnil & Hnil').
  assert (Hyz : y ≠ z) by (intros ->; apply Hyo; rewrite inorder_plug; cbn; set_solver).
  exists y, s1, s2, csy, ry, cy, n, any. split; [done|]. split; [done|].
  split; [by rewrite (field_ok _ _ _ _ Hy1)|]. rewrite (proj2 (Nat.eqb_neq _ _) Hyz).
  split; [done|]. split; [|split; [|split]].
  - split; [by rewrite Ey|]. destruct (leaf_or ry) as [->|Hry].
    + unfold csy. assert (H : cs2 = [] ∨ cs2 ≠ []) by (destruct cs2; auto). destruct H as [->|Hne].
      * by apply Hnil.
      * assert (Hpl : plug cs2 Leaf ≠ Leaf).
        { destruct cs2 as [|[sd ? ? ?] cs3]; [done|]. apply (plug_not_leaf cs3), br_not_leaf. }
        pose proof (de_parent _ _ _ Hd1) as Hp. unfold field in *. cbn [addr] in *. rewrite (Hnil' Hpl), Hp.
        unfold csz. destruct cs2 as [|[] ?]; done.
    + apply (parent_ok s2); [by rewrite Ey|done].
  - destruct Hcut as [Hh H2 H3]. split; [|done..]. unfold csy. eapply hole_rename, Hh.
  - eapply touches_trans; [exact Ht1|]. destruct Ht2 as [K1 K2 K3 K4]. split; try done.
    intros p Hp. apply K2. rewrite Hi in Hp. set_solver.
  - rewrite Ey, Er, !inorder_plug. cbn. rewrite !inorder_plug, Hb2. cbn.
    rewrite <- !app_assoc. cbn. by rewrite <- !app_assoc.
Qed.

Lemma cut_ok : cut_off.
Proof using Hok Hrb.
  destruct spliced_ok as [[H1 H2]|(Hl & cs2 & cy & y & ry & H1 & H2 & H3)]; [by apply cut_one|].
  by eapply cut_two.
Qed.

End Cut.

(** ** deleteSymbol *)

Lemma symbols_norm s T : symbols_ok s T → T ≠ Leaf → norm s = s.
Proof.
  intros [Hok _ _] Hne%addr_in. unfold norm in *. destruct (Nat.eqb_spec (root s) NULL); [|done].
  pose proof (ok_addrs _ _ Hok _ Hne) as H2. rewrite <- (ok_root _ _ Hok) in H2. cbn in H2.
  unfold NIL_SYM in H2. lia.
Qed.

(** What a deletion does to a tree of symbols. *)
Lemma deleteSymbol_ok s T key : symbols_ok s T → key ≠ EmptyString →
  (∃ A z B s' T', inorder T = A ++ z :: B ∧ name_in s z = key ∧
    deleteSymbol key s = Ok (true, s') ∧ tree_ok s' T' ∧ rbtree T' ∧ inorder T' = A ++ B ∧
    touches (NIL_SYM :: inorder T) s (set_count (symbolCount s) s') ∧
    symbolCount s' = (symbolCount s - 1)%Z) ∨
  ((∃ cs, T = plug cs Leaf ∧ belongs s key cs) ∧ deleteSymbol key s = Ok (false, s)).
Proof.
  intros Hs Hk. unfold deleteSymbol.
  destruct (search_tree_ok s T key Hs Hk) as [(z & Hz & Hn & ->)|(cs & HT & Hb & ->)];
    [left|right; eauto].
  destruct (at_end _ _ Hz) as (cs & c & l & r & ET). pose proof (symbols_norm _ _ Hs) as Hnorm.
  destruct Hs as [Hok Hrb Hna]. rewrite Hnorm in Hok by (intros E; rewrite E in Hz; by apply not_elem_of_nil in Hz).
  subst T. destruct (cut_ok s cs c l z r Hok Hrb) as
    (y & s1 & s2 & cs' & t & cy & n & any & E1 & E2 & E3 & E4 & Hd & Hcut & Ht & Hi).
  destruct (repair_ok _ _ _ _ _ _ Hd Hcut) as (s3 & T3 & E5 & [M1 M2 M3] & R3).
  cbn [mbind result_bind]. rewrite E1. cbn [mbind result_bind]. rewrite E2. cbn [mbind result_bind].
  rewrite E3. cbn [mbind result_bind]. rewrite E4. cbn [mbind result_bind]. rewrite E5.
  cbn [mbind result_bind].
  exists (before cs ++ inorder l), z, (inorder r ++ behind cs),
    (set_count (symbolCount s3 - 1)%Z s3), T3.
  split; [by rewrite inorder_plug; cbn; rewrite <- !app_assoc|]. split; [done|].
  pose proof (to_count _ _ _ M3) as C3. pose proof (to_count _ _ _ Ht) as C2.
  split; [reflexivity|]. split; [by destruct M1|]. split; [done|].
  split; [by rewrite M2, Hi, <- !app_assoc|]. split; [|cbn; lia].
  destruct M3 as [t1 t2 t3 t4], Ht as [u1 u2 u3 u4]. split; cbn; [congruence| |congruence..].
  intros p Hp. rewrite t2, u2; [done..|]. rewrite Hi. rewrite inorder_plug in Hp. cbn in Hp. set_solver.
Qed.

(** ** collectSymbols *)

Lemma collectSymbols_ok s fuel : ∀ t cs acc, tree_ok s (plug cs t) → length (inorder t) < fuel →
  collectSymbols fuel (addr t) s acc = Ok (acc ++ inorder t).
Proof.
  induction fuel as [|fuel IH]; intros t cs acc Hok Hf; [lia|]. destruct t as [|c l a r].
  { cbn. by rewrite app_nil_r. }
  assert (Ha : 2 ≤ a) by (apply (ok_addrs _ _ Hok); rewrite inorder_plug; cbn; set_solver).
  cbn [addr collectSymbols]. rewrite !(proj2 (Nat.eqb_neq _ _)) by (unfold NIL_SYM, NULL; lia). cbn [orb].
  destruct (reads_ok s cs true c l a r Hok) as (Hl & Hr & _). rewrite Hl, Hr.
  cbn [inorder] in Hf. rewrite length_app in Hf. cbn [length] in Hf. cbn [mbind result_bind].
  rewrite (IH l (Crumb true c a r :: cs)) by (done || lia). cbn [mbind result_bind].
  rewrite (IH r (Crumb false c a l :: cs)) by (done || lia). by rewrite <- !app_assoc.
Qed.
