(* ===== verification/Symtable.v ===== *)
(** * The interface of the symbol tree (src/nl-symbol.c)

    What the operations on one tree promise to the contexts, in terms of the list
    of its symbols in the order of their names: the class [SymbolTree].  The
    instance is the red-black tree. *)

From stdpp Require Import base list numbers tactics strings gmap sorting.
From Stdlib Require Import ZArith Lia Ascii Sorting.Sorted.
From S2P Require Import Prelude Cell Symtree Redblack Insertion Symfind Deletion Symdelete.

#[global] Open Scope nat_scope.
#[local] Set Warnings "-clear-no-such-hyp".

(** ** Stores *)

(** The structure without what the tree does not look at. *)
Definition links (n : node) : color * ptr * ptr * ptr := (n_color n, n_parent n, n_left n, n_right n).

(** Addresses are below the next one and the sentinel is black. *)
Record arena (s : store) : Prop := {
  ar_heap : ∀ p n, heap s !! p = Some n → p < next s;
  ar_nil : ∃ n, heap s !! NIL_SYM = Some n ∧ n_color n = BLACK
}.

Definition contents_in (s : store) (a : ptr) : sym_cell :=
  match heap s !! a with Some n => pl_contents (n_data n) | None => NoContents end.

(** The names of the symbols are there and increase. *)
Record ordered (s : store) (A : list ptr) : Prop := {
  or_nonempty : ∀ a, a ∈ A → name_in s a ≠ EmptyString;
  or_sorted : StronglySorted (λ a b, before_name (name_in s a) (name_in s b)) A
}.

(** The names behind an underscore, with the contents. *)
Definition underscored (s : store) (a : ptr) : option (string * sym_cell) :=
  match name_in s a with String "_"%char key => Some (key, contents_in s a) | _ => None end.
Definition assocs (s : store) (A : list ptr) : list (string * sym_cell) := omap (underscored s) A.

(** Adding a symbol of that name between the others. *)
Record inserts (key : string) (A : list ptr) (s s' : store) (A' : list ptr) : Prop := {
  in_split : ∃ A1 A2, A = A1 ++ A2 ∧ A' = A1 ++ next s :: A2 ∧
    (∀ a, a ∈ A1 → before_name (name_in s a) key) ∧ (∀ a, a ∈ A2 → before_name key (name_in s a));
  in_grows : grows (next s) A s s';
  in_count : symbolCount s' = (symbolCount s + 1)%Z
}.

Record removes (z : ptr) (A : list ptr) (s s' : store) (A' : list ptr) : Prop := {
  re_split : ∃ A1 A2, A = A1 ++ z :: A2 ∧ A' = A1 ++ A2;
  re_touch : touches (NIL_SYM :: A) s (set_count (symbolCount s) s');
  re_count : symbolCount s' = (symbolCount s - 1)%Z
}.

(** ** The interface *)

Class SymbolTree (linked : store → ptr → list ptr → Prop) := {
  tree_arena s r A : linked s r A → arena s;
  tree_nodup s r A : linked s r A → NoDup A;
  tree_addrs s r A a : linked s r A → a ∈ A → 2 ≤ a ∧ is_Some (heap s !! a);
  tree_empty s : arena s → linked s NULL [];
  tree_frame s s' r A : linked s r A → arena s' →
    (∀ a, a ∈ A → links <$> heap s' !! a = links <$> heap s !! a) → linked s' r A;
  tree_find s A key : linked s (root s) A → ordered s A → key ≠ EmptyString →
    (∃ a, a ∈ A ∧ name_in s a = key ∧ ∀ force, findInsertSymbol key force s = Ok (a, s)) ∨
    ((∀ a, a ∈ A → name_in s a ≠ key) ∧ findInsertSymbol key false s = Ok (NULL, s) ∧
     ∃ s' A', findInsertSymbol key true s = Ok (next s, s') ∧ linked s' (root s') A' ∧
       inserts key A s s' A');
  tree_delete s A key : linked s (root s) A → ordered s A → key ≠ EmptyString →
    (∃ z s' A', z ∈ A ∧ name_in s z = key ∧ deleteSymbol key s = Ok (true, s') ∧
       linked s' (root s') A' ∧ removes z A s s' A') ∨
    ((∀ a, a ∈ A → name_in s a ≠ key) ∧ deleteSymbol key s = Ok (false, s));
  tree_list s r A acc : linked s r A → collectSymbols (S (size (heap s))) r s acc = Ok (acc ++ A);
  tree_assocs s r A acc : linked s r A → ordered s A →
    collectSymbolAssocs (S (size (heap s))) r s acc = Ok (acc ++ assocs s A)
}.

(** ** The red-black tree implements it *)

Definition rb_linked (s : store) (r : ptr) (A : list ptr) : Prop :=
  ∃ T, tree_ok (norm (set_root r s)) T ∧ rbtree T ∧ inorder T = A.

Lemma tree_ok_arena s T : tree_ok s T → arena s.
Proof. intros H. split; [apply (ok_heap _ _ H)|apply (ok_nil _ _ H)]. Qed.

Lemma repr_frame h h' t : ∀ p, (∀ a, a ∈ inorder t → links <$> h' !! a = links <$> h !! a) →
  repr h p t → repr h' p t.
Proof.
  induction t as [|c l IHl a r IHr]; intros p He; cbn; [done|]. intros ((d & Hd) & Hl & Hr). cbn in He.
  split; [|split; [apply IHl|apply IHr]; try done; intros x Hx; apply He; set_solver].
  assert (Ha : a ∈ inorder l ++ a :: inorder r) by set_solver. specialize (He a Ha). rewrite Hd in He.
  destruct (h' !! a) as [[c' p' l' r' d']|]; [|done]. cbn in He. injection He as -> -> -> ->. eauto.
Qed.

Lemma norm_set_root r s : norm (set_root r s) = set_root (if Nat.eqb r NULL then NIL_SYM else r) s.
Proof. unfold norm. cbn. by destruct (Nat.eqb r NULL). Qed.

Lemma set_root_id s : set_root (root s) s = s.
Proof. by destruct s. Qed.

Lemma rb_linked_ok s T : tree_ok s T → rbtree T → rb_linked s (root s) (inorder T).
Proof.
  intros Hok Hrb. exists T. rewrite set_root_id, (norm_id _ _ Hok). done.
Qed.

Lemma rb_linked_symbols s A : rb_linked s (root s) A → ordered s A →
  ∃ T, symbols_ok s T ∧ inorder T = A.
Proof.
  intros (T & Hok & Hrb & <-) [H1 H2]. exists T. rewrite set_root_id in Hok. split; [split; [done..|by split]|done].
Qed.

Lemma belongs_absent s key cs : belongs s key cs → ∀ a, a ∈ inorder (plug cs Leaf) → name_in s a ≠ key.
Proof.
  intros [H1 H2] a Ha He. rewrite inorder_plug in Ha. cbn in Ha.
  assert (before_name key key) as H.
  { apply elem_of_app in Ha as [Ha|Ha]; [specialize (H1 a Ha)|specialize (H2 a Ha)]; by rewrite He in *. }
  unfold before_name in H. rewrite (proj2 (strcmp_eq key key) eq_refl) in H. lia.
Qed.

Lemma rb_find s A key : rb_linked s (root s) A → ordered s A → key ≠ EmptyString →
  (∃ a, a ∈ A ∧ name_in s a = key ∧ ∀ force, findInsertSymbol key force s = Ok (a, s)) ∨
  ((∀ a, a ∈ A → name_in s a ≠ key) ∧ findInsertSymbol key false s = Ok (NULL, s) ∧
   ∃ s' A', findInsertSymbol key true s = Ok (next s, s') ∧ rb_linked s' (root s') A' ∧
     inserts key A s s' A').
Proof.
  intros Hl Ho Hk. destruct (rb_linked_symbols _ _ Hl Ho) as (T & Hs & <-).
  pose proof (findInsertSymbol_ok s T key true Hs Hk) as Ht.
  pose proof (findInsertSymbol_ok s T key false Hs Hk) as Hf.
  assert (Habs : ∀ a, (∃ cs, T = plug cs Leaf ∧ belongs s key cs) → a ∈ inorder T → name_in s a ≠ key).
  { intros a (cs & -> & Hb). by apply belongs_absent. }
  destruct Ht as [(a & Ha & Hn & E)|(cs & HT & Hb & s' & T' & E & Hok' & Hrb' & Hi & Hg & Hc)].
  - left. exists a. split; [done|]. split; [done|]. intros []; [done|].
    destruct (search_tree_ok s T key Hs Hk) as [(a' & _ & _ & E')|(cs & HT & Hb & _)].
    + unfold findInsertSymbol in *. rewrite E' in *. cbn in *. congruence.
    + exfalso. by eapply Habs; eauto.
  - right. split; [intros a; apply Habs; eauto|]. destruct Hf as [(a' & Ha' & Hn' & _)|(cs' & _ & _ & E')].
    { exfalso. by eapply Habs; eauto. }
    split; [done|]. exists s', (inorder T'). split; [done|]. split; [by apply rb_linked_ok|].
    destruct Hb as [Hb1 Hb2]. split; [|done..]. exists (before cs), (behind cs).
    subst T. rewrite inorder_plug. done.
Qed.

Lemma rb_delete s A key : rb_linked s (root s) A → ordered s A → key ≠ EmptyString →
  (∃ z s' A', z ∈ A ∧ name_in s z = key ∧ deleteSymbol key s = Ok (true, s') ∧
     rb_linked s' (root s') A' ∧ removes z A s s' A') ∨
  ((∀ a, a ∈ A → name_in s a ≠ key) ∧ deleteSymbol key s = Ok (false, s)).
Proof.
  intros Hl Ho Hk. destruct (rb_linked_symbols _ _ Hl Ho) as (T & Hs & <-).
  destruct (deleteSymbol_ok s T key Hs Hk) as
    [(A & z & B & s' & T' & HA & Hn & E & Hok & Hrb & Hi & Ht & Hc)|((cs & -> & Hb) & E)].
  - left. exists z, s', (A ++ B). split; [rewrite HA; set_solver|]. split; [done|]. split; [done|].
    split; [rewrite <- Hi; by apply rb_linked_ok|]. split; [|done..]. eauto.
  - right. split; [|done]. intros a. by apply belongs_absent.
Qed.

(** The traversals of the same shape visit the symbols in order. *)
Lemma collectSymbolAssocs_ok s fuel : ∀ t cs acc, tree_ok s (plug cs t) → length (inorder t) < fuel →
  (∀ a, a ∈ inorder t → name_in s a ≠ EmptyString) →
  collectSymbolAssocs fuel (addr t) s acc = Ok (acc ++ assocs s (inorder t)).
Proof.
  induction fuel as [|fuel IH]; intros t cs acc Hok Hf Hna; [lia|]. destruct t as [|c l a r].
  { cbn. by rewrite app_nil_r. }
  assert (Ha : 2 ≤ a) by (apply (ok_addrs _ _ Hok); rewrite inorder_plug; cbn; set_solver).
  cbn [addr collectSymbolAssocs]. rewrite !(proj2 (Nat.eqb_neq _ _)) by (unfold NIL_SYM, NULL; lia). cbn [orb].
  destruct (reads_ok s cs true c l a r Hok) as (Hl & Hr & _). rewrite Hl, Hr.
  destruct (node_ok s cs true c l a r Hok) as (d & Hnode).
  cbn [inorder] in Hf, Hna. rewrite length_app in Hf. cbn [length] in Hf. cbn [mbind result_bind].
  rewrite (IH l (Crumb true c a r :: cs)); [|done|lia|set_solver]. cbn [mbind result_bind].
  rewrite (name_of_ok s a) by (apply Hna; set_solver). cbn [mbind result_bind].
  rewrite (field_ok _ _ _ _ Hnode). cbn [mbind result_bind].
  rewrite (IH r (Crumb false c a l :: cs)); [|done|lia|set_solver].
  assert (Hu : underscored s a =
    match name_in s a with String "_"%char key => Some (key, pl_contents d) | _ => None end).
  { unfold underscored, contents_in. by rewrite Hnode. }
  unfold assocs. cbn [inorder]. rewrite omap_app. cbn [list_omap omap]. rewrite Hu. clear Hu.
  cbn [n_data]. repeat case_match; by rewrite <- ?app_assoc.
Qed.

Lemma collectSymbols_root r s fuel : ∀ p acc,
  collectSymbols fuel p (set_root r s) acc = collectSymbols fuel p s acc.
Proof.
  induction fuel as [|fuel IH]; intros p acc; cbn; [done|]. destruct (_ || _); [done|].
  change (left_of p (set_root r s)) with (left_of p s). destruct (left_of p s); cbn; [|done..].
  rewrite IH. destruct (collectSymbols fuel _ s acc); cbn; [|done..].
  change (right_of p (set_root r s)) with (right_of p s). destruct (right_of p s); cbn; [|done..]. by rewrite IH.
Qed.

Lemma collectSymbolAssocs_root r s fuel : ∀ p acc,
  collectSymbolAssocs fuel p (set_root r s) acc = collectSymbolAssocs fuel p s acc.
Proof.
  induction fuel as [|fuel IH]; intros p acc; cbn; [done|]. destruct (_ || _); [done|].
  change (left_of p (set_root r s)) with (left_of p s). destruct (left_of p s); cbn; [|done..].
  rewrite IH. destruct (collectSymbolAssocs fuel _ s acc); cbn; [|done..].
  change (name_of p (set_root r s)) with (name_of p s). destruct (name_of p s); cbn; [|done..].
  change (field n_data p (set_root r s)) with (field n_data p s). destruct (field n_data p s); cbn; [|done..].
  change (right_of p (set_root r s)) with (right_of p s). destruct (right_of p s); cbn; [|done..]. by rewrite IH.
Qed.

#[export] Instance rb_symbol_tree : SymbolTree rb_linked.
Proof.
  split.
  - intros s r A (T & Hok & _ & <-). destruct (tree_ok_arena _ _ Hok) as [H1 H2].
    rewrite norm_heap in *. rewrite norm_next in *. by split.
  - intros s r A (T & Hok & _ & <-). apply Hok.
  - intros s r A a (T & Hok & _ & <-) Ha. split; [by apply (ok_addrs _ _ Hok)|].
    pose proof (repr_dom _ _ _ (ok_repr _ _ Hok) a Ha) as H. rewrite norm_heap in H. by apply elem_of_dom.
  - intros s [H1 H2]. exists Leaf. split; [|split; [split; [done|exists 0; constructor]|done]].
    rewrite norm_set_root. split; cbn; try done; [constructor|intros a []%not_elem_of_nil].
  - intros s s' r A (T & Hok & Hrb & <-) [H1 H2] He. exists T. split; [|done]. rewrite norm_set_root in *.
    destruct Hok as [K1 K2 K3 K4 K5 K6]. cbn in *. split; cbn; try done.
    + by eapply repr_frame.
    + intros a Ha. split; [by apply K4|]. pose proof (repr_dom _ _ _ K2 a Ha) as [n Hn]%elem_of_dom.
      specialize (He a Ha). rewrite Hn in He. destruct (heap s' !! a) eqn:E; [|done]. by eapply H1.
  - apply rb_find.
  - apply rb_delete.
  - intros s r A acc (T & Hok & _ & <-). pose proof (size_enough _ _ Hok) as Hsz.
    pose proof (collectSymbols_ok _ (S (size (heap s))) T [] acc Hok) as H. rewrite norm_heap in Hsz.
    specialize (H ltac:(cbn in *; lia)).
    rewrite <- (ok_root _ _ Hok), norm_set_root, collectSymbols_root in H. cbn [root set_root] in H.
    destruct (Nat.eqb_spec r NULL) as [->|]; exact H.
  - intros s r A acc (T & Hok & _ & <-) [Hna _]. pose proof (size_enough _ _ Hok) as Hsz.
    rewrite norm_heap in Hsz.
    pose proof (collectSymbolAssocs_ok _ (S (size (heap s))) T [] acc Hok) as H.
    specialize (H ltac:(cbn in *; lia)).
    rewrite <- (ok_root _ _ Hok), norm_set_root, collectSymbolAssocs_root in H.
    cbn [root set_root] in H. specialize (H Hna).
    destruct (Nat.eqb_spec r NULL) as [->|]; exact H.
Qed.
