(* ===== verification/Context.v ===== *)
(** * Contexts and name space hashes (src/nl-symbol.c, src/newlisp.c)

    A context is a symbol whose contents is a context cell; the [aux] of that cell
    is the root of the tree of its symbols.  Used as a function, a context is a
    hash table of the symbols that start with an underscore.  The cells of the
    model are values; a value that is a context is a [ContextCell]. *)

From stdpp Require Import base list numbers tactics strings gmap pretty.
From Stdlib Require Import ZArith Lia String Ascii.
From S2P Require Import Prelude Cell Arith Symtree.

#[global] Open Scope Z_scope.

Definition SYMBOL_GLOBAL := 0x20.
Definition ERR_INVALID_PARAMETER := 44.

(** ** The tree of a context *)

(** [root = ((CELL * )context->contents)->aux]; with another cell its [aux] is no
    tree. *)
Definition context_tree (context : ptr) (s : store) : result ptr :=
  d ← field n_data context s;
  match pl_contents d with ContextCell _ aux => Ok aux | _ => UB end.

Definition set_context_tree (r context : ptr) (s : store) : result store :=
  d ← field n_data context s;
  match pl_contents d with
  | ContextCell q _ => set_data (Payload (pl_name d) (pl_flags d) (ContextCell q r) (pl_context d)) context s
  | _ => UB
  end.

Definition enter_context (context : ptr) (s : store) : result store :=
  r ← context_tree context s; Ok (set_root r s).

Definition set_contents (c : sym_cell) (p : ptr) (s : store) : result store :=
  d ← field n_data p s;
  set_data (Payload (pl_name d) (pl_flags d) c (pl_context d)) p s.

Definition lookupSymbol (token : string) (context : ptr) (s : store) : result (ptr * store) :=
  s ← enter_context context s;
  findInsertSymbol token false s.

(** ** Finding or creating a symbol *)

Section Main.
Variable mainContext : ptr.

(** A symbol of MAIN is inherited when it is global or a context. *)
Definition inherited (token : string) (s : store) : result (ptr * store) :=
  s ← enter_context mainContext s;
  '(p, s) ← findInsertSymbol token false s;
  if Nat.eqb p NULL then Ok (NULL, s)
  else
    d ← field n_data p s;
    if negb (Z.land (pl_flags d) SYMBOL_GLOBAL =? 0) then Ok (p, s)
    else match pl_contents d with
         | NoContents => UB
         | ContextCell q _ => Ok (if Nat.eqb q p then p else NULL, s)
         | OtherCell _ => Ok (NULL, s)
         end.

Definition locate (token : string) (context : ptr) (forceFlag : bool) (s : store)
    : result (ptr * store) :=
  s ← enter_context context s;
  if forceFlag then findInsertSymbol token true s
  else
    '(p, s) ← findInsertSymbol token false s;
    '(p, s) ← (if negb (Nat.eqb p NULL) then Ok (p, s)
               else if Nat.eqb context mainContext then Ok (NULL, s)
               else
                 '(p, s) ← inherited token s;
                 s ← enter_context context s;
                 Ok (p, s));
    if Nat.eqb p NULL then findInsertSymbol token true s else Ok (p, s).

(** What a new symbol is filled with. *)
Definition fresh_payload (token : string) (type : Z) (context p : ptr) (flags : Z) : payload :=
  if negb (type =? CELL_PRIMITIVE) && (type =? CELL_CONTEXT) && Nat.eqb context mainContext then
    Payload (Some token) (Z.lor flags (Z.lor SYMBOL_PROTECTED SYMBOL_GLOBAL)) (ContextCell p NULL) context
  else Payload (Some token) flags (OtherCell CNil) context.

Definition translateCreateSymbol (token : string) (type : Z) (context : ptr) (forceFlag : bool)
    (s : store) : result (ptr * store) :=
  '(p, s) ← locate token context forceFlag s;
  d ← field n_data p s;
  match pl_contents d with
  | NoContents =>
      s ← set_context_tree (root s) context s;
      s ← set_data (fresh_payload token type context p (pl_flags d)) p s;
      Ok (p, s)
  | _ => Ok (p, s)
  end.

End Main.

(** ** Deleting symbols *)

Definition freeMemory (p : ptr) (s : store) : result store :=
  match heap s !! p with
  | Some _ => Ok (with_heap (delete p (heap s)) s)
  | None => UB
  end.

(** With [checkReferences] the cells that hold the symbol are rewritten too. *)
Definition deleteAndFreeSymbol (p : ptr) (s : store) : result store :=
  d ← field n_data p s;
  s ← enter_context (pl_context d) s;
  name ← name_of p s;
  '(found, s) ← deleteSymbol name s;
  if (found : bool) then
    s ← set_context_tree (root s) (pl_context d) s;
    freeMemory p s
  else Ok s.

Fixpoint delete_all (l : list ptr) (s : store) : result store :=
  match l with
  | [] => Ok s
  | p :: l => s ← deleteAndFreeSymbol p s; delete_all l s
  end.

Definition deleteContextSymbols (context : ptr) (s : store) : result store :=
  r ← context_tree context s;
  l ← collectSymbols (S (size (heap s))) r s [];
  delete_all l s.

(** ** Name spaces as hash tables *)

(** A C string ends at its first 0. *)
Fixpoint c_string (s : string) : string :=
  match s with
  | EmptyString => EmptyString
  | String a s => if Ascii.eqb a zero then EmptyString else String a (c_string s)
  end.

(** The name of the symbol for a key. *)
Definition hash_token (key : sexp) : result string :=
  match key with
  | CLong n => Ok (String "_" (pretty n))
  | CFloat f => n ← integerFromFloat f; Ok (String "_" (pretty n))
  | CString k => Ok (String "_" (c_string k))
  | _ => UB
  end.

Definition makeSafeSymbol (mainContext : ptr) (key : sexp) (context : ptr) (flag : bool) (s : store)
    : result (ptr * store) :=
  token ← hash_token key;
  if flag then translateCreateSymbol mainContext token CELL_NIL context true s
  else lookupSymbol token context s.

Definition isKey (e : sexp) : bool :=
  match e with CString _ | CLong _ | CFloat _ => true | _ => false end.

Definition nil_contents (c : sym_cell) : bool :=
  match c with OtherCell e => isNil e | _ => false end.

Inductive hash_result : Type :=
  | NilResult
  | ContentsResult (c : sym_cell)
  | ContextResult (context : ptr)
  | AssocResult (l : list (string * sym_cell)).

Section Hash.
Variables mainContext itSymbol : ptr.

(** The value is evaluated after the symbol is there, with the old value in
    [$it]. *)
Definition hash_set (key : sexp) (ev : store → result (sym_cell * store)) (context : ptr) (s : store)
    : result (hash_result * store) :=
  '(p, s) ← makeSafeSymbol mainContext key context true s;
  d ← field n_data p s;
  s ← set_contents (pl_contents d) itSymbol s;
  '(v, s) ← ev s;
  s ← set_contents v itSymbol s;
  s ← set_contents v p s;
  s ← set_contents (OtherCell CNil) itSymbol s;
  if nil_contents v then
    s ← deleteAndFreeSymbol p s; Ok (NilResult, s)
  else Ok (ContentsResult v, s).

Definition hash_get (key : sexp) (context : ptr) (s : store) : result (hash_result * store) :=
  '(p, s) ← makeSafeSymbol mainContext key context false s;
  if Nat.eqb p NULL then Ok (NilResult, s)
  else d ← field n_data p s; Ok (ContentsResult (pl_contents d), s).

(** The elements up to the first that is no list are taken as associations. *)
Fixpoint hash_load (l : list sexp) (context : ptr) (s : store) : result store :=
  match l with
  | CExpr (key :: rest) :: l =>
      s ← (if isKey key then
             '(p, s) ← makeSafeSymbol mainContext key context true s;
             set_contents (OtherCell (default CNil (head rest))) p s
           else Ok s);
      hash_load l context s
  | CExpr [] :: l => hash_load l context s
  | _ => Ok s
  end.

Definition associationsFromTree (context : ptr) (s : store) : result (list (string * sym_cell)) :=
  r ← context_tree context s;
  collectSymbolAssocs (S (size (heap s))) r s [].

(** The argument is evaluated already; [value] is the second one. *)
Definition evaluateNamespaceHash (arg : sexp) (value : option (store → result (sym_cell * store)))
    (newContext : ptr) (s : store) : result (hash_result * store) :=
  if isKey arg then
    match value with
    | Some ev => hash_set arg ev newContext s
    | None => hash_get arg newContext s
    end
  else match arg with
  | CExpr l => s ← hash_load l newContext s; Ok (ContextResult newContext, s)
  | CNil => l ← associationsFromTree newContext s; Ok (AssocResult l, s)
  | _ => Fail ERR_INVALID_PARAMETER
  end.

End Hash.
