(* ===== verification/World.v ===== *)
(** * The contexts of a running program

    The trees of several contexts in one store: the invariant [world_ok], what an
    assignment to one structure does to it, and the view of a context as a map
    from names to values.  The proofs use the interface of Symtable.v only. *)

From stdpp Require Import base list numbers tactics strings gmap sorting.
From Stdlib Require Import ZArith Lia Ascii Sorting.Sorted.
From S2P Require Import Prelude Cell Order Symtree Redblack Insertion Symfind Symtable Context.

#[global] Open Scope nat_scope.
#[local] Set Warnings "-clear-no-such-hyp".

Definition data_in (s : store) (a : ptr) : option payload := n_data <$> heap s !! a.

Lemma name_in_data s s' a : data_in s' a = data_in s a → name_in s' a = name_in s a.
Proof. unfold data_in, name_in. destruct (heap s' !! a), (heap s !! a); cbn; congruence. Qed.

Lemma field_data s p : field n_data p s = match data_in s p with Some d => Ok d | None => UB end.
Proof. unfold field, data_in. by destruct (heap s !! p). Qed.

Lemma context_tree_data s s' c : data_in s' c = data_in s c → context_tree c s' = context_tree c s.
Proof. unfold context_tree. rewrite !field_data. by intros ->. Qed.

Lemma name_in_payload s a d : data_in s a = Some d → name_in s a = default EmptyString (pl_name d).
Proof. unfold data_in, name_in. destruct (heap s !! a); [|done]. cbn. by intros [= ->]. Qed.

Lemma contents_in_payload s a d : data_in s a = Some d → contents_in s a = pl_contents d.
Proof. unfold data_in, contents_in. destruct (heap s !! a); [|done]. cbn. by intros [= ->]. Qed.

(** ** Changing what the tree does not look at *)

Definition with_data (d : payload) (p : ptr) (s : store) : store :=
  with_heap (alter (λ n, Node (n_color n) (n_parent n) (n_left n) (n_right n) d) p (heap s)) s.

Lemma set_data_ok d p s : is_Some (data_in s p) → set_data d p s = Ok (with_data d p s).
Proof.
  unfold data_in, set_data, update, with_data. destruct (heap s !! p) as [n|] eqn:E; [|by intros [? ?]].
  intros _. do 2 f_equal. apply map_eq. intros q. destruct (decide (q = p)) as [->|].
  - by rewrite lookup_insert_eq, lookup_alter_eq, E.
  - by rewrite lookup_insert_ne, lookup_alter_ne.
Qed.

Lemma with_data_self d p s : is_Some (data_in s p) → data_in (with_data d p s) p = Some d.
Proof.
  unfold data_in, with_data. cbn. rewrite lookup_alter_eq. destruct (heap s !! p); [done|by intros [? ?]].
Qed.

Lemma with_data_other d p s a : a ≠ p → data_in (with_data d p s) a = data_in s a.
Proof. unfold data_in, with_data. cbn. intros. by rewrite lookup_alter_ne. Qed.

Lemma with_data_links d p s a : links <$> heap (with_data d p s) !! a = links <$> heap s !! a.
Proof.
  unfold with_data. cbn. destruct (decide (a = p)) as [->|]; [|by rewrite lookup_alter_ne].
  rewrite lookup_alter_eq. by destruct (heap s !! p) as [[]|].
Qed.

Lemma with_data_arena d p s : arena s → arena (with_data d p s).
Proof.
  intros [H1 (n & H2 & H3)]. split; unfold with_data; cbn.
  - intros q m. destruct (decide (q = p)) as [->|]; [|rewrite lookup_alter_ne by done; apply H1].
    rewrite lookup_alter_eq. destruct (heap s !! p) as [m'|] eqn:E; [|done]. intros _. by eapply H1.
  - destruct (decide (NIL_SYM = p)) as [<-|].
    + rewrite lookup_alter_eq, H2. by eexists.
    + rewrite lookup_alter_ne by done. eauto.
Qed.

Lemma set_contents_ok c p s d : data_in s p = Some d →
  set_contents c p s = Ok (with_data (Payload (pl_name d) (pl_flags d) c (pl_context d)) p s).
Proof.
  intros E. unfold set_contents. rewrite field_data, E. cbn -[set_data]. apply set_data_ok. by rewrite E.
Qed.

Lemma set_context_tree_ok r c s d q aux : data_in s c = Some d → pl_contents d = ContextCell q aux →
  set_context_tree r c s =
  Ok (with_data (Payload (pl_name d) (pl_flags d) (ContextCell q r) (pl_context d)) c s).
Proof.
  intros E Ec. unfold set_context_tree. rewrite field_data, E. cbn -[set_data]. rewrite Ec.
  apply set_data_ok. by rewrite E.
Qed.

(** ** The invariant *)

Section World.
Context {linked : store → ptr → list ptr → Prop} `{SymbolTree linked}.

(** The symbols of one context, in order. *)
Record context_ok (s : store) (c : ptr) (A : list ptr) : Prop := {
  cx_tree : ∃ r, context_tree c s = Ok r ∧ linked s r A;
  cx_ordered : ordered s A;
  cx_own : ∀ a, a ∈ A → ∃ d, data_in s a = Some d ∧ pl_context d = c ∧ pl_contents d ≠ NoContents
}.

Record world_ok (s : store) (W : gmap ptr (list ptr)) : Prop := {
  wo_arena : arena s;
  wo_ctx : ∀ c A, W !! c = Some A → context_ok s c A
}.

Lemma ordered_frame s s' A : ordered s A → (∀ a, a ∈ A → name_in s' a = name_in s a) → ordered s' A.
Proof.
  intros [H1 H2] He. split; [intros a Ha; rewrite He; auto|].
  induction H2 as [|a A Hs IH Hf]; constructor.
  - apply IH; intros x Hx; [apply H1|apply He]; by right.
  - rewrite List.Forall_forall in *. intros x Hx. specialize (Hf x Hx). apply list_elem_of_In in Hx.
    rewrite !He; [done|by right|by left].
Qed.

Lemma ordered_remove s A1 z A2 : ordered s (A1 ++ z :: A2) → ordered s (A1 ++ A2).
Proof.
  intros [N1 N2]. split; [intros a Ha; apply N1; set_solver|].
  rewrite StronglySorted_app, StronglySorted_cons in N2. destruct N2 as (N3 & N4 & _ & N5).
  apply StronglySorted_app. split; [|done]. intros a b Ha Hb. apply N3; [done|by right].
Qed.

(** An assignment may change the values of symbols, but not their names and
    contexts. *)
Definition keeps (s s' : store) (a : ptr) : Prop :=
  ∀ d, data_in s a = Some d → pl_contents d ≠ NoContents →
    ∃ d', data_in s' a = Some d' ∧ pl_name d' = pl_name d ∧ pl_context d' = pl_context d ∧
      pl_contents d' ≠ NoContents.

Lemma keeps_same s s' a : data_in s' a = data_in s a → keeps s s' a.
Proof. intros E d Hd Hc. exists d. by rewrite E. Qed.

Lemma keeps_name s s' a : keeps s s' a → (∃ d, data_in s a = Some d ∧ pl_contents d ≠ NoContents) →
  name_in s' a = name_in s a.
Proof.
  intros Hk (d & Hd & Hc). destruct (Hk d Hd Hc) as (d' & Hd' & Hn & _).
  by rewrite (name_in_payload _ _ _ Hd), (name_in_payload _ _ _ Hd'), Hn.
Qed.

Lemma context_frame s s' c A : context_ok s c A → arena s' →
  (∀ a, a ∈ A → links <$> heap s' !! a = links <$> heap s !! a) → (∀ a, a ∈ A → keeps s s' a) →
  (∀ r, context_tree c s = Ok r → context_tree c s' = Ok r) → context_ok s' c A.
Proof.
  intros [(r & Hr & Hl) Ho Hown] Ha Hlk Hk Ht. split.
  - exists r. split; [auto|]. by eapply tree_frame.
  - eapply ordered_frame; [exact Ho|]. intros a Hin. destruct (Hown a Hin) as (d & Hd & _ & Hc).
    apply keeps_name; eauto.
  - intros a Hin. destruct (Hown a Hin) as (d & Hd & Hx & Hc).
    destruct (Hk a Hin d Hd Hc) as (d' & Hd' & _ & Hx' & Hc'). exists d'. split; [done|]. by rewrite Hx'.
Qed.

Lemma own_apart s c c' A A' a : context_ok s c A → context_ok s c' A' → c ≠ c' → a ∈ A → a ∉ A'.
Proof.
  intros H1 H2 Hne Ha Ha'. destruct (cx_own _ _ _ H1 a Ha) as (d & Hd & Hc & _).
  destruct (cx_own _ _ _ H2 a Ha') as (d' & Hd' & Hc' & _). congruence.
Qed.

Lemma world_own s W c A a : world_ok s W → W !! c = Some A → a ∈ A →
  ∃ d, data_in s a = Some d ∧ pl_context d = c ∧ pl_contents d ≠ NoContents.
Proof. intros Hw Hc. by apply (cx_own _ _ _ (wo_ctx _ _ Hw _ _ Hc)). Qed.

Lemma context_cell s W c A : world_ok s W → W !! c = Some A →
  ∃ d q r, data_in s c = Some d ∧ pl_contents d = ContextCell q r ∧ context_tree c s = Ok r ∧ linked s r A.
Proof.
  intros Hw Hc. destruct (cx_tree _ _ _ (wo_ctx _ _ Hw _ _ Hc)) as (r & Ht & Hl).
  assert (Ht' := Ht). unfold context_tree in Ht'. rewrite field_data in Ht'. destruct (data_in s c) as [d|]; [|done].
  cbn in Ht'. destruct (pl_contents d) as [|q r'|] eqn:E; [done| |done]. injection Ht' as ->. eauto 10.
Qed.

Lemma set_root_world r s W : world_ok s W → world_ok (set_root r s) W.
Proof.
  intros [[H1 H2] Hc]. assert (arena (set_root r s)) as Ha by by split. split; [done|].
  intros c A HA. apply (context_frame s); auto. intros a _. by apply keeps_same.
Qed.

Lemma enter_context_ok s W c A : world_ok s W → W !! c = Some A →
  ∃ r, enter_context c s = Ok (set_root r s) ∧ linked (set_root r s) r A ∧ world_ok (set_root r s) W.
Proof.
  intros Hw Hc. destruct (context_cell _ _ _ _ Hw Hc) as (d & q & r & _ & _ & Ht & Hl). exists r.
  unfold enter_context. rewrite Ht. split; [done|]. pose proof (set_root_world r _ _ Hw) as Hw'. split; [|done].
  eapply tree_frame; [exact Hl|apply Hw'|done].
Qed.

(** Overwriting the contents of a symbol that is no context. *)
Lemma set_contents_world s W p d c : world_ok s W → data_in s p = Some d → W !! p = None → c ≠ NoContents →
  world_ok (with_data (Payload (pl_name d) (pl_flags d) c (pl_context d)) p s) W.
Proof.
  intros Hw Hd Hp Hc. split; [by apply with_data_arena, Hw|]. intros x A Hx.
  apply (context_frame s); [by apply Hw|by apply with_data_arena, Hw|intros; apply with_data_links| |].
  - intros a _. destruct (decide (a = p)) as [->|]; [|by apply keeps_same, with_data_other].
    intros d1 Hd1 _. rewrite Hd in Hd1. injection Hd1 as <-. eexists. by rewrite with_data_self.
  - intros r Hr. rewrite <- Hr. apply context_tree_data, with_data_other. congruence.
Qed.

(** ** Contexts as maps *)

(** The value of a symbol; where the tree of a context starts is not part of it. *)
Inductive value : Type := VContext (c : ptr) | VCell (e : sexp).

Definition value_of (c : sym_cell) : option value :=
  match c with
  | NoContents => None
  | ContextCell q _ => Some (VContext q)
  | OtherCell e => Some (VCell e)
  end.
Definition value_in (s : store) (a : ptr) : option value := value_of (contents_in s a).

Definition view (s : store) (A : list ptr) : gmap string value :=
  list_to_map (omap (λ a, v ← value_in s a; Some (name_in s a, v)) A).

Definition abs (s : store) (W : gmap ptr (list ptr)) : gmap ptr (gmap string value) := view s <$> W.

Lemma names_inj s A a b : ordered s A → a ∈ A → b ∈ A → name_in s a = name_in s b → a = b.
Proof.
  intros [_ Hs] Ha Hb He. assert (Hirr : ∀ k, ¬ before_name k k).
  { intros k Hk. unfold before_name in Hk. rewrite (proj2 (strcmp_eq k k) eq_refl) in Hk. lia. }
  induction Hs as [|x A Hs IH Hf]; [by apply not_elem_of_nil in Ha|]. rewrite List.Forall_forall in Hf.
  apply elem_of_cons in Ha as [->|Ha], Hb as [->|Hb]; [done|..].
  - apply list_elem_of_In, Hf in Hb. rewrite He in Hb. by apply Hirr in Hb.
  - apply list_elem_of_In, Hf in Ha. rewrite He in Ha. by apply Hirr in Ha.
  - auto.
Qed.

Lemma ordered_nodup s A : ordered s A → NoDup (name_in s <$> A).
Proof.
  intros [_ Hs]. induction Hs as [|x A Hs IH Hf]; cbn; constructor; [|done].
  intros (y & He & Hy)%list_elem_of_fmap. rewrite List.Forall_forall in Hf. apply list_elem_of_In, Hf in Hy.
  unfold before_name in Hy. rewrite He, (proj2 (strcmp_eq _ _) eq_refl) in Hy. lia.
Qed.

Lemma view_spec s A k v : ordered s A → view s A !! k = Some v ↔
  ∃ a, a ∈ A ∧ name_in s a = k ∧ value_in s a = Some v.
Proof.
  intros Ho. unfold view. set (f := λ a, v ← value_in s a; Some (name_in s a, v)).
  assert (Hin : ∀ k v, (k, v) ∈ omap f A ↔ ∃ a, a ∈ A ∧ name_in s a = k ∧ value_in s a = Some v).
  { intros k' v'. rewrite list_elem_of_omap. unfold f. split.
    - intros (a & Ha & Hf). destruct (value_in s a) eqn:E; [|done]. cbn in Hf. injection Hf as <- <-. eauto.
    - intros (a & Ha & <- & Hv). exists a. by rewrite Hv. }
  rewrite <- Hin. symmetry. apply elem_of_list_to_map.
  clear Hin. pose proof (ordered_nodup _ _ Ho) as Hn. clear Ho. induction A as [|a A IH]; [constructor|].
  cbn in Hn. apply NoDup_cons in Hn as [Ha Hn]. cbn. unfold f at 1. destruct (value_in s a); cbn; [|auto].
  constructor; [|auto]. intros ([k' v'] & He & Hx)%list_elem_of_fmap. cbn in He. subst k'.
  rewrite list_elem_of_omap in Hx. destruct Hx as (b & Hb & Hf). unfold f in Hf.
  destruct (value_in s b); [|done]. cbn in Hf. injection Hf as He _. apply Ha. rewrite <- He.
  by apply list_elem_of_fmap_2.
Qed.

Lemma view_ext s s' A : (∀ a, a ∈ A → name_in s' a = name_in s a ∧ value_in s' a = value_in s a) →
  view s' A = view s A.
Proof.
  intros He. unfold view. f_equal. induction A as [|a A IH]; [done|]. cbn.
  destruct (He a) as [-> ->]; [by left|]. rewrite IH; [done|]. intros x Hx. apply He. by right.
Qed.

(** A symbol gets another value. *)
Lemma view_update s s' A p v : ordered s A → ordered s' A → p ∈ A → value_in s' p = Some v →
  (∀ a, a ∈ A → name_in s' a = name_in s a) → (∀ a, a ∈ A → a ≠ p → value_in s' a = value_in s a) →
  view s' A = <[name_in s p := v]> (view s A).
Proof.
  intros Ho Ho' Hp Hv Hn He. apply map_eq. intros k. apply option_eq. intros w.
  rewrite lookup_insert_Some, !view_spec by done. split.
  - intros (a & Ha & <- & Hw). rewrite Hn by done. destruct (decide (a = p)) as [->|Hne].
    + left. split; [done|]. congruence.
    + right. split; [|exists a; by rewrite <- He]. intros E. by apply Hne, (names_inj s A).
  - intros [[<- <-]|(Hk & a & Ha & <- & Hw)].
    + exists p. by rewrite Hn.
    + exists a. split; [done|]. rewrite Hn by done. split; [done|]. rewrite He; [done|done|]. by intros ->.
Qed.

(** A symbol joins the others. *)
Lemma view_insert s s' A1 p A2 v : ordered s (A1 ++ A2) → ordered s' (A1 ++ p :: A2) →
  value_in s' p = Some v →
  (∀ a, a ∈ A1 ++ A2 → name_in s' a = name_in s a ∧ value_in s' a = value_in s a) →
  view s' (A1 ++ p :: A2) = <[name_in s' p := v]> (view s (A1 ++ A2)).
Proof.
  intros Ho Ho' Hv He. apply map_eq. intros k. apply option_eq. intros w.
  rewrite lookup_insert_Some, !view_spec by done. split.
  - intros (a & Ha & <- & Hw). destruct (decide (a = p)) as [->|Hne].
    + left. split; [done|]. congruence.
    + right. assert (Ha' : a ∈ A1 ++ A2) by set_solver. destruct (He a Ha') as [E1 E2].
      split; [|exists a; by rewrite <- E1, <- E2]. intros E. apply Hne. symmetry.
      eapply (names_inj s'); [exact Ho'|set_solver..|done].
  - intros [[<- <-]|(Hk & a & Ha & <- & Hw)].
    + exists p. split; [set_solver|done].
    + destruct (He a Ha) as [E1 E2]. exists a. rewrite E1, E2. split; [set_solver|done].
Qed.

(** A symbol leaves. *)
Lemma view_delete s s' A1 p A2 : ordered s (A1 ++ p :: A2) → ordered s' (A1 ++ A2) →
  (∀ a, a ∈ A1 ++ A2 → name_in s' a = name_in s a ∧ value_in s' a = value_in s a) →
  NoDup (A1 ++ p :: A2) →
  view s' (A1 ++ A2) = delete (name_in s p) (view s (A1 ++ p :: A2)).
Proof.
  intros Ho Ho' He Hnd. apply map_eq. intros k. apply option_eq. intros w.
  rewrite lookup_delete_Some, !view_spec by done. split.
  - intros (a & Ha & <- & Hw). destruct (He a Ha) as [E1 E2]. split.
    + intros E. assert (p = a) as <- by (eapply (names_inj s); [exact Ho|set_solver..|congruence]).
      rewrite <- Permutation_middle in Hnd. by apply NoDup_cons in Hnd as [? _].
    + exists a. rewrite <- E1, <- E2. split; [set_solver|done].
  - intros (Hk & a & Ha & <- & Hw). assert (a ≠ p) by (by intros ->).
    assert (Ha' : a ∈ A1 ++ A2) by set_solver. destruct (He a Ha') as [E1 E2]. exists a. by rewrite E1, E2.
Qed.

Lemma abs_lookup s W c A : W !! c = Some A → abs s W !! c = Some (view s A).
Proof. intros E. unfold abs. by rewrite lookup_fmap, E. Qed.

(** One context changes, the others look the same. *)
Lemma abs_insert s s' W c A' D : view s' A' = D →
  (∀ x A, x ≠ c → W !! x = Some A → view s' A = view s A) →
  abs s' (<[c := A']> W) = <[c := D]> (abs s W).
Proof.
  intros <- He. unfold abs. apply map_eq. intros x. rewrite fmap_insert.
  destruct (decide (x = c)) as [->|Hx]; [by rewrite !lookup_insert_eq|].
  rewrite !lookup_insert_ne, !lookup_fmap by done. destruct (W !! x) eqn:E; [|done]. cbn. f_equal. by apply (He x).
Qed.

End World.
