(* ===== verification/Symbols.v ===== *)
(** * Symbols of contexts (src/nl-symbol.c)

    [translateCreateSymbol], [deleteAndFreeSymbol] and [deleteContextSymbols] on
    the invariant of World.v, and what they do to the contexts seen as maps. *)

From stdpp Require Import base list numbers tactics strings gmap sorting.
From Stdlib Require Import ZArith Lia Ascii Sorting.Sorted.
From S2P Require Import Prelude Cell Order Symtree Redblack Insertion Symfind Symtable Context World.

#[global] Open Scope nat_scope.
#[local] Set Warnings "-clear-no-such-hyp".

(** Everything but the start of the tree of a context is the same. *)
Definition alike (s s' : store) (a : ptr) : Prop :=
  ∀ d, data_in s a = Some d → ∃ d', data_in s' a = Some d' ∧ pl_name d' = pl_name d ∧
    pl_flags d' = pl_flags d ∧ pl_context d' = pl_context d ∧
    value_of (pl_contents d') = value_of (pl_contents d).

Lemma alike_same s s' a : data_in s' a = data_in s a → alike s s' a.
Proof. intros E d Hd. exists d. by rewrite E. Qed.

Lemma alike_trans s1 s2 s3 a : alike s1 s2 a → alike s2 s3 a → alike s1 s3 a.
Proof.
  intros H1 H2 d Hd. destruct (H1 d Hd) as (d2 & Hd2 & ? & ? & ? & ?).
  destruct (H2 d2 Hd2) as (d3 & Hd3 & ? & ? & ? & ?). exists d3. split; [done|]. repeat split; congruence.
Qed.

Lemma value_of_some c : c ≠ NoContents ↔ value_of c ≠ None.
Proof. by destruct c. Qed.

Lemma alike_keeps s s' a : alike s s' a → keeps s s' a.
Proof.
  intros H d Hd Hc. destruct (H d Hd) as (d' & Hd' & Hn & _ & Hx & Hv). exists d'.
  rewrite value_of_some in Hc |- *. by rewrite Hv.
Qed.

Lemma alike_seen s s' a : alike s s' a → is_Some (data_in s a) →
  name_in s' a = name_in s a ∧ value_in s' a = value_in s a.
Proof.
  intros H [d Hd]. destruct (H d Hd) as (d' & Hd' & Hn & _ & _ & Hv). unfold value_in.
  by rewrite (name_in_payload _ _ _ Hd), (name_in_payload _ _ _ Hd'), (contents_in_payload _ _ _ Hd),
    (contents_in_payload _ _ _ Hd'), Hn.
Qed.

(** The cell of a context gets another tree. *)
Lemma retarget_alike d q r r' c s a : data_in s c = Some d → pl_contents d = ContextCell q r →
  alike s (with_data (Payload (pl_name d) (pl_flags d) (ContextCell q r') (pl_context d)) c s) a.
Proof.
  intros Hd Hc. destruct (decide (a = c)) as [->|]; [|by apply alike_same, with_data_other].
  intros d1 Hd1. rewrite Hd in Hd1. injection Hd1 as <-. eexists. rewrite with_data_self by done.
  split; [done|]. cbn. by rewrite Hc.
Qed.

Section Symbols.
Context {linked : store → ptr → list ptr → Prop} `{SymbolTree linked}.

#[local] Abbreviation world_ok := (world_ok (linked := linked)).
#[local] Abbreviation context_ok := (context_ok (linked := linked)).

Lemma world_data s W c A a : world_ok s W → W !! c = Some A → a ∈ A → is_Some (data_in s a).
Proof. intros Hw Hc Ha. destruct (world_own _ _ _ _ _ Hw Hc Ha) as (d & Hd & _). by eexists. Qed.

Lemma world_ordered s W c A : world_ok s W → W !! c = Some A → ordered s A.
Proof. intros Hw Hc. apply (cx_ordered _ _ _ (wo_ctx _ _ Hw _ _ Hc)). Qed.

(** The other contexts after an operation on the context [c]. *)
Lemma others_ok s s' W c A x B : world_ok s W → W !! c = Some A → W !! x = Some B → x ≠ c → arena s' →
  (∀ a, a ∈ B → a ∉ A → links <$> heap s' !! a = links <$> heap s !! a) →
  (∀ a, a ∈ B → a ∉ A → alike s s' a) → data_in s' x = data_in s x →
  context_ok s' x B ∧ view s' B = view s B.
Proof.
  intros Hw Hc Hx Hne Ha Hl Hk Hd.
  pose proof (wo_ctx _ _ Hw _ _ Hc) as Hc'. pose proof (wo_ctx _ _ Hw _ _ Hx) as Hx'.
  assert (Hout : ∀ a, a ∈ B → a ∉ A) by (intros a Hin; by eapply own_apart). split.
  - apply (context_frame s); auto.
    + intros a Hin. apply alike_keeps. auto.
    + intros r <-. by apply context_tree_data.
  - apply view_ext. intros a Hin. apply alike_seen; [auto|]. by eapply world_data.
Qed.

(** ** Looking up *)

Lemma find_in s W c A key : world_ok s W → W !! c = Some A → key ≠ EmptyString →
  ∃ r, enter_context c s = Ok (set_root r s) ∧ world_ok (set_root r s) W ∧
  ((∃ a, a ∈ A ∧ name_in s a = key ∧ ∀ force, findInsertSymbol key force (set_root r s) = Ok (a, set_root r s)) ∨
   ((∀ a, a ∈ A → name_in s a ≠ key) ∧
    findInsertSymbol key false (set_root r s) = Ok (NULL, set_root r s) ∧
    ∃ s' A', findInsertSymbol key true (set_root r s) = Ok (next s, s') ∧ linked s' (root s') A' ∧
      inserts key A (set_root r s) s' A')).
Proof.
  intros Hw Hc Hk. destruct (enter_context_ok _ _ _ _ Hw Hc) as (r & E & Hl & Hw'). exists r. split; [done|].
  split; [done|]. exact (tree_find (set_root r s) A key Hl (world_ordered _ _ _ _ Hw' Hc) Hk).
Qed.

(** ** Creating *)

(** A symbol [p] of that name and those data is new in the context. *)
Record created (s : store) (W : gmap ptr (list ptr)) (c : ptr) (A : list ptr) (key : string) (d : payload)
    (s' : store) (A' : list ptr) : Prop := {
  cr_world : world_ok s' (<[c := A']> W);
  cr_data : data_in s' (next s) = Some d;
  cr_alike : ∀ a, a ≠ next s → alike s s' a;
  cr_in : ∀ a, a ∈ A' ↔ a = next s ∨ a ∈ A;
  cr_abs : ∀ v, value_of (pl_contents d) = Some v →
    abs s' (<[c := A']> W) = <[c := <[key := v]> (view s A)]> (abs s W)
}.

Section Fill.
Variables (s s1 : store) (W : gmap ptr (list ptr)) (c : ptr) (A A' : list ptr) (key : string) (d : payload).
Hypothesis Hw : world_ok s W.
Hypothesis Hc : W !! c = Some A.
Hypothesis Hk : key ≠ EmptyString.
Hypothesis Hl : linked s1 (root s1) A'.
Hypothesis Hi : inserts key A s s1 A'.
Hypothesis Hname : pl_name d = Some key.
Hypothesis Hctx : pl_context d = c.
Hypothesis Hcont : pl_contents d ≠ NoContents.

Lemma fill_new : ∃ s2,
  set_context_tree (root s1) c s1 = Ok s2 ∧ field n_data (next s) s1 = Ok empty_payload ∧
  set_data d (next s) s2 = Ok (with_data d (next s) s2) ∧
  created s W c A key d (with_data d (next s) s2) A'.
Proof using All.
  destruct Hi as [(A1 & A2 & EA & EA' & Hb1 & Hb2) [G1 G2 G3 G4 _ _] _]. set (x := next s) in *.
  destruct (context_cell _ _ _ _ Hw Hc) as (dc & q & r & Hdc & Hcc & _ & _).
  assert (Hxs : data_in s x = None) by (unfold data_in; by rewrite G1).
  assert (Hx1 : data_in s1 x = Some empty_payload) by done.
  assert (Hcx : c ≠ x) by (intros E; congruence).
  assert (Hdc1 : data_in s1 c = Some dc) by (unfold data_in in *; by rewrite G2).
  set (s2 := with_data (Payload (pl_name dc) (pl_flags dc) (ContextCell q (root s1)) (pl_context dc)) c s1).
  assert (Hx2 : data_in s2 x = Some empty_payload) by (unfold s2; by rewrite with_data_other).
  exists s2. split; [by eapply set_context_tree_ok|]. split; [by rewrite field_data, Hx1|].
  split; [by apply set_data_ok|]. set (s3 := with_data d x s2).
  assert (Hal : ∀ a, a ≠ x → alike s s3 a).
  { intros a Ha. eapply alike_trans; [apply alike_same; unfold data_in; by apply G2|].
    eapply alike_trans; [|apply alike_same; by apply with_data_other]. by apply (retarget_alike _ _ r). }
  assert (Hlk : ∀ a, links <$> heap s3 !! a = links <$> heap s1 !! a).
  { intros a. unfold s3, s2. by rewrite !with_data_links. }
  assert (Har : arena s3) by (apply with_data_arena, with_data_arena; by eapply tree_arena).
  assert (Hd3 : data_in s3 x = Some d) by (apply with_data_self; by rewrite Hx2).
  assert (Hnx : name_in s3 x = key) by (by rewrite (name_in_payload _ _ _ Hd3), Hname).
  assert (HxA : ∀ y B a, W !! y = Some B → a ∈ B → a ≠ x).
  { intros y B a Hy Ha ->. destruct (world_data _ _ _ _ _ Hw Hy Ha) as [? ?]. congruence. }
  assert (Hseen : ∀ a, a ∈ A → name_in s3 a = name_in s a ∧ value_in s3 a = value_in s a).
  { intros a Ha. apply alike_seen; [apply Hal; by eapply HxA|by eapply world_data]. }
  assert (Hord : ordered s3 A').
  { pose proof (world_ordered _ _ _ _ Hw Hc) as Ho.
    assert (Ho3 : ordered s3 (A1 ++ A2)) by (rewrite <- EA; eapply ordered_frame; [done|apply Hseen]).
    rewrite EA in Hseen. destruct Ho3 as [N1 N2]. rewrite EA'. split.
    - intros a Ha. destruct (decide (a = x)) as [->|]; [by rewrite Hnx|]. apply N1. set_solver.
    - rewrite StronglySorted_app in N2 |- *. destruct N2 as (N3 & N4 & N5). split; [|split; [done|]].
      + intros a b Ha [->|Hb]%elem_of_cons; [|by apply N3]. rewrite Hnx.
        destruct (Hseen a) as [-> _]; [set_solver|]. by apply Hb1.
      + constructor; [done|]. rewrite List.Forall_forall. intros a Ha%list_elem_of_In. rewrite Hnx.
        destruct (Hseen a) as [-> _]; [set_solver|]. by apply Hb2. }
  assert (Hoth : ∀ y B, W !! y = Some B → y ≠ c → context_ok s3 y B ∧ view s3 B = view s B).
  { intros y B Hy Hne. eapply (others_ok s s3 W c A y B); try done.
    - intros a Ha HaA. rewrite Hlk, G3; [done|done|by eapply HxA].
    - intros a Ha _. apply Hal. by eapply HxA.
    - assert (y ≠ x). { intros ->. destruct (context_cell _ _ _ _ Hw Hy) as (? & ? & ? & ? & _). congruence. }
      unfold s3, s2. rewrite !with_data_other by done. by apply G2. }
  split; try done.
  - split; [done|]. intros y B Hy. destruct (decide (y = c)) as [->|Hne].
    + rewrite lookup_insert_eq in Hy. injection Hy as <-. split; [|done|].
      * exists (root s1). split; [|eapply tree_frame; [exact Hl|done|intros; apply Hlk]].
        unfold context_tree. rewrite field_data. unfold s3. rewrite with_data_other by done.
        unfold s2. by rewrite with_data_self by by rewrite Hdc1.
      * intros a Ha. destruct (decide (a = x)) as [->|Hax]; [eauto|].
        assert (HaA : a ∈ A) by (rewrite EA' in Ha; rewrite EA; set_solver).
        destruct (world_own _ _ _ _ _ Hw Hc HaA) as (da & Hda & Hca & Hva).
        destruct (alike_keeps _ _ _ (Hal a Hax) da Hda Hva) as (d' & ? & _ & Hx' & ?).
        exists d'. split; [done|]. by rewrite Hx'.
    + rewrite lookup_insert_ne in Hy by done. by apply Hoth.
  - intros a. rewrite EA, EA'. set_solver.
  - intros v Hv. apply abs_insert; [|intros y B Hne Hy; exact (proj2 (Hoth y B Hy Hne))].
    rewrite <- Hnx, EA, EA' in *. apply view_insert; try done.
    + by apply (world_ordered _ _ c _ Hw).
    + unfold value_in. by rewrite (contents_in_payload _ _ _ Hd3).
Qed.

End Fill.

Lemma fresh_payload_ok mainContext token type context p flags :
  pl_name (fresh_payload mainContext token type context p flags) = Some token ∧
  pl_context (fresh_payload mainContext token type context p flags) = context ∧
  pl_contents (fresh_payload mainContext token type context p flags) ≠ NoContents.
Proof. unfold fresh_payload. by destruct (_ && _). Qed.

(** [created] does not see the static [root]. *)
Lemma created_root r s W c A key d s' A' : created (set_root r s) W c A key d s' A' →
  created s W c A key d s' A'.
Proof. intros [H1 H2 H3 H4 H5]. by split. Qed.

(** The rest of [translateCreateSymbol] behind a search. *)
Lemma finish_new mainContext token type c s r s1 W A A' : world_ok (set_root r s) W → W !! c = Some A →
  token ≠ EmptyString → linked s1 (root s1) A' → inserts token A (set_root r s) s1 A' →
  ∃ s', (d ← field n_data (next s) s1;
    match pl_contents d with
    | NoContents =>
        s2 ← set_context_tree (root s1) c s1;
        s3 ← set_data (fresh_payload mainContext token type c (next s) (pl_flags d)) (next s) s2;
        Ok (next s, s3)
    | _ => Ok (next s, s1)
    end) = Ok (next s, s') ∧
  created s W c A token (fresh_payload mainContext token type c (next s) 0) s' A'.
Proof.
  intros Hw Hc Hk Hl Hi.
  destruct (fresh_payload_ok mainContext token type c (next s) 0) as (F1 & F2 & F3).
  destruct (fill_new _ s1 W c A A' token _ Hw Hc Hk Hl Hi F1 F2 F3) as (s2 & E1 & E2 & E3 & Hcr).
  cbn [next set_root] in *. rewrite E2. cbn -[set_context_tree set_data fresh_payload]. rewrite E1.
  cbn -[set_data fresh_payload]. rewrite E3. cbn. eexists. split; [done|]. by eapply created_root.
Qed.

(** Writing the whole context out of a found symbol. *)
Lemma finish_old mainContext token type c s W y A a : world_ok s W → W !! y = Some A → a ∈ A →
  (d ← field n_data a s;
   match pl_contents d with
   | NoContents =>
       s2 ← set_context_tree (root s) c s;
       s3 ← set_data (fresh_payload mainContext token type c a (pl_flags d)) a s2;
       Ok (a, s3)
   | _ => Ok (a, s)
   end) = Ok (a, s).
Proof.
  intros Hw Hy Ha. destruct (world_own _ _ _ _ _ Hw Hy Ha) as (d & Hd & _ & Hcont).
  rewrite field_data, Hd. cbn. by destruct (pl_contents d).
Qed.

Lemma create_ok mainContext token type s W c A : world_ok s W → W !! c = Some A → token ≠ EmptyString →
  (∃ a r, a ∈ A ∧ name_in s a = token ∧ world_ok (set_root r s) W ∧
     translateCreateSymbol mainContext token type c true s = Ok (a, set_root r s)) ∨
  ((∀ a, a ∈ A → name_in s a ≠ token) ∧ ∃ s' A',
     translateCreateSymbol mainContext token type c true s = Ok (next s, s') ∧
     created s W c A token (fresh_payload mainContext token type c (next s) 0) s' A').
Proof.
  intros Hw Hc Hk. destruct (find_in _ _ _ _ token Hw Hc Hk) as (r & E & Hw' & Hf).
  unfold translateCreateSymbol, locate. rewrite E. cbn [mbind result_bind].
  destruct Hf as [(a & Ha & Hn & Ef)|(Hno & _ & s1 & A' & Ef & Hl & Hi)]; rewrite Ef; cbn [mbind result_bind].
  - left. exists a, r. split; [done|]. split; [done|]. split; [done|]. by eapply finish_old.
  - right. split; [done|]. destruct (finish_new mainContext token type c s r s1 W A A') as (s' & E' & Hcr); eauto.
Qed.

(** ** Inheriting from MAIN *)

Definition inheritable (s : store) (b : ptr) : bool :=
  match data_in s b with
  | Some d =>
      negb (Z.land (pl_flags d) SYMBOL_GLOBAL =? 0)%Z ||
      match pl_contents d with ContextCell q _ => Nat.eqb q b | _ => false end
  | None => false
  end.

Lemma inherited_ok mainContext token s W M : world_ok s W → W !! mainContext = Some M → token ≠ EmptyString →
  ∃ r p, inherited mainContext token s = Ok (p, set_root r s) ∧
    ((p = NULL ∧ ∀ b, b ∈ M → name_in s b = token → inheritable s b = false) ∨
     (2 ≤ p ∧ p ∈ M ∧ name_in s p = token ∧ inheritable s p = true)).
Proof.
  intros Hw Hm Hk. destruct (find_in _ _ _ _ token Hw Hm Hk) as (r & E & Hw' & Hf). exists r.
  unfold inherited. rewrite E. cbn [mbind result_bind].
  destruct Hf as [(a & Ha & Hn & Ef)|(Hno & Ef & _)]; rewrite Ef; cbn [mbind result_bind].
  - destruct (context_cell _ _ _ _ Hw Hm) as (_ & _ & r' & _ & _ & _ & Hl).
    destruct (tree_addrs _ _ _ _ Hl Ha) as [H2 _]. rewrite (proj2 (Nat.eqb_neq a NULL)) by (unfold NULL; lia).
    destruct (world_own _ _ _ _ _ Hw Hm Ha) as (d & Hd & _ & Hcont).
    assert (Hd' : data_in (set_root r s) a = Some d) by exact Hd. rewrite field_data, Hd'. cbn [mbind result_bind].
    assert (Hall : ∀ b, b ∈ M → name_in s b = token → b = a).
    { intros b Hb Hnb. eapply (names_inj s M); [by eapply world_ordered|done..|congruence]. }
    assert (Hi : inheritable s a = negb (Z.land (pl_flags d) SYMBOL_GLOBAL =? 0)%Z ||
      match pl_contents d with ContextCell q _ => Nat.eqb q a | _ => false end) by (unfold inheritable; by rewrite Hd).
    destruct (negb _); [exists a; split; [done|right; eauto]|].
    destruct (pl_contents d) as [|q aux|e]; [done| |].
    + cbn in Hi. destruct (Nat.eqb_spec q a) as [->|]; [exists a; eauto 10|exists NULL]. split; [done|]. left.
      split; [done|]. intros b Hb Hnb. by rewrite (Hall b Hb Hnb).
    + exists NULL. split; [done|]. left. split; [done|]. intros b Hb Hnb. by rewrite (Hall b Hb Hnb).
  - exists NULL. rewrite Nat.eqb_refl. split; [done|]. left. split; [done|]. intros b Hb Hnb. by destruct (Hno b Hb).
Qed.

(** The symbol a name stands for in a context, when there is one: its own, or one
    that MAIN hands on. *)
Definition resolve (token : string) (s : store) (A M : list ptr) (inherit : bool) : option ptr :=
  match filter (λ a, name_in s a = token) A with
  | a :: _ => Some a
  | [] =>
      if inherit then head (filter (λ b, name_in s b = token ∧ inheritable s b = true) M) else None
  end.

Lemma filter_name s A token a : ordered s A → a ∈ A → name_in s a = token →
  filter (λ a, name_in s a = token) A = [a].
Proof.
  intros Ho Ha Hn.
  assert (Hnd : NoDup A) by (eapply (NoDup_fmap_1 (name_in s)), ordered_nodup, Ho).
  assert (Hall : ∀ x, x ∈ A → name_in s x = token → x = a).
  { intros x Hx Hnx. eapply (names_inj s A); [done..|congruence]. }
  clear Ho. induction Hnd as [|x A Hx Hnd IH]; [by apply not_elem_of_nil in Ha|].
  rewrite filter_cons. apply elem_of_cons in Ha as [->|Ha].
  - rewrite decide_True by done. f_equal. apply elem_of_nil_inv. intros y [Hy Hin]%list_elem_of_filter.
    assert (y = x) as -> by (apply Hall; [by right|done]). done.
  - rewrite decide_False.
    + apply IH; [done|]. intros y Hy. apply Hall. by right.
    + intros Hnx. assert (x = a) as -> by (apply Hall; [by left|done]). done.
Qed.

Lemma filter_none {B} (P : B → Prop) `{!∀ x, Decision (P x)} (l : list B) : (∀ x, x ∈ l → ¬ P x) →
  filter P l = [].
Proof. intros Hn. apply elem_of_nil_inv. intros y [Hy Hin]%list_elem_of_filter. by eapply Hn. Qed.

Lemma head_filter {B} (P : B → Prop) `{!∀ x, Decision (P x)} (l : list B) a : a ∈ l → P a →
  (∀ x, x ∈ l → P x → x = a) → head (filter P l) = Some a.
Proof.
  intros Ha HP Hu. destruct (filter P l) as [|x l'] eqn:E.
  - assert (Hin : a ∈ filter P l) by by apply list_elem_of_filter. rewrite E in Hin. by apply not_elem_of_nil in Hin.
  - assert (Hin : x ∈ filter P l) by (rewrite E; by left). apply list_elem_of_filter in Hin as [Hx Hin].
    cbn. by rewrite (Hu x).
Qed.

(** [translateCreateSymbol] without [forceFlag]. *)
Lemma resolve_ok mainContext token type s W c A M : world_ok s W → W !! c = Some A →
  W !! mainContext = Some M → token ≠ EmptyString →
  match resolve token s A M (negb (Nat.eqb c mainContext)) with
  | Some a => ∃ r, translateCreateSymbol mainContext token type c false s = Ok (a, set_root r s)
  | None => ∃ s' A', translateCreateSymbol mainContext token type c false s = Ok (next s, s') ∧
      created s W c A token (fresh_payload mainContext token type c (next s) 0) s' A'
  end.
Proof.
  intros Hw Hc Hm Hk. pose proof (world_ordered _ _ _ _ Hw Hc) as HoA.
  pose proof (world_ordered _ _ _ _ Hw Hm) as HoM.
  destruct (find_in _ _ _ _ token Hw Hc Hk) as (r & E & Hw' & Hf).
  unfold translateCreateSymbol, locate, resolve. rewrite E. cbn [mbind result_bind].
  destruct Hf as [(a & Ha & Hn & Ef)|(Hno & Ef & s1 & A' & Et & Hl & Hi)]; rewrite Ef; cbn [mbind result_bind].
  { destruct (context_cell _ _ _ _ Hw Hc) as (_ & _ & r' & _ & _ & _ & Hlc).
    destruct (tree_addrs _ _ _ _ Hlc Ha) as [H2 _]. assert (a ≠ NULL) by (unfold NULL; lia).
    rewrite (filter_name _ _ _ _ HoA Ha Hn). rewrite !(proj2 (Nat.eqb_neq a NULL)) by done.
    cbn [negb mbind result_bind]. rewrite (proj2 (Nat.eqb_neq a NULL)) by done. cbn [mbind result_bind].
    exists r. by apply (finish_old _ _ _ _ (set_root r s) W c A). }
  rewrite (filter_none _ A) by auto. rewrite Nat.eqb_refl. cbn [negb].
  pose proof (finish_new mainContext token type c s r s1 W A A' Hw' Hc Hk Hl Hi) as Hnew.
  destruct (Nat.eqb c mainContext); cbn [negb mbind result_bind].
  { rewrite Nat.eqb_refl, Et. cbn [mbind result_bind]. destruct Hnew as (s' & E' & Hcr). eauto. }
  destruct (inherited_ok mainContext token (set_root r s) W M Hw' Hm Hk) as (rm & p & Ei & Hp).
  rewrite Ei. cbn [mbind result_bind].
  assert (Ee : enter_context c (set_root rm (set_root r s)) = Ok (set_root r s)).
  { unfold enter_context in *. change (context_tree c (set_root rm (set_root r s))) with (context_tree c s).
    destruct (context_tree c s); [|done..]. cbn in E |- *. injection E as ->. done. }
  rewrite Ee. cbn [mbind result_bind]. destruct Hp as [[-> Hnone]|(H2 & HpM & Hnp & Hip)].
  - rewrite Nat.eqb_refl, Et. cbn [mbind result_bind]. rewrite (filter_none _ M).
    + cbn [head]. destruct Hnew as (s' & E' & Hcr). eauto.
    + intros b Hb [Hnb Hib]. pose proof (Hnone b Hb Hnb) as Hb0. 
      change (inheritable s b = false) in Hb0. congruence.
  - rewrite (proj2 (Nat.eqb_neq p NULL)) by (unfold NULL; lia). cbn [mbind result_bind].
    rewrite (head_filter _ M p); [|done|done|].
    + exists r. by apply (finish_old _ _ _ _ (set_root r s) W mainContext M).
    + intros b Hb [Hnb _]. eapply (names_inj s M); [done..|]. by rewrite Hnb.
Qed.

(** ** Deleting *)

Record deleted (s : store) (W : gmap ptr (list ptr)) (c : ptr) (A : list ptr) (p : ptr)
    (s' : store) (A' : list ptr) : Prop := {
  dl_world : world_ok s' (<[c := A']> W);
  dl_free : heap s' !! p = None;
  dl_none : ∀ a, data_in s a = None → data_in s' a = None;
  dl_alike : ∀ a, a ≠ p → alike s s' a;
  dl_split : ∃ A1 A2, A = A1 ++ p :: A2 ∧ A' = A1 ++ A2;
  dl_abs : abs s' (<[c := A']> W) = <[c := delete (name_in s p) (view s A)]> (abs s W)
}.

Section Delete.
Variables (s s1 : store) (W : gmap ptr (list ptr)) (c p : ptr) (A A' : list ptr).
Hypothesis Hw : world_ok s W.
Hypothesis Hc : W !! c = Some A.
Hypothesis Hp : p ∈ A.
Hypothesis Hpw : W !! p = None.
Hypothesis Hl : linked s1 (root s1) A'.
Hypothesis Hr : removes p A s s1 A'.

Lemma free_old : ∃ s2 s3,
  set_context_tree (root s1) c s1 = Ok s2 ∧ freeMemory p s2 = Ok s3 ∧ deleted s W c A p s3 A'.
Proof using All.
  destruct Hr as [(A1 & A2 & EA & EA') [T1 T2 _ _] _]. cbn [heap set_count] in T1, T2.
  destruct (context_cell _ _ _ _ Hw Hc) as (dc & q & r & Hdc & Hcc & _ & Hlc).
  destruct (world_data _ _ _ _ _ Hw Hc Hp) as [dp Hdp].
  pose proof (tree_nodup _ _ _ Hlc) as Hnd. destruct (tree_addrs _ _ _ _ Hlc Hp) as [Hp2 _].
  assert (Hcp : c ≠ p) by (intros E; congruence).
  assert (Hdc1 : data_in s1 c = Some dc) by (unfold data_in in *; by rewrite T1).
  set (s2 := with_data (Payload (pl_name dc) (pl_flags dc) (ContextCell q (root s1)) (pl_context dc)) c s1).
  assert (Hin2 : is_Some (heap s2 !! p)).
  { assert (H1 : data_in s2 p = Some dp).
    { unfold s2. rewrite with_data_other by done. unfold data_in in *. by rewrite T1. }
    unfold data_in in H1. by destruct (heap s2 !! p). }
  destruct Hin2 as [np Hnp]. set (s3 := with_heap (delete p (heap s2)) s2).
  exists s2, s3. split; [by eapply set_context_tree_ok|]. split; [unfold freeMemory; by rewrite Hnp|].
  assert (Hd3 : ∀ a, a ≠ p → data_in s3 a = data_in s2 a).
  { intros a Ha. unfold data_in, s3. cbn [heap with_heap]. by rewrite lookup_delete_ne. }
  assert (Hal : ∀ a, a ≠ p → alike s s3 a).
  { intros a Ha. eapply alike_trans; [apply alike_same; unfold data_in; apply T1|].
    eapply alike_trans; [|apply alike_same; by apply Hd3]. by apply (retarget_alike _ _ r). }
  assert (Hlk : ∀ a, a ≠ p → links <$> heap s3 !! a = links <$> heap s1 !! a).
  { intros a Ha. unfold s3. cbn [heap with_heap]. rewrite lookup_delete_ne by done. apply with_data_links. }
  assert (Har : arena s3).
  { assert (arena s2) as [H1 (n & H2 & H3)] by (apply with_data_arena; by eapply tree_arena). split.
    - intros a m Ha. cbn [s3 heap with_heap next] in *. apply lookup_delete_Some in Ha as [_ Ha]. by eapply H1.
    - exists n. unfold s3. cbn [heap with_heap]. rewrite lookup_delete_ne; [done|unfold NIL_SYM; lia]. }
  assert (HpA' : p ∉ A').
  { rewrite EA in Hnd. rewrite EA'. rewrite <- Permutation_middle in Hnd. by apply NoDup_cons in Hnd as [? _]. }
  assert (Hsub : ∀ a, a ∈ A' → a ∈ A ∧ a ≠ p).
  { intros a Ha. split; [rewrite EA; rewrite EA' in Ha; set_solver|]. by intros ->. }
  assert (Hseen : ∀ a, a ∈ A' → name_in s3 a = name_in s a ∧ value_in s3 a = value_in s a).
  { intros a Ha. destruct (Hsub a Ha). apply alike_seen; [by apply Hal|by eapply world_data]. }
  pose proof (world_ordered _ _ _ _ Hw Hc) as Ho.
  assert (Hord : ordered s3 A').
  { apply (ordered_frame s); [|apply Hseen]. rewrite EA in Ho. rewrite EA'. by eapply ordered_remove. }
  assert (Hoth : ∀ y B, W !! y = Some B → y ≠ c → context_ok s3 y B ∧ view s3 B = view s B).
  { intros y B Hy Hne.
    assert (HB : ∀ a, a ∈ B → a ≠ p) by (intros a Ha ->; by eapply (own_apart s c y A B); [apply Hw|apply Hw|..]).
    eapply (others_ok s s3 W c A y B); try done.
    - intros a Ha HaA. rewrite Hlk, T2; [done| |by apply HB].
      apply not_elem_of_cons. split; [|done]. intros ->.
      destruct (context_cell _ _ _ _ Hw Hy) as (? & ? & ? & _ & _ & _ & Hly).
      destruct (tree_addrs _ _ _ _ Hly Ha) as [H2 _]. unfold NIL_SYM in H2. lia.
    - intros a Ha _. apply Hal. by apply HB.
    - assert (y ≠ p) by (intros ->; congruence). rewrite Hd3 by done. unfold s2.
      rewrite with_data_other by done. apply T1. }
  assert (Hnone : ∀ a, data_in s a = None → data_in s3 a = None).
  { intros a Ha. assert (a ≠ p) by (intros ->; congruence). assert (a ≠ c) by (intros ->; congruence).
    rewrite Hd3 by done. unfold s2. rewrite with_data_other by done. unfold data_in in *. by rewrite T1. }
  split; [split; [done|]|unfold s3; cbn [heap with_heap]; by rewrite lookup_delete_eq|done|done|eauto|].
  - intros y B Hy. destruct (decide (y = c)) as [->|Hne].
    + rewrite lookup_insert_eq in Hy. injection Hy as <-. split; [|done|].
      * exists (root s1). split; [|eapply tree_frame; [exact Hl|done|]].
        -- unfold context_tree. rewrite field_data, Hd3 by done. unfold s2. by rewrite with_data_self by by rewrite Hdc1.
        -- intros a Ha. by apply Hlk, Hsub.
      * intros a Ha. destruct (Hsub a Ha) as [HaA Hap].
        destruct (world_own _ _ _ _ _ Hw Hc HaA) as (da & Hda & Hca & Hva).
        destruct (alike_keeps _ _ _ (Hal a Hap) da Hda Hva) as (d' & ? & _ & Hx' & ?).
        exists d'. split; [done|]. by rewrite Hx'.
    + rewrite lookup_insert_ne in Hy by done. by apply Hoth.
  - apply abs_insert; [|intros y B Hne Hy; exact (proj2 (Hoth y B Hy Hne))].
    rewrite EA, EA' in *. by apply view_delete.
Qed.

End Delete.

Lemma delete_ok s W c A p : world_ok s W → W !! c = Some A → p ∈ A → W !! p = None →
  ∃ s' A', deleteAndFreeSymbol p s = Ok s' ∧ deleted s W c A p s' A'.
Proof.
  intros Hw Hc Hp Hpw. destruct (world_own _ _ _ _ _ Hw Hc Hp) as (d & Hd & Hdc & _).
  destruct (enter_context_ok _ _ _ _ Hw Hc) as (r & E & Hl & Hw').
  pose proof (world_ordered _ _ _ _ Hw' Hc) as Ho.
  pose proof (or_nonempty _ _ Ho p Hp) as Hne.
  destruct (tree_delete _ _ (name_in s p) Hl Ho Hne) as [(z & s1 & A' & Hz & Hn & Ed & Hl1 & Hr)|[Hno _]].
  2:{ by destruct (Hno p Hp). }
  assert (z = p) as -> by (by apply (names_inj (set_root r s) A)).
  destruct (free_old _ _ _ _ _ _ _ Hw' Hc Hp Hpw Hl1 Hr) as (s2 & s3 & E2 & E3 & [D1 D2 D3 D4 D5 D6]).
  exists s3, A'. split; [|by split].
  unfold deleteAndFreeSymbol. rewrite field_data, Hd. cbn [mbind result_bind]. rewrite Hdc, E.
  cbn [mbind result_bind]. rewrite (name_of_ok (set_root r s) p Hne). cbn [mbind result_bind].
  change (name_in (set_root r s) p) with (name_in s p). rewrite Ed. cbn [mbind result_bind]. rewrite E2.
  cbn [mbind result_bind]. exact E3.
Qed.

Lemma view_nil s : view s [] = ∅.
Proof. done. Qed.

Lemma delete_all_ok l : ∀ s W c A, world_ok s W → W !! c = Some A → NoDup A → l ≡ₚ A →
  (∀ a, a ∈ A → W !! a = None) →
  ∃ s', delete_all l s = Ok s' ∧ world_ok s' (<[c := []]> W) ∧ (∀ a, a ∈ A → heap s' !! a = None) ∧
    (∀ a, data_in s a = None → data_in s' a = None) ∧
    (∀ a, a ∉ A → alike s s' a) ∧ abs s' (<[c := []]> W) = <[c := ∅]> (abs s W).
Proof.
  induction l as [|p l IH]; intros s W c A Hw Hc Hnd Hin HW.
  - apply Permutation_nil_l in Hin as <-. exists s. split; [done|]. rewrite insert_id by done.
    split; [done|]. split; [by intros a ?%not_elem_of_nil|]. split; [done|].
    split; [intros; by apply alike_same|]. rewrite insert_id; [done|]. by rewrite (abs_lookup _ _ _ _ Hc).
  - assert (Hp : p ∈ A) by (rewrite <- Hin; by left).
    destruct (delete_ok s W c A p Hw Hc Hp (HW p Hp)) as (s1 & A' & E & [D1 D2 D3 D4 (A1 & A2 & EA & EA') D6]).
    assert (HA : A ≡ₚ p :: A') by (rewrite EA, EA'; by rewrite <- Permutation_middle).
    rewrite HA in Hin, Hnd. apply Permutation_cons_inv in Hin. apply NoDup_cons in Hnd as [Hpn Hnd].
    destruct (IH s1 (<[c := A']> W) c A') as (s2 & E2 & D1' & D2' & D3' & D4' & D5'); try done.
    { by rewrite lookup_insert_eq. }
    { intros a Ha. assert (HaA : a ∈ A) by (rewrite HA; by right). rewrite lookup_insert_ne; [by apply HW|].
      intros ->. rewrite (HW a HaA) in Hc. done. }
    rewrite insert_insert_eq in D1', D5'.
    exists s2. cbn [delete_all]. rewrite E. cbn [mbind result_bind]. split; [done|]. split; [done|].
    split; [|split; [by eauto|split]].
    + intros a Ha. rewrite HA in Ha. apply elem_of_cons in Ha as [->|Ha]; [|by apply D2'].
      assert (H1 : data_in s2 p = None) by (apply D3'; unfold data_in; by rewrite D2).
      unfold data_in in H1. by destruct (heap s2 !! p).
    + intros a Ha. rewrite HA in Ha. apply not_elem_of_cons in Ha as [Ha1 Ha2].
      eapply alike_trans; [by apply D4|by apply D4'].
    + by rewrite D5', D6, insert_insert_eq.
Qed.

Lemma context_delete_ok s W c A : world_ok s W → W !! c = Some A → (∀ a, a ∈ A → W !! a = None) →
  ∃ s', deleteContextSymbols c s = Ok s' ∧ world_ok s' (<[c := []]> W) ∧
    (∀ a, a ∈ A → heap s' !! a = None) ∧ (∀ a, a ∉ A → alike s s' a) ∧
    abs s' (<[c := []]> W) = <[c := ∅]> (abs s W).
Proof.
  intros Hw Hc HW. destruct (context_cell _ _ _ _ Hw Hc) as (d & q & r & _ & _ & Ht & Hl).
  unfold deleteContextSymbols. rewrite Ht. cbn [mbind result_bind]. rewrite (tree_list _ _ _ [] Hl).
  cbn [mbind result_bind app].
  destruct (delete_all_ok A s W c A Hw Hc (tree_nodup _ _ _ Hl)) 
    as (s' & H1 & H2 & H3 & _ & H4 & H5); [done..|]. by exists s'.
Qed.

End Symbols.
