(* ===== verification/Hash.v ===== *)
(** * Name spaces as hash tables (src/newlisp.c, [evaluateNamespaceHash])

    A context used as a function is a map from keys to values: setting, reading,
    deleting with [nil], loading an association list and reading it back. *)

From stdpp Require Import base list numbers tactics strings gmap sorting.
From Stdlib Require Import ZArith Lia Ascii Sorting.Sorted.
From S2P Require Import Prelude Cell Order Symtree Redblack Insertion Symfind Symtable Context World Symbols.

#[global] Open Scope nat_scope.
#[local] Set Warnings "-clear-no-such-hyp".

(** ** The maps *)

(** What setting a key does to the map. *)
Definition spec_set (token : string) (e : sexp) (D : gmap string value) : gmap string value :=
  if isNil e then delete token D else <[token := VCell e]> D.

Fixpoint spec_load (l : list sexp) (D : gmap string value) : gmap string value :=
  match l with
  | CExpr (key :: rest) :: l =>
      spec_load l
        (match hash_token key with
         | Ok token => if isKey key then <[token := VCell (default CNil (head rest))]> D else D
         | _ => D
         end)
  | CExpr [] :: l => spec_load l D
  | _ => D
  end.

(** The number of a float key must be in range. *)
Definition key_ok (key : sexp) : Prop := isKey key = true → ∃ token, hash_token key = Ok token.

Definition load_ok (l : list sexp) : Prop :=
  Forall (λ e, match e with CExpr (key :: _) => key_ok key | _ => True end) l.

Lemma hash_token_shape key token : hash_token key = Ok token → ∃ k, token = String "_" k.
Proof.
  destruct key; cbn; try done; [intros [= <-]; eauto| |intros [= <-]; eauto].
  destruct (Arith.integerFromFloat f); cbn; [|done..]. intros [= <-]. eauto.
Qed.

Section Hash.
Context {linked : store → ptr → list ptr → Prop} `{SymbolTree linked}.

#[local] Abbreviation world_ok := (world_ok (linked := linked)).
#[local] Abbreviation context_ok := (context_ok (linked := linked)).

(** The state between evaluations: [$it] is nil and no key is itself a context. *)
Record hash_ready (s : store) (W : gmap ptr (list ptr)) (c : ptr) (A : list ptr) (it : ptr) : Prop := {
  hr_world : world_ok s W;
  hr_ctx : W !! c = Some A;
  hr_it : ∃ d, data_in s it = Some d ∧ pl_name d = Some "$it" ∧ pl_contents d = OtherCell CNil;
  hr_itw : W !! it = None;
  hr_keys : ∀ a k, a ∈ A → name_in s a = String "_" k → W !! a = None
}.

(** The symbol of a key, found or new. *)
Record key_symbol (s : store) (W : gmap ptr (list ptr)) (c : ptr) (A : list ptr) (token : string)
    (p : ptr) (s' : store) (A' : list ptr) : Prop := {
  ks_world : world_ok s' (<[c := A']> W);
  ks_in : p ∈ A';
  ks_name : name_in s' p = token;
  ks_plain : W !! p = None;
  ks_sub : ∀ a, a ∈ A' → a = p ∨ a ∈ A;
  ks_alike : ∀ a, is_Some (data_in s a) → alike s s' a;
  ks_view : ∀ k, k ≠ token → view s' A' !! k = view s A !! k;
  ks_views : ∀ x B, x ≠ c → W !! x = Some B → view s' B = view s B
}.

Lemma context_in_heap s W c A : world_ok s W → W !! c = Some A → is_Some (data_in s c).
Proof. intros Hw Hc. destruct (context_cell _ _ _ _ Hw Hc) as (d & _ & _ & Hd & _). by eexists. Qed.

Lemma world_apart s W c x A B a : world_ok s W → W !! c = Some A → W !! x = Some B → x ≠ c → a ∈ A → a ∉ B.
Proof.
  intros Hw Hc Hx Hne Ha. apply (own_apart s c x A B a (wo_ctx _ _ Hw _ _ Hc) (wo_ctx _ _ Hw _ _ Hx)); done.
Qed.

Lemma fresh_out s W : world_ok s W → W !! next s = None ∧ data_in s (next s) = None.
Proof.
  intros Hw. assert (Hd : data_in s (next s) = None).
  { unfold data_in. destruct (heap s !! next s) as [n|] eqn:E; [|done].
    apply (ar_heap _ (wo_arena _ _ Hw)) in E. lia. }
  split; [|done]. destruct (W !! next s) as [B|] eqn:E; [|done].
  destruct (context_in_heap _ _ _ _ Hw E) as [? ?]. congruence.
Qed.

Lemma key_symbol_ok mainContext token s W c A : world_ok s W → W !! c = Some A → token ≠ EmptyString →
  (∀ a, a ∈ A → name_in s a = token → W !! a = None) →
  ∃ p s' A', translateCreateSymbol mainContext token CELL_NIL c true s = Ok (p, s') ∧
    key_symbol s W c A token p s' A'.
Proof.
  intros Hw Hc Hk HW. destruct (create_ok mainContext token CELL_NIL s W c A Hw Hc Hk) as
    [(a & r & Ha & Hn & Hw' & E)|(Hno & s' & A' & E & [C1 C2 C3 C4 C5])].
  - exists a, (set_root r s), A. split; [done|]. split; try done.
    + by rewrite insert_id.
    + by apply HW.
    + by right.
    + intros x _. by apply alike_same.
  - exists (next s), s', A'. split; [done|]. destruct (fresh_out _ _ Hw) as [Hf1 Hf2].
    assert (Hnn : name_in s' (next s) = token).
    { by rewrite (name_in_payload _ _ _ C2), (proj1 (fresh_payload_ok _ _ _ _ _ _)). }
    assert (Hal : ∀ x, is_Some (data_in s x) → alike s s' x).
    { intros x [dx Hx]. apply C3. intros ->. congruence. }
    split; try done.
    + apply C4. by left.
    + intros x Hx. apply C4 in Hx as [->|]; [by left|by right].
    + intros k Hkt. assert (Hv : abs s' (<[c := A']> W) !! c = Some (view s' A')) by
        (apply abs_lookup; by rewrite lookup_insert_eq).
      rewrite (C5 (VCell CNil)) in Hv by (unfold fresh_payload; by rewrite andb_false_r).
      rewrite lookup_insert_eq in Hv. injection Hv as <-. by rewrite lookup_insert_ne.
    + intros x B Hne Hx. apply view_ext. intros a Ha. apply alike_seen; [apply Hal|]; by eapply world_data.
Qed.

Lemma assign_ok s W p c : world_ok s W → is_Some (data_in s p) → W !! p = None → c ≠ NoContents →
  ∃ d s', data_in s p = Some d ∧ set_contents c p s = Ok s' ∧ world_ok s' W ∧
    data_in s' p = Some (Payload (pl_name d) (pl_flags d) c (pl_context d)) ∧
    ∀ a, a ≠ p → data_in s' a = data_in s a.
Proof.
  intros Hw [d Hd] Hp Hc. exists d. eexists. split; [done|]. split; [by apply set_contents_ok|].
  split; [by apply set_contents_world|]. split; [by apply with_data_self; rewrite Hd|].
  intros a Ha. by apply with_data_other.
Qed.

Section Set_key.
Variables (s : store) (W : gmap ptr (list ptr)) (p it : ptr) (v : sym_cell).
Hypothesis Hw : world_ok s W.
Hypothesis Hp : is_Some (data_in s p).
Hypothesis Hpw : W !! p = None.
Hypothesis Hpit : p ≠ it.
Hypothesis Hit : ∃ d, data_in s it = Some d ∧ pl_contents d = OtherCell CNil.
Hypothesis Hitw : W !! it = None.
Hypothesis Hpc : contents_in s p ≠ NoContents.
Hypothesis Hv : v ≠ NoContents.

Lemma set_key_ok : ∃ d s2 s3 s4 s5, data_in s p = Some d ∧
  set_contents (pl_contents d) it s = Ok s2 ∧ set_contents v it s2 = Ok s3 ∧
  set_contents v p s3 = Ok s4 ∧ set_contents (OtherCell CNil) it s4 = Ok s5 ∧
  world_ok s5 W ∧ (∀ a, a ≠ p → data_in s5 a = data_in s a) ∧
  data_in s5 p = Some (Payload (pl_name d) (pl_flags d) v (pl_context d)).
Proof using All.
  destruct Hp as [d Hd]. destruct Hit as (di & Hdi & Hci).
  rewrite (contents_in_payload _ _ _ Hd) in Hpc.
  destruct (assign_ok s W it (pl_contents d)) as (d2 & s2 & H2 & E2 & W2 & D2 & O2); try done.
  destruct (assign_ok s2 W it v) as (d3 & s3 & H3 & E3 & W3 & D3 & O3); [done|by rewrite D2|done..|].
  destruct (assign_ok s3 W p v) as (d4 & s4 & H4 & E4 & W4 & D4 & O4); [done|by rewrite O3, O2|done..|].
  destruct (assign_ok s4 W it (OtherCell CNil)) as (d5 & s5 & H5 & E5 & W5 & D5 & O5);
    [done|by rewrite O4, D3|done..|].
  rewrite O3, O2, Hd in H4 by done. injection H4 as <-.
  exists d, s2, s3, s4, s5. do 6 (split; [done|]). split.
  - intros a Ha. destruct (decide (a = it)) as [->|Hai]; [|by rewrite O5, O4, O3, O2].
    rewrite D5. rewrite O4, D3 in H5 by done. injection H5 as <-. rewrite D2 in H3. injection H3 as <-.
    rewrite Hdi in *. injection H2 as <-. cbn. rewrite <- Hci. by destruct di.
  - by rewrite O5, D4.
Qed.

End Set_key.

(** ** Setting *)

Lemma it_same s s' it : alike s s' it →
  (∃ d, data_in s it = Some d ∧ pl_name d = Some "$it" ∧ pl_contents d = OtherCell CNil) →
  ∃ d, data_in s' it = Some d ∧ pl_name d = Some "$it" ∧ pl_contents d = OtherCell CNil.
Proof.
  intros Ha (d & Hd & Hn & Hc). destruct (Ha d Hd) as (d' & Hd' & Hn' & _ & _ & Hv). exists d'.
  rewrite Hc in Hv. split; [done|]. split; [congruence|]. destruct (pl_contents d'); cbn in *; congruence.
Qed.

(** The state behind an operation that leaves the symbols of the context among
    the old ones and [p]. *)
Lemma ready_again s W c A it s' A' p : hash_ready s W c A it → world_ok s' (<[c := A']> W) →
  W !! p = None → (∀ a, a ∈ A' → a = p ∨ a ∈ A) →
  (∀ a, a ∈ A → a ≠ p → a ∈ A' → name_in s' a = name_in s a) → alike s s' it →
  hash_ready s' (<[c := A']> W) c A' it.
Proof.
  intros [Hw Hc Hit Hitw HW] Hw' Hp Hsub Hn Ha. split; [done|by rewrite lookup_insert_eq|by eapply it_same|..].
  - rewrite lookup_insert_ne; [done|]. intros ->. congruence.
  - intros a k Hin Hk. assert (Ha' : W !! a = None).
    { destruct (decide (a = p)) as [->|Hne]; [done|]. destruct (Hsub a Hin) as [->|HaA]; [done|].
      apply (HW a k HaA). by rewrite <- Hn. }
    rewrite lookup_insert_ne; [done|]. intros ->. congruence.
Qed.

Section Set_ok.
Variables (mainContext it : ptr) (key : sexp) (token : string) (s : store) (W : gmap ptr (list ptr)).
Variables (c : ptr) (A : list ptr).
Hypothesis Hready : hash_ready s W c A it.
Hypothesis Htok : hash_token key = Ok token.

(** The symbol of the key is there, with a value, and is not [$it]. *)
Lemma key_there : ∃ p s1 A1, makeSafeSymbol mainContext key c true s = Ok (p, s1) ∧
  key_symbol s W c A token p s1 A1 ∧ is_Some (data_in s1 p) ∧ contents_in s1 p ≠ NoContents ∧ p ≠ it ∧
  (<[c := A1]> W) !! p = None ∧ (<[c := A1]> W) !! it = None.
Proof using All.
  destruct Hready as [Hw Hc Hit Hitw HW]. destruct (hash_token_shape _ _ Htok) as [k Hk].
  destruct (key_symbol_ok mainContext token s W c A Hw Hc) as (p & s1 & A1 & E & Hks).
  { by subst. } { intros a Ha Hn. eapply HW; [done|]. by rewrite Hn. }
  exists p, s1, A1. unfold makeSafeSymbol. rewrite Htok. cbn [mbind result_bind].
  split; [done|]. split; [done|]. destruct Hks as [K1 K2 K3 K4 K5 K6 K7 K8].
  assert (Hc1 : (<[c := A1]> W) !! c = Some A1) by by rewrite lookup_insert_eq.
  destruct (world_own _ _ _ _ _ K1 Hc1 K2) as (d & Hd & _ & Hcont).
  split; [by eexists|]. split; [by rewrite (contents_in_payload _ _ _ Hd)|].
  destruct (it_same s s1 it) as (di & Hdi & Hni & _); [apply K6; destruct Hit as (? & ? & _); by eexists|done|].
  split; [|split; rewrite lookup_insert_ne; [done|intros ->; congruence|done|intros ->; congruence]].
  intros ->. rewrite (name_in_payload _ _ _ Hdi), Hni, Hk in K3. done.
Qed.

(** The contents of that symbol is set and nothing else is different. *)
Lemma key_assigned p s1 A1 d e s5 : key_symbol s W c A token p s1 A1 → p ≠ it → data_in s1 p = Some d →
  world_ok s5 (<[c := A1]> W) → (∀ a, a ≠ p → data_in s5 a = data_in s1 a) →
  data_in s5 p = Some (Payload (pl_name d) (pl_flags d) (OtherCell e) (pl_context d)) →
  hash_ready s5 (<[c := A1]> W) c A1 it ∧ name_in s5 p = token ∧
  abs s5 (<[c := A1]> W) = <[c := <[token := VCell e]> (view s A)]> (abs s W).
Proof using Hready.
  intros [K1 K2 K3 K4 K5 K6 K7 K8] Hpit Hd W5 O5 D5. destruct Hready as [Hw Hc Hit Hitw HW].
  set (W1 := <[c := A1]> W) in *.
  assert (Hc1 : W1 !! c = Some A1) by (unfold W1; by rewrite lookup_insert_eq).
  assert (Hn5 : ∀ a, name_in s5 a = name_in s1 a).
  { intros a. destruct (decide (a = p)) as [->|Ha]; [|by apply name_in_data, O5].
    by rewrite (name_in_payload _ _ _ D5), (name_in_payload _ _ _ Hd). }
  assert (Hv5 : ∀ a, a ≠ p → value_in s5 a = value_in s1 a).
  { intros a Ha. specialize (O5 a Ha). unfold value_in, contents_in, data_in in *.
    destruct (heap s5 !! a), (heap s1 !! a); cbn in *; congruence. }
  assert (Hvp : value_in s5 p = Some (VCell e)) by (unfold value_in; by rewrite (contents_in_payload _ _ _ D5)).
  pose proof (world_ordered _ _ _ _ K1 Hc1) as Ho1. pose proof (world_ordered _ _ _ _ W5 Hc1) as Ho5.
  assert (Hview : view s5 A1 = <[token := VCell e]> (view s A)).
  { rewrite (view_update s1 s5 A1 p (VCell e)); auto.
    rewrite K3. apply map_eq. intros k. destruct (decide (k = token)) as [->|Hk].
    - by rewrite !lookup_insert_eq.
    - rewrite !lookup_insert_ne by done. by apply K7. }
  split; [|split; [by rewrite Hn5|apply abs_insert; [done|]]].
  - apply (ready_again s W c A it s5 A1 p); auto.
    + intros a Ha _ _. rewrite Hn5. apply alike_seen; [apply K6|]; by eapply world_data.
    + eapply alike_trans; [|by apply alike_same, O5]. apply K6. destruct Hit as (? & ? & _). by eexists.
  - intros x B Hx HB. rewrite <- (K8 x B Hx HB). apply view_ext. intros a Ha. split; [done|].
    apply Hv5. intros ->. apply (world_apart _ _ c x A1 B p W5); try done. unfold W1. by rewrite lookup_insert_ne.
Qed.

Lemma hash_set_ok ev e : (∀ s, ev s = Ok (OtherCell e, s)) →
  ∃ s' A', hash_set mainContext it key ev c s =
      Ok (if isNil e then NilResult else ContentsResult (OtherCell e), s') ∧
    hash_ready s' (<[c := A']> W) c A' it ∧
    abs s' (<[c := A']> W) = <[c := spec_set token e (view s A)]> (abs s W).
Proof using All.
  intros Hev. destruct key_there as (p & s1 & A1 & E1 & Hks & Hpd & Hpc & Hpit & Hpw & Hiw).
  pose proof Hready as [Hw Hc Hit Hitw HW]. pose proof (ks_world _ _ _ _ _ _ _ _ Hks) as W1.
  assert (Hc1 : (<[c := A1]> W) !! c = Some A1) by by rewrite lookup_insert_eq.
  destruct (set_key_ok s1 (<[c := A1]> W) p it (OtherCell e)) as
    (d & s2 & s3 & s4 & s5 & Hd & E2 & E3 & E4 & E5 & W5 & O5 & D5); try done.
  { destruct (it_same s s1 it) as (di & ? & _ & ?); eauto.
    apply (ks_alike _ _ _ _ _ _ _ _ Hks). destruct Hit as (? & ? & _). by eexists. }
  destruct (key_assigned p s1 A1 d e s5 Hks Hpit Hd W5 O5 D5) as (R5 & N5 & Habs).
  unfold hash_set. rewrite E1. cbn [mbind result_bind]. rewrite field_data, Hd. cbn [mbind result_bind].
  rewrite E2. cbn [mbind result_bind]. rewrite Hev. cbn [mbind result_bind]. rewrite E3. cbn [mbind result_bind].
  rewrite E4. cbn [mbind result_bind]. rewrite E5. cbn [mbind result_bind nil_contents]. unfold spec_set.
  destruct (isNil e); [|by exists s5, A1].
  destruct (delete_ok s5 (<[c := A1]> W) c A1 p W5 Hc1 (ks_in _ _ _ _ _ _ _ _ Hks) Hpw)
    as (s6 & A6 & E6 & [D6 _ _ D7 (X & Y & EA & EA') D8]).
  exists s6, A6. rewrite E6. split; [done|]. rewrite insert_insert_eq in D6, D8. split.
  - rewrite <- (insert_insert_eq W c A6 A1). apply (ready_again s5 (<[c := A1]> W) c A1 it s6 A6 p); try done.
    + by rewrite insert_insert_eq.
    + intros a Ha. right. rewrite EA. rewrite EA' in Ha. set_solver.
    + intros a Ha Hne _. apply alike_seen; [by apply D7|]. by eapply world_data.
    + apply D7. done.
  - rewrite D8, Habs, insert_insert_eq. f_equal. rewrite N5.
    assert (Hv : abs s5 (<[c := A1]> W) !! c = Some (view s5 A1)) by by apply abs_lookup.
    rewrite Habs, lookup_insert_eq in Hv. injection Hv as <-. by rewrite delete_insert_eq.
Qed.

(** Reading a key gives its value, or nil. *)
Lemma hash_get_ok : ∃ r s', hash_get mainContext key c s = Ok (r, s') ∧ hash_ready s' W c A it ∧
  abs s' W = abs s W ∧
  match view s A !! token with
  | Some v => ∃ x, r = ContentsResult x ∧ value_of x = Some v
  | None => r = NilResult
  end.
Proof using All.
  destruct Hready as [Hw Hc Hit Hitw HW]. destruct (hash_token_shape _ _ Htok) as [k Hk].
  pose proof (world_ordered _ _ _ _ Hw Hc) as Ho.
  destruct (find_in _ _ _ _ token Hw Hc ltac:(by subst)) as (r & E & Hw' & Hf).
  assert (Hr : hash_ready (set_root r s) W c A it) by by split.
  unfold hash_get, makeSafeSymbol. rewrite Htok. cbn [mbind result_bind]. unfold lookupSymbol.
  rewrite E. cbn [mbind result_bind]. destruct Hf as [(a & Ha & Hn & Ef)|(Hno & Ef & _)]; rewrite Ef;
    cbn [mbind result_bind].
  - destruct (context_cell _ _ _ _ Hw Hc) as (_ & _ & r' & _ & _ & _ & Hl).
    destruct (tree_addrs _ _ _ _ Hl Ha) as [H2 _]. rewrite (proj2 (Nat.eqb_neq a NULL)) by (unfold NULL; lia).
    destruct (world_own _ _ _ _ _ Hw Hc Ha) as (d & Hd & _ & Hcont).
    rewrite field_data. change (data_in (set_root r s) a) with (data_in s a). rewrite Hd. cbn [mbind result_bind].
    eexists _, _. split; [reflexivity|]. split; [done|]. split; [done|].
    rewrite value_of_some in Hcont. destruct (value_of (pl_contents d)) as [v|] eqn:Ev; [|done].
    assert (Hvw : view s A !! token = Some v).
    { apply view_spec; [done|]. exists a. unfold value_in. by rewrite (contents_in_payload _ _ _ Hd). }
    rewrite Hvw. eauto.
  - eexists _, _. split; [reflexivity|]. split; [done|]. split; [done|].
    destruct (view s A !! token) as [v|] eqn:Ev; [|done]. apply view_spec in Ev as (a & Ha & Hn & _); [|done].
    by destruct (Hno a Ha).
Qed.

(** One association of a list. *)
Lemma load_one_ok e : ∃ s' A',
  ('(p, s) ← makeSafeSymbol mainContext key c true s; set_contents (OtherCell e) p s) = Ok s' ∧
  hash_ready s' (<[c := A']> W) c A' it ∧
  abs s' (<[c := A']> W) = <[c := <[token := VCell e]> (view s A)]> (abs s W).
Proof using All.
  destruct key_there as (p & s1 & A1 & E1 & Hks & Hpd & _ & Hpit & Hpw & _).
  destruct (assign_ok s1 (<[c := A1]> W) p (OtherCell e)) as (d & s2 & Hd & E2 & W2 & D2 & O2); try done.
  { apply Hks. }
  exists s2, A1. rewrite E1. cbn [mbind result_bind]. split; [done|].
  destruct (key_assigned p s1 A1 d e s2 Hks Hpit Hd W2 O2 D2) as (R & _ & Habs). done.
Qed.

End Set_ok.

(** ** A value that deletes its own key *)

(** Setting an existing key to nil frees its symbol, whatever [$it] holds. *)
Lemma hash_nil_frees mainContext it key token s W c A p : world_ok s W → W !! c = Some A →
  hash_token key = Ok token → p ∈ A → name_in s p = token → W !! p = None → W !! it = None → p ≠ it →
  is_Some (data_in s it) →
  ∃ s' A', hash_set mainContext it key (λ s, Ok (OtherCell CNil, s)) c s = Ok (NilResult, s') ∧
    heap s' !! p = None ∧ is_Some (data_in s' it) ∧ world_ok s' (<[c := A']> W).
Proof.
  intros Hw Hc Ht Hp Hn Hpw Hiw Hne Hit. destruct (hash_token_shape _ _ Ht) as [k Hk].
  unfold hash_set, makeSafeSymbol. rewrite Ht. cbn [mbind result_bind].
  destruct (create_ok mainContext token CELL_NIL s W c A Hw Hc ltac:(by rewrite Hk)) as
    [(a & r & Ha & Hna & Hw' & E)|(Hno & _)]; [|by destruct (Hno p Hp)].
  assert (a = p) as -> by (eapply (names_inj s A); [by eapply world_ordered|done..|congruence]).
  rewrite E. cbn [mbind result_bind].
  destruct (world_own _ _ _ _ _ Hw Hc Hp) as (d & Hd & _ & Hcont). rewrite field_data.
  change (data_in (set_root r s) p) with (data_in s p). rewrite Hd. cbn [mbind result_bind].
  destruct (assign_ok (set_root r s) W it (pl_contents d) Hw') as (d2 & s2 & H2 & E2 & W2 & D2 & O2); try done.
  destruct (assign_ok s2 W it (OtherCell CNil)) as (d3 & s3 & H3 & E3 & W3 & D3 & O3); [done|by rewrite D2|done..|].
  assert (Hp3 : data_in s3 p = Some d) by by rewrite O3, O2.
  destruct (assign_ok s3 W p (OtherCell CNil)) as (d4 & s4 & H4 & E4 & W4 & D4 & O4); [done|by rewrite Hp3|done..|].
  destruct (assign_ok s4 W it (OtherCell CNil)) as (d5 & s5 & H5 & E5 & W5 & D5 & O5);
    [done|by rewrite O4, D3|done..|].
  rewrite E2. cbn [mbind result_bind]. rewrite E3. cbn [mbind result_bind]. rewrite E4.
  cbn [mbind result_bind]. rewrite E5. cbn [mbind result_bind nil_contents isNil].
  destruct (delete_ok s5 W c A p W5 Hc Hp Hpw) as (s6 & A6 & E6 & [D6 F6 _ L6 _ _]).
  exists s6, A6. rewrite E6. split; [done|]. split; [done|]. split; [|done].
  destruct (L6 it (not_eq_sym Hne) _ D5) as (d' & Hd' & _). by eexists.
Qed.

(** The value of a key evaluates to an assignment of nil to the same key. *)
Lemma hash_reenter mainContext it key token s W c A v : hash_ready s W c A it →
  hash_token key = Ok token → v ≠ NoContents →
  hash_set mainContext it key
    (λ s, '(_, s) ← hash_set mainContext it key (λ s, Ok (OtherCell CNil, s)) c s; Ok (v, s)) c s = UB.
Proof.
  intros Hr Ht Hv. destruct (key_there mainContext it key token s W c A Hr Ht)
    as (p & s1 & A1 & E1 & Hks & Hpd & Hpc & Hpit & Hpw & Hiw).
  destruct Hr as [Hw Hc Hit Hitw HW]. pose proof (ks_world _ _ _ _ _ _ _ _ Hks) as W1.
  assert (Hi1 : is_Some (data_in s1 it)).
  { destruct (it_same s s1 it) as (di & ? & _); [|done|by eexists].
    apply (ks_alike _ _ _ _ _ _ _ _ Hks). destruct Hit as (? & ? & _). by eexists. }
  destruct Hpd as [d Hd]. rewrite (contents_in_payload _ _ _ Hd) in Hpc.
  destruct (assign_ok s1 _ it (pl_contents d) W1 Hi1 Hiw Hpc) as (d2 & s2 & H2 & E2 & W2 & D2 & O2).
  destruct (hash_nil_frees mainContext it key token s2 (<[c := A1]> W) c A1 p) as (s3 & A3 & E3 & F3 & I3 & W3);
    try done.
  { by rewrite lookup_insert_eq. }
  { apply Hks. }
  { rewrite (name_in_data s1 s2 p); [apply Hks|by apply O2]. }
  unfold hash_set at 1. rewrite E1. cbn [mbind result_bind]. rewrite field_data, Hd. cbn [mbind result_bind].
  rewrite E2. cbn [mbind result_bind]. rewrite E3. cbn [mbind result_bind].
  rewrite insert_insert_eq in W3.
  destruct (assign_ok s3 _ it v W3 I3) as (d4 & s4 & H4 & E4 & W4 & D4 & O4); [|done|].
  { rewrite lookup_insert_ne in Hiw |- *; [done|intros ->; congruence..]. }
  rewrite E4. cbn [mbind result_bind].
  assert (Hp4 : data_in s4 p = None) by (rewrite O4 by done; unfold data_in; by rewrite F3).
  assert (E5 : set_contents v p s4 = UB) by (unfold set_contents; by rewrite field_data, Hp4).
  by rewrite E5.
Qed.

(** ** Loading and listing *)

Lemma hash_load_ok mainContext it l : ∀ s W c A, hash_ready s W c A it → load_ok l →
  ∃ s' A', hash_load mainContext l c s = Ok s' ∧ hash_ready s' (<[c := A']> W) c A' it ∧
    abs s' (<[c := A']> W) = <[c := spec_load l (view s A)]> (abs s W).
Proof.
  induction l as [|e l IH]; intros s W c A Hr Hl.
  { exists s, A. cbn. pose proof (hr_ctx _ _ _ _ _ Hr) as Hc. rewrite insert_id by done. split; [done|].
    split; [done|]. by rewrite insert_id by by apply abs_lookup. }
  assert (Hend : ∃ s' A', Ok s = Ok s' ∧ hash_ready s' (<[c := A']> W) c A' it ∧
    abs s' (<[c := A']> W) = <[c := view s A]> (abs s W)).
  { exists s, A. pose proof (hr_ctx _ _ _ _ _ Hr) as Hc. rewrite insert_id by done. split; [done|].
    split; [done|]. by rewrite insert_id by by apply abs_lookup. }
  apply Forall_cons in Hl as [Hk Hl].
  destruct e as [| | | | | | | | |[|key rest]| |]; try exact Hend; [by apply IH|].
  cbn [hash_load spec_load]. destruct (isKey key) eqn:Ek; cbn [mbind result_bind].
  2:{ destruct (IH s W c A Hr Hl) as (s' & A' & E & R & Habs). exists s', A'. split; [done|]. split; [done|].
      destruct (hash_token key); done. }
  destruct (Hk Ek) as [token Htok]. rewrite Htok.
  destruct (load_one_ok mainContext it key token s W c A Hr Htok (default CNil (head rest)))
    as (s1 & A1 & E1 & R1 & Habs1). rewrite E1. cbn [mbind result_bind].
  destruct (IH s1 _ c A1 R1 Hl) as (s2 & A2 & E2 & R2 & Habs2). exists s2, A2. split; [done|].
  rewrite insert_insert_eq in R2, Habs2. split; [done|]. rewrite Habs2, Habs1, insert_insert_eq. do 2 f_equal.
  assert (Hv : abs s1 (<[c := A1]> W) !! c = Some (view s1 A1)) by by apply abs_lookup, R1.
  rewrite Habs1, lookup_insert_eq in Hv. by injection Hv as <-.
Qed.

(** The association list of a context: its keys in order, with their values. *)
Lemma assocs_ok s W c A : world_ok s W → W !! c = Some A →
  associationsFromTree c s = Ok (assocs s A) ∧
  StronglySorted before_name (fst <$> assocs s A) ∧
  ∀ k v, (∃ x, (k, x) ∈ assocs s A ∧ value_of x = Some v) ↔ view s A !! String "_" k = Some v.
Proof.
  intros Hw Hc. destruct (context_cell _ _ _ _ Hw Hc) as (d & q & r & _ & _ & Ht & Hl).
  pose proof (world_ordered _ _ _ _ Hw Hc) as Ho.
  assert (Hu : ∀ a k x, underscored s a = Some (k, x) ↔ name_in s a = String "_" k ∧ x = contents_in s a).
  { intros a k x. unfold underscored. repeat case_match; split; try (intros [= <- <-]; done);
      try (intros [[= ] ?]; subst; congruence); try congruence; intros [? ?]; congruence. }
  split; [|split].
  - unfold associationsFromTree. rewrite Ht. cbn [mbind result_bind]. by rewrite (tree_assocs _ _ _ [] Hl Ho).
  - destruct Ho as [_ Hs]. clear Hw Hc Hl Ht. unfold assocs. induction Hs as [|a A Hs IH Hf]; [constructor|]. cbn.
    destruct (underscored s a) as [[k x]|] eqn:E; [|done]. cbn. constructor; [done|].
    apply Hu in E as [En _]. rewrite List.Forall_forall in *. intros k' Hk'%list_elem_of_In.
    apply list_elem_of_fmap in Hk' as ([k2 x2] & -> & Hin). rewrite list_elem_of_omap in Hin.
    destruct Hin as (b & Hb & Hub). apply Hu in Hub as [Hnb _]. apply list_elem_of_In, Hf in Hb.
    rewrite En, Hnb in Hb. unfold before_name in *. cbn [strcmp fst] in *. rewrite Z.ltb_irrefl in Hb. done.
  - intros k v. rewrite view_spec by done. unfold assocs. split.
    + intros (x & Hin & Hv). rewrite list_elem_of_omap in Hin. destruct Hin as (a & Ha & [Hn ->]%Hu).
      by exists a.
    + intros (a & Ha & Hn & Hv). exists (contents_in s a). split; [|done]. rewrite list_elem_of_omap.
      exists a. split; [done|]. by apply Hu.
Qed.

End Hash.
