(* ===== verification/Balance.v ===== *)
(** * The symbol tree: theorems (src/nl-symbol.c)

    The red-black invariant over insertion and deletion, the cost of a search and
    the order of the listing, for the tree of one context. *)

From stdpp Require Import base list numbers tactics strings gmap sorting.
From Stdlib Require Import ZArith Lia Ascii Sorting.Sorted.
From S2P Require Import Prelude Cell Order Symtree Redblack Insertion Symfind Deletion Symdelete Symtable World.

#[global] Open Scope nat_scope.
#[local] Set Warnings "-clear-no-such-hyp".

(** ** Height *)

Fixpoint height (t : tree) : nat :=
  match t with Leaf => 0 | Br _ l _ r => S (max (height l) (height r)) end.

Lemma rb_height n t : rb n t → height t ≤ 2 * n + (if shade t is RED then 1 else 0).
Proof.
  induction 1 as [|n l a r Hl IHl Hr IHr Cl Cr|n l a r Hl IHl Hr IHr]; cbn; [done|..].
  - rewrite Cl in IHl. rewrite Cr in IHr. lia.
  - destruct (shade l), (shade r); lia.
Qed.

Lemma rb_size n t : rb n t → 2 ^ n ≤ S (length (inorder t)).
Proof.
  induction 1 as [|n l a r Hl IHl Hr IHr Cl Cr|n l a r Hl IHl Hr IHr]; cbn; [done|..];
    rewrite length_app; cbn; lia.
Qed.

Lemma rbtree_height T : rbtree T → height T ≤ 2 * Nat.log2 (S (length (inorder T))).
Proof.
  intros (Hc & n & Hn). pose proof (rb_height _ _ Hn) as Hh. rewrite Hc in Hh.
  pose proof (rb_size _ _ Hn) as Hs. apply Nat.log2_le_mono in Hs. rewrite Nat.log2_pow2 in Hs by lia. lia.
Qed.

(** The descent does not go deeper than the tree. *)
Lemma find_loop_height s key : ∀ t cs f1 f2, tree_ok s (plug cs t) → height t < f1 → height t < f2 →
  find_loop f1 key (addr t) (par cs) s = find_loop f2 key (addr t) (par cs) s.
Proof.
  induction t as [|c l IHl a r IHr]; intros cs f1 f2 Hok H1 H2; (destruct f1 as [|f1]; [lia|]);
    (destruct f2 as [|f2]; [lia|]); cbn [find_loop addr]; [done|].
  destruct (Nat.eqb a NIL_SYM); [done|]. destruct (key_cmp key a s) as [k| | |]; [|done..]. cbn [mbind result_bind].
  destruct (Z.eqb k 0); [done|]. destruct (reads_ok s cs true c l a r Hok) as (Hl & Hr & _).
  cbn [height] in H1, H2. destruct (Z.ltb k 0); [rewrite Hl|rewrite Hr]; cbn [mbind result_bind].
  - apply (IHl (Crumb true c a r :: cs)); [done|lia..].
  - apply (IHr (Crumb false c a l :: cs)); [done|lia..].
Qed.

(** ** A tree of three symbols *)

Definition sentinel : node := Node BLACK NULL NIL_SYM NIL_SYM (Payload (Some "NIL") 0 NoContents NULL).

(** MAIN, [$it] and the context Foo with one symbol. *)
Definition demo : store := Store
  (list_to_map
    [ (NIL_SYM, sentinel);
      (2, Node RED 4 NIL_SYM NIL_SYM (Payload (Some "MAIN") 0x30 (ContextCell 2 4) 2));
      (3, Node RED 4 NIL_SYM NIL_SYM (Payload (Some "$it") 0x20 (OtherCell CNil) 2));
      (4, Node BLACK NULL 3 2 (Payload (Some "Foo") 0x30 (ContextCell 4 5) 2));
      (5, Node BLACK NULL NIL_SYM NIL_SYM (Payload (Some "_x") 0 (OtherCell (CLong 1)) 4)) ])
  4 4 6.

Definition demo_tree : tree := Br BLACK (Br RED Leaf 3 Leaf) 4 (Br RED Leaf 2 Leaf).

Lemma demo_tree_ok : tree_ok demo demo_tree.
Proof.
  split; [done| | | | |by eexists].
  - cbn. repeat split; eexists; vm_compute; reflexivity.
  - cbn. apply (bool_decide_unpack _). by vm_compute.
  - cbn. intros a Ha. repeat (apply elem_of_cons in Ha as [->|Ha]; [lia|]). by apply not_elem_of_nil in Ha.
  - intros p n Hp. apply elem_of_list_to_map_2 in Hp.
    repeat (apply elem_of_cons in Hp as [[= -> _]|Hp]; [unfold NIL_SYM; cbn; lia|]). by apply not_elem_of_nil in Hp.
Qed.

Lemma demo_symbols : symbols_ok demo demo_tree.
Proof.
  split; [apply demo_tree_ok|split; [done|]; exists 1; repeat constructor|split].
  - cbn. intros a Ha. repeat (apply elem_of_cons in Ha as [->|Ha]; [done|]). by apply not_elem_of_nil in Ha.
  - repeat constructor.
Qed.

(** ** Theorems *)

(** C17: [findInsertSymbol] with [FORCE_CREATION] on a red-black tree without a symbol of that name
    returns a new structure: the tree is red-black again, with the old symbols in their old order
    and the new one between those of smaller and of greater name; names and contents of the old
    symbols are untouched, and [symbolCount] grows by one. *)
Theorem findInsertSymbol_redblack (s : store) (T : tree) (key : string) (Hs : symbols_ok s T)
    (Hk : key ≠ EmptyString) (Hnew : ∀ a, a ∈ inorder T → name_in s a ≠ key) :
  ∃ s' T' A B, findInsertSymbol key true s = Ok (next s, s') ∧
    tree_ok s' T' ∧ rbtree T' ∧ inorder T = A ++ B ∧ inorder T' = A ++ next s :: B ∧
    (∀ a, a ∈ A → before_name (name_in s a) key) ∧ (∀ a, a ∈ B → before_name key (name_in s a)) ∧
    (∀ p, p ≠ next s → n_data <$> heap s' !! p = n_data <$> heap s !! p) ∧
    symbolCount s' = (symbolCount s + 1)%Z.
Proof.
  destruct (findInsertSymbol_ok s T key true Hs Hk) as [(a & Ha & Hn & _)|(cs & -> & [Hb1 Hb2] & s' & T' & H)].
  { by destruct (Hnew a Ha). }
  destruct H as (E & Hok & Hrb & Hi & [G1 G2 G3 G4 G5 G6] & Hc).
  exists s', T', (before cs), (behind cs). rewrite inorder_plug. done.
Qed.

Lemma findInsertSymbol_redblack_witness :
  ∃ s' T', findInsertSymbol "Bar" true demo = Ok (6, s') ∧ rbtree T' ∧ inorder T' = [3; 6; 4; 2].
Proof.
  destruct (findInsertSymbol_redblack demo demo_tree "Bar" demo_symbols) as
    (s' & T' & A & B & E & _ & Hrb & HA & HB & H1 & H2 & _); [done| |].
  - cbn. intros a Ha. repeat (apply elem_of_cons in Ha as [->|Ha]; [done|]). by apply not_elem_of_nil in Ha.
  - exists s', T'. split; [exact E|]. split; [exact Hrb|]. rewrite HB. cbn in HA.
    destruct A as [|a A]; [cbn in HA; subst; specialize (H2 3); cbn in H2; by ospecialize (H2 _); [by left|]|].
    injection HA as <- HA. destruct A as [|b A]; [cbn in HA; by subst|].
    injection HA as <- HA. specialize (H1 4). ospecialize (H1 _); [right; by left|]. done.
Defined.

(** C7: [deleteSymbol] of a name that is in the tree returns 1: the tree is red-black again, holds
    the other symbols in their old order, their names still increasing, and their names and contents
    are untouched. *)
Theorem deleteSymbol_redblack (s : store) (T : tree) (z : ptr) (Hs : symbols_ok s T) (Hz : z ∈ inorder T) :
  ∃ s' T' A B, deleteSymbol (name_in s z) s = Ok (true, s') ∧
    symbols_ok s' T' ∧ inorder T = A ++ z :: B ∧ inorder T' = A ++ B ∧
    (∀ p, n_data <$> heap s' !! p = n_data <$> heap s !! p) ∧
    symbolCount s' = (symbolCount s - 1)%Z.
Proof.
  pose proof Hs as [Hok Hrb [Hna Hso]]. assert (Ho : ordered s (inorder T)) by done.
  destruct (deleteSymbol_ok s T (name_in s z) Hs (Hna z Hz)) as
    [(A & z' & B & s' & T' & HA & Hn & E & Hok' & Hrb' & Hi & [T1 _ _ _] & Hc)|((cs & -> & Hb) & _)].
  - assert (z' = z) as -> by (apply (names_inj s (inorder T)); [done|rewrite HA; set_solver|done..]).
    exists s', T', A, B. split; [done|]. split; [|done]. split; [by rewrite (norm_id _ _ Hok')|done|].
    assert (Ho' : ordered s' (inorder T')) by
      (rewrite Hi; rewrite HA in Ho; apply ordered_remove in Ho; eapply ordered_frame; [exact Ho|];
       intros; apply name_in_data, T1).
    by destruct Ho'.
  - by destruct (belongs_absent _ _ _ Hb z Hz).
Qed.

Lemma deleteSymbol_redblack_witness :
  ∃ s' T', deleteSymbol "Foo" demo = Ok (true, s') ∧ rbtree T' ∧ length (inorder T') = 2.
Proof.
  assert (Hin : 4 ∈ inorder demo_tree) by (right; by left).
  destruct (deleteSymbol_redblack demo demo_tree 4 demo_symbols Hin) as
    (s' & T' & A & B & E & [_ Hrb _] & HA & HB & _). exists s', T'. split; [exact E|]. split; [exact Hrb|].
  rewrite HB. apply (f_equal length) in HA. rewrite length_app in HA |- *. cbn in HA. lia.
Defined.

(** A search compares the key with at most [2 * log2 (n + 1)] of the [n] names of a tree: this
    many rounds of the loop give what [search_tree] gives, the symbol of that name or the place where
    it belongs. *)
Theorem search_tree_logarithmic (s : store) (T : tree) (key : string) (Hs : symbols_ok s T)
    (Hk : key ≠ EmptyString) :
  find_loop (S (2 * Nat.log2 (S (length (inorder T))))) key
    (if Nat.eqb (root s) NULL then NIL_SYM else root s) NULL s = search_tree key s ∧
  ∃ r, search_tree key s = Ok r.
Proof.
  split; [|destruct (search_tree_ok s T key Hs Hk) as [(a & _ & _ & ->)|(cs & _ & _ & ->)]; eauto].
  destruct Hs as [Hok Hrb _]. pose proof (rbtree_height _ Hrb) as Hh.
  pose proof (size_enough _ _ Hok) as Hsz. rewrite norm_heap in Hsz. unfold search_tree, norm in *.
  destruct (Nat.eqb_spec (root s) NULL) as [E|E]; [done|]. rewrite (ok_root _ _ Hok).
  apply (find_loop_height s key T []); [done|lia|].
  assert (Hle : ∀ t, height t ≤ length (inorder t)).
  { induction t as [|c l IHl a r IHr]; cbn; [done|]. rewrite length_app. cbn. lia. }
  specialize (Hle T). lia.
Qed.

Lemma search_tree_logarithmic_witness :
  find_loop 5 "MAIN" 4 NULL demo = search_tree "MAIN" demo ∧ ∃ r, search_tree "MAIN" demo = Ok r.
Proof. apply (search_tree_logarithmic demo demo_tree "MAIN" demo_symbols). done. Defined.

(** [collectSymbols] on the tree of a context lists every symbol once, in strictly increasing
    order of the names. *)
Theorem collectSymbols_sorted (s : store) (T : tree) (Hs : symbols_ok s T) :
  ∃ l, collectSymbols (S (size (heap s))) (root s) s [] = Ok l ∧ l ≡ₚ inorder T ∧
    StronglySorted (λ a b, before_name (name_in s a) (name_in s b)) l.
Proof.
  destruct Hs as [Hok Hrb [_ Hso]]. exists (inorder T). split; [|done].
  assert (Hl : rb_linked s (root s) (inorder T)) by (exists T; by rewrite set_root_id).
  by rewrite (tree_list _ _ _ [] Hl).
Qed.

Lemma collectSymbols_sorted_witness :
  ∃ l, collectSymbols 6 4 demo [] = Ok l ∧ l ≡ₚ [3; 4; 2] ∧
    StronglySorted (λ a b, before_name (name_in demo a) (name_in demo b)) l.
Proof. apply (collectSymbols_sorted demo demo_tree demo_symbols). Defined.

(** A search for the empty name in a tree that is not empty reads behind the end of its buffer:
    the macro [str2cmp] always takes two bytes. *)
Theorem findInsertSymbol_empty_name (s : store) (T : tree) (force : bool) (Hs : symbols_ok s T)
    (HT : T ≠ Leaf) : findInsertSymbol EmptyString force s = UB.
Proof.
  pose proof (symbols_norm _ _ Hs HT) as Hn. destruct Hs as [Hok _ [Hna _]]. rewrite Hn in Hok.
  pose proof (ok_root _ _ Hok) as Hr. pose proof (addr_in _ HT) as Hin.
  pose proof (ok_addrs _ _ Hok _ Hin) as H2. rewrite <- Hr in Hin, H2.
  unfold findInsertSymbol, search_tree. rewrite (proj2 (Nat.eqb_neq _ _)) by (unfold NULL; lia).
  cbn [find_loop]. rewrite (proj2 (Nat.eqb_neq _ _)) by (unfold NIL_SYM; lia).
  unfold key_cmp. rewrite (name_of_ok _ _ (Hna _ Hin)). done.
Qed.

Lemma findInsertSymbol_empty_name_witness : findInsertSymbol EmptyString false demo = UB.
Proof. apply (findInsertSymbol_empty_name demo demo_tree false demo_symbols). done. Defined.
