(* ===== verification/Spaces.v ===== *)
(** * Contexts and name space hashes: theorems

    The theorems of Symbols.v and Hash.v for the red-black trees. *)

From stdpp Require Import base list numbers tactics strings gmap sorting.
From Stdlib Require Import ZArith Lia Ascii Sorting.Sorted.
From S2P Require Import Prelude Cell Order Symtree Redblack Insertion Symfind Symtable Context World Symbols Hash Balance.

#[global] Open Scope nat_scope.

#[local] Abbreviation world_ok := (world_ok (linked := rb_linked)).
#[local] Abbreviation hash_ready := (hash_ready (linked := rb_linked)).

(** ** The contexts of the example *)

Definition demo_contexts : gmap ptr (list ptr) := {[ 2 := [3; 4; 2]; 4 := [5] ]}.

Lemma demo_linked : rb_linked demo 4 [3; 4; 2].
Proof. exists demo_tree. split; [exact demo_tree_ok|]. split; [split; [done|]; exists 1; repeat constructor|done]. Qed.

Lemma demo_linked_foo : rb_linked demo 5 [5].
Proof.
  exists (Br BLACK Leaf 5 Leaf). split; [|split; [split; [done|]; exists 1; repeat constructor|done]].
  destruct demo_tree_ok as [_ _ _ _ H5 H6]. split; cbn; try done.
  - repeat split. eexists. vm_compute. reflexivity.
  - apply NoDup_singleton.
  - intros a ->%list_elem_of_singleton. lia.
Qed.

Lemma demo_arena : arena demo.
Proof. exact (tree_arena _ _ _ demo_linked). Qed.

Lemma demo_world : world_ok demo demo_contexts.
Proof.
  split; [exact demo_arena|]. intros c A. unfold demo_contexts.
  rewrite lookup_insert_Some, lookup_singleton_Some. intros [[<- <-]|[_ [<- <-]]].
  - split; [exists 4; split; [done|exact demo_linked]|split|].
    + intros a Ha. repeat (apply elem_of_cons in Ha as [->|Ha]; [done|]). by apply not_elem_of_nil in Ha.
    + repeat constructor.
    + intros a Ha. repeat (apply elem_of_cons in Ha as [->|Ha]; [by eexists|]). by apply not_elem_of_nil in Ha.
  - split; [exists 5; split; [done|exact demo_linked_foo]|split|].
    + intros a Ha. repeat (apply elem_of_cons in Ha as [->|Ha]; [done|]). by apply not_elem_of_nil in Ha.
    + repeat constructor.
    + intros a Ha. repeat (apply elem_of_cons in Ha as [->|Ha]; [by eexists|]). by apply not_elem_of_nil in Ha.
Qed.

Lemma demo_ready : hash_ready demo demo_contexts 4 [5] 3.
Proof. split; [exact demo_world|done|by eexists|done|by intros a k ->%list_elem_of_singleton]. Qed.

(** ** Scope *)

(** C18: [translateCreateSymbol] without [forceFlag] finds what [resolve] says: the context's own
    symbol of the name, or in another context than MAIN the symbol of MAIN if that is global or a
    context, and no map changes.  Otherwise exactly one name is added, to the context's map: with
    the type of a context in MAIN the new symbol is itself an empty context, else its value is nil.
    The trees of all contexts stay well formed. *)
Theorem translateCreateSymbol_scope (mainContext : ptr) (token : string) (type : Z) (s : store)
    (W : gmap ptr (list ptr)) (c : ptr) (A M : list ptr) (Hw : world_ok s W) (Hc : W !! c = Some A)
    (Hm : W !! mainContext = Some M) (Hk : token ≠ EmptyString) (Ht : type ≠ CELL_PRIMITIVE) :
  match resolve token s A M (negb (Nat.eqb c mainContext)) with
  | Some a => ∃ s', translateCreateSymbol mainContext token type c false s = Ok (a, s') ∧
      world_ok s' W ∧ abs s' W = abs s W
  | None => ∃ s' A', translateCreateSymbol mainContext token type c false s = Ok (next s, s') ∧
      world_ok s' (<[c := A']> W) ∧
      abs s' (<[c := A']> W) =
        <[c := <[token := if Z.eqb type CELL_CONTEXT && Nat.eqb c mainContext
                          then VContext (next s) else VCell CNil]> (view s A)]> (abs s W)
  end.
Proof.
  pose proof (resolve_ok mainContext token type s W c A M Hw Hc Hm Hk) as H.
  destruct (resolve _ _ _ _ _) as [a|].
  - destruct H as (r & E). exists (set_root r s). split; [done|]. split; [by apply set_root_world|done].
  - destruct H as (s' & A' & E & [C1 _ _ _ C5]). exists s', A'. split; [done|]. split; [done|]. apply C5.
    unfold fresh_payload. apply Z.eqb_neq in Ht. rewrite Ht. cbn [negb andb].
    by destruct (Z.eqb type CELL_CONTEXT && Nat.eqb c mainContext).
Qed.

Lemma translateCreateSymbol_scope_witness : ∃ s', translateCreateSymbol 2 "$it" CELL_NIL 4 false demo = Ok (3, s') ∧
  abs s' demo_contexts = abs demo demo_contexts.
Proof.
  destruct (translateCreateSymbol_scope 2 "$it" CELL_NIL demo demo_contexts 4 [5] [3; 4; 2] demo_world
    eq_refl eq_refl) as (s' & E & _ & H); [done|done|]. by exists s'.
Defined.

(** [deleteContextSymbols] frees every symbol of a context and leaves its map empty; all other
    contexts have the maps they had, and their trees stay well formed.  No symbol of the context may
    be a context itself. *)
Theorem deleteContextSymbols_clears (s : store) (W : gmap ptr (list ptr)) (c : ptr) (A : list ptr)
    (Hw : world_ok s W) (Hc : W !! c = Some A) (HW : ∀ a, a ∈ A → W !! a = None) :
  ∃ s', deleteContextSymbols c s = Ok s' ∧ world_ok s' (<[c := []]> W) ∧
    (∀ a, a ∈ A → heap s' !! a = None) ∧ abs s' (<[c := []]> W) = <[c := ∅]> (abs s W).
Proof.
  destruct (context_delete_ok s W c A Hw Hc HW) as (s' & E & H1 & H2 & _ & H3). by exists s'.
Qed.

Lemma deleteContextSymbols_clears_witness : ∃ s', deleteContextSymbols 4 demo = Ok s' ∧ heap s' !! 5 = None ∧
  abs s' (<[4 := []]> demo_contexts) !! 4 = Some ∅.
Proof.
  destruct (deleteContextSymbols_clears demo demo_contexts 4 [5] demo_world eq_refl) as (s' & E & _ & H & Ha).
  - by intros a ->%list_elem_of_singleton.
  - exists s'. split; [exact E|]. split; [apply H; by left|]. by rewrite Ha, lookup_insert_eq.
Defined.

(** ** Hash tables *)

(** C5: Setting a key in a name space, [(ctx key value)], is an insertion into the map of the context,
    and setting it to nil a removal; every other name and every other context keeps its value, and
    [$it] is nil again.  Reading a key gives the value in the map, or nil.  The evaluation of the
    value leaves the store alone. *)
Theorem evaluateNamespaceHash_map (mainContext it : ptr) (key : sexp) (token : string) (e : sexp)
    (ev : store → result (sym_cell * store)) (s : store) (W : gmap ptr (list ptr)) (c : ptr) (A : list ptr)
    (Hr : hash_ready s W c A it) (Hk : isKey key = true) (Ht : hash_token key = Ok token)
    (Hev : ∀ s, ev s = Ok (OtherCell e, s)) :
  (∃ s' A', evaluateNamespaceHash mainContext it key (Some ev) c s =
      Ok (if isNil e then NilResult else ContentsResult (OtherCell e), s') ∧
    hash_ready s' (<[c := A']> W) c A' it ∧
    abs s' (<[c := A']> W) = <[c := spec_set token e (view s A)]> (abs s W)) ∧
  (∃ r s', evaluateNamespaceHash mainContext it key None c s = Ok (r, s') ∧
    hash_ready s' W c A it ∧ abs s' W = abs s W ∧
    match view s A !! token with
    | Some v => ∃ x, r = ContentsResult x ∧ value_of x = Some v
    | None => r = NilResult
    end).
Proof.
  unfold evaluateNamespaceHash. rewrite Hk. split.
  - by apply hash_set_ok.
  - by apply hash_get_ok.
Qed.

Lemma evaluateNamespaceHash_map_witness : ∃ s' A',
  evaluateNamespaceHash 2 3 (CString "y") (Some (λ s, Ok (OtherCell (CLong 7), s))) 4 demo =
    Ok (ContentsResult (OtherCell (CLong 7)), s') ∧
  abs s' (<[4 := A']> demo_contexts) !! 4 = Some (<[ "_y" := VCell (CLong 7) ]> {[ "_x" := VCell (CLong 1) ]}).
Proof.
  destruct (evaluateNamespaceHash_map 2 3 (CString "y") "_y" (CLong 7) (λ s, Ok (OtherCell (CLong 7), s))
    demo demo_contexts 4 [5] demo_ready eq_refl eq_refl (λ s, eq_refl)) as [(s' & A' & E & _ & H) _].
  exists s', A'. split; [exact E|]. rewrite H. by rewrite lookup_insert_eq.
Defined.

(** C22: Loading an association list into a name space and asking for its association list gives the
    keys in strictly increasing order, each with the value it has in the map after the insertions
    from left to right: the last one of a key counts, and what the context held before stays. *)
Theorem evaluateNamespaceHash_roundtrip (mainContext it : ptr) (l : list sexp) (s : store)
    (W : gmap ptr (list ptr)) (c : ptr) (A : list ptr) (Hr : hash_ready s W c A it) (Hl : load_ok l) :
  ∃ s' L, evaluateNamespaceHash mainContext it (CExpr l) None c s = Ok (ContextResult c, s') ∧
    evaluateNamespaceHash mainContext it CNil None c s' = Ok (AssocResult L, s') ∧
    StronglySorted before_name (fst <$> L) ∧
    ∀ k v, (∃ x, (k, x) ∈ L ∧ value_of x = Some v) ↔ spec_load l (view s A) !! String "_" k = Some v.
Proof.
  destruct (hash_load_ok mainContext it l s W c A Hr Hl) as (s' & A' & E & R & Habs).
  destruct (assocs_ok s' _ c A' (hr_world _ _ _ _ _ R) (hr_ctx _ _ _ _ _ R)) as (E2 & Hs & Hv).
  exists s', (assocs s' A'). unfold evaluateNamespaceHash. cbn [isKey]. rewrite E, E2. cbn [mbind result_bind].
  split; [done|]. split; [done|]. split; [done|]. intros k v. rewrite Hv.
  assert (Hx : abs s' (<[c := A']> W) !! c = Some (view s' A')) by by apply abs_lookup, R.
  rewrite Habs, lookup_insert_eq in Hx. by injection Hx as ->.
Qed.

Definition demo_list : list sexp :=
  [CExpr [CString "b"; CLong 1]; CExpr [CString "a"; CLong 2]; CExpr [CLong 7; CNil]; CExpr [CString "b"; CLong 3]].

Lemma evaluateNamespaceHash_roundtrip_witness : ∃ s' L,
  evaluateNamespaceHash 2 3 (CExpr demo_list) None 4 demo = Ok (ContextResult 4, s') ∧
  evaluateNamespaceHash 2 3 CNil None 4 s' = Ok (AssocResult L, s') ∧
  ∃ x, ("b", x) ∈ L ∧ value_of x = Some (VCell (CLong 3)).
Proof.
  destruct (evaluateNamespaceHash_roundtrip 2 3 demo_list demo demo_contexts 4 [5] demo_ready) as (s' & L & E1 & E2 & _ & H).
  - repeat constructor; intros _; eexists; reflexivity.
  - exists s', L. split; [exact E1|]. split; [exact E2|]. apply H. vm_compute. reflexivity.
Defined.

(** The value may delete the key it is set for: [(ctx key (begin (ctx key nil) v))] frees the symbol
    of the key while it evaluates the value, and then writes to the freed symbol, in every name space
    and for every key and value. *)
Theorem evaluateNamespaceHash_reenter (mainContext it : ptr) (key : sexp) (token : string) (v : sym_cell)
    (s : store) (W : gmap ptr (list ptr)) (c : ptr) (A : list ptr) (Hr : hash_ready s W c A it)
    (Hk : isKey key = true) (Ht : hash_token key = Ok token) (Hv : v ≠ NoContents) :
  evaluateNamespaceHash mainContext it key
    (Some (λ s,
       '(_, s) ← evaluateNamespaceHash mainContext it key (Some (λ s, Ok (OtherCell CNil, s))) c s;
       Ok (v, s))) c s = UB.
Proof. unfold evaluateNamespaceHash. rewrite Hk. by eapply hash_reenter. Qed.

Lemma evaluateNamespaceHash_reenter_witness :
  evaluateNamespaceHash 2 3 (CString "x")
    (Some (λ s,
       '(_, s) ← evaluateNamespaceHash 2 3 (CString "x") (Some (λ s, Ok (OtherCell CNil, s))) 4 s;
       Ok (OtherCell (CLong 3), s))) 4 demo = UB.
Proof.
  apply (evaluateNamespaceHash_reenter 2 3 (CString "x") "_x" (OtherCell (CLong 3)) demo demo_contexts 4 [5] demo_ready);
    done.
Defined.
