(* ===== verification/Nursery.v ===== *)
(** * Cell memory (src/newlisp.c): allocation and the nursery

    The interpreter's cells as structures of words: the blocks with their free
    list, and the nursery (generation 0), from which [gcEvacuate] copies lists
    into the blocks, leaving forwarding cells behind.  Addresses count cells; the
    nursery is the range from [gen0_start] to [gen0_limit].  A read through a
    pointer that is no cell is [UB]. *)

From stdpp Require Import base list numbers tactics gmap.
From Stdlib Require Import ZArith Lia.
From S2P Require Import Prelude Cell.

#[global] Open Scope Z_scope.

Definition NULL := 0.
Definition nilCell := 1.
Definition trueCell := 2.

Definition CELL_FREE := 0xFF.
Definition CELL_ARRAY := 0x11E.
Definition CELL_FORWARD := 0x10000.
Definition ENVELOPE_TYPE_MASK := 0x10.
Definition MAX_BLOCK := 4095.
Definition ERR_NOT_ENOUGH_MEMORY := 1.

Definition isEnvelope (type : Z) : bool := negb (Z.land type ENVELOPE_TYPE_MASK =? 0).

Record cell := CellOf { c_type : Z; c_next : Z; c_aux : Z; c_contents : Z }.

(** What the collector and [deleteList] see of a bytecode object. *)
Record bytecode_obj := BytecodeObj { ref_count : Z; bc_constants : list Z }.

(** [brk] is the address the next block gets; [arrays] holds the blocks of
    pointers that array cells point to, [heap] the buffers of strings, names and
    big integers, [bytecodes] the bytecode objects, recognised by their magic
    number. *)
Record memory := Memory {
  cells : gmap Z cell;
  firstFreeCell : Z;
  cellCount : Z;
  MAX_CELL_COUNT : Z;
  blocks : list Z;
  brk : Z;
  gen0_start : Z;
  gen0_ptr : Z;
  gen0_limit : Z;
  arrays : gmap Z (list Z);
  heap : gmap Z (list Z);
  bytecodes : gmap Z bytecode_obj
}.

Definition set_cells (h : gmap Z cell) (m : memory) : memory :=
  Memory h (firstFreeCell m) (cellCount m) (MAX_CELL_COUNT m) (blocks m) (brk m)
    (gen0_start m) (gen0_ptr m) (gen0_limit m) (arrays m) (heap m) (bytecodes m).
Definition set_free (p n : Z) (m : memory) : memory :=
  Memory (cells m) p n (MAX_CELL_COUNT m) (blocks m) (brk m)
    (gen0_start m) (gen0_ptr m) (gen0_limit m) (arrays m) (heap m) (bytecodes m).
Definition set_gen0_ptr (p : Z) (m : memory) : memory :=
  Memory (cells m) (firstFreeCell m) (cellCount m) (MAX_CELL_COUNT m) (blocks m) (brk m)
    (gen0_start m) p (gen0_limit m) (arrays m) (heap m) (bytecodes m).
Definition set_arrays (a : gmap Z (list Z)) (m : memory) : memory :=
  Memory (cells m) (firstFreeCell m) (cellCount m) (MAX_CELL_COUNT m) (blocks m) (brk m)
    (gen0_start m) (gen0_ptr m) (gen0_limit m) a (heap m) (bytecodes m).

Definition cell_at (p : Z) (m : memory) : result cell :=
  match cells m !! p with Some c => Ok c | None => UB end.

(** Writing the fields of a cell. *)
Definition put (p : Z) (f : cell → cell) (m : memory) : result memory :=
  match cells m !! p with Some c => Ok (set_cells (<[p := f c]> (cells m)) m) | None => UB end.
Definition set_next (v : Z) (c : cell) : cell := CellOf (c_type c) v (c_aux c) (c_contents c).
Definition set_aux (v : Z) (c : cell) : cell := CellOf (c_type c) (c_next c) v (c_contents c).
Definition set_cell_contents (v : Z) (c : cell) : cell := CellOf (c_type c) (c_next c) (c_aux c) v.
Definition set_forward (v : Z) (c : cell) : cell := CellOf CELL_FORWARD (c_next c) (c_aux c) v.

Definition isInGen0 (p : Z) (m : memory) : bool := (gen0_start m <=? p) && (p <? gen0_limit m).

(** ** Blocks *)

Definition free_cell (next : Z) : cell := CellOf CELL_FREE next 0 0.

(** Each cell of a block points to the next one. *)
Fixpoint init_block (n : nat) (p : Z) (h : gmap Z cell) : gmap Z cell :=
  match n with
  | O => h
  | S n => init_block n (p + 1) (<[p := free_cell (p + 1)]> h)
  end.

Definition allocBlock (m : memory) : result memory :=
  if MAX_CELL_COUNT m - MAX_BLOCK <? cellCount m then Fail ERR_NOT_ENOUGH_MEMORY
  else
    let b := brk m in
    let h := init_block (Z.to_nat MAX_BLOCK) b (cells m) in
    let h := <[b + MAX_BLOCK - 1 := free_cell NULL]> h in
    Ok (Memory h b (cellCount m) (MAX_CELL_COUNT m) (blocks m ++ [b]) (b + MAX_BLOCK + 1)
          (gen0_start m) (gen0_ptr m) (gen0_limit m) (arrays m) (heap m) (bytecodes m)).

Definition allocGen1CellWithContents (type contents : Z) (m : memory) : result (Z * memory) :=
  m ← (if firstFreeCell m =? NULL then allocBlock m else Ok m);
  let p := firstFreeCell m in
  c ← cell_at p m;
  let m := set_free (c_next c) (cellCount m + 1) m in
  m ← put p (λ _, CellOf type nilCell nilCell contents) m;
  Ok (p, m).

Definition allocGen1Cell (type : Z) : memory → result (Z * memory) :=
  allocGen1CellWithContents type nilCell.

(** ** Evacuation *)

(** [while(last->next != nilCell) last = last->next]. *)
Fixpoint last_cell (fuel : nat) (p : Z) (m : memory) : result Z :=
  match fuel with
  | O => NoFuel
  | S fuel' => c ← cell_at p m; if c_next c =? nilCell then Ok p else last_cell fuel' (c_next c) m
  end.

(** What [gcEvacuate] tests before its loop. *)
Definition evacuate_with (loop : Z → Z → Z → memory → result (Z * memory)) (cell : Z) (m : memory)
    : result (Z * memory) :=
  if (cell =? NULL) || (cell =? nilCell) || (cell =? trueCell) then Ok (cell, m)
  else if negb (isInGen0 cell m) then Ok (cell, m)
  else
    c ← cell_at cell m;
    if c_type c =? CELL_FORWARD then Ok (c_contents c, m) else loop cell NULL NULL m.

(** The pointers of an array, from the index [i] on. *)
Fixpoint evacuate_array (loop : Z → Z → Z → memory → result (Z * memory)) (size i : nat) (addr : Z)
    (m : memory) : result memory :=
  match size with
  | O => Ok m
  | S size =>
      v ← match arrays m !! addr ≫= (.!! i) with Some v => Ok v | None => UB end;
      '(v, m) ← evacuate_with loop v m;
      let m := set_arrays (alter (λ l, <[i := v]> l) addr (arrays m)) m in
      evacuate_array loop size (S i) addr m
  end.

(** The contents of the new envelope [new]; its [aux] is again the last element,
    or the bytecode object of a lambda. *)
Definition evacuate_contents (loop : Z → Z → Z → memory → result (Z * memory)) (new cell : Z)
    (m : memory) : result memory :=
  n ← cell_at new m;
  if c_type n =? CELL_ARRAY then
    if c_contents n =? NULL then Ok m
    else evacuate_array loop (Z.to_nat (wrapU 64 (c_aux n - 1) / 8)) 0 (c_contents n) m
  else
    '(contents, m) ← evacuate_with loop (c_contents n) m;
    m ← put new (set_cell_contents contents) m;
    old ← cell_at cell m;
    if (c_type n =? CELL_LAMBDA) && negb (c_aux old =? 0) && negb (c_aux old =? nilCell) &&
       bool_decide (c_aux old ∈ dom (bytecodes m)) then put new (set_aux (c_aux old)) m
    else if negb (contents =? nilCell) then
      last ← last_cell (S (size (cells m))) contents m;
      put new (set_aux last) m
    else if c_type n =? CELL_LAMBDA then put new (set_aux nilCell) m
    else Ok m.

Fixpoint evacuate_loop (fuel : nat) (cell first prev : Z) (m : memory) : result (Z * memory) :=
  match fuel with
  | O => NoFuel
  | S fuel' =>
      if negb (cell =? nilCell) && isInGen0 cell m then
        c ← cell_at cell m;
        if c_type c =? CELL_FORWARD then
          m ← (if prev =? NULL then Ok m else put prev (set_next (c_contents c)) m);
          Ok (if first =? NULL then c_contents c else first, m)
        else
          '(new, m) ← allocGen1Cell (c_type c) m;
          m ← put new (λ _, CellOf (c_type c) (c_next c) (c_aux c) (c_contents c)) m;
          m ← (if prev =? NULL then Ok m else put prev (set_next new) m);
          m ← put cell (set_forward new) m;
          m ← (if isEnvelope (c_type c) then evacuate_contents (evacuate_loop fuel') new cell m else Ok m);
          evacuate_loop fuel' (c_next c) (if first =? NULL then new else first) new m
      else
        m ← (if negb (prev =? NULL) && negb (cell =? nilCell) then put prev (set_next cell) m else Ok m);
        Ok (first, m)
  end.

Definition gcEvacuate (cell : Z) (m : memory) : result (Z * memory) :=
  evacuate_with (evacuate_loop (S (size (cells m)))) cell m.

(** ** Roots *)

Definition MAX_CONTEXTS := 256%nat.
Definition SENTINEL := 1.

(** The symbols by address, with what the collector looks at. *)
Record gsymbol := GSymbol { g_left : Z; g_right : Z; g_contents : Z }.

(** The stacks from the bottom, and the registers [objCell], [lastCellCopied],
    [stringCell], [throwResult], [countCell] in this order; [vm_roots] are the
    operand stack and the [self_cell]s of the frames. *)
Record roots := Roots {
  symbols : gmap Z gsymbol;
  mainContext : Z;
  currentContext : Z;
  itSymbol : Z;
  argsSymbol : Z;
  envStack : list Z;
  resultStack : list Z;
  lambdaStack : list Z;
  registers : list Z;
  vm_roots : list Z
}.

Definition with_symbols (f : gmap Z gsymbol) (r : roots) : roots :=
  Roots f (mainContext r) (currentContext r) (itSymbol r) (argsSymbol r) (envStack r) (resultStack r)
    (lambdaStack r) (registers r) (vm_roots r).

(** [if(isInGen0(v)) v = gcEvacuate(v)]. *)
Definition evacuate_root (v : Z) (m : memory) : result (Z * memory) :=
  if isInGen0 v m then gcEvacuate v m else Ok (v, m).

Fixpoint evacuate_roots (l : list Z) (m : memory) : result (list Z * memory) :=
  match l with
  | [] => Ok ([], m)
  | v :: l =>
      '(v, m) ← evacuate_root v m;
      '(l, m) ← evacuate_roots l m;
      Ok (v :: l, m)
  end.

Definition symbol_at (s : Z) (f : gmap Z gsymbol) : result gsymbol :=
  match f !! s with Some g => Ok g | None => UB end.

Definition set_symbol_contents (s v : Z) (f : gmap Z gsymbol) : result (gmap Z gsymbol) :=
  g ← symbol_at s f; Ok (<[s := GSymbol (g_left g) (g_right g) v]> f).

(** The contents of a symbol, and the tree [walk] goes on to when they are the cell
    of a context not seen before; [visited] is [visitedContexts]. *)
Definition walk_contents (walk : Z → list Z → gmap Z gsymbol → memory → result (list Z * gmap Z gsymbol * memory))
    (s : Z) (visited : list Z) (f : gmap Z gsymbol) (m : memory) : result (list Z * gmap Z gsymbol * memory) :=
  g ← symbol_at s f;
  if (g_contents g =? 0) || (g_contents g =? nilCell) then Ok (visited, f, m)
  else
    '(v, m) ← gcEvacuate (g_contents g) m;
    f ← set_symbol_contents s v f;
    if v =? NULL then Ok (visited, f, m)
    else
      c ← cell_at v m;
      if negb (c_type c =? CELL_CONTEXT) || (c_contents c =? NULL) || bool_decide (c_contents c ∈ visited)
      then Ok (visited, f, m)
      else
        let visited := if decide (length visited < MAX_CONTEXTS)%nat
                       then visited ++ [c_contents c] else visited in
        if c_aux c =? 0 then Ok (visited, f, m) else walk (c_aux c) visited f m.

(** The trees of the contexts. *)
Fixpoint gcWalkSymbolTree (fuel : nat) (s : Z) (visited : list Z) (f : gmap Z gsymbol) (m : memory)
    : result (list Z * gmap Z gsymbol * memory) :=
  match fuel with
  | O => NoFuel
  | S fuel' =>
      if (s =? NULL) || (s =? SENTINEL) then Ok (visited, f, m)
      else
        g ← symbol_at s f;
        '(visited, f, m) ← gcWalkSymbolTree fuel' (g_left g) visited f m;
        '(visited, f, m) ← walk_contents (gcWalkSymbolTree fuel') s visited f m;
        g ← symbol_at s f;
        gcWalkSymbolTree fuel' (g_right g) visited f m
  end.

(** One of the two contexts the walk starts from. *)
Definition walk_context (fuel : nat) (ctx : Z) (visited : list Z) (f : gmap Z gsymbol) (m : memory)
    : result (list Z * gmap Z gsymbol * memory) :=
  if ctx =? NULL then Ok (visited, f, m) else
  g ← symbol_at ctx f;
  if g_contents g =? 0 then Ok (visited, f, m)
  else
    c ← cell_at (g_contents g) m;
    let visited := if decide (length visited < MAX_CONTEXTS)%nat then visited ++ [ctx] else visited in
    if c_aux c =? 0 then Ok (visited, f, m) else gcWalkSymbolTree fuel (c_aux c) visited f m.

(** [$it] and [$args]. *)
Definition evacuate_symbol (s : Z) (f : gmap Z gsymbol) (m : memory) : result (gmap Z gsymbol * memory) :=
  if s =? NULL then Ok (f, m) else
  g ← symbol_at s f;
  '(v, m) ← evacuate_root (g_contents g) m;
  f ← set_symbol_contents s v f;
  Ok (f, m).

(** [extra] is the content of [extraRoot], or NULL. *)
Definition collectGen0 (fuel : nat) (extra : Z) (r : roots) (m : memory) : result (Z * roots * memory) :=
  '(extra, m) ← evacuate_root extra m;
  '(visited, f, m) ← walk_context fuel (mainContext r) [] (symbols r) m;
  '(visited, f, m) ← (if bool_decide (currentContext r ∈ visited) then Ok (visited, f, m)
                      else walk_context fuel (currentContext r) visited f m);
  '(env, m) ← evacuate_roots (envStack r) m;
  '(res, m) ← evacuate_roots (resultStack r) m;
  '(lam, m) ← evacuate_roots (lambdaStack r) m;
  '(f, m) ← evacuate_symbol (itSymbol r) f m;
  '(f, m) ← evacuate_symbol (argsSymbol r) f m;
  '(regs, m) ← evacuate_roots (registers r) m;
  '(vms, m) ← evacuate_roots (vm_roots r) m;
  Ok (extra, Roots f (mainContext r) (currentContext r) (itSymbol r) (argsSymbol r) env res lam regs vms,
      set_gen0_ptr (gen0_start m) m).

(** The next cell of the nursery. *)
Definition young_cell (c : cell) (m : memory) : Z * memory :=
  (gen0_ptr m, set_cells (<[gen0_ptr m := c]> (cells m)) (set_gen0_ptr (gen0_ptr m + 1) m)).

(** [if(gen0_ptr >= gen0_limit) collectGen0(&extra)]. *)
Definition make_room (fuel : nat) (extra : Z) (r : roots) (m : memory) : result (Z * roots * memory) :=
  if gen0_limit m <=? gen0_ptr m then collectGen0 fuel extra r m else Ok (extra, r, m).

Definition getCell (fuel : nat) (type : Z) (r : roots) (m : memory) : result (Z * roots * memory) :=
  if negb (gen0_ptr m =? NULL) then
    '(_, r, m) ← make_room fuel NULL r m;
    let '(p, m) := young_cell (CellOf type nilCell nilCell nilCell) m in
    Ok (p, r, m)
  else '(p, m) ← allocGen1Cell type m; Ok (p, r, m).

(** The contents are a root while the nursery is collected. *)
Definition makeCell (fuel : nat) (type contents : Z) (r : roots) (m : memory) : result (Z * roots * memory) :=
  if negb (gen0_ptr m =? NULL) then
    '(contents, r, m) ← make_room fuel contents r m;
    let '(p, m) := young_cell (CellOf type nilCell nilCell contents) m in
    Ok (p, r, m)
  else '(p, m) ← allocGen1CellWithContents type contents m; Ok (p, r, m).

Definition stuffInteger (fuel : nat) (contents : Z) (r : roots) (m : memory) : result (Z * roots * memory) :=
  if negb (gen0_ptr m =? NULL) then
    '(_, r, m) ← make_room fuel NULL r m;
    let '(p, m) := young_cell (CellOf CELL_LONG nilCell nilCell contents) m in
    Ok (p, r, m)
  else '(p, m) ← allocGen1CellWithContents CELL_LONG contents m; Ok (p, r, m).

Definition makeStringCell (fuel : nat) (contents size : Z) (r : roots) (m : memory)
    : result (Z * roots * memory) :=
  if negb (gen0_ptr m =? NULL) then
    '(_, r, m) ← make_room fuel NULL r m;
    let '(p, m) := young_cell (CellOf CELL_STRING nilCell (size + 1) contents) m in
    Ok (p, r, m)
  else
    '(p, m) ← allocGen1Cell CELL_STRING m;
    m ← put p (set_aux (size + 1)) m;
    m ← put p (set_cell_contents contents) m;
    Ok (p, r, m).

(** ** Pushing on a list (src/nl-liststr.c, [p_push])

    A new cell before the first element. *)
Definition push_front (list newCell : Z) (m : memory) : result memory :=
  m ← put list (set_aux nilCell) m;
  c ← cell_at list m;
  m ← put list (set_cell_contents newCell) m;
  put newCell (set_next (c_contents c)) m.

(** The contents of the cells of a list. *)
Fixpoint list_contents (fuel : nat) (p : Z) (m : memory) : result (list Z) :=
  match fuel with
  | O => NoFuel
  | S fuel =>
      if p =? nilCell then Ok []
      else c ← cell_at p m; l ← list_contents fuel (c_next c) m; Ok (c_contents c :: l)
  end.
