(* ===== verification/Evacuate.v ===== *)
(** * Evacuation of the nursery (src/newlisp.c, [gcEvacuate])

    Lists of cells as binary trees: a cell, the list in its contents and the list
    behind it.  [gcEvacuate] copies the part of such a list that is in the
    nursery into fresh cells of the blocks and leaves everything else alone. *)

From stdpp Require Import base list numbers tactics gmap.
From Stdlib Require Import ZArith Lia.
From S2P Require Import Prelude Cell Nursery.

#[global] Open Scope Z_scope.
#[local] Set Warnings "-clear-no-such-hyp".

(** ** Lists of cells *)

(** [w] is the contents of a cell that is no envelope. *)
Inductive chain : Type :=
  | Nil
  | At (a type aux w : Z) (kids next : chain).

Definition first_of (c : chain) : Z := match c with Nil => nilCell | At a _ _ _ _ _ => a end.

Fixpoint addrs (c : chain) : list Z :=
  match c with Nil => [] | At a _ _ _ kids next => a :: addrs kids ++ addrs next end.

Definition word_of (type w : Z) (kids : chain) : Z := if isEnvelope type then first_of kids else w.

Definition plain_type (type : Z) : Prop := type ≠ CELL_FREE ∧ type ≠ CELL_FORWARD ∧ type ≠ CELL_ARRAY.

Fixpoint reprs (h : gmap Z cell) (c : chain) : Prop :=
  match c with
  | Nil => True
  | At a type aux w kids next =>
      h !! a = Some (CellOf type (first_of next) aux (word_of type w kids)) ∧ 2 < a ∧ plain_type type ∧
      (isEnvelope type = false → kids = Nil) ∧ reprs h kids ∧ reprs h next
  end.

(** The last element. *)
Fixpoint last_addr (a : Z) (next : chain) : Z :=
  match next with Nil => a | At b _ _ _ _ next => last_addr b next end.

Section Space.
Variables (lo hi lim : Z) (B : gset Z).

Definition young (a : Z) : bool := (lo <=? a) && (a <? hi).

(** The old generation holds no pointers into the nursery. *)
Fixpoint closed (c : chain) : Prop :=
  match c with
  | Nil => True
  | At a _ _ _ kids next =>
      if young a then closed kids ∧ closed next else Forall (λ x, young x = false) (addrs c)
  end.

(** The part that is copied. *)
Fixpoint copied (c : chain) : list Z :=
  match c with
  | Nil => []
  | At a _ _ _ kids next => if young a then a :: copied kids ++ copied next else []
  end.

(** The [aux] of a copied cell, with the copy of its contents. *)
Definition new_aux (type aux : Z) (kids : chain) : Z :=
  if negb (isEnvelope type) then aux
  else if (type =? CELL_LAMBDA) && bool_decide (aux ∈ B) then aux
  else match kids with
       | Nil => if type =? CELL_LAMBDA then nilCell else aux
       | At a _ _ _ _ next => last_addr a next
       end.

(** The same list with the nursery cells at new places. *)
Fixpoint copy_of (c c' : chain) : Prop :=
  match c with
  | Nil => c' = Nil
  | At a type aux w kids next =>
      if young a then
        match c' with
        | At a' type' aux' w' kids' next' =>
            type' = type ∧ w' = w ∧ young a' = false ∧ aux' = new_aux type aux kids' ∧
            copy_of kids kids' ∧ copy_of next next'
        | Nil => False
        end
      else c' = c
  end.

(** Every copied cell points to its copy. *)
Fixpoint forwards (h : gmap Z cell) (c c' : chain) : Prop :=
  match c, c' with
  | At a type aux _ kids next, At a' _ _ _ kids' next' =>
      if young a then
        h !! a = Some (CellOf CELL_FORWARD (first_of next) aux a') ∧ forwards h kids kids' ∧ forwards h next next'
      else True
  | _, _ => True
  end.

(** ** Memory *)

Definition live (m : memory) (a : Z) : Prop := ∃ c, cells m !! a = Some c ∧ c_type c ≠ CELL_FREE.

Fixpoint free_list (h : gmap Z cell) (p : Z) (l : list Z) : Prop :=
  match l with
  | [] => p = NULL
  | a :: l => p = a ∧ 2 < a ∧ young a = false ∧
      ∃ c, h !! a = Some c ∧ c_type c = CELL_FREE ∧ free_list h (c_next c) l
  end.

Record mem_ok (m : memory) : Prop := {
  mo_free : ∃ l, free_list (cells m) (firstFreeCell m) l ∧ NoDup l;
  mo_null : cells m !! NULL = None;
  mo_brk : ∀ a c, cells m !! a = Some c → a < brk m;
  mo_high : hi ≤ brk m ∧ 2 < brk m;
  mo_lo : gen0_start m = lo;
  mo_hi : gen0_limit m = hi;
  mo_lim : MAX_CELL_COUNT m = lim;
  mo_bytecodes : dom (bytecodes m) = B;
  mo_magic : 0 ∉ B ∧ nilCell ∉ B;
  mo_nursery : 2 < lo
}.

Lemma in_gen0 m a : mem_ok m → isInGen0 a m = young a.
Proof. intros H. unfold isInGen0, young. by rewrite (mo_lo _ H), (mo_hi _ H). Qed.

Lemma null_dead m : mem_ok m → ¬ live m NULL.
Proof. intros H (c & Hc & _). by rewrite (mo_null _ H) in Hc. Qed.

Lemma free_list_ext h h' l : ∀ p, (∀ a, a ∈ l → h' !! a = h !! a) → free_list h p l → free_list h' p l.
Proof.
  induction l as [|a l IH]; intros p He; cbn; [done|]. intros (-> & H2 & Hy & c & Hc & Ht & Hl).
  split; [done|]. split; [done|]. split; [done|]. exists c. rewrite He by by left.
  split; [done|]. split; [done|]. apply IH; [|done]. intros b Hb. apply He. by right.
Qed.

Lemma free_list_dead m p l a : free_list (cells m) p l → a ∈ l → ¬ live m a.
Proof.
  revert p. induction l as [|b l IH]; intros p; cbn; [by intros _ ?%not_elem_of_nil|].
  intros (-> & _ & _ & c & Hc & Ht & Hl) [->|Ha]%elem_of_cons; [|by eapply IH].
  intros (c' & Hc' & Ht'). congruence.
Qed.

(** ** Allocation *)

Lemma init_block_lookup n : ∀ p h a, init_block n p h !! a =
  if decide (p ≤ a < p + Z.of_nat n) then Some (free_cell (a + 1)) else h !! a.
Proof.
  induction n as [|n IH]; intros p h a; cbn [init_block].
  { rewrite decide_False by lia. done. }
  rewrite IH. repeat case_decide; try lia; try done.
  - assert (a = p) as -> by lia. by rewrite lookup_insert_eq.
  - rewrite lookup_insert_ne; [done|lia].
Qed.

Lemma init_block_list n p h : 0 < p → 2 < p → (∀ i, 0 ≤ i < Z.of_nat (S n) → young (p + i) = false) →
  free_list (<[p + Z.of_nat (S n) - 1 := free_cell NULL]> (init_block (S n) p h)) p (seqZ p (Z.of_nat (S n))).
Proof.
  set (N := S n). intros Hp H2 Hy.
  assert (Hgen : ∀ k q, q = p + Z.of_nat N - Z.of_nat (S k) → (S k ≤ N)%nat →
    free_list (<[p + Z.of_nat N - 1 := free_cell NULL]> (init_block N p h)) q (seqZ q (Z.of_nat (S k)))).
  { induction k as [|k IH]; intros q Hq Hk.
    - rewrite seqZ_cons by lia. replace (Z.pred (Z.of_nat 1)) with 0 by lia. cbn [free_list].
      split; [done|]. split; [lia|]. split; [replace q with (p + (q - p)) by lia; apply Hy; lia|].
      exists (free_cell NULL). replace q with (p + Z.of_nat N - 1) by lia. by rewrite lookup_insert_eq.
    - rewrite seqZ_cons by lia. cbn [free_list]. split; [done|]. split; [lia|].
      split; [replace q with (p + (q - p)) by lia; apply Hy; lia|].
      exists (free_cell (q + 1)). rewrite lookup_insert_ne by lia. rewrite init_block_lookup.
      rewrite decide_True by lia. split; [done|]. split; [done|]. cbn [c_next free_cell].
      replace (Z.pred (Z.of_nat (S (S k)))) with (Z.of_nat (S k)) by lia.
      replace (Z.succ q) with (q + 1) by lia. apply IH; lia. }
  apply Hgen; lia.
Qed.

Lemma MAX_BLOCK_nat : ∃ k, Z.to_nat MAX_BLOCK = S k ∧ MAX_BLOCK = Z.of_nat (S k).
Proof.
  exists (Z.to_nat (MAX_BLOCK - 1)). split; [reflexivity|]. rewrite Nat2Z.inj_succ, Z2Nat.id; [|discriminate].
  reflexivity.
Qed.

Lemma allocBlock_ok m : mem_ok m → firstFreeCell m = NULL → cellCount m ≤ lim - MAX_BLOCK →
  ∃ m', allocBlock m = Ok m' ∧ mem_ok m' ∧ firstFreeCell m' ≠ NULL ∧ cellCount m' = cellCount m ∧
    (∀ a, live m' a → live m a) ∧ (∀ a, live m a → cells m' !! a = cells m !! a) ∧
    (∀ a c, cells m !! a = Some c → cells m' !! a = Some c).
Proof.
  intros [Hf Hz Hb [Hh1 Hh2] Hlo Hhi Hlim HB Hm Hn] E Hc. unfold allocBlock. rewrite Hlim.
  destruct (Z.ltb_spec (lim - MAX_BLOCK) (cellCount m)) as [|_]; [lia|]. eexists. split; [reflexivity|].
  destruct MAX_BLOCK_nat as (k & Ek & EM). rewrite Ek. rewrite EM in *. clear EM Ek.
  assert (Hold : ∀ a, a < brk m → <[brk m + Z.of_nat (S k) - 1 := free_cell NULL]>
    (init_block (S k) (brk m) (cells m)) !! a = cells m !! a).
  { intros a Ha. rewrite lookup_insert_ne by lia. rewrite init_block_lookup.
    by rewrite decide_False by lia. }
  assert (Hsame : ∀ a c, cells m !! a = Some c → <[brk m + Z.of_nat (S k) - 1 := free_cell NULL]>
    (init_block (S k) (brk m) (cells m)) !! a = Some c).
  { intros a c Ha. rewrite Hold; [done|]. by eapply Hb. }
  split; [split; cbn [cells firstFreeCell brk gen0_start gen0_limit MAX_CELL_COUNT bytecodes]; try done|].
  - exists (seqZ (brk m) (Z.of_nat (S k))). split; [|apply NoDup_seqZ].
    apply init_block_list; [lia..|]. intros i Hi. unfold young.
    destruct (Z.ltb_spec (brk m + i) hi); [lia|]. by rewrite andb_false_r.
  - rewrite Hold by (unfold NULL; lia). done.
  - intros a c. rewrite lookup_insert_Some, init_block_lookup. intros [[<- _]|[_ H]]; [lia|].
    revert H. case_decide; [lia|]. intros Ha%Hb. lia.
  - lia.
  - cbn [cells firstFreeCell cellCount]. split; [unfold NULL; lia|]. split; [done|]. split; [|split; [|done]].
    + intros a (c & Ha & Ht). exists c. split; [|done]. cbn [cells] in Ha. revert Ha.
      rewrite lookup_insert_Some, init_block_lookup. intros [[_ <-]|[_ Ha]]; [done|].
      case_decide; [|done]. by injection Ha as <-.
    + intros a (c & Ha & _). rewrite Ha. by apply Hsame.
Qed.

Record allocated (m : memory) (type p : Z) (m' : memory) : Prop := {
  al_ok : mem_ok m';
  al_addr : 2 < p ∧ young p = false;
  al_fresh : ¬ live m p;
  al_cell : cells m' !! p = Some (CellOf type nilCell nilCell nilCell);
  al_frame : ∀ a, live m a → cells m' !! a = cells m !! a;
  al_live : ∀ a, live m' a → a = p ∨ live m a;
  al_count : cellCount m' = cellCount m + 1
}.

Lemma alloc_gen1_ok m type : mem_ok m → cellCount m ≤ lim - MAX_BLOCK → type ≠ CELL_FREE →
  ∃ p m', allocGen1Cell type m = Ok (p, m') ∧ allocated m type p m'.
Proof.
  intros Hok Hc Ht. unfold allocGen1Cell, allocGen1CellWithContents.
  assert (Hb : ∃ m1, (if firstFreeCell m =? NULL then allocBlock m else Ok m) = Ok m1 ∧ mem_ok m1 ∧
    firstFreeCell m1 ≠ NULL ∧ cellCount m1 = cellCount m ∧ (∀ a, live m1 a → live m a) ∧
    (∀ a, live m a → cells m1 !! a = cells m !! a)).
  { destruct (Z.eqb_spec (firstFreeCell m) NULL) as [E|E]; [|by exists m].
    destruct (allocBlock_ok m Hok E Hc) as (m1 & H1 & H2 & H3 & H4 & H5 & H6 & _). by exists m1. }
  destruct Hb as (m1 & E & Hok1 & Hne & Hcount & Hl1 & Hf1). rewrite E. cbn [mbind result_bind].
  destruct Hok1 as [(l & Hl & Hnd) Hz Hbrk Hh Hlo Hhi Hlim HB Hm Hn]. set (p := firstFreeCell m1) in *.
  destruct l as [|a l]; [done|]. pose proof Hl as Hl'. destruct Hl as (Ep & H2 & Hy & c & Hcp & Hty & Hl).
  rewrite <- Ep in *. apply NoDup_cons in Hnd as [Hpl Hnd].
  unfold cell_at. rewrite Hcp. cbn [mbind result_bind]. unfold put. cbn [cells set_free]. rewrite Hcp.
  cbn [mbind result_bind]. exists p. eexists. split; [reflexivity|].
  assert (Hdead : ¬ live m1 p) by (intros (c' & Hc' & Ht'); congruence).
  split; cbn [cells set_cells set_free cellCount].
  - split; cbn [cells set_cells set_free firstFreeCell brk gen0_start gen0_limit MAX_CELL_COUNT bytecodes]; try done.
    + exists l. split; [|done]. eapply free_list_ext; [|exact Hl]. intros b Hb. apply lookup_insert_ne.
      by intros ->.
    + rewrite lookup_insert_ne; [done|]. unfold NULL. lia.
    + intros b cb. rewrite lookup_insert_Some. intros [[<- _]|[_ Hb]]; by eapply Hbrk.
  - done.
  - intros Hlive. apply Hdead. destruct Hlive as (c' & Hc' & Ht'). exists c'. rewrite Hf1; [done|]. by exists c'.
  - by rewrite lookup_insert_eq.
  - intros b Hb. rewrite lookup_insert_ne; [by apply Hf1|]. intros ->. apply Hdead.
    destruct Hb as (c' & Hc' & Ht'). exists c'. rewrite Hf1; [done|]. by exists c'.
  - intros b (cb & Hb & Htb). cbn [cells set_cells set_free] in Hb. rewrite lookup_insert_Some in Hb. destruct Hb as [[<- _]|[_ Hb]]; [by left|].
    right. apply Hl1. by exists cb.
  - by rewrite Hcount.
Qed.

(** ** Assignments *)

Lemma put_ok m p f c : mem_ok m → cells m !! p = Some c → c_type c ≠ CELL_FREE →
  ∃ m', put p f m = Ok m' ∧ mem_ok m' ∧ cells m' = <[p := f c]> (cells m) ∧ cellCount m' = cellCount m.
Proof.
  intros [(l & Hl & Hnd) Hz Hbrk Hh Hlo Hhi Hlim HB Hm Hn] Hp Ht. unfold put. rewrite Hp. eexists.
  split; [reflexivity|]. split; [|done].
  split; cbn [cells set_cells firstFreeCell brk gen0_start gen0_limit MAX_CELL_COUNT bytecodes]; try done.
  - exists l. split; [|done]. eapply free_list_ext; [|exact Hl]. intros b Hb. apply lookup_insert_ne. intros ->.
    eapply (free_list_dead m); [exact Hl|exact Hb|]. by exists c.
  - rewrite lookup_insert_ne; [done|]. intros ->. congruence.
  - intros b cb. rewrite lookup_insert_Some. intros [[<- _]|[_ Hb]]; by eapply Hbrk.
Qed.

Lemma live_ext m m' a : cells m' !! a = cells m !! a → live m a → live m' a.
Proof. intros E (c & Hc & Ht). exists c. by rewrite E. Qed.

Lemma reprs_ext h h' c : (∀ a, a ∈ addrs c → h' !! a = h !! a) → reprs h c → reprs h' c.
Proof.
  induction c as [|a ty aux w kids IHk nx IHn]; [done|]. cbn. intros He (H1 & H2 & H3 & H4 & H5 & H6).
  split; [rewrite He; [done|by left]|]. do 3 (split; [done|]).
  split; [apply IHk|apply IHn]; try done; intros x Hx; apply He; right; apply elem_of_app; [by left|by right].
Qed.

Lemma reprs_live m c a : reprs (cells m) c → a ∈ addrs c → live m a ∧ 2 < a.
Proof.
  induction c as [|b ty aux w kids IHk nx IHn]; cbn; [by intros _ ?%not_elem_of_nil|].
  intros (H1 & H2 & (H3 & _) & _ & H5 & H6) [->|[Ha|Ha]%elem_of_app]%elem_of_cons; [|auto..].
  split; [|done]. by eexists.
Qed.

Lemma copied_in c a : a ∈ copied c → a ∈ addrs c ∧ young a = true.
Proof.
  induction c as [|b ty aux w kids IHk nx IHn]; cbn; [by intros ?%not_elem_of_nil|].
  destruct (young b) eqn:E; [|by intros ?%not_elem_of_nil].
  intros [->|[Ha|Ha]%elem_of_app]%elem_of_cons; [split; [by left|done]|..];
    [apply IHk in Ha as [? ?]|apply IHn in Ha as [? ?]]; (split; [|done]); right; apply elem_of_app; auto.
Qed.

Lemma forwards_ext h h' c : ∀ c', (∀ a, a ∈ copied c → h' !! a = h !! a) → forwards h c c' → forwards h' c c'.
Proof.
  induction c as [|a ty aux w kids IHk nx IHn]; intros [|a' ty' aux' w' kids' nx'] He; cbn in *; try done.
  destruct (young a); [|done]. intros (H1 & H2 & H3). split; [rewrite He; [done|by left]|].
  split; [apply IHk|apply IHn]; try done; intros x Hx; apply He; right; apply elem_of_app; auto.
Qed.

Lemma addrs_dom h c : reprs h c → ∀ a, a ∈ addrs c → a ∈ dom h.
Proof.
  induction c as [|b ty aux w kids IHk nx IHn]; cbn; [by intros _ a ?%not_elem_of_nil|].
  intros (H1 & _ & _ & _ & H5 & H6) a [->|[Ha|Ha]%elem_of_app]%elem_of_cons; [by eapply elem_of_dom_2|auto..].
Qed.

Lemma cells_enough h c : reprs h c → NoDup (addrs c) → (length (addrs c) ≤ size h)%nat.
Proof.
  intros Hr Hn. rewrite <- size_dom. transitivity (size (list_to_set (addrs c) : gset Z)).
  - by rewrite size_list_to_set.
  - apply subseteq_size. intros a Ha%elem_of_list_to_set. by eapply addrs_dom.
Qed.

Lemma last_cell_ok m fuel : ∀ a ty aux w kids nx, reprs (cells m) (At a ty aux w kids nx) →
  (length (addrs (At a ty aux w kids nx)) ≤ fuel)%nat → last_cell fuel a m = Ok (last_addr a nx).
Proof.
  induction fuel as [|fuel IH]; intros a ty aux w kids nx Hr Hf; [cbn in Hf; lia|].
  destruct Hr as (H1 & _ & _ & _ & _ & Hn). cbn [last_cell]. unfold cell_at. rewrite H1.
  cbn [mbind result_bind c_next]. destruct nx as [|b ty' aux' w' kids' nx']; [done|].
  assert (Hb : 2 < b) by apply Hn. cbn [first_of]. destruct (Z.eqb_spec b nilCell) as [->|_]; [done|].
  cbn [last_addr]. apply IH with (1 := Hn). cbn in Hf |- *. rewrite length_app in Hf. cbn in Hf. lia.
Qed.

(** ** What an evacuation does *)

(** From [m] with the list [c] to [m'] with its copy; besides the nursery cells of
    the list, only [prev] may have changed. *)
Record evacuated (prev : Z) (m : memory) (c : chain) (m' : memory) (c' : chain) : Prop := {
  ev_ok : mem_ok m';
  ev_copy : copy_of c c';
  ev_repr : reprs (cells m') c';
  ev_nodup : NoDup (addrs c');
  ev_addr : ∀ a, a ∈ addrs c' → young a = false ∧ (a ∈ addrs c ∨ ¬ live m a);
  ev_frame : ∀ a, live m a → a ≠ prev → a ∉ copied c → cells m' !! a = cells m !! a;
  ev_live : ∀ a, live m' a → live m a ∨ a ∈ addrs c';
  ev_stays : ∀ a, live m a → live m' a;
  ev_forward : forwards (cells m') c c';
  ev_count : cellCount m' = cellCount m + Z.of_nat (length (copied c))
}.

(** A list that does not start in the nursery stays. *)
Lemma evacuated_old prev m c : mem_ok m → reprs (cells m) c → NoDup (addrs c) → closed c →
  young (first_of c) = false → evacuated prev m c m c.
Proof.
  intros Hok Hr Hn Hc Hy. assert (Hold : Forall (λ x, young x = false) (addrs c)).
  { destruct c as [|a ty aux w kids nx]; [constructor|]. cbn [closed first_of] in *. by rewrite Hy in Hc. }
  assert (Hcp : copied c = []) by (destruct c; cbn in *; [done|]; by rewrite Hy).
  split; try done.
  - destruct c; cbn in *; [done|]. by rewrite Hy.
  - intros a Ha. rewrite Forall_forall in Hold. auto.
  - by left.
  - destruct c; cbn in *; [done|]. by rewrite Hy.
  - rewrite Hcp. cbn. lia.
Qed.

(** The state of the loop: no cell copied yet, or [prev] the copy of the cell
    before. *)
Definition at_prev (m : memory) (c : chain) (first prev : Z) (pc : cell) : Prop :=
  (prev = NULL ∧ first = NULL ∧ young (first_of c) = true) ∨
  (first ≠ NULL ∧ prev ≠ NULL ∧ cells m !! prev = Some pc ∧ c_type pc ≠ CELL_FREE ∧
   c_next pc = first_of c ∧ prev ∉ addrs c).

Definition loop_spec (c : chain) (fuel : nat) : Prop :=
  ∀ first prev pc m, mem_ok m → reprs (cells m) c → NoDup (addrs c) → closed c →
    cellCount m + Z.of_nat (length (copied c)) ≤ lim - MAX_BLOCK → at_prev m c first prev pc →
    ∃ m' c', evacuate_loop fuel (first_of c) first prev m =
        Ok (if first =? NULL then first_of c' else first, m') ∧
      evacuated prev m c m' c' ∧ (prev ≠ NULL → cells m' !! prev = Some (set_next (first_of c') pc)).

(** [gcEvacuate] on a list, given its loop. *)
Lemma with_ok c fuel m : loop_spec c fuel → mem_ok m → reprs (cells m) c → NoDup (addrs c) → closed c →
  cellCount m + Z.of_nat (length (copied c)) ≤ lim - MAX_BLOCK →
  ∃ m' c', evacuate_with (evacuate_loop fuel) (first_of c) m = Ok (first_of c', m') ∧ evacuated NULL m c m' c'.
Proof.
  intros Hloop Hok Hr Hn Hc Hcount. unfold evacuate_with. rewrite (in_gen0 _ _ Hok).
  destruct (young (first_of c)) eqn:Hy.
  2:{ exists m, c. split; [|by apply evacuated_old]. by destruct (_ || _). }
  destruct c as [|a ty aux w kids nx].
  { exfalso. pose proof (mo_nursery _ Hok). cbn in Hy. unfold young, nilCell in Hy. lia. }
  destruct (Hloop NULL NULL (CellOf 0 0 0 0) m) as (m' & c' & E & Hev & _); try done; [by left|].
  destruct Hr as (H1 & H2 & (_ & Ht & _) & _). cbn [first_of] in *. unfold NULL, nilCell, trueCell.
  destruct (Z.eqb_spec a 0), (Z.eqb_spec a 1), (Z.eqb_spec a 2); try lia. cbn [orb negb].
  unfold cell_at. rewrite H1. cbn [mbind result_bind c_type]. rewrite (proj2 (Z.eqb_neq ty _)) by done.
  exists m', c'. by split.
Qed.

(** ** One round of the loop *)

(** The cell [a] has been copied to [p] and forwarded. *)
Record begun (m : memory) (a : Z) (ca : cell) (prev : Z) (pc : cell) (p : Z) (m' : memory) : Prop := {
  bg_ok : mem_ok m';
  bg_addr : 2 < p ∧ young p = false ∧ ¬ live m p;
  bg_copy : cells m' !! p = Some ca;
  bg_forward : cells m' !! a = Some (set_forward p ca);
  bg_prev : prev ≠ NULL → cells m' !! prev = Some (set_next p pc);
  bg_frame : ∀ y, live m y → y ≠ a → y ≠ prev → cells m' !! y = cells m !! y;
  bg_live : ∀ y, live m' y → y = p ∨ live m y;
  bg_stays : ∀ y, live m y → live m' y;
  bg_count : cellCount m' = cellCount m + 1
}.

Lemma begin_copy m a ca prev pc : mem_ok m → cells m !! a = Some ca → c_type ca ≠ CELL_FREE →
  cellCount m ≤ lim - MAX_BLOCK → prev ≠ a →
  (prev ≠ NULL → cells m !! prev = Some pc ∧ c_type pc ≠ CELL_FREE) →
  ∃ p m1 m2 m3 m4, allocGen1Cell (c_type ca) m = Ok (p, m1) ∧
    put p (λ _, CellOf (c_type ca) (c_next ca) (c_aux ca) (c_contents ca)) m1 = Ok m2 ∧
    (if prev =? NULL then Ok m2 else put prev (set_next p) m2) = Ok m3 ∧
    put a (set_forward p) m3 = Ok m4 ∧ begun m a ca prev pc p m4.
Proof.
  intros Hok Ha Ht Hc Hpa Hpc. destruct (alloc_gen1_ok m (c_type ca) Hok Hc Ht) as (p & m1 & E1 & [A1 A2 A3 A4 A5 A6 A7]).
  assert (Hla : live m a) by by exists ca.
  assert (Hap : a ≠ p) by (by intros ->). assert (Heta : ca = CellOf (c_type ca) (c_next ca) (c_aux ca) (c_contents ca)) by by destruct ca.
  destruct (put_ok m1 p (λ _, CellOf (c_type ca) (c_next ca) (c_aux ca) (c_contents ca)) _ A1 A4)
    as (m2 & E2 & Ok2 & H2 & C2); [done|]. rewrite <- Heta in H2.
  assert (Hprev : prev ≠ NULL → live m prev) by (intros Hp; destruct (Hpc Hp); by exists pc).
  assert (H3 : ∃ m3, (if prev =? NULL then Ok m2 else put prev (set_next p) m2) = Ok m3 ∧ mem_ok m3 ∧
    cells m3 = (if prev =? NULL then cells m2 else <[prev := set_next p pc]> (cells m2)) ∧ cellCount m3 = cellCount m2).
  { destruct (Z.eqb_spec prev NULL) as [|Hp]; [by exists m2|]. destruct (Hpc Hp) as [Hpc1 Hpc2].
    apply (put_ok m2 prev (set_next p) pc Ok2); [|done]. rewrite H2, lookup_insert_ne by (intros <-; by apply A3, Hprev).
    rewrite A5 by by apply Hprev. done. }
  destruct H3 as (m3 & E3 & Ok3 & H3 & C3).
  assert (Ha3 : cells m3 !! a = Some ca).
  { rewrite H3. destruct (prev =? NULL); [|rewrite lookup_insert_ne by done]; rewrite H2, lookup_insert_ne, A5 by done; done. }
  destruct (put_ok m3 a (set_forward p) ca Ok3 Ha3 Ht) as (m4 & E4 & Ok4 & H4 & C4).
  assert (Hfr : ∀ y, y ≠ a → y ≠ p → (prev ≠ NULL → y ≠ prev) → cells m4 !! y = cells m1 !! y).
  { intros y Hya Hyp Hypr. rewrite H4, lookup_insert_ne, H3 by done.
    destruct (Z.eqb_spec prev NULL) as [|Hp]; rewrite ?lookup_insert_ne by (symmetry; auto);
      by rewrite H2, lookup_insert_ne. }
  exists p, m1, m2, m3, m4. do 4 (split; [done|]). split; try done.
  - destruct A2. done.
  - rewrite H4, lookup_insert_ne, H3 by done. destruct (Z.eqb_spec prev NULL) as [|Hp].
    + by rewrite H2, lookup_insert_eq.
    + rewrite lookup_insert_ne by (intros ->; by apply A3, Hprev). by rewrite H2, lookup_insert_eq.
  - by rewrite H4, lookup_insert_eq.
  - intros Hp. rewrite H4, lookup_insert_ne, H3 by done. rewrite (proj2 (Z.eqb_neq _ _) Hp). by rewrite lookup_insert_eq.
  - intros y Hy Hya Hypr. assert (y ≠ p) by by intros ->. rewrite Hfr by done. by apply A5.
  - intros y Hy. destruct (decide (y = p)) as [->|Hyp]; [by left|right].
    destruct (decide (y = a)) as [->|Hya]; [done|].
    destruct (decide (prev ≠ NULL ∧ y = prev)) as [[Hp ->]|Hypr]; [by apply Hprev|].
    destruct (A6 y) as [|]; [|done|done]. eapply live_ext; [|exact Hy]. symmetry. apply Hfr; [done|done|]. intros Hp ->. tauto.
  - intros y Hy. destruct (decide (y = a)) as [->|Hya]; [exists (set_forward p ca); by rewrite H4, lookup_insert_eq|].
    destruct (decide (prev ≠ NULL ∧ y = prev)) as [[Hp ->]|Hypr].
    + exists (set_next p pc). rewrite H4, lookup_insert_ne, H3 by done. rewrite (proj2 (Z.eqb_neq _ _) Hp).
      rewrite lookup_insert_eq. split; [done|]. by apply (Hpc Hp).
    + assert (y ≠ p) by by intros ->. eapply live_ext; [|exact Hy]. rewrite Hfr; [by apply A5|done|done|]. intros Hp ->. tauto.
  - lia.
Qed.

(** A write to a cell outside of the list, at the end. *)
Lemma evacuated_put m c m1 c' m2 p X : evacuated NULL m c m1 c' → mem_ok m2 →
  cells m2 = <[p := X]> (cells m1) → cellCount m2 = cellCount m1 → c_type X ≠ CELL_FREE →
  live m p → p ∉ addrs c → evacuated p m c m2 c'.
Proof.
  intros [V1 V2 V3 V4 V5 V6 V7 V8 V9 V10] Hok Hc Hn Ht Hp Hpc.
  assert (Hpc' : p ∉ addrs c') by (intros Hin; destruct (V5 p Hin) as [_ [|]]; contradiction).
  split; try done.
  - eapply reprs_ext; [|exact V3]. intros x Hx. rewrite Hc. apply lookup_insert_ne. by intros <-.
  - intros x Hx Hxp Hxc. rewrite Hc, lookup_insert_ne by done. apply V6; [done| |done].
    intros ->. by apply (null_dead m1) in V1; apply V1, V8.
  - intros x (cx & Hx & Htx). rewrite Hc in Hx. apply lookup_insert_Some in Hx as [[<- _]|[_ Hx]]; [by left|].
    apply V7. by exists cx.
  - intros x Hx. destruct (decide (x = p)) as [->|Hne]; [exists X; by rewrite Hc, lookup_insert_eq|].
    eapply live_ext; [|by apply V8]. by rewrite Hc, lookup_insert_ne.
  - eapply forwards_ext; [|exact V9]. intros x Hx. rewrite Hc. apply lookup_insert_ne. intros <-.
    by apply copied_in in Hx as [? _].
  - lia.
Qed.

Lemma cell_at_ok m p c : cells m !! p = Some c → cell_at p m = Ok c.
Proof. unfold cell_at. by intros ->. Qed.

(** The contents of the copy. *)
Lemma children_ok m a p ty nxt aux w kids fuel : loop_spec kids fuel → mem_ok m →
  cells m !! p = Some (CellOf ty nxt aux (word_of ty w kids)) →
  cells m !! a = Some (CellOf CELL_FORWARD nxt aux p) → plain_type ty → (isEnvelope ty = false → kids = Nil) →
  reprs (cells m) kids → NoDup (addrs kids) → closed kids → a ∉ addrs kids → p ∉ addrs kids → a ≠ p →
  cellCount m + Z.of_nat (length (copied kids)) ≤ lim - MAX_BLOCK →
  ∃ m' kids', (if isEnvelope ty then evacuate_contents (evacuate_loop fuel) p a m else Ok m) = Ok m' ∧
    evacuated p m kids m' kids' ∧ cells m' !! p = Some (CellOf ty nxt (new_aux ty aux kids') (word_of ty w kids')).
Proof.
  intros Hloop Hok Hp Ha Hty Henv Hr Hn Hc Hak Hpk Hap Hcount. unfold new_aux, word_of in *.
  destruct (isEnvelope ty) eqn:Ee; cbn [negb].
  2:{ rewrite (Henv eq_refl) in *. exists m, Nil. split; [done|]. split; [|done]. apply evacuated_old; try done.
      pose proof (mo_nursery _ Hok). unfold young, nilCell; cbn. unfold nilCell. lia. }
  unfold evacuate_contents. rewrite (cell_at_ok _ _ _ Hp). cbn [mbind result_bind c_type c_contents].
  destruct Hty as (Hfree & Hfwd & Harr). rewrite (proj2 (Z.eqb_neq _ _) Harr).
  destruct (with_ok kids fuel m Hloop Hok Hr Hn Hc Hcount) as (m1 & kids' & E1 & Hev). pose proof Hev as [V1 V2 V3 V4 V5 V6 V7 V8 V9 V10].
  rewrite E1. cbn [mbind result_bind].
  assert (Hlp : live m p) by by eexists. assert (Hla : live m a) by by eexists.
  assert (Hpn : p ≠ NULL) by (intros ->; by apply (null_dead m)).
  assert (Han : a ≠ NULL) by (intros ->; by apply (null_dead m)).
  assert (Hp1 : cells m1 !! p = Some (CellOf ty nxt aux (first_of kids))).
  { rewrite V6; [done|done|done|]. by intros [? _]%copied_in. }
  assert (Ha1 : cells m1 !! a = Some (CellOf CELL_FORWARD nxt aux p)).
  { rewrite V6; [done|done|done|]. by intros [? _]%copied_in. }
  destruct (put_ok m1 p (set_cell_contents (first_of kids')) _ V1 Hp1 Hfree) as (m2 & E2 & Ok2 & C2 & N2).
  rewrite E2. cbn [mbind result_bind]. cbn [set_cell_contents c_type c_next c_aux] in C2.
  assert (Ha2 : cells m2 !! a = Some (CellOf CELL_FORWARD nxt aux p)) by (by rewrite C2, lookup_insert_ne).
  rewrite (cell_at_ok _ _ _ Ha2). cbn [mbind result_bind c_aux].
  assert (Hp2 : cells m2 !! p = Some (CellOf ty nxt aux (first_of kids'))) by (by rewrite C2, lookup_insert_eq).
  assert (Hput : ∀ v, ∃ m3, put p (set_aux v) m2 = Ok m3 ∧ evacuated p m kids m3 kids' ∧
    cells m3 !! p = Some (CellOf ty nxt v (first_of kids'))).
  { intros v. destruct (put_ok m2 p (set_aux v) _ Ok2 Hp2 Hfree) as (m3 & E3 & Ok3 & C3 & N3).
    exists m3. split; [done|]. rewrite C2, insert_insert_eq in C3. split; [|by rewrite C3, lookup_insert_eq].
    eapply (evacuated_put m kids m1 kids' m3 p); try done. by rewrite N3. }
  destruct (mo_magic _ Hok) as [Hb0 Hb1].
  assert (Hcond : (ty =? CELL_LAMBDA) && negb (aux =? 0) && negb (aux =? nilCell) && bool_decide (aux ∈ dom (bytecodes m2)) =
    (ty =? CELL_LAMBDA) && bool_decide (aux ∈ B)).
  { rewrite (mo_bytecodes _ Ok2). destruct (ty =? CELL_LAMBDA); [|done]. cbn [andb].
    destruct (Z.eqb_spec aux 0) as [->|_]; [by rewrite bool_decide_false|].
    destruct (Z.eqb_spec aux nilCell) as [->|_]; [by rewrite bool_decide_false|]. done. }
  rewrite Hcond. destruct ((ty =? CELL_LAMBDA) && bool_decide (aux ∈ B)).
  { destruct (Hput aux) as (m3 & E3 & H3). by exists m3, kids'. }
  destruct kids' as [|b tb auxb wb kb nb]; cbn [first_of].
  - rewrite Z.eqb_refl. cbn [negb]. destruct (ty =? CELL_LAMBDA).
    + destruct (Hput nilCell) as (m3 & E3 & H3). by exists m3, Nil.
    + exists m2, Nil. split; [done|]. split; [|done]. by eapply evacuated_put.
  - assert (Hb2 : 2 < b) by apply V3. destruct (Z.eqb_spec b nilCell) as [->|_]; [done|]. cbn [negb].
    assert (Hr2 : reprs (cells m2) (At b tb auxb wb kb nb)).
    { eapply reprs_ext; [|exact V3]. intros x Hx. rewrite C2. apply lookup_insert_ne. intros <-.
      destruct (V5 p Hx) as [_ [|]]; contradiction. }
    rewrite (last_cell_ok m2 _ b tb auxb wb kb nb Hr2).
    2:{ pose proof (cells_enough _ _ Hr2 V4). lia. }
    cbn [mbind result_bind]. destruct (Hput (last_addr b nb)) as (m3 & E3 & H3).
    by exists m3, (At b tb auxb wb kb nb).
Qed.

(** The whole round and the rest of the list. *)
Lemma round_ok prev m a ty aux w kids nx p m4 m6 kids' m7 nx' pc :
  mem_ok m → reprs (cells m) (At a ty aux w kids nx) → NoDup (addrs (At a ty aux w kids nx)) → young a = true →
  prev ∉ addrs (At a ty aux w kids nx) → (prev ≠ NULL → live m prev) →
  begun m a (CellOf ty (first_of nx) aux (word_of ty w kids)) prev pc p m4 →
  evacuated p m4 kids m6 kids' →
  cells m6 !! p = Some (CellOf ty (first_of nx) (new_aux ty aux kids') (word_of ty w kids')) →
  evacuated p m6 nx m7 nx' →
  cells m7 !! p = Some (CellOf ty (first_of nx') (new_aux ty aux kids') (word_of ty w kids')) →
  evacuated prev m (At a ty aux w kids nx) m7 (At p ty (new_aux ty aux kids') w kids' nx') ∧
  (prev ≠ NULL → cells m7 !! prev = Some (set_next p pc)).
Proof.
  intros Hok Hr Hn Hy Hprev Hlprev [B1 (B2 & B3 & B4) B5 B6 B7 B8 B9 B10 B11] [V1 V2 V3 V4 V5 V6 V7 V8 V9 V10] Hp6
    [U1 U2 U3 U4 U5 U6 U7 U8 U9 U10] Hp7.
  cbn [addrs] in Hn, Hprev. apply not_elem_of_cons in Hprev as [Hpa Hpr].
  apply NoDup_cons in Hn as [Ha Hn]. apply NoDup_app in Hn as (Hnk & Hdis & Hnn).
  rewrite not_elem_of_app in Ha, Hpr. destruct Ha as [Hak Han], Hpr as [Hprk Hprn].
  pose proof (λ x Hx, proj1 (reprs_live m (At a ty aux w kids nx) x Hr Hx)) as Hlive. cbn [addrs] in Hlive.
  assert (Hlk : ∀ x, x ∈ addrs kids → live m x) by (intros x Hx; apply Hlive; right; apply elem_of_app; by left).
  assert (Hln : ∀ x, x ∈ addrs nx → live m x) by (intros x Hx; apply Hlive; right; apply elem_of_app; by right).
  assert (Hla : live m a) by (apply Hlive; by left).
  assert (Hlp4 : live m4 p) by (exists (CellOf ty (first_of nx) aux (word_of ty w kids)); split; [done|]; apply Hr).
  assert (Hk'n : ∀ x, x ∈ addrs kids' → x ∉ addrs nx ∧ x ≠ p ∧ live m6 x).
  { intros x Hx. destruct (V5 x Hx) as [_ Hx']. split; [|split].
    - intros Hxn. destruct Hx' as [Hx'|Hx']; [by apply (Hdis x)|]. by apply Hx', B10, Hln.
    - intros ->. destruct Hx' as [Hx'|Hx']; [by apply B4, Hlk|done].
    - by apply (reprs_live m6 kids'). }
  assert (Hcn : ∀ x, x ∉ addrs nx → x ∉ copied nx) by (intros x Hx [? _]%copied_in; done).
  assert (Hck : ∀ x, x ∉ addrs kids → x ∉ copied kids) by (intros x Hx [? _]%copied_in; done).
  assert (H47 : ∀ x, live m4 x → x ≠ p → x ∉ copied kids → x ∉ copied nx → cells m7 !! x = cells m4 !! x).
  { intros x Hx Hxp Hxk Hxn. rewrite U6; [by apply V6|by apply V8|done|done]. }
  split; [split|].
  - done.
  - cbn [copy_of]. by rewrite Hy.
  - cbn [reprs]. split; [exact Hp7|]. destruct Hr as (_ & _ & Hr3 & Hr4 & _). split; [done|]. split; [done|].
    split; [|split; [|done]].
    + intros He. rewrite (Hr4 He) in V2. exact V2.
    + eapply reprs_ext; [|exact V3]. intros x Hx. destruct (Hk'n x Hx) as (H1 & H2 & H3). by apply U6, Hcn.
  - cbn [addrs]. apply NoDup_cons. split; [rewrite not_elem_of_app; split|apply NoDup_app; split; [done|split; [|done]]].
    + intros Hx. by destruct (Hk'n p Hx) as (_ & ? & _).
    + intros Hx. destruct (U5 p Hx) as [_ [Hx'|Hx']]; [by apply B4, Hln|]. by apply Hx', V8.
    + intros x Hx Hxn. destruct (Hk'n x Hx) as (H1 & H2 & H3). destruct (U5 x Hxn) as [_ [Hx'|Hx']]; done.
  - cbn [addrs]. intros x [->|[Hx|Hx]%elem_of_app]%elem_of_cons; [by auto|..].
    + destruct (V5 x Hx) as [? [Hx'|Hx']]; (split; [done|]); [left; right; apply elem_of_app; by left|].
      right. intros Hl. by apply Hx', B10.
    + destruct (U5 x Hx) as [? [Hx'|Hx']]; (split; [done|]); [left; right; apply elem_of_app; by right|].
      right. intros Hl. by apply Hx', V8, B10.
  - cbn [copied]. rewrite Hy. intros x Hx Hxp [Hxa [Hxk Hxn]%not_elem_of_app]%not_elem_of_cons.
    rewrite H47; [by apply B8|by apply B10|by intros ->|done..].
  - cbn [addrs]. intros x [Hx|Hx]%U7; [|right; right; apply elem_of_app; by right].
    apply V7 in Hx as [Hx|Hx]; [|right; right; apply elem_of_app; by left].
    apply B9 in Hx as [->|Hx]; [right; by left|by left].
  - intros x Hx. by apply U8, V8, B10.
  - cbn [forwards]. rewrite Hy. split; [|split; [|done]].
    + rewrite H47; [exact B6|by apply B10|by intros ->|by apply Hck|by apply Hcn].
    + eapply forwards_ext; [|exact V9]. intros x [Hx1 Hx2]%copied_in. apply U6.
      * by apply V8, B10, Hlk.
      * intros ->. by rewrite B3 in Hx2.
      * apply Hcn. by apply Hdis.
  - cbn [copied]. rewrite Hy. cbn [length]. rewrite length_app. lia.
  - intros Hp0. rewrite H47; [by apply B7|by apply B10, Hlprev|intros ->; by apply B4, Hlprev|by apply Hck|by apply Hcn].
Qed.

Lemma loop_ok c : ∀ fuel, (length (addrs c) < fuel)%nat → loop_spec c fuel.
Proof.
  induction c as [|a ty aux w kids IHk nx IHn]; intros fuel Hf first prev pc m Hok Hr Hn Hc Hcount Hat;
    (destruct fuel as [|fuel]; [lia|]).
  - assert (Hyn : young nilCell = false).
    { pose proof (mo_nursery _ Hok). unfold young, nilCell. lia. }
    destruct Hat as [(_ & _ & Hy)|(Hf0 & Hp0 & Hp & Ht & Hnx & _)]; [cbn [first_of] in Hy; congruence|].
    exists m, Nil. cbn [evacuate_loop first_of]. rewrite Z.eqb_refl. cbn [negb andb].
    rewrite andb_false_r. cbn [mbind result_bind]. rewrite (proj2 (Z.eqb_neq _ _) Hf0). split; [done|].
    split; [by apply evacuated_old|]. intros _. rewrite Hp. by destruct pc; cbn in Hnx; subst.
  - pose proof Hr as (H1 & H2 & H3 & H4 & H5 & H6). cbn [first_of] in *. cbn [evacuate_loop].
    assert (Han : (a =? nilCell) = false) by (apply Z.eqb_neq; unfold nilCell; lia). rewrite Han. cbn [negb].
    rewrite (in_gen0 _ _ Hok). destruct (young a) eqn:Hy; cbn [andb].
    2:{ destruct Hat as [(_ & _ & Hy')|(Hf0 & Hp0 & Hp & Ht & Hnx & _)]; cbn [first_of] in *; [congruence|].
        rewrite (proj2 (Z.eqb_neq _ _) Hp0). cbn [negb andb].
        exists m, (At a ty aux w kids nx).
        assert (Hsame : set_next a pc = pc) by (destruct pc; cbn in Hnx; by subst).
        unfold put. rewrite Hp, Hsame, insert_id by done. cbn [mbind result_bind].
        rewrite (proj2 (Z.eqb_neq _ _) Hf0). replace (set_cells (cells m) m) with m by by destruct m.
        split; [done|]. split; [by apply evacuated_old|]. intros _. cbn [first_of]. by rewrite Hsame. }
    rewrite (cell_at_ok _ _ _ H1). cbn [mbind result_bind c_type]. pose proof H3 as (Hfree & Hfwd & Harr).
    rewrite (proj2 (Z.eqb_neq ty _)) by done.
    set (ca := CellOf ty (first_of nx) aux (word_of ty w kids)) in *.
    assert (Hpv : prev ∉ addrs (At a ty aux w kids nx) ∧ (prev ≠ NULL → cells m !! prev = Some pc ∧ c_type pc ≠ CELL_FREE) ∧
      (prev = NULL ↔ first = NULL)).
    { destruct Hat as [(-> & -> & _)|(Hf0 & Hp0 & Hp & Ht & Hnx & Hin)]; [|done]. split; [|done].
      intros Hin. destruct (reprs_live m (At a ty aux w kids nx) NULL Hr Hin) as [_ ?]. unfold NULL in *. lia. }
    destruct Hpv as (Hpin & Hpc & Hpf).
    cbn [copied] in Hcount. rewrite Hy in Hcount. cbn [length] in Hcount. rewrite length_app in Hcount.
    destruct (begin_copy m a ca prev pc Hok H1) as (p & m1 & m2 & m3 & m4 & E1 & E2 & E3 & E4 & Hb);
      [done|lia|intros ->; by apply Hpin; left|done|].
    pose proof Hb as [B1 (B2 & B3 & B4) B5 B6 B7 B8 B9 B10 B11].
    unfold ca in *. cbn [c_type c_next c_aux c_contents] in *. rewrite E1. cbn [mbind result_bind].
    rewrite E2. cbn [mbind result_bind]. rewrite E3. cbn [mbind result_bind]. rewrite E4. cbn [mbind result_bind].
    pose proof Hn as Hn'. cbn [addrs] in Hn'. apply NoDup_cons in Hn' as [Ha Hn']. apply NoDup_app in Hn' as (Hnk & Hdis & Hnn).
    rewrite not_elem_of_app in Ha. destruct Ha as [Hak Han'].
    pose proof (λ x Hx, proj1 (reprs_live m (At a ty aux w kids nx) x Hr Hx)) as Hlive. cbn [addrs] in Hlive, Hpin.
    apply not_elem_of_cons in Hpin as [Hpa Hpin]. apply not_elem_of_app in Hpin as [Hpk Hpn].
    assert (Hlk : ∀ x, x ∈ addrs kids → live m x) by (intros x Hx; apply Hlive; right; apply elem_of_app; by left).
    assert (Hln : ∀ x, x ∈ addrs nx → live m x) by (intros x Hx; apply Hlive; right; apply elem_of_app; by right).
    cbn [closed] in Hc. rewrite Hy in Hc. destruct Hc as [Hck Hcn].
    cbn [addrs length] in Hf. rewrite length_app in Hf.
    destruct (children_ok m4 a p ty (first_of nx) aux w kids fuel) as (m6 & kids' & E6 & Hev & Hp6); try done.
    { apply IHk. lia. }
    { eapply reprs_ext; [|exact H5]. intros x Hx. apply B8; [by apply Hlk|by intros ->|by intros ->]. }
    { intros Hx. by apply B4, Hlk. }
    { intros ->. apply B4, Hlive. by left. }
    { lia. }
    rewrite E6. cbn [mbind result_bind].
    set (first' := if first =? NULL then p else first).
    assert (Hf' : first' ≠ NULL).
    { unfold first'. destruct (Z.eqb_spec first NULL); [unfold NULL; lia|done]. }
    destruct (IHn fuel ltac:(lia) first' p (CellOf ty (first_of nx) (new_aux ty aux kids') (word_of ty w kids')) m6)
      as (m7 & nx' & E7 & Hev7 & Hp7).
    { apply Hev. }
    { eapply reprs_ext; [|exact H6]. intros x Hx.
      rewrite (ev_frame _ _ _ _ _ Hev); [apply B8; [by apply Hln|by intros ->|by intros ->]|by apply B10, Hln| |].
      - intros ->. by apply B4, Hln.
      - intros [Hx' _]%copied_in. by apply (Hdis x). }
    { done. }
    { done. }
    { rewrite (ev_count _ _ _ _ _ Hev), B11. lia. }
    { right. split; [done|]. split; [unfold NULL; lia|]. split; [done|]. split; [done|]. split; [done|].
      intros Hx. by apply B4, Hln. }
    destruct (round_ok prev m a ty aux w kids nx p m4 m6 kids' m7 nx' pc) as [Hfin Hfin']; try done.
    { cbn [addrs]. rewrite not_elem_of_cons, not_elem_of_app. done. }
    { intros Hp0. exists pc. by apply Hpc. }
    { apply Hp7. unfold NULL. lia. }
    exists m7, (At p ty (new_aux ty aux kids') w kids' nx'). rewrite E7. split; [|done]. cbn [first_of].
    rewrite (proj2 (Z.eqb_neq _ _) Hf'). unfold first'. by destruct (first =? NULL).
Qed.

(** ** gcEvacuate *)

Lemma gcEvacuate_ok m c : mem_ok m → reprs (cells m) c → NoDup (addrs c) → closed c →
  cellCount m + Z.of_nat (length (copied c)) ≤ lim - MAX_BLOCK →
  ∃ m' c', gcEvacuate (first_of c) m = Ok (first_of c', m') ∧ evacuated NULL m c m' c'.
Proof.
  intros Hok Hr Hn Hc Hcount. apply with_ok; try done. apply loop_ok. pose proof (cells_enough _ _ Hr Hn). lia.
Qed.

End Space.
