(* ===== verification/Collect.v ===== *)
(** * Collection of the nursery (src/newlisp.c, [collectGen0])

    All roots at once: the stacks, the registers and the contents of the symbols
    of all contexts.  What they hold is copied out of the nursery. *)

From stdpp Require Import base list numbers tactics gmap.
From Stdlib Require Import ZArith Lia.
From S2P Require Import Prelude Cell Nursery Evacuate.

#[global] Open Scope Z_scope.
#[local] Set Warnings "-clear-no-such-hyp".

(** A root: a list of cells, or a word that is no pointer into the nursery. *)
Inductive root : Type := RWord (v : Z) | RList (c : chain).

Definition rval (v : root) : Z := match v with RWord v => v | RList c => first_of c end.
Definition raddrs (v : root) : list Z := match v with RWord _ => [] | RList c => addrs c end.

Section Roots.
Variables (lo hi lim : Z) (B : gset Z).

#[local] Abbreviation young := (young lo hi).
#[local] Abbreviation mem_ok := (mem_ok lo hi lim B).
#[local] Abbreviation copied := (copied lo hi).
#[local] Abbreviation copy_of := (copy_of lo hi B).
#[local] Abbreviation evacuated := (evacuated lo hi lim B).

Definition rcopied (v : root) : list Z := match v with RWord _ => [] | RList c => copied c end.

Definition root_ok (m : memory) (v : root) : Prop :=
  match v with
  | RWord v => young v = false
  | RList c => reprs (cells m) c ∧ closed lo hi c
  end.

Definition root_copy (v v' : root) : Prop :=
  match v with RWord _ => v' = v | RList c => ∃ c', v' = RList c' ∧ copy_of c c' end.

(** The lists of the roots share no cells, and there is room for the copies. *)
Record ready (m : memory) (vs : list root) : Prop := {
  rd_ok : mem_ok m;
  rd_roots : Forall (root_ok m) vs;
  rd_nodup : NoDup (vs ≫= raddrs);
  rd_room : cellCount m + Z.of_nat (length (vs ≫= rcopied)) ≤ lim - MAX_BLOCK
}.

(** From the roots [vs] in [m] to their copies [vs'] in [m']. *)
Record moved (m : memory) (vs : list root) (m' : memory) (vs' : list root) : Prop := {
  mv_ok : mem_ok m';
  mv_copy : Forall2 root_copy vs vs';
  mv_roots : Forall (root_ok m') vs';
  mv_nodup : NoDup (vs' ≫= raddrs);
  mv_addr : ∀ a, a ∈ vs' ≫= raddrs → young a = false ∧ (a ∈ vs ≫= raddrs ∨ ¬ live m a);
  mv_frame : ∀ a, live m a → a ∉ vs ≫= rcopied → cells m' !! a = cells m !! a;
  mv_live : ∀ a, live m' a → live m a ∨ a ∈ vs' ≫= raddrs;
  mv_stays : ∀ a, live m a → live m' a;
  mv_count : cellCount m' = cellCount m + Z.of_nat (length (vs ≫= rcopied))
}.

Lemma rcopied_in v a : a ∈ rcopied v → a ∈ raddrs v.
Proof. destruct v; cbn; [done|]. by intros [? _]%copied_in. Qed.

Lemma all_copied_in vs a : a ∈ vs ≫= rcopied → a ∈ vs ≫= raddrs.
Proof. rewrite !list_elem_of_bind. intros (v & Ha & Hv). exists v. split; [by apply rcopied_in|done]. Qed.

Lemma ready_live m vs a : Forall (root_ok m) vs → a ∈ vs ≫= raddrs → live m a ∧ 2 < a.
Proof.
  intros Hr (v & Ha & Hv)%list_elem_of_bind. rewrite Forall_forall in Hr. specialize (Hr v Hv).
  destruct v as [|c]; cbn in *; [by apply not_elem_of_nil in Ha|]. apply (reprs_live m c); [apply Hr|done].
Qed.

Lemma root_ok_ext m m' v : (∀ a, a ∈ raddrs v → cells m' !! a = cells m !! a) → root_ok m v → root_ok m' v.
Proof. destruct v as [|c]; cbn; [done|]. intros He [H1 H2]. split; [by eapply reprs_ext|done]. Qed.

Lemma moved_nil m : mem_ok m → moved m [] m [].
Proof.
  intros Hok. split.
  - done.
  - constructor.
  - constructor.
  - constructor.
  - intros a Ha. by apply not_elem_of_nil in Ha.
  - done.
  - by left.
  - done.
  - cbn. lia.
Qed.

Lemma ready_app m vs1 vs2 : ready m (vs1 ++ vs2) → ready m vs1.
Proof.
  intros [H1 H2 H3 H4]. rewrite bind_app in H3, H4. rewrite length_app in H4.
  apply Forall_app in H2 as [? _]. apply NoDup_app in H3 as [? _]. split; try done. lia.
Qed.

(** The other roots after some have been copied. *)
Lemma ready_after m vs1 vs2 m1 vs1' : ready m (vs1 ++ vs2) → moved m vs1 m1 vs1' → ready m1 vs2.
Proof.
  intros [H1 H2 H3 H4] [M1 M2 M3 M4 M5 M6 M7 M8 M9]. rewrite bind_app in H3, H4. rewrite length_app in H4.
  apply Forall_app in H2 as [H2 H2']. apply NoDup_app in H3 as (H3 & Hd & H3'). split; try done; [|lia].
  rewrite Forall_forall in H2' |- *. intros v Hv. eapply root_ok_ext; [|by apply H2'].
  intros a Ha. assert (Ha' : a ∈ vs2 ≫= raddrs) by (apply list_elem_of_bind; eauto). apply M6.
  - apply (ready_live m vs2); [by rewrite Forall_forall|done].
  - intros Hc%all_copied_in. by apply (Hd a).
Qed.

Lemma moved_app m vs1 vs2 m1 vs1' m2 vs2' : ready m (vs1 ++ vs2) → moved m vs1 m1 vs1' →
  moved m1 vs2 m2 vs2' → moved m (vs1 ++ vs2) m2 (vs1' ++ vs2').
Proof.
  intros Hr HM HU. pose proof (ready_after _ _ _ _ _ Hr HM) as [_ Hr2 _ _].
  destruct Hr as [H1 H2 H3 H4], HM as [M1 M2 M3 M4 M5 M6 M7 M8 M9], HU as [U1 U2 U3 U4 U5 U6 U7 U8 U9].
  rewrite bind_app in H3, H4. apply Forall_app in H2 as [H2 H2']. apply NoDup_app in H3 as (H3 & Hd & H3').
  assert (Hlive1 : ∀ a, a ∈ vs1' ≫= raddrs → live m1 a) by (intros a Ha; by apply (ready_live m1 vs1')).
  assert (Hlive2 : ∀ a, a ∈ vs2 ≫= raddrs → live m a) by (intros a Ha; by apply (ready_live m vs2)).
  assert (Hd' : ∀ a, a ∈ vs1' ≫= raddrs → a ∉ vs2 ≫= raddrs).
  { intros a Ha Ha2. destruct (M5 a Ha) as [_ [Hx|Hx]]; [by apply (Hd a)|]. by apply Hx, Hlive2. }
  split; rewrite ?bind_app.
  - done.
  - by apply Forall2_app.
  - apply Forall_app. split; [|done]. rewrite Forall_forall in M3 |- *. intros v Hv.
    eapply root_ok_ext; [|by apply M3]. intros a Ha.
    assert (Ha' : a ∈ vs1' ≫= raddrs) by (apply list_elem_of_bind; eauto).
    apply U6; [by apply Hlive1|]. intros Hc%all_copied_in. by apply (Hd' a).
  - apply NoDup_app. split; [done|]. split; [|done]. intros a Ha Ha2.
    destruct (U5 a Ha2) as [_ [Hx|Hx]]; [by apply (Hd' a)|]. by apply Hx, Hlive1.
  - intros a [Ha|Ha]%elem_of_app; rewrite elem_of_app.
    + destruct (M5 a Ha) as [? [?|?]]; auto.
    + destruct (U5 a Ha) as [? [?|Hx]]; auto. split; [done|]. right. intros Hl. by apply Hx, M8.
  - intros a Ha [Ha1 Ha2]%not_elem_of_app. rewrite U6; [by apply M6|by apply M8|done].
  - intros a Ha. rewrite elem_of_app. apply U7 in Ha as [Ha|Ha]; [|auto]. apply M7 in Ha as [Ha|Ha]; auto.
  - intros a Ha. by apply U8, M8.
  - rewrite length_app. lia.
Qed.

(** A new cell in the nursery. *)
Lemma mem_ok_young m c : mem_ok m → lo ≤ gen0_ptr m < hi →
  mem_ok (set_cells (<[gen0_ptr m := c]> (cells m)) (set_gen0_ptr (gen0_ptr m + 1) m)).
Proof.
  intros Hok Hp. pose proof (mo_nursery _ _ _ _ _ Hok) as H2. set (p := gen0_ptr m) in *.
  assert (Hy : young p = true) by (unfold Evacuate.young; lia).
  destruct Hok as [(l & Hfl & Hnd) Hz Hbrk [Hh1 Hh2] K1 K2 K3 K4 K5 K6].
  split; cbn [cells set_cells set_gen0_ptr firstFreeCell brk gen0_start gen0_limit MAX_CELL_COUNT bytecodes]; try done.
  - exists l. split; [|done]. eapply free_list_ext; [|exact Hfl]. intros a Ha. apply lookup_insert_ne. intros <-.
    clear -Ha Hfl Hy. revert Hfl. generalize (firstFreeCell m). induction l as [|b l IH]; [by apply not_elem_of_nil in Ha|].
    intros q (-> & _ & Hyb & c & _ & _ & Hl). apply elem_of_cons in Ha as [<-|Ha]; [congruence|]. by eapply IH.
  - rewrite lookup_insert_ne; [done|]. unfold NULL. lia.
  - intros a ca. rewrite lookup_insert_Some. intros [[<- _]|[_ Ha]]; [lia|by eapply Hbrk].
Qed.

(** ** One root and several *)

Lemma moved_one m c m' c' : mem_ok m → closed lo hi c → evacuated NULL m c m' c' →
  moved m [RList c] m' [RList c'].
Proof.
  intros Hok Hcl [V1 V2 V3 V4 V5 V6 V7 V8 V9 V10].
  split; cbn; rewrite ?app_nil_r; try done.
  - constructor; [|constructor]. cbn. eauto.
  - constructor; [|constructor]. cbn. split; [done|].
    assert (Hy : ∀ a, a ∈ addrs c' → young a = false) by (intros a Ha; by apply V5).
    clear -Hy. destruct c' as [|a ty aux w kids nx]; [done|]. cbn [closed].
    rewrite (Hy a) by by left. by apply Forall_forall.
  - intros a Ha Hc. apply V6; [done| |done]. intros ->. by apply (null_dead _ _ _ _ m Hok).
Qed.

Lemma evacuate_one v m : ready m [v] →
  ∃ m' v', gcEvacuate (rval v) m = Ok (rval v', m') ∧ moved m [v] m' [v'].
Proof.
  intros [Hok Hr Hn Hc]. apply Forall_cons in Hr as [Hr _].
  destruct v as [w|c]; cbn [rval root_ok rcopied raddrs mbind list_bind] in *.
  - exists m, (RWord w). split.
    + unfold gcEvacuate, evacuate_with. rewrite (in_gen0 lo hi lim B _ _ Hok), Hr. by destruct (_ || _).
    + split; cbn.
      * done.
      * by repeat constructor.
      * by repeat constructor.
      * constructor.
      * intros a Ha. by apply not_elem_of_nil in Ha.
      * done.
      * by left.
      * done.
      * lia.
  - rewrite app_nil_r in Hn, Hc. destruct Hr as [Hr Hcl].
    destruct (gcEvacuate_ok lo hi lim B m c Hok Hr Hn Hcl Hc) as (m' & c' & E & Hev).
    exists m', (RList c'). split; [done|]. by apply moved_one.
Qed.

Lemma evacuate_root_ok v m : ready m [v] →
  ∃ m' v', evacuate_root (rval v) m = Ok (rval v', m') ∧ moved m [v] m' [v'].
Proof.
  intros Hr. destruct (evacuate_one v m Hr) as (m' & v' & E & Hm). exists m', v'. split; [|done].
  unfold evacuate_root. destruct (isInGen0 (rval v) m) eqn:Ey; [done|].
  rewrite <- E. unfold gcEvacuate, evacuate_with. rewrite Ey. by destruct (_ || _).
Qed.

Lemma evacuate_roots_ok vs : ∀ m, ready m vs →
  ∃ m' vs', evacuate_roots (rval <$> vs) m = Ok (rval <$> vs', m') ∧ moved m vs m' vs'.
Proof.
  induction vs as [|v vs IH]; intros m Hr.
  - exists m, []. split; [done|]. apply moved_nil, Hr.
  - change (v :: vs) with ([v] ++ vs) in Hr. cbn [fmap list_fmap evacuate_roots].
    destruct (evacuate_root_ok v m (ready_app _ _ _ Hr)) as (m1 & v' & E1 & M1). rewrite E1. cbn [mbind result_bind].
    destruct (IH m1 (ready_after _ _ _ _ _ Hr M1)) as (m2 & vs' & E2 & M2). rewrite E2. cbn [mbind result_bind].
    exists m2, (v' :: vs'). split; [done|]. by apply (moved_app m [v] vs m1 [v'] m2 vs').
Qed.

End Roots.
