(* ===== verification/Treewalk.v ===== *)
(** * The walk through the contexts (src/newlisp.c, [gcWalkSymbolTree])

    What the collector sees of the symbol trees of all contexts, as one tree: a
    symbol whose contents is the cell of a context not seen before has that
    context's tree below it.  The walk copies the contents of every symbol. *)

From stdpp Require Import base list numbers tactics gmap.
From Stdlib Require Import ZArith Lia.
From S2P Require Import Prelude Cell Nursery Evacuate Collect.

#[global] Open Scope Z_scope.
#[local] Set Warnings "-clear-no-such-hyp".

(** [sub] is the tree of the context that the contents of the symbol name. *)
Inductive wtree : Type :=
  | WLeaf (a : Z)
  | WNode (s : Z) (l : wtree) (v : root) (sub r : wtree).

Definition waddr (t : wtree) : Z := match t with WLeaf a => a | WNode s _ _ _ _ => s end.

Fixpoint wsyms (t : wtree) : list Z :=
  match t with WLeaf _ => [] | WNode s l _ sub r => s :: wsyms l ++ wsyms sub ++ wsyms r end.

(** The contents of the symbols in the order of the walk. *)
Fixpoint wroots (t : wtree) : list root :=
  match t with WLeaf _ => [] | WNode _ l v sub r => wroots l ++ [v] ++ wroots sub ++ wroots r end.

Fixpoint wdepth (t : wtree) : nat :=
  match t with
  | WLeaf _ => 1
  | WNode _ l _ sub r => S (Nat.max (wdepth l) (Nat.max (wdepth sub) (wdepth r)))
  end.

Fixpoint wrepr (f : gmap Z gsymbol) (t : wtree) : Prop :=
  match t with
  | WLeaf a => a = NULL ∨ a = SENTINEL
  | WNode s l v sub r =>
      s ≠ NULL ∧ s ≠ SENTINEL ∧ f !! s = Some (GSymbol (waddr l) (waddr r) (rval v)) ∧
      wrepr f l ∧ wrepr f sub ∧ wrepr f r
  end.

(** The symbol and the tree of the context that a value names. *)
Definition context_of (v : root) : option (Z * Z) :=
  match v with
  | RList (At _ type aux w _ _) => if (type =? CELL_CONTEXT) && negb (w =? NULL) then Some (w, aux) else None
  | _ => None
  end.

(** The contexts seen before and after a walk through the tree. *)
Inductive walks : list Z → wtree → list Z → Prop :=
  | walks_leaf vis a : walks vis (WLeaf a) vis
  | walks_value vis s l v r v1 v2 :
      walks vis l v1 → (∀ w aux, context_of v = Some (w, aux) → w ∈ v1) → walks v1 r v2 →
      walks vis (WNode s l v (WLeaf NULL) r) v2
  | walks_context vis s l v sub r v1 v2 v3 w aux :
      walks vis l v1 → context_of v = Some (w, aux) → w ∉ v1 → (length v1 < MAX_CONTEXTS)%nat →
      waddr sub = aux → walks (v1 ++ [w]) sub v2 → walks v2 r v3 → walks vis (WNode s l v sub r) v3.

Section Walk.
Variables (lo hi lim : Z) (B : gset Z).

#[local] Abbreviation moved := (moved lo hi lim B).
#[local] Abbreviation ready := (ready lo hi lim B).
#[local] Abbreviation root_copy := (root_copy lo hi B).
#[local] Abbreviation root_ok := (root_ok lo hi).

(** The contents that are no lists: none, [nil] and [true]. *)
Definition plain_value (v : root) : Prop :=
  match v with RWord w => w = 0 ∨ w = nilCell ∨ w = trueCell | RList _ => True end.

Definition true_ok (m : memory) : Prop :=
  ∃ c, cells m !! trueCell = Some c ∧ c_type c ≠ CELL_FREE ∧ c_type c ≠ CELL_CONTEXT.

Lemma true_ok_moved m vs m' vs' : ready m vs → moved m vs m' vs' → true_ok m → true_ok m'.
Proof.
  intros Hr Hm (c & Hc & Ht & Hx). exists c. split; [|done]. rewrite (mv_frame _ _ _ _ _ _ _ _ Hm); [done|by exists c|].
  intros Hin%all_copied_in. pose proof (ready_live lo hi m vs trueCell (rd_roots _ _ _ _ _ _ Hr) Hin) as [_ H].
  unfold trueCell in H. lia.
Qed.

Fixpoint same_tree (t t' : wtree) : Prop :=
  match t, t' with
  | WLeaf a, WLeaf b => a = b
  | WNode s l v sub r, WNode s' l' v' sub' r' =>
      s' = s ∧ root_copy v v' ∧ same_tree l l' ∧ same_tree sub sub' ∧ same_tree r r'
  | _, _ => False
  end.

Lemma same_tree_addr t t' : same_tree t t' → waddr t' = waddr t.
Proof. destruct t, t'; cbn; naive_solver. Qed.

Lemma same_tree_syms t : ∀ t', same_tree t t' → wsyms t' = wsyms t.
Proof.
  induction t as [a|s l IHl v sub IHs r IHr]; intros [b|s' l' v' sub' r']; cbn; try done.
  intros (-> & _ & H1 & H2 & H3). by rewrite (IHl _ H1), (IHs _ H2), (IHr _ H3).
Qed.

Lemma wrepr_ext f f' t : (∀ s, s ∈ wsyms t → f' !! s = f !! s) → wrepr f t → wrepr f' t.
Proof.
  induction t as [a|s l IHl v sub IHs r IHr]; cbn; [done|]. intros He (H1 & H2 & H3 & H4 & H5 & H6).
  do 2 (split; [done|]). split; [rewrite He; [done|by left]|].
  split; [apply IHl; [|done]|split; [apply IHs; [|done]|apply IHr; [|done]]];
    intros x Hx; apply He; right; rewrite !elem_of_app; auto.
Qed.

(** A context cell is copied with its symbol and its tree. *)
Lemma context_of_copy v v' : root_copy v v' → context_of v' = context_of v.
Proof.
  destruct v as [w|c]; cbn [Collect.root_copy].
  { by intros ->. }
  intros (c' & -> & Hc). destruct c as [|a ty aux w kids nx]; cbn in Hc; [by subst|].
  case_match; [|by subst]. destruct c' as [|a' ty' aux' w' kids' nx']; [done|].
  destruct Hc as (-> & -> & _ & -> & _). cbn. destruct (Z.eqb_spec ty CELL_CONTEXT) as [->|]; [|done].
  reflexivity.
Qed.

(** From the symbols [f] and the memory [m] with the tree [t]. *)
Record walked (f : gmap Z gsymbol) (m : memory) (t : wtree) (f' : gmap Z gsymbol) (m' : memory) (t' : wtree)
    : Prop := {
  wk_repr : wrepr f' t';
  wk_same : same_tree t t';
  wk_moved : moved m (wroots t) m' (wroots t');
  wk_frame : ∀ s, s ∉ wsyms t → f' !! s = f !! s
}.

Lemma symbol_at_ok f s g : f !! s = Some g → symbol_at s f = Ok g.
Proof. unfold symbol_at. by intros ->. Qed.

(** The contents of one symbol, with the cell that the walk then looks at. *)
Lemma visit_value v m : ready m [v] → plain_value v → true_ok m →
  rval v ≠ 0 → rval v ≠ nilCell →
  ∃ m' v' c, gcEvacuate (rval v) m = Ok (rval v', m') ∧ moved m [v] m' [v'] ∧ root_copy v v' ∧
    rval v' ≠ NULL ∧ cells m' !! rval v' = Some c ∧
    context_of v = if (c_type c =? CELL_CONTEXT) && negb (c_contents c =? NULL)
                   then Some (c_contents c, c_aux c) else None.
Proof.
  intros Hr Hp Ht H0 H1. destruct (evacuate_one lo hi lim B v m Hr) as (m' & v' & E & Hm).
  pose proof (true_ok_moved _ _ _ _ Hr Hm Ht) as (ct & Hct & _ & Hct2).
  pose proof (mv_copy _ _ _ _ _ _ _ _ Hm) as Hc. apply Forall2_cons in Hc as [Hc _].
  pose proof (mv_roots _ _ _ _ _ _ _ _ Hm) as Hok. apply Forall_cons in Hok as [Hok _].
  pose proof (context_of_copy _ _ Hc) as Ec. exists m', v'.
  destruct v as [w|c]; cbn [Collect.root_copy rval plain_value] in *.
  - subst v'. destruct Hp as [?|[?|Hw]]; [contradiction..|]. subst w. exists ct. do 3 (split; [done|]). split; [done|].
    split; [done|]. cbn [context_of]. by rewrite (proj2 (Z.eqb_neq _ _) Hct2).
  - destruct Hc as (c' & -> & Hc). cbn [rval Collect.root_ok] in *.
    destruct c as [|a ty aux w kids nx]; [done|]. destruct c' as [|a' ty' aux' w' kids' nx'].
    { cbn in Hc. by destruct (young lo hi a). }
    destruct Hok as ((H2 & H3 & H4) & _). cbn [first_of] in *. eexists. split; [exact E|]. split; [done|].
    split; [eauto|]. split; [unfold NULL; lia|]. split; [exact H2|]. cbn [c_type c_contents c_aux].
    rewrite <- Ec. cbn [context_of]. destruct (Z.eqb_spec ty' CELL_CONTEXT) as [->|]; [|done]. reflexivity.
Qed.

Lemma gc_none v m : v = 0 ∨ v = nilCell → gcEvacuate v m = Ok (v, m).
Proof. by intros [-> | ->]. Qed.

(** The contents of a symbol and the tree below it. *)
Definition below (v : root) (sub : wtree) (v1 v2 : list Z) : Prop :=
  (sub = WLeaf NULL ∧ v2 = v1 ∧ ∀ w aux, context_of v = Some (w, aux) → w ∈ v1) ∨
  (∃ w aux, context_of v = Some (w, aux) ∧ w ∉ v1 ∧ (length v1 < MAX_CONTEXTS)%nat ∧ waddr sub = aux ∧
     walks (v1 ++ [w]) sub v2).

Lemma walks_inv vis s l v sub r vis' : walks vis (WNode s l v sub r) vis' →
  ∃ v1 v2, walks vis l v1 ∧ below v sub v1 v2 ∧ walks v2 r vis'.
Proof.
  intros H. inversion H; subst.
  - exists v1, v1. split; [done|]. split; [by left|done].
  - exists v1, v2. split; [done|]. split; [right; eauto 10|done].
Qed.

Definition walk_spec (t : wtree) (fuel : nat) : Prop :=
  ∀ vis vis' f m, walks vis t vis' → wrepr f t → NoDup (wsyms t) → Forall plain_value (wroots t) → true_ok m →
    ready m (wroots t) →
    ∃ f' m' t', gcWalkSymbolTree fuel (waddr t) vis f m = Ok (vis', f', m') ∧ walked f m t f' m' t'.

Lemma walk_contents_ok s la ra v sub v1 v2 fuel f m : walk_spec sub fuel → below v sub v1 v2 →
  f !! s = Some (GSymbol la ra (rval v)) → s ∉ wsyms sub → wrepr f sub → NoDup (wsyms sub) →
  plain_value v → Forall plain_value (wroots sub) → true_ok m → ready m ([v] ++ wroots sub) →
  ∃ f' m' v' sub', walk_contents (gcWalkSymbolTree fuel) s v1 f m = Ok (v2, f', m') ∧
    f' !! s = Some (GSymbol la ra (rval v')) ∧ root_copy v v' ∧ wrepr f' sub' ∧ same_tree sub sub' ∧
    moved m ([v] ++ wroots sub) m' ([v'] ++ wroots sub') ∧ (∀ x, x ≠ s → x ∉ wsyms sub → f' !! x = f !! x).
Proof.
  intros Hs Hb Hf Hn Hr Hnd Hpv Hps Ht Hok. unfold walk_contents. rewrite (symbol_at_ok _ _ _ Hf).
  cbn [mbind result_bind g_contents].
  destruct (decide (rval v = 0 ∨ rval v = nilCell)) as [H0|H0].
  - assert (Hc : context_of v = None).
    { destruct v as [w|[|a ty aux w kids nx]]; [done|done|]. exfalso. destruct Hok as [_ Hv _ _].
      apply Forall_cons in Hv as [((_ & H2 & _) & _) _]. cbn in H0. unfold nilCell in H0. lia. }
    destruct Hb as [(-> & -> & _)|(w & aux & Hx & _)]; [|congruence].
    assert (E : (rval v =? 0) || (rval v =? nilCell) = true) by (by destruct H0 as [-> | ->]). rewrite E.
    destruct (evacuate_one lo hi lim B v m (ready_app _ _ _ _ _ _ _ Hok)) as (m' & v' & Ev & Hm).
    assert (Em : m' = m ∧ rval v' = rval v).
    { rewrite (gc_none _ m H0) in Ev. injection Ev as <- <-. by split. }
    destruct Em as [-> Erv]. exists f, m, v', (WLeaf NULL). split; [done|]. rewrite Erv. split; [done|].
    split; [by apply (mv_copy _ _ _ _ _ _ _ _), Forall2_cons in Hm as [? _]|]. split; [by left|].
    split; [done|]. split; [done|]. done.
  - assert (E : (rval v =? 0) || (rval v =? nilCell) = false).
    { apply orb_false_iff. split; apply Z.eqb_neq; tauto. }
    rewrite E. destruct (visit_value v m (ready_app _ _ _ _ _ _ _ Hok) Hpv Ht) as
      (m1 & v' & c & E1 & Hm & Hc & H3 & Hcell & Hctx); [tauto..|].
    rewrite E1. cbn [mbind result_bind]. unfold set_symbol_contents. rewrite (symbol_at_ok _ _ _ Hf).
    cbn [mbind result_bind g_left g_right]. rewrite (proj2 (Z.eqb_neq _ _) H3).
    rewrite (cell_at_ok _ _ _ Hcell). cbn [mbind result_bind].
    set (f1 := <[s := GSymbol la ra (rval v')]> f).
    assert (Hstop : sub = WLeaf NULL → ∃ f' m' v'' sub', Ok (v1, f1, m1) = Ok (v1, f', m') ∧
      f' !! s = Some (GSymbol la ra (rval v'')) ∧ root_copy v v'' ∧ wrepr f' sub' ∧ same_tree sub sub' ∧
      moved m ([v] ++ wroots sub) m' ([v''] ++ wroots sub') ∧ (∀ x, x ≠ s → x ∉ wsyms sub → f' !! x = f !! x)).
    { intros ->. exists f1, m1, v', (WLeaf NULL). split; [done|]. split; [apply lookup_insert_eq|]. split; [done|].
      split; [by left|]. split; [done|]. split; [done|]. intros x Hx _. by apply lookup_insert_ne. }
    destruct Hb as [(Hsub & -> & Hin)|(w & aux & Hx & Hw & Hlen & Haux & Hwalk)].
    + assert (Ec : negb (c_type c =? CELL_CONTEXT) || (c_contents c =? NULL) || bool_decide (c_contents c ∈ v1) = true).
      { rewrite Hctx in Hin. destruct (c_type c =? CELL_CONTEXT); [|done]. cbn [negb orb andb] in *.
        destruct (c_contents c =? NULL); [done|]. cbn [negb orb andb] in *. apply bool_decide_eq_true. by eapply Hin. }
      rewrite Ec. by apply Hstop.
    + rewrite Hctx in Hx. destruct (c_type c =? CELL_CONTEXT); [|done]. destruct (c_contents c =? NULL); [done|].
      cbn [negb orb andb] in *. injection Hx as <- <-. rewrite bool_decide_eq_false_2 by done. rewrite decide_True by done.
      destruct (Hs (v1 ++ [c_contents c]) v2 f1 m1) as (f2 & m2 & sub' & E2 & [W1 W2 W3 W4]); try done.
      { eapply wrepr_ext; [|exact Hr]. intros x Hx. apply lookup_insert_ne. by intros ->. }
      { by eapply true_ok_moved; [eapply ready_app|..]. }
      { by eapply ready_after. }
      exists f2, m2, v', sub'. split.
      { rewrite <- Haux. destruct (Z.eqb_spec (waddr sub) 0) as [E0|_]; [|done].
        rewrite <- E2, E0. destruct fuel; [|done]. exfalso. cbn in E2. done. }
      split; [rewrite W4 by done; apply lookup_insert_eq|]. split; [done|]. split; [done|]. split; [done|].
      split; [by eapply moved_app|]. intros x Hx1 Hx2. rewrite W4 by done. by apply lookup_insert_ne.
Qed.

Lemma gcWalkSymbolTree_ok t : ∀ fuel, (wdepth t ≤ fuel)%nat → walk_spec t fuel.
Proof.
  induction t as [a|s l IHl v sub IHs r IHr]; intros [|fuel] Hf vis vis' f m Hw Hr Hn Hp Ht Hok; cbn in Hf; try lia.
  - inversion Hw; subst. exists f, m, (WLeaf a). cbn [gcWalkSymbolTree waddr]. split.
    + by destruct Hr as [-> | ->].
    + split; try done. apply moved_nil, Hok.
  - apply walks_inv in Hw as (v1 & v2 & Hwl & Hb & Hwr).
    cbn [wrepr wsyms wroots waddr] in *. destruct Hr as (Hs0 & Hs1 & Hs & Hrl & Hrs & Hrr).
    cbn [gcWalkSymbolTree]. rewrite (proj2 (Z.eqb_neq _ _) Hs0), (proj2 (Z.eqb_neq _ _) Hs1). cbn [orb].
    rewrite (symbol_at_ok _ _ _ Hs). cbn [mbind result_bind g_left].
    apply NoDup_cons in Hn as [Hsn Hn]. rewrite !not_elem_of_app in Hsn. destruct Hsn as (Hsl & Hss & Hsr).
    apply NoDup_app in Hn as (Hnl & Hd1 & Hn). apply NoDup_app in Hn as (Hns & Hd2 & Hnr).
    assert (Hd3 : ∀ x, x ∈ wsyms l → x ∉ wsyms sub) by (intros x Hx; by apply (proj1 (not_elem_of_app _ _ _) (Hd1 x Hx))).
    assert (Hd4 : ∀ x, x ∈ wsyms l → x ∉ wsyms r) by (intros x Hx; by apply (proj1 (not_elem_of_app _ _ _) (Hd1 x Hx))).
    rewrite !Forall_app in Hp. destruct Hp as (Hpl & Hpv & Hps & Hpr). apply Forall_cons in Hpv as [Hpv _].
    destruct (IHl fuel ltac:(lia) _ _ _ _ Hwl Hrl Hnl Hpl Ht (ready_app _ _ _ _ _ _ _ Hok))
      as (f1 & m1 & l' & E1 & [A1 A2 A3 A4]).
    rewrite E1. cbn [mbind result_bind]. pose proof (ready_after _ _ _ _ _ _ _ _ _ Hok A3) as Hok1.
    pose proof (true_ok_moved _ _ _ _ (ready_app _ _ _ _ _ _ _ Hok) A3 Ht) as Ht1.
    rewrite app_assoc in Hok1.
    destruct (walk_contents_ok s (waddr l) (waddr r) v sub v1 v2 fuel f1 m1 (IHs fuel ltac:(lia)) Hb)
      as (f2 & m2 & v' & sub' & E2 & B1 & B2 & B3 & B4 & B5 & B6); try done.
    { by rewrite A4. }
    { eapply wrepr_ext; [|exact Hrs]. intros x Hx. apply A4. intros Hx'. by apply (Hd3 x). }
    { by eapply ready_app. }
    rewrite E2. cbn [mbind result_bind]. rewrite (symbol_at_ok _ _ _ B1). cbn [mbind result_bind g_right].
    pose proof (ready_after _ _ _ _ _ _ _ _ _ Hok1 B5) as Hok2.
    pose proof (true_ok_moved _ _ _ _ (ready_app _ _ _ _ _ _ _ Hok1) B5 Ht1) as Ht2.
    destruct (IHr fuel ltac:(lia) v2 vis' f2 m2) as (f3 & m3 & r' & E3 & [C1 C2 C3 C4]); try done.
    { eapply wrepr_ext; [|exact Hrr]. intros x Hx. rewrite B6; [apply A4|by intros ->|].
      - intros Hx'. by apply (Hd4 x).
      - intros Hx'. by apply (Hd2 x). }
    exists f3, m3, (WNode s l' v' sub' r'). split; [done|]. split.
    + cbn [wrepr]. do 2 (split; [done|]). rewrite (same_tree_addr _ _ A2), (same_tree_addr _ _ C2), C4 by done.
      split; [done|].
      assert (Hl' : ∀ x, x ∈ wsyms l' → x ∈ wsyms l) by (intros x; by rewrite (same_tree_syms _ _ A2)).
      assert (Hs' : ∀ x, x ∈ wsyms sub' → x ∈ wsyms sub) by (intros x; by rewrite (same_tree_syms _ _ B4)).
      split; [|split; [|done]].
      * eapply wrepr_ext; [|exact A1]. intros x Hx%Hl'. rewrite C4 by by apply Hd4.
        apply B6; [by intros ->|by apply Hd3].
      * eapply wrepr_ext; [|exact B3]. intros x Hx%Hs'. by apply C4, Hd2.
    + done.
    + refine (moved_app lo hi lim B m (wroots l) (([v] ++ wroots sub) ++ wroots r) m1 (wroots l') m3
        (([v'] ++ wroots sub') ++ wroots r') Hok A3 _).
      by apply (moved_app lo hi lim B m1 _ _ m2).
    + intros x [Hx [Hxl [Hxs Hxr]%not_elem_of_app]%not_elem_of_app]%not_elem_of_cons.
      by rewrite C4, B6, A4.
Qed.

End Walk.
