(* ===== verification/Rootset.v ===== *)
(** * The roots of the collector (src/newlisp.c, [collectGen0])

    The whole root set as one list of lists of cells, and the collection of the
    nursery from it. *)

From stdpp Require Import base list numbers tactics gmap.
From Stdlib Require Import ZArith Lia.
From S2P Require Import Prelude Cell Nursery Evacuate Collect Treewalk.

#[global] Open Scope Z_scope.
#[local] Set Warnings "-clear-no-such-hyp".

(** What the roots of the interpreter hold: the symbols of all contexts, the
    stacks, the registers and the roots of the bytecode machine. *)
Record snapshot := Snapshot {
  sn_tree : wtree;
  sn_env : list root;
  sn_result : list root;
  sn_lambda : list root;
  sn_registers : list root;
  sn_vm : list root
}.

Definition all_roots (st : snapshot) : list root :=
  wroots (sn_tree st) ++ sn_env st ++ sn_result st ++ sn_lambda st ++ sn_registers st ++ sn_vm st.

(** The symbol [s] is in the tree, with the contents [v]. *)
Fixpoint has_symbol (t : wtree) (s : Z) (v : root) : Prop :=
  match t with
  | WLeaf _ => False
  | WNode s' l v' sub r => (s' = s ∧ v' = v) ∨ has_symbol l s v ∨ has_symbol sub s v ∨ has_symbol r s v
  end.

(** All contexts are reached from MAIN, which is a symbol of its own tree. *)
Record holds (r : roots) (st : snapshot) : Prop := {
  hd_tree : wrepr (symbols r) (sn_tree st);
  hd_syms : NoDup (wsyms (sn_tree st));
  hd_plain : Forall plain_value (wroots (sn_tree st));
  hd_main : mainContext r ≠ NULL ∧ ∃ v,
    has_symbol (sn_tree st) (mainContext r) v ∧ context_of v = Some (mainContext r, waddr (sn_tree st));
  hd_walk : ∃ vis, walks [mainContext r] (sn_tree st) vis ∧ currentContext r ∈ vis;
  hd_it : itSymbol r = NULL ∨ itSymbol r ∈ wsyms (sn_tree st);
  hd_args : argsSymbol r = NULL ∨ argsSymbol r ∈ wsyms (sn_tree st);
  hd_env : envStack r = rval <$> sn_env st;
  hd_result : resultStack r = rval <$> sn_result st;
  hd_lambda : lambdaStack r = rval <$> sn_lambda st;
  hd_registers : registers r = rval <$> sn_registers st;
  hd_vm : vm_roots r = rval <$> sn_vm st
}.

Section Roots.
Variables (lo hi lim : Z) (B : gset Z).

#[local] Abbreviation moved := (moved lo hi lim B).
#[local] Abbreviation ready := (ready lo hi lim B).
#[local] Abbreviation mem_ok := (mem_ok lo hi lim B).
#[local] Abbreviation root_copy := (root_copy lo hi B).
#[local] Abbreviation root_ok := (root_ok lo hi).
#[local] Abbreviation same_tree := (same_tree lo hi B).

Lemma same_tree_has t s v : ∀ t', same_tree t t' → has_symbol t s v →
  ∃ v', has_symbol t' s v' ∧ root_copy v v'.
Proof.
  induction t as [a|s0 l IHl v0 sub IHs r IHr]; intros [b|s' l' v' sub' r']; cbn; try done.
  intros (-> & Hc & H1 & H2 & H3) [[-> ->]|[H|[H|H]]]; [by eauto|..].
  - destruct (IHl _ H1 H) as (x & ? & ?). eauto.
  - destruct (IHs _ H2 H) as (x & ? & ?). eauto 6.
  - destruct (IHr _ H3 H) as (x & ? & ?). eauto 7.
Qed.

Lemma same_tree_walks t vis vis' : walks vis t vis' → ∀ t', same_tree t t' → walks vis t' vis'.
Proof.
  induction 1 as [vis a|vis s l v r v1 v2 Hl IHl Hv Hr IHr|vis s l v sub r v1 v2 v3 w aux Hl IHl Hv Hw Hlen Ha Hs IHs Hr IHr];
    intros [b|s' l' v' sub' r']; cbn; try done.
  - intros ->. constructor.
  - intros (-> & Hc & H1 & H2 & H3). destruct sub' as [b|]; [|done]. cbn in H2. subst b.
    econstructor; [by apply IHl| |by apply IHr]. by rewrite (context_of_copy lo hi B _ _ Hc).
  - intros (-> & Hc & H1 & H2 & H3). eapply walks_context; [by apply IHl| |done|done| |by apply IHs|by apply IHr].
    + by rewrite (context_of_copy lo hi B _ _ Hc).
    + by rewrite (same_tree_addr lo hi B _ _ H2).
Qed.

Lemma same_tree_plain t : ∀ t', same_tree t t' → Forall plain_value (wroots t) → Forall plain_value (wroots t').
Proof.
  induction t as [a|s l IHl v sub IHs r IHr]; intros [b|s' l' v' sub' r']; cbn [wroots Treewalk.same_tree]; try done.
  intros (-> & Hc & H1 & H2 & H3) (Hpl & (Hpv & (Hps & Hpr)%Forall_app)%Forall_app)%Forall_app.
  apply (proj1 (Forall_singleton _ _)) in Hpv.
  rewrite !Forall_app, Forall_singleton. split; [by apply IHl|]. split; [|split; [by apply IHs|by apply IHr]].
  destruct v as [w|c]; cbn in Hc; [by rewrite Hc|]. by destruct Hc as (c' & -> & _).
Qed.

Lemma has_symbol_root t s v : has_symbol t s v → v ∈ wroots t ∧ s ∈ wsyms t.
Proof.
  induction t as [a|s0 l IHl v0 sub IHs r IHr]; [done|]. cbn [has_symbol wroots wsyms].
  rewrite !elem_of_app, !elem_of_cons, !elem_of_app. intros [[-> ->]|[H|[H|H]]]; [by auto 6|..].
  - apply IHl in H as [? ?]. auto 6.
  - apply IHs in H as [? ?]. auto 6.
  - apply IHr in H as [? ?]. auto 6.
Qed.

Lemma wrepr_symbol f t s : wrepr f t → s ∈ wsyms t →
  ∃ v, has_symbol t s v ∧ ∃ la ra, f !! s = Some (GSymbol la ra (rval v)).
Proof.
  induction t as [a|s0 l IHl v0 sub IHs r IHr]; cbn; [by intros _ ?%not_elem_of_nil|].
  rewrite elem_of_cons, !elem_of_app. intros (H1 & H2 & H3 & H4 & H5 & H6) [->|[H|[H|H]]].
  - exists v0. split; [by left|eauto].
  - destruct (IHl H4 H) as (v & ? & ?). eauto 6.
  - destruct (IHs H5 H) as (v & ? & ?). eauto 7.
  - destruct (IHr H6 H) as (v & ? & ?). eauto 7.
Qed.

Lemma has_symbol_repr f t s v : wrepr f t → has_symbol t s v →
  ∃ la ra, f !! s = Some (GSymbol la ra (rval v)).
Proof.
  induction t as [a|s0 l IHl v0 sub IHs r IHr]; [done|]. cbn.
  intros (H1 & H2 & H3 & H4 & H5 & H6) [[-> ->]|[H|[H|H]]]; eauto.
Qed.

(** ** A part of the roots after another *)

(** The roots [xs] of [m0] have been copied, the roots [rest] not yet. *)
Definition progress (m0 : memory) (xs : list root) (m : memory) (xs' rest : list root) : Prop :=
  moved m0 xs m xs' ∧ ready m0 (xs ++ rest).

Lemma progress_start m rest : ready m rest → progress m [] m [] rest.
Proof. intros H. split; [apply moved_nil, H|done]. Qed.

Lemma progress_ready m0 xs m xs' vs rest : progress m0 xs m xs' (vs ++ rest) → ready m vs.
Proof. intros [Hm Hr]. eapply ready_app, (ready_after _ _ _ _ _ xs); [exact Hr|exact Hm]. Qed.

Lemma progress_step m0 xs m xs' vs rest m' vs' : progress m0 xs m xs' (vs ++ rest) → moved m vs m' vs' →
  progress m0 (xs ++ vs) m' (xs' ++ vs') rest.
Proof.
  intros [Hm Hr] Hv. split; [|by rewrite <- app_assoc]. eapply moved_app; [|done|done].
  rewrite app_assoc in Hr. by eapply ready_app.
Qed.

Lemma progress_roots m0 xs m xs' vs rest : progress m0 xs m xs' (vs ++ rest) →
  ∃ m' vs', evacuate_roots (rval <$> vs) m = Ok (rval <$> vs', m') ∧
    progress m0 (xs ++ vs) m' (xs' ++ vs') rest ∧ Forall2 root_copy vs vs'.
Proof.
  intros Hp. destruct (evacuate_roots_ok lo hi lim B vs m (progress_ready _ _ _ _ _ _ Hp)) as (m' & vs' & E & Hm).
  exists m', vs'. split; [done|]. split; [by eapply progress_step|apply Hm].
Qed.

(** After the walk the contents of no symbol are in the nursery. *)
Lemma old_value m v : mem_ok m → root_ok m v → (∀ a, a ∈ raddrs v → young lo hi a = false) →
  isInGen0 (rval v) m = false.
Proof.
  intros Hok Hv Ha. rewrite (in_gen0 lo hi lim B _ _ Hok). destruct v as [w|[|a ty aux w kids nx]]; cbn [rval first_of].
  - exact Hv.
  - pose proof (mo_nursery _ _ _ _ _ Hok). unfold young, nilCell. lia.
  - apply Ha. by left.
Qed.

Lemma evacuate_symbol_ok f m t s : mem_ok m → wrepr f t → Forall (root_ok m) (wroots t) →
  (∀ a, a ∈ wroots t ≫= raddrs → young lo hi a = false) → s = NULL ∨ s ∈ wsyms t →
  evacuate_symbol s f m = Ok (f, m).
Proof.
  intros Hok Hr Hf Hy Hs. unfold evacuate_symbol. destruct (Z.eqb_spec s NULL) as [|Hn]; [done|].
  destruct Hs as [?|Hs]; [done|]. destruct (wrepr_symbol f t s Hr Hs) as (v & Hv & la & ra & E).
  apply has_symbol_root in Hv as [Hv _]. rewrite (symbol_at_ok _ _ _ E). cbn [mbind result_bind g_contents].
  assert (Eo : isInGen0 (rval v) m = false).
  { apply old_value; [done|by rewrite Forall_forall in Hf; apply Hf|]. intros a Ha. apply Hy, list_elem_of_bind. eauto. }
  unfold evacuate_root. rewrite Eo. cbn [mbind result_bind]. unfold set_symbol_contents.
  rewrite (symbol_at_ok _ _ _ E). cbn [mbind result_bind g_left g_right]. by rewrite insert_id.
Qed.

(** The walk from MAIN, and no second one. *)
Lemma walk_main r st m fuel : holds r st → true_ok m → ready m (wroots (sn_tree st)) →
  (wdepth (sn_tree st) ≤ fuel)%nat →
  ∃ vis f' m' t', walk_context fuel (mainContext r) [] (symbols r) m = Ok (vis, f', m') ∧
    currentContext r ∈ vis ∧ walks [mainContext r] (sn_tree st) vis ∧
    walked lo hi lim B (symbols r) m (sn_tree st) f' m' t'.
Proof.
  intros [H1 H2 H3 (H4 & v & Hv & Hc) (vis & H5 & H6) _ _ _ _ _ _ _] Ht Hr Hf.
  destruct (gcWalkSymbolTree_ok lo hi lim B _ fuel Hf _ _ _ m H5 H1 H2 H3 Ht Hr) as (f' & m' & t' & E & Hw).
  exists vis, f', m', t'. split; [|done]. unfold walk_context. rewrite (proj2 (Z.eqb_neq _ _) H4).
  destruct (has_symbol_repr _ _ _ _ H1 Hv) as (la & ra & Es). rewrite (symbol_at_ok _ _ _ Es).
  cbn [mbind result_bind g_contents].
  pose proof (has_symbol_root _ _ _ Hv) as [Hin Hs]. pose proof (rd_roots _ _ _ _ _ _ Hr) as Hok.
  rewrite Forall_forall in Hok. specialize (Hok v Hin). destruct v as [w|[|a ty aux w kids nx]]; [done|done|].
  cbn in Hc, Hok. destruct (Z.eqb_spec ty CELL_CONTEXT) as [->|]; [|done]. destruct (w =? NULL); [done|].
  cbn in Hc. injection Hc as -> ->. destruct Hok as ((Ha & H7 & _) & _). cbn [rval first_of].
  destruct (Z.eqb_spec a 0); [lia|]. rewrite (cell_at_ok _ _ _ Ha). cbn [mbind result_bind c_aux app].
  rewrite decide_True by (cbn; unfold MAX_CONTEXTS; lia).
  destruct (Z.eqb_spec (waddr (sn_tree st)) 0) as [E0|]; [|done].
  destruct (sn_tree st) as [|s l v0 sub r0]; [by apply not_elem_of_nil in Hs|]. by destruct H1.
Qed.

(** ** The collection *)

Lemma moved_reset m vs m' vs' p : moved m vs m' vs' → moved m vs (set_gen0_ptr p m') vs'.
Proof.
  intros [[K1 K2 K3 K4 K5 K6 K7 K8 K9 K10] M2 M3 M4 M5 M6 M7 M8 M9]. split; try done.
Qed.

(** Two snapshots with the same data at other places. *)
Record same_data (st st' : snapshot) : Prop := {
  sd_tree : same_tree (sn_tree st) (sn_tree st');
  sd_env : Forall2 root_copy (sn_env st) (sn_env st');
  sd_result : Forall2 root_copy (sn_result st) (sn_result st');
  sd_lambda : Forall2 root_copy (sn_lambda st) (sn_lambda st');
  sd_registers : Forall2 root_copy (sn_registers st) (sn_registers st');
  sd_vm : Forall2 root_copy (sn_vm st) (sn_vm st')
}.

Lemma holds_after r st f env res lam regs vms t : holds r st → same_tree (sn_tree st) t → wrepr f t →
  holds (Nursery.Roots f (mainContext r) (currentContext r) (itSymbol r) (argsSymbol r)
           (rval <$> env) (rval <$> res) (rval <$> lam) (rval <$> regs) (rval <$> vms))
    (Snapshot t env res lam regs vms).
Proof.
  intros [H1 H2 H3 (H4 & v & Hv & Hc) (vis & H5 & H6) H7 H8 _ _ _ _ _] Ht Hf.
  destruct (same_tree_has _ _ _ _ Ht Hv) as (v' & Hv' & Hcv).
  split; cbn [sn_tree sn_env sn_result sn_lambda sn_registers sn_vm symbols mainContext currentContext itSymbol
    argsSymbol envStack resultStack lambdaStack registers vm_roots]; try done.
  - by rewrite (same_tree_syms lo hi B _ _ Ht).
  - by eapply same_tree_plain.
  - split; [done|]. exists v'. split; [done|].
    by rewrite (context_of_copy lo hi B _ _ Hcv), (same_tree_addr lo hi B _ _ Ht).
  - exists vis. split; [by eapply same_tree_walks|done].
  - by rewrite (same_tree_syms lo hi B _ _ Ht).
  - by rewrite (same_tree_syms lo hi B _ _ Ht).
Qed.

Lemma collect_roots fuel extra r m st : holds r st → true_ok m → ready m (extra :: all_roots st) →
  (wdepth (sn_tree st) ≤ fuel)%nat →
  ∃ extra' r' m' st', collectGen0 fuel (rval extra) r m = Ok (rval extra', r', m') ∧ holds r' st' ∧
    same_data st st' ∧ moved m (extra :: all_roots st) m' (extra' :: all_roots st') ∧
    gen0_ptr m' = gen0_start m'.
Proof.
  intros Hh Ht Hr Hf. pose proof Hh as [H1 H2 H3 _ _ H6 H7 H8 H9 H10 H11 H12]. unfold collectGen0.
  pose proof (progress_start m _ Hr) as P0. change (extra :: all_roots st) with ([extra] ++ all_roots st) in *.
  destruct (evacuate_root_ok lo hi lim B extra m (progress_ready _ _ _ _ _ _ P0)) as (m1 & extra' & E1 & M1).
  rewrite E1. cbn [mbind result_bind]. pose proof (progress_step _ _ _ _ _ _ _ _ P0 M1) as P1. cbn [app] in P1.
  unfold all_roots in P1 at 1.
  destruct (walk_main r st m1 fuel Hh) as (vis & f2 & m2 & t2 & E2 & Hcur & Hwk & [W1 W2 W3 W4]); try done.
  { by eapply true_ok_moved; [eapply progress_ready; exact P0|..]. }
  { by eapply progress_ready. }
  rewrite E2. cbn [mbind result_bind]. rewrite bool_decide_eq_true_2 by done. cbn [mbind result_bind].
  pose proof (progress_step _ _ _ _ _ _ _ _ P1 W3) as P2.
  rewrite H8. destruct (progress_roots _ _ _ _ _ _ P2) as (m3 & env & E3 & P3 & C3). rewrite E3. cbn [mbind result_bind].
  rewrite H9. destruct (progress_roots _ _ _ _ _ _ P3) as (m4 & res & E4 & P4 & C4). rewrite E4. cbn [mbind result_bind].
  rewrite H10. destruct (progress_roots _ _ _ _ _ _ P4) as (m5 & lam & E5 & P5 & C5). rewrite E5. cbn [mbind result_bind].
  assert (Hsym : ∀ s, s = NULL ∨ s ∈ wsyms (sn_tree st) → evacuate_symbol s f2 m5 = Ok (f2, m5)).
  { intros s Hs. destruct P5 as [[K1 K2 K3 K4 K5 K6 K7 K8 K9] _]. apply evacuate_symbol_ok with (t := t2); try done.
    - rewrite !Forall_app in K3. tauto.
    - intros a Ha. apply K5. rewrite !bind_app, !elem_of_app. tauto.
    - by rewrite (same_tree_syms lo hi B _ _ W2). }
  rewrite (Hsym _ H6). cbn [mbind result_bind]. rewrite (Hsym _ H7). cbn [mbind result_bind].
  rewrite H11. destruct (progress_roots _ _ _ _ _ _ P5) as (m6 & regs & E6 & P6 & C6). rewrite E6. cbn [mbind result_bind].
  rewrite H12. rewrite <- (app_nil_r (sn_vm st)) in P6.
  destruct (progress_roots _ _ _ _ _ _ P6) as (m7 & vms & E7 & [P7 _] & C7). rewrite E7. cbn [mbind result_bind].
  exists extra'. eexists. eexists. exists (Snapshot t2 env res lam regs vms). split; [reflexivity|].
  split; [by eapply holds_after|]. split; [done|]. split; [|done].
  apply moved_reset. unfold all_roots. cbn [sn_tree sn_env sn_result sn_lambda sn_registers sn_vm].
  rewrite <- !app_assoc in P7. exact P7.
Qed.

(** ** New cells *)

(** The memory with the lists [vs]: what is in the nursery is below [gen0_ptr]. *)
Record consistent (m : memory) (vs : list root) : Prop := {
  cs_ok : mem_ok m;
  cs_roots : Forall (root_ok m) vs;
  cs_nodup : NoDup (vs ≫= raddrs);
  cs_ptr : lo ≤ gen0_ptr m;
  cs_below : ∀ a, a ∈ vs ≫= raddrs → young lo hi a = true → a < gen0_ptr m
}.

(** The next cell of the nursery, before a list that it may contain. *)
Lemma young_cell_ok m type aux w kids rest : consistent m (RList kids :: rest) → gen0_ptr m < hi → lo < hi →
  plain_type type → (isEnvelope type = false → kids = Nil) →
  let '(p, m') := young_cell (CellOf type nilCell aux (word_of type w kids)) m in
  p = gen0_ptr m ∧ consistent m' (RList (At p type aux w kids Nil) :: rest) ∧
  (∀ a, a ≠ p → cells m' !! a = cells m !! a).
Proof.
  intros [Hok Hr Hn Hl Hb] Hp Hlh Ht Hk. unfold young_cell. set (p := gen0_ptr m) in *.
  assert (Hy : young lo hi p = true) by (unfold young; lia).
  assert (Hfree : ∀ a, a ∈ (RList kids :: rest) ≫= raddrs → a ≠ p).
  { intros a Ha ->. specialize (Hb p Ha Hy). lia. }
  assert (Hframe : ∀ a, a ≠ p → <[p:=CellOf type nilCell aux (word_of type w kids)]> (cells m) !! a = cells m !! a).
  { intros a Ha. by apply lookup_insert_ne. }
  pose proof (mo_nursery _ _ _ _ _ Hok) as H2.
  assert (Hok' : Forall (root_ok (set_cells (<[p:=CellOf type nilCell aux (word_of type w kids)]> (cells m)) (set_gen0_ptr (p + 1) m)))
    (RList kids :: rest)).
  { rewrite Forall_forall in Hr |- *. intros v Hv. eapply root_ok_ext; [|by apply Hr]. cbn [cells set_cells].
    intros a Ha. apply Hframe, Hfree, list_elem_of_bind. eauto. }
  apply Forall_cons in Hok' as [[Hk1 Hk2] Hrest].
  split; [done|]. split; [|done]. split; cbn [gen0_ptr set_cells set_gen0_ptr].
  - apply mem_ok_young; [done|lia].
  - constructor; [|done]. cbn [Collect.root_ok reprs closed first_of]. rewrite Hy. cbn [cells set_cells] in *.
    rewrite lookup_insert_eq. split; [|done]. split; [done|]. split; [lia|]. done.
  - cbn [mbind list_bind raddrs addrs] in Hn |- *. rewrite app_nil_r. cbn [app]. constructor; [|done].
    intros Hin. by apply (Hfree p).
  - lia.
  - cbn [mbind list_bind raddrs addrs]. rewrite app_nil_r. cbn [app]. intros a [->|Ha]%elem_of_cons Hya; [lia|].
    specialize (Hb a Ha Hya). lia.
Qed.

(** Nothing is left in the nursery after a collection. *)
Lemma moved_consistent m vs m' vs' : mem_ok m' → moved m vs m' vs' → gen0_ptr m' = gen0_start m' → consistent m' vs'.
Proof.
  intros Hok [M1 M2 M3 M4 M5 M6 M7 M8 M9] Hp. split; try done.
  - rewrite Hp, (mo_lo _ _ _ _ _ Hok). done.
  - intros a Ha Hy. destruct (M5 a Ha) as [Hy' _]. congruence.
Qed.

(** The roots afterwards: as they were, or moved by a collection. *)
Definition kept (extra : root) (st : snapshot) (extra' : root) (st' : snapshot) : Prop :=
  extra' = extra ∧ st' = st ∨ root_copy extra extra' ∧ same_data st st'.

Lemma make_room_ok fuel extra r m st : holds r st → true_ok m → ready m (extra :: all_roots st) →
  consistent m (extra :: all_roots st) → (wdepth (sn_tree st) ≤ fuel)%nat → lo < hi →
  ∃ extra' r' m' st', make_room fuel (rval extra) r m = Ok (rval extra', r', m') ∧ holds r' st' ∧
    kept extra st extra' st' ∧ consistent m' (extra' :: all_roots st') ∧ gen0_ptr m' < hi ∧ cells m' !! NULL = None.
Proof.
  intros Hh Ht Hr Hc Hf Hlh. unfold make_room. rewrite (mo_hi _ _ _ _ _ (cs_ok _ _ Hc)).
  destruct (Z.leb_spec hi (gen0_ptr m)).
  - destruct (collect_roots fuel extra r m st Hh Ht Hr Hf) as (extra' & r' & m' & st' & E & Hh' & Hs & Hm & Hp).
    exists extra', r', m', st'. split; [done|]. split; [done|]. split; [right; split; [|done]|].
    { apply (mv_copy _ _ _ _ _ _ _ _), Forall2_cons in Hm as [? _]. done. }
    split; [by eapply moved_consistent; [apply Hm|..]|].
    split; [rewrite Hp, (mo_lo lo hi lim B m'); [done|apply Hm]|]. apply (mo_null lo hi lim B m'), Hm.
  - exists extra, r, m, st. split; [done|]. split; [done|]. split; [by left|]. split; [done|]. split; [done|].
    apply (mo_null lo hi lim B m), Hc.
Qed.

(** A new cell around a list, as the roots hold it afterwards. *)
Lemma make_cell fuel type kids w r m st : holds r st → true_ok m → ready m (RList kids :: all_roots st) →
  consistent m (RList kids :: all_roots st) → (wdepth (sn_tree st) ≤ fuel)%nat → lo < hi → plain_type type →
  isEnvelope type = true →
  ∃ p kids' r' m' st', makeCell fuel type (first_of kids) r m = Ok (p, r', m') ∧ holds r' st' ∧
    kept (RList kids) st (RList kids') st' ∧
    consistent m' (RList (At p type nilCell w kids' Nil) :: all_roots st').
Proof.
  intros Hh Ht Hr Hc Hf Hlh Hp He. unfold makeCell.
  assert (Hg : (gen0_ptr m =? NULL) = false).
  { apply Z.eqb_neq. pose proof (cs_ptr _ _ Hc). pose proof (mo_nursery _ _ _ _ _ (cs_ok _ _ Hc)). unfold NULL. lia. }
  rewrite Hg. cbn [negb].
  destruct (make_room_ok fuel (RList kids) r m st) as (v & r' & m1 & st' & E & Hh' & Hk & Hc' & Hl & _); try done.
  cbn [rval] in E. rewrite E. cbn [mbind result_bind].
  assert (Hv : ∃ kids', v = RList kids') by (destruct Hk as [[-> _]|[(k & -> & _) _]]; eauto).
  destruct Hv as [kids' ->]. pose proof (young_cell_ok m1 type nilCell w kids' (all_roots st') Hc' Hl Hlh Hp) as Hy.
  unfold word_of in Hy. rewrite He in Hy. cbn [rval].
  destruct (young_cell (CellOf type nilCell nilCell (first_of kids')) m1) as [p m2].
  destruct Hy as (_ & Hy & _); [done|]. exists p, kids', r', m2, st'. done.
Qed.

End Roots.
