(* ===== verification/Gc.v ===== *)
(** * The garbage collector (src/newlisp.c, [gcEvacuate], [collectGen0], [makeCell])

    The theorems about the nursery, the conditions under which it works, and where it goes wrong without them. *)

From stdpp Require Import base list numbers tactics gmap.
From Stdlib Require Import ZArith Lia.
From S2P Require Import Prelude Cell Nursery Evacuate Collect Treewalk Rootset.

#[global] Open Scope Z_scope.

(** ** A small memory

    A nursery of four cells from 100 on, full; the cells 3 to 20 are free, the
    cell 90 is the context cell of MAIN. *)

Definition free_cells : list Z := seqZ 3 18.

Definition sample_cells : gmap Z cell :=
  list_to_map ([(1, CellOf CELL_NIL 1 1 1); (2, CellOf CELL_TRUE 1 1 1);
                (90, CellOf CELL_CONTEXT 1 50 50);
                (100, CellOf CELL_EXPRESSION 1 102 101); (101, CellOf CELL_LONG 102 1 7);
                (102, CellOf CELL_LONG 1 1 8); (103, CellOf CELL_LONG 1 1 9)] ++
               ((λ a, (a, free_cell (if decide (a = 20) then NULL else a + 1))) <$> free_cells)).

Definition sample : memory := Memory sample_cells 3 4 100000 [] 104 100 104 104 ∅ ∅ ∅.

Definition sample_list : chain := At 100 CELL_EXPRESSION 102 0 (At 101 CELL_LONG 1 7 Nil (At 102 CELL_LONG 1 8 Nil Nil)) Nil.

(** A number that is the extra root. *)
Definition sample_number : chain := At 103 CELL_LONG 1 9 Nil Nil.

(** MAIN with the symbol at 51, which has the list [(7 8)]. *)
Definition sample_tree : wtree :=
  WNode 50 (WNode 51 (WLeaf 1) (RList sample_list) (WLeaf 0) (WLeaf 1))
    (RList (At 90 CELL_CONTEXT 50 50 Nil Nil)) (WLeaf 0) (WLeaf 1).

Definition sample_symbols : gmap Z gsymbol :=
  list_to_map [(50, GSymbol 51 1 90); (51, GSymbol 1 1 100)].

(** [nil] is saved on the environment stack with its symbol. *)
Definition sample_roots : roots := Nursery.Roots sample_symbols 50 50 0 0 [1; 51] [] [] [0; 1; 0; 0; 0] [].

Definition sample_state : snapshot :=
  Snapshot sample_tree [RList Nil; RWord 51] [] []
    [RWord 0; RList Nil; RWord 0; RWord 0; RWord 0] [].

Lemma sample_ok : mem_ok 100 104 100000 ∅ sample.
Proof.
  split; try done.
  - exists free_cells. split; [|apply NoDup_seqZ].
    unfold free_cells. cbn [free_list seqZ seq fmap list_fmap]. 
    repeat (split; [reflexivity|split; [lia|split; [reflexivity|eexists; split; [reflexivity|split; [reflexivity|]]]]]).
    reflexivity.
  - intros a c. apply (bool_decide_unpack (map_Forall (λ a _, a < 104) sample_cells)). by vm_compute.
Qed.

Lemma sample_holds : holds sample_roots sample_state.
Proof.
  split; cbn [sn_tree sample_state]; try done.
  - cbn. unfold NULL, SENTINEL. repeat split; auto; lia.
  - apply (bool_decide_unpack _). by vm_compute.
  - repeat constructor.
  - split; [done|]. exists (RList (At 90 CELL_CONTEXT 50 50 Nil Nil)). split; [|done]. left. done.
  - exists [50]. split; [|by left]. unfold sample_tree.
    apply walks_value with (v1 := [50]); [|intros w aux [= <- <-]; by left|constructor].
    by apply walks_value with (v1 := [50]); [constructor| |constructor].
  - by left.
  - by left.
Qed.

Lemma sample_true : true_ok sample.
Proof. by exists (CellOf CELL_TRUE 1 1 1). Qed.

Lemma sample_ready : ready 100 104 100000 ∅ sample (RList sample_number :: all_roots sample_state).
Proof.
  split.
  - apply sample_ok.
  - cbn. repeat apply Forall_cons_2; try done; try (split; done); 
      (split; [|by repeat constructor]); cbn; repeat split; try done; lia.
  - apply (bool_decide_unpack _). by vm_compute.
  - vm_compute. discriminate.
Qed.

Lemma sample_consistent : consistent 100 104 100000 ∅ sample (RList sample_number :: all_roots sample_state).
Proof.
  destruct sample_ready as [H1 H2 H3 H4]. split; [done..| |].
  - cbn. lia.
  - intros a _ Hy. cbn. unfold young in Hy. lia.
Qed.

(** ** Copying a list *)

(** C9: [gcEvacuate] on a list of cells (of any depth, wholly or partly in the
    nursery, the old part without pointers back) always ends and returns a list
    with the same types, contents and structure, [aux] of every copied list again
    its last element, none of it in the nursery; the nursery cells are left
    forwarding to their copies and every other cell in use is untouched. *)
Theorem gcEvacuate_copies lo hi lim B m c : mem_ok lo hi lim B m → reprs (cells m) c → NoDup (addrs c) →
  closed lo hi c → cellCount m + Z.of_nat (length (copied lo hi c)) ≤ lim - MAX_BLOCK →
  ∃ m' c', gcEvacuate (first_of c) m = Ok (first_of c', m') ∧ copy_of lo hi B c c' ∧ reprs (cells m') c' ∧
    NoDup (addrs c') ∧ (∀ a, a ∈ addrs c' → young lo hi a = false) ∧ forwards lo hi (cells m') c c' ∧
    (∀ a, live m a → a ∉ copied lo hi c → cells m' !! a = cells m !! a) ∧ mem_ok lo hi lim B m' ∧
    cellCount m' = cellCount m + Z.of_nat (length (copied lo hi c)).
Proof.
  intros Hok Hr Hn Hc Hl. destruct (gcEvacuate_ok lo hi lim B m c Hok Hr Hn Hc Hl) as (m' & c' & E & Hev).
  destruct Hev as [V1 V2 V3 V4 V5 V6 V7 V8 V9 V10]. exists m', c'. do 4 (split; [done|]).
  split; [intros a Ha; by apply V5|]. split; [done|]. split; [|done]. intros a Ha Hac. apply V6; [done| |done].
  intros ->. by apply (null_dead lo hi lim B m).
Qed.

Lemma gcEvacuate_copies_witness :
  ∃ m' c', gcEvacuate 100 sample = Ok (first_of c', m') ∧ copy_of 100 104 ∅ sample_list c' ∧
    reprs (cells m') c' ∧ NoDup (addrs c') ∧ (∀ a, a ∈ addrs c' → young 100 104 a = false) ∧
    forwards 100 104 (cells m') sample_list c' ∧
    (∀ a, live sample a → a ∉ copied 100 104 sample_list → cells m' !! a = cells sample !! a) ∧
    mem_ok 100 104 100000 ∅ m' ∧ cellCount m' = 4 + 3.
Proof.
  apply (gcEvacuate_copies 100 104 100000 ∅ sample sample_list).
  - apply sample_ok.
  - cbn. repeat split; try done; lia.
  - apply (bool_decide_unpack _). by vm_compute.
  - done.
  - vm_compute. discriminate.
Defined.

(** ** Collection *)

(** C8: Under the conditions that follow, a collection ends; the roots (the symbols
    of all contexts reached from MAIN, the three stacks, the registers, the roots of
    the bytecode machine and the extra list) then hold the same data as before, no cell
    of theirs is in the nursery, and the nursery starts again from its beginning.  The
    conditions ([holds], [ready]):
    - the lists of the roots share no cells with each other and contain no arrays;
    - no cell outside of the nursery points into it, no root that is not a list is an
      address in it, and the contents of a symbol are a list, a context, nil, true or none;
    - MAIN is a symbol of its own tree and holds its own context, the current context is
      among those that the walk from MAIN reaches, and fewer than [MAX_CONTEXTS] (256) are
      recorded when one is entered;
    - with the copies [cellCount] stays a block below [MAX_CELL_COUNT].
    The interpreter does not keep the second and the third on its own:
    [pushed_cell_lost] shows a list that loses an element after [push] on an old list,
    [unrecorded_context_diverges] a walk without end. *)
Theorem collectGen0_keeps lo hi lim B fuel extra r m st : holds r st → true_ok m →
  ready lo hi lim B m (extra :: all_roots st) → (wdepth (sn_tree st) ≤ fuel)%nat →
  ∃ extra' r' m' st', collectGen0 fuel (rval extra) r m = Ok (rval extra', r', m') ∧ holds r' st' ∧
    root_copy lo hi B extra extra' ∧ same_data lo hi B st st' ∧
    Forall (root_ok lo hi m') (extra' :: all_roots st') ∧ mem_ok lo hi lim B m' ∧
    (∀ a, a ∈ (extra' :: all_roots st') ≫= raddrs → young lo hi a = false) ∧ gen0_ptr m' = gen0_start m'.
Proof.
  intros Hh Ht Hr Hf. destruct (collect_roots lo hi lim B fuel extra r m st Hh Ht Hr Hf)
    as (extra' & r' & m' & st' & E & Hh' & Hs & [M1 M2 M3 M4 M5 M6 M7 M8 M9] & Hp).
  exists extra', r', m', st'. split; [done|]. split; [done|]. apply Forall2_cons in M2 as [? _].
  do 4 (split; [done|]). split; [|done]. intros a Ha. by apply M5.
Qed.

Lemma collectGen0_keeps_witness :
  ∃ extra' r' m' st', collectGen0 3 103 sample_roots sample = Ok (rval extra', r', m') ∧ holds r' st' ∧
    root_copy 100 104 ∅ (RList sample_number) extra' ∧ same_data 100 104 ∅ sample_state st' ∧
    Forall (root_ok 100 104 m') (extra' :: all_roots st') ∧ mem_ok 100 104 100000 ∅ m' ∧
    (∀ a, a ∈ (extra' :: all_roots st') ≫= raddrs → young 100 104 a = false) ∧ gen0_ptr m' = gen0_start m'.
Proof.
  apply (collectGen0_keeps 100 104 100000 ∅ 3 (RList sample_number) sample_roots sample sample_state).
  - apply sample_holds.
  - apply sample_true.
  - apply sample_ready.
  - cbn. lia.
Defined.

(** ** New cells *)

(** C10: Under the conditions of [collectGen0_keeps] (no shared cells, no arrays, no
    pointers from outside into the nursery, contexts reached from MAIN, fewer than 256 of
    them, room for the copies), and when in addition the cells that the roots use in the nursery lie
    below [gen0_ptr] ([consistent]), [makeCell] around a list returns, whether the
    nursery has room or is full and collected first: the cell it returns is none of the cells the roots
    use, contains the list (or its copy), and the roots hold the same data as before.
    [consistent] holds again afterwards.  With a pointer from an old list into the
    nursery the cell can be one that is in use: [pushed_cell_lost]. *)
Theorem makeCell_keeps lo hi lim B fuel type kids w r m st : holds r st → true_ok m →
  ready lo hi lim B m (RList kids :: all_roots st) → consistent lo hi lim B m (RList kids :: all_roots st) →
  (wdepth (sn_tree st) ≤ fuel)%nat → lo < hi → plain_type type → isEnvelope type = true →
  ∃ p kids' r' m' st', makeCell fuel type (first_of kids) r m = Ok (p, r', m') ∧ holds r' st' ∧
    kept lo hi B (RList kids) st (RList kids') st' ∧
    consistent lo hi lim B m' (RList (At p type nilCell w kids' Nil) :: all_roots st').
Proof. apply make_cell. Qed.

Lemma makeCell_keeps_witness :
  ∃ p kids' r' m' st', makeCell 3 CELL_EXPRESSION 103 sample_roots sample = Ok (p, r', m') ∧ holds r' st' ∧
    kept 100 104 ∅ (RList sample_number) sample_state (RList kids') st' ∧
    consistent 100 104 100000 ∅ m' (RList (At p CELL_EXPRESSION nilCell 0 kids' Nil) :: all_roots st').
Proof.
  apply (makeCell_keeps 100 104 100000 ∅ 3 CELL_EXPRESSION sample_number 0 sample_roots sample sample_state).
  - apply sample_holds.
  - apply sample_true.
  - apply sample_ready.
  - apply sample_consistent.
  - cbn. lia.
  - lia.
  - done.
  - reflexivity.
Defined.

(** ** Where it goes wrong *)

(** An old list [(7)] of the symbol at 51, and a nursery of one cell. *)
Definition old_cells : gmap Z cell :=
  list_to_map [(1, CellOf CELL_NIL 1 1 1); (2, CellOf CELL_TRUE 1 1 1); (3, CellOf CELL_EXPRESSION 1 4 4);
               (4, CellOf CELL_LONG 1 1 7); (5, free_cell 6); (6, free_cell NULL); (90, CellOf CELL_CONTEXT 1 50 50)].
Definition old_memory : memory := Memory old_cells 5 5 100000 [] 101 100 100 101 ∅ ∅ ∅.
Definition old_roots : roots :=
  Nursery.Roots (list_to_map [(50, GSymbol 51 1 90); (51, GSymbol 1 1 3)]) 50 50 0 0 [] [] [] [0; 0; 0; 0; 0] [].

(** The collection does not follow the pointers from old cells into the nursery:
    after [8] is pushed on an old list [(7)], the list is [(8 7)]; but the next cell,
    for which the nursery is collected, is put in the place of the element just
    pushed, and the list of the symbol then is [(9)]. *)
Theorem pushed_cell_lost :
  ('(p, r, m) ← stuffInteger 5 8 old_roots old_memory;
   m ← push_front 3 p m;
   before ← list_contents 9 4 m;
   c ← cell_at 3 m;
   l1 ← list_contents 9 (c_contents c) m;
   '(q, r, m) ← stuffInteger 5 9 r m;
   g ← symbol_at 51 (symbols r);
   c ← cell_at (g_contents g) m;
   l2 ← list_contents 9 (c_contents c) m;
   Ok (l1, q =? p, l2)) = Ok ([8; 7], true, [9]).
Proof. by vm_compute. Qed.

(** Once [MAX_CONTEXTS] contexts have been recorded, a further context that holds
    its own context cell is walked again and again: no depth of recursion is enough. *)
Theorem unrecorded_context_diverges fuel s p r visited f m c : (length visited = MAX_CONTEXTS)%nat →
  s ∉ visited → s ≠ NULL → r ≠ NULL → r ≠ SENTINEL → f !! r = Some (GSymbol SENTINEL SENTINEL p) →
  p ≠ NULL → p ≠ nilCell → isInGen0 p m = false → cells m !! p = Some c → c_type c = CELL_CONTEXT →
  c_contents c = s → c_aux c = r →
  gcWalkSymbolTree fuel r visited f m = NoFuel.
Proof.
  intros Hlen Hs Hs0 Hr0 Hr1 Hf Hp0 Hp1 Hy Hc Ht Hcs Hcr. induction fuel as [|fuel IH]; [done|].
  cbn [gcWalkSymbolTree]. rewrite (proj2 (Z.eqb_neq _ _) Hr0), (proj2 (Z.eqb_neq _ _) Hr1). cbn [orb].
  rewrite (symbol_at_ok _ _ _ Hf). cbn [mbind result_bind g_left].
  destruct fuel as [|fuel]; [done|]. assert (Hleft : gcWalkSymbolTree (S fuel) SENTINEL visited f m = Ok (visited, f, m)) by done.
  rewrite Hleft. cbn [mbind result_bind]. unfold walk_contents. rewrite (symbol_at_ok _ _ _ Hf).
  cbn [mbind result_bind g_contents]. rewrite (proj2 (Z.eqb_neq _ 0) Hp0), (proj2 (Z.eqb_neq _ _) Hp1). cbn [orb].
  assert (He : gcEvacuate p m = Ok (p, m)) by (unfold gcEvacuate, evacuate_with; rewrite Hy; by destruct (_ || _)).
  rewrite He. cbn [mbind result_bind]. unfold set_symbol_contents. rewrite (symbol_at_ok _ _ _ Hf).
  cbn [mbind result_bind g_left g_right]. rewrite insert_id, (proj2 (Z.eqb_neq _ _) Hp0) by done.
  rewrite (cell_at_ok _ _ _ Hc). cbn [mbind result_bind]. rewrite Ht, Hcs, Hcr, (proj2 (Z.eqb_neq _ _) Hs0).
  rewrite bool_decide_eq_false_2, decide_False by (done || lia). cbn [negb Z.eqb orb]. rewrite Z.eqb_refl.
  cbn [negb orb]. rewrite (proj2 (Z.eqb_neq _ 0) Hr0), IH. done.
Qed.

Lemma unrecorded_context_diverges_witness :
  gcWalkSymbolTree 1000 60 (seqZ 1000 256) {[60 := GSymbol SENTINEL SENTINEL 80]}
    (Memory {[80 := CellOf CELL_CONTEXT 1 60 61]} 0 1 100000 [] 104 100 100 104 ∅ ∅ ∅) = NoFuel.
Proof.
  apply (unrecorded_context_diverges 1000 61 80 60 _ _ _ (CellOf CELL_CONTEXT 1 60 61)); try done.
  apply (bool_decide_unpack _). by vm_compute.
Defined.
