(* ===== verification/Lists.v ===== *)
(** * Lists of cells (src/newlisp.c): [copyCell], [copyList], [deleteList], [addList]

    On the memory of Nursery.v, with the buffers of strings, names and big
    integers and with the bytecode objects of lambdas. *)

From stdpp Require Import base list numbers tactics gmap.
From Stdlib Require Import ZArith Lia.
From S2P Require Import Prelude Cell Nursery.

#[global] Open Scope Z_scope.

Definition CELL_DYN_SYMBOL := 0x4F.
Definition CELL_BIGINT := 0x582.

Definition set_heap (h : gmap Z (list Z)) (m : memory) : memory :=
  Memory (cells m) (firstFreeCell m) (cellCount m) (MAX_CELL_COUNT m) (blocks m) (brk m)
    (gen0_start m) (gen0_ptr m) (gen0_limit m) (arrays m) h (bytecodes m).
Definition set_brk (b : Z) (m : memory) : memory :=
  Memory (cells m) (firstFreeCell m) (cellCount m) (MAX_CELL_COUNT m) (blocks m) b
    (gen0_start m) (gen0_ptr m) (gen0_limit m) (arrays m) (heap m) (bytecodes m).
Definition set_bytecodes (b : gmap Z bytecode_obj) (m : memory) : memory :=
  Memory (cells m) (firstFreeCell m) (cellCount m) (MAX_CELL_COUNT m) (blocks m) (brk m)
    (gen0_start m) (gen0_ptr m) (gen0_limit m) (arrays m) (heap m) b.

(** ** Buffers *)

(** [malloc] and a copy of [bytes] into the new buffer. *)
Definition new_buffer (bytes : list Z) (m : memory) : Z * memory :=
  (brk m, set_brk (brk m + 1) (set_heap (<[brk m := bytes]> (heap m)) m)).

(** [memcpy] reads [n] bytes. *)
Definition copy_buffer (p n : Z) (m : memory) : result (Z * memory) :=
  match heap m !! p with
  | Some bytes => if (0 <=? n) && (n <=? Z.of_nat (length bytes)) then Ok (new_buffer (take (Z.to_nat n) bytes) m) else UB
  | None => UB
  end.

Definition free_buffer (p : Z) (m : memory) : result memory :=
  match heap m !! p with Some _ => Ok (set_heap (delete p (heap m)) m) | None => UB end.

(** [strlen]: the terminating zero has to be inside of the buffer. *)
Fixpoint strlen (bytes : list Z) : result Z :=
  match bytes with
  | [] => UB
  | b :: bytes => if b =? 0 then Ok 0 else n ← strlen bytes; Ok (n + 1)
  end.

Definition has_buffer (type : Z) : bool :=
  (type =? CELL_STRING) || (type =? CELL_DYN_SYMBOL) || (type =? CELL_BIGINT).

(** ** Deletion *)

Definition set_type (v : Z) (c : cell) : cell := CellOf v (c_next c) (c_aux c) (c_contents c).

(** The cells of a list, each with [del]. *)
Fixpoint delete_each (del : Z → memory → result memory) (l : list Z) (m : memory) : result memory :=
  match l with [] => Ok m | v :: l => m ← del v m; delete_each del l m end.

Definition freeBytecodeObj (del : Z → memory → result memory) (bc : Z) (m : memory) : result memory :=
  match bytecodes m !! bc with
  | None => Ok m
  | Some o =>
      if 1 <? ref_count o then
        Ok (set_bytecodes (<[bc := BytecodeObj (ref_count o - 1) (bc_constants o)]> (bytecodes m)) m)
      else
        delete_each del (filter (λ v, v ≠ NULL ∧ v ≠ nilCell ∧ v ≠ trueCell) (bc_constants o))
          (set_bytecodes (delete bc (bytecodes m)) m)
  end.

(** (src/nl-list.c) *)
Definition deleteArray (del : Z → memory → result memory) (c : cell) (m : memory) : result memory :=
  match arrays m !! c_contents c with
  | None => UB
  | Some l =>
      let size := Z.to_nat (wrapU 64 (c_aux c - 1) / 8) in
      if decide (size ≤ length l)%nat then
        m ← delete_each del (take size l) m;
        Ok (set_arrays (delete (c_contents c) (arrays m)) m)
      else UB
  end.

(** What an envelope holds. *)
Definition delete_contents (del : Z → memory → result memory) (cell : Z) (m : memory) : result memory :=
  c ← cell_at cell m;
  m ← (if (c_type c =? CELL_LAMBDA) && negb (c_aux c =? 0) && negb (c_aux c =? nilCell) &&
          bool_decide (c_aux c ∈ dom (bytecodes m))
       then m ← freeBytecodeObj del (c_aux c) m; put cell (set_aux nilCell) m
       else Ok m);
  c ← cell_at cell m;
  if c_type c =? CELL_ARRAY then deleteArray del c m
  else if c_contents c =? nilCell then Ok m
  else del (c_contents c) m.

(** A cell of the nursery: its place is reused only after the next collection.
    The result has the next cell. *)
Definition delete_young (del : Z → memory → result memory) (cell : Z) (m : memory) : result (Z * memory) :=
  c ← cell_at cell m;
  m ← (if has_buffer (c_type c) then
         if c_contents c =? 0 then Ok m
         else m ← free_buffer (c_contents c) m; put cell (set_cell_contents 0) m
       else if isEnvelope (c_type c) then delete_contents del cell m
       else Ok m);
  c ← cell_at cell m;
  m ← (if (c_type c =? CELL_SYMBOL) || (c_type c =? CELL_CONTEXT) then put cell (set_type CELL_FREE) m else Ok m);
  Ok (c_next c, m).

(** A cell of the blocks goes to the free list. *)
Definition delete_old (del : Z → memory → result memory) (cell : Z) (m : memory) : result (Z * memory) :=
  c ← cell_at cell m;
  m ← (if isEnvelope (c_type c) then delete_contents del cell m
       else if has_buffer (c_type c) then
         if c_contents c =? 0 then Ok m else free_buffer (c_contents c) m
       else Ok m);
  c ← cell_at cell m;
  m ← put cell (set_type CELL_FREE) m;
  m ← put cell (set_next (firstFreeCell m)) m;
  Ok (c_next c, set_free cell (cellCount m - 1) m).

Fixpoint deleteList (fuel : nat) (cell : Z) (m : memory) : result memory :=
  match fuel with
  | O => NoFuel
  | S fuel' =>
      if (cell =? NULL) || (cell =? nilCell) then Ok m
      else
        c ← cell_at cell m;
        if (cell =? trueCell) || (c_type c =? CELL_FREE) || (c_type c =? CELL_FORWARD) then
          deleteList fuel' (c_next c) m
        else
          '(next, m) ← (if isInGen0 cell m then delete_young else delete_old) (deleteList fuel') cell m;
          deleteList fuel' next m
  end.

(** ** Copying *)

Definition set_result (l : list Z) (r : roots) : roots :=
  Roots (symbols r) (mainContext r) (currentContext r) (itSymbol r) (argsSymbol r) (envStack r) l
    (lambdaStack r) (registers r) (vm_roots r).
Definition set_registers (l : list Z) (r : roots) : roots :=
  Roots (symbols r) (mainContext r) (currentContext r) (itSymbol r) (argsSymbol r) (envStack r) (resultStack r)
    (lambdaStack r) l (vm_roots r).

(** The result stack; the word below it, which is read when it is empty, is no cell. *)
Definition on_top (cell : Z) (r : roots) : bool := bool_decide (last (resultStack r) = Some cell).
Definition pushResult (v : Z) (r : roots) : roots := set_result (resultStack r ++ [v]) r.
Definition popResult (r : roots) : roots := set_result (removelast (resultStack r)) r.

(** The place of the new cell; the cell to copy is a root of a collection. *)
Definition new_place (gf : nat) (cell : Z) (r : roots) (m : memory) : result (Z * Z * roots * memory) :=
  if negb (gen0_ptr m =? NULL) then
    '(cell, r, m) ← make_room gf cell r m;
    Ok (cell, gen0_ptr m, r, set_gen0_ptr (gen0_ptr m + 1) m)
  else
    m ← (if firstFreeCell m =? NULL then allocBlock m else Ok m);
    let p := firstFreeCell m in
    c ← cell_at p m;
    Ok (cell, p, r, set_free (c_next c) (cellCount m + 1) m).

(** How much of the buffer of a cell is copied. *)
Definition buffer_size (c : cell) (m : memory) : result Z :=
  if c_type c =? CELL_STRING then Ok (c_aux c)
  else if c_type c =? CELL_BIGINT then Ok (c_aux c * 4)
  else
    bytes ← match heap m !! c_contents c with Some bytes => Ok bytes | None => UB end;
    n ← strlen bytes; Ok (n + 1).

(** The element behind [cell], and so on, are copied behind [list]; the result is the
    last copy. *)
Fixpoint copy_rest (copy : Z → roots → memory → result (Z * roots * memory)) (fuel : nat) (cell list : Z)
    (r : roots) (m : memory) : result (Z * roots * memory) :=
  match fuel with
  | O => NoFuel
  | S fuel' =>
      c ← cell_at cell m;
      if c_next c =? nilCell then Ok (list, r, m)
      else
        '(n, r, m) ← copy (c_next c) r m;
        m ← put list (set_next n) m;
        copy_rest copy fuel' (c_next c) n r m
  end.

(** (src/nl-list.c) The pointers of an array into a new block. *)
Fixpoint copy_pointers (copy : Z → roots → memory → result (Z * roots * memory)) (size i : nat) (from to : Z)
    (r : roots) (m : memory) : result (roots * memory) :=
  match size with
  | O => Ok (r, m)
  | S size =>
      v ← match arrays m !! from ≫= (.!! i) with Some v => Ok v | None => UB end;
      '(v, r, m) ← copy v r m;
      let m := set_arrays (alter (λ l, <[i := v]> l) to (arrays m)) m in
      copy_pointers copy size (S i) from to r m
  end.

Definition copyArray (copy : Z → roots → memory → result (Z * roots * memory)) (c : cell) (r : roots) (m : memory)
    : result (Z * roots * memory) :=
  let size := Z.to_nat (wrapU 64 (c_aux c - 1) / 8) in
  let addr := brk m in
  let m := set_brk (brk m + 1) (set_arrays (<[addr := replicate size 0]> (arrays m)) m) in
  '(r, m) ← copy_pointers copy size 0 (c_contents c) addr r m;
  Ok (addr, r, m).

(** The list in an envelope that is not empty. *)
Definition copy_elements (copy : Z → roots → memory → result (Z * roots * memory)) (fuel : nat) (cell newCell : Z)
    (r : roots) (m : memory) : result (roots * memory) :=
  c ← cell_at cell m;
  let bc := if (c_type c =? CELL_LAMBDA) && negb (c_aux c =? 0) && negb (c_aux c =? nilCell) &&
               bool_decide (c_aux c ∈ dom (bytecodes m)) then Some (c_aux c) else None in
  let r := pushResult newCell r in
  '(list, r, m) ← copy (c_contents c) r m;
  m ← put newCell (set_cell_contents list) m;
  c ← cell_at cell m;
  '(list, r, m) ← copy_rest copy fuel (c_contents c) list r m;
  n ← cell_at newCell m;
  m ← match bc with
      | Some b =>
          if c_type n =? CELL_LAMBDA then
            m ← put newCell (set_aux b) m;
            Ok (set_bytecodes (alter (λ o, BytecodeObj (ref_count o + 1) (bc_constants o)) b (bytecodes m)) m)
          else put newCell (set_aux list) m
      | None => put newCell (set_aux list) m
      end;
  Ok (popResult r, m).

Fixpoint copyCell (gf fuel : nat) (cell : Z) (r : roots) (m : memory) : result (Z * roots * memory) :=
  match fuel with
  | O => NoFuel
  | S fuel' =>
      if on_top cell r && negb (cell =? nilCell) && negb (cell =? trueCell) then Ok (cell, popResult r, m)
      else
        '(cell, newCell, r, m) ← new_place gf cell r m;
        c ← cell_at cell m;
        let m := set_cells (<[newCell := CellOf (c_type c) nilCell (c_aux c) (c_contents c)]> (cells m)) m in
        if isEnvelope (c_type c) then
          if c_type c =? CELL_ARRAY then
            '(a, r, m) ← copyArray (copyCell gf fuel') c r m;
            m ← put newCell (set_cell_contents a) m;
            Ok (newCell, r, m)
          else if c_contents c =? nilCell then Ok (newCell, r, m)
          else
            '(r, m) ← copy_elements (copyCell gf fuel') fuel' cell newCell r m;
            Ok (newCell, r, m)
        else if has_buffer (c_type c) then
          n ← buffer_size c m;
          '(b, m) ← copy_buffer (c_contents c) n m;
          m ← put newCell (set_cell_contents b) m;
          Ok (newCell, r, m)
        else Ok (newCell, r, m)
  end.

(** [lastCellCopied] is the second of the registers. *)
Definition copyList (gf fuel : nat) (cell : Z) (r : roots) (m : memory) : result (Z * roots * memory) :=
  if cell =? nilCell then Ok (cell, set_registers (<[1%nat := nilCell]> (registers r)) r, m)
  else
    '(firstCell, r, m) ← copyCell gf fuel cell r m;
    let r := pushResult firstCell r in
    '(newCell, r, m) ← copy_rest (copyCell gf fuel) fuel cell firstCell r m;
    let r := popResult r in
    Ok (firstCell, set_registers (<[1%nat := newCell]> (registers r)) r, m).

(** [new] becomes the last element of an optimised or empty list. *)
Definition addList (list new : Z) (m : memory) : result memory :=
  c ← cell_at list m;
  m ← (if c_aux c =? nilCell then put list (set_cell_contents new) m else put (c_aux c) (set_next new) m);
  put list (set_aux new) m.
