(* ===== verification/Deleting.v ===== *)
(** * Deleting lists (src/newlisp.c, [deleteList])

    A list outside of the nursery goes back to the free list, cell by cell, with
    the buffers of its strings. *)

From stdpp Require Import base list numbers tactics gmap.
From Stdlib Require Import ZArith Lia.
From S2P Require Import Prelude Cell Nursery Evacuate Lists.

#[global] Open Scope Z_scope.
#[local] Set Warnings "-clear-no-such-hyp".

Lemma put_run p f m c : cells m !! p = Some c → put p f m = Ok (set_cells (<[p := f c]> (cells m)) m).
Proof. unfold put. by intros ->. Qed.

Lemma cells_set h m : cells (set_cells h m) = h.
Proof. done. Qed.

Lemma set_cells_twice h h' m : set_cells h (set_cells h' m) = set_cells h m.
Proof. done. Qed.

(** The buffers that a list owns. *)
Fixpoint buffers (c : chain) : list Z :=
  match c with
  | Nil => []
  | At _ type _ w kids next =>
      (if has_buffer type && negb (w =? 0) then [w] else []) ++ buffers kids ++ buffers next
  end.

(** No lambda of the list has a bytecode object of [B]. *)
Fixpoint uncompiled (B : gset Z) (c : chain) : Prop :=
  match c with
  | Nil => True
  | At _ type aux _ kids next => (type = CELL_LAMBDA → aux ∉ B) ∧ uncompiled B kids ∧ uncompiled B next
  end.

Lemma has_buffer_plain type : has_buffer type = true → isEnvelope type = false.
Proof.
  unfold has_buffer. intros [[->%Z.eqb_eq | ->%Z.eqb_eq]%orb_true_iff | ->%Z.eqb_eq]%orb_true_iff; reflexivity.
Qed.

Section Deleting.
Variables (lo hi lim : Z) (B : gset Z).

#[local] Abbreviation young := (young lo hi).
#[local] Abbreviation mem_ok := (mem_ok lo hi lim B).
#[local] Abbreviation free_list := (free_list lo hi).

(** From [m] to [m'] the list [c] has been deleted. *)
Record deleted (m : memory) (c : chain) (m' : memory) : Prop := {
  dl_ok : mem_ok m';
  dl_free : ∀ l, free_list (cells m) (firstFreeCell m) l →
    ∃ l', free_list (cells m') (firstFreeCell m') l' ∧ l' ≡ₚ addrs c ++ l;
  dl_frame : ∀ a, a ∉ addrs c → cells m' !! a = cells m !! a;
  dl_heap : ∀ p, heap m' !! p = if bool_decide (p ∈ buffers c) then None else heap m !! p;
  dl_count : cellCount m' = cellCount m - Z.of_nat (length (addrs c));
  dl_rest : arrays m' = arrays m ∧ bytecodes m' = bytecodes m ∧ gen0_ptr m' = gen0_ptr m
}.

(** A list that can be deleted. *)
Record deletable (m : memory) (c : chain) : Prop := {
  db_ok : mem_ok m;
  db_repr : reprs (cells m) c;
  db_nodup : NoDup (addrs c);
  db_old : Forall (λ a, young a = false) (addrs c);
  db_code : uncompiled B c;
  db_own : NoDup (buffers c);
  db_heap : ∀ p, p ∈ buffers c → is_Some (heap m !! p)
}.

Lemma free_lists_same h p l l' : h !! NULL = None → free_list h p l → free_list h p l' → l = l'.
Proof.
  intros Hz. revert p l'. induction l as [|a l IH]; intros p [|b l']; cbn; try done.
  - intros -> (<- & H & _). unfold NULL in H. lia.
  - intros (-> & H & _) ->. unfold NULL in H. lia.
  - intros (-> & _ & _ & c & Hc & _ & Hl) (<- & _ & _ & c' & Hc' & _ & Hl'). f_equal.
    rewrite Hc in Hc'. injection Hc' as <-. by eapply IH.
Qed.

Lemma deleted_nil m : mem_ok m → deleted m Nil m.
Proof. intros Hok. split; cbn; try done; [intros l Hl; by exists l|lia]. Qed.

(** ** One cell *)

(** The cell [a] at the head of the free list. *)
Lemma free_head m a x y c : mem_ok m → cells m !! a = Some c → c_type c ≠ CELL_FREE → 2 < a → young a = false →
  let m' := set_free a (cellCount m - 1) (set_cells (<[a := CellOf CELL_FREE (firstFreeCell m) x y]> (cells m)) m) in
  mem_ok m' ∧ ∀ l, free_list (cells m) (firstFreeCell m) l → free_list (cells m') (firstFreeCell m') (a :: l).
Proof.
  intros Hok Ha Ht H2 Hy. pose proof Hok as [(l & Hl & Hnd) Hz Hbrk Hh Hlo Hhi Hlim HB Hm Hn].
  assert (Hfree : ∀ l', free_list (cells m) (firstFreeCell m) l' →
    free_list (<[a := CellOf CELL_FREE (firstFreeCell m) x y]> (cells m)) a (a :: l')).
  { intros l' Hl'. cbn [Evacuate.free_list]. do 3 (split; [done|]). eexists. rewrite lookup_insert_eq. split; [done|].
    split; [done|]. cbn [c_next]. eapply free_list_ext; [|exact Hl']. intros b Hb. apply lookup_insert_ne.
    intros <-. eapply (free_list_dead lo hi m); [exact Hl'|exact Hb|]. by exists c. }
  split; [|exact Hfree].
  split; cbn [cells set_cells set_free firstFreeCell brk gen0_start gen0_limit MAX_CELL_COUNT bytecodes]; try done.
  - exists (a :: l). split; [by apply Hfree|]. apply NoDup_cons. split; [|done]. intros Hin.
    eapply (free_list_dead lo hi m); [exact Hl|exact Hin|]. by exists c.
  - rewrite lookup_insert_ne; [done|]. unfold NULL. lia.
  - intros b cb. rewrite lookup_insert_Some. intros [[<- _]|[_ Hb]]; [by eapply Hbrk|by eapply Hbrk].
Qed.

(** The cell itself, after what it contains. *)
Definition own_buffer (type w : Z) : list Z := if has_buffer type && negb (w =? 0) then [w] else [].

Record emptied (m : memory) (type w : Z) (kids : chain) (m' : memory) : Prop := {
  em_ok : mem_ok m';
  em_free : ∀ l, free_list (cells m) (firstFreeCell m) l →
    ∃ l', free_list (cells m') (firstFreeCell m') l' ∧ l' ≡ₚ addrs kids ++ l;
  em_frame : ∀ a, a ∉ addrs kids → cells m' !! a = cells m !! a;
  em_heap : ∀ p, heap m' !! p = if bool_decide (p ∈ own_buffer type w ++ buffers kids) then None else heap m !! p;
  em_count : cellCount m' = cellCount m - Z.of_nat (length (addrs kids));
  em_rest : arrays m' = arrays m ∧ bytecodes m' = bytecodes m ∧ gen0_ptr m' = gen0_ptr m
}.

Lemma emptied_deleted m type w kids m' : has_buffer type = false → deleted m kids m' → emptied m type w kids m'.
Proof. intros Hb [D1 D2 D3 D4 D5 D6]. split; try done. intros p. unfold own_buffer. rewrite Hb. apply D4. Qed.

Definition delete_spec (c : chain) (fuel : nat) : Prop :=
  ∀ m, deletable m c → ∃ m', deleteList fuel (first_of c) m = Ok m' ∧ deleted m c m'.

Lemma deletable_kids m a ty aux w kids nx : deletable m (At a ty aux w kids nx) → deletable m kids.
Proof.
  intros [H1 (_ & _ & _ & _ & H2 & _) H3 H4 (_ & H5 & _) H6 H7].
  cbn [addrs buffers] in *. apply NoDup_cons in H3 as [_ (H3 & _ & _)%NoDup_app].
  apply Forall_cons in H4 as [_ [H4 _]%Forall_app]. apply NoDup_app in H6 as (_ & _ & (H6 & _ & _)%NoDup_app).
  split; try done. intros p Hp. apply H7. rewrite !elem_of_app. auto.
Qed.

(** The branches of [deleteList] for an old cell. *)
Lemma contents_deleted m a ty aux w kids nx fuel : (0 < fuel)%nat → deletable m (At a ty aux w kids nx) →
  delete_spec kids fuel → ∃ m',
  (if isEnvelope ty then delete_contents (deleteList fuel) a m
   else if has_buffer ty then
     if word_of ty w kids =? 0 then Ok m else free_buffer (word_of ty w kids) m
   else Ok m) = Ok m' ∧ emptied m ty w kids m'.
Proof.
  intros Hf Hd Hspec. pose proof Hd as [Hok (H1 & H2 & (_ & _ & Ha) & He & _) _ _ (Hc & _) _ Hh].
  pose proof (deletable_kids _ _ _ _ _ _ _ Hd) as Hk. unfold word_of in *. destruct (isEnvelope ty) eqn:Et.
  - assert (Hb : has_buffer ty = false).
    { destruct (has_buffer ty) eqn:Hb; [|done]. apply has_buffer_plain in Hb. congruence. }
    unfold delete_contents. rewrite (cell_at_ok _ _ _ H1). cbn [mbind result_bind c_type c_aux c_contents].
    assert (Hl : (ty =? CELL_LAMBDA) && negb (aux =? 0) && negb (aux =? nilCell) &&
      bool_decide (aux ∈ dom (bytecodes m)) = false).
    { rewrite (mo_bytecodes _ _ _ _ _ Hok). destruct (Z.eqb_spec ty CELL_LAMBDA) as [->|]; [|done].
      rewrite (bool_decide_eq_false_2 (aux ∈ B)) by by apply Hc. by rewrite andb_false_r. }
    rewrite Hl. cbn [mbind result_bind]. rewrite (cell_at_ok _ _ _ H1). cbn [mbind result_bind c_type c_contents].
    rewrite (proj2 (Z.eqb_neq ty _) Ha).
    destruct (Hspec m Hk) as (m' & E & Hdel). destruct (Z.eqb_spec (first_of kids) nilCell) as [En|].
    + exists m. split; [done|]. apply emptied_deleted; [done|]. destruct kids as [|b tb xb wb kb nb]; [by apply deleted_nil|].
      exfalso. destruct Hk as [_ (_ & Hb2 & _) _ _ _ _ _]. cbn in En. unfold nilCell in En. lia.
    + exists m'. split; [done|]. by apply emptied_deleted.
  - rewrite (He eq_refl) in *. destruct (has_buffer ty) eqn:Hb.
    2:{ exists m. split; [done|]. apply emptied_deleted; [done|by apply deleted_nil]. }
    destruct (Z.eqb_spec w 0) as [->|Hw].
    { exists m. split; [done|]. pose proof (deleted_nil _ Hok) as [D1 D2 D3 D4 D5 D6]. split; try done.
      intros p. unfold own_buffer. rewrite Hb. apply D4. }
    destruct (Hh w) as [bytes Hbytes].
    { cbn [buffers]. rewrite Hb, (proj2 (Z.eqb_neq _ _) Hw). by left. }
    unfold free_buffer. rewrite Hbytes. eexists. split; [reflexivity|].
    destruct Hok as [K1 K2 K3 K4 K5 K6 K7 K8 K9 K10]. split; cbn [addrs length app cellCount set_heap heap]; try done.
    + intros l Hl. by exists l.
    + intros p. unfold own_buffer. rewrite Hb, (proj2 (Z.eqb_neq _ _) Hw). cbn [negb andb app buffers].
      case_bool_decide as Hp.
      * apply list_elem_of_singleton in Hp as ->. apply lookup_delete_eq.
      * apply lookup_delete_ne. intros ->. apply Hp. by left.
    + lia.
Qed.

(** An old cell with its contents goes to the free list. *)
Lemma old_deleted m a ty aux w kids nx fuel : (0 < fuel)%nat → deletable m (At a ty aux w kids nx) →
  delete_spec kids fuel → ∃ m', delete_old (deleteList fuel) a m = Ok (first_of nx, m') ∧
    deleted m (At a ty aux w kids Nil) m'.
Proof.
  intros Hf Hd Hspec. destruct (contents_deleted m a ty aux w kids nx fuel Hf Hd Hspec) as (m1 & E1 & [D1 D2 D3 D4 D5 D6]).
  destruct Hd as [Hok (H1 & H2 & (Ht & _) & _) Hn Hy _ _ _]. unfold delete_old.
  rewrite (cell_at_ok _ _ _ H1). cbn [mbind result_bind c_type c_contents]. rewrite E1. cbn [mbind result_bind].
  cbn [addrs] in Hn, Hy. apply NoDup_cons in Hn as [Ha _]. rewrite not_elem_of_app in Ha. destruct Ha as [Ha _]. apply Forall_cons in Hy as [Hy _].
  assert (Ha1 : cells m1 !! a = Some (CellOf ty (first_of nx) aux (word_of ty w kids))) by (by rewrite D3).
  rewrite (cell_at_ok _ _ _ Ha1). cbn [mbind result_bind c_next]. rewrite (put_run _ _ _ _ Ha1).
  cbn [mbind result_bind]. erewrite put_run by apply lookup_insert_eq. cbn [mbind result_bind].
  eexists. split; [reflexivity|]. rewrite cells_set, set_cells_twice, insert_insert_eq.
  cbn [set_type set_next c_type c_next c_aux c_contents firstFreeCell cellCount set_cells].
  destruct (free_head m1 a aux (word_of ty w kids) _ D1 Ha1 Ht H2 Hy) as [Hok' Hfree].
  split; cbn [addrs buffers]; rewrite ?app_nil_r; try done.
  - intros l Hl. destruct (D2 l Hl) as (l' & Hl' & Hp). exists (a :: l'). split; [by apply Hfree|].
    cbn [app]. by rewrite Hp.
  - intros b [Hb Hbk]%not_elem_of_cons. rewrite <- (D3 b Hbk). by apply lookup_insert_ne.
  - cbn [cellCount set_free length]. rewrite D5. lia.
Qed.

Lemma deleted_app m a ty aux w kids nx m1 m2 : deletable m (At a ty aux w kids nx) →
  deleted m (At a ty aux w kids Nil) m1 → deleted m1 nx m2 → deleted m (At a ty aux w kids nx) m2.
Proof.
  intros Hd [D1 D2 D3 D4 D5 (D6 & D7 & D8)] [E1 E2 E3 E4 E5 (E6 & E7 & E8)]. cbn [addrs buffers] in *.
  rewrite ?app_nil_r in *. split; cbn [addrs buffers]; try done.
  - intros l Hl. destruct (D2 l Hl) as (l1 & Hl1 & P1). destruct (E2 l1 Hl1) as (l2 & Hl2 & P2).
    exists l2. split; [done|]. rewrite P2, P1. cbn [app]. rewrite <- app_assoc.
    rewrite (Permutation_app_comm (addrs nx)). cbn [app]. rewrite <- app_assoc. apply Permutation_skip.
    apply Permutation_app_head, Permutation_app_comm.
  - intros b [Hb [Hbk Hbn]%not_elem_of_app]%not_elem_of_cons. rewrite E3 by done. apply D3.
    by apply not_elem_of_cons.
  - intros p. rewrite E4, D4. repeat case_bool_decide; try done; exfalso; rewrite ?elem_of_app in *; tauto.
  - rewrite E5, D5. cbn [length]. rewrite length_app. lia.
  - by rewrite E6, E7, E8.
Qed.

Lemma deletable_next m a ty aux w kids nx m1 : deletable m (At a ty aux w kids nx) →
  deleted m (At a ty aux w kids Nil) m1 → deletable m1 nx.
Proof.
  intros [H1 (_ & _ & _ & _ & _ & H2) H3 H4 (_ & _ & H5) H6 H7] [D1 D2 D3 D4 D5 D6].
  cbn [addrs buffers] in *. rewrite ?app_nil_r in *. apply NoDup_cons in H3 as [Ha (H3 & Hd & Hn)%NoDup_app].
  apply Forall_cons in H4 as [_ [_ H4]%Forall_app]. rewrite app_assoc in H6. apply NoDup_app in H6 as (H6 & Hd' & H6').
  rewrite not_elem_of_app in Ha. destruct Ha as [_ Ha]. split; try done.
  - eapply reprs_ext; [|exact H2]. intros b Hb. apply D3. apply not_elem_of_cons. split; [by intros ->|].
    intros Hk. by apply (Hd b).
  - intros p Hp. rewrite D4, bool_decide_eq_false_2; [|by intros Hp'; apply (Hd' p)]. apply H7.
    rewrite !elem_of_app. auto.
Qed.

Lemma deleteList_ok c : ∀ fuel, (length (addrs c) < fuel)%nat → delete_spec c fuel.
Proof.
  induction c as [|a ty aux w kids IHk nx IHn]; intros [|fuel] Hf m Hd; try lia.
  { exists m. split; [done|]. apply deleted_nil, Hd. }
  cbn [addrs length] in Hf. rewrite length_app in Hf. cbn [first_of deleteList].
  pose proof Hd as [Hok (H1 & H2 & (Ht & Hw & _) & _) _ Hy _ _ _]. cbn [addrs] in Hy. apply Forall_cons in Hy as [Hy _].
  rewrite (proj2 (Z.eqb_neq a NULL)), (proj2 (Z.eqb_neq a nilCell)) by (unfold NULL, nilCell; lia). cbn [orb].
  rewrite (cell_at_ok _ _ _ H1). cbn [mbind result_bind c_type].
  rewrite (proj2 (Z.eqb_neq a trueCell)), (proj2 (Z.eqb_neq ty CELL_FREE)), (proj2 (Z.eqb_neq ty CELL_FORWARD))
    by (done || unfold trueCell; lia). cbn [orb].
  rewrite (in_gen0 lo hi lim B _ _ Hok), Hy.
  destruct (old_deleted m a ty aux w kids nx fuel ltac:(lia) Hd (IHk fuel ltac:(lia))) as (m1 & E1 & D1).
  rewrite E1. cbn [mbind result_bind].
  destruct (IHn fuel ltac:(lia) m1 (deletable_next _ _ _ _ _ _ _ _ Hd D1)) as (m2 & E2 & D2).
  exists m2. split; [done|]. by eapply deleted_app.
Qed.

End Deleting.
