(* ===== verification/Copying.v ===== *)
(** * Copying lists (src/newlisp.c, [copyCell], [copyList])

    While the nursery has room, [copyCell] makes a list of the same data in fresh
    cells, with the last-element pointers and buffers of its own. *)

From stdpp Require Import base list numbers tactics gmap.
From Stdlib Require Import ZArith Lia.
From S2P Require Import Prelude Cell Nursery Evacuate Collect Lists Deleting.

#[global] Open Scope Z_scope.
#[local] Set Warnings "-clear-no-such-hyp".

(** Every buffer of the list is as long as its cell says. *)
Definition buffer_ok (H : gmap Z (list Z)) (type aux w : Z) (n : Z) (bytes : list Z) : Prop :=
  H !! w = Some bytes ∧ 0 ≤ n ≤ Z.of_nat (length bytes) ∧
  if type =? CELL_STRING then n = aux
  else if type =? CELL_BIGINT then n = aux * 4
  else ∃ k, strlen bytes = Ok k ∧ n = k + 1.

Fixpoint buffered (H : gmap Z (list Z)) (c : chain) : Prop :=
  match c with
  | Nil => True
  | At _ type aux w kids next =>
      (has_buffer type = true → ∃ n bytes, buffer_ok H type aux w n bytes) ∧ buffered H kids ∧ buffered H next
  end.

(** The [aux] of a copied envelope is the last element of its contents. *)
Definition list_aux (type aux : Z) (kids : chain) : Z :=
  if isEnvelope type then match kids with Nil => aux | At b _ _ _ _ next => last_addr b next end else aux.

(** Two lists with the same data: [c'] has buffers of its own in [H'], with the
    bytes that those of [c] have in [H]. *)
Fixpoint twin (H H' : gmap Z (list Z)) (c c' : chain) : Prop :=
  match c, c' with
  | Nil, Nil => True
  | At _ type aux w kids next, At _ type' aux' w' kids' next' =>
      type' = type ∧ aux' = list_aux type aux kids' ∧
      (if has_buffer type then
         ∃ n bytes, buffer_ok H type aux w n bytes ∧ H !! w' = None ∧ H' !! w' = Some (take (Z.to_nat n) bytes)
       else isEnvelope type = true ∨ w' = w) ∧
      twin H H' kids kids' ∧ twin H H' next next'
  | _, _ => False
  end.

Section Copying.
Variables (lo hi lim : Z) (B : gset Z).

#[local] Abbreviation mem_ok := (mem_ok lo hi lim B).

(** The memory has [n] places left in the nursery. *)
Record roomy (m : memory) (n : nat) : Prop := {
  rm_ok : mem_ok m;
  rm_ptr : lo ≤ gen0_ptr m;
  rm_room : gen0_ptr m + Z.of_nat n ≤ hi;
  rm_heap : ∀ p b, heap m !! p = Some b → p < brk m
}.

(** A list that can be copied: none of its cells is in the free part of the nursery. *)
Record source (m : memory) (c : chain) : Prop := {
  so_repr : reprs (cells m) c;
  so_below : ∀ a, a ∈ addrs c → a < gen0_ptr m ∨ hi ≤ a;
  so_code : uncompiled B c;
  so_buffers : buffered (heap m) c
}.

(** [n] more cells of the nursery are in use, and [q] may have changed. *)
Record grown (q : Z) (m : memory) (n : nat) (m' : memory) : Prop := {
  gr_roomy : ∀ k, roomy m (n + k) → roomy m' k;
  gr_ptr : gen0_ptr m' = gen0_ptr m + Z.of_nat n;
  gr_frame : ∀ x, x ≠ q → x < gen0_ptr m ∨ gen0_ptr m + Z.of_nat n ≤ x → cells m' !! x = cells m !! x;
  gr_heap : ∀ x b, heap m !! x = Some b → heap m' !! x = Some b;
  gr_rest : arrays m' = arrays m ∧ bytecodes m' = bytecodes m ∧ cellCount m' = cellCount m ∧
    firstFreeCell m' = firstFreeCell m
}.

Lemma grown_refl q m : grown q m 0 m.
Proof. split; [by intros k|lia|done|done|done]. Qed.

Lemma grown_trans q m n m1 k m2 : grown q m n m1 → grown q m1 k m2 → grown q m (n + k) m2.
Proof.
  intros [A1 A2 A3 A4 (A5 & A6 & A7 & A8)] [B1 B2 B3 B4 (B5 & B6 & B7 & B8)]. split.
  - intros j Hj. apply B1, A1. by rewrite Nat.add_assoc.
  - lia.
  - intros x Hq Hx. rewrite B3 by (done || lia). apply A3; [done|lia].
  - auto.
  - split_and!; congruence.
Qed.

(** A change of one of the new cells. *)
Lemma grown_inside q m n m1 p k m2 : grown q m n m1 → gen0_ptr m ≤ p < gen0_ptr m + Z.of_nat n →
  grown p m1 k m2 → grown q m (n + k) m2.
Proof.
  intros [A1 A2 A3 A4 (A5 & A6 & A7 & A8)] Hp [B1 B2 B3 B4 (B5 & B6 & B7 & B8)]. split.
  - intros j Hj. apply B1, A1. by rewrite Nat.add_assoc.
  - lia.
  - intros x Hq Hx. rewrite B3 by lia. apply A3; [done|lia].
  - auto.
  - split_and!; congruence.
Qed.

Lemma source_grown q m n m' c : source m c → q ∉ addrs c → grown q m n m' → gen0_ptr m + Z.of_nat n ≤ hi → source m' c.
Proof.
  intros [S1 S2 S3 S4] Hq [A1 A2 A3 A4 A5] Hn. split; [| |done|].
  - eapply reprs_ext; [|exact S1]. intros a Ha. apply A3; [by intros ->|]. destruct (S2 a Ha); [by left|right; lia].
  - intros a Ha. destruct (S2 a Ha); [left; lia|by right].
  - clear -S4 A4. induction c as [|a ty aux w kids IHk nx IHn]; [done|]. destruct S4 as (H1 & H2 & H3).
    split; [|split; [by apply IHk|by apply IHn]]. intros Hb. destruct (H1 Hb) as (n & bytes & H4 & H5).
    exists n, bytes. split; [by apply A4|done].
Qed.

Lemma source_kids m a ty aux w kids nx : source m (At a ty aux w kids nx) → source m kids.
Proof.
  intros [(_ & _ & _ & _ & S1 & _) S2 (_ & S3 & _) (_ & S4 & _)]. split; try done.
  intros x Hx. apply S2. right. apply elem_of_app. by left.
Qed.

Lemma source_next m a ty aux w kids nx : source m (At a ty aux w kids nx) → source m nx.
Proof.
  intros [(_ & _ & _ & _ & _ & S1) S2 (_ & _ & S3) (_ & _ & S4)]. split; try done.
  intros x Hx. apply S2. right. apply elem_of_app. by right.
Qed.

(** The copies are apart from what is in use, and stay as they are. *)
Lemma twin_grown H H0 H1 c : ∀ c', (∀ x b, H0 !! x = Some b → H1 !! x = Some b) → twin H H0 c c' → twin H H1 c c'.
Proof.
  induction c as [|a ty aux w kids IHk nx IHn]; intros [|a' ty' aux' w' kids' nx'] Hs; cbn; try done.
  intros (T1 & T2 & T3 & T4 & T5). split; [done|]. split; [done|]. split; [|split; [by apply IHk|by apply IHn]].
  destruct (has_buffer ty); [|done]. destruct T3 as (n & bytes & U1 & U2 & U3). exists n, bytes. auto.
Qed.

Lemma twin_from H H1 H' c : ∀ c', (∀ x b, H !! x = Some b → H1 !! x = Some b) → buffered H c →
  twin H1 H' c c' → twin H H' c c'.
Proof.
  induction c as [|a ty aux w kids IHk nx IHn]; intros [|a' ty' aux' w' kids' nx'] Hs Hb; cbn; try done.
  destruct Hb as (Hb1 & Hb2 & Hb3).
  intros (T1 & T2 & T3 & T4 & T5). split; [done|]. split; [done|]. split; [|split; [by apply IHk|by apply IHn]].
  destruct (has_buffer ty); [|done]. destruct T3 as (n & bytes & (U0 & U1) & U2 & U3).
  destruct (Hb1 eq_refl) as (n0 & b0 & V0 & V1). pose proof (Hs _ _ V0) as V0'. rewrite U0 in V0'. injection V0' as <-.
  exists n, bytes. split; [done|]. split; [|done]. destruct (H !! w') eqn:E; [|done]. apply Hs in E. congruence.
Qed.

(** ** Steps *)

Lemma roomy_le m n k : (k ≤ n)%nat → roomy m n → roomy m k.
Proof. intros Hk [R1 R2 R3 R4]. split; try done. lia. Qed.

Lemma new_place_ok gf a r m k : roomy m (S k) →
  new_place gf a r m = Ok (a, gen0_ptr m, r, set_gen0_ptr (gen0_ptr m + 1) m).
Proof.
  intros [R1 R2 R3 _]. unfold new_place, make_room. pose proof (mo_nursery _ _ _ _ _ R1).
  rewrite (proj2 (Z.eqb_neq _ _)) by (unfold NULL; lia). cbn [negb]. rewrite (mo_hi _ _ _ _ _ R1).
  by rewrite (proj2 (Z.leb_gt _ _)) by lia.
Qed.

Lemma written_grown m c q : gen0_ptr m < hi →
  grown q m 1 (set_cells (<[gen0_ptr m := c]> (cells m)) (set_gen0_ptr (gen0_ptr m + 1) m)).
Proof.
  intros Hp. split; try done.
  - intros k [R1 R2 R3 R4]. split; cbn [gen0_ptr set_cells set_gen0_ptr heap brk]; try done; try lia.
    by apply mem_ok_young.
  - intros x _ Hx. cbn [cells set_cells]. apply lookup_insert_ne. lia.
Qed.

Lemma put_grown p f m c k : roomy m k → cells m !! p = Some c → c_type c ≠ CELL_FREE → ∃ m',
  put p f m = Ok m' ∧ grown p m 0 m' ∧ cells m' = <[p := f c]> (cells m) ∧ heap m' = heap m ∧ brk m' = brk m.
Proof.
  intros [R1 R2 R3 R4] Hp Ht. destruct (put_ok lo hi lim B m p f c R1 Hp Ht) as (m' & E & Hok & Hc & _).
  rewrite (put_run _ _ _ _ Hp) in E. injection E as <-. eexists. split; [by apply put_run|]. split; [|done].
  split; try done.
  - intros j [Q1 Q2 Q3 Q4]. by split.
  - cbn [gen0_ptr set_cells]. lia.
  - intros x Hx _. by apply lookup_insert_ne.
Qed.

Lemma copy_buffer_ok m k ty nxt aux w n bytes q : roomy m k → has_buffer ty = true → buffer_ok (heap m) ty aux w n bytes →
  buffer_size (CellOf ty nxt aux w) m = Ok n ∧
  ∃ m', copy_buffer w n m = Ok (brk m, m') ∧ grown q m 0 m' ∧ cells m' = cells m ∧
    heap m !! brk m = None ∧ heap m' !! brk m = Some (take (Z.to_nat n) bytes).
Proof.
  intros [R1 R2 R3 R4] Hb (H1 & H2 & H3). split.
  - unfold buffer_size. cbn [c_type c_aux c_contents]. destruct (ty =? CELL_STRING); [by rewrite H3|].
    destruct (ty =? CELL_BIGINT); [by rewrite H3|]. rewrite H1. destruct H3 as (j & E & ->). cbn [mbind result_bind].
    by rewrite E.
  - unfold copy_buffer. rewrite H1. rewrite (proj2 (Z.leb_le 0 n)), (proj2 (Z.leb_le n _)) by lia. cbn [andb].
    eexists. split; [reflexivity|].
    assert (Hf : heap m !! brk m = None).
    { destruct (heap m !! brk m) as [b|] eqn:E; [|done]. apply R4 in E. lia. }
    split; [|split; [done|split; [done|]]].
    + split; cbn [gen0_ptr cells heap set_brk set_heap]; try done; try lia.
      * intros j [[K1 K2 K3 [K4 K4'] K5 K6 K7 K8 K9 K10] Q2 Q3 Q4]. split; try done.
        -- split; cbn [cells set_brk set_heap firstFreeCell brk]; try done; try lia.
           intros a c Ha. pose proof (K3 a c Ha). lia.
        -- cbn [heap set_brk set_heap brk]. intros p b. rewrite lookup_insert_Some. intros [[<- _]|[_ Hp]]; [lia|].
           apply Q4 in Hp. lia.
      * intros x b Hx. rewrite lookup_insert_ne; [done|]. intros <-. congruence.
    + cbn [heap set_brk set_heap]. apply lookup_insert_eq.
Qed.

(** ** What is to show *)

Variable gf : nat.

(** The first element, without those behind it. *)
Definition one_spec (c : chain) (fuel : nat) : Prop :=
  match c with
  | Nil => True
  | At a ty aux w kids nx =>
      ∀ r m, roomy m (S (length (addrs kids))) → source m c → last (resultStack r) ≠ Some a →
        let p := gen0_ptr m in
        ∃ m' w' kids', copyCell gf fuel a r m = Ok (p, r, m') ∧
          (∀ q, grown q m (S (length (addrs kids))) m') ∧
          reprs (cells m') (At p ty (list_aux ty aux kids') w' kids' Nil) ∧
          twin (heap m) (heap m') (At a ty aux w kids Nil) (At p ty (list_aux ty aux kids') w' kids' Nil) ∧
          addrs kids' = seqZ (p + 1) (Z.of_nat (length (addrs kids)))
  end.

(** The list [c] behind the cell [a], copied behind the cell [q]. *)
Definition rest_spec (c : chain) (fuel : nat) : Prop :=
  ∀ fuel2 a q ca qc r m, (length (addrs c) < fuel2)%nat → roomy m (length (addrs c)) → source m c →
    cells m !! a = Some ca → c_next ca = first_of c → cells m !! q = Some qc → c_type qc ≠ CELL_FREE →
    c_next qc = nilCell → q ∉ addrs c → q < gen0_ptr m → (∀ x, x ∈ addrs c → last (resultStack r) ≠ Some x) →
    ∃ m' c', copy_rest (copyCell gf fuel) fuel2 a q r m = Ok (last_addr q c', r, m') ∧
      grown q m (length (addrs c)) m' ∧ cells m' !! q = Some (set_next (first_of c') qc) ∧
      reprs (cells m') c' ∧ twin (heap m) (heap m') c c' ∧
      addrs c' = seqZ (gen0_ptr m) (Z.of_nat (length (addrs c))).

Lemma rest_nil fuel : rest_spec Nil fuel.
Proof.
  intros [|fuel2] a q ca qc r m Hf Hr Hs Ha Hn Hq Ht Hqn _ _ _; [cbn in Hf; lia|].
  exists m, Nil. cbn [copy_rest]. rewrite (cell_at_ok _ _ _ Ha). cbn [mbind result_bind]. rewrite Hn. cbn [first_of].
  rewrite Z.eqb_refl. split; [done|]. split; [apply grown_refl|]. split; [|done].
  rewrite Hq. f_equal. by destruct qc; cbn in *; subst.
Qed.

(** The addresses of a copy are new. *)
Lemma seq_new (c' : chain) p n x : addrs c' = seqZ p (Z.of_nat n) → x ∈ addrs c' → p ≤ x < p + Z.of_nat n.
Proof. intros E Hx. rewrite E in Hx. apply elem_of_seqZ in Hx. lia. Qed.

Lemma length_seq (c' : chain) p n : addrs c' = seqZ p (Z.of_nat n) → length (addrs c') = n.
Proof. intros ->. rewrite length_seqZ. lia. Qed.

Lemma seq_join p k n : p :: seqZ (p + 1) (Z.of_nat k) ++ seqZ (p + Z.of_nat (S k)) (Z.of_nat n) =
  seqZ p (Z.of_nat (S (k + n))).
Proof.
  rewrite (seqZ_cons p) by lia. f_equal.
  replace (Z.pred (Z.of_nat (S (k + n)))) with (Z.of_nat k + Z.of_nat n) by lia.
  rewrite seqZ_app by lia. do 2 f_equal; lia.
Qed.

Lemma rest_step a0 ty aux w kids nx fuel : one_spec (At a0 ty aux w kids nx) fuel → rest_spec nx fuel →
  rest_spec (At a0 ty aux w kids nx) fuel.
Proof.
  intros Hone Hrest [|fuel2] a q ca qc r m Hf Hr Hs Ha Hn Hq Ht Hqn Hqc Hqp Htop; [lia|].
  cbn [addrs length] in Hf, Hr, Hqc, Htop. rewrite length_app in Hf, Hr.
  pose proof Hs as [(H1 & H2 & H3 & H4 & H5 & H6) S2 _ _].
  cbn [copy_rest]. rewrite (cell_at_ok _ _ _ Ha). cbn [mbind result_bind]. rewrite Hn. cbn [first_of].
  rewrite (proj2 (Z.eqb_neq a0 _)) by (unfold nilCell; lia).
  destruct (Hone r m) as (m1 & w' & kids' & E1 & G1 & P1 & T1 & A1).
  { eapply roomy_le; [|exact Hr]. lia. } { done. } { apply Htop. by left. }
  rewrite E1. cbn [mbind result_bind]. set (p := gen0_ptr m) in *.
  set (n1 := S (length (addrs kids))) in *. assert (Hn1 : (0 < n1)%nat) by (unfold n1; lia). set (n2 := length (addrs nx)) in *.
  assert (Hr1 : roomy m1 n2) by (apply (gr_roomy _ _ _ _ (G1 q)); eapply roomy_le; [|exact Hr]; lia).
  pose proof (gr_ptr _ _ _ _ (G1 q)) as Hp1. fold p in Hp1.
  pose proof (rm_room _ _ Hr) as Hroom. fold p in Hroom.
  assert (Hq1 : cells m1 !! q = Some qc) by (rewrite (gr_frame _ _ _ _ (G1 (q + 1))); [done|lia|left; lia]).
  destruct (put_grown q (set_next p) m1 qc _ Hr1 Hq1 Ht) as (m2 & E2 & G2 & C2 & Hh2 & _).
  rewrite E2. cbn [mbind result_bind].
  pose proof (grown_trans _ _ _ _ _ _ (G1 q) G2) as G12. rewrite Nat.add_0_r in G12.
  apply not_elem_of_cons in Hqc as [Hqa [Hqk Hqn']%not_elem_of_app].
  destruct P1 as (P11 & P12 & P13 & P14 & P15 & _). cbn [first_of] in P11.
  assert (Hs2 : source m2 nx) by (eapply source_grown; [by eapply source_next|exact Hqn'|exact G12|lia]).
  assert (Ha2 : cells m2 !! a0 = Some (CellOf ty (first_of nx) aux (word_of ty w kids))).
  { rewrite (gr_frame _ _ _ _ G12); [done|done|]. destruct (S2 a0) as [|]; [by left|lia|right; lia]. }
  pose proof (gr_ptr _ _ _ _ G12) as Hp2. fold p in Hp2.
  assert (Hp2c : cells m2 !! p = Some (CellOf ty nilCell (list_aux ty aux kids') (word_of ty w' kids'))).
  { rewrite C2, lookup_insert_ne by lia. exact P11. }
  assert (Hnp : p ∉ addrs nx).
  { intros Hin. destruct (S2 p) as [|]; [right; apply elem_of_app; by right|lia|lia]. }
  destruct (Hrest fuel2 a0 p _ _ r m2 ltac:(lia) (gr_roomy _ _ _ _ G2 _ Hr1) Hs2 Ha2 eq_refl Hp2c (proj1 P13) eq_refl Hnp)
    as (m3 & nx' & E3 & G3 & Q3 & R3 & T3 & A3); [lia|by intros x Hx; apply Htop; right; apply elem_of_app; right|].
  exists m3, (At p ty (list_aux ty aux kids') w' kids' nx').
  assert (G : grown q m (n1 + n2) m3) by (apply (grown_inside q m n1 m2 p n2 m3 G12); [fold p; lia|exact G3]).
  fold n2 in G3.
  split; [exact E3|]. cbn [addrs length]. rewrite length_app. split; [exact G|].
  split.
  { rewrite (gr_frame _ _ _ _ G3); [by rewrite C2, lookup_insert_eq|lia|lia]. }
  split.
  { cbn [reprs]. split; [rewrite Q3; by destruct nx'|]. split; [done|]. split; [done|]. split; [done|]. split; [|done].
    eapply reprs_ext; [|exact P15]. intros x Hx. pose proof (seq_new _ _ _ _ A1 Hx).
    rewrite (gr_frame _ _ _ _ G3) by lia. rewrite C2. apply lookup_insert_ne. lia. }
  split.
  { cbn [twin] in T1 |- *. destruct T1 as (T11 & T12 & T13 & T14 & _). do 2 (split; [done|]).
    assert (Hg : ∀ x b, heap m1 !! x = Some b → heap m3 !! x = Some b).
    { intros x b Hx. apply (gr_heap _ _ _ _ G3). by rewrite Hh2. }
    split; [|split].
    - destruct (has_buffer ty); [|done]. destruct T13 as (n & bytes & U1 & U2 & U3). exists n, bytes. auto.
    - by eapply twin_grown.
    - apply (twin_from (heap m) (heap m2)); [apply G12|apply Hs|done]. }
  rewrite A1, A3, Hp2. unfold n1. apply seq_join.
Qed.

Definition tail_of (c : chain) : chain := match c with Nil => Nil | At _ _ _ _ _ next => next end.

Lemma pop_push v r : popResult (pushResult v r) = r.
Proof.
  unfold popResult, pushResult, set_result. cbn. rewrite removelast_app by done. cbn. rewrite app_nil_r. by destruct r.
Qed.

(** The elements of an envelope at [a], which is being copied to [p]. *)
Lemma elements_ok a p ty aux w kids nx fuel r m : one_spec kids fuel → rest_spec (tail_of kids) fuel →
  (length (addrs kids) < fuel)%nat → kids ≠ Nil → isEnvelope ty = true → plain_type ty → (ty = CELL_LAMBDA → aux ∉ B) →
  roomy m (length (addrs kids)) → source m (At a ty aux w kids nx) → NULL < p < gen0_ptr m → a ≠ p → p ∉ addrs kids →
  cells m !! p = Some (CellOf ty nilCell aux (first_of kids)) →
  ∃ m' kids', copy_elements (copyCell gf fuel) fuel a p r m = Ok (r, m') ∧ grown p m (length (addrs kids)) m' ∧
    cells m' !! p = Some (CellOf ty nilCell (list_aux ty aux kids') (first_of kids')) ∧ reprs (cells m') kids' ∧
    twin (heap m) (heap m') kids kids' ∧ addrs kids' = seqZ (gen0_ptr m) (Z.of_nat (length (addrs kids))).
Proof.
  intros Hone Hrest Hf Hk He Hty Hcode Hr Hs Hp Hap Hpk Hcp.
  pose proof Hs as [(H1 & H2 & _ & _ & H5 & _) S2 _ _]. pose proof (source_kids _ _ _ _ _ _ _ Hs) as Hsk.
  unfold word_of in H1. rewrite He in H1. unfold copy_elements. rewrite (cell_at_ok _ _ _ H1).
  cbn [mbind result_bind c_type c_aux c_contents].
  assert (Hbc : (ty =? CELL_LAMBDA) && negb (aux =? 0) && negb (aux =? nilCell) && bool_decide (aux ∈ dom (bytecodes m)) = false).
  { rewrite (mo_bytecodes _ _ _ _ _ (rm_ok _ _ Hr)). destruct (Z.eqb_spec ty CELL_LAMBDA) as [->|]; [|done].
    rewrite (bool_decide_eq_false_2 (aux ∈ B)) by by apply Hcode. by rewrite andb_false_r. }
  rewrite Hbc. destruct kids as [|b tb xb wb kb nb]; [done|]. cbn [first_of tail_of] in *.
  cbn [addrs length] in Hr, Hf. rewrite length_app in Hr, Hf.
  assert (Htop : ∀ x, x ∈ addrs (At b tb xb wb kb nb) → last (resultStack (pushResult p r)) ≠ Some x).
  { intros x Hx. unfold pushResult. cbn. rewrite last_snoc. intros [= ->]. done. }
  destruct (Hone (pushResult p r) m) as (m1 & w' & kb' & E1 & G1 & P1 & T1 & A1).
  { eapply roomy_le; [|exact Hr]. lia. } { done. } { apply Htop. by left. }
  rewrite E1. cbn [mbind result_bind]. set (p2 := gen0_ptr m) in *. set (n1 := S (length (addrs kb))) in *.
  assert (Hn1 : (0 < n1)%nat) by (unfold n1; lia). set (n2 := length (addrs nb)) in *.
  assert (Hr1 : roomy m1 n2) by (apply (gr_roomy _ _ _ _ (G1 p)); exact Hr).
  assert (Hp1 : gen0_ptr m1 = p2 + Z.of_nat n1) by apply (gr_ptr _ _ _ _ (G1 p)).
  assert (Hroom : p2 + Z.of_nat (n1 + n2) ≤ hi) by apply (rm_room _ _ Hr).
  assert (Hcp1 : cells m1 !! p = Some (CellOf ty nilCell aux b)).
  { rewrite (gr_frame _ _ _ _ (G1 (p + 1))); [done|lia|left; lia]. }
  destruct (put_grown p (set_cell_contents p2) m1 _ _ Hr1 Hcp1 (proj1 Hty)) as (m2 & E2 & G2 & C2 & Hh2 & _).
  rewrite E2. cbn [mbind result_bind].
  pose proof (grown_trans _ _ _ _ _ _ (G1 p) G2) as G12. rewrite Nat.add_0_r in G12.
  assert (Hp2 : gen0_ptr m2 = p2 + Z.of_nat n1) by apply (gr_ptr _ _ _ _ G12).
  assert (Ha2 : cells m2 !! a = Some (CellOf ty (first_of nx) aux b)).
  { rewrite (gr_frame _ _ _ _ G12); [done|done|]. destruct (S2 a) as [|]; [by left|lia|right; lia]. }
  rewrite (cell_at_ok _ _ _ Ha2). cbn [mbind result_bind c_contents].
  pose proof P1 as (P11 & P12 & P13 & P14 & P15 & _). cbn [first_of] in P11.
  pose proof H5 as (H51 & H52 & _ & _ & _ & H56).
  apply not_elem_of_cons in Hpk as [Hpb [Hpkb Hpnb]%not_elem_of_app].
  assert (Hs2 : source m2 nb) by (eapply source_grown; [by eapply source_next|exact Hpnb|exact G12|fold p2; lia]).
  assert (Hb2 : cells m2 !! b = Some (CellOf tb (first_of nb) xb (word_of tb wb kb))).
  { rewrite (gr_frame _ _ _ _ G12); [done|done|].
    destruct (so_below _ _ Hsk b) as [|]; [by left|by left|right; fold p2; lia]. }
  assert (Hp22 : cells m2 !! p2 = Some (CellOf tb nilCell (list_aux tb xb kb') (word_of tb w' kb'))).
  { rewrite C2, lookup_insert_ne by lia. exact P11. }
  assert (Hnp : p2 ∉ addrs nb).
  { intros Hin. destruct (so_below _ _ Hsk p2) as [|]; [right; apply elem_of_app; by right|fold p2 in H; lia|lia]. }
  destruct (Hrest fuel b p2 _ _ (pushResult p r) m2 ltac:(lia) (gr_roomy _ _ _ _ G2 _ Hr1) Hs2 Hb2 eq_refl Hp22
    (proj1 P13) eq_refl Hnp) as (m3 & nb' & E3 & G3 & Q3 & R3 & T3 & A3).
  { lia. } { intros x Hx. apply Htop. right. apply elem_of_app. by right. }
  rewrite E3. cbn [mbind result_bind].
  assert (Hp3 : cells m3 !! p = Some (CellOf ty nilCell aux p2)).
  { rewrite (gr_frame _ _ _ _ G3) by lia. by rewrite C2, lookup_insert_eq. }
  rewrite (cell_at_ok _ _ _ Hp3). cbn [mbind result_bind].
  assert (Hr3 : roomy m3 0). { apply (gr_roomy _ _ _ _ G3). rewrite Nat.add_0_r. by apply (gr_roomy _ _ _ _ G2). }
  destruct (put_grown p (set_aux (last_addr p2 nb')) m3 _ _ Hr3 Hp3 (proj1 Hty)) as (m4 & E4 & G4 & C4 & Hh4 & _).
  rewrite E4. cbn [mbind result_bind]. rewrite pop_push.
  assert (G : grown p m (n1 + n2) m3) by (apply (grown_inside p m n1 m2 p2 n2 m3 G12); [fold p2; lia|exact G3]).
  pose proof (grown_trans _ _ _ _ _ _ G G4) as G'. rewrite Nat.add_0_r in G'.
  exists m4, (At p2 tb (list_aux tb xb kb') w' kb' nb'). split; [done|]. cbn [addrs length]. rewrite length_app.
  split; [exact G'|]. split.
  { rewrite C4, lookup_insert_eq. cbn [set_aux c_type c_next c_contents first_of]. unfold list_aux. by rewrite He. }
  assert (Hnew : ∀ x, p2 ≤ x → cells m4 !! x = cells m3 !! x) by (intros x Hx; rewrite C4; apply lookup_insert_ne; lia).
  split.
  { cbn [reprs]. split; [rewrite Hnew, Q3 by lia; by destruct nb'|]. do 3 (split; [done|]). split.
    - eapply reprs_ext; [|exact P15]. intros x Hx. pose proof (seq_new _ _ _ _ A1 Hx).
      rewrite Hnew, (gr_frame _ _ _ _ G3), C2 by lia. apply lookup_insert_ne. lia.
    - eapply reprs_ext; [|exact R3]. intros x Hx. pose proof (seq_new _ _ _ _ A3 Hx). apply Hnew. lia. }
  split.
  { cbn [twin] in T1 |- *. destruct T1 as (T11 & T12 & T13 & T14 & _). do 2 (split; [done|]). rewrite Hh4.
    assert (Hg : ∀ x bs, heap m1 !! x = Some bs → heap m3 !! x = Some bs).
    { intros x bs Hx. apply (gr_heap _ _ _ _ G3). by rewrite Hh2. }
    split; [|split].
    - destruct (has_buffer tb); [|done]. destruct T13 as (n & bytes & U1 & U2 & U3). exists n, bytes. auto.
    - by eapply twin_grown.
    - apply (twin_from (heap m) (heap m2)); [apply G12|apply Hsk|done]. }
  rewrite A1, A3, Hp2. unfold n1. apply seq_join.
Qed.

Lemma one_step a ty aux w kids nx fuel : one_spec kids fuel → rest_spec (tail_of kids) fuel →
  (length (addrs kids) < fuel)%nat → one_spec (At a ty aux w kids nx) (S fuel).
Proof.
  intros Hone Hrest Hf r m Hr Hs Htop p. cbn [copyCell]. pose proof Hs as [(H1 & H2 & H3 & H4 & H5 & _) S2 (Hcode & _) (Hbuf & _)].
  unfold on_top. rewrite bool_decide_eq_false_2 by done. cbn [andb].
  rewrite (new_place_ok _ _ _ _ _ Hr). cbn [mbind result_bind]. fold p.
  rewrite (cell_at_ok (set_gen0_ptr (p + 1) m) a _ H1). cbn [mbind result_bind c_type c_aux c_contents].
  change (cells (set_gen0_ptr (p + 1) m)) with (cells m).
  set (m1 := set_cells (<[p := CellOf ty nilCell aux (word_of ty w kids)]> (cells m)) (set_gen0_ptr (p + 1) m)).
  pose proof (rm_room _ _ Hr) as Hroom. fold p in Hroom.
  assert (G1 : ∀ q, grown q m 1 m1) by (intros q; apply written_grown; fold p; lia).
  assert (Hr1 : roomy m1 (length (addrs kids))) by by apply (gr_roomy _ _ _ _ (G1 0)).
  assert (Hc1 : cells m1 !! p = Some (CellOf ty nilCell aux (word_of ty w kids))) by apply lookup_insert_eq.
  assert (Hp2 : 2 < p) by (pose proof (mo_nursery _ _ _ _ _ (rm_ok _ _ Hr)); pose proof (rm_ptr _ _ Hr); unfold p; lia).
  destruct H3 as (Hfree & Hfwd & Harr).
  destruct (isEnvelope ty) eqn:He.
  - assert (Hb : has_buffer ty = false).
    { destruct (has_buffer ty) eqn:Hb; [|done]. apply has_buffer_plain in Hb. congruence. }
    rewrite (proj2 (Z.eqb_neq _ _) Harr). unfold word_of in *. rewrite He in *.
    assert (Hk : kids = Nil ∨ kids ≠ Nil) by (destruct kids; [by left|by right]). destruct Hk as [->|Hk].
    { cbn [first_of]. rewrite Z.eqb_refl. exists m1, 0, Nil. split; [done|]. split; [apply G1|].
      unfold list_aux. rewrite He. split; [|split; [|done]].
      - cbn [reprs first_of]. unfold word_of. rewrite He. split; [exact Hc1|]. done.
      - cbn [twin]. rewrite Hb. split; [done|]. unfold list_aux. rewrite He. auto. }
    assert (Hnil : (first_of kids =? nilCell) = false).
    { destruct kids as [|b ? ? ? ? ?]; [done|]. destruct H5 as (_ & Hb2 & _). apply Z.eqb_neq. cbn. unfold nilCell. lia. }
    rewrite Hnil.
    assert (Hpa : p ∉ addrs (At a ty aux w kids nx)).
    { intros Hin. destruct (S2 p Hin) as [|]; [fold p in H; lia|lia]. }
    assert (Hs1 : source m1 (At a ty aux w kids nx)).
    { apply (source_grown p m 1); [done|exact Hpa|apply G1|fold p; lia]. }
    cbn [addrs] in Hpa. apply not_elem_of_cons in Hpa as [Hpa [Hpk _]%not_elem_of_app].
    destruct (elements_ok a p ty aux w kids nx fuel r m1) as (m2 & kids' & E2 & G2 & C2 & R2 & T2 & A2); try done.
    { cbn. unfold NULL. lia. }
    rewrite E2. cbn [mbind result_bind]. exists m2, 0, kids'. split; [done|].
    assert (Hg : gen0_ptr m1 = p + 1) by done. rewrite Hg in A2. split.
    { intros q. apply (grown_inside q m 1 m1 p _ m2); [apply G1|fold p; lia|exact G2]. }
    split; [|split; [|done]].
    + cbn [reprs first_of]. unfold word_of. rewrite He. split; [exact C2|]. split; [done|]. split; [done|]. done.
    + cbn [twin]. rewrite Hb. split; [done|]. split; [done|]. split; [by left|]. split; [|done]. exact T2.
  - rewrite (H4 eq_refl) in *. unfold word_of in *. rewrite He in *. destruct (has_buffer ty) eqn:Hb.
    + destruct (Hbuf eq_refl) as (n & bytes & Hn).
      destruct (copy_buffer_ok m1 _ ty (first_of nx) aux w n bytes p Hr1 Hb Hn) as (Hsz & m2 & E2 & G2 & C2 & F2 & N2).
      rewrite Hsz. cbn [mbind result_bind]. rewrite E2. cbn [mbind result_bind].
      assert (Hc2 : cells m2 !! p = Some (CellOf ty nilCell aux w)) by by rewrite C2.
      destruct (put_grown p (set_cell_contents (brk m1)) m2 _ _ (gr_roomy _ _ _ _ G2 _ Hr1) Hc2 Hfree)
        as (m3 & E3 & G3 & C3 & Hh3 & _).
      rewrite E3. cbn [mbind result_bind]. exists m3, (brk m1), Nil. split; [done|]. split.
      { intros q. apply (grown_inside q m 1 m2 p 0 m3); [|fold p; lia|exact G3].
        apply (grown_inside q m 1 m1 p 0 m2); [apply G1|fold p; lia|exact G2]. }
      unfold list_aux. rewrite He. split; [|split; [|done]].
      * cbn [reprs first_of]. unfold word_of. rewrite He. split; [by rewrite C3, lookup_insert_eq|]. done.
      * cbn [twin]. unfold list_aux. rewrite He, Hb. split; [done|]. split; [done|]. split; [|done].
        exists n, bytes. split; [exact Hn|]. split; [exact F2|]. by rewrite Hh3.
    + exists m1, w, Nil. split; [done|]. split; [apply G1|]. unfold list_aux. rewrite He. split; [|split; [|done]].
      * cbn [reprs first_of]. unfold word_of. rewrite He. split; [exact Hc1|]. done.
      * cbn [twin]. unfold list_aux. rewrite He, Hb. auto.
Qed.

(** ** Lists *)

Lemma copy_specs c : ∀ fuel, (length (addrs c) < fuel)%nat →
  one_spec c fuel ∧ rest_spec c fuel ∧ rest_spec (tail_of c) fuel.
Proof.
  induction c as [|a ty aux w kids IHk nx IHn]; intros fuel Hf; [split; [done|split; apply rest_nil]|].
  cbn [addrs length] in Hf. rewrite length_app in Hf.
  destruct (IHn fuel ltac:(lia)) as (_ & Hr & _).
  assert (Ho : one_spec (At a ty aux w kids nx) fuel).
  { destruct fuel as [|fuel]; [lia|]. destruct (IHk fuel ltac:(lia)) as (Ho & _ & Ht). by apply one_step; [..|lia]. }
  split; [exact Ho|]. split; [by apply rest_step|exact Hr].
Qed.

(** An element with all it contains. *)
Lemma copyCell_ok a ty aux w kids nx fuel r m : (length (addrs (At a ty aux w kids nx)) < fuel)%nat →
  roomy m (S (length (addrs kids))) → source m (At a ty aux w kids nx) → last (resultStack r) ≠ Some a →
  let p := gen0_ptr m in
  ∃ m' w' kids', copyCell gf fuel a r m = Ok (p, r, m') ∧
    (∀ q, grown q m (S (length (addrs kids))) m') ∧
    reprs (cells m') (At p ty (list_aux ty aux kids') w' kids' Nil) ∧
    twin (heap m) (heap m') (At a ty aux w kids Nil) (At p ty (list_aux ty aux kids') w' kids' Nil) ∧
    addrs kids' = seqZ (p + 1) (Z.of_nat (length (addrs kids))).
Proof. intros Hf. apply (copy_specs (At a ty aux w kids nx) fuel Hf). Qed.

(** [copyList] copies the elements, without an envelope. *)
Lemma copyList_ok a ty aux w kids nx fuel r m : let c := At a ty aux w kids nx in
  (length (addrs c) < fuel)%nat → roomy m (length (addrs c)) → source m c →
  (∀ x, x ∈ addrs c → last (resultStack r) ≠ Some x) →
  ∃ m' c', copyList gf fuel a r m =
      Ok (first_of c', set_registers (<[1%nat := last_addr a c']> (registers r)) r, m') ∧
    (∀ q, grown q m (length (addrs c)) m') ∧ reprs (cells m') c' ∧ twin (heap m) (heap m') c c' ∧
    addrs c' = seqZ (gen0_ptr m) (Z.of_nat (length (addrs c))).
Proof.
  intros c Hf Hr Hs Htop. pose proof Hs as [(H1 & H2 & _ & _ & _ & _) S2 _ _].
  destruct (copy_specs c fuel Hf) as (Hone & _ & Hrest). change (rest_spec nx fuel) in Hrest. unfold copyList.
  cbn [tail_of addrs length] in *. unfold c in Hr, Hf |- *. cbn [addrs length] in Hr, Hf |- *. rewrite length_app in Hr, Hf |- *.
  rewrite (proj2 (Z.eqb_neq a nilCell)) by (unfold nilCell; lia).
  destruct (Hone r m) as (m1 & w' & kids' & E1 & G1 & P1 & T1 & A1).
  { eapply roomy_le; [|exact Hr]. lia. } { done. } { apply Htop. by left. }
  rewrite E1. cbn [mbind result_bind]. set (p := gen0_ptr m) in *.
  set (n1 := S (length (addrs kids))) in *. assert (Hn1 : (0 < n1)%nat) by (unfold n1; lia). set (n2 := length (addrs nx)) in *.
  pose proof (rm_room _ _ Hr) as Hroom. fold p in Hroom.
  assert (Hnew : ∀ x, x ∈ addrs c → x ≠ p) by (intros x Hx ->; destruct (S2 p Hx); [fold p in H; lia|lia]).
  assert (Hr1 : roomy m1 n2) by (apply (gr_roomy _ _ _ _ (G1 p)); exact Hr).
  assert (Hp1 : gen0_ptr m1 = p + Z.of_nat n1) by apply (gr_ptr _ _ _ _ (G1 p)).
  assert (Hs1 : source m1 nx).
  { apply (source_grown p m n1); [by eapply source_next| |apply G1|fold p; lia].
    intros Hin. apply (Hnew p); [right; apply elem_of_app; by right|done]. }
  assert (Ha1 : cells m1 !! a = Some (CellOf ty (first_of nx) aux (word_of ty w kids))).
  { rewrite (gr_frame _ _ _ _ (G1 p)); [done|apply Hnew; by left|]. destruct (S2 a) as [|]; [by left|by left|right; lia]. }
  pose proof P1 as (P11 & P12 & P13 & P14 & P15 & _). cbn [first_of] in P11.
  destruct (Hrest fuel a p _ _ (pushResult p r) m1 ltac:(lia) Hr1 Hs1 Ha1 eq_refl P11 (proj1 P13) eq_refl)
    as (m3 & nx' & E3 & G3 & Q3 & R3 & T3 & A3).
  { intros Hin. apply (Hnew p); [right; apply elem_of_app; by right|done]. } { lia. }
  { intros x Hx. unfold pushResult. cbn. rewrite last_snoc. intros [= <-]. apply (Hnew p); [right; apply elem_of_app; by right|done]. }
  rewrite E3. cbn [mbind result_bind]. rewrite pop_push.
  exists m3, (At p ty (list_aux ty aux kids') w' kids' nx'). split; [done|]. split.
  { intros q. apply (grown_inside q m n1 m1 p n2 m3); [apply G1|fold p; lia|exact G3]. }
  split.
  { cbn [reprs]. split; [rewrite Q3; by destruct nx'|]. do 3 (split; [done|]). split; [|done].
    eapply reprs_ext; [|exact P15]. intros x Hx. pose proof (seq_new _ _ _ _ A1 Hx). apply (gr_frame _ _ _ _ G3); lia. }
  split.
  { cbn [twin] in T1 |- *. destruct T1 as (T11 & T12 & T13 & T14 & _). do 2 (split; [done|]).
    split; [|split].
    - destruct (has_buffer ty); [|done]. destruct T13 as (n & bytes & U1 & U2 & U3). exists n, bytes.
      split; [done|]. split; [done|]. by apply (gr_heap _ _ _ _ G3).
    - eapply twin_grown; [|exact T14]. apply G3.
    - apply (twin_from (heap m) (heap m1)); [apply (G1 p)|apply Hs|done]. }
  cbn [addrs]. rewrite A1, A3, Hp1. unfold n1. apply seq_join.
Qed.

End Copying.
