(* ===== verification/Storage.v ===== *)
(** * Copying and deleting lists (src/newlisp.c, [copyList], [copyCell], [deleteList])

    The theorems about both, and where copying goes wrong. *)

From stdpp Require Import base list numbers tactics gmap.
From Stdlib Require Import ZArith Lia.
From S2P Require Import Prelude Cell Nursery Evacuate Collect Lists Deleting Copying.

#[global] Open Scope Z_scope.

(** ** A list with a string: [((7) abc)], outside of the nursery *)

Definition text_cells : gmap Z cell :=
  list_to_map [(1, CellOf CELL_NIL 1 1 1); (2, CellOf CELL_TRUE 1 1 1);
               (3, CellOf CELL_EXPRESSION 1 5 4); (4, CellOf CELL_EXPRESSION 5 6 6); (5, CellOf CELL_STRING 1 4 20);
               (6, CellOf CELL_LONG 1 1 7); (7, free_cell 8); (8, free_cell NULL)].

Definition text_memory : memory :=
  Memory text_cells 7 6 100000 [] 120 100 100 110 ∅ {[20 := [97; 98; 99; 0]]} ∅.

Definition text_list : chain :=
  At 3 CELL_EXPRESSION 5 0 (At 4 CELL_EXPRESSION 6 0 (At 6 CELL_LONG 1 7 Nil Nil) (At 5 CELL_STRING 4 20 Nil Nil)) Nil.

Definition text_roots : roots := Nursery.Roots ∅ 0 0 0 0 [] [1] [] [0; 0; 0; 0; 0] [].

Lemma text_ok : mem_ok 100 110 100000 ∅ text_memory.
Proof.
  split; try done.
  - exists [7; 8]. split; [|apply (bool_decide_unpack _); by vm_compute].
    cbn [free_list].
    repeat (split; [reflexivity|split; [lia|split; [reflexivity|eexists; split; [reflexivity|split; [reflexivity|]]]]]).
    reflexivity.
  - intros a c. apply (bool_decide_unpack (map_Forall (λ a _, a < 120) text_cells)). by vm_compute.
Qed.

Lemma text_repr : reprs (cells text_memory) text_list.
Proof. cbn. repeat split; try done; lia. Qed.

(** ** Deletion *)

(** C12: [deleteList] on a list outside of the nursery always ends and puts every cell
    of the list, at any depth, on the free list, once each; it frees exactly the
    buffers of the strings, names and big integers in the list and changes no other
    cell and no other buffer. *)
Theorem deleteList_frees lo hi lim B m c fuel : deletable lo hi lim B m c → (length (addrs c) < fuel)%nat →
  ∃ m', deleteList fuel (first_of c) m = Ok m' ∧ mem_ok lo hi lim B m' ∧
    (∀ l, free_list lo hi (cells m) (firstFreeCell m) l →
       ∃ l', free_list lo hi (cells m') (firstFreeCell m') l' ∧ l' ≡ₚ addrs c ++ l) ∧
    (∀ a, a ∉ addrs c → cells m' !! a = cells m !! a) ∧
    (∀ p, heap m' !! p = if bool_decide (p ∈ buffers c) then None else heap m !! p) ∧
    cellCount m' = cellCount m - Z.of_nat (length (addrs c)).
Proof.
  intros Hd Hf. destruct (deleteList_ok lo hi lim B c fuel Hf m Hd) as (m' & E & [D1 D2 D3 D4 D5 _]).
  by exists m'.
Qed.

Lemma deleteList_frees_witness :
  ∃ m', deleteList 5 3 text_memory = Ok m' ∧ mem_ok 100 110 100000 ∅ m' ∧
    (∀ l, free_list 100 110 (cells text_memory) (firstFreeCell text_memory) l →
       ∃ l', free_list 100 110 (cells m') (firstFreeCell m') l' ∧ l' ≡ₚ addrs text_list ++ l) ∧
    (∀ a, a ∉ addrs text_list → cells m' !! a = cells text_memory !! a) ∧
    (∀ p, heap m' !! p = if bool_decide (p ∈ buffers text_list) then None else heap text_memory !! p) ∧
    cellCount m' = 6 - 4.
Proof.
  apply (deleteList_frees 100 110 100000 ∅ text_memory text_list 5); [|cbn; lia]. split.
  - apply text_ok.
  - apply text_repr.
  - apply (bool_decide_unpack _). by vm_compute.
  - repeat constructor.
  - cbn. split_and!; try done; apply not_elem_of_empty.
  - apply (bool_decide_unpack _). by vm_compute.
  - intros p Hp. cbn in Hp. apply list_elem_of_singleton in Hp as ->. by exists [97; 98; 99; 0].
Defined.

(** ** Copying *)

(** C11: While the nursery has room for it, [copyList] always returns: the copy is a
    list of the same types, contents and structure in the next free cells of the
    nursery, every envelope in it points to its own last element, every buffer is
    copied, the last cell is left in [lastCellCopied], and nothing that was there
    before has changed, the original included. *)
Theorem copyList_copies lo hi lim B gf a ty aux w kids nx fuel r m : let c := At a ty aux w kids nx in
  (length (addrs c) < fuel)%nat → roomy lo hi lim B m (length (addrs c)) → source hi B m c →
  (∀ x, x ∈ addrs c → last (resultStack r) ≠ Some x) →
  ∃ m' c', copyList gf fuel a r m =
      Ok (first_of c', set_registers (<[1%nat := last_addr a c']> (registers r)) r, m') ∧
    reprs (cells m') c' ∧ reprs (cells m') c ∧ twin (heap m) (heap m') c c' ∧
    addrs c' = seqZ (gen0_ptr m) (Z.of_nat (length (addrs c))) ∧
    (∀ x, x ∉ addrs c' → cells m' !! x = cells m !! x) ∧
    (∀ x b, heap m !! x = Some b → heap m' !! x = Some b) ∧
    gen0_ptr m' = gen0_ptr m + Z.of_nat (length (addrs c)).
Proof.
  intros c Hf Hr Hs Htop. destruct (copyList_ok lo hi lim B gf a ty aux w kids nx fuel r m Hf Hr Hs Htop)
    as (m' & c' & E & G & R & T & A). fold c in G, T, A.
  assert (Hfr : ∀ x, x ∉ addrs c' → cells m' !! x = cells m !! x).
  { intros x Hx. apply (gr_frame _ _ _ _ _ _ _ _ (G (x + 1))); [lia|].
    rewrite A, elem_of_seqZ in Hx. lia. }
  exists m', c'. split; [done|]. split; [done|]. split.
  { eapply reprs_ext; [|apply Hs]. intros x Hx. apply Hfr. rewrite A, elem_of_seqZ.
    destruct (so_below _ _ _ _ Hs x Hx); [lia|]. pose proof (rm_room _ _ _ _ _ _ Hr) as Hroom. lia. }
  split; [done|]. split; [done|]. split; [done|]. split; [apply (G 0)|apply (gr_ptr _ _ _ _ _ _ _ _ (G 0))].
Qed.

Lemma copyList_copies_witness :
  ∃ m' c', copyList 0 5 3 text_roots text_memory =
      Ok (first_of c', set_registers (<[1%nat := last_addr 3 c']> (registers text_roots)) text_roots, m') ∧
    reprs (cells m') c' ∧ reprs (cells m') text_list ∧ twin (heap text_memory) (heap m') text_list c' ∧
    addrs c' = seqZ 100 4 ∧ (∀ x, x ∉ addrs c' → cells m' !! x = cells text_memory !! x) ∧
    (∀ x b, heap text_memory !! x = Some b → heap m' !! x = Some b) ∧ gen0_ptr m' = 100 + 4.
Proof.
  apply (copyList_copies 100 110 100000 ∅).
  - cbn. lia.
  - split; [apply text_ok|cbn; lia|cbn; lia|]. intros p b. cbn. rewrite lookup_singleton_Some. lia.
  - split; [apply text_repr| | |].
    + intros x. cbn. rewrite !elem_of_cons. intros [->|[->|[->|[->|Hx]]]]; try lia. by apply not_elem_of_nil in Hx.
    + cbn. split_and!; try done; apply not_elem_of_empty.
    + cbn. split_and!; try done. intros _. exists 4, [97; 98; 99; 0]. done.
  - cbn. intros x Hx [= <-]. rewrite !elem_of_cons in Hx. destruct Hx as [?|[?|[?|[?|Hx]]]]; try done.
    by apply not_elem_of_nil in Hx.
Defined.

(** ** Where it goes wrong *)

(** The list [(7 8)] outside of a nursery of three cells, of which one is left. *)
Definition late_cells : gmap Z cell :=
  list_to_map [(1, CellOf CELL_NIL 1 1 1); (2, CellOf CELL_TRUE 1 1 1); (3, CellOf CELL_EXPRESSION 1 5 4);
               (4, CellOf CELL_LONG 5 1 7); (5, CellOf CELL_LONG 1 1 8); (6, free_cell 7); (7, free_cell NULL)].
Definition late_memory : memory := Memory late_cells 6 5 100000 [] 103 100 102 103 ∅ ∅ ∅.

(** [copyCell] keeps its pointer to the new cell while the copies of the elements
    collect the nursery: what it returns is then a forwarding cell and no list, and the
    next allocation hands the same cell out again. *)
Theorem copyCell_stale :
  ('(p, r, m) ← copyCell 5 9 3 text_roots late_memory;
   c ← cell_at p m;
   '(q, _, _) ← stuffInteger 5 9 r m;
   Ok (p, c_type c =? CELL_FORWARD, q)) = Ok (102, true, 102).
Proof. by vm_compute. Qed.
