(* ===== verification/Listops.v ===== *)
(** * List primitives on cells (src/nl-liststr.c, src/nl-list.c, src/newlisp.c)

    [push], [pop], [nth], [first], [last], [rest], [cons], [append], [extend],
    [slice], [chop], [reverse] and [rotate] for lists, on the memory of Nursery.v.
    The [aux] of a list is its last element when that is known (the
    last-element optimisation), and nil otherwise.  The arguments are evaluated: a
    list or an element is the address of its cell, a path the integers it
    consists of. *)

From stdpp Require Import base list numbers tactics gmap.
From Stdlib Require Import ZArith Lia.
From S2P Require Import Prelude Cell Nursery Lists.

#[global] Open Scope Z_scope.

Definition ERR_LIST_EXPECTED := 15.
Definition ERR_SYMBOL_PROTECTED := 37.
Definition ERR_LIST_INDEX_INVALID := 52.
Definition ERR_LIST_REFERENCE_CHANGED := 56.
Definition ERR_LIST_EMPTY := 64.

(** The indices of a path. *)
Definition indices := list Z.

Definition LIST_TYPE_MASK := 0x20.
Definition isList (type : Z) : bool := negb (Z.land type LIST_TYPE_MASK =? 0).

(** [isNil] of a cell of the memory: a cell nil, or the symbol nil. *)
Definition isNilCell (nilSymbol : Z) (c : cell) : bool :=
  (c_type c =? CELL_NIL) || (c_type c =? CELL_SYMBOL) && (c_contents c =? nilSymbol).

(** ** Lengths and offsets *)

Fixpoint listlen_loop (fuel : nat) (p len : Z) (m : memory) : result Z :=
  match fuel with
  | O => NoFuel
  | S fuel => if p =? nilCell then Ok len else c ← cell_at p m; listlen_loop fuel (c_next c) (len + 1) m
  end.

Definition listlen (p : Z) (m : memory) : result Z := listlen_loop (S (size (cells m))) p 0 m.

Definition convertNegativeOffset (offset p : Z) (m : memory) : result Z :=
  len ← listlen p m;
  if len + offset <? 0 then Fail ERR_LIST_INDEX_INVALID else Ok (len + offset).

(** [while(index--) { cell = list; list = list->next; }]; the element behind nil is nil. *)
Fixpoint steps (n : nat) (cell list : Z) (m : memory) : result (Z * Z) :=
  match n with
  | O => Ok (cell, list)
  | S n => c ← cell_at list m; steps n list (c_next c) m
  end.

(** ** [push] *)

(** The index as a number of steps, and whether the insertion is INSERT_BEFORE. *)
Definition push_index (index list : Z) (m : memory) : result (Z * bool) :=
  if index <? 0 then
    len ← listlen list m;
    let index := len + index in
    if index =? -1 then Ok (0, true)
    else if 0 <=? index then Ok (index, false)
    else Fail ERR_LIST_INDEX_INVALID
  else Ok (index, true).

(** The loop over the index.  It has counted down already when it finds the end of the
    list, to zero or more, so that this is always an error and INSERT_END is never
    used. *)
Fixpoint push_steps (n : nat) (cell list : Z) (m : memory) : result (Z * Z) :=
  match n with
  | O => Ok (cell, list)
  | S n =>
      if list =? nilCell then Fail ERR_LIST_INDEX_INVALID
      else c ← cell_at list m; push_steps n list (c_next c) m
  end.

(** [while(isList(list->type))]: [insert], [cell] and [list] behind it. *)
Fixpoint push_walk (params : indices) (index list : Z) (m : memory) : result (bool * Z * Z * memory) :=
  m ← put list (set_aux nilCell) m;
  l ← cell_at list m;
  '(index, before) ← push_index index (c_contents l) m;
  '(cell, list) ← push_steps (Z.to_nat index) list (c_contents l) m;
  c ← cell_at list m;
  match params with
  | index :: params => if isList (c_type c) then push_walk params index list m else Ok (before, cell, list, m)
  | [] => Ok (before, cell, list, m)
  end.

(** The insertion of [new]. *)
Definition push_link (before : bool) (cell list new : Z) (m : memory) : result memory :=
  if before || (list =? nilCell) then
    c ← cell_at cell m;
    m ← put cell (if list =? c_contents c then set_cell_contents new else set_next new) m;
    put new (set_next list) m
  else
    l ← cell_at list m;
    m ← put list (set_next new) m;
    put new (set_next (c_next l)) m.

(** The index -1 alone: behind the last element. *)
Definition push_last (list new : Z) (m : memory) : result memory :=
  l ← cell_at list m;
  let cell := c_aux l in
  m ← put list (set_aux new) m;
  if negb (cell =? nilCell) && negb (cell =? trueCell) then put cell (set_next new) m
  else if c_contents l =? nilCell then put list (set_cell_contents new) m
  else last ← last_cell (S (size (cells m))) (c_contents l) m; put last (set_next new) m.

Definition push_on_list (gf fuel : nat) (newCell list : Z) (path : indices) (r : roots) (m : memory)
    : result (Z * roots * memory) :=
  if bool_decide (path = [-1]) then
    '(new, r, m) ← copyCell gf fuel newCell r m;
    m ← push_last list new m;
    Ok (list, r, m)
  else
    '(before, cell, target, m) ← push_walk (tail path) (default 0 (head path)) list m;
    '(new, r, m) ← copyCell gf fuel newCell r m;
    m ← push_link before cell target new m;
    Ok (list, r, m).

(** A symbol that is nil gets a new list. *)
Definition push_on_nil (gf fuel : nat) (newCell s : Z) (r : roots) (m : memory) : result (Z * roots * memory) :=
  g ← symbol_at s (symbols r);
  m ← deleteList fuel (g_contents g) m;
  '(new, r, m) ← copyCell gf fuel newCell r m;
  '(list, r, m) ← makeCell gf CELL_EXPRESSION new r m;
  f ← set_symbol_contents s list (symbols r);
  Ok (list, with_symbols f r, m).

(** [symbolCheck] is the symbol the list was found in, with [isProtected] of its flags.
    Strings are in Strops.v. *)
Definition p_push (gf fuel : nat) (nilSymbol newCell list : Z) (symbolCheck : option (Z * bool)) (path : indices)
    (r : roots) (m : memory) : result (Z * roots * memory) :=
  unset ← match symbolCheck with
          | Some (s, protected) =>
              if protected : bool then Fail ERR_SYMBOL_PROTECTED else
              g ← symbol_at s (symbols r); c ← cell_at (g_contents g) m; Ok (isNilCell nilSymbol c)
          | None => Ok false
          end;
  match symbolCheck with
  | Some (s, _) => if unset : bool then push_on_nil gf fuel newCell s r m else push_on_list gf fuel newCell list path r m
  | None => push_on_list gf fuel newCell list path r m
  end.

(** ** [pop] *)

Definition pop_first (list : Z) (m : memory) : result (Z * memory) :=
  l ← cell_at list m;
  let cell := c_contents l in
  c ← cell_at cell m;
  m ← put list (set_cell_contents (c_next c)) m;
  m ← (if c_next c =? nilCell then put list (set_aux nilCell) m else Ok m);
  m ← put cell (set_next nilCell) m;
  Ok (cell, m).

(** [envelope], [cell] and [list] behind the loop. *)
Fixpoint pop_walk (params : indices) (index list : Z) (m : memory) : result (Z * Z * Z) :=
  l ← cell_at list m;
  index ← (if index <? 0 then convertNegativeOffset index (c_contents l) m else Ok index);
  '(cell, p) ← steps (Z.to_nat index) list (c_contents l) m;
  if p =? nilCell then Fail ERR_LIST_INDEX_INVALID
  else
    c ← cell_at p m;
    match params with
    | index :: params => if isList (c_type c) then pop_walk params index p m else Ok (list, cell, p)
    | [] => Ok (list, cell, p)
    end.

Definition pop_unlink (envelope cell list : Z) (m : memory) : result memory :=
  l ← cell_at list m;
  c ← cell_at cell m;
  m ← (if c_next l =? nilCell then
         put envelope (set_aux (if list =? c_contents c then nilCell else cell)) m
       else Ok m);
  m ← put cell (if list =? c_contents c then set_cell_contents (c_next l) else set_next (c_next l)) m;
  put list (set_next nilCell) m.

Definition p_pop (list : Z) (protected : bool) (path : indices) (m : memory) : result (Z * memory) :=
  if protected then Fail ERR_SYMBOL_PROTECTED else
  match path with
  | [] => pop_first list m
  | index :: params =>
      '(envelope, cell, p) ← pop_walk params index list m;
      m ← pop_unlink envelope cell p m;
      Ok (p, m)
  end.

(** ** [nth], [first], [last], [rest] *)

Fixpoint implicitIndexList (params : indices) (index list : Z) (m : memory) : result Z :=
  l ← cell_at list m;
  if c_type l =? CELL_FREE then Fail ERR_LIST_REFERENCE_CHANGED else
  p ← (if (index =? -1) && negb (c_aux l =? nilCell) then Ok (c_aux l)
       else
         index ← (if index <? 0 then convertNegativeOffset index (c_contents l) m else Ok index);
         '(_, p) ← steps (Z.to_nat index) list (c_contents l) m;
         if p =? nilCell then Fail ERR_LIST_INDEX_INVALID else Ok p);
  c ← cell_at p m;
  match params with
  | index :: params => if isList (c_type c) then implicitIndexList params index p m else Ok p
  | [] => Ok p
  end.

(** An empty path is the list itself. *)
Definition nth_list (path : indices) (list : Z) (m : memory) : result Z :=
  match path with [] => Ok list | index :: params => implicitIndexList params index list m end.

Definition p_first (list : Z) (m : memory) : result Z :=
  l ← cell_at list m;
  if c_contents l =? nilCell then Fail ERR_LIST_EMPTY else Ok (c_contents l).

(** [last] leaves the element it had to look for in [aux]. *)
Definition p_last (list : Z) (m : memory) : result (Z * memory) :=
  l ← cell_at list m;
  if c_contents l =? nilCell then Fail ERR_LIST_EMPTY
  else if negb (c_aux l =? nilCell) then Ok (c_aux l, m)
  else
    p ← last_cell (S (size (cells m))) (c_contents l) m;
    m ← put list (set_aux p) m;
    Ok (p, m).

Definition p_rest (gf fuel : nat) (list : Z) (r : roots) (m : memory) : result (Z * roots * memory) :=
  l ← cell_at list m;
  c ← cell_at (c_contents l) m;
  '(copy, r, m) ← copyList gf fuel (c_next c) r m;
  makeCell gf CELL_EXPRESSION copy r m.

(** ** [append] and [extend] *)

Definition lastCellCopied (r : roots) : Z := default nilCell (registers r !! 1%nat).

(** The operands behind the first; [firstCell] is the last element so far, NULL when
    there is none. *)
Fixpoint append_loop (gf fuel : nat) (params : indices) (list firstCell : Z) (r : roots) (m : memory)
    : result (roots * memory) :=
  match params with
  | [] => Ok (r, m)
  | p :: params =>
      c ← cell_at p m;
      if negb (isList (c_type c)) then Fail ERR_LIST_EXPECTED else
      '(copy, r, m) ← copyList gf fuel (c_contents c) r m;
      if copy =? nilCell then append_loop gf fuel params list firstCell r m
      else
        m ← (if firstCell =? NULL then put list (set_cell_contents copy) m else put firstCell (set_next copy) m);
        append_loop gf fuel params list (lastCellCopied r) r m
  end.

Definition append_lists (gf fuel : nat) (params : indices) (r : roots) (m : memory) : result (Z * roots * memory) :=
  match params with
  | [] => getCell gf CELL_EXPRESSION r m
  | p :: _ =>
      c ← cell_at p m;
      '(list, r, m) ← getCell gf (c_type c) r m;
      '(r, m) ← append_loop gf fuel params list NULL r m;
      m ← put list (set_aux (lastCellCopied r)) m;
      Ok (list, r, m)
  end.

Fixpoint extend_loop (gf fuel : nat) (params : indices) (target tail : Z) (r : roots) (m : memory)
    : result (roots * memory) :=
  match params with
  | [] => Ok (r, m)
  | p :: params =>
      c ← cell_at p m;
      if negb (isList (c_type c)) then Fail ERR_LIST_EXPECTED
      else if c_contents c =? nilCell then extend_loop gf fuel params target tail r m
      else
        t ← cell_at target m;
        '(copy, r, m) ← copyList gf fuel (c_contents c) r m;
        m ← (if c_contents t =? nilCell then put target (set_cell_contents copy) m
             else m ← put tail (set_next copy) m; put target (set_aux (lastCellCopied r)) m);
        extend_loop gf fuel params target (lastCellCopied r) r m
  end.

Definition extend_list (gf fuel : nat) (target : Z) (params : indices) (r : roots) (m : memory)
    : result (Z * roots * memory) :=
  t ← cell_at target m;
  let tail := c_aux t in
  m ← put target (set_aux nilCell) m;
  tail ← (if tail =? nilCell then last_cell (S (size (cells m))) (c_contents t) m else Ok tail);
  '(r, m) ← extend_loop gf fuel params target tail r m;
  Ok (target, r, m).

(** ** [reverse] and [rotate] *)

Fixpoint reverse_loop (fuel : nat) (cell next previous : Z) (m : memory) : result (Z * memory) :=
  match fuel with
  | O => NoFuel
  | S fuel =>
      if cell =? nilCell then Ok (previous, m)
      else
        n ← cell_at next m;
        m ← (if next =? nilCell then Ok m else put next (set_next cell) m);
        reverse_loop fuel next (c_next n) cell m
  end.

Definition p_reverse (list : Z) (protected : bool) (m : memory) : result (Z * memory) :=
  if protected then Fail ERR_SYMBOL_PROTECTED else
  m ← put list (set_aux nilCell) m;
  l ← cell_at list m;
  c ← cell_at (c_contents l) m;
  m ← put (c_contents l) (set_next nilCell) m;
  '(previous, m) ← reverse_loop (S (size (cells m))) (c_contents l) (c_next c) (c_contents l) m;
  m ← put list (set_cell_contents previous) m;
  Ok (list, m).

(** C's remainder has the sign of the dividend; [labs] and the negation of the smallest
    integer overflow. *)
Definition adjustCount (count length : Z) : result Z :=
  if (length <=? 1) || (count =? 0) then Ok 0
  else if count =? - 2 ^ 63 then UB
  else if length =? Z.abs count then Ok 0
  else if 0 <? count then Ok (Z.rem count length)
  else Ok (length - Z.rem (- count) length).

Definition p_rotate (list count : Z) (protected : bool) (m : memory) : result (Z * memory) :=
  if protected then Fail ERR_SYMBOL_PROTECTED else
  m ← put list (set_aux nilCell) m;
  l ← cell_at list m;
  let contents := c_contents l in
  length ← listlen contents m;
  count ← adjustCount count length;
  if count =? 0 then Ok (list, m)
  else
    last ← last_cell (S (size (cells m))) contents m;
    '(previous, cell) ← steps (Z.to_nat (length - count)) contents contents m;
    m ← put previous (set_next nilCell) m;
    m ← put last (set_next contents) m;
    m ← put list (set_cell_contents cell) m;
    m ← put list (set_aux previous) m;
    Ok (list, m).
