(* ===== verification/Segments.v ===== *)
(** * Segments of lists of cells

    A list as the sequence of its elements, with the address its last element
    points to: what the list primitives cut and join.  [edited] says which
    cells a primitive may have written. *)

From stdpp Require Import base list numbers tactics gmap.
From Stdlib Require Import ZArith Lia.
From S2P Require Import Prelude Cell Nursery Evacuate Collect Lists Deleting Copying Listops.

#[global] Open Scope Z_scope.
#[local] Set Warnings "-clear-no-such-hyp".

(** ** Elements *)

Record elem := Elem { e_at : Z; e_type : Z; e_aux : Z; e_word : Z; e_kids : chain }.

Fixpoint chain_of (es : list elem) : chain :=
  match es with
  | [] => Nil
  | e :: es => At (e_at e) (e_type e) (e_aux e) (e_word e) (e_kids e) (chain_of es)
  end.

Fixpoint elems (c : chain) : list elem :=
  match c with Nil => [] | At a type aux w kids next => Elem a type aux w kids :: elems next end.

Definition elem_addrs (e : elem) : list Z := e_at e :: addrs (e_kids e).

Lemma elems_chain_of es : elems (chain_of es) = es.
Proof. induction es as [|[] es IH]; [done|]. cbn. by rewrite IH. Qed.

Lemma chain_of_elems c : chain_of (elems c) = c.
Proof. induction c as [|a ty aux w kids _ nx IH]; [done|]. cbn. by rewrite IH. Qed.

Lemma addrs_chain_of es : addrs (chain_of es) = es ≫= elem_addrs.
Proof. induction es as [|e es IH]; [done|]. cbn. by rewrite IH. Qed.

Lemma chain_of_nil es : chain_of es = Nil ↔ es = [].
Proof. by destruct es. Qed.

Lemma bind_single e : ([e] ≫= elem_addrs) = elem_addrs e.
Proof. apply app_nil_r. Qed.

(** The cell of an element whose next cell is [next]. *)
Definition cell_of (next : Z) (e : elem) : cell :=
  CellOf (e_type e) next (e_aux e) (word_of (e_type e) (e_word e) (e_kids e)).

Definition proper (e : elem) : Prop :=
  2 < e_at e ∧ plain_type (e_type e) ∧ (isEnvelope (e_type e) = false → e_kids e = Nil).

(** ** Segments *)

Definition head_of (es : list elem) (tail : Z) : Z := match es with [] => tail | e :: _ => e_at e end.

Fixpoint seg (h : gmap Z cell) (es : list elem) (tail : Z) : Prop :=
  match es with
  | [] => True
  | e :: es =>
      h !! e_at e = Some (cell_of (head_of es tail) e) ∧ proper e ∧ reprs h (e_kids e) ∧ seg h es tail
  end.

Lemma first_of_chain es : first_of (chain_of es) = head_of es nilCell.
Proof. by destruct es. Qed.

Lemma reprs_seg h es : reprs h (chain_of es) ↔ seg h es nilCell.
Proof.
  induction es as [|e es IH]; [done|]. cbn [chain_of reprs seg]. rewrite first_of_chain, IH. unfold proper, cell_of.
  naive_solver.
Qed.

Lemma reprs_elems h c : reprs h c ↔ seg h (elems c) nilCell.
Proof. by rewrite <- reprs_seg, chain_of_elems. Qed.

Lemma head_app es1 es2 t : head_of (es1 ++ es2) t = head_of es1 (head_of es2 t).
Proof. by destruct es1. Qed.

Lemma seg_app h es1 es2 t : seg h (es1 ++ es2) t ↔ seg h es1 (head_of es2 t) ∧ seg h es2 t.
Proof.
  induction es1 as [|e es1 IH]; cbn [app seg]; [naive_solver|]. rewrite head_app, IH. naive_solver.
Qed.

Lemma seg_ext h h' es t : (∀ a, a ∈ (es ≫= elem_addrs) → h' !! a = h !! a) → seg h es t → seg h' es t.
Proof.
  induction es as [|e es IH]; [done|]. cbn [seg]. intros He (H1 & H2 & H3 & H4).
  assert (Hk : ∀ a, a ∈ elem_addrs e ++ (es ≫= elem_addrs) → h' !! a = h !! a) by apply He.
  split; [rewrite Hk; [done|by left]|]. split; [done|]. split.
  - eapply reprs_ext; [|exact H3]. intros a Ha. apply Hk. right. apply elem_of_app. by left.
  - apply IH; [|done]. intros a Ha. apply Hk. apply elem_of_app. by right.
Qed.

(** The last pointer of a segment. *)
Lemma seg_relink h es e t t' : NoDup ((es ++ [e]) ≫= elem_addrs) → seg h (es ++ [e]) t →
  seg (<[e_at e := cell_of t' e]> h) (es ++ [e]) t'.
Proof.
  rewrite bind_app. cbn [mbind list_bind]. rewrite app_nil_r. intros (H1 & H2 & H3)%NoDup_app.
  rewrite !seg_app. cbn [seg head_of]. intros (S1 & S2 & S3 & S4 & _). split.
  - eapply seg_ext; [|exact S1]. intros a Ha. apply lookup_insert_ne. intros <-. apply (H2 _ Ha). by left.
  - rewrite lookup_insert_eq. split; [done|]. split; [done|]. split; [|done].
    eapply reprs_ext; [|exact S4]. intros a Ha. apply lookup_insert_ne. intros <-. apply NoDup_cons in H3 as [H3 _]. done.
Qed.

Lemma seg_proper h es t e : seg h es t → e ∈ es → proper e ∧ reprs h (e_kids e) ∧ ∃ n, h !! e_at e = Some (cell_of n e).
Proof.
  induction es as [|e' es IH]; [by intros _ ?%not_elem_of_nil|]. cbn [seg]. intros (H1 & H2 & H3 & H4) [->|Hi]%elem_of_cons; eauto.
Qed.

(** A segment of a list is no part of nil and of the addresses below. *)
Lemma seg_high h es t a : seg h es t → a ∈ (es ≫= elem_addrs) → 2 < a.
Proof.
  intros Hs Hi. apply list_elem_of_bind in Hi as (e & Ha & He). destruct (seg_proper _ _ _ _ Hs He) as ((H1 & _) & H2 & _).
  apply elem_of_cons in Ha as [->|Ha]; [done|]. clear -H2 Ha. revert H2 Ha. generalize (e_kids e) as c.
  induction c as [|b ty aux w kids IHk nx IHn]; cbn; [by intros _ ?%not_elem_of_nil|].
  intros (_ & H2 & _ & _ & H5 & H6) [->|[Ha|Ha]%elem_of_app]%elem_of_cons; auto.
Qed.

Lemma head_high h es t : seg h es t → es ≠ [] → 2 < head_of es t.
Proof. destruct es as [|e es]; [done|]. intros (_ & (H & _) & _) _. done. Qed.

(** The element number [n], with what is before and behind it. *)
Lemma seg_split (es : list elem) n e : es !! n = Some e → es = take n es ++ e :: drop (S n) es.
Proof. intros H. symmetry. by apply take_drop_middle. Qed.

(** ** Last elements *)

(** The last address of a list, [d] when it is empty. *)
Definition last_at (d : Z) (es : list elem) : Z := match last es with Some e => e_at e | None => d end.

Lemma last_addr_chain e es : last_addr (e_at e) (chain_of es) = last_at (e_at e) es.
Proof.
  revert e. induction es as [|e' es IH]; intros e; [done|]. cbn [chain_of last_addr]. rewrite IH.
  unfold last_at. rewrite last_cons. by destruct (last es).
Qed.

Lemma last_at_snoc d es e : last_at d (es ++ [e]) = e_at e.
Proof. unfold last_at. by rewrite last_snoc. Qed.

(** ** Memory *)

(** The cell nil points to itself. *)
Definition nil_ok (m : memory) : Prop := cells m !! nilCell = Some (CellOf CELL_NIL nilCell nilCell nilCell).

Record edited (A : list Z) (m m' : memory) : Prop := {
  ed_frame : ∀ x, x ∉ A → cells m' !! x = cells m !! x;
  ed_rest : m' = set_cells (cells m') m;
  ed_ok : ∀ lo hi lim B, mem_ok lo hi lim B m → mem_ok lo hi lim B m'
}.

Lemma edited_refl A m : edited A m m.
Proof. split; try done. by destruct m. Qed.

Lemma edited_trans A m m1 m2 : edited A m m1 → edited A m1 m2 → edited A m m2.
Proof.
  intros [A1 A2 A3] [B1 B2 B3]. split.
  - intros x Hx. rewrite B1 by done. by apply A1.
  - rewrite B2. rewrite A2. done.
  - auto.
Qed.

Lemma edited_mono A A' m m' : A ⊆ A' → edited A m m' → edited A' m m'.
Proof. intros Hs [H1 H2 H3]. split; try done. intros x Hx. apply H1. set_solver. Qed.

Lemma edited_nil A m m' : edited A m m' → nilCell ∉ A → nil_ok m → nil_ok m'.
Proof. unfold nil_ok. intros H Hn. by rewrite (ed_frame _ _ _ H). Qed.

(** An assignment that keeps the type of the cell. *)
Lemma put_edited A p f m c : cells m !! p = Some c → c_type c ≠ CELL_FREE → p ∈ A →
  ∃ m', put p f m = Ok m' ∧ cells m' = <[p := f c]> (cells m) ∧ edited A m m'.
Proof.
  intros Hp Ht Ha. exists (set_cells (<[p := f c]> (cells m)) m). split; [by apply put_run|]. split; [done|]. split.
  - intros x Hx. cbn. apply lookup_insert_ne. by intros ->.
  - done.
  - intros lo hi lim B Hok. destruct (put_ok lo hi lim B m p f c Hok Hp Ht) as (m' & E & H & _).
    rewrite (put_run _ _ _ _ Hp) in E. by injection E as <-.
Qed.
