(* ===== verification/Pushing.v ===== *)
(** * Pushing (src/nl-liststr.c, [p_push])

    What [push] does to a list with a path of any length: the walk resets the
    last-element pointers on its way, and the insertion puts the new element
    where [push_place] says. *)

From stdpp Require Import base list numbers tactics gmap.
From Stdlib Require Import ZArith Lia.
From S2P Require Import Prelude Cell Nursery Evacuate Collect Lists Deleting Copying Listops Segments.

#[global] Open Scope Z_scope.
#[local] Set Warnings "-clear-no-such-hyp".

(** ** Lists in cells *)

(** The list [e] with other elements and another last-element pointer. *)
Definition with_list (aux : Z) (es : list elem) (e : elem) : elem :=
  Elem (e_at e) (e_type e) aux (e_word e) (chain_of es).

Definition elements (e : elem) : list elem := elems (e_kids e).

Lemma with_elements e : with_list (e_aux e) (elements e) e = e.
Proof. destruct e. unfold with_list, elements. by rewrite chain_of_elems. Qed.

Lemma elements_with aux es e : elements (with_list aux es e) = es.
Proof. apply elems_chain_of. Qed.

Lemma addrs_elements e : elem_addrs e = e_at e :: (elements e ≫= elem_addrs).
Proof. unfold elem_addrs at 1, elements. by rewrite <- addrs_chain_of, chain_of_elems. Qed.

Lemma addrs_with aux es e : elem_addrs (with_list aux es e) = e_at e :: (es ≫= elem_addrs).
Proof. by rewrite addrs_elements, elements_with. Qed.

Lemma seg_with h aux es e t : isEnvelope (e_type e) = true →
  seg h [with_list aux es e] t ↔
  h !! e_at e = Some (CellOf (e_type e) t aux (head_of es nilCell)) ∧ 2 < e_at e ∧ plain_type (e_type e) ∧ seg h es nilCell.
Proof.
  intros He. cbn [seg head_of]. unfold proper, cell_of, with_list, word_of. cbn. rewrite He, reprs_seg, first_of_chain.
  naive_solver.
Qed.

Lemma seg_elements h e t : isEnvelope (e_type e) = true → seg h [e] t →
  h !! e_at e = Some (CellOf (e_type e) t (e_aux e) (head_of (elements e) nilCell)) ∧ 2 < e_at e ∧
  plain_type (e_type e) ∧ seg h (elements e) nilCell.
Proof. intros He. rewrite <- (with_elements e) at 1. by apply seg_with. Qed.

(** A list is an envelope, and no word of another cell is an address of [A]. *)
Fixpoint sane (A : list Z) (c : chain) : Prop :=
  match c with
  | Nil => True
  | At _ type _ w kids next =>
      (isList type = true → isEnvelope type = true) ∧ (isEnvelope type = false → w ∉ A) ∧ sane A kids ∧ sane A next
  end.

Definition sane_elem (A : list Z) (e : elem) : Prop :=
  (isList (e_type e) = true → isEnvelope (e_type e) = true) ∧ (isEnvelope (e_type e) = false → e_word e ∉ A) ∧ sane A (e_kids e).

Lemma sane_elements A c e : sane A c → e ∈ elems c → sane_elem A e.
Proof.
  induction c as [|a ty aux w kids _ nx IH]; cbn; [by intros _ ?%not_elem_of_nil|].
  intros (H1 & H2 & H3 & H4) [->|Hi]%elem_of_cons; [done|by apply IH].
Qed.

(** ** Loops *)

Lemma length_bind es : (length es ≤ length (es ≫= elem_addrs))%nat.
Proof. induction es as [|e es IH]; cbn; [lia|]. rewrite length_app. lia. Qed.

Lemma seg_size h es : seg h es nilCell → NoDup (es ≫= elem_addrs) → (length es ≤ size h)%nat.
Proof.
  intros Hs%reprs_seg Hn. rewrite <- addrs_chain_of in Hn. pose proof (cells_enough _ _ Hs Hn) as Hc.
  rewrite addrs_chain_of in Hc. pose proof (length_bind es). lia.
Qed.

Lemma head_not_nil h es t : seg h es t → es ≠ [] → head_of es t ≠ nilCell.
Proof. intros H1 H2. pose proof (head_high _ _ _ H1 H2). unfold nilCell. lia. Qed.

Lemma listlen_loop_ok m es : ∀ fuel n, seg (cells m) es nilCell → (length es < fuel)%nat →
  listlen_loop fuel (head_of es nilCell) n m = Ok (n + Z.of_nat (length es)).
Proof.
  induction es as [|e es IH]; intros [|fuel] n Hs Hf; cbn in Hf; try lia; cbn [listlen_loop head_of length].
  - rewrite Z.eqb_refl. f_equal. lia.
  - rewrite (proj2 (Z.eqb_neq _ _)) by by apply (head_not_nil _ _ _ Hs).
    destruct Hs as (H1 & _ & _ & H4). rewrite (cell_at_ok _ _ _ H1). cbn [mbind result_bind c_next cell_of].
    rewrite IH by (done || lia). f_equal. lia.
Qed.

Lemma listlen_ok m es : seg (cells m) es nilCell → NoDup (es ≫= elem_addrs) →
  listlen (head_of es nilCell) m = Ok (Z.of_nat (length es)).
Proof. intros Hs Hn. unfold listlen. rewrite listlen_loop_ok; [done|done|]. pose proof (seg_size _ _ Hs Hn). lia. Qed.

Lemma offset_ok m es i : seg (cells m) es nilCell → NoDup (es ≫= elem_addrs) →
  convertNegativeOffset i (head_of es nilCell) m =
  if Z.of_nat (length es) + i <? 0 then Fail ERR_LIST_INDEX_INVALID else Ok (Z.of_nat (length es) + i).
Proof. intros Hs Hn. unfold convertNegativeOffset. by rewrite listlen_ok. Qed.

(** The cell before the place [n] of the list [es] in the cell [l]. *)
Definition prev_at (l : Z) (es : list elem) (n : nat) : Z :=
  match n with O => l | S k => match es !! k with Some e => e_at e | None => nilCell end end.

Lemma prev_at_cons l e es n : prev_at l (e :: es) (S n) = prev_at (e_at e) es n.
Proof. by destruct n. Qed.

Lemma steps_nil n m : nil_ok m → ∀ c, steps n c nilCell m = Ok (prev_at c [] n, nilCell).
Proof.
  intros Hn. induction n as [|n IH]; intros c; [done|]. cbn [steps]. rewrite (cell_at_ok _ _ _ Hn). cbn [mbind result_bind c_next].
  rewrite IH. by destruct n.
Qed.

Lemma steps_ok m es : nil_ok m → seg (cells m) es nilCell → ∀ n l,
  steps n l (head_of es nilCell) m = Ok (prev_at l es n, head_of (drop n es) nilCell).
Proof.
  intros Hnil. induction es as [|e es IH]; intros Hs n l.
  - rewrite drop_nil. by apply steps_nil.
  - destruct n as [|n]; [done|]. cbn [steps head_of drop]. destruct Hs as (H1 & _ & _ & H4).
    rewrite (cell_at_ok _ _ _ H1). cbn [mbind result_bind c_next cell_of]. rewrite IH by done. by rewrite prev_at_cons.
Qed.

Lemma push_steps_ok m es : seg (cells m) es nilCell → ∀ n l,
  push_steps n l (head_of es nilCell) m =
  if decide (n ≤ length es)%nat then Ok (prev_at l es n, head_of (drop n es) nilCell) else Fail ERR_LIST_INDEX_INVALID.
Proof.
  induction es as [|e es IH]; intros Hs n l; (destruct n as [|n]; [by rewrite decide_True by (cbn; lia)|]); cbn [push_steps].
  - cbn [head_of]. rewrite Z.eqb_refl. by rewrite decide_False by (cbn; lia).
  - rewrite (proj2 (Z.eqb_neq _ _)) by by apply (head_not_nil _ _ _ Hs). cbn [head_of drop length].
    destruct Hs as (H1 & _ & _ & H4). rewrite (cell_at_ok _ _ _ H1). cbn [mbind result_bind c_next cell_of].
    rewrite IH by done. rewrite prev_at_cons. repeat case_decide; (done || lia).
Qed.

(** ** Where the new element goes *)

(** The element number the walk stops at: [-1 - n] is the first, the length is behind the
    last. *)
Definition visit (i : Z) (n : nat) : option nat :=
  if i <? 0 then
    if Z.of_nat n + i =? -1 then Some O
    else if 0 <=? Z.of_nat n + i then Some (Z.to_nat (Z.of_nat n + i)) else None
  else if i <=? Z.of_nat n then Some (Z.to_nat i) else None.

(** Whether the new element goes before that one. *)
Definition before (i : Z) (n : nat) : bool := (0 <=? i) || (Z.of_nat n + i =? -1).

Definition insert_at (k : nat) (new : elem) (es : list elem) : list elem := take k es ++ new :: drop k es.

Definition slot (i : Z) (n j : nat) : nat := if before i n then j else S j.

(** The list with the new element, as a function of the new element. *)
Fixpoint push_place (path : indices) (e : elem) : option (elem → elem) :=
  match path with
  | [] => None
  | i :: path =>
      let es := elements e in
      j ← visit i (length es);
      let here := Some (λ new, with_list nilCell (insert_at (slot i (length es) j) new es) e) in
      match path, es !! j with
      | _ :: _, Some s =>
          if isList (e_type s) then f ← push_place path s; Some (λ new, with_list nilCell (<[j := f new]> es) e)
          else here
      | _, _ => here
      end
  end.

(** The last element holds nil: an empty list, or a copy of nil. *)
Definition hits_nil (es : list elem) : bool :=
  match last es with Some p => word_of (e_type p) (e_word p) (e_kids p) =? nilCell | None => false end.

(** The last index is not the length of a list whose last element holds nil: there
    [push] takes the nil it holds for the end of the walk and pushes into that element
    ([Primitives.push_behind_empty]). *)
Fixpoint appendable (path : indices) (e : elem) : bool :=
  match path with
  | [] => true
  | i :: path =>
      let es := elements e in
      match visit i (length es) with
      | None => true
      | Some j =>
          match es !! j with
          | Some s => if negb (bool_decide (path = [])) && isList (e_type s) then appendable path s else true
          | None => negb (hits_nil es)
          end
      end
  end.

Lemma visit_le i n j : visit i n = Some j → (j ≤ n)%nat.
Proof. unfold visit. repeat case_match; intros [= <-]; lia. Qed.

Lemma visit_after i n j : visit i n = Some j → before i n = false → (j < n)%nat.
Proof. unfold visit, before. intros H [H1 H2]%orb_false_iff. revert H. repeat case_match; intros [= <-]; lia. Qed.

(** The walk on one level, and what comes behind it. *)
Lemma visit_ok {R} m es i l (K : bool → Z → Z → result R) : seg (cells m) es nilCell → NoDup (es ≫= elem_addrs) →
  ('(index, before) ← push_index i (head_of es nilCell) m;
   '(cell, p) ← push_steps (Z.to_nat index) l (head_of es nilCell) m; K before cell p) =
  match visit i (length es) with
  | Some j => K (before i (length es)) (prev_at l es j) (head_of (drop j es) nilCell)
  | None => Fail ERR_LIST_INDEX_INVALID
  end.
Proof.
  intros Hs Hn. unfold push_index, visit, before. destruct (Z.ltb_spec i 0) as [Hi|Hi].
  - rewrite listlen_ok by done. cbn [mbind result_bind]. rewrite (proj2 (Z.leb_gt 0 i)) by lia. cbn [orb].
    destruct (Z.eqb_spec (Z.of_nat (length es) + i) (-1)) as [E|E].
    + cbn [mbind result_bind]. rewrite push_steps_ok by done. by rewrite decide_True by lia.
    + destruct (Z.leb_spec 0 (Z.of_nat (length es) + i)); [|done]. cbn [mbind result_bind].
      rewrite push_steps_ok by done. by rewrite decide_True by lia.
  - cbn [mbind result_bind]. rewrite push_steps_ok by done. rewrite (proj2 (Z.leb_le 0 i)) by lia.
    destruct (Z.leb_spec i (Z.of_nat (length es))); [by rewrite decide_True by lia|by rewrite decide_False by lia].
Qed.

(** The cell the walk stops at. *)
Lemma stop_ok m es j : nil_ok m → seg (cells m) es nilCell → ∃ c, cell_at (head_of (drop j es) nilCell) m = Ok c ∧
  c_type c = match es !! j with Some s => e_type s | None => CELL_NIL end.
Proof.
  intros Hn Hs. destruct (es !! j) as [s|] eqn:E.
  - rewrite (drop_S _ _ _ E). destruct (seg_proper _ _ _ s Hs) as (_ & _ & n & Hc); [by eapply list_elem_of_lookup_2|].
    exists (cell_of n s). cbn [head_of]. by rewrite (cell_at_ok _ _ _ Hc).
  - rewrite drop_ge by by apply lookup_ge_None_1. eexists. cbn [head_of]. by rewrite (cell_at_ok _ _ _ Hn).
Qed.

(** ** The insertion *)

Lemma NoDup_bind_app (es1 es2 : list elem) : NoDup ((es1 ++ es2) ≫= elem_addrs) →
  NoDup (es1 ≫= elem_addrs) ∧ (∀ x, x ∈ (es1 ≫= elem_addrs) → x ∉ (es2 ≫= elem_addrs)) ∧ NoDup (es2 ≫= elem_addrs).
Proof. rewrite bind_app. by intros ?%NoDup_app. Qed.

Lemma proper_free e : proper e → ∀ n, c_type (cell_of n e) ≠ CELL_FREE.
Proof. intros (_ & (H & _) & _) n. done. Qed.

Lemma at_in_addrs (es : list elem) e : e ∈ es → e_at e ∈ (es ≫= elem_addrs).
Proof. intros H. apply list_elem_of_bind. exists e. split; [by left|done]. Qed.

Lemma insert_behind m es1 p es2 new tn : seg (cells m) (es1 ++ p :: es2) nilCell → seg (cells m) [new] tn →
  NoDup ((es1 ++ p :: es2) ≫= elem_addrs) → NoDup (elem_addrs new) →
  (∀ x, x ∈ elem_addrs new → x ∉ ((es1 ++ p :: es2) ≫= elem_addrs)) →
  ∃ m1 m2, put (e_at p) (set_next (e_at new)) m = Ok m1 ∧
    put (e_at new) (set_next (head_of es2 nilCell)) m1 = Ok m2 ∧
    seg (cells m2) (es1 ++ p :: new :: es2) nilCell ∧ edited [e_at p; e_at new] m m2.
Proof.
  intros Hs Hnew Hnd Hnn Hdis.
  replace (es1 ++ p :: es2) with ((es1 ++ [p]) ++ es2) in * by by rewrite <- app_assoc.
  destruct (NoDup_bind_app _ _ Hnd) as (Hn1 & Hd12 & Hn2). apply seg_app in Hs as [Hs1 Hs2].
  pose proof Hs1 as Hp. apply seg_app in Hp as [_ (Hp & Hpp & _)].
  destruct (put_edited [e_at p; e_at new] (e_at p) (set_next (e_at new)) m _ Hp (proper_free _ Hpp _) ltac:(set_solver))
    as (m1 & E1 & C1 & D1).
  assert (Hpin : e_at p ∈ ((es1 ++ [p]) ≫= elem_addrs)) by (apply at_in_addrs; set_solver).
  assert (Hpn : e_at p ∉ elem_addrs new).
  { intros Hx. apply (Hdis _ Hx). rewrite bind_app. apply elem_of_app. by left. }
  assert (Hnin : e_at new ∈ elem_addrs new) by by left.
  assert (Hne : e_at p ≠ e_at new) by by intros E; rewrite <- E in Hnin.
  pose proof Hnew as (Hc & Hpr & Hk & _).
  assert (Hc1 : cells m1 !! e_at new = Some (cell_of tn new)) by (rewrite C1, lookup_insert_ne by done; exact Hc).
  destruct (put_edited [e_at p; e_at new] (e_at new) (set_next (head_of es2 nilCell)) m1 _ Hc1 (proper_free _ Hpr _) ltac:(set_solver))
    as (m2 & E2 & C2 & D2).
  exists m1, m2. split; [done|]. split; [done|]. split; [|by eapply edited_trans].
  replace (es1 ++ p :: new :: es2) with ((es1 ++ [p]) ++ ([] ++ [new]) ++ es2) by by rewrite <- !app_assoc.
  rewrite C2, C1, (seg_app _ (es1 ++ [p])), (seg_app _ ([] ++ [new])).
  assert (Hout : ∀ x, x ∈ ((es1 ++ [p]) ≫= elem_addrs) ∨ x ∈ (es2 ≫= elem_addrs) → e_at new ≠ x).
  { intros x Hx E. subst x. apply (Hdis _ Hnin). rewrite bind_app, elem_of_app. tauto. }
  split; [|split].
  - eapply seg_ext; [|apply (seg_relink (cells m) es1 p (head_of es2 nilCell)); [exact Hn1|exact Hs1]]. intros x Hx. apply lookup_insert_ne. apply Hout. by left.
  - apply (seg_relink _ [] new tn); [cbn; by rewrite app_nil_r|].
    eapply seg_ext; [|exact Hnew]. intros x Hx. apply lookup_insert_ne. intros <-. cbn in Hx. rewrite app_nil_r in Hx. done.
  - eapply seg_ext; [|exact Hs2]. intros x Hx. rewrite lookup_insert_ne by by apply Hout; right.
    apply lookup_insert_ne. intros <-. apply (Hd12 _ Hpin Hx).
Qed.

(** The cell of a list whose elements have changed behind the first. *)
Lemma seg_header h h' e aux es es' t : isEnvelope (e_type e) = true → seg h [with_list aux es e] t →
  h' !! e_at e = h !! e_at e → head_of es' nilCell = head_of es nilCell → seg h' es' nilCell →
  seg h' [with_list aux es' e] t.
Proof. intros He Hs Hh Hf Hs'. rewrite seg_with in * by done. rewrite Hh, Hf. naive_solver. Qed.

Lemma word_apart p q es1 es2 : NoDup ((es1 ++ p :: es2) ≫= elem_addrs) → sane_elem ((es1 ++ p :: es2) ≫= elem_addrs) p →
  proper p → head_of es2 nilCell = q → q ≠ nilCell → word_of (e_type p) (e_word p) (e_kids p) ≠ q.
Proof.
  intros Hn Hsane Hp Hq Hnil E. destruct es2 as [|p2 es2]; [done|]. cbn [head_of] in Hq. subst q.
  assert (Hin : e_at p2 ∈ ((p2 :: es2) ≫= elem_addrs)) by (apply at_in_addrs; by left).
  unfold word_of in E. destruct (isEnvelope (e_type p)) eqn:He.
  - destruct (e_kids p) as [|b ty aux w kids nx] eqn:Ek; [done|]. cbn [first_of] in E.
    replace (es1 ++ p :: p2 :: es2) with ((es1 ++ [p]) ++ p2 :: es2) in Hn by by rewrite <- app_assoc.
    destruct (NoDup_bind_app _ _ Hn) as (_ & Hd & _). apply (Hd (e_at p2)); [|exact Hin].
    rewrite <- E, bind_app, elem_of_app. right. cbn [mbind list_bind]. rewrite app_nil_r. unfold elem_addrs. rewrite Ek. right. by left.
  - destruct Hsane as (_ & Hw & _). apply (Hw He). rewrite E. apply at_in_addrs. set_solver.
Qed.

(** A new element for the list [e], whose elements are [es]. *)
Section Insertion.
Context (m : memory) (e : elem) (es : list elem) (t : Z) (new : elem) (tn : Z).
Context (He : isEnvelope (e_type e) = true) (Hs : seg (cells m) [with_list nilCell es e] t) (Hnew : seg (cells m) [new] tn)
  (Hnh : e_at e ∉ (es ≫= elem_addrs)) (Hnd : NoDup (es ≫= elem_addrs)) (Hnn : NoDup (elem_addrs new))
  (Hdis : ∀ x, x ∈ elem_addrs new → x ∉ e_at e :: (es ≫= elem_addrs)).

#[local] Abbreviation touched := (e_at e :: (es ≫= elem_addrs) ++ [e_at new]).

Lemma new_apart x : x ∈ elem_addrs new → x ∉ (es ≫= elem_addrs).
Proof. intros Hx Hin. apply (Hdis x Hx). by right. Qed.

Lemma insert_front : ∃ m1 m2, put (e_at e) (set_cell_contents (e_at new)) m = Ok m1 ∧
  put (e_at new) (set_next (head_of es nilCell)) m1 = Ok m2 ∧
  seg (cells m2) [with_list nilCell (new :: es) e] t ∧ edited touched m m2.
Proof.
  pose proof Hs as (Hc & Hhi & Hpl & Hes)%seg_with; [|done]. pose proof Hnew as (Hcn & Hpn & Hkn & _).
  assert (Hne : e_at new ≠ e_at e) by (intros E; apply (Hdis (e_at new)); [by left|rewrite E; by left]).
  destruct (put_edited touched (e_at e) (set_cell_contents (e_at new)) m _ Hc (proj1 Hpl) ltac:(by left)) as (m1 & E1 & C1 & D1).
  assert (Hcn1 : cells m1 !! e_at new = Some (cell_of tn new)) by (rewrite C1, lookup_insert_ne by done; exact Hcn).
  destruct (put_edited touched (e_at new) (set_next (head_of es nilCell)) m1 _ Hcn1 (proper_free _ Hpn _) ltac:(set_solver))
    as (m2 & E2 & C2 & D2).
  exists m1, m2. split; [done|]. split; [done|]. split; [|by eapply edited_trans]. rewrite seg_with by done.
  rewrite C2, C1. split; [by rewrite lookup_insert_ne, lookup_insert_eq|]. split; [done|]. split; [done|].
  change (new :: es) with ([new] ++ es). apply seg_app. split.
  - rewrite <- C1. apply (seg_relink (cells m1) [] new tn (head_of es nilCell)); [by cbn [app]; rewrite bind_single|].
    eapply seg_ext; [|exact Hnew]. intros x Hx. rewrite C1. apply lookup_insert_ne. intros <-.
    cbn [app] in Hx. rewrite bind_single in Hx. apply (Hdis _ Hx). by left.
  - eapply seg_ext; [|exact Hes]. intros x Hx.
    assert (e_at new ≠ x) by (intros E; subst x; apply (new_apart (e_at new)); [by left|done]).
    assert (e_at e ≠ x) by (by intros E; subst x). by rewrite !lookup_insert_ne.
Qed.

Lemma insert_after k p : es !! k = Some p → ∃ m1 m2, put (e_at p) (set_next (e_at new)) m = Ok m1 ∧
  put (e_at new) (set_next (head_of (drop (S k) es) nilCell)) m1 = Ok m2 ∧
  seg (cells m2) [with_list nilCell (insert_at (S k) new es) e] t ∧ edited touched m m2.
Proof.
  pose proof Hs as (Hc & Hhi & Hpl & Hes)%seg_with; [|done]. pose proof new_apart as Hdis'.
  intros Hk. pose proof (seg_split _ _ _ Hk) as E. assert (Hnd' := Hnd). rewrite E in Hes, Hnd', Hdis'.
  destruct (insert_behind m _ p _ new _ Hes Hnew Hnd' Hnn Hdis') as (m1 & m2 & E1 & E2 & S2 & D2).
  assert (Hpin : e_at p ∈ (es ≫= elem_addrs)) by by apply at_in_addrs, (list_elem_of_lookup_2 _ k).
  exists m1, m2. split; [done|]. split; [done|]. split.
  - eapply seg_header; [done|exact Hs| | |].
    + apply (ed_frame _ _ _ D2). intros [H|H%list_elem_of_singleton]%elem_of_cons; [apply Hnh; by rewrite H|].
      apply (Hdis (e_at new)); [by left|rewrite H; by left].
    + unfold insert_at. rewrite head_app. rewrite E at 3. rewrite (take_S_r _ _ _ Hk), head_app. by destruct (take k es).
    + unfold insert_at. rewrite (take_S_r _ _ _ Hk), <- app_assoc. exact S2.
  - eapply edited_mono; [|exact D2]. set_solver.
Qed.

(** The element before the place does not hold what comes behind it. *)
Lemma before_word k p : (∀ p, p ∈ es → sane_elem (es ≫= elem_addrs) p) → (es !! S k = None → hits_nil es = false) →
  es !! k = Some p → word_of (e_type p) (e_word p) (e_kids p) ≠ head_of (drop (S k) es) nilCell.
Proof.
  intros Hsane Hhit Hk. pose proof Hs as (_ & _ & _ & Hes)%seg_with; [|done]. pose proof (seg_split _ _ _ Hk) as E.
  destruct (es !! S k) as [q|] eqn:Hq.
  - apply (word_apart p _ (take k es) (drop (S k) es)); [by rewrite <- E| | |done|].
    + rewrite <- E. by apply Hsane, (list_elem_of_lookup_2 _ k).
    + eapply seg_proper; [exact Hes|]. by apply (list_elem_of_lookup_2 _ k).
    + apply (head_not_nil (cells m)); [|rewrite (drop_S _ _ _ Hq); done]. rewrite <- (take_drop (S k) es) in Hes.
      by apply seg_app in Hes as [_ ?].
  - specialize (Hhit eq_refl). apply lookup_ge_None_1 in Hq. rewrite drop_ge by lia. cbn [head_of].
    apply lookup_lt_Some in Hk as Hlt. unfold hits_nil in Hhit. rewrite last_lookup in Hhit.
    replace (Init.Nat.pred (length es)) with k in Hhit by lia. rewrite Hk in Hhit. by apply Z.eqb_neq.
Qed.

Lemma push_link_ok i j : visit i (length es) = Some j → (∀ p, p ∈ es → sane_elem (es ≫= elem_addrs) p) →
  (es !! j = None → hits_nil es = false) →
  ∃ m', push_link (before i (length es)) (prev_at (e_at e) es j) (head_of (drop j es) nilCell) (e_at new) m = Ok m' ∧
    seg (cells m') [with_list nilCell (insert_at (slot i (length es) j) new es) e] t ∧ edited touched m m'.
Proof.
  intros Hv Hsane Hhit. pose proof Hs as (Hc & _ & _ & Hes)%seg_with; [|done].
  unfold push_link, slot. destruct (before i (length es)) eqn:Hb; cbn [orb]; [destruct j as [|k]; cbn [prev_at]|].
  - rewrite (cell_at_ok _ _ _ Hc). cbn [mbind result_bind c_contents]. rewrite drop_0, Z.eqb_refl.
    destruct insert_front as (m1 & m2 & E1 & E2 & S2 & D2). rewrite E1. cbn [mbind result_bind]. exists m2. by rewrite E2.
  - apply visit_le in Hv. destruct (lookup_lt_is_Some_2 es k ltac:(lia)) as [p Hk]. rewrite Hk.
    destruct (insert_after k p Hk) as (m1 & m2 & E1 & E2 & S2 & D2).
    rewrite (seg_split _ _ _ Hk) in Hes. apply seg_app in Hes as [_ (Hcp & _)].
    rewrite (cell_at_ok _ _ _ Hcp). cbn [mbind result_bind c_contents cell_of].
    rewrite (proj2 (Z.eqb_neq _ _)) by (apply not_eq_sym, before_word; done).
    rewrite E1. cbn [mbind result_bind]. exists m2. by rewrite E2.
  - apply visit_after in Hv; [|done]. destruct (lookup_lt_is_Some_2 es j Hv) as [p Hk].
    destruct (insert_after j p Hk) as (m1 & m2 & E1 & E2 & S2 & D2).
    rewrite (seg_split _ _ _ Hk) in Hes. apply seg_app in Hes as [_ Hp]. rewrite (drop_S _ _ _ Hk).
    rewrite (proj2 (Z.eqb_neq _ _)) by by apply (head_not_nil _ _ _ Hp). cbn [head_of].
    destruct Hp as (Hcp & _). rewrite (cell_at_ok _ _ _ Hcp). cbn [mbind result_bind c_next cell_of].
    rewrite E1. cbn [mbind result_bind]. exists m2. by rewrite E2.
Qed.

End Insertion.

(** ** The walk *)

Lemma sane_mono A A' c : A' ⊆ A → sane A c → sane A' c.
Proof.
  intros Hs. induction c as [|a ty aux w kids IHk nx IHn]; [done|]. cbn. intros (H1 & H2 & H3 & H4).
  split; [done|]. split; [intros He Hw; apply (H2 He), Hs, Hw|]. auto.
Qed.

Lemma sane_elem_mono A A' e : A' ⊆ A → sane_elem A e → sane_elem A' e.
Proof. intros Hs (H1 & H2 & H3). split; [done|]. split; [intros He Hw; by apply (H2 He), Hs|by eapply sane_mono]. Qed.

(** What the walk promises of the insertion behind it. *)
Definition promises (e : elem) (t : Z) (f : elem → elem) (bf : bool) (cell target : Z) (m1 : memory) : Prop :=
  ∀ m2 new tn, (∀ x, x ∈ elem_addrs e → cells m2 !! x = cells m1 !! x) → seg (cells m2) [new] tn →
    NoDup (elem_addrs new) → (∀ x, x ∈ elem_addrs new → x ∉ elem_addrs e) →
    ∃ m3, push_link bf cell target (e_at new) m2 = Ok m3 ∧ seg (cells m3) [f new] t ∧ e_at (f new) = e_at e ∧
      edited (elem_addrs e ++ [e_at new]) m2 m3.

Lemma reset_ok m e t : isEnvelope (e_type e) = true → seg (cells m) [e] t → NoDup (elem_addrs e) → ∃ m1,
  put (e_at e) (set_aux nilCell) m = Ok m1 ∧ edited (elem_addrs e) m m1 ∧
  seg (cells m1) [with_list nilCell (elements e) e] t.
Proof.
  intros He Hs Hn. pose proof (seg_elements _ _ _ He Hs) as (Hc & Hhi & Hpl & Hes).
  destruct (put_edited (elem_addrs e) (e_at e) (set_aux nilCell) m _ Hc (proj1 Hpl) ltac:(by left)) as (m1 & E1 & C1 & D1).
  exists m1. split; [done|]. split; [done|]. rewrite seg_with by done. rewrite C1, lookup_insert_eq.
  split; [done|]. split; [done|]. split; [done|]. eapply seg_ext; [|exact Hes]. intros x Hx. apply lookup_insert_ne.
  intros <-. rewrite addrs_elements in Hn. by apply NoDup_cons in Hn as [Hn _].
Qed.

(** The insertion in this list. *)
Lemma here_promises m1 e t i j : isEnvelope (e_type e) = true → NoDup (elem_addrs e) →
  sane (elem_addrs e) (e_kids e) → seg (cells m1) [with_list nilCell (elements e) e] t → visit i (length (elements e)) = Some j →
  (elements e !! j = None → hits_nil (elements e) = false) →
  promises e t (λ new, with_list nilCell (insert_at (slot i (length (elements e)) j) new (elements e)) e)
    (before i (length (elements e))) (prev_at (e_at e) (elements e) j) (head_of (drop j (elements e)) nilCell) m1.
Proof.
  intros He Hn Hsane Hs Hv Hhit m2 new tn Hsame Hnew Hnn Hdis. rewrite (addrs_elements e) in *.
  apply NoDup_cons in Hn as [Hn1 Hn2].
  assert (Hs2 : seg (cells m2) [with_list nilCell (elements e) e] t).
  { eapply seg_ext; [|exact Hs]. intros x Hx. apply Hsame. by rewrite bind_single, addrs_with in Hx. }
  destruct (push_link_ok m2 e (elements e) t new tn He Hs2 Hnew Hn1 Hn2 Hnn Hdis i j Hv) as (m3 & E & S3 & D3); [|done|].
  { intros p Hp. eapply sane_elem_mono; [|by eapply sane_elements]. set_solver. }
  exists m3. split; [done|]. split; [done|]. split; [done|]. exact D3.
Qed.

(** An element that has changed in place. *)
Lemma seg_replace h h' es j s x : es !! j = Some s → seg h es nilCell → NoDup (es ≫= elem_addrs) →
  seg h' [x] (head_of (drop (S j) es) nilCell) → e_at x = e_at s →
  (∀ a, a ∈ (es ≫= elem_addrs) → a ∉ elem_addrs s → h' !! a = h !! a) →
  seg h' (<[j := x]> es) nilCell ∧ head_of (<[j := x]> es) nilCell = head_of es nilCell.
Proof.
  intros Hj Hs Hn Hx Hat Hf. pose proof (seg_split _ _ _ Hj) as E. pose proof (lookup_lt_Some _ _ _ Hj) as Hlt.
  rewrite insert_take_drop by done. split.
  - assert (Hs' := Hs). rewrite E in Hs', Hn. apply seg_app in Hs' as [Hs1 (_ & _ & _ & Hs2)].
    destruct (NoDup_bind_app _ _ Hn) as (_ & Hd & Hn2). cbn [mbind list_bind] in Hn2.
    apply NoDup_app in Hn2 as (_ & Hd2 & _). apply seg_app. split; [|change (x :: drop (S j) es) with ([x] ++ drop (S j) es); apply seg_app; split; [exact Hx|]].
    + cbn [head_of] in Hs1 |- *. rewrite Hat. eapply seg_ext; [|exact Hs1]. intros a Ha. apply Hf.
      * rewrite E, bind_app, elem_of_app. by left.
      * intros Hin. apply (Hd a Ha). cbn [mbind list_bind]. apply elem_of_app. by left.
    + eapply seg_ext; [|exact Hs2]. intros a Ha. apply Hf.
      * rewrite E, bind_app, elem_of_app. right. cbn [mbind list_bind]. apply elem_of_app. by right.
      * intros Hin. by apply (Hd2 a Hin).
  - rewrite head_app. rewrite E at 3. rewrite head_app. cbn [head_of]. by rewrite Hat.
Qed.

Lemma elem_addrs_in es j (s : elem) : es !! j = Some s → ∀ a, a ∈ elem_addrs s → a ∈ (es ≫= elem_addrs).
Proof. intros Hj a Ha. apply list_elem_of_bind. exists s. split; [done|]. by eapply list_elem_of_lookup_2. Qed.

(** The insertion in an element of this list. *)
Lemma inside_promises m' m1 e t j s f bf cell target : isEnvelope (e_type e) = true → NoDup (elem_addrs e) →
  elements e !! j = Some s → seg (cells m') [with_list nilCell (elements e) e] t → edited (elem_addrs s) m' m1 →
  promises s (head_of (drop (S j) (elements e)) nilCell) f bf cell target m1 →
  promises e t (λ new, with_list nilCell (<[j := f new]> (elements e)) e) bf cell target m1.
Proof.
  intros He Hn Hj Hs D1 Hp m2 new tn Hsame Hnew Hnn Hdis. rewrite (addrs_elements e) in *.
  apply NoDup_cons in Hn as [Hn1 Hn2]. pose proof (elem_addrs_in _ _ _ Hj) as Hin.
  destruct (Hp m2 new tn) as (m3 & E & S3 & A3 & D3); [|done|done| |].
  { intros x Hx. apply Hsame. right. by apply Hin. }
  { intros x Hx Hxs. apply (Hdis x Hx). right. by apply Hin. }
  exists m3. split; [done|]. split; [|split; [done|]]; cycle 1.
  { eapply edited_mono; [|exact D3]. intros x. rewrite elem_of_app. intros [Hx|Hx]; [|set_solver].
    right. apply elem_of_app. left. by apply Hin. }
  pose proof Hs as (Hc & Hhi & Hpl & Hes)%seg_with; [|done].
  assert (Hkeep : ∀ a, a ∈ e_at e :: (elements e ≫= elem_addrs) → a ∉ elem_addrs s → cells m3 !! a = cells m' !! a).
  { intros a Ha Has. rewrite (ed_frame _ _ _ D3), Hsame, (ed_frame _ _ _ D1); [done|done|done|].
    intros [?|?%list_elem_of_singleton]%elem_of_app; [done|]. subst a. apply (Hdis (e_at new)); [by left|done]. }
  destruct (seg_replace (cells m') (cells m3) (elements e) j s (f new) Hj Hes Hn2) as [S4 F4]; [done|done| |].
  { intros a Ha. apply Hkeep. by right. }
  rewrite seg_with by done. rewrite F4, Hkeep; [done|by left|]. intros Hx. apply Hn1. by apply Hin.
Qed.

Lemma nil_apart h e t : seg h [e] t → nilCell ∉ elem_addrs e.
Proof. intros Hs Hx. rewrite <- bind_single in Hx. pose proof (seg_high _ _ _ _ Hs Hx). by unfold nilCell in *. Qed.

Lemma push_place_eq i path e : push_place (i :: path) e =
  match visit i (length (elements e)) with
  | None => None
  | Some j =>
      match path, elements e !! j with
      | _ :: _, Some s =>
          if isList (e_type s) then
            match push_place path s with
            | Some f => Some (λ new, with_list nilCell (<[j := f new]> (elements e)) e)
            | None => None
            end
          else Some (λ new, with_list nilCell (insert_at (slot i (length (elements e)) j) new (elements e)) e)
      | _, _ => Some (λ new, with_list nilCell (insert_at (slot i (length (elements e)) j) new (elements e)) e)
      end
  end.
Proof. cbn [push_place]. by destruct (visit i (length (elements e))). Qed.

Lemma appendable_eq i path e : appendable (i :: path) e =
  match visit i (length (elements e)) with
  | None => true
  | Some j =>
      match elements e !! j with
      | Some s => if negb (bool_decide (path = [])) && isList (e_type s) then appendable path s else true
      | None => negb (hits_nil (elements e))
      end
  end.
Proof. done. Qed.

Lemma sane_inside e j s : sane (elem_addrs e) (e_kids e) → elements e !! j = Some s →
  (isList (e_type s) = true → isEnvelope (e_type s) = true) ∧ sane (elem_addrs s) (e_kids s).
Proof.
  intros Hs Hj. destruct (sane_elements _ _ s Hs) as (H1 & _ & H3); [by eapply list_elem_of_lookup_2|].
  split; [done|]. eapply sane_mono; [|exact H3]. intros x Hx. rewrite (addrs_elements e). right. by eapply elem_addrs_in.
Qed.

Lemma nodup_inside e j s : NoDup (elem_addrs e) → elements e !! j = Some s → NoDup (elem_addrs s).
Proof.
  intros Hn Hj. rewrite (addrs_elements e), (seg_split _ _ _ Hj) in Hn. apply NoDup_cons in Hn as [_ Hn].
  destruct (NoDup_bind_app _ _ Hn) as (_ & _ & H). cbn [mbind list_bind] in H. by apply NoDup_app in H as [? _].
Qed.

Lemma push_walk_ok path : ∀ i e t m, nil_ok m → seg (cells m) [e] t → isEnvelope (e_type e) = true → NoDup (elem_addrs e) →
  sane (elem_addrs e) (e_kids e) → appendable (i :: path) e = true →
  match push_place (i :: path) e with
  | None => push_walk path i (e_at e) m = Fail ERR_LIST_INDEX_INVALID
  | Some f => ∃ bf cell target m1, push_walk path i (e_at e) m = Ok (bf, cell, target, m1) ∧
      edited (elem_addrs e) m m1 ∧ promises e t f bf cell target m1
  end.
Proof.
  induction path as [|i' path IH]; intros i e t m Hnil Hs He Hn Hsane Ha;
    destruct (reset_ok m e t He Hs Hn) as (m' & E' & D' & S'); rewrite push_place_eq; cbn [push_walk];
    rewrite E'; cbn [mbind result_bind];
    pose proof S' as (Hc & Hhi & Hpl & Hes)%seg_with; try done;
    rewrite (cell_at_ok _ _ _ Hc); cbn [mbind result_bind c_contents];
    assert (Hn2 := Hn); rewrite addrs_elements in Hn2; apply NoDup_cons in Hn2 as [Hn1 Hn2];
    rewrite visit_ok by done; rewrite appendable_eq in Ha;
    (destruct (visit i (length (elements e))) as [j|] eqn:Hv; [|done]);
    assert (Hnil' : nil_ok m') by (eapply edited_nil; [exact D'|by eapply nil_apart|done]);
    destruct (stop_ok m' (elements e) j Hnil' Hes) as (c & Ec & Tc); rewrite Ec; cbn [mbind result_bind].
  - eexists _, _, _, _. split; [done|]. split; [done|]. apply here_promises; try done.
    intros Hj. rewrite Hj in Ha. by apply negb_true_iff.
  - rewrite Tc. destruct (elements e !! j) as [s|] eqn:Hj; [destruct (isList (e_type s)) eqn:Hl|].
    + destruct (sane_inside _ _ _ Hsane Hj) as [Hls Hss]. rewrite (drop_S _ _ _ Hj). cbn [head_of].
      assert (Hss' : seg (cells m') [s] (head_of (drop (S j) (elements e)) nilCell)).
      { rewrite (seg_split _ _ _ Hj) in Hes. apply seg_app in Hes as [_ Hes].
        change (s :: drop (S j) (elements e)) with ([s] ++ drop (S j) (elements e)) in Hes. by apply seg_app in Hes as [? _]. }
      specialize (IH i' s _ m' Hnil' Hss' (Hls Hl) (nodup_inside _ _ _ Hn Hj) Hss Ha).
      destruct (push_place (i' :: path) s) as [f|]; [|exact IH]. destruct IH as (bf & cell & target & m1 & E1 & D1 & P1).
      exists bf, cell, target, m1. split; [done|]. split; [|by eapply inside_promises].
      eapply edited_trans; [exact D'|]. eapply edited_mono; [|exact D1]. intros x Hx. rewrite (addrs_elements e). right.
      by eapply elem_addrs_in.
    + eexists _, _, _, _. split; [done|]. split; [done|]. apply here_promises; try done. by rewrite Hj.
    + eexists _, _, _, _. split; [done|]. split; [done|]. apply here_promises; try done. intros _. by apply negb_true_iff.
Qed.

(** ** The index -1 *)

(** The last-element pointer of a list is nil or right. *)
Definition tail_ok (e : elem) : Prop :=
  e_aux e = nilCell ∨ elements e ≠ [] ∧ e_aux e = last_at nilCell (elements e).

Lemma last_cell_seg m es p : seg (cells m) (es ++ [p]) nilCell → NoDup ((es ++ [p]) ≫= elem_addrs) →
  last_cell (S (size (cells m))) (head_of (es ++ [p]) nilCell) m = Ok (e_at p).
Proof.
  intros Hs Hn. pose proof Hs as Hr%reprs_seg. assert (Hn' := Hn). rewrite <- addrs_chain_of in Hn'.
  pose proof (cells_enough _ _ Hr Hn') as Hc. destruct (es ++ [p]) as [|e0 es0] eqn:E; [by destruct es|].
  cbn [chain_of head_of] in *. rewrite (last_cell_ok m _ _ _ _ _ _ _ Hr) by lia. f_equal.
  rewrite last_addr_chain. transitivity (last_at (e_at e0) (e0 :: es0)).
  - unfold last_at. rewrite last_cons. by destruct (last es0).
  - rewrite <- E. apply last_at_snoc.
Qed.

(** However the last element is found. *)
Lemma last_found m e es p f (K : result memory) : seg (cells m) (es ++ [p]) nilCell → NoDup ((es ++ [p]) ≫= elem_addrs) →
  elements e = es ++ [p] → tail_ok e →
  (if negb (e_aux e =? nilCell) && negb (e_aux e =? trueCell) then put (e_aux e) f m
   else if head_of (es ++ [p]) nilCell =? nilCell then K
   else last ← last_cell (S (size (cells m))) (head_of (es ++ [p]) nilCell) m; put last f m) = put (e_at p) f m.
Proof.
  intros Hs Hn Ees Htail.
  assert (Hh : head_of (es ++ [p]) nilCell ≠ nilCell) by (apply (head_not_nil _ _ _ Hs); by destruct es).
  apply Z.eqb_neq in Hh. destruct Htail as [-> | [_ ->]]; [by rewrite Hh, last_cell_seg|].
  rewrite Ees, last_at_snoc. apply seg_app in Hs as [_ (_ & (Hlow & _) & _)].
  by rewrite (proj2 (Z.eqb_neq _ _)), (proj2 (Z.eqb_neq _ _)) by (unfold nilCell, trueCell; lia).
Qed.

Lemma push_last_ok m e t new : isEnvelope (e_type e) = true → seg (cells m) [e] t → NoDup (elem_addrs e) →
  seg (cells m) [new] nilCell → NoDup (elem_addrs new) → (∀ x, x ∈ elem_addrs new → x ∉ elem_addrs e) → tail_ok e →
  ∃ m', push_last (e_at e) (e_at new) m = Ok m' ∧
    seg (cells m') [with_list (e_at new) (elements e ++ [new]) e] t ∧ edited (elem_addrs e ++ [e_at new]) m m'.
Proof.
  intros He Hs Hn Hnew Hnn Hdis Htail. pose proof (seg_elements _ _ _ He Hs) as (Hc & Hhi & Hpl & Hes).
  assert (Hn' := Hn). rewrite addrs_elements in Hn'. apply NoDup_cons in Hn' as [Hn1 Hn2].
  set (A := elem_addrs e ++ [e_at new]). assert (HeA : e_at e ∈ A) by by left.
  destruct (put_edited A (e_at e) (set_aux (e_at new)) m _ Hc (proj1 Hpl) HeA) as (m1 & E1 & C1 & D1).
  assert (Hes1 : seg (cells m1) (elements e) nilCell).
  { eapply seg_ext; [|exact Hes]. intros x Hx. rewrite C1. apply lookup_insert_ne. by intros <-. }
  assert (Hc1 : cells m1 !! e_at e = Some (CellOf (e_type e) t (e_at new) (head_of (elements e) nilCell))).
  { by rewrite C1, lookup_insert_eq. }
  assert (Hnew1 : seg (cells m1) [new] nilCell).
  { eapply seg_ext; [|exact Hnew]. intros x Hx. rewrite bind_single in Hx. rewrite C1. apply lookup_insert_ne. intros <-.
    apply (Hdis _ Hx). by left. }
  unfold push_last. rewrite (cell_at_ok _ _ _ Hc). cbn [mbind result_bind c_aux c_contents]. rewrite E1. cbn [mbind result_bind].
  destruct (elements e) as [|p0 es0] eqn:Ees using rev_ind; [|clear IHes0].
  - cbn [head_of] in *. replace (negb (e_aux e =? nilCell) && negb (e_aux e =? trueCell)) with false.
    2: { destruct Htail as [-> | [H _]]; [done|]. by rewrite Ees in H. }
    rewrite Z.eqb_refl. destruct (put_edited A (e_at e) (set_cell_contents (e_at new)) m1 _ Hc1 (proj1 Hpl) HeA) as (m2 & E2 & C2 & D2).
    exists m2. split; [done|]. split; [|by eapply edited_trans]. rewrite seg_with by done. rewrite C2, lookup_insert_eq.
    split; [done|]. split; [done|]. split; [done|]. eapply seg_ext; [|exact Hnew1]. intros x Hx. cbn [app] in Hx.
    rewrite bind_single in Hx. apply lookup_insert_ne. intros <-. apply (Hdis _ Hx). by left.
  - assert (Hp : seg (cells m1) [p0] nilCell) by (apply seg_app in Hes1; apply Hes1). destruct Hp as (Hcp & Hpp & _).
    assert (HpA : e_at p0 ∈ A).
    { right. apply elem_of_app. left. rewrite <- (chain_of_elems (e_kids e)), addrs_chain_of. fold (elements e). rewrite Ees.
      apply at_in_addrs. set_solver. }
    destruct (put_edited A (e_at p0) (set_next (e_at new)) m1 _ Hcp (proper_free _ Hpp _) HpA) as (m2 & E2 & C2 & D2).
    exists m2. split.
    + rewrite (last_found m1 e es0 p0) by done. exact E2.
    + split; [|by eapply edited_trans]. rewrite seg_with by done. rewrite C2.
      assert (Hne : e_at p0 ≠ e_at e).
      { intros E. apply Hn1. rewrite <- E. apply at_in_addrs. set_solver. }
      rewrite lookup_insert_ne by done. rewrite Hc1. rewrite head_app. split; [by destruct es0|].
      split; [done|]. split; [done|]. apply seg_app. split.
      * cbn [head_of]. by apply (seg_relink (cells m1) es0 p0 nilCell).
      * eapply seg_ext; [|exact Hnew1]. intros x Hx. rewrite bind_single in Hx. apply lookup_insert_ne. intros E.
        apply (Hdis _ Hx). rewrite <- E, addrs_elements, Ees. right. apply at_in_addrs. set_solver.
Qed.

(** ** Last-element pointers *)

(** Every last-element pointer in a list, at any depth, is nil or right. *)
Fixpoint tails (c : chain) : Prop :=
  match c with
  | Nil => True
  | At a type aux w kids next =>
      (isEnvelope type = true → tail_ok (Elem a type aux w kids)) ∧ tails kids ∧ tails next
  end.

Definition tails_elem (e : elem) : Prop := (isEnvelope (e_type e) = true → tail_ok e) ∧ tails (e_kids e).

Lemma tails_elements e : tails (e_kids e) ↔ Forall tails_elem (elements e).
Proof.
  unfold elements. generalize (e_kids e) as c. induction c as [|a ty aux w kids _ nx IH]; [by split; constructor|].
  cbn. rewrite Forall_cons, IH. unfold tails_elem. cbn. tauto.
Qed.

Lemma tails_with aux es e : tail_ok (with_list aux es e) → Forall tails_elem es → tails_elem (with_list aux es e).
Proof. intros H1 H2. split; [done|]. apply tails_elements. by rewrite elements_with. Qed.

Lemma insert_at_perm k new es : insert_at k new es ≡ₚ new :: es.
Proof. unfold insert_at. rewrite <- Permutation_middle. by rewrite take_drop. Qed.

Lemma bind_perm (es1 es2 : list elem) : es1 ≡ₚ es2 → (es1 ≫= elem_addrs) ≡ₚ (es2 ≫= elem_addrs).
Proof. intros H. by rewrite H. Qed.

(** The new list consists of the cells of the old one and of the new element, and its
    last-element pointers are right. *)
Lemma push_place_keeps path : ∀ e f new, push_place path e = Some f →
  elem_addrs (f new) ≡ₚ elem_addrs e ++ elem_addrs new ∧ (tails_elem e → tails_elem new → tails_elem (f new)).
Proof.
  induction path as [|i path IH]; intros e f new; [done|]. rewrite push_place_eq.
  destruct (visit i (length (elements e))) as [j|]; [|done].
  assert (Hhere : let f := λ new, with_list nilCell (insert_at (slot i (length (elements e)) j) new (elements e)) e in
    elem_addrs (f new) ≡ₚ elem_addrs e ++ elem_addrs new ∧ (tails_elem e → tails_elem new → tails_elem (f new))).
  { split.
    - rewrite addrs_with, (addrs_elements e). cbn [app]. apply perm_skip. rewrite (bind_perm _ _ (insert_at_perm _ _ _)).
      cbn [mbind list_bind]. apply Permutation_app_comm.
    - intros [_ H1%tails_elements] H2. apply tails_with; [by left|]. rewrite insert_at_perm. by constructor. }
  destruct path as [|i' path]; [by intros [= <-]|]. destruct (elements e !! j) as [s|] eqn:Hj; [|by intros [= <-]].
  destruct (isList (e_type s)); [|by intros [= <-]]. destruct (push_place (i' :: path) s) as [g|] eqn:Hg; [|done].
  intros [= <-]. destruct (IH _ _ new Hg) as [P1 T1]. pose proof (lookup_lt_Some _ _ _ Hj) as Hlt.
  rewrite insert_take_drop by done. split.
  - rewrite addrs_with, (addrs_elements e). cbn [app]. apply perm_skip. rewrite (seg_split _ _ _ Hj) at 3.
    rewrite !bind_app. cbn [mbind list_bind]. rewrite P1. rewrite <- !app_assoc. do 2 apply Permutation_app_head.
    apply Permutation_app_comm.
  - intros [_ H1%tails_elements] H2. apply tails_with; [by left|]. rewrite (seg_split _ _ _ Hj) in H1.
    apply Forall_app in H1 as [H3 [H4 H5]%Forall_cons]. apply Forall_app. split; [done|]. constructor; [by apply T1|done].
Qed.
