(* ===== verification/Popping.v ===== *)
(** * Popping and indexing (src/nl-liststr.c, [p_pop]; src/nl-list.c, [implicitIndexList])

    The element that a path of indices names, and the list without it. *)

From stdpp Require Import base list numbers tactics gmap.
From Stdlib Require Import ZArith Lia.
From S2P Require Import Prelude Cell Nursery Evacuate Collect Lists Deleting Copying Listops Segments Pushing.

#[global] Open Scope Z_scope.
#[local] Set Warnings "-clear-no-such-hyp".

(** ** The element of an index *)

Definition pick (i : Z) (n : nat) : option nat :=
  let i := if i <? 0 then Z.of_nat n + i else i in
  if (0 <=? i) && (i <? Z.of_nat n) then Some (Z.to_nat i) else None.

Lemma pick_lt i n j : pick i n = Some j → (j < n)%nat.
Proof. unfold pick. repeat case_match; intros [= <-]; lia. Qed.

Lemma pick_ok {R} m es i l (K : Z → Z → result R) : nil_ok m → seg (cells m) es nilCell → NoDup (es ≫= elem_addrs) →
  (index ← (if i <? 0 then convertNegativeOffset i (head_of es nilCell) m else Ok i);
   '(cell, p) ← steps (Z.to_nat index) l (head_of es nilCell) m;
   if p =? nilCell then Fail ERR_LIST_INDEX_INVALID else K cell p) =
  match pick i (length es) with
  | Some j => K (prev_at l es j) (head_of (drop j es) nilCell)
  | None => Fail ERR_LIST_INDEX_INVALID
  end.
Proof.
  intros Hnil Hs Hn. unfold pick.
  assert (Hgo : ∀ k, 0 ≤ k → ('(cell, p) ← steps (Z.to_nat k) l (head_of es nilCell) m;
    if p =? nilCell then Fail ERR_LIST_INDEX_INVALID else K cell p) =
    match (if (0 <=? k) && (k <? Z.of_nat (length es)) then Some (Z.to_nat k) else None) with
    | Some j => K (prev_at l es j) (head_of (drop j es) nilCell)
    | None => Fail ERR_LIST_INDEX_INVALID
    end).
  { intros k Hk. rewrite steps_ok by done. cbn [mbind result_bind]. rewrite (proj2 (Z.leb_le 0 k)) by lia. cbn [andb].
    destruct (Z.ltb_spec k (Z.of_nat (length es))) as [Hlt|Hge].
    - rewrite (proj2 (Z.eqb_neq _ _)); [done|]. rewrite <- (take_drop (Z.to_nat k) es) in Hs. apply seg_app in Hs as [_ Hs].
      apply (head_not_nil _ _ _ Hs). intros E%(f_equal length). rewrite length_drop in E. cbn in E. lia.
    - rewrite drop_ge by lia. cbn [head_of]. by rewrite Z.eqb_refl. }
  destruct (Z.ltb_spec i 0) as [Hi|Hi]; [|by apply Hgo]. rewrite offset_ok by done.
  destruct (Z.ltb_spec (Z.of_nat (length es) + i) 0).
  - cbn [mbind result_bind]. by rewrite (proj2 (Z.leb_gt 0 _)) by lia.
  - cbn [mbind result_bind]. by apply Hgo.
Qed.

(** ** The list without the element *)

(** The last-element pointer when the element number [j] leaves. *)
Definition aux_without (e : elem) (j : nat) : Z :=
  if decide (S j = length (elements e)) then
    match j with O => nilCell | S _ => prev_at nilCell (elements e) j end
  else e_aux e.

Fixpoint pop_place (path : indices) (e : elem) : option (elem * elem) :=
  match path with
  | [] => None
  | i :: path =>
      let es := elements e in
      match pick i (length es) with
      | None => None
      | Some j =>
          match es !! j with
          | None => None
          | Some s =>
              if negb (bool_decide (path = [])) && isList (e_type s) then
                match pop_place path s with
                | Some (x, s') => Some (x, with_list (e_aux e) (<[j := s']> es) e)
                | None => None
                end
              else Some (s, with_list (aux_without e j) (delete j es) e)
          end
      end
  end.

Section Unlinking.
Context (m : memory) (e x : elem) (es1 es2 : list elem) (t : Z).
Context (He : isEnvelope (e_type e) = true) (Hs : seg (cells m) [e] t) (Hn : NoDup (elem_addrs e))
  (Hsane : sane (elem_addrs e) (e_kids e)) (Ees : elements e = es1 ++ x :: es2).

#[local] Abbreviation next := (head_of es2 nilCell).

(** The first step: the last-element pointer. *)
Lemma unlink_aux a : ∃ m1, (if next =? nilCell then put (e_at e) (set_aux a) m else Ok m) = Ok m1 ∧
  edited [e_at e] m m1 ∧
  cells m1 !! e_at e = Some (CellOf (e_type e) t (if next =? nilCell then a else e_aux e) (head_of (elements e) nilCell)).
Proof.
  pose proof (seg_elements _ _ _ He Hs) as (Hc & _ & Hpl & _). destruct (next =? nilCell).
  - destruct (put_edited [e_at e] (e_at e) (set_aux a) m _ Hc (proj1 Hpl) ltac:(by left)) as (m1 & E1 & C1 & D1).
    exists m1. split; [done|]. split; [done|]. by rewrite C1, lookup_insert_eq.
  - exists m. split; [done|]. split; [apply edited_refl|done].
Qed.

Lemma header_apart y : y ∈ (elements e ≫= elem_addrs) → e_at e ≠ y.
Proof. intros Hy E. subst y. rewrite addrs_elements in Hn. by apply NoDup_cons in Hn as [? _]. Qed.

(** The last step: the popped cell is on its own. *)
Lemma unlink_rest m2 : cells m2 !! e_at x = Some (cell_of next x) →
  (∀ y, y ∈ (addrs (e_kids x)) → cells m2 !! y = cells m !! y) →
  ∃ m3, put (e_at x) (set_next nilCell) m2 = Ok m3 ∧ edited (elem_addrs e) m2 m3 ∧ seg (cells m3) [x] nilCell ∧
    cells m3 = <[e_at x := cell_of nilCell x]> (cells m2).
Proof.
  intros Hx Hk. pose proof (seg_elements _ _ _ He Hs) as (_ & _ & _ & Hes). rewrite Ees in Hes.
  apply seg_app in Hes as [_ (_ & Hp & Hr & _)].
  assert (Hin : e_at x ∈ elem_addrs e) by (rewrite (addrs_elements e), Ees; right; apply at_in_addrs; set_solver).
  destruct (put_edited (elem_addrs e) (e_at x) (set_next nilCell) m2 _ Hx (proper_free _ Hp _) Hin) as (m3 & E3 & C3 & D3).
  exists m3. split; [done|]. split; [done|]. split; [|done]. cbn [seg head_of]. rewrite C3, lookup_insert_eq.
  split; [done|]. split; [done|]. split; [|done]. eapply reprs_ext; [|exact Hr]. intros y Hy.
  rewrite lookup_insert_ne; [by apply Hk|]. intros <-. rewrite (addrs_elements e), Ees in Hn. apply NoDup_cons in Hn as [_ Hn'].
  destruct (NoDup_bind_app _ _ Hn') as (_ & _ & H). cbn [mbind list_bind] in H. apply NoDup_app in H as [H _].
  by apply NoDup_cons in H as [? _].
Qed.

(** The first element: the list starts with the next one. *)
Lemma unlink_first : es1 = [] → ∃ m', pop_unlink (e_at e) (e_at e) (e_at x) m = Ok m' ∧
  seg (cells m') [with_list (if next =? nilCell then nilCell else e_aux e) es2 e] t ∧ seg (cells m') [x] nilCell ∧
  edited (elem_addrs e) m m'.
Proof.
  intros E0. assert (Ees' : elements e = x :: es2) by by rewrite Ees, E0. pose proof (seg_elements _ _ _ He Hs) as (Hc & Hhi & Hpl & Hes).
  assert (Hes' := Hes). rewrite Ees' in Hes'. destruct Hes' as (Hx & _ & _ & Hes2).
  destruct (unlink_aux nilCell) as (m1 & E1 & D1 & C1). rewrite Ees' in C1, Hc. cbn [head_of] in C1, Hc.
  assert (HeA : e_at e ∈ elem_addrs e) by by left.
  destruct (put_edited (elem_addrs e) (e_at e) (set_cell_contents next) m1 _ C1 (proj1 Hpl) HeA) as (m2 & E2 & C2 & D2).
  assert (Hkeep : ∀ y, y ∈ (elements e ≫= elem_addrs) → cells m2 !! y = cells m !! y).
  { intros y Hy. apply header_apart in Hy as Hne. rewrite C2, lookup_insert_ne by done. apply (ed_frame _ _ _ D1).
    by intros ->%list_elem_of_singleton. }
  rewrite Ees' in Hkeep.
  destruct (unlink_rest m2) as (m3 & E3 & D3 & X3 & C3).
  { rewrite Hkeep; [exact Hx|]. apply at_in_addrs. by left. }
  { intros y Hy. apply Hkeep. cbn [mbind list_bind]. right. apply elem_of_app. by left. }
  exists m3. split.
  { unfold pop_unlink. rewrite (cell_at_ok _ _ _ Hx), (cell_at_ok _ _ _ Hc). cbn [mbind result_bind c_next c_contents cell_of].
    rewrite Z.eqb_refl, E1. cbn [mbind result_bind]. rewrite E2. exact E3. }
  split; [|split; [exact X3|]].
  - assert (Hne : e_at x ≠ e_at e) by (apply not_eq_sym, header_apart; rewrite Ees'; apply at_in_addrs; by left).
    rewrite seg_with by done. rewrite C3, lookup_insert_ne, C2, lookup_insert_eq by done. split; [done|]. split; [done|].
    split; [done|]. eapply seg_ext; [|exact Hes2]. intros y Hy. rewrite lookup_insert_ne.
    + rewrite <- C2. apply Hkeep. cbn [mbind list_bind]. right. apply elem_of_app. by right.
    + intros <-. rewrite (addrs_elements e), Ees' in Hn. apply NoDup_cons in Hn as [_ Hn'].
      destruct (NoDup_bind_app [x] es2 Hn') as (_ & H & _). apply (H (e_at x)); [apply at_in_addrs; by left|done].
  - eapply edited_trans; [eapply edited_mono; [|exact D1]; set_solver|]. by eapply edited_trans.
Qed.

(** Another element: the one before it is joined with the next one. *)
Lemma unlink_other es0 p : es1 = es0 ++ [p] → ∃ m', pop_unlink (e_at e) (e_at p) (e_at x) m = Ok m' ∧
  seg (cells m') [with_list (if next =? nilCell then e_at p else e_aux e) (es1 ++ es2) e] t ∧ seg (cells m') [x] nilCell ∧
  edited (elem_addrs e) m m'.
Proof.
  intros E1s. pose proof (seg_elements _ _ _ He Hs) as (Hc & Hhi & Hpl & Hes).
  assert (Hes' := Hes). rewrite Ees in Hes'. apply seg_app in Hes' as [Hseg1 (Hx & Hpx & _ & Hes2)]. cbn [head_of] in Hseg1.
  assert (Hn' := Hn). rewrite addrs_elements, Ees in Hn'. apply NoDup_cons in Hn' as [_ Hn'].
  destruct (NoDup_bind_app _ _ Hn') as (Hn1 & Hd12 & Hn2). rewrite E1s in Hseg1, Hn1.
  assert (Hp : seg (cells m) [p] (e_at x)) by (by apply seg_app in Hseg1 as [_ ?]). destruct Hp as (Hcp & Hpp & _).
  assert (Hpin : e_at p ∈ (es1 ≫= elem_addrs)) by (rewrite E1s; apply at_in_addrs; set_solver).
  assert (Hpe : e_at p ∈ (elements e ≫= elem_addrs)) by (rewrite Ees, bind_app, elem_of_app; by left).
  assert (Hxe : e_at x ∈ (elements e ≫= elem_addrs)) by (rewrite Ees; apply at_in_addrs; set_solver).
  assert (Hw : word_of (e_type p) (e_word p) (e_kids p) ≠ e_at x).
  { apply (word_apart p _ es0 (x :: es2)); [by rewrite E1s, <- app_assoc in Hn'| |done|done|].
    - eapply sane_elem_mono; [|eapply sane_elements; [exact Hsane|fold (elements e); rewrite Ees, E1s; set_solver]].
      replace (es0 ++ p :: x :: es2) with (elements e) by by rewrite Ees, E1s, <- app_assoc.
      intros y Hy. rewrite (addrs_elements e). by right.
    - destruct Hpx as (Hlow & _). unfold nilCell. lia. }
  destruct (unlink_aux (e_at p)) as (m1 & E1 & D1 & C1).
  assert (Hcp1 : cells m1 !! e_at p = Some (cell_of (e_at x) p)).
  { rewrite (ed_frame _ _ _ D1); [done|]. intros E%list_elem_of_singleton. by apply (header_apart (e_at p)). }
  destruct (put_edited (elem_addrs e) (e_at p) (set_next next) m1 _ Hcp1 (proper_free _ Hpp _)) as (m2 & E2 & C2 & D2).
  { rewrite (addrs_elements e). by right. }
  assert (Hkeep : ∀ y, y ∈ (elements e ≫= elem_addrs) → y ≠ e_at p → cells m2 !! y = cells m !! y).
  { intros y Hy Hyp. apply header_apart in Hy as Hne. rewrite C2, lookup_insert_ne by done. apply (ed_frame _ _ _ D1).
    by intros ->%list_elem_of_singleton. }
  assert (Hb2 : ∀ y, y ∈ ((x :: es2) ≫= elem_addrs) → y ∈ (elements e ≫= elem_addrs) ∧ y ≠ e_at p).
  { intros y Hy. split; [rewrite Ees, bind_app, elem_of_app; by right|]. intros ->. by apply (Hd12 (e_at p)). }
  destruct (unlink_rest m2) as (m3 & E3 & D3 & X3 & C3).
  { rewrite Hkeep; [exact Hx|done|]. apply Hb2, at_in_addrs. by left. }
  { intros y Hy. apply Hkeep; apply Hb2; cbn [mbind list_bind]; right; apply elem_of_app; by left. }
  exists m3. split.
  { unfold pop_unlink. rewrite (cell_at_ok _ _ _ Hx), (cell_at_ok _ _ _ Hcp). cbn [mbind result_bind c_next c_contents cell_of].
    rewrite (proj2 (Z.eqb_neq _ _)) by by apply not_eq_sym. rewrite E1. cbn [mbind result_bind]. rewrite E2. exact E3. }
  split; [|split; [exact X3|]].
  - rewrite seg_with by done. rewrite C3, lookup_insert_ne by by apply not_eq_sym, header_apart.
    rewrite C2, lookup_insert_ne by by apply not_eq_sym, header_apart. rewrite C1.
    split; [rewrite Ees, E1s, <- !app_assoc, !head_app; by destruct es0|]. split; [done|]. split; [done|].
    assert (Hx2 : ∀ y, y ∈ (es1 ≫= elem_addrs) ∨ y ∈ (es2 ≫= elem_addrs) → e_at x ≠ y).
    { intros y Hy E. subst y. destruct Hy as [Hy|Hy]; [by apply (Hd12 _ Hy), at_in_addrs; left|].
      destruct (NoDup_bind_app [x] es2 Hn2) as (_ & H & _). apply (H (e_at x)); [apply at_in_addrs; by left|done]. }
    apply seg_app. split.
    + eapply (seg_ext (<[e_at p := cell_of next p]> (cells m))).
      * intros y Hy. rewrite lookup_insert_ne by (apply Hx2; by left). destruct (decide (y = e_at p)) as [->|Hyp]; [by rewrite !lookup_insert_eq|].
        rewrite lookup_insert_ne, lookup_insert_ne by congruence. apply (ed_frame _ _ _ D1).
        intros ->%list_elem_of_singleton. apply (header_apart (e_at e)); [|done]. rewrite Ees, bind_app, elem_of_app. by left.
      * rewrite E1s. by apply (seg_relink (cells m) es0 p (e_at x)).
    + eapply seg_ext; [|exact Hes2]. intros y Hy. rewrite lookup_insert_ne by (apply Hx2; by right). rewrite <- C2.
      apply Hkeep; apply Hb2; cbn [mbind list_bind]; apply elem_of_app; by right.
  - eapply edited_trans; [eapply edited_mono; [|exact D1]; set_solver|]. by eapply edited_trans.
Qed.

End Unlinking.

Lemma drop_head_nil h es j : seg h es nilCell → (j < length es)%nat →
  (head_of (drop (S j) es) nilCell =? nilCell) = bool_decide (S j = length es).
Proof.
  intros Hs Hj. case_bool_decide as E.
  - by rewrite drop_ge by lia.
  - apply Z.eqb_neq, (head_not_nil h).
    + rewrite <- (take_drop (S j) es) in Hs. by apply seg_app in Hs as [_ ?].
    + intros E'%(f_equal length). rewrite length_drop in E'. cbn in E'. lia.
Qed.

(** The element number [j] leaves the list. *)
Lemma unlink_pops m e t j x : isEnvelope (e_type e) = true → seg (cells m) [e] t → NoDup (elem_addrs e) →
  sane (elem_addrs e) (e_kids e) → elements e !! j = Some x →
  ∃ m', pop_unlink (e_at e) (prev_at (e_at e) (elements e) j) (e_at x) m = Ok m' ∧
    seg (cells m') [with_list (aux_without e j) (delete j (elements e)) e] t ∧ seg (cells m') [x] nilCell ∧
    edited (elem_addrs e) m m'.
Proof.
  intros He Hs Hn Hsane Hj. pose proof (seg_split _ _ _ Hj) as E. pose proof (lookup_lt_Some _ _ _ Hj) as Hlt.
  pose proof (seg_elements _ _ _ He Hs) as (_ & _ & _ & Hes). pose proof (drop_head_nil _ _ _ Hes Hlt) as Hd.
  rewrite delete_take_drop. unfold aux_without. destruct j as [|k]; cbn [prev_at].
  - destruct (unlink_first m e x _ _ t He Hs Hn Hsane E eq_refl) as (m' & H1 & H2 & H3 & H4).
    exists m'. split; [done|]. split; [|done]. rewrite Hd in H2. cbn [take app]. by case_bool_decide; case_decide.
  - destruct (lookup_lt_is_Some_2 (elements e) k ltac:(lia)) as [p Hp]. rewrite Hp.
    destruct (unlink_other m e x _ _ t He Hs Hn Hsane E _ p (take_S_r _ _ _ Hp)) as (m' & H1 & H2 & H3 & H4).
    exists m'. split; [done|]. split; [|done]. rewrite Hd in H2. by case_bool_decide; case_decide.
Qed.

Lemma pop_place_eq i path e : pop_place (i :: path) e =
  match pick i (length (elements e)) with
  | None => None
  | Some j =>
      match elements e !! j with
      | None => None
      | Some s =>
          if negb (bool_decide (path = [])) && isList (e_type s) then
            match pop_place path s with
            | Some (x, s') => Some (x, with_list (e_aux e) (<[j := s']> (elements e)) e)
            | None => None
            end
          else Some (s, with_list (aux_without e j) (delete j (elements e)) e)
      end
  end.
Proof. done. Qed.

Lemma seg_elem h es j s : es !! j = Some s → seg h es nilCell → seg h [s] (head_of (drop (S j) es) nilCell).
Proof.
  intros Hj Hes. rewrite (seg_split _ _ _ Hj) in Hes. apply seg_app in Hes as [_ Hes].
  change (s :: drop (S j) es) with ([s] ++ drop (S j) es) in Hes. by apply seg_app in Hes as [? _].
Qed.

Lemma pop_walk_ok path : ∀ i e t m, nil_ok m → seg (cells m) [e] t → isEnvelope (e_type e) = true → NoDup (elem_addrs e) →
  sane (elem_addrs e) (e_kids e) →
  match pop_place (i :: path) e with
  | None => pop_walk path i (e_at e) m = Fail ERR_LIST_INDEX_INVALID
  | Some (x, e') => ∃ envelope cell m', pop_walk path i (e_at e) m = Ok (envelope, cell, e_at x) ∧
      pop_unlink envelope cell (e_at x) m = Ok m' ∧ seg (cells m') [e'] t ∧ seg (cells m') [x] nilCell ∧
      e_at e' = e_at e ∧ edited (elem_addrs e) m m'
  end.
Proof.
  induction path as [|i' path IH]; intros i e t m Hnil Hs He Hn Hsane; rewrite pop_place_eq; cbn [pop_walk];
    pose proof (seg_elements _ _ _ He Hs) as (Hc & Hhi & Hpl & Hes);
    rewrite (cell_at_ok _ _ _ Hc); cbn [mbind result_bind c_contents];
    assert (Hn2 := Hn); rewrite addrs_elements in Hn2; apply NoDup_cons in Hn2 as [Hn1 Hn2];
    (rewrite pick_ok by done); (destruct (pick i (length (elements e))) as [j|] eqn:Hv; [|done]);
    destruct (lookup_lt_is_Some_2 _ _ (pick_lt _ _ _ Hv)) as [s Hj]; rewrite Hj;
    destruct (stop_ok m (elements e) j Hnil Hes) as (c & Ec & Tc); rewrite Ec; cbn [mbind result_bind];
    rewrite Hj in Tc; rewrite (drop_S _ _ _ Hj); cbn [head_of];
    destruct (unlink_pops m e t j s He Hs Hn Hsane Hj) as (m' & U1 & U2 & U3 & U4).
  - cbn. eexists _, _, m'. done.
  - rewrite Tc. cbn [bool_decide negb andb]. destruct (isList (e_type s)) eqn:Hl; [|by eexists _, _, m'].
    destruct (sane_inside _ _ _ Hsane Hj) as [Hls Hss].
    specialize (IH i' s _ m Hnil (seg_elem _ _ _ _ Hj Hes) (Hls Hl) (nodup_inside _ _ _ Hn Hj) Hss).
    change (bool_decide (i' :: path = [])) with false. cbn [negb andb].
    destruct (pop_place (i' :: path) s) as [[x s']|]; [|exact IH].
    destruct IH as (env & cell & m1 & W1 & V1 & V2 & V3 & V4 & V5). exists env, cell, m1. split; [done|]. split; [done|].
    destruct (seg_replace (cells m) (cells m1) (elements e) j s s' Hj Hes Hn2 V2 V4) as [S4 F4].
    { intros a _ Ha. by apply (ed_frame _ _ _ V5). }
    split; [|split; [done|split; [done|]]].
    + rewrite seg_with by done. rewrite F4, (ed_frame _ _ _ V5); [done|]. intros Hx. apply Hn1. by eapply elem_addrs_in.
    + eapply edited_mono; [|exact V5]. intros y Hy. rewrite (addrs_elements e). right. by eapply elem_addrs_in.
Qed.

(** ** What is left *)

Lemma delete_perm (es : list elem) j x : es !! j = Some x → es ≡ₚ x :: delete j es.
Proof. intros Hj. rewrite delete_take_drop. rewrite (seg_split _ _ _ Hj) at 1. by rewrite Permutation_middle. Qed.

Lemma tail_without e j x : tail_ok e → elements e !! j = Some x →
  tail_ok (with_list (aux_without e j) (delete j (elements e)) e).
Proof.
  intros Ht Hj. pose proof (lookup_lt_Some _ _ _ Hj) as Hlt. unfold tail_ok. rewrite elements_with. cbn [e_aux with_list].
  unfold aux_without. case_decide as E.
  - destruct j as [|k]; [by left|]. right. cbn [prev_at].
    destruct (lookup_lt_is_Some_2 (elements e) k ltac:(lia)) as [p Hp]. rewrite Hp.
    rewrite delete_take_drop, drop_ge, app_nil_r, (take_S_r _ _ _ Hp) by lia. split; [by destruct (take k (elements e))|].
    by rewrite last_at_snoc.
  - destruct Ht as [H|[H1 H2]]; [by left|]. right. rewrite H2. unfold last_at.
    split.
    + intros H%(f_equal length). rewrite length_delete in H by done. cbn in H. lia.
    + rewrite !last_lookup, length_delete by done. rewrite delete_take_drop.
      rewrite lookup_app_r, lookup_drop by (rewrite length_take; lia). rewrite length_take.
      by replace (S j + (Init.Nat.pred (length (elements e) - 1) - (j `min` length (elements e))))%nat
        with (Init.Nat.pred (length (elements e))) by lia.
Qed.

Lemma pop_place_at path e x e' : pop_place path e = Some (x, e') → e_at e' = e_at e.
Proof. destruct path as [|i path]; [done|]. rewrite pop_place_eq. repeat case_match; by intros [= <- <-]. Qed.

(** An element that has changed in place. *)
Lemma tail_replace e j s s' : tail_ok e → elements e !! j = Some s → e_at s' = e_at s →
  tail_ok (with_list (e_aux e) (<[j := s']> (elements e)) e).
Proof.
  intros Ht Hj Hat. pose proof (lookup_lt_Some _ _ _ Hj) as Hlt. unfold tail_ok. rewrite elements_with. cbn [e_aux with_list].
  destruct Ht as [H|[H1 H2]]; [by left|]. right. rewrite H2. unfold last_at. split.
  - intros H%(f_equal length). rewrite length_insert in H. cbn in H. lia.
  - rewrite !last_lookup, length_insert. destruct (decide (j = Init.Nat.pred (length (elements e)))) as [->|Hne].
    + by rewrite Hj, list_lookup_insert_eq, Hat by done.
    + by rewrite list_lookup_insert_ne by done.
Qed.

Lemma pop_place_keeps path : ∀ e x e', pop_place path e = Some (x, e') → isEnvelope (e_type e) = true → 
  sane (elem_addrs e) (e_kids e) →
  elem_addrs e ≡ₚ elem_addrs x ++ elem_addrs e' ∧ (tails_elem e → tails_elem x ∧ tails_elem e').
Proof.
  induction path as [|i path IH]; intros e x e'; [done|]. rewrite pop_place_eq.
  destruct (pick i (length (elements e))) as [j|]; [|done]. destruct (elements e !! j) as [s|] eqn:Hj; [|done].
  destruct (negb (bool_decide (path = [])) && isList (e_type s)) eqn:Hl; [apply andb_true_iff in Hl as [_ Hl]|].
  - destruct (pop_place path s) as [[y s']|] eqn:Hp; [|done]. intros [= <- <-] He Hsane.
    destruct (sane_inside _ _ _ Hsane Hj) as [Hls Hss]. destruct (IH _ _ _ Hp (Hls Hl) Hss) as [P1 T1].
    pose proof (lookup_lt_Some _ _ _ Hj) as Hlt. split.
    + rewrite insert_take_drop by done.
      rewrite addrs_with, (addrs_elements e). rewrite (seg_split _ _ _ Hj) at 1. rewrite !bind_app. cbn [mbind list_bind].
      rewrite P1. rewrite <- Permutation_middle. apply perm_skip. rewrite <- !app_assoc.
      rewrite !(Permutation_app_comm (take j (elements e) ≫= elem_addrs)), <- !app_assoc. done.
    + intros [H1 H2%tails_elements]. assert (H2' := H2). rewrite (seg_split _ _ _ Hj) in H2'.
      apply Forall_app in H2' as [_ [H3 _]%Forall_cons]. destruct (T1 H3) as [T2 T3]. split; [done|].
      apply tails_with; [by apply (tail_replace _ _ s); [apply H1|done|eapply pop_place_at]|]. by apply Forall_insert.
  - intros [= <- <-] He _. split.
    + rewrite addrs_with, (addrs_elements e), (bind_perm _ _ (delete_perm _ _ _ Hj)). cbn [mbind list_bind].
      apply Permutation_middle.
    + intros [H1 H2%tails_elements]. rewrite (delete_perm _ _ _ Hj) in H2. apply Forall_cons in H2 as [H2 H3].
      split; [done|]. apply tails_with; [|done]. apply (tail_without _ _ s); [by apply H1|done].
Qed.

(** ** Indexing *)

(** The element a path names; an index that is no place of the list is an error. *)
Fixpoint nth_place (path : indices) (e : elem) : option elem :=
  match path with
  | [] => Some e
  | i :: path =>
      match pick i (length (elements e)) with
      | None => None
      | Some j =>
          match elements e !! j with
          | None => None
          | Some s => if negb (bool_decide (path = [])) && isList (e_type s) then nth_place path s else Some s
          end
      end
  end.

Lemma nth_place_eq i path e : nth_place (i :: path) e =
  match pick i (length (elements e)) with
  | None => None
  | Some j =>
      match elements e !! j with
      | None => None
      | Some s => if negb (bool_decide (path = [])) && isList (e_type s) then nth_place path s else Some s
      end
  end.
Proof. done. Qed.

(** The last-element pointer answers what the walk would. *)
Lemma last_pick e : elements e ≠ [] → ∃ j s, pick (-1) (length (elements e)) = Some j ∧ elements e !! j = Some s ∧
  e_at s = last_at nilCell (elements e).
Proof.
  intros Hne. assert (Hlt : (0 < length (elements e))%nat) by (destruct (elements e); [done|cbn; lia]).
  destruct (lookup_lt_is_Some_2 (elements e) (Init.Nat.pred (length (elements e))) ltac:(lia)) as [s Hs].
  exists (Init.Nat.pred (length (elements e))), s. split; [|split; [done|]].
  - unfold pick. cbn [Z.ltb Z.compare]. rewrite (proj2 (Z.leb_le 0 _)), (proj2 (Z.ltb_lt _ _)) by lia. cbn [andb]. f_equal. lia.
  - unfold last_at. by rewrite last_lookup, Hs.
Qed.

Lemma index_ok m e i : nil_ok m → seg (cells m) (elements e) nilCell → NoDup (elements e ≫= elem_addrs) → tail_ok e →
  (if (i =? -1) && negb (e_aux e =? nilCell) then Ok (e_aux e)
   else
     index ← (if i <? 0 then convertNegativeOffset i (head_of (elements e) nilCell) m else Ok i);
     '(_, p) ← steps (Z.to_nat index) (e_at e) (head_of (elements e) nilCell) m;
     if p =? nilCell then Fail ERR_LIST_INDEX_INVALID else Ok p) =
  match pick i (length (elements e)) with
  | Some j => Ok (head_of (drop j (elements e)) nilCell)
  | None => Fail ERR_LIST_INDEX_INVALID
  end.
Proof.
  intros Hnil Hes Hn Ht. destruct ((i =? -1) && negb (e_aux e =? nilCell)) eqn:E.
  - apply andb_true_iff in E as [->%Z.eqb_eq Haux%negb_true_iff%Z.eqb_neq]. destruct Ht as [Ht|[Hne Ht]]; [done|].
    destruct (last_pick e Hne) as (j & s & Hj & Hs & Ha). rewrite Hj, (drop_S _ _ _ Hs). cbn [head_of]. by rewrite Ht, Ha.
  - by rewrite (pick_ok m (elements e) i (e_at e) (λ _ p, Ok p)).
Qed.

Lemma nth_ok path : ∀ i e t m, nil_ok m → seg (cells m) [e] t → isEnvelope (e_type e) = true → NoDup (elem_addrs e) →
  sane (elem_addrs e) (e_kids e) → tails_elem e →
  implicitIndexList path i (e_at e) m =
  match nth_place (i :: path) e with Some s => Ok (e_at s) | None => Fail ERR_LIST_INDEX_INVALID end.
Proof.
  induction path as [|i' path IH]; intros i e t m Hnil Hs He Hn Hsane [Ht1 Ht2]; rewrite nth_place_eq; cbn [implicitIndexList];
    pose proof (seg_elements _ _ _ He Hs) as (Hc & Hhi & Hpl & Hes);
    rewrite (cell_at_ok _ _ _ Hc); cbn [mbind result_bind c_contents c_type c_aux];
    (rewrite (proj2 (Z.eqb_neq (e_type e) CELL_FREE)) by apply Hpl);
    assert (Hn2 := Hn); rewrite addrs_elements in Hn2; apply NoDup_cons in Hn2 as [Hn1 Hn2];
    rewrite index_ok by auto;
    (destruct (pick i (length (elements e))) as [j|] eqn:Hv; [|done]); cbn [mbind result_bind];
    destruct (lookup_lt_is_Some_2 _ _ (pick_lt _ _ _ Hv)) as [s Hj]; rewrite Hj;
    destruct (stop_ok m (elements e) j Hnil Hes) as (c & Ec & Tc); rewrite Ec; cbn [mbind result_bind];
    rewrite Hj in Tc; rewrite (drop_S _ _ _ Hj); cbn [head_of]; [done|].
  rewrite Tc. change (bool_decide (i' :: path = [])) with false. cbn [negb andb].
  destruct (isList (e_type s)) eqn:Hl; [|done]. destruct (sane_inside _ _ _ Hsane Hj) as [Hls Hss].
  apply (IH i' s _ m Hnil (seg_elem _ _ _ _ Hj Hes) (Hls Hl) (nodup_inside _ _ _ Hn Hj) Hss).
  apply tails_elements in Ht2. by eapply Forall_lookup_1.
Qed.
