(* ===== verification/Relinking.v ===== *)
(** * Reversing and rotating (src/nl-liststr.c, [p_reverse], [p_rotate])

    Both keep the cells of the elements and change the pointers between them. *)

From stdpp Require Import base list numbers tactics gmap.
From Stdlib Require Import ZArith Lia.
From S2P Require Import Prelude Cell Nursery Evacuate Collect Lists Deleting Copying Listops Segments Pushing Popping.

#[global] Open Scope Z_scope.
#[local] Set Warnings "-clear-no-such-hyp".

(** ** [reverse] *)

(** The elements [ds] are reversed already, [rs] are still to come. *)
Lemma reverse_loop_ok rs : ∀ fuel d ds prev m, (length rs + 1 < fuel)%nat → nil_ok m →
  seg (cells m) (d :: ds) nilCell → seg (cells m) rs nilCell → NoDup (((d :: ds) ++ rs) ≫= elem_addrs) →
  ∃ m', reverse_loop fuel (e_at d) (head_of rs nilCell) prev m = Ok (head_of (reverse rs ++ d :: ds) nilCell, m') ∧
    seg (cells m') (reverse rs ++ d :: ds) nilCell ∧ edited (((d :: ds) ++ rs) ≫= elem_addrs) m m'.
Proof.
  induction rs as [|r rs IH]; intros [|fuel] d ds prev m Hf Hnil Hd Hr Hn; cbn [length] in Hf; try lia; cbn [reverse_loop];
    rewrite (proj2 (Z.eqb_neq (e_at d) _)) by by apply (head_not_nil _ _ _ Hd).
  - cbn [head_of]. rewrite (cell_at_ok _ _ _ Hnil). cbn [mbind result_bind c_next]. rewrite Z.eqb_refl. cbn [mbind result_bind].
    destruct fuel as [|fuel]; [lia|]. cbn [reverse_loop]. rewrite Z.eqb_refl. exists m. split; [done|]. split; [done|apply edited_refl].
  - pose proof Hr as (Hcr & Hpr & Hkr & Hr2). cbn [head_of] in *.
    rewrite (cell_at_ok _ _ _ Hcr). cbn [mbind result_bind c_next cell_of].
    rewrite (proj2 (Z.eqb_neq (e_at r) _)) by by apply (head_not_nil _ _ _ Hr).
    destruct (NoDup_bind_app (d :: ds) (r :: rs) Hn) as (Hn1 & Hdis & Hn2).
    destruct (NoDup_bind_app [r] rs Hn2) as (Hn3 & Hdis2 & _).
    assert (Hin : e_at r ∈ (((d :: ds) ++ r :: rs) ≫= elem_addrs)) by (apply at_in_addrs; set_solver).
    destruct (put_edited (((d :: ds) ++ r :: rs) ≫= elem_addrs) (e_at r) (set_next (e_at d)) m _ Hcr (proper_free _ Hpr _) Hin)
      as (m1 & E1 & C1 & D1). rewrite E1. cbn [mbind result_bind].
    assert (Hsame : ∀ y, y ∈ ((d :: ds) ≫= elem_addrs) ∨ y ∈ (rs ≫= elem_addrs) → cells m1 !! y = cells m !! y).
    { intros y Hy. rewrite C1. apply lookup_insert_ne. intros E. subst y. destruct Hy as [Hy|Hy].
      - apply (Hdis _ Hy). apply at_in_addrs. by left.
      - apply (Hdis2 (e_at r)); [|done]. apply at_in_addrs. by left. }
    destruct (IH fuel r (d :: ds) (e_at d) m1) as (m' & E2 & S2 & D2); [lia| | | | |].
    + eapply edited_nil; [exact D1| |done]. intros Hx. rewrite bind_app, elem_of_app in Hx.
      destruct Hx as [Hx|Hx]; eapply seg_high in Hx; [|exact Hd| |exact Hr]; by unfold nilCell in Hx.
    + change (r :: d :: ds) with (([] ++ [r]) ++ d :: ds). apply seg_app. split.
      * rewrite C1. by apply (seg_relink (cells m) [] r (head_of rs nilCell)).
      * eapply seg_ext; [|exact Hd]. intros y Hy. apply Hsame. by left.
    + eapply seg_ext; [|exact Hr2]. intros y Hy. apply Hsame. by right.
    + rewrite (bind_perm _ ((d :: ds) ++ r :: rs)); [done|]. cbn [app]. rewrite <- Permutation_middle. apply Permutation_swap.
    + exists m'. rewrite reverse_cons, <- app_assoc. split; [exact E2|]. split; [exact S2|]. eapply edited_trans; [exact D1|].
      eapply edited_mono; [|exact D2]. intros y Hy. rewrite (bind_perm _ ((r :: d :: ds) ++ rs)); [done|].
      cbn [app]. rewrite <- Permutation_middle. apply Permutation_swap.
Qed.

(** All elements of a list that is not empty. *)
Lemma reverse_cells m d rs : nil_ok m → seg (cells m) (d :: rs) nilCell → NoDup ((d :: rs) ≫= elem_addrs) →
  ∃ m', (m ← put (e_at d) (set_next nilCell) m;
         reverse_loop (S (size (cells m))) (e_at d) (head_of rs nilCell) (e_at d) m) =
      Ok (head_of (reverse (d :: rs)) nilCell, m') ∧
    seg (cells m') (reverse (d :: rs)) nilCell ∧ edited ((d :: rs) ≫= elem_addrs) m m'.
Proof.
  intros Hnil Hes Hn. destruct (NoDup_bind_app [d] rs Hn) as (Hnd & Hdis & Hnr). pose proof Hes as (Hcd & Hpd & Hkd & Hrs).
  assert (Hdin : e_at d ∈ ((d :: rs) ≫= elem_addrs)) by (apply at_in_addrs; by left).
  destruct (put_edited ((d :: rs) ≫= elem_addrs) (e_at d) (set_next nilCell) m _ Hcd (proper_free _ Hpd _) Hdin)
    as (m2 & E2 & C2 & D2). rewrite E2. cbn [mbind result_bind]. rewrite reverse_cons.
  destruct (reverse_loop_ok rs (S (size (cells m2))) d [] (e_at d) m2) as (m3 & E3 & S3 & D3).
  { assert (Hsz : (length (d :: rs) ≤ size (cells m2))%nat); [|cbn [length] in Hsz; lia].
    rewrite C2, map_size_insert_Some by by eexists. by apply seg_size. }
  { eapply edited_nil; [exact D2| |done]. intros Hx. eapply seg_high in Hx; [|exact Hes]. by unfold nilCell in Hx. }
  { rewrite C2. apply (seg_relink (cells m) [] d (head_of rs nilCell)); [exact Hnd|].
    change (d :: rs) with ([d] ++ rs) in Hes. by apply seg_app in Hes as [? _]. }
  { eapply seg_ext; [|exact Hrs]. intros y Hy. rewrite C2. apply lookup_insert_ne. intros E. subst y.
    apply (Hdis (e_at d)); [apply at_in_addrs; by left|done]. }
  { exact Hn. }
  exists m3. split; [exact E3|]. split; [exact S3|]. by eapply edited_trans.
Qed.

(** An empty list: nil itself is written to. *)
Lemma reverse_nil m : nil_ok m → ∃ m', (m ← put nilCell (set_next nilCell) m;
    reverse_loop (S (size (cells m))) nilCell nilCell nilCell m) = Ok (nilCell, m') ∧ edited [nilCell] m m' ∧ nil_ok m'.
Proof.
  intros Hnil. destruct (put_edited [nilCell] nilCell (set_next nilCell) m _ Hnil ltac:(done) ltac:(by left)) as (m2 & E2 & C2 & D2).
  rewrite E2. exists m2. split; [done|]. split; [done|]. unfold nil_ok. by rewrite C2, lookup_insert_eq.
Qed.

Lemma reverse_ok m e t : nil_ok m → seg (cells m) [e] t → isEnvelope (e_type e) = true → NoDup (elem_addrs e) →
  ∃ m', p_reverse (e_at e) false m = Ok (e_at e, m') ∧ seg (cells m') [with_list nilCell (reverse (elements e)) e] t ∧
    edited (nilCell :: elem_addrs e) m m'.
Proof.
  intros Hnil Hs He Hn. destruct (reset_ok m e t He Hs Hn) as (m1 & E1 & D1 & S1).
  pose proof S1 as (Hc & Hhi & Hpl & Hes)%seg_with; [|done].
  assert (Hnil1 : nil_ok m1) by (eapply edited_nil; [exact D1|by eapply nil_apart|done]).
  assert (D1' : edited (nilCell :: elem_addrs e) m m1) by (eapply edited_mono; [|exact D1]; set_solver).
  assert (Hn' := Hn). rewrite addrs_elements in Hn'. apply NoDup_cons in Hn' as [Hn1 Hn2].
  assert (Hloop : ∃ c m2, cell_at (head_of (elements e) nilCell) m1 = Ok c ∧
    (m ← put (head_of (elements e) nilCell) (set_next nilCell) m1;
     reverse_loop (S (size (cells m))) (head_of (elements e) nilCell) (c_next c) (head_of (elements e) nilCell) m) =
      Ok (head_of (reverse (elements e)) nilCell, m2) ∧
    seg (cells m2) (reverse (elements e)) nilCell ∧ edited (nilCell :: (elements e ≫= elem_addrs)) m1 m2).
  { destruct (elements e) as [|d rs].
    - destruct (reverse_nil m1 Hnil1) as (m2 & E2 & D2 & _). eexists _, m2. split; [by apply cell_at_ok|]. done.
    - destruct (reverse_cells m1 d rs Hnil1 Hes Hn2) as (m2 & E2 & S2 & D2). destruct Hes as (Hcd & _).
      eexists _, m2. split; [by apply cell_at_ok|]. split; [exact E2|]. split; [exact S2|].
      eapply edited_mono; [|exact D2]. set_solver. }
  destruct Hloop as (c & m2 & Ec & E2 & S2 & D2).
  unfold p_reverse. rewrite E1. cbn [mbind result_bind]. rewrite (cell_at_ok _ _ _ Hc). cbn [mbind result_bind c_contents].
  rewrite Ec. cbn [mbind result_bind]. destruct (put (head_of (elements e) nilCell) (set_next nilCell) m1) as [m0| | |]; try done.
  cbn [mbind result_bind] in E2 |- *. rewrite E2. cbn [mbind result_bind].
  assert (Hne : e_at e ∉ nilCell :: (elements e ≫= elem_addrs)) by (apply not_elem_of_cons; unfold nilCell; split; [lia|done]).
  assert (Hc2 : cells m2 !! e_at e = Some (CellOf (e_type e) t nilCell (head_of (elements e) nilCell))).
  { by rewrite (ed_frame _ _ _ D2). }
  destruct (put_edited (nilCell :: elem_addrs e) (e_at e) (set_cell_contents (head_of (reverse (elements e)) nilCell)) m2 _ Hc2 (proj1 Hpl))
    as (m4 & E4 & C4 & D4). { right. by left. }
  rewrite E4. exists m4. split; [done|]. split.
  - rewrite seg_with by done. rewrite C4, lookup_insert_eq. split; [done|]. split; [done|]. split; [done|].
    eapply seg_ext; [|exact S2]. intros y Hy. apply lookup_insert_ne. intros E. subst y. apply Hn1.
    rewrite (bind_perm _ (reverse (elements e))); [done|]. by rewrite reverse_Permutation.
  - eapply edited_trans; [exact D1'|]. eapply edited_trans; [|exact D4]. eapply edited_mono; [|exact D2].
    rewrite (addrs_elements e). set_solver.
Qed.

(** ** [rotate] *)

(** The four assignments of [rotate]; [previous] is the new last element and [cell] the
    new first one. *)
Definition rotate_link (list contents last previous cell : Z) (m : memory) : result memory :=
  m ← put previous (set_next nilCell) m;
  m ← put last (set_next contents) m;
  m ← put list (set_cell_contents cell) m;
  put list (set_aux previous) m.

(** The header takes its new contents and last-element pointer. *)
Lemma rotate_header m e t w q es A : cells m !! e_at e = Some (CellOf (e_type e) t nilCell w) → 2 < e_at e →
  plain_type (e_type e) → isEnvelope (e_type e) = true → e_at e ∈ A → e_at e ∉ (es ≫= elem_addrs) → seg (cells m) es nilCell →
  ∃ m', (m ← put (e_at e) (set_cell_contents (head_of es nilCell)) m; put (e_at e) (set_aux q) m) = Ok m' ∧
    seg (cells m') [with_list q es e] t ∧ edited A m m'.
Proof.
  intros Hc Hhi Hpl He HA Hn Hes.
  destruct (put_edited A (e_at e) (set_cell_contents (head_of es nilCell)) m _ Hc (proj1 Hpl) HA) as (m1 & E1 & C1 & D1).
  rewrite E1. cbn [mbind result_bind].
  assert (Hc1 : cells m1 !! e_at e = Some (CellOf (e_type e) t nilCell (head_of es nilCell))) by by rewrite C1, lookup_insert_eq.
  destruct (put_edited A (e_at e) (set_aux q) m1 _ Hc1 (proj1 Hpl) HA) as (m2 & E2 & C2 & D2).
  exists m2. split; [done|]. split; [|by eapply edited_trans]. rewrite seg_with by done. rewrite C2, lookup_insert_eq.
  split; [done|]. split; [done|]. split; [done|]. eapply seg_ext; [|exact Hes]. intros y Hy.
  rewrite lookup_insert_ne, C1, lookup_insert_ne; [done|by intros <-..].
Qed.

Lemma rotate_link_ok m e t es1 p es2 l : isEnvelope (e_type e) = true →
  seg (cells m) [with_list nilCell ((es1 ++ [p]) ++ es2 ++ [l]) e] t →
  NoDup (e_at e :: (((es1 ++ [p]) ++ es2 ++ [l]) ≫= elem_addrs)) →
  ∃ m', rotate_link (e_at e) (head_of (es1 ++ [p]) nilCell) (e_at l) (e_at p) (head_of (es2 ++ [l]) nilCell) m = Ok m' ∧
    seg (cells m') [with_list (e_at p) ((es2 ++ [l]) ++ es1 ++ [p]) e] t ∧
    edited (e_at e :: (((es1 ++ [p]) ++ es2 ++ [l]) ≫= elem_addrs)) m m'.
Proof.
  intros He Hs [Hne Hn]%NoDup_cons. pose proof Hs as (Hc & Hhi & Hpl & Hes)%seg_with; [|done].
  destruct (NoDup_bind_app _ _ Hn) as (Hn1 & Hdis & Hn2). apply seg_app in Hes as [Hs1 Hs2].
  set (A := e_at e :: (((es1 ++ [p]) ++ es2 ++ [l]) ≫= elem_addrs)).
  assert (Hp1 : e_at p ∈ ((es1 ++ [p]) ≫= elem_addrs)) by (apply at_in_addrs; set_solver).
  assert (Hl2 : e_at l ∈ ((es2 ++ [l]) ≫= elem_addrs)) by (apply at_in_addrs; set_solver).
  assert (HpA : e_at p ∈ A) by (right; rewrite bind_app, elem_of_app; by left).
  assert (HlA : e_at l ∈ A) by (right; rewrite bind_app, elem_of_app; by right).
  pose proof Hs1 as [_ (Hcp & Hpp & _)]%seg_app. pose proof Hs2 as [_ (Hcl & Hpl2 & _)]%seg_app.
  destruct (put_edited A (e_at p) (set_next nilCell) m _ Hcp (proper_free _ Hpp _) HpA) as (m1 & E1 & C1 & D1).
  assert (Hpl' : e_at p ≠ e_at l) by (intros E; rewrite E in Hp1; by apply (Hdis (e_at l))).
  assert (Hcl1 : cells m1 !! e_at l = Some (cell_of nilCell l)) by (rewrite C1, lookup_insert_ne by done; exact Hcl).
  destruct (put_edited A (e_at l) (set_next (head_of (es1 ++ [p]) nilCell)) m1 _ Hcl1 (proper_free _ Hpl2 _) HlA) as (m2 & E2 & C2 & D2).
  assert (Hc2 : ∀ y, y ∉ [e_at p; e_at l] → cells m2 !! y = cells m !! y).
  { intros y [Hy1 Hy2]%not_elem_of_cons. rewrite list_elem_of_singleton in Hy2.
    rewrite C2, lookup_insert_ne, C1, lookup_insert_ne by congruence. done. }
  assert (Hes2 : seg (cells m2) ((es2 ++ [l]) ++ es1 ++ [p]) nilCell).
  { apply seg_app. split.
    - rewrite C2. apply (seg_relink (cells m1) es2 l nilCell); [exact Hn2|]. eapply seg_ext; [|exact Hs2].
      intros y Hy. rewrite C1. apply lookup_insert_ne. intros <-. by apply (Hdis (e_at p)).
    - eapply (seg_ext (cells m1)).
      + intros y Hy. rewrite C2. apply lookup_insert_ne. intros <-. by apply (Hdis (e_at l)).
      + rewrite C1. by apply (seg_relink (cells m) es1 p (head_of (es2 ++ [l]) nilCell)). }
  assert (Hperm : (((es2 ++ [l]) ++ es1 ++ [p]) ≫= elem_addrs) ≡ₚ (((es1 ++ [p]) ++ es2 ++ [l]) ≫= elem_addrs)).
  { apply bind_perm, Permutation_app_comm. }
  destruct (rotate_header m2 e t (head_of ((es1 ++ [p]) ++ es2 ++ [l]) nilCell) (e_at p) ((es2 ++ [l]) ++ es1 ++ [p]) A)
    as (m3 & E3 & S3 & D3); try done.
  { rewrite Hc2; [exact Hc|]. intros [E|E%list_elem_of_singleton]%elem_of_cons; apply Hne; rewrite E, bind_app, elem_of_app; tauto. }
  { by left. } { by rewrite Hperm. }
  exists m3. split; [|split; [exact S3|by eapply edited_trans; [|eapply edited_trans]]].
  unfold rotate_link. rewrite E1. cbn [mbind result_bind]. rewrite E2. cbn [mbind result_bind].
  rewrite head_app in E3. by destruct es2.
Qed.

(** Rotation to the right by [count], to the left when it is negative. *)
Definition turn (count : Z) (n : nat) : nat := (n - Z.to_nat (count mod Z.of_nat n))%nat.
Definition rotate_list (count : Z) (es : list elem) : list elem :=
  drop (turn count (length es)) es ++ take (turn count (length es)) es.

(** The counts that are taken for a whole turn: minus the length twice, three times, ... *)
Definition lost_count (count : Z) (n : nat) : bool :=
  (1 <? Z.of_nat n) && (count <? 0) && (count mod Z.of_nat n =? 0) && negb (Z.of_nat n =? Z.abs count).

Lemma adjustCount_ok count n : - 2 ^ 63 < count →
  adjustCount count (Z.of_nat n) = Ok (if lost_count count n then Z.of_nat n else if (1 <? n)%nat then count mod Z.of_nat n else 0).
Proof.
  intros Hc. unfold adjustCount, lost_count. destruct (Nat.ltb_spec 1 n) as [Hn|Hn].
  2: { rewrite (proj2 (Z.leb_le _ 1)) by lia. by rewrite (proj2 (Z.ltb_ge 1 _)) by lia. }
  rewrite (proj2 (Z.leb_gt _ 1)), (proj2 (Z.ltb_lt 1 _)) by lia. cbn [orb andb].
  destruct (Z.eqb_spec count 0) as [->|H0]; [by rewrite Z.mod_0_l by lia|]. rewrite (proj2 (Z.eqb_neq _ _)) by lia.
  destruct (Z.eqb_spec (Z.of_nat n) (Z.abs count)) as [Ha|Ha].
  { rewrite andb_false_r. f_equal. symmetry. apply Z.mod_divide; [lia|]. rewrite Ha. apply Z.divide_abs_l. reflexivity. }
  rewrite andb_true_r. destruct (Z.ltb_spec 0 count).
  - rewrite (proj2 (Z.ltb_ge count 0)) by lia. cbn [andb]. by rewrite Z.rem_mod_nonneg by lia.
  - rewrite (proj2 (Z.ltb_lt count 0)) by lia. cbn [andb]. rewrite Z.rem_mod_nonneg by lia.
    destruct (Z.eqb_spec (count mod Z.of_nat n) 0) as [E|E].
    + rewrite Z.mod_opp_l_z by lia. f_equal. lia.
    + rewrite Z.mod_opp_l_nz by lia. f_equal. lia.
Qed.

Lemma prev_at_snoc (es : list elem) n d p : es !! n = Some p → prev_at d es (S n) = e_at p.
Proof. cbn [prev_at]. by intros ->. Qed.

(** What [rotate] reads before it writes. *)
Lemma rotate_reads m e t count : seg (cells m) [e] t → isEnvelope (e_type e) = true → NoDup (elem_addrs e) → nil_ok m →
  - 2 ^ 63 < count → ∃ m1, edited (elem_addrs e) m m1 ∧ seg (cells m1) [with_list nilCell (elements e) e] t ∧
  ∀ k, adjustCount count (Z.of_nat (length (elements e))) = Ok k →
    p_rotate (e_at e) count false m =
    if k =? 0 then Ok (e_at e, m1)
    else m' ← rotate_link (e_at e) (head_of (elements e) nilCell) (last_at nilCell (elements e))
                (prev_at (head_of (elements e) nilCell) (elements e) (Z.to_nat (Z.of_nat (length (elements e)) - k)))
                (head_of (drop (Z.to_nat (Z.of_nat (length (elements e)) - k)) (elements e)) nilCell) m1;
         Ok (e_at e, m').
Proof.
  intros Hs He Hn Hnil Hcount. destruct (reset_ok m e t He Hs Hn) as (m1 & E1 & D1 & S1). exists m1. split; [done|].
  split; [done|]. intros k Hk. pose proof S1 as (Hc & Hhi & Hpl & Hes)%seg_with; [|done].
  assert (Hnil1 : nil_ok m1) by (eapply edited_nil; [exact D1|by eapply nil_apart|done]).
  rewrite addrs_elements in Hn. apply NoDup_cons in Hn as [Hn1 Hn2].
  unfold p_rotate. rewrite E1. cbn [mbind result_bind]. rewrite (cell_at_ok _ _ _ Hc). cbn [mbind result_bind c_contents].
  rewrite listlen_ok by done. cbn [mbind result_bind]. rewrite Hk. cbn [mbind result_bind].
  destruct (Z.eqb_spec k 0) as [->|Hk0]; [done|].
  assert (Hne : elements e ≠ []).
  { intros E. rewrite E in Hk. by injection Hk as <-. }
  destruct (exists_last Hne) as (es & l & El). unfold last_at. rewrite El in *. rewrite last_cell_seg, last_snoc by done.
  cbn [mbind result_bind]. rewrite steps_ok by done. cbn [mbind result_bind]. unfold rotate_link.
  destruct (put _ _ m1) as [m2| | |]; [|done..]. cbn [mbind result_bind].
  destruct (put _ _ m2) as [m3| | |]; [|done..]. cbn [mbind result_bind].
  destruct (put _ _ m3) as [m4| | |]; [|done..]. done.
Qed.

Lemma rotate_turns m e t count : seg (cells m) [e] t → isEnvelope (e_type e) = true → NoDup (elem_addrs e) → nil_ok m →
  - 2 ^ 63 < count → lost_count count (length (elements e)) = false →
  ∃ m' q, p_rotate (e_at e) count false m = Ok (e_at e, m') ∧
    seg (cells m') [with_list q (rotate_list count (elements e)) e] t ∧
    (q = nilCell ∨ elements e ≠ [] ∧ q = last_at nilCell (rotate_list count (elements e))) ∧ edited (elem_addrs e) m m'.
Proof.
  intros Hs He Hn Hnil Hcount Hlost. destruct (rotate_reads m e t count Hs He Hn Hnil Hcount) as (m1 & D1 & S1 & Hrun).
  specialize (Hrun _ (adjustCount_ok _ _ Hcount)). rewrite Hlost in Hrun. unfold rotate_list, turn.
  set (n := length (elements e)) in *. destruct (Nat.ltb_spec 1 n) as [H1|H1]; [destruct (Z.eqb_spec (count mod Z.of_nat n) 0) as [E|E]|].
  - exists m1, nilCell. split; [done|]. rewrite E, Nat.sub_0_r. unfold n. rewrite drop_all, take_ge by lia.
    split; [done|]. split; [by left|done].
  - set (c := (n - Z.to_nat (count mod Z.of_nat n))%nat) in *.
    pose proof (Z.mod_pos_bound count (Z.of_nat n) ltac:(lia)) as Hb.
    replace (Z.to_nat (Z.of_nat n - count mod Z.of_nat n)) with c in Hrun by lia.
    destruct c as [|k] eqn:Ec; [lia|]. destruct (lookup_lt_is_Some_2 (elements e) k ltac:(lia)) as [p Hp].
    rewrite (prev_at_snoc _ _ _ _ Hp) in Hrun. pose proof (take_S_r _ _ _ Hp) as Et.
    assert (Hd : drop (S k) (elements e) ≠ []) by (intros E'%(f_equal length); rewrite length_drop in E'; cbn in E'; lia).
    destruct (exists_last Hd) as (es2 & l & El). pose proof (take_drop (S k) (elements e)) as Ees. rewrite Et, El in Ees.
    assert (Hl : last_at nilCell (elements e) = e_at l) by by rewrite <- Ees, app_assoc, last_at_snoc.
    rewrite El, Hl, <- Ees in Hrun. rewrite <- Ees in S1. 
    destruct (rotate_link_ok m1 e t _ p es2 l He S1) as (m2 & E2 & S2 & D2).
    { rewrite Ees. by rewrite <- addrs_elements. }
    exists m2, (e_at p). split; [|split; [|split]].
    + rewrite Hrun. replace (head_of ((_ ++ [p]) ++ _) nilCell) with (head_of (take k (elements e) ++ [p]) nilCell); [by rewrite E2|].
      by destruct (take k (elements e)).
    + by rewrite El, Et.
    + right. split; [by intros E'; rewrite E' in Hp|]. by rewrite Et, app_assoc, last_at_snoc.
    + eapply edited_trans; [exact D1|]. by rewrite Ees, <- addrs_elements in D2.
  - exists m1, nilCell. split; [done|]. split; [|split; [by left|done]].
    replace (_ ++ _) with (elements e); [done|]. symmetry. destruct (elements e) as [|p es]; [by rewrite drop_nil, take_nil|].
    destruct es; [|cbn in n; lia]. replace n with 1%nat by done. by rewrite Z.mod_1_r.
Qed.

(** A count that is taken for a whole turn: only the first element is left. *)
Lemma rotate_lost m e t count : seg (cells m) [e] t → isEnvelope (e_type e) = true → NoDup (elem_addrs e) → nil_ok m →
  - 2 ^ 63 < count → lost_count count (length (elements e)) = true →
  ∃ m' p, head (elements e) = Some p ∧ p_rotate (e_at e) count false m = Ok (e_at e, m') ∧
    seg (cells m') [with_list (e_at p) [p] e] t.
Proof.
  intros Hs He Hn Hnil Hcount Hlost. destruct (rotate_reads m e t count Hs He Hn Hnil Hcount) as (m1 & D1 & S1 & Hrun).
  specialize (Hrun _ (adjustCount_ok _ _ Hcount)). rewrite Hlost in Hrun. unfold lost_count in Hlost.
  apply andb_true_iff in Hlost as [[[H1%Z.ltb_lt _]%andb_true_iff _]%andb_true_iff _].
  rewrite Z.sub_diag in Hrun. rewrite (proj2 (Z.eqb_neq _ 0)) in Hrun by lia. change (Z.to_nat 0) with 0%nat in Hrun. rewrite drop_0 in Hrun. cbn [prev_at] in Hrun.
  pose proof S1 as (Hc & Hhi & Hpl & Hes)%seg_with; [|done].
  assert (Hn' := Hn). rewrite addrs_elements in Hn'. apply NoDup_cons in Hn' as [Hne Hn2].
  destruct (elements e) as [|p es] eqn:Ees; [cbn in H1; lia|]. assert (Hes0 : es ≠ []) by (intros ->; cbn in H1; lia).
  destruct (exists_last Hes0) as (es2 & l & El). destruct (NoDup_bind_app [p] es Hn2) as (_ & Hdis & _).
  assert (Hlast : last_at nilCell (p :: es) = e_at l) by by rewrite El, app_comm_cons, last_at_snoc.
  rewrite Hlast in Hrun. cbn [head_of] in *. pose proof Hes as (Hcp & Hpp & Hkp & Hs2).
  assert (Hlin : e_at l ∈ (es ≫= elem_addrs)) by (apply at_in_addrs; rewrite El; set_solver).
  assert (Hpl' : e_at p ≠ e_at l).
  { intros E. apply (Hdis (e_at p)); [apply at_in_addrs; by left|by rewrite E]. }
  destruct (put_edited (elem_addrs e) (e_at p) (set_next nilCell) m1 _ Hcp (proper_free _ Hpp _)) as (m2 & E2 & C2 & D2).
  { rewrite (addrs_elements e), Ees. right. apply at_in_addrs. by left. }
  assert (Hcl : ∃ n, cells m2 !! e_at l = Some (cell_of n l) ∧ proper l).
  { destruct (seg_proper _ _ _ l Hs2) as (Hpr & _ & n & Hl); [rewrite El; set_solver|]. exists n. split; [|done].
    by rewrite C2, lookup_insert_ne. }
  destruct Hcl as (n & Hcl & Hprl).
  destruct (put_edited (elem_addrs e) (e_at l) (set_next (e_at p)) m2 _ Hcl (proper_free _ Hprl _)) as (m3 & E3 & C3 & D3).
  { rewrite (addrs_elements e), Ees. right. cbn [mbind list_bind]. right. apply elem_of_app. by right. }
  assert (Hin : ∀ y, y ∈ elem_addrs p → y ∈ ((p :: es) ≫= elem_addrs)).
  { intros y Hy. apply (elem_of_app (elem_addrs p)). by left. }
  destruct (rotate_header m3 e t (e_at p) (e_at p) [p] (elem_addrs e)) as (m4 & E4 & S4 & D4); try done.
  { rewrite C3, lookup_insert_ne, C2, lookup_insert_ne; [done|..]; intros E; apply Hne; rewrite <- E.
    - apply at_in_addrs. by left.
    - apply at_in_addrs. rewrite El. set_solver. }
  { by left. } { rewrite bind_single. intros Hy. by apply Hne, Hin. }
  { eapply (seg_ext (cells m2)).
    - intros y Hy. rewrite C3. apply lookup_insert_ne. intros E. subst y. by apply (Hdis (e_at l)).
    - rewrite C2. apply (seg_relink (cells m1) [] p (head_of es nilCell)).
      + cbn [app]. destruct (NoDup_bind_app [p] es Hn2) as (H & _). done.
      + change (p :: es) with ([p] ++ es) in Hes. by apply seg_app in Hes as [? _]. }
  exists m4, p. split; [done|]. split; [|exact S4]. rewrite Hrun. unfold rotate_link. rewrite E2. cbn [mbind result_bind].
  rewrite E3. cbn [mbind result_bind head_of] in E4 |- *. by rewrite E4.
Qed.
