(* ===== verification/Primitives.v ===== *)
(** * List primitives: what they do (src/nl-liststr.c, src/nl-list.c)

    The theorems about [push], [pop], [nth], [reverse] and [rotate] on lists in cells,
    with the last-element pointers they use and leave, and where they go wrong. *)

From stdpp Require Import base list numbers tactics gmap.
From Stdlib Require Import ZArith Lia.
From S2P Require Import Prelude Cell Nursery Evacuate Collect Lists Deleting Copying Listops Segments Pushing Popping Relinking.

#[global] Open Scope Z_scope.
#[local] Set Warnings "-clear-no-such-hyp".

(** A list in its cell [e], with the cell [t] behind it: no cell is in it twice, and the
    last-element pointers are nil or right. *)
Record good_list (m : memory) (e : elem) (t : Z) : Prop := {
  gl_nil : nil_ok m;
  gl_seg : seg (cells m) [e] t;
  gl_env : isEnvelope (e_type e) = true;
  gl_nodup : NoDup (elem_addrs e);
  gl_sane : sane (elem_addrs e) (e_kids e);
  gl_tails : tails_elem e
}.

(** The list that [push] makes, as a function of the copied element. *)
Definition push_places (path : indices) (e : elem) : option (elem → elem) :=
  if bool_decide (path = [-1]) then Some (λ new, with_list (e_at new) (elements e ++ [new]) e)
  else push_place (default 0 (head path) :: tail path) e.

(** What [p_push_inserts] asks of the indices: the pair of a list and an index is not one
    where the index is the length and the last element an empty list or nil. *)
Definition push_fits (path : indices) (e : elem) : bool :=
  bool_decide (path = [-1]) || appendable (default 0 (head path) :: tail path) e.

Section Push.
Variables (lo hi lim : Z) (B : gset Z).

#[local] Abbreviation roomy := (roomy lo hi lim B).
#[local] Abbreviation source := (source hi B).

(** What a walk along the list changes is no matter for the copy. *)
Lemma roomy_edited A m m1 n : edited A m m1 → roomy m n → roomy m1 n.
Proof.
  intros [H1 H2 H3] [R1 R2 R3 R4]. rewrite H2. split; cbn; [|done..]. rewrite <- H2. by apply H3.
Qed.

Lemma source_edited A m m1 c : edited A m m1 → (∀ x, x ∈ addrs c → x ∉ A) → source m c → source m1 c.
Proof.
  intros [H1 H2 _] Hd [S1 S2 S3 S4]. rewrite H2. split; cbn; [|done..].
  eapply reprs_ext; [|exact S1]. intros x Hx. by apply H1, Hd.
Qed.

(** The copy of a list has right last-element pointers when the list has. *)
Lemma twin_tails H H' c : ∀ c', twin H H' c c' → tails c → tails c'.
Proof.
  induction c as [|a ty aux w kids IHk nx IHn]; intros [|a' ty' aux' w' kids' nx']; cbn; try done.
  intros (-> & -> & _ & T1 & T2) (H1 & H2 & H3). split; [|split; [by apply IHk|by apply IHn]].
  intros He. unfold tail_ok, elements, list_aux. cbn [e_aux e_kids]. rewrite He.
  destruct kids' as [|b tb ab wb kb nb]; [|right; split; [done|]].
  - destruct kids; [|done]. left. destruct (H1 He) as [?|[? _]]; done.
  - rewrite <- (chain_of_elems nb). cbn [elems]. rewrite elems_chain_of, (last_addr_chain (Elem b tb ab wb kb)).
    unfold last_at. rewrite last_cons. by destruct (last (elems nb)).
Qed.

(** The element that is pushed: it can be copied, and the nursery has room for it. *)
Record pushable (m : memory) (e : elem) (r : roots) (fuel : nat) (x : elem) (nx : chain) : Prop := {
  pu_room : roomy m (length (elem_addrs x));
  pu_source : source m (At (e_at x) (e_type x) (e_aux x) (e_word x) (e_kids x) nx);
  pu_fuel : (length (elem_addrs x ++ addrs nx) < fuel)%nat;
  pu_apart : ∀ y, y ∈ elem_addrs x ++ addrs nx → y ∉ elem_addrs e;
  pu_below : ∀ y, y ∈ elem_addrs e → y < gen0_ptr m ∨ hi ≤ y;
  pu_stack : last (resultStack r) ≠ Some (e_at x);
  pu_tails : tails_elem x
}.

(** The element [x] and its copy [y]: the same types, contents and structure. *)
Definition copy_of_elem (m m' : memory) (x y : elem) : Prop :=
  twin (heap m) (heap m') (At (e_at x) (e_type x) (e_aux x) (e_word x) (e_kids x) Nil)
    (At (e_at y) (e_type y) (e_aux y) (e_word y) (e_kids y) Nil) ∧
  elem_addrs y = seqZ (gen0_ptr m) (Z.of_nat (length (elem_addrs x))).

Lemma copied_tails m m' x y : copy_of_elem m m' x y → tails_elem x → tails_elem y.
Proof.
  intros [Ht _] [H1 H2]. apply twin_tails in Ht; [|cbn; destruct x; done]. destruct Ht as (T1 & T2 & _).
  split; [|done]. intros He. destruct y. by apply T1.
Qed.

(** [copyCell] behind a walk that has edited the list. *)
Lemma copy_after gf m m1 e r fuel x nx : pushable m e r fuel x nx → edited (elem_addrs e) m m1 → ∃ m2 y,
  copyCell gf fuel (e_at x) r m1 = Ok (e_at y, r, m2) ∧ copy_of_elem m m2 x y ∧ seg (cells m2) [y] nilCell ∧
  (∀ z, z ∉ elem_addrs y → cells m2 !! z = cells m1 !! z) ∧ mem_ok lo hi lim B m2 ∧ heap m1 = heap m.
Proof.
  intros [P1 P2 P3 P4 P5 P6 P7] D1.
  assert (Hr1 : roomy m1 (length (elem_addrs x))) by by eapply roomy_edited.
  assert (Hs1 : source m1 (At (e_at x) (e_type x) (e_aux x) (e_word x) (e_kids x) nx)) by by eapply source_edited.
  assert (Hp : gen0_ptr m1 = gen0_ptr m) by by rewrite (ed_rest _ _ _ D1).
  assert (Hh : heap m1 = heap m) by by rewrite (ed_rest _ _ _ D1).
  destruct (copyCell_ok lo hi lim B gf (e_at x) (e_type x) (e_aux x) (e_word x) (e_kids x) nx fuel r m1 P3 Hr1 Hs1 P6)
    as (m2 & w' & kids' & E2 & G2 & R2 & T2 & A2). rewrite Hp in *. rewrite Hh in T2.
  set (y := Elem (gen0_ptr m) (e_type x) (list_aux (e_type x) (e_aux x) kids') w' kids').
  assert (Ay : elem_addrs y = seqZ (gen0_ptr m) (Z.of_nat (length (elem_addrs x)))).
  { unfold elem_addrs. cbn [e_at e_kids y length]. rewrite A2, (seqZ_cons (gen0_ptr m)) by lia. f_equal. f_equal; lia. }
  exists m2, y. split; [exact E2|]. split; [by split|]. split; [by apply (reprs_seg _ [y])|]. split; [|split; [|done]].
  - intros z Hz. apply (gr_frame _ _ _ _ _ _ _ _ (G2 (z + 1))); [lia|]. rewrite Hp, Ay, elem_of_seqZ in *. cbn [length elem_addrs] in *. lia.
  - apply (rm_ok _ _ _ _ _ 0), (gr_roomy _ _ _ _ _ _ _ _ (G2 0)). by rewrite Nat.add_0_r.
Qed.

Lemma copied_apart m m2 e r fuel x nx y : pushable m e r fuel x nx → copy_of_elem m m2 x y →
  NoDup (elem_addrs y) ∧ ∀ z, z ∈ elem_addrs y → z ∉ elem_addrs e.
Proof.
  intros [P1 _ _ _ P5 _ _] [_ A]. rewrite A. split; [apply NoDup_seqZ|]. intros z [H1 H2]%elem_of_seqZ Hin.
  pose proof (rm_room _ _ _ _ _ _ P1). destruct (P5 z Hin); lia.
Qed.

(** The list with the copy in it, and the memory around. *)
Definition pushed (m m' : memory) (e x : elem) (t : Z) (f : elem → elem) : Prop :=
  ∃ y, copy_of_elem m m' x y ∧ seg (cells m') [f y] t ∧ elem_addrs (f y) ≡ₚ elem_addrs e ++ elem_addrs y ∧
    tails_elem (f y) ∧ mem_ok lo hi lim B m' ∧
    ∀ z, z ∉ elem_addrs e → z ∉ elem_addrs y → cells m' !! z = cells m !! z.

(** The insertion of the copy [y] in [m2], which has come from [m]. *)
Lemma pushed_intro m m1 m2 m3 e x y t f : edited (elem_addrs e) m m1 → copy_of_elem m m2 x y →
  (∀ z, z ∉ elem_addrs y → cells m2 !! z = cells m1 !! z) → mem_ok lo hi lim B m2 →
  edited (elem_addrs e ++ [e_at y]) m2 m3 → seg (cells m3) [f y] t →
  elem_addrs (f y) ≡ₚ elem_addrs e ++ elem_addrs y → tails_elem (f y) → pushed m m3 e x t f.
Proof.
  intros D1 [C1 C2] F2 M2 D3 S3 P T. assert (Hh : heap m3 = heap m2) by by rewrite (ed_rest _ _ _ D3).
  exists y. split; [split; [by rewrite Hh|done]|]. split; [done|]. split; [done|]. split; [done|].
  split; [by apply (ed_ok _ _ _ D3)|]. intros z H1 H2. rewrite (ed_frame _ _ _ D3).
  - rewrite F2 by done. by apply (ed_frame _ _ _ D1).
  - intros [?|E%list_elem_of_singleton]%elem_of_app; [done|]. apply H2. rewrite E. by left.
Qed.

Lemma push_on_list_ok gf m e t r fuel x nx path : good_list m e t → pushable m e r fuel x nx → push_fits path e = true →
  match push_places path e with
  | Some f => ∃ m', push_on_list gf fuel (e_at x) (e_at e) path r m = Ok (e_at e, r, m') ∧ pushed m m' e x t f
  | None => push_on_list gf fuel (e_at x) (e_at e) path r m = Fail ERR_LIST_INDEX_INVALID
  end.
Proof.
  intros [G1 G2 G3 G4 G5 G6] Hx Hok. unfold push_places, push_on_list, push_fits in *. pose proof (pu_tails _ _ _ _ _ _ Hx) as Htx.
  case_bool_decide as Hp.
  - destruct (copy_after gf m m e r fuel x nx Hx (edited_refl _ _)) as (m2 & y & E2 & C2 & S2 & F2 & M2 & _).
    destruct (copied_apart m m2 e r fuel x nx y Hx C2) as [Hny Hdy].
    assert (Hs2 : seg (cells m2) [e] t).
    { eapply seg_ext; [|exact G2]. intros z Hz. rewrite bind_single in Hz. apply F2. intros Hy. by apply (Hdy z). }
    destruct (push_last_ok m2 e t y G3 Hs2 G4 S2 Hny Hdy (proj1 G6 G3)) as (m3 & E3 & S3 & D3).
    exists m3. rewrite E2. cbn [mbind result_bind]. rewrite E3. split; [done|].
    eapply (pushed_intro m m m2 m3 e x y); [apply edited_refl|done..| |].
    + rewrite addrs_with, (addrs_elements e), bind_app. cbn [mbind list_bind app]. by rewrite app_nil_r.
    + apply tails_with.
      * right. rewrite elements_with. split; [by destruct (elements e)|]. by rewrite last_at_snoc.
      * apply Forall_app. split; [by apply tails_elements, G6|]. constructor; [by eapply copied_tails|constructor].
  - pose proof (push_walk_ok (tail path) (default 0 (head path)) e t m G1 G2 G3 G4 G5 Hok) as Hwalk.
    destruct (push_place _ e) as [f|] eqn:Hf; [|by rewrite Hwalk].
    destruct Hwalk as (bf & cell & target & m1 & E1 & D1 & P1). rewrite E1. cbn [mbind result_bind].
    destruct (copy_after gf m m1 e r fuel x nx Hx D1) as (m2 & y & E2 & C2 & S2 & F2 & M2 & _).
    destruct (copied_apart m m2 e r fuel x nx y Hx C2) as [Hny Hdy]. rewrite E2. cbn [mbind result_bind].
    destruct (P1 m2 y nilCell) as (m3 & E3 & S3 & A3 & D3); [|done|done|done|].
    { intros z Hz. apply F2. intros Hy. by apply (Hdy z). }
    exists m3. rewrite E3. split; [done|]. destruct (push_place_keeps _ _ _ y Hf) as [Hperm Htl].
    eapply (pushed_intro m m1 m2 m3 e x y); try done. apply Htl; [done|by eapply copied_tails].
Qed.

(** The symbol the list was found in is none, or neither protected nor nil. *)
Definition symbol_ok (nilSymbol : Z) (symbolCheck : option (Z * bool)) (r : roots) (m : memory) : Prop :=
  match symbolCheck with
  | None => True
  | Some (s, protected) => protected = false ∧
      ∃ g c, symbols r !! s = Some g ∧ cells m !! g_contents g = Some c ∧ isNilCell nilSymbol c = false
  end.

Lemma symbol_run gf fuel nilSymbol newCell list symbolCheck path r m : symbol_ok nilSymbol symbolCheck r m →
  p_push gf fuel nilSymbol newCell list symbolCheck path r m = push_on_list gf fuel newCell list path r m.
Proof.
  unfold p_push. destruct symbolCheck as [[s b]|]; [|done]. intros (-> & g & c & Hg & Hc & Hn).
  unfold symbol_at. rewrite Hg. cbn [mbind result_bind]. rewrite (cell_at_ok _ _ _ Hc). cbn [mbind result_bind]. by rewrite Hn.
Qed.

End Push.

(** ** [push] *)


(** The list [(70 (80) 90)] with its last-element pointer, and the list [(50)] to push;
    the nursery is empty. *)
Definition demo_cells : gmap Z cell :=
  list_to_map [(1, CellOf CELL_NIL 1 1 1); (2, CellOf CELL_TRUE 1 1 1);
               (3, CellOf CELL_EXPRESSION 1 7 4); (4, CellOf CELL_LONG 5 1 70); (5, CellOf CELL_EXPRESSION 7 6 6);
               (6, CellOf CELL_LONG 1 1 80); (7, CellOf CELL_LONG 1 1 90);
               (8, CellOf CELL_EXPRESSION 1 9 9); (9, CellOf CELL_LONG 1 1 50); (10, free_cell NULL)].
Definition demo : memory := Memory demo_cells 10 9 100000 [] 120 100 100 110 ∅ ∅ ∅.
Definition demo_roots : roots := Nursery.Roots ∅ 0 0 0 0 [] [1] [] [0; 0; 0; 0; 0] [].

Definition demo_list : elem :=
  Elem 3 CELL_EXPRESSION 7 0 (At 4 CELL_LONG 1 70 Nil (At 5 CELL_EXPRESSION 6 0 (At 6 CELL_LONG 1 80 Nil Nil) (At 7 CELL_LONG 1 90 Nil Nil))).
Definition demo_item : elem := Elem 8 CELL_EXPRESSION 9 0 (At 9 CELL_LONG 1 50 Nil Nil).

Lemma demo_ok : mem_ok 100 110 100000 ∅ demo.
Proof.
  split; try done.
  - exists [10]. split; [|apply (bool_decide_unpack _); by vm_compute]. cbn [free_list].
    split; [done|]. split; [lia|]. split; [done|]. by eexists.
  - intros a c. apply (bool_decide_unpack (map_Forall (λ a _, a < 120) demo_cells)). by vm_compute.
Qed.

Lemma demo_good : good_list demo demo_list nilCell.
Proof.
  split; [reflexivity| |reflexivity| | |].
  - cbn. repeat split; try done; lia.
  - apply (bool_decide_unpack _). by vm_compute.
  - cbn. unfold elem_addrs. cbn. split_and!; try done; intros _; apply (bool_decide_unpack _); by vm_compute.
  - split; [intros _; by right|]. cbn. split_and!; try done. intros _. by right.
Qed.

Lemma demo_pushable : pushable 100 110 100000 ∅ demo demo_list demo_roots 9 demo_item Nil.
Proof.
  split.
  - split; [apply demo_ok|cbn; lia|cbn; lia|]. intros p b. cbn. by rewrite lookup_empty.
  - split; [cbn; repeat split; try done; lia| |cbn; split_and!; try done; apply not_elem_of_empty|cbn; done].
    apply Forall_forall, (bool_decide_unpack _). by vm_compute.
  - cbn. lia.
  - apply Forall_forall, (bool_decide_unpack _). by vm_compute.
  - apply Forall_forall, (bool_decide_unpack _). by vm_compute.
  - cbn. congruence.
  - split; [intros _; by right|]. cbn. done.
Qed.


(** ** [pop], [nth], [reverse], [rotate] *)

(** C26: [pop] takes out the element that the indices name, at any depth, and answers it:
    the list and the element together have exactly the cells of the old list, all
    last-element pointers in both are nil or right, and no other cell has changed.  An
    index that is no place is an error. *)
Theorem p_pop_removes m e t path : good_list m e t → path ≠ [] →
  match pop_place path e with
  | Some (x, e') => ∃ m', p_pop (e_at e) false path m = Ok (e_at x, m') ∧ seg (cells m') [e'] t ∧ seg (cells m') [x] nilCell ∧
      e_at e' = e_at e ∧ elem_addrs e ≡ₚ elem_addrs x ++ elem_addrs e' ∧ tails_elem x ∧ tails_elem e' ∧
      edited (elem_addrs e) m m'
  | None => p_pop (e_at e) false path m = Fail ERR_LIST_INDEX_INVALID
  end.
Proof.
  intros [G1 G2 G3 G4 G5 G6] Hp. destruct path as [|i path]; [done|]. unfold p_pop.
  pose proof (pop_walk_ok path i e t m G1 G2 G3 G4 G5) as W.
  destruct (pop_place (i :: path) e) as [[x e']|] eqn:E; [|by rewrite W].
  destruct W as (env & cell & m' & W1 & W2 & W3 & W4 & W5 & W6). rewrite W1. cbn [mbind result_bind].
  exists m'. rewrite W2. destruct (pop_place_keeps _ _ _ _ E G3 G5) as [P T]. destruct (T G6). done.
Qed.

Lemma p_pop_removes_witness :
  match pop_place [-1] demo_list with
  | Some (x, e') => ∃ m', p_pop 3 false [-1] demo = Ok (e_at x, m') ∧ seg (cells m') [e'] nilCell ∧ seg (cells m') [x] nilCell ∧
      e_at e' = 3 ∧ elem_addrs demo_list ≡ₚ elem_addrs x ++ elem_addrs e' ∧ tails_elem x ∧ tails_elem e' ∧
      edited (elem_addrs demo_list) demo m'
  | None => p_pop 3 false [-1] demo = Fail ERR_LIST_INDEX_INVALID
  end.
Proof. apply (p_pop_removes demo demo_list nilCell [-1] demo_good). discriminate. Defined.

(** Without an index, [pop] does what the index 0 does. *)
Lemma pop_first_unlink m e t x es : isEnvelope (e_type e) = true → seg (cells m) [e] t → elements e = x :: es →
  pop_first (e_at e) m = (m' ← pop_unlink (e_at e) (e_at e) (e_at x) m; Ok (e_at x, m')).
Proof.
  intros He Hs Ees. pose proof (seg_elements _ _ _ He Hs) as (Hc & _ & _ & Hes). rewrite Ees in Hc, Hes. cbn [head_of] in Hc.
  destruct Hes as (Hx & _). unfold pop_first, pop_unlink. rewrite (cell_at_ok _ _ _ Hc). cbn [mbind result_bind c_contents].
  rewrite (cell_at_ok _ _ _ Hx). cbn [mbind result_bind c_next cell_of]. rewrite Z.eqb_refl, (put_run _ _ _ _ Hc).
  destruct (head_of es nilCell =? nilCell).
  - rewrite (put_run _ _ _ _ Hc). cbn [mbind result_bind]. unfold put. rewrite !cells_set, !lookup_insert_eq.
    cbn [mbind result_bind]. by rewrite !insert_insert_eq.
  - cbn [mbind result_bind]. by rewrite (put_run _ _ _ _ Hc).
Qed.

Theorem pop_first_removes m e t x es : good_list m e t → elements e = x :: es →
  ∃ m', p_pop (e_at e) false [] m = Ok (e_at x, m') ∧ seg (cells m') [with_list (aux_without e 0) es e] t ∧
    seg (cells m') [x] nilCell ∧ edited (elem_addrs e) m m'.
Proof.
  intros [G1 G2 G3 G4 G5 G6] Ees. cbn [p_pop]. rewrite (pop_first_unlink m e t x es) by done.
  destruct (unlink_pops m e t 0 x G3 G2 G4 G5) as (m' & E & S1 & S2 & D); [by rewrite Ees|]. cbn [prev_at] in E.
  exists m'. rewrite E, Ees in *. done.
Qed.

(** From an empty list it takes nil. *)
Theorem pop_empty m e t : good_list m e t → elements e = [] → ∃ m', p_pop (e_at e) false [] m = Ok (nilCell, m').
Proof.
  intros [G1 G2 G3 G4 G5 G6] Ees. pose proof (seg_elements _ _ _ G3 G2) as (Hc & Hhi & Hpl & _). rewrite Ees in Hc.
  cbn [p_pop head_of] in *. unfold pop_first. rewrite (cell_at_ok _ _ _ Hc). cbn [mbind result_bind c_contents].
  rewrite (cell_at_ok _ _ _ G1). cbn [mbind result_bind c_next]. rewrite Z.eqb_refl, (put_run _ _ _ _ Hc). cbn [mbind result_bind].
  unfold put. rewrite !cells_set, lookup_insert_eq. cbn [mbind result_bind]. rewrite !cells_set, insert_insert_eq.
  rewrite lookup_insert_ne by (unfold nilCell; lia). rewrite G1. by eexists.
Qed.

(** C27: Indexing with any path answers the element that the indices name, whether or not
    the last-element pointers are used for it, and is an error exactly when an index is
    no place of its list. *)
Theorem implicitIndexList_finds m e t path : good_list m e t →
  nth_list path (e_at e) m =
  match nth_place path e with Some s => Ok (e_at s) | None => Fail ERR_LIST_INDEX_INVALID end.
Proof.
  intros [G1 G2 G3 G4 G5 G6]. destruct path as [|i path]; [done|]. by apply (nth_ok path i e t m).
Qed.

Lemma implicitIndexList_finds_witness : nth_list [1; -1] 3 demo =
  match nth_place [1; -1] demo_list with Some s => Ok (e_at s) | None => Fail ERR_LIST_INDEX_INVALID end.
Proof. apply (implicitIndexList_finds demo demo_list nilCell [1; -1] demo_good). Defined.

(** [last] leaves the pointer it had to look for. *)
Theorem p_last_finds m e t es p : good_list m e t → elements e = es ++ [p] →
  ∃ m', p_last (e_at e) m = Ok (e_at p, m') ∧ seg (cells m') [with_list (e_at p) (elements e) e] t ∧ edited [e_at e] m m'.
Proof.
  intros [G1 G2 G3 G4 G5 [G6 _]] Ees. pose proof (seg_elements _ _ _ G3 G2) as (Hc & Hhi & Hpl & Hes).
  assert (Hn := G4). rewrite addrs_elements in Hn. apply NoDup_cons in Hn as [Hn1 Hn2].
  unfold p_last. rewrite (cell_at_ok _ _ _ Hc). cbn [mbind result_bind c_contents c_aux].
  rewrite (proj2 (Z.eqb_neq _ _)) by (apply (head_not_nil _ _ _ Hes); rewrite Ees; by destruct es).
  destruct (G6 G3) as [H|[_ H]]; rewrite H.
  - rewrite Z.eqb_refl. cbn [negb]. rewrite Ees, last_cell_seg by by rewrite <- Ees. cbn [mbind result_bind].
    destruct (put_edited [e_at e] (e_at e) (set_aux (e_at p)) m _ Hc (proj1 Hpl) ltac:(by left)) as (m1 & E1 & C1 & D1).
    rewrite E1. exists m1. split; [done|]. split; [|done]. rewrite <- Ees, seg_with by done. rewrite C1, lookup_insert_eq.
    split; [done|]. split; [done|]. split; [done|]. eapply seg_ext; [|exact Hes]. intros y Hy. apply lookup_insert_ne.
    by intros <-.
  - rewrite Ees, last_at_snoc. rewrite (proj2 (Z.eqb_neq _ _)); [|].
    + exists m. split; [done|]. split; [|apply edited_refl]. rewrite <- Ees. rewrite Ees, last_at_snoc in H. rewrite <- H.
      by rewrite with_elements.
    + rewrite Ees in Hes. apply seg_app in Hes as [_ (_ & (Hlow & _) & _)]. unfold nilCell. lia.
Qed.

Theorem p_reverse_reverses m e t : good_list m e t →
  ∃ m', p_reverse (e_at e) false m = Ok (e_at e, m') ∧ seg (cells m') [with_list nilCell (reverse (elements e)) e] t ∧
    edited (nilCell :: elem_addrs e) m m'.
Proof. intros [G1 G2 G3 G4 G5 G6]. by apply reverse_ok. Qed.

(** C28: [rotate] turns a list by any count, to the left when it is negative, without
    leaving its cells, and the last-element pointer it sets is right; the counts that
    are excluded are minus twice, three times, ... the length, for which it loses all
    elements but the first ([p_rotate_loses]). *)
Theorem p_rotate_turns m e t count : good_list m e t → - 2 ^ 63 < count → lost_count count (length (elements e)) = false →
  ∃ m' q, p_rotate (e_at e) count false m = Ok (e_at e, m') ∧
    seg (cells m') [with_list q (rotate_list count (elements e)) e] t ∧
    tails_elem (with_list q (rotate_list count (elements e)) e) ∧ edited (elem_addrs e) m m'.
Proof.
  intros [G1 G2 G3 G4 G5 [G6 G7%tails_elements]] Hc Hl. destruct (rotate_turns m e t count G2 G3 G4 G1 Hc Hl) as (m' & q & E & S & Q & D).
  exists m', q. split; [done|]. split; [done|]. split; [|done]. apply tails_with.
  - destruct Q as [->|[Hne ->]]; [by left|]. right. rewrite elements_with. split; [|done]. intros H%(f_equal length).
    unfold rotate_list in H. rewrite length_app, length_drop, length_take in H. cbn in H. destruct (elements e); [done|cbn in H; lia].
  - unfold rotate_list. rewrite Permutation_app_comm, take_drop. done.
Qed.

Lemma p_rotate_turns_witness :
  ∃ m' q, p_rotate 3 (-1) false demo = Ok (3, m') ∧
    seg (cells m') [with_list q (rotate_list (-1) (elements demo_list)) demo_list] nilCell ∧
    tails_elem (with_list q (rotate_list (-1) (elements demo_list)) demo_list) ∧ edited (elem_addrs demo_list) demo m'.
Proof. apply (p_rotate_turns demo demo_list nilCell (-1) demo_good); [lia|reflexivity]. Defined.

(** ** Where they go wrong *)

Theorem p_rotate_loses m e t count : good_list m e t → - 2 ^ 63 < count → lost_count count (length (elements e)) = true →
  ∃ m' p, head (elements e) = Some p ∧ p_rotate (e_at e) count false m = Ok (e_at e, m') ∧
    seg (cells m') [with_list (e_at p) [p] e] t.
Proof. intros [G1 G2 G3 G4 G5 G6]. by apply rotate_lost. Qed.

(** [(rotate '(70 (80) 90) -6)] is [(70)]. *)
Example rotate_whole_turn :
  ('(p, m) ← p_rotate 3 (-6) false demo; l ← cell_at p m; list_contents 9 (c_contents l) m) = Ok [70].
Proof. by vm_compute. Qed.

(** Behind an empty list, an index that is the length puts the new element into that
    list; behind a copy of nil it overwrites the contents of nil.  Here
    [(push 50 '(70 ()) 2)] makes [(70 (50))]. *)
Definition empty_last : memory :=
  set_cells (<[5 := CellOf CELL_EXPRESSION 1 1 1]> (<[3 := CellOf CELL_EXPRESSION 1 5 4]> demo_cells)) demo.

Example push_behind_empty :
  ('(p, _, m) ← p_push 5 9 60 9 3 None [2] demo_roots empty_last;
   l ← cell_at p m; outer ← list_contents 9 (c_contents l) m; c ← cell_at 5 m; inner ← list_contents 9 (c_contents c) m;
   Ok (outer, inner)) = Ok ([70; 100], [50]).
Proof. by vm_compute. Qed.

(** A compiled lambda: its [aux] is a bytecode object, not the last element.  To push
    behind the last element of it, to index it with -1 and to ask for its last element
    take that object for a cell; [pop] leaves the code of the longer list. *)
Definition compiled : memory :=
  let m := set_cells (<[3 := CellOf CELL_LAMBDA 1 60 4]> demo_cells) demo in
  set_bytecodes {[60 := BytecodeObj 1 []]} m.

Example push_compiled_lambda : p_push 5 9 61 9 3 None [-1] demo_roots compiled = UB.
Proof. by vm_compute. Qed.

Example nth_compiled_lambda : nth_list [-1] 3 compiled = UB ∧ p_last 3 compiled = Ok (60, compiled).
Proof. by vm_compute. Qed.

Example pop_compiled_lambda :
  ('(p, m) ← p_pop 3 false [1] compiled; l ← cell_at 3 m; Ok (p, c_aux l)) = Ok (5, 60).
Proof. by vm_compute. Qed.
