(* ===== verification/Sort.v ===== *)
(** * Sorting, sets and counting (src/nl-list.c)

    [binsort], the merge sort on a vector of cells, and what is built on it:
    [sort], [intersect], [difference], [unique] and [count].  A vector holds cells
    by pointer; what the code reads of them is their value and, while a list is
    taken apart, the index of the element, which is kept in [next]. *)

From stdpp Require Import base list numbers tactics gmap.
From Stdlib Require Import ZArith Lia.
From S2P Require Import Prelude Cell Eval.

#[global] Open Scope Z_scope.

(** [v_next] is an index, or the pointer it is otherwise. *)
Record velem := VElem { v_next : option nat; v_value : sexp }.

(** The third argument of [binsort]: NULL, 0xFFFFFFFF or a function. *)
Inductive ordering : Type := ByCells | ByIndex | ByFunction (pCell : sexp).

Section Sort.
Variable st : symtab.
(** [evaluateExpression] *)
Variable ev : sexp → env → result (sexp * env).

(** Whether [x] goes before [y]. *)
Definition goes_first (o : ordering) (x y : velem) (g : env) : result (bool * env) :=
  match o with
  | ByCells => Ok (compareCells st (v_value x) (v_value y) <=? 0, g)
  | ByIndex =>
      match v_next x, v_next y with Some i, Some j => Ok (bool_decide (i ≤ j)%nat, g) | _, _ => UB end
  | ByFunction pCell =>
      '(cell, g) ← ev (CExpr [pCell; CQuote (v_value x); CQuote (v_value y)]) g;
      Ok (negb (isNil cell) && negb (isEmpty cell), g)
  end.

(** ** binsort *)

(** The loop over [j], which writes [count] elements of [y]: the runs from [k] to [kf]
    and from [l] to [lf] are merged. *)
Fixpoint merge_runs (o : ordering) (x : list velem) (count j k kf l lf : nat) (y : list (option velem)) (g : env)
    : result (list (option velem) * env) :=
  match count with
  | O => Ok (y, g)
  | S count =>
      if decide (kf < k)%nat then
        v ← rd x l;
        y ← wr y j (Some v);
        merge_runs o x count (S j) k kf (S l) lf y g
      else if decide (lf < l)%nat then
        v ← rd x k;
        y ← wr y j (Some v);
        merge_runs o x count (S j) (S k) kf l lf y g
      else
        a ← rd x k;
        b ← rd x l;
        '(first, g) ← goes_first o a b g;
        if first : bool then
          y ← wr y j (Some a);
          merge_runs o x count (S j) (S k) kf l lf y g
        else
          y ← wr y j (Some b);
          merge_runs o x count (S j) k kf (S l) lf y g
  end.

(** [for(i = 0; i < n; i += 2*m)]. *)
Fixpoint merge_blocks (fuel : nat) (o : ordering) (x : list velem) (n m i : nat) (y : list (option velem)) (g : env)
    : result (list (option velem) * env) :=
  match fuel with
  | O => NoFuel
  | S fuel =>
      if decide (i < n)%nat then
        let k := i in
        let l := (i + m)%nat in
        let '(kf, l, lf) := if decide (n ≤ l)%nat then (n, (n + 1)%nat, n) else ((k + m - 1)%nat, l, (l + m - 1)%nat) in
        let lf := if decide (n ≤ lf)%nat then (n - 1)%nat else lf in
        '(y, g) ← merge_runs o x (S lf - i) i k kf l lf y g;
        merge_blocks fuel o x n m (i + 2 * m) y g
      else Ok (y, g)
  end.

(** [while(m < n)]; at the end of a round every cell of [y] has been written. *)
Fixpoint merge_rounds (fuel : nat) (o : ordering) (x : list velem) (n m : nat) (y : list (option velem)) (g : env)
    : result (list velem * env) :=
  match fuel with
  | O => NoFuel
  | S fuel =>
      if decide (m < n)%nat then
        '(y, g) ← merge_blocks (S n) o x n m 0 y g;
        x ← match mapM id y with Some x => Ok x | None => UB end;
        merge_rounds fuel o x n (2 * m) y g
      else Ok (x, g)
  end.

Definition binsort (x : list velem) (o : ordering) (g : env) : result (list velem * env) :=
  let n := length x in merge_rounds (S n) o x n 1 (replicate n None) g.

(** ** Vectors of lists *)

(** The symbol that a function argument may name. *)
Definition function_value (func : sexp) (g : env) : result (sexp * env) :=
  '(func, g) ← ev func g;
  match func with CSymbol s => f ← contents s g; Ok (f, g) | _ => Ok (func, g) end.

Definition listToSortedVector (l : list sexp) (func : option sexp) (indexFlag : bool) (g : env)
    : result (list velem * env) :=
  if decide (l = []) then Ok ([], g)
  else
    let vector := imap (λ i v, VElem (if indexFlag then Some i else None) v) l in
    match func with
    | Some func => '(func, g) ← function_value func g; binsort vector (ByFunction func) g
    | None => binsort vector ByCells g
    end.

Definition resortVectorToList (vector : list velem) (g : env) : result (list sexp * env) :=
  '(vector, g) ← binsort vector ByIndex g;
  Ok (fmap (M:=list) v_value vector, g).

(** The list branch and the array branch of [p_sort]; [func] is the second argument,
    if there is one. *)
Definition sort_list (l : list sexp) (func : option sexp) (g : env) : result (list sexp * env) :=
  '(vector, g) ← listToSortedVector l func false g;
  Ok (fmap (M:=list) v_value vector, g).

Definition sort_array (a : list sexp) (func : option sexp) (g : env) : result (list sexp * env) :=
  '(vector, g) ← binsort (VElem None <$> a) (match func with Some f => ByFunction f | None => ByCells end) g;
  Ok (fmap (M:=list) v_value vector, g).

(** ** intersect, difference, unique *)

Inductive set_mode := SET_INTER | SET_DIFF | SET_UNIQUE.

(** What the switch does with the element [i]. *)
Inductive set_step := Take | Skip (i j : nat).

Definition set_switch (mode : set_mode) (a b : velem) (i j lengthB : nat) : set_step :=
  let cmp := compareCells st (v_value a) (v_value b) in
  match mode with
  | SET_INTER =>
      if cmp =? 0 then Take
      else if cmp <? 0 then Skip (S i) j
      else if decide (j < lengthB - 1)%nat then Skip i (S j) else Skip (S i) j
  | SET_DIFF =>
      if cmp =? 0 then Skip (S i) j
      else if cmp <? 0 then Take
      else if decide (j < lengthB - 1)%nat then Skip i (S j) else Take
  | SET_UNIQUE => Take
  end.

(** [while(i < lengthA)]; [vectorB] is [None] without a second list, [taken] holds
    [vectorResult] up to [k]. *)
Fixpoint set_loop (fuel : nat) (mode : set_mode) (listMode : bool) (vectorA : list velem)
    (vectorB : option (list velem)) (i j : nat) (taken : list velem) : result (list velem) :=
  match fuel with
  | O => NoFuel
  | S fuel =>
      if decide (i < length vectorA)%nat then
        a ← rd vectorA i;
        step ← match vectorB with
               | Some vb => b ← rd vb j; Ok (set_switch mode a b i j (length vb))
               | None => Ok Take
               end;
        match step with
        | Skip i j => set_loop fuel mode listMode vectorA vectorB i j taken
        | Take =>
            let new := match last taken with
                       | None => true
                       | Some t => negb (compareCells st (v_value a) (v_value t) =? 0) || listMode
                       end in
            set_loop fuel mode listMode vectorA vectorB (S i) j (if new then taken ++ [a] else taken)
        end
      else Ok taken
  end.

Definition setInterDiff (listA listB : list sexp) (listMode : bool) (mode : set_mode) (g : env)
    : result (list sexp * env) :=
  if decide (listA = []) then Ok ([], g)
  else
    let second := match mode with SET_UNIQUE => None | _ => if decide (listB = []) then None else Some listB end in
    if match mode, second with SET_INTER, None => true | _, _ => false end then Ok ([], g)
    else
      '(vectorA, g) ← listToSortedVector listA None true g;
      '(vectorB, g) ← match second with
                      | Some l => '(v, g) ← listToSortedVector l None false g; Ok (Some v, g)
                      | None => Ok (None, g)
                      end;
      let listMode := match mode with SET_UNIQUE => false | _ => listMode end in
      taken ← set_loop (S (length listA + length listB)) mode listMode vectorA vectorB 0 0 [];
      '(sorted, g) ← binsort taken ByIndex g;
      '(_, g) ← resortVectorToList vectorA g;
      Ok (fmap (M:=list) v_value sorted, g).

(** ** count *)

Fixpoint count_loop (fuel : nat) (vectorItems vectorList : list velem) (i j : nat) (counts : list Z)
    : result (list Z) :=
  match fuel with
  | O => NoFuel
  | S fuel =>
      if decide (i < length vectorList)%nat then
        x ← rd vectorList i;
        y ← rd vectorItems j;
        let cmp := compareCells st (v_value x) (v_value y) in
        if cmp =? 0 then
          idx ← match v_next y with Some idx => Ok idx | None => UB end;
          c ← rd counts idx;
          counts ← wr counts idx (c + 1);
          count_loop fuel vectorItems vectorList (S i) j counts
        else if cmp <? 0 then count_loop fuel vectorItems vectorList (S i) j counts
        else if decide (j < length vectorItems - 1)%nat then count_loop fuel vectorItems vectorList i (S j) counts
        else count_loop fuel vectorItems vectorList (S i) j counts
      else Ok counts
  end.

(** What [p_count] answers; the lists are put together again. *)
Definition count_items (items l : list sexp) (g : env) : result (list Z * env) :=
  if decide (items = []) then Ok ([], g)
  else
    '(vectorItems, g) ← listToSortedVector items None true g;
    '(vectorList, g) ← listToSortedVector l None true g;
    counts ← count_loop (S (length items + length l)) vectorItems vectorList 0 0 (replicate (length items) 0);
    '(_, g) ← resortVectorToList vectorItems g;
    '(_, g) ← resortVectorToList vectorList g;
    Ok (counts, g).

End Sort.
