(* ===== verification/Merging.v ===== *)
(** * Merge sort (src/nl-list.c, [binsort])

    The indices of [binsort] against merges of lists: what the loops write is the
    merge of adjacent runs, whatever the comparison does; with a comparison that is
    an order the result is sorted and stable. *)

From stdpp Require Import base list numbers tactics gmap sorting.
From Stdlib Require Import ZArith Lia Sorted.
From S2P Require Import Prelude Cell Eval Sort.

#[global] Open Scope Z_scope.

(** [M] written to [y] from the index [j] on. *)
Definition put_at (j : nat) (M : list velem) (y : list (option velem)) : list (option velem) :=
  take j y ++ (Some <$> M) ++ drop (j + length M) y.

Lemma put_at_nil j y : put_at j [] y = y.
Proof. unfold put_at. cbn. rewrite Nat.add_0_r. apply take_drop. Qed.

Lemma put_at_cons j v M y : (j < length y)%nat → put_at (S j) M (<[j := Some v]> y) = put_at j (v :: M) y.
Proof.
  intros H. unfold put_at. cbn [length fmap list_fmap].
  rewrite (take_S_r _ _ (Some v)) by (by apply list_lookup_insert_eq).
  rewrite take_insert_ge by lia. rewrite <- app_assoc. cbn. do 3 f_equal.
  rewrite drop_insert_lt by lia. f_equal. lia.
Qed.

Lemma put_at_app j M N y : (j + length M ≤ length y)%nat →
  put_at j (M ++ N) y = put_at (j + length M) N (put_at j M y).
Proof.
  intros H. assert (Hlen : length (take j y ++ (Some <$> M)) = (j + length M)%nat).
  { rewrite length_app, length_take, length_fmap. lia. }
  unfold put_at. rewrite length_app, fmap_app, Nat.add_assoc, !app_assoc.
  rewrite (take_app_length' (take j y ++ (Some <$> M))) by done.
  rewrite (drop_app_add' (take j y ++ (Some <$> M))) by done. by rewrite drop_drop.
Qed.

Lemma put_at_length j M y : (j + length M ≤ length y)%nat → length (put_at j M y) = length y.
Proof.
  intros H. unfold put_at. rewrite !length_app, length_fmap, length_take, length_drop. lia.
Qed.

Lemma mapM_all (N : list velem) : mapM id (Some <$> N) = Some N.
Proof. induction N as [|v N IH]; [done|]. cbn. cbn in IH. by rewrite IH. Qed.

Section Merging.
Variable st : symtab.
Variable ev : sexp → env → result (sexp * env).
Variable o : ordering.

#[local] Abbreviation goes_first := (goes_first st ev o).

(** ** Merges of lists *)

Fixpoint merge_m (L : list velem) : list velem → env → result (list velem * env) :=
  match L with
  | [] => λ R g, Ok (R, g)
  | a :: L' =>
      fix go (R : list velem) (g : env) : result (list velem * env) :=
        match R with
        | [] => Ok (a :: L', g)
        | b :: R' =>
            '(first, g) ← goes_first a b g;
            if first : bool then '(M, g) ← merge_m L' (b :: R') g; Ok (a :: M, g)
            else '(M, g) ← go R' g; Ok (b :: M, g)
        end
  end.

Lemma merge_m_nil_r L g : merge_m L [] g = Ok (L, g).
Proof. by destruct L. Qed.

Lemma merge_m_cons a L b R g : merge_m (a :: L) (b :: R) g =
  ('(first, g) ← goes_first a b g;
   if first : bool then '(M, g) ← merge_m L (b :: R) g; Ok (a :: M, g)
   else '(M, g) ← merge_m (a :: L) R g; Ok (b :: M, g)).
Proof. done. Qed.

Lemma merge_runs_ok x count : ∀ L R X Z j k kf l lf y g, count = (length L + length R)%nat →
  drop k x = L ++ X → (R ≠ [] → drop l x = R ++ Z) → (k + length L ≤ kf + 1)%nat →
  (R ≠ [] → k + length L = kf + 1 ∧ l + length R = lf + 1)%nat → (R = [] → (lf < l)%nat) →
  (j + count ≤ length y)%nat →
  merge_runs st ev o x count j k kf l lf y g = ('(M, g) ← merge_m L R g; Ok (put_at j M y, g)).
Proof.
  induction count as [|count IH]; intros L R X Z j k kf l lf y g Hc HL HR Hk Hkl Hr Hy.
  { destruct L, R; try done. cbn. by rewrite put_at_nil. }
  cbn [merge_runs]. assert (Hj : (j < length y)%nat) by lia.
  assert (Hput : ∀ v M, put_at (S j) M (<[j := Some v]> y) = put_at j (v :: M) y) by (intros; by apply put_at_cons).
  destruct L as [|a L], R as [|b R]; cbn [length] in *; try lia.
  - destruct Hkl as [Hk1 Hl1]; [done|]. rewrite decide_True by lia. specialize (HR ltac:(done)).
    rewrite (rd_drop _ _ _ _ HR), bind_ok, wr_ok by done. cbn [mbind result_bind].
    rewrite (IH [] R X Z); [cbn; by rewrite Hput|cbn; lia|done| |cbn; lia| | |by rewrite length_insert; lia].
    + intros _. by apply (drop_next _ _ _ _ HR).
    + intros _. cbn. lia.
    + intros ->. cbn in Hl1. lia.
  - rewrite decide_False by lia. rewrite decide_True by (by apply Hr).
    rewrite (rd_drop _ _ _ _ HL), bind_ok, wr_ok by done. cbn [mbind result_bind].
    rewrite (IH L [] X Z); [|cbn; lia| |done|lia|done|done|by rewrite length_insert; lia].
    + rewrite !merge_m_nil_r. cbn. by rewrite Hput.
    + by apply (drop_next _ _ _ _ HL).
  - destruct Hkl as [Hk1 Hl1]; [done|]. rewrite !decide_False by lia. specialize (HR ltac:(done)).
    rewrite (rd_drop _ _ _ _ HL), (rd_drop _ _ _ _ HR). cbn [mbind result_bind]. rewrite merge_m_cons.
    destruct (goes_first a b g) as [[first g']| | |]; try done. cbn [mbind result_bind].
    destruct first; rewrite wr_ok by done; cbn [mbind result_bind].
    + rewrite (IH L (b :: R) X Z); [|cbn; lia| |done|lia|cbn; lia|done|by rewrite length_insert; lia].
      * destruct (merge_m L (b :: R) g') as [[M g'']| | |]; try done. cbn. by rewrite Hput.
      * by apply (drop_next _ _ _ _ HL).
    + rewrite (IH (a :: L) R X Z); [|cbn; lia|done| |cbn; lia| | |by rewrite length_insert; lia].
      * destruct (merge_m (a :: L) R g') as [[M g'']| | |]; try done. cbn. by rewrite Hput.
      * intros _. by apply (drop_next _ _ _ _ HR).
      * intros _. cbn [length]. lia.
      * intros ->. cbn in Hl1. lia.
Qed.

Lemma merge_m_perm L : ∀ R g M g', merge_m L R g = Ok (M, g') → M ≡ₚ L ++ R.
Proof.
  induction L as [|a L IHL]; [by intros R g M g' [= <- _]|].
  induction R as [|b R IHR]; intros g M g'; [cbn; intros [= <- _]; by rewrite app_nil_r|].
  rewrite merge_m_cons. intros ([first g1] & _ & H)%bind_ok_inv.
  destruct first; apply bind_ok_inv in H as ([M1 g2] & E & [= <- _]).
  - cbn. by rewrite (IHL _ _ _ _ E).
  - rewrite (IHR _ _ _ E). rewrite <- Permutation_middle. done.
Qed.

(** ** Rounds *)

Fixpoint pass_m (fuel m : nat) (x : list velem) (g : env) : result (list velem * env) :=
  match fuel with
  | O => NoFuel
  | S fuel =>
      match x with
      | [] => Ok ([], g)
      | _ =>
          '(M, g) ← merge_m (take m x) (take m (drop m x)) g;
          '(N, g) ← pass_m fuel m (drop (2 * m) x) g;
          Ok (M ++ N, g)
      end
  end.

Lemma pass_m_step fuel m x g : x ≠ [] → pass_m (S fuel) m x g =
  ('(M, g) ← merge_m (take m x) (take m (drop m x)) g;
   '(N, g) ← pass_m fuel m (drop (2 * m) x) g;
   Ok (M ++ N, g)).
Proof. by destruct x. Qed.

Lemma pair_split (m : nat) (x : list velem) : take m x ++ take m (drop m x) ++ drop (2 * m) x = x.
Proof. replace (2 * m)%nat with (m + m)%nat by lia. rewrite <- drop_drop, !take_drop. done. Qed.

Lemma pass_m_perm fuel m : ∀ x g N g', pass_m fuel m x g = Ok (N, g') → N ≡ₚ x.
Proof.
  induction fuel as [|fuel IH]; intros x g N g'; [done|]. cbn [pass_m]. destruct x as [|v x]; [by intros [= <- _]|].
  set (xs := v :: x). intros ([M g1] & E1 & ([N' g2] & E2 & [= <- _])%bind_ok_inv)%bind_ok_inv.
  rewrite (merge_m_perm _ _ _ _ _ E1), (IH _ _ _ _ E2), <- app_assoc. by rewrite pair_split.
Qed.

Lemma merge_blocks_ok x m fuel : ∀ i y g, (0 < m)%nat → length y = length x → (length (drop i x) < fuel)%nat →
  merge_blocks st ev fuel o x (length x) m i y g = ('(N, g) ← pass_m fuel m (drop i x) g; Ok (put_at i N y, g)).
Proof.
  induction fuel as [|fuel IH]; intros i y g Hm Hy Hf; [lia|]. cbn [merge_blocks].
  destruct (decide (i < length x)%nat) as [Hi|Hi].
  2:{ rewrite drop_ge by lia. cbn. by rewrite put_at_nil. }
  set (d := drop i x) in *. assert (Hd : length d = (length x - i)%nat) by apply length_drop.
  rewrite pass_m_step by (intros E; rewrite E in Hd; cbn in Hd; lia).
  set (L := take m d). set (R := take m (drop m d)).
  assert (HL : length L = (m `min` (length x - i))%nat) by (unfold L; rewrite length_take; lia).
  assert (HR : length R = (m `min` (length x - i - m))%nat) by (unfold R; rewrite length_take, length_drop; lia).
  assert (Hrun : ∀ kf l lf, (if decide (length x ≤ i + m)%nat then (length x, (length x + 1)%nat, length x)
        else ((i + m - 1)%nat, (i + m)%nat, (i + m + m - 1)%nat)) = (kf, l, lf) →
      let lf := if decide (length x ≤ lf)%nat then (length x - 1)%nat else lf in
      merge_runs st ev o x (S lf - i) i i kf l lf y g = ('(M, g) ← merge_m L R g; Ok (put_at i M y, g))).
  { intros kf l lf0. destruct (decide (length x ≤ i + m)%nat) as [Hlast|Hmid]; intros [= <- <- <-]; cbn zeta.
    - rewrite decide_True by lia. assert (R = []) as HR0 by (apply length_zero_iff_nil; lia).
      apply merge_runs_ok with (X := drop m d) (Z := []); try (rewrite HR0; done); rewrite ?HR0; cbn [length]; try lia.
      unfold L. fold d. by rewrite take_drop.
    - set (lf := if decide (length x ≤ i + m + m - 1)%nat then _ else _).
      assert (Hlf : (i + m + length R = lf + 1)%nat) by (unfold lf; case_decide; lia).
      apply merge_runs_ok with (X := drop m d) (Z := drop m (drop m d)); try lia.
      + unfold L. fold d. by rewrite take_drop.
      + intros _. unfold R. rewrite take_drop. unfold d. by rewrite drop_drop.
      + intros E. rewrite E in HR. cbn in HR. lia. }
  cbn zeta. destruct (if decide (length x ≤ i + m)%nat then _ else _) as [[kf l] lf].
  rewrite (Hrun _ _ _ eq_refl). clear Hrun. destruct (merge_m L R g) as [[M g1]| | |] eqn:EM; try done. cbn [mbind result_bind].
  pose proof (Permutation_length (merge_m_perm _ _ _ _ _ EM)) as HM. rewrite length_app in HM.
  assert (Hin : (i + length M ≤ length y)%nat) by lia.
  rewrite IH; [|done|by rewrite put_at_length|rewrite length_drop; lia].
  assert (Edrop : drop (i + 2 * m) x = drop (2 * m) d) by (unfold d; by rewrite drop_drop). rewrite Edrop.
  destruct (pass_m fuel m (drop (2 * m) d) g1) as [[N g2]| | |] eqn:EN; try done. cbn [mbind result_bind].
  do 2 f_equal. rewrite put_at_app by done.
  destruct (decide (length x ≤ i + 2 * m)%nat) as [Hend|Hend].
  - assert (N = []) as ->; [|by rewrite !put_at_nil].
    rewrite drop_ge in EN by lia. destruct fuel; [done|]. by injection EN as <- _.
  - do 2 f_equal. lia.
Qed.

(** The rounds of the sort. *)
Fixpoint sort_m (fuel m : nat) (x : list velem) (g : env) : result (list velem * env) :=
  match fuel with
  | O => NoFuel
  | S fuel =>
      if decide (m < length x)%nat then '(x, g) ← pass_m (S (length x)) m x g; sort_m fuel (2 * m) x g
      else Ok (x, g)
  end.

Lemma merge_rounds_ok fuel : ∀ x m y g, (0 < m)%nat → length y = length x →
  merge_rounds st ev fuel o x (length x) m y g = sort_m fuel m x g.
Proof.
  induction fuel as [|fuel IH]; intros x m y g Hm Hy; [done|]. cbn [merge_rounds sort_m].
  destruct (decide (m < length x)%nat); [|done].
  rewrite merge_blocks_ok by (rewrite ?drop_0; lia). rewrite drop_0.
  destruct (pass_m (S (length x)) m x g) as [[N g1]| | |] eqn:EN; try done. cbn [mbind result_bind].
  pose proof (Permutation_length (pass_m_perm _ _ _ _ _ _ EN)) as HN.
  assert (Hput : put_at 0 N y = Some <$> N).
  { unfold put_at. cbn [take app]. rewrite drop_ge by lia. by rewrite app_nil_r. }
  rewrite Hput, mapM_all. cbn [mbind result_bind]. rewrite <- HN. apply IH; [lia|]. by rewrite length_fmap.
Qed.

Lemma binsort_eq x g : binsort st ev x o g = sort_m (S (length x)) 1 x g.
Proof. apply merge_rounds_ok; [lia|]. by rewrite length_replicate. Qed.

(** ** Any comparison *)

Lemma merge_m_total L : ∀ R g, (∀ a b g, a ∈ L → b ∈ R → ∃ c g', goes_first a b g = Ok (c, g')) →
  ∃ M g', merge_m L R g = Ok (M, g').
Proof.
  induction L as [|a L IHL]; [by intros R g _; exists R, g|].
  induction R as [|b R IHR]; intros g Ht; [by exists (a :: L), g|]. rewrite merge_m_cons.
  destruct (Ht a b g) as (c & g1 & ->); [by left|by left|]. cbn [mbind result_bind]. destruct c.
  - destruct (IHL (b :: R) g1) as (M & g2 & ->); [intros a' b' g' Ha Hb; apply Ht; [by right|done]|]. by eexists _, _.
  - destruct (IHR g1) as (M & g2 & ->); [intros a' b' g' Ha Hb; apply Ht; [done|by right]|]. by eexists _, _.
Qed.

Definition total_on (x : list velem) : Prop :=
  ∀ a b g, a ∈ x → b ∈ x → ∃ c g', goes_first a b g = Ok (c, g').

Lemma pass_m_total m fuel : ∀ x g, (0 < m)%nat → (length x < fuel)%nat → total_on x → ∃ N g', pass_m fuel m x g = Ok (N, g').
Proof.
  induction fuel as [|fuel IH]; intros x g Hm Hf Ht; [lia|]. cbn [pass_m]. destruct x as [|v x]; [by eexists _, _|].
  set (xs := v :: x) in *.
  assert (Hin : ∀ a, a ∈ take m xs ∨ a ∈ take m (drop m xs) ∨ a ∈ drop (2 * m) xs → a ∈ xs).
  { intros a Ha. rewrite <- (pair_split m xs). rewrite !elem_of_app. tauto. }
  destruct (merge_m_total (take m xs) (take m (drop m xs)) g) as (M & g1 & ->).
  { intros a b g0 Ha Hb. apply Ht; apply Hin; auto. }
  cbn [mbind result_bind]. destruct (IH (drop (2 * m) xs) g1 Hm) as (N & g2 & ->).
  { rewrite length_drop. unfold xs in *. cbn [length] in *. lia. }
  { intros a b g0 Ha Hb. apply Ht; apply Hin; auto. }
  by eexists _, _.
Qed.

Lemma sort_m_total fuel : ∀ m x g, (0 < m)%nat → (length x < fuel * m)%nat → total_on x →
  ∃ x' g', sort_m fuel m x g = Ok (x', g') ∧ x' ≡ₚ x.
Proof.
  induction fuel as [|fuel IH]; intros m x g Hm Hf Ht; [lia|]. cbn [sort_m].
  destruct (decide (m < length x)%nat); [|by exists x, g].
  destruct (pass_m_total m (S (length x)) x g Hm ltac:(lia) Ht) as (N & g1 & EN). rewrite EN. cbn [mbind result_bind].
  pose proof (pass_m_perm _ _ _ _ _ _ EN) as HN. pose proof (Permutation_length HN) as HlN.
  destruct (IH (2 * m)%nat N g1) as (x' & g' & E & Hp); [lia|rewrite HlN; destruct fuel; nia| |].
  - intros a b g0 Ha Hb. apply Ht; by rewrite <- HN.
  - exists x', g'. split; [done|]. by rewrite Hp.
Qed.

Lemma binsort_total x g : total_on x → ∃ x' g', binsort st ev x o g = Ok (x', g') ∧ x' ≡ₚ x.
Proof. intros Ht. rewrite binsort_eq. apply sort_m_total; [lia|lia|done]. Qed.

(** ** An order *)

Section Ordered.
Variables (P : velem → Prop) (leb : velem → velem → bool).
Hypothesis leb_agrees : ∀ a b g, P a → P b → goes_first a b g = Ok (leb a b, g).
Hypothesis leb_total : ∀ a b, P a → P b → leb a b = false → leb b a = true.
Hypothesis leb_trans : ∀ a b c, P a → P b → P c → leb a b = true → leb b c = true → leb a c = true.

Definition le (a b : velem) : Prop := leb a b = true.

(** The elements equal to [a]. *)
Definition class (a : velem) (x : list velem) : list velem := filter (λ b, leb a b = true ∧ leb b a = true) x.

Lemma class_app a x y : class a (x ++ y) = class a x ++ class a y.
Proof. apply filter_app. Qed.

Lemma class_none a x : (∀ b, b ∈ x → ¬ (leb a b = true ∧ leb b a = true)) → class a x = [].
Proof.
  induction x as [|b x IH]; intros H; [done|]. unfold class in *. rewrite filter_cons_False by (apply H; by left).
  apply IH. intros c Hc. apply H. by right.
Qed.

Record sorts (x x' : list velem) : Prop := {
  so_perm : x' ≡ₚ x;
  so_sorted : StronglySorted le x';
  so_stable : ∀ a, P a → class a x' = class a x
}.

Lemma merge_m_sorted L : ∀ R g, Forall P L → Forall P R → StronglySorted le L → StronglySorted le R →
  ∃ M, merge_m L R g = Ok (M, g) ∧ sorts (L ++ R) M.
Proof.
  induction L as [|a L IHL]; [by intros R g _ _ _ HR; exists R|].
  induction R as [|b R IHR]; intros g HpL HpR HL HR.
  { exists (a :: L). split; [done|]. rewrite app_nil_r. done. }
  pose proof HpL as [Ha HpL']%Forall_cons. pose proof HpR as [Hb HpR']%Forall_cons.
  pose proof HL as [HaL HL']%StronglySorted_cons. pose proof HR as [HbR HR']%StronglySorted_cons.
  rewrite Forall_forall in HpL', HpR', HaL, HbR.
  rewrite merge_m_cons, leb_agrees by done. cbn [mbind result_bind]. destruct (leb a b) eqn:E.
  - destruct (IHL (b :: R) g) as (M & EM & [S1 S2 S3]); [by apply Forall_forall|done..|].
    rewrite EM. cbn [mbind result_bind]. exists (a :: M). split; [done|]. split.
    + cbn. by rewrite S1.
    + apply StronglySorted_cons. split; [|done]. apply Forall_forall. intros c. rewrite S1.
      rewrite elem_of_app, elem_of_cons. intros [Hc|[->|Hc]]; [by apply HaL|done|].
      apply leb_trans with b; auto. by apply HbR.
    + intros c Hc. change (a :: M) with ([a] ++ M). change ((a :: L) ++ b :: R) with ([a] ++ (L ++ b :: R)).
      by rewrite !(class_app c [a]), S3.
  - destruct (IHR g) as (M & EM & [S1 S2 S3]); [done|by apply Forall_forall|done..|].
    rewrite EM. cbn [mbind result_bind]. exists (b :: M). split; [done|]. pose proof (leb_total a b Ha Hb E) as Eba.
    split.
    + rewrite S1. by rewrite <- Permutation_middle.
    + apply StronglySorted_cons. split; [|done]. apply Forall_forall. intros c. rewrite S1.
      rewrite elem_of_app, elem_of_cons. intros [[->|Hc]|Hc]; [done| |by apply HbR].
      apply leb_trans with a; auto. by apply HaL.
    + intros c Hc. change (b :: M) with ([b] ++ M). change (b :: R) with ([b] ++ R).
      rewrite (class_app c [b]), S3, !class_app by done.
      destruct (decide (leb c b = true ∧ leb b c = true)) as [Hcb|Hcb].
      2:{ rewrite (class_none c [b]); [by rewrite app_nil_l|]. by intros z ->%list_elem_of_singleton. }
      rewrite (class_none c (a :: L)); [done|]. intros z Hz [Hcz Hzc]. destruct Hcb as [Hcb Hbc].
      assert (Haz : leb a z = true ∧ P z).
      { apply elem_of_cons in Hz as [->|Hz]; [|split; [by apply HaL|by apply HpL']].
        split; [|done]. destruct (leb a a) eqn:Eaa; [done|]. by rewrite (leb_total a a Ha Ha Eaa) in Eaa. }
      destruct Haz as [Haz Hpz]. assert (leb a b = true); [|congruence].
      apply leb_trans with z; auto. apply leb_trans with c; auto.
Qed.

Definition runs (m : nat) (x : list velem) : Prop := ∀ k, StronglySorted le (take m (drop (k * m) x)).

Lemma sorts_refl x : StronglySorted le x → sorts x x.
Proof. by split. Qed.

Lemma pass_m_sorted m fuel : ∀ x g, (0 < m)%nat → (length x < fuel)%nat → Forall P x → runs m x →
  ∃ N, pass_m fuel m x g = Ok (N, g) ∧ N ≡ₚ x ∧ runs (2 * m) N ∧ ∀ a, P a → class a N = class a x.
Proof.
  induction fuel as [|fuel IH]; intros x g Hm Hf Hp Hr; [lia|]. destruct (decide (length x = 0)%nat) as [H0|H0].
  { apply length_zero_iff_nil in H0 as ->. exists []. split; [done|]. split; [done|]. split; [|done].
    intros k. rewrite drop_nil, take_nil. constructor. }
  rewrite pass_m_step by (by intros ->). set (y := drop (2 * m) x).
  assert (Hpx : Forall P (take m x) ∧ Forall P (take m (drop m x)) ∧ Forall P y).
  { split; [by apply Forall_take|]. split; [by apply Forall_take, Forall_drop|by apply Forall_drop]. }
  destruct Hpx as (Hp1 & Hp2 & Hp3).
  destruct (merge_m_sorted (take m x) (take m (drop m x)) g Hp1 Hp2) as (M & EM & [M1 M2 M3]).
  { pose proof (Hr 0%nat) as H. by rewrite drop_0 in H. }
  { pose proof (Hr 1%nat) as H. by rewrite Nat.mul_1_l in H. }
  rewrite EM. cbn [mbind result_bind]. destruct (IH y g Hm) as (N & EN & N1 & N2 & N3); [|done| |].
  { unfold y. rewrite length_drop. lia. }
  { intros k. unfold y. rewrite drop_drop. replace (2 * m + k * m)%nat with (S (S k) * m)%nat by lia. apply Hr. }
  rewrite EN. cbn [mbind result_bind]. exists (M ++ N). split; [done|].
  pose proof (Permutation_length M1) as HlM. pose proof (Permutation_length N1) as HlN.
  rewrite length_app, !length_take, length_drop in HlM. unfold y in HlN. rewrite length_drop in HlN.
  split; [|split].
  - rewrite M1, N1, <- app_assoc. unfold y. by rewrite pair_split.
  - intros k. destruct (decide (2 * m ≤ length x)%nat) as [Hbig|Hsmall].
    + destruct k as [|k].
      * rewrite Nat.mul_0_l, drop_0, take_app_length' by lia. done.
      * replace (S k * (2 * m))%nat with (2 * m + k * (2 * m))%nat by lia.
        rewrite drop_app_add' by lia. apply N2.
    + assert (N = []) as -> by (apply length_zero_iff_nil; lia). rewrite app_nil_r.
      destruct k as [|k]; [by rewrite Nat.mul_0_l, drop_0, take_ge by lia|].
      rewrite drop_ge, take_nil by lia. constructor.
  - intros a Ha. rewrite class_app, M3, N3, <- class_app, <- app_assoc by done. unfold y. by rewrite pair_split.
Qed.

Lemma sort_m_sorted fuel : ∀ m x g, (0 < m)%nat → (length x < fuel * m)%nat → Forall P x → runs m x →
  ∃ x', sort_m fuel m x g = Ok (x', g) ∧ sorts x x'.
Proof.
  induction fuel as [|fuel IH]; intros m x g Hm Hf Hp Hr; [lia|]. cbn [sort_m].
  destruct (decide (m < length x)%nat).
  - destruct (pass_m_sorted m (S (length x)) x g Hm ltac:(lia) Hp Hr) as (N & EN & N1 & N2 & N3).
    rewrite EN. cbn [mbind result_bind]. pose proof (Permutation_length N1) as HlN.
    destruct (IH (2 * m)%nat N g) as (x' & E & [S1 S2 S3]); [lia|rewrite HlN; destruct fuel; nia|by rewrite N1|done|].
    exists x'. split; [done|]. split; [by rewrite S1|done|]. intros a Ha. by rewrite S3, N3.
  - exists x. split; [done|]. apply sorts_refl. pose proof (Hr 0%nat) as H. rewrite Nat.mul_0_l, drop_0, take_ge in H by lia.
    done.
Qed.

Lemma binsort_sorted x g : Forall P x → ∃ x', binsort st ev x o g = Ok (x', g) ∧ sorts x x'.
Proof.
  intros Hp. rewrite binsort_eq. apply sort_m_sorted; [lia|lia|done|]. intros k.
  destruct (drop (k * 1) x) as [|a l]; cbn; [constructor|]. rewrite take_0. by repeat constructor.
Qed.

End Ordered.

End Merging.
