(* ===== verification/Ranking.v ===== *)
(** * The comparison of cells is transitive without floats and contexts

    What [binsort] (src/nl-list.c) needs of [compareCells].  With floats it fails
    (integers are rounded for the comparison), and with contexts too (a symbol is
    ordered by the name of its context, except against a context). *)

From stdpp Require Import base list numbers tactics strings.
From Stdlib Require Import ZArith Lia String Ascii SpecFloat.
From S2P Require Import Prelude Cell Arith Fragment Order.

#[global] Open Scope Z_scope.

(** Cells that hold no float and no context, at any depth. *)
Fixpoint orderly (e : sexp) : bool :=
  match e with
  | CFloat _ | CContext _ => false
  | CQuote e => orderly e
  | CExpr l | CLambda l | CFexpr l => forallb orderly l
  | _ => true
  end.

(** Cells of different kinds are ordered by their kind. *)
Definition rank (e : sexp) : Z :=
  if isNil e then 0 else if isTrue e then 1 else Z.land (cell_type e) COMPARE_TYPE_MASK.

Lemma orderly_nan_free e : orderly e = true → nan_free e = true.
Proof.
  induction e as [| |x|f|s|s|s|p|e IH|l IH|l IH|l IH] using sexp_ind_nested; cbn; try done.
  all: rewrite !forallb_forall; rewrite Forall_forall in IH; intros H x Hx; apply IH; [by apply list_elem_of_In|by apply H].
Qed.

Section Ranking.
Variable st : symtab.

#[local] Abbreviation cmp := (compareCells st).

Lemma cmp_anti a b : orderly a = true → orderly b = true → cmp b a = - cmp a b.
Proof. intros Ha%orderly_nan_free Hb%orderly_nan_free. by apply compareCells_order. Qed.

Lemma cmp_rank a b : orderly a = true → orderly b = true → rank a ≠ rank b → cmp a b = sgn3 (rank a - rank b).
Proof.
  intros Ha Hb Hr.
  destruct a as [| |x|f|s|s|s|p|e|l|l|l], b as [| |y|g|t|t|t|q|e'|l'|l'|l']; try done.
  all: try (destruct s as [|[|s]]; try done). all: try (destruct t as [|[|t]]; try done).
Qed.

(** What three cells satisfy. *)
Definition linked (p q r : Z) : Prop := p ≤ 0 → q ≤ 0 → r ≤ 0 ∧ (r = 0 ↔ p = 0 ∧ q = 0).

Lemma strcmp_linked a : ∀ b c, linked (strcmp a b) (strcmp b c) (strcmp a c).
Proof.
  unfold linked. induction a as [|x a IH]; intros [|y b] [|z c]; cbn [strcmp]; try lia.
  repeat match goal with |- context [Z.ltb ?u ?v] => destruct (Z.ltb_spec u v) end; try lia.
  apply IH.
Qed.

Lemma sign_linked p q r : linked p q r →
  linked (if p =? 0 then 0 else sgn3 p) (if q =? 0 then 0 else sgn3 q) (if r =? 0 then 0 else sgn3 r).
Proof.
  unfold linked, sgn3. destruct (Z.eqb_spec p 0), (Z.eqb_spec q 0), (Z.eqb_spec r 0);
    destruct (Z.ltb_spec 0 p), (Z.ltb_spec 0 q), (Z.ltb_spec 0 r); lia.
Qed.

(** First one comparison, then another. *)
Lemma lex_linked p q r p' q' r' : linked p q r → linked p' q' r' →
  linked (if p =? 0 then p' else p) (if q =? 0 then q' else q) (if r =? 0 then r' else r).
Proof. unfold linked. destruct (Z.eqb_spec p 0), (Z.eqb_spec q 0), (Z.eqb_spec r 0); lia. Qed.

Definition by_name (s t : sym) : Z :=
  let comp := strcmp (sym_name (st (sym_context (st s)))) (sym_name (st (sym_context (st t)))) in
  if (if comp =? 0 then 0 else sgn3 comp) =? 0 then
    let comp := strcmp (sym_name (st s)) (sym_name (st t)) in if comp =? 0 then 0 else sgn3 comp
  else if comp =? 0 then 0 else sgn3 comp.

Lemma symbols_by_name s t : compareSymbols st (S (S s)) (S (S t)) = by_name (S (S s)) (S (S t)).
Proof.
  unfold compareSymbols, by_name. cbn [Nat.eqb nilSymbol trueSymbol orb].
  destruct (Nat.eqb_spec s t) as [->|Hn].
  - by rewrite !strcmp_refl.
  - destruct (Z.eqb_spec (strcmp (sym_name (st (sym_context (st (S (S s)))))) (sym_name (st (sym_context (st (S (S t))))))) 0).
    + done.
    + by rewrite (proj2 (Z.eqb_neq (sgn3 _) 0)) by (unfold sgn3; destruct (0 <? _); lia).
Qed.

Lemma by_name_linked s t u : linked (by_name s t) (by_name t u) (by_name s u).
Proof. apply lex_linked; apply sign_linked, strcmp_linked. Qed.

Definition linked_from (a : sexp) : Prop := ∀ b c, orderly a = true → orderly b = true → orderly c = true →
  linked (cmp a b) (cmp b c) (cmp a c).

Lemma lists_linked l : Forall linked_from l → ∀ r s, forallb orderly l = true → forallb orderly r = true →
  forallb orderly s = true → linked (cmp (CExpr l) (CExpr r)) (cmp (CExpr r) (CExpr s)) (cmp (CExpr l) (CExpr s)).
Proof.
  induction 1 as [|x l Hx Hl IH]; intros [|y r] [|z s]; cbn [forallb]; try (unfold linked; cbn; lia).
  rewrite !andb_true_iff. intros [Hox Hol] [Hoy Hor] [Hoz Hos].
  apply (lex_linked (cmp x y) (cmp y z) (cmp x z) _ _ _ (Hx y z Hox Hoy Hoz) (IH r s Hol Hor Hos)).
Qed.

Lemma quote_linked a b c : linked (cmp a b) (cmp b c) (cmp a c) →
  linked (cmp (CQuote a) (CQuote b)) (cmp (CQuote b) (CQuote c)) (cmp (CQuote a) (CQuote c)).
Proof. intros H. apply (lex_linked _ _ _ 0 0 0 H). unfold linked. lia. Qed.

(** Cells of different kinds: the order of the kinds. *)
Lemma ranks_linked a b c : orderly a = true → orderly b = true → orderly c = true → rank a ≠ rank b ∨ rank b ≠ rank c →
  linked (cmp a b) (cmp b c) (cmp a c).
Proof.
  intros Ha Hb Hc H. pose proof (cmp_rank a b Ha Hb) as H1. pose proof (cmp_rank b c Hb Hc) as H2.
  pose proof (cmp_rank a c Ha Hc) as H3. unfold sgn3, linked in *.
  destruct (Z.ltb_spec 0 (rank a - rank b)), (Z.ltb_spec 0 (rank b - rank c)), (Z.ltb_spec 0 (rank a - rank c)); lia.
Qed.

(** Cells of one kind. *)
Definition alike (a b : sexp) : Prop :=
  match a, b with
  | CLong _, CLong _ | CString _, CString _ | CPrimitive _, CPrimitive _ | CQuote _, CQuote _
  | CExpr _, CExpr _ | CLambda _, CLambda _ | CFexpr _, CFexpr _ => True
  | CSymbol s, CSymbol t => (2 ≤ s)%nat ∧ (2 ≤ t)%nat
  | _, _ => False
  end.

Lemma same_rank a b : orderly a = true → orderly b = true → rank a = rank b →
  rank a ≤ 1 ∧ cmp a b = 0 ∨ alike a b.
Proof.
  intros Ha Hb Hr.
  destruct a as [| |x|f|s|s|s|p|e|l|l|l], b as [| |y|g|t|t|t|q|e'|l'|l'|l']; try done; try (by right).
  all: try (destruct s as [|[|s]]; try done). all: try (destruct t as [|[|t]]; try done).
  all: try (by left). right. cbn. lia.
Qed.

Lemma alike_rank a b : alike a b → 1 < rank a ∧ rank a = rank b.
Proof.
  destruct a as [| |x|f|s|s|s|p|e|l|l|l], b as [| |y|g|t|t|t|q|e'|l'|l'|l']; try done.
  intros [Hs Ht]. destruct s as [|[|s]], t as [|[|t]]; try lia. done.
Qed.

Lemma alike_linked a b c : orderly a = true → orderly b = true → orderly c = true → alike a b → alike b c →
  match a with
  | CQuote e => linked_from e
  | CExpr l | CLambda l | CFexpr l => Forall linked_from l
  | _ => True
  end → linked (cmp a b) (cmp b c) (cmp a c).
Proof.
  destruct a as [| |x|f|s|s|s|p|e|l|l|l], b as [| |y|g|t|t|t|q|e'|l'|l'|l']; try done;
    destruct c as [| |z|h|u|u|u|r|e''|l''|l''|l'']; try done; intros Ha Hb Hc HA HB IH.
  - unfold linked. cbn. destruct (Z.ltb_spec y x), (Z.ltb_spec x y), (Z.ltb_spec z y), (Z.ltb_spec y z),
      (Z.ltb_spec z x), (Z.ltb_spec x z); lia.
  - apply sign_linked, strcmp_linked.
  - cbn in HA, HB. destruct s as [|[|s]], t as [|[|t]], u as [|[|u]]; try lia. cbn [compareCells].
    rewrite !symbols_by_name. apply by_name_linked.
  - unfold linked. cbn [compareCells]. destruct (Nat.ltb_spec q p), (Nat.ltb_spec p q), (Nat.ltb_spec r q), (Nat.ltb_spec q r),
      (Nat.ltb_spec r p), (Nat.ltb_spec p r); lia.
  - by apply quote_linked, IH.
  - by apply (lists_linked l IH l' l'').
  - by apply (lists_linked l IH l' l'').
  - by apply (lists_linked l IH l' l'').
Qed.

Lemma linked_ranks a b c : orderly a = true → orderly b = true → orderly c = true →
  (alike a b → alike b c → linked (cmp a b) (cmp b c) (cmp a c)) → linked (cmp a b) (cmp b c) (cmp a c).
Proof.
  intros Ha Hb Hc H. destruct (decide (rank b = rank c)) as [Hbc|]; [|apply ranks_linked; by auto].
  destruct (decide (rank a = rank b)) as [Hab|]; [|apply ranks_linked; by auto].
  destruct (same_rank a b Ha Hb Hab) as [[Hl E1]|A1], (same_rank b c Hb Hc Hbc) as [[Hl2 E2]|A2],
    (same_rank a c Ha Hc ltac:(congruence)) as [[Hl3 E3]|A3]; try (by apply H);
    repeat match goal with H : alike _ _ |- _ => apply alike_rank in H end; try lia.
  rewrite E1, E2, E3. unfold linked. lia.
Qed.

Lemma cmp_linked a : linked_from a.
Proof.
  induction a as [| |x|f|s|s|s|p|e IH|l IH|l IH|l IH] using sexp_ind_nested; intros b c Ha Hb Hc;
    apply linked_ranks; try done; intros A1 A2; apply alike_linked; done.
Qed.

Lemma cmp_trans a b c : orderly a = true → orderly b = true → orderly c = true →
  cmp a b ≤ 0 → cmp b c ≤ 0 → cmp a c ≤ 0.
Proof. intros Ha Hb Hc H1 H2. by apply (cmp_linked a b c). Qed.

Lemma cmp_zero a b c : orderly a = true → orderly b = true → orderly c = true →
  cmp a b = 0 → (cmp a c = 0 ↔ cmp b c = 0).
Proof.
  intros Ha Hb Hc H1. pose proof (cmp_linked a b c Ha Hb Hc) as H. pose proof (cmp_linked b a c Hb Ha Hc) as H'.
  pose proof (cmp_anti a b Ha Hb) as H2. unfold linked in *. lia.
Qed.

End Ranking.
