(* ===== verification/Sets.v ===== *)
(** * Sets of cells (src/nl-list.c, [setInterDiff])

    Sorted vectors with the indices of their elements, the walk through two of
    them, and the order restored by the indices. *)

From stdpp Require Import base list numbers tactics gmap sorting.
From Stdlib Require Import ZArith Lia Sorted.
From S2P Require Import Prelude Cell Fragment Order Eval Sort Merging Ranking.

#[global] Open Scope Z_scope.

(** An element as often as the reference definitions see it. *)
Definition occurs (st : symtab) (x : sexp) (l : list sexp) : bool := existsb (λ y, compareCells st x y =? 0) l.

(** The elements of [l] that [keep] selects, in their order, and each value only once
    unless [all]; [seen] are those before. *)
Fixpoint select (st : symtab) (keep : sexp → bool) (all : bool) (seen l : list sexp) : list sexp :=
  match l with
  | [] => []
  | x :: l =>
      if keep x && (all || negb (occurs st x seen)) then x :: select st keep all (x :: seen) l
      else select st keep all (x :: seen) l
  end.

(** What [intersect], [difference] and [unique] promise. *)
Definition set_spec (st : symtab) (mode : set_mode) (listMode : bool) (A B : list sexp) : list sexp :=
  match mode with
  | SET_INTER => select st (λ x, occurs st x B) listMode [] A
  | SET_DIFF => select st (λ x, negb (occurs st x B)) listMode [] A
  | SET_UNIQUE => select st (λ _, true) false [] A
  end.

Definition idx (x : velem) : nat := default 0%nat (v_next x).
Definition before (x y : velem) : Prop := (idx x < idx y)%nat.

Lemma StronglySorted_filter {A} (R : A → A → Prop) (Q : A → Prop) `{∀ x, Decision (Q x)} l :
  StronglySorted R l → StronglySorted R (filter Q l).
Proof.
  induction 1 as [|x l Hl IH Hx]; [constructor|]. rewrite filter_cons. case_decide; [|done].
  apply StronglySorted_cons. split; [|done]. rewrite Forall_forall in Hx |- *. intros y [_ Hy]%list_elem_of_filter. auto.
Qed.

(** The vector of a list with indices. *)
Definition indexed (k : nat) (l : list sexp) : list velem := imap (λ i v, VElem (Some (k + i)%nat) v) l.

Lemma indexed_cons k x l : indexed k (x :: l) = VElem (Some k) x :: indexed (S k) l.
Proof. unfold indexed. cbn. rewrite Nat.add_0_r. f_equal. apply imap_ext. intros i v _. cbn. do 2 f_equal. lia. Qed.

Lemma indexed_in k l x : x ∈ indexed k l → ∃ i, v_next x = Some (k + i)%nat ∧ l !! i = Some (v_value x).
Proof. intros (i & Hi)%list_elem_of_lookup. unfold indexed in Hi. rewrite list_lookup_imap in Hi.
  destruct (l !! i) as [v|] eqn:E; [|done]. injection Hi as <-. by exists i. Qed.

Lemma indexed_sorted l : ∀ k, StronglySorted before (indexed k l).
Proof.
  induction l as [|x l IH]; intros k; [constructor|]. rewrite indexed_cons. apply StronglySorted_cons. split; [|done].
  apply Forall_forall. intros y (i & Hi & _)%indexed_in. unfold before, idx. rewrite Hi. cbn. lia.
Qed.

Lemma indexed_values k l : v_value <$> indexed k l = l.
Proof. revert k. induction l as [|x l IH]; intros k; [done|]. rewrite indexed_cons. cbn. by rewrite IH. Qed.

Lemma indexed_inj k l x y : x ∈ indexed k l → y ∈ indexed k l → idx x = idx y → x = y.
Proof.
  intros (i & Hi & Hv)%indexed_in (j & Hj & Hw)%indexed_in. unfold idx. rewrite Hi, Hj. cbn. intros E.
  destruct x as [n v], y as [n' v']. cbn in *. assert (i = j) as <- by lia. congruence.
Qed.

Lemma indexed_NoDup k l : NoDup (indexed k l).
Proof.
  assert (H : ∀ l, StronglySorted before l → NoDup l); [|apply H, indexed_sorted]. clear. intros l.
  induction 1 as [|x l Hl IH Hx]; constructor; [|done]. intros Hin. rewrite Forall_forall in Hx.
  specialize (Hx x Hin). unfold before in Hx. lia.
Qed.

Section Sets.
Variable st : symtab.
Variable ev : sexp → env → result (sexp * env).

#[local] Abbreviation cmp := (compareCells st).

Definition cleb (x y : velem) : bool := cmp (v_value x) (v_value y) <=? 0.
Definition proper (x : velem) : Prop := orderly (v_value x) = true.

Lemma cells_sorted x g : Forall proper x →
  ∃ x', binsort st ev x ByCells g = Ok (x', g) ∧ sorts proper cleb x x'.
Proof.
  apply binsort_sorted with (P := proper).
  - intros a b g' _ _. reflexivity.
  - intros a b Ha Hb. unfold cleb. rewrite Z.leb_gt, Z.leb_le. rewrite (cmp_anti st (v_value a)) by done. lia.
  - intros a b c Ha Hb Hc. unfold cleb. rewrite !Z.leb_le. by apply cmp_trans.
Qed.

Definition ileb (x y : velem) : bool := bool_decide (idx x ≤ idx y)%nat.
Definition has_index (x : velem) : Prop := is_Some (v_next x).

Lemma index_sorted x g : Forall has_index x →
  ∃ x', binsort st ev x ByIndex g = Ok (x', g) ∧ sorts has_index ileb x x'.
Proof.
  apply binsort_sorted with (P := has_index).
  - intros a b g' [i Hi] [j Hj]. unfold ileb, idx. cbn. by rewrite Hi, Hj.
  - intros a b _ _. unfold ileb. rewrite bool_decide_eq_false, bool_decide_eq_true. lia.
  - intros a b c _ _ _. unfold ileb. rewrite !bool_decide_eq_true. lia.
Qed.

(** Sorted, and equal cells in the order of their indices. *)
Definition precedes (x y : velem) : Prop :=
  cmp (v_value x) (v_value y) ≤ 0 ∧ (cmp (v_value x) (v_value y) = 0 → before x y).

Lemma classes_precede x : Forall proper x → StronglySorted (le cleb) x →
  (∀ a, proper a → StronglySorted before (class cleb a x)) → StronglySorted precedes x.
Proof.
  intros Hp Hs. revert Hp. induction Hs as [|a x Hs IH Ha]; intros Hp Hc; [constructor|].
  apply Forall_cons in Hp as [Hpa Hp]. apply StronglySorted_cons. split.
  - rewrite Forall_forall in Ha, Hp |- *. intros b Hb. pose proof (Ha b Hb) as Hab. unfold le, cleb in Hab. rewrite Z.leb_le in Hab.
    split; [done|]. intros E. specialize (Hc a Hpa). unfold class in Hc.
    assert (Haa : cmp (v_value a) (v_value a) = 0) by (pose proof (cmp_anti st _ _ Hpa Hpa); lia).
    rewrite filter_cons_True in Hc by (unfold cleb; rewrite Haa; done).
    apply StronglySorted_cons in Hc as [Hc _]. rewrite Forall_forall in Hc. apply Hc. apply list_elem_of_filter.
    split; [|done]. unfold cleb. rewrite (cmp_anti st (v_value a) (v_value b)), E by (done || by apply Hp). done.
  - apply IH; [done|]. intros c Hpc. specialize (Hc c Hpc). unfold class in *. rewrite filter_cons in Hc.
    case_decide; [|done]. by apply StronglySorted_cons in Hc as [_ Hc].
Qed.

Lemma vector_ok l g : Forall (λ e, orderly e = true) l → ∃ x, binsort st ev (indexed 0 l) ByCells g = Ok (x, g) ∧
  x ≡ₚ indexed 0 l ∧ StronglySorted precedes x ∧ Forall proper x.
Proof.
  intros Hl. assert (Hp : Forall proper (indexed 0 l)).
  { apply Forall_forall. intros x (i & _ & Hi)%indexed_in. rewrite Forall_forall in Hl. apply Hl. by eapply list_elem_of_lookup_2. }
  destruct (cells_sorted (indexed 0 l) g Hp) as (x & E & [S1 S2 S3]). exists x. split; [done|]. split; [done|].
  assert (Hpx : Forall proper x) by by rewrite S1. split; [|done]. apply classes_precede; [done|done|].
  intros a Ha. rewrite S3 by done. apply StronglySorted_filter, indexed_sorted.
Qed.

(** ** The walk *)

(** [vectorResult] after one more element. *)
Definition keep (listMode : bool) (taken : list velem) (a : velem) : list velem :=
  if match last taken with
     | None => true
     | Some t => negb (cmp (v_value a) (v_value t) =? 0) || listMode
     end then taken ++ [a] else taken.

Definition sel (mode : set_mode) (SB : list velem) (a : velem) : bool :=
  match mode with
  | SET_INTER => occurs st (v_value a) (v_value <$> SB)
  | SET_DIFF => negb (occurs st (v_value a) (v_value <$> SB))
  | SET_UNIQUE => true
  end.

Lemma occurs_true x l : occurs st x l = true ↔ ∃ y, y ∈ l ∧ cmp x y = 0.
Proof.
  unfold occurs. rewrite existsb_exists. setoid_rewrite Z.eqb_eq. split; intros (y & Hy & E); exists y; (split; [|done]);
    by apply list_elem_of_In.
Qed.

Lemma occurs_false x l : (∀ y, y ∈ l → cmp x y ≠ 0) → occurs st x l = false.
Proof. intros H. destruct (occurs st x l) eqn:E; [|done]. apply occurs_true in E as (y & Hy & E). by apply H in Hy. Qed.

Lemma occurs_perm x l l' : l ≡ₚ l' → occurs st x l = occurs st x l'.
Proof.
  intros Hp. destruct (occurs st x l) eqn:E; symmetry.
  - apply occurs_true in E as (y & Hy & E). apply occurs_true. exists y. by rewrite <- Hp.
  - apply occurs_false. intros y Hy Ey. assert (occurs st x l = true); [|congruence]. apply occurs_true. exists y. by rewrite Hp.
Qed.

Lemma lt_le a b c : proper a → proper b → proper c → cmp (v_value a) (v_value b) < 0 →
  cmp (v_value b) (v_value c) ≤ 0 → cmp (v_value a) (v_value c) < 0.
Proof.
  intros Ha Hb Hc H1 H2. pose proof (cmp_linked st (v_value a) (v_value b) (v_value c) Ha Hb Hc) as H.
  unfold linked in H. lia.
Qed.

Lemma le_lt a b c : proper a → proper b → proper c → cmp (v_value a) (v_value b) ≤ 0 →
  cmp (v_value b) (v_value c) < 0 → cmp (v_value a) (v_value c) < 0.
Proof.
  intros Ha Hb Hc H1 H2. pose proof (cmp_linked st (v_value a) (v_value b) (v_value c) Ha Hb Hc) as H.
  unfold linked in H. lia.
Qed.

Lemma sorted_from (x : list velem) i a : StronglySorted (le cleb) x → Forall proper x → x !! i = Some a →
  ∀ b, b ∈ drop i x → cmp (v_value a) (v_value b) ≤ 0.
Proof.
  intros Hs Hp Hi b Hb. rewrite (drop_S _ _ _ Hi) in Hb.
  assert (Ha : proper a) by (eapply Forall_lookup_1; [exact Hp|exact Hi]).
  apply elem_of_cons in Hb as [->|Hb].
  - pose proof (cmp_anti st _ _ Ha Ha). lia.
  - rewrite <- (take_drop_middle _ _ _ Hi) in Hs. apply StronglySorted_app_1_r, StronglySorted_cons in Hs as [Hs _].
    rewrite Forall_forall in Hs. apply Hs in Hb. unfold le, cleb in Hb. by rewrite Z.leb_le in Hb.
Qed.

Lemma set_loop_all listMode mode SA fuel : ∀ i taken, (length SA - i < fuel)%nat →
  set_loop st fuel mode listMode SA None i 0 taken = Ok (foldl (keep listMode) taken (drop i SA)).
Proof.
  induction fuel as [|fuel IH]; intros i taken Hf; [lia|]. cbn [set_loop]. case_decide as Hi.
  - destruct (lookup_lt_is_Some_2 SA i Hi) as [a Ha]. rewrite (rd_ok _ _ _ Ha). cbn [mbind result_bind].
    rewrite (drop_S _ _ _ Ha). cbn [foldl]. apply IH. lia.
  - by rewrite drop_ge by lia.
Qed.

Lemma set_loop_ok listMode mode SA SB fuel : mode ≠ SET_UNIQUE → StronglySorted (le cleb) SA → StronglySorted (le cleb) SB →
  Forall proper SA → Forall proper SB → ∀ i j taken, (j < length SB)%nat →
  (length SA - i + (length SB - 1 - j) < fuel)%nat →
  (∀ b a, b ∈ take j SB → a ∈ drop i SA → cmp (v_value b) (v_value a) < 0) →
  set_loop st fuel mode listMode SA (Some SB) i j taken =
    Ok (foldl (keep listMode) taken (filter (λ a, sel mode SB a = true) (drop i SA))).
Proof.
  intros Hmode HsA HsB HpA HpB. induction fuel as [|fuel IH]; intros i j taken Hj Hf Hinv; [lia|]. cbn [set_loop].
  destruct (decide (i < length SA)%nat) as [Hi|Hi]; [|by rewrite drop_ge by lia].
  destruct (lookup_lt_is_Some_2 SA i Hi) as [a Ha]. destruct (lookup_lt_is_Some_2 SB j Hj) as [b Hb].
  rewrite (rd_ok _ _ _ Ha), (rd_ok _ _ _ Hb). cbn [mbind result_bind].
  assert (Hpa : proper a) by (eapply Forall_lookup_1; [exact HpA|exact Ha]).
  assert (Hpb : proper b) by (eapply Forall_lookup_1; [exact HpB|exact Hb]).
  assert (Hda : drop i SA = a :: drop (S i) SA) by by apply drop_S.
  assert (Hnext : ∀ b a, b ∈ take j SB → a ∈ drop (S i) SA → cmp (v_value b) (v_value a) < 0).
  { intros b' a' H1 H2. apply Hinv; [done|]. rewrite Hda. by right. }
  assert (Hin : ∀ y, y ∈ SB → proper y) by (intros y Hy; rewrite Forall_forall in HpB; by apply HpB).
  assert (Htake : ∀ y, y ∈ take j SB → y ∈ SB) by (intros y Hy; rewrite <- (take_drop j SB); apply elem_of_app; by left).
  assert (Hold : ∀ y, y ∈ take j SB → cmp (v_value a) (v_value y) ≠ 0).
  { intros y Hy. rewrite (cmp_anti st (v_value y)) by (done || by apply Hin, Htake).
    assert (cmp (v_value y) (v_value a) < 0) by (apply Hinv; [done|rewrite Hda; by left]). lia. }
  set (c := cmp (v_value a) (v_value b)) in *.
  assert (Hocc0 : c = 0 → occurs st (v_value a) (v_value <$> SB) = true).
  { intros E. apply occurs_true. exists (v_value b). split; [|done]. apply list_elem_of_fmap_2. by eapply list_elem_of_lookup_2. }
  assert (Hnone : (∀ y, y ∈ drop j SB → cmp (v_value a) (v_value y) ≠ 0) → occurs st (v_value a) (v_value <$> SB) = false).
  { intros H. apply occurs_false. intros y (z & -> & Hz)%list_elem_of_fmap. rewrite <- (take_drop j SB) in Hz.
    apply elem_of_app in Hz as [Hz|Hz]; auto. }
  assert (Hocc1 : c < 0 → occurs st (v_value a) (v_value <$> SB) = false).
  { intros E. apply Hnone. intros y Hy. assert (Hby : cmp (v_value b) (v_value y) ≤ 0) by by eapply sorted_from.
    assert (cmp (v_value a) (v_value y) < 0); [|lia]. apply (lt_le a b y); try done. apply Hin.
    rewrite <- (take_drop j SB). apply elem_of_app. by right. }
  assert (Hocc2 : 0 < c → ¬ (j < length SB - 1)%nat → occurs st (v_value a) (v_value <$> SB) = false).
  { intros E Hlast. apply Hnone. intros y Hy. rewrite (drop_S _ _ _ Hb), drop_ge in Hy by lia.
    apply list_elem_of_singleton in Hy as ->. unfold c in E. lia. }
  assert (Hmore : 0 < c → ∀ b' a', b' ∈ take (S j) SB → a' ∈ drop i SA → cmp (v_value b') (v_value a') < 0).
  { intros E b' a' H1 H2. rewrite (take_S_r _ _ _ Hb) in H1. apply elem_of_app in H1 as [H1|H1]; [by apply Hinv|].
    apply list_elem_of_singleton in H1 as ->. assert (Hba : cmp (v_value b) (v_value a) < 0).
    { rewrite (cmp_anti st (v_value a)) by done. fold c. lia. }
    apply (lt_le b a a'); [done|done| |done|by apply (sorted_from SA i)].
    rewrite Forall_forall in HpA. apply HpA. rewrite <- (take_drop i SA). apply elem_of_app. by right. }
  rewrite Hda, filter_cons. unfold set_switch. fold c. destruct mode; [| |done]; cbn [sel].
  - destruct (Z.eqb_spec c 0) as [E|E].
    { rewrite Hocc0 by done. rewrite decide_True by done. cbn [foldl]. apply IH; [done|lia|done]. }
    destruct (Z.ltb_spec c 0).
    { rewrite Hocc1 by done. rewrite decide_False by done. apply IH; [done|lia|done]. }
    destruct (decide (j < length SB - 1)%nat) as [Hj'|Hj'].
    + rewrite IH; [|lia|lia|by apply Hmore; lia]. by rewrite Hda, filter_cons.
    + rewrite Hocc2 by (done || lia). rewrite decide_False by done. apply IH; [done|lia|done].
  - destruct (Z.eqb_spec c 0) as [E|E].
    { rewrite Hocc0 by done. rewrite decide_False by done. apply IH; [done|lia|done]. }
    destruct (Z.ltb_spec c 0).
    { rewrite Hocc1 by done. rewrite decide_True by done. cbn [foldl]. apply IH; [done|lia|done]. }
    destruct (decide (j < length SB - 1)%nat) as [Hj'|Hj'].
    + rewrite IH; [|lia|lia|by apply Hmore; lia]. by rewrite Hda, filter_cons.
    + rewrite Hocc2 by (done || lia). rewrite decide_True by done. cbn [foldl]. apply IH; [done|lia|done].
Qed.

End Sets.
