(* ===== verification/Setops.v ===== *)
(** * What sort, intersect, difference, unique and count answer (src/nl-list.c)

    The elements that the walk of [setInterDiff] takes, put back into the order of
    the first list, are those of the reference definition [Sets.set_spec]. *)

From stdpp Require Import base list numbers tactics strings gmap sorting.
From Stdlib Require Import ZArith Lia Sorted SpecFloat.
From S2P Require Import Prelude Cell Fragment Order Eval Sort Merging Ranking Sets.

#[global] Open Scope Z_scope.

Section Setops.
Variable st : symtab.
Variable ev : sexp → env → result (sexp * env).

#[local] Abbreviation cmp := (compareCells st).
#[local] Abbreviation prec := (precedes st).

(** ** Repetitions *)

Definition fresh (all : bool) (prev : option velem) (a : velem) : bool :=
  match prev with None => true | Some t => negb (cmp (v_value a) (v_value t) =? 0) || all end.

(** What the walk adds to [vectorResult] when its last element is [prev]. *)
Fixpoint dedup (all : bool) (prev : option velem) (l : list velem) : list velem :=
  match l with
  | [] => []
  | a :: l => if fresh all prev a then a :: dedup all (Some a) l else dedup all prev l
  end.

Lemma foldl_keep all l : ∀ taken, foldl (keep st all) taken l = taken ++ dedup all (last taken) l.
Proof.
  induction l as [|a l IH]; intros taken; cbn [foldl dedup]; [by rewrite app_nil_r|]. rewrite IH. unfold keep, fresh.
  destruct (match last taken with Some t => _ | None => true end); [|done].
  by rewrite <- app_assoc, last_snoc.
Qed.

Lemma dedup_all l : ∀ prev, dedup true prev l = l.
Proof.
  induction l as [|a l IH]; intros prev; [done|]. cbn [dedup]. unfold fresh. rewrite IH.
  destruct prev; [by rewrite orb_true_r|done].
Qed.

Lemma dedup_sublist all l : ∀ prev, dedup all prev l `sublist_of` l.
Proof.
  induction l as [|a l IH]; intros prev; cbn [dedup]; [constructor|]. destruct (fresh all prev a); by constructor.
Qed.

(** [x] comes first among its equals in [V]. *)
Definition leads (V : list velem) (x : velem) : Prop := ∀ y, y ∈ V → cmp (v_value y) (v_value x) = 0 → ¬ before y x.

Lemma cmp_sym a b : proper a → proper b → cmp (v_value a) (v_value b) = 0 → cmp (v_value b) (v_value a) = 0.
Proof. intros Ha Hb E. pose proof (cmp_anti st _ _ Ha Hb). lia. Qed.

Lemma fresh_spec prev a : if fresh false prev a then ∀ t, prev = Some t → cmp (v_value a) (v_value t) ≠ 0
  else ∃ t, prev = Some t ∧ cmp (v_value a) (v_value t) = 0.
Proof.
  unfold fresh. destruct prev as [t|]; [|done]. rewrite orb_false_r.
  destruct (Z.eqb_spec (cmp (v_value a) (v_value t)) 0); cbn; [by exists t|by intros t' [= <-]].
Qed.

Lemma leads_tail a l x : leads (a :: l) x → leads l x.
Proof. intros H y Hy. apply H. by right. Qed.

Lemma leads_cons a l x : (cmp (v_value a) (v_value x) = 0 → ¬ before a x) → leads l x → leads (a :: l) x.
Proof. intros H Hl y [->|Hy]%elem_of_cons; [done|by apply Hl]. Qed.

Lemma leads_head a l : proper a → Forall proper l → Forall (prec a) l → leads (a :: l) a.
Proof.
  rewrite !Forall_forall. intros Hpa Hp Ha. apply leads_cons; [unfold before; lia|]. intros y Hy E.
  assert (Hb : before a y) by (apply Ha; [done|]; apply cmp_sym; auto). unfold before in *. lia.
Qed.

Lemma leads_other a l x : proper a → Forall proper l → Forall (prec a) l → x ∈ l → leads (a :: l) x →
  cmp (v_value x) (v_value a) ≠ 0.
Proof.
  rewrite !Forall_forall. intros Hpa Hp Ha Hx Hl E. assert (E' : cmp (v_value a) (v_value x) = 0) by (apply cmp_sym; auto).
  apply (Hl a); [by left|done|]. by apply Ha.
Qed.

Lemma dedup_leads l : Forall proper l → StronglySorted prec l → ∀ prev,
  (∀ t, prev = Some t → proper t ∧ ∀ y, y ∈ l → cmp (v_value t) (v_value y) ≤ 0) →
  ∀ x, x ∈ dedup false prev l ↔ x ∈ l ∧ (∀ t, prev = Some t → cmp (v_value x) (v_value t) ≠ 0) ∧ leads l x.
Proof.
  intros Hp. induction 1 as [|a l Hs IH Ha]; intros prev Hprev x; [by cbn; rewrite elem_of_nil; intuition|].
  apply Forall_cons in Hp as [Hpa Hpl]. specialize (IH Hpl).
  assert (Hp : ∀ y, y ∈ l → proper y) by by apply Forall_forall.
  assert (Hle : ∀ y, y ∈ l → cmp (v_value a) (v_value y) ≤ 0).
  { intros y Hy. rewrite Forall_forall in Ha. by apply Ha. }
  cbn [dedup]. pose proof (fresh_spec prev a) as Hf. destruct (fresh false prev a).
  - rewrite elem_of_cons, IH by by intros t [= <-]. split.
    + intros [->|(Hx & H1 & H2)]; [split; [by left|]; split; [done|by apply leads_head]|].
      specialize (H1 a eq_refl). pose proof (cmp_anti st _ _ Hpa (Hp x Hx)) as Hax. specialize (Hle x Hx).
      split; [by right|]. split; [|by apply leads_cons; [lia|]].
      intros t Et Ext. destruct (Hprev t Et) as [Hpt Ht].
      assert (cmp (v_value t) (v_value x) < 0).
      { apply (le_lt st t a x); [done|done|by apply Hp|by apply Ht; left|lia]. }
      pose proof (cmp_anti st _ _ Hpt (Hp x Hx)). lia.
    + intros (Hx & _ & H2). apply elem_of_cons in Hx as [->|Hx]; [by left|right]. split; [done|].
      split; [|by eapply leads_tail]. intros t [= <-]. by eapply leads_other.
  - destruct Hf as (t & -> & E). destruct (Hprev t eq_refl) as [Hpt Ht].
    rewrite IH by (intros t' [= <-]; split; [done|]; intros y Hy; apply Ht; by right). split.
    + intros (Hx & H1 & H2). split; [by right|]. split; [done|]. apply leads_cons; [|done].
      intros Eax. exfalso. apply (H1 t eq_refl). apply cmp_sym; [done|by apply Hp|].
      apply (cmp_zero st (v_value a) (v_value t)); [done|done|by apply Hp|done|done].
    + intros (Hx & H1 & H2). apply elem_of_cons in Hx as [->|Hx]; [by destruct (H1 t eq_refl)|].
      split; [done|]. split; [done|by eapply leads_tail].
Qed.

(** ** Back into the order of the list *)

#[global] Instance leads_dec V x : Decision (leads V x).
Proof.
  destruct (decide (Forall (λ y, cmp (v_value y) (v_value x) = 0 → ¬ (idx y < idx x)%nat) V)) as [H|H]; [left|right].
  - by rewrite Forall_forall in H.
  - intros Hl. apply H. by apply Forall_forall.
Defined.

(** What [setInterDiff] keeps of the vector [V]. *)
Definition wanted (kp : sexp → bool) (all : bool) (V : list velem) (x : velem) : Prop :=
  kp (v_value x) = true ∧ (all = true ∨ leads V x).

#[global] Instance wanted_dec kp all V x : Decision (wanted kp all V x).
Proof. unfold wanted. apply _. Defined.

Lemma leads_occurs P l x : Forall proper (P ++ [x]) → Forall (λ y, before y x) P → Forall (before x) l →
  leads (P ++ x :: l) x ↔ occurs st (v_value x) (v_value <$> P) = false.
Proof.
  intros [Hp [Hx _]%Forall_cons]%Forall_app HP Hl. rewrite Forall_forall in Hp, HP, Hl. split.
  - intros H. apply occurs_false. intros y (z & -> & Hz)%list_elem_of_fmap E. apply (H z).
    + apply elem_of_app. by left.
    + apply cmp_sym; auto.
    + by apply HP.
  - intros H y Hy E Hb. apply elem_of_app in Hy as [Hy|[->|Hy]%elem_of_cons]; [|unfold before in Hb; lia|].
    + assert (occurs st (v_value x) (v_value <$> P) = true); [|congruence]. apply occurs_true. exists (v_value y).
      split; [by apply list_elem_of_fmap_2|]. apply cmp_sym; auto.
    + apply Hl in Hy. unfold before in *. lia.
Qed.

Lemma leads_here P l x : Forall proper (P ++ x :: l) → StronglySorted before (P ++ x :: l) →
  leads (P ++ x :: l) x ↔ occurs st (v_value x) (v_value <$> P) = false.
Proof.
  intros Hp Hs. apply leads_occurs.
  - change (x :: l) with ([x] ++ l) in Hp. rewrite app_assoc in Hp. by apply Forall_app in Hp as [Hp _].
  - apply Forall_forall. intros y Hy. apply (StronglySorted_app_1_elem_of _ _ _ _ _ Hs Hy). by left.
  - by apply StronglySorted_app_1_r, StronglySorted_cons in Hs as [Hs _].
Qed.

Lemma select_filter kp all l : ∀ P seen, Forall proper (P ++ l) → StronglySorted before (P ++ l) →
  seen ≡ₚ v_value <$> P →
  select st kp all seen (v_value <$> l) = v_value <$> filter (wanted kp all (P ++ l)) l.
Proof.
  induction l as [|x l IH]; intros P seen Hp Hs Hseen; [done|].
  assert (Hl : leads (P ++ x :: l) x ↔ occurs st (v_value x) seen = false).
  { rewrite (occurs_perm st _ _ _ Hseen). by apply leads_here. }
  assert (Hrest : select st kp all (v_value x :: seen) (v_value <$> l) = v_value <$> filter (wanted kp all (P ++ x :: l)) l).
  { change (P ++ x :: l) with (P ++ [x] ++ l). rewrite app_assoc. apply IH; rewrite <- ?app_assoc; [done|done|].
    rewrite fmap_app. cbn. rewrite Hseen. by rewrite Permutation_app_comm. }
  cbn [select fmap list_fmap]. rewrite Hrest, filter_cons. unfold wanted at 3.
  destruct (decide _) as [[Hk Ha]|Hn].
  - rewrite Hk. destruct all; [done|]. destruct Ha as [|Ha]; [done|]. apply Hl in Ha as ->. done.
  - destruct (kp (v_value x)) eqn:Hk; [|done]. destruct all; [by destruct Hn; split; [|left]|].
    destruct (occurs st (v_value x) seen) eqn:Ho; [done|]. destruct Hn. split; [done|]. right. by apply Hl.
Qed.

Lemma leads_weaken (kp : sexp → bool) SA x : Forall proper SA →
  (∀ a b, proper a → proper b → cmp (v_value a) (v_value b) = 0 → kp (v_value a) = kp (v_value b)) → x ∈ SA →
  kp (v_value x) = true → leads (filter (λ a, kp (v_value a) = true) SA) x ↔ leads SA x.
Proof.
  intros Hp Hkp Hx Hk. rewrite Forall_forall in Hp. split; intros H y Hy E; [|apply H; [|done]].
  - apply H; [|done]. apply list_elem_of_filter. split; [|done]. rewrite <- Hk. apply Hkp; auto.
  - by apply list_elem_of_filter in Hy as [_ Hy].
Qed.

Lemma filter_proper kp SA : Forall proper SA → Forall proper (filter (λ a, kp (v_value a) = true) SA).
Proof. rewrite !Forall_forall. intros H x [_ Hx]%list_elem_of_filter. by apply H. Qed.

Lemma taken_wanted kp all V SA x : V ≡ₚ SA → Forall proper SA → StronglySorted prec SA →
  (∀ a b, proper a → proper b → cmp (v_value a) (v_value b) = 0 → kp (v_value a) = kp (v_value b)) →
  x ∈ dedup all None (filter (λ a, kp (v_value a) = true) SA) ↔ x ∈ filter (wanted kp all V) V.
Proof.
  intros HV Hp Hs Hkp. rewrite list_elem_of_filter. unfold wanted.
  assert (Hleads : leads V x ↔ leads SA x) by (split; intros H y Hy; apply H; [by rewrite HV|by rewrite <- HV]).
  rewrite Hleads, HV. destruct all.
  - rewrite dedup_all, list_elem_of_filter. intuition.
  - rewrite dedup_leads; [|by apply filter_proper|by apply StronglySorted_filter|done]. rewrite list_elem_of_filter. split.
    + intros ([Hk Hx] & _ & Hl). split; [|done]. split; [done|]. right. by eapply leads_weaken.
    + intros [[Hk [|Hl]] Hx]; [done|]. split; [done|]. split; [done|]. by apply leads_weaken.
Qed.

Lemma before_index x : StronglySorted before x → StronglySorted (λ a b, idx a ≤ idx b)%nat x.
Proof. induction 1; constructor; [done|]. eapply Forall_impl; [done|]. unfold before. intros. cbn. lia. Qed.

Lemma index_le x : StronglySorted (le ileb) x → StronglySorted (λ a b, idx a ≤ idx b)%nat x.
Proof.
  induction 1; constructor; [done|]. eapply Forall_impl; [done|]. unfold le, ileb. intros. cbn. by apply bool_decide_eq_true in H1.
Qed.

Lemma restore l g taken Q `{∀ x, Decision (Q x)} : NoDup taken → (∀ x, x ∈ taken ↔ x ∈ filter Q (indexed 0 l)) →
  binsort st ev taken ByIndex g = Ok (filter Q (indexed 0 l), g).
Proof.
  intros Hnd Hin. assert (Hi : ∀ x, x ∈ taken → x ∈ indexed 0 l).
  { intros x Hx. apply Hin in Hx. by apply list_elem_of_filter in Hx as [_ Hx]. }
  destruct (index_sorted st ev taken g) as (x' & -> & [S1 S2 _]).
  { apply Forall_forall. intros x (i & Ei & _)%Hi%indexed_in. by eexists. }
  do 2 f_equal. apply (StronglySorted_unique_strong (λ a b, idx a ≤ idx b)%nat).
  - intros a b Ha Hb H1 H2. apply (indexed_inj 0 l); [apply Hi; by rewrite <- S1| |lia].
    by apply list_elem_of_filter in Hb as [_ Hb].
  - by apply index_le.
  - apply before_index, StronglySorted_filter, indexed_sorted.
  - rewrite S1. apply NoDup_Permutation; [done| |done]. apply NoDup_filter, indexed_NoDup.
Qed.

(** From the elements taken to the answer. *)
Lemma answered kp all A SA g : Forall (λ e, orderly e = true) A → SA ≡ₚ indexed 0 A → Forall proper SA → StronglySorted prec SA →
  (∀ a b, proper a → proper b → cmp (v_value a) (v_value b) = 0 → kp (v_value a) = kp (v_value b)) →
  ∃ sorted, binsort st ev (dedup all None (filter (λ a, kp (v_value a) = true) SA)) ByIndex g = Ok (sorted, g) ∧
    v_value <$> sorted = select st kp all [] A.
Proof.
  intros HA HV Hp Hs Hkp. eexists. split.
  - apply restore with (Q := wanted kp all (indexed 0 A)) (l := A).
    + eapply sublist_NoDup, dedup_sublist. apply NoDup_filter. rewrite HV. apply indexed_NoDup.
    + intros x. by apply taken_wanted.
  - pose proof (select_filter kp all (indexed 0 A) [] []) as E. rewrite indexed_values in E. symmetry.
    apply E; [by rewrite <- HV in |- *|apply indexed_sorted|done].
Qed.

Lemma reindexed A SA g : SA ≡ₚ indexed 0 A → ∃ l, resortVectorToList st ev SA g = Ok (l, g).
Proof.
  intros HV. unfold resortVectorToList. destruct (index_sorted st ev SA g) as (x' & -> & _); [|by eexists].
  apply Forall_forall. intros x Hx. rewrite HV in Hx. apply indexed_in in Hx as (i & Ei & _). by eexists.
Qed.

Lemma occurs_congr l a b : Forall (λ e, orderly e = true) l → proper a → proper b → cmp (v_value a) (v_value b) = 0 →
  occurs st (v_value a) l = occurs st (v_value b) l.
Proof.
  intros Hl Ha Hb E. rewrite Forall_forall in Hl.
  destruct (occurs st (v_value b) l) eqn:Eb.
  - apply occurs_true in Eb as (y & Hy & Ey). apply occurs_true. exists y. split; [done|].
    apply (cmp_zero st (v_value a) (v_value b)); [done|done|by apply Hl|done|done].
  - apply occurs_false. intros y Hy Ey. assert (occurs st (v_value b) l = true); [|congruence].
    apply occurs_true. exists y. split; [done|]. apply (cmp_zero st (v_value a) (v_value b)); [done|done|by apply Hl|done|done].
Qed.

Lemma plain_values l : v_value <$> imap (λ _ v, VElem None v) l = l.
Proof. rewrite fmap_imap. rewrite <- (list_fmap_id l) at 2. rewrite <- imap_const. by apply imap_ext. Qed.

(** The vector of the second list. *)
Lemma second_vector B g : B ≠ [] → Forall (λ e, orderly e = true) B → ∃ SB,
  listToSortedVector st ev B None false g = Ok (SB, g) ∧ v_value <$> SB ≡ₚ B ∧ StronglySorted (le (cleb st)) SB ∧ Forall proper SB.
Proof.
  intros Hne HB. unfold listToSortedVector. rewrite decide_False by done.
  set (V := imap _ B). assert (HV : v_value <$> V = B) by apply plain_values.
  assert (Hp : Forall proper V) by (by rewrite <- HV, Forall_fmap in HB).
  destruct (cells_sorted st ev V g Hp) as (SB & -> & [S1 S2 _]). exists SB. split; [done|].
  split; [by rewrite S1, HV|]. split; [done|]. by rewrite S1.
Qed.

Definition kept (mode : set_mode) (B : list sexp) (x : sexp) : bool :=
  match mode with SET_INTER => occurs st x B | SET_DIFF => negb (occurs st x B) | SET_UNIQUE => true end.

Lemma sel_kept mode SB B a : v_value <$> SB ≡ₚ B → sel st mode SB a = kept mode B (v_value a).
Proof. intros Hp. unfold sel, kept. by rewrite (occurs_perm st _ _ _ Hp). Qed.

Lemma kept_congr mode B a b : Forall (λ e, orderly e = true) B → proper a → proper b → cmp (v_value a) (v_value b) = 0 →
  kept mode B (v_value a) = kept mode B (v_value b).
Proof. intros HB Ha Hb E. unfold kept. by rewrite (occurs_congr B a b HB Ha Hb E). Qed.

Lemma set_spec_select mode listMode A B : set_spec st mode listMode A B =
  select st (kept mode B) (match mode with SET_UNIQUE => false | _ => listMode end) [] A.
Proof. by destruct mode. Qed.

Lemma precedes_sorted x : StronglySorted prec x → StronglySorted (le (cleb st)) x.
Proof.
  induction 1; constructor; [done|]. eapply Forall_impl; [done|]. intros y [Hy _]. unfold le, cleb. by apply Z.leb_le.
Qed.

Lemma first_vector A g : A ≠ [] → Forall (λ e, orderly e = true) A → ∃ SA,
  listToSortedVector st ev A None true g = Ok (SA, g) ∧ SA ≡ₚ indexed 0 A ∧ StronglySorted prec SA ∧ Forall proper SA ∧
  StronglySorted (le (cleb st)) SA.
Proof.
  intros Hne HA. unfold listToSortedVector. rewrite decide_False by done.
  destruct (vector_ok st ev A g HA) as (SA & E & H1 & H2 & H3). exists SA. split; [done|]. split; [done|]. split; [done|].
  split; [done|by apply precedes_sorted].
Qed.

Lemma nothing_kept mode A : kept mode [] = (λ _, false) → ∀ all seen, select st (kept mode []) all seen A = [].
Proof. intros E all. rewrite E. induction A as [|x A IH]; intros seen; [done|]. cbn. apply IH. Qed.

Lemma walk_one mode all B SA fuel : (length SA < fuel)%nat → kept mode B = (λ _, true) →
  set_loop st fuel mode all SA None 0 0 [] = Ok (dedup all None (filter (λ a, kept mode B (v_value a) = true) SA)).
Proof.
  intros Hf E. rewrite set_loop_all, drop_0, foldl_keep, E by lia. cbn [last app]. do 2 f_equal.
  clear. induction SA as [|x l IH]; [done|]. rewrite filter_cons_True by done. by rewrite <- IH.
Qed.

Lemma walk_two mode all B SA g fuel : mode ≠ SET_UNIQUE → B ≠ [] → Forall (λ e, orderly e = true) B →
  Forall proper SA → StronglySorted (le (cleb st)) SA → (length SA + length B < fuel)%nat → ∃ SB,
  listToSortedVector st ev B None false g = Ok (SB, g) ∧
  set_loop st fuel mode all SA (Some SB) 0 0 [] = Ok (dedup all None (filter (λ a, kept mode B (v_value a) = true) SA)).
Proof.
  intros Hm Hne HB HpA HsA Hf. destruct (second_vector B g Hne HB) as (SB & EB & B1 & B2 & B3). exists SB. split; [done|].
  assert (HlB : length SB = length B) by by rewrite <- B1, length_fmap.
  assert (0 < length SB)%nat by (rewrite HlB; by destruct B; [|cbn; lia]).
  rewrite set_loop_ok by (done || lia || by rewrite take_0; intros b a ?%elem_of_nil).
  rewrite drop_0, foldl_keep. cbn [last app]. do 2 f_equal. apply list_filter_iff. intros a.
  by rewrite (sel_kept mode SB B) by done.
Qed.

(** C13: [intersect], [difference] and [unique] answer exactly what their reference
    definition says, for lists without floats and contexts: the elements of the first list that occur (do not occur) in the
    second, in the order of the first list, the first of each class of equal elements, or all of them in
    list mode; the sort, the walk through two sorted vectors and the sort back by index lose
    and reorder nothing. *)
Theorem setInterDiff_spec A B listMode mode g : Forall (λ e, orderly e = true) A → Forall (λ e, orderly e = true) B →
  setInterDiff st ev A B listMode mode g = Ok (set_spec st mode listMode A B, g).
Proof.
  intros HA HB. rewrite set_spec_select. unfold setInterDiff.
  destruct (decide (A = [])) as [->|HneA]; [by destruct mode|].
  destruct (first_vector A g HneA HA) as (SA & EA & A1 & A2 & A3 & A4). rewrite EA.
  set (all := match mode with SET_UNIQUE => false | _ => listMode end).
  destruct (answered (kept mode B) all A SA g HA A1 A3 A2) as (sorted & ES & Hsorted).
  { intros a b Ha Hb E. by apply kept_congr. }
  destruct (reindexed A SA g A1) as [l El].
  assert (HlA : length SA = length A) by (rewrite A1; apply length_imap).
  assert (Hwalk : ∀ second, set_loop st (S (length A + length B)) mode all SA second 0 0 [] =
      Ok (dedup all None (filter (λ a, kept mode B (v_value a) = true) SA)) →
    (taken ← set_loop st (S (length A + length B)) mode all SA second 0 0 []; '(sorted, g) ← binsort st ev taken ByIndex g;
     '(_, g) ← resortVectorToList st ev SA g; Ok (fmap (M:=list) v_value sorted, g)) = Ok (select st (kept mode B) all [] A, g)).
  { intros second ->. cbn [mbind result_bind]. rewrite ES. cbn [mbind result_bind].
    rewrite El. cbn [mbind result_bind]. by rewrite Hsorted. }
  pose proof (walk_one mode all B SA (S (length A + length B))) as Hone.
  pose proof (walk_two mode all B SA g (S (length A + length B))) as Htwo.
  destruct mode; [| |by apply Hwalk, Hone; [lia|]].
  all: destruct (decide (B = [])) as [->|Hne].
  - do 2 f_equal. symmetry. by apply (nothing_kept SET_INTER).
  - destruct Htwo as (SB & EB & E); try done; [lia|]. cbn [mbind result_bind]. rewrite EB. by apply Hwalk.
  - by apply Hwalk, Hone; [cbn; lia|].
  - destruct Htwo as (SB & EB & E); try done; [lia|]. cbn [mbind result_bind]. rewrite EB. by apply Hwalk.
Qed.

(** ** sort *)

Lemma class_values e x : v_value <$> class (cleb st) (VElem None e) x =
  filter (λ y, cmp e y ≤ 0 ∧ cmp y e ≤ 0) (v_value <$> x).
Proof.
  induction x as [|a x IH]; [done|]. unfold class in *. cbn [fmap list_fmap]. rewrite !filter_cons.
  assert (E : cleb st (VElem None e) a = true ∧ cleb st a (VElem None e) = true ↔ cmp e (v_value a) ≤ 0 ∧ cmp (v_value a) e ≤ 0)
    by (unfold cleb; by rewrite !Z.leb_le).
  case_decide; case_decide; try tauto. cbn [fmap list_fmap]. by rewrite IH.
Qed.

Lemma sorted_values x : StronglySorted (le (cleb st)) x → StronglySorted (λ a b, cmp a b ≤ 0) (v_value <$> x).
Proof.
  induction 1 as [|a x Hs IH Ha]; [constructor|]. cbn. constructor; [done|]. apply Forall_fmap. eapply Forall_impl; [done|].
  intros b Hb. unfold le, cleb in Hb. cbn. by apply Z.leb_le.
Qed.

(** C14: [sort] without a function is a stable sort, for lists without floats and contexts:
    it returns, its answer holds the same elements, each is at most
    the ones after it, and elements that compare equal keep their order. *)
Theorem sort_list_stable l g : Forall (λ e, orderly e = true) l → ∃ l',
  sort_list st ev l None g = Ok (l', g) ∧ l' ≡ₚ l ∧ StronglySorted (λ a b, cmp a b ≤ 0) l' ∧
  ∀ e, orderly e = true → filter (λ y, cmp e y = 0) l' = filter (λ y, cmp e y = 0) l.
Proof.
  intros Hl. unfold sort_list, listToSortedVector. destruct (decide (l = [])) as [->|Hne].
  { exists []. split; [done|]. split; [done|]. split; [constructor|done]. }
  set (V := imap _ l). assert (HV : v_value <$> V = l) by apply plain_values.
  assert (Hp : Forall proper V) by (by rewrite <- HV, Forall_fmap in Hl).
  destruct (cells_sorted st ev V g Hp) as (x & -> & [S1 S2 S3]). eexists. split; [done|].
  split; [by rewrite S1, HV|]. split; [by apply sorted_values|]. intros e He.
  assert (Hf : ∀ k, Forall (λ e, orderly e = true) k → filter (λ y, cmp e y = 0) k = filter (λ y, cmp e y ≤ 0 ∧ cmp y e ≤ 0) k).
  { intros k Hk. clear -Hk He. induction Hk as [|y k Hy Hk IH]; [done|]. pose proof (cmp_anti st e y He Hy).
    rewrite !filter_cons, IH. by repeat case_decide; try lia. }
  assert (Hl' : Forall (λ e, orderly e = true) (v_value <$> x)) by by rewrite S1, HV.
  etrans; [by apply Hf|]. etrans; [|by symmetry; apply Hf]. by rewrite <- class_values, S3, class_values, HV.
Qed.

(** [sort] with a function that answers for all pairs of elements
    (whatever it answers, and whatever else it changes) returns a permutation of the list. *)
Theorem sort_list_permutes l func f g g1 : function_value ev func g = Ok (f, g1) →
  (∀ a b g, a ∈ l → b ∈ l → ∃ c g', ev (CExpr [f; CQuote a; CQuote b]) g = Ok (c, g')) →
  ∃ l' g', sort_list st ev l (Some func) g = Ok (l', g') ∧ l' ≡ₚ l.
Proof.
  intros Ef Hev. unfold sort_list, listToSortedVector. destruct (decide (l = [])) as [->|Hne]; [by exists [], g|].
  rewrite Ef. cbn [mbind result_bind].
  set (V := imap _ l). assert (HV : v_value <$> V = l) by apply plain_values.
  destruct (binsort_total st ev (ByFunction f) V g1) as (x & g2 & -> & Hx).
  { assert (Hin : ∀ a, a ∈ V → v_value a ∈ l) by (intros a Ha; rewrite <- HV; by apply list_elem_of_fmap_2).
    intros a b g' Ha Hb. cbn [goes_first].
    destruct (Hev (v_value a) (v_value b) g') as (c & g'' & ->); [by apply Hin..|]. by eexists _, _. }
  eexists _, g2. split; [done|]. by rewrite Hx, HV.
Qed.

End Setops.

(** ** Examples *)

Module Examples.

Definition st : symtab := λ _, Symbol "x" 0 0%nat CNil.
#[local] Instance no_runtime : TreeRuntime := {| tr_call := λ _ _ _, UB; tr_setf := λ _ _, UB |}.
Definition ev : sexp → env → result (sexp * env) := evaluateExpression st 9.

(** [(intersect '(3 "a" 1 3) '("a" 5 3))] is [(3 "a")]. *)
Lemma setInterDiff_spec_witness :
  setInterDiff st ev [CLong 3; CString "a"; CLong 1; CLong 3] [CString "a"; CLong 5; CLong 3] false SET_INTER ∅ =
    Ok ([CLong 3; CString "a"], ∅).
Proof.
  rewrite (setInterDiff_spec st ev [CLong 3; CString "a"; CLong 1; CLong 3] [CString "a"; CLong 5; CLong 3] false SET_INTER ∅);
    [vm_compute; reflexivity|repeat constructor|repeat constructor].
Defined.

(** [(sort '(3 "a" 1 3))]. *)
Lemma sort_list_stable_witness :
  ∃ l, sort_list st ev [CLong 3; CString "a"; CLong 1; CLong 3] None ∅ = Ok (l, ∅) ∧ l ≡ₚ [CLong 3; CString "a"; CLong 1; CLong 3].
Proof.
  destruct (sort_list_stable st ev [CLong 3; CString "a"; CLong 1; CLong 3] ∅) as (l & H1 & H2 & _);
    [repeat constructor|]. exists l. split; [exact H1|exact H2].
Defined.

(** [(sort '(1 3 2) >)]; the cell of the primitive [>] is the function. *)
Lemma sort_list_permutes_witness :
  ∃ l g, sort_list st ev [CLong 1; CLong 3; CLong 2] (Some (CPrimitive 15)) ∅ = Ok (l, g) ∧ l ≡ₚ [CLong 1; CLong 3; CLong 2].
Proof.
  apply (sort_list_permutes st ev [CLong 1; CLong 3; CLong 2] (CPrimitive 15) (CPrimitive 15) ∅ ∅).
  - vm_compute. reflexivity.
  - intros a b g Ha Hb. rewrite !elem_of_cons, elem_of_nil in Ha, Hb.
    destruct Ha as [->|[->|[->|[]]]], Hb as [->|[->|[->|[]]]]; vm_compute; by eexists _, _.
Defined.

Example sorted_down : sort_list st ev [CLong 1; CLong 3; CLong 2] (Some (CPrimitive 15)) ∅ = Ok ([CLong 3; CLong 2; CLong 1], ∅).
Proof. by vm_compute. Qed.

(** With floats equality is no equivalence (both integers equal the float, and differ), and
    [(intersect '(9007199254740992) '(9007199254740993 9007199254740992.0))] finds nothing, though
    the element equals the last one of the second list. *)
Example intersect_misses :
  setInterDiff st ev [CLong (2 ^ 53)] [CLong (2 ^ 53 + 1); CFloat (S754_finite false (2 ^ 52) 1)] false SET_INTER ∅ = Ok ([], ∅) ∧
  occurs st (CLong (2 ^ 53)) [CLong (2 ^ 53 + 1); CFloat (S754_finite false (2 ^ 52) 1)] = true.
Proof. split; vm_compute; reflexivity. Qed.

End Examples.

(** * What [count] answers

    The walk through the sorted items and the sorted list counts, for each item that
    does not occur among the items before it, its equals in the list. *)

(** The number of elements of [l] equal to [x]. *)
Definition tally (st : symtab) (x : sexp) (l : list sexp) : Z :=
  Z.of_nat (length (filter (λ y, compareCells st y x = 0) l)).

Fixpoint tallies (st : symtab) (seen items l : list sexp) : list Z :=
  match items with
  | [] => []
  | x :: items => (if occurs st x seen then 0 else tally st x l) :: tallies st (x :: seen) items l
  end.

(** What [count] promises. *)
Definition count_spec (st : symtab) (items l : list sexp) : list Z := tallies st [] items l.

Section Counting.
Variable st : symtab.
Variable ev : sexp → env → result (sexp * env).

#[local] Abbreviation cmp := (compareCells st).
#[local] Abbreviation prec := (precedes st).

Lemma tally_perm x l l' : l ≡ₚ l' → tally st x l = tally st x l'.
Proof. intros H. unfold tally. by rewrite H. Qed.

Lemma tally_cons x a l : tally st x (a :: l) = (if cmp a x =? 0 then 1 else 0) + tally st x l.
Proof. unfold tally. rewrite filter_cons. destruct (Z.eqb_spec (cmp a x) 0); case_decide; try done. cbn [length]. lia. Qed.

(** ** The walk *)

Section Walk.
Variables VI VL : list velem.
Hypothesis HpI : ∀ y, y ∈ VI → proper y.
Hypothesis HpL : ∀ y, y ∈ VL → proper y.
Hypothesis HsI : StronglySorted prec VI.
Hypothesis HsL : StronglySorted (le (cleb st)) VL.
Hypothesis Hidx : ∀ y, y ∈ VI → has_index y.
Hypothesis Hinj : ∀ x y, x ∈ VI → y ∈ VI → idx x = idx y → x = y.

(** What the elements of [L] add to the count of the item [y]. *)
Definition share (y : velem) (L : list velem) : Z :=
  if decide (leads st VI y) then tally st (v_value y) (v_value <$> L) else 0.

Lemma share_nil y : share y [] = 0.
Proof. unfold share. by case_decide. Qed.

Lemma share_other y a L : ¬ (leads st VI y ∧ cmp (v_value a) (v_value y) = 0) → share y (a :: L) = share y L.
Proof.
  intros H. unfold share. case_decide; [|done]. cbn [fmap list_fmap]. rewrite tally_cons.
  destruct (Z.eqb_spec (cmp (v_value a) (v_value y)) 0); [tauto|lia].
Qed.

Lemma share_equal y a L : leads st VI y → cmp (v_value a) (v_value y) = 0 → share y (a :: L) = 1 + share y L.
Proof.
  intros H E. unfold share. rewrite !decide_True by done. cbn [fmap list_fmap]. rewrite tally_cons.
  by rewrite (proj2 (Z.eqb_eq _ _) E).
Qed.

(** Of equal items only one leads. *)
Lemma leads_unique x y : x ∈ VI → y ∈ VI → leads st VI x → leads st VI y → cmp (v_value x) (v_value y) = 0 → x = y.
Proof.
  intros Hx Hy Lx Ly E. apply Hinj; [done|done|]. pose proof (Ly x Hx E) as H1.
  pose proof (Lx y Hy (cmp_sym st _ _ (HpI _ Hx) (HpI _ Hy) E)) as H2. unfold before in *. lia.
Qed.

(** The item under [j] leads when the ones before it are smaller than an equal of it. *)
Lemma leads_at j y a : VI !! j = Some y → proper a → cmp (v_value a) (v_value y) = 0 →
  (∀ b, b ∈ take j VI → cmp (v_value b) (v_value a) < 0) → leads st VI y.
Proof.
  intros Hj Ha E Hlow z Hz Ezy. rewrite <- (take_drop_middle _ _ _ Hj) in Hz. apply elem_of_app in Hz as [Hz|Hz].
  - assert (Hz' : z ∈ VI) by (rewrite <- (take_drop j VI); apply elem_of_app; by left).
    assert (Hy : y ∈ VI) by by eapply list_elem_of_lookup_2. exfalso. specialize (Hlow z Hz).
    assert (cmp (v_value z) (v_value a) = 0); [|lia].
    apply (cmp_zero st (v_value y) (v_value z)); [by apply HpI|by apply HpI|done| |]; apply cmp_sym; auto.
  - apply elem_of_cons in Hz as [->|Hz]; [unfold before; lia|]. pose proof HsI as Hs.
    rewrite <- (take_drop_middle _ _ _ Hj) in Hs. apply StronglySorted_app_1_r, StronglySorted_cons in Hs as [Hs _].
    rewrite Forall_forall in Hs. assert (Hz' : z ∈ VI) by (rewrite <- (take_drop (S j) VI); apply elem_of_app; by right).
    assert (Hb : before y z) by (apply Hs; [done|]; apply cmp_sym; [by apply HpI| |done]; apply HpI; by eapply list_elem_of_lookup_2).
    unfold before in *. lia.
Qed.

Lemma elem_take j (x : list velem) y : y ∈ take j x → y ∈ x.
Proof. intros H. rewrite <- (take_drop j x). apply elem_of_app. by left. Qed.

Lemma elem_drop j (x : list velem) y : y ∈ drop j x → y ∈ x.
Proof. intros H. rewrite <- (take_drop j x). apply elem_of_app. by right. Qed.

(** An element of the list that equals no item adds nothing. *)
Lemma shares_none a L : (∀ z, z ∈ VI → cmp (v_value a) (v_value z) ≠ 0) → ∀ z, z ∈ VI → share z (a :: L) = share z L.
Proof. intros H z Hz. apply share_other. intros [_ E]. by apply (H z). Qed.

(** [counts] after one more element, [a], equal to the item [y]. *)
Lemma counted y a L counts : y ∈ VI → leads st VI y → proper a → cmp (v_value a) (v_value y) = 0 → (idx y < length counts)%nat →
  ∀ z, z ∈ VI → <[idx y := counts !!! idx y + 1]> counts !!! idx z + share z L = counts !!! idx z + share z (a :: L).
Proof.
  intros Hy Hlead Ha E Hlt z Hz. destruct (decide (idx y = idx z)) as [Ei|Ei].
  - apply Hinj in Ei as <-; [|done|done]. rewrite list_lookup_total_insert_eq, share_equal by done. lia.
  - rewrite list_lookup_total_insert_ne, share_other; [done| |done]. intros [Lz Ez]. apply Ei. f_equal. apply leads_unique; try done.
    apply (cmp_zero st (v_value a) (v_value y)); [done|by apply HpI|by apply HpI|done|done].
Qed.

Definition counts_well (counts counts' : list Z) (L : list velem) : Prop :=
  length counts' = length counts ∧ ∀ y, y ∈ VI → counts' !!! idx y = counts !!! idx y + share y L.

Lemma counts_more a L counts counts' : (∀ z, z ∈ VI → cmp (v_value a) (v_value z) ≠ 0) →
  counts_well counts counts' L → counts_well counts counts' (a :: L).
Proof. intros H [H1 H2]. split; [done|]. intros y Hy. by rewrite shares_none, H2. Qed.

Lemma count_loop_ok fuel : ∀ i j counts, (j < length VI)%nat → (length VL - i + (length VI - 1 - j) < fuel)%nat →
  (∀ y, y ∈ VI → (idx y < length counts)%nat) →
  (∀ b a, b ∈ take j VI → a ∈ drop i VL → cmp (v_value b) (v_value a) < 0) →
  ∃ counts', count_loop st fuel VI VL i j counts = Ok counts' ∧ counts_well counts counts' (drop i VL).
Proof.
  induction fuel as [|fuel IH]; intros i j counts Hj Hf Hlen Hinv; [lia|]. cbn [count_loop].
  destruct (decide (i < length VL)%nat) as [Hi|Hi].
  2: { exists counts. split; [done|]. rewrite drop_ge by lia. split; [done|]. intros y _. rewrite share_nil. lia. }
  destruct (lookup_lt_is_Some_2 VL i Hi) as [a Ha]. destruct (lookup_lt_is_Some_2 VI j Hj) as [y Hy].
  rewrite (rd_ok _ _ _ Ha), (rd_ok _ _ _ Hy). cbn [mbind result_bind].
  assert (Hin : y ∈ VI) by by eapply list_elem_of_lookup_2.
  assert (Hpa : proper a) by (apply HpL; by eapply list_elem_of_lookup_2). pose proof (HpI y Hin) as Hpy.
  assert (Hda : drop i VL = a :: drop (S i) VL) by by apply drop_S.
  assert (Hlow : ∀ b, b ∈ take j VI → cmp (v_value b) (v_value a) < 0) by (intros b Hb; apply Hinv; [done|rewrite Hda; by left]).
  assert (Hnext : ∀ b a, b ∈ take j VI → a ∈ drop (S i) VL → cmp (v_value b) (v_value a) < 0).
  { intros b' a' H1 H2. apply Hinv; [done|]. rewrite Hda. by right. }
  assert (Hnone : (∀ z, z ∈ drop j VI → cmp (v_value a) (v_value z) ≠ 0) → ∀ z, z ∈ VI → cmp (v_value a) (v_value z) ≠ 0).
  { intros H z Hz. pose proof (HpI z Hz) as Hpz. rewrite <- (take_drop j VI) in Hz. apply elem_of_app in Hz as [Hz|Hz]; [|by apply H].
    specialize (Hlow z Hz). rewrite (cmp_anti st (v_value z)) by done. lia. }
  assert (HsI' : StronglySorted (le (cleb st)) VI) by by apply precedes_sorted.
  assert (HFI : Forall proper VI) by by apply Forall_forall. assert (HFL : Forall proper VL) by by apply Forall_forall.
  rewrite Hda. destruct (Z.eqb_spec (cmp (v_value a) (v_value y)) 0) as [E|E].
  { assert (Hlead : leads st VI y) by by apply (leads_at j y a). destruct (Hidx y Hin) as [k Ek].
    rewrite Ek. cbn [mbind result_bind]. pose proof (Hlen y Hin) as Hk. unfold idx in Hk. rewrite Ek in Hk. cbn in Hk.
    rewrite (rd_ok _ k (counts !!! k)) by by apply list_lookup_lookup_total_lt. cbn [mbind result_bind].
    rewrite wr_ok by done. cbn [mbind result_bind].
    destruct (IH (S i) j (<[k := counts !!! k + 1]> counts)) as (counts' & -> & H1 & H2); [done|lia|by rewrite length_insert|done|].
    exists counts'. split; [done|]. split; [by rewrite H1, length_insert|]. intros z Hz. rewrite H2 by done.
    assert (k = idx y) as -> by (unfold idx; by rewrite Ek). apply counted; auto. }
  destruct (Z.ltb_spec (cmp (v_value a) (v_value y)) 0).
  { destruct (IH (S i) j counts) as (counts' & -> & H1); [done|lia|done|done|]. exists counts'. split; [done|].
    apply counts_more; [|done]. apply Hnone. intros z Hz. assert (cmp (v_value a) (v_value z) < 0); [|lia].
    apply (lt_le st a y z); [done|done|by eapply HpI, elem_drop|done|by apply (sorted_from st VI j)]. }
  destruct (decide (j < length VI - 1)%nat) as [Hj'|Hj'].
  - destruct (IH i (S j) counts) as (counts' & -> & H1); [lia|lia|done| |exists counts'; split; [done|]; by rewrite <- Hda].
    intros b' a' Hb Ha'. rewrite (take_S_r _ _ _ Hy) in Hb. apply elem_of_app in Hb as [Hb|Hb]; [by apply Hinv|].
    apply list_elem_of_singleton in Hb as ->. assert (cmp (v_value y) (v_value a) < 0) by (rewrite (cmp_anti st (v_value a)) by done; lia).
    apply (lt_le st y a a'); [done|done|by eapply HpL, elem_drop|done|by apply (sorted_from st VL i)].
  - destruct (IH (S i) j counts) as (counts' & -> & H1); [done|lia|done|done|]. exists counts'. split; [done|].
    apply counts_more; [|done]. apply Hnone. intros z Hz. rewrite (drop_S _ _ _ Hy), drop_ge in Hz by lia.
    by apply list_elem_of_singleton in Hz as ->.
Qed.

End Walk.

Lemma tallies_map l L : ∀ P seen, Forall proper (P ++ l) → StronglySorted before (P ++ l) → seen ≡ₚ v_value <$> P →
  tallies st seen (v_value <$> l) (v_value <$> L) = (λ y, share (P ++ l) y L) <$> l.
Proof.
  induction l as [|x l IH]; intros P seen Hp Hs Hseen; [done|].
  assert (Hl : leads st (P ++ x :: l) x ↔ occurs st (v_value x) seen = false).
  { rewrite (occurs_perm st _ _ _ Hseen). by apply leads_here. }
  cbn [tallies fmap list_fmap]. f_equal.
  - unfold share. case_decide as H; destruct (occurs st (v_value x) seen); try done; [by apply Hl in H|].
    destruct H. by apply Hl.
  - change (P ++ x :: l) with (P ++ [x] ++ l). rewrite app_assoc. apply IH; rewrite <- ?app_assoc; [done|done|].
    rewrite fmap_app. cbn. rewrite Hseen. by rewrite Permutation_app_comm.
Qed.

Lemma list_vector A g : Forall (λ e, orderly e = true) A → ∃ SA,
  listToSortedVector st ev A None true g = Ok (SA, g) ∧ SA ≡ₚ indexed 0 A ∧ StronglySorted prec SA ∧ Forall proper SA ∧
  StronglySorted (le (cleb st)) SA.
Proof.
  intros HA. destruct (decide (A = [])) as [->|Hne]; [|by apply first_vector].
  exists []. split; [done|]. split; [done|]. split; [constructor|]. split; constructor.
Qed.

Lemma indexed_lookup l i v : l !! i = Some v → indexed 0 l !! i = Some (VElem (Some i) v).
Proof. intros H. unfold indexed. by rewrite list_lookup_imap, H. Qed.

(** The counts, item by item, make the reference list. *)
Lemma counts_list items VI VL counts : VI ≡ₚ indexed 0 items → Forall proper VI → length counts = length items →
  (∀ y, y ∈ VI → counts !!! idx y = share VI y VL) →
  counts = tallies st [] items (v_value <$> VL).
Proof.
  intros HV Hp Hlen Hc. pose proof (tallies_map (indexed 0 items) VL [] []) as E. rewrite indexed_values in E. rewrite E; cbn.
  2: by rewrite <- HV. 2: apply indexed_sorted. 2: done.
  apply list_eq. intros i. rewrite list_lookup_fmap. destruct (decide (i < length items)%nat) as [Hi|Hi].
  - destruct (lookup_lt_is_Some_2 items i Hi) as [v Hv]. pose proof (indexed_lookup _ _ _ Hv) as Hy. rewrite Hy. cbn.
    rewrite (list_lookup_lookup_total_lt counts) by by rewrite Hlen. f_equal.
    assert (Hin : VElem (Some i) v ∈ VI) by (rewrite HV; by eapply list_elem_of_lookup_2).
    specialize (Hc _ Hin). cbn in Hc. rewrite Hc. unfold share.
    assert (Hl : leads st VI (VElem (Some i) v) ↔ leads st (indexed 0 items) (VElem (Some i) v)).
    { split; intros H y Hy'; apply H; [by rewrite HV|by rewrite <- HV]. }
    do 2 case_decide; try done; tauto.
  - rewrite !lookup_ge_None_2; [done| |lia]. unfold indexed. rewrite length_imap. lia.
Qed.

(** [count] answers, for lists without floats and contexts, the number of the elements of the
    list equal to each item (zero for an item that occurs among those before it), in the order of the
    items; the walk through the two sorted vectors ends and writes only counters of items. *)
Theorem count_items_spec items l g : Forall (λ e, orderly e = true) items → Forall (λ e, orderly e = true) l →
  count_items st ev items l g = Ok (count_spec st items l, g).
Proof.
  intros HI HL. unfold count_items, count_spec. destruct (decide (items = [])) as [->|Hne]; [done|].
  destruct (first_vector st ev items g Hne HI) as (VI & -> & I1 & I2 & I3 & I4). cbn [mbind result_bind].
  destruct (list_vector l g HL) as (VL & -> & L1 & L2 & L3 & L4). cbn [mbind result_bind].
  assert (HlI : length VI = length items) by (rewrite I1; apply length_imap).
  assert (HlL : length VL = length l) by (rewrite L1; apply length_imap).
  assert (Hix : ∀ y, y ∈ VI → has_index y ∧ (idx y < length items)%nat).
  { intros y Hy. rewrite I1 in Hy. apply indexed_in in Hy as (k & Ek & Hk). split; [by eexists|]. unfold idx. rewrite Ek.
    by eapply lookup_lt_Some. }
  destruct (count_loop_ok VI VL) with (fuel := S (length items + length l)) (i := 0%nat) (j := 0%nat)
    (counts := replicate (length items) 0) as (counts & -> & C1 & C2).
  all: try by apply Forall_forall. all: try done.
  - intros y Hy. by apply Hix.
  - intros x y Hx Hy. rewrite I1 in Hx, Hy. by eapply indexed_inj.
  - rewrite HlI. destruct items; [done|cbn; lia].
  - lia.
  - intros y Hy. rewrite length_replicate. by apply Hix.
  - rewrite take_0. by intros b a ?%elem_of_nil.
  - cbn [mbind result_bind]. destruct (reindexed st ev items VI g I1) as [l1 ->]. cbn [mbind result_bind].
    destruct (reindexed st ev l VL g L1) as [l2 ->]. cbn [mbind result_bind]. do 2 f_equal.
    rewrite length_replicate in C1. rewrite (counts_list items VI VL counts I1 I3 C1).
    + assert (HV : v_value <$> VL ≡ₚ l) by (rewrite L1; by rewrite indexed_values).
      generalize ([] : list sexp). clear -HV. induction items as [|x items IH]; intros seen; [done|]. cbn [tallies].
      by rewrite (tally_perm _ _ _ HV), IH.
    + intros y Hy. rewrite C2 by done. rewrite list_lookup_total_alt, lookup_replicate_2 by by apply Hix. by rewrite drop_0.
Qed.

End Counting.

(** [(count '(1 2 1) '(2 1 2 "a" 2))] is [(1 3 0)]. *)
Lemma count_items_spec_witness :
  count_items Examples.st Examples.ev [CLong 1; CLong 2; CLong 1] [CLong 2; CLong 1; CLong 2; CString "a"; CLong 2] ∅ =
    Ok ([1; 3; 0], ∅).
Proof.
  rewrite (count_items_spec Examples.st Examples.ev [CLong 1; CLong 2; CLong 1]
    [CLong 2; CLong 1; CLong 2; CString "a"; CLong 2] ∅); [vm_compute; reflexivity|repeat constructor|repeat constructor].
Defined.
