(* ===== verification/Token.v ===== *)
(** * Tokens of the source text (src/newlisp.c, [getToken])

    A stream over a string is the list of bytes from [stream->ptr] to the end of
    its buffer, the terminating 0 included; a read behind it is [UB].  The token
    buffer of the caller has [cap] bytes; a write behind it is [UB].  [tkn] and
    [tknLen] move together, so that both are the bytes written so far.  Streams on
    files, which refill their buffer, are left out. *)

From stdpp Require Import base list numbers tactics strings.
From Stdlib Require Import ZArith Lia SpecFloat.
From S2P Require Import Prelude Utf8 Arith.

#[global] Open Scope Z_scope.

Definition MAX_STRING := 2048%nat.
Definition MAX_SYMBOL := 1023%nat.
Definition MAX_DIGITS := 1001%nat.
Definition MAX_HEX_NO := MAX_DIGITS.
Definition MAX_BIN_NO := MAX_DIGITS.
Definition MAX_DECIMALS := MAX_DIGITS.

Definition ERR_STRING_TOO_LONG := 7.

Inductive tkn :=
  | TKN_ERROR | TKN_EMPTY | TKN_HEX | TKN_OCTAL | TKN_BINARY | TKN_DECIMAL | TKN_FLOAT
  | TKN_STRING | TKN_SYMBOL | TKN_CONTEXT | TKN_LEFT_PAR | TKN_RIGHT_PAR | TKN_QUOTE.

(** ** Characters *)

Module Export Chars.
Abbreviation c_dquote := 34.
Abbreviation c_hash := 35.
Abbreviation c_quote := 39.
Abbreviation c_left := 40.
Abbreviation c_right := 41.
Abbreviation c_plus := 43.
Abbreviation c_comma := 44.
Abbreviation c_minus := 45.
Abbreviation c_colon := 58.
Abbreviation c_semicolon := 59.
Abbreviation c_open := 91.
Abbreviation c_backslash := 92.
Abbreviation c_close := 93.
Abbreviation c_lbrace := 123.
Abbreviation c_rbrace := 125.
End Chars.

Definition isDigit (c : Z) : bool := (48 <=? c) && (c <=? 57).
Definition isxdigit (c : Z) : bool :=
  isDigit c || ((65 <=? c) && (c <=? 70)) || ((97 <=? c) && (c <=? 102)).
Definition toupper (c : Z) : Z := if (97 <=? c) && (c <=? 122) then c - 32 else c.

(** Characters at which the name of a symbol ends. *)
Definition ends_symbol (c : Z) : bool :=
  (c <=? 32) || (c =? c_dquote) || (c =? c_quote) || (c =? c_left) || (c =? c_right) || (c =? c_colon) || (c =? c_comma).

(** ** The conversions of the C library *)

Definition digit_value (c : Z) : Z :=
  if isDigit c then c - 48 else if (65 <=? toupper c) && (toupper c <=? 90) then toupper c - 55 else 99.

(** The value of the digits to the base up to the first character that is none. *)
Fixpoint digits_value (base : Z) (t : list Z) (acc : Z) : Z :=
  match t with
  | [] => acc
  | c :: t => if digit_value c <? base then digits_value base t (base * acc + digit_value c) else acc
  end.

(** Base 0: the prefix tells. *)
Definition magnitude (base : Z) (t : list Z) : Z :=
  match t with
  | 48 :: x :: d :: t' =>
      if (toupper x =? 88) && isxdigit d && ((base =? 0) || (base =? 16)) then digits_value 16 (d :: t') 0
      else digits_value (if base =? 0 then 8 else base) t 0
  | 48 :: _ => digits_value (if base =? 0 then 8 else base) t 0
  | _ => digits_value (if base =? 0 then 10 else base) t 0
  end.

Definition signed (t : list Z) : bool * list Z :=
  match t with 45 :: t => (true, t) | 43 :: t => (false, t) | _ => (false, t) end.

Definition strtol_exact (base : Z) (t : list Z) : Z :=
  let '(neg, t) := signed t in if neg : bool then - magnitude base t else magnitude base t.

(** [strtoll] with its [ERANGE], and [strtoull] cast to 64 bits. *)
Definition strtoll (t : list Z) (base : Z) : Z * bool :=
  let v := strtol_exact base t in
  if INT64_MAX <? v then (INT64_MAX, true) else if v <? INT64_MIN then (INT64_MIN, true) else (v, false).

Definition strtoull (t : list Z) (base : Z) : Z :=
  let '(neg, u) := signed t in
  let v := magnitude base u in
  if 2 ^ 64 - 1 <? v then int64 (2 ^ 64 - 1) else int64 (if neg : bool then - v else v).

(** ** Writing the token *)

Definition put_byte (cap : nat) (t : list Z) (c : Z) : result (list Z) :=
  if decide (length t < cap)%nat then Ok (t ++ [c]) else UB.

(** [*tkn = 0]. *)
Definition ends {A} (cap : nat) (t : list Z) (v : A) : result A :=
  if decide (length t < cap)%nat then Ok v else UB.

(** [while(p( *stream->ptr) && tknLen < limit) *(tkn++) = *(stream->ptr++), tknLen++;] *)
Fixpoint copy_while (p : Z → bool) (limit : option nat) (cap : nat) (t s : list Z) : result (list Z * list Z) :=
  match s with
  | [] => UB
  | c :: s' =>
      if p c && match limit with Some n => bool_decide (length t < n)%nat | None => true end then
        t ← put_byte cap t c;
        copy_while p limit cap t s'
      else Ok (t, s)
  end.

(** ** White space and comments *)

Fixpoint skip_white (s : list Z) : result (list Z) :=
  match s with
  | [] => UB
  | c :: s' => if (c <=? 32) && negb (c =? 0) then skip_white s' else Ok s
  end.

(** Whether there is a next line, and the stream behind the end of this one. *)
Fixpoint skip_comment (s : list Z) : result (bool * list Z) :=
  match s with
  | [] => UB
  | c :: s' => if c =? 0 then Ok (false, s) else if (c =? 10) || (c =? 13) then Ok (true, s') else skip_comment s'
  end.

(** The label [STRIP]: whether there is a token, and the stream there. *)
Fixpoint strip (fuel : nat) (s : list Z) : result (bool * list Z) :=
  match fuel with
  | O => NoFuel
  | S fuel =>
      s ← skip_white s;
      c ← rd s 0;
      if c =? 0 then Ok (false, s)
      else if (c =? c_semicolon) || (c =? c_hash) then
        '(more, s) ← skip_comment (drop 1 s);
        if more : bool then strip fuel s else Ok (false, s)
      else Ok (true, s)
  end.

(** ** getToken *)

(** What is returned, the token, [*ptr_len] where it is set, and the stream. *)
Record lexeme := Lexeme { lx_kind : tkn; lx_text : list Z; lx_len : option nat; lx_rest : list Z }.

Definition finish (cap : nat) (k : tkn) (t s : list Z) : result lexeme := ends cap t (Lexeme k t None s).
Definition finish_len (cap : nat) (k : tkn) (t s : list Z) : result lexeme :=
  ends cap t (Lexeme k t (Some (length t)) s).

Section Lexer.
Variable lc_decimal_point : Z.

(** The sign of a number. *)
Definition get_sign (cap : nat) (s : list Z) : result (list Z * list Z) :=
  c ← rd s 0;
  if (c =? c_minus) || (c =? c_plus) then
    c1 ← rd s 1;
    if isDigit c1 || (c1 =? lc_decimal_point) then t ← put_byte cap [] c; Ok (t, drop 1 s) else Ok ([], s)
  else Ok ([], s).

(** The digits of the exponent, behind the [e] or its sign. *)
Definition get_exponent_digits (cap : nat) (floatFlag : bool) (t s : list Z) : result lexeme :=
  c1 ← rd s 1;
  if isDigit c1 then
    c ← rd s 0;
    t ← put_byte cap t c;
    '(t, s) ← copy_while isDigit (Some MAX_SYMBOL) cap t (drop 1 s);
    finish cap TKN_FLOAT t s
  else if floatFlag then finish cap TKN_FLOAT t s
  else finish_len cap TKN_DECIMAL t s.

(** The exponent, or the end of a number without one. *)
Definition get_exponent (cap : nat) (floatFlag : bool) (t s : list Z) : result lexeme :=
  c ← rd s 0;
  if toupper c =? 69 then
    c2 ← rd s 2;
    sign ← (if isDigit c2 then c1 ← rd s 1; Ok ((c1 =? c_minus) || (c1 =? c_plus)) else Ok false);
    if sign : bool then t ← put_byte cap t c; get_exponent_digits cap floatFlag t (drop 1 s)
    else get_exponent_digits cap floatFlag t s
  else finish cap TKN_FLOAT t s.

(** The decimals. *)
Definition get_decimals (cap : nat) (t s : list Z) : result lexeme :=
  c ← rd s 0;
  t ← put_byte cap t c;
  '(t, s) ← copy_while isDigit (Some MAX_DECIMALS) cap t (drop 1 s);
  get_exponent cap true t s.

(** Behind the first digits, of which the first is a 0 or not. *)
Definition get_suffix (cap : nat) (t s : list Z) : result lexeme :=
  c ← rd s 0;
  let zero := match t with 48 :: _ => true | _ => false end in
  if (toupper c =? 88) && zero then
    t ← put_byte cap t c;
    '(t, s) ← copy_while isxdigit (Some MAX_HEX_NO) cap t (drop 1 s);
    finish cap TKN_HEX t s
  else if (toupper c =? 66) && zero then
    t ← put_byte cap t c;
    '(t, s) ← copy_while (λ c, (c =? 48) || (c =? 49)) (Some MAX_BIN_NO) cap t (drop 1 s);
    finish cap TKN_BINARY t s
  else if c =? lc_decimal_point then get_decimals cap t s
  else if negb (toupper c =? 69) then
    '(t, s) ← (if c =? 76 then t ← put_byte cap t c; Ok (t, drop 1 s) else Ok (t, s));
    finish_len cap TKN_DECIMAL t s
  else get_exponent cap false t s.

Definition get_number (cap : nat) (t s : list Z) : result lexeme :=
  c ← rd s 0;
  octal ← (if c =? 48 then c1 ← rd s 1; Ok (isDigit c1) else Ok false);
  if octal : bool then
    t ← put_byte cap t c;
    '(t, s) ← copy_while (λ c, (c <? 56) && (48 <=? c) && negb (c =? 0)) None cap t (drop 1 s);
    finish cap TKN_OCTAL t s
  else
    '(t, s) ← copy_while isDigit (Some MAX_DIGITS) cap t s;
    get_suffix cap t s.

(** *** Strings *)

Fixpoint put_all (cap : nat) (t l : list Z) : result (list Z) :=
  match l with [] => Ok t | c :: l => t ← put_byte cap t c; put_all cap t l end.

(** The next [n] characters satisfy [p]; the first that does not ends the test. *)
Fixpoint next_are (p : Z → bool) (n : nat) (s : list Z) : result bool :=
  match n with
  | O => Ok true
  | S n => c ← rd s 0; if p c then next_are p n (drop 1 s) else Ok false
  end.

(** The switch behind a backslash; the stream is at the character behind it, and [None] is the
    jump to the error. *)
Definition get_escape (cap : nat) (t s : list Z) : result (option (list Z * list Z)) :=
  c ← rd s 0;
  let simple (x : Z) := t ← put_byte cap t x; Ok (Some (t, drop 1 s)) in
  let unicode (_ : unit) :=
    four ← next_are isxdigit 4 (drop 1 s);
    if four : bool then
      t ← put_all cap t (wchar_utf8 (strtol_exact 16 (48 :: 120 :: take 4 (drop 1 s))));
      Ok (Some (t, drop 5 s))
    else simple c in
  if c =? 0 then Ok None
  else if c =? 110 then simple 10
  else if c =? c_backslash then simple c_backslash
  else if c =? 98 then simple 8
  else if c =? 102 then simple 12
  else if c =? 114 then simple 13
  else if c =? 116 then simple 9
  else if c =? c_dquote then simple c_dquote
  else if c =? 120 then
    two ← next_are isxdigit 2 (drop 1 s);
    if two : bool then
      t ← put_byte cap t (uint8 (strtol_exact 16 (48 :: take 2 (drop 1 s))));
      Ok (Some (t, drop 3 s))
    else unicode tt
  else if c =? 117 then unicode tt
  else simple c.

(** The string behind its opening quote, up to the closing one. *)
Fixpoint get_string (fuel : nat) (cap : nat) (t s : list Z) : result lexeme :=
  match fuel with
  | O => NoFuel
  | S fuel =>
      c ← rd s 0;
      if negb (c =? c_dquote) && negb (c =? 0) && bool_decide (length t < MAX_STRING)%nat then
        if c =? c_backslash then
          three ← next_are isDigit 3 (drop 1 s);
          if three : bool then
            t ← put_byte cap t (uint8 (strtol_exact 10 (take 3 (drop 1 s))));
            get_string fuel cap t (drop 4 s)
          else
            e ← get_escape cap t (drop 1 s);
            match e with
            | Some (t, s) => get_string fuel cap t s
            | None => ends cap t () ≫= λ _, Fail ERR_STRING_TOO_LONG
            end
        else t ← put_byte cap t c; get_string fuel cap t (drop 1 s)
      else if c =? c_dquote then finish_len cap TKN_STRING t (drop 1 s)
      else ends cap t () ≫= λ _, Fail ERR_STRING_TOO_LONG
  end.

(** The string behind its opening brace. *)
Fixpoint get_braces (bracketBalance : Z) (cap : nat) (t s : list Z) : result lexeme :=
  match s with
  | [] => UB
  | c :: s' =>
      if negb (c =? 0) && bool_decide (length t < MAX_STRING)%nat then
        let bracketBalance := if c =? c_lbrace then bracketBalance + 1 else bracketBalance in
        let bracketBalance := if c =? c_rbrace then bracketBalance - 1 else bracketBalance in
        if bracketBalance =? 0 then finish_len cap TKN_STRING t s'
        else t ← put_byte cap t c; get_braces bracketBalance cap t s'
      else if c =? c_rbrace then finish_len cap TKN_STRING t s'
      else ends cap t () ≫= λ _, Fail ERR_STRING_TOO_LONG
  end.

(** *** Everything else *)

(** The switch on the character [chr], which has been taken from the stream. *)
Definition get_other (chr : Z) (cap : nat) (t s : list Z) : result lexeme :=
  if chr =? c_dquote then get_string (S (length s)) cap (removelast t) s
  else if chr =? c_quote then finish cap TKN_QUOTE t s
  else if chr =? c_left then finish cap TKN_LEFT_PAR t s
  else if chr =? c_right then finish cap TKN_RIGHT_PAR t s
  else if chr =? c_lbrace then get_braces 1 cap (removelast t) s
  else if (chr =? c_comma) || (chr =? c_colon) then finish_len cap TKN_SYMBOL t s
  else if chr =? c_open then
    '(t, s) ← copy_while (λ c, negb (c =? 0) && negb (c =? c_close)) (Some MAX_SYMBOL) cap t s;
    c ← rd s 0;
    if c =? 0 then Ok (Lexeme TKN_ERROR t None s)
    else t ← put_byte cap t c_close; finish_len cap TKN_SYMBOL t (drop 1 s)
  else
    '(t, s) ← copy_while (λ c, negb (ends_symbol c)) (Some MAX_SYMBOL) cap t s;
    c ← rd s 0;
    if c =? c_colon then finish_len cap TKN_CONTEXT t (drop 1 s) else finish_len cap TKN_SYMBOL t s.

Definition getToken (cap : nat) (s : list Z) : result lexeme :=
  '(more, s) ← strip (S (length s)) s;
  if more : bool then
    '(t, s) ← get_sign cap s;
    c ← rd s 0;
    number ← (if isDigit c then Ok true
              else if c =? lc_decimal_point then c1 ← rd s 1; Ok (isDigit c1) else Ok false);
    if number : bool then get_number cap t s
    else t ← put_byte cap t c; get_other c cap t (drop 1 s)
  else Ok (Lexeme TKN_EMPTY [] None s).

(** [isLegalSymbol]; its token buffer has one byte more than [MAX_SYMBOL]. *)
Definition isLegalSymbol (source : list Z) : result bool :=
  c ← rd source 0;
  if (c =? c_dquote) || (c =? c_lbrace) || (c <=? 32) || (c =? c_semicolon) || (c =? c_hash) then Ok false
  else
    lx ← getToken (MAX_SYMBOL + 1) source;
    match lx_kind lx with
    | TKN_SYMBOL => Ok (bool_decide (lx_len lx = Some (length source - 1)%nat))
    | _ => Ok false
    end.

End Lexer.

Lemma put_byte_ok cap t c : (length t < cap)%nat → put_byte cap t c = Ok (t ++ [c]).
Proof. intros H. unfold put_byte. by rewrite decide_True. Qed.
