(* ===== verification/Tokens.v ===== *)
(** * Where getToken reads and writes (src/newlisp.c)

    On a stream that ends with a 0 byte [getToken] always returns, with a shorter
    stream unless it is empty or in error, and leaves its two buffers only in two
    cases, both of which occur: an octal number is copied without a limit, and the
    character two behind the [e] of a number is read without a look at the one
    between. *)

From stdpp Require Import base list numbers tactics.
From Stdlib Require Import ZArith Lia.
From S2P Require Import Prelude Utf8 Arith Token.

#[global] Open Scope Z_scope.

(** ** Outcomes *)

(** [r] returns a value in [Q], or raises an error; [bad] is what its leaving a buffer shows. *)
Definition yields {A} (bad : Prop) (Q : A → Prop) (r : result A) : Prop :=
  match r with Ok v => Q v | Fail _ => True | UB => bad | NoFuel => False end.

Lemma yields_bind {A B} bad (P : A → Prop) (Q : B → Prop) (r : result A) (f : A → result B) :
  yields bad P r → (∀ v, P v → yields bad Q (f v)) → yields bad Q (r ≫= f).
Proof. destruct r; cbn; auto. Qed.

Lemma yields_bind_eq {A B} bad (P : A → Prop) (Q : B → Prop) (r : result A) (f : A → result B) :
  yields bad P r → (∀ v, r = Ok v → P v → yields bad Q (f v)) → yields bad Q (r ≫= f).
Proof. destruct r; cbn; auto. Qed.

Lemma yields_mono {A} bad (P Q : A → Prop) (r : result A) : yields bad P r → (∀ v, P v → Q v) → yields bad Q r.
Proof. destruct r; cbn; auto. Qed.

(** ** Streams *)

(** Only the last byte is 0. *)
Definition terminated (s : list Z) : Prop := ∃ b, s = b ++ [0] ∧ 0 ∉ b.

Lemma terminated_cons c s : terminated (c :: s) → c = 0 ∧ s = [] ∨ c ≠ 0 ∧ terminated s.
Proof.
  intros (b & E & Hb). destruct b as [|x b]; injection E as -> ->; [by left|right].
  apply not_elem_of_cons in Hb as [H1 H2]. split; [congruence|]. by exists b.
Qed.

Lemma terminated_ne s : terminated s → s ≠ [].
Proof. intros (b & -> & _). by destruct b. Qed.

(** [s'] is what is left of [s]. *)
Definition remains (s s' : list Z) : Prop := terminated s' ∧ ∃ l, s = l ++ s'.

Lemma left_of_refl s : terminated s → remains s s.
Proof. intros H. split; [done|by exists []]. Qed.

Lemma left_of_trans s s' s'' : remains s s' → remains s' s'' → remains s s''.
Proof. intros [_ [l ->]] [H [l' ->]]. split; [done|]. exists (l ++ l'). by rewrite app_assoc. Qed.

Lemma left_of_tail c s : c ≠ 0 → terminated (c :: s) → remains (c :: s) s.
Proof. intros Hc [[-> ->]|[_ H]]%terminated_cons; [done|]. split; [done|by exists [c]]. Qed.

Lemma left_of_length s s' : remains s s' → (length s' ≤ length s)%nat.
Proof. intros [_ [l ->]]. rewrite length_app. lia. Qed.

Lemma yields_safe {A} bad (Q : A → Prop) (r : result A) : yields False Q r → yields bad Q r.
Proof. by destruct r. Qed.

Lemma terminated_case s : terminated s → s = [0] ∨ ∃ c s', s = c :: s' ∧ c ≠ 0 ∧ terminated s'.
Proof.
  intros H. destruct s as [|c s]; [by apply terminated_ne in H|]. destruct (terminated_cons _ _ H) as [[-> ->]|[Hc Hs]]; [by left|].
  right. by exists c, s.
Qed.

Lemma length_snoc {A} (t : list A) c : length (t ++ [c]) = S (length t).
Proof. rewrite length_app. cbn. lia. Qed.

(** What a part of the lexer leaves: the token and the stream. *)
Definition part (n : nat) (s : list Z) (r : list Z * list Z) : Prop := remains s r.2 ∧ (length r.1 ≤ n)%nat.

Lemma copy_while_safe p n cap s : terminated s → p 0 = false → (n < cap)%nat → ∀ t m, (length t ≤ m)%nat → (n ≤ m)%nat →
  yields False (part m s) (copy_while p (Some n) cap t s).
Proof.
  intros Hs Hp Hn. induction s as [|c s IH]; intros t m Ht Hm; [by apply terminated_ne in Hs|]. cbn [copy_while].
  destruct (terminated_cons _ _ Hs) as [[-> ->]|[Hc Hs']].
  { rewrite Hp. cbn. split; [by apply left_of_refl|done]. }
  destruct (p c && bool_decide (length t < n)%nat) eqn:E; [|split; [by apply left_of_refl|done]].
  apply andb_true_iff in E as [_ E]. apply bool_decide_eq_true in E. rewrite put_byte_ok by lia. cbn [mbind result_bind].
  eapply yields_mono; [apply (IH Hs' _ m); [rewrite length_snoc; lia|done]|].
  intros r [H1 H2]. split; [|done]. eapply left_of_trans; [by apply left_of_tail|done].
Qed.

Lemma copy_while_content p limit cap s : ∀ t t' s', copy_while p limit cap t s = Ok (t', s') →
  ∃ l, t' = t ++ l ∧ Forall (λ c, p c = true) l.
Proof.
  induction s as [|c s IH]; intros t t' s' H; [done|]. cbn [copy_while] in H. destruct (p c) eqn:Hp; cbn [andb] in H.
  - destruct (match limit with Some n => _ | None => true end).
    + unfold put_byte in H. case_decide; [|done]. cbn [mbind result_bind] in H. apply IH in H as (l & -> & Hl).
      exists (c :: l). rewrite <- app_assoc. split; [done|by constructor].
    + injection H as <- _. exists []. by rewrite app_nil_r.
  - injection H as <- _. exists []. by rewrite app_nil_r.
Qed.

(** The loop over octal digits has no limit. *)
Lemma copy_octal_safe p cap s : terminated s → p 0 = false → ∀ t, (length t < cap)%nat →
  yields (∃ o r, s = o ++ r ∧ (∀ c, c ∈ o → p c = true) ∧ (cap ≤ length o + length t)%nat)
    (λ r, remains s r.2 ∧ ∃ o, s = o ++ r.2 ∧ r.1 = t ++ o ∧ ∀ c, c ∈ o → p c = true) (copy_while p None cap t s).
Proof.
  intros Hs Hp. induction s as [|c s IH]; intros t Ht; [by apply terminated_ne in Hs|]. cbn [copy_while].
  destruct (terminated_cons _ _ Hs) as [[-> ->]|[Hc Hs']].
  { rewrite Hp. cbn. split; [by apply left_of_refl|]. exists []. rewrite app_nil_r. split; [done|]. split; [done|].
    by intros c ?%elem_of_nil. }
  destruct (p c) eqn:E; cbn [andb].
  2: { split; [by apply left_of_refl|]. exists []. rewrite app_nil_r. split; [done|]. split; [done|]. by intros x ?%elem_of_nil. }
  rewrite put_byte_ok by done. cbn [mbind result_bind]. destruct (decide (S (length t) < cap)%nat) as [Hlt|Hge].
  - specialize (IH Hs' (t ++ [c])). rewrite length_snoc in IH. specialize (IH Hlt).
    destruct (copy_while p None cap (t ++ [c]) s) as [[t' s']|e| |]; cbn in *; [|done| |done].
    + destruct IH as [H1 (o & -> & -> & Ho)]. split; [eapply left_of_trans; [by apply left_of_tail|done]|].
      exists (c :: o). split; [done|]. split; [by rewrite <- app_assoc|]. by intros x [->|Hx]%elem_of_cons; auto.
    + destruct IH as (o & r & -> & Ho & Hl). exists (c :: o), r. split; [done|]. split; [by intros x [->|Hx]%elem_of_cons; auto|].
      cbn. lia.
  - assert (Hfull : ∃ o r, c :: s = o ++ r ∧ (∀ c, c ∈ o → p c = true) ∧ (cap ≤ length o + length t)%nat).
    { exists [c], s. split; [done|]. split; [by intros x ->%list_elem_of_singleton|cbn; lia]. }
    destruct s as [|d s]; [done|]. cbn [copy_while]. destruct (p d) eqn:Ed; cbn [andb].
    + unfold put_byte. rewrite decide_False by (rewrite length_snoc; lia). done.
    + split; [by apply left_of_tail|]. exists [c]. split; [done|]. split; [done|]. by intros x ->%list_elem_of_singleton.
Qed.

(** ** White space and comments *)

Lemma skip_white_safe s : terminated s → yields False (λ s', remains s s' ∧ ∃ c r, s' = c :: r ∧ (32 < c ∨ c ≤ 0)) (skip_white s).
Proof.
  intros Hs. induction s as [|c s IH]; [by apply terminated_ne in Hs|]. cbn [skip_white].
  destruct (terminated_cons _ _ Hs) as [[-> ->]|[Hc Hs']].
  { cbn. split; [by apply left_of_refl|]. exists 0, []. by split; [|right]. }
  rewrite (proj2 (Z.eqb_neq c 0)) by done. rewrite andb_true_r. destruct (Z.leb_spec c 32).
  - eapply yields_mono; [by apply IH|]. intros s' [H1 H2]. split; [|done]. eapply left_of_trans; [by apply left_of_tail|done].
  - split; [by apply left_of_refl|]. exists c, s. split; [done|]. by left.
Qed.

Lemma skip_comment_safe s : terminated s → yields False (λ r, remains s r.2) (skip_comment s).
Proof.
  intros Hs. induction s as [|c s IH]; [by apply terminated_ne in Hs|]. cbn [skip_comment].
  destruct (terminated_cons _ _ Hs) as [[-> ->]|[Hc Hs']]; [by apply left_of_refl|].
  rewrite (proj2 (Z.eqb_neq c 0)) by done. destruct ((c =? 10) || (c =? 13)); [by apply left_of_tail|].
  eapply yields_mono; [by apply IH|]. intros r H. eapply left_of_trans; [by apply left_of_tail|done].
Qed.

Lemma strip_safe fuel : ∀ s, terminated s → (length s < fuel)%nat →
  yields False (λ r, remains s r.2 ∧ (r.1 = true → ∃ c s', r.2 = c :: s' ∧ c ≠ 0)) (strip fuel s).
Proof.
  induction fuel as [|fuel IH]; intros s Hs Hf; [lia|]. cbn [strip].
  eapply yields_bind; [by apply skip_white_safe|]. intros s1 [H1 (c & r & -> & _)]. cbn [rd lookup list_lookup mbind result_bind].
  destruct H1 as [Ht [l ->]]. destruct (terminated_cons _ _ Ht) as [[-> ->]|[Hc Hs']].
  { split; [split; [done|by exists l]|done]. }
  assert (Hl : remains (l ++ c :: r) (c :: r)) by (split; [done|by exists l]).
  rewrite (proj2 (Z.eqb_neq c 0)) by done. destruct ((c =? c_semicolon) || (c =? c_hash)).
  - eapply yields_bind; [by apply skip_comment_safe|]. intros [more s2] H2. cbn in H2.
    assert (Hl2 : remains (l ++ c :: r) s2).
    { eapply left_of_trans; [done|]. eapply left_of_trans; [by apply left_of_tail|done]. }
    destruct more; [|by split].
    eapply yields_mono; [apply IH; [by destruct H2|]|].
    + apply left_of_length in H2. rewrite drop_0 in H2. rewrite length_app in Hf. cbn in Hf. lia.
    + intros r' [H3 H4]. split; [by eapply left_of_trans|done].
  - split; [done|]. intros _. by exists c, r.
Qed.

(** ** Numbers *)

(** An octal number that does not fit the token buffer, and a number that ends in [e] at the end. *)
Definition octal (c : Z) : Prop := 48 ≤ c ≤ 55.
Definition long_octal (cap : nat) (s : list Z) : Prop :=
  ∃ a o r, s = a ++ o ++ r ∧ Forall octal o ∧ (cap ≤ S (length o))%nat.
Definition cut_exponent (s : list Z) : Prop := ∃ a e, s = a ++ [e; 0] ∧ toupper e = 69.
Definition overrun (cap : nat) (s : list Z) : Prop := long_octal cap s ∨ cut_exponent s.

Lemma overrun_left cap s s' : remains s s' → overrun cap s' → overrun cap s.
Proof.
  intros [_ [l ->]] [(a & o & r & -> & H)|(a & e & -> & H)]; [left|right].
  - exists (l ++ a), o, r. by rewrite <- app_assoc.
  - exists (l ++ a), e. by rewrite <- app_assoc.
Qed.

Lemma overrun_cons cap c s : overrun cap s → overrun cap (c :: s).
Proof. intros [(a & o & r & -> & H)|(a & e & -> & H)]; [left; by exists (c :: a), o, r|right; by exists (c :: a), e]. Qed.

(** A sign, or none, and digits. *)
Definition numeral (t : list Z) : Prop :=
  ∃ st ds, t = st ++ ds ∧ (st = [] ∨ st = [c_plus] ∨ st = [c_minus]) ∧ Forall (λ c, isDigit c = true) ds ∧ ds ≠ [].

(** What the reader relies on. *)
Definition token_shape (lx : lexeme) : Prop :=
  match lx_kind lx with
  | TKN_DECIMAL => lx_len lx = Some (length (lx_text lx)) ∧ ∃ t, numeral t ∧ (lx_text lx = t ∨ lx_text lx = t ++ [76])
  | TKN_SYMBOL | TKN_CONTEXT => lx_text lx ≠ []
  | _ => True
  end.

Definition token_of (s : list Z) (lx : lexeme) : Prop := remains s (lx_rest lx) ∧ token_shape lx.

Lemma finish_safe cap k t s s0 : remains s0 s → (length t < cap)%nat → token_shape (Lexeme k t None s) →
  yields False (token_of s0) (finish cap k t s).
Proof. intros H1 H2 H3. unfold finish, ends. by rewrite decide_True. Qed.

Lemma finish_len_safe cap k t s s0 : remains s0 s → (length t < cap)%nat → token_shape (Lexeme k t (Some (length t)) s) →
  yields False (token_of s0) (finish_len cap k t s).
Proof. intros H1 H2 H3. unfold finish_len, ends. by rewrite decide_True. Qed.

Lemma numeral_shaped t s : numeral t → token_shape (Lexeme TKN_DECIMAL t (Some (length t)) s).
Proof. intros H. split; [done|]. exists t. split; [done|by left]. Qed.

Lemma numeral_shaped_L t s : numeral t → token_shape (Lexeme TKN_DECIMAL (t ++ [76]) (Some (length (t ++ [76]))) s).
Proof. intros H. split; [done|]. exists t. split; [done|by right]. Qed.

Lemma string_shaped t s n : token_shape (Lexeme TKN_STRING t n s).
Proof. done. Qed.

Lemma symbol_shaped k t s n : k = TKN_SYMBOL ∨ k = TKN_CONTEXT → t ≠ [] → token_shape (Lexeme k t n s).
Proof. by intros [->| ->]. Qed.

Lemma isDigit_not0 c : isDigit c = true → c ≠ 0.
Proof. intros H ->. done. Qed.

Lemma copy_then k p n cap t s m s0 : (∀ t s, token_shape (Lexeme k t None s)) → remains s0 s → p 0 = false → (n < cap)%nat → (length t ≤ m)%nat → (n ≤ m < cap)%nat →
  yields False (token_of s0) ('(t, s) ← copy_while p (Some n) cap t s; finish cap k t s).
Proof.
  intros Hk Hs Hp Hn Ht Hm. eapply yields_bind; [apply copy_while_safe; [by destruct Hs|done|done|done|lia]|].
  intros [t' s'] [H1 H2]. cbn in *. apply finish_safe; [by eapply left_of_trans|lia|done].
Qed.

(** ** Runs of characters *)

Lemma next_are_safe p n s : p 0 = false → ∀ s', terminated s → s' = s →
  ∃ b, next_are p n s' = Ok b ∧ (b = true → ∀ k, (k ≤ n)%nat → remains s (drop k s)).
Proof.
  intros Hp. revert s. induction n as [|n IH]; intros s s' Hs ->.
  { exists true. split; [done|]. intros _ k Hk. replace k with 0%nat by lia. rewrite drop_0. by apply left_of_refl. }
  cbn [next_are]. destruct (terminated_case s Hs) as [->|(c & s1 & -> & Hc & Hs1)]; cbn [rd lookup list_lookup mbind result_bind].
  - rewrite Hp. by exists false.
  - destruct (p c); [|by exists false]. cbn [drop]. rewrite drop_0. destruct (IH s1 s1 Hs1 eq_refl) as (b & -> & Hb). exists b.
    split; [done|]. intros Ht [|k] Hk; [by apply left_of_refl|]. cbn [drop]. eapply left_of_trans; [by apply left_of_tail|].
    apply Hb; [done|lia].
Qed.

Lemma put_all_ok cap l : ∀ t, (length t + length l ≤ cap)%nat → put_all cap t l = Ok (t ++ l).
Proof.
  induction l as [|c l IH]; intros t Hl; cbn [put_all]; [by rewrite app_nil_r|]. cbn in Hl.
  rewrite put_byte_ok by lia. cbn [mbind result_bind]. rewrite IH by (rewrite length_snoc; lia). by rewrite <- app_assoc.
Qed.

Lemma digit_value_nonneg c : 0 ≤ digit_value c.
Proof. unfold digit_value. destruct (isDigit c) eqn:E; [unfold isDigit in E; lia|]. case_match; lia. Qed.

Lemma digits_value_bound t : ∀ acc, 0 ≤ acc → 0 ≤ digits_value 16 t acc < 16 ^ Z.of_nat (length t) * (acc + 1).
Proof.
  induction t as [|c t IH]; intros acc Ha; [cbn; lia|]. cbn [digits_value length]. pose proof (digit_value_nonneg c).
  rewrite Nat2Z.inj_succ, Z.pow_succ_r by lia. destruct (Z.ltb_spec (digit_value c) 16).
  - specialize (IH (16 * acc + digit_value c)). nia.
  - pose proof (Z.pow_pos_nonneg 16 (Z.of_nat (length t))). nia.
Qed.

(** Four hexadecimal digits make a character of at most three bytes. *)
Lemma four_digits l : length l = 4%nat → Forall (λ c, isxdigit c = true) l → 0 ≤ strtol_exact 16 (48 :: 120 :: l) < 65536.
Proof.
  intros Hl Hd. destruct l as [|d l]; [done|]. apply List.Forall_inv in Hd.
  unfold strtol_exact. cbn [signed magnitude]. rewrite Hd. cbn [toupper Z.leb Z.sub Z.eqb andb orb Z.compare].
  pose proof (digits_value_bound (d :: l) 0) as H. rewrite Hl in H. apply H. lia.
Qed.

Lemma length_wchar_tail j : ∀ v acc, length (wchar_tail j v acc).2 = (j + length acc)%nat.
Proof. induction j as [|j IH]; intros v acc; [done|]. cbn [wchar_tail]. rewrite IH. cbn. lia. Qed.

Lemma wchar_length v : 0 ≤ v < 65536 → (length (wchar_utf8 v) ≤ 3)%nat.
Proof.
  intros Hv. unfold wchar_utf8. cbv zeta. pose proof (length_wchar_tail (utf8_class utf8_table1 v) v []) as H.
  destruct (wchar_tail _ v []) as [c tail]. cbn [snd length] in H. cbn [length].
  assert (utf8_class utf8_table1 v ≤ 2)%nat; [|lia]. unfold utf8_table1. cbn [utf8_class]. repeat case_match; lia.
Qed.

Lemma next_are_all p n : ∀ s, next_are p n s = Ok true → Forall (λ c, p c = true) (take n s) ∧ length (take n s) = n.
Proof.
  induction n as [|n IH]; intros s H; [by split; [constructor|]|]. cbn [next_are] in H. destruct s as [|c s]; [done|].
  cbn [rd lookup list_lookup mbind result_bind] in H. destruct (p c) eqn:E; [|done]. cbn [drop] in H. rewrite drop_0 in H.
  destruct (IH s H) as [H1 H2]. cbn [take length]. split; [by constructor|by rewrite H2].
Qed.

Section Safe.
Variable lc_decimal_point : Z.
Hypothesis lc_not0 : lc_decimal_point ≠ 0.
Variable cap : nat.
Hypothesis cap_ok : (MAX_STRING + 4 ≤ cap)%nat.

Lemma get_exponent_digits_safe flag t c c1 s s0 : remains s0 (c :: c1 :: s) → c ≠ 0 → (length t ≤ MAX_DIGITS + 2)%nat →
  isDigit c1 = true ∨ flag = true ∨ numeral t →
  yields False (token_of s0) (get_exponent_digits cap flag t (c :: c1 :: s)).
Proof.
  intros Hl Hc Ht Hflag. unfold get_exponent_digits. unfold MAX_STRING, MAX_DIGITS in *. cbn [rd lookup list_lookup mbind result_bind].
  destruct (isDigit c1).
  - rewrite put_byte_ok by lia. cbn [mbind result_bind drop]. destruct Hl as [Ht' [l ->]].
    eapply (copy_then _ _ _ _ _ _ 1023); [done| |done|unfold MAX_SYMBOL; lia|rewrite length_snoc; unfold MAX_SYMBOL; lia|unfold MAX_SYMBOL; lia].
    eapply left_of_trans; [by split; [|by exists l]|by apply left_of_tail].
  - destruct flag; [apply finish_safe; [done|lia|done]|]. destruct Hflag as [|[|Hn]]; [done..|].
    apply finish_len_safe; [done|lia|by apply numeral_shaped].
Qed.

Lemma get_exponent_safe flag t s : terminated s → (length t ≤ MAX_DIGITS + 1)%nat → flag = true ∨ numeral t →
  yields (overrun cap s) (token_of s) (get_exponent cap flag t s).
Proof.
  intros Hs Ht Hflag. unfold get_exponent. pose proof (left_of_refl s Hs) as Hl.
  destruct (terminated_case s Hs) as [->|(c & s1 & -> & Hc & Hs1)]; cbn [rd lookup list_lookup mbind result_bind].
  { apply yields_safe, finish_safe; [done|unfold MAX_STRING, MAX_DIGITS in *; lia|done]. }
  destruct (Z.eqb_spec (toupper c) 69) as [E|_].
  2: { apply yields_safe, finish_safe; [done|unfold MAX_STRING, MAX_DIGITS in *; lia|done]. }
  destruct (terminated_case s1 Hs1) as [->|(c1 & s2 & -> & Hc1 & Hs2)].
  { cbn. right. by exists [], c. }
  destruct s2 as [|c2 s3]; [by apply terminated_ne in Hs2|]. cbn [rd lookup list_lookup mbind result_bind].
  assert (Hplain : yields (overrun cap (c :: c1 :: c2 :: s3)) (token_of (c :: c1 :: c2 :: s3))
    (get_exponent_digits cap flag t (c :: c1 :: c2 :: s3))) by (apply yields_safe, get_exponent_digits_safe; [done|done|lia|by right]).
  destruct (isDigit c2) eqn:D; [|exact Hplain]. destruct ((c1 =? c_minus) || (c1 =? c_plus)); [|exact Hplain].
  rewrite put_byte_ok by (unfold MAX_STRING, MAX_DIGITS in *; lia). cbn [mbind result_bind drop].
  apply yields_safe, get_exponent_digits_safe; [by apply left_of_tail|done|rewrite length_snoc; lia|by left].
Qed.

Lemma toupper_digit c : isDigit c = true → toupper c = c.
Proof. unfold isDigit, toupper. intros H. destruct (Z.leb_spec 97 c); [lia|done]. Qed.

Lemma yields_left {A} s s' (Q : A → Prop) (r : result A) : remains s s' → yields (overrun cap s') Q r → yields (overrun cap s) Q r.
Proof. intros H. destruct r; cbn; try done. by apply overrun_left. Qed.

Lemma token_left s s' lx : remains s s' → token_of s' lx → token_of s lx.
Proof. intros H [H1 H2]. split; [by eapply left_of_trans|done]. Qed.

Lemma get_decimals_safe t c s : terminated (c :: s) → c ≠ 0 → (length t ≤ MAX_DIGITS)%nat →
  yields (overrun cap s) (token_of s) (get_decimals cap t (c :: s)).
Proof.
  intros Hs Hc Ht. unfold get_decimals. cbn [rd lookup list_lookup mbind result_bind drop].
  unfold MAX_STRING, MAX_DIGITS in *. rewrite put_byte_ok by lia. cbn [mbind result_bind].
  pose proof (left_of_tail _ _ Hc Hs) as [Hs1 _].
  eapply yields_bind.
  { eapply yields_safe, (copy_while_safe _ _ _ _ Hs1 eq_refl) with (m := 1002%nat);
      [unfold MAX_DECIMALS, MAX_DIGITS; lia|rewrite length_snoc; lia|unfold MAX_DECIMALS, MAX_DIGITS; lia]. }
  intros [t' s'] [H1 H2]. cbn in H1, H2.
  eapply yields_left; [exact H1|]. eapply yields_mono; [apply get_exponent_safe; [by destruct H1|unfold MAX_DIGITS; lia|by left]|].
  intros lx. by apply token_left.
Qed.

(** Behind the digits [t] of a number, or at its point. *)
Lemma get_suffix_safe t s : terminated s → (length t ≤ MAX_DIGITS)%nat → numeral t →
  yields (overrun cap s) (token_of s) (get_suffix lc_decimal_point cap t s).
Proof.
  intros Hs Ht Hnum. unfold get_suffix. pose proof (left_of_refl s Hs) as Hl.
  assert (Hend : ∀ t s', (length t ≤ MAX_DIGITS + 1)%nat → remains s s' → token_shape (Lexeme TKN_DECIMAL t (Some (length t)) s') →
    yields (overrun cap s) (token_of s) (finish_len cap TKN_DECIMAL t s')).
  { intros t' s' Ht' Hs' Hsh. apply yields_safe, finish_len_safe; [done|unfold MAX_STRING, MAX_DIGITS in *; lia|done]. }
  destruct (terminated_case s Hs) as [->|(c & s1 & -> & Hc & Hs1)]; cbn [rd lookup list_lookup mbind result_bind drop].
  { rewrite (proj2 (Z.eqb_neq 0 lc_decimal_point)) by done. refine (Hend t [0] _ _ _); [lia|done|by apply numeral_shaped]. }
  pose proof (left_of_tail _ _ Hc Hs) as Hl1.
  assert (Hput : ∀ k p n, (∀ t s, token_shape (Lexeme k t None s)) → p 0 = false → (n = MAX_DIGITS) → yields (overrun cap (c :: s1)) (token_of (c :: s1))
    (t ← put_byte cap t c; '(t, s) ← copy_while p (Some n) cap t s1; finish cap k t s)).
  { intros k p n Hk Hp ->. unfold MAX_STRING, MAX_DIGITS in *. rewrite put_byte_ok by lia. cbn [mbind result_bind].
    apply yields_safe. eapply (copy_then _ _ _ _ _ _ 1002); [done|done|done|lia|rewrite length_snoc; lia|lia]. }
  destruct (toupper c =? 88), (match t with 48 :: _ => true | _ => false end), (toupper c =? 66); cbn [andb];
    try (by apply Hput).
  all: destruct (c =? lc_decimal_point);
    [eapply yields_left; [done|]; eapply yields_mono; [by apply get_decimals_safe|]; intros lx; by apply token_left|].
  all: destruct (toupper c =? 69); cbn [negb]; [apply get_exponent_safe; [done|lia|by right]|].
  all: destruct (c =? 76) eqn:EL; [rewrite put_byte_ok by (unfold MAX_STRING, MAX_DIGITS in *; lia)|]; cbn [mbind result_bind].
  all: try (apply Z.eqb_eq in EL as ->).
  all: apply Hend; [rewrite ?length_snoc; lia|done|by apply numeral_shaped_L || apply numeral_shaped].
Qed.

Lemma octal_char c : (c <? 56) && (48 <=? c) && negb (c =? 0) = true → octal c.
Proof. unfold octal. lia. Qed.

Lemma get_octal_safe t s : terminated s → (length t ≤ 1)%nat →
  yields (overrun cap (48 :: s)) (token_of s)
    (t ← put_byte cap t 48;
     '(t, s) ← copy_while (λ c, (c <? 56) && (48 <=? c) && negb (c =? 0)) None cap t s;
     finish cap TKN_OCTAL t s).
Proof.
  intros Hs Ht. unfold MAX_STRING in cap_ok. rewrite put_byte_ok by lia. cbn [mbind result_bind].
  assert (Hbad : ∀ o r, s = o ++ r → (∀ c, c ∈ o → (c <? 56) && (48 <=? c) && negb (c =? 0) = true) →
    (cap ≤ S (S (length o)))%nat → overrun cap (48 :: s)).
  { intros o r -> Ho Hlen. left. exists [], (48 :: o), r. split; [done|]. split; [|cbn; lia]. constructor; [done|].
    apply List.Forall_forall. intros c Hc%list_elem_of_In. by apply octal_char, Ho. }
  pose proof (copy_octal_safe (λ c, (c <? 56) && (48 <=? c) && negb (c =? 0)) cap s Hs eq_refl (t ++ [48])) as H.
  rewrite length_snoc in H. specialize (H ltac:(lia)).
  destruct (copy_while _ None cap (t ++ [48]) s) as [[t' s']|e| |]; cbn in *; [|done| |done].
  - destruct H as (H1 & o & E & -> & Ho). unfold finish, ends. case_decide as Hd; [done|].
    cbn. apply (Hbad o s'); [done|done|]. rewrite length_app, length_snoc in Hd. lia.
  - destruct H as (o & r & -> & Ho & Hlen). apply (Hbad o r); [done|done|lia].
Qed.

Lemma get_number_safe t c s : terminated (c :: s) → isDigit c = true ∨ c = lc_decimal_point →
  (t = [] ∨ t = [c_plus] ∨ t = [c_minus]) →
  yields (overrun cap (c :: s)) (token_of s) (get_number lc_decimal_point cap t (c :: s)).
Proof.
  intros Hs Hc Hsign. assert (Hc0 : c ≠ 0) by (destruct Hc as [Hd| ->]; [by apply isDigit_not0|done]).
  assert (Ht : (length t ≤ 1)%nat) by (destruct Hsign as [->|[->| ->]]; cbn; lia).
  pose proof (left_of_tail _ _ Hc0 Hs) as Hl. pose proof Hl as [Hs1 _].
  unfold get_number. cbn [rd lookup list_lookup mbind result_bind drop].
  assert (Hdec : yields (overrun cap (c :: s)) (token_of s)
    ('(t, s) ← copy_while isDigit (Some MAX_DIGITS) cap t (c :: s); get_suffix lc_decimal_point cap t s)).
  { cbn [copy_while]. unfold MAX_STRING in *. destruct (isDigit c) eqn:Hd; cbn [andb].
    - rewrite bool_decide_eq_true_2 by (unfold MAX_DIGITS; lia). rewrite put_byte_ok by lia. cbn [mbind result_bind].
      eapply yields_bind_eq; [eapply yields_safe, (copy_while_safe _ _ _ _ Hs1 eq_refl) with (m := 1001%nat);
        [unfold MAX_DIGITS; lia|rewrite length_snoc; lia|done]|].
      intros [t' s'] E [H1 H2]. cbn in H1, H2. apply copy_while_content in E as (l & -> & Hl').
      eapply yields_left; [done|]. eapply yields_left; [exact H1|].
      eapply yields_mono; [apply get_suffix_safe; [by destruct H1|done|]|].
      + exists t, (c :: l). rewrite <- app_assoc. split; [done|]. split; [done|]. split; [by constructor|done].
      + intros lx. by apply token_left.
    - destruct Hc as [|Hc]; [done|]. cbn [mbind result_bind]. unfold get_suffix. cbn [rd lookup list_lookup mbind result_bind].
      assert (match t with 48 :: _ => true | _ => false end = false) as -> by (by destruct Hsign as [->|[->| ->]]).
      rewrite !andb_false_r. rewrite (proj2 (Z.eqb_eq _ _) Hc).
      eapply yields_left; [done|]. apply get_decimals_safe; [done|done|unfold MAX_DIGITS; lia]. }
  destruct (Z.eqb_spec c 48) as [->|]; [|exact Hdec].
  destruct s as [|c1 s]; [by apply terminated_ne in Hs1|]. cbn [rd lookup list_lookup mbind result_bind].
  destruct (isDigit c1); [rewrite drop_0; by apply get_octal_safe|exact Hdec].
Qed.

(** ** Strings *)

Definition escaped (s : list Z) (r : option (list Z * list Z)) : Prop :=
  match r with
  | Some (t, s') => remains s s' ∧ (length s' < length s)%nat ∧ (length t ≤ MAX_STRING + 2)%nat
  | None => True
  end.

Lemma drop_left s k : remains s (drop (S k) s) → (length (drop (S k) s) < length s)%nat.
Proof. intros [H _]. rewrite length_drop. apply terminated_ne in H. destruct s; [done|cbn in *; lia]. Qed.

Lemma get_escape_safe t s : terminated s → (length t < MAX_STRING)%nat → yields False (escaped s) (get_escape cap t s).
Proof.
  intros Hs Ht. unfold get_escape. destruct (terminated_case s Hs) as [->|(c & s1 & -> & Hc & Hs1)];
    cbn [rd lookup list_lookup mbind result_bind]; [done|].
  rewrite (proj2 (Z.eqb_neq c 0)) by done. pose proof (left_of_tail _ _ Hc Hs) as Hl. cbn [drop]. rewrite drop_0.
  assert (Hsimple : ∀ x, yields False (escaped (c :: s1)) (t ← put_byte cap t x; Ok (Some (t, s1)))).
  { intros x. unfold MAX_STRING in *. rewrite put_byte_ok by lia. cbn. split; [done|]. split; [lia|]. rewrite length_snoc. unfold MAX_STRING. lia. }
  assert (Huni : yields False (escaped (c :: s1))
    (four ← next_are isxdigit 4 s1;
     if four : bool then t ← put_all cap t (wchar_utf8 (strtol_exact 16 (48 :: 120 :: take 4 s1))); Ok (Some (t, drop 4 s1))
     else t ← put_byte cap t c; Ok (Some (t, s1)))).
  { destruct (next_are_safe isxdigit 4 s1 eq_refl s1 Hs1 eq_refl) as (b & E & Hb). rewrite E. cbn [mbind result_bind].
    destruct b; [|apply Hsimple]. destruct (next_are_all _ _ _ E) as [H1 H2].
    pose proof (wchar_length _ (four_digits _ H2 H1)) as Hw. unfold MAX_STRING in *. rewrite put_all_ok by lia. cbn [mbind result_bind].
    specialize (Hb eq_refl 4%nat ltac:(lia)). split; [by eapply left_of_trans|]. split.
    - apply left_of_length in Hb. cbn [length]. lia.
    - rewrite length_app. unfold MAX_STRING. lia. }
  repeat (match goal with |- yields _ _ (if ?b then _ else _) => destruct b end; try apply Hsimple); try exact Huni.
  destruct (next_are_safe isxdigit 2 s1 eq_refl s1 Hs1 eq_refl) as (b & E & Hb). rewrite E. cbn [mbind result_bind].
  destruct b; [|exact Huni]. unfold MAX_STRING in *. rewrite put_byte_ok by lia. cbn [mbind result_bind].
  specialize (Hb eq_refl 2%nat ltac:(lia)). split; [by eapply left_of_trans|]. split.
  - apply left_of_length in Hb. cbn [length]. lia.
  - rewrite length_snoc. unfold MAX_STRING. lia.
Qed.

Lemma string_error t (e : Z) (Q : lexeme → Prop) : (length t < cap)%nat → yields False Q (ends cap t () ≫= λ _, Fail e).
Proof. intros H. unfold ends. by rewrite decide_True. Qed.

Lemma get_string_safe fuel : ∀ t s, terminated s → (length s < fuel)%nat → (length t ≤ MAX_STRING + 2)%nat →
  yields False (token_of s) (get_string fuel cap t s).
Proof.
  induction fuel as [|fuel IH]; intros t s Hs Hf Ht; [lia|]. cbn [get_string]. unfold MAX_STRING in *.
  destruct (terminated_case s Hs) as [->|(c & s1 & -> & Hc & Hs1)]; cbn [rd lookup list_lookup mbind result_bind].
  { cbn [Z.eqb negb andb]. apply string_error. lia. }
  rewrite (proj2 (Z.eqb_neq c 0)) by done. pose proof (left_of_tail _ _ Hc Hs) as Hl. cbn [negb andb drop]. rewrite drop_0, andb_true_r.
  assert (Hnext : ∀ t' s', remains s1 s' → (length t' ≤ 2050)%nat → yields False (token_of (c :: s1)) (get_string fuel cap t' s')).
  { intros t' s' Hl' Ht'. eapply yields_mono; [apply IH; [by destruct Hl'| |done]|].
    - apply left_of_length in Hl'. cbn in Hf. lia.
    - intros lx Hlx. eapply token_left; [|exact Hlx]. by eapply left_of_trans. }
  destruct (c =? c_dquote) eqn:Eq; cbn [negb andb]; [apply finish_len_safe; [done|lia|done]|].
  destruct (bool_decide (length t < 2048)%nat) eqn:El; [|apply string_error; lia]. apply bool_decide_eq_true in El.
  destruct (c =? c_backslash).
  - destruct (next_are_safe isDigit 3 s1 eq_refl s1 Hs1 eq_refl) as (b & -> & Hb). cbn [mbind result_bind]. destruct b.
    + rewrite put_byte_ok by lia. cbn [mbind result_bind]. apply Hnext; [by apply Hb; [|lia]|rewrite length_snoc; lia].
    + eapply yields_bind; [apply get_escape_safe; [done|unfold MAX_STRING; lia]|]. intros [[t' s']|] He; [|apply string_error; lia].
      destruct He as (H1 & H2 & H3). unfold MAX_STRING in H3. apply Hnext; [done|lia].
  - rewrite put_byte_ok by lia. cbn [mbind result_bind]. apply Hnext; [by apply left_of_refl|rewrite length_snoc; lia].
Qed.

Lemma get_braces_safe s : ∀ n t, terminated s → (length t ≤ MAX_STRING)%nat → yields False (token_of s) (get_braces n cap t s).
Proof.
  unfold MAX_STRING in *. induction s as [|c s IH]; intros n t Hs Ht; [by apply terminated_ne in Hs|]. cbn [get_braces].
  destruct (terminated_cons _ _ Hs) as [[-> ->]|[Hc Hs1]].
  { cbn [Z.eqb negb andb]. apply string_error. lia. }
  pose proof (left_of_tail _ _ Hc Hs) as Hl. rewrite (proj2 (Z.eqb_neq c 0)) by done. cbn [negb andb].
  destruct (bool_decide (length t < MAX_STRING)%nat) eqn:El.
  - apply bool_decide_eq_true in El. unfold MAX_STRING in El. destruct (_ =? 0); [apply finish_len_safe; [done|lia|done]|].
    rewrite put_byte_ok by lia. cbn [mbind result_bind]. eapply yields_mono; [apply IH; [done|rewrite length_snoc; lia]|].
    intros lx. by apply token_left.
  - destruct (c =? c_rbrace); [apply finish_len_safe; [done|lia|done]|apply string_error; lia].
Qed.

(** ** The whole *)

Lemma get_other_safe c t s : terminated s → (length t ≤ 2)%nat → t ≠ [] → yields False (token_of s) (get_other c cap t s).
Proof.
  intros Hs Ht Hne. pose proof (left_of_refl s Hs) as Hl. unfold get_other.
  assert (Hrm : (length (removelast t) ≤ 2)%nat) by (destruct t as [|? [|? [|]]]; cbn in *; lia).
  destruct (c =? c_dquote); [apply get_string_safe; [done|lia|unfold MAX_STRING; lia]|].
  destruct (c =? c_quote); [apply finish_safe; [done|unfold MAX_STRING in *; lia|done]|].
  destruct (c =? c_left); [apply finish_safe; [done|unfold MAX_STRING in *; lia|done]|].
  destruct (c =? c_right); [apply finish_safe; [done|unfold MAX_STRING in *; lia|done]|].
  destruct (c =? c_lbrace); [apply get_braces_safe; [done|unfold MAX_STRING; lia]|].
  destruct ((c =? c_comma) || (c =? c_colon)); [apply finish_len_safe; [done|unfold MAX_STRING in *; lia|done]|].
  destruct (c =? c_open).
  - eapply yields_bind; [apply copy_while_safe with (m := 1023%nat); [done|done| | |]; unfold MAX_STRING, MAX_SYMBOL in *; lia|].
    intros [t' s'] [H1 H2]. cbn in H1, H2. destruct H1 as [Hs' [l ->]].
    assert (Hl' : remains (l ++ s') s') by (split; [done|by exists l]).
    destruct (terminated_case s' Hs') as [->|(d & s1 & -> & Hd & Hs1)]; cbn [rd lookup list_lookup mbind result_bind]; [by split|].
    rewrite (proj2 (Z.eqb_neq d 0)) by done. unfold MAX_STRING in *. rewrite put_byte_ok by lia. cbn [mbind result_bind].
    apply finish_len_safe; [|rewrite length_snoc; lia|by destruct t']. cbn [drop]. rewrite drop_0. eapply left_of_trans; [done|by apply left_of_tail].
  - eapply yields_bind_eq; [apply copy_while_safe with (m := 1023%nat); [done|done| | |]; unfold MAX_STRING, MAX_SYMBOL in *; lia|].
    intros [t' s'] E [H1 H2]. cbn in H1, H2. destruct H1 as [Hs' [l ->]].
    assert (Hne' : t' ≠ []) by (apply copy_while_content in E as (l' & -> & _); by destruct t).
    assert (Hl' : remains (l ++ s') s') by (split; [done|by exists l]).
    destruct (terminated_case s' Hs') as [->|(d & s1 & -> & Hd & Hs1)]; cbn [rd lookup list_lookup mbind result_bind].
    { apply finish_len_safe; [done|unfold MAX_STRING in *; lia|done]. }
    destruct (d =? c_colon); apply finish_len_safe; try (unfold MAX_STRING in *; lia); try done.
    cbn [drop]. rewrite drop_0. eapply left_of_trans; [done|by apply left_of_tail].
Qed.

Lemma get_sign_safe s c s1 : s = c :: s1 → c ≠ 0 → terminated s →
  get_sign lc_decimal_point cap s = Ok ([], s) ∨
  get_sign lc_decimal_point cap s = Ok ([c], s1) ∧ (c = c_minus ∨ c = c_plus) ∧
    ∃ c1 s2, s1 = c1 :: s2 ∧ (isDigit c1 = true ∨ c1 = lc_decimal_point).
Proof.
  intros -> Hc Hs. unfold get_sign. cbn [rd lookup list_lookup mbind result_bind]. unfold MAX_STRING in *.
  destruct ((c =? c_minus) || (c =? c_plus)) eqn:E; [|by left].
  destruct (terminated_cons _ _ Hs) as [[-> ->]|[_ Hs1]]; [done|].
  destruct s1 as [|c1 s2]; [by apply terminated_ne in Hs1|]. cbn [rd lookup list_lookup mbind result_bind].
  destruct (isDigit c1 || (c1 =? lc_decimal_point)) eqn:D; [|by left]. right. rewrite put_byte_ok by (cbn; lia). cbn [mbind result_bind drop].
  rewrite ?drop_0. split; [done|]. split; [lia|]. exists c1, s2. split; [done|]. destruct (isDigit c1); [by left|right; lia].
Qed.

(** What [getToken] leaves of the stream. *)
Definition lexed (s : list Z) (lx : lexeme) : Prop :=
  token_of s lx ∧ (lx_kind lx ≠ TKN_EMPTY → (length (lx_rest lx) < length s)%nat).

Lemma get_rest_safe t c s : terminated (c :: s) → c ≠ 0 → (t = [] ∨ t = [c_plus] ∨ t = [c_minus]) →
  yields (overrun cap (c :: s)) (token_of s)
    (c0 ← rd (c :: s) 0;
     number ← (if isDigit c0 then Ok true
               else if c0 =? lc_decimal_point then c1 ← rd (c :: s) 1; Ok (isDigit c1) else Ok false);
     if number : bool then get_number lc_decimal_point cap t (c :: s)
     else t ← put_byte cap t c0; get_other c0 cap t (drop 1 (c :: s))).
Proof.
  intros Hs Hc Hsign. pose proof (left_of_tail _ _ Hc Hs) as Hl. pose proof Hl as [Hs1 _].
  assert (Ht : (length t ≤ 1)%nat) by (destruct Hsign as [->|[->| ->]]; cbn; lia).
  assert (Hother : yields (overrun cap (c :: s)) (token_of s) (t ← put_byte cap t c; get_other c cap t s)).
  { unfold MAX_STRING in *. rewrite put_byte_ok by lia. cbn [mbind result_bind].
    apply yields_safe, get_other_safe; [done|rewrite length_snoc; lia|by destruct t]. }
  destruct s as [|c1 s2]; [by apply terminated_ne in Hs1|]. cbn [rd lookup list_lookup mbind result_bind drop]. rewrite ?drop_0.
  destruct (isDigit c) eqn:D; cbn [mbind result_bind]; [by apply get_number_safe; [|left|]|].
  destruct (Z.eqb_spec c lc_decimal_point) as [E|]; cbn [mbind result_bind]; [|exact Hother].
  destruct (isDigit c1); [by apply get_number_safe; [|right|]|exact Hother].
Qed.

Lemma getToken_yields s : terminated s → yields (overrun cap s) (lexed s) (getToken lc_decimal_point cap s).
Proof.
  intros Hs. unfold getToken. eapply yields_bind; [apply yields_safe, strip_safe; [done|lia]|].
  intros [more s1] [Hl Hmore]. cbn in Hl, Hmore. destruct more; [|by repeat split; destruct Hl].
  destruct (Hmore eq_refl) as (c & s2 & -> & Hc). clear Hmore. pose proof Hl as [Hs1 _].
  pose proof (left_of_tail _ _ Hc Hs1) as Hl2.
  assert (Hend : ∀ (r : result lexeme) s', remains s s' →
    ∀ s'', remains s' s'' → (length s'' < length s)%nat → yields (overrun cap s') (token_of s'') r →
    yields (overrun cap s) (lexed s) r).
  { intros r s' Hs' s'' Hs'' Hlt Hr. eapply (yields_left _ _ _ _ Hs'). eapply yields_mono; [exact Hr|]. intros lx Htok.
    split; [eapply token_left; [|exact Htok]; by eapply left_of_trans|]. intros _. destruct Htok as [Htok%left_of_length _]. lia. }
  pose proof (left_of_length _ _ Hl) as Hlen. cbn in Hlen.
  destruct (get_sign_safe (c :: s2) c s2 eq_refl Hc Hs1) as [->|(-> & Hsig & c1 & s3 & -> & Hd)]; cbn [mbind result_bind].
  - eapply (Hend _ _ Hl s2); [done|lia|]. by apply get_rest_safe; [| |left].
  - assert (Hc1 : c1 ≠ 0) by (destruct Hd as [Hd| ->]; [by apply isDigit_not0|done]).
    assert (Hl3 : remains s (c1 :: s3)) by by eapply left_of_trans.
    eapply (Hend _ _ Hl3 s3); [apply left_of_tail; [done|by destruct Hl2]|cbn in Hlen; lia|].
    destruct Hl2 as [Hs3 _]. apply get_rest_safe; [done|done|]. destruct Hsig as [->| ->]; [by right; right|by right; left].
Qed.

End Safe.

(** C38: On any text that ends with its only 0 byte [getToken] returns: it answers a token and leaves a
    shorter text (the same only when no token is left), or raises an error.  It leaves the token
    buffer or the text only when the text holds an octal number as long as the buffer, or
    ends in an [e]. *)
Theorem getToken_safe lc_decimal_point cap s : lc_decimal_point ≠ 0 → (MAX_STRING + 4 ≤ cap)%nat → terminated s →
  match getToken lc_decimal_point cap s with
  | Ok lx => terminated (lx_rest lx) ∧ (∃ l, s = l ++ lx_rest lx) ∧
      (lx_kind lx ≠ TKN_EMPTY → (length (lx_rest lx) < length s)%nat)
  | Fail _ => True
  | UB => long_octal cap s ∨ cut_exponent s
  | NoFuel => False
  end.
Proof.
  intros Hlc Hcap Hs. pose proof (getToken_yields lc_decimal_point Hlc cap Hcap s Hs) as H.
  destruct (getToken lc_decimal_point cap s) as [lx|e| |]; [|done..]. destruct H as [[[H1 H2] _] H3]. done.
Qed.

(** [(ab 12)]. *)
Lemma getToken_safe_witness :
  terminated [40; 97; 98; 32; 49; 50; 41; 0] ∧
  match getToken 46 (MAX_STRING + 4) [40; 97; 98; 32; 49; 50; 41; 0] with
  | Ok lx => terminated (lx_rest lx) ∧ (∃ l, [40; 97; 98; 32; 49; 50; 41; 0] = l ++ lx_rest lx) ∧
      (lx_kind lx ≠ TKN_EMPTY → (length (lx_rest lx) < 8)%nat)
  | Fail _ => True
  | UB => long_octal (MAX_STRING + 4) [40; 97; 98; 32; 49; 50; 41; 0] ∨ cut_exponent [40; 97; 98; 32; 49; 50; 41; 0]
  | NoFuel => False
  end.
Proof.
  assert (H : terminated [40; 97; 98; 32; 49; 50; 41; 0]).
  { exists [40; 97; 98; 32; 49; 50; 41]. split; [reflexivity|]. by apply (bool_decide_unpack _); vm_compute. }
  split; [exact H|]. apply (getToken_safe 46 (MAX_STRING + 4) [40; 97; 98; 32; 49; 50; 41; 0]); [lia|lia|exact H].
Defined.

(** Both cases occur, and the token buffer of [isLegalSymbol] is too short for a name in brackets: an
    octal number of 2100 digits overruns the token buffer, [1e] at the end of a text is read behind the
    text, and a name of 1100 characters behind a bracket overruns the buffer of [isLegalSymbol]. *)
Theorem getToken_overruns :
  getToken 46 (MAX_STRING + 4) (replicate 2100 48 ++ [0]) = UB ∧
  getToken 46 (MAX_STRING + 4) [49; 101; 0] = UB ∧
  isLegalSymbol 46 (91 :: replicate 1100 97 ++ [0]) = UB.
Proof. vm_compute. done. Qed.
