(* ===== verification/Bigtext.v ===== *)
(** * Big integers and text (src/nl-math.c, [strToBigint] and [bigintToDigits])

    Digits are read and written in blocks of nine, the first block being what is
    left over. *)

From stdpp Require Import base list numbers tactics.
From Stdlib Require Import ZArith Lia.
From S2P Require Import Prelude Bigint Utf8 Arith Token.
From stdpp Require Import list.

#[global] Open Scope Z_scope.

(** ** From text *)

Fixpoint skip_zeros (fuel : nat) (str : list Z) (ptr len : nat) : result (nat * nat) :=
  match fuel with
  | O => Ok (ptr, len)
  | S fuel =>
      if decide (1 < len)%nat then
        c ← rd str ptr;
        if c =? 48 then skip_zeros fuel str (ptr + 1) (len - 1) else Ok (ptr, len)
      else Ok (ptr, len)
  end.

(** [num[i] = 10 * num[i] + ptr[j] - 48] for [j] below [cut]. *)
Definition read_block (str : list Z) (ptr cut i : nat) (num : list Z) : result (list Z) :=
  for_up 0 cut (λ j num, d ← rd num i; c ← rd str (ptr + j); wr num i (int32 (int32 (int32 (10 * d) + c) - 48))) num.

(** The number and [*intlen].  With no text the byte before it is read. *)
Definition strToBigint (str : list Z) (len : nat) : result (list Z * nat) :=
  c ← (if Nat.eqb len 0 then UB else rd str (len - 1));
  let len := if c =? 76 then (len - 1)%nat else len in
  c ← rd str 0;
  let '(sign, ptr, len) := if (c =? c_minus) || (c =? c_plus) then (if c =? c_minus then -1 else 1, 1%nat, (len - 1)%nat)
                           else (1, 0%nat, len) in
  '(ptr, len) ← skip_zeros len str ptr len;
  let n := (len / 9 + 1)%nat in
  let cut := (len mod 9)%nat in
  let '(n, cut) := if Nat.eqb cut 0 then (n, 9%nat) else (S n, cut) in
  '(num, _, _) ← for_up 1 (n - 1) (λ i '(num, ptr, cut),
    num ← read_block str ptr cut i num; Ok (num, (ptr + cut)%nat, 9%nat)) (sign :: replicate (n - 1) 0, ptr, cut);
  Ok (num, (n - 1)%nat).

(** ** To text *)

(** [while(bigdigit / basediv == 0)]. *)
Fixpoint lead_zeros (fuel : nat) (bigdigit basediv : Z) (cnt : nat) : result (Z * nat) :=
  match fuel with
  | O => NoFuel
  | S fuel =>
      if basediv =? 0 then UB
      else if Z.quot bigdigit basediv =? 0 then lead_zeros fuel bigdigit (Z.quot basediv 10) (S cnt)
      else Ok (basediv, cnt)
  end.

(** The loop over [j]: the bytes written so far to the buffer of [cap] bytes, [bigdigit] and [basediv]. *)
Definition write_digit (cap : nat) (offset : Z) (_ : nat) (st : list Z * Z * Z) : result (list Z * Z * Z) :=
  let '(digits, bigdigit, basediv) := st in
  if basediv =? 0 then UB
  else
    let q := Z.quot bigdigit basediv in
    digits ← put_byte cap digits (uint8 (q + offset));
    Ok (digits, bigdigit - q * basediv, Z.quot basediv 10).

Definition write_block (cap : nat) (offset : Z) (cnt : nat) (bigdigit basediv : Z) (digits : list Z) : result (list Z) :=
  '(digits, _, _) ← for_up 0 cnt (write_digit cap offset) (digits, bigdigit, basediv);
  Ok digits.

Definition write_bigdigit (cap : nat) (offset : Z) (num : list Z) (i : nat) (st : list Z * Z * nat) : result (list Z * Z * nat) :=
  let '(digits, basediv, cnt) := st in
  d ← rd num i;
  digits ← write_block cap offset cnt d basediv digits;
  Ok (digits, Z.quot BIGINT_BASE 10, 9%nat).

(** The string without its 0, and [*slen] where it is set.  [calloc] makes a buffer of [len + 2] bytes; what is
    written beyond it is [UB]. *)
Definition bigintToDigits (num : list Z) (n : nat) (offset : Z) : result (list Z * option nat) :=
  d1 ← rd num 1;
  if Nat.eqb n 1 && (d1 =? 0) then Ok (if offset =? 0 then [49; 0] else [48], None)
  else
    '(basediv, cnt) ← lead_zeros 11 d1 (Z.quot BIGINT_BASE 10) 0;
    let cnt := (9 - cnt)%nat in
    let len := (9 * (n - 1) + cnt)%nat in
    sg ← rd num 0;
    let cap := (len + 2)%nat in
    digits ← (if negb (offset =? 0) then if sg =? -1 then put_byte cap [] c_minus else Ok [] else put_byte cap [] (uint8 sg));
    '(digits, _, _) ← for_up 1 n (write_bigdigit cap offset num) (digits, basediv, cnt);
    Ok (digits, Some len).

(** ** Reading *)

(** The number that a string of digits writes. *)
Definition chars_val (t : list Z) : Z := foldl (λ a c, 10 * a + (c - 48)) 0 t.
Definition digit_char (c : Z) : Prop := isDigit c = true.

Lemma chars_val_acc t : ∀ a, foldl (λ a c, 10 * a + (c - 48)) a t = a * 10 ^ Z.of_nat (length t) + chars_val t.
Proof.
  unfold chars_val. induction t as [|c t IH]; intros a; [cbn; lia|]. cbn [foldl length].
  rewrite (IH (10 * a + _)), (IH (10 * 0 + _)), Nat2Z.inj_succ, Z.pow_succ_r by lia. lia.
Qed.

Lemma chars_val_app a b : chars_val (a ++ b) = chars_val a * 10 ^ Z.of_nat (length b) + chars_val b.
Proof. unfold chars_val at 1. by rewrite foldl_app, chars_val_acc. Qed.

Lemma chars_val_snoc t c : chars_val (t ++ [c]) = 10 * chars_val t + (c - 48).
Proof. rewrite chars_val_app. cbn. lia. Qed.

Lemma chars_val_bound t : Forall digit_char t → 0 ≤ chars_val t < 10 ^ Z.of_nat (length t).
Proof.
  induction t as [|c t IH] using rev_ind; intros H; [cbn; lia|]. apply Forall_app in H as [H [Hc _]%Forall_cons].
  specialize (IH H). rewrite chars_val_snoc, length_app, Nat2Z.inj_add, Z.pow_add_r by lia. cbn.
  unfold digit_char, isDigit in Hc. lia.
Qed.

Lemma chars_val_lead c t : Forall digit_char (c :: t) → c ≠ 48 → 10 ^ Z.of_nat (length t) ≤ chars_val (c :: t).
Proof.
  intros [Hc Ht]%Forall_cons Hn. change (c :: t) with ([c] ++ t). rewrite chars_val_app. cbn.
  pose proof (chars_val_bound t Ht). unfold digit_char, isDigit in Hc. nia.
Qed.

Lemma int32_small z : - 2 ^ 31 ≤ z < 2 ^ 31 → int32 z = z.
Proof. intros H. unfold wrapS. rewrite Z.mod_small; lia. Qed.

Lemma pow10_le a b : (a ≤ b)%nat → 10 ^ Z.of_nat a ≤ 10 ^ Z.of_nat b.
Proof. intros. apply Z.pow_le_mono_r; lia. Qed.

Lemma read_block_ok str ptr cut i num b : (cut ≤ 9)%nat → win str ptr cut = b → length b = cut → Forall digit_char b →
  num !! i = Some 0 → read_block str ptr cut i num = Ok (<[i := chars_val b]> num).
Proof.
  intros Hc Hw Hl Hb Hi. unfold read_block. assert (Hlt : (i < length num)%nat) by (by eapply lookup_lt_Some).
  destruct (for_up_inv (λ j num', num' = <[i := chars_val (take j b)]> num)
    (λ j num, d ← rd num i; c ← rd str (ptr + j); wr num i (int32 (int32 (int32 (10 * d) + c) - 48))) cut 0 num) as (num' & -> & E).
  - intros j num' Hj ->. rewrite (rd_ok _ i (chars_val (take j b)) (list_lookup_insert_eq _ _ _ Hlt)). cbn [mbind result_bind].
    destruct (lookup_lt_is_Some_2 b j) as [c Hbj]; [lia|].
    assert (Hs : str !! (ptr + j)%nat = Some c) by (rewrite <- Hw in Hbj; rewrite lookup_win in Hbj by lia; done).
    rewrite (rd_ok _ _ _ Hs). cbn [mbind result_bind]. rewrite wr_ok by (by rewrite length_insert). eexists. split; [done|].
    rewrite Nat.add_1_r, (take_S_r _ _ _ Hbj), chars_val_snoc.
    assert (Ht : Forall digit_char (take j b)) by by apply Forall_take.
    pose proof (chars_val_bound _ Ht) as Hv. rewrite length_take, min_l in Hv by lia.
    pose proof (pow10_le j 8 ltac:(lia)). assert (Hcd : digit_char c) by (eapply Forall_lookup_1; [exact Hb|done]).
    unfold digit_char, isDigit in Hcd. change (10 ^ Z.of_nat 8) with 100000000 in *.
    rewrite (int32_small (10 * _)), (int32_small (_ + c)), int32_small by lia. rewrite list_insert_insert_eq. f_equal. lia.
  - cbn. symmetry. by apply list_insert_id.
  - cbn in E. subst num'. by rewrite <- Hl, firstn_all.
Qed.

Lemma skip_zeros_ok str fuel : ∀ ptr len ds, win str ptr len = ds → length ds = len → (1 ≤ len ≤ fuel)%nat → Forall digit_char ds →
  ∃ z ds', ds = replicate z 48 ++ ds' ∧ skip_zeros fuel str ptr len = Ok ((ptr + z)%nat, length ds') ∧
    win str (ptr + z) (length ds') = ds' ∧ (length ds' = 1%nat ∨ ∃ c r, ds' = c :: r ∧ c ≠ 48) ∧ (1 ≤ length ds')%nat.
Proof.
  induction fuel as [|fuel IH]; intros ptr len ds Hw Hl Hlen Hd; [lia|]. cbn [skip_zeros].
  destruct (decide (1 < len)%nat) as [H1|H1].
  2: { exists 0%nat, ds. rewrite Nat.add_0_r, Hl. split; [done|]. split; [done|]. split; [by rewrite Hw|]. split; [left; lia|lia]. }
  destruct ds as [|c ds]; [cbn in Hl; lia|]. destruct len as [|len]; [done|]. cbn in Hl.
  assert (Hc : str !! ptr = Some c).
  { assert (E : win str ptr (S len) !! 0%nat = Some c) by by rewrite Hw. rewrite lookup_win in E by lia. by rewrite Nat.add_0_r in E. }
  rewrite (rd_ok _ _ _ Hc). cbn [mbind result_bind]. apply Forall_cons in Hd as [Hcd Hd].
  destruct (Z.eqb_spec c 48) as [->|Hn].
  - rewrite (win_cons _ _ _ _ Hc) in Hw. injection Hw as Hw. replace (S len - 1)%nat with len by lia. rewrite Nat.add_1_r.
    destruct (IH (S ptr) len ds Hw ltac:(lia) ltac:(lia) Hd) as (z & ds' & -> & E & H2 & H3).
    exists (S z), ds'. rewrite Nat.add_succ_r. split; [done|]. split; [done|]. done.
  - exists 0%nat, (c :: ds). rewrite Nat.add_0_r. cbn [length replicate app]. injection Hl as ->. split; [done|]. split; [done|].
    split; [done|]. split; [|lia]. right. by exists c, ds.
Qed.

Lemma chars_val_blocks vs v a b : Forall digit_char b → length b = 9%nat → val vs = chars_val a → v = chars_val b →
  val (vs ++ [v]) = chars_val (a ++ b).
Proof.
  intros Hb Hl Hv ->. rewrite val_app, chars_val_app, Hl, Hv. unfold val. cbn. unfold BIGINT_BASE. lia.
Qed.

Lemma block_digit b : Forall digit_char b → (length b ≤ 9)%nat → digit_ok (chars_val b).
Proof.
  intros Hb Hl. pose proof (chars_val_bound b Hb). pose proof (pow10_le _ _ Hl).
  unfold digit_ok, BIGINT_BASE. change (10 ^ Z.of_nat 9) with 1000000000 in *. lia.
Qed.

Section Blocks.
Variables (str : list Z) (ptr : nat) (sign : Z) (ds : list Z) (cut k : nat).
Hypothesis Hwin : win str ptr (length ds) = ds.
Hypothesis Hds : Forall digit_char ds.
Hypothesis Hcut : (1 ≤ cut ≤ 9)%nat.
Hypothesis Hk : (1 ≤ k)%nat.
Hypothesis Hlen : length ds = (cut + 9 * (k - 1))%nat.

(** The digits of the first [m] blocks. *)
Definition read_in (m : nat) : nat := match m with O => 0 | S m => cut + 9 * m end.
Definition block_size (m : nat) : nat := match m with O => cut | S _ => 9 end.

Definition blocks_inv (i : nat) (st : list Z * nat * nat) : Prop :=
  ∃ vs, st = (sign :: vs ++ replicate (k - (i - 1)) 0, (ptr + read_in (i - 1))%nat, block_size (i - 1)) ∧
    length vs = (i - 1)%nat ∧ Forall digit_ok vs ∧ val vs = chars_val (take (read_in (i - 1)) ds).

Lemma read_in_S m : read_in (S m) = (read_in m + block_size m)%nat.
Proof. destruct m; cbn; lia. Qed.

Lemma win_part m n : (m + n ≤ length ds)%nat → win str (ptr + m) n = take n (drop m ds).
Proof.
  intros H. apply list_eq. intros x. destruct (decide (x < n)%nat).
  - rewrite lookup_win, lookup_take_lt, lookup_drop by lia. rewrite <- Hwin at 1. rewrite lookup_win by lia. f_equal. lia.
  - unfold win. by rewrite !lookup_take_ge by lia.
Qed.

Lemma read_blocks_ok : ∃ num p c, for_up 1 k (λ i '(num, ptr, cut),
    num ← read_block str ptr cut i num; Ok (num, (ptr + cut)%nat, 9%nat)) (sign :: replicate k 0, ptr, cut) = Ok (num, p, c) ∧
  ∃ vs, num = sign :: vs ∧ length vs = k ∧ Forall digit_ok vs ∧ val vs = chars_val ds.
Proof.
  destruct (for_up_inv blocks_inv (λ i '(num, ptr, cut),
    num ← read_block str ptr cut i num; Ok (num, (ptr + cut)%nat, 9%nat)) k 1 (sign :: replicate k 0, ptr, cut)) as ([[num p] c] & -> & Hi).
  - intros [|m] st Hi (vs & -> & Hl & Hvs & Hv); [lia|]. replace (S m - 1)%nat with m in * by lia.
    assert (Hfit : (read_in m + block_size m ≤ length ds)%nat) by (destruct m as [|m'] eqn:E; cbn; lia).
    set (b := take (block_size m) (drop (read_in m) ds)).
    assert (Hb : Forall digit_char b) by by apply Forall_take, Forall_drop.
    assert (Hbl : length b = block_size m) by (unfold b; rewrite length_take, length_drop; lia).
    assert (Hb9 : (block_size m ≤ 9)%nat) by (destruct m; cbn; lia).
    replace (k - m)%nat with (S (k - S m)) by lia. cbn [replicate].
    rewrite (read_block_ok str _ _ (S m) _ b); [|done|by apply win_part|done|done|].
    2: { transitivity ((vs ++ 0 :: replicate (k - S m) 0) !! m); [done|]. rewrite lookup_app_r by lia. by rewrite Hl, Nat.sub_diag. }
    cbn [mbind result_bind]. eexists. split; [done|]. exists (vs ++ [chars_val b]). replace (S m + 1 - 1)%nat with (S m) by lia.
    split.
    { rewrite !pair_eq. split; [split|done].
      - transitivity (sign :: <[m := chars_val b]> (vs ++ 0 :: replicate (k - S m) 0)); [done|].
        rewrite insert_app_r_alt by lia. rewrite Hl, Nat.sub_diag. cbn. by rewrite <- app_assoc.
      - rewrite read_in_S. lia. }
    split; [rewrite length_app, Hl; cbn; lia|]. split.
    { apply Forall_app. split; [done|]. constructor; [|constructor]. apply block_digit; [done|lia]. }
    rewrite read_in_S, <- take_take_drop. fold b. destruct m as [|m'] eqn:Em.
    { apply nil_length_inv in Hl as ->. change (val [chars_val b] = chars_val b). unfold val. cbn [foldl]. lia. }
    by apply chars_val_blocks.
  - exists []. cbn. split; [|done]. by rewrite Nat.sub_0_r, Nat.add_0_r.
  - exists num, p, c. split; [done|]. destruct Hi as (vs & E & Hl & Hvs & Hv).
    replace (1 + k - 1)%nat with k in * by lia. rewrite Nat.sub_diag in E. injection E as -> _ _. exists vs. cbn [replicate]. rewrite app_nil_r.
    split; [done|]. split; [done|]. split; [done|]. rewrite Hv. f_equal. apply take_ge. destruct k; [lia|]. cbn. lia.
Qed.

End Blocks.

(** The sign that a text may start with, and its value. *)
Definition sign_text (t : list Z) : option Z :=
  match t with [] => Some 1 | [43] => Some 1 | [45] => Some (-1) | _ => None end.

Lemma chars_val_zeros z ds : chars_val (replicate z 48 ++ ds) = chars_val ds.
Proof.
  induction z as [|z IH]; [done|]. cbn [replicate app]. change (48 :: replicate z 48 ++ ds) with ([48] ++ (replicate z 48 ++ ds)).
  rewrite chars_val_app, IH. cbn. lia.
Qed.

Lemma win_cons_tail (a : Z) vs : win (a :: vs) 1 (length vs) = vs.
Proof. unfold win. cbn [drop]. by rewrite drop_0, firstn_all. Qed.

(** The digits read make a big integer. *)
Lemma blocks_bigint sg vs ds : (sg = 1 ∨ sg = -1) → (1 ≤ length vs)%nat → Forall digit_ok vs → val vs = chars_val ds →
  Forall digit_char ds → (9 * (length vs - 1) < length ds)%nat → (length ds = 1%nat ∨ ∃ c r, ds = c :: r ∧ c ≠ 48) →
  bigint_ok (sg :: vs) (length vs) ∧ bigval (sg :: vs) (length vs) = sg * chars_val ds.
Proof.
  intros Hsg Hl Hvs Hv Hds Hlen Hlead. split; [|by rewrite (bigval_sign _ _ sg), win_cons_tail, Hv].
  apply (bigint_ok_intro _ _ sg); [done|done|done|cbn; lia|by rewrite win_cons_tail|].
  destruct (decide (length vs = 1%nat)) as [|Hn]; [by left|right]. rewrite win_cons_tail, Hv.
  destruct Hlead as [H1|(c & r & -> & Hc)]; [lia|]. etrans; [|by apply chars_val_lead]. cbn [length] in Hlen.
  unfold BIGINT_BASE. change 1000000000 with (10 ^ 9). rewrite <- Z.pow_mul_r by lia. apply Z.pow_le_mono_r; lia.
Qed.

(** Behind the sign. *)
Lemma strToBigint_blocks str ptr ds sg : win str ptr (length ds) = ds → Forall digit_char ds → ds ≠ [] → (sg = 1 ∨ sg = -1) →
  ∃ num n, ('(ptr, len) ← skip_zeros (length ds) str ptr (length ds);
    let n := (len / 9 + 1)%nat in
    let cut := (len mod 9)%nat in
    let '(n, cut) := if Nat.eqb cut 0 then (n, 9%nat) else (S n, cut) in
    '(num, _, _) ← for_up 1 (n - 1) (λ i '(num, ptr, cut),
      num ← read_block str ptr cut i num; Ok (num, (ptr + cut)%nat, 9%nat)) (sg :: replicate (n - 1) 0, ptr, cut);
    Ok (num, (n - 1)%nat)) = Ok (num, n) ∧
  bigint_ok num n ∧ length num = S n ∧ nth 0 num 0 = sg ∧ bigval num n = sg * chars_val ds.
Proof.
  intros Hw Hds Hne Hsg.
  destruct (skip_zeros_ok str (length ds) ptr (length ds) ds Hw eq_refl) as (z & ds' & -> & -> & Hw' & Hlead & H1);
    [destruct ds; [done|cbn; lia]|done|]. cbn [mbind result_bind]. cbv zeta. apply Forall_app in Hds as [_ Hds].
  rewrite chars_val_zeros. set (L := length ds') in *.
  pose proof (Nat.div_mod L 9 ltac:(lia)) as HL. pose proof (Nat.mod_upper_bound L 9 ltac:(lia)) as Hmod.
  assert (Hgo : ∀ k cut, (1 ≤ cut ≤ 9)%nat → (1 ≤ k)%nat → L = (cut + 9 * (k - 1))%nat →
    ∃ num n, ('(num, _, _) ← for_up 1 k (λ i '(num, ptr, cut),
      num ← read_block str ptr cut i num; Ok (num, (ptr + cut)%nat, 9%nat)) (sg :: replicate k 0, (ptr + z)%nat, cut);
      Ok (num, k)) = Ok (num, n) ∧
    bigint_ok num n ∧ length num = S n ∧ nth 0 num 0 = sg ∧ bigval num n = sg * chars_val ds').
  { intros k cut Hc Hk Hlen. destruct (read_blocks_ok str (ptr + z) sg ds' cut k Hw' Hds Hc Hk Hlen) as (num & p & c & E & vs & -> & Hl & Hvs & Hv).
    rewrite E. cbn [mbind result_bind]. eexists _, k. split; [done|]. subst k.
    destruct (blocks_bigint sg vs ds' Hsg Hk Hvs Hv Hds) as [B1 B2]; [fold L; lia|done|]. by split. }
  destruct (Nat.eqb_spec (L mod 9) 0) as [E0|E0].
  - replace (L / 9 + 1 - 1)%nat with (L / 9)%nat by lia. apply Hgo; lia.
  - replace (S (L / 9 + 1) - 1)%nat with (L / 9 + 1)%nat by lia. apply Hgo; lia.
Qed.

Lemma win_middle {A} (a b c : list A) : win (a ++ b ++ c) (length a) (length b) = b.
Proof. unfold win. by rewrite drop_app_length, take_app_length. Qed.

Lemma last_char ds : Forall digit_char ds → ds ≠ [] → ∃ l c, ds = l ++ [c] ∧ digit_char c.
Proof.
  intros Hd Hne. destruct ds as [|c l _] using rev_ind; [done|]. exists l, c. split; [done|].
  by apply Forall_app in Hd as [_ [Hc _]%Forall_cons].
Qed.

Lemma strToBigint_ok st sg ds suffix rest : sign_text st = Some sg → Forall digit_char ds → ds ≠ [] → suffix = [] ∨ suffix = [76] →
  ∃ num n, strToBigint (st ++ ds ++ suffix ++ rest) (length (st ++ ds ++ suffix)) = Ok (num, n) ∧
    bigint_ok num n ∧ length num = S n ∧ nth 0 num 0 = sg ∧ bigval num n = sg * chars_val ds.
Proof.
  intros Hst Hds Hne Hsuf. set (str := st ++ ds ++ suffix ++ rest).
  assert (Hsg : sg = 1 ∨ sg = -1) by (unfold sign_text in Hst; repeat case_match; simplify_eq; auto).
  destruct (strToBigint_blocks str (length st) ds sg (win_middle st ds (suffix ++ rest)) Hds Hne Hsg) as (num & n & E & H).
  exists num, n. split; [|done]. rewrite <- E. clear E H. unfold strToBigint.
  destruct (last_char ds Hds Hne) as (l & c & Hl & Hc).
  assert (Hlast : ∃ x, rd str (length (st ++ ds ++ suffix) - 1) = Ok x ∧
    (if x =? 76 then (length (st ++ ds ++ suffix) - 1)%nat else length (st ++ ds ++ suffix)) = (length st + length ds)%nat).
  { destruct Hsuf as [->| ->].
    - exists c. split.
      + apply rd_ok. unfold str. rewrite Hl, !length_app. cbn. rewrite lookup_app_r, lookup_app_l, lookup_app_r by (rewrite ?length_app; cbn; lia).
        by replace (_ - _ - _)%nat with 0%nat by lia.
      + unfold digit_char, isDigit in Hc. rewrite (proj2 (Z.eqb_neq c 76)) by lia. rewrite !length_app. cbn. lia.
    - exists 76. split; [|rewrite !length_app; cbn; lia]. apply rd_ok. unfold str. rewrite !length_app. cbn.
      rewrite lookup_app_r, lookup_app_r by lia. by replace (_ - _ - _)%nat with 0%nat by lia. }
  destruct Hlast as (x & -> & Hx).
  rewrite (proj2 (Nat.eqb_neq _ 0)) by (rewrite !length_app; destruct ds; [done|cbn; lia]). cbn [mbind result_bind]. rewrite Hx.
  destruct ds as [|d ds]; [done|]. apply Forall_cons in Hds as [Hd _]. unfold digit_char, isDigit in Hd.
  unfold sign_text in Hst. destruct st as [|s0 st]; simplify_eq.
  - cbn [str app rd lookup list_lookup mbind result_bind length Nat.add].
    rewrite (proj2 (Z.eqb_neq d c_minus)), (proj2 (Z.eqb_neq d c_plus)) by lia. done.
  - destruct st as [|]; [|by repeat case_match]. assert (s0 = 43 ∧ sg = 1 ∨ s0 = 45 ∧ sg = -1) as [[-> ->]|[-> ->]].
    { repeat case_match; simplify_eq; auto. }
    all: cbn [str app rd lookup list_lookup mbind result_bind length Nat.add Z.eqb orb]; rewrite Nat.sub_succ, Nat.sub_0_r; done.
Qed.

(** ** Writing *)

Lemma pow10_pos n : 0 < 10 ^ Z.of_nat n.
Proof. apply Z.pow_pos_nonneg; lia. Qed.

Lemma pow10_S n : 10 ^ Z.of_nat (S n) = 10 * 10 ^ Z.of_nat n.
Proof. rewrite Nat2Z.inj_succ, Z.pow_succ_r; lia. Qed.

Definition pow10_below (n : nat) : Z := match n with O => 0 | S n => 10 ^ Z.of_nat n end.

Lemma pow10_quot n : Z.quot (10 ^ Z.of_nat n) 10 = pow10_below n.
Proof.
  destruct n; [done|]. cbn [pow10_below]. rewrite pow10_S, Z.mul_comm. apply Z.quot_mul. lia.
Qed.

Lemma lead_zeros_ok fuel : ∀ d m cnt, 1 ≤ d < 10 ^ Z.of_nat (S m) → (m < fuel)%nat →
  ∃ z, (z ≤ m)%nat ∧ lead_zeros fuel d (10 ^ Z.of_nat m) cnt = Ok (10 ^ Z.of_nat (m - z), (cnt + z)%nat) ∧
    10 ^ Z.of_nat (m - z) ≤ d < 10 ^ Z.of_nat (S (m - z)).
Proof.
  induction fuel as [|fuel IH]; intros d m cnt Hd Hf; [lia|]. cbn [lead_zeros]. pose proof (pow10_pos m).
  rewrite (proj2 (Z.eqb_neq (10 ^ Z.of_nat m) 0)) by lia.
  destruct (Z.eqb_spec (Z.quot d (10 ^ Z.of_nat m)) 0) as [E|E].
  - assert (Hlt : d < 10 ^ Z.of_nat m) by (apply Z.quot_small_iff in E; lia).
    destruct m as [|m]; [cbn in Hlt; lia|]. rewrite pow10_quot. cbn [pow10_below].
    destruct (IH d m (S cnt)) as (z & Hz & -> & H'); [lia|lia|]. exists (S z). split; [lia|].
    replace (S m - S z)%nat with (m - z)%nat by lia. split; [do 2 f_equal; lia|done].
  - exists 0%nat. rewrite Nat.sub_0_r, Nat.add_0_r. split; [lia|]. split; [done|].
    destruct (Z.leb_spec (10 ^ Z.of_nat m) d); [lia|]. destruct E. apply Z.quot_small. lia.
Qed.

Lemma write_block_ok cap cnt d digits : (1 ≤ cnt)%nat → 0 ≤ d < 10 ^ Z.of_nat cnt → (length digits + cnt ≤ cap)%nat →
  ∃ b, write_block cap 48 cnt d (10 ^ Z.of_nat (cnt - 1)) digits = Ok (digits ++ b) ∧
    length b = cnt ∧ Forall digit_char b ∧ chars_val b = d.
Proof.
  intros Hc Hd Hcap. unfold write_block.
  destruct (for_up_inv (λ j '(digits', bigdigit, basediv), ∃ b, digits' = digits ++ b ∧ length b = j ∧ Forall digit_char b ∧
      chars_val b * 10 ^ Z.of_nat (cnt - j) + bigdigit = d ∧ 0 ≤ bigdigit < 10 ^ Z.of_nat (cnt - j) ∧ basediv = pow10_below (cnt - j))
    (write_digit cap 48) cnt 0 (digits, d, 10 ^ Z.of_nat (cnt - 1))) as ([[ds bd] bv] & -> & Hi).
  - intros j [[ds bd] bv] Hj (b & -> & Hl & Hb & Hv & Hbd & ->). destruct (cnt - j)%nat as [|m] eqn:Em; [lia|].
    cbn [write_digit pow10_below]. pose proof (pow10_pos m). rewrite (proj2 (Z.eqb_neq (10 ^ Z.of_nat m) 0)) by lia.
    rewrite put_byte_ok by (rewrite length_app; lia). cbn [mbind result_bind].
    eexists. split; [done|]. set (q := Z.quot bd (10 ^ Z.of_nat m)).
    assert (Hq : 0 ≤ q < 10 ∧ 0 ≤ bd - q * 10 ^ Z.of_nat m < 10 ^ Z.of_nat m).
    { rewrite pow10_S in Hbd. pose proof (Z.quot_rem' bd (10 ^ Z.of_nat m)) as Hqr. pose proof (Z.rem_bound_pos bd (10 ^ Z.of_nat m)). fold q in Hqr. nia. }
    assert (Hu : uint8 (q + 48) = q + 48) by (unfold wrapU; rewrite Z.mod_small; lia).
    exists (b ++ [q + 48]). rewrite Hu, <- app_assoc. split; [done|]. split; [rewrite length_app; cbn; lia|]. split.
    { apply Forall_app. split; [done|]. constructor; [|constructor]. unfold digit_char, isDigit. lia. }
    replace (cnt - (j + 1))%nat with m by lia. split.
    { rewrite chars_val_snoc. rewrite pow10_S in Hv. lia. }
    split; [lia|]. apply pow10_quot.
  - exists []. rewrite app_nil_r. cbn [length chars_val foldl]. split; [done|]. split; [done|]. split; [constructor|].
    rewrite Nat.sub_0_r. split; [unfold chars_val; cbn; lia|]. split; [done|]. destruct cnt; [lia|]. cbn [pow10_below].
    by replace (S cnt - 1)%nat with cnt by lia.
  - destruct Hi as (b & -> & Hl & Hb & Hv & Hbd & _). exists b. rewrite Nat.add_0_l, Nat.sub_diag in *. cbn in Hv, Hbd.
    split; [done|]. split; [done|]. split; [done|lia].
Qed.

(** The text of a number: its digits have no zero in front, and a sign is a minus. *)
Definition number_text (sg v : Z) (t : list Z) : Prop :=
  ∃ st ds, t = st ++ ds ∧ Forall digit_char ds ∧ chars_val ds = v ∧ (ds = [48] ∨ ∃ c r, ds = c :: r ∧ c ≠ 48) ∧
    st = (if (sg =? -1) && negb (v =? 0) then [c_minus] else []).

Lemma write_blocks_ok cap num n d cnt st : bigint_ok num n → num !! 1%nat = Some d → (1 ≤ cnt ≤ 9)%nat →
  10 ^ Z.of_nat (cnt - 1) ≤ d < 10 ^ Z.of_nat cnt → (length st + cnt + 9 * (n - 1) ≤ cap)%nat →
  ∃ ds b c, for_up 1 n (write_bigdigit cap 48 num) (st, 10 ^ Z.of_nat (cnt - 1), cnt) = Ok (st ++ ds, b, c) ∧
    Forall digit_char ds ∧ chars_val ds = val (win num 1 n) ∧ ∃ c r, ds = c :: r ∧ c ≠ 48.
Proof.
  intros Hok Hd Hc HL Hcap. pose proof (bi_size _ _ Hok) as [Hn Hlen].
  destruct (for_up_inv (λ i '(digits, b, c), ∃ ds, digits = st ++ ds ∧ Forall digit_char ds ∧
      chars_val ds = val (win num 1 (i - 1)) ∧
      length ds = (if Nat.eqb i 1 then 0 else cnt + 9 * (i - 2))%nat ∧
      if Nat.eqb i 1 then ds = [] ∧ b = 10 ^ Z.of_nat (cnt - 1) ∧ c = cnt
      else (∃ x r, ds = x :: r ∧ x ≠ 48) ∧ b = 10 ^ Z.of_nat 8 ∧ c = 9%nat)
    (write_bigdigit cap 48 num) n 1 (st, 10 ^ Z.of_nat (cnt - 1), cnt)) as ([[digits b] c] & -> & Hi).
  - intros [|m] [[digits b] c] Hi (ds & -> & Hds & Hv & Hlds & Hbc); [lia|]. replace (S m - 1)%nat with m in * by lia.
    destruct (Forall_win_lookup _ _ _ _ (S m) (bi_digits _ _ Hok)) as (e & He & Hek); [lia|lia|].
    cbn [write_bigdigit]. rewrite (rd_ok _ _ _ He). cbn [mbind result_bind].
    assert (Hwin : win num 1 (S m) = win num 1 m ++ [e]).
    { replace (S m) with (m + 1)%nat by lia. rewrite win_app. f_equal. rewrite (win_cons _ _ _ _ He). by rewrite win_0. }
    replace (S m + 1 - 1)%nat with (S m) by lia. replace (S m + 1)%nat with (S (S m)) by lia. cbn [Nat.eqb] in *.
    destruct m as [|m].
    + cbn [Nat.eqb] in Hlds. destruct Hbc as (-> & -> & ->). assert (e = d) as -> by congruence. pose proof (pow10_pos (cnt - 1)).
      destruct (write_block_ok cap cnt d (st ++ [])) as (b & -> & Hl & Hb & Hvb); [lia|lia|rewrite app_nil_r; lia|]. cbn [mbind result_bind].
      eexists. split; [done|]. exists b. rewrite app_nil_r. split; [done|]. split; [done|]. split.
      { rewrite Hwin, win_0, Hvb. unfold val. cbn. lia. }
      split; [cbn; lia|]. split; [|done]. destruct b as [|x b]; [cbn in Hl; lia|]. exists x, b. split; [done|]. intros ->.
      apply Forall_cons in Hb as [_ Hb]. change (48 :: b) with ([48] ++ b) in Hvb. rewrite chars_val_app in Hvb.
      replace (chars_val [48]) with 0 in Hvb by done. pose proof (chars_val_bound b Hb). cbn in Hl.
      replace (length b) with (cnt - 1)%nat in * by lia. lia.
    + cbn [Nat.eqb] in Hlds. destruct Hbc as ((x & r & -> & Hx) & -> & ->). change (10 ^ Z.of_nat 8) with (10 ^ Z.of_nat (9 - 1)).
      destruct (write_block_ok cap 9 e (st ++ x :: r)) as (b & -> & Hl & Hb & Hvb);
        [lia|unfold digit_ok, BIGINT_BASE in Hek; change (10 ^ Z.of_nat 9) with 1000000000; lia|rewrite length_app; lia|].
      cbn [mbind result_bind]. eexists. split; [done|]. exists ((x :: r) ++ b). rewrite app_assoc. split; [done|].
      split; [by apply Forall_app|]. split; [|split; [rewrite length_app; lia|split; [by exists x, (r ++ b)|done]]].
      rewrite Hwin. symmetry. by apply chars_val_blocks.
  - exists []. rewrite app_nil_r. cbn [Nat.eqb Nat.sub]. by rewrite win_0.
  - destruct Hi as (ds & -> & Hds & Hv & _ & Hb). replace (1 + n - 1)%nat with n in Hv by lia.
    destruct (Nat.eqb_spec (1 + n) 1); [lia|]. destruct Hb as (Hx & _). by exists ds, b, c.
Qed.

Lemma bigintToDigits_ok num n : bigint_ok num n →
  ∃ t len, bigintToDigits num n 48 = Ok (t, len) ∧ number_text (nth 0 num 0) (val (win num 1 n)) t.
Proof.
  intros Hok. destruct (bigint_first _ _ Hok) as (d & Hd & Hdk). destruct (bigint_sign _ _ Hok) as (sg & Hsg & Hs).
  pose proof (bi_size _ _ Hok) as [Hn Hlen]. unfold bigintToDigits. rewrite (rd_ok _ _ _ Hd). cbn [mbind result_bind].
  assert (nth 0 num 0 = sg) as -> by by apply nth_lookup_Some.
  destruct (Nat.eqb n 1 && (d =? 0)) eqn:E0.
  { apply andb_true_iff in E0 as [->%Nat.eqb_eq ->%Z.eqb_eq]. exists [48], None. split; [done|].
    rewrite (win_cons _ _ _ _ Hd), win_0. exists [], [48]. split; [done|]. split; [by repeat constructor|]. split; [done|].
    split; [by left|]. unfold val. cbn. by rewrite andb_false_r. }
  assert (Hd1 : 1 ≤ d < 10 ^ Z.of_nat 9).
  { unfold digit_ok, BIGINT_BASE in Hdk. change (10 ^ Z.of_nat 9) with 1000000000. split; [|lia].
    destruct (bi_norm _ _ Hok) as [->|H1]; [cbn in E0; lia|]. assert (d ≠ 0) by congruence. lia. }
  destruct (lead_zeros_ok 11 d 8 0 Hd1) as (z & Hz & EL & HL); [lia|]. change (Z.quot BIGINT_BASE 10) with (10 ^ Z.of_nat 8) in *.
  rewrite EL. cbn [mbind result_bind]. rewrite (rd_ok _ _ _ Hsg). cbn [mbind result_bind]. clear EL.
  set (st := if sg =? -1 then [c_minus] else []). change (negb (48 =? 0)) with true. cbv iota.
  replace (9 - (0 + z))%nat with (S (8 - z)) by lia. set (cap := (9 * (n - 1) + S (8 - z) + 2)%nat).
  assert (Hst : (if sg =? -1 then put_byte cap [] c_minus else Ok []) = Ok st ∧ (length st ≤ 1)%nat).
  { unfold st, cap. destruct (sg =? -1); [|cbn; split; [done|lia]]. rewrite put_byte_ok by (cbn; lia). cbn. split; [done|lia]. }
  destruct Hst as [-> Hst]. cbn [mbind result_bind].
  destruct (write_blocks_ok cap num n d (S (8 - z)) st Hok Hd) as (ds & b & c & E & Hc & Hv & x & r & -> & Hx); [lia| |unfold cap; lia|].
  { replace (S (8 - z) - 1)%nat with (8 - z)%nat by lia. done. }
  replace (S (8 - z) - 1)%nat with (8 - z)%nat in E by lia. rewrite E. cbn [mbind result_bind].
  eexists _, _. split; [done|]. exists st, (x :: r). split; [done|]. split; [done|]. split; [done|]. split; [right; by exists x, r|].
  unfold st. destruct (sg =? -1); [|done]. cbn [andb]. rewrite (proj2 (Z.eqb_neq (val (win num 1 n)) 0)); [done|].
  rewrite <- Hv. pose proof (chars_val_lead x r Hc Hx). pose proof (pow10_pos (length r)). lia.
Qed.

(** ** Round trip *)

Lemma val_inj l : ∀ l', length l = length l' → Forall digit_ok l → Forall digit_ok l' → val l = val l' → l = l'.
Proof.
  induction l as [|d l IH]; intros [|d' l'] Hlen Hl Hl' Hv; try done. injection Hlen as Hlen.
  apply Forall_cons in Hl as [Hd Hl], Hl' as [Hd' Hl']. rewrite !val_cons, Hlen in Hv.
  pose proof (val_bound l Hl) as B1. pose proof (val_bound l' Hl') as B2. rewrite Hlen in B1. pose proof (pow_base_pos (length l')).
  unfold digit_ok in *. assert (d = d') as <- by nia. f_equal. apply IH; try done. lia.
Qed.

Lemma bigint_size x n y m : bigint_ok x n → bigint_ok y m → val (win x 1 n) = val (win y 1 m) → (n ≤ m)%nat.
Proof.
  intros Hx Hy Hv. destruct (decide (n ≤ m)%nat) as [|Hn]; [done|]. exfalso.
  pose proof (bi_size _ _ Hx) as [H1 H2]. pose proof (bi_size _ _ Hy) as [H3 H4].
  pose proof (bigint_lead x n Hx ltac:(lia)) as HL. pose proof (val_bound _ (bi_digits _ _ Hy)) as HB.
  rewrite win_length in HB by lia. assert (BIGINT_BASE ^ Z.of_nat m ≤ BIGINT_BASE ^ Z.of_nat (n - 1)); [|lia].
  apply Z.pow_le_mono_r; [done|lia].
Qed.

(** Two big integers with the same value have the same digits. *)
Lemma bigint_unique x n y m : bigint_ok x n → bigint_ok y m → val (win x 1 n) = val (win y 1 m) →
  n = m ∧ win x 1 n = win y 1 m.
Proof.
  intros Hx Hy Hv. assert (n = m) as <-.
  { pose proof (bigint_size x n y m Hx Hy Hv). pose proof (bigint_size y m x n Hy Hx (eq_sym Hv)). lia. }
  split; [done|]. pose proof (bi_size _ _ Hx) as [H1 H2]. pose proof (bi_size _ _ Hy) as [H3 H4].
  apply val_inj; [by rewrite !win_length by lia|apply Hx|apply Hy|done].
Qed.

Lemma number_sign sg v : (sg = 1 ∨ sg = -1) → sign_text (if (sg =? -1) && negb (v =? 0) then [c_minus] else []) =
  Some (if (sg =? -1) && negb (v =? 0) then -1 else 1).
Proof. by destruct ((sg =? -1) && negb (v =? 0)). Qed.

Lemma take_bigint (x : list Z) a n : x !! 0%nat = Some a → take (S n) x = a :: win x 1 n.
Proof. destruct x as [|b x]; [done|]. intros [= ->]. unfold win. cbn [take drop]. by rewrite drop_0. Qed.

(** [strToBigint] reads any number of decimal digits, with a sign in front and an [L] behind
    or without: it stays inside the text and the array it allocates and makes the normalised big integer of
    that value and sign. *)
Theorem strToBigint_value st sg ds suffix rest : sign_text st = Some sg → Forall digit_char ds → ds ≠ [] →
  suffix = [] ∨ suffix = [76] →
  ∃ num n, strToBigint (st ++ ds ++ suffix ++ rest) (length (st ++ ds ++ suffix)) = Ok (num, n) ∧
    bigint_ok num n ∧ length num = S n ∧ bigval num n = sg * chars_val ds.
Proof.
  intros H1 H2 H3 H4. destruct (strToBigint_ok st sg ds suffix rest H1 H2 H3 H4) as (num & n & E & Hok & Hl & _ & Hv).
  by exists num, n.
Qed.

(** [-0012345678901L]. *)
Lemma strToBigint_value_witness : ∃ num n,
  strToBigint [45; 48; 48; 49; 50; 51; 52; 53; 54; 55; 56; 57; 48; 49; 76; 0] 15 = Ok (num, n) ∧ bigval num n = -12345678901.
Proof.
  destruct (strToBigint_value [45] (-1) [48; 48; 49; 50; 51; 52; 53; 54; 55; 56; 57; 48; 49] [76] [0])
    as (num & n & E & _ & _ & H); [reflexivity|by repeat constructor|discriminate|by right|].
  exists num, n. split; [exact E|exact H].
Defined.

(** The text of a big integer and what is read from it. *)
Lemma bigint_text num n : bigint_ok num n → bigval num n ≠ 0 ∨ nth 0 num 0 = 1 →
  ∃ st ds len num', bigintToDigits num n 48 = Ok (st ++ ds, len) ∧ (st = [] ∨ st = [c_minus]) ∧ Forall digit_char ds ∧
    (ds = [48] ∨ ∃ c r, ds = c :: r ∧ c ≠ 48) ∧ chars_val ds = Z.abs (bigval num n) ∧
    strToBigint (st ++ ds ++ [76] ++ [0]) (length (st ++ ds ++ [76])) = Ok (num', n) ∧ num' = take (S n) num.
Proof.
  intros Hok Hz. destruct (bigintToDigits_ok num n Hok) as (t & len & E & st & ds & -> & Hds & Hv & Hlead & Hst).
  destruct (bigint_sign _ _ Hok) as (sg & Hsg & Hs). assert (Hsg' : nth 0 num 0 = sg) by by apply nth_lookup_Some.
  rewrite (bigval_sign _ _ sg Hsg) in *. rewrite Hsg' in *. pose proof (number_sign sg (val (win num 1 n)) Hs) as Hsign. rewrite <- Hst in Hsign.
  destruct (strToBigint_ok st _ ds [76] [0] Hsign Hds) as (num' & n' & E' & Hok' & Hl' & Hsg'' & Hv'); [|by right|].
  { by destruct Hlead as [->|(c & r & -> & _)]. }
  unfold bigval in Hv'. rewrite Hsg'', Hv in Hv'.
  assert (Hs' : (if (sg =? -1) && negb (val (win num 1 n) =? 0) then -1 else 1) = sg).
  { destruct Hs as [-> | ->]; [done|]. destruct (Z.eqb_spec (val (win num 1 n)) 0); [lia|done]. }
  rewrite Hs' in *. assert (Hvv : val (win num 1 n) = val (win num' 1 n')) by (destruct Hs as [-> | ->]; lia).
  destruct (bigint_unique _ _ _ _ Hok Hok' Hvv) as [<- Hw]. exists st, ds, len, num'. split; [done|].
  split; [rewrite Hst; destruct (_ && _); auto|]. split; [done|]. split; [done|].
  split; [rewrite Hv; pose proof (chars_val_bound ds Hds); destruct Hs as [-> | ->]; lia|]. split; [done|].
  rewrite (take_bigint num sg n Hsg), Hw.
  transitivity (take (S n) num'); [symmetry; apply take_ge; lia|]. apply take_bigint. destruct num' as [|x r]; [done|]. cbn in Hsg''. by subst.
Qed.

(** C39: A big integer is read back from its text as it was: [bigintToDigits] writes it within its
    buffers, and [strToBigint] of what it wrote, with the [L] behind it, makes an array of the
    same sign and digits. Zero has no sign. *)
Theorem bigint_text_roundtrip num n : bigint_ok num n → bigval num n ≠ 0 ∨ nth 0 num 0 = 1 →
  ∃ t len num', bigintToDigits num n 48 = Ok (t, len) ∧
    strToBigint (t ++ [76; 0]) (length t + 1) = Ok (num', n) ∧ num' = take (S n) num.
Proof.
  intros Hok Hz. destruct (bigint_text num n Hok Hz) as (st & ds & len & num' & E & _ & _ & _ & _ & E' & Hn).
  exists (st ++ ds), len, num'. split; [done|]. split; [|done].
  replace ((st ++ ds) ++ [76; 0]) with (st ++ ds ++ [76] ++ [0]) by by rewrite <- app_assoc.
  by replace (length (st ++ ds) + 1)%nat with (length (st ++ ds ++ [76])) by (rewrite !length_app; cbn; lia).
Qed.

(** [-12000000034L]. *)
Lemma bigint_text_roundtrip_witness : ∃ t num', (∃ len, bigintToDigits [-1; 12; 34] 2 48 = Ok (t, len)) ∧
  strToBigint (t ++ [76; 0]) (length t + 1) = Ok (num', 2%nat) ∧ num' = [-1; 12; 34].
Proof.
  destruct (bigint_text_roundtrip [-1; 12; 34] 2) as (t & len & num' & E & E' & H).
  - split; [cbn; lia|by right|by repeat constructor|by right].
  - left. vm_compute. congruence.
  - exists t, num'. split; [by exists len|]. split; [exact E'|exact H].
Defined.
