(* ===== verification/Reader.v ===== *)
(** * The reader (src/newlisp.c, [compileExpression])

    Source text becomes a tree of cells; symbols are looked up and created in the
    trees of the contexts (Context.v).  The envelope cell that [compileExpression]
    fills is its kind and the list of the cells linked to it. *)

From stdpp Require Import base list numbers tactics strings gmap.
From Stdlib Require Import ZArith Lia SpecFloat String Ascii.
From S2P Require Import Prelude Cell Arith Symtree Context Bigint Token Bigtext.
From stdpp Require Import list.

#[global] Open Scope Z_scope.

Definition ERR_EXPRESSION := 5.
Definition ERR_MISSING_PAR := 6.
Definition ERR_SYMBOL_EXPECTED := 12.
Definition ERR_INVALID_LAMBDA := 25.
Definition ERR_TEXT_END_TAG := 40.

(** ** Cells *)

(** The cells the reader makes and the printer prints, a symbol by its address; a string is its
    bytes, a big integer its digits, and [DDyn] a symbol of a context that does not exist. *)
Inductive datum : Type :=
  | DNil
  | DTrue
  | DLong (z : Z)
  | DBigint (num : list Z)
  | DFloat (f : spec_float)
  | DString (s : list Z)
  | DSymbol (p : ptr)
  | DContext (p : ptr)
  | DDyn (context : ptr) (name : string)
  | DQuote (d : datum)
  | DExpr (l : list datum)
  | DLambda (l : list datum)
  | DFexpr (l : list datum).

(** The kinds of envelope. *)
Inductive envelope := EQuote | EExpr | ELambda | EFexpr.

Definition envelop (k : envelope) (l : list datum) : datum :=
  match k with
  | EQuote => DQuote (hd DNil l)
  | EExpr => DExpr l
  | ELambda => DLambda l
  | EFexpr => DFexpr l
  end.

(** ** Strings of C *)

Definition ascii_of_Z (c : Z) : ascii := ascii_of_N (Z.to_N c).
Fixpoint string_of (l : list Z) : string :=
  match l with [] => EmptyString | c :: l => String (ascii_of_Z c) (string_of l) end.

(** The length up to the first 0. *)
Fixpoint c_strlen (s : list Z) : result nat :=
  match s with
  | [] => UB
  | c :: s => if c =? 0 then Ok 0%nat else n ← c_strlen s; Ok (S n)
  end.

(** [memcmp(s, needle, size) == 0], which ends at the first difference. *)
Fixpoint memcmp_eq (s needle : list Z) : result bool :=
  match needle with
  | [] => Ok true
  | c :: needle => x ← rd s 0; if x =? c then memcmp_eq (drop 1 s) needle else Ok false
  end.

(** [searchBuffer] with [caseFlag]: the position in the first [length] bytes, or -1. *)
Fixpoint searchBuffer (len : nat) (s needle : list Z) : result (option nat) :=
  match len with
  | O => Ok None
  | S len =>
      c ← rd s 0;
      n ← rd needle 0;
      found ← (if c =? n then memcmp_eq s needle else Ok false);
      if found : bool then Ok (Some 0%nat)
      else
        position ← searchBuffer len (drop 1 s) needle;
        Ok (match position with Some p => Some (S p) | None => None end)
  end.

(** ["[/text]"] *)
Definition LIMIT : list Z := [91; 47; 116; 101; 120; 116; 93].
Definition LLEN := 7%nat.

(** The text before the tag and the stream behind it. *)
Definition readStreamText (s : list Z) : result (option (list Z * list Z)) :=
  searchLen ← c_strlen s;
  if decide (searchLen < LLEN)%nat then Ok None
  else
    findPos ← searchBuffer searchLen s LIMIT;
    match findPos with
    | Some findPos => Ok (Some (take findPos s, drop (findPos + LLEN) s))
    | None => Ok None
    end.

(** ** atof *)

Fixpoint span_digits (t : list Z) : list Z * list Z :=
  match t with
  | c :: t' => if isDigit c then let '(d, r) := span_digits t' in (c :: d, r) else ([], t)
  | [] => ([], [])
  end.

(** The double next to [m * 10^e]. *)
Definition decimal_float (neg : bool) (m e : Z) : spec_float :=
  match m with
  | Zpos p =>
      if 0 <=? e then binary_normalize 53 1024 (if neg then - (m * 10 ^ e) else m * 10 ^ e) 0 neg
      else SFdiv 53 1024 (S754_finite neg p 0) (S754_finite false (Z.to_pos (10 ^ (- e))) 0)
  | _ => S754_zero neg
  end.

Definition atof (lc_decimal_point : Z) (t : list Z) : spec_float :=
  let '(neg, t) := signed t in
  let '(i, t) := span_digits t in
  let '(f, t) := match t with c :: t' => if c =? lc_decimal_point then span_digits t' else ([], t) | [] => ([], []) end in
  let e := match t with c :: t' => if toupper c =? 69 then strtol_exact 10 t' else 0 | [] => 0 end in
  decimal_float neg (chars_val (i ++ f)) (e - Z.of_nat (length f)).

(** ** The reader *)

Record rstate := RState { parStackCounter : Z; world : store; stream : list Z }.

Definition set_stream (s : list Z) (st : rstate) : rstate := RState (parStackCounter st) (world st) s.
Definition set_world (w : store) (st : rstate) : rstate := RState (parStackCounter st) w (stream st).
Definition set_pars (n : Z) (st : rstate) : rstate := RState n (world st) (stream st).

Section Reader.
Variables (lc_decimal_point : Z) (mainContext currentContext : ptr).
(** [copyCell(evaluateExpression(newCell))], the call of a macro. *)
Variable expand : datum → store → result (datum * store).

(** A number cell. *)
Definition read_number (k : tkn) (token : list Z) (tklen : option nat) : result datum :=
  match k with
  | TKN_HEX => Ok (DLong (strtoull token 0))
  | TKN_BINARY => Ok (DLong (strtoull (drop 2 token) 2))
  | TKN_OCTAL => Ok (DLong (strtoll token 0).1)
  | TKN_DECIMAL =>
      match tklen with
      | None => UB
      | Some tklen =>
          c ← rd token (tklen - 1);
          let stuffBigint := '(num, _) ← strToBigint (token ++ [0]) (length token); Ok (DBigint num) in
          if c =? 76 then stuffBigint
          else let '(number, erange) := strtoll token 0 in if erange : bool then stuffBigint else Ok (DLong number)
      end
  | _ => Ok (DFloat (atof lc_decimal_point token))
  end.

(** The symbol of a name; with a dollar in front it is a global symbol of MAIN. *)
Definition read_symbol (token : list Z) (s : store) : result (datum * store) :=
  match token with
  | 36 :: _ =>
      '(p, s) ← translateCreateSymbol mainContext (string_of token) CELL_NIL mainContext true s;
      d ← field n_data p s;
      s ← set_data (Payload (pl_name d) (Z.lor (pl_flags d) SYMBOL_GLOBAL) (pl_contents d) (pl_context d)) p s;
      Ok (DSymbol p, s)
  | _ =>
      '(p, s) ← translateCreateSymbol mainContext (string_of token) CELL_NIL currentContext false s;
      Ok (DSymbol p, s)
  end.

(** The context that the token before a colon names. *)
Definition read_context (token : string) (s : store) : result (ptr * store) :=
  '(contextPtr, s) ← (if Nat.eqb currentContext mainContext then Ok (NULL, s)
                      else
                        name ← name_of currentContext s;
                        if bool_decide (name = token) then Ok (currentContext, s)
                        else lookupSymbol token currentContext s);
  if Nat.eqb contextPtr NULL then translateCreateSymbol mainContext token CELL_CONTEXT mainContext true s
  else Ok (contextPtr, s).

(** The symbol [token] behind the colon. *)
Definition read_qualified (contextPtr : ptr) (token : list Z) (s : store) : result (datum * store) :=
  d ← field n_data contextPtr s;
  match pl_contents d with
  | ContextCell q _ =>
      if Nat.eqb q contextPtr then
        '(p, s) ← translateCreateSymbol mainContext (string_of token) CELL_NIL contextPtr true s;
        Ok (DSymbol p, s)
      else Ok (DDyn contextPtr (string_of token), s)
  | OtherCell _ => Ok (DDyn contextPtr (string_of token), s)
  | NoContents => UB
  end.

Definition is_macro (items : list datum) (s : store) : result bool :=
  match items with
  | DSymbol p :: _ => d ← field n_data p s; Ok (negb (Z.land (pl_flags d) SYMBOL_MACRO =? 0))
  | _ => Ok false
  end.

(** ["lambda"], ["fn"], ["lambda-macro"], ["fn-macro"], and the first characters ["[text]"]. *)
Definition lambda_token (token : list Z) : option envelope :=
  if bool_decide (token = [108; 97; 109; 98; 100; 97] ∨ token = [102; 110]) then Some ELambda
  else if bool_decide (token = [108; 97; 109; 98; 100; 97; 45; 109; 97; 99; 114; 111] ∨ token = [102; 110; 45; 109; 97; 99; 114; 111])
  then Some EFexpr
  else None.
Definition is_text (token : list Z) : bool := bool_decide (take 6 token = [91; 116; 101; 120; 116; 93]).

(** The type of [cell], the last cell linked or the envelope, is changed to that of a lambda. *)
Definition mark_lambda (k env : envelope) (cells : list datum) : option (envelope * list datum) :=
  match cells, env with
  | [], EExpr => Some (k, [])
  | DExpr l :: cells, _ => Some (env, envelop k l :: cells)
  | _, _ => None
  end.

(** What is returned, the kind of the envelope, its cells and the state. *)
Definition read_result : Type := bool * envelope * list datum * rstate.

(** [linkCell] and what follows it: an envelope that is a quote is complete, otherwise the
    reader goes on, to [GETNEXT], as long as a parenthesis is open.  The cells linked so far come
    last one first. *)
Definition link_cell (getnext : envelope → list datum → rstate → result read_result) (env : envelope) (cells : list datum)
    (newCell : datum) (st : rstate) : result read_result :=
  match env, cells with
  | EQuote, [] => Ok (true, env, [newCell], st)
  | _, _ =>
      if negb (parStackCounter st =? 0) then
        c ← rd (stream st) 0;
        if negb (c =? 0) then getnext env (newCell :: cells) st else Fail ERR_MISSING_PAR
      else Ok (false, env, reverse (newCell :: cells), st)
  end.

(** *** The tokens that need more of the stream *)

Definition read_text (s : list Z) : result (list Z * list Z) :=
  text ← readStreamText s;
  match text with Some r => Ok r | None => Fail ERR_TEXT_END_TAG end.

(** Behind the token of a context: the symbol or the dynamic symbol, and the rest of the stream. *)
Definition read_context_symbol (token : list Z) (st : rstate) : result (datum * rstate) :=
  '(contextPtr, s) ← read_context (string_of token) (world st);
  lx ← getToken lc_decimal_point (MAX_STRING + 4) (stream st);
  match lx_kind lx with
  | TKN_SYMBOL =>
      '(newCell, s) ← read_qualified contextPtr (lx_text lx) s;
      Ok (newCell, set_world s (set_stream (lx_rest lx) st))
  | _ => Fail ERR_SYMBOL_EXPECTED
  end.

(** A list that has been read, expanded if it is the call of a macro. *)
Definition finish_list (k : envelope) (items : list datum) (st : rstate) : result (datum * rstate) :=
  macro ← is_macro items (world st);
  if macro : bool then '(newCell, s) ← expand (envelop k items) (world st); Ok (newCell, set_world s st)
  else Ok (envelop k items, st).

Fixpoint compileExpression (fuel : nat) (env : envelope) (cells : list datum) (st : rstate) : result read_result :=
  match fuel with
  | O => NoFuel
  | S fuel =>
      lx ← getToken lc_decimal_point (MAX_STRING + 4) (stream st);
      let st := set_stream (lx_rest lx) st in
      let token := lx_text lx in
      let linkCell := link_cell (compileExpression fuel) env cells in
      match lx_kind lx with
      | TKN_ERROR => Fail ERR_EXPRESSION
      | TKN_EMPTY =>
          if negb (parStackCounter st =? 0) then Fail ERR_MISSING_PAR else Ok (false, env, reverse cells, st)
      | TKN_HEX | TKN_BINARY | TKN_OCTAL | TKN_DECIMAL | TKN_FLOAT =>
          newCell ← read_number (lx_kind lx) token (lx_len lx); linkCell newCell st
      | TKN_STRING => linkCell (DString token) st
      | TKN_SYMBOL =>
          match lambda_token token with
          | Some k =>
              match mark_lambda k env cells with
              | Some (env, cells) => compileExpression fuel env cells st
              | None => Fail ERR_INVALID_LAMBDA
              end
          | None =>
              if is_text token then
                '(text, s) ← read_text (stream st); linkCell (DString text) (set_stream s st)
              else
                '(newCell, s) ← read_symbol token (world st); linkCell newCell (set_world s st)
          end
      | TKN_CONTEXT => '(newCell, st) ← read_context_symbol token st; linkCell newCell st
      | TKN_QUOTE =>
          '(_, _, items, st) ← compileExpression fuel EQuote [] st; linkCell (DQuote (hd DNil items)) st
      | TKN_LEFT_PAR =>
          '(_, k, items, st) ← compileExpression fuel EExpr [] (set_pars (parStackCounter st + 1) st);
          '(newCell, st) ← finish_list k items st;
          linkCell newCell st
      | TKN_RIGHT_PAR =>
          if parStackCounter st =? 0 then Fail ERR_MISSING_PAR
          else Ok (true, env, reverse cells, set_pars (parStackCounter st - 1) st)
      end
  end.

(** [sysEvalString] in the mode [READ_EXPR]: the first expression of the text from [offset] on and
    where it ends. *)
Definition read_expr (fuel : nat) (evalString : list Z) (offset : nat) (pars : Z) (s : store)
    : result (option (datum * nat) * rstate) :=
  if decide (offset < length evalString)%nat then
    '(more, _, items, st) ← compileExpression fuel EQuote [] (RState pars s (drop offset evalString));
    if more : bool then Ok (Some (hd DNil items, (length evalString - length (stream st))%nat), st) else Ok (None, st)
  else UB.

End Reader.
