(* ===== verification/Printer.v ===== *)
(** * The printer (src/newlisp.c, [printCell])

    The output of the printer on a string device, with the state of the pretty
    printer: how deep the parentheses are, on which depth the current line began, how long
    it is.  Primitives, imported functions, arrays and the debugger's marks are left out;
    floats are formatted by [prettyPrintFloat], which the user sets. *)

From stdpp Require Import base list numbers tactics strings gmap.
From Stdlib Require Import ZArith Lia SpecFloat String Ascii.
From S2P Require Import Prelude Cell Symtree Context Bigint Token Bigtext Reader.
From stdpp Require Import list.

#[global] Open Scope Z_scope.

Definition PRINT_TYPE_MASK := 0x0f.
Definition PRETTYPRINT_DOUBLE := 1.

Fixpoint bytes_of (s : string) : list Z :=
  match s with EmptyString => [] | String c s => Z.of_N (N_of_ascii c) :: bytes_of s end.

Record pstate := PState {
  prettyPrintPars : Z;
  prettyPrintCurrent : Z;
  prettyPrintLength : Z;
  prettyPrintFlags : Z;
  printed : list Z;
  symbols : store
}.

Definition set_flags (f : Z) (st : pstate) : pstate :=
  PState (prettyPrintPars st) (prettyPrintCurrent st) (prettyPrintLength st) f (printed st) (symbols st).
Definition set_depth (n : Z) (st : pstate) : pstate :=
  PState n (prettyPrintCurrent st) (prettyPrintLength st) (prettyPrintFlags st) (printed st) (symbols st).
Definition set_store (s : store) (st : pstate) : pstate :=
  PState (prettyPrintPars st) (prettyPrintCurrent st) (prettyPrintLength st) (prettyPrintFlags st) (printed st) s.
Definition new_line (st : pstate) : pstate :=
  PState (prettyPrintPars st) (prettyPrintPars st) (prettyPrintPars st) (Z.lor (prettyPrintFlags st) PRETTYPRINT_DOUBLE)
    (printed st) (symbols st).

(** What [%s] writes of a buffer. *)
Fixpoint c_bytes (l : list Z) : list Z :=
  match l with [] => [] | c :: l => if c =? 0 then [] else c :: c_bytes l end.

Definition varPrintf (l : list Z) (st : pstate) : pstate :=
  PState (prettyPrintPars st) (prettyPrintCurrent st) (int32 (prettyPrintLength st + Z.of_nat (length (c_bytes l))))
    (prettyPrintFlags st) (printed st ++ c_bytes l) (symbols st).

(** Decimal digits of an integer, [%ld], and the three of [%03u]. *)
Fixpoint decimal_digits (fuel : nat) (z : Z) (acc : list Z) : list Z :=
  match fuel with
  | O => acc
  | S fuel => let acc := 48 + z mod 10 :: acc in if z <? 10 then acc else decimal_digits fuel (z / 10) acc
  end.
Definition decimal (z : Z) : list Z :=
  if z <? 0 then c_minus :: decimal_digits 20 (- z) [] else decimal_digits 20 z [].
Definition three_digits (c : Z) : list Z := [48 + c / 100; 48 + c / 10 mod 10; 48 + c mod 10].

Section Printer.
Variables (mainContext currentContext : ptr) (stringOutputRaw : bool) (prettyPrintMaxLength : Z) (prettyPrintTab : list Z)
  (format_float : spec_float → list Z).

(** ** Pretty printing *)

Definition prettyPrint (st : pstate) : pstate :=
  if negb (prettyPrintFlags st =? 0) then st
  else
    let st := if 0 <? prettyPrintPars st then varPrintf [10] st else st in
    let st := Nat.iter (Z.to_nat (prettyPrintPars st)) (varPrintf prettyPrintTab) st in
    new_line st.

Definition too_long (st : pstate) : bool := prettyPrintMaxLength <? wrapU 64 (prettyPrintLength st).

Definition pretty_if (b : bool) (st : pstate) : pstate := if b then prettyPrint st else st.

(** ** Strings *)

Definition print_char (c : Z) (st : pstate) : pstate :=
  if c =? 8 then varPrintf [c_backslash; 98] st
  else if c =? 12 then varPrintf [c_backslash; 102] st
  else if c =? 10 then varPrintf [c_backslash; 110] st
  else if c =? 13 then varPrintf [c_backslash; 114] st
  else if c =? 9 then varPrintf [c_backslash; 116] st
  else if c =? c_backslash then varPrintf [c_backslash; c_backslash] st
  else if c =? c_dquote then varPrintf [c_backslash; c_dquote] st
  else if (c <? 32) || (stringOutputRaw && (126 <? c)) then varPrintf (c_backslash :: three_digits c) st
  else varPrintf [c] st.

Definition printString (str : list Z) (st : pstate) : pstate :=
  if decide (MAX_STRING ≤ length str)%nat then
    let st := varPrintf [91; 116; 101; 120; 116; 93] st in
    let st := foldl (λ st c, varPrintf [c] st) st str in
    varPrintf LIMIT st
  else
    let st := varPrintf [c_dquote] st in
    let st := foldl (λ st c, print_char c st) st str in
    varPrintf [c_dquote] st.

(** ** Symbols *)

(** A context variable: its contents is a context cell of itself. *)
Definition is_context (d : payload) (p : ptr) : result bool :=
  match pl_contents d with NoContents => UB | ContextCell q _ => Ok (Nat.eqb q p) | OtherCell _ => Ok false end.

(** The first test of [printCell]: a name of another context. *)
Definition is_foreign (p : ptr) (d : payload) (name : string) (s : store) : result (bool * store) :=
  if Nat.eqb (pl_context d) currentContext then Ok (false, s)
  else
    '(hidden, s) ← (if Z.land (pl_flags d) SYMBOL_GLOBAL =? 0 then Ok (true, s)
                    else '(q, s) ← lookupSymbol name currentContext s; Ok (negb (Nat.eqb q NULL), s));
    if hidden : bool then c ← is_context d p; Ok (negb c, s) else Ok (false, s).

(** The second: a symbol that hides a global one. *)
Definition overwrites_global (d : payload) (name : string) (s : store) : result (bool * store) :=
  if Nat.eqb (pl_context d) currentContext && negb (Nat.eqb currentContext mainContext) then
    '(sp, s) ← lookupSymbol name mainContext s;
    if Nat.eqb sp NULL then Ok (false, s)
    else e ← field n_data sp s; Ok (negb (Z.land (pl_flags e) SYMBOL_GLOBAL =? 0), s)
  else Ok (false, s).

Definition symbol_text (p : ptr) (s : store) : result (list Z * store) :=
  d ← field n_data p s;
  name ← name_of p s;
  '(foreign, s) ← is_foreign p d name s;
  if foreign : bool then c ← name_of (pl_context d) s; Ok (bytes_of c ++ c_colon :: bytes_of name, s)
  else
    '(hides, s) ← overwrites_global d name s;
    if hides : bool then c ← name_of currentContext s; Ok (bytes_of c ++ c_colon :: bytes_of name, s)
    else Ok (bytes_of name, s).

Definition print_symbol (p : ptr) (st : pstate) : result pstate :=
  '(t, s) ← symbol_text p (symbols st);
  Ok (varPrintf t (set_store s st)).

(** ** Cells *)

(** How many elements [(head ...)] shows on its first line, from the flags of the symbol. *)
Definition print_type (l : list datum) (s : store) : result Z :=
  match l with
  | DSymbol p :: _ => d ← field n_data p s; Ok (Z.land (pl_flags d) PRINT_TYPE_MASK)
  | _ => Ok 0
  end.

Definition space_between (l : list datum) (st : pstate) : pstate :=
  match l with [] => st | _ => varPrintf [32] st end.
Definition set_double (st : pstate) : pstate := set_flags (Z.lor (prettyPrintFlags st) PRETTYPRINT_DOUBLE) st.
Definition clear_double (st : pstate) : pstate := set_flags (Z.ldiff (prettyPrintFlags st) PRETTYPRINT_DOUBLE) st.
Definition deeper (n : Z) (st : pstate) : pstate := set_depth (prettyPrintPars st + n) st.

Section Items.
Variable printCell : datum → pstate → result pstate.

(** [while(item != nilCell)]. *)
Definition print_rest := fix print_rest (l : list datum) (st : pstate) : result pstate :=
  match l with
  | [] => Ok st
  | item :: l =>
      st ← printCell item (pretty_if (too_long st) st);
      print_rest l (space_between l st)
  end.

(** The first [k] elements, then the others. *)
Definition print_head := fix print_head (l : list datum) (k : nat) (st : pstate) : result pstate :=
  match k, l with
  | O, _ => print_rest l (prettyPrint st)
  | _, [] => Ok (prettyPrint (set_double st))
  | S k, item :: l =>
      st ← printCell item st;
      print_head l k (match l with [] => set_double st | _ => varPrintf [32] st end)
  end.
End Items.

(** ["(lambda "] and ["(lambda-macro "]. *)
Definition LAMBDA_TEXT : list Z := [40; 108; 97; 109; 98; 100; 97; 32].
Definition FEXPR_TEXT : list Z := [40; 108; 97; 109; 98; 100; 97; 45; 109; 97; 99; 114; 111; 32].

Fixpoint printCell (cell : datum) (printFlag : bool) (st : pstate) : result pstate :=
  let line st := pretty_if ((prettyPrintPars st <=? prettyPrintCurrent st) || too_long st) st in
  st ← match cell with
       | DNil => Ok (varPrintf [110; 105; 108] st)
       | DTrue => Ok (varPrintf [116; 114; 117; 101] st)
       | DLong z => Ok (varPrintf (decimal z) st)
       | DBigint num =>
           '(t, _) ← bigintToDigits num (length num - 1) 48; Ok (varPrintf (t ++ [76]) st)
       | DFloat f => Ok (varPrintf (format_float f) st)
       | DString s => Ok (if printFlag then printString s st else varPrintf s st)
       | DSymbol p | DContext p => print_symbol p st
       | DDyn c name => cn ← name_of c (symbols st); Ok (varPrintf (bytes_of cn ++ c_colon :: bytes_of name) st)
       | DQuote d => printCell d printFlag (set_double (varPrintf [c_quote] st))
       | DExpr l =>
           let st := line st in
           n ← print_type l (symbols st);
           st ← (if n =? 0 then print_rest (λ d, printCell d true) l (deeper 1 (varPrintf [c_left] st))
                 else print_head (λ d, printCell d true) l (Z.to_nat n) (deeper 1 (varPrintf [c_left] (prettyPrint st))));
           Ok (deeper (-1) (varPrintf [c_right] st))
       | DLambda l =>
           st ← print_rest (λ d, printCell d true) l (deeper 1 (varPrintf LAMBDA_TEXT (line st)));
           Ok (deeper (-1) (varPrintf [c_right] st))
       | DFexpr l =>
           st ← print_rest (λ d, printCell d true) l (deeper 1 (varPrintf FEXPR_TEXT (line st)));
           Ok (deeper (-1) (varPrintf [c_right] st))
       end;
  Ok (clear_double st).

End Printer.
