(* ===== verification/Lexing.v ===== *)
(** * The tokens of printed text (src/newlisp.c, [getToken])

    What [getToken] answers on the texts that the printer writes: names,
    integers, strings and parentheses, behind any white space. *)

From stdpp Require Import base list numbers tactics strings.
From Stdlib Require Import ZArith Lia Ascii.
From S2P Require Import Prelude Utf8 Arith Token Tokens Bigint Bigtext Reader Printer.
From stdpp Require Import list.

#[global] Open Scope Z_scope.

(** ** White space *)

Definition white (w : list Z) : Prop := Forall (λ c, 0 < c ≤ 32) w.

Lemma white_nil : white [].
Proof. constructor. Qed.

(** Where a name or a number ends: at white space, a closing parenthesis or the end. *)
Definition delimiter (e : Z) : Prop := 0 ≤ e ≤ 32 ∨ e = 41.

Lemma skip_white_text w c u : white w → 32 < c → skip_white (w ++ c :: u) = Ok (c :: u).
Proof.
  intros Hw Hc. induction Hw as [|x w Hx Hw IH]; cbn [app skip_white].
  - by rewrite (proj2 (Z.leb_gt c 32)).
  - rewrite (proj2 (Z.leb_le x 32)), (proj2 (Z.eqb_neq x 0)) by lia. done.
Qed.

Lemma strip_text n w c u : white w → 32 < c → c ≠ c_semicolon → c ≠ c_hash → strip (S n) (w ++ c :: u) = Ok (true, c :: u).
Proof.
  intros Hw Hc H1 H2. cbn [strip]. rewrite skip_white_text by done. cbn [mbind result_bind rd lookup list_lookup].
  by rewrite !(proj2 (Z.eqb_neq c _)) by lia.
Qed.

Lemma copy_while_text p n cap l e u : ∀ t, Forall (λ c, p c = true) l → p e = false → (length t + length l ≤ n)%nat → (n < cap)%nat →
  copy_while p (Some n) cap t (l ++ e :: u) = Ok (t ++ l, e :: u).
Proof.
  induction l as [|c l IH]; intros t Hl He Hn Hc; cbn [app copy_while].
  - rewrite He. by rewrite app_nil_r.
  - apply Forall_cons in Hl as [Hp Hl]. cbn in Hn. rewrite Hp, bool_decide_eq_true_2 by lia. cbn [andb].
    rewrite put_byte_ok by lia. cbn [mbind result_bind]. rewrite IH, <- app_assoc; [done|done|done|rewrite length_snoc; lia|done].
Qed.

Section Lexing.
Variable lc_decimal_point : Z.
Hypothesis lc_point : lc_decimal_point = 46 ∨ lc_decimal_point = 44.

#[local] Abbreviation cap := (MAX_STRING + 4)%nat.
#[local] Abbreviation lex := (getToken lc_decimal_point cap).

(** Behind the white space. *)
Definition token_at (s : list Z) : result lexeme :=
  '(t, s) ← get_sign lc_decimal_point cap s;
  c ← rd s 0;
  number ← (if isDigit c then Ok true
            else if c =? lc_decimal_point then c1 ← rd s 1; Ok (isDigit c1) else Ok false);
  if number : bool then get_number lc_decimal_point cap t s
  else t ← put_byte cap t c; get_other c cap t (drop 1 s).

Lemma lex_at w c u : white w → 32 < c → c ≠ c_semicolon → c ≠ c_hash → lex (w ++ c :: u) = token_at (c :: u).
Proof. intros Hw Hc H1 H2. unfold getToken. rewrite strip_text by done. done. Qed.

Lemma sign_none c u : c ≠ c_minus → c ≠ c_plus → get_sign lc_decimal_point cap (c :: u) = Ok ([], c :: u).
Proof. intros H1 H2. unfold get_sign. cbn [rd lookup list_lookup mbind result_bind]. by rewrite !(proj2 (Z.eqb_neq c _)). Qed.

(** A character that starts no number. *)
Lemma token_other c u : c ≠ c_minus → c ≠ c_plus → isDigit c = false → c ≠ lc_decimal_point →
  token_at (c :: u) = get_other c cap [c] u.
Proof.
  intros H1 H2 H3 H4. unfold token_at. rewrite sign_none by done. cbn [rd lookup list_lookup mbind result_bind].
  rewrite H3, (proj2 (Z.eqb_neq c _)) by done. cbn [mbind result_bind].
  rewrite put_byte_ok by (unfold MAX_STRING; cbn; lia). cbn [mbind result_bind drop app]. by rewrite drop_0.
Qed.

(** ** Single characters *)

Lemma lex_left w u : white w → lex (w ++ c_left :: u) = Ok (Lexeme TKN_LEFT_PAR [c_left] None u).
Proof. intros Hw. rewrite lex_at by done. rewrite token_other by (done || lia). done. Qed.

Lemma lex_right w u : white w → lex (w ++ c_right :: u) = Ok (Lexeme TKN_RIGHT_PAR [c_right] None u).
Proof. intros Hw. rewrite lex_at by done. rewrite token_other by (done || lia). done. Qed.

Lemma lex_quote w u : white w → lex (w ++ c_quote :: u) = Ok (Lexeme TKN_QUOTE [c_quote] None u).
Proof. intros Hw. rewrite lex_at by done. rewrite token_other by (done || lia). done. Qed.

(** ** Names *)

Definition name_char (c : Z) : bool := (32 <? c) && (c <? 256) && negb (ends_symbol c).

(** Whether [getToken] takes the first characters as the beginning of a number. *)
Definition starts_number (t : list Z) : bool :=
  match t with
  | c :: d :: _ => isDigit c || ((c =? lc_decimal_point) && isDigit d) ||
      (((c =? c_minus) || (c =? c_plus)) && (isDigit d || (d =? lc_decimal_point)))
  | [c] => isDigit c
  | [] => false
  end.

(** A name that is read as one token. *)
Definition name_token (t : list Z) : bool :=
  match t with
  | [] => false
  | c :: _ =>
      forallb name_char t && negb (starts_number t) && bool_decide (length t ≤ MAX_SYMBOL)%nat &&
      negb ((c =? c_lbrace) || (c =? c_open) || (c =? c_semicolon) || (c =? c_hash))
  end.

(** And as a name. *)
Definition plain_name (t : list Z) : bool := name_token t && match lambda_token t with None => true | Some _ => false end.

Lemma isDigit_spec c : isDigit c = true ↔ 48 ≤ c ≤ 57.
Proof. unfold isDigit. lia. Qed.

Lemma isDigit_false c : ¬ (48 ≤ c ≤ 57) → isDigit c = false.
Proof. unfold isDigit. lia. Qed.

Lemma lex_name w t e u : white w → name_token t = true → delimiter e ∨ e = c_colon →
  lex (w ++ t ++ e :: u) =
    Ok (if e =? c_colon then Lexeme TKN_CONTEXT t (Some (length t)) u else Lexeme TKN_SYMBOL t (Some (length t)) (e :: u)).
Proof.
  intros Hw Hp He. destruct t as [|c t]; [done|]. cbn [app].
  unfold name_token in Hp. rewrite !andb_true_iff in Hp. destruct Hp as (((Hch & Hnum) & Hlen) & Hfirst).
  cbn [forallb] in Hch. apply andb_true_iff in Hch as [Hc Ht]. unfold name_char, ends_symbol in Hc. apply bool_decide_eq_true in Hlen.
  rewrite lex_at by (done || lia).
  assert (Hfe : ends_symbol e = true) by (unfold delimiter, ends_symbol in *; lia).
  assert (Hde : isDigit e = false) by (apply isDigit_false; unfold delimiter in *; lia).
  assert (Hother : get_other c cap [c] (t ++ e :: u) =
    Ok (if e =? c_colon then Lexeme TKN_CONTEXT (c :: t) (Some (length (c :: t))) u else Lexeme TKN_SYMBOL (c :: t) (Some (length (c :: t))) (e :: u))).
  { unfold get_other. rewrite !(proj2 (Z.eqb_neq c _)) by lia. cbn [orb].
    rewrite copy_while_text.
    - cbn [mbind result_bind rd lookup list_lookup app]. unfold finish_len, ends, MAX_SYMBOL, MAX_STRING in *.
      rewrite !decide_True by (cbn in *; lia). by destruct (e =? c_colon).
    - apply List.Forall_forall. intros x Hx. rewrite List.forallb_forall in Ht. specialize (Ht x Hx). unfold name_char in Ht. by apply andb_true_iff in Ht as [_ Ht].
    - by rewrite Hfe.
    - cbn in *. lia.
    - unfold MAX_SYMBOL, MAX_STRING. lia. }
  destruct (t ++ e :: u) as [|d v] eqn:Ev; [by destruct t|].
  assert (Hd : starts_number (c :: t) = false → isDigit c = false ∧ (c = lc_decimal_point → isDigit d = false) ∧
    (c = c_minus ∨ c = c_plus → isDigit d = false ∧ d ≠ lc_decimal_point)).
  { destruct t as [|x t]; cbn in Ev; injection Ev as -> _; cbn [starts_number].
    - intros ->. split; [done|]. split; [done|]. intros _. split; [done|]. unfold delimiter in He. lia.
    - intros Hn. apply orb_false_iff in Hn as [[H1 H2]%orb_false_iff H3]. split; [done|]. split.
      + intros ->. by rewrite Z.eqb_refl in H2.
      + intros Hs. replace ((c =? c_minus) || (c =? c_plus)) with true in H3 by lia. cbn in H3.
        apply orb_false_iff in H3 as [? ?%Z.eqb_neq]. done. }
  destruct Hd as (Hc0 & Hcd & Hcs); [by destruct (starts_number _)|]. rewrite <- Hother. unfold token_at, get_sign.
  cbn [rd lookup list_lookup mbind result_bind].
  destruct ((c =? c_minus) || (c =? c_plus)) eqn:Es.
  - destruct Hcs as [H1 H2]; [lia|]. rewrite H1, (proj2 (Z.eqb_neq d _)) by done. cbn [orb mbind result_bind rd lookup list_lookup].
    rewrite Hc0. rewrite (proj2 (Z.eqb_neq c _)) by lia. done.
  - cbn [mbind result_bind rd lookup list_lookup]. rewrite Hc0. destruct (Z.eqb_spec c lc_decimal_point) as [E|]; [|done].
    rewrite Hcd by done. done.
Qed.

(** The names of symbols, with those that are one separator. *)
Definition symbol_token (t : list Z) : Prop := t = [c_comma] ∨ t = [c_colon] ∨ name_token t = true.

Lemma lex_symbol w t e u : white w → symbol_token t → delimiter e →
  lex (w ++ t ++ e :: u) = Ok (Lexeme TKN_SYMBOL t (Some (length t)) (e :: u)).
Proof.
  intros Hw Ht He. assert (Hde : isDigit e = false) by (apply isDigit_false; unfold delimiter in *; lia).
  assert (Hsep : ∀ c, c = c_comma ∨ c = c_colon → lex (w ++ [c] ++ e :: u) = Ok (Lexeme TKN_SYMBOL [c] (Some (length [c])) (e :: u))).
  { intros c Hc. cbn [app]. rewrite lex_at by (done || lia). unfold token_at. rewrite sign_none by lia. cbn [rd lookup list_lookup mbind result_bind].
    rewrite isDigit_false, Hde by lia. destruct (c =? lc_decimal_point); destruct Hc as [->| ->]; done. }
  destruct Ht as [->|[->|Ht]]; [by apply Hsep; left|by apply Hsep; right|].
  rewrite lex_name by (auto). by rewrite (proj2 (Z.eqb_neq e c_colon)) by (unfold delimiter in He; lia).
Qed.

(** ** Integers *)

(** The digits of a number without a zero in front. *)
Definition numeral_text (ds : list Z) : Prop := Forall digit_char ds ∧ (ds = [48] ∨ ∃ c r, ds = c :: r ∧ c ≠ 48).

Definition suffix_of (e : Z) : list Z := if e =? 76 then [76] else [].
Definition behind (e : Z) (u : list Z) : list Z := if e =? 76 then u else e :: u.

Lemma suffix_text t e u : delimiter e ∨ e = 76 → (length t ≤ MAX_DIGITS)%nat →
  get_suffix lc_decimal_point cap t (e :: u) =
    Ok (Lexeme TKN_DECIMAL (t ++ suffix_of e) (Some (length (t ++ suffix_of e))) (behind e u)).
Proof.
  intros He Hl. unfold get_suffix, suffix_of, behind, finish_len, ends, MAX_DIGITS, MAX_STRING in *. cbn [rd lookup list_lookup mbind result_bind].
  assert (Hup : toupper e = e) by (unfold toupper, delimiter in *; destruct (_ && _) eqn:E; lia). rewrite Hup.
  rewrite (proj2 (Z.eqb_neq e 88)), (proj2 (Z.eqb_neq e 66)), (proj2 (Z.eqb_neq e lc_decimal_point)),
    (proj2 (Z.eqb_neq e 69)) by (unfold delimiter in *; lia). cbn [andb negb].
  destruct (Z.eqb_spec e 76) as [->|].
  - rewrite put_byte_ok by lia. cbn [mbind result_bind]. by rewrite decide_True by (rewrite length_snoc; lia).
  - cbn [mbind result_bind]. rewrite app_nil_r. by rewrite decide_True by lia.
Qed.

Lemma number_text_at st ds e u : numeral_text ds → delimiter e ∨ e = 76 → (length (st ++ ds) ≤ MAX_DIGITS)%nat →
  get_number lc_decimal_point cap st (ds ++ e :: u) =
    Ok (Lexeme TKN_DECIMAL (st ++ ds ++ suffix_of e) (Some (length (st ++ ds ++ suffix_of e))) (behind e u)).
Proof.
  intros [Hds Hlead] He Hl. unfold get_number.
  assert (Hde : isDigit e = false) by (apply isDigit_false; unfold delimiter in *; lia).
  assert (Hoct : (c ← rd (ds ++ e :: u) 0; if c =? 48 then c1 ← rd (ds ++ e :: u) 1; Ok (isDigit c1) else Ok false) = Ok false).
  { destruct Hlead as [->|(c & r & -> & Hc)]; cbn [app rd lookup list_lookup mbind result_bind].
    - by rewrite Hde.
    - by rewrite (proj2 (Z.eqb_neq c 48)). }
  destruct (ds ++ e :: u) as [|c v] eqn:Ev; [by destruct ds|]. cbn [rd lookup list_lookup mbind result_bind] in Hoct |- *.
  rewrite Hoct. cbn [mbind result_bind]. rewrite <- Ev, copy_while_text.
  - cbn [mbind result_bind]. rewrite suffix_text by done. by rewrite <- app_assoc.
  - done.
  - done.
  - by rewrite <- length_app.
  - unfold MAX_DIGITS, MAX_STRING. lia.
Qed.

Lemma lex_decimal w st ds e u : white w → st = [] ∨ st = [c_minus] → numeral_text ds → delimiter e ∨ e = 76 →
  (length (st ++ ds) ≤ MAX_DIGITS)%nat →
  lex (w ++ st ++ ds ++ e :: u) =
    Ok (Lexeme TKN_DECIMAL (st ++ ds ++ suffix_of e) (Some (length (st ++ ds ++ suffix_of e))) (behind e u)).
Proof.
  intros Hw Hst Hds He Hl. pose proof (number_text_at st ds e u Hds He Hl) as Hn.
  destruct ds as [|d r]; [destruct Hds as [_ [?|(? & ? & ? & _)]]; done|].
  destruct Hds as [[Hd _]%Forall_cons _]. unfold digit_char in Hd. assert (Hd' := Hd). rewrite isDigit_spec in Hd'. cbn [app] in *.
  destruct Hst as [->| ->]; cbn [app].
  - rewrite lex_at by (done || lia). unfold token_at. rewrite sign_none by lia. cbn [mbind result_bind rd lookup list_lookup].
    rewrite Hd. exact Hn.
  - rewrite lex_at by done. unfold token_at, get_sign. cbn [mbind result_bind rd lookup list_lookup]. rewrite Hd.
    cbn [Z.eqb Pos.eqb orb]. rewrite put_byte_ok by (unfold MAX_STRING; cbn; lia). cbn [mbind result_bind drop rd lookup list_lookup].
    rewrite Hd. exact Hn.
Qed.

(** ** Strings *)

(** How a character stands in the text. *)
Definition char_text (raw : bool) (c : Z) : list Z :=
  if c =? 8 then [c_backslash; 98]
  else if c =? 12 then [c_backslash; 102]
  else if c =? 10 then [c_backslash; 110]
  else if c =? 13 then [c_backslash; 114]
  else if c =? 9 then [c_backslash; 116]
  else if c =? c_backslash then [c_backslash; c_backslash]
  else if c =? c_dquote then [c_backslash; c_dquote]
  else if (c <? 32) || (raw && (126 <? c)) then c_backslash :: three_digits c
  else [c].
Definition string_text (raw : bool) (s : list Z) : list Z := flat_map (char_text raw) s.

Lemma three_digits_read c : byte_ok c → next_are isDigit 3 (three_digits c) = Ok true ∧ uint8 (strtol_exact 10 (three_digits c)) = c.
Proof.
  intros Hc. assert (H : all_below 256 (λ c, match next_are isDigit 3 (three_digits c) with Ok true => true | _ => false end &&
    (uint8 (strtol_exact 10 (three_digits c)) =? c)) = true) by by vm_compute.
  eapply all_below_spec with (z := c) in H; [|exact Hc]. apply andb_true_iff in H as [H1 H2%Z.eqb_eq].
  destruct (next_are _ _ _) as [[]| | |]; done.
Qed.

Lemma get_string_char raw fuel t c v : byte_ok c → (length t < MAX_STRING)%nat →
  get_string (S fuel) cap t (char_text raw c ++ v) = get_string fuel cap (t ++ [c]) v.
Proof.
  intros Hc Hl. assert (Hl' : (length t < cap)%nat) by (unfold MAX_STRING in *; lia).
  assert (Hesc : ∀ x, isDigit x = false → get_escape cap t (x :: v) = Ok (Some (t ++ [c], v)) →
    get_string (S fuel) cap t (c_backslash :: x :: v) = get_string fuel cap (t ++ [c]) v).
  { intros x Hx He. cbn [get_string rd lookup list_lookup mbind result_bind]. cbn [Z.eqb Pos.eqb negb andb].
    rewrite bool_decide_eq_true_2 by done. cbn [drop next_are rd lookup list_lookup mbind result_bind].
    rewrite Hx. cbn [mbind result_bind]. by rewrite He. }
  assert (Hsimple : ∀ x : Z, get_escape cap t (x :: v) = (t ← put_byte cap t c; Ok (Some (t, v))) → get_escape cap t (x :: v) = Ok (Some (t ++ [c], v))).
  { intros x ->. by rewrite put_byte_ok. }
  unfold char_text.
  destruct (Z.eqb_spec c 8) as [->|H1]; [by apply Hesc, Hsimple|].
  destruct (Z.eqb_spec c 12) as [->|H2]; [by apply Hesc, Hsimple|].
  destruct (Z.eqb_spec c 10) as [->|H3]; [by apply Hesc, Hsimple|].
  destruct (Z.eqb_spec c 13) as [->|H4]; [by apply Hesc, Hsimple|].
  destruct (Z.eqb_spec c 9) as [->|H5]; [by apply Hesc, Hsimple|].
  destruct (Z.eqb_spec c c_backslash) as [->|H6]; [by apply Hesc, Hsimple|].
  destruct (Z.eqb_spec c c_dquote) as [->|H7]; [by apply Hesc, Hsimple|].
  destruct (_ || _) eqn:E.
  - destruct (three_digits_read c Hc) as [Hn Hv]. unfold three_digits in *. cbn [app get_string rd lookup list_lookup mbind result_bind].
    cbn [Z.eqb Pos.eqb negb andb]. rewrite bool_decide_eq_true_2 by done. cbn [drop].
    set (a := 48 + c / 100) in *. set (b := 48 + c / 10 mod 10) in *. set (d := 48 + c mod 10) in *.
    cbn [next_are rd lookup list_lookup mbind result_bind drop] in Hn |- *.
    destruct (isDigit a); [|done]. destruct (isDigit b); [|done]. destruct (isDigit d); [|done]. cbn [mbind result_bind take].
    rewrite take_0, drop_0, Hv, put_byte_ok by done. done.
  - assert (Hlo : 32 ≤ c) by lia. cbn [app get_string rd lookup list_lookup mbind result_bind].
    rewrite (proj2 (Z.eqb_neq c c_dquote)), (proj2 (Z.eqb_neq c 0)), (proj2 (Z.eqb_neq c c_backslash)) by lia. cbn [negb andb].
    rewrite bool_decide_eq_true_2, put_byte_ok by done. done.
Qed.

Lemma get_string_text raw s u : Forall byte_ok s → ∀ fuel t, (length s < fuel)%nat → (length t + length s < MAX_STRING)%nat →
  get_string fuel cap t (string_text raw s ++ c_dquote :: u) = Ok (Lexeme TKN_STRING (t ++ s) (Some (length (t ++ s))) u).
Proof.
  induction 1 as [|c s Hc Hs IH]; intros fuel t Hf Hl; (destruct fuel as [|fuel]; [cbn in Hf; lia|]).
  - cbn [string_text flat_map app get_string rd lookup list_lookup mbind result_bind]. rewrite app_nil_r. unfold MAX_STRING in *.
    cbn [Z.eqb Pos.eqb negb andb]. unfold finish_len, ends. by rewrite decide_True by (cbn in Hl; lia).
  - unfold string_text. cbn [flat_map]. rewrite <- app_assoc. cbn [length] in *. rewrite get_string_char by (done || lia). fold (string_text raw s).
    rewrite IH, <- app_assoc by (rewrite ?length_snoc; lia). done.
Qed.

Lemma length_string_text raw s : (length s ≤ length (string_text raw s))%nat.
Proof.
  induction s as [|c s IH]; cbn; [done|]. rewrite length_app.
  assert (1 ≤ length (char_text raw c))%nat by (unfold char_text; repeat case_match; cbn; lia). unfold string_text in IH. lia.
Qed.

Lemma lex_string raw w s u : white w → Forall byte_ok s → (length s < MAX_STRING)%nat →
  lex (w ++ c_dquote :: string_text raw s ++ c_dquote :: u) = Ok (Lexeme TKN_STRING s (Some (length s)) u).
Proof.
  intros Hw Hs Hl. rewrite lex_at by done. pose proof (length_string_text raw s).
  rewrite token_other by (done || lia). unfold get_other. cbn [Z.eqb Pos.eqb removelast].
  rewrite get_string_text; [done|done|rewrite length_app; lia|done].
Qed.

End Lexing.
