(* ===== verification/Reading.v ===== *)
(** * What the reader makes of printed text (src/newlisp.c, [compileExpression])

    [reads d t] says that the reader links the cell [d] for the text [t], wherever it
    stands; there is a lemma for every kind of cell. *)

From stdpp Require Import base list numbers tactics strings gmap.
From Stdlib Require Import ZArith Lia Ascii.
From S2P Require Import Prelude Cell Utf8 Arith Symtree Context Token Tokens Bigint Bigtext Reader Printer Lexing.
From stdpp Require Import list.

#[global] Open Scope Z_scope.

(** ** The value of digits *)

Lemma digit_value_char c : digit_char c → digit_value c = c - 48.
Proof. intros H. unfold digit_value. unfold digit_char in H. by rewrite H. Qed.

Lemma digits_value_text ds : Forall digit_char ds → ∀ acc, digits_value 10 ds acc = foldl (λ a c, 10 * a + (c - 48)) acc ds.
Proof.
  induction 1 as [|c ds Hc Hds IH]; intros acc; [done|]. cbn [digits_value foldl]. rewrite digit_value_char by done.
  unfold digit_char in Hc. rewrite isDigit_spec in Hc. rewrite (proj2 (Z.ltb_lt (c - 48) 10)) by lia. apply IH.
Qed.

Lemma magnitude_nonzero c r : c ≠ 48 → magnitude 0 (c :: r) = digits_value 10 (c :: r) 0.
Proof. intros H. unfold magnitude. by repeat case_match. Qed.

Lemma magnitude_text ds : numeral_text ds → magnitude 0 ds = chars_val ds.
Proof.
  intros [Hds [->|(c & r & -> & Hc)]]; [done|]. rewrite magnitude_nonzero by done. by apply digits_value_text.
Qed.

Lemma signed_digits ds : numeral_text ds → signed ds = (false, ds).
Proof.
  intros [Hds [->|(c & r & -> & Hc)]]; [done|]. apply Forall_cons in Hds as [Hd _]. unfold digit_char in Hd. rewrite isDigit_spec in Hd.
  unfold signed. by repeat (case_match; try lia).
Qed.

Lemma strtoll_text st ds z : st = [] ∧ z = chars_val ds ∨ st = [c_minus] ∧ z = - chars_val ds → numeral_text ds →
  INT64_MIN ≤ z ≤ INT64_MAX → strtoll (st ++ ds) 0 = (z, false).
Proof.
  intros Hst Hds Hz. unfold strtoll, strtol_exact.
  assert (E : (let '(neg, t) := signed (st ++ ds) in if neg : bool then - magnitude 0 t else magnitude 0 t) = z).
  { destruct Hst as [[-> ->]|[-> ->]]; cbn [app].
    - by rewrite signed_digits, magnitude_text.
    - cbn [signed]. by rewrite magnitude_text. }
  rewrite E. rewrite (proj2 (Z.ltb_ge _ _)), (proj2 (Z.ltb_ge _ _)) by lia. done.
Qed.

(** ** The digits of a value *)

Lemma decimal_digits_text n : ∀ z acc, 0 ≤ z < 10 ^ Z.of_nat n → (0 < n)%nat →
  ∃ ds, decimal_digits n z acc = ds ++ acc ∧ numeral_text ds ∧ chars_val ds = z ∧ (length ds ≤ n)%nat.
Proof.
  induction n as [|n IH]; intros z acc Hz Hn; [lia|]. cbn [decimal_digits]. pose proof (Z.mod_pos_bound z 10).
  assert (Hc : digit_char (48 + z mod 10)) by (unfold digit_char; rewrite isDigit_spec; lia).
  destruct (Z.ltb_spec z 10).
  - exists [48 + z mod 10]. rewrite Z.mod_small in * by lia. split; [done|]. split; [split; [by repeat constructor|]|].
    + destruct (Z.eq_dec z 0) as [->|]; [by left|right]. exists (48 + z), []. split; [done|lia].
    + split; [unfold chars_val; cbn; lia|cbn; lia].
  - rewrite pow10_S in Hz. destruct (IH (z / 10) (48 + z mod 10 :: acc)) as (ds & -> & [Hds Hlead] & Hv & Hl).
    + split; [apply Z.div_pos; lia|apply Z.div_lt_upper_bound; lia].
    + destruct n; [cbn in Hz; lia|lia].
    + exists (ds ++ [48 + z mod 10]). rewrite <- app_assoc. split; [done|]. split; [split; [apply Forall_app; by repeat constructor|]|].
      * right. destruct Hlead as [->|(c & r & -> & Hne)]; [|by exists c, (r ++ [48 + z mod 10])].
        assert (z / 10 = 0) by done. pose proof (Z.div_mod z 10). lia.
      * split; [|rewrite length_snoc; lia]. rewrite chars_val_snoc, Hv. pose proof (Z.div_mod z 10). lia.
Qed.

Lemma decimal_text z : INT64_MIN ≤ z ≤ INT64_MAX → ∃ st ds, decimal z = st ++ ds ∧
  (st = [] ∧ z = chars_val ds ∨ st = [c_minus] ∧ z = - chars_val ds) ∧ numeral_text ds ∧ (length (st ++ ds) ≤ 21)%nat.
Proof.
  intros Hz. unfold decimal, INT64_MIN, INT64_MAX in *. assert (Hp : 10 ^ Z.of_nat 20 = 100000000000000000000) by done.
  destruct (Z.ltb_spec z 0).
  - destruct (decimal_digits_text 20 (- z) []) as (ds & -> & Hds & Hv & Hl); [lia|lia|]. rewrite app_nil_r.
    exists [c_minus], ds. split; [done|]. split; [right; split; [done|lia]|]. split; [done|cbn; lia].
  - destruct (decimal_digits_text 20 z []) as (ds & -> & Hds & Hv & Hl); [lia|lia|]. rewrite app_nil_r.
    exists [], ds. split; [done|]. split; [left; split; [done|lia]|]. split; [done|cbn; lia].
Qed.

(** ** The reader on a text *)

Section Reading.
Variables (lc_decimal_point : Z) (mainContext currentContext : ptr) (expand : datum → store → result (datum * store)).
Hypothesis lc_point : lc_decimal_point = 46 ∨ lc_decimal_point = 44.
(** The symbols, up to the root of the tree used last. *)
Variable s0 : store.

#[local] Abbreviation cap := (MAX_STRING + 4)%nat.
#[local] Abbreviation read := (compileExpression lc_decimal_point mainContext currentContext expand).

Definition at_text (pars : Z) (r : ptr) (u : list Z) : rstate := RState pars (set_root r s0) u.

Definition reads (d : datum) (t : list Z) : Prop :=
  t ≠ [] ∧ ∀ env cells pars r w e u fuel, white w → delimiter e → 0 ≤ pars → (length t ≤ fuel)%nat → ∃ r',
    read (S fuel) env cells (at_text pars r (w ++ t ++ e :: u)) =
      link_cell (read fuel) env cells d (at_text pars r' (e :: u)).

(** The elements of a list, up to the closing parenthesis. *)
Definition reads_all (l : list datum) (t : list Z) : Prop :=
  t ≠ [] ∧ ∀ k cells pars r w u fuel, white w → k ≠ EQuote → 0 < pars → (length t ≤ fuel)%nat → ∃ r',
    read fuel k cells (at_text pars r (w ++ t ++ u)) = Ok (true, k, reverse cells ++ l, at_text (pars - 1) r' u).

(** *** Atoms *)

(** One token is enough. *)
Lemma reads_token d t : t ≠ [] →
  (∀ w e u pars r env cells fuel, white w → delimiter e → ∃ r',
    read (S fuel) env cells (at_text pars r (w ++ t ++ e :: u)) =
      link_cell (read fuel) env cells d (at_text pars r' (e :: u))) → reads d t.
Proof. intros Hne H. split; [done|]. auto. Qed.

Lemma numeral_text_ne ds : numeral_text ds → ds ≠ [].
Proof. by intros [_ [->|(c & r & -> & _)]]. Qed.

Lemma reads_long z : INT64_MIN ≤ z ≤ INT64_MAX → reads (DLong z) (decimal z).
Proof.
  intros Hz. destruct (decimal_text z Hz) as (st & ds & E & Hv & Hds & Hl). rewrite E.
  pose proof (numeral_text_ne _ Hds) as Hne. apply reads_token; [by destruct st, ds|].
  intros w e u pars r env cells fuel Hw He. exists r. cbn [compileExpression]. cbv zeta. unfold at_text. cbn [stream].
  rewrite <- app_assoc. rewrite (lex_decimal _ lc_point); [|done|by destruct Hv as [[-> _]|[-> _]]; auto|done|by left|unfold MAX_DIGITS; lia].
  assert (Hsuf : suffix_of e = []) by (unfold suffix_of, delimiter in *; by rewrite (proj2 (Z.eqb_neq e 76)) by lia).
  rewrite Hsuf, app_nil_r. cbn [mbind result_bind lx_kind lx_text lx_len lx_rest].
  assert (Hb : behind e u = e :: u) by (unfold behind, delimiter in *; by rewrite (proj2 (Z.eqb_neq e 76)) by lia). rewrite Hb.
  assert (Hn : read_number lc_decimal_point TKN_DECIMAL (st ++ ds) (Some (length (st ++ ds))) = Ok (DLong z)).
  { unfold read_number. destruct (last_char ds (proj1 Hds) Hne) as (l & c & El & Hc).
    assert (Hrd : rd (st ++ ds) (length (st ++ ds) - 1) = Ok c).
    { apply rd_ok. rewrite El, app_assoc, length_snoc. rewrite lookup_app_r by lia. by replace (S (length (st ++ l)) - 1 - length (st ++ l))%nat with 0%nat by lia. }
    rewrite Hrd. cbn [mbind result_bind]. unfold digit_char in Hc. rewrite isDigit_spec in Hc. rewrite (proj2 (Z.eqb_neq c 76)) by lia.
    by rewrite (strtoll_text st ds z). }
  rewrite Hn. done.
Qed.

Lemma reads_string raw s : Forall byte_ok s → (length s < MAX_STRING)%nat →
  reads (DString s) (c_dquote :: string_text raw s ++ [c_dquote]).
Proof.
  intros Hs Hl. apply reads_token; [done|]. intros w e u pars r env cells fuel Hw He. exists r.
  cbn [compileExpression app]. cbv zeta. unfold at_text. cbn [stream]. rewrite <- app_assoc. cbn [app].
  rewrite (lex_string _ lc_point) by done. done.
Qed.

(** The digits of a big integer, below the limit of the token. *)
Lemma digits_below ds n : numeral_text ds → chars_val ds < 10 ^ Z.of_nat n → (0 < n)%nat → (length ds ≤ n)%nat.
Proof.
  intros [Hds [->|(c & r & -> & Hc)]] Hv Hn; [cbn; lia|]. pose proof (chars_val_lead c r Hds Hc) as H. cbn [length].
  destruct (decide (S (length r) ≤ n)%nat) as [|Hgt]; [done|]. exfalso. pose proof (pow10_le n (length r)). lia.
Qed.

Lemma reads_bigint num n : bigint_ok num n → length num = S n → bigval num n ≠ 0 ∨ nth 0 num 0 = 1 →
  Z.abs (bigval num n) < 10 ^ 1000 → ∃ t len, bigintToDigits num n 48 = Ok (t, len) ∧ reads (DBigint num) (t ++ [76]) ∧ 0 ∉ t.
Proof.
  intros Hok Hln Hz Hb. destruct (bigint_text num n Hok Hz) as (st & ds & len & num' & E & Hst & Hds & Hlead & Hv & E' & ->).
  exists (st ++ ds), len. split; [done|]. assert (Hnt : numeral_text ds) by by split.
  assert (Hlen : (length (st ++ ds) ≤ MAX_DIGITS)%nat).
  { rewrite <- Hv in Hb. change 1000 with (Z.of_nat 1000) in Hb. apply digits_below in Hb; [|done|lia].
    rewrite length_app. unfold MAX_DIGITS. destruct Hst as [->| ->]; cbn [length]; lia. }
  split.
  - apply reads_token; [by destruct st, ds|]. intros w e u pars r env cells fuel Hw He. exists r.
    cbn [compileExpression]. cbv zeta. unfold at_text. cbn [stream]. rewrite <- !app_assoc. cbn [app].
    rewrite (lex_decimal _ lc_point) by (auto). change (suffix_of 76) with [76]. change (behind 76 (e :: u)) with (e :: u).
    cbn [mbind result_bind lx_kind lx_text lx_len lx_rest].
    assert (Hrd : rd (st ++ ds ++ [76]) (length (st ++ ds ++ [76]) - 1) = Ok 76).
    { apply rd_ok. rewrite app_assoc, length_snoc. rewrite lookup_app_r by lia. by replace (S (length (st ++ ds)) - 1 - length (st ++ ds))%nat with 0%nat by lia. }
    unfold read_number. rewrite Hrd. cbn [mbind result_bind Z.eqb Pos.eqb]. rewrite <- !app_assoc, E'. cbn [mbind result_bind].
    rewrite take_ge by lia. done.
  - rewrite elem_of_app. intros [H|H].
    + destruct Hst as [->| ->]; set_solver.
    + rewrite List.Forall_forall in Hds. apply list_elem_of_In, Hds in H. done.
Qed.

(** A name for a symbol. *)
Lemma reads_symbol t p : symbol_token lc_decimal_point t → lambda_token t = None →
  (∀ r, ∃ r', read_symbol mainContext currentContext t (set_root r s0) = Ok (DSymbol p, set_root r' s0)) → reads (DSymbol p) t.
Proof.
  intros Ht Hl Hs. apply reads_token; [by destruct t; [destruct Ht as [|[|]]|]|]. intros w e u pars r env cells fuel Hw He.
  destruct (Hs r) as (r' & E). exists r'. cbn [compileExpression]. cbv zeta. unfold at_text. cbn [stream].
  rewrite (lex_symbol _ lc_point) by done. cbn [mbind result_bind lx_kind lx_text lx_len lx_rest set_stream world]. rewrite Hl.
  assert (Htext : is_text t = false).
  { unfold is_text. apply bool_decide_eq_false_2. intros Ht6. destruct Ht as [->|[->|Ht]]; [done|done|]. destruct t as [|c t]; [done|].
    cbn in Ht6. injection Ht6 as -> _. unfold name_token in Ht. by rewrite !andb_true_iff in Ht; destruct Ht as [_ ?]. }
  rewrite Htext, E. done.
Qed.

(** A name with that of a context in front. *)
Lemma reads_qualified c t p d : name_token lc_decimal_point c = true → symbol_token lc_decimal_point t →
  (∀ r, ∃ r', read_context mainContext currentContext (string_of c) (set_root r s0) = Ok (p, set_root r' s0)) →
  (∀ r, ∃ r', read_qualified mainContext p t (set_root r s0) = Ok (d, set_root r' s0)) →
  reads d (c ++ c_colon :: t).
Proof.
  intros Hc Ht Hp Hd. apply reads_token; [by destruct c|]. intros w e u pars r env cells fuel Hw He.
  destruct (Hp r) as (r1 & E1). destruct (Hd r1) as (r2 & E2). exists r2. cbn [compileExpression]. cbv zeta. unfold at_text. cbn [stream].
  rewrite <- app_assoc. cbn [app]. rewrite (lex_name _ lc_point) by auto. rewrite Z.eqb_refl.
  cbn [mbind result_bind lx_kind lx_text lx_len lx_rest]. unfold read_context_symbol. cbn [set_stream world stream].
  rewrite E1. cbn [mbind result_bind]. pose proof (lex_symbol _ lc_point [] t e u) as Hlex. cbn [app] in Hlex.
  rewrite Hlex by (done || constructor). cbn [mbind result_bind lx_kind lx_text lx_len lx_rest]. rewrite E2. done.
Qed.

(** *** Quotes and lists *)

Lemma reads_quote d w t : white w → reads d t → reads (DQuote d) (c_quote :: w ++ t).
Proof.
  intros Hw [Hne H]. split; [done|]. intros env cells pars r w' e u fuel Hw' He Hp Hf. cbn [length] in Hf. rewrite length_app in Hf.
  destruct fuel as [|fuel]; [lia|]. destruct (H EQuote [] pars r w e u fuel Hw He Hp) as (r' & E); [lia|]. exists r'.
  remember (S fuel) as f eqn:Ef. cbn [compileExpression app]. cbv zeta. subst f. unfold at_text. cbn [stream].
  rewrite (lex_quote _ lc_point) by done. cbn [mbind result_bind lx_kind lx_text lx_len lx_rest]. rewrite <- app_assoc. unfold set_stream.
  unfold at_text in E. cbn [parStackCounter world stream] in *. rewrite E. done.
Qed.

(** What follows an element is white space or the parenthesis. *)
Definition follows (t : list Z) : Prop := ∃ e v, t = e :: v ∧ delimiter e ∧ e ≠ 0.

Lemma reads_nil w : white w → reads_all [] (w ++ [c_right]).
Proof.
  intros Hw. split; [by destruct w|]. intros k cells pars r w' u fuel Hw' Hk Hp Hf. exists r.
  destruct fuel as [|fuel]; [rewrite length_app in Hf; cbn in Hf; lia|]. cbn [compileExpression]. cbv zeta. unfold at_text. cbn [stream].
  replace (w' ++ (w ++ [c_right]) ++ u) with ((w' ++ w) ++ c_right :: u) by by rewrite <- !app_assoc.
  rewrite (lex_right _ lc_point) by by apply Forall_app. cbn [mbind result_bind lx_kind lx_text lx_len lx_rest parStackCounter set_stream].
  rewrite (proj2 (Z.eqb_neq pars 0)) by lia. by rewrite app_nil_r.
Qed.

Lemma reads_cons w d t l t2 : white w → reads d t → follows t2 → reads_all l t2 → reads_all (d :: l) (w ++ t ++ t2).
Proof.
  intros Hw [Hne H] (e & v & -> & He & He0) [_ Hl]. split; [by destruct w, t|]. intros k cells pars r w' u fuel Hw' Hk Hp Hf.
  assert (Ht : (1 ≤ length t)%nat) by (destruct t; [done|cbn; lia]). rewrite !length_app in Hf. cbn [length] in Hf.
  destruct fuel as [|fuel]; [lia|].
  destruct (H k cells pars r (w' ++ w) e (v ++ u) fuel) as (r1 & E1); [by apply Forall_app|done|lia|lia|].
  destruct (Hl k (d :: cells) pars r1 [] u fuel) as (r2 & E2); [constructor|done|done|cbn; lia|].
  exists r2. replace (w' ++ (w ++ t ++ e :: v) ++ u) with ((w' ++ w) ++ t ++ e :: v ++ u) by by rewrite <- !app_assoc.
  rewrite E1. unfold link_cell. cbn [parStackCounter stream at_text]. rewrite (proj2 (Z.eqb_neq pars 0)) by lia.
  cbn [negb rd lookup list_lookup mbind result_bind]. rewrite (proj2 (Z.eqb_neq e 0)) by done. cbn [negb].
  rewrite reverse_cons, <- app_assoc in E2. cbn [app] in E2. by destruct k; [|rewrite E2..].
Qed.

(** The head of a list names no macro. *)
Definition no_macro (l : list datum) : Prop := ∀ r, is_macro l (set_root r s0) = Ok false.

Lemma reads_finish k l pars r u : no_macro l → finish_list expand k l (at_text pars r u) = Ok (envelop k l, at_text pars r u).
Proof. intros H. unfold finish_list, at_text. cbn [world]. by rewrite H. Qed.

Lemma reads_list l t : reads_all l t → no_macro l → reads (DExpr l) (c_left :: t).
Proof.
  intros [Hne H] Hm. split; [done|]. intros env cells pars r w e u fuel Hw He Hp Hf. cbn [length] in Hf.
  destruct (H EExpr [] (pars + 1) r [] (e :: u) fuel) as (r1 & E1); [constructor|done|lia|lia|]. exists r1.
  cbn [compileExpression app]. cbv zeta. unfold at_text. cbn [stream].
  rewrite (lex_left _ lc_point) by done. cbn [mbind result_bind lx_kind lx_text lx_len lx_rest]. unfold set_stream, set_pars. cbn [parStackCounter world stream].
  unfold at_text in E1. cbn [app] in E1. rewrite E1. cbn [mbind result_bind reverse rev_append app].
  change (reverse [] ++ l) with l. replace (pars + 1 - 1) with pars by lia.
  pose proof (reads_finish EExpr l pars r1 (e :: u) Hm) as Hfin. unfold at_text in Hfin. rewrite Hfin. done.
Qed.

(** A list that begins with [lambda] or [lambda-macro]. *)
Lemma reads_marked k name l t : k ≠ EExpr → k ≠ EQuote → name_token lc_decimal_point name = true → lambda_token name = Some k →
  reads_all l t → no_macro l → reads (envelop k l) (c_left :: name ++ 32 :: t).
Proof.
  intros Hk1 Hk2 Hname Hlam [Hne H] Hm. split; [done|]. intros env cells pars r w e u fuel Hw He Hp Hf.
  cbn [length] in Hf. rewrite length_app in Hf. cbn [length] in Hf. assert (Hn : (1 ≤ length name)%nat) by (destruct name; [done|cbn; lia]).
  destruct fuel as [|fuel]; [lia|].
  destruct (H k [] (pars + 1) r [32] (e :: u) fuel) as (r1 & E1); [by repeat constructor|done|lia|lia|]. exists r1.
  assert (E2 : read (S fuel) EExpr [] (at_text (pars + 1) r (name ++ 32 :: t ++ e :: u)) = Ok (true, k, l, at_text pars r1 (e :: u))).
  { cbn [compileExpression]. cbv zeta. unfold at_text. cbn [stream].
    pose proof (lex_name _ lc_point [] name 32 (t ++ e :: u)) as Hlex. cbn [app] in Hlex.
    rewrite Hlex; [|apply white_nil|done|left; left; lia]. cbn [Z.eqb Pos.eqb mbind result_bind lx_kind lx_text lx_len lx_rest]. rewrite Hlam.
    cbn [mark_lambda]. unfold set_stream. cbn [parStackCounter world]. unfold at_text in E1. cbn [app] in E1. rewrite E1.
    change (reverse [] ++ l) with l. by replace (pars + 1 - 1) with pars by lia. }
  remember (S fuel) as f eqn:Ef. cbn [compileExpression app]. cbv zeta. unfold at_text. cbn [stream].
  rewrite (lex_left _ lc_point) by done. cbn [mbind result_bind lx_kind lx_text lx_len lx_rest]. unfold set_stream, set_pars. cbn [parStackCounter world stream].
  unfold at_text in E2. rewrite <- app_assoc. cbn [app]. rewrite E2. cbn [mbind result_bind].
  pose proof (reads_finish k l pars r1 (e :: u) Hm) as Hfin. unfold at_text in Hfin. rewrite Hfin. done.
Qed.

Lemma name_lambda : name_token lc_decimal_point [108; 97; 109; 98; 100; 97] = true.
Proof. by destruct lc_point as [->| ->]. Qed.

Lemma name_lambda_macro : name_token lc_decimal_point [108; 97; 109; 98; 100; 97; 45; 109; 97; 99; 114; 111] = true.
Proof. by destruct lc_point as [->| ->]. Qed.

Lemma reads_lambda l t : reads_all l t → no_macro l → reads (DLambda l) (LAMBDA_TEXT ++ t).
Proof. intros H Hm. apply (reads_marked ELambda [108; 97; 109; 98; 100; 97]); try done. apply name_lambda. Qed.

Lemma reads_fexpr l t : reads_all l t → no_macro l → reads (DFexpr l) (FEXPR_TEXT ++ t).
Proof. intros H Hm. apply (reads_marked EFexpr [108; 97; 109; 98; 100; 97; 45; 109; 97; 99; 114; 111]); try done. apply name_lambda_macro. Qed.

(** *** A whole text *)

Lemma reads_expr d t w r fuel : reads d t → white w → (length (w ++ t) < fuel)%nat → ∃ r',
  read_expr lc_decimal_point mainContext currentContext expand fuel (w ++ t ++ [0]) 0 0 (set_root r s0) =
    Ok (Some (d, length (w ++ t)), at_text 0 r' [0]).
Proof.
  intros [Hne H] Hw Hf. unfold read_expr. rewrite decide_True by (rewrite !length_app; cbn; lia). rewrite drop_0.
  destruct fuel as [|fuel]; [lia|]. rewrite length_app in Hf.
  destruct (H EQuote [] 0 r w 0 [] fuel) as (r' & E); [done|left; lia|lia|lia|].
  exists r'. unfold at_text in *. rewrite E. cbn [link_cell mbind result_bind hd stream length]. do 4 f_equal. rewrite !length_app. cbn. lia.
Qed.

End Reading.
