(* ===== verification/Printing.v ===== *)
(** * What the printer writes (src/newlisp.c, [printCell])

    The text of a cell, with the white space of the pretty printer in front and
    between its parts, is one that the reader reads as that cell. *)

From stdpp Require Import base list numbers tactics strings gmap.
From Stdlib Require Import ZArith Lia SpecFloat Ascii.
From S2P Require Import Prelude Cell Utf8 Arith Symtree Context Token Tokens Bigint Bigtext Reader Printer Lexing Reading.
From stdpp Require Import list.

#[global] Open Scope Z_scope.

(** ** Output *)

(** [st'] is [st] with [t] written, and the same symbols. *)
Record emits (st st' : pstate) (t : list Z) : Prop := {
  em_printed : printed st' = printed st ++ t;
  em_symbols : symbols st' = symbols st
}.

Lemma emits_nil st st' : printed st' = printed st → symbols st' = symbols st → emits st st' [].
Proof. intros H1 H2. split; [by rewrite H1, app_nil_r|done]. Qed.

Lemma emits_app st1 st2 st3 t u : emits st1 st2 t → emits st2 st3 u → emits st1 st3 (t ++ u).
Proof. intros [H1 H2] [H3 H4]. split; [by rewrite H3, H1, app_assoc|by rewrite H4]. Qed.

Lemma c_bytes_id t : 0 ∉ t → c_bytes t = t.
Proof.
  induction t as [|c t IH]; intros H; [done|]. apply not_elem_of_cons in H as [H1 H2]. cbn [c_bytes].
  rewrite (proj2 (Z.eqb_neq c 0)) by done. by rewrite IH.
Qed.

Lemma emits_printf t st : 0 ∉ t → emits st (varPrintf t st) t.
Proof. intros H. split; [|done]. cbn. by rewrite c_bytes_id. Qed.

Lemma white_no_zero w : white w → 0 ∉ w.
Proof. intros H H0. unfold white in H. rewrite List.Forall_forall in H. apply list_elem_of_In, H in H0. lia. Qed.

Section Printing.
Variables (stringOutputRaw : bool) (prettyPrintMaxLength : Z) (prettyPrintTab : list Z).
Hypothesis tab_white : white prettyPrintTab.

Lemma prettyPrint_emits st : ∃ w, white w ∧ emits st (prettyPrint prettyPrintTab st) w.
Proof.
  unfold prettyPrint. destruct (negb _); [exists []; split; [apply white_nil|by apply emits_nil]|].
  assert (Hline : ∃ w, white w ∧ emits st (if 0 <? prettyPrintPars st then varPrintf [10] st else st) w).
  { destruct (0 <? _).
    - exists [10]. split; [by apply Forall_cons; split; [|apply white_nil]|]. apply emits_printf. set_solver.
    - exists []. split; [apply white_nil|by apply emits_nil]. }
  destruct Hline as (w & Hw & He). set (st1 := if 0 <? prettyPrintPars st then _ else _) in *. clearbody st1.
  assert (Htabs : ∀ n, ∃ w, white w ∧ emits st1 (Nat.iter n (varPrintf prettyPrintTab) st1) w).
  { induction n as [|n (w' & Hw' & He')]; [exists []; split; [apply white_nil|by apply emits_nil]|].
    exists (w' ++ prettyPrintTab). split; [by apply Forall_app|]. eapply emits_app; [done|]. cbn. by apply emits_printf, white_no_zero. }
  destruct (Htabs (Z.to_nat (prettyPrintPars st1))) as (w' & Hw' & He'). exists (w ++ w'). split; [by apply Forall_app|].
  destruct (emits_app _ _ _ _ _ He He') as [H1 H2]. by split.
Qed.

Lemma pretty_if_emits b st : ∃ w, white w ∧ emits st (pretty_if prettyPrintTab b st) w.
Proof. destruct b; [apply prettyPrint_emits|]. exists []. split; [apply white_nil|by apply emits_nil]. Qed.

(** ** Strings *)

Lemma char_text_no_zero raw c : byte_ok c → 0 ∉ char_text raw c.
Proof.
  intros Hc. unfold byte_ok in Hc. assert (Hd : 0 ≤ c / 100 ∧ 0 ≤ c / 10 mod 10 ∧ 0 ≤ c mod 10).
  { split; [apply Z.div_pos; lia|]. split; apply Z.mod_pos_bound; lia. }
  intros H. unfold char_text, three_digits in H. repeat case_match; set_solver by lia.
Qed.

Lemma print_char_text c st : byte_ok c → emits st (print_char stringOutputRaw c st) (char_text stringOutputRaw c).
Proof.
  intros Hc. assert (E : print_char stringOutputRaw c st = varPrintf (char_text stringOutputRaw c) st).
  { unfold print_char, char_text. repeat case_match; done. }
  rewrite E. by apply emits_printf, char_text_no_zero.
Qed.

Lemma printString_text s st : Forall byte_ok s → (length s < MAX_STRING)%nat →
  emits st (printString stringOutputRaw s st) (c_dquote :: string_text stringOutputRaw s ++ [c_dquote]).
Proof.
  intros Hs Hl. unfold printString. rewrite decide_False by lia.
  apply (emits_app _ (varPrintf [c_dquote] st) _ [c_dquote]); [apply emits_printf; set_solver|].
  set (st1 := varPrintf [c_dquote] st). clearbody st1.
  assert (Hbody : emits st1 (foldl (λ st c, print_char stringOutputRaw c st) st1 s) (string_text stringOutputRaw s)).
  { clear Hl. revert st1. induction Hs as [|c s Hc Hs IH]; intros st1; [by apply emits_nil|]. cbn [foldl string_text flat_map].
    eapply emits_app; [by apply print_char_text|]. apply IH. }
  eapply emits_app; [exact Hbody|]. apply emits_printf; set_solver.
Qed.

(** ** Cells *)

Variables (mainContext currentContext : ptr) (format_float : spec_float → list Z) (lc_decimal_point : Z).
Variable expand : datum → store → result (datum * store).
Hypothesis lc_point : lc_decimal_point = 46 ∨ lc_decimal_point = 44.
Variable s0 : store.

#[local] Abbreviation reads := (reads lc_decimal_point mainContext currentContext expand s0).
#[local] Abbreviation reads_all := (reads_all lc_decimal_point mainContext currentContext expand s0).
#[local] Abbreviation print := (printCell mainContext currentContext stringOutputRaw prettyPrintMaxLength prettyPrintTab format_float).

(** The name that is printed for the symbol is read as the symbol. *)
Definition symbol_reads (p : ptr) : Prop := ∀ r, ∃ t r', symbol_text mainContext currentContext p (set_root r s0) = Ok (t, set_root r' s0) ∧
  0 ∉ t ∧ reads (DSymbol p) t.

(** Data with a text that is read as they are; [names] are the symbols of which that is so. *)
Variable names : ptr → Prop.
Hypothesis names_read : ∀ p, names p → symbol_reads p.

Fixpoint readable (d : datum) : Prop :=
  match d with
  | DLong z => INT64_MIN ≤ z ≤ INT64_MAX
  | DBigint num => ∃ n, length num = S n ∧ bigint_ok num n ∧ (bigval num n ≠ 0 ∨ nth 0 num 0 = 1) ∧ Z.abs (bigval num n) < 10 ^ 1000
  | DString s => Forall byte_ok s ∧ (length s < MAX_STRING)%nat
  | DSymbol p => names p
  | DQuote d => readable d
  | DExpr l | DLambda l | DFexpr l => foldr (λ d P, readable d ∧ P) True l ∧ no_macro s0 l
  | _ => False
  end.

#[local] Abbreviation rest := (print_rest prettyPrintMaxLength prettyPrintTab (λ d, print d true)).
#[local] Abbreviation first := (print_head prettyPrintMaxLength prettyPrintTab (λ d, print d true)).

Lemma readable_all l : foldr (λ d P, readable d ∧ P) True l ↔ Forall readable l.
Proof. induction l as [|d l IH]; cbn; [by split|]. by rewrite IH, Forall_cons. Qed.

(** The printer writes white space and a text of [P]. *)
Definition writes (P : list Z → Prop) (st : pstate) (r : result pstate) : Prop :=
  ∃ st' w t r', r = Ok st' ∧ printed st' = printed st ++ w ++ t ∧ symbols st' = set_root r' s0 ∧ white w ∧ P t.

Lemma writes_emits P st st' w t r : symbols st = set_root r s0 → emits st st' (w ++ t) → white w → P t → writes P st (Ok st').
Proof. intros Hs [H1 H2] Hw Ht. exists st', w, t, r. by rewrite H1, H2. Qed.

Lemma writes_text P st t r : symbols st = set_root r s0 → 0 ∉ t → P t → writes P st (Ok (varPrintf t st)).
Proof. intros Hs H0 Ht. eapply (writes_emits P st _ [] t); [done|by apply emits_printf|apply white_nil|done]. Qed.

(** [clear_double] at the end. *)
Lemma writes_clear P st r : writes P st r → writes P st (r ≫= λ st, Ok (clear_double st)).
Proof. intros (st' & w & t & r' & -> & H1 & H2 & H3). exists (clear_double st'), w, t, r'. done. Qed.

Definition printable (d : datum) : Prop := ∀ st r, symbols st = set_root r s0 → writes (reads d) st (print d true st).

Lemma reads_all_white w l t : white w → reads_all l t → reads_all l (w ++ t).
Proof.
  intros Hw [Hne H]. split; [by destruct w|]. intros k cells pars r w' u fuel Hw' Hk Hp Hf. rewrite length_app in Hf.
  replace (w' ++ (w ++ t) ++ u) with ((w' ++ w) ++ t ++ u) by by rewrite <- !app_assoc. apply H; [by apply Forall_app|done|done|lia].
Qed.

(** The elements without the parenthesis. *)
Definition elements (l : list datum) (st : pstate) (r : result pstate) : Prop :=
  ∃ st' t r', r = Ok st' ∧ printed st' = printed st ++ t ∧ symbols st' = set_root r' s0 ∧
    reads_all l (t ++ [c_right]) ∧ (l = [] → white t).

Lemma elements_from l st st1 w r r1 : elements l st1 r → emits st st1 w → white w → symbols st = set_root r1 s0 → elements l st r.
Proof.
  intros (st' & t & r' & -> & H1 & H2 & H3 & H4) [E1 E2] Hw Hs. exists st', (w ++ t), r'. split; [done|].
  rewrite H1, E1, app_assoc. split; [done|]. split; [done|]. rewrite <- app_assoc. split; [by apply reads_all_white|].
  intros El. apply Forall_app. split; [done|by apply H4].
Qed.

Lemma follows_white w : white w → follows (w ++ [c_right]).
Proof.
  intros Hw. destruct Hw as [|c w Hc Hw]; [exists c_right, []; split; [done|split; [by right|done]]|]. exists c, (w ++ [c_right]). split; [done|].
  split; [left; lia|lia].
Qed.

(** An element, what is put behind it, and the others. *)
Lemma elements_cons d l st st1 (k : pstate → result pstate) :
  writes (reads d) st (Ok st1) →
  (∀ st2 r, symbols st2 = set_root r s0 → emits st1 st2 (match l with [] => [] | _ => [32] end) → elements l st2 (k st2)) →
  ∀ st2, emits st1 st2 (match l with [] => [] | _ => [32] end) → elements (d :: l) st (k st2).
Proof.
  intros (st1' & w & t & r' & [= <-] & H1 & H2 & Hw & Ht) Hk st2 He. pose proof He as [E1 E2].
  destruct (Hk st2 r') as (st' & u & r'' & -> & U1 & U2 & U3 & U4); [by rewrite E2|done|].
  exists st', ((w ++ t ++ match l with [] => [] | _ => [32] end) ++ u), r''. split; [done|].
  split; [by rewrite U1, E1, H1, <- !app_assoc|]. split; [done|]. split; [|done].
  replace (((w ++ t ++ match l with [] => [] | _ => [32] end) ++ u) ++ [c_right]) with
    (w ++ t ++ match l with [] => [] | _ => [32] end ++ u ++ [c_right]) by by rewrite <- !app_assoc.
  apply reads_cons; [done|done| |].
  - destruct l; [by apply follows_white, U4|]. exists 32, (u ++ [c_right]). split; [done|]. split; [left; lia|done].
  - apply reads_all_white; [|done]. destruct l; [apply white_nil|]. apply Forall_cons. split; [lia|apply white_nil].
Qed.

Lemma elements_nil st st1 w r : symbols st = set_root r s0 → emits st st1 w → white w → elements [] st (Ok st1).
Proof.
  intros Hs [E1 E2] Hw. exists st1, w, r. split; [done|]. split; [done|]. split; [by rewrite E2|]. split; [|done].
  by apply (reads_nil _ _ _ _ lc_point).
Qed.

Lemma rest_elements l : Forall printable l → ∀ st r, symbols st = set_root r s0 → elements l st (rest l st).
Proof.
  induction 1 as [|d l Hd Hl IH]; intros st r Hs; cbn [print_rest].
  { eapply elements_nil; [done|by apply emits_nil|apply white_nil]. }
  destruct (pretty_if_emits (too_long prettyPrintMaxLength st) st) as (w & Hw & He). set (st1 := pretty_if _ _ st) in *. clearbody st1.
  eapply elements_from; [|exact He|done|done]. destruct He as [_ E2].
  destruct (Hd st1 r) as (st2 & w2 & t2 & r2 & E & H2); [by rewrite E2|]. rewrite E. cbn [mbind result_bind].
  apply (elements_cons d l st1 st2 (rest l)); [by exists st2, w2, t2, r2|intros; by eapply IH|].
  destruct l; [by apply emits_nil|]. apply emits_printf. set_solver.
Qed.

Lemma first_elements l : Forall printable l → ∀ k st r, symbols st = set_root r s0 → elements l st (first l k st).
Proof.
  induction 1 as [|d l Hd Hl IH]; intros k st r Hs; cbn [print_head].
  - destruct (prettyPrint_emits st) as (w & Hw & He). destruct (prettyPrint_emits (set_double st)) as (w' & Hw' & He').
    destruct k; [cbn [print_rest]; by eapply elements_nil|]. eapply elements_nil; [done| |exact Hw'].
    destruct He' as [E1 E2]. split; [by rewrite E1|by rewrite E2].
  - destruct k as [|k].
    + destruct (prettyPrint_emits st) as (w & Hw & He). eapply elements_from; [|exact He|done|done].
      eapply rest_elements; [by constructor|]. destruct He as [_ ->]. done.
    + destruct (Hd st r Hs) as (st2 & w2 & t2 & r2 & E & H2). rewrite E. cbn [mbind result_bind].
      apply (elements_cons d l st st2 (first l k)); [by exists st2, w2, t2, r2|intros; by eapply IH|].
      destruct l; [by apply emits_nil|]. apply emits_printf. set_solver.
Qed.

(** *** Induction over cells *)

Lemma datum_cells (P : datum → Prop) :
  (∀ d, match d with DQuote _ | DExpr _ | DLambda _ | DFexpr _ => False | _ => True end → P d) →
  (∀ d, P d → P (DQuote d)) →
  (∀ l, Forall P l → P (DExpr l) ∧ P (DLambda l) ∧ P (DFexpr l)) → ∀ d, P d.
Proof.
  intros Ha Hq Hl. fix IH 1.
  assert (Hall : ∀ l, Forall P l) by (fix IHl 1; intros [|d l]; [constructor|constructor; [apply IH|apply IHl]]).
  intros [| | | | | | | | |d|l|l|l]; try (by apply Ha); [apply Hq, IH|apply Hl, Hall..].
Qed.

(** *** Lists *)

Lemma writes_close (P : list Z → Prop) l st st1 w opening r : elements l st1 r → emits st st1 (w ++ opening) → white w →
  (∀ t, reads_all l t → P (opening ++ t)) →
  writes P st (r ≫= λ st, Ok (deeper (-1) (varPrintf [c_right] st))).
Proof.
  intros (st2 & t & r' & -> & H1 & H2 & H3 & _) [E1 E2] Hw HP. cbn [mbind result_bind].
  exists (deeper (-1) (varPrintf [c_right] st2)), w, (opening ++ t ++ [c_right]), r'. split; [done|].
  split; [cbn; rewrite H1, E1, <- !app_assoc; done|]. split; [done|]. split; [done|]. by apply HP.
Qed.

Lemma print_type_total l r : no_macro s0 l → ∃ n, print_type l (set_root r s0) = Ok n.
Proof.
  intros H. specialize (H r). unfold is_macro in H. unfold print_type. destruct l as [|[] l]; eauto.
  destruct (field n_data p (set_root r s0)); [eauto|done..].
Qed.

(** The white space in front of a list. *)
Lemma line_emits st : ∃ w, white w ∧
  emits st (pretty_if prettyPrintTab ((prettyPrintPars st <=? prettyPrintCurrent st) || too_long prettyPrintMaxLength st) st) w.
Proof. apply pretty_if_emits. Qed.

Lemma open_emits st st1 w t : emits st st1 w → 0 ∉ t → emits st (deeper 1 (varPrintf t st1)) (w ++ t).
Proof. intros He H0. destruct (emits_app _ _ _ _ _ He (emits_printf t st1 H0)) as [H1 H2]. by split. Qed.

Lemma print_list l : Forall printable l → no_macro s0 l → printable (DExpr l).
Proof.
  intros Hl Hm st r Hs. cbn [printCell]. apply writes_clear. destruct (line_emits st) as (w & Hw & He).
  set (st1 := pretty_if _ _ st) in *. clearbody st1. assert (Hs1 : symbols st1 = set_root r s0) by (destruct He as [_ ->]; done).
  rewrite Hs1. destruct (print_type_total l r Hm) as (n & ->). cbn [mbind result_bind].
  assert (Hread : ∀ t, reads_all l t → reads (DExpr l) (c_left :: t)) by (intros t Ht; by apply reads_list).
  assert (H40 : 0 ∉ [c_left]) by set_solver.
  destruct (n =? 0).
  - eapply (writes_close _ l st _ w [c_left]); [|by apply open_emits|done|exact Hread]. by apply rest_elements with (r := r).
  - destruct (prettyPrint_emits st1) as (w' & Hw' & He').
    eapply (writes_close _ l st _ (w ++ w') [c_left]); [|apply open_emits; [by eapply emits_app|done]|by apply Forall_app|exact Hread].
    apply first_elements with (r := r); [done|]. destruct He' as [_ E]. cbn. by rewrite E.
Qed.

Lemma print_marked (mark : list datum → datum) opening l : 0 ∉ opening → Forall printable l →
  (∀ t, reads_all l t → reads (mark l) (opening ++ t)) →
  (∀ st, print (mark l) true st = (st ← (st ← rest l (deeper 1 (varPrintf opening (pretty_if prettyPrintTab ((prettyPrintPars st <=? prettyPrintCurrent st) || too_long prettyPrintMaxLength st) st)));
      Ok (deeper (-1) (varPrintf [c_right] st))); Ok (clear_double st))) →
  printable (mark l).
Proof.
  intros H0 Hl Hread Hp st r Hs. rewrite Hp. apply writes_clear. destruct (line_emits st) as (w & Hw & He).
  eapply (writes_close _ l st _ w opening); [|by apply open_emits|done|exact Hread].
  apply rest_elements with (r := r); [done|]. destruct He as [_ E]. cbn. by rewrite E.
Qed.

Lemma print_quote d : printable d → printable (DQuote d).
Proof.
  intros Hd st r Hs. cbn [printCell]. apply writes_clear. set (st1 := set_double (varPrintf [c_quote] st)).
  destruct (Hd st1 r Hs) as (st' & w & t & r' & -> & H1 & H2 & Hw & Ht).
  exists st', [], (c_quote :: w ++ t), r'. split; [done|]. split; [rewrite H1; unfold st1; cbn; by rewrite <- app_assoc|].
  split; [done|]. split; [apply white_nil|]. by apply (reads_quote _ _ _ _ lc_point).
Qed.

Lemma printCell_readable d : readable d → printable d.
Proof.
  revert d. refine (datum_cells (λ d, readable d → printable d) _ _ _); [intros d Hd Hr|intros d IH Hr|intros l IH].
  - destruct d as [| |z|num|f|s|p|p|c name|d|l|l|l]; cbn in Hr; try done; intros st r Hs; cbn [printCell]; apply writes_clear.
    + eapply writes_text; [done| |by apply (reads_long _ _ _ _ lc_point)]. destruct (decimal_text z Hr) as (sg & ds & -> & Hv & [Hds _] & _).
      rewrite elem_of_app. intros [H|H]; [destruct Hv as [[-> _]|[-> _]]; set_solver|].
      rewrite List.Forall_forall in Hds. apply list_elem_of_In, Hds in H. done.
    + destruct Hr as (n & Hn & Hok & Hz & Hb). rewrite Hn. cbn [Nat.sub]. rewrite Nat.sub_0_r.
      destruct (reads_bigint _ mainContext currentContext expand lc_point s0 num n Hok Hn Hz Hb) as (t & len & -> & Ht & H0).
      cbn [mbind result_bind]. eapply writes_text; [done| |exact Ht]. rewrite elem_of_app. intros [?|H]; [done|set_solver].
    + destruct Hr as [Hb Hl]. eapply (writes_emits _ _ _ [] _ r); [done|by apply printString_text|apply white_nil|].
      by apply (reads_string _ _ _ _ lc_point).
    + destruct (names_read p Hr r) as (t & r' & E & H0 & Ht). unfold print_symbol. rewrite Hs, E. cbn [mbind result_bind].
      destruct (writes_text (reads (DSymbol p)) (set_store (set_root r' s0) st) t r') as (st' & w & t' & r2 & E2 & H); [done..|].
      injection E2 as <-. by exists (varPrintf t (set_store (set_root r' s0) st)), w, t', r2.
  - by apply print_quote, IH.
  - assert (Hall : foldr (λ d P, readable d ∧ P) True l ∧ no_macro s0 l → Forall printable l).
    { intros [H%readable_all _]. revert IH H. clear. induction l as [|d l IHl]; intros IH H; [constructor|].
      apply Forall_cons in IH as [H1 H2], H as [H3 H4]. constructor; auto. }
    split; [|split]; intros Hr; pose proof (Hall Hr) as Hl; destruct Hr as [_ Hm].
    + by apply print_list.
    + apply (print_marked DLambda LAMBDA_TEXT); [by apply (bool_decide_unpack _); vm_compute|done| |done].
      intros t Ht. by apply (reads_lambda _ _ _ _ lc_point).
    + apply (print_marked DFexpr FEXPR_TEXT); [by apply (bool_decide_unpack _); vm_compute|done| |done].
      intros t Ht. by apply (reads_fexpr _ _ _ _ lc_point).
Qed.
End Printing.
