(* ===== verification/Readsafe.v ===== *)
(** * The reader always answers (src/newlisp.c, [compileExpression])

    On a text that ends with its only 0 byte the reader returns or raises an error,
    keeps the trees of all contexts well formed and leaves a shorter text. *)

From stdpp Require Import base list numbers tactics strings gmap sorting.
From Stdlib Require Import ZArith Lia Ascii.
From S2P Require Import Prelude Cell Symtree Redblack Insertion Symfind Symtable Context World Symbols Spaces.
From S2P Require Import Utf8 Arith Token Tokens Bigint Bigtext Reader Balance.
From stdpp Require Import list.

#[global] Open Scope Z_scope.
#[local] Set Warnings "-clear-no-such-hyp".

#[local] Abbreviation world_ok := (world_ok (linked := rb_linked)).

(** ** The text behind [[text]] *)

Lemma memcmp_safe needle : ∀ s, terminated s → 0 ∉ needle →
  yields False (λ b, b = true → ∃ r, s = needle ++ r ∧ terminated r) (memcmp_eq s needle).
Proof.
  induction needle as [|c needle IH]; intros s Hs Hn; [by exists s|]. apply not_elem_of_cons in Hn as [Hc Hn]. cbn [memcmp_eq].
  destruct (terminated_case s Hs) as [->|(x & s1 & -> & Hx & Hs1)]; cbn [rd lookup list_lookup mbind result_bind].
  { by rewrite (proj2 (Z.eqb_neq 0 c)). }
  destruct (Z.eqb_spec x c) as [->|]; [|done]. cbn [drop]. rewrite drop_0. eapply yields_mono; [by apply IH|].
  intros b Hb E. destruct (Hb E) as (r & -> & Hr). by exists r.
Qed.

Lemma searchBuffer_safe needle len : ∀ s, terminated s → (len < length s)%nat → needle ≠ [] → 0 ∉ needle →
  yields False (λ p, ∀ i, p = Some i → ∃ a r, s = a ++ needle ++ r ∧ length a = i ∧ terminated r) (searchBuffer len s needle).
Proof.
  induction len as [|len IH]; intros s Hs Hl Hn H0; cbn [searchBuffer]; [done|].
  destruct (terminated_case s Hs) as [->|(x & s1 & -> & Hx & Hs1)]; cbn [length] in Hl; [lia|].
  destruct needle as [|n needle]; [done|]. cbn [rd lookup list_lookup mbind result_bind].
  eapply yields_bind with (P := λ b, b = true → ∃ r, x :: s1 = (n :: needle) ++ r ∧ terminated r).
  { destruct (x =? n); [by apply memcmp_safe|done]. }
  intros [] Hb.
  { intros i [= <-]. destruct (Hb eq_refl) as (r & E & Hr). by exists [], r. }
  cbn [drop]. rewrite drop_0. eapply yields_bind; [apply IH; [done|lia|done|done]|].
  intros [i|] Hi; [|done]. intros j [= <-]. destruct (Hi i eq_refl) as (a & r & -> & Ha & Hr).
  exists (x :: a), r. cbn. by rewrite Ha.
Qed.

Lemma c_strlen_ok s : terminated s → c_strlen s = Ok (length s - 1)%nat.
Proof.
  induction s as [|c s IH]; intros Hs; [by apply terminated_ne in Hs|]. cbn [c_strlen].
  destruct (terminated_cons _ _ Hs) as [[-> ->]|[Hc Hs1]]; [done|].
  rewrite (proj2 (Z.eqb_neq c 0)), IH by done. cbn. apply terminated_ne in Hs1. destruct s; [done|]. cbn. f_equal. lia.
Qed.

Lemma readStreamText_safe s : terminated s →
  yields False (λ r, ∀ t s', r = Some (t, s') → remains s s') (readStreamText s).
Proof.
  intros Hs. unfold readStreamText. rewrite c_strlen_ok by done. cbn [mbind result_bind].
  pose proof (terminated_ne s Hs) as Hne. case_decide; [done|].
  eapply yields_bind.
  { apply searchBuffer_safe; [done|destruct s; cbn in *; [done|lia]|done|]. by apply (bool_decide_unpack _). }
  intros [i|] Hi; [|done]. intros t s' [= <- <-]. destruct (Hi i eq_refl) as (a & r & -> & <- & Hr). split.
  - replace (length a + LLEN)%nat with (length (a ++ LIMIT)) by by rewrite length_app. by rewrite app_assoc, drop_app_length.
  - exists (a ++ LIMIT). rewrite app_assoc. f_equal. symmetry.
    replace (length a + LLEN)%nat with (length (a ++ LIMIT)) by by rewrite length_app. by rewrite drop_app_length.
Qed.

(** ** The contexts *)

Section Names.
Variables (mainContext currentContext : ptr).

(** The trees of the contexts [W] are well formed, MAIN and the current context among them; every
    symbol that is a context has its tree. *)
Record names_ok (s : store) (W : gmap ptr (list ptr)) : Prop := {
  nm_world : world_ok s W;
  nm_main : is_Some (W !! mainContext);
  nm_current : is_Some (W !! currentContext);
  nm_name : name_in s currentContext ≠ EmptyString;
  nm_closed : ∀ c A p d r, W !! c = Some A → p ∈ A → data_in s p = Some d → pl_contents d = ContextCell p r →
    is_Some (W !! p)
}.

Lemma names_root r s W : names_ok s W → names_ok (set_root r s) W.
Proof. intros [H1 H2 H3 H4 H5]. split; [by apply set_root_world|done..]. Qed.

(** A symbol changes its flags. *)
Lemma flags_world s W p d f : world_ok s W → data_in s p = Some d →
  world_ok (with_data (Payload (pl_name d) f (pl_contents d) (pl_context d)) p s) W.
Proof.
  intros Hw Hd. split; [by apply with_data_arena, Hw|]. intros x A Hx.
  apply (context_frame s); [by apply Hw|by apply with_data_arena, Hw|intros; apply with_data_links| |].
  - intros a _. destruct (decide (a = p)) as [->|]; [|by apply keeps_same, with_data_other].
    intros d1 Hd1 ?. rewrite Hd in Hd1. injection Hd1 as <-. eexists. by rewrite with_data_self.
  - intros r <-. unfold context_tree. rewrite !field_data. destruct (decide (x = p)) as [->|].
    + rewrite with_data_self by done. by rewrite Hd.
    + by rewrite with_data_other.
Qed.

Lemma flags_names s W p d f : names_ok s W → data_in s p = Some d →
  names_ok (with_data (Payload (pl_name d) f (pl_contents d) (pl_context d)) p s) W.
Proof.
  intros [H1 H2 H3 H4 H5] Hd. split; [by apply flags_world|done|done| |].
  - destruct (decide (currentContext = p)) as [->|].
    + erewrite name_in_payload by by apply with_data_self. by rewrite (name_in_payload _ _ _ Hd) in H4.
    + erewrite name_in_data; [done|]. by apply with_data_other.
  - intros c A q e r Hc Hq He Hr. destruct (decide (q = p)) as [->|].
    + rewrite with_data_self in He by done. injection He as <-. by eapply H5.
    + rewrite with_data_other in He by done. by eapply H5.
Qed.

Lemma next_free s : arena s → data_in s (next s) = None.
Proof.
  intros [H _]. unfold data_in. destruct (heap s !! next s) eqn:E; [|done]. apply H in E. lia.
Qed.

(** A context that has just been made has an empty tree. *)
Lemma new_context_world s W p d : world_ok s W → W !! p = None → data_in s p = Some d → pl_contents d = ContextCell p NULL →
  world_ok s (<[p := []]> W).
Proof.
  intros Hw Hp Hd Hc. split; [apply Hw|]. intros c A. rewrite lookup_insert_Some. intros [[<- <-]|[_ HA]]; [|by apply Hw].
  split.
  - exists NULL. split; [unfold context_tree; rewrite field_data, Hd; cbn; by rewrite Hc|]. apply tree_empty, Hw.
  - split; [by intros a ?%elem_of_nil|constructor].
  - by intros a ?%elem_of_nil.
Qed.

Lemma created_names s W c A token type s' A' : names_ok s W → W !! c = Some A →
  created (linked := rb_linked) s W c A token (fresh_payload mainContext token type c (next s) 0) s' A' →
  ∃ W', names_ok s' W' ∧ W' !! c = Some A'.
Proof.
  intros [H1 H2 H3 H4 H5] Hc [C1 C2 C3 C4 _].
  assert (Hnew : data_in s (next s) = None) by apply next_free, H1.
  assert (Hfree : ∀ x B, W !! x = Some B → x ≠ next s).
  { intros x B Hx ->. destruct (context_cell _ _ _ _ H1 Hx) as (? & ? & ? & ? & _). congruence. }
  assert (Hin : ∀ x, is_Some (W !! x) → is_Some ((<[c := A']> W) !! x)).
  { intros x Hx. rewrite lookup_insert_is_Some. destruct (decide (c = x)); [by left|by right]. }
  assert (Hname : name_in s' currentContext ≠ EmptyString).
  { destruct H3 as [B HB]. destruct (context_cell _ _ _ _ H1 HB) as (d & _ & _ & Hd & _).
    destruct (alike_seen s s' currentContext) as [-> _]; [apply C3; by eapply Hfree|by eexists|done]. }
  assert (Hold : ∀ x B p d r, (<[c := A']> W) !! x = Some B → p ∈ B → p ≠ next s → data_in s' p = Some d →
    pl_contents d = ContextCell p r → is_Some (W !! p)).
  { intros x B p d r Hx Hp Hpn Hd Hr.
    assert (HpW : ∃ y B', W !! y = Some B' ∧ p ∈ B').
    { rewrite lookup_insert_Some in Hx. destruct Hx as [[<- <-]|[_ Hx]]; [|eauto]. apply C4 in Hp as [?|Hp]; [done|eauto]. }
    destruct HpW as (y & B' & Hy & HpB). destruct (world_data _ _ _ _ _ H1 Hy HpB) as [e He].
    destruct (C3 p Hpn e He) as (d' & Hd' & _ & _ & _ & Hv). rewrite Hd in Hd'. injection Hd' as <-. rewrite Hr in Hv.
    destruct (pl_contents e) as [|q r'|] eqn:Ee; try done. injection Hv as ->. by eapply H5. }
  pose proof (Hin _ H2) as H2'. pose proof (Hin _ H3) as H3'.
  set (d := fresh_payload mainContext token type c (next s) 0) in *.
  assert (Hkind : pl_contents d = ContextCell (next s) NULL ∨ ∀ p r, pl_contents d ≠ ContextCell p r).
  { unfold d, fresh_payload. destruct (_ && _); [by left|by right]. }
  destruct Hkind as [Ed|Ed].
  - assert (Hnone : (<[c := A']> W) !! next s = None).
    { rewrite lookup_insert_ne by by eapply Hfree. destruct (W !! next s) eqn:E; [|done]. by apply Hfree in E. }
    exists (<[next s := []]> (<[c := A']> W)). split; [|rewrite lookup_insert_ne; [by rewrite lookup_insert_eq|apply not_eq_sym; by eapply Hfree]].
    assert (Hup : ∀ x, is_Some ((<[c := A']> W) !! x) → is_Some ((<[next s := []]> (<[c := A']> W)) !! x)).
    { intros x Hx. rewrite lookup_insert_is_Some. destruct (decide (next s = x)); [by left|by right]. }
    split; [by eapply new_context_world|by apply Hup|by apply Hup|done|].
    intros x B p e r Hx Hp He Hr. destruct (decide (p = next s)) as [->|Hpn]; [by rewrite lookup_insert_eq|].
    apply Hup, Hin. rewrite lookup_insert_Some in Hx. destruct Hx as [[_ <-]|[_ Hx]]; [by apply elem_of_nil in Hp|]. by eapply Hold.
  - exists (<[c := A']> W). split; [|by rewrite lookup_insert_eq].
    split; [done..|]. intros x B p e r Hx Hp He Hr. destruct (decide (p = next s)) as [->|Hpn]; [|apply Hin; by eapply Hold].
    exfalso. rewrite C2 in He. injection He as <-. by eapply Ed.
Qed.

(** A symbol of one of the contexts. *)
Definition among (W : gmap ptr (list ptr)) (p : ptr) : Prop := ∃ c A, W !! c = Some A ∧ p ∈ A.

Lemma among_data s W p : names_ok s W → among W p → ∃ d, data_in s p = Some d ∧ pl_contents d ≠ NoContents.
Proof. intros Hn (c & A & Hc & Hp). destruct (world_own _ _ _ _ _ (nm_world _ _ Hn) Hc Hp) as (d & ? & _ & ?). eauto. Qed.

(** The symbols that are there stay there. *)
Definition extends (s s' : store) : Prop := ∀ p, is_Some (data_in s p) → is_Some (data_in s' p).

Lemma extends_root r s : extends s (set_root r s).
Proof. by intros p Hp. Qed.

Lemma extends_refl s : extends s s.
Proof. by intros p Hp. Qed.
#[local] Hint Resolve extends_refl : core.

Lemma extends_trans s s' s'' : extends s s' → extends s' s'' → extends s s''.
Proof. intros H1 H2 p Hp. by apply H2, H1. Qed.

Lemma created_extends s W c A key d s' A' : created (linked := rb_linked) s W c A key d s' A' → extends s s'.
Proof.
  intros [_ H2 H3 _ _] p [e He]. destruct (decide (p = next s)) as [->|Hp]; [by eexists|].
  destruct (H3 p Hp e He) as (d' & Hd' & _). by eexists.
Qed.

(** What a search for a symbol leaves. *)
Definition found (s : store) (r : ptr * store) : Prop := extends s r.2 ∧ ∃ W, names_ok r.2 W ∧ among W r.1.

Lemma resolve_among token s W c A M inherit a : W !! c = Some A → W !! mainContext = Some M →
  resolve token s A M inherit = Some a → among W a.
Proof.
  intros Hc Hm. unfold resolve. destruct (filter (λ a, name_in s a = token) A) as [|b l] eqn:E.
  - destruct inherit; [|done]. destruct (filter _ M) as [|b l] eqn:E2; [done|]. intros [= ->]. exists mainContext, M. split; [done|].
    assert (H : a ∈ a :: l) by by left. rewrite <- E2 in H. by apply list_elem_of_filter in H as [_ ?].
  - intros [= ->]. exists c, A. split; [done|]. assert (H : a ∈ a :: l) by by left. rewrite <- E in H.
    by apply list_elem_of_filter in H as [_ ?].
Qed.

Lemma translate_safe token type c force s W : names_ok s W → is_Some (W !! c) → token ≠ EmptyString →
  yields False (found s) (translateCreateSymbol mainContext token type c force s).
Proof.
  intros Hn [A Hc] Hk. destruct (nm_main _ _ Hn) as [M Hm].
  assert (Hnew : ∀ s' A', created (linked := rb_linked) s W c A token (fresh_payload mainContext token type c (next s) 0) s' A' →
    found s (next s, s')).
  { intros s' A' Hcr. split; [by eapply created_extends|].
    destruct (created_names _ _ _ _ _ _ _ _ Hn Hc Hcr) as (W' & HW' & HA'). exists W'. split; [done|].
    exists c, A'. split; [done|]. apply (cr_in _ _ _ _ _ _ _ _ Hcr). by left. }
  destruct force.
  - destruct (create_ok mainContext token type s W c A (nm_world _ _ Hn) Hc Hk) as [(a & r & Ha & _ & _ & ->)|(_ & s' & A' & -> & Hcr)].
    + split; [apply (extends_root r)|]. exists W. split; [by apply names_root|]. by exists c, A.
    + cbn [yields]. by eapply Hnew.
  - pose proof (resolve_ok mainContext token type s W c A M (nm_world _ _ Hn) Hc Hm Hk) as H.
    destruct (resolve _ _ _ _ _) as [a|] eqn:E.
    + destruct H as (r & ->). split; [apply (extends_root r)|]. exists W. split; [by apply names_root|]. exact (resolve_among _ _ _ _ _ _ _ _ Hc Hm E).
    + destruct H as (s' & A' & -> & Hcr). cbn [yields]. by eapply Hnew.
Qed.

Lemma lookup_safe token c s W : names_ok s W → is_Some (W !! c) → token ≠ EmptyString →
  yields False (λ r, extends s r.2 ∧ names_ok r.2 W ∧ (r.1 ≠ NULL → among W r.1)) (lookupSymbol token c s).
Proof.
  intros Hn [A Hc] Hk. destruct (find_in _ _ _ _ token (nm_world _ _ Hn) Hc Hk) as (r & E & _ & Hf).
  unfold lookupSymbol. rewrite E. cbn [mbind result_bind].
  destruct Hf as [(a & Ha & _ & ->)|(_ & -> & _)]; (split; [apply (extends_root r)|split; [by apply names_root|]]); [intros _; by exists c, A|done].
Qed.

(** ** Names in the text *)

Definition usable (s : store) : Prop := ∃ W, names_ok s W.

(** A cell just read. *)
Definition alive (s : store) (d : datum) : Prop := match d with DSymbol p => is_Some (data_in s p) | _ => True end.
Definition sound (s : store) (r : datum * store) : Prop := usable r.2 ∧ extends s r.2 ∧ alive r.2 r.1.

Lemma found_sound s p s' : found s (p, s') → sound s (DSymbol p, s').
Proof.
  intros [H1 (W & H2 & H3)]. split; [by exists W|]. split; [done|]. destruct (among_data _ _ _ H2 H3) as (d & Hd & _). by eexists.
Qed.

Lemma string_of_ne t : t ≠ [] → string_of t ≠ EmptyString.
Proof. by destruct t. Qed.

Lemma read_symbol_safe token s : usable s → token ≠ [] →
  yields False (sound s) (read_symbol mainContext currentContext token s).
Proof.
  intros [W HW] Ht. pose proof (string_of_ne _ Ht) as Hk. unfold read_symbol.
  assert (Hplain : yields False (sound s)
    ('(p, s0) ← translateCreateSymbol mainContext (string_of token) CELL_NIL currentContext false s; Ok (DSymbol p, s0))).
  { eapply yields_bind; [eapply translate_safe; [done|by eapply nm_current|done]|]. intros [p s0]. apply found_sound. }
  assert (Hdollar : yields False (sound s)
    ('(p, s) ← translateCreateSymbol mainContext (string_of token) CELL_NIL mainContext true s;
     d ← field n_data p s;
     s ← set_data (Payload (pl_name d) (Z.lor (pl_flags d) SYMBOL_GLOBAL) (pl_contents d) (pl_context d)) p s;
     Ok (DSymbol p, s))).
  { eapply yields_bind; [eapply translate_safe; [done|by eapply nm_main|done]|]. intros [p s0] [He (W' & HW' & Hp)]. cbn [fst snd] in *.
    destruct (among_data _ _ _ HW' Hp) as (d & Hd & _). rewrite field_data, Hd. cbn [mbind result_bind].
    rewrite set_data_ok by by rewrite Hd. assert (Hself : ∀ e, is_Some (data_in (with_data e p s0) p)) by (intros e; by rewrite with_data_self).
    split; [exists W'; by apply flags_names|]. split; [|by apply Hself]. eapply extends_trans; [done|]. intros q Hq.
    destruct (decide (q = p)) as [->|]; [by apply Hself|]. cbn [snd]. by rewrite with_data_other. }
  destruct token as [|c token]; [done|]. repeat case_match; done.
Qed.

(** What the reader relies on of the symbol in front of a colon. *)
Definition target (s : store) (r : ptr * store) : Prop :=
  extends s r.2 ∧ ∃ W d, names_ok r.2 W ∧ data_in r.2 r.1 = Some d ∧ pl_contents d ≠ NoContents ∧
    ∀ aux, pl_contents d = ContextCell r.1 aux → is_Some (W !! r.1).

Lemma among_target s0 W p s : extends s0 s → names_ok s W → among W p → target s0 (p, s).
Proof.
  intros He HW Hp. destruct (among_data _ _ _ HW Hp) as (d & Hd & Hc). destruct Hp as (c & A & HA & Hp).
  split; [done|]. exists W, d. cbn [fst snd]. split; [done|]. split; [done|]. split; [done|]. intros aux Haux. by eapply nm_closed.
Qed.

Lemma current_target W s : names_ok s W → target s (currentContext, s).
Proof.
  intros HW. destruct (nm_current _ _ HW) as [A HA].
  destruct (context_cell _ _ _ _ (nm_world _ _ HW) HA) as (d & q & r & Hd & Hc & _). split; [done|]. exists W, d. cbn [fst snd].
  split; [done|]. split; [done|]. split; [by rewrite Hc|]. by eexists.
Qed.

Lemma read_context_safe token s : usable s → token ≠ EmptyString →
  yields False (target s) (read_context mainContext currentContext token s).
Proof.
  intros [W HW] Hk. unfold read_context.
  assert (Hend : ∀ p s', extends s s' → names_ok s' W → (p ≠ NULL → target s (p, s')) →
    yields False (target s) (if Nat.eqb p NULL then translateCreateSymbol mainContext token CELL_CONTEXT mainContext true s' else Ok (p, s'))).
  { intros p s' He HW' Hp. destruct (Nat.eqb_spec p NULL) as [->|Hp0]; [|by apply Hp].
    eapply yields_mono; [eapply translate_safe; [done|by eapply nm_main|done]|]. intros [q s2] [He2 (W2 & HW2 & Hq)].
    eapply among_target; [by eapply extends_trans|done|done]. }
  destruct (Nat.eqb_spec currentContext mainContext) as [|Hne]; cbn [mbind result_bind]; [by apply Hend|].
  rewrite name_of_ok by apply HW. cbn [mbind result_bind]. case_bool_decide; cbn [mbind result_bind].
  - apply Hend; [done|done|]. intros _. by eapply current_target.
  - eapply yields_bind; [eapply lookup_safe; [done|by eapply nm_current|done]|]. intros [p s'] (He & HW' & Hp). apply Hend; [done|done|].
    intros Hp0. eapply among_target; [done|done|]. by apply Hp.
Qed.

Lemma read_qualified_safe s0 p token s : target s0 (p, s) → token ≠ [] →
  yields False (sound s0) (read_qualified mainContext p token s).
Proof.
  intros [He (W & d & HW & Hd & Hc & Hq)] Ht. cbn [fst snd] in *. unfold read_qualified. rewrite field_data, Hd. cbn [mbind result_bind].
  assert (Hdyn : sound s0 (DDyn p (string_of token), s)) by (split; [by exists W|done]).
  destruct (pl_contents d) as [|q aux|e] eqn:E; [done| |done]. destruct (Nat.eqb_spec q p) as [->|]; [|done].
  eapply yields_bind; [eapply translate_safe; [done|by eapply Hq|by apply string_of_ne]|]. intros [a s1] [He1 H1].
  apply found_sound. split; [by eapply extends_trans|done].
Qed.

(** ** The reader *)

Section Reading.
Variable lc_decimal_point : Z.
Hypothesis lc_not0 : lc_decimal_point ≠ 0.
Variable expand : datum → store → result (datum * store).
Hypothesis expand_safe : ∀ d s, usable s → yields False (sound s) (expand d s).

#[local] Abbreviation cap := (MAX_STRING + 4)%nat.
#[local] Abbreviation lex := (getToken lc_decimal_point cap).

Lemma read_number_safe lx : token_shape lx → match lx_kind lx with TKN_HEX | TKN_BINARY | TKN_OCTAL | TKN_DECIMAL | TKN_FLOAT => True | _ => False end →
  yields False (λ d, ∀ s, alive s d) (read_number lc_decimal_point (lx_kind lx) (lx_text lx) (lx_len lx)).
Proof.
  unfold token_shape, read_number. destruct (lx_kind lx); try done. intros [-> (t & (st & ds & -> & Hst & Hds & Hne) & Ht)] _.
  assert (Hsg : ∃ sg, sign_text st = Some sg) by (destruct Hst as [->|[->| ->]]; eexists; reflexivity).
  destruct Hsg as [sg Hsg].
  assert (Hbig : ∃ r, strToBigint (lx_text lx ++ [0]) (length (lx_text lx)) = Ok r).
  { destruct Ht as [->| ->].
    - destruct (strToBigint_ok st sg ds [] [0] Hsg Hds Hne) as (num & n & E & _); [by left|].
      rewrite app_nil_r, <- app_assoc in *. cbn [app] in E. eauto.
    - destruct (strToBigint_ok st sg ds [76] [0] Hsg Hds Hne) as (num & n & E & _); [by right|].
      rewrite <- !app_assoc in *. eauto. }
  destruct Hbig as [[num n] ->].
  destruct (lx_text lx !! (length (lx_text lx) - 1)%nat) as [c|] eqn:Ec.
  - unfold rd. rewrite Ec. cbn [mbind result_bind]. destruct (c =? 76); [done|]. destruct (strtoll _ _) as [? []]; done.
  - apply lookup_ge_None in Ec. assert (length (lx_text lx) ≠ 0%nat); [|lia].
    destruct Ht as [->| ->]; destruct ds; rewrite ?length_app in *; cbn in *; try done; lia.
Qed.

(** From the state [st0] on the text [s0] the reader has come to [st]. *)
Definition reading (s0 : list Z) (w0 : store) (st : rstate) : Prop :=
  usable (world st) ∧ extends w0 (world st) ∧ remains s0 (stream st).

Lemma reading_world s0 w0 st r : reading s0 w0 st → sound (world st) r → reading s0 w0 (set_world r.2 st).
Proof. intros (_ & H1 & H2) (H3 & H4 & _). split; [done|]. split; [by eapply extends_trans|done]. Qed.

Lemma reading_stream s0 w0 st s : reading s0 w0 st → remains (stream st) s → reading s0 w0 (set_stream s st).
Proof. intros (H1 & H2 & H3) Hs. split; [done|]. split; [done|]. by eapply left_of_trans. Qed.

Lemma read_text_safe s : terminated s → yields False (λ r, remains s r.2) (read_text s).
Proof.
  intros Hs. unfold read_text. eapply yields_bind; [by apply readStreamText_safe|]. intros [[t s']|] H; [|done]. by eapply H.
Qed.

Lemma reading_from s0 w0 st1 st2 : reading s0 w0 st1 → reading (stream st1) (world st1) st2 → reading s0 w0 st2.
Proof. intros (_ & H1 & H2) (H3 & H4 & H5). split; [done|]. split; [by eapply extends_trans|by eapply left_of_trans]. Qed.

(** A cell and the state behind it. *)
Definition cell_read (s0 : list Z) (w0 : store) (r : datum * rstate) : Prop := reading s0 w0 r.2 ∧ alive (world r.2) r.1.

Lemma read_context_symbol_safe s0 w0 token st : reading s0 w0 st → token ≠ [] →
  yields (overrun cap s0) (cell_read s0 w0)
    (read_context_symbol lc_decimal_point mainContext currentContext token st).
Proof.
  intros Hr Ht. pose proof Hr as (Hu & _ & Hl). unfold read_context_symbol.
  eapply yields_bind; [apply yields_safe, read_context_safe; [done|by apply string_of_ne]|]. intros [p s] Hp.
  eapply yields_bind.
  { eapply (yields_left _ _ _ _ _ Hl). apply getToken_yields; [done|lia|by destruct Hl]. }
  intros lx [[Hrest Hshape] _]. unfold token_shape in Hshape. destruct (lx_kind lx); try done.
  eapply yields_bind; [apply yields_safe, read_qualified_safe; [done|done]|]. intros [d s'] Hs'.
  split; [|by destruct Hs' as (_ & _ & ?)].
  exact (reading_world _ _ _ (d, s') (reading_stream _ _ _ _ Hr Hrest) Hs').
Qed.

Lemma finish_list_safe s0 w0 k items st : reading s0 w0 st → Forall (alive (world st)) items →
  yields (overrun cap s0) (cell_read s0 w0) (finish_list expand k items st).
Proof.
  intros Hr Hi. unfold finish_list.
  assert (Hm : yields False (λ _, True) (is_macro items (world st))).
  { unfold is_macro. destruct items as [|[] items]; try done. apply Forall_cons in Hi as [[d Hd] _]. by rewrite field_data, Hd. }
  eapply yields_bind; [by apply yields_safe|]. intros [] _.
  - eapply yields_bind; [apply yields_safe, expand_safe; apply Hr|]. intros [d s] Hs.
    split; [exact (reading_world _ _ _ (d, s) Hr Hs)|apply Hs].
  - split; [done|by destruct k].
Qed.

Definition read_to (s0 : list Z) (w0 : store) (r : read_result) : Prop :=
  reading s0 w0 r.2 ∧ Forall (alive (world r.2)) r.1.2.

Lemma alive_extends s s' l : extends s s' → Forall (alive s) l → Forall (alive s') l.
Proof. intros He Hl. eapply Forall_impl; [exact Hl|]. intros [] Ha; try done. by apply He. Qed.

(** What the next call of the reader does with the rest. *)
Definition goes_on (s0 : list Z) (w0 : store) (fuel : nat) (getnext : envelope → list datum → rstate → result read_result) : Prop :=
  ∀ env cells st, reading s0 w0 st → Forall (alive (world st)) cells → (length (stream st) < fuel)%nat →
    yields (overrun cap s0) (read_to s0 w0) (getnext env cells st).

Lemma link_cell_safe s0 w0 fuel getnext env cells d st : goes_on s0 w0 fuel getnext → reading s0 w0 st →
  Forall (alive (world st)) cells → alive (world st) d → (length (stream st) < fuel)%nat →
  yields (overrun cap s0) (read_to s0 w0) (link_cell getnext env cells d st).
Proof.
  intros Hg Hr Hc Hd Hf. unfold link_cell.
  assert (Hgo : yields (overrun cap s0) (read_to s0 w0)
    (if negb (parStackCounter st =? 0) then
       c ← rd (stream st) 0; if negb (c =? 0) then getnext env (d :: cells) st else Fail ERR_MISSING_PAR
     else Ok (false, env, reverse (d :: cells), st))).
  { destruct (negb _).
    - pose proof Hr as (_ & _ & [Ht _]). apply terminated_ne in Ht. destruct (stream st) as [|c l] eqn:E; [done|].
      cbn [rd lookup list_lookup mbind result_bind]. destruct (negb (c =? 0)); [|done]. apply Hg; [done|by constructor|by rewrite E].
    - split; [done|]. cbn [fst snd]. rewrite reverse_cons. apply Forall_app. split; [by apply Forall_reverse|by constructor]. }
  destruct env, cells; try exact Hgo. split; [done|]. by constructor.
Qed.

Lemma mark_lambda_alive s k env cells env' cells' : mark_lambda k env cells = Some (env', cells') → Forall (alive s) cells → Forall (alive s) cells'.
Proof.
  unfold mark_lambda. intros H Hc. destruct cells as [|[] cells]; destruct env; simplify_eq; try done;
    (apply Forall_cons in Hc as [_ Hc]; constructor; [by destruct k|done]).
Qed.

#[local] Abbreviation read := (compileExpression lc_decimal_point mainContext currentContext expand).

Lemma compile_safe s0 w0 fuel : goes_on s0 w0 fuel (read fuel).
Proof.
  revert s0 w0. induction fuel as [|fuel IH]; intros s0 w0 env cells st Hr Hc Hf; [lia|]. cbn [compileExpression]. cbv zeta.
  pose proof Hr as (Hu & He & Hl).
  eapply yields_bind; [eapply (yields_left _ _ _ _ _ Hl), getToken_yields; [done|lia|by destruct Hl]|].
  intros lx [[Hrest Hshape] Hlt]. pose proof (reading_stream _ _ _ _ Hr Hrest) as Hr1. set (st1 := set_stream (lx_rest lx) st) in *.
  assert (Hself : reading (stream st1) (world st1) st1).
  { destruct Hr1 as (? & _ & [? _]). split; [done|split; [done|by apply left_of_refl]]. }
  assert (Hup : ∀ A (Q : A → Prop) r, yields (overrun cap (stream st1)) Q r → yields (overrun cap s0) Q r).
  { intros A Q r. apply yields_left, Hr1. }
  assert (Hlen : lx_kind lx ≠ TKN_EMPTY → (length (stream st1) < fuel)%nat) by (intros Hk; specialize (Hlt Hk); cbn; lia).
  assert (Hlink : ∀ d st2, lx_kind lx ≠ TKN_EMPTY → cell_read (stream st1) (world st1) (d, st2) →
    yields (overrun cap s0) (read_to s0 w0) (link_cell (read fuel) env cells d st2)).
  { intros d st2 Hk [Hr2 Hd]. cbn [fst snd] in *. eapply link_cell_safe; [apply IH|by eapply reading_from| |done|].
    - eapply alive_extends; [apply Hr2|done].
    - destruct Hr2 as (_ & _ & Hn%left_of_length). specialize (Hlen Hk). lia. }
  pose proof (read_number_safe lx Hshape) as Hnum. unfold token_shape in Hshape.
  assert (Hnumber : lx_kind lx ≠ TKN_EMPTY → yields False (λ d, ∀ s, alive s d) (read_number lc_decimal_point (lx_kind lx) (lx_text lx) (lx_len lx)) →
    yields (overrun cap s0) (read_to s0 w0)
      (newCell ← read_number lc_decimal_point (lx_kind lx) (lx_text lx) (lx_len lx); link_cell (read fuel) env cells newCell st1)).
  { intros Hk Hn. eapply yields_bind; [apply yields_safe, Hn|]. intros d Hd. by apply Hlink. }
  clear Hlt. destruct (lx_kind lx); try specialize (Hlen ltac:(done)); try exact (Hnumber ltac:(done) (Hnum I)).
  - done.
  - destruct (negb _); [done|]. split; [done|]. by apply Forall_reverse.
  - by apply Hlink.
  - destruct (lambda_token (lx_text lx)) as [k|].
    { destruct (mark_lambda k env cells) as [[env' cells']|] eqn:E; [|done]. apply IH; [done|by eapply mark_lambda_alive|done]. }
    destruct (is_text (lx_text lx)).
    + eapply yields_bind; [apply yields_safe, read_text_safe; by destruct Hr1 as (_ & _ & [? _])|]. intros [t s] Hs. cbn [snd] in Hs.
      apply Hlink; [done|]. split; [by apply reading_stream|done].
    + eapply yields_bind; [apply yields_safe, read_symbol_safe; done|]. intros [d s] Hs.
      apply Hlink; [done|]. split; [exact (reading_world _ _ _ (d, s) Hself Hs)|apply Hs].
  - eapply yields_bind; [by apply Hup, read_context_symbol_safe|]. intros [d st2] Hr2. by apply Hlink.
  - eapply yields_bind; [by apply Hup, IH|]. intros [[[more k] items] st2] [Hr2 Hi].
    eapply yields_bind; [by apply Hup, finish_list_safe|]. intros [d st3] Hr3. by apply Hlink.
  - destruct (_ =? 0); [done|]. split; [done|]. by apply Forall_reverse.
  - eapply yields_bind; [by apply Hup, IH|]. intros [[[more k] items] st2] [Hr2 _]. by apply Hlink.
Qed.
End Reading.

End Names.

Lemma demo_usable : usable 2 4 demo.
Proof.
  exists demo_contexts. split; [exact demo_world|by eexists|by eexists|done|].
  intros c A p d r. unfold demo_contexts. rewrite lookup_insert_Some, lookup_singleton_Some.
  intros [[<- <-]|[_ [<- <-]]] Hp Hd Hr;
    repeat (apply elem_of_cons in Hp as [->|Hp]; [vm_compute in Hd; injection Hd as <-; try discriminate Hr; by eexists|]);
    by apply elem_of_nil in Hp.
Qed.

(** C3: On any text that ends with its only 0 byte, and with bounds above the length of the text, the
    reader returns or raises an error.  When it returns, the trees of all contexts are well formed, no
    symbol has gone, what it leaves of the text is its end, and the symbols among the cells it has read are there.  It leaves a buffer only
    when the text holds an octal number as long as the token buffer or ends in an [e].  The macros
    called during reading are assumed to return or raise an error, and to delete no symbol. *)
Theorem compileExpression_total mainContext currentContext lc_decimal_point expand env cells st fuel :
  lc_decimal_point ≠ 0 →
  (∀ d s, usable mainContext currentContext s →
    yields False (sound mainContext currentContext s) (expand d s)) →
  usable mainContext currentContext (world st) → Forall (alive (world st)) cells →
  terminated (stream st) → (length (stream st) < fuel)%nat →
  match compileExpression lc_decimal_point mainContext currentContext expand fuel env cells st with
  | Ok (_, _, items, st') => usable mainContext currentContext (world st') ∧ terminated (stream st') ∧
      (∃ l, stream st = l ++ stream st') ∧ (∀ p, is_Some (data_in (world st) p) → is_Some (data_in (world st') p)) ∧
      Forall (alive (world st')) items
  | Fail _ => True
  | UB => long_octal (MAX_STRING + 4) (stream st) ∨ cut_exponent (stream st)
  | NoFuel => False
  end.
Proof.
  intros Hlc He Hu Hc Hs Hf.
  assert (Hr : reading mainContext currentContext (stream st) (world st) st).
  { split; [done|]. split; [apply extends_refl|by apply left_of_refl]. }
  pose proof (compile_safe mainContext currentContext lc_decimal_point Hlc expand He _ _ fuel env cells st Hr Hc Hf) as H.
  destruct (compileExpression _ _ _ _ _ _ _ _) as [[[[? ?] items] st']| | |]; try done.
  destruct H as [(H1 & H2 & H3 & H4) H5]. done.
Qed.

(** [(f '(Bar:x 12L))] in the context Foo. *)
Definition sample : list Z := [40; 102; 32; 39; 40; 66; 97; 114; 58; 120; 32; 49; 50; 76; 41; 41; 0].

Lemma compileExpression_total_witness :
  match compileExpression 46 2 4 (λ _ s, Ok (DNil, s)) 18 EQuote [] (RState 0 demo sample) with
  | Ok (_, _, items, st') => usable 2 4 (world st') ∧ terminated (stream st') ∧
      (∃ l, sample = l ++ stream st') ∧ (∀ p, is_Some (data_in demo p) → is_Some (data_in (world st') p)) ∧
      Forall (alive (world st')) items
  | Fail _ => True
  | UB => long_octal (MAX_STRING + 4) sample ∨ cut_exponent sample
  | NoFuel => False
  end.
Proof.
  apply (compileExpression_total 2 4 46 (λ _ s, Ok (DNil, s)) EQuote [] (RState 0 demo sample) 18).
  - done.
  - intros d s Hs. split; [exact Hs|]. split; [apply extends_refl|exact I].
  - exact demo_usable.
  - constructor.
  - exists (take 16 sample). split; [reflexivity|]. by apply (bool_decide_unpack _); vm_compute.
  - vm_compute. lia.
Defined.
