(* ===== verification/Roundtrip.v ===== *)
(** * Printing and reading (src/newlisp.c)

    Which symbol the printed name of a symbol stands for, and the round trip of
    cells through their text. *)

From stdpp Require Import base list numbers tactics strings gmap sorting.
From Stdlib Require Import ZArith Lia SpecFloat Ascii.
From S2P Require Import Prelude Cell Symtree Redblack Insertion Symfind Symtable Context World Symbols Spaces Balance.
From S2P Require Import Utf8 Arith Token Tokens Bigint Bigtext Reader Printer Lexing Reading Printing Readsafe.
From stdpp Require Import list.

#[global] Open Scope Z_scope.
#[local] Set Warnings "-clear-no-such-hyp".

(** ** Names and bytes *)

Lemma string_bytes k : string_of (bytes_of k) = k.
Proof. induction k as [|a k IH]; [done|]. cbn. unfold ascii_of_Z. by rewrite N2Z.id, ascii_N_embedding, IH. Qed.

Section Scope.
Variables (mainContext currentContext : ptr) (lc_decimal_point : Z).

(** The contexts are symbols of MAIN, what MAIN hands on is in MAIN, and no symbol of the current
    context has the name of a context. *)
Record scope_ok (s : store) (W : gmap ptr (list ptr)) : Prop := {
  sc_names : names_ok mainContext currentContext s W;
  sc_contexts : ∀ c, is_Some (W !! c) → ∃ M d r, W !! mainContext = Some M ∧ c ∈ M ∧ data_in s c = Some d ∧ pl_contents d = ContextCell c r;
  sc_main : ∀ c A p, W !! c = Some A → p ∈ A → inheritable s p = true → c = mainContext;
  sc_visible : currentContext ≠ mainContext → ∀ A a c, W !! currentContext = Some A → a ∈ A → is_Some (W !! c) →
    name_in s a ≠ name_in s c
}.

Lemma scope_root r s W : scope_ok s W → scope_ok (set_root r s) W.
Proof. intros [H1 H2 H3 H4]. split; [by apply names_root|done..]. Qed.

(** A name that starts with a dollar is looked up in MAIN, which makes it global. *)
Definition dollar (t : list Z) : bool := match t with c :: _ => c =? 36 | [] => false end.

(** The symbol [p] of the context [c] has a name that can be read, and so has [c]. *)
Record name_ok (s : store) (p c : ptr) (d : payload) : Prop := {
  nk_token : symbol_token lc_decimal_point (bytes_of (name_in s p));
  nk_lambda : lambda_token (bytes_of (name_in s p)) = None;
  nk_context : name_token lc_decimal_point (bytes_of (name_in s c)) = true;
  nk_dollar : dollar (bytes_of (name_in s p)) = true → c = mainContext ∧ Z.land (pl_flags d) SYMBOL_GLOBAL ≠ 0
}.

Lemma read_symbol_plain t s : dollar t = false → t ≠ [] → read_symbol mainContext currentContext t s =
  ('(p, s) ← translateCreateSymbol mainContext (string_of t) CELL_NIL currentContext false s; Ok (DSymbol p, s)).
Proof. destruct t as [|c t]; [done|]. cbn [dollar]. intros H%Z.eqb_neq _. unfold read_symbol. by repeat case_match. Qed.

Lemma with_data_same d p s : data_in s p = Some d → with_data d p s = s.
Proof.
  unfold data_in, with_data. intros H. destruct s as [h r n x]. cbn in *. unfold with_heap. cbn. f_equal. apply map_eq. intros q.
  destruct (decide (q = p)) as [->|]; [|by rewrite lookup_alter_ne]. rewrite lookup_alter_eq.
  destruct (h !! p) as [[]|]; [|done]. cbn in *. by injection H as ->.
Qed.

Lemma lor_flag f : Z.land f SYMBOL_GLOBAL ≠ 0 → Z.lor f SYMBOL_GLOBAL = f.
Proof.
  intros H. apply Z.bits_inj'. intros n Hn. rewrite Z.lor_spec. change SYMBOL_GLOBAL with (2 ^ 5) in *.
  rewrite Z.pow2_bits_eqb by lia. destruct (Z.eqb_spec 5 n) as [<-|]; [|by rewrite orb_false_r]. rewrite orb_true_r. symmetry.
  destruct (Z.testbit f 5) eqn:E; [done|]. destruct H. apply Z.bits_inj'. intros m Hm. rewrite Z.land_spec, Z.pow2_bits_eqb, Z.bits_0 by lia.
  destruct (Z.eqb_spec 5 m) as [<-|]; [by rewrite E|by rewrite andb_false_r].
Qed.

(** ** Finding a symbol by its name *)

Section Symbol.
Variables (s : store) (W : gmap ptr (list ptr)).
Hypothesis Hsc : scope_ok s W.
#[local] Abbreviation Hw := (nm_world _ _ _ _ (sc_names _ _ Hsc)).

Lemma create_found type c A p : W !! c = Some A → p ∈ A → ∃ r,
  translateCreateSymbol mainContext (name_in s p) type c true s = Ok (p, set_root r s).
Proof.
  intros Hc Hp. pose proof (world_ordered _ _ _ _ Hw Hc) as Ho. pose proof (or_nonempty _ _ Ho p Hp) as Hne.
  destruct (create_ok mainContext (name_in s p) type s W c A Hw Hc Hne) as [(a & r & Ha & Hn & _ & E)|[Hno _]]; [|by destruct (Hno p Hp)].
  assert (a = p) as -> by by apply (names_inj s A). by exists r.
Qed.

(** Reading it behind its context. *)
Lemma qualified_found c A p : W !! c = Some A → p ∈ A → ∃ r,
  read_qualified mainContext c (bytes_of (name_in s p)) s = Ok (DSymbol p, set_root r s).
Proof.
  intros Hc Hp. destruct (sc_contexts _ _ Hsc c) as (M & d & r & _ & _ & Hd & Hcont); [by eexists|].
  unfold read_qualified. rewrite field_data, Hd. cbn [mbind result_bind]. rewrite Hcont, Nat.eqb_refl, string_bytes.
  destruct (create_found CELL_NIL c A p Hc Hp) as (r' & ->). by exists r'.
Qed.

(** A context is found by its name. *)
Lemma context_found c : is_Some (W !! c) → ∃ r, read_context mainContext currentContext (name_in s c) s = Ok (c, set_root r s).
Proof.
  intros Hc. destruct (sc_contexts _ _ Hsc c Hc) as (M & d & r & HM & HcM & Hd & Hcont).
  pose proof (world_ordered _ _ _ _ Hw HM) as HoM. pose proof (or_nonempty _ _ HoM c HcM) as Hne.
  destruct (create_found CELL_CONTEXT mainContext M c HM HcM) as (r1 & E1).
  assert (E1' : ∀ r0, ∃ r1, translateCreateSymbol mainContext (name_in s c) CELL_CONTEXT mainContext true (set_root r0 s) = Ok (c, set_root r1 s)).
  { intros r0. pose proof (create_ok mainContext (name_in s c) CELL_CONTEXT (set_root r0 s) W mainContext M (set_root_world _ _ _ Hw) HM Hne) as H.
    destruct H as [(a & r2 & Ha & Hn & _ & E)|[Hno _]]; [|by destruct (Hno c HcM)]. assert (a = c) as -> by by apply (names_inj s M). by exists r2. }
  unfold read_context. destruct (Nat.eqb_spec currentContext mainContext) as [|Hcm]; cbn [mbind result_bind]; [rewrite E1; by exists r1|].
  rewrite name_of_ok by apply (sc_names _ _ Hsc). cbn [mbind result_bind].
  destruct (nm_current _ _ _ _ (sc_names _ _ Hsc)) as [C HC].
  destruct (sc_contexts _ _ Hsc currentContext) as (M' & d' & r' & HM' & HcurM & _); [by eexists|]. assert (M' = M) as -> by congruence.
  case_bool_decide as En; cbn [mbind result_bind].
  - assert (currentContext = c) as <- by by apply (names_inj s M). destruct (context_cell _ _ _ _ Hw HM) as (? & ? & ? & _ & _ & _ & Hl).
    destruct (tree_addrs _ _ _ _ Hl HcM) as [H2 _]. rewrite (proj2 (Nat.eqb_neq currentContext NULL)) by (unfold NULL; lia).
    exists (root s). by rewrite set_root_id.
  - destruct (find_in s W currentContext C (name_in s c) Hw HC Hne) as (r0 & E0 & _ & Hf). unfold lookupSymbol. rewrite E0. cbn [mbind result_bind].
    destruct Hf as [(a & Ha & Hn & _)|(_ & -> & _)]; [by destruct (sc_visible _ _ Hsc Hcm C a c HC Ha Hc)|].
    cbn [mbind result_bind]. rewrite Nat.eqb_refl. apply E1'.
Qed.

(** Reading it without a context, when the scope gives it. *)
Lemma plain_found c A M C p d : W !! c = Some A → p ∈ A → data_in s p = Some d → W !! mainContext = Some M → W !! currentContext = Some C →
  name_ok s p c d →
  c = currentContext ∨ inheritable s p = true ∧ (∀ a, a ∈ C → name_in s a ≠ name_in s p) →
  ∃ r, read_symbol mainContext currentContext (bytes_of (name_in s p)) s = Ok (DSymbol p, set_root r s).
Proof.
  intros Hc Hp Hd HM HC Hn Hcase. pose proof (world_ordered _ _ _ _ Hw Hc) as Ho. pose proof (or_nonempty _ _ Ho p Hp) as Hne.
  destruct (dollar (bytes_of (name_in s p))) eqn:Edol.
  - destruct (nk_dollar _ _ _ _ Hn Edol) as [-> Hg]. destruct (create_found CELL_NIL mainContext A p Hc Hp) as (r & E). exists r.
    destruct (bytes_of (name_in s p)) as [|x t] eqn:Eb; [done|]. apply Z.eqb_eq in Edol as ->. unfold read_symbol.
    rewrite <- Eb, string_bytes, E. cbn [mbind result_bind]. assert (Hd' : data_in (set_root r s) p = Some d) by exact Hd.
    rewrite field_data, Hd'. cbn [mbind result_bind]. rewrite set_data_ok by by rewrite Hd'. rewrite lor_flag by done.
    rewrite with_data_same; [done|]. rewrite Hd'. by destruct d.
  - rewrite read_symbol_plain; [|done|by destruct (name_in s p)]. rewrite string_bytes.
    pose proof (resolve_ok mainContext (name_in s p) CELL_NIL s W currentContext C M Hw HC HM Hne) as H.
    assert (Hres : resolve (name_in s p) s C M (negb (Nat.eqb currentContext mainContext)) = Some p).
    { unfold resolve. destruct Hcase as [->|[Hi Hno]].
      - assert (C = A) as -> by congruence. by rewrite (filter_name s A _ p).
      - rewrite filter_none by auto. assert (c = mainContext) as -> by by eapply (sc_main _ _ Hsc). assert (M = A) as -> by congruence.
        destruct (Nat.eqb_spec currentContext mainContext) as [->|]; [assert (C = A) as -> by congruence; by destruct (Hno p Hp)|]. cbn [negb].
        apply head_filter; [done|done|]. intros x Hx [Hnx _]. by apply (names_inj s A). }
    rewrite Hres in H. destruct H as (r & ->). by exists r.
Qed.

(** ** The name that is printed *)

Lemma lookup_cases key c A : W !! c = Some A → key ≠ EmptyString →
  (∃ r a, lookupSymbol key c s = Ok (a, set_root r s) ∧ a ≠ NULL ∧ a ∈ A ∧ name_in s a = key) ∨
  (∃ r, lookupSymbol key c s = Ok (NULL, set_root r s) ∧ ∀ a, a ∈ A → name_in s a ≠ key).
Proof.
  intros Hc Hk. destruct (find_in s W c A key Hw Hc Hk) as (r & E & _ & Hf). unfold lookupSymbol. rewrite E. cbn [mbind result_bind].
  destruct Hf as [(a & Ha & Hn & Ef)|(Hno & Ef & _)]; rewrite Ef; [left|right].
  - exists r, a. split; [done|]. split; [|done]. destruct (context_cell _ _ _ _ Hw Hc) as (? & ? & ? & _ & _ & _ & Hl).
    destruct (tree_addrs _ _ _ _ Hl Ha) as [H2 _]. unfold NULL. lia.
  - by exists r.
Qed.

Lemma inheritable_data p d : data_in s p = Some d → inheritable s p =
  (negb (Z.land (pl_flags d) SYMBOL_GLOBAL =? 0) || match pl_contents d with ContextCell q _ => Nat.eqb q p | _ => false end).
Proof. intros Hd. unfold inheritable. by rewrite Hd. Qed.

Lemma symbol_text_cases c A C p d : W !! c = Some A → p ∈ A → data_in s p = Some d → W !! currentContext = Some C →
  (∃ r, symbol_text mainContext currentContext p s = Ok (bytes_of (name_in s p), set_root r s) ∧
    (c = currentContext ∨ inheritable s p = true ∧ ∀ a, a ∈ C → name_in s a ≠ name_in s p)) ∨
  (∃ r, symbol_text mainContext currentContext p s = Ok (bytes_of (name_in s c) ++ c_colon :: bytes_of (name_in s p), set_root r s)).
Proof.
  intros Hc Hp Hd HC. pose proof (world_ordered _ _ _ _ Hw Hc) as Ho. pose proof (or_nonempty _ _ Ho p Hp) as Hne.
  destruct (world_own _ _ _ _ _ Hw Hc Hp) as (d' & Hd' & Hown & Hcont). assert (d' = d) as -> by congruence. clear Hd'.
  destruct (sc_contexts _ _ Hsc c) as (M & dc & rc & HM & HcM & _); [by eexists|].
  pose proof (or_nonempty _ _ (world_ordered _ _ _ _ Hw HM) c HcM) as Hcne.
  assert (Hctx : ∃ b, is_context d p = Ok b ∧ (b = true → inheritable s p = true ∧ is_Some (W !! p))).
  { unfold is_context. rewrite (inheritable_data p d Hd). destruct (pl_contents d) as [|q aux|e] eqn:Ec; [done| |by exists false].
    exists (Nat.eqb q p). split; [done|]. intros ->%Nat.eqb_eq. rewrite Nat.eqb_refl, orb_true_r. split; [done|].
    exact (nm_closed _ _ _ _ (sc_names _ _ Hsc) c A p d aux Hc Hp Hd Ec). }
  destruct Hctx as (b & Hb & Hbi). unfold symbol_text. rewrite field_data, Hd, name_of_ok by done. cbn [mbind result_bind].
  unfold is_foreign, overwrites_global. rewrite Hown. destruct (Nat.eqb_spec c currentContext) as [->|Hcc]; cbn [mbind result_bind andb].
  - destruct (Nat.eqb_spec currentContext mainContext) as [Ecm|Hcm]; cbn [negb mbind result_bind].
    { left. exists (root s). rewrite set_root_id. split; [done|by left]. }
    destruct (lookup_cases (name_in s p) mainContext M HM Hne) as [(r & a & -> & Ha & HaM & _)|(r & -> & _)]; cbn [mbind result_bind].
    + rewrite (proj2 (Nat.eqb_neq a NULL)) by done. destruct (world_data _ _ _ _ _ Hw HM HaM) as [e He].
      assert (He' : data_in (set_root r s) a = Some e) by exact He. rewrite field_data, He'. cbn [mbind result_bind].
      destruct (negb _); [right|left]; exists r; cbn [mbind result_bind].
      * rewrite (name_of_ok (set_root r s) currentContext) by exact Hcne. done.
      * split; [done|by left].
    + rewrite Nat.eqb_refl. cbn [mbind result_bind]. left. exists r. split; [done|by left].
  - assert (Hplain : b = true → ∀ a, a ∈ C → name_in s a ≠ name_in s p).
    { intros [Hi HpW]%Hbi a Ha. pose proof (sc_main _ _ Hsc c A p Hc Hp Hi) as ->.
      apply (sc_visible _ _ Hsc) with (A := C); [by apply not_eq_sym|done..]. }
    destruct (Z.eqb_spec (Z.land (pl_flags d) SYMBOL_GLOBAL) 0) as [Eg|Eg]; cbn [mbind result_bind].
    + rewrite Hb. cbn [mbind result_bind]. destruct b; cbn [negb mbind result_bind].
      * left. exists (root s). rewrite set_root_id. split; [done|]. right. split; [by apply Hbi|by apply Hplain].
      * right. exists (root s). rewrite (name_of_ok s c) by done. cbn [mbind result_bind]. by rewrite set_root_id.
    + destruct (lookup_cases (name_in s p) currentContext C HC Hne) as [(r & a & -> & Ha & HaC & Hna)|(r & -> & Hno)]; cbn [mbind result_bind].
      * rewrite (proj2 (Nat.eqb_neq a NULL)) by done. cbn [negb]. rewrite Hb. cbn [mbind result_bind]. destruct b; cbn [negb mbind result_bind].
        { by destruct (Hplain eq_refl a HaC). }
        right. exists r. rewrite (name_of_ok (set_root r s) c) by exact Hcne. done.
      * rewrite Nat.eqb_refl. cbn [negb mbind result_bind]. left. exists r. split; [done|]. right. split; [|done].
        rewrite (inheritable_data p d Hd). by rewrite (proj2 (Z.eqb_neq _ 0)) by done.
Qed.
End Symbol.
End Scope.

(** ** The round trip *)

Lemma name_token_no_zero lc t : name_token lc t = true → 0 ∉ t.
Proof.
  intros H H0. destruct t as [|c t]; [done|]. unfold name_token in H. rewrite !andb_true_iff in H. destruct H as [[[H _] _] _].
  rewrite List.forallb_forall in H. apply list_elem_of_In, H in H0. done.
Qed.

Lemma symbol_token_no_zero lc t : symbol_token lc t → 0 ∉ t.
Proof. intros [->|[->|H]]; [set_solver..|by eapply name_token_no_zero]. Qed.

(** The symbols with a name that can be read. *)
Definition named (mainContext : ptr) (lc : Z) (s : store) (W : gmap ptr (list ptr)) (p : ptr) : Prop :=
  ∃ c A d, W !! c = Some A ∧ p ∈ A ∧ data_in s p = Some d ∧ name_ok mainContext lc s p c d.

Lemma named_reads mainContext currentContext lc expand s W p : lc = 46 ∨ lc = 44 → scope_ok mainContext currentContext s W →
  named mainContext lc s W p → symbol_reads mainContext currentContext lc expand s p.
Proof.
  intros Hlc Hsc (c & A & d & Hc & Hp & Hd & Hn) r. pose proof (sc_names _ _ _ _ Hsc) as Hnames.
  destruct (nm_main _ _ _ _ Hnames) as [M HM]. destruct (nm_current _ _ _ _ Hnames) as [C HC].
  assert (Hroot : ∀ r, scope_ok mainContext currentContext (set_root r s) W) by (intros; by apply scope_root).
  pose proof (symbol_token_no_zero _ _ (nk_token _ _ _ _ _ _ Hn)) as H0.
  destruct (symbol_text_cases mainContext currentContext _ W (Hroot r) c A C p d Hc Hp Hd HC) as [(r1 & E & Hcase)|(r1 & E)].
  - exists (bytes_of (name_in s p)), r1. split; [exact E|]. split; [done|].
    apply (reads_symbol _ _ _ _ Hlc); [apply Hn|apply Hn|]. intros r2.
    destruct (plain_found mainContext currentContext lc _ W (Hroot r2) c A M C p d Hc Hp Hd HM HC) as (r3 & E3); [destruct Hn; by split|done|].
    by exists r3.
  - exists (bytes_of (name_in s c) ++ c_colon :: bytes_of (name_in s p)), r1. split; [exact E|]. split.
    { pose proof (name_token_no_zero _ _ (nk_context _ _ _ _ _ _ Hn)). set_solver. }
    apply (reads_qualified _ _ _ _ Hlc _ _ _ c); [apply Hn|apply Hn|..]; intros r2.
    + destruct (context_found mainContext currentContext _ W (Hroot r2) c) as (r3 & E3); [by eexists|]. exists r3. by rewrite string_bytes.
    + destruct (qualified_found mainContext currentContext _ W (Hroot r2) c A p Hc Hp) as (r3 & E3). by exists r3.
Qed.

(** C2: What the printer writes of a cell is read as that cell.  It holds for integers, big integers of up to
    a thousand digits, strings below the length of the token buffer, symbols of any context, quotes,
    lists, lambdas and macros nested to any depth, in every state and setting of the pretty printer.
    Printing and reading create no symbol and change none; the reader ends at the end of the text.
    The names must be names to the tokenizer; contexts and global symbols are in MAIN, and no symbol
    of the current context has the name of a context; no list calls a macro of the reader. *)
Theorem print_read_roundtrip mainContext currentContext lc stringOutputRaw prettyPrintMaxLength prettyPrintTab format_float expand
    s W d st r0 fuel :
  lc = 46 ∨ lc = 44 → white prettyPrintTab → scope_ok mainContext currentContext s W →
  readable s (named mainContext lc s W) d → symbols st = set_root r0 s →
  ∃ st' t r, printCell mainContext currentContext stringOutputRaw prettyPrintMaxLength prettyPrintTab format_float d true st = Ok st' ∧
    printed st' = printed st ++ t ∧ symbols st' = set_root r s ∧
    ((length t < fuel)%nat → ∃ r', read_expr lc mainContext currentContext expand fuel (t ++ [0]) 0 0 (symbols st') =
      Ok (Some (d, length t), RState 0 (set_root r' s) [0])).
Proof.
  intros Hlc Htab Hsc Hr Hs.
  destruct (printCell_readable stringOutputRaw prettyPrintMaxLength prettyPrintTab Htab mainContext currentContext format_float lc expand Hlc s
    (named mainContext lc s W) (λ p, named_reads _ _ _ _ _ _ p Hlc Hsc) d Hr st r0 Hs) as (st' & w & t & r & E & H1 & H2 & Hw & Ht).
  exists st', (w ++ t), r. split; [done|]. split; [done|]. split; [done|]. intros Hf. rewrite H2, <- app_assoc.
  destruct (reads_expr lc mainContext currentContext expand s d t w r fuel Ht Hw Hf) as (r' & E'). by exists r'.
Qed.

(** ** Examples *)

Lemma demo_scope : scope_ok 2 2 demo demo_contexts.
Proof.
  split.
  - split; [exact demo_world|by eexists|by eexists|done|]. intros c A p d r Hc Hp Hd Hr.
    revert Hc. unfold demo_contexts. rewrite lookup_insert_Some, lookup_singleton_Some.
    intros [[<- <-]|[_ [<- <-]]];
      repeat (apply elem_of_cons in Hp as [->|Hp]; [vm_compute in Hd; injection Hd as <-; try discriminate Hr; by eexists|]);
      by apply elem_of_nil in Hp.
  - intros c [A HA]. exists [3; 4; 2]%nat. revert HA. unfold demo_contexts. rewrite lookup_insert_Some, lookup_singleton_Some.
    intros [[<- <-]|[_ [<- <-]]]; eexists _, _; (split; [done|]); (split; [set_solver|]); (split; [by vm_compute|done]).
  - intros c A p Hc Hp Hi. revert Hc. unfold demo_contexts. rewrite lookup_insert_Some, lookup_singleton_Some.
    intros [[<- <-]|[_ [<- <-]]]; [done|]. by apply list_elem_of_singleton in Hp as ->.
  - done.
Qed.

(** [(Foo:_x '(-7 (a quote and a line feed)) $it (lambda (Foo:_x) 1000000002L))]. *)
Definition sample_data : datum :=
  DExpr [DSymbol 5; DQuote (DExpr [DLong (-7); DString [97; 34; 10]]); DSymbol 3; DLambda [DExpr [DSymbol 5]; DBigint [1; 1; 2]]].

Lemma demo_named : named 2 46 demo demo_contexts 5 ∧ named 2 46 demo demo_contexts 3.
Proof.
  split; [exists 4%nat, [5%nat]|exists 2%nat, [3; 4; 2]%nat]; eexists; (split; [done|]); (split; [set_solver|]); (split; [by vm_compute|]);
    (split; [by right; right|done|done|by vm_compute]).
Qed.

Lemma sample_readable : readable demo (named 2 46 demo demo_contexts) sample_data.
Proof.
  destruct demo_named as [H5 H3]. cbn. repeat match goal with |- _ ∧ _ => split end; try done;
    try (intros r; by vm_compute); try (unfold INT64_MIN, INT64_MAX; lia); try (by repeat constructor).
  - exists 2%nat. split; [done|]. split; [split; [cbn; lia|by left|by repeat constructor|by right]|]. split; [by right|]. by vm_compute.
Qed.

Lemma print_read_roundtrip_witness : ∃ st' t r',
  printCell 2 2 false 80 [32] (λ _, []) sample_data true (PState 0 0 0 0 [] demo) = Ok st' ∧ printed st' = t ∧
  read_expr 46 2 2 (λ d s, Ok (d, s)) (S (length t)) (t ++ [0]) 0 0 (symbols st') =
    Ok (Some (sample_data, length t), RState 0 (set_root r' demo) [0]).
Proof.
  destruct (print_read_roundtrip 2 2 46 false 80 [32] (λ _, []) (λ d s, Ok (d, s)) demo demo_contexts sample_data
    (PState 0 0 0 0 [] demo) (root demo) (S (length (match printCell 2 2 false 80 [32] (λ _, []) sample_data true (PState 0 0 0 0 [] demo) with
       Ok st => printed st | _ => [] end)))) as (st' & t & r & E & H1 & _ & H2).
  - by left.
  - by repeat constructor.
  - exact demo_scope.
  - exact sample_readable.
  - by rewrite set_root_id.
  - rewrite E in H2. cbn [app] in H1. change (printed (PState 0 0 0 0 [] demo)) with (@nil Z) in H1. cbn [app] in H1.
    rewrite H1 in H2. destruct H2 as (r' & H2); [lia|]. exists st', t, r'.
    split; [exact E|]. split; [exact H1|exact H2].
Defined.

(** A symbol of the current context with the name of a context captures what is printed of it: with Foo as the
    current context and a symbol Foo in it, the context variable Foo of MAIN is printed as Foo, which is then
    read as the symbol of the context Foo. *)
Definition captured : store :=
  match translateCreateSymbol 2 "Foo" CELL_NIL 4 true demo with Ok (_, s) => s | _ => demo end.

Example printed_name_captured :
  (∃ s, symbol_text 2 4 4 captured = Ok (bytes_of "Foo", s)) ∧
  (∃ s, read_symbol 2 4 (bytes_of "Foo") captured = Ok (DSymbol 6, s)).
Proof. split; eexists; vm_compute; reflexivity. Qed.

(** [((1) fn 2)] is read as [((lambda 1) 2)]: the token changes the cell linked last. *)
Example fn_marks_last_cell : ∃ st,
  read_expr 46 2 4 (λ d s, Ok (d, s)) 12 [40; 40; 49; 41; 32; 102; 110; 32; 50; 41; 0] 0 0 demo =
    Ok (Some (DExpr [DLambda [DLong 1]; DLong 2], 10%nat), st).
Proof. eexists. vm_compute. reflexivity. Qed.
