(* ===== verification/Pattern.v ===== *)
(** * The pattern matcher (src/nl-list.c, [patternMatchL])

    [match] compares a list with a pattern in which [?] stands for one element, [*]
    for any number of elements and [+] for at least one, and answers what the wild
    cards stand for.  An exhausted list is [nilCell], whose type is that of a cell
    nil. *)

From stdpp Require Import base list numbers tactics strings.
From Stdlib Require Import ZArith Lia.
From S2P Require Import Prelude Cell.

#[global] Open Scope Z_scope.

(** [nilCell], a list of matches ([None] is the pointer NULL). *)
Inductive matched := NoMatch | Matched (matchList : option (list sexp)).

(** [linkMatches]: the elements are put behind the others. *)
Definition linkMatches (matchList : option (list sexp)) (elmnts : list sexp) : option (list sexp) :=
  match matchList with
  | None => Some elmnts
  | Some l => Some (l ++ elmnts)
  end.

Inductive wildcard := WAny | WStar | WPlus.

(** The list of the contents of an envelope. *)
Definition envelope_contents (e : sexp) : list sexp :=
  match e with CQuote e => [e] | CExpr l | CLambda l | CFexpr l => l | _ => [] end.
Definition is_envelope (e : sexp) : bool :=
  match e with CQuote _ | CExpr _ | CLambda _ | CFexpr _ => true | _ => false end.

(** [list->type == CELL_NIL], and the cell [list] itself. *)
Definition at_nil (cells : list sexp) : bool := match cells with [] | CNil :: _ => true | _ => false end.
Definition first_cell (cells : list sexp) : sexp := match cells with x :: _ => x | [] => CNil end.

Section Match.
Variables (st : symtab) (questionSymbol starSymbol plusSymbol : sym) (flag : bool).

Definition wild (e : sexp) : option wildcard :=
  match e with
  | CSymbol s =>
      if Nat.eqb s questionSymbol then Some WAny
      else if Nat.eqb s starSymbol then Some WStar
      else if Nat.eqb s plusSymbol then Some WPlus
      else None
  | _ => None
  end.

(** The element that matched, when all of them are wanted. *)
Definition link_element (x : sexp) (matchList : option (list sexp)) : option (list sexp) :=
  if flag then linkMatches matchList [x] else matchList.

(** What has matched in a sublist. *)
Definition link_sublist (m : option (list sexp)) (matchList : option (list sexp)) : option (list sexp) :=
  match m with
  | None => matchList
  | Some l => linkMatches matchList (if flag then [CExpr l] else l)
  end.

(** The list of what a wild card stands for, and what has matched behind it. *)
Definition link_star (stars : list sexp) (m : option (list sexp)) (matchList : option (list sexp)) : option (list sexp) :=
  linkMatches (linkMatches matchList [CExpr stars]) (default [] m).

(** [stars] is what the wild card at the pattern has taken so far, or NULL. *)
Fixpoint patternMatchL (fuel : nat) (pattern cells : list sexp) (matchList stars : option (list sexp)) : result matched :=
  match fuel with
  | O => NoFuel
  | S fuel =>
      let finish := Ok (if at_nil cells then Matched matchList else NoMatch) in
      match pattern with
      | [] => finish
      | p :: pattern' =>
          if at_nil pattern then finish
          else if is_envelope p then
            if cell_type (first_cell cells) =? cell_type p then
              m ← patternMatchL fuel (envelope_contents p) (envelope_contents (first_cell cells)) None None;
              match m with
              | NoMatch => Ok NoMatch
              | Matched m => patternMatchL fuel pattern' (drop 1 cells) (link_sublist m matchList) None
              end
            else Ok NoMatch
          else
            match wild p with
            | Some WAny =>
                match cells with
                | [] => Ok NoMatch
                | x :: cells' => patternMatchL fuel pattern' cells' (linkMatches matchList [x]) None
                end
            | Some w =>
                let grep :=
                  match cells with
                  | [] => Ok NoMatch
                  | x :: cells' => patternMatchL fuel pattern cells' matchList (linkMatches stars [x])
                  end in
                match w, stars with
                | WPlus, None => grep
                | _, _ =>
                    match pattern' with
                    | [] => Ok (Matched (linkMatches matchList [CExpr (default [] stars ++ cells)]))
                    | _ =>
                        m ← patternMatchL fuel pattern' cells None None;
                        match m with
                        | Matched m => Ok (Matched (link_star (default [] stars) m matchList))
                        | NoMatch => match cells with [] | [_] => Ok NoMatch | _ => grep end
                        end
                    end
                end
            | None =>
                if compareCells st p (first_cell cells) =? 0 then
                  patternMatchL fuel pattern' (drop 1 cells) (link_element (first_cell cells) matchList) None
                else Ok NoMatch
            end
      end
  end.

(** [p_match] behind the evaluation of its arguments. *)
Definition p_match (pattern list : sexp) : result sexp :=
  match pattern, list with
  | (CExpr p | CLambda p | CFexpr p), (CExpr l | CLambda l | CFexpr l) =>
      m ← patternMatchL (S (list_size p + list_size l)) p l None None;
      Ok (match m with NoMatch => CNil | Matched None => CExpr [] | Matched (Some r) => CExpr r end)
  | _, _ => Ok CNil
  end.

End Match.

(** ** What a match is *)

Section Spec.
Variables (st : symtab) (questionSymbol starSymbol plusSymbol : sym) (flag : bool).

#[local] Abbreviation wild := (wild questionSymbol starSymbol plusSymbol).
#[local] Abbreviation patternMatchL := (patternMatchL st questionSymbol starSymbol plusSymbol flag).

(** What is answered for an element that is no wild card, and for a sublist. *)
Definition element_match (x : sexp) : list sexp := if flag then [x] else [].
Definition sublist_match (b : list sexp) : list sexp :=
  match b with [] => [] | _ => if flag then [CExpr b] else b end.

(** [matches pattern cells b]: the pattern can be laid over the cells, and [b] is what the wild cards
    stand for. *)
Inductive matches : list sexp → list sexp → list sexp → Prop :=
  | match_end : matches [] [] []
  | match_atom p x ps xs b : is_envelope p = false → wild p = None → compareCells st p x = 0 → matches ps xs b →
      matches (p :: ps) (x :: xs) (element_match x ++ b)
  | match_sublist p x ps xs b c : is_envelope p = true → cell_type x = cell_type p →
      matches (envelope_contents p) (envelope_contents x) c → matches ps xs b →
      matches (p :: ps) (x :: xs) (sublist_match c ++ b)
  | match_any p x ps xs b : wild p = Some WAny → matches ps xs b → matches (p :: ps) (x :: xs) (x :: b)
  | match_star p ys ps xs b : wild p = Some WStar → matches ps xs b → matches (p :: ps) (ys ++ xs) (CExpr ys :: b)
  | match_plus p ys ps xs b : wild p = Some WPlus → ys ≠ [] → matches ps xs b →
      matches (p :: ps) (ys ++ xs) (CExpr ys :: b).

(** No cell nil, at any depth, and no symbol nil in the pattern. *)
Fixpoint nil_free (e : sexp) : bool :=
  match e with
  | CNil => false
  | CQuote e => nil_free e
  | CExpr l | CLambda l | CFexpr l => forallb nil_free l
  | _ => true
  end.
Fixpoint pattern_ok (e : sexp) : bool :=
  negb (isNil e) &&
  match e with
  | CQuote e => pattern_ok e
  | CExpr l | CLambda l | CFexpr l => forallb pattern_ok l
  | _ => true
  end.

(** ** What has been gathered *)

Definition gathers (matchList : option (list sexp)) (b : list sexp) : option (list sexp) :=
  match b with [] => matchList | _ => Some (default [] matchList ++ b) end.

Lemma gathers_app ml a b : gathers (gathers ml a) b = gathers ml (a ++ b).
Proof. destruct a as [|x a], b as [|y b]; cbn; rewrite ?app_nil_r; try done. by rewrite <- app_assoc. Qed.

Lemma link_gathers ml x b : linkMatches ml (x :: b) = gathers ml (x :: b).
Proof. by destruct ml. Qed.

Lemma element_gathers ml x : link_element flag x ml = gathers ml (element_match x).
Proof. unfold link_element, element_match. destruct flag; [apply link_gathers|done]. Qed.

Lemma sublist_gathers ml c : link_sublist flag (gathers None c) ml = gathers ml (sublist_match c).
Proof. destruct c as [|x c]; [done|]. cbn. destruct flag; by rewrite link_gathers. Qed.

Lemma star_gathers ml ys b : link_star ys (gathers None b) ml = gathers ml (CExpr ys :: b).
Proof.
  unfold link_star. rewrite link_gathers. destruct b as [|x b]; cbn; [by rewrite app_nil_r|]. by rewrite <- app_assoc.
Qed.

(** ** The shape of matches *)

Lemma wild_atom p w : wild p = Some w → is_envelope p = false ∧ ∃ s, p = CSymbol s.
Proof. destruct p; cbn; try done. eauto. Qed.

Lemma matches_star p ps xs b : wild p = Some WStar →
  matches (p :: ps) xs b ↔ ∃ ys xs' b', xs = ys ++ xs' ∧ matches ps xs' b' ∧ b = CExpr ys :: b'.
Proof.
  intros Hp. destruct (wild_atom _ _ Hp) as [He _]. split.
  - inversion 1; subst; try congruence. eauto 10.
  - intros (ys & xs' & b' & -> & Hm & ->). by constructor.
Qed.

Lemma matches_plus p ps xs b : wild p = Some WPlus →
  matches (p :: ps) xs b ↔ ∃ ys xs' b', xs = ys ++ xs' ∧ ys ≠ [] ∧ matches ps xs' b' ∧ b = CExpr ys :: b'.
Proof.
  intros Hp. destruct (wild_atom _ _ Hp) as [He _]. split.
  - inversion 1; subst; try congruence. eauto 10.
  - intros (ys & xs' & b' & -> & Hn & Hm & ->). by constructor.
Qed.

Lemma wild_envelope p : is_envelope p = true → wild p = None.
Proof. by destruct p. Qed.

Lemma matches_sublist p ps xs b : is_envelope p = true →
  matches (p :: ps) xs b ↔ ∃ x xs' c b', xs = x :: xs' ∧ cell_type x = cell_type p ∧
    matches (envelope_contents p) (envelope_contents x) c ∧ matches ps xs' b' ∧ b = sublist_match c ++ b'.
Proof.
  intros Hp. pose proof (wild_envelope _ Hp) as Hw. split.
  - inversion 1; subst; try congruence. eauto 10.
  - intros (x & xs' & c & b' & -> & Ht & Hc & Hm & ->). by constructor.
Qed.

Lemma matches_any p ps xs b : wild p = Some WAny →
  matches (p :: ps) xs b ↔ ∃ x xs' b', xs = x :: xs' ∧ matches ps xs' b' ∧ b = x :: b'.
Proof.
  intros Hp. destruct (wild_atom _ _ Hp) as [He _]. split.
  - inversion 1; subst; try congruence. eauto 10.
  - intros (x & xs' & b' & -> & Hm & ->). by constructor.
Qed.

Lemma matches_atom p ps xs b : is_envelope p = false → wild p = None →
  matches (p :: ps) xs b ↔ ∃ x xs' b', xs = x :: xs' ∧ compareCells st p x = 0 ∧ matches ps xs' b' ∧ b = element_match x ++ b'.
Proof.
  intros Hp Hw. split.
  - inversion 1; subst; try congruence. eauto 10.
  - intros (x & xs' & b' & -> & Hc & Hm & ->). by constructor.
Qed.

(** What is left of the pattern when the cells have ended is made of stars, so that it takes another cell as well. *)
Lemma matches_absorbs ps b x : ps ≠ [] → matches ps [] b → ∃ b', matches ps [x] b'.
Proof.
  intros Hne Hm. inversion Hm as [| | | |p ys ps' xs b' Hp Hm'|p ys ps' xs b' Hp Hy Hm']; subst; [done| |].
  - destruct ys, xs; try done. exists (CExpr [x] :: b'). by apply (match_star p [x] ps' []).
  - by destruct ys.
Qed.

Lemma envelope_size e : is_envelope e = true → sexp_size e = S (list_size (envelope_contents e)).
Proof. by destruct e. Qed.

Lemma same_envelope p x : is_envelope p = true → cell_type x = cell_type p → is_envelope x = true.
Proof. by destruct p, x. Qed.

Lemma contents_ok p : is_envelope p = true → pattern_ok p = true → forallb pattern_ok (envelope_contents p) = true.
Proof. destruct p; cbn; try done. intros _ ->. done. Qed.

Lemma contents_free x : is_envelope x = true → nil_free x = true → forallb nil_free (envelope_contents x) = true.
Proof. destruct x; cbn; try done. intros _ ->. done. Qed.

(** Only a nil compares as equal to the end of the cells. *)
Lemma compare_nil p : compareCells st p CNil = 0 → isNil p = true.
Proof.
  destruct p as [| | | | |s| | | | | |]; cbn; try done. unfold compareTypes. cbn. by destruct (Nat.eqb s nilSymbol), (Nat.eqb s trueSymbol).
Qed.

(** ** The matcher *)

(** An outcome that agrees with what can be matched: [P b] says that [b] is a match. *)
Definition agrees (ml : option (list sexp)) (P : list sexp → Prop) (r : result matched) : Prop :=
  match r with
  | Ok (Matched m) => ∃ b, P b ∧ m = gathers ml b
  | Ok NoMatch => ∀ b, ¬ P b
  | _ => False
  end.

Lemma agrees_iff ml (P Q : list sexp → Prop) r : (∀ b, P b ↔ Q b) → agrees ml P r → agrees ml Q r.
Proof.
  intros H. destruct r as [[|m]| | |]; cbn; [|..|done|done|done].
  - intros Hn b Hb. by apply (Hn b), H.
  - intros (b & Hb & ->). exists b. by rewrite <- H.
Qed.

(** More matches in front. *)
Lemma agrees_prefix ml a (P Q : list sexp → Prop) r : (∀ b, P b → Q (a ++ b)) → (∀ b, Q b → ∃ b', P b') →
  agrees (gathers ml a) P r → agrees ml Q r.
Proof.
  intros H1 H2. destruct r as [[|m]| | |]; cbn; [|..|done|done|done].
  - intros Hn b [b' Hb]%H2. by apply (Hn b').
  - intros (b & Hb & ->). exists (a ++ b). split; [by apply H1|]. by rewrite gathers_app.
Qed.

(** What the star or plus at [p] has taken already, [ys], and what it can still take. *)
Definition taking (ys ps xs : list sexp) (b : list sexp) : Prop :=
  ∃ zs xs' b', xs = zs ++ xs' ∧ matches ps xs' b' ∧ b = CExpr (ys ++ zs) :: b'.

Lemma taking_cons ys ps x xs b : taking ys ps (x :: xs) b ↔
  (∃ b', matches ps (x :: xs) b' ∧ b = CExpr ys :: b') ∨ taking (ys ++ [x]) ps xs b.
Proof.
  split.
  - intros (zs & xs' & b' & E & Hm & ->). destruct zs as [|z zs]; cbn in E; subst.
    + left. exists b'. by rewrite app_nil_r.
    + injection E as -> ->. right. exists zs, xs', b'. by rewrite <- app_assoc.
  - intros [(b' & Hm & ->)|(zs & xs' & b' & -> & Hm & ->)].
    + exists [], (x :: xs), b'. by rewrite app_nil_r.
    + exists (x :: zs), xs', b'. by rewrite <- app_assoc.
Qed.

Lemma taking_nil ys ps b : taking ys ps [] b ↔ ∃ b', matches ps [] b' ∧ b = CExpr ys :: b'.
Proof.
  split.
  - intros (zs & xs' & b' & E & Hm & ->). destruct zs, xs'; try done. exists b'. by rewrite app_nil_r.
  - intros (b' & Hm & ->). exists [], [], b'. split; [done|]. by rewrite app_nil_r.
Qed.

Lemma taking_all ys xs b : taking ys [] xs b ↔ b = [CExpr (ys ++ xs)].
Proof.
  split.
  - intros (zs & xs' & b' & -> & Hm & ->). inversion Hm; subst. by rewrite app_nil_r.
  - intros ->. exists xs, [], []. rewrite app_nil_r. split; [done|]. by split; [constructor|].
Qed.

(** The search of a star: at these cells, or behind the first. *)
Lemma search_agrees ml ys ps xs (rest grep : result matched) : ps ≠ [] →
  agrees None (matches ps xs) rest →
  (∀ x xs', xs = x :: xs' → agrees ml (taking (ys ++ [x]) ps xs') grep) →
  agrees ml (taking ys ps xs)
    (m ← rest;
     match m with
     | Matched m => Ok (Matched (link_star ys m ml))
     | NoMatch => match xs with [] | [_] => Ok NoMatch | _ => grep end
     end).
Proof.
  intros Hne Hrest Hgrep. destruct rest as [[|m]| | |]; cbn in Hrest |- *; [|..|done|done|done].
  - destruct xs as [|x [|x2 xs]].
    + intros b (b' & Hb & _)%taking_nil. by apply (Hrest b').
    + intros b [(b' & Hb & _)|(b' & Hb & _)%taking_nil]%taking_cons; [by apply (Hrest b')|].
      destruct (matches_absorbs _ _ x Hne Hb) as [b2 Hb2]. by apply (Hrest b2).
    + eapply agrees_iff; [|by apply Hgrep]. intros b. rewrite (taking_cons ys). split; [by right|].
      intros [(b' & Hb & _)|Hb]; [by destruct (Hrest b' Hb)|done].
  - destruct Hrest as (b & Hb & ->). exists (CExpr ys :: b). split; [|apply star_gathers].
    exists [], xs, b. by rewrite app_nil_r.
Qed.

Lemma match_agrees fuel : ∀ ps xs ml, forallb pattern_ok ps = true → forallb nil_free xs = true →
  (list_size ps + list_size xs < fuel)%nat →
  agrees ml (matches ps xs) (patternMatchL fuel ps xs ml None) ∧
  ∀ ys p ps', ps = p :: ps' → wild p = Some WStar ∨ wild p = Some WPlus → ys ≠ [] →
    agrees ml (taking ys ps' xs) (patternMatchL fuel ps xs ml (Some ys)).
Proof.
  induction fuel as [|fuel IH]; intros ps xs ml Hps Hxs Hf; [lia|].
  destruct ps as [|p ps].
  { split; [|done]. cbn [patternMatchL]. destruct xs as [|x xs]; cbn.
    - exists []. split; [constructor|done].
    - cbn in Hxs. destruct x; cbn in *; try done; intros b Hb; inversion Hb. }
  cbn [forallb] in Hps. apply andb_true_iff in Hps as [Hp Hps]. rewrite list_size_cons in Hf. pose proof (sexp_size_pos p) as Hsz.
  assert (Hnil : isNil p = false) by (destruct p as [| | | | |s| | | | | |]; cbn in Hp |- *; try done; by destruct (Nat.eqb s nilSymbol)).
  assert (Hat : at_nil (p :: ps) = false) by (by destruct p).
  assert (Hrest : ∀ ml, agrees ml (matches ps (drop 1 xs)) (patternMatchL fuel ps (drop 1 xs) ml None)).
  { intros ml'. apply IH; [done| |].
    - destruct xs; [done|]. cbn in *. rewrite drop_0. by apply andb_true_iff in Hxs as [_ ?].
    - destruct xs as [|x xs]; cbn [drop]; [cbn in *; lia|]. rewrite drop_0, list_size_cons in *. pose proof (sexp_size_pos x). lia. }
  assert (Hsearch : ∀ ys w, wild p = Some w → w = WStar ∨ w = WPlus → agrees ml (taking ys ps xs)
    (match ps with
     | [] => Ok (Matched (linkMatches ml [CExpr (ys ++ xs)]))
     | _ => m ← patternMatchL fuel ps xs None None;
         match m with
         | Matched m => Ok (Matched (link_star ys m ml))
         | NoMatch => match xs with [] | [_] => Ok NoMatch | _ => 
             match xs with [] => Ok NoMatch | x :: xs' => patternMatchL fuel (p :: ps) xs' ml (Some (ys ++ [x])) end end
         end
     end)).
  { intros ys w Hw Hwk. destruct (decide (ps = [])) as [->|Hne].
    { exists [CExpr (ys ++ xs)]. split; [by apply taking_all|by rewrite link_gathers]. }
    assert (E : ∀ A (a b : A), match ps with [] => a | _ => b end = b) by (by intros; destruct ps). rewrite E.
    apply search_agrees; [done| |].
    - apply IH; [done|done|lia].
    - intros x xs' ->. cbn [forallb] in Hxs. apply andb_true_iff in Hxs as [_ Hxs]. rewrite list_size_cons in Hf. pose proof (sexp_size_pos x).
      destruct (IH (p :: ps) xs' ml) as [_ HI]; [by apply andb_true_iff|done|rewrite list_size_cons; lia|].
      apply (HI _ p ps); [done|destruct Hwk as [-> | ->]; auto|by destruct ys]. }
  cbn [patternMatchL]. rewrite Hat. split.
  - destruct (is_envelope p) eqn:He.
    { eapply agrees_iff; [intros b; symmetry; by apply matches_sublist|].
      destruct (Z.eqb_spec (cell_type (first_cell xs)) (cell_type p)) as [Ht|Ht].
      2:{ by intros b (x & xs' & c & b' & -> & Ht' & _). }
      destruct xs as [|x xs]; [by destruct p|]. cbn [first_cell] in *. pose proof (same_envelope _ _ He Ht) as Hx.
      cbn [forallb] in Hxs. apply andb_true_iff in Hxs as [Hxf Hxs]. rewrite list_size_cons in Hf.
      rewrite (envelope_size p), (envelope_size x) in Hf by done.
      destruct (IH (envelope_contents p) (envelope_contents x) None) as [Hsub _]; [by apply contents_ok|by apply contents_free|lia|].
      destruct (patternMatchL fuel (envelope_contents p) _ None None) as [[|m]| | |]; cbn [agrees] in Hsub; try done; cbn [mbind result_bind].
      - intros b (x' & xs' & c & b' & [= <- <-] & _ & Hc & _). by apply (Hsub c).
      - destruct Hsub as (c & Hc & ->). rewrite sublist_gathers. eapply agrees_prefix; [| |apply Hrest]; cbn [drop]; rewrite ?drop_0.
        + intros b Hb. by exists x, xs, c, b.
        + intros b (x' & xs' & c' & b' & [= <- <-] & _ & _ & Hb & _). by exists b'. }
    destruct (wild p) as [w|] eqn:Hw.
    2:{ eapply agrees_iff; [intros b; symmetry; by apply matches_atom|].
      destruct (Z.eqb_spec (compareCells st p (first_cell xs)) 0) as [Hc|Hc].
      2:{ by intros b (x & xs' & b' & -> & Hc' & _). }
      destruct xs as [|x xs]; [cbn [first_cell] in Hc; apply compare_nil in Hc; congruence|]. cbn [first_cell] in *.
      rewrite element_gathers. eapply agrees_prefix; [| |apply Hrest]; cbn [drop]; rewrite ?drop_0.
      - intros b Hb. by exists x, xs, b.
      - intros b (x' & xs' & b' & [= <- <-] & _ & Hb & _). by exists b'. }
    assert (Hplus : w = WPlus → agrees ml (matches (p :: ps) xs)
      match xs with [] => Ok NoMatch | x :: cells' => patternMatchL fuel (p :: ps) cells' ml (linkMatches None [x]) end).
    { intros ->. eapply agrees_iff; [intros b; symmetry; by apply matches_plus|]. destruct xs as [|x xs].
      - intros b (ys & xs' & b' & E & Hy & _). by destruct ys.
      - cbn [forallb] in Hxs. apply andb_true_iff in Hxs as [_ Hxs]. rewrite list_size_cons in Hf. pose proof (sexp_size_pos x).
        destruct (IH (p :: ps) xs ml) as [_ HI]; [by apply andb_true_iff|done|rewrite list_size_cons; lia|].
        eapply agrees_iff; [|by apply (HI [x] p ps); auto]. intros b. split.
        + intros (zs & xs' & b' & -> & Hm & ->). exists (x :: zs), xs', b'. done.
        + intros (ys & xs' & b' & E & Hy & Hm & ->). destruct ys as [|y ys]; [done|]. injection E as <- ->. by exists ys, xs', b'. }
    destruct w.
    + eapply agrees_iff; [intros b; symmetry; by apply matches_any|]. destruct xs as [|x xs]; [by intros b (x & xs' & b' & ? & _)|].
      rewrite link_gathers. cbn [drop] in Hrest. rewrite drop_0 in Hrest. eapply agrees_prefix; [| |apply Hrest].
      * intros b Hb. by exists x, xs, b.
      * intros b (x' & xs' & b' & [= <- <-] & Hb & _). by exists b'.
    + eapply agrees_iff; [|exact (Hsearch [] WStar eq_refl (or_introl eq_refl))]. intros b. symmetry. by apply matches_star.
    + by apply Hplus.
  - intros ys p' ps' [= <- <-] Hw Hy. destruct (is_envelope p) eqn:He; [apply wild_envelope in He; destruct Hw; congruence|].
    assert (Hlink : ∀ x, linkMatches (Some ys) [x] = Some (ys ++ [x])) by done.
    destruct Hw as [Hw|Hw]; rewrite Hw; [exact (Hsearch ys WStar Hw (or_introl eq_refl))|exact (Hsearch ys WPlus Hw (or_intror eq_refl))].
Qed.
End Spec.

(** ** Theorems *)

Definition is_list (e : sexp) : bool := match e with CExpr _ | CLambda _ | CFexpr _ => true | _ => false end.

(** C37: [match] decides whether a pattern can be laid over a list, sublists within sublists included: it
    answers what the wild cards stand for in one of the ways to do so, and nil when there is none.
    The pattern has no nil in it, and the list no cell nil; with them it is not so
    ([match_misses_nil]). *)
Theorem p_match_matches st questionSymbol starSymbol plusSymbol flag pattern cells :
  is_list pattern = true → is_list cells = true → pattern_ok pattern = true → nil_free cells = true →
  let wins := matches st questionSymbol starSymbol plusSymbol flag (envelope_contents pattern) (envelope_contents cells) in
  match p_match st questionSymbol starSymbol plusSymbol flag pattern cells with
  | Ok r => r = CNil ∧ (∀ b, ¬ wins b) ∨ ∃ b, r = CExpr b ∧ wins b
  | _ => False
  end.
Proof.
  intros Hp Hc Hpk Hcf wins.
  assert (Hep : is_envelope pattern = true) by by destruct pattern. assert (Hec : is_envelope cells = true) by by destruct cells.
  set (ps := envelope_contents pattern) in *. set (xs := envelope_contents cells) in *.
  assert (E : p_match st questionSymbol starSymbol plusSymbol flag pattern cells =
    (m ← patternMatchL st questionSymbol starSymbol plusSymbol flag (S (list_size ps + list_size xs)) ps xs None None;
     Ok (match m with NoMatch => CNil | Matched None => CExpr [] | Matched (Some r) => CExpr r end))).
  { by destruct pattern, cells. }
  destruct (match_agrees st questionSymbol starSymbol plusSymbol flag (S (list_size ps + list_size xs)) ps xs None) as [H _];
    [by apply contents_ok|by apply contents_free|lia|].
  rewrite E. destruct (patternMatchL _ _ _ _ _ _ _ _ _ _) as [[|m]| | |]; cbn in H |- *; try done; [by left|].
  destruct H as (b & Hb & ->). right. exists b. split; [by destruct b|done].
Qed.

(** The wild cards are the symbols 2, 3 and 4: [(match '(a (? 5) star 7) '(a (4 5) 6 6 7))], which is [(4 (6 6))]. *)
Lemma p_match_matches_witness :
  let st := λ s : sym, Symbol (String.String (Ascii.ascii_of_nat (97 + s)) String.EmptyString) 0 0%nat CNil in
  let pattern := CExpr [CSymbol 5%nat; CExpr [CSymbol 2%nat; CLong 5]; CSymbol 3%nat; CLong 7] in
  let cells := CExpr [CSymbol 5%nat; CExpr [CLong 4; CLong 5]; CLong 6; CLong 6; CLong 7] in
  p_match st 2%nat 3%nat 4%nat false pattern cells = Ok (CExpr [CLong 4; CExpr [CLong 6; CLong 6]]) ∧
  matches st 2%nat 3%nat 4%nat false (envelope_contents pattern) (envelope_contents cells) [CLong 4; CExpr [CLong 6; CLong 6]].
Proof.
  intros st pattern cells. pose proof (p_match_matches st 2%nat 3%nat 4%nat false pattern cells eq_refl eq_refl eq_refl eq_refl) as H.
  assert (E : p_match st 2%nat 3%nat 4%nat false pattern cells = Ok (CExpr [CLong 4; CExpr [CLong 6; CLong 6]])) by (vm_compute; reflexivity).
  split; [exact E|]. rewrite E in H. destruct H as [[H _]|(b & Hb & H)]; [discriminate H|]. injection Hb as <-. exact H.
Defined.

(** A cell nil in either list is taken for its end, and a nil at the end of the pattern matches nothing: the
    lists [(a nil b)] and [(a)], the cell nil made by a call of [list], match both ways, and so do [(a nil)], read
    from the source, and [(a)]. *)
Example match_misses_nil :
  let st := λ s : sym, Symbol (String.String (Ascii.ascii_of_nat (97 + s)) String.EmptyString) 0 0%nat CNil in
  p_match st 2%nat 3%nat 4%nat false (CExpr [CSymbol 5%nat]) (CExpr [CSymbol 5%nat; CNil; CSymbol 6%nat]) = Ok (CExpr []) ∧
  p_match st 2%nat 3%nat 4%nat false (CExpr [CSymbol 5%nat; CNil; CSymbol 6%nat]) (CExpr [CSymbol 5%nat]) = Ok (CExpr []) ∧
  p_match st 2%nat 3%nat 4%nat false (CExpr [CSymbol 5%nat; CSymbol nilSymbol]) (CExpr [CSymbol 5%nat]) = Ok (CExpr []).
Proof. by vm_compute. Qed.
