(* ===== verification/Unify.v ===== *)
(** * Unification (src/nl-math.c, [p_unify])

    [unify] takes pairs of terms from the stack [ws] until it is empty or a pair cannot be made equal, and puts the
    bindings it finds on the stack [mgu], expanding the variable in both.  Both stacks are static and outlive
    an error.  [addr s] is the address of the SYMBOL [s], which the code compares with the contents of cells;
    it takes the bits of a double, a pointer to a string and that of a primitive never to be one. *)

From stdpp Require Import base list numbers tactics strings gmap.
From Stdlib Require Import ZArith Lia String Ascii.
From S2P Require Import Prelude Cell Utf8 Eval.

#[global] Open Scope Z_scope.

(** A TERMSET is a stack of pairs. *)
Abbreviation termset := (list (sexp * sexp)).

Record unifier := Unifier { mgu : termset; ws : termset }.

(** What [unify] answers, and the state it leaves; an error leaves one too. *)
Inductive unified :=
  | Returns (v : sexp) (u : unifier) (g : env)
  | Raises (e : Z) (u : unifier) (g : env).

Inductive unify_type := UNIFY_ATOM | UNIFY_LIST | UNIFY_VAR | UNIFY_ANY.

(** Equality of types. *)
Definition is_type (a b : unify_type) : bool :=
  match a, b with
  | UNIFY_ATOM, UNIFY_ATOM | UNIFY_LIST, UNIFY_LIST | UNIFY_VAR, UNIFY_VAR | UNIFY_ANY, UNIFY_ANY => true
  | _, _ => false
  end.

(** The bytes of a name with the terminating 0. *)
Definition name_bytes (s : string) : list Z :=
  cstring (List.map (λ c, Z.of_nat (nat_of_ascii c)) (list_ascii_of_string s)).

(** The list a cell of type list holds. *)
Definition list_of (e : sexp) : option (list sexp) :=
  match e with CExpr l | CLambda l | CFexpr l => Some l | _ => None end.

Section Unify.
Variables (st : symtab) (addr : sym → Z).

Definition unifyGetType (cell : sexp) : result unify_type :=
  match cell with
  | CSymbol s =>
      if String.eqb (sym_name (st s)) "_" then Ok UNIFY_ANY
      else
        '(wchar, _) ← utf8_wchar (name_bytes (sym_name (st s))) 0;
        Ok (if (64 <? wchar) && (wchar <? 91) then UNIFY_VAR else UNIFY_ATOM)
  | CExpr _ | CLambda _ | CFexpr _ => Ok UNIFY_LIST
  | _ => Ok UNIFY_ATOM
  end.

(** [cell->contents == (UINT)sPtr]. *)
Definition holds_symbol (s : sym) (cell : sexp) : bool :=
  match cell with
  | CSymbol t | CContext t => Nat.eqb s t
  | CLong z => z =? addr s
  | _ => false
  end.

(** [left->contents == right->contents], where one of them is a list or a variable: the contents of an empty list are
    [nilCell], those of other lists pointers to their own copies. *)
Definition same_contents (left right : sexp) : bool :=
  match left, right with
  | (CSymbol s | CContext s), _ => holds_symbol s right
  | _, (CSymbol s | CContext s) => holds_symbol s left
  | _, _ =>
      match list_of left, list_of right with
      | Some [], Some [] => true
      | Some [], None => match right with CNil => true | _ => false end
      | None, Some [] => match left with CNil => true | _ => false end
      | _, _ => false
      end
  end.

Fixpoint occurCheck (s : sym) (expr : sexp) : bool :=
  match expr with
  | CQuote e => occurCheck s e
  | CExpr l | CLambda l | CFexpr l => existsb (occurCheck s) l
  | _ => holds_symbol s expr
  end.

(** [expand] with a symbol, whose contents are [value]: the cells are overwritten in place. *)
Fixpoint expand (value : sexp) (symbol : sym) (expr : sexp) : sexp :=
  match expr with
  | CSymbol s => if Nat.eqb s symbol then value else expr
  | CQuote e => CQuote (expand value symbol e)
  | CExpr l => CExpr (List.map (expand value symbol) l)
  | CLambda l => CLambda (List.map (expand value symbol) l)
  | CFexpr l => CFexpr (List.map (expand value symbol) l)
  | _ => expr
  end.

(** [expr] is the contents of the symbol meanwhile. *)
Definition subsym (expr : sexp) (s : sym) (cell : sexp) : sexp :=
  match cell with
  | CExpr _ | CLambda _ | CFexpr _ | CQuote _ => expand expr s cell
  | _ => if holds_symbol s cell then expr else cell
  end.

Definition substitute (expr : sexp) (s : sym) (tset : termset) : termset :=
  List.map (λ '(l, r), (subsym expr s l, subsym expr s r)) tset.

(** The pairs of the elements of two lists, the last on top. *)
Definition push_elements (l r : list sexp) (ws : termset) : termset := reverse (zip l r) ++ ws.

(** [leftType == UNIFY_VAR && !occurCheck(left, right)]. *)
Definition binds (type : unify_type) (left right : sexp) : option sym :=
  match type, left with
  | UNIFY_VAR, CSymbol s => if occurCheck s right then None else Some s
  | _, _ => None
  end.

Inductive unify_round := Proceed (u : unifier) | Clash (u : unifier).

Definition bind_variable (s : sym) (expr : sexp) (u : unifier) : unifier :=
  Unifier ((CSymbol s, expr) :: substitute expr s (mgu u)) (substitute expr s (ws u)).

(** One round: the pair [left], [right] has been taken from the stack. *)
Definition unify_pair (left right : sexp) (u : unifier) : result unify_round :=
  leftType ← unifyGetType left;
  rightType ← unifyGetType right;
  if is_type leftType UNIFY_ANY || is_type rightType UNIFY_ANY then Ok (Proceed u)
  else if is_type leftType UNIFY_ATOM && is_type rightType UNIFY_ATOM || same_contents left right then
    Ok (if compareCells st left right =? 0 then Proceed u else Clash u)
  else
    match binds leftType left right with
    | Some s => Ok (Proceed (bind_variable s right u))
    | None =>
        match binds rightType right left with
        | Some s => Ok (Proceed (bind_variable s left u))
        | None =>
            match list_of left, list_of right with
            | Some l, Some r =>
                if Nat.eqb (List.length l) (List.length r) then Ok (Proceed (Unifier (mgu u) (push_elements l r (ws u))))
                else Ok (Clash u)
            | _, _ => Ok (Clash u)
            end
        end
    end.

Fixpoint unify_loop (fuel : nat) (u : unifier) : result unify_round :=
  match fuel with
  | O => NoFuel
  | S fuel =>
      match ws u with
      | [] => Ok (Proceed u)
      | (l, r) :: rest =>
          o ← unify_pair l r (Unifier (mgu u) rest);
          match o with
          | Proceed u => unify_loop fuel u
          | Clash u => Ok (Clash u)
          end
      end
  end.

(** The bindings become the contents of the symbols; a left side that an earlier error has left on the stack
    need no longer be a symbol. *)
Fixpoint bind_symbols (bindings : termset) (g : env) : result unified :=
  match bindings with
  | [] => Ok (Returns (CExpr []) (Unifier [] []) g)
  | ((CSymbol s | CContext s), value) :: rest =>
      if isProtected (sym_flags (st s)) then Ok (Raises ERR_SYMBOL_PROTECTED (Unifier rest []) g)
      else bind_symbols rest (<[s := value]> g)
  | _ :: _ => UB
  end.

Definition finishUnify (bindFlag : bool) (o : unify_round) (g : env) : result unified :=
  match o with
  | Clash _ => Ok (Returns CNil (Unifier [] []) g)
  | Proceed u =>
      if bindFlag then bind_symbols (mgu u) g
      else Ok (Returns (CExpr (List.map (λ '(l, r), CExpr [l; r]) (mgu u))) (Unifier [] []) g)
  end.

Definition unify (fuel : nat) (bindFlag : bool) (left right : sexp) (u : unifier) (g : env) : result unified :=
  o ← unify_loop fuel (Unifier (mgu u) ((left, right) :: ws u));
  finishUnify bindFlag o g.

(** The pairs of the environment; [None] for an element that is no list. *)
Fixpoint push_env (envHead : list sexp) (u : unifier) : bool * unifier :=
  match envHead with
  | [] => (true, u)
  | CExpr l :: envHead => push_env envHead (Unifier (mgu u) ((hd CNil l, hd CNil (tl l)) :: ws u))
  | _ :: _ => (false, u)
  end.

(** [p_unify] behind the evaluation of its arguments; [list_env] is the list of the environment, or empty. *)
Definition p_unify (fuel : nat) (left right : sexp) (list_env : list sexp) (bindFlag : bool) (u : unifier) (g : env) : result unified :=
  match push_env list_env u with
  | (false, u) => Ok (Raises ERR_LIST_EXPECTED u g)
  | (true, u) => unify fuel bindFlag left right u g
  end.

End Unify.
