(* ===== verification/Unifier.v ===== *)
(** * Most general unifiers

    What [p_unify] (Unify.v) answers, for terms without quotes, floats, contexts and the symbol [_]: a most
    general unifier, and nil only when there is none.  Equality of terms is that of [compareCells] on
    the elements; lists, lambdas and fexprs of the same length are equal when their elements are. *)

From stdpp Require Import base list numbers tactics strings gmap.
From Stdlib Require Import ZArith Lia String Ascii.
From S2P Require Import Prelude Cell Utf8 Eval Ranking Order Unify.

#[global] Open Scope Z_scope.

Section Terms.
Variables (st : symtab) (addr : sym → Z).

(** Addresses of symbols are [low] or above. *)
Variable low : Z.

#[local] Abbreviation cmp := (compareCells st).

Definition is_var (s : sym) : bool :=
  match unifyGetType st (CSymbol s) with Ok UNIFY_VAR => true | _ => false end.

Fixpoint plain (e : sexp) : bool :=
  match e with
  | CFloat _ | CContext _ | CQuote _ => false
  | CLong z => z <? low
  | CSymbol s => negb (String.eqb (sym_name (st s)) "_")
  | CExpr l | CLambda l | CFexpr l => forallb plain l
  | _ => true
  end.

(** ** Equality *)

(** The type of a list matters only when it is empty. *)
Fixpoint strip (e : sexp) : sexp :=
  match e with
  | CExpr l => CExpr (List.map strip l)
  | CLambda l => match l with [] => CLambda [] | _ => CExpr (List.map strip l) end
  | CFexpr l => match l with [] => CFexpr [] | _ => CExpr (List.map strip l) end
  | _ => e
  end.

Definition eqv (a b : sexp) : Prop := cmp (strip a) (strip b) = 0.

(** ** Substitutions *)

Fixpoint app (θ : sym → sexp) (e : sexp) : sexp :=
  match e with
  | CSymbol s => if is_var s then θ s else e
  | CExpr l => CExpr (List.map (app θ) l)
  | CLambda l => CLambda (List.map (app θ) l)
  | CFexpr l => CFexpr (List.map (app θ) l)
  | _ => e
  end.

Definition plain_subst (θ : sym → sexp) : Prop := ∀ s, is_var s = true → plain (θ s) = true.

(** [θ] makes the two sides of every pair equal. *)
Definition unifies (θ : sym → sexp) (pairs : termset) : Prop := Forall (λ p, eqv (app θ p.1) (app θ p.2)) pairs.

Definition plain_pairs (pairs : termset) : Prop := Forall (λ p, plain p.1 = true ∧ plain p.2 = true) pairs.

(** A list of bindings as a substitution. *)
Fixpoint subst_of (bindings : termset) (s : sym) : sexp :=
  match bindings with
  | (CSymbol t, e) :: rest => if Nat.eqb s t then e else subst_of rest s
  | _ :: rest => subst_of rest s
  | [] => CSymbol s
  end.

(** Bindings of different variables, none of which occurs in a value. *)
Definition solved (bindings : termset) : Prop :=
  ∃ xs, NoDup xs ∧ List.map fst bindings = CSymbol <$> xs ∧
    ∀ x, x ∈ xs → is_var x = true ∧ ∀ p, p ∈ bindings → occurCheck addr x p.2 = false ∧ plain p.2 = true.

(** ** Facts about equality *)

Lemma list_of_plain a l : list_of a = Some l → plain a = forallb plain l.
Proof. by destruct a; intros [= ->]. Qed.

Lemma list_of_app θ a l : list_of a = Some l → list_of (app θ a) = Some (List.map (app θ) l).
Proof. by destruct a; intros [= ->]. Qed.

Lemma app_type θ a l : list_of a = Some l → cell_type (app θ a) = cell_type a.
Proof. by destruct a. Qed.

Lemma strip_list a l : list_of a = Some l → l ≠ [] → strip a = CExpr (List.map strip l).
Proof. destruct a; intros [= ->] Hl; destruct l; done. Qed.

Lemma map_orderly l : Forall (λ x, plain x = true → orderly (strip x) = true) l → forallb plain l = true →
  forallb orderly (List.map strip l) = true.
Proof.
  induction 1 as [|x l Hx Hl IHl]; [done|]. cbn [forallb List.map]. rewrite !andb_true_iff. intros [H1 H2].
  split; [by apply Hx|by apply IHl].
Qed.

Lemma strip_orderly e : plain e = true → orderly (strip e) = true.
Proof.
  induction e as [| |x|f|s|s|s|p|e IH|l IH|l IH|l IH] using sexp_ind_nested; cbn; try done; intros H.
  all: pose proof (map_orderly l IH H) as Ho; destruct l; cbn in *; done.
Qed.

Lemma eqv_refl a : plain a = true → eqv a a.
Proof. intros H%strip_orderly. pose proof (cmp_anti st _ _ H H). unfold eqv. lia. Qed.

Lemma eqv_sym a b : plain a = true → plain b = true → eqv a b → eqv b a.
Proof. intros Ha%strip_orderly Hb%strip_orderly. unfold eqv. rewrite (cmp_anti st _ _ Ha Hb). lia. Qed.

Lemma eqv_trans a b c : plain a = true → plain b = true → plain c = true → eqv a b → eqv b c → eqv a c.
Proof. intros Ha%strip_orderly Hb%strip_orderly Hc%strip_orderly H1 H2. unfold eqv. by apply (cmp_zero st _ _ _ Ha Hb Hc). Qed.

Lemma cmp_lists l : ∀ r, cmp (CExpr (List.map strip l)) (CExpr (List.map strip r)) = 0 ↔ Forall2 eqv l r.
Proof.
  induction l as [|x l IH]; intros [|y r]; cbn [List.map].
  - split; [constructor|done].
  - split; [done|inversion 1].
  - split; [done|inversion 1].
  - transitivity ((if cmp (strip x) (strip y) =? 0 then cmp (CExpr (List.map strip l)) (CExpr (List.map strip r)) else cmp (strip x) (strip y)) = 0).
    { done. }
    unfold eqv at 1. rewrite Forall2_cons, <- IH. unfold eqv. destruct (Z.eqb_spec (cmp (strip x) (strip y)) 0); lia.
Qed.

Lemma eqv_lists a b l r : list_of a = Some l → list_of b = Some r →
  eqv a b ↔ Forall2 eqv l r ∧ (l = [] → cell_type a = cell_type b).
Proof.
  intros Ha Hb. destruct l as [|x l], r as [|y r].
  - destruct a, b; try discriminate Ha; try discriminate Hb; injection Ha as ->; injection Hb as ->; split; try done; intros [_ H]; by specialize (H eq_refl).
  - unfold eqv. rewrite (strip_list b _ Hb) by done. split; [|by intros [H _]; inversion H].
    destruct a; try discriminate Ha; injection Ha as ->; done.
  - unfold eqv. rewrite (strip_list a _ Ha) by done. split; [|by intros [H _]; inversion H].
    destruct b; try discriminate Hb; injection Hb as ->; done.
  - unfold eqv at 1. rewrite (strip_list a _ Ha), (strip_list b _ Hb) by done. rewrite cmp_lists. naive_solver.
Qed.

Lemma eqv_list_atom a b l : list_of a = Some l → list_of b = None → plain a = true → plain b = true → ¬ eqv a b.
Proof.
  unfold eqv. intros Ha Hb Hpa Hpb. assert (E : 11 ≤ rank (strip a)) by by destruct a as [| | | | | | | | |k|k|k]; try discriminate Ha; destruct k.
  assert (E' : rank (strip b) < 11).
  { destruct b as [| | | | |s| | | | | |]; try done. by destruct s as [|[|s]]. }
  rewrite cmp_rank; [unfold sgn3; destruct (0 <? _); lia| | |lia]; by apply strip_orderly.
Qed.

Lemma strip_atom a : list_of a = None → plain a = true → strip a = a.
Proof. by destruct a. Qed.

Lemma list_of_size a l : list_of a = Some l → sexp_size a = S (list_size l).
Proof. by destruct a; intros [= ->]. Qed.

Lemma eqv_size a : ∀ b, plain a = true → plain b = true → eqv a b → sexp_size a = sexp_size b.
Proof.
  induction a as [| |x|f|s|s|s|p|e IH|l IH|l IH|l IH] using sexp_ind_nested; intros b Ha Hb He; try done.
  all: destruct (list_of b) as [r|] eqn:Hr.
  all: try (by apply eqv_sym in He; [|done..]; eapply eqv_list_atom in He).
  all: try (by eapply eqv_list_atom in He).
  all: try (by destruct b).
  all: eapply eqv_lists in He as [He _]; [|done..]; rewrite (list_of_size b r Hr).
  all: cbn; f_equal; change (list_size l = list_size r); cbn in Ha; erewrite (list_of_plain b) in Hb by done; clear Hr b.
  all: revert Ha Hb; induction He as [|x y l r Hxy _ IHl]; [done|]; rewrite Forall_cons in IH; destruct IH as [IHx IH].
  all: cbn [forallb]; rewrite !andb_true_iff, !list_size_cons; intros [Hx Hl] [Hy Hr]; rewrite (IHx y) by done; by rewrite IHl.
Qed.

(** ** Facts about substitutions *)

Lemma app_plain θ e : plain_subst θ → plain e = true → plain (app θ e) = true.
Proof.
  intros Hθ. induction e as [| |x|f|s|s|s|p|e IH|l IH|l IH|l IH] using sexp_ind_nested; cbn [app plain]; try done.
  { intros H. destruct (is_var s) eqn:Hs; [by apply Hθ|done]. }
  all: induction IH as [|x l Hx _ IHl]; [done|]; cbn [forallb List.map]; rewrite !andb_true_iff; intros [H1 H2]; split; [by apply Hx|by apply IHl].
Qed.

Lemma expand_plain e s t : plain e = true → plain t = true → plain (expand e s t) = true.
Proof.
  intros He. induction t as [| |x|f|u|u|u|p|t IH|l IH|l IH|l IH] using sexp_ind_nested; cbn [expand plain]; try done.
  { intros H. by destruct (Nat.eqb u s). }
  all: induction IH as [|x l Hx _ IHl]; [done|]; cbn [forallb List.map]; rewrite !andb_true_iff; intros [H1 H2]; split; [by apply Hx|by apply IHl].
Qed.

(** A variable may be replaced by what equals it. *)
Lemma app_expand θ e s t : plain_subst θ → is_var s = true → plain e = true → plain t = true → eqv (θ s) (app θ e) →
  eqv (app θ (expand e s t)) (app θ t).
Proof.
  intros Hθ Hs He Ht Heq. pose proof (app_plain _ _ Hθ He). pose proof (Hθ s Hs). revert Ht.
  induction t as [| |x|f|u|u|u|p|t IH|l IH|l IH|l IH] using sexp_ind_nested; cbn [expand plain]; try done; intros Ht; try (by apply eqv_refl).
  { destruct (Nat.eqb_spec u s) as [->|Hn]; [cbn [app]; rewrite Hs; by apply eqv_sym|]. apply eqv_refl. by apply (app_plain θ (CSymbol u)). }
  all: apply (eqv_lists _ _ (List.map (app θ) (List.map (expand e s) l)) (List.map (app θ) l)); [done..|]; split; [|done].
  all: induction IH as [|x l Hx _ IHl]; [constructor|]; cbn [forallb List.map] in *; apply andb_true_iff in Ht as [H1 H2].
  all: constructor; [by apply Hx|by apply IHl].
Qed.

Lemma occurs_list x a l : list_of a = Some l → occurCheck addr x a = existsb (occurCheck addr x) l.
Proof. by destruct a; intros [= ->]. Qed.

Lemma occurs_expand x e s t : occurCheck addr x (expand e s t) = true → occurCheck addr x e = true ∨ occurCheck addr x t = true.
Proof.
  induction t as [| |z|f|u|u|u|p|t IH|l IH|l IH|l IH] using sexp_ind_nested; cbn [expand]; try (by right).
  { destruct (Nat.eqb_spec u s); [by left|by right]. }
  { done. }
  all: cbn [occurCheck]; rewrite !existsb_exists; intros (y & (z & <- & Hz)%in_map_iff & Hy); rewrite Forall_forall in IH.
  all: apply IH in Hy as [|]; [by left|right; eauto|by apply list_elem_of_In].
Qed.

(** The variable is gone. *)
Lemma occurs_self e s t : low ≤ addr s → plain t = true → occurCheck addr s (expand e s t) = true → occurCheck addr s e = true.
Proof.
  intros Hlow. induction t as [| |z|f|u|u|u|p|t IH|l IH|l IH|l IH] using sexp_ind_nested; cbn [expand plain]; try done; intros Ht.
  { cbn. intros ->%Z.eqb_eq. apply Z.ltb_lt in Ht. lia. }
  { destruct (Nat.eqb_spec u s) as [->|]; [done|]. cbn. intros ->%Nat.eqb_eq. done. }
  all: cbn [occurCheck]; rewrite !existsb_exists; intros (y & (z & <- & Hz)%in_map_iff & Hy); rewrite Forall_forall in IH.
  all: rewrite forallb_forall in Ht; apply IH in Hy; [done|by apply list_elem_of_In|by apply Ht].
Qed.

(** A term in which a variable occurs is larger than what the variable stands for. *)
Lemma occurs_size θ s t : low ≤ addr s → is_var s = true → plain t = true → occurCheck addr s t = true →
  (sexp_size (θ s) ≤ sexp_size (app θ t))%nat.
Proof.
  intros Hlow Hs. induction t as [| |z|f|u|u|u|p|t IH|l IH|l IH|l IH] using sexp_ind_nested; cbn [plain]; try done; intros Ht.
  { cbn. intros ->%Z.eqb_eq. apply Z.ltb_lt in Ht. lia. }
  { cbn. intros ->%Nat.eqb_eq. by rewrite Hs. }
  all: cbn [occurCheck app sexp_size]; enough (H : existsb (occurCheck addr s) l = true → (sexp_size (θ s) ≤ list_size (List.map (app θ) l))%nat);
    [intros Ho; specialize (H Ho); unfold list_size in H; lia|].
  all: induction IH as [|x l Hx _ IHl]; [done|]; cbn [existsb forallb List.map] in *; apply andb_true_iff in Ht as [H1 H2]; rewrite list_size_cons.
  all: rewrite orb_true_iff; intros [H|H]; [pose proof (Hx H1 H)|pose proof (IHl H2 H)]; lia.
Qed.

Lemma occurs_unequal θ s t l : low ≤ addr s → is_var s = true → plain_subst θ → plain t = true → list_of t = Some l →
  occurCheck addr s t = true → ¬ eqv (θ s) (app θ t).
Proof.
  intros Hlow Hs Hθ Ht Hl Ho He. apply eqv_size in He; [|by apply Hθ|by apply app_plain].
  rewrite (occurs_list _ _ _ Hl) in Ho. apply existsb_exists in Ho as (x & Hx & Ho).
  rewrite (list_of_plain _ _ Hl), forallb_forall in Ht. pose proof (occurs_size θ s x Hlow Hs (Ht x Hx) Ho) as Hsz.
  rewrite (list_of_size _ _ (list_of_app θ _ _ Hl)) in He.
  assert ((sexp_size (app θ x) ≤ list_size (List.map (app θ) l))%nat); [|lia].
  clear -Hx. induction l as [|y l IH]; [done|]. cbn [List.map]. rewrite list_size_cons. destruct Hx as [->|Hx]; [lia|]. pose proof (IH Hx). lia.
Qed.

End Terms.
