(* ===== verification/Mgu.v ===== *)
(** * The correctness and the termination of [unify] *)

From stdpp Require Import base list numbers tactics strings gmap.
From Stdlib Require Import ZArith Lia String Ascii.
From S2P Require Import Prelude Cell Utf8 Eval Ranking Order Unify Unifier.

#[global] Open Scope Z_scope.

Section Mgu.
Variables (st : symtab) (addr : sym → Z) (low : Z).
Hypothesis names_ok : ∀ s, ∃ c, utf8_wchar (name_bytes (sym_name (st s))) 0 = Ok c.
Hypothesis addresses : ∀ s, low ≤ addr s.

#[local] Abbreviation is_var := (is_var st).
#[local] Abbreviation plain := (plain st low).
#[local] Abbreviation eqv := (eqv st).
#[local] Abbreviation app := (app st).
#[local] Abbreviation plain_subst := (plain_subst st low).
#[local] Abbreviation unifies := (unifies st).
#[local] Abbreviation occ := (occurCheck addr).

(** ** One pair *)

(** What a round does with a pair of plain terms. *)
Inductive pair_spec (l r : sexp) (u : unifier) : unify_round → Prop :=
  | spec_skip : (∀ θ, plain_subst θ → eqv (app θ l) (app θ r)) → pair_spec l r u (Proceed u)
  | spec_clash : (∀ θ, plain_subst θ → ¬ eqv (app θ l) (app θ r)) → pair_spec l r u (Clash u)
  | spec_bind s t : is_var s = true → occ s t = false → l = CSymbol s ∧ t = r ∨ r = CSymbol s ∧ t = l →
      pair_spec l r u (Proceed (bind_variable addr s t u))
  | spec_lists ls rs : list_of l = Some ls → list_of r = Some rs → List.length ls = List.length rs → ls ≠ [] →
      pair_spec l r u (Proceed (Unifier (mgu u) (push_elements ls rs (ws u)))).

Inductive term_view (e : sexp) : Prop :=
  | view_var s : e = CSymbol s → is_var s = true → unifyGetType st e = Ok UNIFY_VAR → term_view e
  | view_list l : list_of e = Some l → unifyGetType st e = Ok UNIFY_LIST → term_view e
  | view_atom : list_of e = None → unifyGetType st e = Ok UNIFY_ATOM → (∀ θ, app θ e = e) →
      (∀ s, is_var s = true → holds_symbol addr s e = false) → term_view e.

Lemma view e : plain e = true → term_view e.
Proof.
  destruct e as [| |z| | |s| | | |l|l|l]; cbn [Unifier.plain]; try done; intros H; try (by eapply view_list); try (by apply view_atom).
  - apply view_atom; try done. intros s _. cbn. apply Z.eqb_neq. pose proof (addresses s). lia.
  - destruct (names_ok s) as [[c n] Hc].
    assert (Ht : unifyGetType st (CSymbol s) = Ok (if (64 <? c) && (c <? 91) then UNIFY_VAR else UNIFY_ATOM)).
    { unfold unifyGetType. rewrite Hc. by destruct (String.eqb _ _). }
    destruct ((64 <? c) && (c <? 91)) eqn:E; [apply (view_var _ s)|apply view_atom]; try done.
    + unfold Unifier.is_var. by rewrite Ht.
    + intros θ. cbn [Unifier.app]. unfold Unifier.is_var. by rewrite Ht.
    + intros s' Hs'. cbn. apply Nat.eqb_neq. intros ->. unfold Unifier.is_var in Hs'. by rewrite Ht in Hs'.
Qed.

Lemma compare_self e : plain e = true → list_of e = None → compareCells st e e = 0.
Proof. intros Hp Hl. pose proof (eqv_refl st low e Hp) as H. unfold Unifier.eqv in H. by rewrite (strip_atom st low) in H. Qed.

Lemma occurs_atom s e : list_of e = None → plain e = true → occ s e = holds_symbol addr s e.
Proof. by destruct e. Qed.

Lemma app_lists θ l r ls rs : list_of l = Some ls → list_of r = Some rs →
  eqv (app θ l) (app θ r) ↔ Forall2 (λ a b, eqv (app θ a) (app θ b)) ls rs ∧ (ls = [] → cell_type l = cell_type r).
Proof.
  intros Hl Hr. rewrite (eqv_lists st _ _ _ _ (list_of_app st θ _ _ Hl) (list_of_app st θ _ _ Hr)).
  rewrite (app_type st θ l ls), (app_type st θ r rs) by done. change (List.map (app θ)) with (fmap (M:=list) (app θ)).
  rewrite Forall2_fmap. destruct ls; [done|]. cbn. naive_solver.
Qed.

Lemma empty_contents l r : list_of l = Some [] → list_of r = Some [] → same_contents addr l r = true.
Proof. by destruct l; intros [= ->]; destruct r; intros [= ->]. Qed.

Lemma empty_compare l r : list_of l = Some [] → list_of r = Some [] →
  (compareCells st l r =? 0) = (cell_type l =? cell_type r).
Proof. by destruct l; intros [= ->]; destruct r; intros [= ->]. Qed.

Lemma lists_contents l r ls rs : list_of l = Some ls → list_of r = Some rs → ¬ (ls = [] ∧ rs = []) → same_contents addr l r = false.
Proof. destruct l; intros [= ->]; destruct r; intros [= ->]; destruct ls, rs; naive_solver. Qed.

Lemma list_atom_compare l r ls : list_of l = Some ls → list_of r = None → plain r = true → (compareCells st l r =? 0) = false.
Proof. destruct l; intros [= ->]; destruct r as [| | | | |[|[|s]]| | | | | |]; done. Qed.

Lemma atom_list_compare l r rs : list_of r = Some rs → list_of l = None → plain l = true → (compareCells st l r =? 0) = false.
Proof. destruct r; intros [= ->]; destruct l as [| | | | |[|[|s]]| | | | | |]; done. Qed.

Lemma unify_pair_spec l r u : plain l = true → plain r = true → ∃ o, unify_pair st addr l r u = Ok o ∧ pair_spec l r u o.
Proof.
  intros Hl Hr. unfold unify_pair.
  destruct (view l Hl) as [s -> Hs Et|ls Els Et|Els Et Ea Eh]; destruct (view r Hr) as [s' -> Hs' Et'|rs Ers Et'|Ers Et' Ea' Eh'];
    rewrite Et, Et'; cbn [mbind result_bind is_type andb orb binds].
  - cbn [same_contents holds_symbol]. destruct (Nat.eqb_spec s s') as [<-|Hn].
    + rewrite compare_self by done. eexists; split; [done|]. apply spec_skip. intros θ Hθ. apply (eqv_refl st low). by apply app_plain.
    + cbn. rewrite (proj2 (Nat.eqb_neq s s') Hn). eexists; split; [done|]. eapply spec_bind; [done| |by left]. by apply Nat.eqb_neq.
  - assert (E : same_contents addr (CSymbol s) r = false) by (by destruct r). rewrite E. cbn.
    destruct (occ s r) eqn:Ho; [|eexists; split; [done|]; eapply spec_bind; [done|done|by left]].
    eexists; split; [done|]. apply spec_clash. intros θ Hθ. cbn [Unifier.app]. rewrite Hs. by eapply (occurs_unequal st addr low).
  - cbn [same_contents]. rewrite Eh' by done. cbn.
    assert (Ho : occ s r = false) by by rewrite occurs_atom, Eh'.
    rewrite Ho. eexists; split; [done|]. by eapply spec_bind; [| |left].
  - assert (E : same_contents addr l (CSymbol s') = false) by (by destruct l). rewrite E. cbn.
    destruct (occ s' l) eqn:Ho; [|eexists; split; [done|]; eapply spec_bind; [done|done|by right]].
    rewrite Els. eexists; split; [done|]. apply spec_clash. intros θ Hθ He. cbn [Unifier.app] in He. rewrite Hs' in He.
    apply (eqv_sym st low) in He; [|by apply app_plain|by apply Hθ]. by eapply (occurs_unequal st addr low) in He.
  - destruct (decide (ls = [] ∧ rs = [])) as [[-> ->]|Hne].
    + rewrite (empty_contents l r), (empty_compare l r) by done.
      destruct (Z.eqb_spec (cell_type l) (cell_type r)) as [Hc|Hc]; cbn [orb Z.eqb]; eexists; (split; [done|]).
      * apply spec_skip. intros θ Hθ. by apply (app_lists θ l r [] []).
      * apply spec_clash. intros θ Hθ [_ He]%(app_lists θ l r [] []); [|done..]. by apply Hc, He.
    + rewrite (lists_contents l r ls rs), Els, Ers by done.
      assert (E1 : binds addr UNIFY_LIST l r = None) by done. destruct (Nat.eqb_spec (List.length ls) (List.length rs)) as [El|El]; eexists; (split; [done|]).
      * apply spec_lists; [done..|]. intros ->. apply Hne. by destruct rs.
      * apply spec_clash. intros θ Hθ [He _]%(app_lists θ l r ls rs); [|done..]. by apply El, (Forall2_length _ _ _ He).
  - assert (Hc : ∀ θ, plain_subst θ → ¬ eqv (app θ l) (app θ r)).
    { intros θ Hθ. rewrite Ea'. eapply (eqv_list_atom st low); [by eapply list_of_app|done|by apply app_plain|done]. }
    eexists; split; [|by apply spec_clash]. rewrite Els, Ers. destruct (same_contents addr l r); [|done].
    by rewrite (list_atom_compare l r ls).
  - cbn [same_contents]. assert (E : same_contents addr l (CSymbol s') = false) by (rewrite <- (Eh s' Hs'); destruct l; try done; apply Nat.eqb_sym). rewrite E.
    assert (Ho : occ s' l = false) by by rewrite occurs_atom, Eh.
    rewrite Ho. eexists; split; [done|]. by eapply spec_bind; [| |right].
  - assert (Hc : ∀ θ, plain_subst θ → ¬ eqv (app θ l) (app θ r)).
    { intros θ Hθ He%(eqv_sym st low); [|by apply app_plain..]. revert He. rewrite Ea.
      eapply (eqv_list_atom st low); [by eapply list_of_app|done|by apply app_plain|done]. }
    eexists; split; [|by apply spec_clash]. rewrite Els. destruct (same_contents addr l r); [|done].
    by rewrite (atom_list_compare l r rs).
  - assert (E : ∀ θ, eqv (app θ l) (app θ r) ↔ compareCells st l r = 0).
    { intros θ. rewrite Ea, Ea'. unfold Unifier.eqv. by rewrite !(strip_atom st low). }
    destruct (Z.eqb_spec (compareCells st l r) 0) as [Hc|Hc]; eexists; (split; [done|]).
    + apply spec_skip. intros θ _. by apply E.
    + apply spec_clash. intros θ _ He. by apply Hc, (E θ).
Qed.

(** ** The state *)

(** The variables bound so far do not occur in the pairs that are left. *)
Definition inv (u : unifier) : Prop :=
  solved st addr low (mgu u) ∧ plain_pairs st low (ws u) ∧
  ∀ x p, CSymbol x ∈ List.map fst (mgu u) → p ∈ ws u → occ x p.1 = false ∧ occ x p.2 = false.

Definition solves (θ : sym → sexp) (u : unifier) : Prop := unifies θ (mgu u) ∧ unifies θ (ws u).

Lemma is_var_plain s : is_var s = true → plain (CSymbol s) = true.
Proof. unfold Unifier.is_var. cbn. by destruct (String.eqb _ _). Qed.

Lemma solved_plain m : solved st addr low m → plain_pairs st low m.
Proof.
  intros (xs & _ & Hm & Hx). apply Forall_forall. intros p Hp.
  assert (Hf : p.1 ∈ List.map fst m) by (apply list_elem_of_In, in_map, list_elem_of_In, Hp).
  rewrite Hm in Hf. apply list_elem_of_fmap in Hf as (x & -> & Hin). destruct (Hx x Hin) as [Hv Hall].
  split; [by apply is_var_plain|by apply Hall].
Qed.

Lemma solved_bound m x : solved st addr low m → CSymbol x ∈ List.map fst m →
  is_var x = true ∧ ∀ p, p ∈ m → occ x p.2 = false ∧ plain p.2 = true.
Proof. intros (xs & _ & Hm & Hx) H. rewrite Hm in H. apply list_elem_of_fmap in H as (y & [= ->] & Hin). by apply Hx. Qed.

Lemma subsym_plain t s e : plain e = true → subsym addr t s e = expand t s e.
Proof.
  destruct e as [| |z| | |u| | | | | |]; cbn; try done.
  - intros H. rewrite (proj2 (Z.eqb_neq z (addr s))); [done|]. pose proof (addresses s). lia.
  - intros _. by rewrite Nat.eqb_sym.
Qed.

Lemma in_substitute t s ps p : plain_pairs st low ps → p ∈ substitute addr t s ps → ∃ q, q ∈ ps ∧ p = (expand t s q.1, expand t s q.2).
Proof.
  intros Hps (q & <- & Hq)%list_elem_of_In%in_map_iff. exists q. apply list_elem_of_In in Hq. split; [done|].
  unfold plain_pairs in Hps. rewrite Forall_forall in Hps. destruct (Hps q Hq) as [H1 H2].
  destruct q as [l r]. cbn in *. by rewrite !subsym_plain.
Qed.

Lemma unifies_substitute θ t s ps : plain_subst θ → is_var s = true → plain t = true → eqv (θ s) (app θ t) →
  plain_pairs st low ps → unifies θ (substitute addr t s ps) ↔ unifies θ ps.
Proof.
  intros Hθ Hs Ht He. unfold Unifier.unifies. induction 1 as [|[l r] ps [Hl Hr] _ IH]; [done|].
  cbn in Hl, Hr. cbn [substitute List.map]. rewrite !Forall_cons, IH. cbn [fst snd]. rewrite !subsym_plain by done.
  assert (H : ∀ e, plain e = true → eqv (app θ (expand t s e)) (app θ e)) by (intros; by eapply app_expand).
  pose proof (H l Hl) as H1. pose proof (H r Hr) as H2.
  assert (P : ∀ e, plain e = true → plain (app θ e) = true) by (intros; by apply app_plain).
  assert (Q : ∀ e, plain e = true → plain (app θ (expand t s e)) = true) by (intros; by apply P, expand_plain).
  split; intros [H3 H4]; (split; [|done]).
  - eapply (eqv_trans st low _ (app θ (expand t s r))); auto. eapply (eqv_trans st low _ (app θ (expand t s l))); auto. eapply (eqv_sym st low); auto.
  - eapply (eqv_trans st low _ (app θ r)); auto; [|eapply (eqv_sym st low); auto]. eapply (eqv_trans st low _ (app θ l)); auto.
Qed.

Lemma plain_substitute t s ps : plain t = true → plain_pairs st low ps → plain_pairs st low (substitute addr t s ps).
Proof.
  intros Ht Hps. apply Forall_forall. intros p (q & Hq & ->)%in_substitute; [|done].
  unfold plain_pairs in Hps. rewrite Forall_forall in Hps. destruct (Hps q Hq). split; by apply expand_plain.
Qed.

(** A variable that has been bound does not come back. *)
Lemma occurs_substituted t s x e : plain t = true → plain e = true → occ s t = false → x = s ∨ occ x t = false ∧ occ x e = false →
  occ x (expand t s e) = false.
Proof.
  intros Ht He Hs Hx. apply not_true_iff_false. intros H. destruct Hx as [->|[H1 H2]].
  - apply (occurs_self st addr low) in H; [congruence|apply addresses|done].
  - apply occurs_expand in H as [H|H]; congruence.
Qed.

Lemma first_substitute t s ps xs : s ∉ xs → List.map fst ps = CSymbol <$> xs → List.map fst (substitute addr t s ps) = CSymbol <$> xs.
Proof.
  revert xs. induction ps as [|[l r] ps IH]; intros [|x xs] Hs; try done. cbn. rewrite not_elem_of_cons in Hs. destruct Hs as [Hx Hs].
  intros [= -> H]. f_equal; [|by apply IH]. cbn. by rewrite (proj2 (Nat.eqb_neq s x)).
Qed.

Lemma bind_inv m w s t : solved st addr low m → plain_pairs st low w → is_var s = true → plain t = true → occ s t = false →
  (∀ x, CSymbol x ∈ List.map fst m → x ≠ s ∧ occ x t = false) →
  (∀ x p, CSymbol x ∈ List.map fst m → p ∈ w → occ x p.1 = false ∧ occ x p.2 = false) →
  inv (bind_variable addr s t (Unifier m w)).
Proof.
  intros Hm Hw Hs Ht Ho Hfree Hws. pose proof (solved_plain m Hm) as Hmp.
  pose proof Hm as (xs & Hnd & Hfst & Hx). rewrite Hfst in Hfree, Hws.
  assert (Hin : ∀ x, x ∈ xs → CSymbol x ∈ CSymbol <$> xs) by (intros; by apply list_elem_of_fmap_2).
  assert (Hsx : s ∉ xs) by (intros H; by apply (Hfree s (Hin s H))).
  assert (Hf : List.map fst (substitute addr t s m) = CSymbol <$> xs) by by apply first_substitute.
  assert (Hdom : ∀ x, CSymbol x ∈ CSymbol <$> (s :: xs) → x = s ∨ x ∈ xs).
  { intros x (y & [= ->] & [->|Hy]%elem_of_cons)%list_elem_of_fmap; auto. }
  split; [|split].
  - exists (s :: xs). cbn [bind_variable mgu List.map fst]. split; [by constructor|]. split; [by rewrite Hf|].
    intros x [->|Hxin]%elem_of_cons; (split; [first [done|by apply Hx]|]); intros p [->|(q & Hq & ->)%in_substitute]%elem_of_cons; try done; cbn [fst snd].
    all: try (split; [|done]; by apply Hfree, Hin).
    all: unfold plain_pairs in Hmp; rewrite Forall_forall in Hmp; destruct (Hmp q Hq) as [_ Hq2]; (split; [|by apply expand_plain]).
    + apply occurs_substituted; auto.
    + apply occurs_substituted; auto. right. split; [by apply Hfree, Hin|]. by apply (Hx x Hxin).
  - by apply plain_substitute.
  - cbn [bind_variable mgu ws List.map fst]. rewrite Hf. intros x p Hxd (q & Hq & ->)%in_substitute; [|done].
    unfold plain_pairs in Hw. rewrite Forall_forall in Hw. destruct (Hw q Hq) as [H1 H2]. cbn [fst snd].
    apply (Hdom x) in Hxd as [->|Hxin]; [split; apply occurs_substituted; auto|].
    destruct (Hws x q (Hin x Hxin) Hq), (Hfree x (Hin x Hxin)). split; apply occurs_substituted; auto.
Qed.

Lemma existsb_false {A} (f : A → bool) l x : existsb f l = false → x ∈ l → f x = false.
Proof. intros H Hx. apply not_true_iff_false. intros Hf. apply not_true_iff_false in H. apply H, existsb_exists. exists x. by rewrite <- list_elem_of_In. Qed.

Lemma Forall2_zip {A B} (P : A → B → Prop) l r : List.length l = List.length r → Forall2 P l r ↔ Forall (λ p, P p.1 p.2) (zip l r).
Proof.
  revert r. induction l as [|x l IH]; intros [|y r]; try done. cbn. intros [= H]. by rewrite Forall2_cons, Forall_cons, IH.
Qed.

(** ** A round keeps the invariant and the unifiers *)

Lemma step_spec m l r w o : inv (Unifier m ((l, r) :: w)) → pair_spec l r (Unifier m w) o →
  match o with
  | Proceed u => inv u ∧ ∀ θ, plain_subst θ → solves θ u ↔ solves θ (Unifier m ((l, r) :: w))
  | Clash _ => ∀ θ, plain_subst θ → ¬ solves θ (Unifier m ((l, r) :: w))
  end.
Proof.
  intros (Hm & Hw & Hws) Hp. cbn [mgu ws] in *. unfold solves, plain_pairs, Unifier.unifies in *. cbn [mgu ws].
  apply Forall_cons in Hw as [[Hl Hr] Hw]. cbn in Hl, Hr.
  assert (Hws' : ∀ x p, CSymbol x ∈ List.map fst m → p ∈ w → occ x p.1 = false ∧ occ x p.2 = false).
  { intros x p Hx Hp'. apply Hws; [done|]. by right. }
  assert (Hlr : ∀ x, CSymbol x ∈ List.map fst m → occ x l = false ∧ occ x r = false).
  { intros x Hx. apply (Hws x (l, r)); [done|]. by left. }
  destruct Hp as [He|He|s t Hs Ho Hst|ls rs Els Ers El Hne].
  - split; [done|]. intros θ Hθ. rewrite (Forall_cons _ _ w). cbn. pose proof (He θ Hθ). naive_solver.
  - intros θ Hθ [_ H]. apply Forall_cons in H as [H _]. by apply (He θ).
  - assert (Ht : plain t = true) by (by destruct Hst as [[_ ->]|[_ ->]]).
    assert (E : ∀ θ, plain_subst θ → eqv (app θ l) (app θ r) ↔ eqv (θ s) (app θ t)).
    { intros θ Hθ. pose proof (app_plain st low θ t Hθ Ht). pose proof (Hθ s Hs).
      destruct Hst as [[-> ->]|[-> ->]]; cbn [Unifier.app]; rewrite Hs; [done|]. split; intros; by apply (eqv_sym st low). }
    split.
    + apply bind_inv; try done. intros x Hx. destruct (Hlr x Hx) as [H1 H2].
      destruct Hst as [[-> ->]|[-> ->]]; (split; [|done]); cbn in H1, H2; by apply Nat.eqb_neq.
    + intros θ Hθ. cbn [bind_variable mgu ws]. rewrite !(Forall_cons _ _ w), (Forall_cons _ _ (substitute addr t s m)). cbn [fst snd Unifier.app]. rewrite Hs, E by done.
      pose proof (unifies_substitute θ t s m Hθ Hs Ht) as H1. pose proof (unifies_substitute θ t s w Hθ Hs Ht) as H2.
      pose proof (solved_plain m Hm). unfold Unifier.unifies in *. naive_solver.
  - split.
    + split; [done|]. cbn [mgu ws]. split.
      * apply Forall_app; split; [|done]. apply Forall_reverse, Forall_forall. intros [a b] H.
        rewrite (list_of_plain st low _ _ Els), forallb_forall in Hl. rewrite (list_of_plain st low _ _ Ers), forallb_forall in Hr.
        split; [apply Hl, list_elem_of_In; by eapply elem_of_zip_l|apply Hr, list_elem_of_In; by eapply elem_of_zip_r].
      * intros x [a b] Hx [H|H]%elem_of_app; [|by apply Hws']. rewrite elem_of_reverse in H. destruct (Hlr x Hx) as [H1 H2].
        rewrite (occurs_list addr _ _ _ Els) in H1. rewrite (occurs_list addr _ _ _ Ers) in H2.
        split; [apply (existsb_false _ ls _ H1); by eapply elem_of_zip_l|apply (existsb_false _ rs _ H2); by eapply elem_of_zip_r].
    + intros θ Hθ. cbn [mgu ws]. rewrite (Forall_cons _ _ w). unfold push_elements. rewrite Forall_app, Forall_reverse. cbn [fst snd].
      rewrite <- (Forall2_zip (λ a b, eqv (app θ a) (app θ b))) by done. rewrite (app_lists θ l r ls rs) by done. naive_solver.
Qed.

Lemma run_spec fuel : ∀ u, inv u →
  match unify_loop st addr fuel u with
  | Ok (Proceed u') => ws u' = [] ∧ inv u' ∧ ∀ θ, plain_subst θ → solves θ u' ↔ solves θ u
  | Ok (Clash _) => ∀ θ, plain_subst θ → ¬ solves θ u
  | NoFuel => True
  | _ => False
  end.
Proof.
  induction fuel as [|fuel IH]; intros [m w] Hinv; [done|]. cbn [unify_loop ws mgu]. destruct w as [|[l r] w]; [done|].
  assert (plain l = true ∧ plain r = true) as [Hl Hr] by (destruct Hinv as (_ & Hw & _); by apply Forall_cons in Hw as [Hw _]).
  destruct (unify_pair_spec l r (Unifier m w) Hl Hr) as (o & -> & Ho). pose proof (step_spec _ _ _ _ _ Hinv Ho) as Hs.
  destruct o as [u|u]; cbn [mbind result_bind]; [|done]. destruct Hs as [Hu Hs]. specialize (IH u Hu).
  destruct (unify_loop st addr fuel u) as [[u'|u']| | |]; try done.
  - destruct IH as (? & ? & IH). split; [done|]. split; [done|]. intros θ Hθ. by rewrite IH, Hs.
  - intros θ Hθ H. by apply (IH θ Hθ), Hs.
Qed.

(** ** The bindings as a substitution *)

Lemma app_same θ e : (∀ s, is_var s = true → occ s e = true → θ s = CSymbol s) → app θ e = e.
Proof.
  induction e as [| |z|f|s|s|s|p|e IH|l IH|l IH|l IH] using sexp_ind_nested; cbn [Unifier.app occurCheck]; try done; intros H.
  { destruct (is_var s) eqn:Hs; [|done]. apply H; [done|]. cbn. apply Nat.eqb_refl. }
  all: f_equal; induction IH as [|x l Hx _ IHl]; [done|]; cbn [List.map existsb] in *.
  all: rewrite Hx, IHl; [done|..]; intros s Hs Ho; apply H; rewrite ?Ho, ?orb_true_r; done.
Qed.

Lemma subst_of_unbound m x : CSymbol x ∉ List.map fst m → subst_of m x = CSymbol x.
Proof.
  induction m as [|[l r] m IH]; [done|]. cbn [List.map fst]. rewrite not_elem_of_cons. intros [Hl Hx]. cbn.
  destruct l; try by apply IH. destruct (Nat.eqb_spec x s) as [->|]; [done|by apply IH].
Qed.

Lemma subst_of_bound m : ∀ xs x t, NoDup xs → List.map fst m = CSymbol <$> xs → (CSymbol x, t) ∈ m → subst_of m x = t.
Proof.
  induction m as [|[l r] m IH]; intros [|y xs] x t Hnd Hf Hin; try done; [by apply not_elem_of_nil in Hin|].
  injection Hf as -> Hf. apply NoDup_cons in Hnd as [Hy Hnd]. cbn. apply elem_of_cons in Hin as [[= -> ->]|Hin]; [by rewrite Nat.eqb_refl|].
  rewrite (proj2 (Nat.eqb_neq x y)); [by eapply IH|]. intros ->. apply Hy.
  assert (CSymbol y ∈ List.map fst m) as H by (apply list_elem_of_In, (in_map fst m (CSymbol y, t)), list_elem_of_In, Hin).
  rewrite Hf in H. by apply list_elem_of_fmap in H as (z & [= ->] & H).
Qed.

Lemma solved_bindings m x : solved st addr low m → CSymbol x ∈ List.map fst m → (CSymbol x, subst_of m x) ∈ m.
Proof.
  intros (xs & Hnd & Hf & _) H. apply list_elem_of_In, in_map_iff in H as ([l t] & E & H). cbn in E. subst l. apply list_elem_of_In in H.
  by rewrite (subst_of_bound m xs x t).
Qed.

Lemma is_bound m x : solved st addr low m → CSymbol x ∈ List.map fst m ∨ CSymbol x ∉ List.map fst m.
Proof.
  intros (xs & _ & -> & _). destruct (decide (x ∈ xs)) as [H|H]; [left; by apply list_elem_of_fmap_2|right].
  by intros (y & [= ->] & Hy)%list_elem_of_fmap.
Qed.

Lemma solved_plain_subst m : solved st addr low m → plain_subst (subst_of m).
Proof.
  intros Hm x Hx. destruct (is_bound m x Hm) as [H|H].
  - pose proof (solved_bindings m x Hm H) as Hb. by apply (solved_bound m x Hm H) in Hb as [_ Hp].
  - rewrite subst_of_unbound by done. by apply is_var_plain.
Qed.

Lemma solved_unifies m : solved st addr low m → unifies (subst_of m) m.
Proof.
  intros Hm. pose proof Hm as (xs & Hnd & Hf & Hx). apply Forall_forall. intros [l t] Hin.
  assert (H : l ∈ List.map fst m) by (apply list_elem_of_In, (in_map fst m (l, t)), list_elem_of_In, Hin).
  assert (∃ x, l = CSymbol x) as [x ->] by (rewrite Hf in H; apply list_elem_of_fmap in H as (x & -> & _); by exists x).
  destruct (solved_bound m x Hm H) as [Hv Hb]. cbn [fst snd Unifier.app]. rewrite Hv, (subst_of_bound m xs x t) by done.
  rewrite app_same; [apply (eqv_refl st low); by apply (Hb (CSymbol x, t))|].
  intros s Hs Ho. apply subst_of_unbound. intros Hd. destruct (solved_bound m s Hm Hd) as [_ Hsb]. destruct (Hsb _ Hin) as [Hsb' _]. cbn in Hsb'. congruence.
Qed.

Lemma solved_general m θ x : solved st addr low m → plain_subst θ → unifies θ m → is_var x = true →
  eqv (θ x) (app θ (subst_of m x)).
Proof.
  intros Hm Hθ Hu Hx. destruct (is_bound m x Hm) as [H|H].
  - pose proof (solved_bindings m x Hm H) as Hb. unfold Unifier.unifies in Hu. rewrite Forall_forall in Hu. specialize (Hu _ Hb). cbn in Hu. by rewrite Hx in Hu.
  - rewrite subst_of_unbound by done. cbn. rewrite Hx. by apply (eqv_refl st low), Hθ.
Qed.

End Mgu.

(** ** Termination *)

Section Termination.
Variables (st : symtab) (addr : sym → Z).

Fixpoint symbols (e : sexp) : gset sym :=
  match e with
  | CSymbol s => {[ s ]}
  | CQuote e => symbols e
  | CExpr l | CLambda l | CFexpr l => ⋃ (List.map symbols l)
  | _ => ∅
  end.

Definition pairs_symbols (ps : termset) : gset sym := ⋃ (List.map (λ p, symbols p.1 ∪ symbols p.2) ps).
Definition pairs_size (ps : termset) : nat := List.list_sum (List.map (λ p, sexp_size p.1 + sexp_size p.2)%nat ps).

Lemma in_pairs_symbols x ps : x ∈ pairs_symbols ps ↔ ∃ p, p ∈ ps ∧ (x ∈ symbols p.1 ∨ x ∈ symbols p.2).
Proof.
  unfold pairs_symbols. rewrite elem_of_union_list. split.
  - intros (X & (p & <- & Hp)%list_elem_of_In%in_map_iff & Hx). exists p. rewrite list_elem_of_In. set_solver.
  - intros (p & Hp & Hx). exists (symbols p.1 ∪ symbols p.2). split; [|set_solver].
    apply list_elem_of_In in Hp; apply list_elem_of_In. by apply (in_map (λ p, symbols p.1 ∪ symbols p.2)).
Qed.

Lemma in_list_symbols x l : x ∈ ⋃ (List.map symbols l) ↔ ∃ e, e ∈ l ∧ x ∈ symbols e.
Proof.
  rewrite elem_of_union_list. split.
  - intros (X & (e & <- & He)%list_elem_of_In%in_map_iff & Hx). exists e. by rewrite list_elem_of_In.
  - intros (e & He & Hx). exists (symbols e). split; [|done]. apply list_elem_of_In in He; apply list_elem_of_In. by apply in_map.
Qed.

Lemma list_of_symbols a l : list_of a = Some l → symbols a = ⋃ (List.map symbols l).
Proof. by destruct a; intros [= ->]. Qed.

Lemma symbols_expand v s e x : x ∈ symbols (expand v s e) → x ∈ symbols v ∨ x ∈ symbols e ∧ x ≠ s.
Proof.
  induction e as [| |z|f|u|u|u|p|e IH|l IH|l IH|l IH] using sexp_ind_nested; cbn [expand symbols]; try done.
  { destruct (Nat.eqb_spec u s) as [->|]; [by left|]. cbn. set_solver. }
  all: rewrite !in_list_symbols; intros (y & (z & <- & Hz)%list_elem_of_In%in_map_iff & Hy); rewrite Forall_forall in IH.
  all: apply list_elem_of_In in Hz; apply IH in Hy as [|[]]; [by left|right; by eauto|done].
Qed.

Lemma symbols_subsym v s e x : x ∈ symbols (subsym addr v s e) → x ∈ symbols v ∨ x ∈ symbols e ∧ x ≠ s.
Proof.
  unfold subsym. destruct e as [| |z|f|u|u|u|p|e|l|l|l]; try apply symbols_expand; cbn [holds_symbol]; try done.
  - destruct (z =? addr s); [by left|done].
  - destruct (Nat.eqb_spec s u) as [->|Hn]; [by left|]. cbn. set_solver.
  - destruct (Nat.eqb s u); [by left|done].
Qed.

Lemma occurs_symbols s e : s ∈ symbols e → occurCheck addr s e = true.
Proof.
  induction e as [| |z|f|u|u|u|p|e IH|l IH|l IH|l IH] using sexp_ind_nested; cbn [symbols occurCheck]; try done.
  { intros ->%elem_of_singleton. cbn. apply Nat.eqb_refl. }
  all: rewrite in_list_symbols, existsb_exists; intros (y & Hy & Hs); rewrite Forall_forall in IH; exists y.
  all: split; [by apply list_elem_of_In|by apply IH].
Qed.

(** Binding a variable takes it out of the pairs that are left. *)
Lemma bound_measure s t l r w : occurCheck addr s t = false → l = CSymbol s ∧ t = r ∨ r = CSymbol s ∧ t = l →
  (size (pairs_symbols (substitute addr t s w)) < size (pairs_symbols ((l, r) :: w)))%nat.
Proof.
  intros Ho Hst. apply subset_size.
  assert (Hs : s ∉ symbols t) by (intros H%occurs_symbols; congruence).
  assert (Hin : ∀ x, x ∈ pairs_symbols (substitute addr t s w) → x ∈ symbols t ∨ x ∈ pairs_symbols w ∧ x ≠ s).
  { intros x. rewrite !in_pairs_symbols. intros (p & (q & <- & Hq)%list_elem_of_In%in_map_iff & Hx). apply list_elem_of_In in Hq.
    destruct q as [a b]. destruct Hx as [[H|[H Hn]]%symbols_subsym|[H|[H Hn]]%symbols_subsym]; eauto 10. }
  assert (E : pairs_symbols ((l, r) :: w) = symbols l ∪ symbols r ∪ pairs_symbols w) by done.
  rewrite E. split; [|intros H].
  - intros x [H|[H _]]%Hin; [|set_solver]. destruct Hst as [[-> ->]|[-> ->]]; set_solver.
  - assert (s ∈ pairs_symbols (substitute addr t s w)) as [H1|[_ H1]]%Hin; [|done..]. apply H.
    destruct Hst as [[-> _]|[-> _]]; cbn [symbols]; set_solver.
Qed.

Lemma binds_some type e t s : binds addr type e t = Some s → e = CSymbol s ∧ occurCheck addr s t = false.
Proof. destruct type, e; cbn; try done. destruct (occurCheck _ _ _) eqn:H; [done|]. by intros [= ->]. Qed.

Lemma pairs_size_cons l r ps : pairs_size ((l, r) :: ps) = (sexp_size l + sexp_size r + pairs_size ps)%nat.
Proof. done. Qed.

Lemma pairs_size_app ps qs : pairs_size (ps ++ qs) = (pairs_size ps + pairs_size qs)%nat.
Proof. unfold pairs_size. by rewrite List.map_app, List.list_sum_app. Qed.

Lemma pairs_size_reverse ps : pairs_size (reverse ps) = pairs_size ps.
Proof.
  induction ps as [|[l r] ps IH]; [done|]. rewrite reverse_cons, pairs_size_app, IH, !pairs_size_cons. cbn. lia.
Qed.

Lemma pairs_size_zip ls : ∀ rs, (pairs_size (zip ls rs) ≤ list_size ls + list_size rs)%nat.
Proof.
  induction ls as [|l ls IH]; intros [|r rs]; try (cbn; lia).
  change (zip (l :: ls) (r :: rs)) with ((l, r) :: zip ls rs). rewrite pairs_size_cons, !list_size_cons. specialize (IH rs). lia.
Qed.

Lemma step_measure l r m w u : unify_pair st addr l r (Unifier m w) = Ok (Proceed u) →
  (size (pairs_symbols (ws u)) < size (pairs_symbols ((l, r) :: w)))%nat ∨
  (size (pairs_symbols (ws u)) ≤ size (pairs_symbols ((l, r) :: w)))%nat ∧ (pairs_size (ws u) < pairs_size ((l, r) :: w))%nat.
Proof.
  unfold unify_pair. destruct (unifyGetType st l) as [lt| | |]; [|done..]. destruct (unifyGetType st r) as [rt| | |]; [|done..].
  cbn [mbind result_bind]. 
  assert (Hskip : (size (pairs_symbols w) ≤ size (pairs_symbols ((l, r) :: w)))%nat ∧ (pairs_size w < pairs_size ((l, r) :: w))%nat).
  { split; [apply subseteq_size; unfold pairs_symbols; cbn; set_solver|]. rewrite pairs_size_cons. pose proof (sexp_size_pos l). lia. }
  destruct (_ || _); [intros [= <-]; by right|]. destruct (_ || _).
  { destruct (_ =? 0); [intros [= <-]|done]. by right. }
  destruct (binds addr lt l r) as [s|] eqn:Hb; [|clear Hb; destruct (binds addr rt r l) as [s|] eqn:Hb].
  1-2: intros [= <-]; apply binds_some in Hb as [? ?]; left; by apply bound_measure; [|auto].
  destruct (list_of l) as [ls|] eqn:El; [|done]. destruct (list_of r) as [rs|] eqn:Er; [|done].
  destruct (Nat.eqb _ _); [|done]. intros [= <-]. right. cbn [ws]. split.
  - apply subseteq_size. intros x. rewrite !in_pairs_symbols.
    intros ([a b] & [H|H]%elem_of_app & Hx); [rewrite elem_of_reverse in H|exists (a, b); split; [by right|done]].
    exists (l, r). split; [by left|]. cbn [fst snd]. rewrite (list_of_symbols l ls), (list_of_symbols r rs), !in_list_symbols by done.
    destruct Hx as [Hx|Hx]; [left; exists a; split; [by eapply elem_of_zip_l|done]|right; exists b; split; [by eapply elem_of_zip_r|done]].
  - unfold push_elements. rewrite pairs_size_cons, pairs_size_app, pairs_size_reverse, (list_of_size l ls), (list_of_size r rs) by done.
    pose proof (pairs_size_zip ls rs). lia.
Qed.

Lemma utf8_wchar_answers buf ptr : utf8_wchar buf ptr ≠ NoFuel.
Proof.
  assert (H : ∀ n gcss c ptr, getcharinc_loop buf n gcss c ptr ≠ NoFuel).
  { induction n as [|n IH]; intros gcss c p; cbn [getcharinc_loop]; [done|]. unfold rd. destruct (buf !! p); [apply IH|done]. }
  unfold utf8_wchar, getcharinc, rd. destruct (buf !! ptr); [|done]. cbn [mbind result_bind]. destruct (_ =? _); [apply H|done].
Qed.

Lemma get_type_answers e : unifyGetType st e ≠ NoFuel.
Proof.
  destruct e; cbn [unifyGetType]; try done. destruct (String.eqb _ _); [done|].
  pose proof (utf8_wchar_answers (name_bytes (sym_name (st s))) 0) as H. by destruct (utf8_wchar _ _) as [[]| | |].
Qed.

Lemma unify_pair_answers l r u : unify_pair st addr l r u ≠ NoFuel.
Proof.
  unfold unify_pair. pose proof (get_type_answers l). pose proof (get_type_answers r).
  destruct (unifyGetType st l), (unifyGetType st r); try done. cbn [mbind result_bind]. by repeat case_match.
Qed.

(** The variables of the pairs that are left become fewer, or they do not become more and the pairs become smaller. *)
Lemma unify_loop_ends u : ∃ n, ∀ fuel, (n ≤ fuel)%nat → unify_loop st addr fuel u ≠ NoFuel.
Proof.
  assert (H : ∀ k j u, (size (pairs_symbols (ws u)) < k)%nat → (pairs_size (ws u) < j)%nat → ∃ n, ∀ fuel, (n ≤ fuel)%nat → unify_loop st addr fuel u ≠ NoFuel).
  2:{ eapply H; apply Nat.lt_succ_diag_r. }
  clear u. induction k as [|k IHk]; [lia|]. induction j as [|j IHj]; [lia|]. intros [m [|[l r] w]] Hk Hj; cbn [ws] in *.
  { exists 1%nat. intros [|fuel] Hf; [lia|done]. }
  pose proof (unify_pair_answers l r (Unifier m w)) as Ha. destruct (unify_pair st addr l r (Unifier m w)) as [[u|u]| | |] eqn:E; [|..|done].
  2-4: exists 1%nat; intros [|fuel] Hf; [lia|]; cbn [unify_loop ws mgu]; by rewrite E.
  assert (∃ n, ∀ fuel, (n ≤ fuel)%nat → unify_loop st addr fuel u ≠ NoFuel) as [n Hn].
  { destruct (step_measure l r m w u E) as [H|[H1 H2]]; [eapply IHk; [|apply Nat.lt_succ_diag_r]; lia|apply IHj; lia]. }
  exists (S n). intros [|fuel] Hf; [lia|]. cbn [unify_loop ws mgu]. rewrite E. cbn. apply Hn. lia.
Qed.

End Termination.

(** ** Theorems *)

(** The equations [unify] is asked to solve. *)
Definition env_pairs (list_env : list sexp) : termset :=
  List.map (λ e, match e with CExpr l => (hd CNil l, hd CNil (tl l)) | _ => (CNil, CNil) end) list_env.
Definition problem (left right : sexp) (list_env : list sexp) : termset := (left, right) :: env_pairs list_env.

(** [σ] solves the pairs, and every solution is an instance of it. *)
Definition most_general (st : symtab) (low : Z) (pairs : termset) (σ : sym → sexp) : Prop :=
  plain_subst st low σ ∧ unifies st σ pairs ∧
  ∀ θ, plain_subst st low θ → unifies st θ pairs → ∀ x, is_var st x = true → eqv st (θ x) (app st θ (σ x)).

Definition binding_cell (p : sexp * sexp) : sexp := CExpr [p.1; p.2].

Lemma push_env_pairs list_env : ∀ u, Forall (λ e, ∃ l, e = CExpr l) list_env →
  push_env list_env u = (true, Unifier (mgu u) (reverse (env_pairs list_env) ++ ws u)).
Proof.
  induction list_env as [|e list_env IH]; intros u H; [by destruct u|]. apply Forall_cons in H as [[l ->] H].
  cbn [push_env]. rewrite IH by done. cbn [mgu ws]. unfold env_pairs. cbn [List.map]. by rewrite reverse_cons, <- app_assoc.
Qed.

Lemma finish_pairs b : List.map (λ '(l, r), CExpr [l; r]) b = List.map binding_cell b.
Proof. apply map_ext. by intros []. Qed.

(** More fuel does not change an answer. *)
Lemma unify_loop_fuel st addr fuel : ∀ fuel' u, (fuel ≤ fuel')%nat → unify_loop st addr fuel u ≠ NoFuel →
  unify_loop st addr fuel' u = unify_loop st addr fuel u.
Proof.
  induction fuel as [|fuel IH]; intros [|fuel'] u Hf Hn; try done; [lia|]. cbn [unify_loop] in *. destruct (ws u) as [|[l r] w]; [done|].
  destruct (unify_pair _ _ _ _ _) as [[u'|u']| | |]; try done. cbn [mbind result_bind] in *. apply IH; [lia|done].
Qed.

Lemma p_unify_fuel st addr fuel fuel' left right list_env bindFlag u g : (fuel ≤ fuel')%nat →
  p_unify st addr fuel left right list_env bindFlag u g ≠ NoFuel →
  p_unify st addr fuel' left right list_env bindFlag u g = p_unify st addr fuel left right list_env bindFlag u g.
Proof.
  intros Hf. unfold p_unify, unify. destruct (push_env list_env u) as [[] u']; [|done]. intros Hn.
  rewrite (unify_loop_fuel st addr fuel fuel'); [done|done|]. by destruct (unify_loop _ _ fuel _).
Qed.

(** C34: [unify] ends on all terms and in any state of its stacks. *)
Theorem p_unify_ends st addr left right list_env bindFlag u g :
  ∃ n, ∀ fuel, (n ≤ fuel)%nat → p_unify st addr fuel left right list_env bindFlag u g ≠ NoFuel.
Proof.
  unfold p_unify. destruct (push_env list_env u) as [[] u']; [|by exists 0%nat].
  destruct (unify_loop_ends st addr (Unifier (mgu u') ((left, right) :: ws u'))) as [n Hn]. exists n. intros fuel Hf.
  specialize (Hn fuel Hf). unfold unify. destruct (unify_loop st addr fuel _) as [[u2|u2]| | |]; try done. cbn [mbind result_bind finishUnify].
  destruct bindFlag; [|done]. clear. revert g. induction (mgu u2) as [|[[] value] rest IH]; intros g; cbn [bind_symbols]; try done.
  all: destruct (isProtected _); [done|apply IH].
Qed.

(** C33: [unify] computes most general unifiers: with its stacks empty it ends, leaves them empty, and
    answers nil only when no substitution makes the two terms, and the two sides of each pair of the
    environment, equal; otherwise it answers an association list of variables, none of which occurs in a
    value, that makes them equal and of which every other solution is an instance.  The terms
    are plain, that is without quotes, floats, contexts and the symbol [_], and their integers are no
    addresses of symbols; names are proper UTF-8. *)
Theorem p_unify_mgu st addr low left right list_env g :
  (∀ s, ∃ c, utf8_wchar (name_bytes (sym_name (st s))) 0 = Ok c) → (∀ s, low ≤ addr s) →
  Forall (λ e, ∃ l, e = CExpr l) list_env → plain_pairs st low (problem left right list_env) →
  ∃ n, ∀ fuel, (n ≤ fuel)%nat →
    match p_unify st addr fuel left right list_env false (Unifier [] []) g with
    | Ok (Returns v u g') => u = Unifier [] [] ∧ g' = g ∧
        (v = CNil ∧ (∀ θ, plain_subst st low θ → ¬ unifies st θ (problem left right list_env)) ∨
         ∃ bindings, v = CExpr (List.map binding_cell bindings) ∧ solved st addr low bindings ∧
           most_general st low (problem left right list_env) (subst_of bindings))
    | _ => False
    end.
Proof.
  intros names_ok addresses Henv Hp. set (u := Unifier [] ((left, right) :: reverse (env_pairs list_env))).
  assert (Hperm : ∀ θ, solves st θ u ↔ unifies st θ (problem left right list_env)).
  { intros θ. unfold solves, unifies, problem. cbn [mgu ws u]. rewrite !Forall_cons, Forall_reverse. naive_solver. }
  assert (Hinv : inv st addr low u).
  { split; [exists []; split; [constructor|split; [done|]]; by intros x Hx%not_elem_of_nil|split; [|by intros x p Hx%not_elem_of_nil]].
    unfold plain_pairs, problem in *. cbn [ws u]. rewrite Forall_cons in Hp |- *. by rewrite Forall_reverse. }
  destruct (unify_loop_ends st addr u) as [n Hn]. exists n. intros fuel Hf. specialize (Hn fuel Hf).
  unfold p_unify. rewrite push_env_pairs by done. cbn [mgu ws]. rewrite app_nil_r. unfold unify. cbn [mgu ws]. fold u.
  pose proof (run_spec st addr low names_ok addresses fuel u Hinv) as Hrun.
  destruct (unify_loop st addr fuel u) as [[u'|u']| | |]; try done; cbn [mbind result_bind finishUnify]; rewrite ?finish_pairs; (split; [done|split; [done|]]).
  - right. destruct Hrun as (Hw & (Hs & _) & Heq). exists (mgu u'). split; [done|]. split; [done|].
    assert (E : ∀ θ, plain_subst st low θ → unifies st θ (mgu u') ↔ unifies st θ (problem left right list_env)).
    { intros θ Hθ. rewrite <- Hperm, <- Heq by done. unfold solves. rewrite Hw. unfold unifies. naive_solver. }
    pose proof (solved_plain_subst st addr low _ Hs) as Hps. split; [done|].
    split; [by apply E, (solved_unifies st addr low)|]. intros θ Hθ Hu x Hx. apply (solved_general st addr low); [done|done|by apply E|done].
  - left. split; [done|]. intros θ Hθ Hu. by apply (Hrun θ Hθ), Hperm.
Qed.

(** ** The manual's examples, and what the restrictions exclude *)

Module Demo.
Definition names : list string := ["nil"; "true"; "A"; "B"; "X"; "Y"; "Z"; "G"; "_"; "f"; "g"; "p"; "a"; "b"; "x"; "xyz"; "abc"; "MAIN"; "q"; "c"]%string.
Definition demo_st : symtab := λ s, Symbol (nth s names "c"%string) (if Nat.eqb s 17 then SYMBOL_PROTECTED else 0) 0%nat CNil.
Definition demo_addr (s : sym) : Z := 0x10000 + 0x40 * Z.of_nat s.
Fixpoint index (n : string) (l : list string) : sym :=
  match l with [] => 0 | x :: l => if String.eqb n x then 0 else S (index n l) end%nat.
Definition v (n : string) : sexp := CSymbol (index n names).
Definition unify_terms (l r : list sexp) : result unified :=
  p_unify demo_st demo_addr 100 (CExpr l) (CExpr r) [] false (Unifier [] []) ∅.
Definition answer (bindings : list (string * sexp)) : result unified :=
  Ok (Returns (CExpr (List.map (λ p, CExpr [v p.1; p.2]) bindings)) (Unifier [] []) ∅).
Definition no_answer : result unified := Ok (Returns CNil (Unifier [] []) ∅).

#[local] Open Scope string_scope.

(** The examples of the manual (src/doc/newlisp_manual.html). *)
Example unify_manual :
  unify_terms [v "A"; v "B"] [v "x"; v "y"] = answer [("A", v "x"); ("B", v "y")] ∧
  unify_terms [v "A"; v "B"] [v "B"; v "abc"] = answer [("A", v "abc"); ("B", v "abc")] ∧
  unify_terms [v "A"; v "A"] [CLong 123; CLong 456] = no_answer ∧
  unify_terms [v "f"; CExpr [v "g"; v "A"]] [v "f"; v "B"] = answer [("B", CExpr [v "g"; v "A"])] ∧
  unify_terms [v "f"; CExpr [v "g"; v "A"]; v "A"] [v "f"; v "B"; v "xyz"] = answer [("B", CExpr [v "g"; v "xyz"]); ("A", v "xyz")] ∧
  unify_terms [v "A"; v "xyz"; v "A"] [v "abc"; v "X"; v "X"] = no_answer ∧
  unify_terms [v "p"; v "X"; v "Y"; v "a"] [v "p"; v "Y"; v "X"; v "X"] = answer [("Y", v "a"); ("X", v "a")] ∧
  unify_terms [v "f"; v "A"] [CExpr [v "f"; v "A"]; v "B"] = no_answer ∧
  unify_terms [v "q"; CExpr [v "p"; v "X"; v "Y"]; CExpr [v "p"; v "Y"; v "X"]] [v "q"; v "Z"; v "Z"] =
    answer [("Y", v "X"); ("Z", CExpr [v "p"; v "X"; v "X"])] ∧
  unify_terms [v "A"; v "b"; v "c"; v "_"] [v "x"; v "G"; v "_"; v "Z"] = answer [("A", v "x"); ("G", v "b")].
Proof. by vm_compute. Qed.

(** Quoted terms are atoms until a variable in them has been bound, and the last elements come first:
    [('X X)] and [('a a)] unify, [(X 'X)] and [(a 'a)] do not. *)
Example unify_quotes_by_order :
  unify_terms [CQuote (v "X"); v "X"] [CQuote (v "a"); v "a"] = answer [("X", v "a")] ∧
  unify_terms [v "X"; CQuote (v "X")] [v "a"; CQuote (v "a")] = no_answer.
Proof. by vm_compute. Qed.

(** An environment with an element that is no list is an error that leaves its other pairs on the static stack [ws];
    the next call solves them too. *)
Example unify_leaves_pairs :
  let left_behind := Unifier [] [(v "Y", CLong 2)] in
  p_unify demo_st demo_addr 100 (v "X") (CLong 1) [CExpr [v "Y"; CLong 2]; CLong 3] false (Unifier [] []) ∅ =
    Ok (Raises ERR_LIST_EXPECTED left_behind ∅) ∧
  p_unify demo_st demo_addr 100 (v "A") (CLong 5) [] false left_behind ∅ = answer [("Y", CLong 2); ("A", CLong 5)] ∧
  p_unify demo_st demo_addr 100 (v "Y") (CLong 5) [] false left_behind ∅ = no_answer.
Proof. by vm_compute. Qed.

(** Binding a protected symbol is an error that leaves the other bindings on the static stack [mgu].  When the
    next call binds such a variable, the left side of the old binding is replaced too, and the value is taken for
    the address of a symbol. *)
Example unify_binds_no_symbol :
  let left_behind := Unifier [(v "A", v "x")] [] in
  p_unify demo_st demo_addr 100 (CExpr [v "MAIN"; v "A"]) (CExpr [CLong 1; v "x"]) [] true (Unifier [] []) ∅ =
    Ok (Raises ERR_SYMBOL_PROTECTED left_behind ∅) ∧
  p_unify demo_st demo_addr 100 (v "A") (CLong 5) [] true left_behind ∅ = UB.
Proof. by vm_compute. Qed.

Lemma demo_names s : ∃ c, utf8_wchar (name_bytes (sym_name (demo_st s))) 0 = Ok c.
Proof. do 20 (destruct s as [|s]; [eexists; by vm_compute|]). exists (99, 1%nat). cbn. by destruct s. Qed.
End Demo.

(** [(unify '(f (g A) A) '(f B xyz))] is [((B (g xyz)) (A xyz))], which is most general. *)
Lemma p_unify_mgu_witness :
  let left := CExpr [Demo.v "f"; CExpr [Demo.v "g"; Demo.v "A"]; Demo.v "A"] in
  let right := CExpr [Demo.v "f"; Demo.v "B"; Demo.v "xyz"] in
  let bindings := [(Demo.v "B", CExpr [Demo.v "g"; Demo.v "xyz"]); (Demo.v "A", Demo.v "xyz")] in
  p_unify Demo.demo_st Demo.demo_addr 100 left right [] false (Unifier [] []) ∅ =
    Ok (Returns (CExpr (List.map binding_cell bindings)) (Unifier [] []) ∅) ∧
  ∃ b, List.map binding_cell b = List.map binding_cell bindings ∧ most_general Demo.demo_st 0x10000 (problem left right []) (subst_of b).
Proof.
  intros left right bindings.
  assert (E : p_unify Demo.demo_st Demo.demo_addr 100 left right [] false (Unifier [] []) ∅ =
    Ok (Returns (CExpr (List.map binding_cell bindings)) (Unifier [] []) ∅)) by (vm_compute; reflexivity).
  split; [exact E|].
  destruct (p_unify_mgu Demo.demo_st Demo.demo_addr 0x10000 left right [] ∅ Demo.demo_names) as [n H].
  - intros s. unfold Demo.demo_addr. lia.
  - constructor.
  - repeat constructor.
  - specialize (H (n + 100)%nat ltac:(lia)). rewrite (p_unify_fuel _ _ 100) in H; [|lia|by rewrite E].
    rewrite E in H. destruct H as (_ & _ & [[H _]|(b & Hb & _ & H)]); [discriminate H|]. injection Hb as Hb. exists b. split; [symmetry; exact Hb|exact H].
Defined.
