(* ===== verification/Json.v ===== *)
(** * JSON (src/nl-xml-json.c, [getJSONvalue])

    A pointer into the text is what is left of it, the terminating 0 included; a read behind it is [UB].  The state
    is the static [lastJSONerror] and the symbols, among which [false] and [null] are created. *)

From stdpp Require Import base list numbers tactics strings gmap.
From Stdlib Require Import ZArith Lia SpecFloat String Ascii.
From S2P Require Import Prelude Cell Utf8 Arith Symtree Context Token Reader.
From stdpp Require Import list.

#[global] Open Scope Z_scope.

Definition ERR_JSON_MISSING_BRACE : string := "missing {".
Definition ERR_JSON_MISSING_COLON : string := "missing : colon".
Definition ERR_JSON_INVALID_OBJECT : string := "invalid JSON object".
Definition ERR_JSON_MISSING_KEY : string := "missing key".
Definition ERR_JSON_CLOSING_QUOTE : string := "missing closing quote".
Definition ERR_JSON_INVALID_UNICODE : string := "invalid unicode".
Definition ERR_JSON_INVALID_NUMBER : string := "invalid JSON number format".
Definition ERR_JSON_INVALID_ARRAY : string := "invalid JSON array format".
Definition ERR_JSON_INVALID_VALUE : string := "invalid JSON value format".

(** [None] is nil: there has been no error in the last text. *)
Record jstate := JState { lastJSONerror : option (string * Z); jworld : store }.

(** What a function returns: [nilCell], or a value and what is left of the text. *)
Abbreviation answer A := (result (option (A * list Z) * jstate)).

(** The functions on answers: after [nilCell] the caller returns it too. *)
Definition then_ {A B} (r : answer A) (f : A → list Z → jstate → answer B) : answer B :=
  '(o, st) ← r;
  match o with
  | None => Ok (None, st)
  | Some (v, s) => f v s st
  end.

(** [while((unsigned char)*jsonStr <= ' ' && *jsonStr != 0) ++jsonStr;] *)
Fixpoint skip_space (s : list Z) : result (list Z) :=
  match s with
  | [] => UB
  | c :: s' => if (c <=? 32) && negb (c =? 0) then skip_space s' else Ok s
  end.

Fixpoint skip_digits (s : list Z) : result (list Z) :=
  match s with
  | [] => UB
  | c :: s' => if isDigit c then skip_digits s' else Ok s
  end.

(** The closing quote, or the end of the text, and the number of bytes before it. *)
Fixpoint scan_string (s : list Z) (size : nat) : result (nat * list Z) :=
  match s with
  | [] => UB
  | c :: s' =>
      if (c =? c_dquote) || (c =? 0) then Ok (size, s)
      else if c =? c_backslash then
        match s' with
        | [] => UB
        | _ :: s'' => scan_string s'' (S (S size))
        end
      else scan_string s' (S size)
  end.

(** The escapes of one character. *)
Definition escape_char (c : Z) : Z :=
  if c =? 98 then 8 else if c =? 102 then 12 else if c =? 110 then 10 else if c =? 114 then 13 else if c =? 116 then 9
  else c.

(** The loop over the [n] bytes from [s] on, whose translation so far is [acc] and may have [cap] bytes; [None] is an
    invalid [\u]. *)
Fixpoint xlate (fuel n cap : nat) (s acc : list Z) : result (option (list Z)) :=
  match n, fuel with
  | O, _ => Ok (Some acc)
  | S n, O => NoFuel
  | S n, S fuel =>
      c ← rd s 0;
      if c =? c_backslash then
        e ← rd s 1;
        if e =? 117 then
          hex ← next_are isxdigit 4 (drop 2 s);
          if hex : bool then
            let bytes := wchar_utf8 (strtol_exact 16 (48 :: 120 :: take 4 (drop 2 s))) in
            acc ← put_all cap acc bytes;
            xlate fuel (n - 5) cap (drop 6 s) acc
          else Ok None
        else
          acc ← put_byte cap acc (escape_char e);
          xlate fuel (n - 1) cap (drop 2 s) acc
      else
        acc ← put_byte cap acc c;
        xlate fuel n cap (drop 1 s) acc
  end.

Section Json.
Variables (lc_decimal_point : Z) (mainContext trueSymbol : ptr).

(** The length of the whole text. *)
Variable start : nat.

Definition setJSONerror {A} (errorText : string) (s : list Z) (st : jstate) : answer A :=
  Ok (None, JState (Some (errorText, Z.of_nat start - Z.of_nat (length s))) (jworld st)).

Definition getJSONstring (s : list Z) (st : jstate) : answer (list Z) :=
  s ← skip_space s;
  c ← rd s 0;
  if negb (c =? c_dquote) then setJSONerror ERR_JSON_MISSING_KEY s st
  else
    let token := drop 1 s in
    '(size, s) ← scan_string token 0;
    c ← rd s 0;
    let restStr := drop 1 s in
    if negb (c =? c_dquote) then setJSONerror ERR_JSON_CLOSING_QUOTE restStr st
    else
      x ← xlate size size (S size) token [];
      match x with
      | None => setJSONerror ERR_JSON_INVALID_UNICODE restStr st
      | Some xlated =>
          if decide (length xlated < S size)%nat then Ok (Some (xlated, restStr), st) else UB
      end.

(** ** Numbers *)

(** The characters that may follow a number; the line feed is tested twice. *)
Definition ends_number (c : Z) : bool :=
  (c =? 32) || (c =? 10) || (c =? 10) || (c =? 9) || (c =? 12) || (c =? c_comma) || (c =? c_rbrace) || (c =? c_close) || (c =? 0).

Definition number_fraction (s : list Z) : result (bool * list Z) :=
  c ← rd s 0;
  if c =? 46 then s ← skip_digits (drop 1 s); Ok (true, s) else Ok (false, s).

(** [None] is an exponent without digits. *)
Definition number_exponent (isFloat : bool) (s : list Z) : result (option bool * list Z) :=
  c ← rd s 0;
  if (c =? 101) || (c =? 69) then
    let s := drop 1 s in
    c ← rd s 0;
    let s := if (c =? c_minus) || (c =? c_plus) then drop 1 s else s in
    c ← rd s 0;
    if isDigit c then s ← skip_digits s; Ok (Some true, s) else Ok (None, s)
  else Ok (Some isFloat, s).

(** A number at [ptr], behind whose first character the digits go on. *)
Definition getJSONnumber (ptr : list Z) (st : jstate) : answer datum :=
  s ← skip_digits (drop 1 ptr);
  '(isFloat, s) ← number_fraction s;
  '(isFloat, s) ← number_exponent isFloat s;
  match isFloat with
  | None => setJSONerror ERR_JSON_INVALID_NUMBER s st
  | Some isFloat =>
      c ← rd s 0;
      let len := (length ptr - length s)%nat in
      if negb (ends_number c) || Nat.ltb 1024 len then setJSONerror ERR_JSON_INVALID_NUMBER s st
      else
        let number := take len ptr in
        Ok (Some (if isFloat : bool then DFloat (atof lc_decimal_point number) else DLong (fst (strtoll number 10)), s), st)
  end.

(** [stuffSymbol(translateCreateSymbol(...))] *)
Definition make_symbol (name : string) (s : list Z) (st : jstate) : answer datum :=
  '(p, w) ← translateCreateSymbol mainContext name CELL_SYMBOL mainContext true (jworld st);
  Ok (Some (DSymbol p, s), JState (lastJSONerror st) w).

(** The cases [t], [f] and [n] of the switch, which fall through. *)
Definition get_null (s : list Z) (st : jstate) : answer datum :=
  b ← memcmp_eq s [110; 117; 108; 108];
  if b : bool then make_symbol "null" (drop 4 s) st else setJSONerror ERR_JSON_INVALID_VALUE s st.
Definition get_false (s : list Z) (st : jstate) : answer datum :=
  b ← memcmp_eq s [102; 97; 108; 115; 101];
  if b : bool then make_symbol "false" (drop 5 s) st else get_null s st.
Definition get_true (s : list Z) (st : jstate) : answer datum :=
  b ← memcmp_eq s [116; 114; 117; 101];
  if b : bool then Ok (Some (DSymbol trueSymbol, drop 4 s), st) else get_false s st.

(** ** Values in values *)

Section Value.
Variable getJSONvalue : list Z → jstate → answer datum.

(** From [GET_PAIR] on; [pairs] are the pairs so far. *)
Fixpoint get_pairs (fuel : nat) (s : list Z) (pairs : list datum) (st : jstate) : answer datum :=
  match fuel with
  | O => NoFuel
  | S fuel =>
      then_ (getJSONstring s st) (λ key s st,
        s ← skip_space s;
        c ← rd s 0;
        if negb (c =? c_colon) then setJSONerror ERR_JSON_MISSING_COLON s st
        else
          then_ (getJSONvalue (drop 1 s) st) (λ value s st,
            let pairs := pairs ++ [DExpr [DString key; value]] in
            s ← skip_space s;
            c ← rd s 0;
            if c =? c_rbrace then Ok (Some (DExpr pairs, drop 1 s), st)
            else if c =? c_comma then get_pairs fuel (drop 1 s) pairs st
            else setJSONerror ERR_JSON_INVALID_OBJECT s st))
  end.

Definition getJSONobject (fuel : nat) (s : list Z) (st : jstate) : answer datum :=
  s ← skip_space s;
  c ← rd s 0;
  if negb (c =? c_lbrace) then setJSONerror ERR_JSON_MISSING_BRACE s st
  else
    s ← skip_space (drop 1 s);
    c ← rd s 0;
    if c =? c_rbrace then Ok (Some (DExpr [], drop 1 s), st) else get_pairs fuel s [] st.

(** From [GET_ARRAY_ELEMENT] on: [s] is at the bracket or the comma. *)
Fixpoint get_elements (fuel : nat) (s : list Z) (array : list datum) (st : jstate) : answer datum :=
  match fuel with
  | O => NoFuel
  | S fuel =>
      s ← skip_space (drop 1 s);
      c ← rd s 0;
      if c =? c_close then Ok (Some (DExpr array, drop 1 s), st)
      else
        then_ (getJSONvalue s st) (λ cell s st,
          let array := array ++ [cell] in
          s ← skip_space s;
          c ← rd s 0;
          if c =? c_comma then get_elements fuel s array st
          else if c =? c_close then Ok (Some (DExpr array, drop 1 s), st)
          else setJSONerror ERR_JSON_INVALID_ARRAY s st)
  end.
End Value.

(** When a string is not read, the code copies its variable [ptr], which it has not set, to [*restStr]; no caller looks at
    [*restStr] after a failure, and here a failure leaves no rest. [atoll], whose overflow C leaves open, is taken to
    answer the nearest 64-bit integer, as the common libraries do. *)
Fixpoint getJSONvalue (fuel : nat) (s : list Z) (st : jstate) : answer datum :=
  match fuel with
  | O => NoFuel
  | S fuel =>
      s ← skip_space s;
      c ← rd s 0;
      if c =? c_dquote then then_ (getJSONstring s st) (λ v s st, Ok (Some (DString v, s), st))
      else
        number ← (if isDigit c then Ok true
                  else if (c =? c_minus) || (c =? c_plus) then c1 ← rd s 1; Ok (isDigit c1)
                  else Ok false);
        if number : bool then getJSONnumber s st
        else if c =? c_lbrace then getJSONobject (getJSONvalue fuel) fuel s st
        else if c =? c_open then get_elements (getJSONvalue fuel) fuel s [] st
        else if c =? 116 then get_true s st
        else if c =? 102 then get_false s st
        else if c =? 110 then get_null s st
        else setJSONerror ERR_JSON_INVALID_VALUE s st
  end.

End Json.

Definition p_JSONparse (lc_decimal_point : Z) (mainContext trueSymbol : ptr) (fuel : nat) (jsonStr : list Z) (st : jstate) : answer datum :=
  getJSONvalue lc_decimal_point mainContext trueSymbol (length jsonStr) fuel jsonStr (JState None (jworld st)).

Definition p_JSONerror (st : jstate) : datum :=
  match lastJSONerror st with
  | None => DNil
  | Some (text, position) => DExpr [DString (List.map (λ c, Z.of_nat (nat_of_ascii c)) (list_ascii_of_string text)); DLong position]
  end.
