(* ===== verification/Jsonsafe.v ===== *)
(** * The JSON parser answers every text

    On any text that ends with its only 0 byte [json-parse] returns a value with what is left of the text, or
    nil with an error recorded, and keeps the trees of the contexts well formed; it reads behind the text only when
    the last character is a backslash. *)

From stdpp Require Import base list numbers tactics strings gmap.
From Stdlib Require Import ZArith Lia SpecFloat String Ascii.
From S2P Require Import Prelude Cell Utf8 Arith Symtree Context Token Tokens Reader Symtable World Symbols Balance Spaces Readsafe Json.
From stdpp Require Import list.

#[global] Open Scope Z_scope.

(** [r] returns a value in [Q]; [bad] is what its leaving the text shows. *)
Definition returns {A} (bad : Prop) (Q : A → Prop) (r : result A) : Prop :=
  match r with Ok v => Q v | UB => bad | Fail _ | NoFuel => False end.

Lemma returns_bind {A B} bad (P : A → Prop) (Q : B → Prop) (r : result A) (f : A → result B) :
  returns bad P r → (∀ v, P v → returns bad Q (f v)) → returns bad Q (r ≫= f).
Proof. destruct r; cbn; try done. auto. Qed.

Lemma returns_mono {A} bad (P Q : A → Prop) (r : result A) : returns bad P r → (∀ v, P v → Q v) → returns bad Q r.
Proof. destruct r; cbn; auto. Qed.

Lemma yields_returns {A} bad (Q : A → Prop) (r : result A) : yields bad Q r → (∀ e, r ≠ Fail e) → returns bad Q r.
Proof. destruct r; cbn; try done. intros _ H. by destruct (H e). Qed.

Lemma memcmp_returns needle : ∀ s e, memcmp_eq s needle ≠ Fail e.
Proof.
  induction needle as [|c needle IH]; intros s e; [done|]. cbn [memcmp_eq]. unfold rd. destruct (s !! 0%nat) as [x|]; [|done]. cbn [mbind result_bind].
  destruct (x =? c); [apply IH|done].
Qed.

(** The text ends in a backslash. *)
Definition cut_escape (s : list Z) : Prop := ∃ l, s = l ++ [c_backslash; 0].

Lemma cut_escape_left s s' : remains s s' → cut_escape s' → cut_escape s.
Proof. intros [_ [l ->]] [l' ->]. exists (l ++ l'). by rewrite <- app_assoc. Qed.

Lemma rd_left s : terminated s → ∃ c r, s = c :: r ∧ rd s 0 = Ok c ∧ (c = 0 → r = []) ∧ (c ≠ 0 → remains s (drop 1 s) ∧ (length (drop 1 s) < length s)%nat).
Proof.
  intros H. destruct (terminated_case s H) as [->|(c & r & -> & Hc & Hr)].
  - exists 0, []. split; [done|]. split; [done|]. by split.
  - exists c, r. split; [done|]. split; [done|]. split; [done|]. intros _. cbn [drop]. rewrite drop_0. split; [by apply left_of_tail|cbn; lia].
Qed.

Lemma skip_space_safe s : terminated s → returns False (remains s) (skip_space s).
Proof.
  intros Hs. induction s as [|c s IH]; [by apply terminated_ne in Hs|]. cbn [skip_space].
  destruct (terminated_cons _ _ Hs) as [[-> ->]|[Hc Hs']]; [by apply left_of_refl|].
  destruct (_ && _); [|by apply left_of_refl]. eapply returns_mono; [by apply IH|]. intros s' H. eapply left_of_trans; [by apply left_of_tail|done].
Qed.

Lemma skip_digits_safe s : terminated s → returns False (remains s) (skip_digits s).
Proof.
  intros Hs. induction s as [|c s IH]; [by apply terminated_ne in Hs|]. cbn [skip_digits].
  destruct (terminated_cons _ _ Hs) as [[-> ->]|[Hc Hs']]; [by apply left_of_refl|].
  destruct (isDigit c); [|by apply left_of_refl]. eapply returns_mono; [by apply IH|]. intros s' H. eapply left_of_trans; [by apply left_of_tail|done].
Qed.

(** ** Strings *)

(** Backslashes stand before another character. *)
Inductive escapes : list Z → Prop :=
  | esc_nil : escapes []
  | esc_char c t : c ≠ c_backslash → escapes t → escapes (c :: t)
  | esc_pair c t : escapes t → escapes (c_backslash :: c :: t).

Lemma scan_string_safe fuel : ∀ s n, (length s ≤ fuel)%nat → terminated s →
  returns (cut_escape s) (λ r, ∃ t, escapes t ∧ s = t ++ r.2 ∧ terminated r.2 ∧ r.1 = (n + length t)%nat ∧
    ∃ c u, r.2 = c :: u ∧ (c = c_dquote ∨ c = 0)) (scan_string s n).
Proof.
  induction fuel as [|fuel IH]; intros s n Hf Hs; [apply terminated_ne in Hs; by destruct s; [|cbn in Hf; lia]|].
  destruct (terminated_case s Hs) as [->|(c & s1 & -> & Hc & Hs1)]; cbn [scan_string].
  { cbn. exists []. split; [constructor|]. split; [done|]. split; [done|]. split; [cbn; lia|]. exists 0, []. auto. }
  destruct (Z.eqb_spec c c_dquote) as [->|Hq]; cbn [orb].
  { cbn. exists []. split; [constructor|]. split; [done|]. split; [done|]. split; [cbn; lia|]. exists c_dquote, s1. auto. }
  rewrite (proj2 (Z.eqb_neq c 0)) by done. cbn in Hf. destruct (Z.eqb_spec c c_backslash) as [->|Hb].
  - destruct (terminated_case s1 Hs1) as [->|(e & s2 & -> & He & Hs2)]; [cbn; by exists []|]. cbn in Hf.
    pose proof (IH s2 (S (S n)) ltac:(lia) Hs2) as H. destruct (scan_string s2 _) as [[size s']| | |]; cbn in H |- *; try done.
    + destruct H as (t & Ht & -> & Hr & -> & Hh). exists (c_backslash :: e :: t). split; [by constructor|]. repeat split; try done; cbn; lia.
    + destruct H as [l ->]. by exists (c_backslash :: e :: l).
  - pose proof (IH s1 (S n) ltac:(lia) Hs1) as H. destruct (scan_string s1 _) as [[size s']| | |]; cbn in H |- *; try done.
    + destruct H as (t & Ht & -> & Hr & -> & Hh). exists (c :: t). split; [by constructor|]. repeat split; try done; cbn; lia.
    + destruct H as [l ->]. by exists (c :: l).
Qed.

(** Hexadecimal digits are no backslashes and no quotes. *)
Lemma hex_run n : ∀ t u c, next_are isxdigit n (t ++ c :: u) = Ok true → isxdigit c = false → escapes t →
  (n ≤ length t)%nat ∧ escapes (drop n t).
Proof.
  induction n as [|n IH]; intros t u c H Hc Ht; [split; [lia|by rewrite drop_0]|]. cbn [next_are] in H.
  destruct Ht as [|x t Hx Ht|x t Ht]; cbn [app rd lookup list_lookup mbind result_bind] in H.
  - by rewrite Hc in H.
  - destruct (isxdigit x); [|done]. cbn [drop] in H. rewrite drop_0 in H. destruct (IH _ _ _ H Hc Ht). cbn. split; [lia|done].
  - done.
Qed.

Lemma xlate_safe fuel : ∀ t c u acc cap, (length t ≤ fuel)%nat → escapes t → terminated (c :: u) → isxdigit c = false →
  (length acc + length t < cap)%nat → terminated (t ++ c :: u) →
  returns False (λ o, ∀ x, o = Some x → (length x ≤ length acc + length t)%nat) (xlate fuel (length t) cap (t ++ c :: u) acc).
Proof.
  induction fuel as [|fuel IH]; intros t c u acc cap Hf Ht Hu Hc Hcap Hs.
  { destruct t; [|cbn in Hf; lia]. intros x [= <-]. lia. }
  destruct Ht as [|x t Hx Ht|e t Ht]; cbn [length] in *; [intros x [= <-]; lia| |].
  - change ((x :: t) ++ c :: u) with (x :: (t ++ c :: u)) in *. cbn [xlate rd lookup list_lookup mbind result_bind]. rewrite (proj2 (Z.eqb_neq x _)) by done.
    rewrite put_byte_ok by lia. cbn [mbind result_bind drop]. rewrite drop_0. destruct (terminated_cons _ _ Hs) as [[_ H]|[_ H]]; [by destruct t|].
    eapply returns_mono; [apply IH; try done; rewrite ?length_snoc; lia|]. intros o Ho y Hy. specialize (Ho y Hy). rewrite length_snoc in Ho. lia.
  - change ((c_backslash :: e :: t) ++ c :: u) with (c_backslash :: e :: (t ++ c :: u)) in *. cbn [xlate rd lookup list_lookup mbind result_bind]. rewrite Z.eqb_refl. cbn [drop].
    destruct (terminated_cons _ _ Hs) as [[? _]|[_ Hs1]]; [done|].
    destruct (terminated_cons _ _ Hs1) as [[_ H]|[_ Hs2]]; [by destruct t|]. rewrite drop_0. destruct (e =? 117).
    + destruct (next_are_safe isxdigit 4 (t ++ c :: u) eq_refl _ Hs2 eq_refl) as (b & E & Hb). rewrite E. cbn [mbind result_bind].
      destruct b; [|done]. destruct (next_are_all _ _ _ E) as [H1 H2]. pose proof (wchar_length _ (four_digits _ H2 H1)) as Hw.
      destruct (hex_run 4 _ _ _ E Hc Ht) as [H4 Hd]. rewrite put_all_ok by lia. cbn [mbind result_bind].
      replace (S (length t) - 5)%nat with (length (drop 4 t)) by (rewrite length_drop; lia).
      rewrite (drop_app_le t (c :: u) 4) by done.
      assert (Hs3 : terminated (drop 4 t ++ c :: u)) by (rewrite <- drop_app_le by done; by apply Hb).
      eapply returns_mono; [apply IH; try done; rewrite ?length_app, ?length_drop; lia|].
      intros o Ho y Hy. specialize (Ho y Hy). rewrite length_app, length_drop in Ho. lia.
    + rewrite put_byte_ok by lia. cbn [mbind result_bind]. replace (S (length t) - 1)%nat with (length t) by lia.
      eapply returns_mono; [apply IH; try done; rewrite ?length_snoc; lia|]. intros o Ho y Hy. specialize (Ho y Hy). rewrite length_snoc in Ho. lia.
Qed.

(** ** Outcomes *)

Section Outcome.
Variables (lc_decimal_point : Z) (mainContext currentContext trueSymbol : ptr) (start : nat).

#[local] Abbreviation usable := (usable mainContext currentContext).

(** The parser has gone on from [s] and [st] without an error. *)
Definition reaches (s : list Z) (st : jstate) (s' : list Z) (st' : jstate) : Prop :=
  remains s s' ∧ usable (jworld st') ∧ extends (jworld st) (jworld st') ∧ lastJSONerror st' = lastJSONerror st.

(** What is returned: a value and fewer than [n] bytes, or nil and an error. *)
Definition fine {A} (n : nat) (s : list Z) (st : jstate) (r : option (A * list Z) * jstate) : Prop :=
  match r with
  | (Some (_, s'), st') => reaches s st s' st' ∧ (length s' < n)%nat
  | (None, st') => usable (jworld st') ∧ extends (jworld st) (jworld st') ∧
      ∃ text pos, lastJSONerror st' = Some (text, pos) ∧ 0 ≤ pos ≤ Z.of_nat start
  end.

Definition ready (s : list Z) (st : jstate) : Prop := terminated s ∧ usable (jworld st) ∧ (length s ≤ start)%nat.

Lemma ready_reaches s st : ready s st → reaches s st s st.
Proof. intros (H1 & H2 & _). split; [by apply left_of_refl|]. split; [done|]. split; [apply extends_refl|done]. Qed.

Lemma reaches_ready s st s' st' : ready s st → reaches s st s' st' → ready s' st'.
Proof. intros (_ & _ & H3) (H4 & H5 & _). split; [by destruct H4|]. split; [done|]. apply left_of_length in H4. lia. Qed.

Lemma reaches_trans s st s' st' s'' st'' : reaches s st s' st' → reaches s' st' s'' st'' → reaches s st s'' st''.
Proof.
  intros (H1 & H2 & H3 & H4) (H5 & H6 & H7 & H8). split; [by eapply left_of_trans|]. split; [done|]. split; [by eapply extends_trans|congruence].
Qed.

Lemma reaches_left s st s' : ready s st → remains s s' → reaches s st s' st.
Proof. intros Hr Hs. destruct (ready_reaches s st Hr) as (_ & H). by split. Qed.

(** From a later place. *)
Lemma fine_from {A} n s st s' st' (r : answer A) : reaches s st s' st' →
  returns (cut_escape s') (fine n s' st') r → returns (cut_escape s) (fine n s st) r.
Proof.
  intros Hr. pose proof Hr as (Hl & _ & He & _). destruct r as [[[[v s'']|] st'']| | |]; cbn; try done.
  - intros [H1 H2]. split; [by eapply reaches_trans|done].
  - intros (H1 & H2 & H3). split; [done|]. split; [by eapply extends_trans|done].
  - by apply cut_escape_left.
Qed.

Lemma then_fine {A B} n k s st (r : answer A) (f : A → list Z → jstate → answer B) : ready s st →
  returns (cut_escape s) (fine k s st) r →
  (∀ v s' st', ready s' st' → (length s' < k)%nat → returns (cut_escape s') (fine n s' st') (f v s' st')) →
  returns (cut_escape s) (fine n s st) (then_ r f).
Proof.
  intros Hs Hr Hf. destruct r as [[[[v s']|] st']| | |]; cbn in Hr |- *; try done. destruct Hr as [H1 H2].
  eapply fine_from; [done|]. apply Hf; [by eapply reaches_ready|done].
Qed.

Lemma space_fine {A} n s st (f : list Z → answer A) : ready s st →
  (∀ s', ready s' st → remains s s' → returns (cut_escape s') (fine n s' st) (f s')) → returns (cut_escape s) (fine n s st) (s' ← skip_space s; f s').
Proof.
  intros Hs Hf. pose proof (skip_space_safe s (proj1 Hs)) as H. destruct (skip_space s) as [s'| | |]; cbn in H |- *; try done.
  eapply fine_from; [by apply reaches_left|]. apply Hf; [by eapply reaches_ready, reaches_left|done].
Qed.

Lemma error_fine {A} n s s' st text : ready s st → (length s' ≤ length s)%nat → returns (cut_escape s) (fine n s st) (@setJSONerror start A text s' st).
Proof.
  intros (_ & H2 & H3) Hl. cbn. split; [done|]. split; [apply extends_refl|]. eexists _, _. split; [done|]. lia.
Qed.

Lemma done_fine {A} n s s' st (v : A) : ready s st → remains s s' → (length s' < n)%nat → returns (cut_escape s) (fine n s st) (Ok (Some (v, s'), st)).
Proof. intros Hs Hl Hn. split; [by apply reaches_left|done]. Qed.

Lemma getJSONstring_fine s st : ready s st → returns (cut_escape s) (fine (length s) s st) (getJSONstring start s st).
Proof.
  intros Hs. unfold getJSONstring. apply space_fine; [done|]. intros s1 Hs1 Hl1. pose proof Hs1 as (Ht1 & _).
  destruct (rd_left s1 Ht1) as (c & r & E & -> & _ & Hne). cbn [mbind result_bind].
  destruct (Z.eqb_spec c c_dquote) as [->|]; cbn [negb]; [|by apply error_fine]. destruct (Hne ltac:(lia)) as [Hl2 Hlen]. clear Hne.
  eapply fine_from; [by apply reaches_left|]. set (token := drop 1 s1) in *. pose proof (proj1 Hl2) as Ht.
  assert (Hr : ready token st) by (by eapply reaches_ready, reaches_left). clear E r.
  pose proof (scan_string_safe (length token) token 0 (le_n _) Ht) as Hscan.
  destruct (scan_string token 0) as [[size s2]| | |]; cbn in Hscan |- *; try done. destruct Hscan as (t & Hesc & Etok & Ht2 & -> & c & u & -> & Hc).
  cbn [rd lookup list_lookup mbind result_bind drop]. rewrite drop_0. apply left_of_length in Hl1.
  destruct (Z.eqb_spec c c_dquote) as [->|]; cbn [negb].
  2: { apply error_fine; [done|]. rewrite Etok, length_app. cbn. lia. }
  destruct (terminated_cons _ _ Ht2) as [[? _]|[_ Hu]]; [done|].
  assert (Hlu : (length u < length token)%nat) by (rewrite Etok, length_app; cbn; lia).
  assert (Hx := xlate_safe (length t) t c_dquote u [] (S (length t)) (le_n _) Hesc Ht2 eq_refl).
  rewrite <- Etok in Hx. specialize (Hx ltac:(cbn; lia) Ht). destruct (xlate _ _ _ _ _) as [[x|]| | |]; cbn in Hx; try done; cbn [mbind result_bind].
  - specialize (Hx x eq_refl). rewrite decide_True by lia. apply done_fine; [done| |lia]. split; [done|]. exists (t ++ [c_dquote]). by rewrite <- app_assoc.
  - apply error_fine; [done|lia].
Qed.

(** ** Numbers *)

Lemma fraction_safe s : terminated s → returns False (λ r, remains s r.2) (number_fraction s).
Proof.
  intros Hs. unfold number_fraction. destruct (rd_left s Hs) as (c & r & E & -> & _ & Hne). cbn [mbind result_bind].
  destruct (Z.eqb_spec c 46) as [->|]; [|by apply left_of_refl]. destruct (Hne ltac:(lia)) as [Hl _].
  eapply returns_bind; [apply skip_digits_safe, (proj1 Hl)|]. intros s' Hs'. by eapply left_of_trans.
Qed.

Lemma exponent_safe b s : terminated s → returns False (λ r, remains s r.2) (number_exponent b s).
Proof.
  intros Hs. unfold number_exponent. destruct (rd_left s Hs) as (c & r & E & -> & _ & Hne). cbn [mbind result_bind].
  destruct ((c =? 101) || (c =? 69)) eqn:Hc; [|by apply left_of_refl]. destruct (Hne ltac:(lia)) as [Hl _]. pose proof (proj1 Hl) as Hs1.
  destruct (rd_left (drop 1 s) Hs1) as (c1 & r1 & _ & -> & _ & Hne1). cbn [mbind result_bind].
  assert (Hl2 : remains (drop 1 s) (if (c1 =? c_minus) || (c1 =? c_plus) then drop 1 (drop 1 s) else drop 1 s)).
  { destruct ((c1 =? c_minus) || (c1 =? c_plus)) eqn:Hc1; [apply Hne1; lia|by apply left_of_refl]. }
  destruct (rd_left _ (proj1 Hl2)) as (c2 & r2 & _ & -> & _ & _). cbn [mbind result_bind].
  destruct (isDigit c2); [|by eapply left_of_trans].
  eapply returns_bind; [apply skip_digits_safe, (proj1 Hl2)|]. intros s' Hs'. eapply left_of_trans; [done|]. by eapply left_of_trans.
Qed.

Lemma getJSONnumber_fine c r st : ready (c :: r) st → c ≠ 0 →
  returns (cut_escape (c :: r)) (fine (S (length r)) (c :: r) st) (getJSONnumber lc_decimal_point start (c :: r) st).
Proof.
  intros Hs Hc. unfold getJSONnumber. cbn [drop]. rewrite drop_0. pose proof (left_of_tail _ _ Hc (proj1 Hs)) as Hl. pose proof (proj1 Hl) as Hr.
  pose proof (skip_digits_safe r Hr) as H1. destruct (skip_digits r) as [s1| | |]; cbn in H1; try done. cbn [mbind result_bind].
  pose proof (fraction_safe s1 (proj1 H1)) as H2. destruct (number_fraction s1) as [[b s2]| | |]; cbn in H2; try done. cbn [mbind result_bind].
  pose proof (exponent_safe b s2 (proj1 H2)) as H3. destruct (number_exponent b s2) as [[o s3]| | |]; cbn in H3; try done. cbn [mbind result_bind].
  assert (Hl3 : remains r s3) by (eapply left_of_trans; [done|by eapply left_of_trans]).
  assert (Hl4 : remains (c :: r) s3) by by eapply left_of_trans. pose proof (left_of_length _ _ Hl3). pose proof (left_of_length _ _ Hl4).
  destruct o; [|by apply error_fine]. destruct (rd_left s3 (proj1 H3)) as (c3 & r3 & _ & -> & _). cbn [mbind result_bind].
  destruct (_ || _); [by apply error_fine|]. apply done_fine; [done|done|lia].
Qed.

(** ** Words *)

Lemma create_answers main name type s W : names_ok main currentContext s W → name ≠ EmptyString →
  ∀ e, translateCreateSymbol main name type main true s ≠ Fail e.
Proof.
  intros HW Hn e. destruct (nm_main _ _ _ _ HW) as [M HM].
  by destruct (create_ok main name type s W main M (nm_world _ _ _ _ HW) HM Hn) as [(a & r & _ & _ & _ & ->)|(_ & s' & A' & -> & _)].
Qed.

Lemma make_symbol_fine n s s' name st : ready s st → remains s s' → (length s' < n)%nat → name ≠ EmptyString →
  returns (cut_escape s) (fine n s st) (make_symbol mainContext name s' st).
Proof.
  intros Hs Hl Hn Hname. unfold make_symbol. destruct Hs as (Ht & (W & HW) & _).
  pose proof (create_answers mainContext name CELL_SYMBOL (jworld st) W HW Hname) as Hnf.
  pose proof (translate_safe mainContext currentContext name CELL_SYMBOL mainContext true (jworld st) W HW (nm_main _ _ _ _ HW) Hname) as H.
  destruct (translateCreateSymbol _ _ _ _ _ _) as [[p w]|e| |]; cbn in H |- *; try done; [|by apply (Hnf e)]. destruct H as (He & W' & HW' & _).
  split; [|done]. split; [done|]. split; [by exists W'|done].
Qed.

Lemma word_fine (needle : list Z) n s st (yes no : answer datum) : ready s st → 0 ∉ needle → needle ≠ [] →
  (remains s (drop (length needle) s) → (length (drop (length needle) s) < length s)%nat → returns (cut_escape s) (fine n s st) yes) →
  returns (cut_escape s) (fine n s st) no →
  returns (cut_escape s) (fine n s st) (b ← memcmp_eq s needle; if b : bool then yes else no).
Proof.
  intros Hs H0 Hne Hyes Hno. pose proof (yields_returns _ _ _ (memcmp_safe needle s (proj1 Hs) H0) (memcmp_returns needle s)) as H. destruct (memcmp_eq s needle) as [[]| | |]; cbn in H |- *; try done.
  destruct (H eq_refl) as (r & -> & Hr). rewrite drop_app_length in Hyes. apply Hyes; [split; [done|by exists needle]|].
  rewrite length_app. destruct needle; [done|cbn; lia].
Qed.

Lemma words_fine s st : ready s st →
  returns (cut_escape s) (fine (length s) s st) (get_null mainContext start s st) ∧
  returns (cut_escape s) (fine (length s) s st) (get_false mainContext start s st) ∧
  returns (cut_escape s) (fine (length s) s st) (get_true mainContext trueSymbol start s st).
Proof.
  intros Hs. assert (Hnull : returns (cut_escape s) (fine (length s) s st) (get_null mainContext start s st)).
  { apply word_fine; [done|by apply (bool_decide_unpack _)|done| |by apply error_fine]. intros. by apply make_symbol_fine. }
  assert (Hfalse : returns (cut_escape s) (fine (length s) s st) (get_false mainContext start s st)).
  { apply word_fine; [done|by apply (bool_decide_unpack _)|done| |done]. intros. by apply make_symbol_fine. }
  split; [done|]. split; [done|]. apply word_fine; [done|by apply (bool_decide_unpack _)|done| |done]. intros. by apply done_fine.
Qed.

(** ** Objects and arrays *)

Section Value.
Variable fuel : nat.
Variable value : list Z → jstate → answer datum.
Hypothesis value_fine : ∀ s st, ready s st → (length s < fuel)%nat → returns (cut_escape s) (fine (length s) s st) (value s st).

Lemma pairs_fine n : ∀ s pairs st, ready s st → (length s < n)%nat → (length s ≤ fuel)%nat →
  returns (cut_escape s) (fine (length s) s st) (get_pairs start value n s pairs st).
Proof.
  induction n as [|n IH]; intros s pairs st Hs Hn Hf; [lia|]. cbn [get_pairs].
  eapply then_fine; [done|by apply getJSONstring_fine|]. intros key s1 st1 Hs1 Hl1. apply space_fine; [done|]. intros s2 Hs2 Hr2. apply left_of_length in Hr2.
  destruct (rd_left s2 (proj1 Hs2)) as (c & r & _ & -> & _ & Hne). cbn [mbind result_bind].
  destruct (Z.eqb_spec c c_colon) as [->|]; cbn [negb]; [|by apply error_fine]. destruct (Hne ltac:(lia)) as [Hl3 Hlen].
  eapply fine_from; [by apply reaches_left|]. assert (Hs3 : ready (drop 1 s2) st1) by (by eapply reaches_ready, reaches_left).
  eapply then_fine; [done|apply value_fine; [done|lia]|]. intros v s4 st4 Hs4 Hl4. apply space_fine; [done|]. intros s5 Hs5 Hr5. apply left_of_length in Hr5.
  destruct (rd_left s5 (proj1 Hs5)) as (c5 & r5 & _ & -> & _ & Hne5). cbn [mbind result_bind].
  destruct (Z.eqb_spec c5 c_rbrace) as [->|]; [destruct (Hne5 ltac:(lia)); apply done_fine; [done|done|lia]|].
  destruct (Z.eqb_spec c5 c_comma) as [->|]; [|by apply error_fine]. destruct (Hne5 ltac:(lia)) as [Hl6 Hlen6].
  eapply fine_from; [by apply reaches_left|]. eapply returns_mono; [apply IH; [by eapply reaches_ready, reaches_left|lia|lia]|].
  intros [[[v' s']|] st'] H; [|done]. destruct H as [H1 H2]. split; [done|lia].
Qed.

Lemma elements_fine n : ∀ c r array st, c ≠ 0 → ready (c :: r) st → (length r < n)%nat → (length r < fuel)%nat →
  returns (cut_escape (c :: r)) (fine (S (length r)) (c :: r) st) (get_elements start value n (c :: r) array st).
Proof.
  induction n as [|n IH]; intros c r array st Hc Hs Hn Hf; [lia|]. cbn [get_elements drop]. rewrite drop_0.
  pose proof (left_of_tail _ _ Hc (proj1 Hs)) as Hl. eapply fine_from; [by apply reaches_left|].
  apply space_fine; [by eapply reaches_ready, reaches_left|]. intros s1 Hs1 Hr1. apply left_of_length in Hr1.
  destruct (rd_left s1 (proj1 Hs1)) as (c1 & r1 & _ & -> & _ & Hne). cbn [mbind result_bind].
  destruct (Z.eqb_spec c1 c_close) as [->|]; [destruct (Hne ltac:(lia)); apply done_fine; [done|done|lia]|].
  eapply then_fine; [done|apply value_fine; [done|lia]|]. intros v s2 st2 Hs2 Hl2. apply space_fine; [done|]. intros s3 Hs3 Hr3. apply left_of_length in Hr3.
  destruct (rd_left s3 (proj1 Hs3)) as (c3 & r3 & E3 & -> & _ & Hne3). cbn [mbind result_bind].
  destruct (Z.eqb_spec c3 c_comma) as [->|].
  - subst s3. cbn in Hr3. eapply returns_mono; [apply IH; [done|done|lia|lia]|]. intros [[[v' s']|] st'] H; [|done]. destruct H as [H1 H2]. split; [done|lia].
  - destruct (Z.eqb_spec c3 c_close) as [->|]; [|by apply error_fine]. destruct (Hne3 ltac:(lia)). apply done_fine; [done|done|lia].
Qed.
End Value.

Lemma getJSONvalue_fine fuel : ∀ s st, ready s st → (length s < fuel)%nat →
  returns (cut_escape s) (fine (length s) s st) (getJSONvalue lc_decimal_point mainContext trueSymbol start fuel s st).
Proof.
  induction fuel as [|fuel IH]; intros s st Hs Hf; [lia|]. cbn [getJSONvalue]. apply space_fine; [done|]. intros s1 Hs1 Hr1. apply left_of_length in Hr1.
  assert (Hle : ∀ r : answer datum, returns (cut_escape s1) (fine (length s1) s1 st) r → returns (cut_escape s1) (fine (length s) s1 st) r).
  { intros r Hr. eapply returns_mono; [done|]. intros [[[v' s']|] st'] H; [|done]. destruct H as [H1 H2]. split; [done|lia]. }
  apply Hle. clear Hle. destruct (rd_left s1 (proj1 Hs1)) as (c & r & E & -> & H0 & Hne). cbn [mbind result_bind].
  destruct (Z.eqb_spec c c_dquote) as [->|Hq].
  { eapply then_fine; [done|by apply getJSONstring_fine|]. intros v s' st' Hs' Hl'. apply done_fine; [done|apply left_of_refl, (proj1 Hs')|done]. }
  assert (Hnum : ∃ b, (if isDigit c then Ok true else if (c =? c_minus) || (c =? c_plus) then c1 ← rd s1 1; Ok (isDigit c1) else Ok false) = Ok b ∧ (b = true → c ≠ 0)).
  { destruct (isDigit c) eqn:Hd; [exists true; split; [done|]; intros _ ->; done|]. destruct ((c =? c_minus) || (c =? c_plus)) eqn:Hc; [|by exists false].
    assert (Hc0 : c ≠ 0) by lia. destruct (Hne Hc0) as [Hl _]. subst s1. destruct (rd_left _ (proj1 Hl)) as (c1 & r1 & E1 & _). cbn [drop] in E1. rewrite drop_0 in E1. subst r.
    exists (isDigit c1). by split. }
  destruct Hnum as (b & -> & Hb). cbn [mbind result_bind]. destruct b; [subst s1; apply getJSONnumber_fine; [done|by apply Hb]|].
  destruct (Z.eqb_spec c c_lbrace) as [->|].
  { unfold getJSONobject. apply space_fine; [done|]. intros s2 Hs2 Hr2. apply left_of_length in Hr2.
    destruct (rd_left s2 (proj1 Hs2)) as (c2 & r2 & _ & -> & _ & Hne2). cbn [mbind result_bind].
    destruct (Z.eqb_spec c2 c_lbrace) as [->|]; cbn [negb]; [|by apply error_fine]. destruct (Hne2 ltac:(lia)) as [Hl2 Hlen2].
    eapply fine_from; [by apply reaches_left|]. apply space_fine; [by eapply reaches_ready, reaches_left|]. intros s3 Hs3 Hr3. apply left_of_length in Hr3.
    destruct (rd_left s3 (proj1 Hs3)) as (c3 & r3 & _ & -> & _ & Hne3). cbn [mbind result_bind].
    destruct (Z.eqb_spec c3 c_rbrace) as [->|]; [destruct (Hne3 ltac:(lia)); apply done_fine; [done|done|lia]|].
    eapply returns_mono; [apply (pairs_fine fuel); [exact IH|done|lia|lia]|]. intros [[[v' s']|] st'] H; [|done]. destruct H as [H1 H2]. split; [done|lia]. }
  destruct (Z.eqb_spec c c_open) as [->|]; [subst s1; cbn in Hr1; apply (elements_fine fuel); [exact IH|done|done|lia|lia]|].
  destruct (words_fine s1 st Hs1) as (Hn & Hfalse & Htrue). repeat (destruct (_ =? _); [done|]). by apply error_fine.
Qed.
End Outcome.

(** ** Theorem *)

(** C36: On any text that ends with its only 0 byte, and with a bound above its length, [json-parse] returns.  It
    returns a value, no error being recorded, and the text behind it, which is shorter; or nil, and the
    error with a position in the text.  The trees of all contexts are well formed afterwards and no
    symbol has gone.  Behind the text it reads only when the text ends in a backslash. *)
Theorem p_JSONparse_total lc_decimal_point mainContext currentContext trueSymbol fuel jsonStr st :
  usable mainContext currentContext (jworld st) → terminated jsonStr → (length jsonStr < fuel)%nat →
  match p_JSONparse lc_decimal_point mainContext trueSymbol fuel jsonStr st with
  | Ok (o, st') => usable mainContext currentContext (jworld st') ∧
      (∀ p, is_Some (data_in (jworld st) p) → is_Some (data_in (jworld st') p)) ∧
      match o with
      | Some (_, rest) => p_JSONerror st' = DNil ∧ terminated rest ∧ ∃ l, l ≠ [] ∧ jsonStr = l ++ rest
      | None => ∃ text pos, lastJSONerror st' = Some (text, pos) ∧ 0 ≤ pos ≤ Z.of_nat (length jsonStr)
      end
  | Fail _ | NoFuel => False
  | UB => ∃ l, jsonStr = l ++ [c_backslash; 0]
  end.
Proof.
  intros Hu Ht Hf. unfold p_JSONparse.
  pose proof (getJSONvalue_fine lc_decimal_point mainContext currentContext trueSymbol (length jsonStr) fuel jsonStr (JState None (jworld st))) as H.
  specialize (H ltac:(split; [done|split; [done|lia]]) Hf).
  destruct (getJSONvalue _ _ _ _ _ _ _) as [[[[v rest]|] st']| | |]; cbn in H; try done.
  destruct H as [((Hr & l & ->) & Hu' & He & Herr) Hl]. split; [done|]. split; [done|]. split; [unfold p_JSONerror; by rewrite Herr|].
  split; [done|]. exists l. split; [|done]. intros ->. cbn in Hl. lia.
Qed.

(** ["[null]"] *)
Lemma p_JSONparse_total_witness :
  match p_JSONparse 46 2 1 8 [91; 110; 117; 108; 108; 93; 0] (JState None demo) with
  | Ok (o, st') => usable 2 4 (jworld st') ∧
      (∀ p, is_Some (data_in demo p) → is_Some (data_in (jworld st') p)) ∧
      match o with
      | Some (_, rest) => p_JSONerror st' = DNil ∧ terminated rest ∧ ∃ l, l ≠ [] ∧ [91; 110; 117; 108; 108; 93; 0] = l ++ rest
      | None => ∃ text pos, lastJSONerror st' = Some (text, pos) ∧ 0 ≤ pos ≤ 7
      end
  | Fail _ | NoFuel => False
  | UB => ∃ l, [91; 110; 117; 108; 108; 93; 0] = l ++ [c_backslash; 0]
  end.
Proof.
  apply (p_JSONparse_total 46 2 4 1 8 [91; 110; 117; 108; 108; 93; 0] (JState None demo)).
  - exact demo_usable.
  - exists [91; 110; 117; 108; 108; 93]. split; [reflexivity|]. by apply (bool_decide_unpack _); vm_compute.
  - vm_compute. lia.
Defined.
