(* ===== verification/Jsongrammar.v ===== *)
(** * The grammar of JSON

    JSON texts (RFC 8259) with the lists they denote, as an inductive relation that does not mention the parser of
    src/nl-xml-json.c: UTF-8 by the table of the Unicode standard, surrogate pairs as one character, decimal numbers
    by their value.  [json_text true] is the whole grammar (and a little more: leading zeros and control characters
    in strings); [json_text false] is the part that the parser reads as meant, without surrogate pairs, without a
    carriage return directly behind a number, and with numbers of up to 1024 characters. *)

From stdpp Require Import base list numbers tactics strings.
From Stdlib Require Import ZArith Lia SpecFloat.
From S2P Require Import Prelude Utf8 Arith Symtree Token Tokens Bigtext Reader Reading.
From stdpp Require Import list.

#[global] Open Scope Z_scope.

(** ** Characters *)

Definition json_white (w : list Z) : Prop := Forall (λ c, c = 9 ∨ c = 10 ∨ c = 13 ∨ c = 32) w.

Definition digits (ds : list Z) : Prop := ds ≠ [] ∧ Forall (λ c, isDigit c = true) ds.

(** The bytes of a code point. *)
Definition utf8 (c : Z) : list Z :=
  if c <? 0x80 then [c]
  else if c <? 0x800 then [0xC0 + c / 64; 0x80 + c mod 64]
  else if c <? 0x10000 then [0xE0 + c / 4096; 0x80 + c / 64 mod 64; 0x80 + c mod 64]
  else [0xF0 + c / 262144; 0x80 + c / 4096 mod 64; 0x80 + c / 64 mod 64; 0x80 + c mod 64].

(** Four hexadecimal digits and their value. *)
Definition hex4 (h : list Z) : Prop := length h = 4%nat ∧ Forall (λ c, isxdigit c = true) h.

Definition hex_digit (c : Z) : Z := if c <=? 57 then c - 48 else if c <=? 70 then c - 55 else c - 87.

Definition hex_value (h : list Z) : Z := foldl (λ a c, 16 * a + hex_digit c) 0 h.

(** The escapes of one character with what they stand for. *)
Definition json_escapes : list (Z * Z) :=
  [(34, 34); (92, 92); (47, 47); (98, 8); (102, 12); (110, 10); (114, 13); (116, 9)].

(** ** Numbers *)

Definition frac_text (frac : list Z) : Prop := frac = [] ∨ (∃ fs, digits fs ∧ frac = 46 :: fs).
Definition exponent_text (ex : list Z) : Prop :=
  ex = [] ∨ (∃ e es xs, (e = 101 ∨ e = 69) ∧ (es = [] ∨ es = [c_plus] ∨ es = [c_minus]) ∧ digits xs ∧ ex = e :: es ++ xs).

Definition exponent_value (ex : list Z) : Z :=
  match ex with
  | _ :: 45 :: xs => - chars_val xs
  | _ :: 43 :: xs => chars_val xs
  | _ :: xs => chars_val xs
  | [] => 0
  end.

(** The double next to the number: its digits as an integer times or over a power of ten, exactly, rounded once by the IEEE
    operations of SpecFloat. *)
Definition float_value (sg ds frac ex : list Z) : spec_float :=
  let fs := drop 1 frac in
  decimal_float (match sg with [] => false | _ => true end) (chars_val (ds ++ fs)) (exponent_value ex - Z.of_nat (length fs)).

(** The nearest 64-bit integer. *)
Definition saturate (z : Z) : Z := Z.max INT64_MIN (Z.min INT64_MAX z).

Section Grammar.
Variables (all : bool) (falseSymbol nullSymbol trueSymbol : ptr).

Inductive number_text : datum → list Z → Prop :=
  | number_int sg ds z : sg = [] ∧ z = chars_val ds ∨ sg = [c_minus] ∧ z = - chars_val ds → digits ds →
      (all = false → (length (sg ++ ds) ≤ 1024)%nat) →
      number_text (DLong (saturate z)) (sg ++ ds)
  | number_float sg ds frac ex : sg = [] ∨ sg = [c_minus] → digits ds → frac_text frac → exponent_text ex → frac ++ ex ≠ [] →
      (all = false → (length (sg ++ ds ++ frac ++ ex) ≤ 1024)%nat) →
      number_text (DFloat (float_value sg ds frac ex)) (sg ++ ds ++ frac ++ ex).

(** What is between the quotes, and the string in UTF-8. *)
Inductive string_text : list Z → list Z → Prop :=
  | text_end : string_text [] []
  | text_char c t v : c ≠ c_dquote → c ≠ c_backslash → c ≠ 0 → string_text t v → string_text (c :: t) (c :: v)
  | text_escape e c t v : (e, c) ∈ json_escapes → string_text t v → string_text (c_backslash :: e :: t) (c :: v)
  | text_unicode h t v : hex4 h → ¬ 0xD800 ≤ hex_value h < 0xE000 → string_text t v →
      string_text (c_backslash :: 117 :: h ++ t) (utf8 (hex_value h) ++ v)
  | text_pair h l t v : all = true → hex4 h → hex4 l → 0xD800 ≤ hex_value h < 0xDC00 → 0xDC00 ≤ hex_value l < 0xE000 →
      string_text t v →
      string_text (c_backslash :: 117 :: h ++ c_backslash :: 117 :: l ++ t)
        (utf8 (0x10000 + 0x400 * (hex_value h - 0xD800) + (hex_value l - 0xDC00)) ++ v).

(** ** Values *)

Definition is_number (d : datum) : bool := match d with DLong _ | DFloat _ => true | _ => false end.

(** White space behind a value. *)
Definition gap (d : datum) (w : list Z) : Prop := json_white w ∧ (all = false → is_number d = true → hd 0 w ≠ 13).

Definition quoted (t : list Z) : list Z := c_dquote :: t ++ [c_dquote].

Inductive json_text : datum → list Z → Prop :=
  | json_null : json_text (DSymbol nullSymbol) [110; 117; 108; 108]
  | json_true : json_text (DSymbol trueSymbol) [116; 114; 117; 101]
  | json_false : json_text (DSymbol falseSymbol) [102; 97; 108; 115; 101]
  | json_number d t : number_text d t → json_text d t
  | json_string t v : string_text t v → json_text (DString v) (quoted t)
  | json_empty_array w : json_white w → json_text (DExpr []) (c_open :: w ++ [c_close])
  | json_array l t : elements_text l t → json_text (DExpr l) (c_open :: t ++ [c_close])
  | json_empty_object w : json_white w → json_text (DExpr []) (c_lbrace :: w ++ [c_rbrace])
  | json_object l t : members_text l t → json_text (DExpr l) (c_lbrace :: t ++ [c_rbrace])
with elements_text : list datum → list Z → Prop :=
  | elements_last d w t w' : json_white w → json_text d t → gap d w' → elements_text [d] (w ++ t ++ w')
  | elements_more d w t w' l ts : json_white w → json_text d t → gap d w' → elements_text l ts →
      elements_text (d :: l) (w ++ t ++ w' ++ c_comma :: ts)
with members_text : list datum → list Z → Prop :=
  | members_last k kv d w w1 w2 t w3 : json_white w → string_text k kv → json_white w1 → json_white w2 → json_text d t → gap d w3 →
      members_text [DExpr [DString kv; d]] (w ++ quoted k ++ w1 ++ c_colon :: w2 ++ t ++ w3)
  | members_more k kv d w w1 w2 t w3 l ts : json_white w → string_text k kv → json_white w1 → json_white w2 → json_text d t → gap d w3 →
      members_text l ts →
      members_text (DExpr [DString kv; d] :: l) (w ++ quoted k ++ w1 ++ c_colon :: w2 ++ t ++ w3 ++ c_comma :: ts).
End Grammar.

Scheme json_text_min := Minimality for json_text Sort Prop
  with elements_text_min := Minimality for elements_text Sort Prop
  with members_text_min := Minimality for members_text Sort Prop.
Combined Scheme json_texts_ind from json_text_min, elements_text_min, members_text_min.

(** The part is a part of the whole. *)
Lemma string_text_all t v : string_text false t v → string_text true t v.
Proof. induction 1; by constructor. Qed.

Lemma gap_all d w : gap false d w → gap true d w.
Proof. intros [H _]. by split. Qed.

Lemma number_text_all d t : number_text false d t → number_text true d t.
Proof. destruct 1; by econstructor. Qed.

Lemma json_text_all fs ns ts : (∀ d t, json_text false fs ns ts d t → json_text true fs ns ts d t) ∧
  (∀ l t, elements_text false fs ns ts l t → elements_text true fs ns ts l t) ∧
  (∀ l t, members_text false fs ns ts l t → members_text true fs ns ts l t).
Proof.
  apply json_texts_ind; intros; try (by constructor; eauto using number_text_all, string_text_all, gap_all).
Qed.

(** ** The functions of the C library and the code on the parts *)

Lemma hex_digit_value c : isxdigit c = true → digit_value c = hex_digit c ∧ 0 ≤ hex_digit c < 16.
Proof.
  unfold isxdigit, digit_value, hex_digit, isDigit, toupper. intros H.
  repeat (case_match; try lia).
Qed.

Lemma hex_digits_value h : Forall (λ c, isxdigit c = true) h → ∀ acc, digits_value 16 h acc = foldl (λ a c, 16 * a + hex_digit c) acc h.
Proof.
  induction 1 as [|c h Hc _ IH]; intros acc; [done|]. cbn [digits_value foldl]. destruct (hex_digit_value c Hc) as [-> Hr].
  rewrite (proj2 (Z.ltb_lt _ _)) by lia. apply IH.
Qed.

Lemma strtol_hex4 h : hex4 h → strtol_exact 16 (48 :: 120 :: h) = hex_value h ∧ 0 ≤ hex_value h < 65536.
Proof.
  intros [Hl Hh]. assert (E : strtol_exact 16 (48 :: 120 :: h) = hex_value h).
  { unfold hex_value. rewrite <- hex_digits_value by done. destruct h as [|d h]; [done|]. apply List.Forall_inv in Hh.
    unfold strtol_exact. cbn [signed magnitude]. rewrite Hh. done. }
  split; [done|]. rewrite <- E. by apply four_digits.
Qed.

(** On the code points of one [\u] the code's encoder is UTF-8. *)
Lemma wchar_utf8_bmp c : 0 ≤ c < 65536 → wchar_utf8 c = utf8 c.
Proof.
  intros Hc. set (byte := map Z.of_nat (seq 0 256)).
  assert (H : forallb (λ a, forallb (λ b, bool_decide (wchar_utf8 (256 * a + b) = utf8 (256 * a + b))) byte) byte = true) by by vm_compute.
  assert (Hbyte : ∀ z, 0 ≤ z < 256 → In z byte).
  { intros z Hz. apply in_map_iff. exists (Z.to_nat z). split; [lia|]. apply in_seq. lia. }
  rewrite forallb_forall in H. specialize (H (c / 256) ltac:(apply Hbyte; split; [apply Z.div_pos; lia|apply Z.div_lt_upper_bound; lia])).
  rewrite forallb_forall in H. specialize (H (c mod 256) ltac:(apply Hbyte, Z.mod_pos_bound; lia)). apply bool_decide_eq_true in H.
  by rewrite <- Z.div_mod in H.
Qed.

Lemma span_digits_text ds u : Forall (λ c, isDigit c = true) ds → (∀ c r, u = c :: r → isDigit c = false) → span_digits (ds ++ u) = (ds, u).
Proof.
  intros Hd Hu. induction Hd as [|x ds Hx _ IH]; cbn [app span_digits].
  - destruct u as [|c u]; [done|]. cbn. by rewrite (Hu c u).
  - by rewrite Hx, IH.
Qed.

Lemma signed_text ds u : digits ds → signed (ds ++ u) = (false, ds ++ u).
Proof.
  intros [Hne Hd]. destruct ds as [|d ds]; [done|]. apply Forall_cons in Hd as [Hd _]. unfold isDigit in Hd. cbn [app]. unfold signed.
  by repeat (case_match; try lia).
Qed.

Lemma decimal_magnitude ds : digits ds → magnitude 10 ds = chars_val ds.
Proof.
  intros [Hne Hd]. destruct ds as [|d ds]; [done|]. transitivity (digits_value 10 (d :: ds) 0); [|by apply digits_value_text].
  unfold magnitude. repeat case_match; try done. by rewrite andb_false_r in *.
Qed.

Lemma exponent_strtol e es xs : es = [] ∨ es = [c_plus] ∨ es = [c_minus] → digits xs →
  strtol_exact 10 (es ++ xs) = exponent_value (e :: es ++ xs).
Proof.
  intros Hes Hx. pose proof (signed_text xs [] Hx) as Hs. rewrite app_nil_r in Hs. pose proof (decimal_magnitude xs Hx) as Hm.
  unfold strtol_exact. destruct Hes as [->|[-> | ->]]; cbn [app signed]; rewrite ?Hs, ?Hm; try done.
  unfold exponent_value. destruct Hx as [Hne Hd]. destruct xs as [|d xs]; [done|]. apply Forall_cons in Hd as [Hd _].
  unfold isDigit in Hd. by repeat (case_match; try lia).
Qed.

(** [atof] with a point for decimal point. *)
Lemma atof_text sg ds frac ex : sg = [] ∨ sg = [c_minus] → digits ds → frac_text frac → exponent_text ex →
  atof 46 (sg ++ ds ++ frac ++ ex) = float_value sg ds frac ex.
Proof.
  intros Hsg Hds Hf Hx.
  assert (Hsig : signed (sg ++ ds ++ frac ++ ex) = (match sg with [] => false | _ => true end, ds ++ frac ++ ex)).
  { destruct Hsg as [-> | ->]; cbn [app]; [by apply signed_text|done]. }
  assert (Hend : ∀ c r, ex = c :: r → isDigit c = false ∧ c ≠ 46 ∧ toupper c = 69).
  { intros c r E. destruct Hx as [->|(e & es & xs & He & _ & _ & ->)]; [done|]. injection E as <- _.
    destruct He as [-> | ->]; repeat split; done. }
  assert (Hexp : (match ex with c :: t' => if toupper c =? 69 then strtol_exact 10 t' else 0 | [] => 0 end) = exponent_value ex).
  { destruct Hx as [->|(e & es & xs & He & Hes & Hxs & ->)]; [done|]. destruct (Hend e _ eq_refl) as (_ & _ & ->).
    rewrite Z.eqb_refl. by apply exponent_strtol. }
  unfold atof, float_value. rewrite Hsig. destruct Hds as [Hne Hds]. destruct Hf as [->|(fs & [Hne' Hfs] & ->)].
  - cbn [app drop]. rewrite span_digits_text by (done || (intros c r E; by apply (Hend c r))).
    destruct ex as [|c ex]; [done|]. destruct (Hend c ex eq_refl) as (_ & Hc & _).
    rewrite (proj2 (Z.eqb_neq c 46)) by done. by rewrite Hexp.
  - cbn [app drop]. rewrite (span_digits_text ds (46 :: fs ++ ex)) by (done || by intros c r [= <- _]).
    rewrite Z.eqb_refl, drop_0, span_digits_text by (done || (intros c r E; by apply (Hend c r))). by rewrite Hexp.
Qed.
