(* ===== verification/Jsontext.v ===== *)
(** * JSON texts and what [json-parse] makes of them

    The proof that [getJSONvalue] (Json.v) reads every text of the grammar of Jsongrammar.v but those with surrogate
    pairs, a carriage return directly behind a number or a number of more than 1024 characters, and examples of what
    it makes of these. *)

From stdpp Require Import base list numbers tactics strings gmap.
From Stdlib Require Import ZArith Lia SpecFloat String Ascii.
From S2P Require Import Prelude Cell Utf8 Arith Symtree Symfind Context Token Tokens Bigtext Reader Lexing Reading Symtable World Symbols Balance Spaces Json Jsonsafe Jsongrammar.
From stdpp Require Import list.

#[global] Open Scope Z_scope.

#[local] Abbreviation world_ok := (world_ok (linked := rb_linked)).

(** ** Reading the parts *)

Lemma skip_space_text w c u : json_white w → 32 < c → skip_space (w ++ c :: u) = Ok (c :: u).
Proof.
  intros Hw Hc. induction Hw as [|x w Hx _ IH]; cbn [app skip_space].
  - by rewrite (proj2 (Z.leb_gt c 32)).
  - rewrite (proj2 (Z.leb_le x 32)) by lia. rewrite (proj2 (Z.eqb_neq x 0)) by lia. exact IH.
Qed.

Lemma skip_space_same c u : 32 < c → skip_space (c :: u) = Ok (c :: u).
Proof. intros H. by apply (skip_space_text [] c u); [constructor|]. Qed.

Lemma skip_digits_text ds c u : Forall (λ c, isDigit c = true) ds → isDigit c = false → skip_digits (ds ++ c :: u) = Ok (c :: u).
Proof. intros Hd Hc. induction Hd as [|x ds Hx _ IH]; cbn [app skip_digits]; [by rewrite Hc|]. by rewrite Hx. Qed.

Lemma scan_plain h s : Forall (λ c, c ≠ c_dquote ∧ c ≠ c_backslash ∧ c ≠ 0) h → ∀ n,
  scan_string (h ++ s) n = scan_string s (n + length h).
Proof.
  induction 1 as [|c h (H1 & H2 & H3) _ IH]; intros n; cbn [app scan_string length]; [by rewrite Nat.add_0_r|].
  rewrite (proj2 (Z.eqb_neq c _) H1), (proj2 (Z.eqb_neq c _) H3), (proj2 (Z.eqb_neq c _) H2). cbn [orb]. rewrite IH. f_equal. lia.
Qed.

Lemma hex_plain h : Forall (λ c, isxdigit c = true) h → Forall (λ c, c ≠ c_dquote ∧ c ≠ c_backslash ∧ c ≠ 0) h.
Proof. intros H. eapply Forall_impl; [exact H|]. intros c Hc. unfold isxdigit, isDigit in Hc. lia. Qed.

Lemma scan_text t v u : string_text false t v → ∀ n, scan_string (t ++ c_dquote :: u) n = Ok ((n + length t)%nat, c_dquote :: u).
Proof.
  (induction 1 as [|c t v H1 H2 H3 _ IH|e c t v He _ IH|h t v [Hl Hh] _ _ IH|]; [..|done]); intros n.
  - cbn. by rewrite Nat.add_0_r.
  - change ((c :: t) ++ c_dquote :: u) with ([c] ++ (t ++ c_dquote :: u)). rewrite scan_plain by (by constructor). rewrite IH. cbn. do 2 f_equal. lia.
  - cbn. rewrite IH. do 2 f_equal. lia.
  - cbn [app scan_string]. cbn. rewrite <- app_assoc, scan_plain by by apply hex_plain. rewrite IH, length_app. cbn. do 2 f_equal. lia.
Qed.

Lemma utf8_length h : hex4 h → (length (utf8 (hex_value h)) ≤ 3)%nat.
Proof.
  intros Hh. pose proof (strtol_hex4 h Hh) as [E Hv]. rewrite <- wchar_utf8_bmp, <- E by done. destruct Hh as [Hl Hh]. by apply wchar_length, four_digits.
Qed.

Lemma string_text_length t v : string_text false t v → (length v ≤ length t)%nat.
Proof.
  induction 1 as [| | |h t v Hh _ _ IH|]; cbn [length]; try lia. rewrite !length_app.
  pose proof (utf8_length h Hh) as Hu. destruct Hh as [Hl _]. lia.
Qed.

Lemma next_are_text p h s : Forall (λ c, p c = true) h → next_are p (length h) (h ++ s) = Ok true.
Proof.
  induction 1 as [|c h Hc _ IH]; [done|]. cbn [length app next_are rd lookup list_lookup mbind result_bind]. rewrite Hc. cbn [drop]. by rewrite drop_0.
Qed.

Lemma xlate_text t v u : string_text false t v → ∀ fuel cap acc, (length t ≤ fuel)%nat → (length acc + length t < cap)%nat →
  xlate fuel (length t) cap (t ++ c_dquote :: u) acc = Ok (Some (acc ++ v)).
Proof.
  (induction 1 as [|c t v H1 H2 H3 _ IH|e c t v He _ IH|h t v Hx _ _ IH|]; [..|done]); intros [|fuel] cap acc Hf Hcap; cbn [length] in *; try lia; try (by rewrite app_nil_r).
  - change ((c :: t) ++ c_dquote :: u) with (c :: (t ++ c_dquote :: u)). cbn [xlate rd lookup list_lookup mbind result_bind].
    rewrite (proj2 (Z.eqb_neq c _) H2), put_byte_ok by lia. cbn [mbind result_bind drop]. rewrite drop_0, IH by (rewrite ?length_snoc; lia). by rewrite <- app_assoc.
  - change ((c_backslash :: e :: t) ++ c_dquote :: u) with (c_backslash :: e :: (t ++ c_dquote :: u)). cbn [xlate rd lookup list_lookup mbind result_bind].
    rewrite Z.eqb_refl. assert (Hc : e ≠ 117 ∧ escape_char e = c).
    { unfold json_escapes in He. repeat (apply elem_of_cons in He as [[= -> ->]|He]; [done|]). by apply elem_of_nil in He. }
    destruct Hc as [Hu ->]. rewrite (proj2 (Z.eqb_neq e _) Hu), put_byte_ok by lia. cbn [mbind result_bind drop]. rewrite drop_0.
    replace (S (length t) - 1)%nat with (length t) by lia. rewrite IH by (rewrite ?length_snoc; lia). by rewrite <- app_assoc.
  - pose proof (strtol_hex4 h Hx) as [Ev Hv]. pose proof (utf8_length h Hx) as Hu. pose proof Hx as [Hl Hh].
    change ((c_backslash :: 117 :: h ++ t) ++ c_dquote :: u) with (c_backslash :: 117 :: ((h ++ t) ++ c_dquote :: u)). rewrite <- app_assoc.
    cbn [xlate rd lookup list_lookup mbind result_bind]. rewrite !Z.eqb_refl. cbn [drop]. rewrite drop_0.
    pose proof (next_are_text isxdigit h (t ++ c_dquote :: u) Hh) as Hn. rewrite Hl in Hn. rewrite Hn. cbn [mbind result_bind].
    rewrite length_app in *. rewrite (take_app_le h _ 4), (take_ge h 4) by lia. rewrite Ev, wchar_utf8_bmp by done.
    rewrite put_all_ok by lia. cbn [mbind result_bind]. replace (S (length h + length t) - 5)%nat with (length t) by lia.
    replace (drop 4 (h ++ t ++ c_dquote :: u)) with (t ++ c_dquote :: u) by (by rewrite <- Hl, drop_app_length).
    rewrite IH by (rewrite ?length_app; lia). by rewrite <- app_assoc.
Qed.

Lemma getJSONstring_text start w t v u st : json_white w → string_text false t v →
  getJSONstring start (w ++ quoted t ++ u) st = Ok (Some (v, u), st).
Proof.
  intros Hw Ht. unfold getJSONstring, quoted. change ((c_dquote :: t ++ [c_dquote]) ++ u) with (c_dquote :: ((t ++ [c_dquote]) ++ u)). rewrite <- app_assoc.
  rewrite skip_space_text by done. cbn [mbind result_bind rd lookup list_lookup drop]. rewrite Z.eqb_refl. cbn [negb]. rewrite drop_0. cbn [app].
  rewrite (scan_text t v u Ht). cbn [mbind result_bind rd lookup list_lookup drop]. rewrite Z.eqb_refl. cbn [negb]. rewrite drop_0.
  rewrite (xlate_text t v u Ht) by (cbn; lia). cbn [mbind result_bind app]. pose proof (string_text_length t v Ht). rewrite decide_True by (cbn; lia). done.
Qed.

(** ** Numbers *)

Lemma ends_number_spec e : ends_number e = true → isDigit e = false ∧ e ≠ 46 ∧ e ≠ 101 ∧ e ≠ 69.
Proof. unfold ends_number, isDigit. lia. Qed.

Lemma strtoll_decimal sg ds z : sg = [] ∧ z = chars_val ds ∨ sg = [c_minus] ∧ z = - chars_val ds → digits ds →
  fst (strtoll (sg ++ ds) 10) = saturate z.
Proof.
  intros Hsg Hds. pose proof (decimal_magnitude ds Hds) as Hm. pose proof (signed_text ds [] Hds) as Hs. rewrite app_nil_r in Hs.
  assert (E : strtol_exact 10 (sg ++ ds) = z).
  { unfold strtol_exact. destruct Hsg as [[-> ->]|[-> ->]]; cbn [app]; [by rewrite Hs, Hm|]. cbn [signed]. by rewrite Hm. }
  unfold strtoll, saturate. rewrite E. destruct (Z.ltb_spec INT64_MAX z); cbn [fst]; [unfold INT64_MIN, INT64_MAX in *; lia|].
  destruct (Z.ltb_spec z INT64_MIN); cbn [fst]; unfold INT64_MIN, INT64_MAX in *; lia.
Qed.

Definition present (t : list Z) : bool := match t with [] => false | _ => true end.

Lemma exponent_number b ex e u : exponent_text ex → ends_number e = true →
  number_exponent b (ex ++ e :: u) = Ok (Some (b || present ex), e :: u).
Proof.
  intros Hex [Hd (_ & H1 & H2)]%ends_number_spec. unfold number_exponent. destruct Hex as [->|(c & es & xs & Hc & Hes & [Hne Hxs] & ->)].
  { cbn [app rd lookup list_lookup mbind result_bind]. rewrite (proj2 (Z.eqb_neq e _) H1), (proj2 (Z.eqb_neq e _) H2). cbn. by rewrite orb_false_r. }
  assert (E : ((c =? 101) || (c =? 69)) = true) by lia. cbn [app rd lookup list_lookup mbind result_bind]. rewrite E. cbn [drop]. rewrite drop_0, <- app_assoc.
  destruct xs as [|x xs]; [done|]. pose proof Hxs as Hall. apply Forall_cons in Hxs as [Hx Hxs].
  assert (E2 : ∃ c1 r1, es ++ (x :: xs) ++ e :: u = c1 :: r1 ∧ (if (c1 =? c_minus) || (c1 =? c_plus) then drop 1 (c1 :: r1) else c1 :: r1) = (x :: xs) ++ e :: u).
  { destruct Hes as [->|[->| ->]]; cbn [app]; eexists _, _; (split; [done|]); [|done..].
    assert (((x =? c_minus) || (x =? c_plus)) = false) as ->; [|done]. unfold isDigit in Hx. lia. }
  destruct E2 as (c1 & r1 & -> & E2). cbn [rd lookup list_lookup mbind result_bind]. rewrite E2. cbn [app rd lookup list_lookup mbind result_bind]. rewrite Hx.
  change (x :: xs ++ e :: u) with ((x :: xs) ++ e :: u). rewrite skip_digits_text by done. cbn. by rewrite orb_true_r.
Qed.

(** What comes behind the digits of the integer part is no digit. *)
Lemma tail_head frac ex e u : frac_text frac → exponent_text ex → ends_number e = true →
  ∃ c r, frac ++ ex ++ e :: u = c :: r ∧ isDigit c = false ∧ (frac = [] → c ≠ 46).
Proof.
  intros Hf Hx [He He2]%ends_number_spec. destruct Hf as [->|(fs & _ & ->)]; [|by eexists _, _].
  destruct Hx as [->|(c & es & xs & Hc & _ & _ & ->)]; cbn [app]; eexists _, _; (split; [done|]); [by split; [|naive_solver]|].
  split; [|intros _; lia]. unfold isDigit. lia.
Qed.

Lemma fraction_number frac ex e u : frac_text frac → exponent_text ex → ends_number e = true →
  number_fraction (frac ++ ex ++ e :: u) = Ok (present frac, ex ++ e :: u).
Proof.
  intros Hf Hx He. destruct (tail_head frac ex e u Hf Hx He) as (c & r & E & Hd & Hc). destruct Hf as [->|(fs & [Hne Hfs] & ->)].
  - cbn [app] in *. rewrite E. unfold number_fraction. cbn [rd lookup list_lookup mbind result_bind]. by rewrite (proj2 (Z.eqb_neq c 46) (Hc eq_refl)).
  - unfold number_fraction. cbn [app rd lookup list_lookup mbind result_bind]. rewrite Z.eqb_refl. cbn [drop]. rewrite drop_0.
    destruct (tail_head [] ex e u (or_introl eq_refl) Hx He) as (c1 & r1 & E1 & Hd1 & _). cbn [app] in E1. rewrite E1.
    by rewrite skip_digits_text.
Qed.

Lemma getJSONnumber_text lc start sg ds frac ex e u st : sg = [] ∨ sg = [c_minus] → digits ds → frac_text frac → exponent_text ex →
  (length (sg ++ ds ++ frac ++ ex) ≤ 1024)%nat → ends_number e = true →
  getJSONnumber lc start ((sg ++ ds ++ frac ++ ex) ++ e :: u) st =
    Ok (Some (if present frac || present ex then DFloat (atof lc (sg ++ ds ++ frac ++ ex)) else DLong (fst (strtoll (sg ++ ds ++ frac ++ ex) 10)), e :: u), st).
Proof.
  intros Hsg [Hne Hds] Hf Hx Hlen He. destruct ds as [|d ds]; [done|]. apply Forall_cons in Hds as [Hd Hds]. set (t := sg ++ (d :: ds) ++ frac ++ ex) in *.
  assert (E1 : skip_digits (drop 1 (t ++ e :: u)) = Ok (frac ++ ex ++ e :: u)).
  { destruct (tail_head frac ex e u Hf Hx He) as (c & r & E & Hc & _). unfold t. rewrite <- !app_assoc, E.
    destruct Hsg as [->| ->]; cbn [app drop]; rewrite ?drop_0; [by apply skip_digits_text|]. apply (skip_digits_text (d :: ds)); [by constructor|done]. }
  unfold getJSONnumber. rewrite E1. cbn [mbind result_bind]. rewrite fraction_number by done. cbn [mbind result_bind]. rewrite exponent_number by done. cbn [mbind result_bind rd lookup list_lookup].
  rewrite He. replace (length (t ++ e :: u) - length (e :: u))%nat with (length t) by (rewrite length_app; lia).
  rewrite (proj2 (Nat.ltb_ge 1024 (length t))) by done. cbn [negb orb]. by rewrite take_app_length.
Qed.

(** ** Values *)

Lemma json_head fs ns ts d t : json_text false fs ns ts d t → ∃ c r, t = c :: r ∧ 32 < c ∧ c ≠ c_close.
Proof.
  assert (Hn : ∀ sg ds x, sg = [] ∨ sg = [c_minus] → digits ds → ∃ c r, sg ++ ds ++ x = c :: r ∧ 32 < c ∧ c ≠ c_close).
  { intros sg [|d0 ds] x Hsg [Hne Hds]; [done|]. apply Forall_cons in Hds as [Hd _]. unfold isDigit in Hd.
    destruct Hsg as [->| ->]; cbn [app]; eexists _, _; (split; [done|]); lia. }
  destruct 1 as [| | |d t Hnum|t v Ht| | | |]; try (eexists _, _; (split; [done|]); lia).
  destruct Hnum as [sg ds z Hsg Hds _|sg ds frac ex Hsg Hds _ _ _ _]; [|by apply Hn].
  destruct (Hn sg ds [] ltac:(destruct Hsg as [[-> _]|[-> _]]; auto) Hds) as (c & r & E & H). rewrite app_nil_r in E. by exists c, r.
Qed.

Lemma members_head fs ns ts l t : members_text false fs ns ts l t → ∃ w r, json_white w ∧ t = w ++ c_dquote :: r.
Proof. destruct 1 as [k kv d w w1 w2 t w3 Hw|k kv d w w1 w2 t w3 l ts' Hw]; by eexists w, _. Qed.

(** What follows a value and its white space. *)
Definition followed (d : datum) (u : list Z) : Prop := is_number d = true → ∃ c r, u = c :: r ∧ ends_number c = true.

Lemma gap_followed d w c u : gap false d w → ends_number c = true → followed d (w ++ c :: u).
Proof.
  intros [Hw Hcr] Hc Hd. destruct w as [|x w]; [by exists c, u|]. exists x, (w ++ c :: u). split; [done|].
  apply Forall_cons in Hw as [Hx _]. specialize (Hcr eq_refl Hd). cbn in Hcr. unfold ends_number. lia.
Qed.

Section Parse.
Variables (mainContext trueSymbol falseSymbol nullSymbol : ptr) (start : nat) (s : store) (err : option (string * Z)).

(** The two symbols exist already. *)
Hypothesis false_found : ∀ r, ∃ r', translateCreateSymbol mainContext "false" CELL_SYMBOL mainContext true (set_root r s) = Ok (falseSymbol, set_root r' s).
Hypothesis null_found : ∀ r, ∃ r', translateCreateSymbol mainContext "null" CELL_SYMBOL mainContext true (set_root r s) = Ok (nullSymbol, set_root r' s).

#[local] Abbreviation value := (getJSONvalue 46 mainContext trueSymbol start).
#[local] Abbreviation state r := (JState err (set_root r s)).

Definition value_read (d : datum) (t : list Z) : Prop := ∀ fuel w r u, json_white w → (length t < fuel)%nat → followed d u →
  ∃ r', value fuel (w ++ t ++ u) (state r) = Ok (Some (d, u), state r').

Definition elements_read (l : list datum) (t : list Z) : Prop := ∀ fuel n c array r u, (length t < fuel)%nat → (length t < n)%nat →
  ∃ r', get_elements start (value fuel) n (c :: t ++ c_close :: u) array (state r) = Ok (Some (DExpr (array ++ l), u), state r').

Definition members_read (l : list datum) (t : list Z) : Prop := ∀ fuel n pairs r u, (length t < fuel)%nat → (length t < n)%nat →
  ∃ r', get_pairs start (value fuel) n (t ++ c_rbrace :: u) pairs (state r) = Ok (Some (DExpr (pairs ++ l), u), state r').

Lemma number_read d t : number_text false d t → value_read d t.
Proof.
  intros Hn [|fuel] w r u Hw Hf Hu; [lia|]. exists r.
  assert (Hd : is_number d = true) by by destruct Hn. destruct (Hu Hd) as (e & u' & -> & He).
  assert (Hshape : ∃ sg ds frac ex, t = sg ++ ds ++ frac ++ ex ∧ (sg = [] ∨ sg = [c_minus]) ∧ digits ds ∧ frac_text frac ∧ exponent_text ex ∧ (length t ≤ 1024)%nat ∧
    d = if present frac || present ex then DFloat (atof 46 t) else DLong (fst (strtoll t 10))).
  { destruct Hn as [sg ds z Hsg Hds Hl|sg ds frac ex Hsg Hds Hfr Hex Hne Hl].
    - exists sg, ds, [], []. rewrite !app_nil_r. split; [done|]. split; [naive_solver|]. split; [done|]. split; [by left|]. split; [by left|]. split; [by apply Hl|].
      cbn. by rewrite (strtoll_decimal sg ds z).
    - exists sg, ds, frac, ex. repeat (split; [by auto|]). rewrite atof_text by done. destruct frac; [destruct ex; [done|]|]; done. }
  destruct Hshape as (sg & ds & frac & ex & -> & Hsg & Hds & Hfr & Hex & Hl & ->). cbn [getJSONvalue].
  pose proof (getJSONnumber_text 46 start sg ds frac ex e u' (state r) Hsg Hds Hfr Hex Hl He) as H. revert H.
  destruct Hds as [Hne Hds]. destruct ds as [|x ds]; [done|]. apply Forall_cons in Hds as [Hx _].
  pose proof Hx as Hx'. unfold isDigit in Hx'. set (v := if present frac || present ex then _ else _).
  assert (Hc : ∃ c rest, (sg ++ (x :: ds) ++ frac ++ ex) ++ e :: u' = c :: rest ∧ 32 < c ∧ c ≠ c_dquote ∧
    (if isDigit c then Ok true else if (c =? c_minus) || (c =? c_plus) then c1 ← rd (c :: rest) 1; Ok (isDigit c1) else Ok false) = Ok true).
  { destruct Hsg as [->| ->]; cbn [app]; eexists _, _; (split; [done|]); (split; [lia|]); (split; [lia|]).
    - by rewrite Hx.
    - cbn. by rewrite Hx. }
  destruct Hc as (c & rest & -> & Hc & Hq & Hnum). intros H. rewrite skip_space_text by done. cbn [mbind result_bind].
  change (rd (c :: rest) 0) with (Ok c). cbn [mbind result_bind]. rewrite (proj2 (Z.eqb_neq c _) Hq), Hnum. cbn [mbind result_bind]. exact H.
Qed.

(** A value that starts with [c]. *)
Lemma value_at fuel w c u st : json_white w → 32 < c → c ≠ c_dquote → isDigit c = false → c ≠ c_minus → c ≠ c_plus →
  value (S fuel) (w ++ c :: u) st =
    (if c =? c_lbrace then getJSONobject start (value fuel) fuel (c :: u) st
     else if c =? c_open then get_elements start (value fuel) fuel (c :: u) [] st
     else if c =? 116 then get_true mainContext trueSymbol start (c :: u) st
     else if c =? 102 then get_false mainContext start (c :: u) st
     else if c =? 110 then get_null mainContext start (c :: u) st
     else setJSONerror start ERR_JSON_INVALID_VALUE (c :: u) st).
Proof.
  intros Hw Hc Hq Hd H1 H2. cbn [getJSONvalue]. rewrite skip_space_text by done. cbn [mbind result_bind]. change (rd (c :: u) 0) with (Ok c). cbn [mbind result_bind].
  by rewrite (proj2 (Z.eqb_neq c _) Hq), Hd, (proj2 (Z.eqb_neq c _) H1), (proj2 (Z.eqb_neq c _) H2).
Qed.

Lemma words_read : value_read (DSymbol nullSymbol) [110; 117; 108; 108] ∧ value_read (DSymbol trueSymbol) [116; 114; 117; 101] ∧
  value_read (DSymbol falseSymbol) [102; 97; 108; 115; 101].
Proof.
  split; [|split]; intros [|fuel] w r u Hw Hf _; try lia; cbn [app]; rewrite value_at by (done || lia).
  - destruct (null_found r) as (r' & E). exists r'. cbn. unfold make_symbol. cbn [jworld lastJSONerror]. by rewrite E.
  - exists r. cbn. by rewrite drop_0.
  - destruct (false_found r) as (r' & E). exists r'. cbn. unfold make_symbol. cbn [jworld lastJSONerror]. by rewrite E.
Qed.

Lemma string_read t v : string_text false t v → value_read (DString v) (quoted t).
Proof.
  intros Ht [|fuel] w r u Hw Hf _; [lia|]. exists r. cbn [getJSONvalue]. unfold quoted at 1.
  change ((c_dquote :: t ++ [c_dquote]) ++ u) with (c_dquote :: ((t ++ [c_dquote]) ++ u)). rewrite skip_space_text by done. cbn [mbind result_bind].
  change (rd (c_dquote :: (t ++ [c_dquote]) ++ u) 0) with (Ok c_dquote). cbn [mbind result_bind]. rewrite Z.eqb_refl.
  pose proof (getJSONstring_text start [] t v u (state r) (List.Forall_nil _) Ht) as H. cbn [app] in H.
  change (quoted t ++ u) with (c_dquote :: ((t ++ [c_dquote]) ++ u)) in H. by rewrite H.
Qed.

(** Behind an element: the rest, from the comma or the bracket on. *)
Lemma element_read fuel d w t w' c array r u : json_white w → value_read d t → (∃ c r, t = c :: r ∧ 32 < c ∧ c ≠ c_close) → gap false d w' → (length t < fuel)%nat →
  c = c_comma ∨ c = c_close → ∃ r', ∀ n c0,
  get_elements start (value fuel) (S n) (c0 :: w ++ t ++ w' ++ c :: u) array (state r) =
    if c =? c_comma then get_elements start (value fuel) n (c :: u) (array ++ [d]) (state r') else Ok (Some (DExpr (array ++ [d]), u), state r').
Proof.
  intros Hw Ht (x & rest & Ex & Hx & Hx') Hg Hf Hc.
  destruct (Ht fuel [] r (w' ++ c :: u)) as (r' & E); [constructor|done|apply gap_followed; [done|by destruct Hc as [-> | ->]]|].
  exists r'. intros n c0. cbn [get_elements drop]. rewrite drop_0. rewrite Ex in *. cbn [app] in *. rewrite skip_space_text by done. cbn [mbind result_bind].
  change (rd (x :: rest ++ w' ++ c :: u) 0) with (Ok x). cbn [mbind result_bind]. rewrite (proj2 (Z.eqb_neq x _) Hx'), E. cbn [then_ mbind result_bind].
  rewrite skip_space_text; [|by destruct Hg|destruct Hc as [-> | ->]; lia]. cbn [mbind result_bind]. change (rd (c :: u) 0) with (Ok c). cbn [mbind result_bind drop]. rewrite drop_0.
  destruct Hc as [-> | ->]; done.
Qed.

Lemma pair_read fuel k kv d w w1 w2 t w3 c pairs r u : json_white w → string_text false k kv → json_white w1 → json_white w2 → value_read d t → gap false d w3 → (length t < fuel)%nat →
  c = c_comma ∨ c = c_rbrace → ∃ r', ∀ n,
  get_pairs start (value fuel) (S n) (w ++ quoted k ++ w1 ++ c_colon :: w2 ++ t ++ w3 ++ c :: u) pairs (state r) =
    if c =? c_rbrace then Ok (Some (DExpr (pairs ++ [DExpr [DString kv; d]]), u), state r')
    else get_pairs start (value fuel) n u (pairs ++ [DExpr [DString kv; d]]) (state r').
Proof.
  intros Hw Hk Hw1 Hw2 Ht Hg Hf Hc.
  destruct (Ht fuel w2 r (w3 ++ c :: u) Hw2 Hf) as (r' & E); [apply gap_followed; [done|by destruct Hc as [-> | ->]]|].
  exists r'. intros n. cbn [get_pairs]. rewrite (getJSONstring_text start w k kv) by done. cbn [then_ mbind result_bind].
  rewrite skip_space_text by done. cbn [mbind result_bind]. change (rd (c_colon :: w2 ++ t ++ w3 ++ c :: u) 0) with (Ok c_colon). cbn [mbind result_bind].
  rewrite Z.eqb_refl. cbn [negb drop]. rewrite drop_0, E. cbn [then_ mbind result_bind].
  rewrite skip_space_text; [|by destruct Hg|destruct Hc as [-> | ->]; lia]. cbn [mbind result_bind]. change (rd (c :: u) 0) with (Ok c). cbn [mbind result_bind drop]. rewrite drop_0.
  destruct Hc as [-> | ->]; done.
Qed.

Lemma get_pairs_space v n w c u pairs st : json_white w → 32 < c → get_pairs start v n (w ++ c :: u) pairs st = get_pairs start v n (c :: u) pairs st.
Proof.
  intros Hw Hc. destruct n as [|n]; [done|]. cbn [get_pairs]. unfold getJSONstring. by rewrite skip_space_text, skip_space_same.
Qed.

Lemma texts_read :
  (∀ d t, json_text false falseSymbol nullSymbol trueSymbol d t → value_read d t) ∧
  (∀ l t, elements_text false falseSymbol nullSymbol trueSymbol l t → elements_read l t) ∧
  (∀ l t, members_text false falseSymbol nullSymbol trueSymbol l t → members_read l t).
Proof.
  destruct words_read as (Hnull & Htrue & Hfalse).
  apply json_texts_ind; try done; [apply number_read|apply string_read| | | | | | | |].
  - intros w' Hw' [|[|fuel]] w r u Hw Hf _; [lia|cbn in Hf; lia|]. exists r. cbn [app]. rewrite <- app_assoc, value_at by (done || lia).
    cbn [Z.eqb Pos.eqb get_elements drop app]. rewrite drop_0, skip_space_text by done. cbn. by rewrite drop_0.
  - intros l t _ Ht [|fuel] w r u Hw Hf _; [lia|]. cbn [app length] in *. rewrite length_app in Hf. rewrite <- app_assoc, value_at by (done || lia).
    apply (Ht fuel fuel c_open [] r u); cbn in Hf; lia.
  - intros w' Hw' [|fuel] w r u Hw Hf _; [lia|]. exists r. cbn [app]. rewrite <- app_assoc, value_at by (done || lia).
    cbn [Z.eqb Pos.eqb]. unfold getJSONobject. rewrite skip_space_same by done. cbn [mbind result_bind rd lookup list_lookup Z.eqb Pos.eqb negb drop app].
    rewrite drop_0, skip_space_text by done. cbn. by rewrite drop_0.
  - intros l t Hm Ht [|fuel] w r u Hw Hf _; [lia|]. cbn [app length] in *. rewrite length_app in Hf. rewrite <- app_assoc, value_at by (done || lia).
    destruct (Ht fuel fuel [] r u) as (r' & E); [cbn in Hf; lia..|]. exists r'.
    cbn [Z.eqb Pos.eqb app]. unfold getJSONobject. rewrite skip_space_same by done. cbn [mbind result_bind rd lookup list_lookup Z.eqb Pos.eqb negb drop].
    rewrite drop_0. destruct (members_head _ _ _ _ _ Hm) as (w' & rest & Hw' & ->). rewrite <- app_assoc in *. cbn [app] in *.
    rewrite skip_space_text by done. rewrite get_pairs_space in E by done. cbn [mbind result_bind]. exact E.
  - intros d w t w' Hw Hj Ht Hg fuel [|n] c array r u Hf Hn; [lia|]. rewrite !length_app in *.
    destruct (element_read fuel d w t w' c_close array r u Hw Ht (json_head _ _ _ _ _ Hj) Hg ltac:(lia) (or_intror eq_refl)) as (r' & E).
    exists r'. rewrite <- !app_assoc. by rewrite E.
  - intros d w t w' l ts Hw Hj Ht Hg _ Hts fuel [|n] c array r u Hf Hn; [lia|]. rewrite !length_app in *. cbn [length] in *.
    destruct (element_read fuel d w t w' c_comma array r (ts ++ c_close :: u) Hw Ht (json_head _ _ _ _ _ Hj) Hg ltac:(lia) (or_introl eq_refl)) as (r' & E).
    destruct (Hts fuel n c_comma (array ++ [d]) r' u) as (r2 & E2); [lia..|]. exists r2. rewrite <- !app_assoc. cbn [app]. rewrite E. cbn [Z.eqb Pos.eqb].
    by rewrite E2, <- app_assoc.
  - intros k kv d w w1 w2 t w3 Hw Hk Hw1 Hw2 _ Ht Hg fuel [|n] pairs r u Hf Hn; [lia|]. rewrite !length_app in *. cbn [length] in *. rewrite !length_app in *.
    destruct (pair_read fuel k kv d w w1 w2 t w3 c_rbrace pairs r u Hw Hk Hw1 Hw2 Ht Hg ltac:(lia) (or_intror eq_refl)) as (r' & E).
    exists r'. rewrite <- !app_assoc. cbn [app]. rewrite <- !app_assoc. by rewrite E.
  - intros k kv d w w1 w2 t w3 l ts Hw Hk Hw1 Hw2 _ Ht Hg _ Hts fuel [|n] pairs r u Hf Hn; [lia|]. rewrite !length_app in *. cbn [length] in *. rewrite !length_app in *. cbn [length] in *.
    destruct (pair_read fuel k kv d w w1 w2 t w3 c_comma pairs r (ts ++ c_rbrace :: u) Hw Hk Hw1 Hw2 Ht Hg ltac:(lia) (or_introl eq_refl)) as (r' & E).
    destruct (Hts fuel n (pairs ++ [DExpr [DString kv; d]]) r' u) as (r2 & E2); [lia..|]. exists r2. rewrite <- !app_assoc. cbn [app]. rewrite <- !app_assoc. cbn [app].
    rewrite E. cbn [Z.eqb Pos.eqb]. by rewrite E2, <- app_assoc.
Qed.
End Parse.

(** ** Theorem *)

(** A symbol that exists is found, wherever the static [root] points. *)
Lemma symbol_found mainContext type s W M p : world_ok s W → W !! mainContext = Some M → p ∈ M → ∀ r, ∃ r',
  translateCreateSymbol mainContext (name_in s p) type mainContext true (set_root r s) = Ok (p, set_root r' s).
Proof.
  intros Hw HM Hp r. pose proof (world_ordered _ _ _ _ Hw HM) as Ho. pose proof (or_nonempty _ _ Ho p Hp) as Hne.
  destruct (create_ok mainContext (name_in s p) type (set_root r s) W mainContext M (set_root_world _ _ _ Hw) HM Hne) as [(a & r' & Ha & Hn & _ & E)|[Hno _]]; [|by destruct (Hno p Hp)].
  assert (a = p) as -> by by apply (names_inj s M). by exists r'.
Qed.

(** C35: [json-parse] reads the texts of the JSON grammar (Jsongrammar.v, independent of the parser): integers (the
    nearest 64-bit integer), decimal numbers (the nearest double), strings with all escapes as UTF-8, arrays as
    lists, objects as association lists with strings for keys, [true], [false] and [null] as symbols of MAIN, with
    white space anywhere.  Left out are the texts the parser does not read so: surrogate pairs, a carriage return
    directly behind a number, numbers of more than 1024 characters ([json_text false]; the examples below show the
    first two on texts of [json_text true]), and locales with another decimal point than a full stop.  A number that
    is the whole text must be followed by one of the characters [ends_number] accepts, the terminating 0 among them.
    No error is recorded, what stands behind the value is left, and no symbol but the static root of the trees is
    touched when [false] and [null] are symbols of MAIN already. *)
Theorem p_JSONparse_reads mainContext trueSymbol falseSymbol nullSymbol s W M err fuel d w t u :
  world_ok s W → W !! mainContext = Some M →
  falseSymbol ∈ M → name_in s falseSymbol = "false"%string → nullSymbol ∈ M → name_in s nullSymbol = "null"%string →
  json_white w → json_text false falseSymbol nullSymbol trueSymbol d t → followed d u → (length t < fuel)%nat →
  ∃ r, p_JSONparse 46 mainContext trueSymbol fuel (w ++ t ++ u) (JState err s) = Ok (Some (d, u), JState None (set_root r s)).
Proof.
  intros Hw HM Hf Hfn Hn Hnn Hwh Ht Hu Hlen.
  pose proof (symbol_found mainContext CELL_SYMBOL s W M _ Hw HM Hf) as Ef. rewrite Hfn in Ef.
  pose proof (symbol_found mainContext CELL_SYMBOL s W M _ Hw HM Hn) as En. rewrite Hnn in En.
  destruct (texts_read mainContext trueSymbol falseSymbol nullSymbol (length (w ++ t ++ u)) s None Ef En) as [H _].
  destruct (H d t Ht fuel w (root s) u Hwh Hlen Hu) as (r & E). exists r. unfold p_JSONparse. cbn [jworld].
  rewrite <- E. by rewrite set_root_id.
Qed.

(** ** Examples *)

Module Sample.
(** The store of Balance.v with the symbols [false] (6) and [null] (7). *)
Definition created_in (name : string) (s : store) : store :=
  match translateCreateSymbol 2 name CELL_SYMBOL 2 true s with Ok (_, s) => s | _ => s end.
Definition json_store : store := created_in "null" (created_in "false" demo).

Lemma json_store_ok : ∃ W M, world_ok json_store W ∧ W !! 2%nat = Some M ∧ 6%nat ∈ M ∧ 7%nat ∈ M.
Proof.
  destruct (create_ok 2 "false" CELL_SYMBOL demo demo_contexts 2 [3; 4; 2]%nat demo_world eq_refl ltac:(done)) as [(a & r & Ha & Hn & _)|(_ & s1 & A1 & E1 & [Hw1 _ _ Hin1 _])].
  { exfalso. repeat (apply elem_of_cons in Ha as [->|Ha]; [by vm_compute in Hn|]). by apply elem_of_nil in Ha. }
  assert (Es : s1 = created_in "false" demo) by (unfold created_in; by rewrite E1).
  destruct (create_ok 2 "null" CELL_SYMBOL s1 _ 2 A1 Hw1 (lookup_insert_eq _ _ _) ltac:(done)) as [(a & r & _ & _ & _ & E2)|(_ & s2 & A2 & E2 & [Hw2 _ _ Hin2 _])].
  { exfalso. rewrite Es in E2. apply (f_equal (λ r, match r with Ok (p, s) => Some (next s) | _ => None end)) in E2. cbn [next set_root] in E2. vm_compute in E2. congruence. }
  assert (Es2 : s2 = json_store) by (unfold json_store, created_in at 1; by rewrite <- Es, E2).
  rewrite Es2 in *. eexists _, A2. split; [exact Hw2|]. split; [apply lookup_insert_eq|]. split.
  - apply Hin2. right. apply Hin1. by left.
  - apply Hin2. left. rewrite Es. reflexivity.
Qed.
End Sample.

(** [[1, {"a":null}]] *)
Lemma sample_text : json_text false 6 7 1 (DExpr [DLong 1; DExpr [DExpr [DString [97]; DSymbol 7]]])
  [91; 49; 44; 32; 123; 34; 97; 34; 58; 110; 117; 108; 108; 125; 93].
Proof.
  refine (json_array false 6 7 1 [DLong 1; DExpr [DExpr [DString [97]; DSymbol 7]]] [49; 44; 32; 123; 34; 97; 34; 58; 110; 117; 108; 108; 125] _).
  refine (elements_more false 6 7 1 (DLong 1) [] [49] [] [DExpr [DExpr [DString [97]; DSymbol 7]]] [32; 123; 34; 97; 34; 58; 110; 117; 108; 108; 125] _ _ _ _).
  - constructor.
  - apply json_number. refine (number_int false [] [49] 1 _ _ _); [by left|split; [done|by repeat constructor]|cbn; lia].
  - split; [constructor|done].
  - refine (elements_last false 6 7 1 _ [32] [123; 34; 97; 34; 58; 110; 117; 108; 108; 125] [] _ _ _); [repeat constructor; lia| |split; [constructor|done]].
    refine (json_object false 6 7 1 _ [34; 97; 34; 58; 110; 117; 108; 108] _).
    refine (members_last false 6 7 1 [97] [97] (DSymbol 7) [] [] [] [110; 117; 108; 108] [] _ _ _ _ _ _); [constructor|..|by split; [constructor|]].
    + apply text_char; [done..|constructor].
    + constructor.
    + constructor.
    + apply json_null.
Qed.

Lemma p_JSONparse_reads_witness : ∃ r,
  p_JSONparse 46 2 1 20 [91; 49; 44; 32; 123; 34; 97; 34; 58; 110; 117; 108; 108; 125; 93; 0] (JState None Sample.json_store) =
    Ok (Some (DExpr [DLong 1; DExpr [DExpr [DString [97]; DSymbol 7]]], [0]), JState None (set_root r Sample.json_store)).
Proof.
  destruct Sample.json_store_ok as (W & M & Hw & HM & Hf & Hn).
  apply (p_JSONparse_reads 2 1 6 7 Sample.json_store W M None 20 _ [] [91; 49; 44; 32; 123; 34; 97; 34; 58; 110; 117; 108; 108; 125; 93] [0] Hw HM Hf).
  - vm_compute. reflexivity.
  - exact Hn.
  - vm_compute. reflexivity.
  - constructor.
  - exact sample_text.
  - discriminate.
  - cbn. lia.
Defined.

(** What [p_JSONparse_reads] leaves out are texts of the whole grammar that the parser does not read as meant.  A
    carriage return behind a number is an error: the line feed is tested twice, in [[1\r\n]]. *)
Example json_carriage_return : json_text true 6 7 1 (DExpr [DLong 1]) [91; 49; 13; 10; 93] ∧
  p_JSONparse 46 2 1 20 [91; 49; 13; 10; 93; 0] (JState None Sample.json_store) =
    Ok (None, JState (Some (ERR_JSON_INVALID_NUMBER, 2)) Sample.json_store).
Proof.
  split; [|vm_compute; reflexivity]. refine (json_array true 6 7 1 [DLong 1] [49; 13; 10] _).
  refine (elements_last true 6 7 1 (DLong 1) [] [49] [13; 10] _ _ _); [constructor| |split; [repeat constructor; lia|done]].
  apply json_number. refine (number_int true [] [49] 1 _ _ _); [by left|split; [done|by repeat constructor]|done].
Qed.

(** A number of 1025 digits is an error too. *)
Example json_long_number : let t := replicate 1025 49 in json_text true 6 7 1 (DLong INT64_MAX) t ∧
  p_JSONparse 46 2 1 20 (t ++ [0]) (JState None Sample.json_store) =
    Ok (None, JState (Some (ERR_JSON_INVALID_NUMBER, 1025)) Sample.json_store).
Proof.
  split; [|vm_compute; reflexivity]. apply json_number.
  replace INT64_MAX with (saturate (chars_val (replicate 1025 49))) by by vm_compute.
  refine (number_int true [] (replicate 1025 49) _ _ _ _); [by left|split; [done|by apply Forall_replicate]|done].
Qed.

(** A string cut off behind a backslash is read behind its end. *)
Example json_overrun : p_JSONparse 46 2 1 20 [34; 97; 92; 0] (JState None Sample.json_store) = UB.
Proof. vm_compute. reflexivity. Qed.

(** A surrogate pair is not one character: ["\ud83d\ude00"] becomes six bytes that are no UTF-8. *)
Example json_surrogates : let t := [34; 92; 117; 100; 56; 51; 100; 92; 117; 100; 101; 48; 48; 34] in
  json_text true 6 7 1 (DString [0xF0; 0x9F; 0x98; 0x80]) t ∧
  p_JSONparse 46 2 1 20 (t ++ [0]) (JState None Sample.json_store) =
    Ok (Some (DString [0xED; 0xA0; 0xBD; 0xED; 0xB8; 0x80], [0]), JState None Sample.json_store).
Proof.
  split; [|vm_compute; reflexivity].
  refine (json_string true 6 7 1 [92; 117; 100; 56; 51; 100; 92; 117; 100; 101; 48; 48] _ _).
  refine (text_pair true [100; 56; 51; 100] [100; 101; 48; 48] [] [] _ _ _ _ _ _); try done; [split; [done|by repeat constructor]..|constructor].
Qed.

(** Where the decimal point of the locale is a comma, [1.5] is read as 1. *)
Example json_decimal_comma :
  p_JSONparse 44 2 1 20 [49; 46; 53; 0] (JState None Sample.json_store) = p_JSONparse 44 2 1 20 [49; 46; 48; 0] (JState None Sample.json_store).
Proof. vm_compute. reflexivity. Qed.

(** A comma before the closing bracket and text behind the value are accepted. *)
Example json_trailing :
  p_JSONparse 46 2 1 20 [91; 49; 44; 93; 120; 0] (JState None Sample.json_store) = Ok (Some (DExpr [DLong 1], [120; 0]), JState None Sample.json_store).
Proof. vm_compute. reflexivity. Qed.
