(* ===== verification/Web.v ===== *)
(** * Base64 and percent codes (src/nl-web.c)

    Text and data are lists of bytes, texts with their terminating 0; reads are bounds-checked, and so is what is written
    to the buffers that the callers allocate. *)

From stdpp Require Import base list numbers tactics.
From Stdlib Require Import ZArith Lia.
From S2P Require Import Prelude Utf8 Token Tokens.
From stdpp Require Import list.

#[global] Open Scope Z_scope.

(** ["A-Za-z0-9+/"] *)
Definition table64 : list Z :=
  (Z.of_nat <$> seq 65 26) ++ (Z.of_nat <$> seq 97 26) ++ (Z.of_nat <$> seq 48 10) ++ [43; 47].

Definition c_equals := 61.

(** ** Decoding *)

(** The next character shifts its six bits in; others leave [x] as it is. *)
Definition decode_char (x c : Z) : Z :=
  if (65 <=? c) && (c <=? 90) then Z.shiftl x 6 + (c - 65)
  else if (97 <=? c) && (c <=? 122) then Z.shiftl x 6 + (c - 97 + 26)
  else if (48 <=? c) && (c <=? 57) then Z.shiftl x 6 + (c - 48 + 52)
  else if c =? 43 then Z.shiftl x 6 + 62
  else if c =? 47 then Z.shiftl x 6 + 63
  else if c =? c_equals then Z.shiftl x 6
  else x.

(** The three bytes of four characters. *)
Definition decodeQuantum (src : list Z) : result (list Z) :=
  a ← rd src 0; b ← rd src 1; c ← rd src 2; d ← rd src 3;
  let x := uint32 (decode_char (uint32 (decode_char (uint32 (decode_char (uint32 (decode_char 0 a)) b)) c)) d) in
  Ok [Z.land (Z.shiftr (Z.shiftr x 8) 8) 255; Z.land (Z.shiftr x 8) 255; Z.land x 255].

(** The characters before the first [=] or the end of the text. *)
Fixpoint text_length (src : list Z) : result nat :=
  match src with
  | [] => UB
  | c :: src => if (c =? c_equals) || (c =? 0) then Ok 0%nat else n ← text_length src; Ok (S n)
  end.

(** The number of [=] from here on. *)
Fixpoint equals_signs (src : list Z) : result nat :=
  match src with
  | [] => UB
  | c :: src => if c =? c_equals then n ← equals_signs src; Ok (S n) else Ok 0%nat
  end.

(** The first [n] quanta, behind what is in [dest], which may have [cap] bytes. *)
Fixpoint decode_quanta (n cap : nat) (src dest : list Z) : result (list Z * list Z) :=
  match n with
  | O => Ok (src, dest)
  | S n =>
      q ← decodeQuantum src;
      dest ← put_all cap dest q;
      decode_quanta n cap (drop 4 src) dest
  end.

(** [length], [equalsTerm] and [numQuantums] are C ints in the code: texts of 2^31 characters or more, where they overflow,
    are not modelled. *)
Definition Curl_base64_decode (cap : nat) (src : list Z) : result (list Z) :=
  len ← text_length src;
  equalsTerm ← equals_signs (drop len src);
  let equalsTerm := Nat.min equalsTerm 3 in
  let numQuantums := ((len + equalsTerm) / 4)%nat in
  if Nat.eqb numQuantums 0 then Ok []
  else
    '(src, dest) ← decode_quanta (numQuantums - 1) cap src [];
    lastQuantum ← decodeQuantum src;
    put_all cap dest (take (3 - equalsTerm) lastQuantum).

(** ** Encoding *)

Definition char64 (i : Z) : result Z := rd table64 (Z.to_nat i).

(** The indices of the characters for three bytes. *)
Definition obuf (a b c : Z) : Z * Z * Z * Z :=
  (Z.shiftr (Z.land a 0xFC) 2,
   Z.lor (Z.shiftl (Z.land a 0x03) 4) (Z.shiftr (Z.land b 0xF0) 4),
   Z.lor (Z.shiftl (Z.land b 0x0F) 2) (Z.shiftr (Z.land c 0xC0) 6),
   Z.land c 0x3F).

(** [snprintf(output, 5, ...)]: the four characters and a 0. *)
Definition put_quantum (cap : nat) (output q : list Z) : result (list Z) :=
  output ← put_all cap output q;
  if decide (length output < cap)%nat then Ok output else UB.

Fixpoint encode_loop (cap : nat) (indata output : list Z) : result (list Z) :=
  match indata with
  | [] => Ok output
  | [a] =>
      let '(o0, o1, _, _) := obuf a 0 0 in
      t0 ← char64 o0; t1 ← char64 o1;
      put_quantum cap output [t0; t1; c_equals; c_equals]
  | [a; b] =>
      let '(o0, o1, o2, _) := obuf a b 0 in
      t0 ← char64 o0; t1 ← char64 o1; t2 ← char64 o2;
      put_quantum cap output [t0; t1; t2; c_equals]
  | a :: b :: c :: indata =>
      let '(o0, o1, o2, o3) := obuf a b c in
      t0 ← char64 o0; t1 ← char64 o1; t2 ← char64 o2; t3 ← char64 o3;
      output ← put_quantum cap output [t0; t1; t2; t3];
      encode_loop cap indata output
  end.

(** For data that is not empty; the buffer has [insize*4/3+4] bytes. *)
Definition Curl_base64_encode (inp : list Z) : result (list Z) :=
  encode_loop (length inp * 4 / 3 + 4) inp [].

(** ** The primitives *)

(** [base64] behind the evaluation of its arguments; the buffer of a string cell ends with a 0. *)
Definition p_base64Enc (inPtr : list Z) (emptyFlag : bool) : result (list Z) :=
  match inPtr with
  | [] => Ok (if emptyFlag then [] else [c_equals; c_equals; c_equals; c_equals])
  | _ => Curl_base64_encode inPtr
  end.

Definition p_base64Dec (inPtr : list Z) : result (list Z) :=
  let cap := (length inPtr * 3 / 4 + 9)%nat in
  out ← Curl_base64_decode cap (inPtr ++ [0]);
  if decide (length out < cap)%nat then Ok out else UB.

(** ** Percent codes *)

(** [dest] may have [cap] bytes. *)
Fixpoint url_decode (fuel cap : nat) (src dest : list Z) : result (list Z) :=
  match fuel with
  | O => NoFuel
  | S fuel =>
      c ← rd src 0;
      if c =? 0 then if decide (length dest < cap)%nat then Ok dest else UB
      else
        code ← (if c =? 37 then next_are isxdigit 2 (drop 1 src) else Ok false);
        if code : bool then
          dest ← put_byte cap dest (uint8 (strtol_exact 16 (take 2 (drop 1 src))));
          url_decode fuel cap (drop 3 src) dest
        else
          dest ← put_byte cap dest c;
          url_decode fuel cap (drop 1 src) dest
  end.

(** ** Six bits and a character *)

(** What can be checked for every byte. *)
Lemma byte_all (P : Z → bool) : forallb P (Z.of_nat <$> seq 0 256) = true → ∀ a, byte_ok a → P a = true.
Proof.
  intros H a Ha. rewrite forallb_forall in H. apply H, list_elem_of_In, list_elem_of_fmap. exists (Z.to_nat a).
  unfold byte_ok in Ha. split; [lia|]. apply elem_of_seq. lia.
Qed.

Lemma byte_parts a : byte_ok a →
  Z.shiftr (Z.land a 0xFC) 2 = a / 4 ∧ Z.shiftl (Z.land a 0x03) 4 = a mod 4 * 16 ∧ Z.shiftr (Z.land a 0xF0) 4 = a / 16 ∧
  Z.shiftl (Z.land a 0x0F) 2 = a mod 16 * 4 ∧ Z.shiftr (Z.land a 0xC0) 6 = a / 64 ∧ Z.land a 0x3F = a mod 64.
Proof.
  intros Ha. pose proof (byte_all (λ a, (Z.shiftr (Z.land a 0xFC) 2 =? a / 4) && (Z.shiftl (Z.land a 0x03) 4 =? a mod 4 * 16) && (Z.shiftr (Z.land a 0xF0) 4 =? a / 16) &&
    (Z.shiftl (Z.land a 0x0F) 2 =? a mod 16 * 4) && (Z.shiftr (Z.land a 0xC0) 6 =? a / 64) && (Z.land a 0x3F =? a mod 64)) ltac:(by vm_compute) a Ha) as H.
  cbv beta in H. rewrite !andb_true_iff, !Z.eqb_eq in H. tauto.
Qed.

Lemma lor_high m k v : 0 ≤ k → 0 ≤ v < 2 ^ k → Z.lor (m * 2 ^ k) v = m * 2 ^ k + v.
Proof. intros Hk Hv. rewrite <- (lor_pack k m v) by done. by rewrite Z.shiftl_mul_pow2. Qed.

Lemma obuf_parts a b c : byte_ok a → byte_ok b → byte_ok c →
  obuf a b c = (a / 4, a mod 4 * 16 + b / 16, b mod 16 * 4 + c / 64, c mod 64).
Proof.
  intros Ha Hb Hc. unfold obuf. destruct (byte_parts a Ha) as (-> & -> & _), (byte_parts b Hb) as (_ & _ & -> & -> & _), (byte_parts c Hc) as (_ & _ & _ & _ & -> & ->).
  unfold byte_ok in *. pose proof (Z.div_lt_upper_bound b 16 16). pose proof (Z.div_lt_upper_bound c 64 4). pose proof (Z.div_pos b 16). pose proof (Z.div_pos c 64).
  rewrite (lor_high _ 4), (lor_high _ 2) by (cbn; lia). done.
Qed.

(** A character of the table and what it decodes to. *)
Lemma char64_ok i : 0 ≤ i < 64 → ∃ t, char64 i = Ok t ∧ t ≠ c_equals ∧ t ≠ 0 ∧ ∀ x, decode_char x t = x * 64 + i.
Proof.
  intros Hi. assert (H : Forall (λ i, ∃ t, char64 i = Ok t ∧ t ≠ c_equals ∧ t ≠ 0 ∧ ∀ x, decode_char x t = Z.shiftl x 6 + i) (Z.of_nat <$> seq 0 64)).
  { cbn. repeat (apply List.Forall_cons); try apply List.Forall_nil; eexists; (split; [reflexivity|]); (split; [discriminate|]); (split; [discriminate|]); intros x; reflexivity. }
  rewrite Forall_forall in H. destruct (H i) as (t & H1 & H2 & H3 & H4).
  { apply list_elem_of_fmap. exists (Z.to_nat i). split; [lia|]. apply elem_of_seq. lia. }
  exists t. split; [done|]. split; [done|]. split; [done|]. intros x. rewrite H4, Z.shiftl_mul_pow2 by lia. done.
Qed.

Lemma decode_equals x : decode_char x c_equals = x * 64.
Proof. unfold decode_char. cbn. rewrite Z.shiftl_mul_pow2 by lia. done. Qed.

(** Four characters with six bits each. *)
Lemma quantum_bytes t0 t1 t2 t3 o0 o1 o2 o3 u : (∀ x, decode_char x t0 = x * 64 + o0) → (∀ x, decode_char x t1 = x * 64 + o1) →
  (∀ x, decode_char x t2 = x * 64 + o2) → (∀ x, decode_char x t3 = x * 64 + o3) →
  0 ≤ o0 < 64 → 0 ≤ o1 < 64 → 0 ≤ o2 < 64 → 0 ≤ o3 < 64 →
  decodeQuantum (t0 :: t1 :: t2 :: t3 :: u) = Ok [o0 * 4 + o1 / 16; o1 mod 16 * 16 + o2 / 4; o2 mod 4 * 64 + o3].
Proof.
  intros H0 H1 H2 H3 B0 B1 B2 B3. unfold decodeQuantum. cbn [rd lookup list_lookup mbind result_bind].
  rewrite H0, H1, H2, H3. rewrite (wrapU_small 32 (0 * 64 + o0)) by lia. rewrite (wrapU_small 32 (_ * 64 + o1)) by lia.
  rewrite (wrapU_small 32 (_ * 64 + o2)) by lia. rewrite (wrapU_small 32 (_ * 64 + o3)) by lia.
  set (x := (((0 * 64 + o0) * 64 + o1) * 64 + o2) * 64 + o3).
  change 255 with (Z.ones 8). rewrite !Z.land_ones, !Z.shiftr_div_pow2 by lia. change (2 ^ 8) with 256.
  assert (E0 : x / 256 / 256 = o0 * 4 + o1 / 16) by (unfold x; Z.to_euclidean_division_equations; lia).
  assert (E1 : (x / 256) mod 256 = o1 mod 16 * 16 + o2 / 4) by (unfold x; Z.to_euclidean_division_equations; lia).
  assert (E2 : x mod 256 = o2 mod 4 * 64 + o3) by (unfold x; Z.to_euclidean_division_equations; lia).
  rewrite E0, E1, E2, Z.mod_small; [done|]. Z.to_euclidean_division_equations; lia.
Qed.

(** ** Texts that encode data *)

(** [t] is the character of the index [i]. *)
Definition code (t i : Z) : Prop := 0 ≤ i < 64 ∧ t ≠ c_equals ∧ t ≠ 0 ∧ ∀ x, decode_char x t = x * 64 + i.

Inductive encodes : list Z → list Z → Prop :=
  | encodes_nil : encodes [] []
  | encodes_one a t0 t1 : code t0 (a / 4) → code t1 (a mod 4 * 16) → encodes [a] [t0; t1; c_equals; c_equals]
  | encodes_two a b t0 t1 t2 : code t0 (a / 4) → code t1 (a mod 4 * 16 + b / 16) → code t2 (b mod 16 * 4) →
      encodes [a; b] [t0; t1; t2; c_equals]
  | encodes_more a b c t0 t1 t2 t3 s t : code t0 (a / 4) → code t1 (a mod 4 * 16 + b / 16) → code t2 (b mod 16 * 4 + c / 64) →
      code t3 (c mod 64) → encodes s t → encodes (a :: b :: c :: s) (t0 :: t1 :: t2 :: t3 :: t).

Lemma code_ok i : 0 ≤ i < 64 → ∃ t, char64 i = Ok t ∧ code t i.
Proof. intros Hi. destruct (char64_ok i Hi) as (t & E & H). by exists t. Qed.

Lemma put_quantum_ok cap out q : (length out + length q < cap)%nat → put_quantum cap out q = Ok (out ++ q).
Proof.
  intros H. unfold put_quantum. rewrite put_all_ok by lia. cbn [mbind result_bind]. rewrite decide_True; [done|]. rewrite length_app. lia.
Qed.

Lemma groups_more n : ((S (S (S n)) + 2) / 3 = S ((n + 2) / 3))%nat.
Proof. replace (S (S (S n)) + 2)%nat with (n + 2 + 1 * 3)%nat by lia. rewrite Nat.div_add by lia. lia. Qed.

Lemma encode_ok k : ∀ s cap out, (length s ≤ k)%nat → Forall byte_ok s → (length out + 4 * ((length s + 2) / 3) < cap)%nat →
  ∃ t, encode_loop cap s out = Ok (out ++ t) ∧ encodes s t ∧ length t = (4 * ((length s + 2) / 3))%nat.
Proof.
  assert (B0 : byte_ok 0) by (unfold byte_ok; lia).
  assert (R : ∀ a b, byte_ok a → byte_ok b → 0 ≤ a / 4 < 64 ∧ 0 ≤ a mod 4 * 16 + b / 16 < 64 ∧ 0 ≤ a mod 16 * 4 + b / 64 < 64 ∧ 0 ≤ a mod 64 < 64).
  { intros a b Ha Hb. unfold byte_ok in *. Z.to_euclidean_division_equations; lia. }
  induction k as [|k IH]; intros s cap out Hk Hs Hc; [destruct s; [|cbn in Hk; lia]; exists []; rewrite app_nil_r; split; [done|split; [constructor|done]]|].
  destruct s as [|a [|b [|c s]]].
  - exists []. rewrite app_nil_r. split; [done|]. split; [constructor|done].
  - apply Forall_cons in Hs as [Ha _]. cbn [encode_loop]. rewrite obuf_parts by done. destruct (R a 0 Ha B0) as (R0 & R1 & _). rewrite Z.add_0_r in *.
    destruct (code_ok _ R0) as (t0 & -> & C0), (code_ok _ R1) as (t1 & -> & C1). cbn [mbind result_bind]. rewrite put_quantum_ok by (cbn in *; lia).
    eexists. split; [done|]. split; [by constructor|done].
  - apply Forall_cons in Hs as [Ha Hs]. apply Forall_cons in Hs as [Hb _]. cbn [encode_loop]. rewrite obuf_parts by done.
    destruct (R a b Ha Hb) as (R0 & R1 & _), (R b 0 Hb B0) as (_ & _ & R2 & _). rewrite Z.add_0_r in *.
    destruct (code_ok _ R0) as (t0 & -> & C0), (code_ok _ R1) as (t1 & -> & C1), (code_ok _ R2) as (t2 & -> & C2). cbn [mbind result_bind].
    rewrite put_quantum_ok by (cbn in *; lia). eexists. split; [done|]. split; [by constructor|done].
  - apply Forall_cons in Hs as [Ha Hs]. apply Forall_cons in Hs as [Hb Hs]. apply Forall_cons in Hs as [Hcb Hs]. cbn [encode_loop]. rewrite obuf_parts by done.
    destruct (R a b Ha Hb) as (R0 & R1 & _), (R b c Hb Hcb) as (_ & _ & R2 & _), (R c 0 Hcb B0) as (_ & _ & _ & R3).
    destruct (code_ok _ R0) as (t0 & -> & C0), (code_ok _ R1) as (t1 & -> & C1), (code_ok _ R2) as (t2 & -> & C2), (code_ok _ R3) as (t3 & -> & C3). cbn [mbind result_bind].
    cbn [length] in *. rewrite groups_more in *. rewrite put_quantum_ok by (cbn [length]; lia). cbn [mbind result_bind].
    destruct (IH s cap (out ++ [t0; t1; t2; t3])) as (t & -> & Ht & Hl); [lia|done|rewrite length_app; cbn [length]; lia|].
    exists (t0 :: t1 :: t2 :: t3 :: t). rewrite <- app_assoc. split; [done|]. split; [by constructor|]. cbn [length]. lia.
Qed.

(** What the decoder finds in a text that encodes [s]: [m] quanta and a last one, of which [3 - equalsTerm] bytes are taken. *)
Definition decodes (s t : list Z) : Prop := ∃ len equalsTerm m,
  text_length (t ++ [0]) = Ok len ∧ equals_signs (drop len (t ++ [0])) = Ok equalsTerm ∧ (equalsTerm ≤ 2)%nat ∧ (len + equalsTerm = 4 * S m)%nat ∧
  ∀ cap dest, (length dest + length s ≤ cap)%nat → ∃ src dest' q, decode_quanta m cap (t ++ [0]) dest = Ok (src, dest') ∧
    decodeQuantum src = Ok q ∧ put_all cap dest' (take (3 - equalsTerm) q) = Ok (dest ++ s).

Lemma code_length t i src : code t i → text_length (t :: src) = (n ← text_length src; Ok (S n)).
Proof. intros (_ & H1 & H2 & _). cbn [text_length]. by rewrite (proj2 (Z.eqb_neq t _) H1), (proj2 (Z.eqb_neq t _) H2). Qed.

Lemma code_quantum t0 t1 t2 t3 a b c i0 i1 i2 i3 u : byte_ok a → byte_ok b → byte_ok c →
  (∀ x, decode_char x t0 = x * 64 + i0) → (∀ x, decode_char x t1 = x * 64 + i1) → (∀ x, decode_char x t2 = x * 64 + i2) → (∀ x, decode_char x t3 = x * 64 + i3) →
  i0 = a / 4 → i1 = a mod 4 * 16 + b / 16 → i2 = b mod 16 * 4 + c / 64 → i3 = c mod 64 →
  decodeQuantum (t0 :: t1 :: t2 :: t3 :: u) = Ok [a; b; c].
Proof.
  intros Ha Hb Hc H0 H1 H2 H3 -> -> -> ->. unfold byte_ok in *. rewrite (quantum_bytes _ _ _ _ _ _ _ _ u H0 H1 H2 H3) by (Z.to_euclidean_division_equations; lia).
  do 2 f_equal; [|f_equal; [|f_equal]]; Z.to_euclidean_division_equations; lia.
Qed.

Lemma encodes_decodes s t : encodes s t → Forall byte_ok s → s ≠ [] → decodes s t.
Proof.
  assert (B0 : byte_ok 0) by (unfold byte_ok; lia).
  assert (E0 : ∀ x, decode_char x c_equals = x * 64 + 0) by (intros x; rewrite decode_equals; lia).
  induction 1 as [|a t0 t1 C0 C1|a b t0 t1 t2 C0 C1 C2|a b c t0 t1 t2 t3 s t C0 C1 C2 C3 Hst IH]; intros Hs Hne; [done|..].
  - apply Forall_cons in Hs as [Ha _]. exists 2%nat, 2%nat, 0%nat. cbn [app].
    split; [by rewrite (code_length _ _ _ C0), (code_length _ _ _ C1)|]. split; [done|]. split; [done|]. split; [done|]. intros cap dest Hd.
    eexists _, dest, [a; 0; 0]. split; [done|]. destruct C0 as (_ & _ & _ & D0), C1 as (_ & _ & _ & D1).
    split; [|by apply put_all_ok]. eapply code_quantum; eauto; change (0 / 16) with 0; change (0 mod 16 * 4 + 0 / 64) with 0; lia.
  - apply Forall_cons in Hs as [Ha Hs]. apply Forall_cons in Hs as [Hb _]. exists 3%nat, 1%nat, 0%nat. cbn [app].
    split; [by rewrite (code_length _ _ _ C0), (code_length _ _ _ C1), (code_length _ _ _ C2)|]. split; [done|]. split; [lia|]. split; [done|]. intros cap dest Hd.
    eexists _, dest, [a; b; 0]. split; [done|]. destruct C0 as (_ & _ & _ & D0), C1 as (_ & _ & _ & D1), C2 as (_ & _ & _ & D2).
    split; [|by apply put_all_ok]. eapply code_quantum; eauto; change (0 / 64) with 0; lia.
  - apply Forall_cons in Hs as [Ha Hs]. apply Forall_cons in Hs as [Hb Hs]. apply Forall_cons in Hs as [Hc Hs]. unfold decodes. cbn [app].
    rewrite (code_length _ _ _ C0), (code_length _ _ _ C1), (code_length _ _ _ C2), (code_length _ _ _ C3).
    destruct C0 as (_ & _ & _ & D0), C1 as (_ & _ & _ & D1), C2 as (_ & _ & _ & D2), C3 as (_ & _ & _ & D3).
    assert (Q : ∀ u, decodeQuantum (t0 :: t1 :: t2 :: t3 :: u) = Ok [a; b; c]) by (intros u; eapply code_quantum; eauto).
    destruct (decide (s = [])) as [->|Hs'].
    { inversion Hst; subst. exists 4%nat, 0%nat, 0%nat. split; [done|]. split; [done|]. split; [lia|]. split; [done|]. intros cap dest Hd.
      eexists _, dest, [a; b; c]. split; [done|]. split; [apply Q|]. by apply put_all_ok. }
    destruct (IH Hs Hs') as (len & eq & m & H1 & H2 & H3 & H4 & H5). exists (S (S (S (S len)))), eq, (S m). rewrite H1.
    split; [done|]. split; [done|]. split; [done|]. split; [lia|]. intros cap dest Hd. cbn [length] in Hd.
    destruct (H5 cap (dest ++ [a; b; c])) as (src & dest' & q & H6 & H7 & H8); [rewrite length_app; cbn [length]; lia|].
    exists src, dest', q. cbn [decode_quanta]. rewrite Q. cbn [mbind result_bind]. rewrite put_all_ok by (cbn [length]; lia). cbn [mbind result_bind drop].
    split; [done|]. split; [done|]. by rewrite H8, <- app_assoc.
Qed.

(** ** Any text *)

Lemma text_length_bound t : ∃ n, text_length (t ++ [0]) = Ok n ∧ (n ≤ length t)%nat.
Proof.
  induction t as [|c t (n & IH & Hn)]; [by exists 0%nat|]. cbn [app text_length]. destruct (_ || _); [exists 0%nat; split; [done|lia]|].
  rewrite IH. exists (S n). split; [done|]. cbn. lia.
Qed.

Lemma equals_signs_bound t : ∃ n, equals_signs (t ++ [0]) = Ok n ∧ (n ≤ length t)%nat.
Proof.
  induction t as [|c t (n & IH & Hn)]; [by exists 0%nat|]. cbn [app equals_signs]. destruct (_ =? _); [|exists 0%nat; split; [done|lia]].
  rewrite IH. exists (S n). split; [done|]. cbn. lia.
Qed.

Lemma decodeQuantum_ok src : (4 ≤ length src)%nat → ∃ q, decodeQuantum src = Ok q ∧ length q = 3%nat.
Proof. intros H. do 4 (destruct src as [|? src]; [cbn in H; lia|]). by eexists. Qed.

Lemma decode_quanta_ok m : ∀ cap src dest, (4 * m ≤ length src)%nat → (length dest + 3 * m ≤ cap)%nat →
  ∃ dest', decode_quanta m cap src dest = Ok (drop (4 * m) src, dest') ∧ length dest' = (length dest + 3 * m)%nat.
Proof.
  induction m as [|m IH]; intros cap src dest Hs Hd; [exists dest; rewrite drop_0; split; [done|lia]|]. cbn [decode_quanta].
  destruct (decodeQuantum_ok src) as (q & -> & Hq); [lia|]. cbn [mbind result_bind]. rewrite put_all_ok by lia. cbn [mbind result_bind].
  destruct (IH cap (drop 4 src) (dest ++ q)) as (dest' & -> & Hl); [rewrite length_drop; lia|rewrite length_app; lia|].
  exists dest'. rewrite drop_drop, Hl, length_app. split; [do 3 f_equal; lia|lia].
Qed.

(** ** Theorems *)

(** C40: [base64-dec] gives back what [base64-enc] has encoded, for data of any length, the empty data in both
    of its forms included; the encoder stays within the buffer it allocates, and its text has four characters for
    every three bytes begun.  The counters of the code are C ints and numbers without bound here, so that this is about
    texts of less than 2^31 characters. *)
Theorem base64_roundtrip inPtr emptyFlag : Forall byte_ok inPtr →
  ∃ t, p_base64Enc inPtr emptyFlag = Ok t ∧ p_base64Dec t = Ok inPtr ∧
    (inPtr ≠ [] → encodes inPtr t ∧ length t = (4 * ((length inPtr + 2) / 3))%nat).
Proof.
  intros Hs. destruct (decide (inPtr = [])) as [->|Hne]; [destruct emptyFlag; eexists; (split; [done|]); by split|].
  assert (Hcap : (4 * ((length inPtr + 2) / 3) < length inPtr * 4 / 3 + 4)%nat).
  { pose proof (Nat.div_mod (length inPtr + 2) 3). pose proof (Nat.mod_upper_bound (length inPtr + 2) 3).
    pose proof (Nat.div_mod (length inPtr * 4) 3). pose proof (Nat.mod_upper_bound (length inPtr * 4) 3). lia. }
  destruct (encode_ok _ inPtr (length inPtr * 4 / 3 + 4) [] (le_n _) Hs Hcap) as (t & E & He & Hl). exists t.
  split; [|split; [|done]].
  { unfold p_base64Enc, Curl_base64_encode. by destruct inPtr. }
  destruct (encodes_decodes _ _ He Hs Hne) as (len & eq & m & H1 & H2 & H3 & H4 & H5).
  assert (Hroom : (length inPtr < length t * 3 / 4 + 9)%nat).
  { rewrite Hl. pose proof (Nat.div_mod (length inPtr + 2) 3). pose proof (Nat.mod_upper_bound (length inPtr + 2) 3).
    replace (4 * ((length inPtr + 2) / 3) * 3)%nat with ((length inPtr + 2) / 3 * 3 * 4)%nat by lia. rewrite Nat.div_mul by lia. lia. }
  unfold p_base64Dec, Curl_base64_decode. rewrite H1. cbn [mbind result_bind]. rewrite H2. cbn [mbind result_bind]. rewrite (Nat.min_l eq 3) by lia.
  rewrite H4. replace (4 * S m / 4)%nat with (S m) by (rewrite Nat.mul_comm, Nat.div_mul; lia). cbn [Nat.eqb]. replace (S m - 1)%nat with m by lia.
  destruct (H5 (length t * 3 / 4 + 9)%nat []) as (src & dest & q & H6 & H7 & H8); [cbn [length]; lia|]. rewrite H6. cbn [mbind result_bind]. rewrite H7. cbn [mbind result_bind].
  rewrite H8. cbn [mbind result_bind app]. by rewrite decide_True.
Qed.

(** ["Ma"] is ["TWE="]. *)
Lemma base64_roundtrip_witness : Forall byte_ok [77; 97] ∧ p_base64Enc [77; 97] false = Ok [84; 87; 69; 61] ∧ p_base64Dec [84; 87; 69; 61] = Ok [77; 97].
Proof.
  assert (H : Forall byte_ok [77; 97]) by (repeat constructor; unfold byte_ok; lia).
  split; [exact H|]. destruct (base64_roundtrip [77; 97] false H) as (t & E & D & _).
  assert (E' : p_base64Enc [77; 97] false = Ok [84; 87; 69; 61]) by (vm_compute; reflexivity). split; [exact E'|].
  rewrite E' in E. injection E as <-. exact D.
Defined.

(** [base64-dec] stays within the text and within the buffer it allocates, on any text; it answers at most three bytes for
    every four characters. *)
Theorem base64Dec_total inPtr : ∃ out, p_base64Dec inPtr = Ok out ∧ (4 * length out ≤ 3 * length inPtr)%nat.
Proof.
  unfold p_base64Dec, Curl_base64_decode. destruct (text_length_bound inPtr) as (len & -> & Hlen). cbn [mbind result_bind].
  rewrite drop_app_le by done. destruct (equals_signs_bound (drop len inPtr)) as (eq & -> & Heq). rewrite length_drop in Heq. cbn [mbind result_bind].
  set (e := Nat.min eq 3). assert (He : (e ≤ 3 ∧ len + e ≤ length inPtr)%nat) by lia. clearbody e. set (n := ((len + e) / 4)%nat).
  assert (Hn : (4 * n ≤ len + e)%nat) by (unfold n; pose proof (Nat.div_mod (len + e) 4); lia). clearbody n.
  assert (Hcap : (3 * n + 9 ≤ length inPtr * 3 / 4 + 9)%nat).
  { apply Nat.add_le_mono_r, Nat.div_le_lower_bound; lia. }
  set (cap := (length inPtr * 3 / 4 + 9)%nat) in *. clearbody cap.
  destruct (Nat.eqb_spec n 0) as [->|Hn0]; cbn [mbind result_bind]; [exists []; rewrite decide_True by (cbn; lia); split; [done|cbn; lia]|].
  destruct (decode_quanta_ok (n - 1) cap (inPtr ++ [0]) []) as (dest & -> & Hd); [rewrite length_app; lia|cbn; lia|]. cbn [mbind result_bind].
  destruct (decodeQuantum_ok (drop (4 * (n - 1)) (inPtr ++ [0]))) as (q & -> & Hq); [rewrite length_drop, length_app; cbn; lia|]. cbn [mbind result_bind].
  cbn [length] in Hd. rewrite put_all_ok by (rewrite length_take; lia). cbn [mbind result_bind]. rewrite decide_True by (rewrite length_app, length_take; lia).
  eexists. split; [done|]. rewrite length_app, length_take. lia.
Qed.

(** An incomplete last group takes bytes from the group before it: ["QUJD"] is [ABC], but ["QUJDRA="] is [AB]. *)
Example base64_incomplete_group :
  p_base64Dec [81; 85; 74; 68] = Ok [65; 66; 67] ∧ p_base64Dec [81; 85; 74; 68; 82; 65; 61] = Ok [65; 66].
Proof. by vm_compute. Qed.

(** ** Percent codes *)

Definition hex_digit (n : Z) : Z := if n <? 10 then 48 + n else 55 + n.

(** Some bytes written as percent codes. *)
Inductive percent : list Z → list Z → Prop :=
  | percent_nil : percent [] []
  | percent_char c s t : c ≠ 37 → c ≠ 0 → percent s t → percent (c :: s) (c :: t)
  | percent_code c s t : byte_ok c → percent s t → percent (c :: s) (37 :: hex_digit (c / 16) :: hex_digit (c mod 16) :: t).

(** [url_decode] inverts percent coding, whichever characters are coded, in a buffer of the size of the text; it
    may work in place. *)
Theorem url_decode_percent s t : percent s t → ∀ fuel cap dest, (length t < fuel)%nat → (length dest + length t < cap)%nat →
  url_decode fuel cap (t ++ [0]) dest = Ok (dest ++ s).
Proof.
  induction 1 as [|c s t H1 H2 _ IH|c s t Hc _ IH]; intros [|fuel] cap dest Hf Hcap; cbn [length] in *; try lia.
  - cbn. rewrite decide_True by lia. by rewrite app_nil_r.
  - change ((c :: t) ++ [0]) with (c :: (t ++ [0])). cbn [url_decode rd lookup list_lookup mbind result_bind].
    rewrite (proj2 (Z.eqb_neq c 0) H2), (proj2 (Z.eqb_neq c 37) H1). cbn [mbind result_bind]. rewrite put_byte_ok by lia. cbn [mbind result_bind drop]. rewrite drop_0.
    rewrite IH by (rewrite ?length_snoc; lia). by rewrite <- app_assoc.
  - pose proof (byte_all (λ c, isxdigit (hex_digit (c / 16)) && isxdigit (hex_digit (c mod 16)) &&
      (uint8 (strtol_exact 16 [hex_digit (c / 16); hex_digit (c mod 16)]) =? c)) ltac:(by vm_compute) c Hc) as H. cbv beta in H.
    rewrite !andb_true_iff, Z.eqb_eq in H. destruct H as [[X1 X2] X3]. set (x := hex_digit (c / 16)) in *. set (y := hex_digit (c mod 16)) in *.
    change ((37 :: x :: y :: t) ++ [0]) with (37 :: x :: y :: (t ++ [0])). cbn [url_decode rd lookup list_lookup mbind result_bind Z.eqb Pos.eqb drop next_are].
    rewrite X1. cbn [drop rd lookup list_lookup mbind result_bind]. rewrite X2. cbn [mbind result_bind]. change (take 2 _) with [x; y]. rewrite X3, put_byte_ok by lia. cbn [mbind result_bind].
    rewrite ?drop_0, IH by (rewrite ?length_snoc; lia). by rewrite <- app_assoc.
Qed.
