(* ===== verification/Strops.v ===== *)
(** * String primitives (src/nl-string.c, src/nl-liststr.c, src/newlisp.c)

    [slice], [nth], [setf] of a character, [push], [pop], [explode], [join], [chop],
    [first], [rest], [last], [trim], [dup], [reverse], [rotate], [starts-with] and
    [ends-with], [find] and [replace] on strings without regular expressions.  A
    string is its buffer of bytes with the terminating 0, as long as the [aux] of
    its cell says; a pointer into it is an index.  The arguments are evaluated. *)

From stdpp Require Import base list numbers tactics.
From Stdlib Require Import ZArith Lia.
From S2P Require Import Prelude Nursery Lists Utf8 Reader Listops.

#[global] Open Scope Z_scope.


Definition ERR_STRING_INDEX_INVALID := 54.
Definition ERR_INVALID_UTF8 := 47.
Definition MAX_LONG := 2 ^ 63 - 1.
Definition MAX_LINE := 256.

Definition buffer := list Z.

Definition aux (s : buffer) : Z := Z.of_nat (length s).

(** A sum of two [ssize_t]; signed overflow is undefined. *)
Definition add64 (a b : Z) : result Z :=
  if (- 2 ^ 63 <=? a + b) && (a + b <=? MAX_LONG) then Ok (a + b) else UB.

(** [n] bytes from [p] on, as [memcpy] reads them. *)
Definition memcpy (s : buffer) (p n : Z) : result buffer :=
  if (0 <=? p) && (0 <=? n) && (p + n <=? aux s) then Ok (take (Z.to_nat n) (drop (Z.to_nat p) s)) else UB.

(** A new string of [len] bytes; [len] is an [int].  A negative one makes an allocation
    that fails, but for -1, which allocates nothing and then copies. *)
Definition stuffStringN (s : buffer) (p len : Z) : result buffer :=
  let len := int32 len in
  if len =? -1 then UB
  else if len <? 0 then Fail ERR_NOT_ENOUGH_MEMORY
  else bytes ← memcpy s p len; Ok (bytes ++ [0]).

(** [strlen], and [stuffString] of what is at [p]. *)
Definition stuffString (s : buffer) (p : Z) : result buffer :=
  if (0 <=? p) && (p <=? aux s) then
    n ← c_strlen (drop (Z.to_nat p) s); memcpy s p (Z.of_nat n + 1)
  else UB.

(** An index into [length] characters or bytes. *)
Definition adjustNegativeIndex (index length : Z) : result Z :=
  if index <? 0 then
    if length + index <? 0 then Fail ERR_STRING_INDEX_INVALID else Ok (length + index)
  else
    next ← add64 index 1;
    if length <? next then Fail ERR_STRING_INDEX_INVALID else Ok index.

(** The pointer to a character; the index is an [int]. *)
Definition char_ptr (s : buffer) (p index : Z) : result Z :=
  if 0 <=? p then q ← utf8_index s (Z.to_nat p) (int32 index); Ok (Z.of_nat q) else UB.

Definition wlen (s : buffer) : result Z := utf8_wlen s 0 (length s).

(** ** Parts *)

Definition substring (s : buffer) (offset len : Z) : result buffer :=
  let slen := aux s - 1 in
  offset ← (if offset <? 0 then
              if slen + offset <? 0 then Fail ERR_STRING_INDEX_INVALID else Ok (slen + offset)
            else Ok (if slen <? offset then slen else offset));
  let len := if len <? 0 then Z.max 0 (slen - offset + len) else len in
  len ← (if len =? MAX_LONG then Ok (slen - offset)
         else e ← add64 offset len; Ok (if slen <? e then slen - offset else len));
  stuffStringN s offset len.

(** The character of an index, and the place it was found at ([stringIndexPtr]). *)
Definition implicitIndexString (s : buffer) (index : Z) : result (buffer * Z) :=
  if (aux s =? 1) && ((index =? 0) || (index =? -1)) then Ok (s, 0)
  else
    n ← wlen s;
    index ← adjustNegativeIndex index n;
    ptr ← char_ptr s 0 index;
    p ← utf8_1st_len s (Z.to_nat ptr);
    if aux s <? ptr + p then Fail ERR_INVALID_UTF8
    else c ← stuffStringN s ptr p; Ok (c, ptr).

(** [setf] of the character at [insertPtr]. *)
Definition setNthStr (s new : buffer) (insertPtr : Z) : result buffer :=
  let oldLen := aux s - 1 in
  let newLen := aux new - 1 in
  if oldLen =? 0 then Ok s
  else
    len ← utf8_1st_len s (Z.to_nat insertPtr);
    left ← memcpy s 0 insertPtr;
    mid ← memcpy new 0 newLen;
    right ← memcpy s (insertPtr + len) (oldLen - insertPtr - len);
    Ok (left ++ mid ++ right ++ [0]).

Definition first_char (s : buffer) : result buffer :=
  b ← rd s 0;
  if b =? 0 then Ok [0]
  else
    len ← utf8_1st_len s 0;
    if aux s - 1 <? len then Fail ERR_INVALID_UTF8 else stuffStringN s 0 len.

Definition rest_chars (s : buffer) : result buffer :=
  b ← rd s 0;
  if b =? 0 then Ok [0]
  else
    size ← utf8_1st_len s 0;
    if aux s - 1 <? size then Fail ERR_INVALID_UTF8 else stuffString s size.

Definition last_chars (s : buffer) : result buffer :=
  b ← rd s 0;
  if b =? 0 then Ok s
  else n ← wlen s; p ← char_ptr s 0 (n - 1); stuffString s p.

(** [number] is read as an unsigned integer. *)
Definition chop_chars (s : buffer) (number : Z) : result buffer :=
  n ← wlen s;
  let number := if (number <? 0) || (n <? number) then n else number in
  ptr ← char_ptr s 0 (n - number);
  stuffStringN s 0 ptr.

(** ** [push] and [pop] *)

(** The popped characters and the string that is left; the second argument is the number
    of characters, one when it is missing. *)
Definition popString (s : buffer) (index : Z) (len : option Z) : result (buffer * buffer) :=
  size ← wlen s;
  if aux s <? 2 then Ok ([0], s)
  else
    let len := match len with Some n => if n <? 1 then 0 else n | None => 1 end in
    index ← adjustNegativeIndex index size;
    e ← add64 index len;
    let len := if size <? e then size - index else len in
    p ← char_ptr s 0 index;
    q ← char_ptr s p len;
    if aux s - 1 <? q then Fail ERR_INVALID_UTF8
    else
      left ← memcpy s 0 p;
      right ← memcpy s q (aux s - q);
      popped ← stuffStringN s p (q - p);
      Ok (popped, left ++ right).

Definition pushOnString (new s : buffer) (index : Z) : result buffer :=
  bytes ← memcpy new 0 (aux new - 1);
  if index =? -1 then
    old ← memcpy s 0 (aux s - 1); Ok (old ++ bytes ++ [0])
  else
    len ← wlen s;
    let index := if index <? 0 then len + index + 1 else if len <? index then len else index in
    let index := if index <? 0 then 0 else index in
    p ← char_ptr s 0 index;
    left ← memcpy s 0 p;
    right ← memcpy s p (aux s - p);
    Ok (take (length s + length new - 2) (left ++ bytes ++ right) ++ [0]).

(** The index -1 and [extend] grow the buffer of the cell in place; [realloc] moves it
    here.  [from] is the buffer that is appended. *)
Definition appendCellString (cell from size : Z) (m : memory) : result memory :=
  c ← cell_at cell m;
  old ← match heap m !! c_contents c with Some old => Ok old | None => UB end;
  m ← free_buffer (c_contents c) m;
  match heap m !! from with
  | None => UB
  | Some bytes =>
      bytes ← memcpy bytes 0 size;
      old ← memcpy old 0 (c_aux c - 1);
      let '(p, m) := new_buffer (old ++ bytes ++ [0]) m in
      m ← put cell (set_cell_contents p) m;
      put cell (set_aux (c_aux c + size)) m
  end.

(** ** [explode] and [join] *)

Fixpoint explode_loop (fuel : nat) (s : buffer) (p size len : Z) (flag : bool) : result (list buffer) :=
  match fuel with
  | O => NoFuel
  | S fuel =>
      let size := size - len in
      if (size <=? 0) || flag && (size <? len) then Ok []
      else
        q ← char_ptr s p len;
        c ← stuffStringN s p (q - p);
        rest ← explode_loop fuel s q size len flag;
        Ok (c :: rest)
  end.

(** [flag] leaves out a last part that is too short. *)
Definition p_explode (s : buffer) (params : option (Z * bool)) : result (list buffer) :=
  let size := aux s - 1 in
  let '(len, flag) := match params with
                      | Some (len, flag) => (if negb flag && (size <? len) then size else len, flag)
                      | None => (1, false)
                      end in
  if (size =? 0) || (len <=? 0) then Ok []
  else
    size ← wlen s;
    ptr ← char_ptr s 0 len;
    if flag && (size <? len) then Ok []
    else
      c ← stuffStringN s 0 ptr;
      rest ← explode_loop (S (Z.to_nat size)) s ptr size len flag;
      Ok (c :: rest).

(** A stream into a string: what has been written, and the size of its buffer. *)
Record stream := Stream { written : buffer; capacity : Z }.

Fixpoint grow_stream (fuel : nat) (size newPosition : Z) : result Z :=
  match fuel with
  | O => NoFuel
  | S fuel => if size <=? newPosition then grow_stream fuel (size + size / 2) newPosition else Ok size
  end.

(** [n] bytes of [s]; a length of 0 stands for [strlen]. *)
Definition writeStreamStr (st : stream) (s : buffer) (n : Z) : result stream :=
  n ← (if n =? 0 then k ← c_strlen s; Ok (Z.of_nat k) else Ok n);
  let newPosition := aux (written st) + n in
  size ← grow_stream (S (Z.to_nat newPosition)) (capacity st) newPosition;
  bytes ← memcpy s 0 n;
  if newPosition <=? size then Ok (Stream (written st ++ bytes) size) else UB.

Fixpoint write_all (st : stream) (l : list buffer) (joint : option buffer) : result stream :=
  match l with
  | [] => Ok st
  | s :: l =>
      st ← match joint with
           | Some j => if aux j - 1 =? 0 then Ok st else writeStreamStr st j (aux j - 1)
           | None => Ok st
           end;
      st ← writeStreamStr st s (aux s - 1);
      write_all st l joint
  end.

Definition appendString (cell : buffer) (l : list buffer) (joint : option buffer) (trailJoint : bool) : result buffer :=
  st ← writeStreamStr (Stream [] MAX_LINE) cell (aux cell - 1);
  st ← write_all st l joint;
  st ← match joint with
       | Some j => if trailJoint then writeStreamStr st j (aux j - 1) else Ok st
       | None => Ok st
       end;
  stuffStringN (written st) 0 (aux (written st)).

Definition p_join (l : list buffer) (joint : option buffer) (trailJoint : bool) : result buffer :=
  match l with [] => Ok [0] | s :: l => appendString s l joint trailJoint end.

(** ** [trim], [dup], [reverse], [rotate] *)

(** [while((unsigned char)*str <= 32 && left < len) str++, left++]; the byte is read
    before the bound is tested.  [step] is 1 or -1. *)
Fixpoint skip (fuel : nat) (blank : Z → bool) (w : list Z) (p step count len : Z) : result Z :=
  match fuel with
  | O => NoFuel
  | S fuel =>
      if p <? 0 then UB else
      c ← rd w (Z.to_nat p);
      if blank c && (count <? len) then skip fuel blank w (p + step) step (count + 1) len else Ok count
  end.

Definition trim_blanks (s : buffer) : result buffer :=
  let len := aux s - 1 in
  left ← skip (S (length s)) (λ c, c <=? 32) s 0 1 0 len;
  if left =? len then Ok [0]
  else
    right ← skip (S (length s)) (λ c, c <=? 32) s (len - 1) (-1) 0 len;
    stuffStringN s left (len - left - right).

(** With the characters to trim on the left and on the right, on wide characters. *)
Definition trim_chars (s trimL : buffer) (trimR : option buffer) : result buffer :=
  n ← wlen s;
  '(len, w) ← utf8_wstr s 0 (Z.to_nat n);
  if len =? 0 then stuffString s 0
  else
    '(lchr, _) ← utf8_wchar trimL 0;
    rchr ← match trimR with Some t => '(c, _) ← utf8_wchar t 0; Ok c | None => Ok lchr end;
    left ← skip (S (length w)) (λ c, c =? lchr) w 0 1 0 len;
    if left =? len then Ok [0]
    else
      right ← skip (S (length w)) (λ c, c =? rchr) w (len - 1) (-1) 0 len;
      let k := len - left - right in
      '(n, bytes) ← wstr_utf8 (take (Z.to_nat k) (drop (Z.to_nat left) w) ++ [0]) (k * 6);
      stuffStringN bytes 0 n.

Definition dup_string (s : buffer) (n : Z) : result buffer :=
  let n := Z.max 0 n in
  let len := aux s - 1 in
  if MAX_LONG <? len * n + 1 then UB
  else bytes ← memcpy s 0 len; Ok (concat (replicate (Z.to_nat n) bytes) ++ [0]).

Definition reverse_bytes (s : buffer) : buffer := reverse (take (length s - 1) s) ++ [0].

Definition rotate_bytes (s : buffer) (count : Z) : result buffer :=
  let length := aux s - 1 in
  count ← adjustCount count length;
  if count =? 0 then Ok s
  else
    a ← memcpy s (length - count) count;
    b ← memcpy s 0 (length - count);
    Ok (a ++ b ++ [0]).

(** ** Searching *)

(** [strncmp(string, key, klen) == 0]; it ends at a difference or behind a 0. *)
Fixpoint strncmp_eq (s key : list Z) : result bool :=
  match key with
  | [] => Ok true
  | k :: key =>
      c ← rd s 0;
      if c =? k then if c =? 0 then Ok true else strncmp_eq (drop 1 s) key else Ok false
  end.

Definition starts_with (s key : buffer) : result bool :=
  klen ← c_strlen key;
  _ ← c_strlen s;
  strncmp_eq s (take klen key).

Definition ends_with (s key : buffer) : result bool :=
  klen ← c_strlen key;
  slen ← c_strlen s;
  if (slen <? klen)%nat then Ok false else strncmp_eq (drop (slen - klen) s) (take klen key).

(** [searchBuffer] with a key of any length; an empty one is found at a byte 0. *)
Fixpoint search_zero (len : nat) (s : list Z) : result (option nat) :=
  match len with
  | O => Ok None
  | S len =>
      c ← rd s 0;
      if c =? 0 then Ok (Some 0%nat)
      else p ← search_zero len (drop 1 s); Ok (option_map S p)
  end.

Definition search_key (len : nat) (s key : list Z) : result (option nat) :=
  match key with [] => search_zero len s | _ :: _ => searchBuffer len s key end.

Definition find_string (key s : buffer) (offset : Z) : result (option Z) :=
  let size := aux s - 1 in
  let offset := if (offset <? 0) || (size <? offset) then size else offset in
  p ← search_key (Z.to_nat (size - offset)) (drop (Z.to_nat offset) s) (take (length key - 1) key);
  Ok (option_map (λ p, Z.of_nat p + offset) p).

(** ** [replace] *)

(** Where the key was found, and what replaces it.  The fields of the C record are [int]s;
    a size that does not fit ends the model. *)
Record REGEX := Regex { rx_offset : nat; rx_str : list Z }.

Definition fits_int (n : nat) : result unit := if Z.of_nat n <? 2 ^ 31 then Ok () else UB.

(** The first loop: [repl n] is the string the replacement expression answers for the
    match number [n], nothing when it answers no string.  The result has the offset the
    search ended at. *)
Fixpoint find_all (fuel n : nat) (offset : nat) (key : list Z) (s : buffer) (repl : nat → option (list Z))
    : result (list REGEX * nat) :=
  match fuel with
  | O => NoFuel
  | S fuel =>
      if (length s - 1 <? offset)%nat then Ok ([], offset)
      else
        p ← search_key (length s - 1 - offset) (drop offset s) key;
        match p with
        | None => Ok ([], offset)
        | Some p =>
            old ← match repl n with
                  | Some r => Ok r
                  | None => memcpy s (Z.of_nat (offset + p)) (Z.of_nat (length key))
                  end;
            let bias := if decide (key = []) then 1%nat else 0%nat in
            _ ← fits_int (offset + p);
            _ ← fits_int (length key);
            _ ← fits_int (length old);
            '(l, e) ← find_all fuel (S n) (offset + p + length key + bias) key s repl;
            Ok (Regex (offset + p) old :: l, e)
        end
  end.

(** The second loop: the replacements, with what is between them in the old string. *)
Fixpoint rebuild (s : buffer) (klen : nat) (l : list REGEX) : result (list Z) :=
  match l with
  | [] => Ok []
  | f :: l =>
      gap ← match l with
            | [] => Ok []
            | f' :: _ => memcpy s (Z.of_nat (rx_offset f + klen)) (Z.of_nat (rx_offset f') - Z.of_nat (rx_offset f + klen))
            end;
      rest ← rebuild s klen l;
      Ok (rx_str f ++ gap ++ rest)
  end.

(** The new string, or nothing when the key does not occur; the buffer has [newLen + 1]
    bytes. *)
Definition replaceString (key : list Z) (s : buffer) (repl : nat → option (list Z)) : result (option buffer * nat) :=
  '(l, offset) ← find_all (S (length s)) 0 0 key s repl;
  match l with
  | [] => Ok (None, 0%nat)
  | f :: _ =>
      let buffLen := aux s - 1 in
      let bias := if decide (key = []) then 1 else 0 in
      let newLen := buffLen - Z.of_nat (length l * length key) + Z.of_nat (length (l ≫= rx_str)) in
      start ← memcpy s 0 (Z.of_nat (rx_offset f));
      mid ← rebuild s (length key) l;
      tail ← memcpy s (Z.of_nat offset - bias) (buffLen - Z.of_nat offset + bias);
      let content := start ++ mid ++ tail in
      if (newLen <? 0) || (newLen + 1 <? aux content) then UB
      else Ok (Some (content ++ replicate (Z.to_nat (newLen + 1) - length content) 0), length l)
  end.
