(* ===== verification/Texts.v ===== *)
(** * Strings of characters: what the primitives do (src/nl-string.c, src/nl-liststr.c)

    On the buffer of a UTF-8 text the string primitives are operations on the
    sequence of its characters. *)

From stdpp Require Import base gmap list numbers tactics.
From Stdlib Require Import ZArith Lia.
From S2P Require Import Prelude Cell Nursery Lists Utf8 Reader Listops Strops.

#[global] Open Scope Z_scope.

(** ** Buffers *)

(** The string with the characters [cs]. *)
Definition text (cs : list Z) : buffer := cstring (utf8_text cs).

(** Characters, and a text that an [int] can count. *)
Definition short (cs : list Z) : Prop := Forall wide cs ∧ Z.of_nat (length (utf8_text cs)) < 2 ^ 31 - 1.

Lemma utf8_text_app cs1 cs2 : utf8_text (cs1 ++ cs2) = utf8_text cs1 ++ utf8_text cs2.
Proof. unfold utf8_text. by rewrite fmap_app, concat_app. Qed.

Lemma short_wide cs : short cs → Forall wide cs.
Proof. by intros [H _]. Qed.

Lemma short_app cs1 cs2 : short (cs1 ++ cs2) → short cs1 ∧ short cs2.
Proof.
  intros [[H1 H2]%Forall_app H3]. rewrite utf8_text_app, length_app in H3. split; (split; [done|lia]).
Qed.

Lemma aux_text cs : aux (text cs) = Z.of_nat (length (utf8_text cs)) + 1.
Proof. unfold aux, text, cstring. rewrite length_app. cbn. lia. Qed.

Lemma short_length cs : short cs → Z.of_nat (length cs) < 2 ^ 31 - 1.
Proof. intros [H1 H2]. pose proof (utf8_text_length _ H1). lia. Qed.

Lemma wlen_text cs : short cs → wlen (text cs) = Ok (Z.of_nat (length cs)).
Proof.
  intros H. pose proof (short_length _ H) as Hl.
  destruct (utf8len_and_index [] cs ltac:(constructor) (short_wide _ H) ltac:(cbn; lia)) as [E _]. exact E.
Qed.

(** The pointer behind [cs2], from the one behind [cs1]. *)
Lemma char_ptr_text cs1 cs2 cs3 : short (cs1 ++ cs2 ++ cs3) →
  char_ptr (text (cs1 ++ cs2 ++ cs3)) (Z.of_nat (length (utf8_text cs1))) (Z.of_nat (length cs2)) =
  Ok (Z.of_nat (length (utf8_text (cs1 ++ cs2)))).
Proof.
  intros H. destruct (short_app _ _ H) as [H1 [H2 H3]%short_app]. pose proof (short_length _ H2) as Hl.
  unfold char_ptr. rewrite (proj2 (Z.leb_le 0 _)) by lia. rewrite Nat2Z.id, wrapS_small by lia. unfold utf8_index.
  pose proof (utf8_text_length _ (short_wide _ H)) as Ht. rewrite !length_app in Ht.
  rewrite (utf8_index_loop_spec _ cs3 cs2 _ _ []); [| | | | |].
  - cbn [mbind result_bind]. by rewrite utf8_text_app, length_app.
  - by apply short_wide.
  - by apply short_wide.
  - lia.
  - unfold text, cstring. rewrite !utf8_text_app, <- !app_assoc. apply drop_app_length.
  - unfold text, cstring. rewrite length_app. cbn [length]. lia.
Qed.

Lemma memcpy_app (a b c : buffer) : memcpy (a ++ b ++ c) (Z.of_nat (length a)) (Z.of_nat (length b)) = Ok b.
Proof.
  unfold memcpy, aux. rewrite !length_app.
  rewrite (proj2 (Z.leb_le _ _)), (proj2 (Z.leb_le _ _)), (proj2 (Z.leb_le _ _)) by lia. cbn [andb].
  by rewrite !Nat2Z.id, drop_app_length, take_app_length.
Qed.

Lemma memcpy_mid s (a b c : buffer) p n : s = a ++ b ++ c → p = Z.of_nat (length a) → n = Z.of_nat (length b) →
  memcpy s p n = Ok b.
Proof. intros -> -> ->. apply memcpy_app. Qed.

Lemma stuffStringN_mid s (a b c : buffer) p n : s = a ++ b ++ c → p = Z.of_nat (length a) → n = Z.of_nat (length b) →
  n < 2 ^ 31 → stuffStringN s p n = Ok (b ++ [0]).
Proof.
  intros Hs Hp Hn Hb. unfold stuffStringN. rewrite wrapS_small by lia.
  rewrite (proj2 (Z.eqb_neq _ _)), (proj2 (Z.ltb_ge _ _)) by lia. by rewrite (memcpy_mid _ _ _ _ _ _ Hs Hp Hn).
Qed.

(** The characters [cs2] of a text. *)
Lemma stuff_text cs1 cs2 cs3 : short (cs1 ++ cs2 ++ cs3) →
  stuffStringN (text (cs1 ++ cs2 ++ cs3)) (Z.of_nat (length (utf8_text cs1)))
    (Z.of_nat (length (utf8_text (cs1 ++ cs2))) - Z.of_nat (length (utf8_text cs1))) = Ok (text cs2).
Proof.
  intros H. destruct (short_app _ _ H) as [_ [[_ H2] _]%short_app]. rewrite utf8_text_app, length_app.
  apply (stuffStringN_mid _ (utf8_text cs1) (utf8_text cs2) (utf8_text cs3 ++ [0])); [|done|lia|lia].
  unfold text, cstring. by rewrite !utf8_text_app, <- !app_assoc.
Qed.

(** ** [push] and [pop] *)

Lemma memcpy_left cs1 cs2 : short (cs1 ++ cs2) →
  memcpy (text (cs1 ++ cs2)) 0 (Z.of_nat (length (utf8_text cs1))) = Ok (utf8_text cs1).
Proof.
  intros H. apply (memcpy_mid _ [] (utf8_text cs1) (utf8_text cs2 ++ [0])); [|done..].
  unfold text, cstring. by rewrite utf8_text_app, <- app_assoc.
Qed.

Lemma memcpy_right cs1 cs2 : short (cs1 ++ cs2) →
  memcpy (text (cs1 ++ cs2)) (Z.of_nat (length (utf8_text cs1))) (aux (text (cs1 ++ cs2)) - Z.of_nat (length (utf8_text cs1))) =
  Ok (text cs2).
Proof.
  intros H. apply (memcpy_mid _ (utf8_text cs1) (text cs2) []); [|done|].
  - unfold text, cstring. by rewrite app_nil_r, utf8_text_app, <- app_assoc.
  - rewrite aux_text, utf8_text_app. unfold text, cstring. rewrite !length_app. cbn [length]. lia.
Qed.

Lemma memcpy_payload cs : memcpy (text cs) 0 (aux (text cs) - 1) = Ok (utf8_text cs).
Proof.
  apply (memcpy_mid _ [] (utf8_text cs) [0]); [done|done|]. rewrite aux_text. lia.
Qed.

Lemma take_payload n cs : n = length (utf8_text cs) → take n (text cs) ++ [0] = text cs.
Proof. intros ->. unfold text, cstring. by rewrite take_app_length. Qed.

(** Where [push] puts characters into a text of [n]. *)
Definition push_char_at (index : Z) (n : nat) : nat :=
  if index <? 0 then Z.to_nat (Z.of_nat n + index + 1) else Nat.min (Z.to_nat index) n.

Lemma pushOnString_ok new cs index : short new → short cs → short (take (push_char_at index (length cs)) cs ++ new ++ drop (push_char_at index (length cs)) cs) →
  pushOnString (text new) (text cs) index =
  Ok (text (take (push_char_at index (length cs)) cs ++ new ++ drop (push_char_at index (length cs)) cs)).
Proof.
  intros Hnew Hs Hall. unfold pushOnString, push_char_at in *. rewrite (memcpy_payload new). cbn [mbind result_bind].
  destruct (Z.eqb_spec index (-1)) as [->|Hi].
  - rewrite memcpy_payload. cbn [mbind result_bind Z.ltb Z.compare].
    replace (Z.to_nat (Z.of_nat (length cs) + -1 + 1)) with (length cs) by lia.
    rewrite take_ge, drop_ge, app_nil_r by lia. unfold text, cstring. by rewrite utf8_text_app, <- app_assoc.
  - rewrite wlen_text by done. cbn [mbind result_bind].
    set (k := if index <? 0 then Z.to_nat (Z.of_nat (length cs) + index + 1) else Nat.min (Z.to_nat index) (length cs)) in *.
    assert (Hk : (k ≤ length cs)%nat) by (unfold k; case_match; lia).
    match goal with |- context [char_ptr _ 0 ?x] => replace x with (Z.of_nat k) end.
    2: { unfold k. destruct (Z.ltb_spec index 0).
         - destruct (Z.ltb_spec (Z.of_nat (length cs) + index + 1) 0); lia.
         - destruct (Z.ltb_spec (Z.of_nat (length cs)) index); [rewrite (proj2 (Z.ltb_ge _ _)) by lia; lia|].
           rewrite (proj2 (Z.ltb_ge _ _)) by lia. lia. }
    assert (Hc : char_ptr (text cs) 0 (Z.of_nat k) = Ok (Z.of_nat (length (utf8_text (take k cs))))).
    { pose proof (char_ptr_text [] (take k cs) (drop k cs)) as E. rewrite app_nil_l, take_drop, length_take, Nat.min_l in E by lia. by apply E. }
    rewrite Hc. cbn [mbind result_bind]. rewrite <- (take_drop k cs) in Hs.
    pose proof (memcpy_left _ _ Hs) as El. pose proof (memcpy_right _ _ Hs) as Er. rewrite take_drop in El, Er, Hs.
    rewrite El. cbn [mbind result_bind]. rewrite Er. cbn [mbind result_bind]. f_equal.
    set (out := take k cs ++ new ++ drop k cs) in *.
    replace (utf8_text (take k cs) ++ utf8_text new ++ text (drop k cs)) with (text out)
      by (unfold out, text, cstring; by rewrite !utf8_text_app, <- !app_assoc).
    rewrite take_payload; [done|]. unfold out. rewrite <- (take_drop k cs) at 1. unfold text, cstring.
    rewrite !utf8_text_app, !length_app. cbn [length]. lia.
Qed.

(** The characters [pop] takes, from the index on. *)
Definition pop_char_at (index : Z) (n : nat) : option nat :=
  let k := if index <? 0 then Z.of_nat n + index else index in
  if (0 <=? k) && (k <? Z.of_nat n) then Some (Z.to_nat k) else None.

Lemma adjust_ok index n : - 2 ^ 63 ≤ index < MAX_LONG →
  adjustNegativeIndex index (Z.of_nat n) =
  match pop_char_at index n with Some k => Ok (Z.of_nat k) | None => Fail ERR_STRING_INDEX_INVALID end.
Proof.
  intros Hi. unfold adjustNegativeIndex, pop_char_at, add64. destruct (Z.ltb_spec index 0).
  - destruct (Z.ltb_spec (Z.of_nat n + index) 0).
    + by rewrite (proj2 (Z.leb_gt _ _)) by lia.
    + rewrite (proj2 (Z.leb_le _ _)), (proj2 (Z.ltb_lt _ _)) by lia. cbn [andb]. f_equal. lia.
  - rewrite (proj2 (Z.leb_le _ _)), (proj2 (Z.leb_le (index + 1) _)) by lia. cbn [andb mbind result_bind].
    rewrite (proj2 (Z.leb_le 0 index)) by lia. cbn [andb].
    destruct (Z.ltb_spec (Z.of_nat n) (index + 1)); [by rewrite (proj2 (Z.ltb_ge _ _)) by lia|].
    rewrite (proj2 (Z.ltb_lt _ _)) by lia. f_equal. lia.
Qed.

Definition pop_count (len : option Z) : nat := match len with Some n => Z.to_nat n | None => 1%nat end.

Lemma popString_ok cs index len k : short cs → - 2 ^ 63 ≤ index < MAX_LONG → pop_char_at index (length cs) = Some k →
  Z.of_nat k + Z.of_nat (pop_count len) ≤ MAX_LONG →
  popString (text cs) index len =
  Ok (text (take (pop_count len) (drop k cs)), text (take k cs ++ drop (k + pop_count len) cs)).
Proof.
  intros Hs Hi Hk Hlen. assert (Hlt : (k < length cs)%nat).
  { unfold pop_char_at in Hk. destruct ((_ <=? _) && _) eqn:E; [|done]. injection Hk as <-.
    apply andb_true_iff in E as [E1%Z.leb_le E2%Z.ltb_lt]. lia. }
  pose proof (utf8_text_length _ (short_wide _ Hs)) as Hbytes.
  unfold popString. rewrite wlen_text by done. cbn [mbind result_bind]. rewrite aux_text.
  rewrite (proj2 (Z.ltb_ge _ _)) by lia. rewrite adjust_ok, Hk by done. cbn [mbind result_bind].
  replace (match len with Some n => if n <? 1 then 0 else n | None => 1 end) with (Z.of_nat (pop_count len)).
  2: { unfold pop_count. destruct len as [n|]; [|done]. destruct (Z.ltb_spec n 1); lia. }
  set (c := pop_count len) in *. unfold add64. rewrite (proj2 (Z.leb_le _ _)), (proj2 (Z.leb_le _ _)) by lia.
  cbn [andb mbind result_bind]. set (c' := length (take c (drop k cs))).
  replace (if Z.of_nat (length cs) <? Z.of_nat k + Z.of_nat c then Z.of_nat (length cs) - Z.of_nat k else Z.of_nat c)
    with (Z.of_nat c').
  2: { unfold c'. rewrite length_take, length_drop. destruct (Z.ltb_spec (Z.of_nat (length cs)) (Z.of_nat k + Z.of_nat c)); lia. }
  assert (Ecs : cs = take k cs ++ take c (drop k cs) ++ drop (k + c) cs) by by rewrite <- drop_drop, !take_drop.
  assert (H1 : short (take k cs ++ take c (drop k cs) ++ drop (k + c) cs)) by by rewrite <- Ecs.
  assert (Ep : char_ptr (text cs) 0 (Z.of_nat k) = Ok (Z.of_nat (length (utf8_text (take k cs))))).
  { pose proof (char_ptr_text [] (take k cs) (take c (drop k cs) ++ drop (k + c) cs)) as E.
    rewrite app_nil_l, <- Ecs, length_take, Nat.min_l in E by lia. by apply E. }
  pose proof (char_ptr_text _ _ _ H1) as Eq. pose proof (stuff_text _ _ _ H1) as Est. rewrite app_assoc in H1, Ecs.
  pose proof (memcpy_right _ _ H1) as Er. rewrite <- Ecs in Er.
  pose proof (memcpy_left (take k cs) (take c (drop k cs) ++ drop (k + c) cs)) as El. rewrite !app_assoc, <- Ecs in El.
  rewrite <- app_assoc in Ecs. rewrite <- Ecs in Eq, Est.
  rewrite Ep. cbn [mbind result_bind]. fold c' in Eq. rewrite Eq. cbn [mbind result_bind].
  rewrite (proj2 (Z.ltb_ge _ _)).
  2: { pose proof (utf8_text_app (take k cs ++ take c (drop k cs)) (drop (k + c) cs)) as E. rewrite <- app_assoc, <- Ecs in E.
       rewrite E, length_app. lia. }
  rewrite El by done. cbn [mbind result_bind]. rewrite aux_text in Er. rewrite Er. cbn [mbind result_bind]. rewrite Est.
  cbn [mbind result_bind]. unfold text, cstring. by rewrite utf8_text_app, <- app_assoc.
Qed.

(** ** [nth], [first], [rest], [last] *)

Lemma utf8_index_loop_end buf cs : ∀ idx fuel ptr rest, Forall wide cs →
  Z.of_nat (length cs) ≤ idx < 2 ^ 31 → drop ptr buf = utf8_text cs ++ 0 :: rest → (length cs < fuel)%nat →
  utf8_index_loop fuel buf ptr idx = Ok (ptr + length (utf8_text cs))%nat.
Proof.
  induction cs as [|c cs IH]; intros idx fuel ptr rest Hcs Hb H Hf;
    (destruct fuel as [|fuel]; [cbn in Hf; lia|]); cbn [utf8_index_loop].
  { change (utf8_text []) with (@nil Z) in *. rewrite (rd_drop _ _ _ _ H). cbn. by rewrite Nat.add_0_r. }
  inversion_clear Hcs as [|? ? [Hc Hc0] Hcs']. unfold utf8_text in H. cbn in H. rewrite <- app_assoc in H. fold (utf8_text cs) in H.
  destruct (lead_step _ _ _ _ Hc Hc0 H) as (b & Hrd & Hb0 & Hp). rewrite Hrd.
  cbn [mbind result_bind length] in *. rewrite (proj2 (Z.eqb_neq _ _) Hb0), (proj2 (Z.eqb_neq idx _)) by lia.
  cbn [orb]. rewrite wrapS_small by lia.
  replace (if Z.land (schar b) 192 =? 192 then (ptr + (table4 (schar b) + 1))%nat else S ptr)
    with (ptr + length (wchar_utf8 c))%nat by (rewrite <- Hp; case_match; lia).
  erewrite IH; [|done|lia|by apply drop_app_step|lia]. unfold utf8_text. cbn. rewrite length_app. f_equal. lia.
Qed.

(** [n] characters on, or at the end. *)
Lemma char_ptr_take cs1 cs2 n : short (cs1 ++ cs2) → Z.of_nat n < 2 ^ 31 →
  char_ptr (text (cs1 ++ cs2)) (Z.of_nat (length (utf8_text cs1))) (Z.of_nat n) =
  Ok (Z.of_nat (length (utf8_text (cs1 ++ take n cs2)))).
Proof.
  intros H Hn. destruct (decide (n ≤ length cs2)%nat) as [Hle|Hgt].
  { pose proof (char_ptr_text cs1 (take n cs2) (drop n cs2)) as E. rewrite take_drop, length_take, Nat.min_l in E by done. by apply E. }
  rewrite take_ge by lia. destruct (short_app _ _ H) as [_ H2]. pose proof (utf8_text_length _ (short_wide _ H2)) as Hl.
  unfold char_ptr. rewrite (proj2 (Z.leb_le 0 _)), Nat2Z.id, wrapS_small by lia. unfold utf8_index.
  rewrite (utf8_index_loop_end _ cs2 _ _ _ []); [|by apply short_wide|lia| |].
  - cbn. by rewrite utf8_text_app, length_app.
  - unfold text, cstring. rewrite utf8_text_app, <- app_assoc. apply drop_app_length.
  - unfold text, cstring. rewrite utf8_text_app, !length_app. cbn [length]. lia.
Qed.

Lemma char_ptr_start cs n : short cs → Z.of_nat n < 2 ^ 31 →
  char_ptr (text cs) 0 (Z.of_nat n) = Ok (Z.of_nat (length (utf8_text (take n cs)))).
Proof. apply (char_ptr_take [] cs n). Qed.

Lemma first_len_text cs1 c cs2 : short (cs1 ++ c :: cs2) →
  utf8_1st_len (text (cs1 ++ c :: cs2)) (length (utf8_text cs1)) = Ok (Z.of_nat (length (wchar_utf8 c))).
Proof.
  intros H. pose proof (short_wide _ H) as [_ Hw]%Forall_app. inversion_clear Hw as [|? ? [Hc Hc0] _].
  assert (Hd : drop (length (utf8_text cs1)) (text (cs1 ++ c :: cs2)) = wchar_utf8 c ++ utf8_text cs2 ++ [0]).
  { unfold text, cstring. rewrite utf8_text_app, <- app_assoc, drop_app_length. unfold utf8_text. cbn. by rewrite <- app_assoc. }
  destruct (lead_step _ _ _ _ Hc Hc0 Hd) as (b & Hrd & Hb0 & Hp). unfold utf8_1st_len. rewrite Hrd.
  cbn [mbind result_bind]. rewrite (proj2 (Z.eqb_neq _ _) Hb0). cbn [negb]. revert Hp.
  destruct (Z.land (schar b) 192 =? 192); intros Hp; f_equal; lia.
Qed.

Lemma utf8_text_one c : utf8_text [c] = wchar_utf8 c.
Proof. unfold utf8_text. cbn. apply app_nil_r. Qed.

Lemma implicitIndexString_ok cs index k c : short cs → - 2 ^ 63 ≤ index < MAX_LONG → pop_char_at index (length cs) = Some k →
  cs !! k = Some c →
  implicitIndexString (text cs) index = Ok (text [c], Z.of_nat (length (utf8_text (take k cs)))).
Proof.
  intros Hs Hi Hk Hc. pose proof (take_drop_middle _ _ _ Hc) as Ecs. pose proof (lookup_lt_Some _ _ _ Hc) as Hlt.
  pose proof (utf8_text_length _ (short_wide _ Hs)) as Hbytes. pose proof (short_length _ Hs) as Hl.
  unfold implicitIndexString. rewrite aux_text, (proj2 (Z.eqb_neq _ 1)) by lia. cbn [andb].
  rewrite wlen_text by done. cbn [mbind result_bind]. rewrite adjust_ok, Hk by done. cbn [mbind result_bind].
  rewrite char_ptr_start by (done || lia). cbn [mbind result_bind]. rewrite Nat2Z.id.
  assert (H1 : short (take k cs ++ c :: drop (S k) cs)) by by rewrite Ecs.
  pose proof (first_len_text _ _ _ H1) as E1. pose proof (stuff_text _ [c] _ H1) as E2.
  cbn [app] in E2. rewrite Ecs in E1, E2. rewrite E1. cbn [mbind result_bind].
  rewrite utf8_text_app, length_app, utf8_text_one in E2.
  rewrite Nat2Z.inj_add, Z.add_simpl_l in E2. rewrite (proj2 (Z.ltb_ge _ _)); [by rewrite E2|].
  assert (E : length (utf8_text cs) = (length (utf8_text (take k cs)) + (length (wchar_utf8 c) + length (utf8_text (drop (S k) cs))))%nat).
  { rewrite <- Ecs at 1. change (c :: drop (S k) cs) with ([c] ++ drop (S k) cs). by rewrite !utf8_text_app, !length_app, utf8_text_one. }
  lia.
Qed.

(** ** [explode] and [join] *)

(** A list in parts of [n]; the last one may be shorter. *)
Fixpoint parts (fuel n : nat) (cs : list Z) : list (list Z) :=
  match fuel, cs with
  | S fuel, _ :: _ => take n cs :: parts fuel n (drop n cs)
  | _, _ => []
  end.

Definition whole_parts (n : nat) (flag : bool) (cs : list Z) : list (list Z) :=
  let l := parts (length cs) n cs in
  if flag then filter (λ c, length c = n) l else l.

Lemma parts_fuel n : (0 < n)%nat → ∀ f1 f2 cs, (length cs ≤ f1)%nat → (length cs ≤ f2)%nat → parts f1 n cs = parts f2 n cs.
Proof.
  intros Hn. induction f1 as [|f1 IH]; intros f2 cs H1 H2.
  { destruct cs; [|cbn in H1; lia]. by destruct f2. }
  destruct cs as [|c cs]; [by destruct f2|]. destruct f2 as [|f2]; [cbn in H2; lia|]. cbn [parts]. f_equal.
  apply IH; rewrite length_drop; cbn [length] in *; lia.
Qed.

Lemma concat_parts n : (0 < n)%nat → ∀ f cs, (length cs ≤ f)%nat → concat (parts f n cs) = cs.
Proof.
  intros Hn. induction f as [|f IH]; intros cs Hf; [by destruct cs; [|cbn in Hf; lia]|].
  destruct cs as [|c cs]; [done|]. cbn [parts concat]. rewrite IH; [by rewrite take_drop|].
  rewrite length_drop. cbn [length] in *. lia.
Qed.

(** The parts [explode] makes of what is left. *)
Definition kept_parts (f n : nat) (flag : bool) (cs : list Z) : list (list Z) :=
  if flag then filter (λ c, length c = n) (parts f n cs) else parts f n cs.

Lemma kept_short f n cs : (length cs < n)%nat → kept_parts f n true cs = [].
Proof.
  intros H. unfold kept_parts. destruct f, cs as [|c cs]; [done..|]. cbn [parts].
  rewrite filter_cons_False by (rewrite length_take; lia). rewrite drop_ge by lia. by destruct f.
Qed.

Lemma kept_cons f n flag cs : (0 < length cs)%nat → (flag = true → n ≤ length cs)%nat →
  kept_parts (S f) n flag cs = take n cs :: kept_parts f n flag (drop n cs).
Proof.
  intros H Hn. unfold kept_parts. destruct cs as [|c cs]; [cbn in H; lia|]. cbn [parts]. destruct flag; [|done].
  rewrite filter_cons_True; [done|]. specialize (Hn eq_refl). rewrite length_take. lia.
Qed.

(** [size] counts from the part before. *)
Lemma explode_loop_ok n flag : (0 < n)%nat → Z.of_nat n < 2 ^ 31 → ∀ fuel cs1 cs2 size, short (cs1 ++ cs2) →
  size - Z.of_nat n = Z.of_nat (length cs2) ∨ size - Z.of_nat n < 0 ∧ cs2 = [] → (length cs2 < fuel)%nat →
  explode_loop fuel (text (cs1 ++ cs2)) (Z.of_nat (length (utf8_text cs1))) size (Z.of_nat n) flag =
  Ok (text <$> kept_parts (length cs2) n flag cs2).
Proof.
  intros Hn Hb. induction fuel as [|fuel IH]; intros cs1 cs2 size Hs Hsize Hf; [lia|]. cbn [explode_loop].
  destruct (Z.leb_spec (size - Z.of_nat n) 0) as [Hle|Hgt].
  { assert (cs2 = []) as -> by (destruct Hsize as [Hz|[_ Hz]]; [destruct cs2; cbn [length] in *; [done|lia]|done]). by destruct flag. }
  destruct Hsize as [Hsize|[? _]]; [|lia]. cbn [orb].
  destruct (flag && (size - Z.of_nat n <? Z.of_nat n)) eqn:E.
  { apply andb_true_iff in E as [-> E%Z.ltb_lt]. rewrite kept_short by lia. done. }
  rewrite char_ptr_take by done. cbn [mbind result_bind]. rewrite <- (take_drop n cs2) in Hs.
  pose proof (stuff_text _ _ _ Hs) as Est. rewrite take_drop in Est. rewrite Est. cbn [mbind result_bind].
  rewrite app_assoc in Hs. pose proof (IH (cs1 ++ take n cs2) (drop n cs2) (size - Z.of_nat n) Hs) as E2.
  rewrite <- app_assoc, take_drop in E2. rewrite E2; [|rewrite length_drop|rewrite length_drop; lia].
  - cbn [mbind result_bind]. destruct (length cs2) as [|m] eqn:Em; [lia|]. rewrite kept_cons; [|lia|].
    + unfold kept_parts. rewrite (parts_fuel n Hn m (length (drop n cs2))); [done|rewrite length_drop; lia|done].
    + intros ->. apply andb_false_iff in E as [[=]|E%Z.ltb_ge]. lia.
  - destruct (decide (n ≤ length cs2)%nat); [left; lia|right]. split; [lia|]. apply drop_ge. lia.
Qed.

Lemma kept_one n cs : (0 < n)%nat → cs ≠ [] → (length cs ≤ n)%nat → parts (length cs) n cs = [cs].
Proof.
  intros Hn Hne Hl. destruct cs as [|c cs]; [done|]. cbn [length parts]. rewrite take_ge, drop_ge by done. by destruct (length cs).
Qed.

Lemma whole_parts_min n m cs : (0 < n)%nat → (n = m ∨ length cs ≤ n ∧ length cs ≤ m)%nat → (0 < m)%nat → 
  whole_parts n false cs = whole_parts m false cs.
Proof.
  intros Hn Hm Hm0. destruct Hm as [->|[H1 H2]]; [done|]. unfold whole_parts. destruct (decide (cs = [])) as [->|Hne]; [done|].
  by rewrite !kept_one.
Qed.

Lemma p_explode_ok cs n flag : short cs → (0 < n)%nat → Z.of_nat n < 2 ^ 31 →
  p_explode (text cs) (Some (Z.of_nat n, flag)) = Ok (text <$> whole_parts n flag cs).
Proof.
  intros Hs Hn Hb. unfold p_explode. rewrite aux_text, Z.add_simpl_r.
  destruct (decide (cs = [])) as [->|Hne].
  { change (Z.of_nat (length (utf8_text []))) with 0. cbn [Z.eqb orb]. by destruct flag. }
  pose proof (utf8_text_length _ (short_wide _ Hs)) as Hl. pose proof (proj2 Hs) as Hbytes.
  assert (Hpos : (0 < length cs)%nat) by (destruct cs; [done|cbn; lia]).
  set (bytes := Z.of_nat (length (utf8_text cs))) in *.
  set (m := if negb flag && (bytes <? Z.of_nat n) then length (utf8_text cs) else n).
  replace (if negb flag && (bytes <? Z.of_nat n) then bytes else Z.of_nat n) with (Z.of_nat m) by (unfold m; by case_match).
  assert (Hm : (0 < m)%nat ∧ Z.of_nat m < 2 ^ 31) by (unfold m; case_match; lia).
  assert (E : whole_parts n flag cs = whole_parts m flag cs).
  { unfold m. destruct flag; [done|]. cbn [negb andb]. apply whole_parts_min; [lia| |case_match; lia].
    destruct (Z.ltb_spec bytes (Z.of_nat n)); [right; lia|by left]. }
  rewrite E. clearbody m. clear E Hn Hb n. destruct Hm as [Hm Hb].
  rewrite (proj2 (Z.eqb_neq bytes 0)), (proj2 (Z.leb_gt _ 0)) by lia. cbn [orb]. rewrite wlen_text by done. cbn [mbind result_bind].
  rewrite char_ptr_start by done. cbn [mbind result_bind].
  change (whole_parts m flag cs) with (kept_parts (length cs) m flag cs).
  destruct (flag && (Z.of_nat (length cs) <? Z.of_nat m)) eqn:E.
  { apply andb_true_iff in E as [-> E%Z.ltb_lt]. by rewrite kept_short by lia. }
  assert (H1 : short ([] ++ take m cs ++ drop m cs)) by (by rewrite app_nil_l, take_drop).
  pose proof (stuff_text _ _ _ H1) as Est. rewrite !app_nil_l, take_drop, Z.sub_0_r in Est.
  change (Z.of_nat (length (utf8_text []))) with 0 in Est. rewrite Est. cbn [mbind result_bind].
  pose proof (explode_loop_ok m flag Hm Hb (S (Z.to_nat (Z.of_nat (length cs)))) (take m cs) (drop m cs) (Z.of_nat (length cs))) as El.
  rewrite take_drop in El. rewrite El; [|done| |rewrite length_drop; lia].
  - cbn [mbind result_bind]. destruct (length cs) as [|k] eqn:Ek; [lia|]. rewrite kept_cons; [|lia|].
    + unfold kept_parts. rewrite (parts_fuel m Hm k (length (drop m cs))); [done|rewrite length_drop; lia|done].
    + intros ->. apply andb_false_iff in E as [[=]|E%Z.ltb_ge]. lia.
  - rewrite length_drop. destruct (decide (m ≤ length cs)%nat); [left; lia|right]. split; [lia|]. apply drop_ge. lia.
Qed.

(** What [join] writes behind the first string, and the whole. *)
Definition tail_text (j : list Z) (css : list (list Z)) : list Z := css ≫= λ cs, j ++ cs.

Definition joined (j : list Z) (trail : bool) (css : list (list Z)) : list Z :=
  match css with [] => [] | cs :: css => cs ++ tail_text j css ++ (if trail then j else []) end.

Lemma grow_stream_ok fuel : ∀ size n, 2 ≤ size → (Z.to_nat (n + 1 - size) < fuel)%nat →
  ∃ size', grow_stream fuel size n = Ok size' ∧ n < size' ∧ 2 ≤ size'.
Proof.
  induction fuel as [|fuel IH]; intros size n H1 H2; [lia|]. cbn [grow_stream]. destruct (Z.leb_spec size n) as [Hle|Hgt].
  - pose proof (Z.div_le_lower_bound size 2 1). apply IH; lia.
  - by exists size.
Qed.

Lemma writeStreamStr_ok st cs n : 2 ≤ capacity st → n = Z.of_nat (length (utf8_text cs)) →
  ∃ size, writeStreamStr st (text cs) n = Ok (Stream (written st ++ utf8_text cs) size) ∧ 2 ≤ size.
Proof.
  intros Hc ->. unfold writeStreamStr. destruct (Z.eqb_spec (Z.of_nat (length (utf8_text cs))) 0) as [E|E].
  - replace (text cs) with [0] by (unfold text, cstring; by destruct (utf8_text cs)). cbn [c_strlen Z.eqb mbind result_bind].
    destruct (utf8_text cs); [|done]. pose proof (aux (written st)) as _. assert (0 ≤ aux (written st)) by (unfold aux; lia).
    destruct (grow_stream_ok (S (Z.to_nat (aux (written st) + Z.of_nat 0))) (capacity st) (aux (written st) + Z.of_nat 0)) as (size & -> & H1 & H2); [done|lia|].
    cbn [mbind result_bind]. exists size. rewrite (proj2 (Z.leb_le _ size)) by lia. done.
  - cbn [mbind result_bind]. assert (0 ≤ aux (written st)) by (unfold aux; lia).
    edestruct (grow_stream_ok (S (Z.to_nat (aux (written st) + Z.of_nat (length (utf8_text cs))))) (capacity st)) as (size & -> & H1 & H2); [done| |].
    2: { cbn [mbind result_bind]. rewrite (memcpy_mid _ [] (utf8_text cs) [0]) by done. cbn [mbind result_bind].
         exists size. by rewrite (proj2 (Z.leb_le _ size)) by lia. }
    lia.
Qed.

Lemma write_all_ok css : ∀ st j, 2 ≤ capacity st →
  ∃ size, write_all st (text <$> css) (text <$> j) =
          Ok (Stream (written st ++ utf8_text (tail_text (default [] j) css)) size) ∧ 2 ≤ size.
Proof.
  induction css as [|cs css IH]; intros st j Hc.
  { exists (capacity st). split; [|done]. change (utf8_text (tail_text _ [])) with (@nil Z). rewrite app_nil_r. by destruct st. }
  cbn [write_all fmap list_fmap].
  assert (∃ size, match text <$> j with
                  | Some j => if aux j - 1 =? 0 then Ok st else writeStreamStr st j (aux j - 1)
                  | None => Ok st
                  end = Ok (Stream (written st ++ utf8_text (default [] j)) size) ∧ 2 ≤ size) as (size1 & -> & H1).
  { destruct j as [j|]; cbn [fmap option_fmap option_map from_option id].
    - rewrite aux_text, Z.add_simpl_r. destruct (Z.eqb_spec (Z.of_nat (length (utf8_text j))) 0) as [E|E]; [|by apply writeStreamStr_ok].
      exists (capacity st). split; [|done]. destruct (utf8_text j); [|done]. rewrite app_nil_r. by destruct st.
    - exists (capacity st). split; [|done]. change (utf8_text []) with (@nil Z). rewrite app_nil_r. by destruct st. }
  cbn [mbind result_bind]. rewrite aux_text, Z.add_simpl_r.
  destruct (writeStreamStr_ok (Stream (written st ++ utf8_text (default [] j)) size1) cs _ H1 eq_refl) as (size2 & -> & H2).
  cbn [mbind result_bind written]. destruct (IH (Stream ((written st ++ utf8_text (default [] j)) ++ utf8_text cs) size2) j H2) as (size3 & -> & H3).
  exists size3. split; [|done]. do 2 f_equal. cbn [written tail_text mbind list_bind]. unfold tail_text. cbn [mbind list_bind].
  by rewrite !utf8_text_app, <- !app_assoc.
Qed.

Lemma p_join_ok css j trail : short (joined (default [] j) trail css) →
  p_join (text <$> css) (text <$> j) trail = Ok (text (joined (default [] j) trail css)).
Proof.
  intros Hs. destruct css as [|cs css]; [done|]. rewrite fmap_cons. cbn [p_join]. unfold appendString. rewrite aux_text, Z.add_simpl_r.
  destruct (writeStreamStr_ok (Stream [] MAX_LINE) cs _ ltac:(done) eq_refl) as (size1 & -> & H1). cbn [mbind result_bind].
  destruct (write_all_ok css (Stream ([] ++ utf8_text cs) size1) j H1) as (size2 & E & H2). cbn [written] in E |- *. rewrite E. clear E. cbn [mbind result_bind].
  set (st := Stream _ size2).
  assert (∃ size, match text <$> j with
                  | Some j => if trail then writeStreamStr st j (aux j - 1) else Ok st
                  | None => Ok st
                  end = Ok (Stream (utf8_text (joined (default [] j) trail (cs :: css))) size)) as (size3 & ->).
  { unfold joined. destruct j as [j|], trail; cbn [fmap option_fmap option_map from_option id].
    1: rewrite aux_text, Z.add_simpl_r; destruct (writeStreamStr_ok st j _ H2 eq_refl) as (size3 & -> & _); exists size3.
    2-4: exists size2.
    all: unfold st; cbn [written]; by rewrite ?app_nil_r, !utf8_text_app, <- ?app_assoc. }
  cbn [mbind result_bind written]. apply (stuffStringN_mid _ [] _ []); [by rewrite app_nil_r|done|done|].
  unfold aux. pose proof (proj2 Hs). cbn [joined] in *. lia.
Qed.

(** ** [replace] *)

(** The positions of the key in the text, from the left, without overlap: the reference. *)
Definition prefix_b (key s : list Z) : bool := bool_decide (take (length key) s = key).

Fixpoint replaced (fuel n : nat) (key s : list Z) (repl : nat → option (list Z)) : list Z :=
  match fuel, s with
  | S fuel, c :: s' =>
      if prefix_b key s then default key (repl n) ++ replaced fuel (S n) key (drop (length key) s) repl
      else c :: replaced fuel n key s' repl
  | _, _ => []
  end.

Fixpoint occurrences (fuel : nat) (key s : list Z) : nat :=
  match fuel, s with
  | S fuel, c :: s' => if prefix_b key s then S (occurrences fuel key (drop (length key) s)) else occurrences fuel key s'
  | _, _ => 0%nat
  end.

Fixpoint first_match (key s : list Z) : option nat :=
  match s with
  | [] => None
  | _ :: s' => if prefix_b key s then Some 0%nat else option_map S (first_match key s')
  end.

Lemma memcmp_prefix key : ∀ p r, 0 ∉ key → memcmp_eq (p ++ 0 :: r) key = Ok (prefix_b key p).
Proof.
  induction key as [|k key IH]; intros p r H; [by destruct p|]. apply not_elem_of_cons in H as [H1 H2]. cbn [memcmp_eq].
  destruct p as [|c p]; cbn [app rd lookup list_lookup mbind result_bind].
  { by rewrite (proj2 (Z.eqb_neq 0 k)). }
  unfold rd. cbn [lookup list_lookup mbind result_bind]. destruct (Z.eqb_spec c k) as [->|Hc].
  - rewrite skipn_cons, drop_0, IH by done. unfold prefix_b. cbn [length take]. f_equal.
    apply bool_decide_ext. split; [by intros ->|by intros [= ?]].
  - unfold prefix_b. cbn [length take]. rewrite bool_decide_eq_false_2; [done|]. by intros [= ?].
Qed.

Lemma prefix_head k key c s : prefix_b (k :: key) (c :: s) = true → c = k.
Proof. intros H%bool_decide_eq_true. by injection H. Qed.

Lemma searchBuffer_first k key p : 0 ∉ k :: key → ∀ r,
  searchBuffer (length p) (p ++ 0 :: r) (k :: key) = Ok (first_match (k :: key) p).
Proof.
  intros H. induction p as [|c p IH]; intros r; [done|]. cbn [length searchBuffer app]. unfold rd.
  cbn [lookup list_lookup mbind result_bind first_match].
  destruct (prefix_b (k :: key) (c :: p)) eqn:E.
  - rewrite (prefix_head _ _ _ _ E), Z.eqb_refl. pose proof (memcmp_prefix (k :: key) (c :: p) r H) as Em.
    cbn [app] in Em. rewrite E, (prefix_head _ _ _ _ E) in Em. by rewrite Em.
  - assert ((if c =? k then memcmp_eq (c :: p ++ 0 :: r) (k :: key) else Ok false) = Ok false) as ->.
    { destruct (c =? k); [|done]. pose proof (memcmp_prefix (k :: key) (c :: p) r H) as Em. cbn [app] in Em. by rewrite Em, E. }
    cbn [mbind result_bind]. rewrite skipn_cons, drop_0, IH. cbn [mbind result_bind]. by destruct (first_match _ p).
Qed.

Lemma first_match_prefix key s : ∀ i, first_match key s = Some i → (i < length s)%nat ∧ prefix_b key (drop i s) = true.
Proof.
  induction s as [|c s IH]; intros i; [done|]. cbn [first_match]. destruct (prefix_b key (c :: s)) eqn:E.
  - intros [= <-]. cbn. split; [lia|done].
  - destruct (first_match key s) as [j|]; [|done]. intros [= <-]. destruct (IH j eq_refl) as [H1 H2]. cbn. split; [lia|done].
Qed.

Lemma replaced_fuel key repl : key ≠ [] → ∀ f1 f2 n s, (length s ≤ f1)%nat → (length s ≤ f2)%nat →
  replaced f1 n key s repl = replaced f2 n key s repl ∧ occurrences f1 key s = occurrences f2 key s.
Proof.
  intros Hne. assert (Hk : (0 < length key)%nat) by (destruct key; [done|cbn; lia]).
  induction f1 as [|f1 IH]; intros f2 n s H1 H2.
  { destruct s; [|cbn in H1; lia]. by destruct f2. }
  destruct s as [|c s]; [by destruct f2|]. destruct f2 as [|f2]; [cbn in H2; lia|]. cbn [replaced occurrences].
  destruct (prefix_b key (c :: s)).
  - destruct (IH f2 (S n) (drop (length key) (c :: s))) as [-> ->]; [rewrite length_drop; cbn [length] in *; lia..|done].
  - cbn [length] in *. destruct (IH f2 n s) as [-> ->]; [lia..|done].
Qed.

Lemma replaced_match key repl : ∀ s f n, (length s ≤ f)%nat →
  match first_match key s with
  | None => replaced f n key s repl = s ∧ occurrences f key s = 0%nat
  | Some i => ∃ f', (length (drop (i + length key) s) ≤ f' ∨ key = [])%nat ∧
      replaced f n key s repl = take i s ++ default key (repl n) ++ replaced f' (S n) key (drop (i + length key) s) repl ∧
      occurrences f key s = S (occurrences f' key (drop (i + length key) s))
  end.
Proof.
  induction s as [|c s IH]; intros f n Hf; [by destruct f|]. destruct f as [|f]; [cbn in Hf; lia|].
  cbn [first_match replaced occurrences]. destruct (prefix_b key (c :: s)) eqn:E.
  { exists f. split; [|done]. destruct key as [|k key]; [by right|left]. rewrite length_drop. cbn [length] in *. lia. }
  cbn [length] in Hf. specialize (IH f n ltac:(lia)). destruct (first_match key s) as [i|]; cbn [option_map].
  - destruct IH as (f' & H1 & -> & ->). exists f'. cbn [Nat.add]. by rewrite skipn_cons.
  - destruct IH as [-> ->]. done.
Qed.

Lemma rebuild_cons s klen f l g : match l with [] => g = [] | f' :: _ => rx_offset f' = (rx_offset f + klen + length g)%nat end →
  memcpy s (Z.of_nat (rx_offset f + klen)) (Z.of_nat (length g)) = Ok g →
  ∀ mid, rebuild s klen l = Ok mid → rebuild s klen (f :: l) = Ok (rx_str f ++ g ++ mid).
Proof.
  intros Hl Hg mid Hm. cbn [rebuild]. destruct l as [|f' l].
  - subst g. injection Hm as <-. done.
  - replace (Z.of_nat (rx_offset f') - Z.of_nat (rx_offset f + klen)) with (Z.of_nat (length g)) by lia.
    rewrite Hg. cbn [mbind result_bind]. by rewrite Hm.
Qed.

Lemma prefix_split key p i : prefix_b key (drop i p) = true → (i < length p)%nat →
  p = take i p ++ key ++ drop (i + length key) p.
Proof.
  intros H%bool_decide_eq_true Hi. rewrite <- H at 1. rewrite <- drop_drop. by rewrite !take_drop.
Qed.

(** What the loops know of the text [p] from the offset on: [g] stands before the first
    match, [mid] is what the second loop writes, [e] is where the search ended. *)
Record scanned (key : list Z) (repl : nat → option (list Z)) (n : nat) (pre p : list Z)
    (l : list REGEX) (e : nat) (g mid : list Z) : Prop := {
  sc_rebuild : rebuild (pre ++ p ++ [0]) (length key) l = Ok mid;
  sc_end : (length pre ≤ e ≤ length pre + length p)%nat;
  sc_count : length l = occurrences (length p) key p;
  sc_first : match l with [] => g = [] ∧ e = length pre | f :: _ => rx_offset f = (length pre + length g)%nat end;
  sc_gap : take (length g) p = g;
  sc_text : replaced (length p) n key p repl = g ++ mid ++ drop (e - length pre) p;
  sc_size : (length (replaced (length p) n key p repl) + length l * length key = length p + length (l ≫= rx_str))%nat }.

Lemma scanned_step key repl n pre p i l e g mid : key ≠ [] → first_match key p = Some i →
  scanned key repl (S n) (pre ++ take i p ++ key) (drop (i + length key) p) l e g mid →
  scanned key repl n pre p (Regex (length pre + i) (default key (repl n)) :: l) e (take i p) (default key (repl n) ++ g ++ mid).
Proof.
  intros Hne Hm [H1 H2 H3 H4 H5 H6 H7]. destruct (first_match_prefix _ _ _ Hm) as [Hi Hp].
  pose proof (prefix_split _ _ _ Hp Hi) as Ep. pose proof (f_equal length Ep) as El. rewrite !length_app, length_take, length_drop in El.
  rewrite !length_app, length_take in H2, H4, H6. rewrite length_drop in H2.
  assert (Es : (pre ++ take i p ++ key) ++ drop (i + length key) p ++ [0] = pre ++ p ++ [0]).
  { rewrite Ep at 3. by rewrite <- !app_assoc. }
  pose proof (replaced_match key repl p (length p) n (Nat.le_refl _)) as Hr. rewrite Hm in Hr.
  destruct Hr as (f' & Hf' & Hr1 & Hr2). destruct Hf' as [Hf'|]; [|done].
  destruct (replaced_fuel key repl Hne f' (length (drop (i + length key) p)) (S n) _ Hf' (Nat.le_refl _)) as [Er Eo].
  rewrite Er in Hr1. rewrite Eo in Hr2. split.
  - rewrite <- Es. apply (rebuild_cons _ _ (Regex _ _)); [| |done].
    + destruct l; [by destruct H4|]. cbn [rx_offset]. lia.
    + cbn [rx_offset]. apply (memcpy_mid _ (pre ++ take i p ++ key) g (drop (length g) (drop (i + length key) p) ++ [0])).
      * f_equal. rewrite (app_assoc g). f_equal. rewrite <- (take_drop (length g) (drop (i + length key) p)) at 1. by rewrite H5.
      * rewrite !length_app, length_take. lia.
      * done.
  - lia.
  - cbn [length]. by rewrite H3, Hr2.
  - cbn [rx_offset]. rewrite length_take. lia.
  - rewrite length_take, Nat.min_l by lia. done.
  - rewrite Hr1, H6, drop_drop, <- !app_assoc. do 5 f_equal. lia.
  - cbn [length mbind list_bind rx_str]. rewrite Hr1. rewrite !length_app, length_take. fold (mbind rx_str l).
    pose proof ((length_drop p (i + length key))%nat). cbn [Nat.mul]. lia.
Qed.

Lemma fits n : Z.of_nat n < 2 ^ 31 → fits_int n = Ok ().
Proof. intros H. unfold fits_int. by rewrite (proj2 (Z.ltb_lt _ _)). Qed.

Lemma find_all_ok key repl : key ≠ [] → 0 ∉ key → (∀ n r, repl n = Some r → Z.of_nat (length r) < 2 ^ 31) →
  ∀ fuel n pre p, (length p < fuel)%nat → Z.of_nat (length pre + length p) < 2 ^ 31 →
  ∃ l e g mid, find_all fuel n (length pre) key (pre ++ p ++ [0]) repl = Ok (l, e) ∧ scanned key repl n pre p l e g mid.
Proof.
  intros Hne H0 Hrepl. induction fuel as [|fuel IH]; intros n pre p Hf Hp31; [lia|]. cbn [find_all].
  rewrite (proj2 (Nat.ltb_ge _ _)) by (rewrite !length_app; cbn [length]; lia).
  replace (length (pre ++ p ++ [0%Z]) - 1 - length pre)%nat with (length p) by (rewrite !length_app; cbn [length]; lia).
  rewrite drop_app_length. assert (∃ k key0, key = k :: key0) as (k & key0 & Ek) by (destruct key; [done|eauto]).
  assert (Es : search_key (length p) (p ++ [0]) key = Ok (first_match key p)).
  { rewrite Ek. cbn [search_key]. apply searchBuffer_first. by rewrite <- Ek. }
  rewrite Es. cbn [mbind result_bind]. clear k key0 Ek Es.
  pose proof (replaced_match key repl p (length p) n (Nat.le_refl _)) as Hr.
  destruct (first_match key p) as [i|] eqn:Em.
  2: { destruct Hr as [Hr1 Hr2]. exists [], (length pre), [], []. split; [done|].
       split; [done|lia|done|done|done| |]; rewrite ?Nat.sub_diag, Hr1; cbn; [done|lia]. }
  clear Hr. destruct (first_match_prefix _ _ _ Em) as [Hi Hp]. pose proof (prefix_split _ _ _ Hp Hi) as Ep.
  pose proof (f_equal length Ep) as El. rewrite !length_app, length_take, length_drop in El.
  assert (Hold : match repl n with
                 | Some r => Ok r
                 | None => memcpy (pre ++ p ++ [0]) (Z.of_nat (length pre + i)) (Z.of_nat (length key))
                 end = Ok (default key (repl n))).
  { destruct (repl n); [done|]. apply (memcpy_mid _ (pre ++ take i p) key (drop (i + length key) p ++ [0])); [|rewrite length_app, length_take; lia|done].
    rewrite Ep at 1. by rewrite <- !app_assoc. }
  rewrite Hold. cbn [mbind result_bind]. rewrite decide_False by done. rewrite Nat.add_0_r.
  assert (Hdef : Z.of_nat (length (default key (repl n))) < 2 ^ 31).
  { destruct (repl n) as [r|] eqn:Er; [by apply (Hrepl n)|]. cbn [default from_option id]. lia. }
  rewrite (fits (length pre + i)), (fits (length key)), (fits (length (default key (repl n)))) by lia. cbn [mbind result_bind].
  assert (Hk : (0 < length key)%nat) by (destruct key; [done|cbn; lia]).
  destruct (IH (S n) (pre ++ take i p ++ key) (drop (i + length key) p)) as (l & e & g & mid & E & Hsc); [rewrite length_drop; lia|rewrite !length_app, length_take, length_drop; lia|].
  rewrite !length_app, length_take, Nat.min_l, Nat.add_assoc in E by lia.
  replace ((pre ++ take i p ++ key) ++ drop (i + length key) p ++ [0]) with (pre ++ p ++ [0]) in E by (rewrite Ep at 1; by rewrite <- !app_assoc).
  rewrite E. cbn [mbind result_bind]. do 4 eexists. split; [done|]. by apply scanned_step.
Qed.

(** C29: [replace] without a regular expression ([replaceString]), for a key that is not
    empty and holds no byte 0 and sizes that an [int] holds: the string is read from the left, every occurrence of the
    key that does not overlap the one before gives way to what the replacement
    expression answers for it, or stays when that is no string; the rest is kept, the
    count is the number of occurrences, and both loops stay in the two buffers.  Without
    an occurrence there is no new string. *)
Theorem replaceString_replaces (key p : list Z) (repl : nat → option (list Z)) (Hne : key ≠ []) (H0 : 0 ∉ key)
    (Hp : Z.of_nat (length p) < 2 ^ 31) (Hrepl : ∀ n r, repl n = Some r → Z.of_nat (length r) < 2 ^ 31) :
  replaceString key (p ++ [0]) repl =
  Ok (if decide (occurrences (length p) key p = 0%nat) then None else Some (replaced (length p) 0 key p repl ++ [0]),
      occurrences (length p) key p).
Proof.
  unfold replaceString. destruct (find_all_ok key repl Hne H0 Hrepl (S (length (p ++ [0]))) 0 [] p) as (l & e & g & mid & E & [H1 H2 H3 H4 H5 H6 H7]).
  { rewrite length_app. cbn [length]. lia. }
  { done. }
  cbn [length app] in *. rewrite Nat.add_0_l, Nat.sub_0_r in *. rewrite E. cbn [mbind result_bind]. rewrite <- H3.
  destruct l as [|f l]; [done|]. rewrite !decide_False by done. rewrite H4.
  assert (Ea : aux (p ++ [0]) = Z.of_nat (length p) + 1) by (unfold aux; rewrite length_app; cbn [length]; lia).
  set (reps := length ((f :: l) ≫= rx_str)) in *. set (olds := (length (f :: l) * length key)%nat) in *.
  pose proof (f_equal length H5) as Hg. rewrite length_take in Hg.
  rewrite (memcpy_mid _ [] g (drop (length g) p ++ [0]) 0); [| |done|done].
  2: { rewrite app_nil_l, app_assoc. f_equal. rewrite <- (take_drop (length g) p) at 1. by rewrite H5. }
  cbn [mbind result_bind]. rewrite H1. cbn [mbind result_bind].
  rewrite (memcpy_mid _ (take e p) (drop e p) [0]); [|by rewrite app_assoc, take_drop|rewrite length_take; lia|rewrite Ea, length_drop; lia].
  cbn [mbind result_bind]. rewrite <- H6. set (r := replaced _ _ _ _ _) in *.
  set (newLen := _ - _ + _). assert (En : newLen = Z.of_nat (length r)) by (unfold newLen; lia). rewrite En.
  rewrite (proj2 (Z.ltb_ge _ _)), (proj2 (Z.ltb_ge _ _)) by (unfold aux; lia). cbn [orb].
  by replace (Z.to_nat (Z.of_nat (length r) + 1) - length r)%nat with 1%nat by lia.
Qed.

(** The key [a\000] on [xa]: the match takes the final 0 in, the search ends behind the
    buffer and the copy of the rest has a negative size. *)
Example replace_behind_end : replaceString [97; 0] [120; 97; 0] (λ _, Some [98]) = UB.
Proof. vm_compute. reflexivity. Qed.

Lemma replaceString_replaces_witness :
  replaceString [97; 98] ([120; 97; 98; 97; 98; 121] ++ [0]) (λ n, if decide (n = 0%nat) then Some [99] else None) =
  Ok (Some [120; 99; 97; 98; 121; 0], 2%nat).
Proof.
  rewrite (replaceString_replaces [97; 98] [120; 97; 98; 97; 98; 121] _ ltac:(done) ltac:(by apply (bool_decide_unpack _)) ltac:(done)).
  - vm_compute. reflexivity.
  - intros n r H. destruct (decide (n = 0%nat)); [by injection H as <-|done].
Defined.

(** ** Properties *)

(** C30: [push] of characters at an index of a string ([pushOnString]) inserts them between
    its characters, whatever their width, and [pop] of that many at the index
    ([popString]) gives both strings back. *)
Theorem push_pop_roundtrip (new cs : list Z) (k : nat) (Hk : (k ≤ length cs)%nat) (Hne : new ≠ [])
    (Hw : short new) (Hs : short cs) (Hall : short (take k cs ++ new ++ drop k cs)) :
  pushOnString (text new) (text cs) (Z.of_nat k) = Ok (text (take k cs ++ new ++ drop k cs)) ∧
  popString (text (take k cs ++ new ++ drop k cs)) (Z.of_nat k) (Some (Z.of_nat (length new))) = Ok (text new, text cs).
Proof.
  pose proof (short_length _ Hs). pose proof (short_length _ Hw).
  assert (Ek : push_char_at (Z.of_nat k) (length cs) = k).
  { unfold push_char_at. rewrite (proj2 (Z.ltb_ge _ _)) by lia. lia. }
  split.
  - pose proof (pushOnString_ok new cs (Z.of_nat k)) as E. rewrite Ek in E. by apply E.
  - assert (Hnew : (0 < length new)%nat) by (destruct new; [done|cbn; lia]).
    assert (Ep : pop_char_at (Z.of_nat k) (length (take k cs ++ new ++ drop k cs)) = Some k).
    { unfold pop_char_at. rewrite !length_app, length_take, length_drop, (proj2 (Z.ltb_ge _ 0)) by lia.
      rewrite (proj2 (Z.leb_le 0 _)), (proj2 (Z.ltb_lt _ _)) by lia. cbn [andb]. by rewrite Nat2Z.id. }
    assert (Hd : drop k (take k cs ++ new ++ drop k cs) = new ++ drop k cs).
    { apply drop_app_length'. rewrite length_take. lia. }
    rewrite (popString_ok _ _ (Some (Z.of_nat (length new))) k); [|done|unfold MAX_LONG; lia|done|cbn [pop_count]; unfold MAX_LONG; lia].
    cbn [pop_count]. rewrite Nat2Z.id, <- drop_drop, Hd, take_app_length, drop_app_length.
    rewrite take_app_length' by (rewrite length_take; lia). by rewrite take_drop.
Qed.

(** C31: indexing a string ([implicitIndexString]) answers the character of that number,
    from the end for a negative index, and [setf] of it ([setNthStr]) replaces that one
    character, of any width, by the new string; an index outside is the error
    [ERR_STRING_INDEX_INVALID]. *)
Theorem string_index_set (cs new : list Z) (index : Z) (Hs : short cs) (Hne : cs ≠ []) (Hi : - 2 ^ 63 ≤ index < MAX_LONG) :
  match pop_char_at index (length cs) with
  | Some k => ∃ c ptr, cs !! k = Some c ∧ implicitIndexString (text cs) index = Ok (text [c], ptr) ∧
      setNthStr (text cs) (text new) ptr = Ok (text (take k cs ++ new ++ drop (S k) cs))
  | None => implicitIndexString (text cs) index = Fail ERR_STRING_INDEX_INVALID
  end.
Proof.
  pose proof (utf8_text_length _ (short_wide _ Hs)) as Hbytes. assert (Hpos : (0 < length cs)%nat) by (destruct cs; [done|cbn; lia]).
  destruct (pop_char_at index (length cs)) as [k|] eqn:Ek.
  2: { unfold implicitIndexString. rewrite aux_text, (proj2 (Z.eqb_neq _ 1)) by lia. cbn [andb].
       rewrite wlen_text by done. cbn [mbind result_bind]. by rewrite adjust_ok, Ek by done. }
  assert (Hk : (k < length cs)%nat).
  { unfold pop_char_at in Ek. destruct ((_ <=? _) && _) eqn:E; [|done]. injection Ek as <-.
    apply andb_true_iff in E as [E1%Z.leb_le E2%Z.ltb_lt]. lia. }
  destruct (lookup_lt_is_Some_2 _ _ Hk) as [c Hc]. exists c. eexists. split; [done|].
  rewrite (implicitIndexString_ok _ _ _ _ Hs Hi Ek Hc). split; [done|].
  pose proof (take_drop_middle _ _ _ Hc) as Ecs. assert (H1 : short (take k cs ++ [c] ++ drop (S k) cs)) by (cbn; by rewrite Ecs).
  pose proof (first_len_text _ _ _ H1) as E1. cbn [app] in E1. rewrite Ecs in E1.
  unfold setNthStr. rewrite (aux_text cs), Z.add_simpl_r, (proj2 (Z.eqb_neq _ 0)), Nat2Z.id, E1 by lia. cbn [mbind result_bind].
  assert (Et : text cs = utf8_text (take k cs) ++ wchar_utf8 c ++ utf8_text (drop (S k) cs) ++ [0]).
  { rewrite <- Ecs at 1. change (c :: drop (S k) cs) with ([c] ++ drop (S k) cs). unfold text, cstring.
    by rewrite !utf8_text_app, utf8_text_one, <- !app_assoc. }
  pose proof (f_equal length Et) as El. unfold text, cstring in El. rewrite !length_app in El. cbn [length] in El.
  rewrite (memcpy_mid _ [] _ _ 0 _ Et eq_refl eq_refl). cbn [mbind result_bind]. rewrite memcpy_payload. cbn [mbind result_bind].
  rewrite (memcpy_mid _ (utf8_text (take k cs) ++ wchar_utf8 c) (utf8_text (drop (S k) cs)) [0]);
    [|by rewrite Et, <- !app_assoc|rewrite length_app; lia|lia].
  cbn [mbind result_bind]. unfold text, cstring. by rewrite !utf8_text_app, <- !app_assoc.
Qed.

(** C32: [explode] of a string into parts of [n] characters ([p_explode]) gives its
    consecutive parts, the last one shorter unless the flag leaves it out, and [join]
    ([p_join], over the growing buffer of a stream) of the parts is the string again. *)
Theorem explode_join (cs : list Z) (n : nat) (Hs : short cs) (Hn : (0 < n)%nat) (Hb : Z.of_nat n < 2 ^ 31) :
  (∀ flag, p_explode (text cs) (Some (Z.of_nat n, flag)) = Ok (text <$> whole_parts n flag cs)) ∧
  concat (whole_parts n false cs) = cs ∧
  p_join (text <$> whole_parts n false cs) None false = Ok (text cs).
Proof.
  assert (Ec : concat (whole_parts n false cs) = cs) by exact (concat_parts n Hn (length cs) cs (Nat.le_refl _)).
  split; [intros; by apply p_explode_ok|]. split; [done|].
  assert (Ej : joined (default [] None) false (whole_parts n false cs) = cs).
  { rewrite <- Ec at 2. destruct (whole_parts n false cs) as [|c l]; [done|]. cbn [joined default concat from_option]. f_equal.
    rewrite app_nil_r. clear. induction l as [|d l IH]; [done|]. cbn [concat]. by rewrite <- IH. }
  rewrite (p_join_ok _ None) by (by rewrite Ej). by rewrite Ej.
Qed.

(** [slice] of ["abc"] with the length [MAX_LONG - 1]: the sum overflows. *)
Example slice_overflows : substring [97; 98; 99; 0] 2 (MAX_LONG - 1) = UB.
Proof. vm_compute. reflexivity. Qed.

(** [(trim "xxx" "y" "x")]: nothing is trimmed on the left, everything on the right, and
    the byte before the string is read. *)
Example trim_before_start : trim_chars [120; 120; 120; 0] [121; 0] (Some [120; 0]) = UB.
Proof. vm_compute. reflexivity. Qed.

Example trim_both : trim_chars [42; 97; 98; 45; 45; 0] [42; 0] (Some [45; 0]) = Ok [97; 98; 0].
Proof. vm_compute. reflexivity. Qed.

Lemma push_pop_roundtrip_witness :
  popString (text [97; 0x20ac; 228; 98]) 1 (Some 2) = Ok (text [0x20ac; 228], text [97; 98]).
Proof.
  assert (wide 97 ∧ wide 98 ∧ wide 0x20ac ∧ wide 228) as (H1 & H2 & H3 & H4) by (unfold wide, codepoint; lia).
  apply (push_pop_roundtrip [0x20ac; 228] [97; 98] 1); [cbn; lia|done|split; [by repeat constructor|vm_compute; reflexivity]..].
Defined.

Lemma string_index_set_witness :
  ∃ c ptr, [97; 0x20ac; 98] !! 1%nat = Some c ∧ implicitIndexString (text [97; 0x20ac; 98]) (-2) = Ok (text [c], ptr) ∧
    setNthStr (text [97; 0x20ac; 98]) (text [120; 121]) ptr = Ok (text [97; 120; 121; 98]).
Proof.
  assert (wide 97 ∧ wide 98 ∧ wide 0x20ac) as (H1 & H2 & H3) by (unfold wide, codepoint; lia).
  apply (string_index_set [97; 0x20ac; 98] [120; 121] (-2)); [split; [by repeat constructor|vm_compute; reflexivity]|done|unfold MAX_LONG; lia].
Defined.

Lemma explode_join_witness :
  p_explode (text [97; 0x20ac; 98]) (Some (2, false)) = Ok [text [97; 0x20ac]; text [98]].
Proof.
  assert (wide 97 ∧ wide 98 ∧ wide 0x20ac) as (H1 & H2 & H3) by (unfold wide, codepoint; lia).
  apply (explode_join [97; 0x20ac; 98] 2); [split; [by repeat constructor|vm_compute; reflexivity]|lia|lia].
Defined.

(** ** [appendCellString] *)

(** A cell of a string that grows; the buffer that is appended is another one. *)
Lemma appendCellString_ok m cell c old new rest from : cells m !! cell = Some c →
  heap m !! c_contents c = Some (old ++ [0]) → c_aux c = aux (old ++ [0]) → from ≠ c_contents c → heap m !! from = Some (new ++ rest) →
  ∃ m' c', appendCellString cell from (aux new) m = Ok m' ∧ cells m' !! cell = Some c' ∧
    heap m' !! c_contents c' = Some (old ++ new ++ [0]) ∧ c_aux c' = aux (old ++ new ++ [0]) ∧
    (∀ q, q ≠ cell → cells m' !! q = cells m !! q) ∧ (∀ b, b ≠ c_contents c → b ≠ brk m → heap m' !! b = heap m !! b).
Proof.
  intros Hc Hold Haux Hne Hnew. unfold appendCellString, cell_at, buffer in *. rewrite Hc. cbn [mbind result_bind]. rewrite Hold. cbn [mbind result_bind].
  unfold free_buffer. rewrite Hold. cbn [mbind result_bind set_heap heap]. rewrite lookup_delete_ne, Hnew by done.
  rewrite (memcpy_mid (new ++ rest) [] new rest) by done. cbn [mbind result_bind].
  rewrite (memcpy_mid (old ++ [0]) [] old [0]); [|done|done|rewrite Haux; unfold aux; rewrite length_app; cbn [length]; lia].
  cbn [mbind result_bind]. unfold new_buffer, put. cbn [cells set_brk set_heap]. rewrite Hc. cbn [mbind result_bind cells set_cells].
  rewrite lookup_insert, decide_True by done. do 2 eexists. split; [done|]. cbn [cells set_cells heap set_brk set_heap brk]. split; [by rewrite lookup_insert, decide_True by done|].
  cbn [c_contents c_aux set_aux set_cell_contents]. rewrite lookup_insert, decide_True by done. split; [done|]. split.
  { rewrite Haux. unfold aux. rewrite !length_app. lia. }
  split; intros q H; [by rewrite !lookup_insert_ne by done|]. intros Hb. by rewrite lookup_insert_ne, lookup_delete_ne by done.
Qed.

(** [(push s s -1)] and [(extend s s)]: the buffer to append is the one [realloc] moves. *)
Example append_itself :
  appendCellString 3 50 2 (Memory {[3 := CellOf CELL_STRING 1 3 50]} 10 9 100000 [] 120 100 100 110 ∅ {[50 := [97; 98; 0]]} ∅) = UB.
Proof. vm_compute. reflexivity. Qed.
