(* ===== verification/Longdiv.v ===== *)
(** * Division of big integers (src/nl-math.c, [divModBigint])

    Long division in base 10^9: a digit of the quotient is guessed from the leading
    digits as doubles, from above, and corrected downwards.  The three work arrays of
    [alloca] are arguments; reads and writes are checked against their lengths. *)

From stdpp Require Import base list numbers tactics.
From Stdlib Require Import ZArith Lia SpecFloat.
From S2P Require Import Prelude Cell Arith Bigint.

#[global] Open Scope Z_scope.

(** [n] may be 0 or negative: the first digit is read all the same. *)
Definition bigintToAbsFloat (numPtr : list Z) (n : Z) : result spec_float :=
  d ← rd numPtr 1;
  for_up 2 (Z.to_nat (n - 1)) (λ i value,
    d ← rd numPtr i;
    Ok (SFadd 53 1024 (SFmul 53 1024 value (floatOfInt BIGINT_BASE)) (floatOfInt d))) (floatOfInt d).

(** The conversion of a double to an [int]. *)
Definition int_of_float (f : spec_float) : result Z :=
  match f with
  | S754_infinity _ | S754_nan => UB
  | _ => let v := truncFloat f in if (- 2 ^ 31 <=? v) && (v <? 2 ^ 31) then Ok v else UB
  end.

(** [rFloat / yFloat + 1.0] *)
Definition guess (rFloat yFloat : spec_float) : result Z :=
  int_of_float (SFadd 53 1024 (SFdiv 53 1024 rFloat yFloat) (floatOfInt 1)).

(** [PRODUCT]: [p = y * q], with one digit more when there is a carry. *)
Definition product (y : list Z) (ny : nat) (q : Z) (p : list Z) : result (list Z * nat) :=
  '(p, carry) ← for_down ny (λ j '(p, carry),
    yj ← rd y j;
    let digit := int64 (yj * q + carry) in
    if BIGINT_BASE <=? digit then
      p ← wr p j (Z.rem digit BIGINT_BASE); Ok (p, int32 (Z.quot digit BIGINT_BASE))
    else p ← wr p j (int32 digit); Ok (p, 0)) (p, 0);
  if carry =? 0 then Ok (p, ny)
  else
    p ← for_down ny (λ j p, v ← rd p j; wr p (j + 1) v) p;
    p ← wr p 1 carry;
    Ok (p, (ny + 1)%nat).

(** The guess is taken down until the product is not above the remainder; the bound is
    on the number of guesses. *)
Fixpoint correct_digit (fuel : nat) (r : list Z) (nr : nat) (y : list Z) (ny : nat) (q : Z) (p : list Z)
    : result (Z * list Z * nat) :=
  match fuel with
  | O => NoFuel
  | S fuel =>
      '(p, pn) ← product y ny q p;
      cmp ← cmpAbsBigint r nr p pn;
      if cmp <? 0 then correct_digit fuel r nr y ny (q - 1) p else Ok (q, p, pn)
  end.

Definition GUESSES : nat := 4.

(** [r = r - p] in place. *)
Definition subtract (r : list Z) (nr : nat) (p : list Z) (pn : nat) : result (list Z) :=
  '(r, _, _) ← for_down nr (λ k '(r, carry, j),
    rk ← rd r k;
    digit ← (if Nat.ltb 0 j then pj ← rd p j; Ok (rk - pj - carry) else Ok (rk - carry));
    let '(digit, carry) := if digit <? 0 then (digit + BIGINT_BASE, 1) else (digit, 0) in
    r ← wr r k (Z.rem digit BIGINT_BASE);
    Ok (r, carry, (j - 1)%nat)) (r, 0, pn);
  Ok r.

(** [TRIM_ZEROS] and the line behind it; [last] is [i = nx]. *)
Definition trim_remainder (r : list Z) (nr : nat) (last : bool) : result (list Z * nat) :=
  r1 ← rd r 1;
  '(r, nr) ← (if r1 =? 0 then
                n ← leading_zeros (nr + 1) r 1 nr 0;
                if Nat.eqb n nr then Ok (r, 1%nat)
                else r ← memmove_left r n nr; Ok (r, (nr - n)%nat)
              else Ok (r, nr));
  r1 ← rd r 1;
  Ok (r, if (r1 =? 0) && negb last then 0%nat else nr).

(** The arrays with the numbers of digits in [r] and [q]. *)
Record longdiv := Longdiv { ld_r : list Z; nr : nat; ld_q : list Z; sq : nat; ld_p : list Z }.

(** The body of the loop for the digit [x[i]]. *)
Definition div_digit (x : list Z) (nx : nat) (y : list Z) (ny : nat) (yFloat : spec_float) (i : nat) (st : longdiv)
    : result longdiv :=
  xi ← rd x i;
  let nr := S (nr st) in
  r ← wr (ld_r st) nr xi;
  skip ← (if Nat.eqb (sq st) 0 then cmp ← cmpAbsBigint r nr y ny; Ok (cmp <? 0) else Ok false);
  if skip : bool then Ok (Longdiv r nr (ld_q st) (sq st) (ld_p st))
  else
    let n := if Nat.ltb 2 ny then Z.of_nat nr + 2 - Z.of_nat ny else Z.of_nat nr in
    rFloat ← bigintToAbsFloat r n;
    let sq := S (sq st) in
    match SFcompare yFloat rFloat with
    | Some Gt =>
        q ← wr (ld_q st) sq 0;
        '(r, nr) ← trim_remainder r nr (Nat.eqb i nx);
        Ok (Longdiv r nr q sq (ld_p st))
    | c =>
        q0 ← (match c with Some Eq => Ok 1 | _ => guess rFloat yFloat end);
        q ← wr (ld_q st) sq q0;
        '(qd, p, pn) ← correct_digit GUESSES r nr y ny q0 (ld_p st);
        q ← wr q sq qd;
        r ← subtract r nr p pn;
        '(r, nr) ← trim_remainder r nr (Nat.eqb i nx);
        Ok (Longdiv r nr q sq p)
    end.

(** The result and its number of digits. *)
Definition divModBigint (x : list Z) (nx : nat) (y : list Z) (ny : nat) (rmndr : bool) (r q p : list Z)
    : result (list Z * nat) :=
  y1 ← rd y 1;
  if (y1 =? 0) && Nat.eqb ny 1 then Fail ERR_MATH
  else
    cmp ← cmpAbsBigint x nx y ny;
    if cmp <? 0 then
      if rmndr then
        if Nat.leb (nx + 1) (length x) then Ok (take (nx + 1) x, nx) else UB
      else Ok ([1; 0], 1%nat)
    else
      r ← wr r 0 1; q ← wr q 0 1; p ← wr p 0 1;
      yFloat ← bigintToAbsFloat y (if Nat.ltb 2 ny then 2 else Z.of_nat ny);
      st ← for_up 1 nx (div_digit x nx y ny yFloat) (Longdiv r 0 q 0 p);
      x0 ← rd x 0;
      y0 ← rd y 0;
      if rmndr then
        if Nat.leb (nr st + 1) (length (ld_r st)) then Ok (<[0%nat := x0]> (take (nr st + 1) (ld_r st)), nr st) else UB
      else
        if Nat.leb (sq st + 1) (length (ld_q st)) then Ok (<[0%nat := x0 * y0]> (take (sq st + 1) (ld_q st)), sq st) else UB.

(** The blocks of [alloca] as the code asks for them. *)
Definition alloca_r (nx : nat) : nat := nx + 1.
Definition alloca_q (nx ny : nat) : nat := nx - ny + 1.
Definition alloca_p (nx : nat) : nat := nx + 1.

(** ** The operators on big integers ([arithmetikOp])

    [malloc n] and [alloca n] are blocks for [n] integers with whatever is in them; the
    operands are what the arguments evaluate to, all of them big integers. *)

Definition ERR_BIGINT_NOT_ALLOWED := 74.

Section Operators.

Context (malloc alloca : nat → list Z).

Definition bigint_op (op : arith) (x : list Z) (nx : nat) (y : list Z) (ny : nat) : result (list Z * nat) :=
  let n := match op with
           | A_MULTIPLY => nx + ny + 2
           | _ => if Nat.ltb ny nx then nx + 2 else ny + 2
           end%nat in
  let divMod rmndr := divModBigint x nx y ny rmndr (alloca (alloca_r nx)) (alloca (alloca_q nx ny)) (alloca (alloca_p nx)) in
  match op with
  | A_ADD => s ← addBigint x nx y ny (malloc n); Ok (sm s, nsm s)
  | A_SUBTRACT => s ← subBigint x nx y ny (malloc n); Ok (sm s, nsm s)
  | A_MULTIPLY => mulBigint x nx y ny (malloc n)
  | A_DIVIDE => divMod false
  | A_MODULO => divMod true
  | _ => Fail ERR_BIGINT_NOT_ALLOWED
  end.

Fixpoint bigint_ops (op : arith) (x : list Z) (nx : nat) (operands : list (list Z * nat)) : result (list Z * nat) :=
  match operands with
  | [] => Ok (x, nx)
  | (y, ny) :: operands => '(z, nz) ← bigint_op op x nx y ny; bigint_ops op z nz operands
  end.

Definition bigint_unary (op : arith) (x : list Z) (nx : nat) : result (list Z * nat) :=
  match op with
  | A_SUBTRACT => x0 ← rd x 0; x ← wr x 0 (x0 * -1); Ok (x, nx)
  | A_ADD | A_MULTIPLY | A_DIVIDE | A_MODULO => Ok (x, nx)
  | _ => Fail ERR_BIGINT_NOT_ALLOWED
  end.

Definition arithmetikOp_bigint (op : arith) (x : list Z) (nx : nat) (operands : list (list Z * nat)) : result (list Z * nat) :=
  match operands with
  | [] => bigint_unary op x nx
  | _ => bigint_ops op x nx operands
  end.

End Operators.

(** The number of decimal digits. *)
Fixpoint length_loop (fuel : nat) (bigdigit basediv cnt : Z) : result Z :=
  match fuel with
  | O => NoFuel
  | S fuel =>
      if basediv =? 0 then UB
      else if Z.quot bigdigit basediv =? 0 then length_loop fuel bigdigit (Z.quot basediv 10) (cnt + 1) else Ok cnt
  end.

Definition lengthBigint (num : list Z) (len : nat) : result Z :=
  bigdigit ← rd num 1;
  if bigdigit =? 0 then Ok 1
  else cnt ← length_loop 10 bigdigit (BIGINT_BASE / 10) 0; Ok (9 * (Z.of_nat len - 1) + 9 - cnt).
