(* ===== verification/Rounding.v ===== *)
(** * Rounding of doubles

    What [SpecFloat] computes for positive doubles is the exact value rounded to the
    nearest multiple of the last place: the facts about [binary_round_aux] and the
    operations that the division of big integers needs. *)

From stdpp Require Import base list numbers tactics.
From Stdlib Require Import ZArith Lia SpecFloat.
From S2P Require Import Prelude Cell Arith.

#[global] Open Scope Z_scope.

(** ** Shifts with a round and a sticky bit *)

Lemma digits2_bounds p : 2 ^ (Z.pos (digits2_pos p) - 1) ≤ Z.pos p < 2 ^ Z.pos (digits2_pos p).
Proof.
  induction p as [p IH|p IH|]; cbn [digits2_pos]; [| |done].
  all: rewrite Pos2Z.inj_succ; replace (Z.succ (Z.pos (digits2_pos p)) - 1) with (Z.succ (Z.pos (digits2_pos p) - 1)) by lia.
  all: rewrite !Z.pow_succ_r by lia; lia.
Qed.

Lemma digits2_unique p d : 0 < d → 2 ^ (d - 1) ≤ Z.pos p < 2 ^ d → Z.pos (digits2_pos p) = d.
Proof.
  intros Hd [H1 H2]. destruct (digits2_bounds p) as [H3 H4]. set (k := Z.pos (digits2_pos p)) in *.
  assert (Hk : 0 < k) by (unfold k; lia).
  destruct (Z.lt_trichotomy k d) as [H|[H|H]]; [|done|].
  - pose proof (Z.pow_le_mono_r 2 k (d - 1)). lia.
  - pose proof (Z.pow_le_mono_r 2 d (k - 1)). lia.
Qed.

(** [N / D] lies at the record: its integer part, its half and what is below. *)
Definition located (mrs : shr_record) (N D : Z) : Prop :=
  let f := N - shr_m mrs * D in
  0 ≤ shr_m mrs ∧ 0 ≤ f < D ∧ (shr_r mrs = true ↔ D ≤ 2 * f) ∧ (shr_s mrs = true ↔ f ≠ 0 ∧ 2 * f ≠ D).

Lemma located_shift mrs N D : located mrs N D → located (shr_1 mrs) N (2 * D).
Proof.
  destruct mrs as [m r s]. unfold located. cbn [shr_m shr_r shr_s]. intros (Hm & Hf & Hr & Hs).
  assert (E : r || s = true ↔ N - m * D ≠ 0).
  { rewrite orb_true_iff, Hr, Hs. split; intros H; lia. }
  assert (∃ m' b, shr_1 (Build_shr_record m r s) = Build_shr_record m' b (r || s) ∧ m = 2 * m' + Z.b2z b ∧ 0 ≤ m') as (m' & b & -> & -> & Hm').
  { destruct m as [|[p|p|]|p]; cbn [shr_1]; [exists 0, false|exists (Z.pos p), true|exists (Z.pos p), false|exists 0, true|lia]; split_and!; cbn; done || lia. }
  cbn [shr_m shr_r shr_s]. rewrite E. destruct b; cbn [Z.b2z] in *; (split; [lia|]; split; [lia|]; split; [split; [intros; lia|intros; done || lia]|lia]).
Qed.

Lemma located_shifts p : ∀ mrs N D, located mrs N D → located (iter_pos shr_1 p mrs) N (2 ^ Z.pos p * D).
Proof.
  induction p as [p IH|p IH|]; intros mrs N D H; cbn [iter_pos].
  - replace (2 ^ Z.pos p~1 * D) with (2 ^ Z.pos p * (2 ^ Z.pos p * (2 * D))); [by apply IH, IH, located_shift|].
    rewrite (Pos2Z.inj_xI p). replace (2 * Z.pos p + 1) with (Z.pos p + Z.pos p + 1) by lia. rewrite !Z.pow_add_r by lia. lia.
  - replace (2 ^ Z.pos p~0 * D) with (2 ^ Z.pos p * (2 ^ Z.pos p * D)); [by apply IH, IH|].
    rewrite (Pos2Z.inj_xO p). replace (2 * Z.pos p) with (Z.pos p + Z.pos p) by lia. rewrite Z.pow_add_r by lia. lia.
  - by apply located_shift.
Qed.

Lemma located_start N D : 0 < D → 0 ≤ N →
  located (shr_record_of_loc (N / D) (new_location D (N mod D))) N D.
Proof.
  intros HD HN. pose proof (Z.div_pos N D HN HD) as Hq. pose proof (Z.mod_pos_bound N D HD) as Hf.
  assert (E : N - N / D * D = N mod D) by (pose proof (Z.div_mod N D); lia).
  unfold new_location, new_location_even, new_location_odd. destruct (Z.even D) eqn:Ev.
  - destruct (Z.eqb_spec (N mod D) 0) as [Hz|Hz]; [|destruct (Z.compare_spec (2 * (N mod D)) D)];
      unfold located; cbn [shr_record_of_loc shr_m shr_r shr_s]; rewrite E; split_and!; try lia; split; (done || lia).
  - assert (Hodd : 2 * (N mod D) ≠ D).
    { intros H. rewrite <- H in Ev. rewrite Z.even_mul in Ev. done. }
    destruct (Z.eqb_spec (N mod D) 0) as [Hz|Hz]; [|destruct (Z.compare_spec (2 * (N mod D) + 1) D)];
      unfold located; cbn [shr_record_of_loc shr_m shr_r shr_s]; rewrite E; split_and!; try lia; split; (done || lia).
Qed.

(** To the nearest integer. *)
Lemma round_nearest mrs N D : located mrs N D →
  let z := round_nearest_even (shr_m mrs) (loc_of_shr_record mrs) in
  shr_m mrs ≤ z ≤ shr_m mrs + 1 ∧ 2 * Z.abs (z * D - N) ≤ D.
Proof.
  destruct mrs as [m r s]. unfold located. cbn [shr_m shr_r shr_s]. intros (Hm & Hf & Hr & Hs).
  destruct r, s; cbn [loc_of_shr_record round_nearest_even]; [| | |];
    repeat match goal with |- context [if ?b then _ else _] => destruct b end; lia.
Qed.

(** ** Rounding to 53 bits *)

(** The double [f] is [N / D * 2 ^ e] to the nearest multiple [z] of [2 ^ k]. *)
Record rounded (N D e : Z) (f : spec_float) (m : positive) (e' z k : Z) : Prop := {
  ro_float : f = S754_finite false m e';
  ro_mantissa : 2 ^ 52 ≤ Z.pos m < 2 ^ 53;
  ro_shift : 0 ≤ k;
  ro_value : 2 ^ 52 ≤ z ≤ 2 ^ 53 ∧ ((e' = e + k ∧ Z.pos m = z) ∨ (z = 2 ^ 53 ∧ Z.pos m = 2 ^ 52 ∧ e' = e + k + 1));
  ro_binade : 2 ^ (52 + k) * D ≤ N < 2 ^ (53 + k) * D;
  ro_error : 2 * Z.abs (z * 2 ^ k * D - N) ≤ 2 ^ k * D }.

Lemma fexp_normal d e : - 1000 ≤ e → 53 ≤ d → fexp 53 1024 (d + e) = d + e - 53.
Proof. intros. unfold fexp, emin. lia. Qed.

Lemma round_exact z e : 2 ^ 52 ≤ z ≤ 2 ^ 53 → - 1000 ≤ e → e ≤ 900 →
  ∃ m e', (let '(mrs, e'') := shr_fexp 53 1024 z e loc_Exact in
           match shr_m mrs with
           | Z0 => S754_zero false
           | Zpos m => if e'' <=? 1024 - 53 then S754_finite false m e'' else S754_infinity false
           | _ => S754_nan
           end) = S754_finite false m e' ∧ 2 ^ 52 ≤ Z.pos m < 2 ^ 53 ∧
  ((e' = e ∧ Z.pos m = z) ∨ (z = 2 ^ 53 ∧ Z.pos m = 2 ^ 52 ∧ e' = e + 1)).
Proof.
  intros Hz He He9. unfold shr_fexp. destruct (decide (z = 9007199254740992)) as [->|Hne].
  - cbn [shr_record_of_loc]. replace (fexp _ _ _ - e) with 1 by (unfold fexp, emin; cbn [Zdigits2 digits2_pos Pos.succ]; lia).
    cbn [shr iter_pos shr_1 shr_m]. rewrite (proj2 (Z.leb_le _ _)) by lia.
    exists 4503599627370496%positive, (e + 1). split; [done|]. split; [lia|]. right. lia.
  - destruct z as [|p|p]; [lia| |lia]. assert (Ed : Zdigits2 (Z.pos p) = 53) by (apply digits2_unique; lia).
    rewrite Ed, fexp_normal by lia. replace (53 + e - 53 - e) with 0 by lia. cbn [shr shr_record_of_loc shr_m].
    rewrite (proj2 (Z.leb_le _ _)) by lia. exists p, e. split; [done|]. split; [lia|]. by left.
Qed.

Lemma binary_round_aux_spec N D e : 0 < D → 2 ^ 52 * D ≤ N < 2 ^ 200 * D → - 500 ≤ e ≤ 500 →
  ∃ m e' z k, rounded N D e (binary_round_aux 53 1024 false (N / D) e (new_location D (N mod D))) m e' z k.
Proof.
  intros HD HN He. pose proof (Z.div_le_lower_bound N D (2 ^ 52) HD ltac:(lia)) as Hq.
  pose proof (Z.div_lt_upper_bound N D (2 ^ 200) HD ltac:(lia)) as Hq2.
  pose proof (located_start N D HD ltac:(lia)) as Hloc. pose proof (Z.div_mod N D ltac:(lia)) as Edm.
  pose proof (Z.mod_pos_bound N D HD) as Hmod. set (m := N / D) in *. unfold binary_round_aux, shr_fexp at 1.
  assert (∃ p, m = Z.pos p) as [p Ep] by (destruct m as [|p|p]; [lia|by exists p|lia]).
  set (d := Zdigits2 m). assert (Hd : 2 ^ (d - 1) ≤ m < 2 ^ d) by (unfold d; rewrite Ep; apply digits2_bounds).
  assert (Hd0 : 0 < d) by (unfold d; rewrite Ep; cbn; lia).
  assert (Hd53 : 53 ≤ d). { apply Z.nlt_ge. intros H. pose proof (Z.pow_le_mono_r 2 d 52). lia. }
  assert (Hd200 : d ≤ 200). { apply Z.nlt_ge. intros H. pose proof (Z.pow_le_mono_r 2 200 (d - 1)). lia. }
  rewrite fexp_normal by lia. set (k := d - 53). replace (d + e - 53 - e) with k by (unfold k; lia).
  assert (Hpow : 2 ^ (d - 1) = 2 ^ 52 * 2 ^ k ∧ 2 ^ d = 2 ^ 53 * 2 ^ k).
  { rewrite <- !Z.pow_add_r by lia. split; f_equal; lia. }
  assert (Hk : ∃ mrs, shr (shr_record_of_loc m (new_location D (N mod D))) e k = (mrs, e + k) ∧ located mrs N (2 ^ k * D)).
  { destruct k as [|kp|kp] eqn:Ek; [| |lia]; cbn [shr]; [rewrite Z.add_0_r; eexists; split; [done|]; by rewrite Z.mul_1_l|].
    eexists. split; [done|]. by apply located_shifts. }
  destruct Hk as (mrs & -> & Hl). destruct (round_nearest _ _ _ Hl) as [Hz1 Hz2]. set (z := round_nearest_even _ _) in *.
  destruct Hl as (Hm0 & Hf & _). set (P := 2 ^ k) in *. assert (HP : 0 < P) by (unfold P; lia).
  assert (Hm : 2 ^ 52 ≤ shr_m mrs < 2 ^ 53) by nia.
  destruct (round_exact z (e + k)) as (m' & e' & E & Hm' & Hv); [lia|lia|lia|].
  exists m', e', z, k. rewrite E. split; [done|done|lia|split; [lia|done]| |lia].
  rewrite !Z.pow_add_r by lia. fold P. nia.
Qed.

(** ** Values *)

(** The doubles used here are multiples of [2 ^ -300]; [V] counts them. *)
Definition one : Z := 2 ^ 300.

Definition dbl (f : spec_float) (V : Z) : Prop :=
  ∃ m e, f = S754_finite false m e ∧ 2 ^ 52 ≤ Z.pos m < 2 ^ 53 ∧ - 300 ≤ e ∧ V = Z.pos m * 2 ^ (e + 300).

(** [V] is [X / D] rounded to a multiple of [2 ^ K]. *)
Definition rounds_to (X D V : Z) : Prop :=
  ∃ K z, 0 ≤ K ∧ V = z * 2 ^ K ∧ 2 ^ 52 ≤ z ≤ 2 ^ 53 ∧ 2 ^ 52 * 2 ^ K * D ≤ X < 2 ^ 53 * 2 ^ K * D ∧
    2 * Z.abs (V * D - X) ≤ 2 ^ K * D.

Lemma near_scale t X D V : 0 < t → rounds_to X D V → rounds_to (X * t) (D * t) V.
Proof.
  intros Ht (K & z & HK & -> & Hz & HX & He). exists K, z. set (P := 2 ^ K) in *.
  split_and!; [done|done|lia|lia|nia|nia|]. replace (z * P * (D * t) - X * t) with ((z * P * D - X) * t) by lia.
  rewrite Z.abs_mul, (Z.abs_eq t) by lia. nia.
Qed.

Lemma near_unscale t X D V : 0 < t → rounds_to (X * t) (D * t) V → rounds_to X D V.
Proof.
  intros Ht (K & z & HK & -> & Hz & HX & He). exists K, z. set (P := 2 ^ K) in *.
  replace (z * P * (D * t) - X * t) with ((z * P * D - X) * t) in He by lia.
  rewrite Z.abs_mul, (Z.abs_eq t) in He by lia. split_and!; [done|done|lia|lia|nia|nia|nia].
Qed.

Lemma near_error X D V : rounds_to X D V → 2 ^ 53 * Z.abs (V * D - X) ≤ X.
Proof. intros (K & z & HK & -> & Hz & HX & He). lia. Qed.

(** Rounding keeps the order. *)
Lemma near_mono X1 D1 V1 X2 D2 V2 : 0 < D1 → 0 < D2 → rounds_to X1 D1 V1 → rounds_to X2 D2 V2 → X1 * D2 < X2 * D1 → V1 ≤ V2.
Proof.
  intros HD1 HD2 (K1 & z1 & HK1 & -> & Hz1 & HX1 & He1) (K2 & z2 & HK2 & -> & Hz2 & HX2 & He2) Hlt.
  pose proof (Z.pow_pos_nonneg 2 K1 ltac:(lia) HK1) as HP1. pose proof (Z.pow_pos_nonneg 2 K2 ltac:(lia) HK2) as HP2.
  assert (HDD : 0 < D1 * D2) by lia. destruct (Z.lt_trichotomy K1 K2) as [H|[->|H]].
  - assert (2 * 2 ^ K1 ≤ 2 ^ K2) by (rewrite <- Z.pow_succ_r by lia; apply Z.pow_le_mono_r; lia).
    assert (z1 * 2 ^ K1 ≤ 2 ^ 53 * 2 ^ K1) by (apply Z.mul_le_mono_nonneg_r; lia).
    assert (2 ^ 52 * 2 ^ K2 ≤ z2 * 2 ^ K2) by (apply Z.mul_le_mono_nonneg_r; lia). lia.
  - set (P := 2 ^ K2) in *. apply Z.mul_le_mono_nonneg_r; [lia|]. apply Z.nlt_ge. intros Hgt.
    assert (H1 : (2 * z1 - 1) * P * D1 * D2 ≤ 2 * X1 * D2) by (apply Z.mul_le_mono_nonneg_r; lia).
    assert (H2 : 2 * X2 * D1 ≤ (2 * z2 + 1) * P * D2 * D1) by (apply Z.mul_le_mono_nonneg_r; lia).
    assert (0 < P * (D1 * D2)) by lia.
    assert ((2 * z2 + 1) * (P * (D1 * D2)) ≤ (2 * z1 - 1) * (P * (D1 * D2))) by (apply Z.mul_le_mono_nonneg_r; lia). lia.
  - exfalso. assert (2 * 2 ^ K2 ≤ 2 ^ K1) by (rewrite <- Z.pow_succ_r by lia; apply Z.pow_le_mono_r; lia).
    assert (2 ^ 52 * 2 ^ K1 * D1 * D2 ≤ X1 * D2) by (apply Z.mul_le_mono_nonneg_r; lia).
    assert (X2 * D1 ≤ 2 ^ 53 * 2 ^ K2 * D2 * D1) by (apply Z.mul_le_mono_nonneg_r; lia).
    assert (2 * 2 ^ K2 * (D1 * D2) ≤ 2 ^ K1 * (D1 * D2)) by (apply Z.mul_le_mono_nonneg_r; lia). lia.
Qed.

Lemma near_exact x j D V : 0 < D → 0 ≤ j → 0 ≤ x < 2 ^ 53 → rounds_to (x * 2 ^ j * D) D V → V = x * 2 ^ j.
Proof.
  intros HD Hj Hx (K & z & HK & -> & Hz & HX & He).
  pose proof (Z.pow_pos_nonneg 2 K ltac:(lia) HK) as HP. pose proof (Z.pow_pos_nonneg 2 j ltac:(lia) Hj) as HPj.
  assert (K ≤ j).
  { apply Z.nlt_ge. intros H. assert (2 * 2 ^ j ≤ 2 ^ K) by (rewrite <- Z.pow_succ_r by lia; apply Z.pow_le_mono_r; lia).
    assert (x * 2 ^ j * D < 2 ^ 53 * 2 ^ j * D) by nia. nia. }
  replace j with ((j - K) + K) in * by lia. rewrite Z.pow_add_r in * by lia. set (P := 2 ^ K) in *. set (t := x * 2 ^ (j - K)).
  replace (x * (2 ^ (j - K) * P)) with (t * P) in * by (unfold t; lia).
  replace (z * P * D - t * P * D) with ((z - t) * (P * D)) in He by lia. rewrite Z.abs_mul, (Z.abs_eq (P * D)) in He by lia.
  assert (0 < P * D) by lia. assert (z = t) as -> by nia. done.
Qed.

(** ** Operations *)

Lemma binary_round_aux_near N D e : 0 < D → 2 ^ 52 * D ≤ N < 2 ^ 200 * D → - 300 ≤ e ≤ 500 →
  ∃ V, dbl (binary_round_aux 53 1024 false (N / D) e (new_location D (N mod D))) V ∧ rounds_to (N * 2 ^ (e + 300)) D V.
Proof.
  intros HD HN He. destruct (binary_round_aux_spec N D e HD HN ltac:(lia)) as (m & e' & z & k & [E Hm Hk [Hz Hv] HB HE]).
  assert (Hval : Z.pos m * 2 ^ (e' + 300) = z * 2 ^ (k + (e + 300))).
  { destruct Hv as [[-> ->]|(-> & -> & ->)]; [do 2 f_equal; lia|]. rewrite <- !Z.pow_add_r by lia. f_equal. lia. }
  assert (He' : e ≤ e') by (destruct Hv as [[-> _]|(_ & _ & ->)]; lia).
  exists (Z.pos m * 2 ^ (e' + 300)). split; [exists m, e'; split_and!; [done|lia|lia|lia|done]|].
  pose proof (Z.pow_pos_nonneg 2 (e + 300) ltac:(lia) ltac:(lia)) as HP. pose proof (Z.pow_pos_nonneg 2 k ltac:(lia) Hk) as HPk.
  exists (k + (e + 300)), z. split; [lia|]. split; [done|]. split; [lia|]. rewrite Hval. rewrite !Z.pow_add_r in * by lia.
  set (P := 2 ^ (e + 300)) in *. set (Q := 2 ^ k) in *. clearbody P Q. split.
  - assert (2 ^ 52 * Q * D * P ≤ N * P) by (apply Z.mul_le_mono_nonneg_r; lia).
    assert (N * P < 2 ^ 53 * Q * D * P) by (apply Z.mul_lt_mono_pos_r; lia). lia.
  - replace (z * (Q * P) * D - N * P) with ((z * Q * D - N) * P) by lia. rewrite Z.abs_mul, (Z.abs_eq P) by lia.
    assert (2 * Z.abs (z * Q * D - N) * P ≤ Q * D * P) by (apply Z.mul_le_mono_nonneg_r; lia). lia.
Qed.

(** A double between 1 and [2 ^ 100]. *)
Definition mid (V : Z) : Prop := one ≤ V < 2 ^ 100 * one.

Lemma dbl_range m e : 2 ^ 52 ≤ Z.pos m < 2 ^ 53 → - 300 ≤ e → mid (Z.pos m * 2 ^ (e + 300)) → - 53 < e < 48.
Proof.
  intros Hm He [H1 H2]. unfold one in *. split; apply Z.nle_gt; intros H.
  - pose proof (Z.pow_le_mono_r 2 (e + 300) 247 ltac:(lia) ltac:(lia)) as Hp.
    assert (Z.pos m * 2 ^ (e + 300) < 2 ^ 53 * 2 ^ (e + 300)) by (apply Z.mul_lt_mono_pos_r; lia). lia.
  - pose proof (Z.pow_le_mono_r 2 348 (e + 300) ltac:(lia) ltac:(lia)) as Hp.
    assert (2 ^ 52 * 2 ^ (e + 300) ≤ Z.pos m * 2 ^ (e + 300)) by (apply Z.mul_le_mono_nonneg_r; lia). lia.
Qed.

Lemma SFmul_near f g V W : dbl f V → dbl g W → mid V → mid W →
  ∃ R, dbl (SFmul 53 1024 f g) R ∧ rounds_to (V * W) one R.
Proof.
  intros (m1 & e1 & -> & Hm1 & He1 & ->) (m2 & e2 & -> & Hm2 & He2 & ->) HV HW.
  pose proof (dbl_range _ _ Hm1 He1 HV) as R1. pose proof (dbl_range _ _ Hm2 He2 HW) as R2.
  cbn [SFmul xorb]. destruct (binary_round_aux_near (Z.pos (m1 * m2)) 1 (e1 + e2)) as (R & HR & Hn); [lia| |lia|].
  { rewrite Pos2Z.inj_mul. split; [|]; nia. }
  rewrite Z.div_1_r, Z.mod_1_r in HR. exists R. split; [exact HR|]. apply (near_scale one) in Hn; [|done].
  rewrite Z.mul_1_l in Hn. replace (Z.pos m1 * 2 ^ (e1 + 300) * (Z.pos m2 * 2 ^ (e2 + 300))) with (Z.pos (m1 * m2) * 2 ^ (e1 + e2 + 300) * one); [done|].
  unfold one. rewrite Pos2Z.inj_mul. replace (Z.pos m1 * 2 ^ (e1 + 300) * (Z.pos m2 * 2 ^ (e2 + 300))) with (Z.pos m1 * Z.pos m2 * (2 ^ (e1 + 300) * 2 ^ (e2 + 300))) by lia.
  rewrite <- Z.mul_assoc. f_equal. rewrite <- !Z.pow_add_r by lia. f_equal. lia.
Qed.

Lemma shl_align_value m e e' : e' ≤ e → Z.pos (fst (shl_align m e e')) = Z.pos m * 2 ^ (e - e').
Proof.
  intros H. unfold shl_align. destruct (e' - e) as [|p|p] eqn:E; [|lia|].
  - cbn [fst]. replace (e - e') with 0 by lia. lia.
  - cbn [fst]. replace (e - e') with (Z.pos p) by lia. change (Pos.iter xO m p) with (shift_pos p m). rewrite shift_pos_correct.
    change (Z.pow_pos 2 p) with (2 ^ Z.pos p). lia.
Qed.

(** A sum of doubles that is an integer is normalised. *)
Lemma binary_normalize_near N e : 2 ^ 52 ≤ N < 2 ^ 200 → - 300 ≤ e ≤ 500 →
  ∃ R, dbl (binary_normalize 53 1024 N e false) R ∧ rounds_to (N * 2 ^ (e + 300)) 1 R.
Proof.
  intros HN He. destruct N as [|p|p]; [lia| |lia]. cbn [binary_normalize]. unfold binary_round.
  assert (Hd : 53 ≤ Z.pos (digits2_pos p)).
  { apply Z.nlt_ge. intros H. destruct (digits2_bounds p) as [_ Hp]. pose proof (Z.pow_le_mono_r 2 (Z.pos (digits2_pos p)) 52). lia. }
  unfold shl_align. rewrite fexp_normal by lia. destruct (Z.pos (digits2_pos p) + e - 53 - e) as [|q|q] eqn:Eq; [| |lia].
  all: destruct (binary_round_aux_near (Z.pos p) 1 e) as (R & HR & Hn); [lia|lia|lia|]; rewrite Z.div_1_r, Z.mod_1_r in HR; by exists R.
Qed.

Lemma SFadd_near f g V W : dbl f V → dbl g W → mid V → mid W →
  ∃ R, dbl (SFadd 53 1024 f g) R ∧ rounds_to (V + W) 1 R.
Proof.
  intros (m1 & e1 & -> & Hm1 & He1 & ->) (m2 & e2 & -> & Hm2 & He2 & ->) HV HW.
  pose proof (dbl_range _ _ Hm1 He1 HV) as R1. pose proof (dbl_range _ _ Hm2 He2 HW) as R2.
  cbn [SFadd cond_Zopp]. set (ez := Z.min e1 e2). rewrite !shl_align_value by lia.
  pose proof (Z.pow_le_mono_r 2 (e1 - ez) 101 ltac:(lia) ltac:(lia)). pose proof (Z.pow_le_mono_r 2 (e2 - ez) 101 ltac:(lia) ltac:(lia)).
  pose proof (Z.pow_le_mono_r 2 0 (e1 - ez) ltac:(lia) ltac:(lia)). pose proof (Z.pow_le_mono_r 2 0 (e2 - ez) ltac:(lia) ltac:(lia)).
  destruct (binary_normalize_near (Z.pos m1 * 2 ^ (e1 - ez) + Z.pos m2 * 2 ^ (e2 - ez)) ez) as (R & HR & Hn); [nia|lia|].
  exists R. split; [done|]. revert Hn. rewrite Z.mul_add_distr_r, <- !Z.mul_assoc, <- !Z.pow_add_r by lia.
  replace (e1 - ez + (ez + 300)) with (e1 + 300) by lia. by replace (e2 - ez + (ez + 300)) with (e2 + 300) by lia.
Qed.

Lemma SFdiv_near f g V W : dbl f V → dbl g W → mid V → mid W →
  ∃ R, dbl (SFdiv 53 1024 f g) R ∧ rounds_to (V * one) W R.
Proof.
  intros (m1 & e1 & -> & Hm1 & He1 & ->) (m2 & e2 & -> & Hm2 & He2 & ->) HV HW.
  pose proof (dbl_range _ _ Hm1 He1 HV) as R1. pose proof (dbl_range _ _ Hm2 He2 HW) as R2.
  cbn [SFdiv xorb]. unfold SFdiv_core_binary.
  replace (Zdigits2 (Z.pos m1)) with 53 by (symmetry; apply digits2_unique; lia).
  replace (Zdigits2 (Z.pos m2)) with 53 by (symmetry; apply digits2_unique; lia).
  replace (Z.min (fexp 53 1024 (53 + e1 - (53 + e2))) (e1 - e2)) with (e1 - e2 - 53) by (unfold fexp, emin; lia).
  replace (e1 - e2 - (e1 - e2 - 53)) with 53 by lia. rewrite Z.shiftl_mul_pow2 by lia.
  pose proof (Z.div_eucl_eq (Z.pos m1 * 2 ^ 53) (Z.pos m2) ltac:(lia)) as Ed.
  change (Z.div_eucl (Z.pos m1 * 2 ^ 53) (Z.pos m2)) with (Z.div_eucl (Z.pos m1 * 2 ^ 53) (Z.pos m2)) in Ed.
  destruct (binary_round_aux_near (Z.pos m1 * 2 ^ 53) (Z.pos m2) (e1 - e2 - 53)) as (R & HR & Hn); [lia|lia|lia|].
  unfold Z.div, Z.modulo in HR. destruct (Z.div_eucl (Z.pos m1 * 2 ^ 53) (Z.pos m2)) as [q r]. exists R. split; [done|].
  apply (near_scale (2 ^ (e2 + 300))) in Hn; [|apply Z.pow_pos_nonneg; lia].
  replace (Z.pos m1 * 2 ^ (e1 + 300) * one) with (Z.pos m1 * 2 ^ 53 * 2 ^ (e1 - e2 - 53 + 300) * 2 ^ (e2 + 300)); [done|].
  rewrite <- !Z.mul_assoc. f_equal. unfold one. rewrite <- !Z.pow_add_r by lia. f_equal. lia.
Qed.

Lemma floatOfInt_dbl z : 0 < z < 2 ^ 53 → dbl (floatOfInt z) (z * one).
Proof.
  intros Hz. destruct z as [|p|p]; [lia| |lia]. unfold floatOfInt. cbn [binary_normalize]. unfold binary_round.
  destruct (digits2_bounds p) as [Hd1 Hd2]. set (d := Z.pos (digits2_pos p)) in *.
  assert (Hd0 : 0 < d) by (unfold d; lia).
  assert (Hd : d ≤ 53). { apply Z.nlt_ge. intros H. pose proof (Z.pow_le_mono_r 2 53 (d - 1)). lia. }
  assert (Ef : fexp 53 1024 (d + 0) = d - 53) by (unfold fexp, emin; lia). rewrite Ef.
  pose proof (shl_align_value p 0 (d - 53) ltac:(lia)) as Ev.
  assert (Es : snd (shl_align p 0 (d - 53)) = d - 53).
  { unfold shl_align. destruct (d - 53 - 0) as [|q|q] eqn:E; cbn [snd]; lia. }
  destruct (shl_align p 0 (d - 53)) as [mz ez]. cbn [fst snd] in Ev, Es. subst ez.
  assert (Hpow : 2 ^ (d - 1) * 2 ^ (0 - (d - 53)) = 2 ^ 52 ∧ 2 ^ d * 2 ^ (0 - (d - 53)) = 2 ^ 53).
  { rewrite <- !Z.pow_add_r by lia. split; f_equal; lia. }
  pose proof (Z.pow_pos_nonneg 2 (0 - (d - 53)) ltac:(lia) ltac:(lia)) as HP.
  assert (Hmz : 2 ^ 52 ≤ Z.pos mz < 2 ^ 53).
  { rewrite Ev, <- (proj1 Hpow), <- (proj2 Hpow). split; [apply Z.mul_le_mono_nonneg_r|apply Z.mul_lt_mono_pos_r]; lia. }
  destruct (binary_round_aux_near (Z.pos mz) 1 (d - 53)) as (R & HR & Hn); [lia|lia|lia|]. rewrite Z.div_1_r, Z.mod_1_r in HR.
  rewrite <- (Z.mul_1_r (Z.pos mz * _)) in Hn. apply near_exact in Hn; [|lia|lia|lia]. rewrite Hn in HR.
  replace (Z.pos p * one) with (Z.pos mz * 2 ^ (d - 53 + 300)); [done|]. rewrite Ev. unfold one.
  rewrite <- Z.mul_assoc, <- Z.pow_add_r by lia. do 2 f_equal. lia.
Qed.

Lemma SFcompare_dbl f g V W : dbl f V → dbl g W → SFcompare f g = Some (V ?= W).
Proof.
  intros (m1 & e1 & -> & Hm1 & He1 & ->) (m2 & e2 & -> & Hm2 & He2 & ->). cbn [SFcompare]. f_equal.
  pose proof (Z.pow_pos_nonneg 2 (e1 + 300) ltac:(lia) ltac:(lia)) as P1.
  pose proof (Z.pow_pos_nonneg 2 (e2 + 300) ltac:(lia) ltac:(lia)) as P2.
  destruct (Z.compare_spec e1 e2) as [->|H|H]; symmetry.
  - change (Pos.compare_cont Eq m1 m2) with (Z.pos m1 ?= Z.pos m2).
    destruct (Z.compare_spec (Z.pos m1) (Z.pos m2)); [apply Z.compare_eq_iff|apply Z.compare_lt_iff|apply Z.compare_gt_iff]; nia.
  - apply Z.compare_lt_iff. assert (2 * 2 ^ (e1 + 300) ≤ 2 ^ (e2 + 300)) by (rewrite <- Z.pow_succ_r by lia; apply Z.pow_le_mono_r; lia). nia.
  - apply Z.compare_gt_iff. assert (2 * 2 ^ (e2 + 300) ≤ 2 ^ (e1 + 300)) by (rewrite <- Z.pow_succ_r by lia; apply Z.pow_le_mono_r; lia). nia.
Qed.

Lemma truncFloat_dbl f V : dbl f V → truncFloat f = V / one.
Proof.
  intros (m & e & -> & Hm & He & ->). cbn [truncFloat]. unfold one. destruct (Z.leb_spec 0 e) as [H|H].
  - rewrite Z.pow_add_r by lia. rewrite Z.mul_assoc, Z.div_mul by lia. done.
  - rewrite Z.quot_div_nonneg by (try apply Z.pow_pos_nonneg; lia). replace 300 with ((e + 300) + - e) at 2 by lia. rewrite (Z.pow_add_r 2 (e + 300) (- e)) by lia.
    pose proof (Z.pow_pos_nonneg 2 (- e) ltac:(lia) ltac:(lia)). pose proof (Z.pow_pos_nonneg 2 (e + 300) ltac:(lia) ltac:(lia)).
    rewrite (Z.mul_comm (2 ^ (e + 300))), Z.div_mul_cancel_r by lia. done.
Qed.
