(* ===== verification/Guessing.v ===== *)
(** * The guesses of the long division are close (src/nl-math.c, [divModBigint])

    The leading digits as doubles, and their quotient: never below the digit that is
    looked for and at most three above it. *)

From stdpp Require Import base list numbers tactics.
From Stdlib Require Import ZArith Lia SpecFloat.
From S2P Require Import Prelude Cell Arith Bigint Longdiv Rounding.

#[global] Open Scope Z_scope.

Local Abbreviation B := 1000000000.

(** ** Rounding against a double *)

Lemma near_self x j : 0 ≤ j → 2 ^ 52 ≤ x < 2 ^ 53 → rounds_to (x * 2 ^ j) 1 (x * 2 ^ j).
Proof.
  intros Hj Hx. pose proof (Z.pow_pos_nonneg 2 j ltac:(lia) Hj). exists j, x. set (P := 2 ^ j) in *.
  assert (2 ^ 52 * P ≤ x * P) by (apply Z.mul_le_mono_nonneg_r; lia). assert (x * P < 2 ^ 53 * P) by (apply Z.mul_lt_mono_pos_r; lia).
  split_and!; [done|done|lia|lia|lia|lia|]. replace (x * P * 1 - x * P) with 0 by lia. cbn. lia.
Qed.

Lemma near_ge x j X D V : 0 < D → 0 ≤ j → 2 ^ 52 ≤ x < 2 ^ 53 → rounds_to X D V → x * 2 ^ j * D ≤ X → x * 2 ^ j ≤ V.
Proof.
  intros HD Hj Hx Hn HX. destruct (decide (x * 2 ^ j * D = X)) as [E|E].
  - rewrite <- E in Hn. apply near_exact in Hn; [lia|done|done|lia].
  - apply (near_mono (x * 2 ^ j) 1 _ X D); [done|done|by apply near_self|done|lia].
Qed.

Lemma near_le x j X V : 0 ≤ j → 2 ^ 52 ≤ x < 2 ^ 53 → rounds_to X 1 V → X ≤ x * 2 ^ j → V ≤ x * 2 ^ j.
Proof.
  intros Hj Hx Hn HX. destruct (decide (x * 2 ^ j = X)) as [E|E].
  - rewrite <- E in Hn. rewrite <- (Z.mul_1_r (x * 2 ^ j)) in Hn. apply near_exact in Hn; [lia|lia|done|lia].
  - apply (near_mono X 1 _ (x * 2 ^ j) 1); [done|done|done|by apply near_self|lia].
Qed.

(** ** Leading digits *)

Definition add_digit (f : spec_float) (d : Z) : spec_float :=
  SFadd 53 1024 (SFmul 53 1024 f (floatOfInt BIGINT_BASE)) (floatOfInt d).

Lemma one_pos : 0 < one.
Proof. done. Qed.

Lemma add_digit_near f V d : dbl f V → one ≤ V < 2 ^ 62 * one → 0 ≤ d < B →
  ∃ M W, dbl (add_digit f d) W ∧ rounds_to (V * B) 1 M ∧ (d = 0 ∧ W = M ∨ rounds_to (M + d * one) 1 W).
Proof.
  intros Hf HV Hd. pose proof one_pos as H1.
  assert (Hb : dbl (floatOfInt BIGINT_BASE) (B * one)) by (apply (floatOfInt_dbl B); lia).
  destruct (SFmul_near _ _ _ _ Hf Hb) as (M & HM & Hn); [unfold mid; lia|unfold mid; lia|].
  replace (V * (B * one)) with (V * B * one) in Hn by lia. rewrite <- (Z.mul_1_l one) in Hn at 2.
  apply near_unscale in Hn; [|done]. pose proof (near_error _ _ _ Hn) as He. unfold add_digit.
  destruct (decide (d = 0)) as [->|Hd0].
  - exists M, M. split; [|split; [done|by left]]. destruct HM as (m & e & -> & Hrest). cbn. by exists m, e.
  - destruct (SFadd_near _ _ _ _ HM (floatOfInt_dbl d ltac:(lia))) as (W & HW & Hw); [unfold mid, one in *; lia..|].
    exists M, W. split; [done|]. split; [done|by right].
Qed.

(** Two digits: the double next to the number. *)
Lemma two_leading d1 d2 : 1 ≤ d1 < B → 0 ≤ d2 < B →
  ∃ V, dbl (add_digit (floatOfInt d1) d2) V ∧ rounds_to ((d1 * B + d2) * one) 1 V.
Proof.
  intros H1 H2. pose proof one_pos. destruct (add_digit_near (floatOfInt d1) (d1 * one) d2) as (M & W & HW & HM & Hw).
  { apply floatOfInt_dbl. lia. }
  { unfold one. lia. }
  { done. }
  assert (E : M = d1 * B * one).
  { replace (d1 * one * B) with (d1 * 1953125 * 2 ^ 309 * 1) in HM by (unfold one; lia).
    apply near_exact in HM; [rewrite HM; unfold one; lia|lia|lia|lia]. }
  exists W. split; [done|]. destruct Hw as [[-> ->]|Hw].
  - replace ((d1 * B + 0) * one) with (d1 * one * B) by lia. done.
  - rewrite E in Hw. by replace ((d1 * B + d2) * one) with (d1 * B * one + d2 * one) by lia.
Qed.

(** Three digits: within four units of the last place, and not below [B ^ 2]. *)
Lemma three_leading d1 d2 d3 : 1 ≤ d1 < B → 0 ≤ d2 < B → 0 ≤ d3 < B →
  ∃ V, dbl (add_digit (add_digit (floatOfInt d1) d2) d3) V ∧ B ^ 2 * one ≤ V ∧
    2 ^ 51 * Z.abs (V - (d1 * B ^ 2 + d2 * B + d3) * one) ≤ (d1 * B ^ 2 + d2 * B + d3) * one.
Proof.
  intros H1 H2 H3. pose proof one_pos. destruct (two_leading d1 d2 H1 H2) as (V2 & Hf2 & Hn2). pose proof (near_error _ _ _ Hn2) as He2.
  assert (HV2 : B * one ≤ V2).
  { replace (B * one) with (8388608000000000 * 2 ^ 277) by (unfold one; lia).
    eapply near_ge; [|lia|lia|exact Hn2|]; [done|]. unfold one. lia. }
  destruct (add_digit_near _ _ d3 Hf2) as (M & W & HW & HM & Hw); [unfold one in *; lia|done|].
  pose proof (near_error _ _ _ HM) as HeM. exists W. split; [done|].
  assert (HM2 : B ^ 2 * one ≤ M).
  { replace (B ^ 2 * one) with (7812500000000000 * 2 ^ 307) by (unfold one; lia).
    eapply near_ge; [|lia|lia|exact HM|]; [done|]. unfold one in *. lia. }
  destruct Hw as [[-> ->]|Hw]; [split; [done|]; unfold one in *; lia|]. pose proof (near_error _ _ _ Hw) as HeW. split.
  - replace (B ^ 2 * one) with (7812500000000000 * 2 ^ 307) in * by (unfold one; lia).
    eapply near_ge; [|lia|lia|exact Hw|]; [done|]. unfold one in *. lia.
  - unfold one in *. lia.
Qed.

(** ** The guess *)

Lemma guess_low one Vr Vy R Y q Q : 0 < one → 0 < Vy → 1 ≤ Y → 0 ≤ q < B → q * Y ≤ R →
  2 ^ 51 * Z.abs (Vr - R * one) ≤ R * one → 2 ^ 51 * Z.abs (Vy - Y * one) ≤ Y * one →
  2 ^ 53 * Z.abs (Q * Vy - Vr * one) ≤ Vr * one → 0 ≤ Q → (2 ^ 15 * q - 1) * one ≤ 2 ^ 15 * Q.
Proof.
  intros H1 HVy HY Hq HR HVr HVy2 HQ HQ0. apply Z.nlt_ge. intros Hlt.
  assert (0 < q) by (apply Z.nle_gt; intros H; assert (q = 0) as -> by lia; lia).
  assert (H2 : 2 ^ 15 * Q * Vy ≤ (2 ^ 15 * q - 1) * one * Vy) by (apply Z.mul_le_mono_nonneg_r; lia).
  assert (q * Y * one ≤ R * one) by (apply Z.mul_le_mono_nonneg_r; lia).
  assert (H3 : (2 ^ 51 - 1) * (q * Y * one) * one ≤ 2 ^ 51 * Vr * one) by (apply Z.mul_le_mono_nonneg_r; lia).
  assert (H4 : 2 ^ 51 * Vy * (one * (2 ^ 15 * q - 1)) ≤ (2 ^ 51 + 1) * (Y * one) * (one * (2 ^ 15 * q - 1))) by (apply Z.mul_le_mono_nonneg_r; lia).
  assert (HT : 0 < Y * one * one) by lia.
  assert (H5 : q * (Y * one * one) ≤ B * (Y * one * one)) by (apply Z.mul_le_mono_nonneg_r; lia). lia.
Qed.

Lemma guess_high one Vr Vy R Y q Q : 0 < one → 0 < Vy → 1 ≤ Y → 0 ≤ q < B → R ≤ (q + 2) * Y →
  2 ^ 51 * Z.abs (Vr - R * one) ≤ R * one → 2 ^ 51 * Z.abs (Vy - Y * one) ≤ Y * one →
  2 ^ 53 * Z.abs (Q * Vy - Vr * one) ≤ Vr * one → 2 * Q ≤ (2 * q + 5) * one.
Proof.
  intros H1 HVy HY Hq HR HVr HVy2 HQ. apply Z.nlt_ge. intros Hlt.
  assert (H2 : (2 * q + 5) * one * Vy ≤ 2 * Q * Vy) by (apply Z.mul_le_mono_nonneg_r; lia).
  assert (R * one ≤ (q + 2) * Y * one) by (apply Z.mul_le_mono_nonneg_r; lia).
  assert (H3 : 2 ^ 51 * Vr * one ≤ (2 ^ 51 + 1) * ((q + 2) * Y * one) * one) by (apply Z.mul_le_mono_nonneg_r; lia).
  assert (H4 : (2 ^ 51 - 1) * (Y * one) * (one * (2 * q + 5)) ≤ 2 ^ 51 * Vy * (one * (2 * q + 5))) by (apply Z.mul_le_mono_nonneg_r; lia).
  assert (HT : 0 < Y * one * one) by lia.
  assert (H5 : q * (Y * one * one) ≤ B * (Y * one * one)) by (apply Z.mul_le_mono_nonneg_r; lia). lia.
Qed.

Lemma guess_close rF yF Vr Vy R Y q : dbl rF Vr → dbl yF Vy → 1 ≤ Y < B ^ 2 → 1 ≤ R < B ^ 3 → one ≤ Vy → Vy < Vr →
  0 ≤ q < B → q * Y ≤ R ≤ (q + 2) * Y →
  2 ^ 51 * Z.abs (Vr - R * one) ≤ R * one → 2 ^ 51 * Z.abs (Vy - Y * one) ≤ Y * one →
  ∃ g, guess rF yF = Ok g ∧ q ≤ g ≤ q + 3.
Proof.
  intros HrF HyF HY HR HVy1 Hlt Hq HqR HVr HVy. pose proof one_pos as H1.
  assert (HVy0 : 0 < Vy) by (unfold one in *; lia).
  destruct (SFdiv_near _ _ _ _ HrF HyF) as (Q & HQ & Hn).
  { unfold mid, one in *. lia. }
  { unfold mid, one in *. lia. }
  pose proof (near_error _ _ _ Hn) as He.
  assert (HQ1 : one ≤ Q).
  { replace one with (2 ^ 52 * 2 ^ 248) by done. apply (near_ge (2 ^ 52) 248 _ _ _ HVy0 ltac:(lia) ltac:(lia) Hn).
    replace (2 ^ 52 * 2 ^ 248) with one by done. nia. }
  pose proof (guess_low one Vr Vy R Y q Q H1 HVy0 ltac:(lia) Hq ltac:(lia) HVr HVy He ltac:(lia)) as Hlow.
  pose proof (guess_high one Vr Vy R Y q Q H1 HVy0 ltac:(lia) Hq ltac:(lia) HVr HVy He) as Hhigh.
  assert (Hone : dbl (floatOfInt 1) one) by (rewrite <- (Z.mul_1_l one); by apply floatOfInt_dbl).
  destruct (SFadd_near _ _ _ _ HQ Hone) as (S & HS & HnS); [unfold mid, one in *; lia|unfold mid, one in *; lia|].
  pose proof (near_error _ _ _ HnS) as HeS. unfold guess, int_of_float. pose proof (truncFloat_dbl _ _ HS) as Et.
  destruct HS as (m & e & ES & _). rewrite ES in *. rewrite Et. clear Et ES.
  assert (q ≤ S / one) by (apply Z.div_le_lower_bound; unfold one in *; lia).
  assert (S / one < q + 4) by (apply Z.div_lt_upper_bound; unfold one in *; lia).
  rewrite (proj2 (Z.leb_le _ _)), (proj2 (Z.ltb_lt _ _)) by lia. exists (S / one). split; [done|lia].
Qed.

(** ** The leading digits of an array *)

Lemma int_near z : 0 < z < 2 ^ 53 → rounds_to (z * one) 1 (z * one).
Proof.
  intros Hz. destruct (Z.log2_spec z ltac:(lia)) as [H1 H2]. pose proof (Z.log2_nonneg z) as H0.
  assert (Hl : Z.log2 z ≤ 52). { apply Z.nlt_ge. intros H. pose proof (Z.pow_le_mono_r 2 53 (Z.log2 z)). lia. }
  set (l := Z.log2 z) in *. rewrite Z.pow_succ_r in H2 by lia.
  assert (E : z * one = z * 2 ^ (52 - l) * 2 ^ (248 + l)).
  { rewrite <- Z.mul_assoc, <- Z.pow_add_r by lia. unfold one. do 2 f_equal. lia. }
  assert (E52 : 2 ^ l * 2 ^ (52 - l) = 2 ^ 52) by (rewrite <- Z.pow_add_r by lia; f_equal; lia).
  pose proof (Z.pow_pos_nonneg 2 (52 - l) ltac:(lia) ltac:(lia)).
  rewrite E. apply near_self; [lia|]. split.
  - rewrite <- E52. apply Z.mul_le_mono_nonneg_r; lia.
  - assert (z * 2 ^ (52 - l) < 2 * 2 ^ l * 2 ^ (52 - l)) by (apply Z.mul_lt_mono_pos_r; lia). lia.
Qed.

(** [f] stands for the number [X]; up to two digits it is rounded once. *)
Definition stands (n : nat) (X : Z) (f : spec_float) (V : Z) : Prop :=
  dbl f V ∧ one ≤ V ∧ 2 ^ 51 * Z.abs (V - X * one) ≤ X * one ∧ (n ≤ 2 → rounds_to (X * one) 1 V)%nat ∧ (n = 3%nat → B ^ 2 * one ≤ V).

Lemma val1 a : val [a] = a.
Proof. done. Qed.
Lemma val2 a b : val [a; b] = a * B + b.
Proof. unfold val. cbn. unfold BIGINT_BASE. lia. Qed.
Lemma val3 a b c : val [a; b; c] = a * B ^ 2 + b * B + c.
Proof. unfold val. cbn. unfold BIGINT_BASE. lia. Qed.

Lemma leading_float a n d : (1 ≤ n ≤ 3)%nat → (n < length a)%nat → Forall digit_ok (win a 1 n) → a !! 1%nat = Some d → d ≠ 0 →
  ∃ f V, bigintToAbsFloat a (Z.of_nat n) = Ok f ∧ stands n (val (win a 1 n)) f V.
Proof.
  intros Hn Hlen Hdig Hd Hd0. unfold bigintToAbsFloat. rewrite (rd_ok _ _ _ Hd). cbn [mbind result_bind].
  destruct a as [|s [|a1 a]]; [cbn in Hlen; lia|done|]. cbn in Hd. injection Hd as ->.
  destruct n as [|[|[|[|n]]]]; [lia| | | |lia].
  - change (win (s :: d :: a) 1 1) with [d] in *. inversion_clear Hdig as [|? ? Hd _]. unfold digit_ok, BIGINT_BASE in *. rewrite val1.
    exists (floatOfInt d), (d * one). split; [done|]. split; [apply floatOfInt_dbl; lia|]. unfold one in *.
    split_and!; [lia|lia|intros; apply int_near; lia|lia].
  - destruct a as [|d2 a]; [cbn in Hlen; lia|]. change (win (s :: d :: d2 :: a) 1 2) with [d; d2] in *.
    inversion_clear Hdig as [|? ? H1 Hr]. inversion_clear Hr as [|? ? H2 _].
    unfold digit_ok, BIGINT_BASE in *. rewrite val2. destruct (two_leading d d2) as (V & Hf & Hn2); [lia|lia|].
    pose proof (near_error _ _ _ Hn2). exists (add_digit (floatOfInt d) d2), V. split; [done|]. split; [done|].
    unfold one in *. split_and!; [lia|lia|done|lia].
  - destruct a as [|d2 [|d3 a]]; [cbn in Hlen; lia|cbn in Hlen; lia|]. change (win (s :: d :: d2 :: d3 :: a) 1 3) with [d; d2; d3] in *.
    inversion_clear Hdig as [|? ? H1 Hr].
    inversion_clear Hr as [|? ? H2 Hr2]. inversion_clear Hr2 as [|? ? H3 _].
    unfold digit_ok, BIGINT_BASE in *. rewrite val3. destruct (three_leading d d2 d3) as (V & Hf & HV & He); [lia|lia|lia|].
    exists (add_digit (add_digit (floatOfInt d) d2) d3), V. split; [done|]. split; [done|].
    unfold one in *. split_and!; [lia|lia|lia|done].
Qed.

Lemma digits_inj l1 : ∀ l2, length l1 = length l2 → Forall digit_ok l1 → Forall digit_ok l2 → val l1 = val l2 → l1 = l2.
Proof.
  induction l1 as [|d1 l1 IH]; intros [|d2 l2] Hl H1 H2 E; [done|done|done|].
  inversion_clear H1 as [|? ? D1 F1]. inversion_clear H2 as [|? ? D2 F2]. cbn [length] in Hl. rewrite !val_cons in E.
  pose proof (val_bound _ F1) as B1. pose proof (val_bound _ F2) as B2.
  assert (Hl' : length l1 = length l2) by lia. rewrite Hl' in *. set (P := BIGINT_BASE ^ _) in *.
  assert (d1 = d2) as <- by nia. f_equal. apply IH; [done..|lia].
Qed.

Lemma val_split (a : list Z) n m : (n + m + 1 ≤ length a)%nat →
  val (win a 1 (n + m)) = val (win a 1 n) * BIGINT_BASE ^ Z.of_nat m + val (win a (1 + n) m).
Proof. intros H. rewrite win_app, val_app, win_length by lia. done. Qed.

(** Equal digits make equal doubles. *)
Lemma same_float (a b : list Z) n : (n ≤ 2)%nat → (n < length a)%nat → (n < length b)%nat → (1 ≤ n)%nat → win a 1 n = win b 1 n →
  bigintToAbsFloat a (Z.of_nat n) = bigintToAbsFloat b (Z.of_nat n).
Proof.
  intros H2 Ha Hb H1 E. unfold bigintToAbsFloat.
  destruct a as [|a0 [|a1 a]]; cbn [length] in Ha; [lia|lia|]. destruct b as [|b0 [|b1 b]]; cbn [length] in Hb; [lia|lia|].
  destruct n as [|[|[|n]]]; [lia| | |lia].
  - change ([a1] = [b1]) in E. injection E as ->. done.
  - destruct a as [|a2 a]; cbn [length] in Ha; [lia|]. destruct b as [|b2 b]; cbn [length] in Hb; [lia|].
    change ([a1; a2] = [b1; b2]) in E. injection E as -> ->. done.
Qed.

Lemma first_float (a : list Z) n d : (n ≤ 1) → a !! 1%nat = Some d → bigintToAbsFloat a n = Ok (floatOfInt d).
Proof. intros Hn Hd. unfold bigintToAbsFloat. rewrite (rd_ok _ _ _ Hd). cbn [mbind result_bind]. by replace (Z.to_nat (n - 1)) with 0%nat by lia. Qed.

(** ** The three outcomes of the comparison *)

(** From leading parts [R] and [Y] to the numbers. *)
Lemma leading_quotient R Y P r' y' : 0 < P → 0 ≤ r' < P → 0 ≤ y' < P → 1 ≤ Y → 0 ≤ R →
  R * P + r' < B * (Y * P + y') → (P = 1 ∨ B ≤ Y) →
  let q := (R * P + r') / (Y * P + y') in 0 ≤ q < B ∧ q * Y ≤ R ≤ (q + 2) * Y.
Proof.
  intros HP Hr Hy HY HR Hlt HPY q. assert (0 < Y * P) by lia. assert (0 ≤ R * P) by lia.
  assert (Hq : 0 ≤ q < B) by (unfold q; split; [apply Z.div_pos; lia|apply Z.div_lt_upper_bound; lia]).
  pose proof (Z.mul_div_le (R * P + r') (Y * P + y') ltac:(lia)) as H1. pose proof (Z.mul_succ_div_gt (R * P + r') (Y * P + y') ltac:(lia)) as H2.
  fold q in H1, H2. split; [done|]. assert (0 ≤ y' * q) by lia. split.
  - assert (q * Y * P < (R + 1) * P) by lia. assert (q * Y < R + 1) by (apply (Z.mul_lt_mono_pos_r P); lia). lia.
  - destruct HPY as [->|HB].
    + assert (y' = 0) as -> by lia. lia.
    + assert (y' * (q + 1) ≤ P * (q + 1)) by (apply Z.mul_le_mono_nonneg_r; lia).
      assert (R * P < (q + 1) * (Y + 1) * P) by lia. assert (R < (q + 1) * (Y + 1)) by (apply (Z.mul_lt_mono_pos_r P); lia). lia.
Qed.

(** What the comparison of the doubles says about the remainder and the divisor. *)
Definition chosen (r y : Z) (nr ny : nat) (rF yF : spec_float) : Prop :=
  match SFcompare yF rF with
  | Some Gt => r < y
  | Some Eq => r < 2 * y ∧ (ny ≤ nr)%nat
  | _ => (ny ≤ nr)%nat ∧ ∃ g, guess rF yF = Ok g ∧ r / y ≤ g ≤ r / y + 3
  end.

(** Both leading parts of the same number of digits, or [R] of one more. *)
Lemma chosen_long (R Y P r' y' V W : Z) (n m nr ny : nat) rF yF : stands n R rF V → stands m Y yF W → (1 ≤ m ≤ 2)%nat →
  (n = m ∨ n = S m ∧ B ^ Z.of_nat m ≤ R) → (R = Y → n = m → rF = yF) → (ny ≤ nr)%nat →
  1 ≤ R < B ^ 3 → 1 ≤ Y < B ^ Z.of_nat m → 0 < P → 0 ≤ r' < P → 0 ≤ y' < P → (P = 1 ∨ B ≤ Y) →
  R * P + r' < B * (Y * P + y') → chosen (R * P + r') (Y * P + y') nr ny rF yF.
Proof.
  intros (HrF & HV1 & HVe & HVn & HV3) (HyF & HW1 & HWe & HWn & _) Hm Hnm Heq Hle HR HY HP Hr Hy HPY Hlt. pose proof one_pos as H1.
  assert (HY2 : Y < B ^ 2) by (destruct m as [|[|[|m]]]; lia).
  pose proof (leading_quotient R Y P r' y' HP Hr Hy ltac:(lia) ltac:(lia) Hlt HPY) as [Hq HqR].
  assert (0 < Y * P) by lia. pose proof (Z.mul_succ_div_gt (R * P + r') (Y * P + y') ltac:(lia)) as Hdiv.
  set (q := (R * P + r') / (Y * P + y')) in *.
  unfold chosen. rewrite (SFcompare_dbl _ _ _ _ HyF HrF). destruct (Z.compare_spec W V) as [E|E|E].
  - split; [|done]. assert (¬ 2 ≤ q).
    { intros H2. assert (2 * Y ≤ q * Y) by (apply Z.mul_le_mono_nonneg_r; lia). unfold one in *. lia. }
    assert ((q + 1) * (Y * P + y') ≤ 2 * (Y * P + y')) by (apply Z.mul_le_mono_nonneg_r; lia). lia.
  - split; [done|]. apply (guess_close rF yF V W R Y q); done || lia.
  - assert (R < Y).
    { apply Z.nle_gt. intros HYR. destruct (decide (n = 3%nat)) as [->|Hn3].
      - specialize (HV3 eq_refl). assert (m = 2%nat) as -> by lia. specialize (HWn ltac:(lia)).
        assert (W ≤ 7812500000000000 * 2 ^ 307); [|unfold one in *; lia].
        apply (near_le _ _ (Y * one)); [lia|lia|done|unfold one; lia].
      - specialize (HWn ltac:(lia)). specialize (HVn ltac:(lia)). destruct (decide (R = Y)) as [ERY|ERY].
        + destruct Hnm as [->|[-> HB]]; [|lia]. specialize (Heq ERY eq_refl) as ->.
          destruct HrF as (m1 & e1 & E1 & _ & _ & ->). destruct HyF as (m2 & e2 & E2 & _ & _ & ->). rewrite E1 in E2. injection E2 as -> ->. lia.
        + assert (W ≤ V); [|lia]. apply (near_mono (Y * one) 1 _ (R * one) 1); [done..|]. unfold one. lia. }
    assert ((R + 1) * P ≤ Y * P) by (apply Z.mul_le_mono_nonneg_r; lia). lia.
Qed.

(** ** On the arrays *)

Lemma val_lead (a : list Z) n d : (1 ≤ n)%nat → (n + 1 ≤ length a)%nat → Forall digit_ok (win a 1 n) → a !! 1%nat = Some d →
  d ≠ 0 → 1 ≤ d < B ∧ B ^ Z.of_nat (n - 1) ≤ val (win a 1 n) < B ^ Z.of_nat n.
Proof.
  intros Hn Hl HF Hd Hd0. destruct n as [|n]; [lia|]. pose proof (val_bound _ HF) as Hb. rewrite win_length in Hb by lia.
  rewrite (win_cons _ _ _ _ Hd) in HF, Hb |- *. inversion_clear HF as [|? ? D F]. pose proof (val_bound _ F) as Hb2.
  rewrite val_cons, win_length in * by lia. unfold digit_ok in D. change BIGINT_BASE with B in *.
  replace (S n - 1)%nat with n by lia. pose proof (pow_base_pos n) as HP. change BIGINT_BASE with B in HP.
  split; [lia|]. split; [|lia]. assert (1 * B ^ Z.of_nat n ≤ d * B ^ Z.of_nat n) by (apply Z.mul_le_mono_nonneg_r; lia). lia.
Qed.

Lemma leading_part (a : list Z) n t : (n + t + 1 ≤ length a)%nat → Forall digit_ok (win a 1 (n + t)) →
  Forall digit_ok (win a 1 n) ∧
  ∃ rest, val (win a 1 (n + t)) = val (win a 1 n) * B ^ Z.of_nat t + rest ∧ 0 ≤ rest < B ^ Z.of_nat t.
Proof.
  intros Hl HF. rewrite win_app in HF. apply Forall_app in HF as [H1 H2]. split; [done|].
  exists (val (win a (1 + n) t)). split; [by apply val_split|]. pose proof (val_bound _ H2) as Hb. by rewrite win_length in Hb by lia.
Qed.

(** The doubles of the first [n] and [m] digits, [t] digits left out of each. *)
Lemma choice_long (r y : list Z) (n m t : nat) dr dy : (n + t + 1 ≤ length r)%nat → (m + t + 1 ≤ length y)%nat →
  Forall digit_ok (win r 1 (n + t)) → Forall digit_ok (win y 1 (m + t)) → (1 ≤ m ≤ 2)%nat → (n = m ∨ n = S m) → (t = 0 ∨ m = 2)%nat →
  r !! 1%nat = Some dr → dr ≠ 0 → y !! 1%nat = Some dy → dy ≠ 0 →
  val (win r 1 (n + t)) < B * val (win y 1 (m + t)) →
  ∃ rF yF, bigintToAbsFloat r (Z.of_nat n) = Ok rF ∧ bigintToAbsFloat y (Z.of_nat m) = Ok yF ∧
    chosen (val (win r 1 (n + t))) (val (win y 1 (m + t))) (n + t) (m + t) rF yF.
Proof.
  intros Hlr Hly HFr HFy Hm Hnm Ht Hdr Hdr0 Hdy Hdy0 Hlt.
  destruct (leading_part r n t Hlr HFr) as (HFn & r' & Er & Hr'). destruct (leading_part y m t Hly HFy) as (HFm & y' & Ey & Hy').
  destruct (val_lead r n dr ltac:(lia) ltac:(lia) HFn Hdr Hdr0) as [_ HRb].
  destruct (val_lead y m dy ltac:(lia) ltac:(lia) HFm Hdy Hdy0) as [_ HYb].
  destruct (leading_float r n dr ltac:(lia) ltac:(lia) HFn Hdr Hdr0) as (rF & V & ErF & HrF).
  destruct (leading_float y m dy ltac:(lia) ltac:(lia) HFm Hdy Hdy0) as (yF & W & EyF & HyF).
  exists rF, yF. split; [exact ErF|]. split; [exact EyF|].
  assert (Hsame : val (win r 1 n) = val (win y 1 m) → n = m → rF = yF).
  { intros ERY Enm. rewrite Enm in HFn, ERY, ErF. assert (Ew : win r 1 m = win y 1 m).
    { apply digits_inj; [rewrite !win_length by lia; reflexivity|exact HFn|exact HFm|exact ERY]. }
    pose proof (same_float r y m ltac:(lia) ltac:(lia) ltac:(lia) ltac:(lia) Ew) as Es. rewrite ErF, EyF in Es. by injection Es. }
  rewrite Er, Ey in Hlt |- *. generalize dependent (val (win r 1 n)). generalize dependent (val (win y 1 m)). intros Y Ey HYb HyF R Er Hlt HRb HrF Hsame.
  assert (HR3 : 1 ≤ R < B ^ 3).
  { destruct Hnm as [->| ->]; (destruct m as [|[|[|m]]]; [lia| | |lia]); cbn in HRb; lia. }
  assert (HY1 : 1 ≤ Y) by (destruct m as [|[|[|m]]]; [lia| | |lia]; cbn in HYb; lia).
  apply (chosen_long R Y (B ^ Z.of_nat t) r' y' V W n m).
  - exact HrF.
  - exact HyF.
  - exact Hm.
  - destruct Hnm as [->| ->]; [by left|right]. split; [done|]. replace (S m - 1)%nat with m in HRb by lia. exact (proj1 HRb).
  - exact Hsame.
  - lia.
  - exact HR3.
  - lia.
  - apply Z.pow_pos_nonneg; lia.
  - assumption.
  - assumption.
  - destruct Ht as [->| ->]; [by left|right]. cbn in HYb. lia.
  - assumption.
Qed.

(** A remainder that is 0, and one of fewer digits than the divisor. *)
Lemma choice_zero yv ny yF W : dbl yF W → 0 < yv → chosen 0 yv 1 ny (floatOfInt 0) yF.
Proof. intros (m & e & -> & _) H. exact H. Qed.

Lemma choice_below rv yv nr ny d yF W Y m : 1 ≤ d < B → stands m Y yF W → B ≤ Y < B ^ 2 → rv < yv → chosen rv yv nr ny (floatOfInt d) yF.
Proof.
  intros Hd (HyF & _ & He & _) HY Hlt. unfold chosen. rewrite (SFcompare_dbl _ _ _ _ HyF (floatOfInt_dbl d ltac:(lia))).
  rewrite (proj2 (Z.compare_gt_iff _ _)); [done|]. unfold one in *. lia.
Qed.

Lemma divisor_float (y : list Z) ny m t dy : ny = (m + t)%nat → (1 ≤ m ≤ 2)%nat → bigint_ok y ny → y !! 1%nat = Some dy → dy ≠ 0 →
  ∃ yF W, bigintToAbsFloat y (Z.of_nat m) = Ok yF ∧ stands m (val (win y 1 m)) yF W ∧ B ^ Z.of_nat (m - 1) ≤ val (win y 1 m) < B ^ Z.of_nat m.
Proof.
  intros -> Hm Hy Hdy Hdy0. pose proof (bi_size _ _ Hy) as [_ Hl]. destruct (leading_part y m t ltac:(lia) (bi_digits _ _ Hy)) as [HF _].
  destruct (leading_float y m dy ltac:(lia) ltac:(lia) HF Hdy Hdy0) as (yF & W & E & Hst).
  destruct (val_lead y m dy ltac:(lia) ltac:(lia) HF Hdy Hdy0) as [_ Hb]. by exists yF, W.
Qed.

Lemma digit_choice (r y : list Z) (nr ny : nat) : (nr + 1 ≤ length r)%nat → (1 ≤ nr)%nat → Forall digit_ok (win r 1 nr) →
  (nr = 1%nat ∨ r !! 1%nat ≠ Some 0) → bigint_ok y ny → y !! 1%nat ≠ Some 0 →
  val (win r 1 nr) < B * val (win y 1 ny) →
  (nr ≤ ny + 1)%nat ∧ ∃ rF yF,
    bigintToAbsFloat r (if Nat.ltb 2 ny then Z.of_nat nr + 2 - Z.of_nat ny else Z.of_nat nr) = Ok rF ∧
    bigintToAbsFloat y (if Nat.ltb 2 ny then 2 else Z.of_nat ny) = Ok yF ∧
    chosen (val (win r 1 nr)) (val (win y 1 ny)) nr ny rF yF.
Proof.
  intros Hlr Hnr HFr Hnorm Hy Hy1 Hlt. pose proof (bi_size _ _ Hy) as [Hny Hly].
  destruct (bigint_first _ _ Hy) as (dy & Hdy & Ddy). assert (Hdy0 : dy ≠ 0) by congruence.
  destruct (val_lead y ny dy Hny Hly (bi_digits _ _ Hy) Hdy Hdy0) as [_ Hyb]. pose proof (Z.pow_pos_nonneg B (Z.of_nat (ny - 1)) ltac:(lia) ltac:(lia)).
  assert (∃ m t, ny = m + t ∧ 1 ≤ m ≤ 2 ∧ (t = 0 ∨ m = 2) ∧ (2 ≤ ny → m = 2) ∧ (2 < ny ↔ 0 < t))%nat as (m & t & Eny & Hm & Ht & Hm2 & Ht2).
  { exists (Nat.min ny 2), (ny - Nat.min ny 2)%nat. lia. }
  assert (En : (if Nat.ltb 2 ny then 2 else Z.of_nat ny) = Z.of_nat m) by (destruct (Nat.ltb_spec 2 ny); lia).
  destruct (divisor_float y ny m t dy Eny Hm Hy Hdy Hdy0) as (yF & W & EyF & HyF & HYb). rewrite En.
  destruct (lookup_lt_is_Some_2 r 1) as [dr Hdr]; [lia|]. destruct (decide (dr = 0)) as [->|Hdr0].
  { assert (nr = 1%nat) as -> by (destruct Hnorm; [done|congruence]). split; [lia|]. exists (floatOfInt 0), yF.
    split; [apply first_float; [destruct (Nat.ltb_spec 2 ny); lia|done]|]. split; [done|]. rewrite (win_cons _ _ _ _ Hdr), win_0, val1.
    apply (choice_zero _ _ _ W); [apply HyF|lia]. }
  destruct (val_lead r nr dr Hnr Hlr HFr Hdr Hdr0) as [Hdrb Hrb].
  assert (Hnr1 : (nr ≤ ny + 1)%nat).
  { apply Nat.nlt_ge. intros Hgt. pose proof (Z.pow_le_mono_r B (Z.succ (Z.of_nat ny)) (Z.of_nat (nr - 1)) ltac:(lia) ltac:(lia)) as Hp.
    rewrite Z.pow_succ_r in Hp by lia. lia. }
  split; [done|]. destruct (decide (nr < ny)%nat) as [Hshort|Hlong].
  - exists (floatOfInt dr), yF. split; [apply first_float; [destruct (Nat.ltb_spec 2 ny); lia|done]|]. split; [done|].
    rewrite Hm2 in HYb, HyF by lia. apply (choice_below _ _ _ _ _ _ W (val (win y 1 2)) 2); [done|done|exact HYb|].
    pose proof (Z.pow_le_mono_r B (Z.of_nat nr) (Z.of_nat (ny - 1)) ltac:(lia) ltac:(lia)). lia.
  - assert (Enr : (if Nat.ltb 2 ny then Z.of_nat nr + 2 - Z.of_nat ny else Z.of_nat nr) = Z.of_nat (nr - t)).
    { destruct (Nat.ltb_spec 2 ny); lia. }
    rewrite Enr. pose proof (choice_long r y (nr - t) m t dr dy) as E. replace (nr - t + t)%nat with nr in E by lia. rewrite <- Eny in E.
    apply E; [lia|lia|done|by apply bi_digits|done|lia|done|done|done|done|done|done].
Qed.
