(* ===== verification/Division.v ===== *)
(** * The long division is right (src/nl-math.c, [divModBigint])

    Every step of the loop keeps that the digits of the dividend taken so far are the
    quotient so far times the divisor plus the remainder so far. *)

From stdpp Require Import base list numbers tactics.
From Stdlib Require Import ZArith Lia SpecFloat.
From S2P Require Import Prelude Cell Arith Bigint Longdiv Rounding Guessing.

#[global] Open Scope Z_scope.

(** ** The product of the divisor and a guess *)

Definition product_row (y : list Z) (ny : nat) (q : Z) (p : list Z) : result (list Z * Z) :=
  for_down ny (λ j '(p, carry),
    yj ← rd y j;
    let digit := int64 (yj * q + carry) in
    if BIGINT_BASE <=? digit then
      p ← wr p j (Z.rem digit BIGINT_BASE); Ok (p, int32 (Z.quot digit BIGINT_BASE))
    else p ← wr p j (int32 digit); Ok (p, 0)) (p, 0).

Lemma product_row_spec y ny q p : 0 ≤ q < 2 * BIGINT_BASE → (ny + 1 ≤ length p)%nat → (ny + 1 ≤ length y)%nat →
  Forall digit_ok (win y 1 ny) →
  ∃ s c, product_row y ny q p = Ok (s, c) ∧ length s = length p ∧ 0 ≤ c < 2 * BIGINT_BASE ∧
    Forall digit_ok (win s 1 ny) ∧ val (win s 1 ny) + c * BIGINT_BASE ^ Z.of_nat ny = val (win y 1 ny) * q.
Proof.
  intros Hq Hp Hy HFy. unfold product_row.
  loop_down (λ j '(s, c), length s = length p ∧ 0 ≤ c ≤ q ∧ Forall digit_ok (win s (1 + j) (ny - j)) ∧
    val (win s (1 + j) (ny - j)) + c * BIGINT_BASE ^ Z.of_nat (ny - j) = val (win y (1 + j) (ny - j)) * q).
  - intros j [s c] Hj (HL & Hc & HF & HV). destruct (Forall_win_lookup _ _ _ _ j HFy) as (yj & Hyj & Dy); [lia..|].
    rewrite (rd_ok _ _ _ Hyj). cbn [mbind result_bind]. unfold digit_ok in Dy.
    assert (Hz : 0 ≤ yj * q + c ≤ BIGINT_BASE * q) by nia.
    rewrite (wrapS_small 64) by (unfold BIGINT_BASE in *; lia). cbv zeta.
    destruct (digit_step (yj * q + c)) as [Dd Ed]; [lia|].
    assert (Hquot : 0 ≤ Z.quot (yj * q + c) BIGINT_BASE ≤ q).
    { split; [apply Z.quot_pos; [lia|done]|]. apply Z.quot_le_upper_bound; [done|lia]. }
    assert (E : (if BIGINT_BASE <=? yj * q + c
                 then p ← wr s j (Z.rem (yj * q + c) BIGINT_BASE); Ok (p, int32 (Z.quot (yj * q + c) BIGINT_BASE))
                 else p ← wr s j (int32 (yj * q + c)); Ok (p, 0)) =
                Ok (<[j := Z.rem (yj * q + c) BIGINT_BASE]> s, Z.quot (yj * q + c) BIGINT_BASE)).
    { destruct (Z.leb_spec BIGINT_BASE (yj * q + c)); rewrite wr_ok by lia; cbn [mbind result_bind].
      - by rewrite (wrapS_small 32) by (unfold BIGINT_BASE in *; lia).
      - rewrite (wrapS_small 32) by (unfold BIGINT_BASE in *; lia). by rewrite Z.rem_small, Z.quot_small by lia. }
    rewrite E. eexists. split; [done|]. cbn beta iota. clear E.
    replace (ny - (j - 1))%nat with (S (ny - j)) by lia. replace (1 + (j - 1))%nat with j by lia.
    split; [by rewrite length_insert|]. split; [done|]. split; [by apply digits_write; [lia|..]|].
    rewrite val_write, (val_win_cons y _ _ yj), pow_base_S by (done || lia). change (S j) with (1 + j)%nat.
    generalize dependent (BIGINT_BASE ^ Z.of_nat (ny - j)). intros P HV. nia.
  - rewrite Nat.sub_diag, !win_0. split; [done|]. split; [lia|]. split; [constructor|]. cbn. lia.
  - destruct Hloop as ([s c] & E & HL & Hc & HF & HV). exists s, c. rewrite Nat.sub_0_r, !Nat.add_0_r in *.
    split_and!; [done|done|lia|lia|done|done].
Qed.

Lemma shift_right (p : list Z) n : (n + 2 ≤ length p)%nat →
  ∃ s, for_down n (λ j (p : list Z), v ← rd p j; wr p (j + 1) v) p = Ok s ∧ length s = length p ∧ win s 2 n = win p 1 n.
Proof.
  intros Hl. loop_down (λ j s, length s = length p ∧ (∀ k, (k ≤ j)%nat → s !! k = p !! k) ∧
    (∀ k, (j < k ≤ n)%nat → s !! (k + 1)%nat = p !! k)).
  - intros j s Hj (HL & H1 & H2). destruct (lookup_lt_is_Some_2 p j) as [v Hv]; [lia|].
    rewrite (rd_ok s _ v) by (by rewrite H1 by lia). cbn [mbind result_bind]. rewrite wr_ok by lia. eexists. split; [done|].
    split; [by rewrite length_insert|]. split; intros k Hk.
    + rewrite list_lookup_insert_ne by lia. apply H1. lia.
    + destruct (decide (k = j)) as [->|]; [by rewrite list_lookup_insert_eq by lia|]. rewrite list_lookup_insert_ne by lia. apply H2. lia.
  - split; [done|]. split; [done|lia].
  - destruct Hloop as (s & E & HL & _ & H2). exists s. split; [done|]. split; [done|].
    apply win_shift_ext. intros k Hk. replace (2 + k)%nat with ((1 + k) + 1)%nat by lia. apply H2. lia.
Qed.

(** The product has the digits of the divisor, and one more in front for a carry; that
    one may be larger than a digit. *)
Definition product_digits (p : list Z) (pn ny : nat) : Prop :=
  (pn = ny ∧ Forall digit_ok (win p 1 ny)) ∨ (pn = S ny ∧ ∃ c, p !! 1%nat = Some c ∧ 0 < c ∧ Forall digit_ok (win p 2 ny)).

Lemma product_spec y ny q p : 0 ≤ q < 2 * BIGINT_BASE → (ny + 2 ≤ length p)%nat → (ny + 1 ≤ length y)%nat → (1 ≤ ny)%nat →
  Forall digit_ok (win y 1 ny) →
  ∃ s pn, product y ny q p = Ok (s, pn) ∧ length s = length p ∧ product_digits s pn ny ∧ val (win s 1 pn) = val (win y 1 ny) * q.
Proof.
  intros Hq Hp Hy Hny HFy. destruct (product_row_spec y ny q p) as (s & c & E & HL & Hc & HF & HV); [done|lia|done|done|].
  unfold product. fold (product_row y ny q p). rewrite E. cbn [mbind result_bind]. destruct (Z.eqb_spec c 0) as [->|Hc0].
  - exists s, ny. split; [done|]. split; [done|]. split; [by left|lia].
  - destruct (shift_right s ny) as (s2 & E2 & HL2 & HW2); [lia|]. rewrite E2. cbn [mbind result_bind]. rewrite wr_ok by lia.
    cbn [mbind result_bind]. exists (<[1%nat := c]> s2), (ny + 1)%nat. split; [done|]. split; [rewrite length_insert; lia|].
    replace (ny + 1)%nat with (S ny) by lia. split.
    + right. split; [done|]. exists c. split; [by rewrite list_lookup_insert_eq by lia|]. split; [lia|].
      rewrite win_insert_out by lia. by rewrite HW2.
    + rewrite val_write by lia. rewrite HW2. lia.
Qed.

(** ** Comparison and correction *)

Lemma val_digits (a : list Z) s n : Forall digit_ok (win a s n) → (s + n ≤ length a)%nat → 0 ≤ val (win a s n) < BIGINT_BASE ^ Z.of_nat n.
Proof. intros HF Hl. pose proof (val_bound _ HF) as Hb. by rewrite win_length in Hb by lia. Qed.

Lemma cmp_product r nr p pn ny : (nr + 1 ≤ length r)%nat → (pn + 1 ≤ length p)%nat → (1 ≤ ny)%nat → Forall digit_ok (win r 1 nr) →
  (nr = ny ∨ nr = S ny ∧ r !! 1%nat ≠ Some 0) → product_digits p pn ny →
  ∃ c, cmpAbsBigint r nr p pn = Ok c ∧ (c < 0 ↔ val (win r 1 nr) < val (win p 1 pn)).
Proof.
  intros Hlr Hlp Hny HFr Hnr Hp. pose proof (val_digits _ _ _ HFr ltac:(lia)) as Hr. unfold cmpAbsBigint.
  assert (Hloop : nr = pn → Forall digit_ok (win p 1 pn) → ∃ c, cmpAbs_loop nr 1 r p = Ok c ∧ (c < 0 ↔ val (win r 1 nr) < val (win p 1 pn))).
  { intros -> HFp. rewrite (cmpAbs_loop_spec r p pn 1) by (done || lia). eexists. split; [done|].
    destruct (Z.compare_spec (val (win r 1 pn)) (val (win p 1 pn))); lia. }
  destruct Hp as [[-> HFp]|(-> & c1 & Hc1 & Hc0 & HFp)].
  - pose proof (val_digits _ _ _ HFp ltac:(lia)) as Hpb. destruct Hnr as [->|[-> Hr1]].
    + rewrite Z.sub_diag. by apply Hloop.
    + rewrite (proj2 (Z.eqb_neq _ 0)), (proj2 (Z.ltb_lt 0 _)) by lia. exists 1. split; [done|]. split; [lia|]. intros Hlt.
      destruct (lookup_lt_is_Some_2 r 1) as [d Hd]; [lia|].
      destruct (val_lead r (S ny) d ltac:(lia) ltac:(lia) HFr Hd ltac:(congruence)) as [_ Hb]. replace (S ny - 1)%nat with ny in Hb by lia.
      change 1000000000 with BIGINT_BASE in Hb. lia.
  - pose proof (val_digits _ _ _ HFp ltac:(lia)) as Hpb.
    assert (Epv : val (win p 1 (S ny)) = c1 * BIGINT_BASE ^ Z.of_nat ny + val (win p 2 ny)) by (by apply val_win_cons; [|lia]).
    pose proof (pow_base_pos ny) as HP. destruct Hnr as [->|[-> _]].
    + rewrite (proj2 (Z.eqb_neq _ 0)), (proj2 (Z.ltb_ge 0 _)) by lia. exists (-1). split; [done|]. split; [|lia]. intros _.
      assert (1 * BIGINT_BASE ^ Z.of_nat ny ≤ c1 * BIGINT_BASE ^ Z.of_nat ny) by (apply Z.mul_le_mono_nonneg_r; lia). lia.
    + rewrite Z.sub_diag. change (0 =? 0) with true. cbv iota. destruct (decide (c1 < BIGINT_BASE)) as [Hc|Hc].
      { apply Hloop; [done|]. rewrite (win_cons _ _ _ _ Hc1). constructor; [unfold digit_ok; lia|done]. }
      destruct (Forall_win_lookup _ _ _ _ 1%nat HFr) as (r1 & Hr1 & Dr1); [lia..|]. unfold digit_ok in Dr1.
      exists (-1). cbn [cmpAbs_loop]. rewrite (rd_ok _ _ _ Hr1), (rd_ok _ _ _ Hc1). cbn [mbind result_bind].
      rewrite (proj2 (Z.ltb_ge _ _)), (proj2 (Z.ltb_lt _ _)) by lia. split; [done|]. split; [|lia]. intros _. rewrite Epv.
      rewrite pow_base_S in Hr.
      assert (BIGINT_BASE * BIGINT_BASE ^ Z.of_nat ny ≤ c1 * BIGINT_BASE ^ Z.of_nat ny) by (apply Z.mul_le_mono_nonneg_r; lia). lia.
Qed.

Lemma correct_spec r nr y ny : (nr + 1 ≤ length r)%nat → (ny + 1 ≤ length y)%nat → (1 ≤ ny)%nat → Forall digit_ok (win r 1 nr) →
  Forall digit_ok (win y 1 ny) → (nr = ny ∨ nr = S ny ∧ r !! 1%nat ≠ Some 0) → 0 < val (win y 1 ny) →
  let q := val (win r 1 nr) / val (win y 1 ny) in q < BIGINT_BASE →
  ∀ fuel g p, q ≤ g → g < q + Z.of_nat fuel → g < 2 * BIGINT_BASE → (ny + 2 ≤ length p)%nat →
  ∃ s pn, correct_digit fuel r nr y ny g p = Ok (q, s, pn) ∧ length s = length p ∧ product_digits s pn ny ∧
    val (win s 1 pn) = val (win y 1 ny) * q ∧ (pn ≤ nr)%nat.
Proof.
  intros Hlr Hly Hny HFr HFy Hnr Hypos q Hq. pose proof (val_digits _ _ _ HFr ltac:(lia)) as Hr.
  pose proof (Z.mul_div_le (val (win r 1 nr)) (val (win y 1 ny)) Hypos) as Hlo. pose proof (Z.mul_succ_div_gt (val (win r 1 nr)) (val (win y 1 ny)) Hypos) as Hhi.
  assert (Hq0 : 0 ≤ q) by (apply Z.div_pos; lia). fold q in Hlo, Hhi.
  induction fuel as [|fuel IH]; intros g p Hg Hgf Hg2 Hlp; [lia|]. cbn [correct_digit].
  destruct (product_spec y ny g p) as (s & pn & E & HL & Hpd & Hpv); [lia|done|done|done|done|]. rewrite E. cbn [mbind result_bind].
  assert (Hpn : (pn + 1 ≤ length s)%nat) by (destruct Hpd as [[-> _]|[-> _]]; lia).
  destruct (cmp_product r nr s pn ny Hlr Hpn Hny HFr Hnr Hpd) as (c & Ec & Hc). rewrite Ec. cbn [mbind result_bind]. rewrite Hpv in Hc.
  destruct (Z.ltb_spec c 0) as [Hlt|Hge].
  - apply Hc in Hlt. assert (g ≠ q) by (intros ->; lia). destruct (IH (g - 1) s) as (s2 & pn2 & E2 & HL2 & H2); [lia..|].
    exists s2, pn2. split; [done|]. split; [lia|done].
  - assert (g = q) as ->.
    { destruct (decide (g = q)); [done|]. exfalso. assert (val (win y 1 ny) * Z.succ q ≤ val (win y 1 ny) * g) by (apply Z.mul_le_mono_nonneg_l; lia). lia. }
    exists s, pn. split; [done|]. split; [done|]. split; [done|]. split; [done|].
    destruct Hpd as [[-> _]|(-> & c1 & Hc1 & Hc0 & HFp)]; [lia|]. destruct Hnr as [->|[-> _]]; [|lia]. exfalso.
    rewrite (val_win_cons _ _ _ _ Hc1) in Hpv by lia. pose proof (val_digits _ _ _ HFp ltac:(lia)). pose proof (pow_base_pos ny).
    assert (1 * BIGINT_BASE ^ Z.of_nat ny ≤ c1 * BIGINT_BASE ^ Z.of_nat ny) by (apply Z.mul_le_mono_nonneg_r; lia). lia.
Qed.

(** ** Subtraction in place *)

Definition sub_step (src : list Z → list Z) (p : list Z) (k : nat) (st : list Z * Z * nat) : result (list Z * Z * nat) :=
  let '(s, carry, j) := st in
  rk ← rd (src s) k;
  digit ← (if Nat.ltb 0 j then pj ← rd p j; Ok (rk - pj - carry) else Ok (rk - carry));
  let '(digit, carry) := if digit <? 0 then (digit + BIGINT_BASE, 1) else (digit, 0) in
  s ← wr s k (Z.rem digit BIGINT_BASE);
  Ok (s, carry, (j - 1)%nat).

Lemma sub_step_eq r p n : ∀ s c j, (∀ k, (k ≤ n)%nat → s !! k = r !! k) →
  for_down n (sub_step id p) (s, c, j) = for_down n (sub_step (λ _, r) p) (s, c, j).
Proof.
  induction n as [|n IH]; intros s c j H; [done|]. cbn [for_down].
  assert (E : sub_step id p (S n) (s, c, j) = sub_step (λ _, r) p (S n) (s, c, j)).
  { unfold sub_step, id, rd. by rewrite H. }
  rewrite E. destruct (sub_step (λ _, r) p (S n) (s, c, j)) as [[[s' c'] j']| | |] eqn:Es; cbn [mbind result_bind]; [|done..].
  apply IH. intros k Hk. rewrite <- H by lia. revert Es. unfold sub_step.
  destruct (rd r (S n)); cbn [mbind result_bind]; [|done..]. destruct (if Nat.ltb 0 j then _ else _); cbn [mbind result_bind]; [|done..].
  destruct (if _ <? 0 then _ else _) as [d c2]. unfold wr. destruct (decide _); cbn [mbind result_bind]; [|done]. intros [= <- _ _].
  by rewrite list_lookup_insert_ne by lia.
Qed.

Lemma subtract_spec r nr p pn : (pn ≤ nr)%nat → (nr + 1 ≤ length r)%nat → (pn + 1 ≤ length p)%nat → Forall digit_ok (win r 1 nr) →
  Forall digit_ok (win p 1 pn) → val (win p 1 pn) ≤ val (win r 1 nr) →
  ∃ s, subtract r nr p pn = Ok s ∧ length s = length r ∧ s !! 0%nat = r !! 0%nat ∧ Forall digit_ok (win s 1 nr) ∧
    val (win s 1 nr) = val (win r 1 nr) - val (win p 1 pn).
Proof.
  intros Hn Hlr Hlp HFr HFp Hle. assert (E : subtract r nr p pn = sub_digits r nr p pn r).
  { change (subtract r nr p pn) with ('(r, _, _) ← for_down nr (sub_step id p) (r, 0, pn); Ok r).
    by rewrite (sub_step_eq r) by done. }
  rewrite E. destruct (sub_digits_spec r nr p pn r) as (s & Es & HL & H0 & HF & HV); [done..|]. by exists s.
Qed.

(** ** Leading zeros of the remainder *)

Lemma trim_spec r nr last : (1 ≤ nr)%nat → (nr + 2 ≤ length r)%nat → Forall digit_ok (win r 1 nr) →
  ∃ s n, trim_remainder r nr last = Ok (s, n) ∧ length s = length r ∧ s !! 0%nat = r !! 0%nat ∧ (n ≤ nr)%nat ∧ Forall digit_ok (win s 1 n) ∧
    val (win s 1 n) = val (win r 1 nr) ∧ (s !! 1%nat ≠ Some 0 ∧ (1 ≤ n)%nat ∨ val (win r 1 nr) = 0 ∧ n = if last then 1%nat else 0%nat).
Proof.
  intros Hnr Hl HF. unfold trim_remainder. destruct (lookup_lt_is_Some_2 r 1) as [r1 Hr1]; [lia|].
  rewrite (rd_ok _ _ _ Hr1). cbn [mbind result_bind]. destruct (Z.eqb_spec r1 0) as [->|Hr10].
  2: { cbn [mbind result_bind]. rewrite (rd_ok _ _ _ Hr1). cbn [mbind result_bind]. rewrite (proj2 (Z.eqb_neq r1 0)) by done. cbn [andb].
       exists r, nr. split_and!; [done|done|done|lia|done|done|left]. split; [congruence|lia]. }
  destruct (leading_zeros_spec r nr) with (fuel := (nr + 1)%nat) (i := 1%nat) (n := 0%nat) as (m & E & Hm & Hz & Hnz); [lia..|].
  rewrite E. cbn [mbind result_bind]. assert (Hsplit : win r 1 nr = replicate m 0 ++ win r (m + 1) (nr - m)).
  { replace nr with (m + (nr - m))%nat at 1 by lia. rewrite win_app. f_equal; [|f_equal; lia]. apply win_zeros; [lia|]. intros k Hk. apply Hz. lia. }
  assert (Hval : val (win r 1 nr) = val (win r (m + 1) (nr - m))) by (rewrite Hsplit, val_app, val_zeros; lia).
  destruct (Nat.eqb_spec m nr) as [->|Hmn]; cbn [mbind result_bind].
  - rewrite (rd_ok _ _ _ Hr1). cbn [mbind result_bind Z.eqb andb]. rewrite Nat.sub_diag, win_0 in Hval.
    exists r, (if last then 1%nat else 0%nat). assert (W1 : win r 1 1 = [0]) by (by rewrite (win_cons _ _ _ _ Hr1)).
    assert (HF1 : Forall digit_ok [0]) by (constructor; [unfold digit_ok, BIGINT_BASE; lia|constructor]).
    rewrite Hval. destruct last; rewrite ?W1, ?win_0.
    + do 5 (split; [done || lia|]). split; [done|by right].
    + do 4 (split; [done || lia|]). split; [constructor|]. split; [done|by right].
  - destruct (memmove_left_spec r m nr) as (s & E3 & L3 & Z3 & W3); [lia..|]. rewrite E3. cbn [mbind result_bind].
    rewrite Hsplit in HF. apply Forall_app in HF as [_ HF].
    assert (Hs1 : s !! 1%nat ≠ Some 0).
    { change (s !! 1%nat) with (s !! (1 + 0)%nat). rewrite <- (lookup_win s 1 (nr - m) 0), W3, lookup_win, Nat.add_0_r by lia. apply Hnz. lia. }
    destruct (lookup_lt_is_Some_2 s 1) as [s1 Hs]; [lia|]. rewrite (rd_ok _ _ _ Hs). cbn [mbind result_bind].
    rewrite (proj2 (Z.eqb_neq s1 0)) by congruence. cbn [andb]. exists s, (nr - m)%nat.
    split_and!; [done|done|done|lia|by rewrite W3|by rewrite W3, Hval|left]. split; [done|lia].
Qed.

(** ** The loop *)

Section Loop.

Context (x y : list Z) (nx ny : nat) (Hx : bigint_ok x nx) (Hy : bigint_ok y ny) (Hx1 : x !! 1%nat ≠ Some 0) (Hy1 : y !! 1%nat ≠ Some 0)
  (Hny : (ny ≤ nx)%nat).

#[local] Abbreviation Y := (val (win y 1 ny)).

Record taken (i : nat) (st : longdiv) : Prop := {
  ta_r : (nx + 2 ≤ length (ld_r st))%nat;
  ta_q : (nx - ny + 2 ≤ length (ld_q st))%nat;
  ta_p : (nx + 2 ≤ length (ld_p st))%nat;
  ta_sign : ld_r st !! 0%nat = Some 1 ∧ ld_q st !! 0%nat = Some 1;
  ta_nr : (nr st ≤ i)%nat;
  ta_digits : Forall digit_ok (win (ld_r st) 1 (nr st)) ∧ Forall digit_ok (win (ld_q st) 1 (sq st));
  ta_sq : (sq st = 0 ∧ nr st = i)%nat ∨ (1 ≤ sq st ∧ sq st + ny ≤ S i)%nat ∧ ld_q st !! 1%nat ≠ Some 0;
  ta_norm : (nr st = 0 ∧ i < nx)%nat ∨ (1 ≤ nr st)%nat ∧ ld_r st !! 1%nat ≠ Some 0 ∨ (i = nx ∧ nr st = 1)%nat;
  ta_value : val (win x 1 i) = val (win (ld_q st) 1 (sq st)) * Y + val (win (ld_r st) 1 (nr st));
  ta_below : val (win (ld_r st) 1 (nr st)) < Y }.

Lemma divisor_lead : BIGINT_BASE ^ Z.of_nat (ny - 1) ≤ Y < BIGINT_BASE ^ Z.of_nat ny.
Proof.
  destruct (bigint_first _ _ Hy) as (d & Hd & _). pose proof (bi_size _ _ Hy) as [H1 H2].
  destruct (val_lead y ny d H1 H2 (bi_digits _ _ Hy) Hd ltac:(congruence)) as [_ H]. exact H.
Qed.

Lemma divisor_pos : 0 < Y.
Proof. eapply Z.lt_le_trans; [apply (pow_base_pos (ny - 1))|apply divisor_lead]. Qed.

Lemma val_snoc (a : list Z) n d : (n + 2 ≤ length a)%nat → val (win (<[S n := d]> a) 1 (S n)) = val (win a 1 n) * BIGINT_BASE + d.
Proof.
  intros Hl. replace (S n) with (n + 1)%nat at 2 by lia. rewrite val_split by (rewrite length_insert; lia). rewrite win_insert_out by lia.
  change (1 + n)%nat with (S n). rewrite (win_cons _ _ _ d) by (by rewrite list_lookup_insert_eq by lia). rewrite win_0, val1.
  by rewrite Z.pow_1_r.
Qed.

Lemma digits_snoc (a : list Z) n d : (n + 2 ≤ length a)%nat → Forall digit_ok (win a 1 n) → digit_ok d →
  Forall digit_ok (win (<[S n := d]> a) 1 (S n)).
Proof.
  intros Hl HF Hd. replace (S n) with (n + 1)%nat at 2 by lia. rewrite win_app, win_insert_out by lia. apply Forall_app. split; [done|].
  change (1 + n)%nat with (S n). rewrite (win_cons _ _ _ d) by (by rewrite list_lookup_insert_eq by lia). by constructor.
Qed.

(** The end of a step: the quotient gets the digit [q], the remainder is trimmed. *)
Lemma finish_digit i st r1 r2 p2 q d : taken i st → (i < nx)%nat → x !! S i = Some d →
  r1 = <[S (nr st) := d]> (ld_r st) → q = val (win r1 1 (S (nr st))) / Y → q < BIGINT_BASE →
  (sq st = 0%nat → Y ≤ val (win r1 1 (S (nr st)))) → (ny ≤ S i)%nat →
  length r2 = length r1 → r2 !! 0%nat = r1 !! 0%nat → Forall digit_ok (win r2 1 (S (nr st))) →
  val (win r2 1 (S (nr st))) = val (win r1 1 (S (nr st))) - Y * q → (nx + 2 ≤ length p2)%nat →
  ∃ r3 n, trim_remainder r2 (S (nr st)) (Nat.eqb (S i) nx) = Ok (r3, n) ∧
    taken (S i) (Longdiv r3 n (<[S (sq st) := q]> (ld_q st)) (S (sq st)) p2).
Proof.
  intros [Hr Hq Hp [Hs0 Hs1] Hnr [HFr HFq] Hsq Hnorm Hval Hlt] Hi Hd Er1 Eq HqB Hfirst Hnyi HL H0 HF2 HV2 Hlp.
  pose proof divisor_pos as HY. pose proof (bi_size _ _ Hx) as [_ Hlx].
  assert (Hl1 : length r1 = length (ld_r st)) by (by rewrite Er1, length_insert).
  assert (Hv1 : val (win r1 1 (S (nr st))) = val (win (ld_r st) 1 (nr st)) * BIGINT_BASE + d) by (rewrite Er1; apply val_snoc; lia).
  destruct (trim_spec r2 (S (nr st)) (Nat.eqb (S i) nx)) as (r3 & n & E & HL3 & H03 & Hn & HF3 & HV3 & Hcase); [lia|lia|done|].
  exists r3, n. split; [done|]. pose proof (val_digits _ _ _ HF2 ltac:(lia)) as Hb2.
  assert (Hq0 : 0 ≤ q) by (rewrite Eq; apply Z.div_pos; [pose proof (val_digits _ _ _ HFr ltac:(lia)); destruct (Forall_win_lookup _ _ _ _ (S i) (bi_digits _ _ Hx)) as (d' & Hd' & Dd); [lia..|]; rewrite Hd in Hd'; injection Hd' as <-; unfold digit_ok, BIGINT_BASE in *; lia|lia]).
  assert (Hqlen : (S (sq st) < length (ld_q st))%nat) by (destruct Hsq as [[? ?]|[[? ?] ?]]; lia).
  split; cbn [ld_r ld_q ld_p nr sq].
  - lia.
  - rewrite length_insert. lia.
  - done.
  - split; [by rewrite H03, H0, Er1, list_lookup_insert_ne by lia|by rewrite list_lookup_insert_ne by lia].
  - lia.
  - split; [done|]. apply digits_snoc; [lia|done|done].
  - right. split; [destruct Hsq as [[? ?]|[[? ?] ?]]; lia|]. destruct Hsq as [[E0 _]|[[? _] Hq1]].
    + rewrite E0, list_lookup_insert_eq by lia. intros [= Hz]. specialize (Hfirst E0).
      pose proof (Z.div_le_lower_bound (val (win r1 1 (S (nr st)))) Y 1 HY ltac:(lia)). lia.
    + by rewrite list_lookup_insert_ne by lia.
  - destruct Hcase as [[H1 H2]|[_ Hn']]; [right; left; done|]. destruct (Nat.eqb_spec (S i) nx); [right; right; done|left; lia].
  - replace (S i) with (i + 1)%nat by lia. rewrite val_split by lia. change (1 + i)%nat with (S i).
    rewrite (win_cons _ _ _ _ Hd), win_0, val1, Z.pow_1_r, Hval, val_snoc by lia. rewrite HV3, HV2, Hv1. lia.
  - rewrite HV3, HV2. pose proof (Z.mul_succ_div_gt (val (win r1 1 (S (nr st)))) Y HY) as Hgt. rewrite <- Eq in Hgt. lia.
Qed.

(** The next digit of the dividend behind the remainder. *)
Lemma push_digit i st d : taken i st → (i < nx)%nat → x !! S i = Some d →
  let r1 := <[S (nr st) := d]> (ld_r st) in
  bigint_ok r1 (S (nr st)) ∧ val (win r1 1 (S (nr st))) < BIGINT_BASE * Y ∧ digit_ok d.
Proof.
  intros [Hr _ _ [Hs0 _] Hnr [HFr _] _ Hnorm _ Hlt] Hi Hd r1. pose proof (bi_size _ _ Hx) as [_ Hlx].
  destruct (Forall_win_lookup _ _ _ _ (S i) (bi_digits _ _ Hx)) as (d' & Hd' & Dd); [lia..|]. rewrite Hd in Hd'. injection Hd' as <-.
  assert (Hv : val (win r1 1 (S (nr st))) = val (win (ld_r st) 1 (nr st)) * BIGINT_BASE + d) by (apply val_snoc; lia).
  split; [|split; [unfold digit_ok, BIGINT_BASE in *; lia|done]]. split.
  - unfold r1. rewrite length_insert. lia.
  - left. unfold r1. by rewrite list_lookup_insert_ne by lia.
  - by apply digits_snoc; [lia|..].
  - destruct Hnorm as [[H0 _]|[[H1 Hn]|[H0 _]]]; [left; lia|right|lia]. unfold r1. by rewrite list_lookup_insert_ne by lia.
Qed.

(** The part of the step behind the guess. *)
Lemma digit_found i st d q g p : taken i st → (i < nx)%nat → x !! S i = Some d →
  let r1 := <[S (nr st) := d]> (ld_r st) in let n1 := S (nr st) in
  q = val (win r1 1 n1) / Y → q ≤ g ≤ q + 3 → (sq st = 0%nat → Y ≤ val (win r1 1 n1)) → (ny ≤ S i)%nat → (ny ≤ n1)%nat → (n1 ≤ ny + 1)%nat →
  p = ld_p st →
  ∃ st', (qs ← wr (ld_q st) (S (sq st)) g;
          '(qd, p, pn) ← correct_digit GUESSES r1 n1 y ny g p;
          qs ← wr qs (S (sq st)) qd;
          r ← subtract r1 n1 p pn;
          '(r, nr) ← trim_remainder r n1 (Nat.eqb (S i) nx);
          Ok (Longdiv r nr qs (S (sq st)) p)) = Ok st' ∧ taken (S i) st'.
Proof.
  intros Ht Hi Hd r1 n1 Eq Hg Hfirst Hnyi Hn1 Hn1y ->. pose proof divisor_pos as HY. destruct (push_digit i st d Ht Hi Hd) as (Hr1 & Hlt1 & Dd).
  fold r1 n1 in Hr1, Hlt1. pose proof (bi_size _ _ Hr1) as [_ Hlr1]. pose proof (val_digits _ _ _ (bi_digits _ _ Hr1) ltac:(lia)) as Hb1.
  pose proof (bi_size _ _ Hy) as [Hny1 Hly].
  assert (HqB : 0 ≤ q < BIGINT_BASE) by (rewrite Eq; split; [apply Z.div_pos; lia|apply Z.div_lt_upper_bound; lia]).
  assert (Hlq : (S (sq st) < length (ld_q st))%nat) by (pose proof (ta_q _ _ Ht); destruct (ta_sq _ _ Ht) as [[? ?]|[[? ?] ?]]; lia).
  rewrite wr_ok by done. cbn [mbind result_bind].
  destruct (correct_spec r1 n1 y ny Hlr1 Hly Hny1 (bi_digits _ _ Hr1) (bi_digits _ _ Hy)) with (fuel := GUESSES) (g := g) (p := ld_p st)
    as (s & pn & Ec & HLs & Hpd & Hpv & Hpn); [ |done|rewrite <- Eq; lia|rewrite <- Eq; lia|rewrite <- Eq; unfold GUESSES; lia|unfold BIGINT_BASE in *; lia|pose proof (ta_p _ _ Ht); lia|].
  { destruct (decide (n1 = ny)) as [|Hne]; [by left|right]. split; [lia|]. destruct (bi_norm _ _ Hr1); [lia|done]. }
  rewrite Ec. cbn [mbind result_bind]. rewrite <- Eq in Hpv |- *. rewrite wr_ok by (by rewrite length_insert). cbn [mbind result_bind]. rewrite list_insert_insert_eq.
  pose proof (Z.mul_div_le (val (win r1 1 n1)) Y HY) as Hle. rewrite <- Eq in Hle. pose proof (ta_p _ _ Ht).
  assert (HFs : Forall digit_ok (win s 1 pn)).
  { destruct Hpd as [[-> HF]|(-> & c & Hc & Hc0 & HF)]; [done|]. rewrite (win_cons _ _ _ _ Hc). constructor; [|done].
    rewrite (val_win_cons _ _ _ _ Hc) in Hpv by lia. pose proof (val_digits _ _ _ HF ltac:(lia)). pose proof (pow_base_pos ny).
    assert (n1 = S ny) as En1 by lia. unfold digit_ok. split; [lia|].
    apply (Z.mul_lt_mono_pos_r (BIGINT_BASE ^ Z.of_nat ny)); [done|]. rewrite En1 in Hle, Hb1. rewrite pow_base_S in Hb1. lia. }
  destruct (subtract_spec r1 n1 s pn Hpn Hlr1) as (r2 & Er & HL2 & H02 & HF2 & HV2); [destruct Hpd as [[-> _]|[-> _]]; lia|apply Hr1|done|lia|].
  rewrite Er. cbn [mbind result_bind]. rewrite Hpv in HV2.
  destruct (finish_digit i st r1 r2 s q d Ht Hi Hd eq_refl Eq ltac:(lia) Hfirst Hnyi HL2 H02 HF2 HV2 ltac:(lia)) as (r3 & n & E & Ht').
  fold n1 in E. rewrite E. cbn [mbind result_bind]. by eexists.
Qed.

Lemma div_digit_taken yFloat i st : bigintToAbsFloat y (if Nat.ltb 2 ny then 2 else Z.of_nat ny) = Ok yFloat →
  taken i st → (i < nx)%nat → ∃ st', div_digit x nx y ny yFloat (S i) st = Ok st' ∧ taken (S i) st'.
Proof.
  intros EyF Ht Hi. pose proof divisor_pos as HY. pose proof divisor_lead as HYb. pose proof (bi_size _ _ Hx) as [_ Hlx].
  pose proof (bi_size _ _ Hy) as [Hny1 Hly].
  destruct (lookup_lt_is_Some_2 x (S i)) as [d Hd]; [lia|]. destruct (push_digit i st d Ht Hi Hd) as (Hr1 & Hlt1 & Dd).
  pose proof Ht as [Hr Hq Hp [Hs0 Hs1] Hnr [HFr HFq] Hsq Hnorm Hval Hlt].
  unfold div_digit. rewrite (rd_ok _ _ _ Hd). cbn [mbind result_bind]. cbv zeta. rewrite (wr_ok (ld_r st)) by lia. cbn [mbind result_bind].
  set (r1 := <[S (nr st) := d]> (ld_r st)) in *. set (n1 := S (nr st)) in *.
  assert (Hl1 : length r1 = length (ld_r st)) by (unfold r1; by rewrite length_insert).
  rewrite (cmpAbsBigint_spec _ _ _ _ Hr1 Hy).
  destruct (Nat.eqb (sq st) 0 && (val (win r1 1 n1) <? Y)) eqn:Eskip.
  { apply andb_true_iff in Eskip as [E0%Nat.eqb_eq Elt%Z.ltb_lt]. rewrite E0, Nat.eqb_refl. cbn [mbind result_bind].
    rewrite (proj2 (Z.compare_lt_iff _ _)) by done. cbn [sign_of mbind result_bind Z.ltb Z.compare]. eexists. split; [done|].
    assert (nr st = i) by (destruct Hsq as [[_ ?]|[[? _] _]]; lia).
    assert (Hv1 : val (win r1 1 n1) = val (win (ld_r st) 1 (nr st)) * BIGINT_BASE + d) by (apply val_snoc; lia).
    split; cbn [ld_r ld_q ld_p nr sq]; [lia|done|done|split; [|done]|lia|split; [apply Hr1|constructor]|left; lia| |rewrite win_0|done].
    - unfold r1. by rewrite list_lookup_insert_ne by (unfold n1; lia).
    - right. left. split; [unfold n1; lia|]. destruct Hnorm as [[H0 _]|[[H1 Hn]|[H0 _]]]; [|unfold r1; by rewrite list_lookup_insert_ne by (unfold n1; lia)|lia].
      assert (i = 0)%nat as -> by lia. unfold r1, n1. rewrite H0, list_lookup_insert_eq by lia. by rewrite <- Hd.
    - replace (S i) with (i + 1)%nat by lia. rewrite val_split by lia. change (1 + i)%nat with (S i).
      rewrite (win_cons _ _ _ _ Hd), win_0, val1, Z.pow_1_r, Hval, E0, win_0, Hv1. cbn. lia. }
  assert (Esk : (if Nat.eqb (sq st) 0 then cmp ← Ok (sign_of (val (win r1 1 n1) ?= Y)); Ok (cmp <? 0) else Ok false) = Ok false).
  { destruct (Nat.eqb (sq st) 0); [|done]. cbn [andb mbind result_bind] in Eskip |- *. apply Z.ltb_ge in Eskip.
    destruct (Z.compare_spec (val (win r1 1 n1)) Y); [done|lia|done]. }
  rewrite Esk. cbn [mbind result_bind]. clear Esk.
  destruct (digit_choice r1 y n1 ny) as (Hn1 & rF & yF & ErF & EyF' & Hch); [lia|lia|apply Hr1|by apply bi_norm|done|done|done|].
  rewrite EyF in EyF'. injection EyF' as <-. rewrite ErF. cbn [mbind result_bind].
  pose proof (val_digits _ _ _ (bi_digits _ _ Hr1) ltac:(lia)) as Hb1.
  assert (Hnyi : (ny ≤ S i)%nat).
  { destruct Hsq as [[E0 Enr]|[[H1 H2] _]]; [|lia]. rewrite E0 in Eskip. cbn [Nat.eqb andb] in Eskip. apply Z.ltb_ge in Eskip.
    apply Nat.nlt_ge. intros H. pose proof (Z.pow_le_mono_r BIGINT_BASE (Z.of_nat n1) (Z.of_nat (ny - 1)) ltac:(done) ltac:(lia)). lia. }
  set (q := val (win r1 1 n1) / Y). assert (HqB : 0 ≤ q < BIGINT_BASE) by (unfold q; split; [apply Z.div_pos; lia|apply Z.div_lt_upper_bound; lia]).
  assert (Hfirst : sq st = 0%nat → Y ≤ val (win r1 1 n1)).
  { intros E0. rewrite E0 in Eskip. cbn [Nat.eqb andb] in Eskip. by apply Z.ltb_ge in Eskip. }
  assert (Hlq : (S (sq st) < length (ld_q st))%nat) by (destruct Hsq as [[? ?]|[[? ?] ?]]; lia).
  destruct (decide (SFcompare yFloat rF = Some Gt)) as [Egt|Engt].
  { unfold chosen in Hch. rewrite Egt in Hch |- *. rewrite wr_ok by done. cbn [mbind result_bind].
    assert (Eq : q = 0) by (unfold q; apply Z.div_small; lia).
    destruct (finish_digit i st r1 r1 (ld_p st) q d Ht Hi Hd eq_refl eq_refl ltac:(lia) Hfirst Hnyi) as (r3 & n & E & Ht'); [done|done|apply Hr1|lia|done|].
    fold n1 in E. rewrite E. cbn [mbind result_bind]. rewrite Eq in Ht'. by eexists. }
  assert (Hg : ∃ g, (match SFcompare yFloat rF with Some Eq => Ok 1 | _ => guess rF yFloat end) = Ok g ∧ q ≤ g ≤ q + 3 ∧ (ny ≤ n1)%nat).
  { unfold chosen in Hch. fold q in Hch. destruct (SFcompare yFloat rF) as [[| |]|]; [|destruct Hch as (? & g & E & ?); by exists g| |destruct Hch as (? & g & E & ?); by exists g].
    - destruct Hch as [H1 H2]. exists 1. split; [done|]. split; [|done]. assert (q < 2) by (apply Z.div_lt_upper_bound; lia). lia.
    - by destruct Engt. }
  destruct Hg as (g & Eg & Hgq & Hn1y). destruct (digit_found i st d q g (ld_p st) Ht Hi Hd eq_refl Hgq Hfirst Hnyi Hn1y Hn1 eq_refl) as (st' & E & Ht').
  exists st'. split; [|done]. rewrite <- E. fold r1 n1.
  destruct (SFcompare yFloat rF) as [[| |]|]; [injection Eg as <-; reflexivity|rewrite Eg; reflexivity|by destruct Engt|rewrite Eg; reflexivity].
Qed.

Lemma division_loop r q p : (nx + 2 ≤ length r)%nat → (nx - ny + 2 ≤ length q)%nat → (nx + 2 ≤ length p)%nat →
  r !! 0%nat = Some 1 → q !! 0%nat = Some 1 →
  ∃ yFloat st, bigintToAbsFloat y (if Nat.ltb 2 ny then 2 else Z.of_nat ny) = Ok yFloat ∧
    for_up 1 nx (div_digit x nx y ny yFloat) (Longdiv r 0 q 0 p) = Ok st ∧ taken nx st.
Proof.
  intros Hr Hq Hp Hr0 Hq0. destruct (bigint_first _ _ Hy) as (d & Hd & _). pose proof (bi_size _ _ Hx) as [Hnx _]. pose proof (bi_size _ _ Hy) as [Hny1 _].
  destruct (divisor_float y ny (Nat.min ny 2) (ny - Nat.min ny 2) d ltac:(lia) ltac:(lia) Hy Hd ltac:(congruence)) as (yF & W & E & _).
  replace (Z.of_nat (Nat.min ny 2)) with (if Nat.ltb 2 ny then 2 else Z.of_nat ny) in E by (destruct (Nat.ltb_spec 2 ny); lia).
  exists yF. loop_up (λ i st, taken (i - 1) st).
  - intros i st Hi Ht. pose proof (div_digit_taken yF (i - 1) st E Ht ltac:(lia)) as H. replace (S (i - 1)) with i in H by lia.
    by replace (i + 1 - 1)%nat with i by lia.
  - split; cbn [ld_r ld_q ld_p nr sq]; rewrite ?win_0; [done|done|done|done|lia|by split|left; lia|left; lia|done|]. apply divisor_pos.
  - destruct Hloop as (st & E2 & Ht). exists st. split; [done|]. split; [done|]. by replace (1 + nx - 1)%nat with nx in Ht by lia.
Qed.

End Loop.

(** ** Quotient and remainder *)

Lemma signed_division sx sy vx vy : (sx = 1 ∨ sx = -1) → (sy = 1 ∨ sy = -1) → 0 ≤ vx → 0 < vy →
  Z.quot (sx * vx) (sy * vy) = sx * sy * (vx / vy) ∧ Z.rem (sx * vx) (sy * vy) = sx * (vx mod vy).
Proof.
  intros Hx Hy Hvx Hvy. rewrite <- (Z.quot_div_nonneg vx vy), <- (Z.rem_mod_nonneg vx vy) by lia.
  destruct Hx as [->| ->], Hy as [->| ->]; rewrite ?Z.mul_1_l; change (-1 * vx) with (- vx); change (-1 * vy) with (- vy);
    rewrite ?Z.quot_opp_opp, ?Z.quot_opp_l, ?Z.quot_opp_r, ?Z.rem_opp_opp, ?Z.rem_opp_l, ?Z.rem_opp_r by lia; lia.
Qed.

(** The first [n] digits of an array behind another sign. *)
Lemma result_ok (a : list Z) n sg : (1 ≤ n)%nat → (n + 1 ≤ length a)%nat → Forall digit_ok (win a 1 n) → (n = 1%nat ∨ a !! 1%nat ≠ Some 0) →
  (sg = 1 ∨ sg = -1) → bigint_ok (<[0%nat := sg]> (take (n + 1) a)) n ∧ bigval (<[0%nat := sg]> (take (n + 1) a)) n = sg * val (win a 1 n).
Proof.
  intros Hn Hl HF Hnorm Hsg. set (b := <[0%nat := sg]> (take (n + 1) a)).
  assert (Hlb : length b = (n + 1)%nat) by (unfold b; rewrite length_insert, length_take; lia).
  assert (H0 : b !! 0%nat = Some sg) by (unfold b; rewrite list_lookup_insert_eq; [done|rewrite length_take; lia]).
  assert (Hb : ∀ k, (1 ≤ k < n + 1)%nat → b !! k = a !! k).
  { intros k Hk. unfold b. rewrite list_lookup_insert_ne by lia. apply lookup_take_lt. lia. }
  assert (Hw : win b 1 n = win a 1 n) by (apply win_ext; intros k Hk; apply Hb; lia). split.
  - split; [lia|rewrite H0; destruct Hsg as [->| ->]; auto|by rewrite Hw|]. rewrite Hb by lia. done.
  - unfold bigval. rewrite Hw. by apply nth_lookup_Some with (d := 0) in H0 as ->.
Qed.

Lemma val_one_digit (a : list Z) n : bigint_ok a n → a !! 1%nat = Some 0 → n = 1%nat ∧ val (win a 1 n) = 0.
Proof. intros Ha H1. destruct (bi_norm _ _ Ha) as [->|]; [|done]. split; [done|]. by rewrite (win_cons _ _ _ _ H1). Qed.

(** Dividing two big integers in the code's representation ([divModBigint]) gives the
    quotient, or with the flag the remainder, of the two integers, truncated towards zero
    and with the signs of C, again in a correct representation; it ends after at most
    four guesses for each digit, no guess or carry overflows an [int], and no access
    leaves the arrays when each has one [int] more than the code asks [alloca] for.
    A divisor 0 is the error [ERR_MATH]. *)
Lemma divModBigint_correct (x y r q p : list Z) (nx ny : nat) (rmndr : bool) (Hx : bigint_ok x nx) (Hy : bigint_ok y ny)
    (Hr : (alloca_r nx + 1 ≤ length r)%nat) (Hq : (alloca_q nx ny + 1 ≤ length q)%nat) (Hp : (alloca_p nx + 1 ≤ length p)%nat) :
  if decide (bigval y ny = 0) then divModBigint x nx y ny rmndr r q p = Fail ERR_MATH
  else ∃ z n, divModBigint x nx y ny rmndr r q p = Ok (z, n) ∧ bigint_ok z n ∧
    bigval z n = if rmndr then Z.rem (bigval x nx) (bigval y ny) else Z.quot (bigval x nx) (bigval y ny).
Proof.
  unfold alloca_r, alloca_q, alloca_p in *. pose proof (bi_size _ _ Hx) as [Hnx Hlx]. pose proof (bi_size _ _ Hy) as [Hny Hly].
  destruct (bigint_sign _ _ Hx) as (sx & Hsx & Hsx1). destruct (bigint_sign _ _ Hy) as (sy & Hsy & Hsy1).
  rewrite (bigval_sign _ _ _ Hsx), (bigval_sign _ _ _ Hsy). pose proof (val_digits _ _ _ (bi_digits _ _ Hx) ltac:(lia)) as Hvx.
  destruct (bigint_first _ _ Hy) as (dy & Hdy & _). unfold divModBigint. rewrite (rd_ok _ _ _ Hdy). cbn [mbind result_bind].
  destruct (decide (dy = 0)) as [->|Hdy0].
  { destruct (val_one_digit _ _ Hy Hdy) as [-> Hv]. rewrite Hv, decide_True by lia. done. }
  assert (Hy1 : y !! 1%nat ≠ Some 0) by congruence. pose proof (divisor_pos y ny Hy Hy1) as HY.
  rewrite decide_False by (destruct Hsy1 as [->| ->]; lia). rewrite (proj2 (Z.eqb_neq dy 0)) by done. cbn [andb].
  rewrite (cmpAbsBigint_spec _ _ _ _ Hx Hy). cbn [mbind result_bind].
  pose proof (signed_division sx sy (val (win x 1 nx)) (val (win y 1 ny)) Hsx1 Hsy1 ltac:(lia) HY) as [Equot Erem]. rewrite Equot, Erem.
  destruct (decide (val (win x 1 nx) < val (win y 1 ny))) as [Hlt|Hge].
  { rewrite (proj2 (Z.compare_lt_iff _ _)) by done. cbn [sign_of Z.ltb Z.compare]. rewrite Z.div_small, Z.mod_small by lia. destruct rmndr.
    - rewrite (proj2 (Nat.leb_le _ _)) by lia. exists (take (nx + 1) x), nx. split; [done|].
      destruct (result_ok x nx sx Hnx Hlx (bi_digits _ _ Hx) (bi_norm _ _ Hx) Hsx1) as [H1 H2].
      rewrite list_insert_id in H1, H2 by (by rewrite lookup_take_lt by lia). done.
    - exists [1; 0], 1%nat. split; [done|]. split; [apply bigint_ok_1; [by left|unfold digit_ok, BIGINT_BASE; lia]|]. change (bigval [1; 0] 1) with 0. lia. }
  assert (Ec : (sign_of (val (win x 1 nx) ?= val (win y 1 ny)) <? 0) = false) by (destruct (Z.compare_spec (val (win x 1 nx)) (val (win y 1 ny))); [done|lia|done]).
  rewrite Ec. clear Ec. rewrite !wr_ok by lia. cbn [mbind result_bind].
  assert (Hx1 : x !! 1%nat ≠ Some 0) by (intros H; destruct (val_one_digit _ _ Hx H); lia).
  assert (Hnyx : (ny ≤ nx)%nat).
  { apply Nat.nlt_ge. intros H. pose proof (divisor_lead y ny Hy Hy1). pose proof (Z.pow_le_mono_r BIGINT_BASE (Z.of_nat nx) (Z.of_nat (ny - 1)) ltac:(done) ltac:(lia)). lia. }
  destruct (division_loop x y nx ny Hx Hy Hx1 Hy1 Hnyx (<[0%nat := 1]> r) (<[0%nat := 1]> q) (<[0%nat := 1]> p)) as (yF & st & EyF & E & Ht);
    [rewrite ?length_insert; lia..|by rewrite list_lookup_insert_eq by lia|by rewrite list_lookup_insert_eq by lia|].
  rewrite EyF. cbn [mbind result_bind]. rewrite E. cbn [mbind result_bind]. rewrite (rd_ok _ _ _ Hsx), (rd_ok _ _ _ Hsy). cbn [mbind result_bind].
  destruct Ht as [Hlr Hlq _ _ Hnr [HFr HFq] Hsq Hnorm Hval Hlt]. pose proof (val_digits _ _ _ HFr ltac:(lia)) as Hvr.
  assert (Hsq1 : (1 ≤ sq st ∧ sq st + ny ≤ S nx)%nat ∧ ld_q st !! 1%nat ≠ Some 0).
  { destruct Hsq as [[E0 _]|H]; [|done]. exfalso. rewrite E0, win_0 in Hval. cbn in Hval. lia. }
  assert (Hdiv : val (win x 1 nx) / val (win y 1 ny) = val (win (ld_q st) 1 (sq st)) ∧ val (win x 1 nx) mod val (win y 1 ny) = val (win (ld_r st) 1 (nr st))).
  { assert (H : val (win x 1 nx) = val (win y 1 ny) * val (win (ld_q st) 1 (sq st)) + val (win (ld_r st) 1 (nr st))) by lia.
    split; symmetry; [apply (Z.div_unique_pos _ _ _ _ (conj (proj1 Hvr) Hlt) H)|apply (Z.mod_unique_pos _ _ _ _ (conj (proj1 Hvr) Hlt) H)]. }
  destruct Hdiv as [-> ->]. destruct rmndr.
  - rewrite (proj2 (Nat.leb_le _ _)) by lia. do 2 eexists. split; [done|]. assert (Hn1 : (1 ≤ nr st)%nat ∧ (nr st = 1%nat ∨ ld_r st !! 1%nat ≠ Some 0)) by (destruct Hnorm as [?|[[? ?]|[_ ?]]]; [lia|auto|lia]).
    apply result_ok; [lia|lia|done|apply Hn1|done].
  - rewrite (proj2 (Nat.leb_le _ _)) by lia. do 2 eexists. split; [done|].
    apply result_ok; [lia|lia|done|right; apply Hsq1|destruct Hsx1 as [->| ->], Hsy1 as [->| ->]; auto].
Qed.

(** The arrays as they are asked for are too short by one [int]: 7 by 2, the quotient and
    the remainder. *)
Example alloca_too_short :
  divModBigint [1; 7] 1 [1; 2] 1 false [0; 0] [0] [0; 0] = UB ∧ divModBigint [1; 6] 1 [1; 2] 1 true [0; 0] [0; 0] [0; 0] = UB ∧
  divModBigint [1; 999999999] 1 [1; 1] 1 false [0; 0; 0] [0; 0; 0] [0; 0] = UB.
Proof. vm_compute. done. Qed.

Lemma divModBigint_correct_witness :
  ∃ z n, divModBigint [-1; 5; 0; 7] 3 [1; 3; 999999999] 2 true (replicate 5 0) (replicate 3 0) (replicate 5 0) = Ok (z, n) ∧
    bigint_ok z n ∧ bigval z n = -1250000007.
Proof.
  assert (Hx : bigint_ok [-1; 5; 0; 7] 3) by (split; [cbn; lia|by right|repeat constructor; unfold BIGINT_BASE; lia|by right]).
  assert (Hy : bigint_ok [1; 3; 999999999] 2) by (split; [cbn; lia|by left|repeat constructor; unfold BIGINT_BASE; lia|by right]).
  pose proof (divModBigint_correct _ _ (replicate 5 0) (replicate 3 0) (replicate 5 0) 3 2 true Hx Hy ltac:(cbn; lia) ltac:(cbn; lia) ltac:(cbn; lia)) as H.
  rewrite decide_False in H by (vm_compute; done). exact H.
Defined.

(** ** The operators *)

Definition exact_op (op : arith) (a b : Z) : result Z :=
  match op with
  | A_ADD => Ok (a + b)
  | A_SUBTRACT => Ok (a - b)
  | A_MULTIPLY => Ok (a * b)
  | A_DIVIDE => if b =? 0 then Fail ERR_MATH else Ok (Z.quot a b)
  | A_MODULO => if b =? 0 then Fail ERR_MATH else Ok (Z.rem a b)
  | _ => Fail ERR_BIGINT_NOT_ALLOWED
  end.

Fixpoint exact_ops (op : arith) (a : Z) (l : list Z) : result Z :=
  match l with [] => Ok a | b :: l => c ← exact_op op a b; exact_ops op c l end.

Definition exact_arithmetic (op : arith) (a : Z) (l : list Z) : result Z :=
  match l, op with
  | [], A_SUBTRACT => Ok (- a)
  | [], (A_ADD | A_MULTIPLY | A_DIVIDE | A_MODULO) => Ok a
  | [], _ => Fail ERR_BIGINT_NOT_ALLOWED
  | _, _ => exact_ops op a l
  end.

(** The representation of an outcome. *)
Definition represented (res : result (list Z * nat)) (v : result Z) : Prop :=
  match v with
  | Ok v => ∃ z n, res = Ok (z, n) ∧ bigint_ok z n ∧ bigval z n = v
  | Fail e => res = Fail e
  | _ => False
  end.

Section Operations.

Context (malloc alloca : nat → list Z) (Hmalloc : ∀ n, length (malloc n) = n) (Halloca : ∀ n, (n + 1 ≤ length (alloca n))%nat).

Lemma bigint_op_exact op x nx y ny : bigint_ok x nx → bigint_ok y ny →
  represented (bigint_op malloc alloca op x nx y ny) (exact_op op (bigval x nx) (bigval y ny)).
Proof.
  intros Hx Hy. assert (Hn : (Nat.max nx ny + 2)%nat = (if Nat.ltb ny nx then nx + 2 else ny + 2)%nat) by (destruct (Nat.ltb_spec ny nx); lia).
  assert (Hdiv : ∀ rm, represented (divModBigint x nx y ny rm (alloca (alloca_r nx)) (alloca (alloca_q nx ny)) (alloca (alloca_p nx)))
    (if bigval y ny =? 0 then Fail ERR_MATH else Ok (if rm then Z.rem (bigval x nx) (bigval y ny) else Z.quot (bigval x nx) (bigval y ny)))).
  { intros rm. pose proof (divModBigint_correct x y (alloca (alloca_r nx)) (alloca (alloca_q nx ny)) (alloca (alloca_p nx)) nx ny rm Hx Hy (Halloca _) (Halloca _) (Halloca _)) as H.
    destruct (Z.eqb_spec (bigval y ny) 0) as [E|E]; [by rewrite decide_True in H|by rewrite decide_False in H]. }
  destruct op; cbn [bigint_op exact_op]; [| | |exact (Hdiv false)|done..|exact (Hdiv true)].
  - destruct (addBigint_spec x nx y ny (malloc (Nat.max nx ny + 2)) Hx Hy) as (s & n & E & H); [by rewrite Hmalloc|]. rewrite <- Hn, E. by exists s, n.
  - destruct (subBigint_spec x nx y ny (malloc (Nat.max nx ny + 2)) Hx Hy) as (s & n & E & H); [by rewrite Hmalloc|]. rewrite <- Hn, E. by exists s, n.
  - destruct (mulBigint_spec x nx y ny (malloc (nx + ny + 2)) Hx Hy) as (s & n & E & H); [rewrite Hmalloc; lia|]. rewrite E. by exists s, n.
Qed.

Lemma bigint_ops_exact op l : ∀ x nx, bigint_ok x nx → Forall (λ y, bigint_ok y.1 y.2) l →
  represented (bigint_ops malloc alloca op x nx l) (exact_ops op (bigval x nx) ((λ y, bigval y.1 y.2) <$> l)).
Proof.
  induction l as [|[y ny] l IH]; intros x nx Hx Hl; [by exists x, nx|]. inversion_clear Hl as [|? ? Hy Hl']. cbn [bigint_ops exact_ops fmap list_fmap fst snd].
  pose proof (bigint_op_exact op x nx y ny Hx Hy) as H. destruct (exact_op op (bigval x nx) (bigval y ny)) as [v| | |]; [|by rewrite H|done|done].
  destruct H as (z & n & -> & Hz & <-). cbn [mbind result_bind]. by apply IH.
Qed.

(** C6: the operators on big integers are exact: [arithmetikOp] with a big integer first
    answers for any number of operands the sum, difference, product, quotient or remainder
    of the integers they stand for, each in a correct representation; a divisor 0 is the
    error [ERR_MATH] and the other operators are the error [ERR_BIGINT_NOT_ALLOWED].  The
    long division ends after at most four guesses for each digit, which are taken from
    rounded doubles, nothing overflows an [int], and no access leaves a buffer, if the
    blocks of [alloca] have room for one [int] more than they are asked for. *)
Theorem arithmetikOp_bigint_exact (op : arith) (x : list Z) (nx : nat) (operands : list (list Z * nat))
    (Hx : bigint_ok x nx) (Hops : Forall (λ y, bigint_ok y.1 y.2) operands) :
  represented (arithmetikOp_bigint malloc alloca op x nx operands)
    (exact_arithmetic op (bigval x nx) ((λ y, bigval y.1 y.2) <$> operands)).
Proof.
  destruct operands as [|y l]; [|by apply (bigint_ops_exact op (y :: l))].
  destruct op; cbn [arithmetikOp_bigint bigint_unary exact_arithmetic fmap list_fmap]; try done; try by exists x, nx.
  destruct (bigint_sign _ _ Hx) as (sx & Hsx & Hsg). pose proof (bi_size _ _ Hx) as [Hnx Hlx]. rewrite (rd_ok _ _ _ Hsx). cbn [mbind result_bind].
  rewrite wr_ok by lia. cbn [mbind result_bind]. eexists _, nx. split; [done|].
  assert (Hw : win (<[0%nat := sx * -1]> x) 1 nx = win x 1 nx) by (apply win_insert_out; lia). 
  assert (H0 : <[0%nat := sx * -1]> x !! 0%nat = Some (sx * -1)) by (rewrite list_lookup_insert_eq; [done|lia]). split.
  - split; [rewrite length_insert; lia|rewrite H0; destruct Hsg as [->| ->]; auto|rewrite Hw; apply Hx|rewrite list_lookup_insert_ne by lia; apply Hx].
  - rewrite (bigval_sign _ _ _ Hsx), (bigval_sign _ _ _ H0), Hw. lia.
Qed.

End Operations.

Lemma arithmetikOp_bigint_exact_witness :
  represented (arithmetikOp_bigint (λ n, replicate n 7) (λ n, replicate (n + 1) 7) A_DIVIDE [-1; 5; 0; 7] 3 [([1; 3; 999999999], 2%nat); ([1; 10], 1%nat)])
    (Ok (-125000000)).
Proof.
  apply (arithmetikOp_bigint_exact (λ n, replicate n 7) (λ n, replicate (n + 1) 7)
    (λ n, length_replicate n 7) (λ n, eq_ind_r (λ m, (n + 1 ≤ m)%nat) (Nat.le_refl _) (length_replicate (n + 1) 7))
    A_DIVIDE [-1; 5; 0; 7] 3 [([1; 3; 999999999], 2%nat); ([1; 10], 1%nat)]).
  - split; [cbn; lia|by right|repeat constructor; unfold BIGINT_BASE; lia|by right].
  - repeat constructor; cbn; (lia || by left || by right || (unfold digit_ok, BIGINT_BASE; lia) || (intros; done)).
Defined.

(** ** The number of digits *)

Lemma length_loop_spec k : ∀ fuel b cnt, (k < fuel)%nat → 1 ≤ b < 10 ^ (Z.of_nat k + 1) →
  ∃ j, 0 ≤ j ≤ Z.of_nat k ∧ length_loop fuel b (10 ^ Z.of_nat k) cnt = Ok (cnt + j) ∧ 10 ^ (Z.of_nat k - j) ≤ b < 10 ^ (Z.of_nat k - j + 1).
Proof.
  induction k as [|k IH]; intros fuel b cnt Hf Hb; (destruct fuel as [|fuel]; [lia|]); cbn [length_loop].
  - exists 0. cbn in Hb |- *. rewrite Z.quot_1_r, (proj2 (Z.eqb_neq b 0)), Z.add_0_r by lia. split; [lia|]. split; [done|lia].
  - pose proof (Z.pow_pos_nonneg 10 (Z.of_nat k) ltac:(lia) ltac:(lia)) as HP.
    assert (E : 10 ^ Z.of_nat (S k) = 10 * 10 ^ Z.of_nat k) by (rewrite Nat2Z.inj_succ, Z.pow_succ_r; lia).
    rewrite (proj2 (Z.eqb_neq _ 0)) by lia. destruct (Z.eqb_spec (Z.quot b (10 ^ Z.of_nat (S k))) 0) as [Hz|Hz].
    + apply Z.quot_small_iff in Hz; [|lia]. replace (Z.quot (10 ^ Z.of_nat (S k)) 10) with (10 ^ Z.of_nat k) by (rewrite E, Z.mul_comm, Z.quot_mul; lia).
      destruct (IH fuel b (cnt + 1)) as (j & Hj & -> & Hr); [lia| |].
      { replace (Z.of_nat k + 1) with (Z.of_nat (S k)) by lia. lia. }
      exists (j + 1). split; [lia|]. split; [f_equal; lia|]. by replace (Z.of_nat (S k) - (j + 1)) with (Z.of_nat k - j) by lia.
    + exists 0. rewrite Z.add_0_r, Z.sub_0_r. split; [lia|]. split; [done|]. split; [|lia]. apply Z.nlt_ge. intros H. apply Hz. apply Z.quot_small. lia.
Qed.

(** [lengthBigint] counts the decimal digits. *)
Lemma lengthBigint_digits x n : bigint_ok x n → val (win x 1 n) ≠ 0 →
  ∃ d, lengthBigint x n = Ok d ∧ 1 ≤ d ∧ 10 ^ (d - 1) ≤ val (win x 1 n) < 10 ^ d.
Proof.
  intros Hx Hv. pose proof (bi_size _ _ Hx) as [Hn Hl]. destruct (bigint_first _ _ Hx) as (b & Hb & Db). unfold digit_ok, BIGINT_BASE in Db.
  assert (Hb0 : b ≠ 0) by (intros ->; destruct (val_one_digit _ _ Hx Hb); done). unfold lengthBigint. rewrite (rd_ok _ _ _ Hb). cbn [mbind result_bind].
  rewrite (proj2 (Z.eqb_neq b 0)) by done. destruct (length_loop_spec 8 10 b 0) as (j & Hj & E & Hr); [lia|cbn; lia|].
  change (BIGINT_BASE / 10) with (10 ^ Z.of_nat 8). rewrite E. cbn [mbind result_bind]. eexists. split; [done|]. split; [lia|].
  destruct n as [|n]; [lia|]. pose proof (bi_digits _ _ Hx) as HF. rewrite (win_cons _ _ _ _ Hb) in HF. inversion_clear HF as [|? ? _ HF'].
  pose proof (val_digits _ _ _ HF' ltac:(lia)) as Hrest. rewrite (val_win_cons _ _ _ _ Hb) by lia.
  assert (EB : BIGINT_BASE ^ Z.of_nat n = 10 ^ (9 * Z.of_nat n)) by (rewrite Z.pow_mul_r by lia; done). rewrite EB in Hrest |- *.
  pose proof (Z.pow_pos_nonneg 10 (9 * Z.of_nat n) ltac:(lia) ltac:(lia)) as HP. set (P := 10 ^ (9 * Z.of_nat n)) in *.
  replace (9 * (Z.of_nat (S n) - 1) + 9 - (0 + j) - 1) with (Z.of_nat 8 - j + 9 * Z.of_nat n) by lia.
  replace (9 * (Z.of_nat (S n) - 1) + 9 - (0 + j)) with (Z.of_nat 8 - j + 1 + 9 * Z.of_nat n) by lia.
  rewrite !(Z.pow_add_r 10 _ (9 * Z.of_nat n)) by lia. fold P. split.
  - assert (10 ^ (Z.of_nat 8 - j) * P ≤ b * P) by (apply Z.mul_le_mono_nonneg_r; lia). lia.
  - assert ((b + 1) * P ≤ 10 ^ (Z.of_nat 8 - j + 1) * P) by (apply Z.mul_le_mono_nonneg_r; lia). lia.
Qed.
